(* ===== verification/_CoqProject ===== *)
-Q . S2P
Prelude.v
BTree.v
ZAlg.v
Value.v
ZSet.v
Plan.v
Bind.v
Codec.v
State.v
Operator.v
Linear.v
Distinct.v
Join.v
Aggregate.v
Oracle.v
ResultStore.v
Circuit.v
Dataflow.v
Engine.v
Compile.v
AggEquiv.v
Equiv.v
Invariants.v
Text.v
LogRecord.v
Log.v
LogCorrect.v
PlanForm.v
MemoGraph.v
Memo.v
MemoAttach.v
MemoShare.v
MemoCorrect.v
MemoLaws.v
MemoReport.v
Snapshot.v
SnapshotCorrect.v
Compaction.v
CompactionCorrect.v
CompactionLaws.v
ParquetModel.v
CompactionTheorems.v
Checkpoint.v
ServerParts.v
Server.v
ServerInv.v
ServerLaws.v
ServerExample.v
ServerTheorems.v
Wire.v
Handlers.v
WireTheorems.v
SqlParse.v
SqlSelect.v
SqlNames.v
SqlDoors.v
Vfs.v
Pager.v
PagerCorrect.v
Wal.v
WalInv.v
WalCommit.v
Envelope.v
Bridge.v
Maintenance.v
StoreCorrect.v
BridgeLog.v
BridgeQueue.v
StoreExample.v
StoreTheorems.v
BridgeTheorems.v
