(* ===== verification/Prelude.v ===== *)
(** * MutinyDB: from a durable write to a maintained answer, verified

    MutinyDB composes four engines.  A write becomes a commit of the substrate
    (src/components/substrate), a page store with a write-ahead log; the bridge
    (src/crates/mutiny-bridge) carries each commit, with the envelope that says who
    wrote it, as one epoch into the compute plane; and the compute plane, Schweep
    (src/components/schweep), keeps the answers of standing queries up to date as
    epochs of weighted changes are sealed.  This library models that path, the
    substrate's store, the bridge and all of Schweep, and proves the laws the
    repository's documents state for them.

    ** The program and the files that model it

    A relation is a Z-set: rows with integer weights.  A query is bound against
    a catalog, compiled to a circuit plan and instantiated as a graph of
    operators, each keeping its state in an ordered key-value backend.  A step
    pushes one epoch's deltas through the graph and folds the outputs and the
    evaluation errors into the stores behind each answer.  The oracle is the
    reference: it recomputes a query from the whole log.

    - [Prelude], [BTree], [ZAlg]: results and the [?] operator, 64-bit bounds,
      comparison classes; [BTreeMap] as a sorted association list; the algebra
      of weighted lists ([weight], the equivalence, [zbind], canonical forms).
    - [Value], [ZSet]: crate schweep-zset.  Values with their total order, rows,
      schemas; batches, addition, negation, consolidation, epoch deltas.
    - [Plan], [Bind]: crate schweep-plan.  Queries and errors,
      three-valued evaluation with checked arithmetic, name resolution and
      typing.
    - [Codec], [State]: crate schweep-state.  The order-preserving key codec, the
      backend interface [StateBackend] with its laws [BackendLaws], the in-memory
      backend.
    - [Operator], [Linear], [Distinct], [Join], [Aggregate]: crate
      schweep-ops.  The operator interface and the five operators; [Aggregate]
      begins with the conversion and division AVG uses, on the bits of a binary64.
    - [Oracle]: crate schweep-oracle.
    - [ResultStore], [Circuit]: crate schweep-circuit.  The stores behind answers;
      building, sinks, passes, steps, catching up, rewiring, state declarations,
      snapshots.
    - [Dataflow]: what a pass computes, over any operators that satisfy
      [OperatorLaws]; [Engine] shows that the five operators do.
    - [Compile]: crate schweep-sql's incrementalizer and
      instantiation, and that the circuit of a plan computes the plan.
    - [AggEquiv], [Equiv]: the oracle's stages
      computed as functions of the tables, and their agreement with plans.
    - [Invariants]: the laws over the whole pipeline.
    - [LogRecord], [Log], [LogCorrect]: crate schweep-log.  The seams a
      crash is injected at; the record format, its frames and checksum, the
      ledger of tokens; the log over a directory of segment files (opening,
      recovery, appending, sealing, reading, compaction) and the streaming
      reader; the abstract log it refines.
    - [Text]: the standard library's operations on UTF-8 text the file formats
      use (splitting, trimming, lines, numbers in decimal and hexadecimal), with
      the laws of reading what was printed.
    - [Snapshot], [SnapshotCorrect]: crate schweep-batch's snapshot.rs.  The
      manifest, the ledger of sources, tables as Parquet files, loading and
      streaming; that each reads back what was written.
    - [Compaction]: schweep-batch's compact.rs, hydrate.rs, source.rs and
      oneshot.rs.  [CompactionCorrect] is what its folds compute
      and the names of its files, [CompactionLaws] the invariant that every seam of
      a compaction keeps and runs of a database that compacts,
      [CompactionTheorems] what they promise.  [ParquetModel] is an
      instance of the Parquet interface, for the examples.
    - [PlanForm], [MemoGraph]: the structural form and hash of a plan
      (schweep-sql) and its canonical form (schweep-memo, canonical.rs); the
      shape of compiled plans.
    - [Memo]: crate schweep-memo's registry, which runs all standing queries in
      one circuit: registration with catch-up, sharing of equal subtrees,
      reference counts, retirement, sealing, the input cache, accounting, audit.
    - [MemoGraph], [MemoAttach], [MemoShare]: a circuit
      whose nodes are labelled with the plans they compute, and what freeing,
      attaching, catching up and sharing do to it.
    - [MemoCorrect], [MemoLaws]: the registry's contract, its
      invariant, and the laws of every reachable registry, and runs
      where they stop.
    - [Checkpoint]: schweep-circuit's checkpoint.rs.  Taking
      a checkpoint with its seams, loading one, and what damage does.
    - [ServerParts], [Server]: crate schweep-server's error.rs and
      admission.rs, registry_file.rs, and engine.rs: the engine that composes the
      log, the memo, compaction and the checkpoints, with ingest, seal,
      transactions, retraction of a source, registration, reads, subscriptions
      and recovery.  [Server] also has what its loops compute, [ServerInv] the
      contract of a serving engine and that each operation keeps it,
      [ServerLaws] runs with deaths and restarts, [ServerExample] a concrete run,
      [ServerTheorems] what the server promises, its gate and its retractions
      included, and runs where it does not.
    - [MemoReport]: schweep-memo's explain.rs, costs.rs and
      maintenance.rs and the state fingerprint of a circuit: the reports on
      standing state and the reconciliation with the dataflow.
    - [Wire]: schweep-server's wire.rs and client.rs, over the
      bytes of one connection.  [Handlers]: server.rs, every endpoint, and the
      client's side of each.  [WireTheorems]: a call through the wire.
    - [SqlParse], [SqlSelect]: schweep-sql's parse.rs,
      expr.rs and select.rs, from the syntax tree of a statement to a bound
      query.  [SqlNames] is what the columns of an accepted SELECT hold,
      [SqlDoors] the SQL door beside the typed one.
    - [Vfs]: crate substrate-pager's testing.rs: a disk in memory and the machine
      that dies after a chosen number of written bytes.  [Pager]: page.rs,
      manifest.rs, cas.rs, pager.rs and gc.rs: pages named by their hash, manifests
      flat or as overlays, transactions, reading through an overlay chain,
      collection.  [PagerCorrect] is what a manifest on disk means and what a
      collection keeps.
    - [Wal]: crate substrate-wal: records, segments, the commit point, checkpoints,
      recovery and the durable store.  [Wal] also has frames and torn
      tails, [WalInv] the invariant between log, manifests and pages and the disk a
      crash leaves, [WalCommit] that a commit keeps the invariant or dies.
    - [Envelope]: crate loom-core's envelope.rs: who wrote, why
      and from what, and what its signature covers.
    - [Bridge]: crate mutiny-bridge: capturing a write in its commit, the pending
      captures of a store, applying a capture as an epoch of the log, pruning and
      collapse.  [Maintenance] has collapse and sweep over the store's invariant;
      [StoreCorrect] lifetimes of a store and their specification, [StoreTheorems]
      what they promise; [BridgeLog] the epoch boundary over the log's contract,
      [BridgeQueue] the queue of captures and lifetimes of writes,
      [BridgeTheorems] what they promise.  [StoreExample] instantiates the
      parameters for the examples.

    ** Correspondence

    Operations keep the source's names; a method whose name several types share
    is prefixed with the type.  [Result] is [result], [?] is [let?].  Methods on
    [&mut self] take a state and return the new state beside the result, so a
    failed call shows what it left behind.  Loops that can fail are [try_fold],
    [try_map] or [try_for] over the source's loop body, which is a definition
    of its own.  Integers are [Z] with [checked_add], [checked_mul], [wrap_i64]
    and the conversions of the source written out.  A trait is a class and a
    boxed trait object a sum of its implementations ([Engine.AnyOp]).

    ** What the theorems show

    - [Invariants]: the circuit's answer is the plan over the accumulated tables;
      it equals the oracle's answer (I-1), errors included for queries without
      GROUP BY; it depends only on the contents (I-2); retraction undoes (I-5);
      and two places where the laws stop, on concrete circuits.
    - [MemoLaws]: a registry refines its contract, so sharing is invisible (I-8),
      a standing query reads what its own circuit and the oracle answer; retiring
      always succeeds and leaks nothing; with sharing there is one node per
      distinct subtree; the audit passes.  They assume that the hash tells the
      registered subtrees apart; one theorem has two plans it confuses.
    - [LogCorrect]: through appends, seals, restarts, crashes between steps and
      compactions the log refines an abstract log and an acknowledged batch is
      in it exactly once (I-4, I-7); a write torn at any byte is discarded; and
      the case where a batch acknowledged after a torn tail is lost.
    - [CompactionTheorems]: a database that compacts, dies inside compactions and
      restarts cannot be told from one that never compacts (I-7); a compaction
      can be completed from every reachable state; the snapshot streams the
      epochs it replaced; a one-shot query answers as a standing one.  They
      assume that table names are single words and path components; one theorem
      shows what happens to a name with a space.
    - [Checkpoint]: whatever seams checkpoints died at, loading gives the
      newest complete one; a damaged one is passed over.
    - [ServerTheorems]: through ingests, seals, registrations, retirements,
      compactions, checkpoints, deaths at any seam and restarts, a read gives
      the query over every sealed epoch (I-3); a restart always succeeds and
      drops no query (D-22); a subscriber misses no epoch and holds the answer
      (D-23).  The gate bounds each source's queue.
      A retraction removes a source and nothing else.
      Concrete runs: a retraction dropped as a replay, a seal that fails
      half-way, a queue forgotten at a restart.
    - [MemoReport]: in every reachable registry the report succeeds and
      reconciles.  [WireTheorems]: a client's call through the bytes of a
      connection is the call of the engine, and where it is not.
    - [SqlDoors]: a typed query written as SQL binds back to itself, so both doors
      compile to one plan (I-6); no clause is ignored (S-35).  [SqlNames]: an
      accepted SELECT answers its select list (S-36), and where it does not.
    - [StoreTheorems]: a store that dies at any written byte, any number of times,
      opens again and reads at every version of its history what its acknowledged
      commits made, the interrupted one whole or not at all; without faults every
      operation is acknowledged; a collection keeps everything reachable.  They are
      about hosts that take a checkpoint after recovery; one theorem shows what
      happens to one that does not, and one what happens to two transactions at
      once.  They assume that the hash does not collide on the pages and manifests
      of the run.
    - [BridgeTheorems]: the captures of acknowledged writes survive every crash as
      a queue without gaps; a capture becomes exactly one epoch, with its batches,
      whatever seams stop the attempts; and how pruning can damage the queue.
    - [Envelope]: what a signature covers and what it does not.
    - [LogRecord]: frames and the ledger round trip; a damaged frame is never
      read as a record.
    - Operators: each step emits exactly the change of the operator's relational
      meaning over its accumulated input, and of its errors.
    - Stores and codec: writes are all or nothing, prefix scans are exact, the
      encoded order is the value order, snapshots round trip, result stores hold
      the canonical sum of what they absorbed.
    - Binding: a bound query is typed, and typed expressions evaluate to values of
      their type or raise one of the three evaluation errors.
    - Z-sets: consolidation is canonical, idempotent and decides equivalence.

    ** Bounds and fuel

    The recursion of the code is structural over its lists, except for the
    search for a sink's ancestors: its loop takes fuel from the graph's size,
    and [Circuit.ancestors_of_spec] shows that this is enough; and for the
    readers of the log, whose loops take fuel from the number of bytes left
    ([LogRecord.rd_count_fuel], [Log.replay_loop_fuel] show that it is enough);
    and for the registry's recursive free, whose fuel is the number of nodes
    ([MemoAttach.drop_ref_ok] shows that it is enough); and for the stream of a
    snapshot, whose fuel is the number of tables and batches left
    ([SnapshotCorrect.chunks_loop_fuel]); a registration of the server collects
    its chunks with the fuel [Server.chunks_left] computes from the manifest
    ([Server.chunks_collect_all]); the frames of a request body are read
    with the fuel of its length ([WireTheorems.decode_frames_sent]); an overlay
    chain is walked with the bound the code has (ten), the replay of a segment with
    its length, the walk over a history with the number of manifests on disk
    ([BridgeQueue.recover_pending_ok] shows that it is enough), and the search for
    reachable manifests with [Pager.walk_fuel] ([Maintenance.reachable_from_total]).
    Theorems on running
    circuits assume that at every node and pass the weights' magnitudes sum to at
    most [i64::MAX] ([plan_small], a computation), because aggregate
    totals are added unchecked; and that the integers of the log are machine
    integers, which the source's types ensure.

    ** Parameters

    Parquet files and the Arrow batches read from them are the class
    [Snapshot.Parquet]; [SnapshotCorrect.ParquetLaws] states that what was
    written is read back, in batches of any size.  SQL text becomes a
    syntax tree by the third-party parser, the class [SqlParse.SqlParser], and the
    texts the tree prints are [SqlParse.AstText]; the server takes the way from
    text to a query as [Server.SqlText], of which [SqlDoors.sql_door] is the
    instance; the texts of errors are [Server.ErrorText]; a new backend
    factory, which opens a directory of its own, is [Server.FreshFactory], and the
    text a factory describes itself with is [MemoReport.DescribeFactory].
    BLAKE3 is [Pager.Blake3]; bincode and CRC-32C of the substrate are
    [Pager.ManifestCodec] and [Wal.RecordCodec], that of a capture
    [Bridge.CaptureCodec], each with the law that what was encoded is decoded, a
    record with a payload within its bound and a checksum of 32 bits; Ed25519 is
    [Envelope.Ed25519], with the law that a signature has 64 bytes and verifies.

    ** Not modelled

    The Arrow arrays inside a batch, the redb backend, the errors of the
    operating system, the EXPLAIN rendering of a plan, the decimal text of the
    binary64 a reconciliation prints, the sockets of the server; the locks of the
    pager, which one thread uses here, its diffs, branches and scrubbing; of
    MutinyDB, the tiered and encrypted storage of the substrate, LoomDB but for its
    envelopes, PrismDB and the mutiny crates but for the bridge: they are beside the
    path from a write to its answer, or hosts that compose what is modelled. *)

(** ** The shared vocabulary *)

From stdpp Require Import base list strings numbers.
From Stdlib Require Import ZArith NArith Lia Bool Sorted.

#[global] Open Scope Z_scope.

(** ** Results

    Rust's [Result<T, E>]; [let? x := e in k] is the [?] operator. *)

Inductive result (E A : Type) : Type :=
| Ok (a : A)
| Err (e : E).
Arguments Ok {E A} a.
Arguments Err {E A} e.

Declare Scope result_scope.
Delimit Scope result_scope with result.
Open Scope result_scope.

Notation "'let?' x ':=' c1 'in' c2" :=
  (match c1 with Ok x => c2 | Err err => Err err end)
  (at level 10, x name, c1 at level 200, c2 at level 200) : result_scope.
Notation "'let?' ' p ':=' c1 'in' c2" :=
  (match c1 with Ok p => c2 | Err err => Err err end)
  (at level 10, p strict pattern, c1 at level 200, c2 at level 200) : result_scope.
Notation "'check?' c1 'in' c2" :=
  (match c1 with Ok _ => c2 | Err err => Err err end)
  (at level 10, c1 at level 200, c2 at level 200) : result_scope.

Definition map_err {E F A} (f : E -> F) (r : result E A) : result F A :=
  match r with Ok a => Ok a | Err e => Err (f e) end.

Definition map_ok {E A B} (f : A -> B) (r : result E A) : result E B :=
  match r with Ok a => Ok (f a) | Err e => Err e end.

Definition ok_or {E A} (o : option A) (e : E) : result E A :=
  match o with Some a => Ok a | None => Err e end.

Definition is_ok {E A} (r : result E A) : bool :=
  match r with Ok _ => true | Err _ => false end.

(** A [for] loop whose body may return early with an error. *)
Fixpoint try_fold {E A S} (body : S -> A -> result E S) (s : S) (l : list A) : result E S :=
  match l with
  | [] => Ok s
  | x :: l' => let? s' := body s x in try_fold body s' l'
  end.

(** A [for] loop that only checks. *)
Fixpoint try_for {E A} (body : A -> result E unit) (l : list A) : result E unit :=
  match l with
  | [] => Ok tt
  | x :: l' => check? body x in try_for body l'
  end.

(** A [for] loop that collects one output per element. *)
Fixpoint try_map {E A B} (f : A -> result E B) (l : list A) : result E (list B) :=
  match l with
  | [] => Ok []
  | x :: l' => let? y := f x in let? ys := try_map f l' in Ok (y :: ys)
  end.

(** ** Machine integers

    An [i64] is a [Z]; every operation the source performs on one is checked,
    saturating or wrapping, and which one is written out at each use. *)

Definition i64_min : Z := - 2 ^ 63.
Definition i64_max : Z := 2 ^ 63 - 1.
Definition in_i64 (z : Z) : bool := (i64_min <=? z) && (z <=? i64_max).

Definition i128_min : Z := - 2 ^ 127.
Definition i128_max : Z := 2 ^ 127 - 1.
Definition in_i128 (z : Z) : bool := (i128_min <=? z) && (z <=? i128_max).

Definition checked_i128 (z : Z) : option Z := if in_i128 z then Some z else None.

Definition usize_max : Z := 2 ^ 64 - 1.

Definition checked (z : Z) : option Z := if in_i64 z then Some z else None.
Definition checked_add (a b : Z) : option Z := checked (a + b).
Definition checked_sub (a b : Z) : option Z := checked (a - b).
Definition checked_mul (a b : Z) : option Z := checked (a * b).
Definition checked_neg (a : Z) : option Z := checked (- a).

(** [i64::checked_div] and [checked_rem] truncate toward zero; both report
    [i64::MIN / -1] as an overflow. *)
Definition checked_div (a b : Z) : option Z :=
  if (b =? 0) || ((a =? i64_min) && (b =? -1)) then None else Some (Z.quot a b).
Definition checked_rem (a b : Z) : option Z :=
  if (b =? 0) || ((a =? i64_min) && (b =? -1)) then None else Some (Z.rem a b).

(** Two's-complement wrap-around, the release-mode behaviour of [+] on [i64]. *)
Definition wrap_i64 (z : Z) : Z := (z + 2 ^ 63) mod 2 ^ 64 - 2 ^ 63.

Definition saturating_add (a b : Z) : Z := Z.min (a + b) usize_max.
Definition saturating_mul (a b : Z) : Z := Z.min (a * b) usize_max.

(** ** Total orders

    Rust's [Ord]: a three-way comparison whose [Equal] is equality. *)

Class Cmp (A : Type) := cmp : A -> A -> comparison.

Class LinearCmp (A : Type) `{Cmp A} : Prop := {
  cmp_eq (x y : A) : cmp x y = Eq -> x = y;
  cmp_refl (x : A) : cmp x x = Eq;
  cmp_antisym (x y : A) : cmp y x = CompOpp (cmp x y);
  cmp_lt_trans (x y z : A) : cmp x y = Lt -> cmp y z = Lt -> cmp x z = Lt
}.

Definition cmp_eqb {A} `{Cmp A} (x y : A) : bool :=
  match cmp x y with Eq => true | _ => false end.
Definition cmp_ltb {A} `{Cmp A} (x y : A) : bool :=
  match cmp x y with Lt => true | _ => false end.

#[export] Instance Z_cmp : Cmp Z := Z.compare.
#[export] Instance N_cmp : Cmp N := N.compare.
#[export] Instance bool_cmp : Cmp bool :=
  fun a b => match a, b with
             | false, true => Lt
             | true, false => Gt
             | _, _ => Eq
             end.

(** Slices and [Vec]s compare lexicographically, a proper prefix first. *)
Fixpoint list_cmp {A} `{Cmp A} (a b : list A) : comparison :=
  match a, b with
  | [], [] => Eq
  | [], _ :: _ => Lt
  | _ :: _, [] => Gt
  | x :: a', y :: b' => match cmp x y with Eq => list_cmp a' b' | c => c end
  end.
#[export] Instance list_Cmp {A} `{Cmp A} : Cmp (list A) := list_cmp.

Definition prod_cmp {A B} `{Cmp A, Cmp B} (a b : A * B) : comparison :=
  match cmp a.1 b.1 with Eq => cmp a.2 b.2 | c => c end.
#[export] Instance prod_Cmp {A B} `{Cmp A, Cmp B} : Cmp (A * B) := prod_cmp.

#[export] Instance nat_Cmp : Cmp nat := Nat.compare.

(** [str::as_bytes]: the characters of a [string] are its UTF-8 bytes. *)
Fixpoint string_bytes (s : string) : list N :=
  match s with
  | EmptyString => []
  | String c s' => Ascii.N_of_ascii c :: string_bytes s'
  end.
#[export] Instance string_Cmp : Cmp string :=
  fun a b => list_cmp (string_bytes a) (string_bytes b).

(** ** Tactics *)

(** Split a hypothesis built from [let?]/[check?] into its successful steps. *)
Ltac res_inv :=
  repeat match goal with
  | H : Ok _ = Ok _ |- _ => injection H as H; subst
  | H : Err _ = Err _ |- _ => injection H as H; subst
  | H : Ok _ = Err _ |- _ => discriminate H
  | H : Err _ = Ok _ |- _ => discriminate H
  | H : Some _ = Some _ |- _ => injection H as H; subst
  | H : Some _ = None |- _ => discriminate H
  | H : None = Some _ |- _ => discriminate H
  | H : (_, _) = (_, _) |- _ => injection H as H; subst
  | H : (match ?r with Ok _ => _ | Err _ => _ end) = Ok _ |- _ =>
      let E := fresh "E" in destruct r eqn:E; [|discriminate H]
  end.

Create HintDb mutiny.

(** ** Integer lemmas *)

Lemma in_i64_spec z : in_i64 z = true <-> i64_min <= z <= i64_max.
Proof. unfold in_i64. rewrite andb_true_iff, !Z.leb_le. tauto. Qed.

Lemma checked_Some z r : checked z = Some r <-> r = z /\ in_i64 z = true.
Proof. unfold checked. destruct (in_i64 z); intuition congruence. Qed.

Lemma checked_add_Some a b r : checked_add a b = Some r <-> r = a + b /\ in_i64 (a + b) = true.
Proof. apply checked_Some. Qed.

Lemma checked_mul_Some a b r : checked_mul a b = Some r <-> r = a * b /\ in_i64 (a * b) = true.
Proof. apply checked_Some. Qed.

Lemma checked_neg_Some a r : checked_neg a = Some r <-> r = - a /\ in_i64 (- a) = true.
Proof. apply checked_Some. Qed.

Lemma wrap_i64_id z : in_i64 z = true -> wrap_i64 z = z.
Proof.
  rewrite in_i64_spec. unfold wrap_i64, i64_min, i64_max. intros H.
  rewrite Z.mod_small; lia.
Qed.

Lemma wrap_i64_range z : in_i64 (wrap_i64 z) = true.
Proof.
  apply in_i64_spec. unfold wrap_i64, i64_min, i64_max.
  pose proof (Z.mod_pos_bound (z + 2 ^ 63) (2 ^ 64) ltac:(lia)). lia.
Qed.

Lemma wrap_i64_add a b : wrap_i64 (wrap_i64 a + b) = wrap_i64 (a + b).
Proof.
  unfold wrap_i64. f_equal.
  replace ((a + 2 ^ 63) mod 2 ^ 64 - 2 ^ 63 + b + 2 ^ 63)
    with ((a + 2 ^ 63) mod 2 ^ 64 + b) by lia.
  rewrite Zplus_mod_idemp_l. f_equal. lia.
Qed.

(** ** Order lemmas *)

Section order.
Context {A : Type} `{LinearCmp A}.

Lemma cmp_eqb_eq (x y : A) : cmp_eqb x y = true <-> x = y.
Proof.
  unfold cmp_eqb. destruct (cmp x y) eqn:E.
  - apply cmp_eq in E. naive_solver.
  - split; [done|]. intros ->. by rewrite cmp_refl in E.
  - split; [done|]. intros ->. by rewrite cmp_refl in E.
Qed.

Lemma cmp_eqb_neq (x y : A) : cmp_eqb x y = false <-> x <> y.
Proof. rewrite <- not_true_iff_false, cmp_eqb_eq. tauto. Qed.

Lemma cmp_eqb_refl (x : A) : cmp_eqb x x = true.
Proof. by apply cmp_eqb_eq. Qed.

Lemma cmp_Eq_iff (x y : A) : cmp x y = Eq <-> x = y.
Proof. split; [apply cmp_eq|]. intros ->. apply cmp_refl. Qed.

Lemma cmp_Gt_Lt (x y : A) : cmp x y = Gt <-> cmp y x = Lt.
Proof. rewrite (cmp_antisym x y). destruct (cmp x y); naive_solver. Qed.

Lemma cmp_gt_trans (x y z : A) : cmp x y = Gt -> cmp y z = Gt -> cmp x z = Gt.
Proof. rewrite !cmp_Gt_Lt. eauto using cmp_lt_trans. Qed.

Lemma cmp_lt_irrefl (x : A) : cmp x x <> Lt.
Proof. by rewrite cmp_refl. Qed.

Lemma cmp_le_lt_trans (x y z : A) : cmp x y <> Gt -> cmp y z = Lt -> cmp x z = Lt.
Proof.
  intros Hxy Hyz. destruct (cmp x y) eqn:E; [|eauto using cmp_lt_trans|done].
  apply cmp_eq in E as ->. done.
Qed.

Lemma cmp_lt_le_trans (x y z : A) : cmp x y = Lt -> cmp y z <> Gt -> cmp x z = Lt.
Proof.
  intros Hxy Hyz. destruct (cmp y z) eqn:E; [|eauto using cmp_lt_trans|done].
  apply cmp_eq in E as ->. done.
Qed.

Lemma cmp_le_trans (x y z : A) : cmp x y <> Gt -> cmp y z <> Gt -> cmp x z <> Gt.
Proof.
  intros Hxy Hyz. destruct (cmp x y) eqn:E; [|by erewrite cmp_lt_le_trans|done].
  apply cmp_eq in E as ->. done.
Qed.
End order.

(** Case analysis on a decided equality [cmp_eqb x y]. *)
Ltac case_cmp_eqb x y :=
  let E := fresh "E" in
  destruct (cmp_eqb x y) eqn:E;
  [apply (proj1 (cmp_eqb_eq x y)) in E | apply (proj1 (cmp_eqb_neq x y)) in E].

(** An order pulled back along an injection is an order. *)
Lemma linear_cmp_via {A B} `{LinearCmp B} (f : A -> B) (HA : Cmp A) :
  (forall x y, f x = f y -> x = y) ->
  (forall x y, cmp x y = cmp (f x) (f y)) -> LinearCmp A.
Proof.
  intros Hinj Hf. split; intros *; rewrite ?Hf.
  - intros E%cmp_eq. auto.
  - apply cmp_refl.
  - apply cmp_antisym.
  - eauto using cmp_lt_trans.
Qed.

#[export] Instance Z_total_order : LinearCmp Z.
Proof.
  split; unfold cmp, Z_cmp; intros *.
  - apply Z.compare_eq.
  - apply Z.compare_refl.
  - symmetry. rewrite Z.compare_antisym. by rewrite CompOpp_involutive.
  - rewrite !Z.compare_lt_iff. lia.
Qed.

#[export] Instance N_total_order : LinearCmp N.
Proof.
  apply (linear_cmp_via Z.of_N); [apply N2Z.inj|].
  intros x y. unfold cmp, N_cmp, Z_cmp. by rewrite N2Z.inj_compare.
Qed.

#[export] Instance nat_total_order : LinearCmp nat.
Proof.
  apply (linear_cmp_via Z.of_nat); [apply Nat2Z.inj|].
  intros x y. unfold cmp, nat_Cmp, Z_cmp. by rewrite Nat2Z.inj_compare.
Qed.

#[export] Instance bool_total_order : LinearCmp bool.
Proof.
  split; repeat intros [|]; by vm_compute.
Qed.

Section list_order.
Context {A : Type} `{LinearCmp A}.

Lemma list_cmp_eq (a b : list A) : list_cmp a b = Eq -> a = b.
Proof.
  revert b. induction a as [|x a IH]; intros [|y b]; simpl; try done.
  destruct (cmp x y) eqn:E; try done.
  intros ->%IH. by apply cmp_eq in E as ->.
Qed.

Lemma list_cmp_refl (a : list A) : list_cmp a a = Eq.
Proof. induction a as [|x a IH]; simpl; [done|]. by rewrite cmp_refl. Qed.

Lemma list_cmp_antisym (a b : list A) : list_cmp b a = CompOpp (list_cmp a b).
Proof.
  revert b. induction a as [|x a IH]; intros [|y b]; simpl; try done.
  rewrite (cmp_antisym x y). destruct (cmp x y); simpl; auto.
Qed.

Lemma list_cmp_lt_trans (a b c : list A) :
  list_cmp a b = Lt -> list_cmp b c = Lt -> list_cmp a c = Lt.
Proof.
  revert b c. induction a as [|x a IH]; intros [|y b] [|z c]; simpl; try done.
  destruct (cmp x y) eqn:Exy; [|intros _|done].
  - apply cmp_eq in Exy as ->. destruct (cmp y z) eqn:Eyz; eauto.
  - destruct (cmp y z) eqn:Eyz; [|intros _|done].
    + apply cmp_eq in Eyz as ->. by rewrite Exy.
    + by rewrite (cmp_lt_trans _ _ _ Exy Eyz).
Qed.

#[export] Instance list_total_order : LinearCmp (list A).
Proof.
  split; unfold cmp, list_Cmp;
    eauto using list_cmp_eq, list_cmp_refl, list_cmp_antisym, list_cmp_lt_trans.
Qed.

Lemma cmp_eqb_cons (x y : A) (a b : list A) :
  cmp_eqb (x :: a) (y :: b) = cmp_eqb x y && cmp_eqb a b.
Proof.
  unfold cmp_eqb.
  change (cmp (x :: a) (y :: b)) with (match cmp x y with Eq => cmp a b | c => c end).
  by destruct (cmp x y).
Qed.

Lemma list_cmp_app_same (p a b : list A) : list_cmp (p ++ a) (p ++ b) = list_cmp a b.
Proof. induction p as [|x p IH]; simpl; [done|]. by rewrite cmp_refl. Qed.
End list_order.

#[export] Instance prod_total_order {A B} `{LinearCmp A, LinearCmp B} : LinearCmp (A * B).
Proof.
  split; unfold cmp, prod_Cmp, prod_cmp.
  - intros [x1 x2] [y1 y2]; simpl. destruct (cmp x1 y1) eqn:E; try done.
    apply cmp_eq in E as ->. by intros ->%cmp_eq.
  - intros [x1 x2]; simpl. by rewrite !cmp_refl.
  - intros [x1 x2] [y1 y2]; simpl. rewrite (cmp_antisym x1 y1), (cmp_antisym x2 y2).
    by destruct (cmp x1 y1).
  - intros [x1 x2] [y1 y2] [z1 z2]; simpl.
    destruct (cmp x1 y1) eqn:Exy; [|intros _|done].
    + apply cmp_eq in Exy as ->. destruct (cmp y1 z1); eauto using cmp_lt_trans.
    + destruct (cmp y1 z1) eqn:Eyz; [|intros _|done].
      * apply cmp_eq in Eyz as ->. by rewrite Exy.
      * by rewrite (cmp_lt_trans _ _ _ Exy Eyz).
Qed.

Lemma string_bytes_inj s t : string_bytes s = string_bytes t -> s = t.
Proof.
  revert t. induction s as [|c s IH]; intros [|d t]; simpl; try done.
  intros [= Hcd Hst]. f_equal; [|auto].
  rewrite <- (Ascii.ascii_N_embedding c), <- (Ascii.ascii_N_embedding d). by f_equal.
Qed.

#[export] Instance string_total_order : LinearCmp string.
Proof. apply (linear_cmp_via string_bytes); [apply string_bytes_inj|done]. Qed.

(** ** Loop lemmas *)

Lemma try_fold_app {E A S} (body : S -> A -> result E S) s l1 l2 :
  try_fold body s (l1 ++ l2) = let? s' := try_fold body s l1 in try_fold body s' l2.
Proof.
  revert s. induction l1 as [|x l1 IH]; intros s; simpl; [done|].
  destruct (body s x); [apply IH|done].
Qed.

(** A loop none of whose iterations fails. *)
Lemma try_fold_pure {E A S} (body : S -> A -> result E S) (f : S -> A -> S) s l :
  (forall s x, x ∈ l -> body s x = Ok (f s x)) -> try_fold body s l = Ok (fold_left f l s).
Proof.
  revert s. induction l as [|x l IH]; intros s Hb; [done|]. cbn [try_fold fold_left].
  rewrite Hb by by left. apply IH. intros s' y Hy. apply Hb. by right.
Qed.

Lemma try_map_pure {E A B} (f : A -> result E B) (g : A -> B) l :
  (forall x, x ∈ l -> f x = Ok (g x)) -> try_map f l = Ok (map g l).
Proof.
  induction l as [|x l IH]; intros Hf; [done|]. cbn [try_map map]. rewrite Hf by by left.
  rewrite IH; [done|]. intros y Hy. apply Hf. by right.
Qed.

(** Loop invariant: what every successful iteration preserves holds at the end. *)
Lemma try_fold_inv {E A S} (P : S -> Prop) (body : S -> A -> result E S) s l s' :
  (forall s x s', x ∈ l -> P s -> body s x = Ok s' -> P s') ->
  P s -> try_fold body s l = Ok s' -> P s'.
Proof.
  revert s. induction l as [|x l IH]; intros s Hbody HP; simpl.
  - by intros [= <-].
  - destruct (body s x) eqn:E1; [|done]. apply IH.
    + intros ??? Hin. apply Hbody. by right.
    + eapply Hbody; eauto. by left.
Qed.

Lemma try_for_Ok {E A} (body : A -> result E unit) l :
  try_for body l = Ok tt <-> Forall (fun x => body x = Ok tt) l.
Proof.
  induction l as [|x l IH]; simpl; [by split|].
  destruct (body x) as [[]|] eqn:E1.
  - rewrite IH. split; [by constructor|by inversion 1].
  - split; [done|]. inversion 1. congruence.
Qed.

Lemma try_map_Ok {E A B} (f : A -> result E B) l ys :
  try_map f l = Ok ys <-> Forall2 (fun x y => f x = Ok y) l ys.
Proof.
  revert ys. induction l as [|x l IH]; intros ys; simpl.
  - split; [intros [= <-]; constructor|by inversion 1].
  - destruct (f x) eqn:E1; [|split; [done|inversion 1; congruence]].
    destruct (try_map f l) eqn:E2.
    + split.
      * intros [= <-]. constructor; [done|]. by apply IH.
      * inversion 1 as [|???? Hy Hys]; subst. apply IH in Hys. congruence.
    + split; [done|]. inversion 1 as [|???? Hy Hys]; subst. apply IH in Hys. congruence.
Qed.

#[export] Hint Resolve cmp_refl cmp_eqb_refl : mutiny.
