(* ===== verification/BTree.v ===== *)
(** * [std::collections::BTreeMap]

    The ordered map every component keeps its state in, as the list of its
    entries in key order.  Iteration order is the key order, so a scan, a first
    entry and a rendering are functions of the contents alone; two maps with
    the same lookups are the same list ([bt_ext]). *)

From Stdlib Require Import Sorted Lia.
From stdpp Require Import base list.
From S2P Require Import Prelude.

Abbreviation btree K V := (list (K * V)).

Section defs.
Context {K V : Type} `{Cmp K}.
Implicit Types (k : K) (v : V) (m : btree K V).

Definition bt_empty : btree K V := [].

Fixpoint bt_get k m : option V :=
  match m with
  | [] => None
  | (k', v') :: m' => if cmp_eqb k k' then Some v' else bt_get k m'
  end.

Definition bt_contains k m : bool :=
  match bt_get k m with Some _ => true | None => false end.

Fixpoint bt_insert k v m : btree K V :=
  match m with
  | [] => [(k, v)]
  | (k', v') :: m' =>
      match cmp k k' with
      | Lt => (k, v) :: m
      | Eq => (k, v) :: m'
      | Gt => (k', v') :: bt_insert k v m'
      end
  end.

Fixpoint bt_remove k m : btree K V :=
  match m with
  | [] => []
  | (k', v') :: m' => if cmp_eqb k k' then m' else (k', v') :: bt_remove k m'
  end.

(** [*m.entry(k).or_insert(d) = f(..)] *)
Definition bt_update k (d : V) (f : V -> V) m : btree K V :=
  bt_insert k (f (default d (bt_get k m))) m.

Definition bt_keys m : list K := map fst m.

(** [iter.collect()]: later entries replace earlier ones. *)
Definition bt_of_list (l : list (K * V)) : btree K V :=
  fold_left (fun m p => bt_insert p.1 p.2 m) l bt_empty.

(** [m.range(lo..)] *)
Fixpoint bt_range_from (lo : K) m : list (K * V) :=
  match m with
  | [] => []
  | (k', v') :: m' => match cmp k' lo with Lt => bt_range_from lo m' | _ => m end
  end.

Definition key_lt (p q : K * V) : Prop := cmp p.1 q.1 = Lt.
Definition bt_sorted m : Prop := StronglySorted key_lt m.
End defs.

Section lemmas.
Context {K V : Type} `{LinearCmp K}.
Implicit Types (k : K) (v : V) (m : btree K V).

Lemma bt_sorted_nil : bt_sorted ([] : btree K V).
Proof. constructor. Qed.

Lemma bt_sorted_cons_inv k v m :
  bt_sorted ((k, v) :: m) -> bt_sorted m /\ Forall (fun p => cmp k p.1 = Lt) m.
Proof. by inversion 1. Qed.

Lemma bt_get_Forall_None k m : Forall (fun p => k <> p.1) m -> bt_get k m = None.
Proof.
  induction 1 as [|[k' v'] m Hk _ IH]; simpl in *; [done|].
  by rewrite (proj2 (cmp_eqb_neq k k') Hk).
Qed.

Lemma bt_get_below k m : Forall (fun p => cmp k p.1 = Lt) m -> bt_get k m = None.
Proof.
  intros Hk. apply bt_get_Forall_None. eapply Forall_impl; [exact Hk|].
  intros [k' v'] Hlt ->. by apply cmp_lt_irrefl in Hlt.
Qed.

Lemma bt_get_cons k k' v' m :
  bt_get k ((k', v') :: m) = if cmp_eqb k k' then Some v' else bt_get k m.
Proof. done. Qed.

Lemma bt_get_insert k k' v m :
  bt_get k (bt_insert k' v m) = if cmp_eqb k k' then Some v else bt_get k m.
Proof.
  induction m as [|[k1 v1] m IH]; simpl; [done|].
  destruct (cmp k' k1) eqn:E; simpl.
  - apply cmp_eq in E as ->. by destruct (cmp_eqb k k1).
  - done.
  - rewrite IH. case_cmp_eqb k k1; [|done]. subst k1.
    case_cmp_eqb k k'; [|done]. subst. by rewrite cmp_refl in E.
Qed.

Lemma bt_get_insert_eq k v m : bt_get k (bt_insert k v m) = Some v.
Proof. by rewrite bt_get_insert, cmp_eqb_refl. Qed.

Lemma bt_get_insert_ne k k' v m : k <> k' -> bt_get k (bt_insert k' v m) = bt_get k m.
Proof. intros Hne. by rewrite bt_get_insert, (proj2 (cmp_eqb_neq _ _) Hne). Qed.

Lemma bt_insert_Forall (P : K * V -> Prop) k v m :
  P (k, v) -> Forall P m -> Forall P (bt_insert k v m).
Proof.
  intros Hkv. induction 1 as [|[k1 v1] m Hp Hm IH]; simpl; [by constructor|].
  destruct (cmp k k1); by repeat constructor.
Qed.

Lemma bt_insert_sorted k v m : bt_sorted m -> bt_sorted (bt_insert k v m).
Proof.
  induction m as [|[k1 v1] m IH]; simpl; intros Hm.
  - repeat constructor.
  - pose proof (bt_sorted_cons_inv _ _ _ Hm) as [Hs Hall].
    destruct (cmp k k1) eqn:E.
    + apply cmp_eq in E as ->. constructor; [done|]. done.
    + constructor; [done|]. constructor; [done|].
      eapply Forall_impl; [exact Hall|]. intros p Hp.
      by apply (cmp_lt_trans _ _ _ E).
    + constructor; [by apply IH|]. apply bt_insert_Forall; [|done].
      by apply cmp_Gt_Lt.
Qed.

Lemma bt_get_remove k k' m :
  bt_sorted m -> bt_get k (bt_remove k' m) = if cmp_eqb k k' then None else bt_get k m.
Proof.
  induction m as [|[k1 v1] m IH]; simpl; intros Hm.
  - by destruct (cmp_eqb k k').
  - pose proof (bt_sorted_cons_inv _ _ _ Hm) as [Hs Hall].
    case_cmp_eqb k' k1.
    + subst k1. case_cmp_eqb k k'; [|done]. subst. by apply bt_get_below.
    + simpl. rewrite (IH Hs). case_cmp_eqb k k1; [|done]. subst.
      case_cmp_eqb k1 k'; [|done]. by subst.
Qed.

Lemma bt_remove_Forall (P : K * V -> Prop) k m : Forall P m -> Forall P (bt_remove k m).
Proof.
  induction 1 as [|[k1 v1] m Hp Hm IH]; simpl; [done|].
  destruct (cmp_eqb k k1); [done|by constructor].
Qed.

Lemma bt_remove_sorted k m : bt_sorted m -> bt_sorted (bt_remove k m).
Proof.
  induction m as [|[k1 v1] m IH]; simpl; intros Hm; [done|].
  pose proof (bt_sorted_cons_inv _ _ _ Hm) as [Hs Hall].
  destruct (cmp_eqb k k1); [done|].
  constructor; [by apply IH|]. by apply bt_remove_Forall.
Qed.

Lemma bt_get_In k v m : bt_get k m = Some v -> (k, v) ∈ m.
Proof.
  induction m as [|[k1 v1] m IH]; simpl; [done|].
  case_cmp_eqb k k1; [intros [= ->]; subst; by left|]. intros Hk. right. auto.
Qed.

Lemma bt_In_get k v m : bt_sorted m -> (k, v) ∈ m -> bt_get k m = Some v.
Proof.
  induction m as [|[k1 v1] m IH]; simpl; intros Hm Hin; [by inversion Hin|].
  pose proof (bt_sorted_cons_inv _ _ _ Hm) as [Hs Hall].
  apply elem_of_cons in Hin as [[= -> ->]|Hin].
  - by rewrite cmp_eqb_refl.
  - case_cmp_eqb k k1; [|by apply IH]. subst k1.
    rewrite Forall_forall in Hall. specialize (Hall _ Hin). simpl in Hall.
    by apply cmp_lt_irrefl in Hall.
Qed.

(** A map is determined by its lookups. *)
Lemma bt_ext m1 m2 :
  bt_sorted m1 -> bt_sorted m2 -> (forall k, bt_get k m1 = bt_get k m2) -> m1 = m2.
Proof.
  revert m2. induction m1 as [|[k1 v1] m1 IH]; intros [|[k2 v2] m2] Hm1 Hm2 Hget.
  - done.
  - specialize (Hget k2). simpl in Hget. by rewrite cmp_eqb_refl in Hget.
  - specialize (Hget k1). simpl in Hget. by rewrite cmp_eqb_refl in Hget.
  - pose proof (bt_sorted_cons_inv _ _ _ Hm1) as [Hs1 Hall1].
    pose proof (bt_sorted_cons_inv _ _ _ Hm2) as [Hs2 Hall2].
    assert (k1 = k2) as <-.
    { destruct (cmp k1 k2) eqn:E; [by apply cmp_eq| |].
      - specialize (Hget k1). simpl in Hget. rewrite cmp_eqb_refl in Hget.
        case_cmp_eqb k1 k2; [subst; by apply cmp_lt_irrefl in E|].
        rewrite bt_get_below in Hget; [done|].
        eapply Forall_impl; [exact Hall2|]. intros p. by apply (cmp_lt_trans _ _ _ E).
      - apply cmp_Gt_Lt in E. specialize (Hget k2). simpl in Hget.
        rewrite cmp_eqb_refl in Hget.
        case_cmp_eqb k2 k1; [subst; by apply cmp_lt_irrefl in E|].
        rewrite bt_get_below in Hget; [done|].
        eapply Forall_impl; [exact Hall1|]. intros p. by apply (cmp_lt_trans _ _ _ E). }
    pose proof (Hget k1) as Hv. simpl in Hv. rewrite cmp_eqb_refl in Hv.
    injection Hv as <-. f_equal. apply IH; [done..|].
    intros k. specialize (Hget k). simpl in Hget.
    case_cmp_eqb k k1; [subst|done].
    by rewrite !bt_get_below.
Qed.

Lemma bt_of_list_sorted (l : list (K * V)) : bt_sorted (bt_of_list l).
Proof.
  unfold bt_of_list. assert (bt_sorted (bt_empty : btree K V)) as Hm by constructor.
  revert Hm. generalize (bt_empty : btree K V).
  induction l as [|[k v] l IH]; simpl; intros m Hm; [done|].
  apply IH. by apply bt_insert_sorted.
Qed.

Lemma bt_insert_above k v m :
  Forall (fun p => cmp p.1 k = Lt) m -> bt_insert k v m = m ++ [(k, v)].
Proof.
  induction 1 as [|[k1 v1] m Hp Hm IH]; simpl in *; [done|].
  apply cmp_Gt_Lt in Hp. by rewrite Hp, IH.
Qed.

(** Collecting a list that is already in order gives that list. *)
Lemma bt_of_list_id m : bt_sorted m -> bt_of_list m = m.
Proof.
  unfold bt_of_list. intros Hm. change (bt_of_list m = m).
  unfold bt_of_list.
  enough (forall acc, bt_sorted (acc ++ m) ->
    fold_left (fun m p => bt_insert p.1 p.2 m) m acc = acc ++ m) as Hg.
  { apply (Hg []). done. }
  induction m as [|[k v] m IH]; intros acc Hs; simpl; [by rewrite app_nil_r|].
  rewrite bt_insert_above.
  - rewrite IH; [by rewrite <- app_assoc| |by rewrite <- app_assoc].
    by apply bt_sorted_cons_inv in Hm as [].
  - clear IH Hm. induction acc as [|[k1 v1] acc IHa]; [constructor|].
    simpl in Hs. apply bt_sorted_cons_inv in Hs as [Hs Hall].
    constructor; [|by apply IHa].
    rewrite Forall_app, Forall_cons in Hall. by destruct Hall as [_ [? _]].
Qed.

Lemma bt_insert_length k v m : (length (bt_insert k v m) <= S (length m))%nat.
Proof.
  induction m as [|[k1 v1] m IH]; simpl; [lia|]. destruct (cmp k k1); simpl; lia.
Qed.

Lemma bt_remove_length k m : (length (bt_remove k m) <= length m)%nat.
Proof.
  induction m as [|[k1 v1] m IH]; simpl; [lia|]. destruct (cmp_eqb k k1); simpl; lia.
Qed.

Lemma bt_range_from_filter (lo : K) m :
  bt_sorted m ->
  bt_range_from lo m = filter (fun p : K * V => cmp p.1 lo <> Lt) m.
Proof.
  induction m as [|[k v] m IH]; intros Hm; [done|].
  pose proof (bt_sorted_cons_inv _ _ _ Hm) as [Hs Hall].
  rewrite filter_cons. cbn [bt_range_from fst].
  assert (cmp k lo <> Lt -> filter (fun p : K * V => cmp p.1 lo <> Lt) m = m) as Hm'.
  { intros Hk. clear IH Hm Hs. induction Hall as [|[k' v'] m' Hp _ IH]; [done|].
    rewrite filter_cons_True; [by f_equal|]. simpl in *. intros Hk'.
    by pose proof (cmp_lt_trans _ _ _ Hp Hk'). }
  destruct (cmp k lo) eqn:E.
  - rewrite decide_True by done. by rewrite Hm'.
  - rewrite decide_False by (intros Hn; by apply Hn). by apply IH.
  - rewrite decide_True by done. by rewrite Hm'.
Qed.

Lemma bt_sorted_filter (P : K * V -> Prop) `{!forall x, Decision (P x)} m :
  bt_sorted m -> bt_sorted (filter P m).
Proof.
  induction m as [|[k v] m IH]; intros Hm; [done|].
  pose proof (bt_sorted_cons_inv _ _ _ Hm) as [Hs Hall].
  rewrite filter_cons. case_decide; [|by apply IH].
  constructor; [by apply IH|]. rewrite Forall_forall in *.
  intros x Hx. apply Hall. by apply list_elem_of_filter in Hx as [].
Qed.
(** ** Maps built in key order *)

Lemma bt_sorted_app_above m1 k v m2 : bt_sorted (m1 ++ (k, v) :: m2) -> Forall (fun p => cmp p.1 k = Lt) m1.
Proof.
  induction m1 as [|[k1 v1] m1 IH]; intros Hs; [constructor|]. simpl in Hs.
  apply bt_sorted_cons_inv in Hs as [Hs Hall]. constructor; [|by apply IH].
  rewrite Forall_app, Forall_cons in Hall. by destruct Hall as [_ [? _]].
Qed.

Lemma bt_get_last k v m : Forall (fun p => cmp p.1 k = Lt) m -> bt_get k (m ++ [(k, v)]) = Some v.
Proof.
  induction 1 as [|[k1 v1] m Hp Hm IH]; simpl in *; [by rewrite cmp_eqb_refl|].
  case_cmp_eqb k k1; [subst; by apply cmp_lt_irrefl in Hp|done].
Qed.

Lemma bt_insert_last k u v m : Forall (fun p => cmp p.1 k = Lt) m -> bt_insert k v (m ++ [(k, u)]) = m ++ [(k, v)].
Proof.
  induction 1 as [|[k1 v1] m Hp Hm IH]; simpl in *; [by rewrite cmp_refl|].
  apply cmp_Gt_Lt in Hp. by rewrite Hp, IH.
Qed.
End lemmas.

Section maps.
Context {K V W : Type} `{LinearCmp K}.

(** [map.into_iter().map(|(k, v)| (k, g(k, v))).collect()] *)
Definition bt_map (g : K -> V -> W) (m : btree K V) : btree K W := map (fun p => (p.1, g p.1 p.2)) m.

Lemma bt_map_sorted g (m : btree K V) : bt_sorted m -> bt_sorted (bt_map g m).
Proof.
  induction m as [|[k v] m IH]; intros Hm; [constructor|]. apply bt_sorted_cons_inv in Hm as [Hs Hall].
  constructor; [by apply IH|]. apply Forall_fmap. eapply Forall_impl; [exact Hall|]. done.
Qed.

Lemma bt_get_map g (m : btree K V) k : bt_get k (bt_map g m) = g k <$> bt_get k m.
Proof.
  induction m as [|[k1 v1] m IH]; [done|]. simpl. case_cmp_eqb k k1; [by subst|done].
Qed.

(** Inserting the images of a map's entries in order rebuilds it. *)
Lemma bt_collect g (m : btree K V) :
  bt_sorted m -> fold_left (fun acc p => bt_insert p.1 (g p.1 p.2) acc) m bt_empty = bt_map g m.
Proof.
  intros Hm. rewrite <- (bt_of_list_id _ (bt_map_sorted g m Hm)). unfold bt_of_list, bt_map.
  generalize (@bt_empty K W). clear Hm. induction m as [|p m IH]; intros acc; [done|]. simpl. apply IH.
Qed.
End maps.

#[export] Hint Resolve bt_sorted_nil bt_insert_sorted bt_remove_sorted bt_of_list_sorted : mutiny.
