(* ===== verification/ZAlg.v ===== *)
(** * The algebra of Z-sets

    A Z-set is a list of entries, a key with an integer weight; what it denotes
    is the total weight of each key.  [a ≡z b] is equality of denotations, the
    equivalence every operator of the engine respects.  The library is generic
    in the key, since rows, index keys and error messages are all counted this
    way. *)

From Stdlib Require Import ZArith Lia Sorted Setoid Morphisms Permutation.
From stdpp Require Import base list sets.
From S2P Require Import Prelude BTree.

Section defs.
Context {K : Type} `{Cmp K}.
Implicit Types (k : K) (es : list (K * Z)).

(** The total weight of [k]. *)
Fixpoint weight es k : Z :=
  match es with
  | [] => 0
  | (k', w) :: es' => (if cmp_eqb k k' then w else 0) + weight es' k
  end.

(** The weighted sum of [f] over the entries. *)
Fixpoint wsum (f : K -> Z) es : Z :=
  match es with
  | [] => 0
  | (k, w) :: es' => w * f k + wsum f es'
  end.

Definition zeq es1 es2 : Prop := forall k, weight es1 k = weight es2 k.

Definition zneg es : list (K * Z) := map (fun e => (e.1, - e.2)) es.

Definition zscale (c : Z) es : list (K * Z) := map (fun e => (e.1, c * e.2)) es.

(** All weights are non-negative: the Z-set is a multiset. *)
Definition zpos es : Prop := forall k, 0 <= weight es k.

(** The support, without repetition. *)
Fixpoint zdedup (l : list K) : list K :=
  match l with
  | [] => []
  | k :: l' => k :: List.filter (fun k' => negb (cmp_eqb k k')) (zdedup l')
  end.

Definition zsupport es : list K := zdedup (map fst es).

(** Canonical form: keys strictly increasing, no zero weight. *)
Definition zcanonical es : Prop := bt_sorted es /\ Forall (fun e => e.2 <> 0) es.
End defs.

Infix "≡z" := zeq (at level 70, no associativity) : Z_scope.

(** The linear extension of a map from keys to Z-sets. *)
Definition zbind {K L : Type} (f : K -> list (L * Z)) (es : list (K * Z)) : list (L * Z) :=
  flat_map (fun e => zscale e.2 (f e.1)) es.

Lemma zscale_single {K} (w : Z) (k : K) : zscale w [(k, 1)] = [(k, w)].
Proof. unfold zscale. cbn [map fst snd]. by rewrite Z.mul_1_r. Qed.

Lemma zbind_cons {K L} (f : K -> list (L * Z)) k w es :
  zbind f ((k, w) :: es) = zscale w (f k) ++ zbind f es.
Proof. done. Qed.

(** ** Equivalence *)

#[export] Instance zeq_equivalence {K} `{Cmp K} : Equivalence (zeq (K := K)).
Proof.
  split.
  - by intros es k.
  - intros a b Hab k. by rewrite Hab.
  - intros a b c Hab Hbc k. by rewrite Hab, Hbc.
Qed.

Section lemmas.
Context {K : Type} `{LinearCmp K}.
Implicit Types (k : K) (es : list (K * Z)).

Lemma weight_app es1 es2 k : weight (es1 ++ es2) k = weight es1 k + weight es2 k.
Proof. induction es1 as [|[k' w] es1 IH]; simpl; lia. Qed.

Lemma wsum_app f es1 es2 : wsum f (es1 ++ es2) = wsum f es1 + wsum f es2.
Proof. induction es1 as [|[k' w] es1 IH]; simpl; lia. Qed.

Lemma weight_neg es k : weight (zneg es) k = - weight es k.
Proof.
  induction es as [|[k' w] es IH]; simpl; [done|]. rewrite IH. destruct (cmp_eqb k k'); lia.
Qed.

Lemma weight_scale c es k : weight (zscale c es) k = c * weight es k.
Proof.
  induction es as [|[k' w] es IH]; simpl; [lia|]. rewrite IH. destruct (cmp_eqb k k'); lia.
Qed.

Lemma weight_wsum es k : weight es k = wsum (fun k' => if cmp_eqb k k' then 1 else 0) es.
Proof.
  induction es as [|[k' w] es IH]; simpl; [done|]. rewrite IH. destruct (cmp_eqb k k'); lia.
Qed.

Lemma weight_not_in es k : k ∉ map fst es -> weight es k = 0.
Proof.
  induction es as [|[k' w] es IH]; simpl; intros Hk; [done|].
  apply not_elem_of_cons in Hk as [Hne Hk]. rewrite IH by done.
  by rewrite (proj2 (cmp_eqb_neq k k') Hne).
Qed.

Lemma weight_nonzero_in es k : weight es k <> 0 -> k ∈ map fst es.
Proof.
  intros Hw. destruct (decide (weight es k = 0)) as [|_]; [done|].
  induction es as [|[k' w] es IH]; simpl in *; [done|].
  case_cmp_eqb k k'; [subst; by left|]. right. apply IH. lia.
Qed.

#[export] Instance zeq_app : Proper (zeq ==> zeq ==> zeq) (@app (K * Z)).
Proof. intros a a' Ha b b' Hb k. by rewrite !weight_app, Ha, Hb. Qed.

#[export] Instance zeq_neg : Proper (zeq ==> zeq) (zneg (K := K)).
Proof. intros a a' Ha k. by rewrite !weight_neg, Ha. Qed.

#[export] Instance zeq_scale c : Proper (zeq ==> zeq) (zscale (K := K) c).
Proof. intros a a' Ha k. by rewrite !weight_scale, Ha. Qed.

#[export] Instance zeq_weight : Proper (zeq ==> eq ==> eq) (weight (K := K)).
Proof. intros a a' Ha k k' ->. apply Ha. Qed.

#[export] Instance zeq_zpos : Proper (zeq ==> iff) (zpos (K := K)).
Proof. intros a a' Ha. unfold zpos. split; intros Hp k; specialize (Hp k); by rewrite Ha in *. Qed.

#[export] Instance zeq_perm : subrelation (@Permutation (K * Z)) zeq.
Proof.
  intros a b Hp k. induction Hp as [|[k' w] a b _ IH|[k1 w1] [k2 w2] a|]; simpl; try lia.
Qed.

Lemma zeq_app_comm es1 es2 : es1 ++ es2 ≡z es2 ++ es1.
Proof. intros k. rewrite !weight_app. lia. Qed.

Lemma zeq_neg_l es : zneg es ++ es ≡z [].
Proof. intros k. rewrite weight_app, weight_neg. simpl. lia. Qed.

(** ** A weighted sum depends on the denotation alone *)

Definition without k es : list (K * Z) :=
  List.filter (fun e => negb (cmp_eqb k e.1)) es.

Lemma wsum_split f k es : wsum f es = weight es k * f k + wsum f (without k es).
Proof.
  induction es as [|[k' w] es IH]; simpl; [lia|]. rewrite IH.
  case_cmp_eqb k k'; simpl; [subst; lia|lia].
Qed.

Lemma weight_without k es k' : weight (without k es) k' = if cmp_eqb k' k then 0 else weight es k'.
Proof.
  induction es as [|[k1 w] es IH]; simpl; [by destruct (cmp_eqb k' k)|].
  case_cmp_eqb k k1; simpl; rewrite IH.
  - subst. by destruct (cmp_eqb k' k1).
  - case_cmp_eqb k' k; [|done]. subst. by rewrite (proj2 (cmp_eqb_neq k k1) ltac:(done)).
Qed.

Lemma without_length k es : (length (without k es) <= length es)%nat.
Proof. apply filter_length_le. Qed.

Lemma wsum_zero f es : (forall k, weight es k = 0) -> wsum f es = 0.
Proof.
  remember (length es) as n eqn:Hn. revert es Hn.
  induction n as [n IH] using lt_wf_ind. intros [|[k w] es] -> Hz; [done|].
  rewrite (wsum_split f k), Hz. simpl. rewrite cmp_eqb_refl. simpl.
  apply (IH (length (without k es))); [|done|].
  - simpl. pose proof (without_length k es). lia.
  - intros k'. rewrite weight_without. case_cmp_eqb k' k; [done|].
    specialize (Hz k'). simpl in Hz. by rewrite (proj2 (cmp_eqb_neq k' k)) in Hz.
Qed.

Lemma wsum_neg f es : wsum f (zneg es) = - wsum f es.
Proof. induction es as [|[k w] es IH]; simpl; lia. Qed.

Lemma wsum_scale c f es : wsum f (zscale c es) = c * wsum f es.
Proof. induction es as [|[k w] es IH]; simpl; [lia|]. rewrite IH. lia. Qed.

Lemma wsum_zeq f es1 es2 : es1 ≡z es2 -> wsum f es1 = wsum f es2.
Proof.
  intros Heq. enough (wsum f (es1 ++ zneg es2) = 0) as Hz.
  { rewrite wsum_app, wsum_neg in Hz. lia. }
  apply wsum_zero. intros k. rewrite weight_app, weight_neg, Heq. lia.
Qed.

#[export] Instance wsum_proper f : Proper (zeq ==> eq) (wsum (K := K) f).
Proof. intros a b. apply wsum_zeq. Qed.

Lemma wsum_ext f g es : (forall k w, (k, w) ∈ es -> f k = g k) -> wsum f es = wsum g es.
Proof.
  induction es as [|[k w] es IH]; simpl; intros Hfg; [done|].
  rewrite (Hfg k w) by (by left). rewrite IH; [done|]. intros k' w' Hin.
  apply (Hfg k' w'). by right.
Qed.

(** Only keys of non-zero weight matter. *)
Lemma wsum_ext_weight f g es :
  (forall k, weight es k <> 0 -> f k = g k) -> wsum f es = wsum g es.
Proof.
  remember (length es) as n eqn:Hn. revert es Hn.
  induction n as [n IH] using lt_wf_ind. intros [|[k w] es] -> Hfg; [done|].
  set (es' := (k, w) :: es) in *.
  rewrite (wsum_split f k), (wsum_split g k).
  assert (wsum f (without k es') = wsum g (without k es')) as ->.
  { apply (IH (length (without k es'))); [|done|].
    - unfold es'. simpl. rewrite cmp_eqb_refl. simpl. pose proof (without_length k es). lia.
    - intros k'. rewrite weight_without. case_cmp_eqb k' k; [done|]. apply Hfg. }
  destruct (decide (weight es' k = 0)) as [->|Hne]; [lia|]. by rewrite (Hfg k Hne).
Qed.

Lemma wsum_plus f g es : wsum (fun k => f k + g k) es = wsum f es + wsum g es.
Proof. induction es as [|[k w] es IH]; simpl; lia. Qed.

Lemma wsum_mult c f es : wsum (fun k => c * f k) es = c * wsum f es.
Proof. induction es as [|[k w] es IH]; simpl; lia. Qed.

Lemma wsum_0 es : wsum (fun _ => 0) es = 0.
Proof. induction es as [|[k w] es IH]; simpl; lia. Qed.
End lemmas.

(** ** Linear extension *)

Section bind.
Context {K L : Type} `{LinearCmp K, LinearCmp L}.
Implicit Types (es : list (K * Z)) (f g : K -> list (L * Z)).

Lemma weight_bind f es l : weight (zbind f es) l = wsum (fun k => weight (f k) l) es.
Proof.
  induction es as [|[k w] es IH]; simpl; [done|].
  by rewrite weight_app, weight_scale, IH.
Qed.

Lemma wsum_bind (h : L -> Z) f es : wsum h (zbind f es) = wsum (fun k => wsum h (f k)) es.
Proof.
  induction es as [|[k w] es IH]; simpl; [done|].
  by rewrite wsum_app, wsum_scale, IH.
Qed.

#[export] Instance zbind_proper f : Proper (zeq ==> zeq) (zbind f).
Proof. intros a b Hab l. rewrite !weight_bind. by apply wsum_zeq. Qed.

Lemma zbind_app f es1 es2 : zbind f (es1 ++ es2) = zbind f es1 ++ zbind f es2.
Proof. apply flat_map_app. Qed.

Lemma zbind_ext f g es : (forall k, weight es k <> 0 -> f k ≡z g k) -> zbind f es ≡z zbind g es.
Proof.
  intros Hfg l. rewrite !weight_bind. apply wsum_ext_weight. intros k Hk. by apply Hfg.
Qed.
End bind.

(** ** Composition of linear extensions *)

Lemma zbind_zbind {K L M} `{LinearCmp K, LinearCmp L, LinearCmp M}
    (g : L -> list (M * Z)) (f : K -> list (L * Z)) (es : list (K * Z)) :
  zbind g (zbind f es) ≡z zbind (fun k => zbind g (f k)) es.
Proof.
  intros m. rewrite !weight_bind, wsum_bind. apply wsum_ext. intros k w _. by rewrite weight_bind.
Qed.

Lemma zbind_single {K L} (g : K -> list (L * Z)) k : zbind g [(k, 1)] = g k.
Proof.
  unfold zbind, zscale. simpl. rewrite app_nil_r. etrans; [|apply map_id].
  apply map_ext. intros [l w]. cbn [fst snd]. by rewrite Z.mul_1_l.
Qed.

Lemma map_zbind {K L} (f : K -> L) (es : list (K * Z)) :
  map (fun e => (f e.1, e.2)) es = zbind (fun k => [(f k, 1)]) es.
Proof.
  induction es as [|[k w] es IH]; [done|]. rewrite zbind_cons, zscale_single. simpl. by rewrite IH.
Qed.

Lemma zbind_nil_f {K L} (es : list (K * Z)) : zbind (fun _ => []) es = ([] : list (L * Z)).
Proof. induction es as [|[k w] es IH]; [done|]. by rewrite zbind_cons, IH. Qed.

Lemma zscale_zbind {K L} c (f : K -> list (L * Z)) es :
  zscale c (zbind f es) = zbind (fun k => zscale c (f k)) es.
Proof.
  induction es as [|[k w] es IH]; [done|]. rewrite !zbind_cons. unfold zscale at 1.
  rewrite map_app. fold (zscale c (zbind f es)). rewrite IH. f_equal. unfold zscale.
  rewrite !map_map. apply map_ext. intros [l x]. cbn [fst snd]. f_equal. lia.
Qed.

Lemma zbind_plus {K L} `{LinearCmp K, LinearCmp L} (f g : K -> list (L * Z)) es :
  zbind (fun k => f k ++ g k) es ≡z zbind f es ++ zbind g es.
Proof.
  intros l. rewrite weight_app, !weight_bind, <- wsum_plus. apply wsum_ext.
  intros k w _. by rewrite weight_app.
Qed.

(** A weighted sum of weighted sums may be taken in either order. *)
Lemma wsum_exchange {K L} (f : K -> L -> Z) (es : list (K * Z)) (fs : list (L * Z)) :
  wsum (fun k => wsum (f k) fs) es = wsum (fun l => wsum (fun k => f k l) es) fs.
Proof.
  induction es as [|[k w] es IH]; simpl.
  - by rewrite wsum_0.
  - by rewrite IH, wsum_plus, wsum_mult.
Qed.

(** ** Canonical forms *)

Section canonical.
Context {K : Type} `{LinearCmp K}.
Implicit Types (k : K) (es : list (K * Z)).

(** In a map the total weight of a key is its entry. *)
Lemma weight_bt_get es k : bt_sorted es -> weight es k = default 0 (bt_get k es).
Proof.
  induction es as [|[k' w] es IH]; simpl; intros Hs; [done|].
  apply bt_sorted_cons_inv in Hs as [Hs Hall]. rewrite (IH Hs).
  case_cmp_eqb k k'; [|lia]. subst. rewrite bt_get_below by done. simpl. lia.
Qed.

Lemma zcanonical_bt_get es k w :
  zcanonical es -> bt_get k es = Some w <-> weight es k = w /\ w <> 0.
Proof.
  intros [Hs Hnz]. rewrite (weight_bt_get _ _ Hs).
  destruct (bt_get k es) as [w'|] eqn:E; simpl;
    [|split; [done|]; by intros [<- ?]].
  apply bt_get_In in E. rewrite Forall_forall in Hnz. specialize (Hnz _ E).
  simpl in Hnz. naive_solver.
Qed.

(** A Z-set has one canonical form. *)
Lemma zcanonical_unique es1 es2 :
  zcanonical es1 -> zcanonical es2 -> es1 ≡z es2 -> es1 = es2.
Proof.
  intros H1 H2 Heq. apply bt_ext; [apply H1|apply H2|]. intros k.
  destruct (bt_get k es1) as [w|] eqn:E.
  - apply (zcanonical_bt_get _ _ _ H1) in E as [Hw Hnz].
    symmetry. apply (zcanonical_bt_get _ _ _ H2). by rewrite <- Heq.
  - destruct (bt_get k es2) as [w|] eqn:E2; [|done].
    apply (zcanonical_bt_get _ _ _ H2) in E2 as [Hw Hnz].
    rewrite <- Heq in Hw. by rewrite (proj2 (zcanonical_bt_get _ k w H1)) in E.
Qed.

Lemma zcanonical_nil : zcanonical ([] : list (K * Z)).
Proof. split; constructor. Qed.

Lemma zcanonical_zeq_nil es : zcanonical es -> es ≡z [] -> es = [].
Proof. intros Hc Hz. by apply zcanonical_unique; [|apply zcanonical_nil|]. Qed.

(** Replacing an entry by a new total, dropping it at zero, stays canonical. *)
Definition zset_to k w es : list (K * Z) :=
  if w =? 0 then bt_remove k es else bt_insert k w es.

Lemma zset_to_canonical k w es : zcanonical es -> zcanonical (zset_to k w es).
Proof.
  intros [Hs Hnz]. unfold zset_to. destruct (Z.eqb_spec w 0).
  - split; [by apply bt_remove_sorted|by apply bt_remove_Forall].
  - split; [by apply bt_insert_sorted|by apply bt_insert_Forall].
Qed.

Lemma weight_zset_to k w es k' :
  bt_sorted es -> weight (zset_to k w es) k' = if cmp_eqb k' k then w else weight es k'.
Proof.
  intros Hs. unfold zset_to. destruct (Z.eqb_spec w 0).
  - rewrite !weight_bt_get, bt_get_remove by auto with mutiny.
    subst. by destruct (cmp_eqb k' k).
  - rewrite !weight_bt_get, bt_get_insert by auto with mutiny.
    by destruct (cmp_eqb k' k).
Qed.

(** Adding one entry to a canonical map. *)
Lemma zset_to_add k w es :
  bt_sorted es -> zset_to k (weight es k + w) es ≡z es ++ [(k, w)].
Proof.
  intros Hs k'. rewrite weight_zset_to, weight_app by done. simpl.
  case_cmp_eqb k' k; subst; lia.
Qed.

(** The canonical form, over unbounded integers. *)
Definition zcanon es : list (K * Z) :=
  fold_left (fun m e => zset_to e.1 (weight m e.1 + e.2) m) es [].

Lemma zcanon_fold es m :
  zcanonical m ->
  zcanonical (fold_left (fun m e => zset_to e.1 (weight m e.1 + e.2) m) es m) /\
  fold_left (fun m e => zset_to e.1 (weight m e.1 + e.2) m) es m ≡z m ++ es.
Proof.
  revert m. induction es as [|[k w] es IH]; intros m Hc; cbn [fold_left].
  - rewrite app_nil_r. by split.
  - destruct (IH (zset_to k (weight m k + w) m)) as [IHc IHz]; [by apply zset_to_canonical|].
    split; [done|]. rewrite IHz, zset_to_add by apply Hc. by rewrite <- app_assoc.
Qed.

Lemma zcanon_spec es : zcanonical (zcanon es) /\ zcanon es ≡z es.
Proof. apply (zcanon_fold es []), zcanonical_nil. Qed.

Lemma zcanon_unique es es' : zcanonical es -> es ≡z es' -> es = zcanon es'.
Proof.
  intros Hc Hz. destruct (zcanon_spec es') as [Hc' Hz'].
  apply zcanonical_unique; [done..|]. by rewrite Hz, Hz'.
Qed.

Lemma zcanonical_get es es' k :
  zcanonical es -> zcanonical es' -> weight es k = weight es' k -> bt_get k es = bt_get k es'.
Proof.
  intros Hc Hc' Hw. destruct (bt_get k es) as [w|] eqn:E.
  - symmetry. apply (zcanonical_bt_get _ _ _ Hc) in E as [<- Hnz].
    apply (zcanonical_bt_get _ _ _ Hc'). by rewrite <- Hw.
  - destruct (bt_get k es') as [w|] eqn:E'; [|done].
    apply (zcanonical_bt_get _ _ _ Hc') in E' as [<- Hnz].
    by rewrite (proj2 (zcanonical_bt_get _ k _ Hc) (conj Hw Hnz)) in E.
Qed.

Lemma weight_filter (P : K -> bool) es k :
  weight (List.filter (fun e => P e.1) es) k = if P k then weight es k else 0.
Proof.
  induction es as [|[k' w] es IH]; simpl; [by destruct (P k)|].
  destruct (P k') eqn:E; simpl; rewrite IH; case_cmp_eqb k k'; subst; rewrite ?E; try done;
    destruct (P k); lia.
Qed.

Lemma zcanonical_filter (P : K -> bool) es :
  zcanonical es -> zcanonical (List.filter (fun e => P e.1) es).
Proof.
  intros [Hs Hnz]. induction es as [|[k w] es IH]; simpl; [apply zcanonical_nil|].
  apply bt_sorted_cons_inv in Hs as [Hs Hall]. inversion Hnz; subst.
  destruct (IH Hs) as [IHs IHn]; [done|]. destruct (P k); [|done].
  split; [|by constructor]. constructor; [done|].
  rewrite Forall_forall in Hall. apply Forall_forall. intros e He.
  apply Hall. apply list_elem_of_In in He. apply filter_In in He as [He _]. by apply list_elem_of_In.
Qed.

Lemma bt_sorted_NoDup {V} (m : list (K * V)) : bt_sorted m -> NoDup (map fst m).
Proof.
  induction m as [|[k v] m IH]; simpl; intros Hs; [constructor|].
  apply bt_sorted_cons_inv in Hs as [Hs Hall]. constructor; [|by apply IH].
  intros Hin. apply list_elem_of_In, in_map_iff in Hin as ([k' v'] & Heq & Hin).
  simpl in Heq. subst. rewrite Forall_forall in Hall.
  specialize (Hall (k, v') ltac:(by apply list_elem_of_In)).
  by apply cmp_lt_irrefl in Hall.
Qed.
End canonical.

#[export] Hint Resolve zcanonical_nil zset_to_canonical : mutiny.
