(* ===== verification/Value.v ===== *)
(** * Values, rows and schemas ([schweep-zset]: value.rs, row.rs, schema.rs, error.rs)

    [Value] with the total order S-7, [Row] as the list of its values, [Schema]
    with its construction and validation rules, and the error type of the Z-set
    layer.  An [f64] is its bit pattern read as an [i64] ([f64::to_bits() as
    i64]); the engine only compares and moves floats, so the pattern is all
    that matters here. *)

From Stdlib Require Import ZArith Lia.
From stdpp Require Import base list strings.
From S2P Require Import Prelude.

(** ** Types and values *)

Inductive DataType := Int64 | Utf8 | Boolean | Float64.

Definition is_storable (t : DataType) : bool :=
  match t with Float64 => false | _ => true end.

Definition type_name (t : DataType) : string :=
  match t with
  | Int64 => "Int64"
  | Utf8 => "Utf8"
  | Boolean => "Boolean"
  | Float64 => "Float64"
  end.

Inductive Value :=
| VNull
| VInt (i : Z)
| VStr (s : string)
| VBool (b : bool)
| VFloat (bits : Z).

#[export] Instance DataType_eq_dec : EqDecision DataType.
Proof. solve_decision. Defined.
#[export] Instance Value_eq_dec : EqDecision Value.
Proof. solve_decision. Defined.

Definition data_type (v : Value) : option DataType :=
  match v with
  | VNull => None
  | VInt _ => Some Int64
  | VStr _ => Some Utf8
  | VBool _ => Some Boolean
  | VFloat _ => Some Float64
  end.

Definition is_null (v : Value) : bool := match v with VNull => true | _ => false end.

Definition fits (v : Value) (ty : DataType) : bool :=
  match data_type v with None => true | Some actual => bool_decide (actual = ty) end.

Definition type_rank (v : Value) : Z :=
  match v with
  | VNull => 0
  | VBool _ => 1
  | VInt _ => 2
  | VFloat _ => 3
  | VStr _ => 4
  end.

(** [f64::total_cmp]: the bit patterns as [i64]s, the magnitude bits flipped
    when the sign bit is set. *)
Definition float_key (bits : Z) : Z := Z.lxor bits (if bits <? 0 then 2 ^ 63 - 1 else 0).

#[export] Instance Value_cmp : Cmp Value := fun a b =>
  match a, b with
  | VNull, VNull => Eq
  | VBool a, VBool b => cmp a b
  | VInt a, VInt b => cmp a b
  | VFloat a, VFloat b => cmp (float_key a) (float_key b)
  | VStr a, VStr b => cmp (string_bytes a) (string_bytes b)
  | _, _ => cmp (type_rank a) (type_rank b)
  end.

(** A row is a value per schema column; [Ord] on rows is the derived
    lexicographic one, and [Row::get] is list lookup. *)
Abbreviation Row := (list Value).

Definition row_get (r : Row) (index : nat) : option Value := r !! index.

(** ** Schemas *)

Record Field := mkField { field_name : string; field_type : DataType; nullable : bool }.

Record Schema := mkSchema { fields : list Field }.

#[export] Instance Field_eq_dec : EqDecision Field.
Proof. solve_decision. Defined.
#[export] Instance Schema_eq_dec : EqDecision Schema.
Proof. solve_decision. Defined.

Inductive ZSetError :=
| EmptySchema
| DuplicateFieldName (name : string)
| UnknownColumn (name : string)
| UnstorableColumnType (name : string) (declared : DataType)
| ArityMismatch (expected found : nat)
| ValueTypeMismatch (column : string) (expected found : DataType)
| NullInNonNullable (column : string)
| SchemaMismatch (left right : string)
| WeightLengthMismatch (weights rows : nat)
| WeightOverflow (while_doing : string)
| ArrowDowncast (column : string) (expected : DataType)
| Arrow (message : string).

Definition schema_len (s : Schema) : nat := length (fields s).

(** [Schema::new]'s loop: each field is checked against the ones before it. *)
Fixpoint check_unique (prior : list Field) (fs : list Field) : result ZSetError unit :=
  match fs with
  | [] => Ok tt
  | f :: fs' =>
      if existsb (fun p => String.eqb (field_name p) (field_name f)) prior
      then Err (DuplicateFieldName (field_name f))
      else check_unique (prior ++ [f]) fs'
  end.

Definition Schema_new (fs : list Field) : result ZSetError Schema :=
  match fs with
  | [] => Err EmptySchema
  | _ => check? check_unique [] fs in Ok (mkSchema fs)
  end.

Definition new_table (fs : list Field) : result ZSetError Schema :=
  check? try_for (fun f =>
    if is_storable (field_type f) then Ok tt
    else Err (UnstorableColumnType (field_name f) (field_type f))) fs in
  Schema_new fs.

Fixpoint position {A} (p : A -> bool) (l : list A) : option nat :=
  match l with
  | [] => None
  | x :: l' => if p x then Some 0%nat else option_map S (position p l')
  end.

Definition schema_index_of (s : Schema) (name : string) : option nat :=
  position (fun f => String.eqb (field_name f) name) (fields s).

Definition field_named (s : Schema) (name : string) : result ZSetError Field :=
  ok_or (List.find (fun f => String.eqb (field_name f) name) (fields s)) (UnknownColumn name).

Definition check_value (s : Schema) (index : nat) (v : Value) : result ZSetError unit :=
  match fields s !! index with
  | None => Err (ArityMismatch (schema_len s) (S index))
  | Some field =>
      if is_null v then
        if nullable field then Ok tt else Err (NullInNonNullable (field_name field))
      else
        match data_type v with
        | Some actual =>
            if decide (actual = field_type field) then Ok tt
            else Err (ValueTypeMismatch (field_name field) (field_type field) actual)
        | None => Err (NullInNonNullable (field_name field))
        end
  end.

(** [impl Display for Schema] *)
Definition field_to_string (f : Field) : string :=
  (field_name f +:+ ": " +:+ type_name (field_type f) +:+
   if nullable f then "" else " NOT NULL")%string.

Fixpoint join_strings (sep : string) (l : list string) : string :=
  match l with
  | [] => ""
  | [s] => s
  | s :: l' => (s +:+ sep +:+ join_strings sep l')%string
  end.

Definition schema_to_string (s : Schema) : string :=
  ("(" +:+ join_strings ", " (map field_to_string (fields s)) +:+ ")")%string.

(** ** The order S-7 is a total order *)

Lemma float_key_nonneg bits : 0 <= float_key bits <-> 0 <= bits.
Proof.
  unfold float_key. destruct (Z.ltb_spec bits 0).
  - rewrite Z.lxor_nonneg. lia.
  - by rewrite Z.lxor_0_r.
Qed.

Lemma float_key_inj a b : float_key a = float_key b -> a = b.
Proof.
  intros E. pose proof (float_key_nonneg a) as Ha. pose proof (float_key_nonneg b) as Hb.
  rewrite E in Ha. unfold float_key in E.
  destruct (Z.ltb_spec a 0), (Z.ltb_spec b 0); try lia.
  - apply (f_equal (fun x => Z.lxor x (2 ^ 63 - 1))) in E.
    by rewrite !Z.lxor_assoc, Z.lxor_nilpotent, !Z.lxor_0_r in E.
  - by rewrite !Z.lxor_0_r in E.
Qed.

(** Every value as a rank, a number and a byte string, in comparison order. *)
Definition value_key (v : Value) : Z * (Z * list N) :=
  (type_rank v,
   match v with
   | VNull => (0, [])
   | VInt i => (i, [])
   | VStr s => (0, string_bytes s)
   | VBool b => (if b then 1 else 0, [])
   | VFloat x => (float_key x, [])
   end).

#[export] Instance Value_linear : LinearCmp Value.
Proof.
  apply (linear_cmp_via value_key).
  - intros [|x|x|[]|x] [|y|y|[]|y]; simpl; intros [=]; subst; try done.
    + f_equal. by apply string_bytes_inj.
    + f_equal. by apply float_key_inj.
  - intros [|x|x|[]|x] [|y|y|[]|y]; try reflexivity; cbn;
      unfold cmp at 2, prod_Cmp, prod_cmp; simpl; by destruct (cmp _ _).
Qed.

(** ** What a validated row satisfies *)

(** The value is of the field's type, or a permitted null. *)
Definition fits_field (f : Field) (v : Value) : Prop :=
  match data_type v with
  | None => nullable f = true
  | Some t => t = field_type f
  end.

Definition conforms (s : Schema) (r : Row) : Prop := Forall2 fits_field (fields s) r.

Lemma check_value_Ok s i v f :
  fields s !! i = Some f -> check_value s i v = Ok tt <-> fits_field f v.
Proof.
  intros Hf. unfold check_value, fits_field. rewrite Hf.
  destruct v; simpl; try (case_decide; naive_solver).
  destruct (nullable f); naive_solver.
Qed.

Lemma conforms_length s r : conforms s r -> length r = schema_len s.
Proof. intros H%Forall2_length. done. Qed.

Lemma check_unique_NoDup prior fs :
  NoDup (map field_name prior) ->
  check_unique prior fs = Ok tt <-> NoDup (map field_name (prior ++ fs)).
Proof.
  revert prior. induction fs as [|f fs IH]; intros prior Hnd; simpl.
  - by rewrite app_nil_r.
  - destruct (existsb _ prior) eqn:E.
    + split; [done|]. intros Hd. exfalso.
      apply existsb_exists in E as (p & Hp & Heq%String.eqb_eq).
      rewrite map_app in Hd. apply NoDup_app in Hd as (_ & Hd & _).
      apply (Hd (field_name p)).
      * apply list_elem_of_In, in_map, Hp.
      * simpl. rewrite Heq. by left.
    + rewrite IH, <- app_assoc; [done|].
      rewrite map_app, NoDup_app. split_and!; [done| |apply NoDup_singleton].
      intros x Hx Hf. simpl in Hf. apply list_elem_of_singleton in Hf as ->.
      apply list_elem_of_In, in_map_iff in Hx as (p & Hp & Hin).
      apply not_true_iff_false in E. apply E, existsb_exists.
      exists p. split; [done|]. by apply String.eqb_eq.
Qed.

(** A schema is accepted exactly when it has a column and no repeated name. *)
Lemma Schema_new_Ok fs s :
  Schema_new fs = Ok s <-> s = mkSchema fs /\ fs <> [] /\ NoDup (map field_name fs).
Proof.
  unfold Schema_new. destruct fs as [|f fs]; [naive_solver|].
  pose proof (check_unique_NoDup [] (f :: fs) (NoDup_nil_2)) as Hnd.
  destruct (check_unique [] (f :: fs)) as [[]|]; naive_solver.
Qed.
