(* ===== verification/ZSet.v ===== *)
(** * Z-set batches ([schweep-zset]: zset.rs, deltas.rs)

    [ZSetBatch] at the level of its [(row, weight)] entries, with the
    validation [from_entries] performs and the consolidation that gives the
    canonical form S-8.  A batch's columnar Arrow storage is represented by the
    entries it stores. *)

From Stdlib Require Import ZArith Lia Sorted Permutation.
From stdpp Require Import base list strings.
From S2P Require Import Prelude BTree ZAlg Value.

(** [Vec<(Row, i64)>] *)
Abbreviation Entries := (list (Row * Z)).

Record ZSetBatch := mkBatch { batch_schema : Schema; batch_entries : Entries }.

(** ** Construction *)

(** One iteration of [from_entries]'s inner loop: the row's arity, then its
    value in column [index]. *)
Definition check_cell (s : Schema) (index : nat) (e : Row * Z) : result ZSetError unit :=
  if negb (length e.1 =? schema_len s)%nat
  then Err (ArityMismatch (schema_len s) (length e.1))
  else
    match row_get e.1 index with
    | None => Err (ArityMismatch (schema_len s) (length e.1))
    | Some v => check_value s index v
    end.

(** Validation is column by column, as the columns are built. *)
Definition validate (s : Schema) (es : Entries) : result ZSetError unit :=
  try_for (fun index => try_for (check_cell s index) es) (seq 0 (schema_len s)).

Definition from_entries (s : Schema) (es : Entries) : result ZSetError ZSetBatch :=
  check? validate s es in Ok (mkBatch s es).

Definition empty (s : Schema) : result ZSetError ZSetBatch := from_entries s [].

Definition entries (b : ZSetBatch) : result ZSetError Entries := Ok (batch_entries b).

Definition batch_len (b : ZSetBatch) : nat := length (batch_entries b).

Definition batch_is_empty (b : ZSetBatch) : bool := (batch_len b =? 0)%nat.

(** ** Algebra *)

Definition add (a b : ZSetBatch) : result ZSetError ZSetBatch :=
  if negb (bool_decide (batch_schema a = batch_schema b)) then
    Err (SchemaMismatch (schema_to_string (batch_schema a)) (schema_to_string (batch_schema b)))
  else
    let? ea := entries a in
    let? eb := entries b in
    from_entries (batch_schema a) (ea ++ eb).

Definition negate_entry (e : Row * Z) : result ZSetError (Row * Z) :=
  let? w := ok_or (checked_neg e.2) (WeightOverflow "negating a weight") in Ok (e.1, w).

Definition negate (b : ZSetBatch) : result ZSetError ZSetBatch :=
  let? es := entries b in
  let? es' := try_map negate_entry es in
  from_entries (batch_schema b) es'.

(** ** Consolidation *)

(** [sort_by] is stable: an entry goes before the later ones it equals. *)
Fixpoint sort_insert (e : Row * Z) (es : Entries) : Entries :=
  match es with
  | [] => [e]
  | e' :: es' =>
      match cmp e.1 e'.1 with
      | Gt => e' :: sort_insert e es'
      | _ => e :: es
      end
  end.

Definition sort_by_row (es : Entries) : Entries := foldr sort_insert [] es.

(** The loop body over [merged]; the vector's last element is the list's head. *)
Definition merge_step (merged : Entries) (e : Row * Z) : result ZSetError Entries :=
  let '(row, w) := e in
  if w =? 0 then Ok merged
  else
    match merged with
    | (previous, previous_weight) :: rest =>
        if cmp_eqb previous row then
          let? total := ok_or (checked_add previous_weight w)
                          (WeightOverflow "consolidating weights for equal rows") in
          if total =? 0 then Ok rest else Ok ((previous, total) :: rest)
        else Ok ((row, w) :: merged)
    | [] => Ok [(row, w)]
    end.

Definition consolidated_entries (b : ZSetBatch) : result ZSetError Entries :=
  let? es := entries b in
  let? merged := try_fold merge_step [] (sort_by_row es) in
  Ok (rev merged).

Definition consolidate (b : ZSetBatch) : result ZSetError ZSetBatch :=
  let? merged := consolidated_entries b in
  from_entries (batch_schema b) merged.

Record Canonical := mkCanonical { canonical_schema : Schema; canonical_entries : Entries }.

Definition canonical (b : ZSetBatch) : result ZSetError Canonical :=
  let? es := consolidated_entries b in
  Ok (mkCanonical (batch_schema b) es).

(** ** The deltas of an epoch *)

Record EpochDeltas := mkDeltas { tables : btree string Entries }.

Definition deltas_new : EpochDeltas := mkDeltas bt_empty.

Definition deltas_push (d : EpochDeltas) (table : string) (row : Row) (w : Z) : EpochDeltas :=
  mkDeltas (bt_update table [] (fun es => es ++ [(row, w)]) (tables d)).

Definition deltas_extend (d : EpochDeltas) (table : string) (es : Entries) : EpochDeltas :=
  mkDeltas (bt_update table [] (fun old => old ++ es) (tables d)).

Definition entries_for (d : EpochDeltas) (table : string) : Entries :=
  default [] (bt_get table (tables d)).

Definition deltas_is_empty (d : EpochDeltas) : bool :=
  forallb (fun p => match p.2 with [] => true | _ => false end) (tables d).

Definition entry_count (d : EpochDeltas) : nat := sum_list (map (fun p => length p.2) (tables d)).

(** ** Validation *)

Lemma check_cell_Ok s i e f :
  fields s !! i = Some f ->
  check_cell s i e = Ok tt <->
  length e.1 = schema_len s /\ exists v, e.1 !! i = Some v /\ fits_field f v.
Proof.
  intros Hf. unfold check_cell, row_get.
  destruct (Nat.eqb_spec (length e.1) (schema_len s)) as [Hl|Hl]; simpl; [|naive_solver].
  destruct (e.1 !! i) as [v|] eqn:Hv; [|naive_solver].
  rewrite (check_value_Ok s i v f Hf). naive_solver.
Qed.

(** Column-by-column validation accepts exactly the batches whose every row
    conforms to the schema. *)
Lemma validate_Ok s es :
  fields s <> [] ->
  validate s es = Ok tt <-> Forall (fun e => conforms s e.1) es.
Proof.
  intros Hne. unfold validate. rewrite try_for_Ok.
  assert (forall i, i ∈ seq 0 (schema_len s) -> exists f, fields s !! i = Some f) as Hf.
  { intros i Hi%elem_of_seq. apply lookup_lt_is_Some. unfold schema_len in *. lia. }
  split.
  - intros Hall. rewrite Forall_forall in Hall. apply Forall_forall. intros e He. unfold conforms.
    apply Forall2_same_length_lookup. split.
    + assert (0%nat ∈ seq 0 (schema_len s)) as H0.
      { apply elem_of_seq. unfold schema_len. destruct (fields s); simpl; [done|lia]. }
      destruct (Hf _ H0) as [f Hff]. specialize (Hall _ H0).
      rewrite try_for_Ok, Forall_forall in Hall. specialize (Hall _ He).
      apply (check_cell_Ok _ _ _ _ Hff) in Hall as [Hl _]. done.
    + intros i f v Hfi Hvi.
      assert (i ∈ seq 0 (schema_len s)) as Hi.
      { apply elem_of_seq. apply lookup_lt_Some in Hfi. unfold schema_len. lia. }
      specialize (Hall _ Hi). rewrite try_for_Ok, Forall_forall in Hall.
      specialize (Hall _ He). apply (check_cell_Ok _ _ _ _ Hfi) in Hall as (_ & v' & Hv' & Hfit).
      congruence.
  - intros Hall. apply Forall_forall. intros i Hi. destruct (Hf i Hi) as [f Hfi].
    apply try_for_Ok. eapply Forall_impl; [exact Hall|]. intros e Hc.
    apply (check_cell_Ok _ _ _ _ Hfi). split; [by apply conforms_length|].
    destruct (Forall2_lookup_l _ _ _ _ _ Hc Hfi) as (v & Hv & Hfit). eauto.
Qed.

Lemma from_entries_Ok s es b :
  fields s <> [] ->
  from_entries s es = Ok b <-> b = mkBatch s es /\ Forall (fun e => conforms s e.1) es.
Proof.
  intros Hne. unfold from_entries. pose proof (validate_Ok s es Hne) as Hv.
  destruct (validate s es) as [[]|]; naive_solver.
Qed.

Lemma from_entries_inv s es b : from_entries s es = Ok b -> b = mkBatch s es.
Proof. unfold from_entries. destruct (validate s es); naive_solver. Qed.

(** ** Sorting *)

Definition row_le (p q : Row * Z) : Prop := cmp p.1 q.1 <> Gt.

Lemma sort_insert_perm e es : Permutation (sort_insert e es) (e :: es).
Proof.
  induction es as [|e' es IH]; simpl; [done|].
  destruct (cmp e.1 e'.1); [done..|]. rewrite IH. constructor.
Qed.

Lemma sort_by_row_perm es : Permutation (sort_by_row es) es.
Proof.
  induction es as [|e es IH]; simpl; [done|]. rewrite sort_insert_perm. by constructor.
Qed.

Lemma sort_insert_sorted e es :
  StronglySorted row_le es -> StronglySorted row_le (sort_insert e es).
Proof.
  induction 1 as [|e' es Hs IH Hall]; simpl; [by repeat constructor|].
  destruct (cmp e.1 e'.1) eqn:E.
  1,2: constructor; [by constructor|]; constructor; [unfold row_le; congruence|];
    eapply Forall_impl; [exact Hall|]; intros q Hq; unfold row_le in *;
    eapply cmp_le_trans; [|exact Hq]; congruence.
  constructor; [done|]. rewrite sort_insert_perm. constructor; [|done].
  unfold row_le. apply cmp_Gt_Lt in E. congruence.
Qed.

Lemma sort_by_row_sorted es : StronglySorted row_le (sort_by_row es).
Proof. induction es as [|e es IH]; simpl; [constructor|]. by apply sort_insert_sorted. Qed.

(** ** The merge loop *)

(** Its invariant: what has been merged is canonical, in reverse. *)
Definition merged_ok (merged : Entries) : Prop :=
  StronglySorted (fun p q : Row * Z => cmp q.1 p.1 = Lt) merged /\
  Forall (fun e => e.2 <> 0) merged.

Definition all_le (merged : Entries) (e : Row * Z) : Prop :=
  Forall (fun a => row_le a e) merged.

Lemma merge_step_inv merged e merged' :
  merged_ok merged -> all_le merged e -> merge_step merged e = Ok merged' ->
  merged_ok merged' /\
  merged' ≡z merged ++ [e] /\
  forall e', row_le e e' -> all_le merged e' -> all_le merged' e'.
Proof.
  destruct e as [row w]. unfold merge_step. intros [Hs Hnz] Hle.
  destruct (Z.eqb_spec w 0) as [->|Hw].
  { intros [= <-]. split_and!; [done| |done]. intros k. rewrite weight_app. simpl.
    destruct (cmp_eqb k row); lia. }
  destruct merged as [|[p pw] rest].
  { intros [= <-]. split_and!; [by repeat constructor|done|]. by repeat constructor. }
  inversion Hs as [|?? Hs' Hall]; inversion Hnz as [|?? Hpw Hnz']; subst; simpl in *.
  case_cmp_eqb p row.
  - subst p. destruct (checked_add pw w) as [t|] eqn:Et; simpl; [|done].
    apply checked_add_Some in Et as [-> _].
    destruct (Z.eqb_spec (pw + w) 0) as [Ht|Ht]; intros [= <-]; split_and!.
    + done.
    + intros k. simpl. rewrite weight_app. simpl. destruct (cmp_eqb k row); lia.
    + intros e' _ Hle'. by inversion Hle'.
    + split; by constructor.
    + intros k. simpl. rewrite weight_app. simpl. destruct (cmp_eqb k row); lia.
    + intros e' Hr Hle'. inversion Hle'. by constructor.
  - intros [= <-]. split_and!.
    + split; [|by repeat constructor]. constructor; [done|].
      inversion Hle as [|?? Hp Hrest]; subst. unfold row_le in Hp. simpl in Hp.
      assert (cmp p row = Lt) as Hlt.
      { destruct (cmp p row) eqn:Ec; [by apply cmp_eq in Ec|done|done]. }
      constructor; [done|]. eapply Forall_impl; [exact Hall|]. intros q Hq. simpl in *.
      by apply (cmp_lt_trans _ p).
    + intros k. simpl. rewrite weight_app. simpl. lia.
    + intros e' Hr Hle'. by constructor.
Qed.

Lemma merge_fold_inv es merged merged' :
  StronglySorted row_le es -> merged_ok merged -> Forall (all_le merged) es ->
  try_fold merge_step merged es = Ok merged' ->
  merged_ok merged' /\ merged' ≡z merged ++ es.
Proof.
  revert merged. induction es as [|e es IH]; intros merged Hs Hm Hle; simpl.
  - intros [= <-]. by rewrite app_nil_r.
  - destruct (merge_step merged e) as [m1|] eqn:E; [|done]. intros Hf.
    inversion Hs as [|?? Hs' Hall]; inversion Hle as [|?? He Hle']; subst.
    destruct (merge_step_inv _ _ _ Hm He E) as (Hm1 & Hz & Hpres).
    destruct (IH m1 Hs' Hm1) as [Hm' Hz']; [|done|].
    + rewrite Forall_forall in Hall, Hle'. apply Forall_forall. intros e' He'. apply Hpres; auto.
    + split; [done|]. rewrite Hz', Hz, <- app_assoc. done.
Qed.

Lemma StronglySorted_app_tail {A} (R : relation A) l x :
  StronglySorted R l -> Forall (fun y => R y x) l -> StronglySorted R (l ++ [x]).
Proof.
  induction 1 as [|y l Hs IH Hall]; simpl; intros Hx; [by repeat constructor|].
  inversion Hx; subst. constructor; [by apply IH|]. rewrite Forall_app. auto.
Qed.

Lemma merged_ok_rev merged : merged_ok merged -> zcanonical (rev merged).
Proof.
  intros [Hs Hnz]. split.
  - clear Hnz. induction Hs as [|e merged Hs IH Hall]; simpl; [constructor|].
    apply StronglySorted_app_tail; [done|].
    by apply Forall_rev.
  - by apply Forall_rev.
Qed.

Lemma zeq_rev (es : Entries) : rev es ≡z es.
Proof. by rewrite <- Permutation_rev. Qed.

(** What [consolidated_entries] computes: the canonical form of the Z-set. *)
Lemma consolidated_entries_spec b es :
  consolidated_entries b = Ok es -> zcanonical es /\ es ≡z batch_entries b.
Proof.
  unfold consolidated_entries, entries.
  destruct (try_fold merge_step [] (sort_by_row (batch_entries b))) as [m|] eqn:E; [|done].
  intros [= <-].
  destruct (merge_fold_inv _ _ _ (sort_by_row_sorted _) (conj (SSorted_nil _) (Forall_nil_2 _))
    ltac:(apply Forall_true; intros; apply Forall_nil_2) E) as [Hm Hz].
  split; [by apply merged_ok_rev|].
  rewrite zeq_rev, Hz. simpl. by rewrite sort_by_row_perm.
Qed.

(** ** When consolidation succeeds *)

(** The total absolute weight; a Z-set whose mass fits an [i64] has every
    partial sum in range, in any order. *)
Definition mass {K} (es : list (K * Z)) : Z := wsum (fun _ => 1) (map (fun e => (e.1, Z.abs e.2)) es).

Lemma mass_cons {K} (k : K) w es : mass ((k, w) :: es) = Z.abs w + mass es.
Proof. unfold mass. simpl. lia. Qed.

Lemma mass_nonneg {K} (es : list (K * Z)) : 0 <= mass es.
Proof. induction es as [|[k w] es IH]; [done|]. rewrite mass_cons. lia. Qed.

Lemma mass_perm {K} (a b : list (K * Z)) : Permutation a b -> mass a = mass b.
Proof.
  induction 1 as [|[k w] a b _ IH|[k1 w1] [k2 w2] a|]; rewrite ?mass_cons; lia.
Qed.

Lemma mass_app {K} (a b : list (K * Z)) : mass (a ++ b) = mass a + mass b.
Proof. induction a as [|[k w] a IH]; simpl; rewrite ?mass_cons; [done|]. lia. Qed.

Lemma weight_mass {K} `{Cmp K} (es : list (K * Z)) k : Z.abs (weight es k) <= mass es.
Proof.
  induction es as [|[k' w] es IH]; simpl; [done|]. rewrite mass_cons.
  destruct (cmp_eqb k k'); pose proof (mass_nonneg es); lia.
Qed.

Lemma mass_In {K} (es : list (K * Z)) k w : (k, w) ∈ es -> Z.abs w <= mass es.
Proof.
  induction es as [|[k' w'] es IH]; [by inversion 1|]. rewrite mass_cons.
  pose proof (mass_nonneg es). intros [[= -> ->]|Hin]%elem_of_cons; [lia|].
  specialize (IH Hin). lia.
Qed.

Lemma merge_step_mass_le merged e merged' :
  merge_step merged e = Ok merged' -> mass merged' <= mass merged + mass [e].
Proof.
  destruct e as [row w]. rewrite mass_cons. change (mass []) with 0. unfold merge_step.
  destruct (w =? 0); [intros [= <-]; lia|].
  destruct merged as [|[p pw] rest]; [intros [= <-]; rewrite mass_cons; lia|].
  rewrite mass_cons. destruct (cmp_eqb p row); [|intros [= <-]; rewrite !mass_cons; lia].
  destruct (checked_add pw w) as [t|] eqn:Et; simpl; [|done]. apply checked_add_Some in Et as [-> _].
  destruct (pw + w =? 0); intros [= <-]; rewrite ?mass_cons; lia.
Qed.

Lemma merge_fold_mass_le es merged merged' :
  try_fold merge_step merged es = Ok merged' -> mass merged' <= mass merged + mass es.
Proof.
  revert merged. induction es as [|e es IH]; intros merged; cbn [try_fold].
  - intros [= <-]. change (mass []) with 0. lia.
  - destruct (merge_step merged e) as [m1|] eqn:E; [|done]. intros Hm%IH.
    apply merge_step_mass_le in E. destruct e as [row w]. rewrite mass_cons in *.
    change (mass []) with 0 in E. lia.
Qed.

(** Merging can only cancel weight. *)
Lemma consolidated_entries_mass b es :
  consolidated_entries b = Ok es -> mass es <= mass (batch_entries b).
Proof.
  unfold consolidated_entries, entries.
  destruct (try_fold merge_step [] _) as [m|] eqn:E; [|done]. intros [= <-].
  apply merge_fold_mass_le in E. change (mass []) with 0 in E.
  rewrite <- (mass_perm _ _ (Permutation_rev m)), <- (mass_perm _ _ (sort_by_row_perm (batch_entries b))).
  lia.
Qed.

Lemma merge_step_mass merged e :
  mass merged + mass [e] <= i64_max ->
  exists merged', merge_step merged e = Ok merged' /\ mass merged' <= mass merged + mass [e].
Proof.
  destruct e as [row w]. rewrite mass_cons. change (mass []) with 0. intros Hm.
  unfold merge_step. destruct (w =? 0); [exists merged; split; [done|lia]|].
  destruct merged as [|[p pw] rest].
  { eexists; split; [done|]. rewrite mass_cons. change (mass []) with 0. lia. }
  rewrite mass_cons in *. pose proof (mass_nonneg rest).
  destruct (cmp_eqb p row).
  - unfold checked_add, checked. rewrite (proj2 (in_i64_spec (pw + w))).
    2: { unfold i64_min, i64_max in *. lia. }
    simpl. destruct (pw + w =? 0); eexists; (split; [done|]); rewrite ?mass_cons; lia.
  - eexists; split; [done|]. rewrite !mass_cons. lia.
Qed.

#[local] Arguments merge_step : simpl never.

Lemma merge_fold_total es merged :
  mass merged + mass es <= i64_max -> exists m, try_fold merge_step merged es = Ok m.
Proof.
  revert merged. induction es as [|[row w] es IH]; intros merged Hm; simpl; [eauto|].
  rewrite mass_cons in Hm. pose proof (mass_nonneg es).
  destruct (merge_step_mass merged (row, w)) as (m1 & -> & Hm1).
  { rewrite mass_cons. change (mass []) with 0. lia. }
  rewrite mass_cons in Hm1. change (mass []) with 0 in Hm1. apply IH. lia.
Qed.

Lemma consolidated_entries_total b :
  mass (batch_entries b) <= i64_max -> exists es, consolidated_entries b = Ok es.
Proof.
  intros Hm. unfold consolidated_entries, entries.
  destruct (merge_fold_total (sort_by_row (batch_entries b)) []) as [m ->]; [|eauto].
  rewrite (mass_perm _ _ (sort_by_row_perm _)). done.
Qed.

(** A canonical list is its own consolidation. *)
Lemma sort_by_row_id es : bt_sorted es -> sort_by_row es = es.
Proof.
  induction es as [|[k w] es IH]; simpl; intros Hs; [done|].
  apply bt_sorted_cons_inv in Hs as [Hs Hall]. rewrite (IH Hs).
  destruct es as [|[k' w'] es']; [done|]. simpl.
  inversion Hall as [|?? Hk]. simpl in Hk. by rewrite Hk.
Qed.

Lemma merge_fold_id es merged :
  bt_sorted (rev merged ++ es) -> Forall (fun e => e.2 <> 0) es ->
  try_fold merge_step merged es = Ok (rev es ++ merged).
Proof.
  revert merged. induction es as [|[k w] es IH]; intros merged Hs Hnz; simpl; [done|].
  inversion Hnz as [|?? Hw Hnz']; subst. simpl in Hw.
  assert (merge_step merged (k, w) = Ok ((k, w) :: merged)) as Hstep.
  { unfold merge_step. rewrite (proj2 (Z.eqb_neq w 0) Hw).
    destruct merged as [|[p pw] rest]; [done|].
    case_cmp_eqb p k; [exfalso|done]. subst p. simpl in Hs. rewrite <- app_assoc in Hs.
    apply bt_sorted_NoDup in Hs. rewrite map_app in Hs.
    apply NoDup_app in Hs as (_ & _ & Hs). simpl in Hs.
    apply NoDup_cons in Hs as [Hs _]. apply Hs. by left. }
  rewrite Hstep. rewrite (IH ((k, w) :: merged)); [|simpl|done].
  - by rewrite <- app_assoc.
  - by rewrite <- app_assoc.
Qed.

Lemma consolidated_entries_id s es :
  zcanonical es -> consolidated_entries (mkBatch s es) = Ok es.
Proof.
  intros [Hs Hnz]. unfold consolidated_entries, entries. simpl.
  rewrite sort_by_row_id by done. rewrite merge_fold_id by done.
  by rewrite app_nil_r, rev_involutive.
Qed.

(** Consolidation keeps a subset of the rows, so a valid batch stays valid. *)
Lemma merge_step_incl (P : Row -> Prop) merged e merged' :
  Forall (fun e => P e.1) merged -> P e.1 -> merge_step merged e = Ok merged' ->
  Forall (fun e => P e.1) merged'.
Proof.
  destruct e as [row w]. unfold merge_step. intros Hm He.
  destruct (w =? 0); [by intros [= <-]|].
  destruct merged as [|[p pw] rest]; [intros [= <-]; by constructor|].
  inversion Hm; subst. destruct (cmp_eqb p row); [|intros [= <-]; by constructor].
  destruct (checked_add pw w); simpl; [|done].
  destruct (_ =? 0); intros [= <-]; [done|by constructor].
Qed.

Lemma consolidated_entries_incl (P : Row -> Prop) b es :
  Forall (fun e => P e.1) (batch_entries b) -> consolidated_entries b = Ok es ->
  Forall (fun e => P e.1) es.
Proof.
  intros Hall. unfold consolidated_entries, entries.
  destruct (try_fold _ _ _) as [m|] eqn:E; [|done]. intros [= <-]. apply Forall_rev.
  eapply (try_fold_inv (Forall (fun e => P e.1))); [|constructor|exact E].
  intros s e s' Hin Hs Hstep. eapply merge_step_incl; [exact Hs| |exact Hstep].
  rewrite sort_by_row_perm in Hin. rewrite Forall_forall in Hall. by apply Hall.
Qed.

(** A batch as [from_entries] leaves it. *)
Definition wf_batch (b : ZSetBatch) : Prop :=
  fields (batch_schema b) <> [] /\ Forall (fun e => conforms (batch_schema b) e.1) (batch_entries b).

Lemma from_entries_wf s es b : fields s <> [] -> from_entries s es = Ok b -> wf_batch b.
Proof. intros Hne [-> Hc]%from_entries_Ok; done. Qed.

Lemma consolidate_Ok b :
  wf_batch b -> consolidate b = map_ok (mkBatch (batch_schema b)) (consolidated_entries b).
Proof.
  intros [Hne Hc]. unfold consolidate. destruct (consolidated_entries b) as [es|] eqn:E; [|done].
  simpl. apply from_entries_Ok; [done|]. split; [done|].
  by apply (consolidated_entries_incl _ b).
Qed.

Lemma negate_entry_Ok es :
  mass es <= i64_max -> try_map negate_entry es = Ok (zneg es).
Proof.
  induction es as [|[row w] es IH]; intros Hm; [done|].
  rewrite mass_cons in Hm. pose proof (mass_nonneg es).
  assert (negate_entry (row, w) = Ok (row, - w)) as Hw.
  { unfold negate_entry, checked_neg, checked. simpl.
    by rewrite (proj2 (in_i64_spec (- w))) by (unfold i64_min, i64_max in *; lia). }
  cbn [try_map]. rewrite Hw, IH by lia. done.
Qed.

Lemma mass_zneg (es : Entries) : mass (zneg es) = mass es.
Proof. induction es as [|[row w] es IH]; [done|]. simpl. rewrite !mass_cons. lia. Qed.

(** ** Properties *)

(** Consolidating a valid batch gives a valid batch in canonical form (rows
    strictly increasing, no zero weight) that denotes the same Z-set, and
    consolidating again changes nothing (S-8). *)
Theorem consolidate_canonical (b b' : ZSetBatch) :
  wf_batch b -> consolidate b = Ok b' ->
  wf_batch b' /\ zcanonical (batch_entries b') /\
  batch_entries b' ≡z batch_entries b /\ consolidate b' = Ok b'.
Proof.
  intros Hwf. rewrite consolidate_Ok by done.
  destruct (consolidated_entries b) as [es|] eqn:E; intros [= <-].
  destruct (consolidated_entries_spec _ _ E) as [Hc Hz].
  destruct Hwf as [Hne Hall].
  assert (wf_batch (mkBatch (batch_schema b) es)) as Hwf'.
  { split; [done|]. by apply (consolidated_entries_incl _ b). }
  split_and!; [done..|]. rewrite consolidate_Ok by done. simpl.
  by rewrite consolidated_entries_id.
Qed.

(** Two batches have the same canonical form exactly when they have the same
    schema and give every row the same total weight (S-8: answer equality). *)
Theorem canonical_decides (a b : ZSetBatch) (ca cb : Canonical) :
  canonical a = Ok ca -> canonical b = Ok cb ->
  ca = cb <-> batch_schema a = batch_schema b /\ batch_entries a ≡z batch_entries b.
Proof.
  unfold canonical. destruct (consolidated_entries a) as [ea|] eqn:Ea; [|done].
  destruct (consolidated_entries b) as [eb|] eqn:Eb; [|done]. intros [= <-] [= <-].
  destruct (consolidated_entries_spec _ _ Ea) as [Hca Hza].
  destruct (consolidated_entries_spec _ _ Eb) as [Hcb Hzb].
  split.
  - intros [= Hs ->]. split; [done|]. by rewrite <- Hza, <- Hzb.
  - intros [Hs Hz]. f_equal; [done|]. apply zcanonical_unique; [done..|].
    by rewrite Hza, Hzb.
Qed.

(** Batches form a group under [add] and [negate]: where the weights leave
    room, the negation of a batch exists, adding it succeeds and cancels every
    row (I-5: a retraction is an insertion of negative weight). *)
Theorem add_negate_cancels (a : ZSetBatch) :
  wf_batch a -> 2 * mass (batch_entries a) <= i64_max ->
  exists n z, negate a = Ok n /\ add a n = Ok z /\
    canonical z = Ok (mkCanonical (batch_schema a) []).
Proof.
  intros [Hne Hall] Hm. pose proof (mass_nonneg (batch_entries a)).
  assert (Forall (fun e => conforms (batch_schema a) e.1) (zneg (batch_entries a))) as Hneg.
  { unfold zneg. by apply Forall_map. }
  exists (mkBatch (batch_schema a) (zneg (batch_entries a))),
    (mkBatch (batch_schema a) (batch_entries a ++ zneg (batch_entries a))).
  split_and!.
  - unfold negate, entries. rewrite negate_entry_Ok by lia. by apply from_entries_Ok.
  - unfold add, entries. simpl. rewrite bool_decide_true by done. simpl.
    apply from_entries_Ok; [done|]. split; [done|]. by apply Forall_app.
  - unfold canonical. simpl.
    destruct (consolidated_entries_total (mkBatch (batch_schema a)
      (batch_entries a ++ zneg (batch_entries a)))) as [es E].
    { simpl. rewrite mass_app, mass_zneg. lia. }
    rewrite E. destruct (consolidated_entries_spec _ _ E) as [Hc Hz].
    f_equal. f_equal. apply zcanonical_zeq_nil; [done|].
    rewrite Hz. simpl. by rewrite zeq_app_comm, zeq_neg_l.
Qed.

(** ** Witnesses and examples *)

Definition ex_schema : Schema := mkSchema [mkField "a" Int64 true].
Definition ex_batch : ZSetBatch :=
  mkBatch ex_schema [([VInt 2], 1); ([VNull], 1); ([VInt 2], 3); ([VNull], -1)].

Lemma ex_batch_wf : wf_batch ex_batch.
Proof. split; [done|]. repeat constructor. Qed.

Lemma consolidate_canonical_witness :
  exists b', consolidate ex_batch = Ok b' /\ batch_entries b' = [([VInt 2], 4)] /\
    consolidate b' = Ok b'.
Proof.
  exists (mkBatch ex_schema [([VInt 2], 4)]). split; [reflexivity|]. split; [reflexivity|].
  exact (proj2 (proj2 (proj2 (consolidate_canonical ex_batch _ ex_batch_wf eq_refl)))).
Defined.

Lemma canonical_decides_witness :
  batch_entries ex_batch ≡z [([VInt 2], 4)].
Proof.
  exact (proj2 (proj1 (canonical_decides ex_batch (mkBatch ex_schema [([VInt 2], 4)])
    (mkCanonical ex_schema [([VInt 2], 4)]) (mkCanonical ex_schema [([VInt 2], 4)])
    eq_refl eq_refl) eq_refl)).
Defined.

Lemma add_negate_cancels_witness :
  exists n z, negate ex_batch = Ok n /\ add ex_batch n = Ok z /\
    canonical z = Ok (mkCanonical ex_schema []).
Proof.
  apply (add_negate_cancels ex_batch); [exact ex_batch_wf|vm_compute; discriminate].
Defined.

(** Whether a sum of two batches has a canonical form can depend on the order
    of the operands: weights are merged in arrival order with a checked
    addition, so one order overflows an intermediate sum and the other does
    not. *)
Theorem add_order_overflow :
  exists a b ab ba : ZSetBatch,
    add a b = Ok ab /\ add b a = Ok ba /\
    canonical ab = Err (WeightOverflow "consolidating weights for equal rows") /\
    canonical ba = Ok (mkCanonical ex_schema [([VNull], i64_max)]).
Proof.
  exists (mkBatch ex_schema [([VNull], i64_max)]),
    (mkBatch ex_schema [([VNull], 1); ([VNull], -1)]).
  eexists _, _. split_and!; reflexivity.
Qed.

Lemma canonical_zeq b can : canonical b = Ok can -> canonical_entries can ≡z batch_entries b.
Proof.
  unfold canonical. destruct (consolidated_entries b) as [es|] eqn:E; [|done].
  intros [= <-]. by apply consolidated_entries_spec in E as [_ E].
Qed.

Lemma entries_for_extend d t es t' :
  entries_for (deltas_extend d t es) t' = entries_for d t' ++ (if cmp_eqb t' t then es else []).
Proof.
  unfold entries_for, deltas_extend, bt_update. cbn [tables]. rewrite bt_get_insert.
  case_cmp_eqb t' t; [by subst|by rewrite app_nil_r].
Qed.
