(* ===== verification/Plan.v ===== *)
(** * Query plans ([schweep-plan]: plan.rs, error.rs)

    The logical plan both the oracle and the engine evaluate: sources, scalar
    expressions, aggregates and queries, and the errors of binding and
    evaluation.

    Its later part: scalar evaluation ([schweep-plan]: eval.rs). *)

From Stdlib Require Import ZArith Lia.
From stdpp Require Import base list strings.
From S2P Require Import Prelude BTree Value.

Inductive Source :=
| Scan (table alias : string)
| SJoin (left right : Source) (on : list (string * string)).

Fixpoint aliases (s : Source) : list string :=
  match s with
  | Scan _ alias => [alias]
  | SJoin l r _ => aliases l ++ aliases r
  end.

Inductive BinOp := BAdd | BSub | BMul | BDiv | BMod | BEq | BNe | BLt | BLe | BGt | BGe.

Definition binop_name (op : BinOp) : string :=
  match op with
  | BAdd => "+" | BSub => "-" | BMul => "*" | BDiv => "/" | BMod => "%"
  | BEq => "=" | BNe => "<>" | BLt => "<" | BLe => "<=" | BGt => ">" | BGe => ">="
  end.

Definition is_arithmetic (op : BinOp) : bool :=
  match op with BAdd | BSub | BMul | BDiv | BMod => true | _ => false end.

#[local] Set Warnings "-register-all".

Inductive Expr :=
| EColumn (name : string)
| ELiteral (v : Value)
| ENull (ty : DataType)
| EBinary (op : BinOp) (left right : Expr)
| ENot (inner : Expr)
| EAnd (left right : Expr)
| EOr (left right : Expr)
| EIsNull (inner : Expr)
| EIsNotNull (inner : Expr)
| ECase (whens : list (Expr * Expr)) (otherwise : option Expr).

Inductive AggFunc :=
| CountStar
| Count (arg : Expr)
| Sum (arg : Expr)
| Min (arg : Expr)
| Max (arg : Expr)
| Avg (arg : Expr).

Definition agg_name (f : AggFunc) : string :=
  match f with
  | CountStar => "COUNT(*)"
  | Count _ => "COUNT"
  | Sum _ => "SUM"
  | Min _ => "MIN"
  | Max _ => "MAX"
  | Avg _ => "AVG"
  end.

Definition argument (f : AggFunc) : option Expr :=
  match f with
  | CountStar => None
  | Count e | Sum e | Min e | Max e | Avg e => Some e
  end.

Record Named (T : Type) := mkNamed { name : string; value : T }.
Arguments mkNamed {T} name value.
Arguments name {T} n.
Arguments value {T} n.

Record GroupBy := mkGroupBy {
  keys : list (Named Expr);
  aggregates : list (Named AggFunc);
  having : option Expr
}.

Record Query := mkQuery {
  source : Source;
  filter_ : option Expr;
  group_by : option GroupBy;
  project : option (list (Named Expr));
  distinct : bool
}.

(** [Query::from] *)
Definition query_from (s : Source) : Query := mkQuery s None None None false.

(** ** Errors *)

Inductive PlanError :=
| PZSet (e : ZSetError)
| UnknownTable (table : string)
| NotInDialect (what : string)
| DuplicateAlias (alias : string)
| UnqualifiedColumn (column : string)
| QualifiedColumnAfterGroupBy (column : string)
| PUnknownColumn (column scope : string)
| DuplicateOutputName (column : string)
| UntypedNullLiteral
| TypeMismatch (op : string) (left right : DataType)
| UnaryTypeMismatch (op : string) (found : DataType)
| ExpectedBoolean (context : string) (found : DataType)
| CaseBranchTypeMismatch (expected found : DataType)
| EmptyCase
| EmptyGroupKeys
| CrossJoinNotSupported
| AggregateTypeUnsupported (func : string) (ty : DataType)
| AggregateInHaving (func : string)
| AggregateInWhere (func : string)
| NestedAggregate (outer inner : string)
| AggregateNotTopLevel (func : string)
| ColumnNotGrouped (column : string)
| ArithmeticOverflow (op : string)
| DivisionByZero (op : string)
| AggregateOverflow (func : string).

Definition is_evaluation_error (e : PlanError) : bool :=
  match e with
  | ArithmeticOverflow _ | DivisionByZero _ | AggregateOverflow _ => true
  | _ => false
  end.

(** [to_string] of an error that may become a live error: only evaluation
    errors are ever rendered into an error row, so the message of any other
    error is not defined here. *)
Definition evaluation_message (e : PlanError) : option string :=
  match e with
  | ArithmeticOverflow op => Some ("arithmetic overflow in " +:+ op +:+ " (S-20)")%string
  | DivisionByZero op => Some ("division by zero in " +:+ op +:+ " (S-21)")%string
  | AggregateOverflow func => Some (func +:+ " overflowed the Int64 range (S-30)")%string
  | _ => None
  end.

Lemma evaluation_message_Some e :
  is_evaluation_error e = true <-> exists m, evaluation_message e = Some m.
Proof. destruct e; simpl; split; try done; try (by eexists); by intros []. Qed.

(** ** Induction on expressions *)

Section Expr_induction.
Variable P : Expr -> Prop.
Hypothesis HColumn : forall n, P (EColumn n).
Hypothesis HLiteral : forall v, P (ELiteral v).
Hypothesis HNull : forall ty, P (ENull ty).
Hypothesis HBinary : forall op l r, P l -> P r -> P (EBinary op l r).
Hypothesis HNot : forall e, P e -> P (ENot e).
Hypothesis HAnd : forall l r, P l -> P r -> P (EAnd l r).
Hypothesis HOr : forall l r, P l -> P r -> P (EOr l r).
Hypothesis HIsNull : forall e, P e -> P (EIsNull e).
Hypothesis HIsNotNull : forall e, P e -> P (EIsNotNull e).
Hypothesis HCase : forall whens otherwise,
  Forall (fun w => P w.1 /\ P w.2) whens ->
  (forall e, otherwise = Some e -> P e) -> P (ECase whens otherwise).

Fixpoint Expr_rec' (e : Expr) : P e :=
  match e with
  | EColumn n => HColumn n
  | ELiteral v => HLiteral v
  | ENull ty => HNull ty
  | EBinary op l r => HBinary op l r (Expr_rec' l) (Expr_rec' r)
  | ENot e => HNot e (Expr_rec' e)
  | EAnd l r => HAnd l r (Expr_rec' l) (Expr_rec' r)
  | EOr l r => HOr l r (Expr_rec' l) (Expr_rec' r)
  | EIsNull e => HIsNull e (Expr_rec' e)
  | EIsNotNull e => HIsNotNull e (Expr_rec' e)
  | ECase whens otherwise =>
      HCase whens otherwise
        ((fix go (ws : list (Expr * Expr)) : Forall (fun w => P w.1 /\ P w.2) ws :=
            match ws with
            | [] => Forall_nil_2 _
            | w :: ws' =>
                Forall_cons_2 _ w ws'
                  (match w as w0 return P w0.1 /\ P w0.2 with
                   | (c, r) => conj (Expr_rec' c) (Expr_rec' r)
                   end) (go ws')
            end) whens)
        (match otherwise as o return (forall e, o = Some e -> P e) with
         | None => fun e (H : None = Some e) =>
             match H in _ = o return match o with None => True | Some _ => P e end with
             | eq_refl => I
             end
         | Some x => fun e (H : Some x = Some e) =>
             match H in _ = o return match o with Some y => P y | None => True end with
             | eq_refl => Expr_rec' x
             end
         end)
  end.
End Expr_induction.

(** * Scalar evaluation ([schweep-plan]: eval.rs)

    Three-valued evaluation of an expression against a row (S-13 to S-22): null
    is a result, overflow and division by zero are errors. *)

Definition as_bool (v : Value) : option bool :=
  match v with VBool b => Some b | _ => None end.

Definition kleene_and (l r : option bool) : Value :=
  match l, r with
  | Some false, _ | _, Some false => VBool false
  | Some true, Some true => VBool true
  | _, _ => VNull
  end.

Definition kleene_or (l r : option bool) : Value :=
  match l, r with
  | Some true, _ | _, Some true => VBool true
  | Some false, Some false => VBool false
  | _, _ => VNull
  end.

Definition eval_arithmetic (op : BinOp) (a b : Z) : result PlanError Z :=
  let overflow := ArithmeticOverflow (binop_name op) in
  match op with
  | BAdd => ok_or (checked_add a b) overflow
  | BSub => ok_or (checked_sub a b) overflow
  | BMul => ok_or (checked_mul a b) overflow
  | BDiv =>
      if b =? 0 then Err (DivisionByZero (binop_name op))
      else ok_or (checked_div a b) overflow
  | BMod =>
      if b =? 0 then Err (DivisionByZero (binop_name op))
      else ok_or (checked_rem a b) overflow
  | _ => Err overflow
  end.

(** The comparison operators on an [Ordering]; [None] for an arithmetic one. *)
Definition ordering_test (op : BinOp) (c : comparison) : option bool :=
  match op with
  | BEq => Some (match c with Eq => true | _ => false end)
  | BNe => Some (match c with Eq => false | _ => true end)
  | BLt => Some (match c with Lt => true | _ => false end)
  | BLe => Some (match c with Gt => false | _ => true end)
  | BGt => Some (match c with Gt => true | _ => false end)
  | BGe => Some (match c with Lt => false | _ => true end)
  | _ => None
  end.

Definition eval_binary (op : BinOp) (l r : Value) : result PlanError Value :=
  if is_null l || is_null r then Ok VNull
  else if is_arithmetic op then
    match l, r with
    | VInt a, VInt b => map_ok VInt (eval_arithmetic op a b)
    | _, _ => Err (TypeMismatch (binop_name op) (default Int64 (data_type l))
                     (default Int64 (data_type r)))
    end
  else
    match ordering_test op (cmp l r) with
    | Some b => Ok (VBool b)
    | None => Err (ArithmeticOverflow (binop_name op))
    end.

Fixpoint eval (e : Expr) (row : Row) (scope : Schema) {struct e} : result PlanError Value :=
  match e with
  | EColumn n =>
      let? index := ok_or (schema_index_of scope n) (PUnknownColumn n (schema_to_string scope)) in
      ok_or (row_get row index) (PUnknownColumn n (schema_to_string scope))
  | ELiteral v => Ok v
  | ENull _ => Ok VNull
  | EBinary op l r =>
      let? lv := eval l row scope in
      let? rv := eval r row scope in
      eval_binary op lv rv
  | ENot inner =>
      let? v := eval inner row scope in
      Ok (match as_bool v with None => VNull | Some b => VBool (negb b) end)
  | EAnd l r =>
      let? lv := eval l row scope in
      let? rv := eval r row scope in
      Ok (kleene_and (as_bool lv) (as_bool rv))
  | EOr l r =>
      let? lv := eval l row scope in
      let? rv := eval r row scope in
      Ok (kleene_or (as_bool lv) (as_bool rv))
  | EIsNull inner => let? v := eval inner row scope in Ok (VBool (is_null v))
  | EIsNotNull inner => let? v := eval inner row scope in Ok (VBool (negb (is_null v)))
  | ECase whens otherwise =>
      (fix cases (ws : list (Expr * Expr)) : result PlanError Value :=
         match ws with
         | [] => match otherwise with Some e => eval e row scope | None => Ok VNull end
         | (condition, res) :: ws' =>
             let? v := eval condition row scope in
             match as_bool v with
             | Some true => eval res row scope
             | _ => cases ws'
             end
         end) whens
  end.

Definition is_true (e : Expr) (row : Row) (scope : Schema) : result PlanError bool :=
  let? v := eval e row scope in
  Ok (match as_bool v with Some true => true | _ => false end).
