(* ===== verification/Bind.v ===== *)
(** * Binding ([schweep-plan]: bind.rs)

    Name resolution and typing (S-10 to S-12, S-19, S-27, S-30).  Binding is
    total: it gives the schemas of the query or a named refusal.  The
    soundness theorem says what it promises to evaluation. *)

From Stdlib Require Import ZArith Lia Ascii.
From stdpp Require Import base list strings.
From S2P Require Import Prelude BTree Value Plan.

Abbreviation Catalog := (btree string Schema).

Inductive Naming := Qualified | Unqualified.

Record Scope := mkScope { scope_schema : Schema; naming : Naming }.

(** [str::contains('.')] *)
Fixpoint contains_dot (s : string) : bool :=
  match s with
  | EmptyString => false
  | String c s' => Ascii.eqb c "."%char || contains_dot s'
  end.

Definition resolve (sc : Scope) (n : string) : result PlanError Field :=
  let lookup :=
    let? index := ok_or (schema_index_of (scope_schema sc) n)
                    (PUnknownColumn n (schema_to_string (scope_schema sc))) in
    ok_or (fields (scope_schema sc) !! index)
      (PUnknownColumn n (schema_to_string (scope_schema sc))) in
  match naming sc with
  | Qualified => if negb (contains_dot n) then Err (UnqualifiedColumn n) else lookup
  | Unqualified => if contains_dot n then Err (QualifiedColumnAfterGroupBy n) else lookup
  end.

Definition expect_boolean_type (t : result PlanError DataType) (context : string) : result PlanError unit :=
  let? ty := t in
  match ty with Boolean => Ok tt | found => Err (ExpectedBoolean context found) end.

(** Two branches of a [CASE] must agree; the first fixes the type. *)
Definition branch_agrees (branch_type : option DataType) (ty : DataType) : result PlanError (option DataType) :=
  match branch_type with
  | None => Ok (Some ty)
  | Some expected =>
      if decide (expected = ty) then Ok (Some expected)
      else Err (CaseBranchTypeMismatch expected ty)
  end.

Definition is_comparable (t : DataType) : bool :=
  match t with Int64 | Utf8 | Boolean => true | Float64 => false end.

Fixpoint type_of (e : Expr) (sc : Scope) {struct e} : result PlanError DataType :=
  match e with
  | EColumn n => let? f := resolve sc n in Ok (field_type f)
  | ELiteral VNull => Err UntypedNullLiteral
  | ELiteral (VFloat _) => Err (NotInDialect "a FLOAT literal")
  | ELiteral v => ok_or (data_type v) UntypedNullLiteral
  | ENull Float64 => Err (NotInDialect "a FLOAT null")
  | ENull ty => Ok ty
  | EBinary op l r =>
      let? lt := type_of l sc in
      let? rt := type_of r sc in
      if is_arithmetic op then
        if bool_decide (lt = Int64) && bool_decide (rt = Int64) then Ok Int64
        else Err (TypeMismatch (binop_name op) lt rt)
      else if bool_decide (lt = rt) && is_comparable lt then Ok Boolean
      else Err (TypeMismatch (binop_name op) lt rt)
  | ENot inner =>
      let? ty := type_of inner sc in
      match ty with Boolean => Ok Boolean | found => Err (UnaryTypeMismatch "NOT" found) end
  | EAnd l r =>
      let? lt := type_of l sc in
      let? rt := type_of r sc in
      if bool_decide (lt = Boolean) && bool_decide (rt = Boolean) then Ok Boolean
      else Err (TypeMismatch "AND" lt rt)
  | EOr l r =>
      let? lt := type_of l sc in
      let? rt := type_of r sc in
      if bool_decide (lt = Boolean) && bool_decide (rt = Boolean) then Ok Boolean
      else Err (TypeMismatch "OR" lt rt)
  | EIsNull inner => check? type_of inner sc in Ok Boolean
  | EIsNotNull inner => check? type_of inner sc in Ok Boolean
  | ECase whens otherwise =>
      match whens with
      | [] => Err EmptyCase
      | _ =>
          let? branch_type :=
            (fix go (branch_type : option DataType) (ws : list (Expr * Expr)) :=
               match ws with
               | [] => Ok branch_type
               | (condition, res) :: ws' =>
                   check? expect_boolean_type (type_of condition sc) "a CASE condition" in
                   let? ty := type_of res sc in
                   let? branch_type' := branch_agrees branch_type ty in
                   go branch_type' ws'
               end) None whens in
          let? branch_type :=
            match otherwise with
            | None => Ok branch_type
            | Some e => let? ty := type_of e sc in branch_agrees branch_type ty
            end in
          ok_or branch_type EmptyCase
      end
  end.

Definition expect_boolean (e : Expr) (sc : Scope) (context : string) : result PlanError unit :=
  expect_boolean_type (type_of e sc) context.

(** Every output column is nullable (S-11). *)
Definition output_field (n : string) (ty : DataType) : Field := mkField n ty true.

(** The duplicate check of [build_output_schema], by the rule's own name. *)
Fixpoint check_output_unique (prior fs : list Field) : result PlanError unit :=
  match fs with
  | [] => Ok tt
  | f :: fs' =>
      if existsb (fun p => String.eqb (field_name p) (field_name f)) prior
      then Err (DuplicateOutputName (field_name f))
      else check_output_unique (prior ++ [f]) fs'
  end.

Definition build_output_schema (fs : list Field) : result PlanError Schema :=
  check? check_output_unique [] fs in map_err PZSet (Schema_new fs).

Definition projection_schema (sc : Scope) (items : list (Named Expr)) : result PlanError Schema :=
  let? fs := try_map (fun item =>
    let? ty := type_of (value item) sc in Ok (output_field (name item) ty)) items in
  build_output_schema fs.

Definition aggregate_result_type (func : AggFunc) (sc : Scope) : result PlanError DataType :=
  match func with
  | CountStar => Ok Int64
  | Count arg => check? type_of arg sc in Ok Int64
  | Sum arg =>
      let? ty := type_of arg sc in
      match ty with Int64 => Ok Int64 | ty => Err (AggregateTypeUnsupported (agg_name func) ty) end
  | Avg arg =>
      let? ty := type_of arg sc in
      match ty with Int64 => Ok Float64 | ty => Err (AggregateTypeUnsupported (agg_name func) ty) end
  | Min arg | Max arg =>
      let? ty := type_of arg sc in
      match ty with
      | Int64 | Utf8 | Boolean => Ok ty
      | ty => Err (AggregateTypeUnsupported (agg_name func) ty)
      end
  end.

Definition bind_group_by (g : GroupBy) (input : Scope) : result PlanError Schema :=
  match aggregates g with
  | [] => Err EmptyGroupKeys
  | _ =>
      let? key_fields := try_map (fun key =>
        let? ty := type_of (value key) input in Ok (output_field (name key) ty)) (keys g) in
      let? agg_fields := try_map (fun agg =>
        let? ty := aggregate_result_type (value agg) input in
        Ok (output_field (name agg) ty)) (aggregates g) in
      build_output_schema (key_fields ++ agg_fields)
  end.

Fixpoint check_aliases (prior l : list string) : result PlanError unit :=
  match l with
  | [] => Ok tt
  | a :: l' =>
      if existsb (String.eqb a) prior then Err (DuplicateAlias a)
      else check_aliases (prior ++ [a]) l'
  end.

Definition check_aliases_unique (s : Source) : result PlanError unit :=
  check_aliases [] (aliases s).

(** The columns of a scan, qualified by its alias (S-10, S-23). *)
Definition qualify (alias : string) (f : Field) : Field :=
  mkField (alias +:+ "." +:+ field_name f)%string (field_type f) (nullable f).

Definition check_key_pair (ls rs : Scope) (p : string * string) : result PlanError unit :=
  let? lf := resolve ls p.1 in
  let? rf := resolve rs p.2 in
  if decide (field_type lf = field_type rf) then Ok tt
  else Err (TypeMismatch "join key =" (field_type lf) (field_type rf)).

Fixpoint bind_source (s : Source) (catalog : Catalog) : result PlanError Schema :=
  match s with
  | Scan table alias =>
      let? schema := ok_or (bt_get table catalog) (UnknownTable table) in
      map_err PZSet (Schema_new (map (qualify alias) (fields schema)))
  | SJoin l r on =>
      match on with
      | [] => Err CrossJoinNotSupported
      | _ =>
          let? ls := bind_source l catalog in
          let? rs := bind_source r catalog in
          check? try_for (check_key_pair (mkScope ls Qualified) (mkScope rs Qualified)) on in
          map_err PZSet (Schema_new (fields ls ++ fields rs))
      end
  end.

Record Bound := mkBound {
  input_schema : Schema;
  grouped_schema : Schema;
  output_schema : Schema
}.

Definition bind (q : Query) (catalog : Catalog) : result PlanError Bound :=
  check? check_aliases_unique (source q) in
  let? input_schema := bind_source (source q) catalog in
  let input_scope := mkScope input_schema Qualified in
  check? match filter_ q with
         | Some predicate => expect_boolean predicate input_scope "WHERE"
         | None => Ok tt
         end in
  let? grouped_schema :=
    match group_by q with
    | None => Ok input_schema
    | Some g => bind_group_by g input_scope
    end in
  let grouped_naming := match group_by q with Some _ => Unqualified | None => Qualified end in
  let grouped_scope := mkScope grouped_schema grouped_naming in
  check? match group_by q with
         | Some g =>
             match having g with
             | Some h => expect_boolean h grouped_scope "HAVING"
             | None => Ok tt
             end
         | None => Ok tt
         end in
  let? output_schema :=
    match project q with
    | None => Ok grouped_schema
    | Some items => projection_schema grouped_scope items
    end in
  Ok (mkBound input_schema grouped_schema output_schema).

(** ** Soundness of typing *)

(** An [Int] holds an [i64]. *)
Definition in_range (v : Value) : bool := match v with VInt i => in_i64 i | _ => true end.

Fixpoint literals_in_range (e : Expr) : bool :=
  match e with
  | EColumn _ | ENull _ => true
  | ELiteral v => in_range v
  | EBinary _ l r | EAnd l r | EOr l r => literals_in_range l && literals_in_range r
  | ENot e | EIsNull e | EIsNotNull e => literals_in_range e
  | ECase whens otherwise =>
      forallb (fun w => literals_in_range w.1 && literals_in_range w.2) whens &&
      match otherwise with Some e => literals_in_range e | None => true end
  end.

(** A value of type [ty], or a null. *)
Definition has_type (ty : DataType) (v : Value) : Prop :=
  fits v ty = true /\ in_range v = true.

(** What evaluating a bound expression may give. *)
Definition sound (ty : DataType) (r : result PlanError Value) : Prop :=
  match r with Ok v => has_type ty v | Err x => is_evaluation_error x = true end.

Lemma position_lookup {A} (p : A -> bool) l i :
  position p l = Some i -> exists x, l !! i = Some x /\ p x = true.
Proof.
  revert i. induction l as [|x l IH]; simpl; [done|]. intros i.
  destruct (p x) eqn:E; [intros [= <-]; eauto|].
  destruct (position p l); simpl; [|done]. intros [= <-]. simpl. auto.
Qed.

Lemma resolve_index sc n f :
  resolve sc n = Ok f ->
  exists i, schema_index_of (scope_schema sc) n = Some i /\ fields (scope_schema sc) !! i = Some f.
Proof.
  unfold resolve. intros Hr.
  assert ((let? index := ok_or (schema_index_of (scope_schema sc) n)
             (PUnknownColumn n (schema_to_string (scope_schema sc))) in
           ok_or (fields (scope_schema sc) !! index)
             (PUnknownColumn n (schema_to_string (scope_schema sc)))) = Ok f) as Hl.
  { destruct (naming sc), (contains_dot n); done. }
  clear Hr. destruct (schema_index_of (scope_schema sc) n) as [i|]; [|done]. simpl in Hl.
  exists i. split; [done|]. destruct (fields (scope_schema sc) !! i); naive_solver.
Qed.

Lemma has_type_null ty : has_type ty VNull.
Proof. done. Qed.

Lemma has_type_bool b : has_type Boolean (VBool b).
Proof. done. Qed.
#[export] Hint Resolve has_type_null has_type_bool : mutiny.

Lemma quot_in_i64 a b :
  in_i64 a = true -> in_i64 b = true -> b <> 0 -> ~ (a = i64_min /\ b = -1) ->
  in_i64 (Z.quot a b) = true.
Proof.
  rewrite !in_i64_spec. intros Ha Hb Hnz Hne.
  assert (Z.abs (Z.quot a b) <= Z.abs a) as Habs.
  { rewrite <- Z.quot_abs by done. apply Z.quot_le_upper_bound; [lia|]. nia. }
  destruct (decide (a = i64_min)) as [->|].
  - assert (b <> -1) by tauto. destruct (decide (b = 1)) as [->|].
    + rewrite Z.quot_1_r. unfold i64_min, i64_max. lia.
    + assert (2 * Z.abs (Z.quot i64_min b) <= Z.abs i64_min).
      { rewrite <- Z.quot_abs by done.
        pose proof (Z.mul_quot_le (Z.abs i64_min) (Z.abs b) ltac:(lia) ltac:(lia)).
        pose proof (Z.quot_pos (Z.abs i64_min) (Z.abs b) ltac:(lia) ltac:(lia)). nia. }
      unfold i64_min, i64_max in *. lia.
  - unfold i64_min, i64_max in *. lia.
Qed.

Lemma rem_in_i64 a b :
  in_i64 a = true -> in_i64 b = true -> b <> 0 -> in_i64 (Z.rem a b) = true.
Proof.
  rewrite !in_i64_spec. intros Ha Hb Hnz.
  pose proof (Z.rem_bound_abs a b Hnz).
  destruct (Z_le_gt_dec 0 a) as [Hp|Hp].
  - pose proof (Z.rem_nonneg a b Hnz Hp). unfold i64_min, i64_max in *. lia.
  - pose proof (Z.rem_nonpos a b Hnz ltac:(lia)). unfold i64_min, i64_max in *. lia.
Qed.

Lemma checked_sound z op : sound Int64 (map_ok VInt (ok_or (checked z) (ArithmeticOverflow op))).
Proof.
  unfold checked. destruct (in_i64 z) eqn:E; simpl; [|done]. split; [done|]. done.
Qed.

Lemma eval_arithmetic_sound op a b :
  in_i64 a = true -> in_i64 b = true -> sound Int64 (map_ok VInt (eval_arithmetic op a b)).
Proof.
  intros Ha Hb. destruct op; try exact eq_refl; try apply checked_sound; simpl.
  - destruct (Z.eqb_spec b 0); [done|]. unfold checked_div.
    destruct ((b =? 0) || ((a =? i64_min) && (b =? -1))) eqn:E; simpl; [done|].
    split; [done|]. apply quot_in_i64; [done..|]. intros [-> ->]. done.
  - destruct (Z.eqb_spec b 0); [done|]. unfold checked_rem.
    destruct ((b =? 0) || ((a =? i64_min) && (b =? -1))) eqn:E; simpl; [done|].
    split; [done|]. by apply rem_in_i64.
Qed.

Lemma has_type_Int v : has_type Int64 v -> is_null v = false -> exists i, v = VInt i /\ in_i64 i = true.
Proof. destruct v; intros [Hf Hr]; try done. eauto. Qed.

Lemma eval_binary_sound op lt rt ty l r :
  (if is_arithmetic op then lt = Int64 /\ rt = Int64 /\ ty = Int64 else lt = rt /\ ty = Boolean) ->
  has_type lt l -> has_type rt r -> sound ty (eval_binary op l r).
Proof.
  intros Hty Hl Hr. unfold eval_binary.
  destruct (is_null l) eqn:El; simpl; [done|].
  destruct (is_null r) eqn:Er; simpl; [done|].
  destruct (is_arithmetic op) eqn:Eop.
  - destruct Hty as (-> & -> & ->).
    destruct (has_type_Int _ Hl El) as (a & -> & Ha).
    destruct (has_type_Int _ Hr Er) as (b & -> & Hb). by apply eval_arithmetic_sound.
  - destruct Hty as [-> ->]. by destruct op.
Qed.

Lemma branch_agrees_Ok o ty o' :
  branch_agrees o ty = Ok o' -> o' = Some ty /\ (o = None \/ o = Some ty).
Proof.
  destruct o as [t|]; simpl; [|intros [= <-]; auto].
  case_decide; [|done]. intros [= <-]. subst. auto.
Qed.

Lemma kleene_and_type l r : has_type Boolean (kleene_and l r).
Proof. by destruct l as [[]|], r as [[]|]. Qed.

Lemma kleene_or_type l r : has_type Boolean (kleene_or l r).
Proof. by destruct l as [[]|], r as [[]|]. Qed.

(** A row the evaluator may be given: it conforms to the scope. *)
Definition row_ok (s : Schema) (row : Row) : Prop :=
  conforms s row /\ Forall (fun v => in_range v = true) row.

Lemma column_sound sc n f row :
  resolve sc n = Ok f -> row_ok (scope_schema sc) row ->
  sound (field_type f) (eval (EColumn n) row (scope_schema sc)).
Proof.
  intros Hr [Hc Hrange]. destruct (resolve_index _ _ _ Hr) as (i & Hi & Hf).
  simpl. rewrite Hi. simpl. unfold row_get.
  destruct (Forall2_lookup_l _ _ _ _ _ Hc Hf) as (v & Hv & Hfit). rewrite Hv. simpl.
  split.
  - unfold fits, fits_field in *. destruct (data_type v); [|done].
    by apply bool_decide_eq_true.
  - by apply (Forall_lookup_1 _ _ _ _ Hrange Hv).
Qed.

Section case_loop.
Context (sc : Scope) (row : Row).

(** The two loops over the branches of a [CASE]. *)
Definition case_types :=
  fix go (branch_type : option DataType) (ws : list (Expr * Expr)) : result PlanError (option DataType) :=
    match ws with
    | [] => Ok branch_type
    | (condition, res) :: ws' =>
        check? expect_boolean_type (type_of condition sc) "a CASE condition" in
        let? ty := type_of res sc in
        let? branch_type' := branch_agrees branch_type ty in
        go branch_type' ws'
    end.

Definition case_values (otherwise : option Expr) :=
  fix cases (ws : list (Expr * Expr)) : result PlanError Value :=
    match ws with
    | [] => match otherwise with Some e => eval e row (scope_schema sc) | None => Ok VNull end
    | (condition, res) :: ws' =>
        let? v := eval condition row (scope_schema sc) in
        match as_bool v with
        | Some true => eval res row (scope_schema sc)
        | _ => cases ws'
        end
    end.

Definition typed_sound (e : Expr) : Prop :=
  forall ty, type_of e sc = Ok ty -> sound ty (eval e row (scope_schema sc)).

Lemma case_types_some ty ws bt bt' :
  case_types bt ws = Ok bt' -> bt' = None \/ bt' = Some ty -> bt = None \/ bt = Some ty.
Proof.
  revert bt. induction ws as [|[c r] ws IH]; intros bt; simpl; [by intros [= <-]|].
  destruct (expect_boolean_type _ _); [|done].
  destruct (type_of r sc) as [t|]; [|done].
  destruct (branch_agrees bt t) as [o|] eqn:E; [|done]. intros Hgo Hbt'.
  apply branch_agrees_Ok in E as [-> Hbt].
  destruct (IH _ Hgo Hbt') as [|[= ->]]; [done|]. done.
Qed.

Lemma case_values_sound ty otherwise ws bt bt' :
  Forall (fun w => typed_sound w.1 /\ typed_sound w.2) ws ->
  sound ty (match otherwise with Some e => eval e row (scope_schema sc) | None => Ok VNull end) ->
  case_types bt ws = Ok bt' -> bt' = None \/ bt' = Some ty ->
  sound ty (case_values otherwise ws).
Proof.
  intros Hws Helse. revert bt. induction Hws as [|[c r] ws [Hc Hr] Hws IH]; intros bt Hgo Hbt'; simpl; [done|].
  simpl in *. unfold expect_boolean_type in Hgo.
  destruct (type_of c sc) as [tc|] eqn:Etc; [|done]. destruct tc; try done.
  destruct (type_of r sc) as [t|] eqn:Etr; [|done].
  destruct (branch_agrees bt t) as [o|] eqn:E; [|done].
  specialize (Hc _ Etc). destruct (eval c row (scope_schema sc)) as [v|]; [|done].
  destruct (as_bool v) as [[]|]; [|by eapply IH..].
  apply branch_agrees_Ok in E as [-> _].
  destruct (case_types_some ty _ _ _ Hgo Hbt') as [|[= ->]]; [done|]. by apply Hr.
Qed.

Lemma case_typed whens otherwise :
  Forall (fun w => typed_sound w.1 /\ typed_sound w.2) whens ->
  (forall e, otherwise = Some e -> typed_sound e) -> typed_sound (ECase whens otherwise).
Proof.
  intros Hws Helse tau Hty. change (sound tau (case_values otherwise whens)).
  destruct whens as [|w0 whens0]; [done|]. set (whens := w0 :: whens0) in *.
  change ((let? bt := case_types None whens in
           let? bt' := match otherwise with
                       | None => Ok bt
                       | Some e => let? t := type_of e sc in branch_agrees bt t
                       end in ok_or bt' EmptyCase) = Ok tau) in Hty.
  destruct (case_types None whens) as [bt|] eqn:Ebt; [|done].
  destruct otherwise as [e0|].
  - destruct (type_of e0 sc) as [t|] eqn:Et; [|done].
    destruct (branch_agrees bt t) as [o|] eqn:Eo; [|done].
    apply branch_agrees_Ok in Eo as [-> Hbt]. injection Hty as ->.
    eapply case_values_sound; [exact Hws| |exact Ebt|exact Hbt]. by apply (Helse e0).
  - destruct bt as [t|]; [|done]. injection Hty as ->.
    eapply case_values_sound; [exact Hws|done|exact Ebt|by right].
Qed.
End case_loop.

Lemma eval_typed e sc row tau :
  row_ok (scope_schema sc) row -> literals_in_range e = true ->
  type_of e sc = Ok tau -> sound tau (eval e row (scope_schema sc)).
Proof.
  intros Hrow. revert tau. induction e using Expr_rec'; intros tau Hlit.
  - simpl. destruct (resolve sc n) as [f|] eqn:E; [|done]. intros [= <-].
    by apply column_sound.
  - destruct v; simpl; try done; intros [= <-]; by split.
  - destruct ty; simpl; try done; by intros [= <-].
  - simpl in Hlit. apply andb_true_iff in Hlit as [Hl Hr]. simpl.
    destruct (type_of e1 sc) as [lt|]; [|done]. destruct (type_of e2 sc) as [rt|]; [|done].
    intros Hty. specialize (IHe1 _ Hl eq_refl). specialize (IHe2 _ Hr eq_refl).
    destruct (eval e1 row _); [|done]. destruct (eval e2 row _); [|done].
    eapply eval_binary_sound; [|exact IHe1|exact IHe2].
    destruct (is_arithmetic op).
    + repeat case_bool_decide; simpl in *; naive_solver.
    + case_bool_decide; simpl in *; [|done]. destruct (is_comparable lt); naive_solver.
  - simpl in *. destruct (type_of e sc) as [t|]; [|done]. intros Hty.
    specialize (IHe _ Hlit eq_refl). destruct (eval e row _) as [v|]; [|done].
    destruct t; try done. injection Hty as <-. simpl. by destruct (as_bool v).
  - simpl in *. apply andb_true_iff in Hlit as [Hl Hr].
    destruct (type_of e1 sc) as [lt|]; [|done]. destruct (type_of e2 sc) as [rt|]; [|done].
    intros Hty. specialize (IHe1 _ Hl eq_refl). specialize (IHe2 _ Hr eq_refl).
    destruct (eval e1 row _); [|done]. destruct (eval e2 row _); [|done].
    repeat case_bool_decide; try done. injection Hty as <-. apply kleene_and_type.
  - simpl in *. apply andb_true_iff in Hlit as [Hl Hr].
    destruct (type_of e1 sc) as [lt|]; [|done]. destruct (type_of e2 sc) as [rt|]; [|done].
    intros Hty. specialize (IHe1 _ Hl eq_refl). specialize (IHe2 _ Hr eq_refl).
    destruct (eval e1 row _); [|done]. destruct (eval e2 row _); [|done].
    repeat case_bool_decide; try done. injection Hty as <-. apply kleene_or_type.
  - simpl in *. destruct (type_of e sc) as [t|]; [|done]. intros [= <-].
    specialize (IHe _ Hlit eq_refl). by destruct (eval e row _).
  - simpl in *. destruct (type_of e sc) as [t|]; [|done]. intros [= <-].
    specialize (IHe _ Hlit eq_refl). by destruct (eval e row _).
  - simpl in Hlit. apply andb_true_iff in Hlit as [Hws Helse]. apply case_typed.
    + rewrite Forall_forall in *. intros w Hw.
      rewrite forallb_forall in Hws. specialize (Hws w ltac:(by apply list_elem_of_In)).
      apply andb_true_iff in Hws as [Hc Hr]. destruct (H w Hw) as [IHc IHr].
      split; intros t Ht; auto.
    + intros e ->. intros t Ht. by apply (H0 e).
Qed.

(** ** What a bound query guarantees *)

Lemma check_output_unique_NoDup prior fs :
  NoDup (map field_name prior) ->
  check_output_unique prior fs = Ok tt <-> check_unique prior fs = Ok tt.
Proof.
  revert prior. induction fs as [|f fs IH]; intros prior Hnd; simpl; [done|].
  destruct (existsb _ prior) eqn:E; [done|]. apply IH.
  apply (check_unique_NoDup prior [f] Hnd). simpl. by rewrite E.
Qed.

Lemma build_output_schema_Ok fs s :
  build_output_schema fs = Ok s -> s = mkSchema fs /\ fs <> [] /\ NoDup (map field_name fs).
Proof.
  unfold build_output_schema. destruct (check_output_unique [] fs); [|done].
  destruct (Schema_new fs) as [s'|] eqn:E; [|done]. intros [= <-]. by apply Schema_new_Ok.
Qed.

(** The fields of a list of typed outputs. *)
Definition typed_output (sc : Scope) (item : Named Expr) (f : Field) : Prop :=
  type_of (value item) sc = Ok (field_type f) /\ nullable f = true /\ field_name f = name item.

Lemma typed_outputs sc items fs :
  try_map (fun item => let? ty := type_of (value item) sc in
                       Ok (output_field (name item) ty)) items = Ok fs ->
  Forall2 (typed_output sc) items fs.
Proof.
  intros H%try_map_Ok. eapply Forall2_impl; [exact H|]. intros item f. simpl.
  destruct (type_of (value item) sc) as [ty|] eqn:E; [|done]. by intros [= <-].
Qed.

Lemma has_type_fits f v : nullable f = true -> has_type (field_type f) v -> fits_field f v.
Proof.
  intros Hn [Hf _]. unfold fits_field, fits in *. destruct (data_type v); [|done].
  by apply bool_decide_eq_true in Hf.
Qed.

(** Evaluating a projection on a conforming row gives a conforming row, or an
    evaluation error. *)
Definition items_sound (fs : list Field) (r : result PlanError Row) : Prop :=
  match r with
  | Ok vs => Forall2 fits_field fs vs /\ Forall (fun v => in_range v = true) vs
  | Err x => is_evaluation_error x = true
  end.

Lemma items_typed sc items fs row :
  Forall2 (typed_output sc) items fs ->
  forallb (fun item => literals_in_range (value item)) items = true ->
  row_ok (scope_schema sc) row ->
  items_sound fs (try_map (fun item => eval (value item) row (scope_schema sc)) items).
Proof.
  intros Hty Hlit Hrow. induction Hty as [|item f items fs (Ht & Hn & _) Hty IH]; simpl in *; [done|].
  apply andb_true_iff in Hlit as [Hl Hlit].
  pose proof (eval_typed _ _ _ _ Hrow Hl Ht) as Hs.
  destruct (eval (value item) row _) as [v|]; [|done]. specialize (IH Hlit).
  destruct (try_map _ items) as [vs|]; [|done]. destruct IH as [IH1 IH2].
  split; constructor; try done; [by apply has_type_fits|by apply Hs].
Qed.

Lemma projection_schema_Ok sc items s :
  projection_schema sc items = Ok s ->
  Forall2 (typed_output sc) items (fields s) /\ fields s <> [] /\ NoDup (map field_name (fields s)).
Proof.
  unfold projection_schema. destruct (try_map _ items) as [fs|] eqn:E; [|done].
  intros (-> & Hne & Hnd)%build_output_schema_Ok. apply typed_outputs in E. done.
Qed.

Lemma bind_source_wf s catalog sch :
  bind_source s catalog = Ok sch -> fields sch <> [] /\ NoDup (map field_name (fields sch)).
Proof.
  destruct s as [table alias|l r on]; simpl.
  - destruct (bt_get table catalog); simpl; [|done].
    destruct (Schema_new _) as [s'|] eqn:E; [|done]. intros [= <-].
    by apply Schema_new_Ok in E as (-> & ? & ?).
  - destruct on; [done|]. destruct (bind_source l catalog); [|done].
    destruct (bind_source r catalog); [|done]. destruct (try_for _ _); [|done].
    destruct (Schema_new _) as [s'|] eqn:E; [|done]. intros [= <-].
    by apply Schema_new_Ok in E as (-> & ? & ?).
Qed.

Lemma expect_boolean_Ok e sc ctx : expect_boolean e sc ctx = Ok tt <-> type_of e sc = Ok Boolean.
Proof.
  unfold expect_boolean, expect_boolean_type. destruct (type_of e sc) as [[]|]; naive_solver.
Qed.

Definition input_scope (b : Bound) : Scope := mkScope (input_schema b) Qualified.
Definition grouped_scope (q : Query) (b : Bound) : Scope :=
  mkScope (grouped_schema b) (match group_by q with Some _ => Unqualified | None => Qualified end).

(** The checks a successful [bind] has passed. *)
Lemma bind_inv q catalog b :
  bind q catalog = Ok b ->
  bind_source (source q) catalog = Ok (input_schema b) /\
  (forall p, filter_ q = Some p -> type_of p (input_scope b) = Ok Boolean) /\
  match group_by q with
  | None => grouped_schema b = input_schema b
  | Some g => bind_group_by g (input_scope b) = Ok (grouped_schema b) /\
              forall h, having g = Some h -> type_of h (grouped_scope q b) = Ok Boolean
  end /\
  match project q with
  | None => output_schema b = grouped_schema b
  | Some items => projection_schema (grouped_scope q b) items = Ok (output_schema b)
  end.
Proof.
  unfold bind. destruct (check_aliases_unique _); [|done].
  destruct (bind_source (source q) catalog) as [si|]; [|done].
  destruct (match filter_ q with Some p => _ | None => _ end) as [[]|] eqn:Ef; [|done].
  destruct (match group_by q with None => Ok si | Some g => _ end) as [sg|] eqn:Eg; [|done].
  destruct (match group_by q with Some g => _ | None => Ok tt end) as [[]|] eqn:Eh; [|done].
  destruct (match project q with None => Ok sg | Some items => _ end) as [so|] eqn:Ep; [|done].
  intros [= <-]. unfold input_scope, grouped_scope. simpl. split_and!.
  - done.
  - intros p Hp. rewrite Hp in Ef. by apply expect_boolean_Ok in Ef.
  - destruct (group_by q) as [g|]; [|by injection Eg]. split; [done|].
    intros h Hh. rewrite Hh in Eh. by apply expect_boolean_Ok in Eh.
  - destruct (project q); [done|]. by injection Ep.
Qed.

Definition items_in_range (items : list (Named Expr)) : bool :=
  forallb (fun item => literals_in_range (value item)) items.

Definition option_in_range (o : option Expr) : bool :=
  match o with Some e => literals_in_range e | None => true end.

Definition query_in_range (q : Query) : bool :=
  option_in_range (filter_ q) &&
  match group_by q with
  | Some g =>
      items_in_range (keys g) &&
      forallb (fun a => option_in_range (argument (value a))) (aggregates g) &&
      option_in_range (having g)
  | None => true
  end &&
  match project q with Some items => items_in_range items | None => true end.

(** ** Properties *)

(** C30: typing is sound.  An expression of type [ty] evaluates, on any row that
    conforms to its scope, to a value of that type in the [i64] range or a
    null, or to an overflow or division error; never to a type or name
    error. *)
Theorem eval_sound (e : Expr) (sc : Scope) (row : Row) (ty : DataType) :
  type_of e sc = Ok ty -> row_ok (scope_schema sc) row -> literals_in_range e = true ->
  match eval e row (scope_schema sc) with
  | Ok v => (v = VNull \/ data_type v = Some ty) /\ in_range v = true
  | Err x => is_evaluation_error x = true
  end.
Proof.
  intros Hty Hrow Hlit. pose proof (eval_typed _ _ _ _ Hrow Hlit Hty) as Hs.
  destruct (eval e row (scope_schema sc)) as [v|]; [|done]. destruct Hs as [Hf Hr].
  split; [|done]. unfold fits in Hf. destruct v; simpl in *; auto;
    apply bool_decide_eq_true in Hf; subst; auto.
Qed.

(** Binding is sound for whole queries.  In a bound query the answer's schema
    has at least one column and no repeated name; on conforming rows the
    [WHERE] and [HAVING] predicates give a Boolean, a null or an evaluation
    error, and the projection gives a row of the answer's schema or an
    evaluation error. *)
Theorem bind_sound (q : Query) (catalog : Catalog) (b : Bound) :
  bind q catalog = Ok b -> query_in_range q = true ->
  (fields (output_schema b) <> [] /\ NoDup (map field_name (fields (output_schema b)))) /\
  (forall p row, filter_ q = Some p -> row_ok (input_schema b) row ->
     sound Boolean (eval p row (input_schema b))) /\
  (forall g h row, group_by q = Some g -> having g = Some h -> row_ok (grouped_schema b) row ->
     sound Boolean (eval h row (grouped_schema b))) /\
  (forall items row, project q = Some items -> row_ok (grouped_schema b) row ->
     items_sound (fields (output_schema b))
       (try_map (fun item => eval (value item) row (grouped_schema b)) items)).
Proof.
  intros (Hsrc & Hf & Hg & Hp)%bind_inv Hr. unfold query_in_range in Hr.
  rewrite !andb_true_iff in Hr. destruct Hr as [[Hrf Hrg] Hrp].
  pose proof (bind_source_wf _ _ _ Hsrc) as Hwf. split; [|split; [|split]].
  - destruct (project q) as [items|]; [by apply projection_schema_Ok in Hp as (_ & ? & ?)|].
    rewrite Hp. destruct (group_by q) as [g|]; [|by rewrite Hg]. destruct Hg as [Hg _].
    unfold bind_group_by in Hg. destruct (aggregates g); [done|]. res_inv.
    apply build_output_schema_Ok in Hg as (-> & ? & ?). done.
  - intros p row Hq Hrow. rewrite Hq in *. by apply (eval_typed _ (input_scope b)); auto.
  - intros g h row Hq Hh Hrow. rewrite Hq in *. destruct Hg as [_ Hg].
    rewrite !andb_true_iff, Hh in Hrg. destruct Hrg as [_ Hrg].
    by apply (eval_typed _ (grouped_scope q b)); auto.
  - intros items row Hq Hrow. rewrite Hq in *.
    apply projection_schema_Ok in Hp as (Ht & _). by apply (items_typed (grouped_scope q b)).
Qed.

(** ** Witnesses *)

Definition ex_table : Schema := mkSchema [mkField "id" Int64 false; mkField "v" Int64 true].
Definition ex_catalog : Catalog := bt_of_list [("t"%string, ex_table)].
Definition ex_scope : Scope := mkScope (mkSchema (map (qualify "t") (fields ex_table))) Qualified.
Definition ex_expr : Expr :=
  ECase [(EBinary BGt (EColumn "t.id") (ELiteral (VInt 0)), EBinary BDiv (EColumn "t.v") (EColumn "t.id"))]
    (Some (ENull Int64)).
Definition ex_row : Row := [VInt 2; VInt 7].

Lemma ex_row_ok : row_ok (scope_schema ex_scope) ex_row.
Proof. split; repeat constructor. Qed.

Lemma eval_sound_witness :
  match eval ex_expr ex_row (scope_schema ex_scope) with
  | Ok v => (v = VNull \/ data_type v = Some Int64) /\ in_range v = true
  | Err x => is_evaluation_error x = true
  end.
Proof. exact (eval_sound ex_expr ex_scope ex_row Int64 eq_refl ex_row_ok eq_refl). Defined.

Definition ex_query : Query :=
  mkQuery (Scan "t" "t") (Some (EBinary BGt (EColumn "t.v") (ELiteral (VInt 1))))
    None (Some [mkNamed "q" ex_expr]) false.
Definition ex_bound : Bound :=
  mkBound (scope_schema ex_scope) (scope_schema ex_scope) (mkSchema [mkField "q" Int64 true]).

Lemma bind_sound_witness :
  items_sound [mkField "q" Int64 true]
    (try_map (fun item => eval (value item) ex_row (scope_schema ex_scope)) [mkNamed "q" ex_expr]).
Proof.
  exact (proj2 (proj2 (proj2 (bind_sound ex_query ex_catalog ex_bound eq_refl eq_refl)))
    _ ex_row eq_refl ex_row_ok).
Defined.
