(* ===== verification/Codec.v ===== *)
(** * Order-preserving key encoding ([schweep-state]: codec.rs)

    The byte encoding of operator-state keys, its decoder, and the snapshot
    format built on them.  Byte order of encodings is value order, an encoding
    of a prefix is a prefix of the encoding, and decoding inverts encoding. *)

From Stdlib Require Import ZArith NArith Lia.
From stdpp Require Import base list strings pretty.
From S2P Require Import Prelude BTree Value.

Inductive StateError :=
| StateWeightOverflow (while_doing : string)
| Backend (message : string).

Abbreviation Key := (list Value).

(** ** Fixed-width integers *)

(** [u64::to_be_bytes] and the like: [k] bytes, most significant first. *)
Fixpoint be_bytes (k : nat) (v : Z) : list N :=
  match k with
  | O => []
  | S k' => Z.to_N ((v / 256 ^ Z.of_nat k') mod 256) :: be_bytes k' v
  end.

Definition from_be_bytes (l : list N) : Z := fold_left (fun acc b => acc * 256 + Z.of_N b) l 0.

(** [i64 as u64] and back. *)
Definition as_u64 (i : Z) : Z := i mod 2 ^ 64.
Definition as_i64 (u : Z) : Z := wrap_i64 u.

Definition sign_bit : Z := 2 ^ 63.
Definition u64_not (u : Z) : Z := 2 ^ 64 - 1 - u.

(** ** Encoding *)

Definition TAG_NULL : N := 0.
Definition TAG_BOOL : N := 1.
Definition TAG_INT : N := 2.
Definition TAG_FLOAT : N := 3.
Definition TAG_STR : N := 4.

Fixpoint escape (bytes : list N) : list N :=
  match bytes with
  | [] => [0%N; 0%N]
  | b :: bytes' => b :: (if (b =? 0)%N then [255%N] else []) ++ escape bytes'
  end.

Definition float_ordered (bits : Z) : Z :=
  if negb (Z.land bits sign_bit =? 0) then u64_not bits else Z.lor bits sign_bit.

Definition encode_value (v : Value) : list N :=
  match v with
  | VNull => [TAG_NULL]
  | VBool b => [TAG_BOOL; if b then 1%N else 0%N]
  | VInt i => TAG_INT :: be_bytes 8 (Z.lxor (as_u64 i) sign_bit)
  | VFloat x => TAG_FLOAT :: be_bytes 8 (float_ordered (as_u64 x))
  | VStr s => TAG_STR :: escape (string_bytes s)
  end.

Definition encode_key (k : Key) : list N := flat_map encode_value k.

(** ** Decoding *)

Definition corrupt (what : string) : StateError := Backend ("corrupt encoded key: " +:+ what)%string.

(** Byte positions are list suffixes: [bytes.get(at)] is the head of the rest. *)
Definition split_at (n : nat) (bytes : list N) : option (list N * list N) :=
  if (n <=? length bytes)%nat then Some (take n bytes, drop n bytes) else None.

Definition eight (bytes : list N) : result StateError (list N * list N) :=
  ok_or (split_at 8 bytes) (corrupt "short fixed-width value").

(** [String::from_utf8]: well-formed UTF-8 as Unicode defines it. *)
Definition is_cont (b : N) : bool := ((128 <=? b) && (b <=? 191))%N.

Fixpoint utf8_valid (l : list N) : bool :=
  match l with
  | [] => true
  | b0 :: l0 =>
      if (b0 <? 128)%N then utf8_valid l0
      else
        match l0 with
        | [] => false
        | b1 :: l1 =>
            if ((194 <=? b0) && (b0 <=? 223))%N then is_cont b1 && utf8_valid l1
            else
              match l1 with
              | [] => false
              | b2 :: l2 =>
                  if ((224 <=? b0) && (b0 <=? 239))%N then
                    ((if (b0 =? 224)%N then 160 <=? b1 else 128 <=? b1)%N &&
                     (if (b0 =? 237)%N then b1 <=? 159 else b1 <=? 191)%N &&
                     is_cont b2 && utf8_valid l2)
                  else
                    match l2 with
                    | [] => false
                    | b3 :: l3 =>
                        ((240 <=? b0)%N && (b0 <=? 244)%N &&
                         (if (b0 =? 240)%N then 144 <=? b1 else 128 <=? b1)%N &&
                         (if (b0 =? 244)%N then b1 <=? 143 else b1 <=? 191)%N &&
                         is_cont b2 && is_cont b3 && utf8_valid l3)
                    end
              end
        end
  end.

Fixpoint bytes_string (l : list N) : string :=
  match l with
  | [] => EmptyString
  | b :: l' => String (Ascii.ascii_of_N b) (bytes_string l')
  end.

Definition from_utf8 (l : list N) : option string :=
  if utf8_valid l then Some (bytes_string l) else None.

(** The string loop: the text and what follows its terminator. *)
Fixpoint unescape (bytes : list N) (text : list N) : result StateError (list N * list N) :=
  match bytes with
  | [] => Err (corrupt "unterminated string")
  | byte :: rest =>
      if (byte =? 0)%N then
        match rest with
        | [] => Err (corrupt "short escape")
        | next :: rest' =>
            if (next =? 0)%N then Ok (text, rest')
            else if (next =? 255)%N then unescape rest' (text ++ [0%N])
            else Err (corrupt "bad escape")
        end
      else unescape rest (text ++ [byte])
  end.

Definition float_from_ordered (ordered : Z) : Z :=
  if negb (Z.land ordered sign_bit =? 0) then Z.land ordered (u64_not sign_bit) else u64_not ordered.

(** [format!("corrupt encoded key: unknown tag {other}")] *)
Definition unknown_tag (tag : N) : StateError :=
  corrupt ("unknown tag " +:+ pretty tag)%string.

Definition decode_value (bytes : list N) : result StateError (Value * list N) :=
  match bytes with
  | [] => Err (corrupt "missing tag")
  | tag :: body =>
      if (tag =? TAG_NULL)%N then Ok (VNull, body)
      else if (tag =? TAG_BOOL)%N then
        match body with
        | [] => Err (corrupt "short bool")
        | b :: rest => Ok (VBool (negb (b =? 0)%N), rest)
        end
      else if (tag =? TAG_INT)%N then
        let? '(raw, rest) := eight body in
        Ok (VInt (as_i64 (Z.lxor (from_be_bytes raw) sign_bit)), rest)
      else if (tag =? TAG_FLOAT)%N then
        let? '(raw, rest) := eight body in
        Ok (VFloat (as_i64 (float_from_ordered (from_be_bytes raw))), rest)
      else if (tag =? TAG_STR)%N then
        let? '(text, rest) := unescape body [] in
        let? s := ok_or (from_utf8 text) (corrupt "string is not UTF-8") in
        Ok (VStr s, rest)
      else Err (unknown_tag tag)
  end.

(** The [while at < bytes.len()] loop; every value takes at least one byte, so
    the length of the input bounds the iterations. *)
Fixpoint decode_loop (fuel : nat) (bytes : list N) (out : Key) : result StateError Key :=
  match bytes with
  | [] => Ok out
  | _ =>
      match fuel with
      | O => Ok out
      | S fuel' =>
          let? '(v, rest) := decode_value bytes in
          decode_loop fuel' rest (out ++ [v])
      end
  end.

Definition decode_key (bytes : list N) : result StateError Key :=
  decode_loop (length bytes) bytes [].

(** ** Snapshots *)

Definition encode_entry (e : Key * Z) : list N :=
  let encoded := encode_key e.1 in
  be_bytes 4 (Z.of_nat (length encoded)) ++ encoded ++ be_bytes 8 (as_u64 e.2).

Definition encode_entries (es : list (Key * Z)) : list N :=
  be_bytes 8 (Z.of_nat (length es)) ++ flat_map encode_entry es.

Definition decode_entry (bytes : list N) : result StateError ((Key * Z) * list N) :=
  let short := corrupt "snapshot is short" in
  let? '(len_raw, rest) := ok_or (split_at 4 bytes) short in
  let len := Z.to_nat (from_be_bytes len_raw) in
  let? '(key_raw, rest) := ok_or (split_at len rest) short in
  let? key := decode_key key_raw in
  let? '(weight_raw, rest) := ok_or (split_at 8 rest) short in
  Ok ((key, as_i64 (from_be_bytes weight_raw)), rest).

Fixpoint decode_count (count : nat) (bytes : list N) (out : list (Key * Z)) : result StateError (list (Key * Z)) :=
  match count with
  | O => Ok out
  | S count' =>
      let? '(e, rest) := decode_entry bytes in
      decode_count count' rest (out ++ [e])
  end.

Definition decode_entries (bytes : list N) : result StateError (list (Key * Z)) :=
  let? '(count_raw, rest) := ok_or (split_at 8 bytes) (corrupt "snapshot is short") in
  decode_count (Z.to_nat (from_be_bytes count_raw)) rest [].

(** ** Fixed-width lemmas *)

Lemma pow256_pos k : 0 < 256 ^ Z.of_nat k.
Proof. apply Z.pow_pos_nonneg; lia. Qed.

Lemma pow256_S k : 256 ^ Z.of_nat (S k) = 256 * 256 ^ Z.of_nat k.
Proof. rewrite Nat2Z.inj_succ, Z.pow_succ_r; lia. Qed.

Lemma be_bytes_length k v : length (be_bytes k v) = k.
Proof. induction k as [|k IH]; simpl; [done|]. by rewrite IH. Qed.

Lemma from_be_bytes_acc l acc :
  fold_left (fun acc b => acc * 256 + Z.of_N b) l acc
  = acc * 256 ^ Z.of_nat (length l) + from_be_bytes l.
Proof.
  revert acc. unfold from_be_bytes. induction l as [|b l IH]; intros acc; cbn [fold_left length].
  - lia.
  - rewrite IH, (IH (0 * 256 + Z.of_N b)), pow256_S. lia.
Qed.

Lemma be_bytes_mod k v : be_bytes k (v mod 256 ^ Z.of_nat k) = be_bytes k v.
Proof.
  enough (forall m, (k <= m)%nat -> be_bytes k (v mod 256 ^ Z.of_nat m) = be_bytes k v) as Hg
    by (by apply Hg).
  induction k as [|k IH]; intros m Hm; simpl; [done|].
  rewrite (IH m) by lia. f_equal. f_equal.
  replace (256 ^ Z.of_nat m) with (256 ^ Z.of_nat (S k) * 256 ^ Z.of_nat (m - S k)).
  2: { rewrite <- Z.pow_add_r by lia. f_equal. lia. }
  pose proof (pow256_pos k). pose proof (pow256_pos (m - S k)).
  rewrite Z.rem_mul_r, pow256_S by lia.
  rewrite (Z.mul_comm 256 (256 ^ Z.of_nat k)), Z.rem_mul_r by lia.
  replace (v mod 256 ^ Z.of_nat k + 256 ^ Z.of_nat k * ((v / 256 ^ Z.of_nat k) mod 256) +
    256 ^ Z.of_nat k * 256 * ((v / (256 ^ Z.of_nat k * 256)) mod 256 ^ Z.of_nat (m - S k)))
    with (v mod 256 ^ Z.of_nat k + ((v / 256 ^ Z.of_nat k) mod 256 +
      ((v / (256 ^ Z.of_nat k * 256)) mod 256 ^ Z.of_nat (m - S k)) * 256) * 256 ^ Z.of_nat k) by lia.
  rewrite Z.div_add by lia. rewrite (Z.div_small (v mod _)) by (apply Z.mod_pos_bound; lia).
  rewrite Z.add_0_l, Z.mod_add, Z.mod_mod by lia. done.
Qed.

Lemma from_be_be_bytes k v : from_be_bytes (be_bytes k v) = v mod 256 ^ Z.of_nat k.
Proof.
  induction k as [|k IH]; [simpl; by rewrite Z.mod_1_r|].
  cbn [be_bytes]. unfold from_be_bytes. cbn [fold_left]. rewrite from_be_bytes_acc, IH.
  rewrite be_bytes_length, pow256_S, (Z.mul_comm 256).
  pose proof (pow256_pos k). rewrite Z.rem_mul_r by lia.
  rewrite Z2N.id by (apply Z.mod_pos_bound; lia). lia.
Qed.

(** Big-endian bytes compare like the numbers. *)
Lemma be_bytes_cmp k v w :
  0 <= v < 256 ^ Z.of_nat k -> 0 <= w < 256 ^ Z.of_nat k ->
  list_cmp (be_bytes k v) (be_bytes k w) = Z.compare v w.
Proof.
  revert v w. induction k as [|k IH]; intros v w Hv Hw.
  - simpl in *. by replace v with w by lia; rewrite Z.compare_refl.
  - cbn [be_bytes list_cmp]. rewrite pow256_S in *. pose proof (pow256_pos k) as Hp.
    set (p := 256 ^ Z.of_nat k) in *.
    assert (forall x, 0 <= x < 256 * p -> (x / p) mod 256 = x / p) as Hdiv.
    { intros x Hx. apply Z.mod_small. split; [apply Z.div_pos; lia|].
      apply Z.div_lt_upper_bound; lia. }
    rewrite !Hdiv by done. rewrite <- (be_bytes_mod k v), <- (be_bytes_mod k w). fold p.
    rewrite IH by (apply Z.mod_pos_bound; lia).
    pose proof (Z.div_mod v p ltac:(lia)). pose proof (Z.div_mod w p ltac:(lia)).
    pose proof (Z.mod_pos_bound v p Hp). pose proof (Z.mod_pos_bound w p Hp).
    unfold cmp, N_cmp. rewrite <- N2Z.inj_compare, !Z2N.id by (apply Z.div_pos; lia).
    destruct (Z.compare_spec (v / p) (w / p)) as [E|E|E].
    + rewrite E in *. destruct (Z.compare_spec (v mod p) (w mod p)); symmetry;
        [apply Z.compare_eq_iff|apply Z.compare_lt_iff|apply Z.compare_gt_iff]; lia.
    + symmetry. apply Z.compare_lt_iff. nia.
    + symmetry. apply Z.compare_gt_iff. nia.
Qed.

Lemma be_bytes_range k v : Forall (fun b => (b < 256)%N) (be_bytes k v).
Proof.
  induction k as [|k IH]; simpl; constructor; [|done].
  pose proof (Z.mod_pos_bound (v / 256 ^ Z.of_nat k) 256 ltac:(lia)). lia.
Qed.

(** ** The two sign-bit transformations are shifts of the order *)

Lemma land_sign_small x : 0 <= x < 2 ^ 63 -> Z.land x sign_bit = 0.
Proof.
  intros Hx. apply Z.bits_inj'. intros n Hn. rewrite Z.land_spec, Z.bits_0.
  unfold sign_bit. rewrite Z.pow2_bits_eqb by lia.
  destruct (Z.eqb_spec 63 n) as [<-|]; [|by rewrite andb_false_r].
  rewrite andb_true_r. apply Z.testbit_false; [lia|]. by rewrite Z.div_small by lia.
Qed.

Lemma lxor_sign_small x : 0 <= x < 2 ^ 63 -> Z.lxor x sign_bit = x + 2 ^ 63.
Proof. intros Hx. symmetry. apply Z.add_nocarry_lxor. by apply land_sign_small. Qed.

Lemma lxor_sign_large x : 2 ^ 63 <= x < 2 ^ 64 -> Z.lxor x sign_bit = x - 2 ^ 63.
Proof.
  intros Hx. replace x with (Z.lxor (x - 2 ^ 63) sign_bit) at 1.
  - by rewrite Z.lxor_assoc, Z.lxor_nilpotent, Z.lxor_0_r.
  - rewrite lxor_sign_small by lia. lia.
Qed.

Lemma land_sign_large x : 2 ^ 63 <= x < 2 ^ 64 -> Z.land x sign_bit = sign_bit.
Proof.
  intros Hx. replace x with (Z.lor (x - 2 ^ 63) sign_bit).
  - rewrite Z.land_lor_distr_l, land_sign_small, Z.land_diag by lia. done.
  - rewrite <- Z.lxor_lor by (apply land_sign_small; lia). rewrite lxor_sign_small by lia. lia.
Qed.

Lemma lor_sign_small x : 0 <= x < 2 ^ 63 -> Z.lor x sign_bit = x + 2 ^ 63.
Proof.
  intros Hx. rewrite <- Z.lxor_lor by (by apply land_sign_small). by apply lxor_sign_small.
Qed.

Lemma as_u64_spec i : in_i64 i = true -> as_u64 i = if i <? 0 then i + 2 ^ 64 else i.
Proof.
  rewrite in_i64_spec. unfold as_u64, i64_min, i64_max. intros Hi.
  destruct (Z.ltb_spec i 0).
  - replace i with (i + 2 ^ 64 + (-1) * 2 ^ 64) at 1 by lia.
    rewrite Z.mod_add by lia. apply Z.mod_small. lia.
  - apply Z.mod_small. lia.
Qed.

Lemma as_i64_as_u64 i : in_i64 i = true -> as_i64 (as_u64 i) = i.
Proof.
  intros Hi. rewrite <- (wrap_i64_id i Hi) at 2. unfold as_i64, as_u64, wrap_i64.
  f_equal. rewrite Zplus_mod_idemp_l. done.
Qed.

Lemma as_u64_range i : 0 <= as_u64 i < 2 ^ 64.
Proof. apply Z.mod_pos_bound. lia. Qed.

Lemma int_code i : in_i64 i = true -> Z.lxor (as_u64 i) sign_bit = i + 2 ^ 63.
Proof.
  intros Hi. rewrite as_u64_spec by done. apply in_i64_spec in Hi.
  unfold i64_min, i64_max in Hi. destruct (Z.ltb_spec i 0).
  - rewrite lxor_sign_large; lia.
  - apply lxor_sign_small. lia.
Qed.

Lemma lxor_ones t : 0 <= t < 2 ^ 63 -> Z.lxor t (2 ^ 63 - 1) = 2 ^ 63 - 1 - t.
Proof.
  intros Ht. change (2 ^ 63 - 1) with (Z.ones 63).
  assert (Z.ldiff t (Z.ones 63) = 0) as Hl by (rewrite Z.ldiff_ones_r_low; [done|lia|];
    destruct (decide (t = 0)) as [->|]; [done|apply Z.log2_lt_pow2; lia]).
  rewrite Z.sub_nocarry_ldiff by done. apply Z.bits_inj'. intros n Hn.
  rewrite Z.lxor_spec, Z.ldiff_spec.
  apply (f_equal (fun z => Z.testbit z n)) in Hl.
  rewrite Z.ldiff_spec, Z.bits_0 in Hl.
  destruct (Z.testbit t n), (Z.testbit (Z.ones 63) n); done.
Qed.

Lemma float_key_neg x : in_i64 x = true -> x < 0 -> float_key x = - 1 - (x + 2 ^ 63).
Proof.
  intros Hx Hneg. apply in_i64_spec in Hx. unfold i64_min, i64_max in Hx.
  unfold float_key. rewrite (proj2 (Z.ltb_lt x 0)) by done.
  replace x with (Z.lnot (- x - 1)) at 1 by (unfold Z.lnot; lia).
  rewrite <- Z.lnot_lxor_l, lxor_ones by lia. unfold Z.lnot. lia.
Qed.

Lemma float_code x : in_i64 x = true -> float_ordered (as_u64 x) = float_key x + 2 ^ 63.
Proof.
  intros Hx. pose proof Hx as Hr. apply in_i64_spec in Hr. unfold i64_min, i64_max in Hr.
  rewrite as_u64_spec by done. unfold float_ordered. destruct (Z.ltb_spec x 0) as [Hneg|Hpos].
  - rewrite land_sign_large by lia. rewrite float_key_neg by done. unfold u64_not. simpl. lia.
  - rewrite land_sign_small by lia. simpl. rewrite lor_sign_small by lia.
    unfold float_key. rewrite (proj2 (Z.ltb_ge x 0)) by done. rewrite Z.lxor_0_r. lia.
Qed.

Lemma float_decode x : in_i64 x = true -> float_from_ordered (float_ordered (as_u64 x)) = as_u64 x.
Proof.
  intros Hx. pose proof (as_u64_range x) as Hu. revert Hu. generalize (as_u64 x). clear x Hx.
  intros u Hu. unfold float_ordered.
  destruct (Z_lt_ge_dec u (2 ^ 63)) as [Hs|Hl].
  - rewrite land_sign_small by lia. simpl. rewrite lor_sign_small by lia.
    unfold float_from_ordered. rewrite land_sign_large by lia. simpl.
    change (u64_not sign_bit) with (Z.ones 63). rewrite Z.land_ones by lia.
    replace (u + 2 ^ 63) with (u + 1 * 2 ^ 63) by lia. rewrite Z.mod_add by lia.
    apply Z.mod_small. lia.
  - rewrite land_sign_large by lia. simpl. unfold float_from_ordered, u64_not.
    rewrite land_sign_small by lia. simpl. lia.
Qed.

(** ** Values a Rust [Value] can hold *)

Definition valid_value (v : Value) : bool :=
  match v with
  | VInt i => in_i64 i
  | VFloat x => in_i64 x
  | VStr s => utf8_valid (string_bytes s)
  | _ => true
  end.

Definition valid_key (k : Key) : bool := forallb valid_value k.

(** ** Order *)

(** Comparison continues after equal components. *)
Definition then_cmp (c d : comparison) : comparison := match c with Eq => d | _ => c end.

Lemma list_cmp_app_fixed (p q a b : list N) :
  length p = length q -> list_cmp (p ++ a) (q ++ b) = then_cmp (list_cmp p q) (list_cmp a b).
Proof.
  revert q. induction p as [|x p IH]; intros [|y q] Hl; simpl in *; try done.
  injection Hl as Hl. destruct (cmp x y); [by apply IH|done..].
Qed.

Lemma escape_cmp s t a b :
  list_cmp (escape s ++ a) (escape t ++ b) = then_cmp (list_cmp s t) (list_cmp a b).
Proof.
  revert t. induction s as [|x s IH]; intros [|y t].
  - done.
  - simpl. destruct (N.eqb_spec y 0) as [->|Hy]; simpl; [done|]. unfold cmp, N_cmp.
    by rewrite (proj2 (N.compare_lt_iff 0 y)) by lia.
  - simpl. destruct (N.eqb_spec x 0) as [->|Hx]; simpl; [done|]. unfold cmp, N_cmp.
    by rewrite (proj2 (N.compare_gt_iff x 0)) by lia.
  - cbn [escape list_cmp app]. destruct (cmp x y) eqn:E; [|done..].
    apply cmp_eq in E as ->. destruct (y =? 0)%N; simpl; apply IH.
Qed.

Lemma encode_value_cmp v w a b :
  valid_value v = true -> valid_value w = true ->
  list_cmp (encode_value v ++ a) (encode_value w ++ b) = then_cmp (cmp v w) (list_cmp a b).
Proof.
  assert (forall x y, in_i64 x = true -> in_i64 y = true ->
    list_cmp (be_bytes 8 (x + 2 ^ 63) ++ a) (be_bytes 8 (y + 2 ^ 63) ++ b)
    = then_cmp (Z.compare x y) (list_cmp a b)) as H64.
  { intros x y Hx%in_i64_spec Hy%in_i64_spec. unfold i64_min, i64_max in *.
    rewrite list_cmp_app_fixed by (by rewrite !be_bytes_length).
    rewrite be_bytes_cmp by (change (256 ^ Z.of_nat 8) with (2 ^ 64); lia).
    f_equal. by rewrite !(Z.add_comm _ (2 ^ 63)), Z.add_compare_mono_l. }
  assert (forall x, in_i64 x = true -> in_i64 (float_key x) = true) as Htk.
  { intros x Hx. pose proof Hx as Hr. rewrite in_i64_spec in Hr |- *. unfold i64_min, i64_max in *.
    destruct (Z_lt_ge_dec x 0); [rewrite float_key_neg by done; lia|].
    unfold float_key. rewrite (proj2 (Z.ltb_ge x 0)), Z.lxor_0_r by lia. done. }
  destruct v as [|x|x|x|x], w as [|y|y|y|y]; intros Hv Hw; simpl in Hv, Hw; try done.
  - cbn [encode_value app list_cmp]. rewrite !int_code by done. by apply H64.
  - cbn [encode_value app list_cmp]. rewrite escape_cmp. done.
  - by destruct x, y.
  - cbn [encode_value app list_cmp]. rewrite !float_code by done. apply H64; auto.
Qed.

Lemma encode_value_nonempty v : exists b l, encode_value v = b :: l.
Proof. destruct v; simpl; eauto. Qed.

Lemma encode_key_cmp k1 k2 :
  valid_key k1 = true -> valid_key k2 = true ->
  list_cmp (encode_key k1) (encode_key k2) = cmp k1 k2.
Proof.
  unfold cmp, list_Cmp. revert k2. induction k1 as [|v k1 IH]; intros [|w k2] H1 H2; simpl.
  - done.
  - destruct (encode_value_nonempty w) as (b & l & ->). done.
  - destruct (encode_value_nonempty v) as (b & l & ->). done.
  - simpl in H1, H2. apply andb_true_iff in H1 as [Hv H1], H2 as [Hw H2].
    fold (encode_key k1). fold (encode_key k2).
    rewrite encode_value_cmp by done. rewrite IH by done. by destruct (cmp v w).
Qed.

(** ** Round trip *)

#[local] Opaque be_bytes.
#[local] Arguments from_be_bytes : simpl never.
#[local] Arguments split_at : simpl never.

Lemma split_at_app n p rest : length p = n -> split_at n (p ++ rest) = Some (p, rest).
Proof.
  intros <-. unfold split_at. rewrite length_app.
  rewrite (proj2 (Nat.leb_le _ _)) by lia. by rewrite take_app_length, drop_app_length.
Qed.

Lemma unescape_escape s text rest : unescape (escape s ++ rest) text = Ok (text ++ s, rest).
Proof.
  revert text. induction s as [|b s IH]; intros text; simpl.
  - by rewrite app_nil_r.
  - destruct (N.eqb_spec b 0) as [->|Hb]; simpl; rewrite IH, <- app_assoc; done.
Qed.

Lemma bytes_string_bytes s : bytes_string (string_bytes s) = s.
Proof. induction s as [|c s IH]; simpl; [done|]. by rewrite IH, Ascii.ascii_N_embedding. Qed.

Lemma from_be_8 v : 0 <= v < 2 ^ 64 -> from_be_bytes (be_bytes 8 v) = v.
Proof. intros Hv. rewrite from_be_be_bytes. apply Z.mod_small. done. Qed.

Lemma decode_encode_value v rest :
  valid_value v = true -> decode_value (encode_value v ++ rest) = Ok (v, rest).
Proof.
  destruct v as [|i|s|b|x]; intros Hv; simpl in Hv.
  - done.
  - cbn [encode_value app decode_value]. simpl (_ =? _)%N. cbv iota. unfold eight.
    rewrite split_at_app by apply be_bytes_length. simpl.
    rewrite int_code by done. pose proof Hv as Hr. apply in_i64_spec in Hr.
    unfold i64_min, i64_max in Hr. rewrite from_be_8 by lia.
    rewrite <- int_code by done. rewrite Z.lxor_assoc, Z.lxor_nilpotent, Z.lxor_0_r.
    by rewrite as_i64_as_u64.
  - cbn [encode_value app decode_value]. simpl (_ =? _)%N. cbv iota.
    rewrite unescape_escape. simpl. unfold from_utf8. rewrite Hv. simpl.
    by rewrite bytes_string_bytes.
  - by destruct b.
  - cbn [encode_value app decode_value]. simpl (_ =? _)%N. cbv iota. unfold eight.
    rewrite split_at_app by apply be_bytes_length. simpl.
    rewrite from_be_8; [by rewrite float_decode, as_i64_as_u64|].
    pose proof (as_u64_range x). unfold float_ordered.
    destruct (Z_lt_ge_dec (as_u64 x) (2 ^ 63)).
    + rewrite land_sign_small by lia. simpl. rewrite lor_sign_small; lia.
    + rewrite land_sign_large by lia. simpl. unfold u64_not. lia.
Qed.

Lemma decode_loop_encode k fuel out :
  valid_key k = true -> (length (encode_key k) <= fuel)%nat ->
  decode_loop fuel (encode_key k) out = Ok (out ++ k).
Proof.
  revert fuel out. induction k as [|v k IH]; intros fuel out Hv Hf; simpl.
  - rewrite app_nil_r. by destruct fuel.
  - simpl in Hv. apply andb_true_iff in Hv as [Hv Hk].
    destruct (encode_value_nonempty v) as (b & l & E).
    simpl in Hf. rewrite length_app in Hf. fold (encode_key k) in *.
    destruct fuel as [|fuel]; [rewrite E in Hf; simpl in Hf; lia|].
    pose proof (decode_encode_value v (encode_key k) Hv) as Hd. rewrite E in *. simpl in *.
    rewrite Hd. rewrite IH; [by rewrite <- app_assoc|done|lia].
Qed.

Lemma decode_encode_key k : valid_key k = true -> decode_key (encode_key k) = Ok k.
Proof. intros Hv. unfold decode_key. by rewrite decode_loop_encode. Qed.

(** A byte prefix that ends where a key ends is a prefix of components. *)
Lemma encode_key_prefix_inv p k rest :
  valid_key p = true -> valid_key k = true ->
  encode_key k = encode_key p ++ rest -> exists k', k = p ++ k' /\ rest = encode_key k'.
Proof.
  revert k. induction p as [|v p IH]; intros k Hp Hk E; simpl in *; [eauto|].
  apply andb_true_iff in Hp as [Hv Hp]. fold (encode_key p) in E. rewrite <- app_assoc in E.
  destruct k as [|w k]; simpl in *.
  - destruct (encode_value_nonempty v) as (b & l & Ev). rewrite Ev in E. done.
  - apply andb_true_iff in Hk as [Hw Hk]. fold (encode_key k) in E.
    pose proof (decode_encode_value w (encode_key k) Hw) as Hd. rewrite E in Hd.
    rewrite decode_encode_value in Hd by done. injection Hd as -> Hd.
    destruct (IH k Hp Hk (eq_sym Hd)) as (k' & -> & ->). eauto.
Qed.

(** ** The decoding loop terminates within its fuel *)

Lemma split_at_length n l p r : split_at n l = Some (p, r) -> length l = (n + length r)%nat.
Proof.
  unfold split_at. destruct (Nat.leb_spec n (length l)); [|done]. intros [= <- <-].
  rewrite length_drop. lia.
Qed.

Lemma unescape_length bytes text t r :
  unescape bytes text = Ok (t, r) -> (length r < length bytes)%nat.
Proof.
  remember (length bytes) as n eqn:Hn. revert bytes text Hn.
  induction n as [n IH] using lt_wf_ind. intros [|b bytes] text Hn; simpl; [done|].
  destruct (b =? 0)%N.
  - destruct bytes as [|c bytes]; [done|]. simpl in Hn.
    destruct (c =? 0)%N; [intros [= <- <-]; lia|]. destruct (c =? 255)%N; [|done].
    intros E. apply (IH (length bytes)) in E; [lia..|done].
  - simpl in Hn. intros E. apply (IH (length bytes)) in E; [lia..|done].
Qed.

Lemma decode_value_length bytes v rest :
  decode_value bytes = Ok (v, rest) -> (length rest < length bytes)%nat.
Proof.
  destruct bytes as [|tag body]; [done|]. cbn [decode_value length]. unfold eight.
  destruct (tag =? TAG_NULL)%N; [intros [= <- <-]; lia|].
  destruct (tag =? TAG_BOOL)%N; [destruct body; [done|]; intros [= <- <-]; simpl; lia|].
  destruct (tag =? TAG_INT)%N.
  { destruct (split_at 8 body) as [[raw r]|] eqn:E; simpl; [|done]. intros [= <- <-].
    apply split_at_length in E. lia. }
  destruct (tag =? TAG_FLOAT)%N.
  { destruct (split_at 8 body) as [[raw r]|] eqn:E; simpl; [|done]. intros [= <- <-].
    apply split_at_length in E. lia. }
  destruct (tag =? TAG_STR)%N; [|done].
  destruct (unescape body []) as [[text r]|] eqn:E; [|done].
  destruct (from_utf8 text); simpl; [|done]. intros [= <- <-].
  apply unescape_length in E. lia.
Qed.

(** [decode_key]'s fuel is enough: more gives the same result. *)
Lemma decode_loop_fuel f1 f2 bytes out :
  (length bytes <= f1)%nat -> (length bytes <= f2)%nat ->
  decode_loop f1 bytes out = decode_loop f2 bytes out.
Proof.
  revert f2 bytes out. induction f1 as [|f1 IH]; intros [|f2] [|b bytes] out H1 H2;
    simpl in H1, H2; try done; try lia. cbn [decode_loop].
  destruct (decode_value (b :: bytes)) as [[v rest]|] eqn:E; [|done].
  apply decode_value_length in E. simpl in E. apply IH; lia.
Qed.

(** ** Snapshots *)

Definition valid_entry (e : Key * Z) : bool :=
  valid_key e.1 && in_i64 e.2 && (Z.of_nat (length (encode_key e.1)) <? 2 ^ 32).

Lemma decode_encode_entry e rest :
  valid_entry e = true -> decode_entry (encode_entry e ++ rest) = Ok (e, rest).
Proof.
  destruct e as [k w]. unfold valid_entry. simpl. rewrite !andb_true_iff, Z.ltb_lt.
  intros [[Hk Hw] Hl]. unfold decode_entry, encode_entry. cbn [fst snd].
  rewrite <- !app_assoc, split_at_app by apply be_bytes_length. simpl.
  rewrite from_be_be_bytes, Z.mod_small, Nat2Z.id by (change (256 ^ Z.of_nat 4) with (2 ^ 32); lia).
  rewrite split_at_app by done. simpl. rewrite decode_encode_key by done.
  rewrite split_at_app by apply be_bytes_length. simpl.
  rewrite from_be_8 by apply as_u64_range. by rewrite as_i64_as_u64.
Qed.

Lemma decode_count_encode es out :
  forallb valid_entry es = true ->
  decode_count (length es) (flat_map encode_entry es) out = Ok (out ++ es).
Proof.
  revert out. induction es as [|e es IH]; intros out Hv; simpl; [by rewrite app_nil_r|].
  simpl in Hv. apply andb_true_iff in Hv as [He Hv]. rewrite decode_encode_entry by done.
  rewrite IH by done. by rewrite <- app_assoc.
Qed.

Lemma decode_encode_entries es :
  forallb valid_entry es = true -> Z.of_nat (length es) < 2 ^ 64 ->
  decode_entries (encode_entries es) = Ok es.
Proof.
  intros Hv Hl. unfold decode_entries, encode_entries.
  rewrite split_at_app by apply be_bytes_length. simpl.
  rewrite from_be_8 by lia. rewrite Nat2Z.id. by apply decode_count_encode.
Qed.

(** ** Properties *)

(** Byte order of encodings is the total order on keys (S-7), for every pair
    of keys, so a byte-ordered store scans in the order the trait promises;
    and a key starts with a prefix exactly when its encoding starts with the
    prefix's encoding. *)
Theorem encode_key_order (a b : Key) :
  valid_key a = true -> valid_key b = true ->
  cmp (encode_key a) (encode_key b) = cmp a b /\
  ((exists rest, encode_key b = encode_key a ++ rest) <-> (exists k, b = a ++ k)).
Proof.
  intros Ha Hb. split; [by apply encode_key_cmp|]. split.
  - intros [rest E]. destruct (encode_key_prefix_inv a b rest Ha Hb E) as (k & -> & _). eauto.
  - intros [k ->]. exists (encode_key k). unfold encode_key. by rewrite flat_map_app.
Qed.

(** Decoding an encoded key gives the key back, and a snapshot of entries
    decodes to exactly the entries it was taken from, in order. *)
Theorem snapshot_roundtrip (es : list (Key * Z)) :
  forallb valid_entry es = true -> Z.of_nat (length es) < 2 ^ 64 ->
  Forall (fun e => decode_key (encode_key e.1) = Ok e.1) es /\
  decode_entries (encode_entries es) = Ok es.
Proof.
  intros Hv Hl. split; [|by apply decode_encode_entries].
  apply Forall_forall. intros e He. apply decode_encode_key.
  rewrite forallb_forall in Hv. specialize (Hv e ltac:(by apply list_elem_of_In)).
  unfold valid_entry in Hv. rewrite !andb_true_iff in Hv. apply Hv.
Qed.

(** ** Witnesses *)

Definition ex_key1 : Key := [VInt (-3); VStr "ab"; VNull].
Definition ex_key2 : Key := [VInt (-3); VStr "ab"; VBool true; VFloat (-5)].

Lemma encode_key_order_witness :
  cmp (encode_key ex_key1) (encode_key ex_key2) = Lt.
Proof. exact (proj1 (encode_key_order ex_key1 ex_key2 eq_refl eq_refl)). Defined.

Lemma snapshot_roundtrip_witness :
  decode_entries (encode_entries [(ex_key1, -2); (ex_key2, 7)]) = Ok [(ex_key1, -2); (ex_key2, 7)].
Proof.
  exact (proj2 (snapshot_roundtrip [(ex_key1, -2); (ex_key2, 7)] eq_refl eq_refl)).
Defined.
