(* ===== verification/State.v ===== *)
(** * Operator state ([schweep-state]: backend.rs, mem.rs)

    The [StateBackend] trait as a class of operations with its laws, and
    [MemBackend] as an instance.  A backend denotes a canonical Z-set of keys
    (its view); the laws say what each operation does to the view, so the
    operators above are proved against the interface. *)

From Stdlib Require Import ZArith Lia Sorted.
From stdpp Require Import base list strings.
From S2P Require Import Prelude BTree ZAlg Value ZSet Codec.

(** A [WriteBatch] is the list of its additions, in the order they were made. *)
Abbreviation WriteBatch := (list (Key * Z)).

(** ** The interface *)

(** A visitor is an [FnMut]: it threads a state and says whether to go on. *)
Definition Visitor (S : Type) : Type := S -> Key -> Z -> S * bool.

Class StateBackend (B : Type) := {
  be_new : B;
  be_write : B -> WriteBatch -> B * result StateError unit;
  be_visit_prefix {S : Type} : B -> Key -> Visitor S -> S -> result StateError S;
  be_get : B -> Key -> result StateError (option Z);
  be_len : B -> nat;
  be_iter_all : B -> result StateError (list (Key * Z));
  be_snapshot : B -> result StateError (list N);
  be_restore : B -> list N -> B * result StateError unit
}.

Section provided.
Context {B : Type} `{StateBackend B}.

Definition be_is_empty (b : B) : bool := (be_len b =? 0)%nat.

(** The provided method: collect every entry. *)
Definition scan_prefix (b : B) (prefix : Key) : result StateError (list (Key * Z)) :=
  be_visit_prefix b prefix (fun entries k w => (entries ++ [(k, w)], true)) [].
End provided.

(** [slice::starts_with] *)
Fixpoint starts_with (k prefix : Key) {struct prefix} : bool :=
  match prefix, k with
  | [], _ => true
  | _ :: _, [] => false
  | v :: prefix', w :: k' => cmp_eqb w v && starts_with k' prefix'
  end.

(** A visit of a list: until the visitor stops. *)
Fixpoint visit {S} (f : Visitor S) (s : S) (l : list (Key * Z)) : S :=
  match l with
  | [] => s
  | (k, w) :: l' => let '(s', go) := f s k w in if go then visit f s' l' else s'
  end.

Definition under (prefix : Key) (es : list (Key * Z)) : list (Key * Z) :=
  List.filter (fun e => starts_with e.1 prefix) es.

(** What a backend promises: [view] is its contents as a canonical Z-set. *)
Class BackendLaws (B : Type) `{StateBackend B} := {
  be_inv : B -> Prop;
  view : B -> list (Key * Z);
  view_canonical b : be_inv b -> zcanonical (view b);
  new_inv : be_inv be_new;
  view_new : view be_new = [];
  write_inv b batch : be_inv b -> be_inv (be_write b batch).1;
  write_ok b batch : be_inv b -> (be_write b batch).2 = Ok tt ->
    view (be_write b batch).1 ≡z view b ++ batch;
  write_err b batch e : be_inv b -> (be_write b batch).2 = Err e ->
    view (be_write b batch).1 = view b;
  visit_ok {S} b prefix (f : Visitor S) s s' : be_inv b ->
    be_visit_prefix b prefix f s = Ok s' -> s' = visit f s (under prefix (view b));
  get_ok b k w : be_inv b -> be_get b k = Ok w -> w = bt_get k (view b);
  len_ok b : be_inv b -> be_len b = length (view b);
  iter_all_ok b es : be_inv b -> be_iter_all b = Ok es -> es = view b;
  restore_ok b b' bytes : be_inv b -> be_inv b' -> forallb valid_entry (view b) = true ->
    Z.of_nat (length (view b)) < 2 ^ 64 -> be_snapshot b = Ok bytes ->
    (be_restore b' bytes).2 = Ok tt ->
    be_inv (be_restore b' bytes).1 /\ view (be_restore b' bytes).1 = view b
}.

(** ** [MemBackend] *)

Record MemBackend := mkMem { mem_entries : btree Key Z }.

Definition mem_new : MemBackend := mkMem bt_empty.

(** The staging loop of [write]. *)
Definition stage (entries staged : btree Key Z) (add : Key * Z) : result StateError (btree Key Z) :=
  let '(key, weight) := add in
  let base := match bt_get key staged with
              | Some pending => pending
              | None => default 0 (bt_get key entries)
              end in
  let? sum := ok_or (checked_add base weight)
                (StateWeightOverflow "adding a weight to operator state") in
  Ok (bt_insert key sum staged).

Definition apply_staged (entries : btree Key Z) (p : Key * Z) : btree Key Z :=
  if p.2 =? 0 then bt_remove p.1 entries else bt_insert p.1 p.2 entries.

Definition mem_write (b : MemBackend) (batch : WriteBatch) : MemBackend * result StateError unit :=
  match try_fold (stage (mem_entries b)) bt_empty batch with
  | Err e => (b, Err e)
  | Ok staged => (mkMem (fold_left apply_staged staged (mem_entries b)), Ok tt)
  end.

Fixpoint mem_visit {S} (prefix : Key) (f : Visitor S) (s : S) (range : list (Key * Z)) : S :=
  match range with
  | [] => s
  | (key, weight) :: range' =>
      if (length key <? length prefix)%nat || negb (starts_with key prefix) then s
      else let '(s', go) := f s key weight in
           if go then mem_visit prefix f s' range' else s'
  end.

Definition mem_visit_prefix {S} (b : MemBackend) (prefix : Key) (f : Visitor S) (s : S) : result StateError S :=
  Ok (mem_visit prefix f s (bt_range_from prefix (mem_entries b))).

Definition mem_get (b : MemBackend) (k : Key) : result StateError (option Z) :=
  Ok (bt_get k (mem_entries b)).

Definition mem_len (b : MemBackend) : nat := length (mem_entries b).

Definition mem_iter_all (b : MemBackend) : result StateError (list (Key * Z)) :=
  Ok (mem_entries b).

Definition mem_snapshot (b : MemBackend) : result StateError (list N) :=
  let? es := mem_iter_all b in Ok (encode_entries es).

Definition mem_restore (b : MemBackend) (bytes : list N) : MemBackend * result StateError unit :=
  match decode_entries bytes with
  | Err e => (b, Err e)
  | Ok es => (mkMem (bt_of_list es), Ok tt)
  end.

#[export] Instance mem_backend : StateBackend MemBackend := {|
  be_new := mem_new;
  be_write := mem_write;
  be_visit_prefix := @mem_visit_prefix;
  be_get := mem_get;
  be_len := mem_len;
  be_iter_all := mem_iter_all;
  be_snapshot := mem_snapshot;
  be_restore := mem_restore
|}.

(** ** Prefix ranges *)

Lemma starts_with_app k p : starts_with k p = true <-> exists k', k = p ++ k'.
Proof.
  revert k. induction p as [|v p IH]; intros [|w k]; simpl; try (split; by eauto).
  { split; [done|]. by intros [? ?]. }
  rewrite andb_true_iff, cmp_eqb_eq, IH. split.
  - intros [-> [k' ->]]. eauto.
  - intros [k' [= -> ->]]. eauto.
Qed.

Lemma starts_with_cmp k p : starts_with k p = true -> cmp k p <> Lt.
Proof.
  intros [k' ->]%starts_with_app. unfold cmp, list_Cmp.
  rewrite <- (app_nil_r p) at 2. rewrite list_cmp_app_same. by destruct k'.
Qed.

(** Past the range of a prefix there is nothing more under it. *)
Lemma beyond_prefix k p k' :
  cmp k p <> Lt -> starts_with k p = false -> starts_with k' p = true -> cmp k' k = Lt.
Proof.
  intros Hge Hn [r ->]%starts_with_app. revert k Hge Hn. unfold cmp, list_Cmp.
  induction p as [|v p IH]; intros [|w k]; simpl; try done.
  intros Hge Hn. rewrite (cmp_antisym w v). unfold cmp_eqb in Hn.
  destruct (cmp w v) eqn:E; simpl in *; [by apply IH|done|done].
Qed.

Lemma under_beyond p l :
  bt_sorted l -> Forall (fun e : Key * Z => cmp e.1 p <> Lt) l ->
  match l with
  | e :: l' => starts_with e.1 p = false -> under p l = []
  | [] => True
  end.
Proof.
  destruct l as [|[k w] l]; [done|]. intros Hs Hge Hn. unfold under. simpl in *. rewrite Hn.
  apply bt_sorted_cons_inv in Hs as [_ Hall]. inversion Hge as [|?? Hk _]; subst. simpl in Hk.
  induction Hall as [|[k' w'] l Hlt _ IH]; [done|]. simpl in *.
  destruct (starts_with k' p) eqn:E.
  - pose proof (beyond_prefix _ _ _ Hk Hn E) as Hgt. by pose proof (cmp_lt_trans _ _ _ Hlt Hgt) as ?%cmp_lt_irrefl.
  - apply IH. by inversion Hge as [|?? ? Hge']; inversion Hge'; subst; constructor.
Qed.

Lemma mem_visit_spec {S} p (f : Visitor S) s l :
  bt_sorted l -> Forall (fun e : Key * Z => cmp e.1 p <> Lt) l ->
  mem_visit p f s l = visit f s (under p l).
Proof.
  revert s. induction l as [|[k w] l IH]; intros s Hs Hge; [done|].
  pose proof (under_beyond p _ Hs Hge) as Hb. cbn [mem_visit]. simpl fst in Hb.
  destruct (starts_with k p) eqn:E.
  - assert ((length k <? length p)%nat = false) as ->.
    { apply starts_with_app in E as [k' ->]. rewrite length_app. apply Nat.ltb_ge. lia. }
    unfold under. simpl. rewrite E. simpl. destruct (f s k w) as [s' []]; [|done].
    apply bt_sorted_cons_inv in Hs as [Hs _]. inversion Hge; subst. by apply IH.
  - rewrite orb_true_r, Hb by done. done.
Qed.

Lemma under_range_from p l :
  bt_sorted l -> under p (bt_range_from p l) = under p l.
Proof.
  induction l as [|[k w] l IH]; intros Hs; [done|]. simpl.
  apply bt_sorted_cons_inv in Hs as [Hs _].
  destruct (cmp k p) eqn:E; [done| |done]. rewrite (IH Hs).
  destruct (starts_with k p) eqn:Ek; [|done]. by apply starts_with_cmp in Ek.
Qed.

Lemma bt_range_from_ge (p : Key) (l : list (Key * Z)) :
  bt_sorted l -> bt_sorted (bt_range_from p l) /\
  Forall (fun e => cmp e.1 p <> Lt) (bt_range_from p l).
Proof.
  intros Hs. rewrite bt_range_from_filter by done. split; [by apply bt_sorted_filter|].
  apply Forall_forall. intros e He. by apply list_elem_of_filter in He as [].
Qed.

(** ** Writes *)

(** What staging has recorded after [done] additions. *)
Definition staged_ok (entries staged : btree Key Z) (added : list (Key * Z)) : Prop :=
  bt_sorted staged /\
  forall k, match bt_get k staged with
            | Some s => s = weight entries k + weight added k
            | None => weight added k = 0
            end.

Lemma stage_ok entries staged added add staged' :
  bt_sorted entries -> staged_ok entries staged added ->
  stage entries staged add = Ok staged' -> staged_ok entries staged' (added ++ [add]).
Proof.
  intros Hse [Hs Hw]. destruct add as [key w]. unfold stage.
  destruct (checked_add _ w) as [sum|] eqn:E; simpl; [|done]. intros [= <-].
  apply checked_add_Some in E as [-> _]. split; [by apply bt_insert_sorted|].
  intros k. rewrite bt_get_insert, weight_app. simpl. specialize (Hw k).
  case_cmp_eqb k key; [subst|by rewrite !Z.add_0_r].
  destruct (bt_get key staged); [lia|]. rewrite (weight_bt_get entries) by done. lia.
Qed.

Lemma stage_fold_ok entries batch staged added staged' :
  bt_sorted entries -> staged_ok entries staged added ->
  try_fold (stage entries) staged batch = Ok staged' ->
  staged_ok entries staged' (added ++ batch).
Proof.
  intros Hse. revert staged added. induction batch as [|e batch IH]; intros staged added Hok; cbn [try_fold].
  - rewrite app_nil_r. by intros [= <-].
  - destruct (stage entries staged e) as [s1|] eqn:E; [|done]. intros Hf.
    apply (stage_ok _ _ _ _ _ Hse Hok) in E. specialize (IH _ _ E Hf).
    by rewrite <- app_assoc in IH.
Qed.

Lemma apply_staged_canonical entries p : zcanonical entries -> zcanonical (apply_staged entries p).
Proof. apply (zset_to_canonical p.1 p.2). Qed.

Lemma apply_staged_fold entries staged :
  zcanonical entries -> bt_sorted staged ->
  zcanonical (fold_left apply_staged staged entries) /\
  forall k, weight (fold_left apply_staged staged entries) k =
    match bt_get k staged with Some s => s | None => weight entries k end.
Proof.
  revert entries. induction staged as [|[k1 s1] staged IH]; intros entries Hc Hs; [done|].
  apply bt_sorted_cons_inv in Hs as [Hs Hall]. cbn [fold_left].
  destruct (IH (apply_staged entries (k1, s1))) as [IHc IHw];
    [by apply apply_staged_canonical|done|]. split; [done|]. intros k. rewrite IHw.
  change (apply_staged entries (k1, s1)) with (zset_to k1 s1 entries).
  rewrite weight_zset_to by apply Hc. simpl. case_cmp_eqb k k1; [subst|done].
  by rewrite bt_get_below.
Qed.

Lemma mem_write_spec b batch :
  zcanonical (mem_entries b) ->
  zcanonical (mem_entries (mem_write b batch).1) /\
  match (mem_write b batch).2 with
  | Ok _ => mem_entries (mem_write b batch).1 ≡z mem_entries b ++ batch
  | Err _ => (mem_write b batch).1 = b
  end.
Proof.
  intros Hc. unfold mem_write.
  destruct (try_fold (stage (mem_entries b)) bt_empty batch) as [staged|] eqn:E; simpl; [|done].
  apply (stage_fold_ok _ _ _ []) in E as [Hs Hw]; [|apply Hc|by split; [constructor|]].
  destruct (apply_staged_fold _ _ Hc Hs) as [Hc' Hw']. split; [done|].
  intros k. rewrite Hw', weight_app. specialize (Hw k). simpl in Hw.
  destruct (bt_get k staged); lia.
Qed.

(** ** [MemBackend] keeps the laws *)

Definition mem_inv (b : MemBackend) : Prop := zcanonical (mem_entries b).

Lemma mem_visit_prefix_spec {S} b p (f : Visitor S) s :
  mem_inv b -> mem_visit_prefix b p f s = Ok (visit f s (under p (mem_entries b))).
Proof.
  intros [Hs _]. unfold mem_visit_prefix.
  destruct (bt_range_from_ge p _ Hs) as [Hrs Hrg].
  by rewrite mem_visit_spec, under_range_from.
Qed.

Lemma mem_restore_snapshot b b' bytes :
  mem_inv b -> forallb valid_entry (mem_entries b) = true ->
  Z.of_nat (length (mem_entries b)) < 2 ^ 64 -> mem_snapshot b = Ok bytes ->
  mem_restore b' bytes = (b, Ok tt).
Proof.
  intros [Hs _] Hv Hl [= <-]. unfold mem_restore.
  rewrite decode_encode_entries by done. rewrite bt_of_list_id by done. by destruct b.
Qed.

#[export] Instance mem_backend_laws : BackendLaws MemBackend.
Proof.
  refine {| be_inv := mem_inv; view := mem_entries |}; simpl.
  - done.
  - apply zcanonical_nil.
  - done.
  - intros b batch Hb. apply (mem_write_spec b batch Hb).
  - intros b batch Hb E. pose proof (proj2 (mem_write_spec b batch Hb)) as Hw. by rewrite E in Hw.
  - intros b batch e Hb E. pose proof (proj2 (mem_write_spec b batch Hb)) as Hw.
    rewrite E in Hw. by rewrite Hw.
  - intros S b p f s s' Hb. rewrite mem_visit_prefix_spec by done. by intros [= <-].
  - intros b k w _. unfold mem_get. by intros [= <-].
  - done.
  - intros b es _. unfold mem_iter_all. by intros [= <-].
  - intros b b' bytes Hb _ Hv Hl Hsn _. rewrite (mem_restore_snapshot b b' bytes) by done. done.
Defined.

(** Collecting with a visitor that never stops. *)
Lemma visit_collect acc l :
  visit (fun (entries : list (Key * Z)) k w => (entries ++ [(k, w)], true)) acc l = acc ++ l.
Proof.
  revert acc. induction l as [|[k w] l IH]; intros acc; simpl; [by rewrite app_nil_r|].
  by rewrite IH, <- app_assoc.
Qed.

(** ** When a write succeeds *)

Lemma stage_total entries staged added add :
  bt_sorted entries -> staged_ok entries staged added ->
  (forall k, Z.abs (weight entries k) + mass (added ++ [add]) <= i64_max) ->
  exists staged', stage entries staged add = Ok staged'.
Proof.
  intros Hse [_ Hw] Hb. destruct add as [key w]. unfold stage.
  specialize (Hw key). specialize (Hb key). rewrite mass_app, mass_cons in Hb.
  change (mass []) with 0 in Hb.
  pose proof (weight_mass added key). rewrite (weight_bt_get entries) in * by done.
  unfold checked_add, checked.
  rewrite (proj2 (in_i64_spec _)); simpl; [eauto|].
  destruct (bt_get key staged); unfold i64_min, i64_max in *; lia.
Qed.

Lemma stage_fold_total entries batch staged added :
  bt_sorted entries -> staged_ok entries staged added ->
  (forall k, Z.abs (weight entries k) + mass (added ++ batch) <= i64_max) ->
  exists staged', try_fold (stage entries) staged batch = Ok staged'.
Proof.
  intros Hse. revert staged added. induction batch as [|e batch IH]; intros staged added Hok Hb;
    cbn [try_fold]; [eauto|].
  destruct (stage_total entries staged added e Hse Hok) as [s1 E1].
  { intros k. specialize (Hb k). rewrite !mass_app in *. destruct e as [k' w'].
    rewrite mass_cons in *. pose proof (mass_nonneg batch). change (mass []) with 0. lia. }
  rewrite E1. apply (IH s1 (added ++ [e])); [by eapply stage_ok|].
  intros k. rewrite <- app_assoc. apply Hb.
Qed.

Lemma mem_write_total b batch :
  mem_inv b -> (forall k, Z.abs (weight (mem_entries b) k) + mass batch <= i64_max) ->
  (mem_write b batch).2 = Ok tt.
Proof.
  intros [Hs _] Hb. unfold mem_write.
  destruct (stage_fold_total (mem_entries b) batch bt_empty []) as [st ->]; try done.
  split; [constructor|done].
Qed.

(** ** Properties *)

(** A write to [MemBackend] is atomic and additive.  It keeps the store
    canonical (ordered, no zero weights); on success every key's weight has
    grown by exactly what the batch adds to it, on overflow the store is
    untouched; and it succeeds whenever the sums fit an [i64]. *)
Theorem mem_write_atomic (b : MemBackend) (batch : WriteBatch) :
  mem_inv b ->
  mem_inv (mem_write b batch).1 /\
  match (mem_write b batch).2 with
  | Ok _ => forall k, weight (mem_entries (mem_write b batch).1) k
                      = weight (mem_entries b) k + weight batch k
  | Err e => (mem_write b batch).1 = b /\
             e = StateWeightOverflow "adding a weight to operator state"
  end /\
  ((forall k, Z.abs (weight (mem_entries b) k) + mass batch <= i64_max) ->
   (mem_write b batch).2 = Ok tt).
Proof.
  intros Hb. destruct (mem_write_spec b batch Hb) as [Hc Hw]. split; [done|].
  split; [|by apply mem_write_total].
  destruct ((mem_write b batch).2) as [[]|e] eqn:E.
  - intros k. by rewrite Hw, weight_app.
  - split; [done|]. unfold mem_write in E.
    destruct (try_fold _ _ batch) as [st|e'] eqn:Ef; [done|]. injection E as <-.
    clear Hw Hc Hb. revert Ef. generalize (bt_empty : btree Key Z).
    induction batch as [|[k w] batch IH]; intros st; cbn [try_fold]; [done|].
    destruct (stage (mem_entries b) st (k, w)) eqn:Es; [apply IH|]. intros [= <-].
    unfold stage in Es. destruct (checked_add _ w); simpl in Es; [done|]. by injection Es.
Qed.

(** A prefix scan of [MemBackend] yields exactly the entries whose key starts
    with the prefix, in key order, although it only walks one contiguous range
    and stops at the first key outside it. *)
Theorem mem_scan_prefix (b : MemBackend) (prefix : Key) :
  mem_inv b ->
  scan_prefix b prefix = Ok (List.filter (fun e => starts_with e.1 prefix) (mem_entries b)).
Proof.
  intros Hb. unfold scan_prefix. simpl. rewrite mem_visit_prefix_spec by done.
  by rewrite visit_collect.
Qed.

(** ** Witnesses *)

Definition ex_mem : MemBackend := mkMem [([VInt 1; VStr "a"], 2); ([VInt 1; VStr "b"], -1); ([VInt 3], 5)].

Lemma ex_mem_inv : mem_inv ex_mem.
Proof. split; repeat constructor; simpl; lia. Qed.

Lemma mem_write_atomic_witness :
  (mem_write ex_mem [([VInt 1; VStr "a"], -2); ([VInt 0], 4)]).2 = Ok tt /\
  weight (mem_entries (mem_write ex_mem [([VInt 1; VStr "a"], -2); ([VInt 0], 4)]).1) [VInt 0] = 4.
Proof.
  split; [reflexivity|].
  exact (proj1 (proj2 (mem_write_atomic ex_mem [([VInt 1; VStr "a"], -2); ([VInt 0], 4)] ex_mem_inv)) [VInt 0]).
Defined.

Lemma mem_scan_prefix_witness :
  scan_prefix ex_mem [VInt 1] = Ok [([VInt 1; VStr "a"], 2); ([VInt 1; VStr "b"], -1)].
Proof. exact (mem_scan_prefix ex_mem [VInt 1] ex_mem_inv). Defined.
