(* ===== verification/Operator.v ===== *)
(** * The operator interface ([schweep-ops]: operator.rs, error.rs)

    What every operator of a circuit has in common: the two output streams of a
    step (the delta of the data and the delta of the live errors, S-22), the
    declared state bounds (I-9), and the [Operator] trait as a class. *)

From Stdlib Require Import ZArith Lia.
From stdpp Require Import base list strings pretty.
From S2P Require Import Prelude BTree ZAlg Value ZSet Plan Bind Codec State.

Inductive OpError :=
| OpPlan (e : PlanError)
| OpZSet (e : ZSetError)
| Arity (op : string) (expected found : nat)
| InputSchemaMismatch (op expected found : string)
| PredicateNotBoolean (op : string) (found : DataType)
| OpState (e : StateError)
| JoinKeyOutOfRange (side : string) (index : nat)
| JoinWeightOverflow
| CorruptJoinIndex
| CorruptAggregateState.

Definition ERROR_COLUMN : string := "error".

Definition error_schema : result OpError Schema :=
  map_err OpZSet (Schema_new [mkField ERROR_COLUMN Utf8 false]).

(** [error_row(&e)] for an evaluation error with message [m]. *)
Definition error_row (m : string) : Row := [VStr m].

Record StepOutput := mkStep { data : ZSetBatch; errors : ZSetBatch }.

Definition StepOutput_infallible (d : ZSetBatch) : result OpError StepOutput :=
  let? s := error_schema in
  let? e := map_err OpZSet (empty s) in
  Ok (mkStep d e).

Definition StepOutput_new (d : ZSetBatch) (error_entries : Entries) : result OpError StepOutput :=
  let? s := error_schema in
  let? e := map_err OpZSet (from_entries s error_entries) in
  Ok (mkStep d e).

Inductive StateBound :=
| Stateless
| ProportionalToInputs (inputs : list string) (factor constant : nat)
| Unbounded (reason : string).

Definition bound_to_string (b : StateBound) : string :=
  (match b with
   | Stateless => "stateless"
   | ProportionalToInputs inputs factor constant =>
       pretty constant +:+ " + " +:+ pretty factor +:+ "x proportional to " +:+ String.concat " + " inputs
   | Unbounded reason => "unbounded (" +:+ reason +:+ ")"
   end)%string.

Class Operator (Op : Type) := {
  op_name : Op -> string;
  op_arity : Op -> nat;
  op_output_schema : Op -> Schema;
  op_state_bound : Op -> StateBound;
  op_state_size : Op -> nat;
  op_backend_count : Op -> nat;
  op_step : Op -> list ZSetBatch -> Op * result OpError StepOutput;
  op_snapshot : Op -> result OpError (list N);
  op_restore : Op -> list N -> Op * result OpError unit
}.

Definition unary (op : string) (inputs : list ZSetBatch) : result OpError ZSetBatch :=
  match inputs with
  | [only] => Ok only
  | _ => Err (Arity op 1 (length inputs))
  end.

Definition check_schema (op : string) (expected : Schema) (input : ZSetBatch) : result OpError unit :=
  if decide (batch_schema input = expected) then Ok tt
  else Err (InputSchemaMismatch op (schema_to_string expected) (schema_to_string (batch_schema input))).

(** ** Steps as changes of an accumulated output

    An operator maps the accumulated inputs to an accumulated output.  A step
    is right when what it emits is exactly the change of that output. *)

(** [d] takes the accumulated output [before] to [after]. *)
Definition delta_ok (before d after : Entries) : Prop := before ++ d ≡z after.

Lemma StepOutput_new_Ok d es out :
  StepOutput_new d es = Ok out ->
  data out = d /\ batch_entries (errors out) = es.
Proof.
  unfold StepOutput_new, error_schema. simpl.
  destruct (from_entries _ es) as [e|] eqn:E; simpl; [|done]. intros [= <-].
  apply from_entries_inv in E as ->. done.
Qed.

Lemma StepOutput_infallible_Ok d out :
  StepOutput_infallible d = Ok out -> data out = d /\ batch_entries (errors out) = [].
Proof. apply (StepOutput_new_Ok d []). Qed.

(** Every message can be put in an error row. *)
Lemma StepOutput_new_total d es :
  Forall (fun e => exists m, e.1 = error_row m) es ->
  exists out, StepOutput_new d es = Ok out.
Proof.
  intros Hes. unfold StepOutput_new, error_schema. simpl.
  set (s := mkSchema [mkField ERROR_COLUMN Utf8 false]).
  assert (from_entries s es = Ok (mkBatch s es)) as ->; [|simpl; eauto].
  apply from_entries_Ok; [done|]. split; [done|].
  eapply Forall_impl; [exact Hes|]. intros [r w] [m Hm]. simpl in *. subst.
  repeat constructor.
Qed.

Lemma unary_Ok op inputs b : unary op inputs = Ok b -> inputs = [b].
Proof. unfold unary. destruct inputs as [|x [|]]; naive_solver. Qed.

Lemma check_schema_Ok op s b : check_schema op s b = Ok tt <-> batch_schema b = s.
Proof. unfold check_schema. case_decide; naive_solver. Qed.
