(* ===== verification/Linear.v ===== *)
(** * Linear operators ([schweep-ops]: linear.rs)

    [Filter] and [Project]: stateless, and linear in the input, so the output
    delta is the operator applied to the input delta.  A row that raises is
    dropped and its error recorded at the row's weight (S-22). *)

From Stdlib Require Import ZArith Lia.
From stdpp Require Import base list strings.
From S2P Require Import Prelude BTree ZAlg Value ZSet Plan Bind Codec State Operator.

(** ** [Filter] *)

Record Filter := mkFilter { filter_input_schema : Schema; predicate : Expr }.

Definition Filter_new (input_schema : Schema) (n : Naming) (p : Expr) : result OpError Filter :=
  let? ty := map_err OpPlan (type_of p (mkScope input_schema n)) in
  match ty with
  | Boolean => Ok (mkFilter input_schema p)
  | found => Err (PredicateNotBoolean "filter" found)
  end.

(** The loop body: kept entries and recorded errors so far. *)
Definition filter_body (f : Filter) (acc : Entries * Entries) (e : Row * Z) : result OpError (Entries * Entries) :=
  let '(kept, errs) := acc in
  let '(row, w) := e in
  match is_true (predicate f) row (filter_input_schema f) with
  | Ok true => Ok (kept ++ [(row, w)], errs)
  | Ok false => Ok (kept, errs)
  | Err x =>
      match evaluation_message x with
      | Some m => Ok (kept, errs ++ [(error_row m, w)])
      | None => Err (OpPlan x)
      end
  end.

Definition filter_run (f : Filter) (inputs : list ZSetBatch) : result OpError StepOutput :=
  let? input := unary "filter" inputs in
  check? check_schema "filter" (filter_input_schema f) input in
  let? es := map_err OpZSet (entries input) in
  let? '(kept, errs) := try_fold (filter_body f) ([], []) es in
  let? d := map_err OpZSet (from_entries (filter_input_schema f) kept) in
  StepOutput_new d errs.

#[export] Instance filter_operator : Operator Filter := {|
  op_name _ := "filter"%string;
  op_arity _ := 1%nat;
  op_output_schema := filter_input_schema;
  op_state_bound _ := Stateless;
  op_state_size _ := 0%nat;
  op_backend_count _ := 0%nat;
  op_step f inputs := (f, filter_run f inputs);
  op_snapshot _ := Ok [];
  op_restore f _ := (f, Ok tt)
|}.

(** ** [Project] *)

Record Project := mkProject {
  project_input_schema : Schema;
  project_output_schema : Schema;
  items : list (Named Expr)
}.

Definition Project_new (input_schema : Schema) (n : Naming) (its : list (Named Expr)) : result OpError Project :=
  let? out := map_err OpPlan (projection_schema (mkScope input_schema n) its) in
  Ok (mkProject input_schema out its).

(** The inner loop: the row's values, or the first evaluation error. *)
Fixpoint project_values (its : list (Named Expr)) (row : Row) (s : Schema) (values : Row)
    : result OpError (Row + string) :=
  match its with
  | [] => Ok (inl values)
  | item :: its' =>
      match eval (value item) row s with
      | Ok v => project_values its' row s (values ++ [v])
      | Err x =>
          match evaluation_message x with
          | Some m => Ok (inr m)
          | None => Err (OpPlan x)
          end
      end
  end.

Definition project_body (p : Project) (acc : Entries * Entries) (e : Row * Z) : result OpError (Entries * Entries) :=
  let '(projected, errs) := acc in
  let '(row, w) := e in
  let? r := project_values (items p) row (project_input_schema p) [] in
  match r with
  | inl values => Ok (projected ++ [(values, w)], errs)
  | inr m => Ok (projected, errs ++ [(error_row m, w)])
  end.

Definition project_run (p : Project) (inputs : list ZSetBatch) : result OpError StepOutput :=
  let? input := unary "project" inputs in
  check? check_schema "project" (project_input_schema p) input in
  let? es := map_err OpZSet (entries input) in
  let? '(projected, errs) := try_fold (project_body p) ([], []) es in
  let? batch := map_err OpZSet (from_entries (project_output_schema p) projected) in
  let? d := map_err OpZSet (consolidate batch) in
  StepOutput_new d errs.

#[export] Instance project_operator : Operator Project := {|
  op_name _ := "project"%string;
  op_arity _ := 1%nat;
  op_output_schema := project_output_schema;
  op_state_bound _ := Stateless;
  op_state_size _ := 0%nat;
  op_backend_count _ := 0%nat;
  op_step p inputs := (p, project_run p inputs);
  op_snapshot _ := Ok [];
  op_restore p _ := (p, Ok tt)
|}.

(** ** The linear maps they compute *)

(** What one row contributes to the data and to the live errors. *)
Definition filter_row (p : Expr) (s : Schema) (row : Row) : Entries :=
  match is_true p row s with Ok true => [(row, 1)] | _ => [] end.

Definition error_of {A} (r : result PlanError A) : Entries :=
  match r with
  | Ok _ => []
  | Err x => match evaluation_message x with Some m => [(error_row m, 1)] | None => [] end
  end.

Definition filter_error (p : Expr) (s : Schema) (row : Row) : Entries := error_of (is_true p row s).

Definition project_vals (its : list (Named Expr)) (row : Row) (s : Schema) : result PlanError Row :=
  try_map (fun item => eval (value item) row s) its.

Definition project_row (its : list (Named Expr)) (s : Schema) (row : Row) : Entries :=
  match project_vals its row s with Ok vs => [(vs, 1)] | Err _ => [] end.

Definition project_error (its : list (Named Expr)) (s : Schema) (row : Row) : Entries :=
  error_of (project_vals its row s).

(** ** The loops compute them *)

Lemma filter_fold_spec f es kept errs kept' errs' :
  try_fold (filter_body f) (kept, errs) es = Ok (kept', errs') ->
  kept' = kept ++ zbind (filter_row (predicate f) (filter_input_schema f)) es /\
  errs' = errs ++ zbind (filter_error (predicate f) (filter_input_schema f)) es.
Proof.
  revert kept errs. induction es as [|[row w] es IH]; intros kept errs; cbn [try_fold].
  - intros [= <- <-]. by rewrite !app_nil_r.
  - rewrite !zbind_cons. set (P := predicate f) in *. set (S := filter_input_schema f) in *.
    assert (filter_row P S row = match is_true P row S with Ok true => [(row, 1)] | _ => [] end) as -> by done.
    assert (filter_error P S row = error_of (is_true P row S)) as -> by done.
    unfold filter_body at 1. fold P S. destruct (is_true P row S) as [[]|x].
    + intros [-> ->]%IH. by rewrite zscale_single, <- app_assoc.
    + intros [-> ->]%IH. done.
    + simpl. destruct (evaluation_message x) as [m|]; [|done].
      intros [-> ->]%IH. by rewrite zscale_single, <- app_assoc.
Qed.

Lemma filter_run_spec f inputs out :
  filter_run f inputs = Ok out ->
  exists input, inputs = [input] /\ batch_schema input = filter_input_schema f /\
    data out = mkBatch (filter_input_schema f)
      (zbind (filter_row (predicate f) (filter_input_schema f)) (batch_entries input)) /\
    batch_entries (errors out)
      = zbind (filter_error (predicate f) (filter_input_schema f)) (batch_entries input).
Proof.
  unfold filter_run. destruct (unary _ inputs) as [input|] eqn:Eu; [|done].
  apply unary_Ok in Eu as ->. destruct (check_schema _ _ input) as [[]|] eqn:Ec; [|done].
  apply check_schema_Ok in Ec. simpl.
  destruct (try_fold _ _ _) as [[kept errs]|] eqn:Ef; [|done].
  apply filter_fold_spec in Ef as [-> ->].
  destruct (from_entries _ _) as [d|] eqn:Ed; simpl; [|done].
  apply from_entries_inv in Ed as ->. intros [-> ->]%StepOutput_new_Ok. eauto.
Qed.

Lemma project_values_spec its row s values :
  match project_values its row s values, project_vals its row s with
  | Ok (inl vs), Ok vs' => vs = values ++ vs'
  | Ok (inr m), Err x => evaluation_message x = Some m
  | Err y, Err x => y = OpPlan x /\ evaluation_message x = None
  | _, _ => False
  end.
Proof.
  revert values. unfold project_vals. induction its as [|item its IH]; intros values; simpl.
  - by rewrite app_nil_r.
  - destruct (eval (value item) row s) as [v|x] eqn:E.
    + specialize (IH (values ++ [v])).
      destruct (project_values its row s _) as [[]|], (try_map _ its); try done.
      by rewrite IH, <- app_assoc.
    + by destruct (evaluation_message x).
Qed.

Lemma project_fold_spec p es acc errs acc' errs' :
  try_fold (project_body p) (acc, errs) es = Ok (acc', errs') ->
  acc' = acc ++ zbind (project_row (items p) (project_input_schema p)) es /\
  errs' = errs ++ zbind (project_error (items p) (project_input_schema p)) es.
Proof.
  revert acc errs. induction es as [|[row w] es IH]; intros acc errs; cbn [try_fold].
  - intros [= <- <-]. by rewrite !app_nil_r.
  - rewrite !zbind_cons. set (T := items p) in *. set (S := project_input_schema p) in *.
    assert (project_row T S row = match project_vals T row S with Ok vs => [(vs, 1)] | Err _ => [] end) as -> by done.
    assert (project_error T S row = error_of (project_vals T row S)) as -> by done.
    unfold project_body at 1. fold T S.
    pose proof (project_values_spec T row S []) as Hv.
    destruct (project_values _ row _ []) as [[vs|m]|], (project_vals _ row _) as [vs'|x]; try done.
    + simpl in Hv. subst vs. intros [-> ->]%IH. by rewrite zscale_single, <- app_assoc.
    + simpl. rewrite Hv. intros [-> ->]%IH. by rewrite zscale_single, <- app_assoc.
Qed.

Lemma project_run_spec p inputs out :
  project_run p inputs = Ok out ->
  exists input, inputs = [input] /\ batch_schema input = project_input_schema p /\
    batch_schema (data out) = project_output_schema p /\
    batch_entries (data out)
      ≡z zbind (project_row (items p) (project_input_schema p)) (batch_entries input) /\
    batch_entries (errors out)
      = zbind (project_error (items p) (project_input_schema p)) (batch_entries input).
Proof.
  unfold project_run. destruct (unary _ inputs) as [input|] eqn:Eu; [|done].
  apply unary_Ok in Eu as ->. destruct (check_schema _ _ input) as [[]|] eqn:Ec; [|done].
  apply check_schema_Ok in Ec. simpl.
  destruct (try_fold _ _ _) as [[acc errs]|] eqn:Ef; [|done].
  apply project_fold_spec in Ef as [-> ->].
  destruct (from_entries _ _) as [b|] eqn:Eb; simpl; [|done].
  apply from_entries_inv in Eb as ->. unfold consolidate.
  destruct (consolidated_entries _) as [m|] eqn:Em; simpl; [|done].
  apply consolidated_entries_spec in Em as [_ Hm].
  destruct (from_entries _ m) as [d|] eqn:Ed; simpl; [|done].
  apply from_entries_inv in Ed as ->. intros [-> ->]%StepOutput_new_Ok.
  exists input. split_and!; try done.
Qed.

(** ** On valid input they do not fail *)

(** A batch whose every row conforms to [s], with [i64] values. *)
Definition batch_ok (s : Schema) (b : ZSetBatch) : Prop :=
  batch_schema b = s /\ fields s <> [] /\ Forall (fun e => row_ok s e.1) (batch_entries b).


Lemma error_of_messages {A} (r : result PlanError A) :
  Forall (fun e : Row * Z => exists m, e.1 = error_row m) (error_of r).
Proof.
  destruct r as [|x]; simpl; [constructor|].
  destruct (evaluation_message x); repeat constructor. eauto.
Qed.

Lemma zbind_Forall {K L} (P : L -> Prop) (f : K -> list (L * Z)) es :
  (forall k w, (k, w) ∈ es -> Forall (fun e => P e.1) (f k)) ->
  Forall (fun e => P e.1) (zbind f es).
Proof.
  induction es as [|[k w] es IH]; intros Hf; [constructor|]. rewrite zbind_cons, Forall_app. split.
  - apply Forall_map. eapply Forall_impl; [apply (Hf k w); by left|]. done.
  - apply IH. intros k' w' Hin. apply (Hf k' w'). by right.
Qed.

(** A row contributing at most one unit entry keeps the mass bounded. *)
Lemma zbind_mass {K L} (f : K -> list (L * Z)) es :
  (forall k w, (k, w) ∈ es -> mass (f k) <= 1) -> mass (zbind f es) <= mass es.
Proof.
  induction es as [|[k w] es IH]; intros Hf; [done|]. rewrite zbind_cons, mass_app, mass_cons.
  assert (mass (zscale w (f k)) = Z.abs w * mass (f k)) as ->.
  { generalize (f k). induction l as [|[l0 x] l IHl]; [change (mass (@nil (L * Z))) with 0; simpl; change (mass (@nil (L * Z))) with 0; lia|].
    cbn [zscale map fst snd]. rewrite !mass_cons. fold (zscale w l). rewrite IHl, Z.abs_mul. lia. }
  specialize (Hf k w ltac:(by left)) as Hk.
  assert (mass (zbind f es) <= mass es) by (apply IH; intros k' w' Hin; apply (Hf k' w'); by right).
  pose proof (mass_nonneg (f k)). nia.
Qed.

Lemma filter_fold_total f n es acc :
  type_of (predicate f) (mkScope (filter_input_schema f) n) = Ok Boolean ->
  literals_in_range (predicate f) = true ->
  Forall (fun e => row_ok (filter_input_schema f) e.1) es ->
  exists acc', try_fold (filter_body f) acc es = Ok acc'.
Proof.
  intros Hty Hlit Hall. revert acc. induction Hall as [|[row w] es Hrow _ IH]; intros [kept errs]; cbn [try_fold]; [eauto|].
  unfold filter_body at 1. unfold is_true.
  pose proof (eval_typed _ (mkScope (filter_input_schema f) n) row _ Hrow Hlit Hty) as Hs. simpl in Hs.
  destruct (eval (predicate f) row (filter_input_schema f)) as [v|x].
  - destruct (match as_bool v with Some true => true | _ => false end); apply IH.
  - apply evaluation_message_Some in Hs as [m ->]. apply IH.
Qed.

Lemma filter_row_In p s row w es :
  (row, w) ∈ zbind (filter_row p s) es -> row ∈ map fst es.
Proof.
  induction es as [|[r v] es IH]; [by inversion 1|]. rewrite zbind_cons, elem_of_app.
  intros [Hin|Hin]; [|right; auto]. unfold filter_row in Hin.
  destruct (is_true p r s) as [[]|]; simpl in Hin; try by inversion Hin.
  apply list_elem_of_singleton in Hin as [= -> _]. by left.
Qed.

Lemma filter_data_ok s p es :
  Forall (fun e => row_ok s e.1) es -> Forall (fun e => row_ok s e.1) (zbind (filter_row p s) es).
Proof.
  intros Hall. apply zbind_Forall. intros k w Hin. rewrite Forall_forall in Hall.
  specialize (Hall _ Hin). unfold filter_row.
  destruct (is_true p k s) as [[]|]; [by apply Forall_singleton|apply Forall_nil_2..].
Qed.

Lemma rows_conform s es :
  Forall (fun e : Row * Z => row_ok s e.1) es -> Forall (fun e => conforms s e.1) es.
Proof. intros H. eapply Forall_impl; [exact H|]. by intros e []. Qed.

Lemma filter_run_total f n input :
  type_of (predicate f) (mkScope (filter_input_schema f) n) = Ok Boolean ->
  literals_in_range (predicate f) = true -> batch_ok (filter_input_schema f) input ->
  exists out, filter_run f [input] = Ok out /\ batch_ok (filter_input_schema f) (data out).
Proof.
  intros Hty Hlit (Hs & Hne & Hall). unfold filter_run. simpl.
  rewrite (proj2 (check_schema_Ok _ _ _) Hs).
  destruct (filter_fold_total f n (batch_entries input) ([], []) Hty Hlit Hall) as [[kept errs] E].
  rewrite E. apply filter_fold_spec in E as [-> ->]. simpl.
  pose proof (filter_data_ok _ (predicate f) _ Hall) as Hd.
  rewrite (proj2 (from_entries_Ok _ _ (mkBatch _ _) Hne) (conj eq_refl (rows_conform _ _ Hd))). simpl.
  edestruct StepOutput_new_total as [out Hout]; [|exists out; split; [exact Hout|]].
  - apply (zbind_Forall (fun r => exists m, r = error_row m)). intros k w _. apply error_of_messages.
  - apply StepOutput_new_Ok in Hout as [-> _]. done.
Qed.

Lemma project_fold_total p n es acc :
  Forall2 (typed_output (mkScope (project_input_schema p) n)) (items p) (fields (project_output_schema p)) ->
  items_in_range (items p) = true ->
  Forall (fun e => row_ok (project_input_schema p) e.1) es ->
  (exists acc', try_fold (project_body p) acc es = Ok acc') /\
  Forall (fun e => row_ok (project_output_schema p) e.1)
    (zbind (project_row (items p) (project_input_schema p)) es).
Proof.
  intros Hty Hlit Hall. split.
  - revert acc. induction Hall as [|[row w] es Hrow _ IH]; intros [pr errs]; cbn [try_fold]; [eauto|].
    unfold project_body at 1. simpl in Hrow.
    pose proof (items_typed _ _ _ _ Hty Hlit Hrow) as Hs. simpl in Hs.
    pose proof (project_values_spec (items p) row (project_input_schema p) []) as Hv.
    unfold project_vals in Hv.
    destruct (project_values _ row _ []) as [[vs|m]|x], (try_map _ (items p)) as [vs'|y]; try done; try apply IH.
    destruct Hv as [_ Hv]. apply evaluation_message_Some in Hs as [m Hm]. congruence.
  - apply zbind_Forall. intros k w Hin. rewrite Forall_forall in Hall. specialize (Hall _ Hin).
    unfold project_row. pose proof (items_typed _ _ _ k Hty Hlit Hall) as Hs. simpl in Hs.
    unfold project_vals. destruct (try_map _ (items p)); [|apply Forall_nil_2].
    apply Forall_singleton. apply Hs.
Qed.

Lemma project_run_total p n input :
  projection_schema (mkScope (project_input_schema p) n) (items p) = Ok (project_output_schema p) ->
  items_in_range (items p) = true -> batch_ok (project_input_schema p) input ->
  mass (batch_entries input) <= i64_max ->
  exists out, project_run p [input] = Ok out /\ batch_ok (project_output_schema p) (data out).
Proof.
  intros (Hty & Hne & _)%projection_schema_Ok Hlit (Hs & _ & Hall) Hm. unfold project_run. simpl.
  rewrite (proj2 (check_schema_Ok _ _ _) Hs).
  destruct (project_fold_total p n (batch_entries input) ([], []) Hty Hlit Hall) as [[[pr errs] E] Hd].
  rewrite E. apply project_fold_spec in E as [-> ->]. simpl.
  set (es := zbind (project_row (items p) (project_input_schema p)) (batch_entries input)) in *.
  rewrite (proj2 (from_entries_Ok _ _ (mkBatch _ _) Hne) (conj eq_refl (rows_conform _ _ Hd))). simpl.
  rewrite consolidate_Ok by (split; [done|by apply rows_conform]).
  destruct (consolidated_entries_total (mkBatch (project_output_schema p) es)) as [m Em].
  { simpl. etrans; [apply zbind_mass|done]. intros k w _. unfold project_row.
    destruct (project_vals (items p) k _); [|done]. done. }
  rewrite Em. simpl.
  edestruct StepOutput_new_total as [out Hout]; [|exists out; split; [exact Hout|]].
  - apply (zbind_Forall (fun r => exists m, r = error_row m)). intros k w _. apply error_of_messages.
  - apply StepOutput_new_Ok in Hout as [-> _]. split_and!; [done..|]. simpl.
    by apply (consolidated_entries_incl _ (mkBatch (project_output_schema p) es)).
Qed.

Lemma Filter_new_Ok s n p f :
  Filter_new s n p = Ok f -> f = mkFilter s p /\ type_of p (mkScope s n) = Ok Boolean.
Proof.
  unfold Filter_new. destruct (type_of p (mkScope s n)) as [[]|]; simpl; try done. by intros [= <-].
Qed.

Lemma Project_new_Ok s n its p :
  Project_new s n its = Ok p ->
  project_input_schema p = s /\ items p = its /\
  projection_schema (mkScope s n) its = Ok (project_output_schema p).
Proof.
  unfold Project_new. destruct (projection_schema (mkScope s n) its); simpl; [|done]. by intros [= <-].
Qed.

(** ** Properties *)

(** A filter that was accepted never fails on a valid delta.  It emits
    exactly the entries whose predicate is TRUE, weights and signs untouched,
    and one live error per entry whose predicate raised, at that entry's
    weight; entries that are FALSE or NULL give nothing (S-17, S-22, S-24). *)
Theorem filter_step_correct (s : Schema) (n : Naming) (p : Expr) (f : Filter) (input : ZSetBatch) :
  Filter_new s n p = Ok f -> literals_in_range p = true -> batch_ok s input ->
  exists out, op_step f [input] = (f, Ok out) /\ batch_ok s (data out) /\
    batch_entries (data out) = zbind (filter_row p s) (batch_entries input) /\
    batch_entries (errors out) = zbind (filter_error p s) (batch_entries input).
Proof.
  intros [-> Hty]%Filter_new_Ok Hlit Hok.
  destruct (filter_run_total (mkFilter s p) n input Hty Hlit Hok) as (out & E & Hout).
  exists out. simpl. rewrite E. split; [done|]. split; [done|].
  apply filter_run_spec in E as (i & [= <-] & _ & -> & ->). done.
Qed.

(** A projection that was accepted never fails on a valid delta of
    representable mass.  Its output conforms to the projection's schema,
    denotes the image of the delta (rows that become equal have their weights
    added), and a row any of whose columns raises is replaced by its first
    error at the row's weight (S-22, S-25). *)
Theorem project_step_correct (s : Schema) (n : Naming) (its : list (Named Expr)) (p : Project)
    (input : ZSetBatch) :
  Project_new s n its = Ok p -> items_in_range its = true -> batch_ok s input ->
  mass (batch_entries input) <= i64_max ->
  exists out, op_step p [input] = (p, Ok out) /\ batch_ok (project_output_schema p) (data out) /\
    batch_entries (data out) ≡z zbind (project_row its s) (batch_entries input) /\
    batch_entries (errors out) = zbind (project_error its s) (batch_entries input).
Proof.
  intros (<- & <- & Hsch)%Project_new_Ok Hlit Hok Hm.
  destruct (project_run_total p n input Hsch Hlit Hok Hm) as (out & E & Hout).
  exists out. simpl. rewrite E. split; [done|]. split; [done|].
  apply project_run_spec in E as (i & [= <-] & _ & _ & ? & ?). done.
Qed.

(** ** Witnesses *)

Definition ex_lin_schema : Schema := mkSchema [mkField "t.a" Int64 true].
Definition ex_lin_input : ZSetBatch :=
  mkBatch ex_lin_schema [([VInt 0], 2); ([VInt 5], -1); ([VNull], 1)].
(** [10 / t.a > 1]: division by zero on the first row, TRUE on the second, NULL
    on the third. *)
Definition ex_lin_pred : Expr :=
  EBinary BGt (EBinary BDiv (ELiteral (VInt 10)) (EColumn "t.a")) (ELiteral (VInt 1)).

Lemma ex_lin_input_ok : batch_ok ex_lin_schema ex_lin_input.
Proof. split; [done|]. split; [done|]. repeat constructor. Qed.

Lemma filter_step_correct_witness :
  exists out, op_step (mkFilter ex_lin_schema ex_lin_pred) [ex_lin_input]
    = (mkFilter ex_lin_schema ex_lin_pred, Ok out) /\
    batch_entries (data out) = [([VInt 5], -1)] /\
    batch_entries (errors out) = [([VStr "division by zero in / (S-21)"], 2)].
Proof.
  destruct (filter_step_correct ex_lin_schema Qualified ex_lin_pred
    (mkFilter ex_lin_schema ex_lin_pred) ex_lin_input eq_refl eq_refl ex_lin_input_ok)
    as (out & E & _ & Hd & He).
  exists out. split; [exact E|]. split; [exact Hd|exact He].
Defined.

Definition ex_lin_items : list (Named Expr) :=
  [mkNamed "q" (EBinary BDiv (ELiteral (VInt 10)) (EColumn "t.a"))].

Lemma project_step_correct_witness :
  exists out, op_step (mkProject ex_lin_schema (mkSchema [mkField "q" Int64 true]) ex_lin_items) [ex_lin_input]
    = (mkProject ex_lin_schema (mkSchema [mkField "q" Int64 true]) ex_lin_items, Ok out) /\
    batch_entries (data out) ≡z [([VInt 2], -1); ([VNull], 1)].
Proof.
  destruct (project_step_correct ex_lin_schema Qualified ex_lin_items
    (mkProject ex_lin_schema (mkSchema [mkField "q" Int64 true]) ex_lin_items) ex_lin_input
    eq_refl eq_refl ex_lin_input_ok ltac:(vm_compute; discriminate)) as (out & E & _ & Hd & _).
  exists out. split; [exact E|exact Hd].
Defined.
