(* ===== verification/Distinct.v ===== *)
(** * [DISTINCT] ([schweep-ops]: distinct.rs)

    The operator keeps the integral of its input, one entry per distinct row,
    and emits the change of each row's presence (S-34). *)

From Stdlib Require Import ZArith Lia.
From stdpp Require Import base list strings.
From S2P Require Import Prelude BTree ZAlg Value ZSet Plan Bind Codec State Operator Linear.

Record Distinct (B : Type) := mkDistinct { distinct_schema : Schema; distinct_state : B }.
Arguments mkDistinct {B} _ _.
Arguments distinct_schema {B} _.
Arguments distinct_state {B} _.

(** Presence: weight above zero. *)
Definition sign (weight : Z) : Z := if weight >? 0 then 1 else 0.

Section distinct.
Context {B : Type} `{StateBackend B}.

Definition Distinct_new (schema : Schema) (state : B) : Distinct B := mkDistinct schema state.

(** The loop body: output entries and write batch so far. *)
Definition distinct_body (state : B) (acc : Entries * WriteBatch) (e : Row * Z)
    : result OpError (Entries * WriteBatch) :=
  let '(out, batch) := acc in
  let '(row, delta) := e in
  let key := row in
  let? stored := map_err OpState (be_get state key) in
  let before := default 0 stored in
  let? after := ok_or (checked_add before delta) JoinWeightOverflow in
  let change := sign after - sign before in
  Ok (if negb (change =? 0) then out ++ [(row, change)] else out, batch ++ [(key, delta)]).

(** Everything up to the write: it reads the state and changes nothing. *)
Definition distinct_prepare (d : Distinct B) (inputs : list ZSetBatch) : result OpError (Entries * WriteBatch) :=
  let? input := unary "distinct" inputs in
  check? check_schema "distinct" (distinct_schema d) input in
  let? consolidated := map_err OpZSet (consolidate input) in
  let? es := map_err OpZSet (entries consolidated) in
  try_fold (distinct_body (distinct_state d)) ([], []) es.

Definition distinct_step (d : Distinct B) (inputs : list ZSetBatch) : Distinct B * result OpError StepOutput :=
  match distinct_prepare d inputs with
  | Err e => (d, Err e)
  | Ok (out, batch) =>
      let '(state', w) := be_write (distinct_state d) batch in
      let d' := mkDistinct (distinct_schema d) state' in
      (d',
       check? map_err OpState w in
       let? b := map_err OpZSet (from_entries (distinct_schema d) out) in
       StepOutput_infallible b)
  end.

#[export] Instance distinct_operator : Operator (Distinct B) := {|
  op_name _ := "distinct"%string;
  op_arity _ := 1%nat;
  op_output_schema := distinct_schema;
  op_state_bound _ := ProportionalToInputs ["input"%string] 1 0;
  op_state_size d := be_len (distinct_state d);
  op_backend_count _ := 1%nat;
  op_step := distinct_step;
  op_snapshot d := map_err OpState (be_snapshot (distinct_state d));
  op_restore d bytes :=
    let '(state', r) := be_restore (distinct_state d) bytes in
    (mkDistinct (distinct_schema d) state', map_err OpState r)
|}.
End distinct.

(** ** The function it maintains *)

(** Every present row once. *)
Definition zdistinct (I : Entries) : Entries :=
  map (fun k => (k, sign (weight I k))) (zsupport I).

Section support.
Context {K : Type} `{LinearCmp K}.

Lemma zdedup_spec (l : list K) : NoDup (zdedup l) /\ forall k, k ∈ zdedup l <-> k ∈ l.
Proof.
  induction l as [|x l [IHn IHi]]; simpl; [split; [constructor|done]|]. split.
  - constructor.
    + rewrite list_elem_of_In, filter_In. intros [_ Hx]. by rewrite cmp_eqb_refl in Hx.
    + apply NoDup_ListNoDup, List.NoDup_filter, NoDup_ListNoDup, IHn.
  - intros k. rewrite !elem_of_cons, <- IHi, !list_elem_of_In, filter_In.
    case_cmp_eqb x k; simpl; [subst; naive_solver|].
    split; [naive_solver|]. intros [->|?]; [by left|]. by right.
Qed.

(** The weight of a list with one entry per key of a duplicate-free list. *)
Lemma weight_map_nodup (g : K -> Z) l k :
  NoDup l -> weight (map (fun k => (k, g k)) l) k = if existsb (cmp_eqb k) l then g k else 0.
Proof.
  induction 1 as [|x l Hx Hn IH]; simpl; [done|]. rewrite IH.
  case_cmp_eqb k x; simpl; [|done]. subst.
  destruct (existsb (cmp_eqb x) l) eqn:E; [|lia].
  apply existsb_exists in E as (y & Hy & Heq). apply cmp_eqb_eq in Heq as <-.
  by apply list_elem_of_In in Hy.
Qed.

Lemma existsb_cmp_eqb k (l : list K) : existsb (cmp_eqb k) l = true <-> k ∈ l.
Proof.
  rewrite existsb_exists, list_elem_of_In. split.
  - intros (y & Hy & Heq). by apply cmp_eqb_eq in Heq as <-.
  - intros Hk. exists k. split; [done|]. apply cmp_eqb_refl.
Qed.

(** A function of a key's weight that vanishes at zero, summed over the
    support. *)
Lemma weight_over_support (g : K -> Z) (es : list (K * Z)) k :
  (weight es k = 0 -> g k = 0) ->
  weight (map (fun k => (k, g k)) (zsupport es)) k = g k.
Proof.
  intros Hg. unfold zsupport. destruct (zdedup_spec (map fst es)) as [Hn Hi].
  rewrite weight_map_nodup by done. destruct (existsb (cmp_eqb k) _) eqn:E; [done|].
  symmetry. apply Hg, weight_not_in. rewrite <- Hi, <- existsb_cmp_eqb. by rewrite E.
Qed.
End support.

Lemma weight_zdistinct I k : weight (zdistinct I) k = sign (weight I k).
Proof. apply (weight_over_support (fun k => sign (weight I k))). by intros ->. Qed.

#[export] Instance zdistinct_proper : Proper (zeq ==> zeq) zdistinct.
Proof. intros a b Hab k. by rewrite !weight_zdistinct, Hab. Qed.

(** ** Correctness *)

Section distinct_correct.
Context {B : Type} `{BackendLaws B}.

(** The state is the integral of the input. *)
Definition distinct_inv (d : Distinct B) (I : Entries) : Prop :=
  be_inv (distinct_state d) /\ view (distinct_state d) ≡z I.

Lemma distinct_body_spec state out batch row delta out' batch' :
  be_inv state ->
  distinct_body state (out, batch) (row, delta) = Ok (out', batch') ->
  batch' = batch ++ [(row, delta)] /\
  out' ≡z out ++ [(row, sign (weight (view state) row + delta) - sign (weight (view state) row))].
Proof.
  intros Hb. unfold distinct_body.
  destruct (be_get state row) as [stored|] eqn:Eg; simpl; [|done].
  apply get_ok in Eg as ->; [|done].
  rewrite (weight_bt_get (view state)) by apply (view_canonical _ Hb).
  destruct (checked_add _ delta) as [after|] eqn:Ea; simpl; [|done].
  apply checked_add_Some in Ea as [-> _]. intros [= <- <-]. split; [done|].
  destruct (Z.eqb_spec (sign (default 0 (bt_get row (view state)) + delta)
    - sign (default 0 (bt_get row (view state)))) 0) as [->|]; simpl; [|done].
  intros k. rewrite weight_app. simpl. destruct (cmp_eqb k row); lia.
Qed.

Lemma distinct_fold_spec state es out batch out' batch' :
  be_inv state ->
  try_fold (distinct_body state) (out, batch) es = Ok (out', batch') ->
  batch' = batch ++ es /\
  out' ≡z out ++ map (fun e => (e.1, sign (weight (view state) e.1 + e.2)
                                     - sign (weight (view state) e.1))) es.
Proof.
  intros Hb. revert out batch. induction es as [|[row delta] es IH]; intros out batch; cbn [try_fold].
  - intros [= <- <-]. by rewrite !app_nil_r.
  - destruct (distinct_body state (out, batch) (row, delta)) as [[o1 b1]|] eqn:E; [|done].
    apply distinct_body_spec in E as [-> Ho]; [|done]. intros [-> Hz]%IH. split.
    + by rewrite <- app_assoc.
    + rewrite Hz, Ho, <- app_assoc. done.
Qed.

(** One entry per key of a map, whatever its weight is turned into. *)
Lemma weight_map_sorted {K} `{LinearCmp K} (g : K -> Z -> Z) (es : list (K * Z)) k :
  bt_sorted es ->
  weight (map (fun e => (e.1, g e.1 e.2)) es) k = match bt_get k es with Some w => g k w | None => 0 end.
Proof.
  induction es as [|[k' w] es IH]; simpl; intros Hs; [done|].
  apply bt_sorted_cons_inv in Hs as [Hs Hall]. rewrite (IH Hs).
  case_cmp_eqb k k'; [|done]. subst. rewrite bt_get_below by done. lia.
Qed.

Lemma sign_change_spec (v c : list (Row * Z)) :
  zcanonical c ->
  zdistinct v ++ map (fun e => (e.1, sign (weight v e.1 + e.2) - sign (weight v e.1))) c
  ≡z zdistinct (v ++ c).
Proof.
  intros [Hs _] k.
  rewrite weight_app, (weight_map_sorted (fun k w => sign (weight v k + w) - sign (weight v k))) by done.
  rewrite !weight_zdistinct, weight_app, (weight_bt_get c) by done.
  destruct (bt_get k c); simpl; [lia|]. by rewrite !Z.add_0_r.
Qed.

Lemma distinct_step_spec d I inputs d' out :
  distinct_inv d I -> distinct_step d inputs = (d', Ok out) ->
  exists input, inputs = [input] /\ batch_schema input = distinct_schema d /\
    distinct_schema d' = distinct_schema d /\
    distinct_inv d' (I ++ batch_entries input) /\
    batch_schema (data out) = distinct_schema d /\
    zdistinct I ++ batch_entries (data out) ≡z zdistinct (I ++ batch_entries input) /\
    batch_entries (errors out) = [].
Proof.
  intros [Hb Hv]. unfold distinct_step, distinct_prepare.
  destruct (unary _ inputs) as [input|] eqn:Eu; [|done]. apply unary_Ok in Eu as ->.
  destruct (check_schema _ _ input) as [[]|] eqn:Ec; [|done]. apply check_schema_Ok in Ec.
  unfold consolidate. destruct (consolidated_entries input) as [c|] eqn:Econ; [|done].
  apply consolidated_entries_spec in Econ as [Hcan Hceq].
  destruct (from_entries _ c) as [cb|] eqn:Ecb; [|done]. apply from_entries_inv in Ecb as ->.
  cbn [map_err entries batch_entries].
  destruct (try_fold _ _ c) as [[o b]|] eqn:Ef; [|done].
  apply distinct_fold_spec in Ef as [-> Ho]; [|done]. simpl app in *.
  destruct (be_write (distinct_state d) c) as [st w] eqn:Ew.
  intros [= <- Hres]. destruct w as [[]|]; simpl in Hres; [|done].
  destruct (from_entries (distinct_schema d) o) as [ob|] eqn:Eo; simpl in Hres; [|done].
  apply from_entries_inv in Eo as ->. apply StepOutput_infallible_Ok in Hres as [-> ->].
  pose proof (write_inv (distinct_state d) c Hb) as Hb'.
  pose proof (write_ok (distinct_state d) c Hb) as Hv'. rewrite Ew in Hb', Hv'. simpl in *. specialize (Hv' eq_refl).
  exists input. split_and!; try done.
  - split; [done|]. simpl. by rewrite Hv', Hv, Hceq.
  - rewrite Ho, <- Hv, sign_change_spec by done. by rewrite Hceq.
Qed.
End distinct_correct.

(** ** Over memory the step succeeds *)

Section total.
Context (d : Distinct MemBackend) (I : Entries).
Context (Hinv : distinct_inv d I).

Lemma distinct_fold_total es acc :
  (forall k w, (k, w) ∈ es -> Z.abs (weight I k) + Z.abs w <= i64_max) ->
  exists acc', try_fold (distinct_body (distinct_state d)) acc es = Ok acc'.
Proof.
  revert acc. destruct Hinv as [Hb Hv].
  induction es as [|[row w] es IH]; intros [out batch] Hes; cbn [try_fold]; [eauto|].
  unfold distinct_body at 1. simpl. rewrite <- weight_bt_get by apply Hb.
  pose proof (Hv row) as Hrow. simpl in Hrow. rewrite Hrow.
  specialize (Hes row w ltac:(by left)) as Hw.
  unfold checked_add, checked. rewrite (proj2 (in_i64_spec _)) by (unfold i64_min, i64_max in *; lia).
  simpl. apply IH. intros k' w' Hin. apply Hes. by right.
Qed.

Lemma distinct_fold_rows (P : Row -> Prop) es acc acc' :
  Forall (fun e => P e.1) es -> Forall (fun e => P e.1) acc.1 ->
  try_fold (distinct_body (distinct_state d)) acc es = Ok acc' -> Forall (fun e => P e.1) acc'.1.
Proof.
  intros Hes Hacc. apply (try_fold_inv (fun a => Forall (fun e => P e.1) a.1)); [|done].
  intros [out batch] [row w] [out' batch'] Hin Ho. rewrite Forall_forall in Hes.
  specialize (Hes _ Hin). unfold distinct_body. simpl.
  destruct (checked_add _ w); simpl; [|done]. intros [= <- <-]. simpl.
  destruct (negb _); [|done]. rewrite Forall_app. split; [done|]. by apply Forall_singleton.
Qed.

Lemma distinct_step_total input :
  batch_ok (distinct_schema d) input ->
  (forall k, Z.abs (weight I k) + mass (batch_entries input) <= i64_max) ->
  exists d' out, distinct_step d [input] = (d', Ok out) /\ batch_ok (distinct_schema d) (data out).
Proof.
  intros (Hs & Hne & Hall) Hm. destruct Hinv as [Hb Hv].
  destruct (consolidated_entries_total input) as [c Ec]; [specialize (Hm []); lia|].
  pose proof (consolidated_entries_mass _ _ Ec) as Hmc.
  pose proof (consolidated_entries_incl _ _ _ Hall Ec) as Hrows.
  unfold distinct_step, distinct_prepare. cbn [unary]. rewrite (proj2 (check_schema_Ok _ _ _) Hs).
  rewrite consolidate_Ok, Ec by (split; [by rewrite Hs|rewrite Hs; by apply rows_conform]).
  cbn [map_ok map_err entries batch_entries].
  destruct (distinct_fold_total c ([], [])) as [[out batch] Ef].
  { intros k w Hin%mass_In. specialize (Hm k). lia. }
  rewrite Ef. pose proof (distinct_fold_rows _ _ ([], []) _ Hrows (Forall_nil_2 _) Ef) as Hout.
  apply distinct_fold_spec in Ef as [-> _]; [|done].
  assert ((be_write (distinct_state d) c).2 = Ok tt) as Hw.
  { apply mem_write_total; [done|]. intros k. specialize (Hm k).
    pose proof (Hv k) as Hk. simpl in Hk. rewrite Hk. lia. }
  simpl app. destruct (be_write (distinct_state d) c) as [st w]. simpl in Hw, Hout. subst w.
  eexists _, (mkStep (mkBatch (distinct_schema d) out) _). cbn [map_err].
  rewrite (proj2 (from_entries_Ok _ _ (mkBatch _ _) Hne) (conj eq_refl (rows_conform _ _ Hout))).
  split; [done|]. done.
Qed.
End total.

(** ** Properties *)

(** [DISTINCT] maintains the set of present rows.  Whatever the backend, a
    successful step takes the state from the integral of the past input to the
    integral including the delta, and what it emits is exactly the change of
    "each row of positive weight, once"; it never raises a live error
    (S-34). *)
Theorem distinct_step_correct {B} `{BackendLaws B} (d d' : Distinct B) (I : Entries)
    (input : ZSetBatch) (out : StepOutput) :
  distinct_inv d I -> op_step d [input] = (d', Ok out) ->
  distinct_inv d' (I ++ batch_entries input) /\
  (forall row, weight (batch_entries (data out)) row
     = sign (weight (I ++ batch_entries input) row) - sign (weight I row)) /\
  batch_entries (errors out) = [].
Proof.
  intros Hinv Hstep. destruct (distinct_step_spec _ _ _ _ _ Hinv Hstep)
    as (i & [= <-] & _ & _ & Hinv' & _ & Hz & He).
  split_and!; [done| |done]. intros row. specialize (Hz row).
  rewrite weight_app, !weight_zdistinct in Hz. lia.
Qed.

(** Over the in-memory backend a [DISTINCT] step on a valid delta succeeds
    whenever the accumulated weights fit an [i64], and its output conforms to
    the input's schema. *)
Theorem distinct_step_succeeds (d : Distinct MemBackend) (I : Entries) (input : ZSetBatch) :
  distinct_inv d I -> batch_ok (distinct_schema d) input ->
  (forall k, Z.abs (weight I k) + mass (batch_entries input) <= i64_max) ->
  exists d' out, op_step d [input] = (d', Ok out) /\ batch_ok (distinct_schema d) (data out).
Proof. intros Hinv. exact (distinct_step_total d I Hinv input). Qed.

(** ** Witnesses *)

Definition ex_distinct : Distinct MemBackend :=
  mkDistinct ex_lin_schema (mkMem [([VInt 1], 2)]).
Definition ex_distinct_input : ZSetBatch := mkBatch ex_lin_schema [([VInt 1], -2); ([VNull], 3)].

Lemma ex_distinct_inv : distinct_inv ex_distinct [([VInt 1], 1); ([VInt 1], 1)].
Proof.
  split; [split; repeat constructor; simpl; lia|]. intros k. simpl.
  destruct (cmp_eqb k [VInt 1]); lia.
Qed.

Lemma distinct_step_correct_witness :
  exists d' out, op_step ex_distinct [ex_distinct_input] = (d', Ok out) /\
    weight (batch_entries (data out)) [VInt 1] = -1 /\ weight (batch_entries (data out)) [VNull] = 1.
Proof.
  eexists _, _. split; [reflexivity|].
  pose proof (proj1 (proj2 (distinct_step_correct ex_distinct _ _ ex_distinct_input _
    ex_distinct_inv eq_refl))) as Hw.
  split; [exact (Hw [VInt 1])|exact (Hw [VNull])].
Defined.

Lemma distinct_step_succeeds_witness :
  exists d' out, op_step ex_distinct [ex_distinct_input] = (d', Ok out) /\
    batch_ok ex_lin_schema (data out).
Proof.
  apply (distinct_step_succeeds ex_distinct _ ex_distinct_input ex_distinct_inv).
  - split; [done|]. split; [done|]. repeat constructor.
  - intros k. pose proof (weight_mass [([VInt 1], 1); ([VInt 1], 1)] k) as Hk.
    change (mass [([VInt 1], 1); ([VInt 1], 1)]) with 2 in Hk.
    change (mass (batch_entries ex_distinct_input)) with 5. unfold i64_max. lia.
Defined.
