(* ===== verification/Join.v ===== *)
(** * The incremental equi-join ([schweep-ops]: join.rs)

    Both sides' integrals are indexed by [key values ++ row values]; a step
    probes them as they were before the epoch (three terms) and only then
    integrates the deltas. *)

From Stdlib Require Import ZArith Lia.
From stdpp Require Import base list strings.
From S2P Require Import Prelude BTree ZAlg Value ZSet Plan Bind Codec State Operator Linear.

Record Join (B : Type) := mkJoin {
  left_schema : Schema;
  right_schema : Schema;
  join_output_schema : Schema;
  left_key : list nat;
  right_key : list nat;
  left_index : B;
  right_index : B
}.
Arguments mkJoin {B} _ _ _ _ _ _ _.
Arguments left_schema {B} _.
Arguments right_schema {B} _.
Arguments join_output_schema {B} _.
Arguments left_key {B} _.
Arguments right_key {B} _.
Arguments left_index {B} _.
Arguments right_index {B} _.

(** One key pair of [Join::new]'s loop. *)
Definition check_key_columns (ls rs : Schema) (p : nat * nat) : result OpError unit :=
  let? lf := ok_or (fields ls !! p.1) (JoinKeyOutOfRange "left" p.1) in
  let? rf := ok_or (fields rs !! p.2) (JoinKeyOutOfRange "right" p.2) in
  if decide (field_type lf = field_type rf) then Ok tt
  else Err (OpPlan (TypeMismatch "join key =" (field_type lf) (field_type rf))).

Definition Join_new {B} (ls rs : Schema) (on : list (nat * nat)) (li ri : B) : result OpError (Join B) :=
  match on with
  | [] => Err (OpPlan CrossJoinNotSupported)
  | _ =>
      check? try_for (check_key_columns ls rs) on in
      let? out := map_err OpZSet (Schema_new (fields ls ++ fields rs)) in
      Ok (mkJoin ls rs out (map fst on) (map snd on) li ri)
  end.

(** The key values of a row; [None] when one is null or missing. *)
Fixpoint key_of (row : Row) (positions : list nat) : option (list Value) :=
  match positions with
  | [] => Some []
  | p :: ps =>
      match row_get row p with
      | None | Some VNull => None
      | Some v => match key_of row ps with Some k => Some (v :: k) | None => None end
      end
  end.

Definition index_key (key : list Value) (row : Row) : Key := key ++ row.

Definition row_from_index_key (key : Key) (key_len : nat) : result OpError Row :=
  if (key_len <=? length key)%nat then Ok (drop key_len key) else Err CorruptJoinIndex.

Definition joined (l : Row) (lw : Z) (r : Row) (rw : Z) : result OpError (Row * Z) :=
  let? w := ok_or (checked_mul lw rw) JoinWeightOverflow in Ok (l ++ r, w).

(** The index key a row is stored under; null-keyed rows under an all-null key. *)
Definition stored_key (positions : list nat) (row : Row) : Key :=
  index_key (default (map (fun _ => VNull) positions) (key_of row positions)) row.

(** A probe's visitor: entries pushed so far and the failure that stopped it. *)
Definition probe_visitor (key_len : nat) (pair : Row -> Z -> result OpError (Row * Z))
    : Visitor (Entries * option OpError) :=
  fun s k w =>
    let '(out, _) := s in
    match (let? row := row_from_index_key k key_len in pair row w) with
    | Ok e => ((out ++ [e], None), true)
    | Err e => ((out, Some e), false)
    end.

Section join.
Context {B : Type} `{StateBackend B}.

(** One row of a delta against the other side's index. *)
Definition probe (index : B) (key_len : nat) (positions : list nat)
    (pair : Row -> Z -> Row -> Z -> result OpError (Row * Z)) (out : Entries) (e : Row * Z)
    : result OpError Entries :=
  match key_of e.1 positions with
  | None => Ok out
  | Some key =>
      let? '(out', failure) :=
        map_err OpState (be_visit_prefix index key (probe_visitor key_len (pair e.1 e.2)) (out, None)) in
      match failure with Some x => Err x | None => Ok out' end
  end.

(** Term 3: one pair of delta rows. *)
Definition pair_deltas (lk rk : list nat) (out : Entries) (p : (Row * Z) * (Row * Z)) : result OpError Entries :=
  let '((l, lw), (r, rw)) := p in
  match key_of l lk with
  | None => Ok out
  | Some kl =>
      match key_of r rk with
      | None => Ok out
      | Some kr => if cmp_eqb kl kr then let? e := joined l lw r rw in Ok (out ++ [e]) else Ok out
      end
  end.

(** The three terms, all against the integrals as they were. *)
Definition join_terms (j : Join B) (ls rs : Entries) : result OpError Entries :=
  let key_len := length (left_key j) in
  let? out1 := try_fold (probe (right_index j) key_len (left_key j)
                 (fun l lw r rw => joined l lw r rw)) [] ls in
  let? out2 := try_fold (probe (left_index j) key_len (right_key j)
                 (fun r rw l lw => joined l lw r rw)) out1 rs in
  try_fold (pair_deltas (left_key j) (right_key j)) out2
    (flat_map (fun l => map (fun r => (l, r)) rs) ls).

Definition index_batch (positions : list nat) (es : Entries) : WriteBatch :=
  map (fun e => (stored_key positions e.1, e.2)) es.

Definition integrate (j : Join B) (ls rs : Entries) : Join B * result OpError unit :=
  let '(li, wl) := be_write (left_index j) (index_batch (left_key j) ls) in
  let j1 := mkJoin (left_schema j) (right_schema j) (join_output_schema j)
              (left_key j) (right_key j) li (right_index j) in
  match wl with
  | Err e => (j1, Err (OpState e))
  | Ok _ =>
      let '(ri, wr) := be_write (right_index j) (index_batch (right_key j) rs) in
      (mkJoin (left_schema j) (right_schema j) (join_output_schema j)
         (left_key j) (right_key j) li ri, map_err OpState wr)
  end.

Definition join_inputs (j : Join B) (inputs : list ZSetBatch) : result OpError (Entries * Entries) :=
  match inputs with
  | [l; r] =>
      check? check_schema "join (left)" (left_schema j) l in
      check? check_schema "join (right)" (right_schema j) r in
      let? ls := map_err OpZSet (entries l) in
      let? rs := map_err OpZSet (entries r) in
      Ok (ls, rs)
  | _ => Err (Arity "join" 2 (length inputs))
  end.

Definition join_step (j : Join B) (inputs : list ZSetBatch) : Join B * result OpError StepOutput :=
  match (let? '(ls, rs) := join_inputs j inputs in
         let? out := join_terms j ls rs in Ok (ls, rs, out)) with
  | Err e => (j, Err e)
  | Ok (ls, rs, out) =>
      let '(j', w) := integrate j ls rs in
      (j',
       check? w in
       let? batch := map_err OpZSet (from_entries (join_output_schema j) out) in
       let? d := map_err OpZSet (consolidate batch) in
       StepOutput_infallible d)
  end.

Definition state_entries (j : Join B) : nat := (be_len (left_index j) + be_len (right_index j))%nat.

(** A length-prefixed block and what follows it. *)
Definition split_prefixed (bytes : list N) : result OpError (list N * list N) :=
  let? '(len_raw, rest) := ok_or (split_at 4 bytes) CorruptJoinIndex in
  ok_or (split_at (Z.to_nat (from_be_bytes len_raw)) rest) CorruptJoinIndex.

Definition join_snapshot (j : Join B) : result OpError (list N) :=
  let? l := map_err OpState (be_snapshot (left_index j)) in
  let? r := map_err OpState (be_snapshot (right_index j)) in
  Ok (be_bytes 4 (Z.of_nat (length l)) ++ l ++ be_bytes 4 (Z.of_nat (length r)) ++ r).

Definition join_restore (j : Join B) (bytes : list N) : Join B * result OpError unit :=
  match (let? '(l, rest) := split_prefixed bytes in
         let? '(r, _) := split_prefixed rest in Ok (l, r)) with
  | Err e => (j, Err e)
  | Ok (l, r) =>
      let '(li, wl) := be_restore (left_index j) l in
      match wl with
      | Err e => (mkJoin (left_schema j) (right_schema j) (join_output_schema j)
                    (left_key j) (right_key j) li (right_index j), Err (OpState e))
      | Ok _ =>
          let '(ri, wr) := be_restore (right_index j) r in
          (mkJoin (left_schema j) (right_schema j) (join_output_schema j)
             (left_key j) (right_key j) li ri, map_err OpState wr)
      end
  end.

#[export] Instance join_operator : Operator (Join B) := {|
  op_name _ := "join"%string;
  op_arity _ := 2%nat;
  op_output_schema := join_output_schema;
  op_state_bound _ := ProportionalToInputs ["left"%string; "right"%string] 1 0;
  op_state_size := state_entries;
  op_backend_count _ := 2%nat;
  op_step := join_step;
  op_snapshot := join_snapshot;
  op_restore := join_restore
|}.
End join.

(** ** The function it maintains *)

Definition keys_equal (lk rk : list nat) (l r : Row) : bool :=
  match key_of l lk, key_of r rk with
  | Some a, Some b => cmp_eqb a b
  | _, _ => false
  end.

Definition join_row (lk rk : list nat) (l r : Row) : Entries :=
  if keys_equal lk rk l r then [(l ++ r, 1)] else [].

(** Every matching pair, concatenated, at the product of the weights. *)
Definition zjoin (lk rk : list nat) (L R : Entries) : Entries :=
  zbind (fun l => zbind (join_row lk rk l) R) L.

Section bilinear.
Context (lk rk : list nat).

#[export] Instance zjoin_proper : Proper (zeq ==> zeq ==> zeq) (zjoin lk rk).
Proof.
  intros L L' HL R R' HR. unfold zjoin. rewrite HL. apply zbind_ext. intros l _. by rewrite HR.
Qed.

Lemma zjoin_app_l L L' R : zjoin lk rk (L ++ L') R = zjoin lk rk L R ++ zjoin lk rk L' R.
Proof. apply zbind_app. Qed.

Lemma zjoin_app_r L R R' : zjoin lk rk L (R ++ R') ≡z zjoin lk rk L R ++ zjoin lk rk L R'.
Proof.
  unfold zjoin. rewrite <- zbind_plus. apply zbind_ext. intros l _. by rewrite zbind_app.
Qed.

(** The derivation the operator implements: the change of a bilinear map has
    three terms. *)
Lemma zjoin_delta L dL R dR :
  zjoin lk rk (L ++ dL) (R ++ dR)
  ≡z zjoin lk rk L R ++ (zjoin lk rk dL R ++ zjoin lk rk L dR ++ zjoin lk rk dL dR).
Proof.
  rewrite zjoin_app_l, !zjoin_app_r. intros k. rewrite !weight_app. lia.
Qed.

(** Summing over the right side first. *)
Lemma zjoin_swap L R : zjoin lk rk L R ≡z zbind (fun r => zbind (fun l => join_row lk rk l r) L) R.
Proof.
  intros k. unfold zjoin. rewrite !weight_bind.
  rewrite (wsum_ext _ (fun l => wsum (fun r => weight (join_row lk rk l r) k) R)).
  2: { intros l w _. by rewrite weight_bind. }
  rewrite wsum_exchange. apply wsum_ext. intros r w _. by rewrite weight_bind.
Qed.
End bilinear.

(** ** Index keys *)

Lemma key_of_length row ps k : key_of row ps = Some k -> length k = length ps.
Proof.
  revert k. induction ps as [|p ps IH]; intros k; simpl; [by intros [= <-]|].
  destruct (row_get row p) as [[]|]; try done; destruct (key_of row ps); try done;
    intros [= <-]; simpl; f_equal; auto.
Qed.

Lemma key_of_not_null row ps k : key_of row ps = Some k -> Forall (fun v => v <> VNull) k.
Proof.
  revert k. induction ps as [|p ps IH]; intros k; simpl; [by intros [= <-]|].
  destruct (row_get row p) as [[]|]; try done; destruct (key_of row ps); try done;
    intros [= <-]; constructor; auto.
Qed.

Lemma stored_key_length ps row : length (stored_key ps row) = (length ps + length row)%nat.
Proof.
  unfold stored_key, index_key. rewrite length_app. f_equal.
  destruct (key_of row ps) as [k|] eqn:E; simpl; [by apply key_of_length in E|by rewrite length_map].
Qed.

Lemma stored_key_drop ps row : drop (length ps) (stored_key ps row) = row.
Proof.
  unfold stored_key, index_key. apply drop_app_length'.
  destruct (key_of row ps) as [k|] eqn:E; simpl; [by apply key_of_length in E|by rewrite length_map].
Qed.

Lemma starts_with_same_length (a b k : Key) :
  length a = length k -> starts_with (a ++ b) k = cmp_eqb a k.
Proof.
  revert k. induction a as [|x a IH]; intros [|y k] Hl; simpl in *; try done; try lia.
  by rewrite IH, cmp_eqb_cons by lia.
Qed.

(** A probe with a non-null key finds exactly the rows with that key. *)
Lemma stored_key_probe ps row k :
  ps <> [] -> length k = length ps -> Forall (fun v => v <> VNull) k ->
  starts_with (stored_key ps row) k
  = match key_of row ps with Some k' => cmp_eqb k' k | None => false end.
Proof.
  intros Hps Hl Hnn. unfold stored_key, index_key.
  destruct (key_of row ps) as [k'|] eqn:E; simpl.
  - apply starts_with_same_length. apply key_of_length in E. congruence.
  - rewrite starts_with_same_length by (by rewrite length_map).
    destruct ps as [|p ps]; [done|]. destruct k as [|v k]; [done|]. simpl.
    apply cmp_eqb_neq. intros [= Hv _]. inversion Hnn. congruence.
Qed.

Lemma index_batch_zbind ps es : index_batch ps es = zbind (fun r => [(stored_key ps r, 1)]) es.
Proof. apply (map_zbind (stored_key ps)). Qed.

#[export] Instance index_batch_proper ps : Proper (zeq ==> zeq) (index_batch ps).
Proof. intros a b Hab. rewrite !index_batch_zbind. by rewrite Hab. Qed.

Lemma index_batch_app ps a b : index_batch ps (a ++ b) = index_batch ps a ++ index_batch ps b.
Proof. apply map_app. Qed.

(** ** The probes *)

Lemma joined_Ok l lw r rw e : joined l lw r rw = Ok e -> e = (l ++ r, lw * rw).
Proof.
  unfold joined. destruct (checked_mul lw rw) as [w|] eqn:E; simpl; [|done].
  apply checked_mul_Some in E as [-> _]. by intros [= <-].
Qed.

(** A visit that did not fail has paired every entry it was shown. *)
Lemma visit_probe n pair (comb : Row -> Row) (c : Z) out l out' :
  (forall r w e, pair r w = Ok e -> e = (comb r, c * w)) ->
  visit (probe_visitor n pair) (out, None) l = (out', None) ->
  out' = out ++ zscale c (map (fun e => (comb (drop n e.1), e.2)) l).
Proof.
  intros Hpair. revert out. induction l as [|[k w] l IH]; intros out; simpl.
  - intros [= <-]. by rewrite app_nil_r.
  - unfold row_from_index_key. destruct (n <=? length k)%nat; [|by intros [=]].
    destruct (pair (drop n k) w) as [e|] eqn:E; [|by intros [=]].
    apply Hpair in E as ->. intros ->%IH. by rewrite <- app_assoc.
Qed.

Lemma under_zbind p es : under p es = zbind (fun k => if starts_with k p then [(k, 1)] else []) es.
Proof.
  induction es as [|[k w] es IH]; [done|]. rewrite zbind_cons. unfold under. simpl.
  destruct (starts_with k p); [rewrite zscale_single; simpl; by f_equal|done].
Qed.

Section join_correct.
Context {B : Type} `{BackendLaws B}.

(** An index holds the integral [I] of a side, keyed by [ps]. *)
Definition index_inv (ps : list nat) (index : B) (I : Entries) : Prop :=
  be_inv index /\ view index ≡z index_batch ps I.

Lemma probe_spec index ps ps' n pair comb out e I out' :
  index_inv ps' index I -> ps' <> [] -> length ps = length ps' -> n = length ps' ->
  (forall l lw r rw x, pair l lw r rw = Ok x -> x = (comb l r, lw * rw)) ->
  probe index n ps pair out e = Ok out' ->
  out' ≡z out ++ zscale e.2 (zbind (fun r => if keys_equal ps ps' e.1 r then [(comb e.1 r, 1)] else []) I).
Proof.
  intros [Hb Hv] Hne Hlen -> Hpair. unfold probe, keys_equal. destruct e as [l lw]. simpl.
  destruct (key_of l ps) as [key|] eqn:Ek.
  2: { intros [= <-]. rewrite zbind_nil_f. simpl. by rewrite app_nil_r. }
  destruct (be_visit_prefix _ _ _ _) as [[o failure]|] eqn:Ev; simpl; [|done].
  destruct failure; [done|]. intros [= <-].
  apply visit_ok in Ev; [|done]. symmetry in Ev. apply (visit_probe _ _ (comb l) lw) in Ev as ->; [|auto].
  apply zeq_app; [done|]. apply zeq_scale.
  rewrite (map_zbind (fun k => comb l (drop (length ps') k))), under_zbind, zbind_zbind, Hv.
  rewrite index_batch_zbind, zbind_zbind. apply zbind_ext. intros r _.
  rewrite zbind_single, stored_key_probe; [|done|..].
  - destruct (key_of r ps') as [k'|]; [|done].
    assert (cmp_eqb key k' = cmp_eqb k' key) as ->.
    { unfold cmp_eqb. rewrite (cmp_antisym k' key). by destruct (cmp k' key). }
    destruct (cmp_eqb k' key); [|done]. rewrite zbind_single. by rewrite stored_key_drop.
  - apply key_of_length in Ek. congruence.
  - by apply key_of_not_null in Ek.
Qed.

Lemma probe_fold_spec index ps ps' n pair comb out es I out' :
  index_inv ps' index I -> ps' <> [] -> length ps = length ps' -> n = length ps' ->
  (forall l lw r rw x, pair l lw r rw = Ok x -> x = (comb l r, lw * rw)) ->
  try_fold (probe index n ps pair) out es = Ok out' ->
  out' ≡z out ++ zbind (fun l => zbind (fun r =>
    if keys_equal ps ps' l r then [(comb l r, 1)] else []) I) es.
Proof.
  intros Hi Hne Hlen Hn Hpair. revert out. induction es as [|e es IH]; intros out; cbn [try_fold].
  - intros [= <-]. by rewrite app_nil_r.
  - destruct (probe index n ps pair out e) as [o1|] eqn:E; [|done]. intros Hf%IH.
    apply (probe_spec _ _ _ _ _ _ _ _ _ _ Hi Hne Hlen Hn Hpair) in E.
    rewrite Hf, E. destruct e as [l lw]. rewrite zbind_cons, <- app_assoc. done.
Qed.

Lemma pair_fold_spec lk rk ps out out' :
  try_fold (pair_deltas lk rk) out ps = Ok out' ->
  out' = out ++ flat_map (fun p => zscale (p.1.2 * p.2.2) (join_row lk rk p.1.1 p.2.1)) ps.
Proof.
  revert out. induction ps as [|[[l lw] [r rw]] ps IH]; intros out; cbn [try_fold flat_map].
  - intros [= <-]. by rewrite app_nil_r.
  - unfold pair_deltas at 1. unfold join_row, keys_equal. cbn [fst snd].
    destruct (key_of l lk) as [kl|]; [|apply IH].
    destruct (key_of r rk) as [kr|]; [|apply IH].
    destruct (cmp_eqb kl kr); [|apply IH].
    destruct (joined l lw r rw) as [e|] eqn:E; [|done]. apply joined_Ok in E as ->.
    intros ->%IH. rewrite <- app_assoc, zscale_single. done.
Qed.

Lemma pairs_zjoin lk rk ls rs :
  flat_map (fun p : (Row * Z) * (Row * Z) => zscale (p.1.2 * p.2.2) (join_row lk rk p.1.1 p.2.1))
    (flat_map (fun l => map (fun r => (l, r)) rs) ls) = zjoin lk rk ls rs.
Proof.
  unfold zjoin. induction ls as [|[l lw] ls IH]; [done|].
  cbn [flat_map]. rewrite flat_map_app, zbind_cons, IH. f_equal.
  rewrite zscale_zbind. clear IH. induction rs as [|[r rw] rs IHr]; [done|].
  cbn [map flat_map fst snd]. rewrite zbind_cons, IHr. f_equal.
  unfold zscale. rewrite map_map. apply map_ext. intros [x w]. cbn [fst snd]. f_equal. lia.
Qed.

(** The three terms together. *)
Lemma join_terms_spec j L R ls rs out :
  index_inv (left_key j) (left_index j) L -> index_inv (right_key j) (right_index j) R ->
  left_key j <> [] -> length (left_key j) = length (right_key j) ->
  join_terms j ls rs = Ok out ->
  out ≡z zjoin (left_key j) (right_key j) ls R ++ zjoin (left_key j) (right_key j) L rs
         ++ zjoin (left_key j) (right_key j) ls rs.
Proof.
  intros Hl Hr Hne Hlen. unfold join_terms.
  assert (right_key j <> []) as Hne' by (intros E; rewrite E in Hlen; by destruct (left_key j)).
  destruct (try_fold _ [] ls) as [o1|] eqn:E1; [|done].
  destruct (try_fold _ o1 rs) as [o2|] eqn:E2; [|done]. intros E3.
  apply (probe_fold_spec _ _ (right_key j) _ _ (fun l r => l ++ r) _ _ R) in E1;
    [|done..|intros; by apply joined_Ok].
  apply (probe_fold_spec _ _ (left_key j) _ _ (fun r l => l ++ r) _ _ L) in E2; [|done..|].
  2: { intros r rw l lw x Hx%joined_Ok. by rewrite Z.mul_comm. }
  apply pair_fold_spec in E3. rewrite pairs_zjoin in E3. subst out. rewrite E2, E1, <- app_assoc.
  apply zeq_app; [done|]. apply zeq_app; [|done].
  rewrite zjoin_swap. apply zbind_ext. intros r _. apply zbind_ext. intros l _.
  unfold join_row. assert (keys_equal (right_key j) (left_key j) r l
    = keys_equal (left_key j) (right_key j) l r) as ->; [|done].
  unfold keys_equal. destruct (key_of r _) as [a|], (key_of l _) as [b|]; try done.
  unfold cmp_eqb. rewrite (cmp_antisym b a). by destruct (cmp b a).
Qed.

(** ** Integration *)

(** The indexes hold the integrals of both sides, and the keys are usable. *)
Definition join_inv (j : Join B) (L R : Entries) : Prop :=
  index_inv (left_key j) (left_index j) L /\ index_inv (right_key j) (right_index j) R /\
  left_key j <> [] /\ length (left_key j) = length (right_key j).

Definition same_join (j j' : Join B) : Prop :=
  left_schema j' = left_schema j /\ right_schema j' = right_schema j /\
  join_output_schema j' = join_output_schema j /\
  left_key j' = left_key j /\ right_key j' = right_key j.

Lemma index_write ps index I es :
  index_inv ps index I -> (be_write index (index_batch ps es)).2 = Ok tt ->
  index_inv ps (be_write index (index_batch ps es)).1 (I ++ es).
Proof.
  intros [Hb Hv] Hw. split; [by apply write_inv|].
  rewrite write_ok by done. by rewrite Hv, index_batch_app.
Qed.

Lemma integrate_spec j L R ls rs j' :
  join_inv j L R -> integrate j ls rs = (j', Ok tt) ->
  join_inv j' (L ++ ls) (R ++ rs) /\ same_join j j'.
Proof.
  intros (Hl & Hr & Hne & Hlen). unfold integrate.
  pose proof (index_write _ _ _ ls Hl) as Hl'. pose proof (index_write _ _ _ rs Hr) as Hr'.
  destruct (be_write (left_index j) _) as [li [[]|]]; [|done].
  destruct (be_write (right_index j) _) as [ri [[]|]]; [|done].
  intros [= <-]. split; [|done]. simpl in *. split_and!; auto.
Qed.

Lemma join_step_spec j L R inputs j' out :
  join_inv j L R -> join_step j inputs = (j', Ok out) ->
  exists l r, inputs = [l; r] /\ batch_schema l = left_schema j /\ batch_schema r = right_schema j /\
    same_join j j' /\ join_inv j' (L ++ batch_entries l) (R ++ batch_entries r) /\
    batch_schema (data out) = join_output_schema j /\
    zjoin (left_key j) (right_key j) L R ++ batch_entries (data out)
      ≡z zjoin (left_key j) (right_key j) (L ++ batch_entries l) (R ++ batch_entries r) /\
    batch_entries (errors out) = [].
Proof.
  intros Hinv. unfold join_step, join_inputs.
  destruct inputs as [|l [|r [|]]]; try done.
  destruct (check_schema _ _ l) as [[]|] eqn:El; [|done]. apply check_schema_Ok in El.
  destruct (check_schema _ _ r) as [[]|] eqn:Er; [|done]. apply check_schema_Ok in Er.
  cbn [map_err entries].
  destruct (join_terms j (batch_entries l) (batch_entries r)) as [o|] eqn:Et; [|done].
  destruct Hinv as (Hl & Hr & Hne & Hlen).
  apply (join_terms_spec _ L R _ _ _ Hl Hr Hne Hlen) in Et.
  destruct (integrate j _ _) as [j1 w] eqn:Ei. intros [= <- Hres].
  destruct w as [[]|]; [|done].
  destruct (integrate_spec j L R _ _ _ ltac:(done) Ei) as [Hinv' Hsame].
  destruct (from_entries _ o) as [b|] eqn:Eb; simpl in Hres; [|done].
  apply from_entries_inv in Eb as ->. unfold consolidate in Hres.
  destruct (consolidated_entries _) as [c|] eqn:Ec; simpl in Hres; [|done].
  apply consolidated_entries_spec in Ec as [_ Hc].
  destruct (from_entries _ c) as [d|] eqn:Ed; simpl in Hres; [|done].
  apply from_entries_inv in Ed as ->. apply StepOutput_infallible_Ok in Hres as [-> ->].
  exists l, r. split_and!; try done. simpl. rewrite Hc. simpl. rewrite Et. by rewrite zjoin_delta.
Qed.
End join_correct.

(** ** Construction and snapshots *)

Lemma Join_new_inv {B} `{BackendLaws B} ls rs on (li ri : B) j :
  Join_new ls rs on li ri = Ok j ->
  be_inv li -> view li = [] -> be_inv ri -> view ri = [] ->
  join_inv j [] [] /\ left_key j = map fst on /\ right_key j = map snd on /\
  left_schema j = ls /\ right_schema j = rs /\ on <> [] /\
  Schema_new (fields ls ++ fields rs) = Ok (join_output_schema j).
Proof.
  unfold Join_new. destruct on as [|p on]; [done|].
  destruct (try_for _ _); [|done]. destruct (Schema_new _) as [s|]; simpl; [|done].
  intros [= <-] Hl Hvl Hr Hvr. simpl. split_and!; try done.
  - split_and!; simpl; try done; [split; [done|]; by rewrite ?Hvl, ?Hvr..|by rewrite !length_map].
Qed.

#[local] Opaque be_bytes.

Lemma split_prefixed_app block rest :
  Z.of_nat (length block) < 2 ^ 32 ->
  split_prefixed (be_bytes 4 (Z.of_nat (length block)) ++ block ++ rest) = Ok (block, rest).
Proof.
  intros Hl. unfold split_prefixed. rewrite split_at_app by apply be_bytes_length. cbn [ok_or].
  rewrite from_be_be_bytes, Z.mod_small, Nat2Z.id by (change (256 ^ Z.of_nat 4) with (2 ^ 32); lia).
  by rewrite split_at_app.
Qed.

(** ** Properties *)

(** The incremental join is right.  Whatever the backends, when the indexes
    hold the integrals [L] and [R] of the two sides, a successful step leaves
    them holding the integrals including both deltas, and what it emits is
    exactly the change of the join of the integrals: every pair of rows whose
    keys are equal and non-null, at the product of their weights, whatever the
    signs (D-3, S-26). *)
Theorem join_step_correct {B} `{BackendLaws B} (j j' : Join B) (L R : Entries)
    (l r : ZSetBatch) (out : StepOutput) :
  join_inv j L R -> op_step j [l; r] = (j', Ok out) ->
  join_inv j' (L ++ batch_entries l) (R ++ batch_entries r) /\
  batch_entries (errors out) = [] /\
  zjoin (left_key j) (right_key j) L R ++ batch_entries (data out)
    ≡z zjoin (left_key j) (right_key j) (L ++ batch_entries l) (R ++ batch_entries r).
Proof.
  intros Hinv Hstep. destruct (join_step_spec _ _ _ _ _ _ Hinv Hstep)
    as (l' & r' & [= <- <-] & _ & _ & _ & Hinv' & _ & Hz & He). done.
Qed.

(** A join's snapshot restores it: restoring the bytes of one join's
    snapshot into another join over the same columns gives a join with exactly
    the first one's indexes. *)
Theorem join_snapshot_roundtrip (j k : Join MemBackend) (bytes : list N) :
  mem_inv (left_index j) -> mem_inv (right_index j) ->
  forallb valid_entry (mem_entries (left_index j)) = true ->
  forallb valid_entry (mem_entries (right_index j)) = true ->
  Z.of_nat (length (encode_entries (mem_entries (left_index j)))) < 2 ^ 32 ->
  Z.of_nat (length (encode_entries (mem_entries (right_index j)))) < 2 ^ 32 ->
  Z.of_nat (length (mem_entries (left_index j))) < 2 ^ 64 ->
  Z.of_nat (length (mem_entries (right_index j))) < 2 ^ 64 ->
  op_snapshot j = Ok bytes ->
  (op_restore k bytes).2 = Ok tt /\
  left_index (op_restore k bytes).1 = left_index j /\
  right_index (op_restore k bytes).1 = right_index j.
Proof.
  intros Hl Hr Hvl Hvr Hel Her Hcl Hcr [= <-]. simpl. unfold join_restore. cbn [mem_snapshot map_err].
  rewrite split_prefixed_app by done.
  pose proof (split_prefixed_app _ [] Her) as Hsr. rewrite app_nil_r in Hsr. rewrite Hsr. simpl.
  by rewrite (mem_restore_snapshot _ _ _ Hl Hvl Hcl eq_refl), (mem_restore_snapshot _ _ _ Hr Hvr Hcr eq_refl).
Qed.

(** ** Witnesses *)

Definition ex_jl : Schema := mkSchema [mkField "l.k" Int64 true; mkField "l.v" Int64 true].
Definition ex_jr : Schema := mkSchema [mkField "r.k" Int64 true].
Definition ex_join : Join MemBackend :=
  mkJoin ex_jl ex_jr (mkSchema (fields ex_jl ++ fields ex_jr)) [0%nat] [0%nat]
    (mkMem [([VInt 1; VInt 1; VInt 10], 2)]) (mkMem [([VNull; VNull], 1); ([VInt 1; VInt 1], 1)]).

Lemma ex_join_inv : join_inv ex_join [([VInt 1; VInt 10], 2)] [([VNull], 1); ([VInt 1], 1)].
Proof.
  split; [|split; [|by split]].
  - split; [split; repeat constructor; simpl; lia|]. done.
  - split; [split; repeat constructor; simpl; lia|]. done.
Qed.

(** Both sides change in the same epoch, one with a retraction. *)
Lemma join_step_correct_witness :
  exists j' out, op_step ex_join
      [mkBatch ex_jl [([VInt 1; VInt 11], 1); ([VNull; VInt 5], 1)]; mkBatch ex_jr [([VInt 1], -1)]]
      = (j', Ok out) /\
    zjoin [0%nat] [0%nat] [([VInt 1; VInt 10], 2)] [([VNull], 1); ([VInt 1], 1)]
      ++ batch_entries (data out) ≡z [].
Proof.
  eexists _, _. split; [vm_compute; reflexivity|].
  rewrite (proj2 (proj2 (join_step_correct ex_join _ _ _
    (mkBatch ex_jl [([VInt 1; VInt 11], 1); ([VNull; VInt 5], 1)]) (mkBatch ex_jr [([VInt 1], -1)]) _
    ex_join_inv eq_refl))).
  intros k. vm_compute (zjoin _ _ _ _). simpl.
  repeat match goal with |- context [cmp_eqb k ?x] => destruct (cmp_eqb k x) end; reflexivity.
Defined.

Lemma join_snapshot_roundtrip_witness :
  exists bytes, op_snapshot ex_join = Ok bytes /\ (op_restore ex_join bytes).2 = Ok tt.
Proof.
  eexists. split; [reflexivity|].
  exact (proj1 (join_snapshot_roundtrip ex_join ex_join _
    (proj1 (proj1 ex_join_inv)) (proj1 (proj1 (proj2 ex_join_inv)))
    eq_refl eq_refl eq_refl eq_refl eq_refl eq_refl eq_refl)).
Defined.
