(* ===== verification/Aggregate.v ===== *)
(** * [f64] arithmetic used by [AVG]

    [i64 as f64] and [/] on [f64] (binary64, round to nearest even), as bit
    patterns read as [i64].  The rounding is the Standard Library's
    specification of IEEE-754 binary floating point.

    Its later part: [GROUP BY] with aggregates ([schweep-ops]: aggregate.rs). *)

From Stdlib Require Import ZArith Lia SpecFloat.
From stdpp Require Import base list strings.
From S2P Require Import Prelude BTree ZAlg Value ZSet Plan Bind Codec State Operator Linear Distinct.

Definition prec : Z := 53.
Definition emax : Z := 1024.

(** [x as f64] for an integer [x]. *)
Definition f64_of_int (x : Z) : spec_float := binary_normalize prec emax x 0 false.

Definition f64_div (a b : spec_float) : spec_float := SFdiv prec emax a b.

(** The bit pattern: sign, biased exponent, mantissa. *)
Definition f64_bits (f : spec_float) : Z :=
  let with_sign (s : bool) (m : Z) := if s then m - 2 ^ 63 else m in
  match f with
  | S754_zero s => with_sign s 0
  | S754_infinity s => with_sign s (2047 * 2 ^ 52)
  | S754_nan => 2047 * 2 ^ 52 + 2 ^ 51
  | S754_finite s m e =>
      let m := Z.pos m in
      if m <? 2 ^ 52 then with_sign s m
      else with_sign s ((e + 1075) * 2 ^ 52 + (m - 2 ^ 52))
  end.

(** [sum as f64 / count as f64] *)
Definition avg_bits (sum count : Z) : Z := f64_bits (f64_div (f64_of_int sum) (f64_of_int count)).

Lemma avg_bits_one : avg_bits 1 1 = 0x3FF0000000000000.
Proof. reflexivity. Qed.

Lemma avg_bits_third : avg_bits (-1) 3 = 0xBFD5555555555555 - 2 ^ 64.
Proof. reflexivity. Qed.

Lemma avg_bits_zero : avg_bits 0 7 = 0.
Proof. reflexivity. Qed.

(** * [GROUP BY] with aggregates ([schweep-ops]: aggregate.rs)

    The state is, per group, its total weight and, per aggregate slot, the
    ordered multiset of the argument's values; a step emits, for every group
    the delta touches, minus what it emitted before plus what it emits now. *)

#[export] Instance ZSetError_eq_dec : EqDecision ZSetError.
Proof. solve_decision. Defined.
#[export] Instance PlanError_eq_dec : EqDecision PlanError.
Proof. solve_decision. Defined.

Definition TAG_TOTAL : string := "*".
Definition TAG_VALUES : string := "v".
Definition TAG_PRIMED : string := "primed".

Inductive Emission :=
| Absent
| ERow (r : Row)
| Failed (e : PlanError).

#[export] Instance Emission_eq_dec : EqDecision Emission.
Proof. solve_decision. Defined.

Record Aggregate (B : Type) := mkAggregate {
  agg_input_schema : Schema;
  agg_output_schema : Schema;
  agg_keys : list (Named Expr);
  agg_aggregates : list (Named AggFunc);
  agg_state : B
}.
Arguments mkAggregate {B} _ _ _ _ _.
Arguments agg_input_schema {B} _.
Arguments agg_output_schema {B} _.
Arguments agg_keys {B} _.
Arguments agg_aggregates {B} _.
Arguments agg_state {B} _.

Definition Aggregate_new {B} (input output : Schema) (ks : list (Named Expr))
    (aggs : list (Named AggFunc)) (state : B) : result OpError (Aggregate B) :=
  match aggs with
  | [] => Err (OpPlan EmptyGroupKeys)
  | _ => Ok (mkAggregate input output ks aggs state)
  end.

(** ** State keys *)

Definition total_key (group : list Value) : Key := VStr TAG_TOTAL :: group.

Definition values_prefix (slot : nat) (group : list Value) : Key :=
  VStr TAG_VALUES :: VInt (Z.of_nat slot) :: group.

Definition value_key (slot : nat) (group : list Value) (v : Value) : Key :=
  values_prefix slot group ++ [v].

Definition primed_key : Key := [VStr TAG_PRIMED].

(** ** Folding a multiset *)

(** The accumulators of [fold]. *)
Record FoldState := mkFold {
  failure : option OpError;
  any : bool;
  count : Z;
  sum : Z;
  extremum : option Value
}.

Definition fold_init : FoldState := mkFold None false 0 0 None.

Definition fold_fail (s : FoldState) (e : OpError) : FoldState * bool :=
  (mkFold (Some e) (any s) (count s) (sum s) (extremum s), false).

(** The closure [fold] passes to [visit_prefix]. *)
Definition fold_visitor (func : AggFunc) (value_at : nat) : Visitor FoldState := fun s key weight =>
  let overflow := OpPlan (AggregateOverflow (agg_name func)) in
  match key !! value_at with
  | None => fold_fail s CorruptAggregateState
  | Some v =>
      let s := mkFold (failure s) true (count s) (sum s) (extremum s) in
      match func with
      | Count _ =>
          match checked_add (count s) weight with
          | Some next => (mkFold (failure s) (any s) next (sum s) (extremum s), true)
          | None => fold_fail s overflow
          end
      | Sum _ | Avg _ =>
          match v with
          | VInt x =>
              match checked_i128 (weight * x) with
              | None => fold_fail s overflow
              | Some term =>
                  match checked_i128 (sum s + term) with
                  | None => fold_fail s overflow
                  | Some next_sum =>
                      match checked_add (count s) weight with
                      | None => fold_fail s overflow
                      | Some next_count =>
                          (mkFold (failure s) (any s) next_count next_sum (extremum s), true)
                      end
                  end
              end
          | _ => fold_fail s (OpPlan (AggregateTypeUnsupported (agg_name func)
                                        (default Int64 (data_type v))))
          end
      | Min _ => (mkFold (failure s) (any s) (count s) (sum s) (Some v), false)
      | Max _ => (mkFold (failure s) (any s) (count s) (sum s) (Some v), true)
      | CountStar => (s, false)
      end
  end.

(** What the accumulators give; [total] is the group's row weight. *)
Definition fold_result (func : AggFunc) (total : Z) (s : FoldState) : result OpError Value :=
  let overflow := OpPlan (AggregateOverflow (agg_name func)) in
  match failure s with
  | Some e => Err e
  | None =>
      match func with
      | Count _ => Ok (VInt (count s))
      | Sum _ =>
          if negb (any s) then Ok VNull
          else if in_i64 (sum s) then Ok (VInt (sum s)) else Err overflow
      | Avg _ =>
          if negb (any s) then Ok VNull
          else if in_i64 (sum s) then Ok (VFloat (avg_bits (sum s) (count s))) else Err overflow
      | Min _ | Max _ => Ok (default VNull (extremum s))
      | CountStar => Ok (VInt total)
      end
  end.

Section aggregate.
Context {B : Type} `{StateBackend B}.

Definition is_grand_total (a : Aggregate B) : bool :=
  match agg_keys a with [] => true | _ => false end.

Definition group_total (a : Aggregate B) (group : list Value) : result OpError Z :=
  let? t := map_err OpState (be_get (agg_state a) (total_key group)) in Ok (default 0 t).

Definition fold (a : Aggregate B) (slot : nat) (group : list Value) (func : AggFunc) : result OpError Value :=
  match func with
  | CountStar => let? t := group_total a group in Ok (VInt t)
  | _ =>
      let prefix := values_prefix slot group in
      let? s := map_err OpState
        (be_visit_prefix (agg_state a) prefix (fold_visitor func (length prefix)) fold_init) in
      fold_result func 0 s
  end.

(** The loop over the slots: the row's values, or the evaluation error that
    makes the group fail. *)
Fixpoint emission_values (a : Aggregate B) (group : list Value) (total : Z) (slot : nat)
    (aggs : list (Named AggFunc)) (values : Row) : result OpError Emission :=
  match aggs with
  | [] => Ok (ERow values)
  | agg :: aggs' =>
      let computed := match value agg with
                      | CountStar => Ok (VInt total)
                      | other => fold a slot group other
                      end in
      match computed with
      | Ok v => emission_values a group total (S slot) aggs' (values ++ [v])
      | Err (OpPlan e) => if is_evaluation_error e then Ok (Failed e) else Err (OpPlan e)
      | Err other => Err other
      end
  end.

Definition emission (a : Aggregate B) (group : list Value) (already_emitted : bool) : result OpError Emission :=
  let? total := group_total a group in
  if is_grand_total a then
    if negb already_emitted then Ok Absent
    else emission_values a group total 0 (agg_aggregates a) group
  else if total <=? 0 then Ok Absent
  else emission_values a group total 0 (agg_aggregates a) group.
End aggregate.

(** ** Collecting a delta *)

(** [*m.entry(k).or_insert(0) += w]: unchecked, so it wraps. *)
Definition add_wrapping {K} `{Cmp K} (k : K) (w : Z) (m : btree K Z) : btree K Z :=
  bt_update k 0 (fun old => wrap_i64 (old + w)) m.

Record Collected := mkCollected {
  col_errors : Entries;
  total_delta : btree (list Value) Z;
  value_delta : btree (nat * list Value * Value) Z
}.

(** The inner loop: one row's argument in every slot. *)
Fixpoint collect_slots (s : Schema) (row : Row) (w : Z) (group : list Value) (slot : nat)
    (aggs : list (Named AggFunc)) (c : Collected) : result OpError Collected :=
  match aggs with
  | [] => Ok c
  | agg :: aggs' =>
      match argument (value agg) with
      | None => collect_slots s row w group (S slot) aggs' c
      | Some arg =>
          match eval arg row s with
          | Ok VNull => collect_slots s row w group (S slot) aggs' c
          | Ok v =>
              collect_slots s row w group (S slot) aggs'
                (mkCollected (col_errors c) (total_delta c)
                   (add_wrapping (slot, group, v) w (value_delta c)))
          | Err x =>
              match evaluation_message x with
              | Some m =>
                  collect_slots s row w group (S slot) aggs'
                    (mkCollected (col_errors c ++ [(error_row m, w)]) (total_delta c) (value_delta c))
              | None => Err (OpPlan x)
              end
          end
      end
  end.

Definition collect_body (s : Schema) (ks : list (Named Expr)) (aggs : list (Named AggFunc))
    (c : Collected) (e : Row * Z) : result OpError Collected :=
  let '(row, w) := e in
  let? r := project_values ks row s [] in
  match r with
  | inr m => Ok (mkCollected (col_errors c ++ [(error_row m, w)]) (total_delta c) (value_delta c))
  | inl group =>
      collect_slots s row w group 0 aggs
        (mkCollected (col_errors c) (add_wrapping group w (total_delta c)) (value_delta c))
  end.

Definition collect (s : Schema) (ks : list (Named Expr)) (aggs : list (Named AggFunc)) (es : Entries)
    : result OpError Collected :=
  try_fold (collect_body s ks aggs) (mkCollected [] bt_empty bt_empty) es.

(** The entries a changed emission adds to the data and to the errors. *)
Definition emission_data (x : Emission) (w : Z) : Entries :=
  match x with ERow r => [(r, w)] | _ => [] end.
Definition emission_errors (x : Emission) (w : Z) : Entries :=
  match x with
  | Failed e => match evaluation_message e with Some m => [(error_row m, w)] | None => [] end
  | _ => []
  end.

Section aggregate_step.
Context {B : Type} `{StateBackend B}.

Definition touched (a : Aggregate B) (c : Collected) : list (list Value) :=
  let groups := bt_keys (total_delta c) in
  if is_grand_total a && negb (existsb (fun g => match g with [] => true | _ => false end) groups)
  then groups ++ [[]] else groups.

Definition step_batch (a : Aggregate B) (c : Collected) (was_primed : bool) : WriteBatch :=
  map (fun p => (total_key p.1, p.2)) (total_delta c) ++
  map (fun p => (value_key p.1.1.1 p.1.1.2 p.1.2, p.2)) (value_delta c) ++
  (if is_grand_total a && negb was_primed then [(primed_key, 1)] else []).

(** Everything before the write. *)
Definition agg_prepare (a : Aggregate B) (inputs : list ZSetBatch)
    : result OpError (Collected * bool * list Emission) :=
  let? input := unary "aggregate" inputs in
  check? check_schema "aggregate" (agg_input_schema a) input in
  let? es := map_err OpZSet (entries input) in
  let? c := collect (agg_input_schema a) (agg_keys a) (agg_aggregates a) es in
  let? p := map_err OpState (be_get (agg_state a) primed_key) in
  let was_primed := match p with Some _ => true | None => false end in
  let? before := try_map (fun g => emission a g was_primed) (touched a c) in
  Ok (c, was_primed, before).

(** The loop over the touched groups after the write. *)
Definition emit_body (a : Aggregate B) (acc : Entries * Entries) (p : list Value * Emission)
    : result OpError (Entries * Entries) :=
  let '(out, errs) := acc in
  let '(group, was) := p in
  let? now := emission a group true in
  if decide (was = now) then Ok (out, errs)
  else Ok (out ++ emission_data was (-1) ++ emission_data now 1,
           errs ++ emission_errors was (-1) ++ emission_errors now 1).

Definition agg_finish (a : Aggregate B) (c : Collected) (before : list Emission) : result OpError StepOutput :=
  let? '(out, errs) := try_fold (emit_body a) ([], col_errors c) (zip (touched a c) before) in
  let? batch := map_err OpZSet (from_entries (agg_output_schema a) out) in
  let? d := map_err OpZSet (consolidate batch) in
  StepOutput_new d errs.

Definition agg_step (a : Aggregate B) (inputs : list ZSetBatch) : Aggregate B * result OpError StepOutput :=
  match agg_prepare a inputs with
  | Err e => (a, Err e)
  | Ok (c, was_primed, before) =>
      let '(state', w) := be_write (agg_state a) (step_batch a c was_primed) in
      let a' := mkAggregate (agg_input_schema a) (agg_output_schema a) (agg_keys a)
                  (agg_aggregates a) state' in
      (a', check? map_err OpState w in agg_finish a' c before)
  end.

#[export] Instance aggregate_operator : Operator (Aggregate B) := {|
  op_name _ := "aggregate"%string;
  op_arity _ := 1%nat;
  op_output_schema := agg_output_schema;
  op_state_bound a := ProportionalToInputs ["input"%string] (1 + length (agg_aggregates a))
                        (if is_grand_total a then 1 else 0);
  op_state_size a := be_len (agg_state a);
  op_backend_count _ := 1%nat;
  op_step := agg_step;
  op_snapshot a := map_err OpState (be_snapshot (agg_state a));
  op_restore a bytes :=
    let '(state', r) := be_restore (agg_state a) bytes in
    (mkAggregate (agg_input_schema a) (agg_output_schema a) (agg_keys a) (agg_aggregates a) state',
     map_err OpState r)
|}.
End aggregate_step.

(** ** The state an integral determines *)

Section spec.
Context (s : Schema) (ks : list (Named Expr)) (aggs : list (Named AggFunc)).

(** A row's group, when its key expressions do not raise. *)
Definition group_of (row : Row) : result PlanError (list Value) := project_vals ks row s.

(** What a row adds to the multisets, and the errors its arguments raise. *)
Fixpoint slot_values (row : Row) (group : list Value) (slot : nat) (l : list (Named AggFunc))
    : list ((nat * list Value * Value) * Z) :=
  match l with
  | [] => []
  | agg :: l' =>
      match argument (value agg) with
      | None => []
      | Some arg => match eval arg row s with
                    | Ok VNull | Err _ => []
                    | Ok v => [((slot, group, v), 1)]
                    end
      end ++ slot_values row group (S slot) l'
  end.

Fixpoint slot_errors (row : Row) (l : list (Named AggFunc)) : Entries :=
  match l with
  | [] => []
  | agg :: l' =>
      match argument (value agg) with
      | None => []
      | Some arg => error_of (eval arg row s)
      end ++ slot_errors row l'
  end.

Definition row_totals (row : Row) : list (list Value * Z) :=
  match group_of row with Ok g => [(g, 1)] | Err _ => [] end.

Definition row_values (row : Row) : list ((nat * list Value * Value) * Z) :=
  match group_of row with Ok g => slot_values row g 0 aggs | Err _ => [] end.

Definition row_errors (row : Row) : Entries :=
  match group_of row with
  | Ok _ => slot_errors row aggs
  | Err x => error_of (Err x : result PlanError Row)
  end.
End spec.

(** ** Wrapping additions that do not wrap *)

Lemma add_wrapping_spec {K} `{LinearCmp K} (k : K) w (m : btree K Z) :
  bt_sorted m -> Z.abs (weight m k) + Z.abs w <= i64_max ->
  bt_sorted (add_wrapping k w m) /\ add_wrapping k w m ≡z m ++ [(k, w)] /\
  forall k', k' ∈ bt_keys (add_wrapping k w m) <-> k' = k \/ k' ∈ bt_keys m.
Proof.
  intros Hs Hb. unfold add_wrapping, bt_update. split; [by apply bt_insert_sorted|]. split.
  - intros k'. rewrite weight_bt_get, bt_get_insert by (by apply bt_insert_sorted).
    rewrite weight_app. simpl. case_cmp_eqb k' k; [subst|by rewrite weight_bt_get, !Z.add_0_r].
    simpl. rewrite (weight_bt_get m) in * by done. rewrite wrap_i64_id; [lia|].
    apply in_i64_spec. unfold i64_min, i64_max in *. lia.
  - intros k'. unfold bt_keys.
    assert (forall (m : btree K Z) k, k ∈ map fst m <-> exists v, (k, v) ∈ m) as Hkeys.
    { intros m' k0. rewrite list_elem_of_fmap. split; [intros ([] & -> & ?); eauto|].
      intros [v Hv]. by exists (k0, v). }
    rewrite !Hkeys. set (v := wrap_i64 _). pose proof (bt_insert_sorted k v m Hs) as Hs'. split.
    + intros [v' Hv']. apply (bt_In_get _ _ _ Hs') in Hv'. rewrite bt_get_insert in Hv'.
      case_cmp_eqb k' k; [by left|right]. apply bt_get_In in Hv'. eauto.
    + intros Hor. enough (exists v', bt_get k' (bt_insert k v m) = Some v') as [v' Hv']
        by (apply bt_get_In in Hv'; eauto).
      rewrite bt_get_insert. case_cmp_eqb k' k; [eauto|].
      destruct Hor as [|[v' Hv']]; [done|]. apply (bt_In_get _ _ _ Hs) in Hv'. eauto.
Qed.

Lemma zbind_weight_bound {K L} `{LinearCmp K, LinearCmp L} (f : K -> list (L * Z)) es l :
  (forall k, Z.abs (weight (f k) l) <= 1) -> Z.abs (weight (zbind f es) l) <= mass es.
Proof.
  intros Hf. rewrite weight_bind. induction es as [|[k w] es IH]; [done|].
  rewrite mass_cons. cbn [wsum]. specialize (Hf k). nia.
Qed.

(** ** Collecting a delta computes the sums *)

Section collect.
Context (s : Schema) (ks : list (Named Expr)) (aggs : list (Named AggFunc)).

Lemma slot_values_lower row g slot l slot' g' v :
  (slot' < slot)%nat -> weight (slot_values s row g slot l) (slot', g', v) = 0.
Proof.
  revert slot. induction l as [|agg l IH]; intros slot Hlt; cbn [slot_values]; [done|].
  rewrite weight_app, IH by lia.
  destruct (argument (value agg)); [|done]. destruct (eval _ row s) as [[]|]; try done; cbn [weight];
    rewrite (proj2 (cmp_eqb_neq _ _)) by (intros [=]; lia); done.
Qed.

Lemma slot_values_bound row g slot l k : Z.abs (weight (slot_values s row g slot l) k) <= 1.
Proof.
  revert slot. induction l as [|agg l IH]; intros slot; cbn [slot_values]; [done|].
  rewrite weight_app. destruct k as [[slot' g'] v'].
  destruct (decide (slot' = slot)) as [->|Hne].
  - rewrite slot_values_lower by lia.
    destruct (argument (value agg)); [|done]. destruct (eval _ row s) as [[]|]; try done; cbn [weight];
      destruct (cmp_eqb _ _); done.
  - specialize (IH (S slot)).
    destruct (argument (value agg)); [|done]. destruct (eval _ row s) as [[]|]; try done; cbn [weight];
      rewrite (proj2 (cmp_eqb_neq _ _)) by (intros [=]; lia); done.
Qed.

(** Room left in every multiset a row can still reach. *)
Lemma collect_slots_spec row w g slot l c c' :
  bt_sorted (value_delta c) ->
  (forall slot' v, (slot <= slot')%nat -> Z.abs (weight (value_delta c) (slot', g, v)) + Z.abs w <= i64_max) ->
  collect_slots s row w g slot l c = Ok c' ->
  total_delta c' = total_delta c /\ bt_sorted (value_delta c') /\
  value_delta c' ≡z value_delta c ++ zscale w (slot_values s row g slot l) /\
  col_errors c' = col_errors c ++ zscale w (slot_errors s row l).
Proof.
  revert slot c. induction l as [|agg l IH]; intros slot c Hs Hb; cbn [collect_slots slot_values slot_errors].
  - intros [= <-]. rewrite !app_nil_r. done.
  - assert (forall slot' v, (S slot <= slot')%nat ->
      Z.abs (weight (value_delta c) (slot', g, v)) + Z.abs w <= i64_max) as Hb'
      by (intros; apply Hb; lia).
    unfold zscale. rewrite !map_app. fold (zscale w (slot_values s row g (S slot) l)).
    fold (zscale w (slot_errors s row l)).
    destruct (argument (value agg)) as [arg|]; [|by apply IH].
    destruct (eval arg row s) as [v|x] eqn:Ee; cbn [error_of].
    + assert (v <> VNull -> collect_slots s row w g (S slot) l
          (mkCollected (col_errors c) (total_delta c) (add_wrapping (slot, g, v) w (value_delta c))) = Ok c' ->
        total_delta c' = total_delta c /\ bt_sorted (value_delta c') /\
        value_delta c' ≡z value_delta c ++ (zscale w [((slot, g, v), 1)]) ++ zscale w (slot_values s row g (S slot) l) /\
        col_errors c' = col_errors c ++ zscale w (slot_errors s row l)) as Hgo.
      { intros _ Hc. destruct (add_wrapping_spec (slot, g, v) w (value_delta c) Hs (Hb slot v ltac:(lia)))
          as (Hs' & Hz & _).
        apply IH in Hc as (Ht & Hs'' & Hz'' & He); cbn [total_delta value_delta col_errors] in *; [|done|].
        - split_and!; [done..| |done]. rewrite Hz'', Hz, zscale_single, <- app_assoc. done.
        - intros slot' v' Hle. rewrite Hz, weight_app. cbn [weight].
          rewrite (proj2 (cmp_eqb_neq _ _)) by (intros [=]; lia).
          rewrite !Z.add_0_r. apply Hb. lia. }
      destruct v; [by apply IH|exact (Hgo ltac:(done))..].
    + destruct (evaluation_message x) as [m|]; [|done].
      intros (Ht & Hs' & Hz & He)%IH; [|done..]. cbn [total_delta value_delta col_errors] in *. split_and!; [done..|].
      rewrite He, <- app_assoc. cbn [map fst snd]. by rewrite Z.mul_1_r.
Qed.

(** What the collection of [es] must hold. *)
Definition collected_ok (es : Entries) (c : Collected) : Prop :=
  bt_sorted (total_delta c) /\ bt_sorted (value_delta c) /\
  total_delta c ≡z zbind (row_totals s ks) es /\
  value_delta c ≡z zbind (row_values s ks aggs) es /\
  col_errors c = zbind (row_errors s ks aggs) es /\
  forall g, g ∈ bt_keys (total_delta c) <-> exists row w, (row, w) ∈ es /\ group_of s ks row = Ok g.

Lemma row_totals_bound row g : Z.abs (weight (row_totals s ks row) g) <= 1.
Proof.
  unfold row_totals. destruct (group_of s ks row); [|done]. cbn [weight].
  destruct (cmp_eqb _ _); done.
Qed.

Lemma row_values_bound row k : Z.abs (weight (row_values s ks aggs row) k) <= 1.
Proof. unfold row_values. destruct (group_of s ks row); [apply slot_values_bound|done]. Qed.

Lemma collect_body_spec es c row w c' :
  mass es + Z.abs w <= i64_max -> collected_ok es c ->
  collect_body s ks aggs c (row, w) = Ok c' -> collected_ok (es ++ [(row, w)]) c'.
Proof.
  intros Hm (Hst & Hsv & Ht & Hv & He & Hk). unfold collect_body.
  pose proof (project_values_spec ks row s []) as Hp.
  destruct (project_values ks row s []) as [[g|m]|]; [| |done].
  - destruct (project_vals ks row s) as [g'|] eqn:Eg; [|done]. simpl in Hp. subst g'.
    destruct (add_wrapping_spec g w (total_delta c) Hst) as (Hst' & Ht' & Hk').
    { rewrite Ht. pose proof (zbind_weight_bound (row_totals s ks) es g
        ltac:(intros; apply row_totals_bound)). lia. }
    intros Hc. apply collect_slots_spec in Hc as (Ht2 & Hsv2 & Hv2 & He2);
      cbn [total_delta value_delta col_errors] in *; [|done|].
    2: { intros slot v _. rewrite Hv. pose proof (zbind_weight_bound (row_values s ks aggs) es (slot, g, v)
           ltac:(intros; apply row_values_bound)). lia. }
    split_and!; rewrite ?Ht2; try done.
    + rewrite Ht', Ht, zbind_app, zbind_cons, app_nil_r. unfold row_totals at 3, group_of.
      rewrite Eg, zscale_single. done.
    + rewrite Hv2, Hv, zbind_app, zbind_cons, app_nil_r. unfold row_values at 3, group_of.
      by rewrite Eg.
    + rewrite He2, He, zbind_app, zbind_cons, app_nil_r. unfold row_errors at 3, group_of.
      by rewrite Eg.
    + intros g0. rewrite Hk', Hk. setoid_rewrite elem_of_app. setoid_rewrite list_elem_of_singleton.
      unfold group_of. split.
      * intros [->|(r & x & ? & ?)]; eauto 6.
      * intros (r & x & [?|[= -> ->]] & Hg); [eauto|]. left. congruence.
  - destruct (project_vals ks row s) as [|x] eqn:Eg; [done|]. intros [= <-].
    split_and!; simpl; try done.
    + rewrite Ht, zbind_app, zbind_cons. unfold row_totals at 3, group_of. rewrite Eg. simpl.
      by rewrite app_nil_r.
    + rewrite Hv, zbind_app, zbind_cons. unfold row_values at 3, group_of. rewrite Eg. simpl.
      by rewrite app_nil_r.
    + rewrite He, zbind_app, zbind_cons. unfold row_errors at 3, group_of, error_of.
      by rewrite Eg, Hp, zscale_single, app_nil_r.
    + intros g0. rewrite Hk. setoid_rewrite elem_of_app. setoid_rewrite list_elem_of_singleton.
      unfold group_of. split; [intros (r & y & ? & ?); eauto 6|].
      intros (r & y & [?|[= -> ->]] & Hg); [eauto|]. congruence.
Qed.

Lemma collect_fold_spec es pre c0 c :
  mass (pre ++ es) <= i64_max -> collected_ok pre c0 ->
  try_fold (collect_body s ks aggs) c0 es = Ok c -> collected_ok (pre ++ es) c.
Proof.
  revert c0 pre. induction es as [|[row w] es IH]; intros c0 pre Hm Hok; cbn [try_fold].
  - intros [= <-]. by rewrite app_nil_r.
  - destruct (collect_body s ks aggs c0 (row, w)) as [c1|] eqn:E; [|done].
    assert (pre ++ (row, w) :: es = (pre ++ [(row, w)]) ++ es) as Happ by (by rewrite <- app_assoc).
    rewrite Happ in *. pose proof Hm as Hm'. rewrite !mass_app, mass_cons in Hm'.
    change (mass []) with 0 in Hm'. pose proof (mass_nonneg es).
    apply (collect_body_spec pre) in E; [|lia|done]. by apply IH.
Qed.

Lemma collect_spec es c :
  mass es <= i64_max -> collect s ks aggs es = Ok c -> collected_ok es c.
Proof.
  intros Hm. apply (collect_fold_spec es []); [done|].
  split_and!; simpl; try done; try constructor; [by inversion 1|].
  intros (? & ? & Hin & _). by inversion Hin.
Qed.
End collect.

(** ** Emissions as functions of the state's contents *)

Section emitV.
Context (gt : bool) (aggs : list (Named AggFunc)).

Definition totalV (V : list (Key * Z)) (g : list Value) : Z := default 0 (bt_get (total_key g) V).

Definition foldV (V : list (Key * Z)) (slot : nat) (g : list Value) (func : AggFunc) : result OpError Value :=
  match func with
  | CountStar => Ok (VInt (totalV V g))
  | _ => fold_result func 0
           (visit (fold_visitor func (length (values_prefix slot g))) fold_init
              (under (values_prefix slot g) V))
  end.

Fixpoint emit_valuesV (V : list (Key * Z)) (g : list Value) (slot : nat) (l : list (Named AggFunc))
    (values : Row) : result OpError Emission :=
  match l with
  | [] => Ok (ERow values)
  | agg :: l' =>
      match foldV V slot g (value agg) with
      | Ok v => emit_valuesV V g (S slot) l' (values ++ [v])
      | Err (OpPlan e) => if is_evaluation_error e then Ok (Failed e) else Err (OpPlan e)
      | Err other => Err other
      end
  end.

Definition emitV (V : list (Key * Z)) (g : list Value) (already : bool) : result OpError Emission :=
  if (if gt then negb already else totalV V g <=? 0) then Ok Absent
  else emit_valuesV V g 0 aggs g.

(** The keys a group's emission can depend on. *)
Definition relevant (g : list Value) (k : Key) : Prop :=
  k = total_key g \/ exists slot, starts_with k (values_prefix slot g) = true.

Lemma under_local V V' p :
  zcanonical V -> zcanonical V' ->
  (forall k, starts_with k p = true -> weight V k = weight V' k) -> under p V = under p V'.
Proof.
  intros HV HV' Hw. apply zcanonical_unique.
  - by apply (zcanonical_filter (fun k => starts_with k p)).
  - by apply (zcanonical_filter (fun k => starts_with k p)).
  - intros k. unfold under. rewrite !(weight_filter (fun k => starts_with k p)).
    destruct (starts_with k p) eqn:E; [by apply Hw|done].
Qed.

Lemma emitV_local V V' g already :
  zcanonical V -> zcanonical V' ->
  (forall k, relevant g k -> weight V k = weight V' k) -> emitV V g already = emitV V' g already.
Proof.
  intros HV HV' Hw.
  assert (totalV V g = totalV V' g) as Ht.
  { unfold totalV. f_equal. apply zcanonical_get; [done..|]. apply Hw. by left. }
  assert (forall slot func, foldV V slot g func = foldV V' slot g func) as Hf.
  { intros slot func. unfold foldV. rewrite Ht.
    rewrite (under_local V V') by (try done; intros k Hk; apply Hw; right; eauto). done. }
  unfold emitV. rewrite Ht. destruct (if gt then _ else _); [done|].
  generalize 0%nat as slot. generalize g at 2 4 as values.
  induction aggs as [|agg l IH]; intros values slot; cbn [emit_valuesV]; [done|].
  rewrite Hf. destruct (foldV V' slot g (value agg)) as [v|]; [apply IH|done].
Qed.
End emitV.

Section emission_view.
Context {B : Type} `{BackendLaws B}.

Lemma fold_foldV (a : Aggregate B) slot g func :
  be_inv (agg_state a) ->
  fold a slot g func = foldV (view (agg_state a)) slot g func \/
  exists e, fold a slot g func = Err (OpState e).
Proof.
  intros Hb. unfold fold, foldV, group_total, totalV.
  destruct func; cbn [map_err].
  1: destruct (be_get _ _) as [t|e] eqn:E; [|by right; eexists]; left; simpl;
     by apply get_ok in E as ->.
  all: match goal with |- context [be_visit_prefix ?b ?p ?f ?i] =>
         destruct (be_visit_prefix b p f i) as [st|e] eqn:E; [|by right; eexists];
         left; simpl; by apply visit_ok in E as -> end.
Qed.

Lemma emission_values_V (a : Aggregate B) g total slot l values x :
  be_inv (agg_state a) -> total = totalV (view (agg_state a)) g ->
  emission_values a g total slot l values = Ok x ->
  emit_valuesV (view (agg_state a)) g slot l values = Ok x.
Proof.
  intros Hb ->. revert slot values. induction l as [|agg l IH]; intros slot values;
    cbn [emission_values emit_valuesV]; [done|].
  assert (match value agg with
          | CountStar => Ok (VInt (totalV (view (agg_state a)) g))
          | other => fold a slot g other
          end = foldV (view (agg_state a)) slot g (value agg) \/
          exists e, match value agg with
          | CountStar => Ok (VInt (totalV (view (agg_state a)) g))
          | other => fold a slot g other
          end = Err (OpState e)) as [-> | [e ->]]; [| |done].
  - destruct (value agg); [by left|apply fold_foldV; done..].
  - destruct (foldV _ slot g (value agg)) as [v|[]]; try done. apply IH.
Qed.

Lemma emission_emitV (a : Aggregate B) g already x :
  be_inv (agg_state a) -> emission a g already = Ok x ->
  emitV (is_grand_total a) (agg_aggregates a) (view (agg_state a)) g already = Ok x.
Proof.
  intros Hb. unfold emission, group_total, emitV.
  destruct (be_get _ _) as [t|e] eqn:E; [|done]. cbn [map_err].
  apply get_ok in E as ->; [|done]. fold (totalV (view (agg_state a)) g).
  destruct (is_grand_total a).
  - destruct (negb already); [done|]. by apply emission_values_V.
  - destruct (totalV _ g <=? 0); [done|]. by apply emission_values_V.
Qed.
End emission_view.

(** ** The function the operator maintains *)

Definition emit_or_absent (r : result OpError Emission) : Emission :=
  match r with Ok x => x | Err _ => Absent end.

Section accumulate.
Context (s : Schema) (ks : list (Named Expr)) (aggs : list (Named AggFunc)).

Definition no_keys : bool := match ks with [] => true | _ => false end.

Definition key_of_value (p : nat * list Value * Value) : Key := value_key p.1.1 p.1.2 p.2.

(** What one row adds to the state. *)
Definition row_state (row : Row) : list (Key * Z) :=
  zbind (fun g => [(total_key g, 1)]) (row_totals s ks row) ++
  zbind (fun p => [(key_of_value p, 1)]) (row_values s ks aggs row).

(** The contents of the state over the integral [I]; [p]: the grand total has
    emitted. *)
Definition state_of (I : Entries) (p : bool) : list (Key * Z) :=
  zbind row_state I ++ (if p then [(primed_key, 1)] else []).

Definition emit_of (I : Entries) (p : bool) (g : list Value) : result OpError Emission :=
  emitV no_keys aggs (zcanon (state_of I p)) g p.

Definition out_data (I : Entries) (p : bool) (g : list Value) : Entries :=
  emission_data (emit_or_absent (emit_of I p g)) 1.
Definition out_errs (I : Entries) (p : bool) (g : list Value) : Entries :=
  emission_errors (emit_or_absent (emit_of I p g)) 1.

Definition rows_groups (I : Entries) : list (list Value) :=
  flat_map (fun e => match group_of s ks e.1 with Ok g => [g] | Err _ => [] end) I.

(** The groups that can exist: the one grand total, or those of some row. *)
Definition groups (I : Entries) : list (list Value) :=
  if no_keys then [[]] else zdedup (rows_groups I).

(** The accumulated output and live errors over [I]. *)
Definition agg_data (I : Entries) (p : bool) : Entries := flat_map (out_data I p) (groups I).
Definition agg_errs (I : Entries) (p : bool) : Entries :=
  zbind (row_errors s ks aggs) I ++ flat_map (out_errs I p) (groups I).

(** ** Which keys a row touches *)

Lemma group_of_length row g : group_of s ks row = Ok g -> length g = length ks.
Proof. intros Hg%try_map_Ok. by apply Forall2_length in Hg. Qed.

Lemma slot_values_In row g slot l slot' g' v w :
  ((slot', g', v), w) ∈ slot_values s row g slot l -> g' = g.
Proof.
  revert slot. induction l as [|agg l IH]; intros slot; cbn [slot_values]; [by inversion 1|].
  rewrite elem_of_app. intros [Hin|Hin]; [|eauto].
  destruct (argument (value agg)); [|by inversion Hin].
  destruct (eval _ row s) as [[]|]; try by inversion Hin;
    apply list_elem_of_singleton in Hin; congruence.
Qed.

Lemma row_state_In row k w :
  (k, w) ∈ row_state row ->
  exists g, group_of s ks row = Ok g /\ (k = total_key g \/ exists slot v, k = value_key slot g v).
Proof.
  unfold row_state, row_totals, row_values. rewrite elem_of_app.
  destruct (group_of s ks row) as [g|]; [|intros [Hin|Hin]; by inversion Hin].
  intros [Hin|Hin]; exists g; (split; [done|]).
  - left. rewrite zbind_single in Hin. apply list_elem_of_singleton in Hin. congruence.
  - right. unfold zbind in Hin. apply list_elem_of_In, in_flat_map in Hin as ([p x] & Hp & Hin).
    cbn [fst snd] in *. rewrite zscale_single in Hin. destruct Hin as [[= <- <-]|[]].
    destruct p as [[slot g'] v]. apply list_elem_of_In, slot_values_In in Hp as ->.
    unfold key_of_value. simpl. eauto.
Qed.

Lemma total_key_inj g g' : total_key g = total_key g' -> g = g'.
Proof. by intros [=]. Qed.

Lemma relevant_value_key slot slot' g g' v :
  length g = length g' -> starts_with (value_key slot g v) (values_prefix slot' g') = true -> g = g'.
Proof.
  intros Hl [k' Hk]%starts_with_app. unfold value_key, values_prefix in Hk. simpl in Hk.
  injection Hk as _ Hk. by apply app_inj_1 in Hk as [? _].
Qed.

Lemma row_state_relevant row g k :
  length g = length ks -> relevant g k -> weight (row_state row) k <> 0 -> group_of s ks row = Ok g.
Proof.
  intros Hl Hrel Hw%weight_nonzero_in.
  apply list_elem_of_fmap in Hw as ([k' w] & -> & Hin). simpl in *.
  apply row_state_In in Hin as (g' & Hg & Hk). pose proof (group_of_length _ _ Hg) as Hl'.
  destruct Hk as [->|(slot & v & ->)], Hrel as [Hrel|[slot' Hrel]].
  - apply total_key_inj in Hrel as ->. done.
  - done.
  - done.
  - apply relevant_value_key in Hrel as ->; [done|congruence].
Qed.

Lemma row_state_primed row : weight (row_state row) primed_key = 0.
Proof.
  destruct (decide (weight (row_state row) primed_key = 0)) as [|Hw]; [done|].
  apply weight_nonzero_in, list_elem_of_fmap in Hw as ([k' w] & Hk & Hin). simpl in *.
  apply row_state_In in Hin as (g & _ & [->|(slot & v & ->)]); done.
Qed.

Lemma state_of_primed I p : weight (state_of I p) primed_key = if p then 1 else 0.
Proof.
  unfold state_of. rewrite weight_app, weight_bind, (wsum_ext _ (fun _ => 0)), wsum_0.
  - by destruct p.
  - intros row w _. apply row_state_primed.
Qed.

Lemma primed_irrelevant g : ~ relevant g primed_key.
Proof. by intros [|[slot ?]]. Qed.

(** Rows of other groups do not matter to a group. *)
Lemma state_of_relevant I p g k :
  relevant g k -> weight (state_of I p) k = weight (zbind row_state I) k.
Proof.
  intros Hrel. unfold state_of. rewrite weight_app. destruct p; [|simpl; lia]. simpl.
  rewrite (proj2 (cmp_eqb_neq k primed_key)); [lia|]. intros ->. by apply primed_irrelevant in Hrel.
Qed.

Lemma emit_of_untouched I d p p' g :
  length g = length ks -> g ∉ rows_groups d -> (no_keys = true -> p = p') ->
  emit_of (I ++ d) p' g = emit_of I p g.
Proof.
  intros Hl Hg Hp. unfold emit_of.
  destruct (zcanon_spec (state_of (I ++ d) p')) as [Hc' Hz'].
  destruct (zcanon_spec (state_of I p)) as [Hc Hz].
  assert (forall V, emitV no_keys aggs V g p' = emitV no_keys aggs V g p) as ->.
  { intros V. unfold emitV. destruct no_keys; [by rewrite Hp|done]. }
  apply emitV_local; [done..|]. intros k Hrel.
  rewrite Hz, Hz', !(state_of_relevant _ _ g k Hrel), zbind_app, weight_app.
  enough (weight (zbind row_state d) k = 0) by lia.
  rewrite weight_bind, (wsum_ext _ (fun _ => 0)), wsum_0; [done|]. intros row w Hin.
  destruct (decide (weight (row_state row) k = 0)) as [|Hw]; [done|].
  apply (row_state_relevant _ _ _ Hl Hrel) in Hw. exfalso. apply Hg.
  apply list_elem_of_In, in_flat_map. exists (row, w). split; [by apply list_elem_of_In|].
  simpl. rewrite Hw. by left.
Qed.

(** A keyed group with no row emits nothing. *)
Lemma emit_of_absent I p g :
  no_keys = false -> length g = length ks -> g ∉ rows_groups I -> emit_of I p g = Ok Absent.
Proof.
  intros Hk Hl Hg. rewrite <- (app_nil_l I). rewrite (emit_of_untouched [] I p); [|done..].
  unfold emit_of, emitV. rewrite Hk. destruct (zcanon_spec (state_of [] p)) as [Hc Hz].
  unfold totalV. rewrite <- weight_bt_get by apply Hc. rewrite Hz.
  rewrite (state_of_relevant [] p g) by (by left). done.
Qed.
End accumulate.

(** ** Sums over groups *)

Section group_sums.
Context {G : Type} `{LinearCmp G}.

Lemma weight_flat_map (F : G -> Entries) l r :
  weight (flat_map F l) r = wsum (fun g => weight (F g) r) (map (fun g => (g, 1)) l).
Proof. induction l as [|g l IH]; simpl; [done|]. rewrite weight_app, IH. lia. Qed.

Lemma weight_units (l : list G) g : NoDup l -> weight (map (fun g => (g, 1)) l) g = if existsb (cmp_eqb g) l then 1 else 0.
Proof. apply (weight_map_nodup (fun _ => 1)). Qed.

(** Groups that contribute nothing may be added or left out. *)
Lemma flat_map_subset (F : G -> Entries) T GS :
  NoDup T -> NoDup GS -> (forall g, g ∈ T -> g ∈ GS) ->
  (forall g, g ∈ GS -> g ∉ T -> F g ≡z []) -> flat_map F GS ≡z flat_map F T.
Proof.
  intros HT HGS Hsub Hz r. rewrite !weight_flat_map.
  enough (wsum (fun g => weight (F g) r)
    (map (fun g => (g, 1)) GS ++ zneg (map (fun g => (g, 1)) T)) = 0) as Hd.
  { rewrite wsum_app, wsum_neg in Hd. lia. }
  rewrite (wsum_ext_weight _ (fun _ => 0)), wsum_0; [done|]. intros g.
  rewrite weight_app, weight_neg, !weight_units by done.
  pose proof (existsb_cmp_eqb g GS) as HG. pose proof (existsb_cmp_eqb g T) as Ht.
  destruct (existsb (cmp_eqb g) GS), (existsb (cmp_eqb g) T); intros Hw; try lia.
  - apply (Hz g); [by apply HG|]. rewrite <- Ht. done.
  - exfalso. assert (false = true) by (apply HG, Hsub, Ht; done). done.
Qed.

Lemma flat_map_zeq (F F' : G -> Entries) l :
  (forall g, g ∈ l -> F g ≡z F' g) -> flat_map F l ≡z flat_map F' l.
Proof.
  induction l as [|g l IH]; intros HF; [done|]. cbn [flat_map].
  rewrite (HF g) by (by left). rewrite IH; [done|]. intros g' Hg'. apply HF. by right.
Qed.

Lemma flat_map_diff (F F' : G -> Entries) l :
  flat_map (fun g => zneg (F g) ++ F' g) l ≡z zneg (flat_map F l) ++ flat_map F' l.
Proof.
  intros r. rewrite weight_app, weight_neg, !weight_flat_map.
  induction l as [|g l IH]; cbn [map wsum]; [done|]. rewrite weight_app, weight_neg in *. lia.
Qed.

(** Replacing the contributions of the touched groups accounts for the whole
    change. *)
Lemma touched_change (F F' : G -> Entries) T G0 GS :
  NoDup T -> NoDup G0 -> NoDup GS -> (forall g, g ∈ T -> g ∈ GS) -> (forall g, g ∈ G0 -> g ∈ GS) ->
  (forall g, g ∈ GS -> g ∉ G0 -> F g ≡z []) ->
  (forall g, g ∈ GS -> g ∉ T -> F g ≡z F' g) ->
  flat_map F G0 ++ flat_map (fun g => zneg (F g) ++ F' g) T ≡z flat_map F' GS.
Proof.
  intros HT HG0 HGS HTs HG0s Hz Hsame.
  rewrite <- (flat_map_subset F G0 GS) by done.
  rewrite <- (flat_map_subset (fun g => zneg (F g) ++ F' g) T GS); [|done..|].
  - rewrite flat_map_diff. intros r. rewrite !weight_app, weight_neg. lia.
  - intros g Hg HnT. rewrite (Hsame g) by done. apply zeq_neg_l.
Qed.
End group_sums.

(** ** Correctness of a step *)

Section agg_correct.
Context {B : Type} `{BackendLaws B}.
Implicit Type a : Aggregate B.

Definition agg_inv (a : Aggregate B) (I : Entries) (p : bool) : Prop :=
  be_inv (agg_state a) /\
  view (agg_state a) ≡z state_of (agg_input_schema a) (agg_keys a) (agg_aggregates a) I p /\
  (p = true -> no_keys (agg_keys a) = true).

Definition same_agg (a a' : Aggregate B) : Prop :=
  agg_input_schema a' = agg_input_schema a /\ agg_output_schema a' = agg_output_schema a /\
  agg_keys a' = agg_keys a /\ agg_aggregates a' = agg_aggregates a.

Lemma agg_view a I p :
  agg_inv a I p ->
  view (agg_state a) = zcanon (state_of (agg_input_schema a) (agg_keys a) (agg_aggregates a) I p).
Proof. intros (Hb & Hv & _). apply zcanon_unique; [by apply view_canonical|done]. Qed.

Lemma emission_emit_of a I p g already x :
  agg_inv a I p -> (no_keys (agg_keys a) = true -> already = p) ->
  emission a g already = Ok x ->
  emit_of (agg_input_schema a) (agg_keys a) (agg_aggregates a) I p g = Ok x.
Proof.
  intros Hinv Hp Hx%emission_emitV; [|apply Hinv].
  rewrite (agg_view _ _ _ Hinv) in Hx. unfold emit_of. rewrite <- Hx.
  unfold emitV. change (is_grand_total a) with (no_keys (agg_keys a)).
  destruct (no_keys (agg_keys a)); [by rewrite Hp|done].
Qed.

(** What the loop over the touched groups emits. *)
Lemma emit_fold_spec a (F F' : list Value -> Emission) T out errs out' errs' :
  (forall g, g ∈ T -> forall x, emission a g true = Ok x -> x = F' g) ->
  try_fold (emit_body a) (out, errs) (zip T (map F T)) = Ok (out', errs') ->
  out' ≡z out ++ flat_map (fun g => zneg (emission_data (F g) 1) ++ emission_data (F' g) 1) T /\
  errs' ≡z errs ++ flat_map (fun g => zneg (emission_errors (F g) 1) ++ emission_errors (F' g) 1) T.
Proof.
  revert out errs. induction T as [|g T IH]; intros out errs HF; cbn [map zip zip_with try_fold flat_map].
  - intros [= <- <-]. by rewrite !app_nil_r.
  - unfold emit_body at 1. destruct (emission a g true) as [x|] eqn:Ex; [|done].
    apply HF in Ex as ->; [|by left].
    assert (forall g', g' ∈ T -> forall x, emission a g' true = Ok x -> x = F' g') as HF'
      by (intros; apply HF; [by right|done]).
    destruct (decide (F g = F' g)) as [->|Hne].
    + intros [Ho He]%IH; [|done]. rewrite Ho, He. split; intros r; rewrite !weight_app, weight_neg; lia.
    + intros [Ho He]%IH; [|done]. rewrite Ho, He.
      assert (forall x, emission_data x (-1) = zneg (emission_data x 1)) as -> by (by intros []).
      assert (forall x, emission_errors x (-1) = zneg (emission_errors x 1)) as ->.
      { intros []; simpl; try done. by destruct (evaluation_message e). }
      by rewrite <- !app_assoc.
Qed.

(** The batch written is what the delta adds to the state. *)
Lemma step_batch_spec a c d p :
  collected_ok (agg_input_schema a) (agg_keys a) (agg_aggregates a) d c ->
  step_batch a c p ≡z
    zbind (row_state (agg_input_schema a) (agg_keys a) (agg_aggregates a)) d ++
    (if no_keys (agg_keys a) && negb p then [(primed_key, 1)] else []).
Proof.
  intros (_ & _ & Ht & Hv & _). unfold step_batch.
  change (is_grand_total a) with (no_keys (agg_keys a)).
  rewrite (map_zbind total_key), (map_zbind key_of_value), Ht, Hv, !zbind_zbind.
  unfold row_state. rewrite zbind_plus, <- app_assoc. done.
Qed.

Lemma agg_inv_step a I d p state' c :
  agg_inv a I p -> collected_ok (agg_input_schema a) (agg_keys a) (agg_aggregates a) d c ->
  be_write (agg_state a) (step_batch a c p) = (state', Ok tt) ->
  agg_inv (mkAggregate (agg_input_schema a) (agg_output_schema a) (agg_keys a) (agg_aggregates a) state')
    (I ++ d) (no_keys (agg_keys a)).
Proof.
  intros (Hb & Hv & Hp) Hc Hw.
  pose proof (write_inv (agg_state a) (step_batch a c p) Hb) as Hb'.
  pose proof (write_ok (agg_state a) (step_batch a c p) Hb) as Hv'.
  rewrite Hw in Hb', Hv'. simpl in *. specialize (Hv' eq_refl).
  split; [done|]. split; [|done]. simpl. rewrite Hv', Hv, (step_batch_spec _ _ _ _ Hc).
  unfold state_of. rewrite zbind_app. intros k. rewrite !weight_app.
  destruct (no_keys (agg_keys a)), p; simpl; try lia; by specialize (Hp eq_refl).
Qed.

(** The touched groups: the keys of the delta, and always the grand total. *)
Lemma touched_spec a c d :
  collected_ok (agg_input_schema a) (agg_keys a) (agg_aggregates a) d c ->
  NoDup (touched a c) /\
  (forall g, g ∈ touched a c -> length g = length (agg_keys a)) /\
  if no_keys (agg_keys a) then touched a c = [[]]
  else forall g, g ∈ touched a c <-> g ∈ rows_groups (agg_input_schema a) (agg_keys a) d.
Proof.
  intros (Hs & _ & _ & _ & _ & Hk). pose proof (bt_sorted_NoDup _ Hs) as Hnd.
  change (map fst (total_delta c)) with (bt_keys (total_delta c)) in Hnd.
  assert (forall g, g ∈ bt_keys (total_delta c) -> length g = length (agg_keys a)) as Hlen.
  { intros g (row & w & _ & Hg)%Hk. by apply group_of_length in Hg. }
  unfold touched. change (is_grand_total a) with (no_keys (agg_keys a)).
  destruct (no_keys (agg_keys a)) eqn:Enk; simpl.
  - assert (length (agg_keys a) = 0%nat) as Hl by (unfold no_keys in Enk; by destruct (agg_keys a)).
    assert (bt_keys (total_delta c) = [] \/ bt_keys (total_delta c) = [[]]) as [E|E].
    { destruct (bt_keys (total_delta c)) as [|g1 l]; [by left|right].
      assert (g1 = []) as -> by (apply nil_length_inv; rewrite Hlen by (by left); done).
      destruct l as [|g2 l]; [done|]. exfalso.
      assert (g2 = []) as -> by (apply nil_length_inv; rewrite Hlen by (by right; left); done).
      apply NoDup_cons in Hnd as [Hnd _]. apply Hnd. by left. }
    + rewrite E. simpl. split_and!; [apply NoDup_singleton| |done].
      intros g ->%list_elem_of_singleton. done.
    + rewrite E. simpl. split_and!; [apply NoDup_singleton| |done].
      intros g ->%list_elem_of_singleton. done.
  - split_and!; [done..|]. intros g. rewrite Hk. unfold rows_groups. rewrite list_elem_of_In, in_flat_map. split.
    + intros (row & w & Hin & Hg). exists (row, w). split; [by apply list_elem_of_In|]. simpl.
      rewrite Hg. by left.
    + intros ([row w] & Hin & Hg). simpl in Hg. exists row, w. split; [by apply list_elem_of_In|].
      destruct (group_of _ _ row); [|done]. destruct Hg as [->|[]]. done.
Qed.

(** The change of the accumulated output, group by group. *)
Lemma groups_change a I d p c (O : Entries -> bool -> list Value -> Entries) :
  collected_ok (agg_input_schema a) (agg_keys a) (agg_aggregates a) d c ->
  (forall J q g, emit_of (agg_input_schema a) (agg_keys a) (agg_aggregates a) J q g = Ok Absent -> O J q g = []) ->
  (forall J J' q q' g, emit_of (agg_input_schema a) (agg_keys a) (agg_aggregates a) J q g
     = emit_of (agg_input_schema a) (agg_keys a) (agg_aggregates a) J' q' g -> O J q g = O J' q' g) ->
  flat_map (O I p) (groups (agg_input_schema a) (agg_keys a) I) ++
  flat_map (fun g => zneg (O I p g) ++ O (I ++ d) (no_keys (agg_keys a)) g) (touched a c)
  ≡z flat_map (O (I ++ d) (no_keys (agg_keys a))) (groups (agg_input_schema a) (agg_keys a) (I ++ d)).
Proof.
  intros Hc Habs Hsame. destruct (touched_spec _ _ _ Hc) as (Hnd & Hlen & HT).
  unfold groups. destruct (no_keys (agg_keys a)) eqn:Enk.
  - rewrite HT. cbn [flat_map]. rewrite !app_nil_r. intros r. rewrite !weight_app, weight_neg. lia.
  - set (S0 := agg_input_schema a) in *. set (K0 := agg_keys a) in *.
    destruct (zdedup_spec (rows_groups S0 K0 I)) as [Hn0 Hi0].
    destruct (zdedup_spec (rows_groups S0 K0 (I ++ d))) as [Hn1 Hi1].
    assert (rows_groups S0 K0 (I ++ d) = rows_groups S0 K0 I ++ rows_groups S0 K0 d) as Happ
      by apply flat_map_app.
    assert (forall g J, g ∈ rows_groups S0 K0 J -> length g = length K0) as Hgl.
    { intros g J Hg. apply list_elem_of_In, in_flat_map in Hg as ([row w] & _ & Hg). simpl in Hg.
      destruct (group_of S0 K0 row) eqn:E; [|done]. destruct Hg as [->|[]]. by apply group_of_length in E. }
    apply touched_change; try done.
    + intros g Hg. rewrite Hi1, Happ, elem_of_app. right. by apply HT.
    + intros g Hg. rewrite Hi1, Happ, elem_of_app. left. by apply Hi0.
    + intros g Hg Hng. rewrite Hi1 in Hg. rewrite Hi0 in Hng.
      rewrite Habs; [done|]. apply emit_of_absent; eauto.
    + intros g Hg Hng. rewrite Hi1 in Hg. rewrite HT in Hng.
      rewrite (Hsame I (I ++ d) p false); [done|]. symmetry.
      apply emit_of_untouched; [by eapply Hgl|done|]. by rewrite Enk.
Qed.

Lemma try_map_map {E A C} (f : A -> result E C) (F : A -> C) l ys :
  (forall x y, x ∈ l -> f x = Ok y -> y = F x) -> try_map f l = Ok ys -> ys = map F l.
Proof.
  intros HF Hm%try_map_Ok. induction Hm as [|x y l ys Hxy _ IH]; [done|]. simpl.
  rewrite (HF x y); [|by left|done]. f_equal. apply IH. intros x' y' Hin. apply HF. by right.
Qed.

Lemma was_primed_spec a I p pr :
  agg_inv a I p -> be_get (agg_state a) primed_key = Ok pr ->
  match pr with Some _ => true | None => false end = p.
Proof.
  intros Hinv Hpr. apply get_ok in Hpr as ->; [|apply Hinv].
  pose proof (view_canonical _ (proj1 Hinv)) as Hcan.
  pose proof (proj1 (proj2 Hinv) primed_key) as Hw. rewrite state_of_primed in Hw.
  rewrite weight_bt_get in Hw by apply Hcan.
  destruct (bt_get primed_key _) as [w|] eqn:Eg; simpl in Hw; destruct p; try done.
  apply (zcanonical_bt_get _ _ _ Hcan) in Eg as [_ ?]. done.
Qed.

(** The static parts of the specification, read off the operator. *)
Abbreviation emit_of_op a := (emit_of (agg_input_schema a) (agg_keys a) (agg_aggregates a)).

Lemma agg_prepare_spec a I p inputs c q before :
  agg_inv a I p -> agg_prepare a inputs = Ok (c, q, before) ->
  (forall input, inputs = [input] -> mass (batch_entries input) <= i64_max) ->
  exists input, inputs = [input] /\ batch_schema input = agg_input_schema a /\ q = p /\
    collected_ok (agg_input_schema a) (agg_keys a) (agg_aggregates a) (batch_entries input) c /\
    before = map (fun g => emit_or_absent (emit_of_op a I p g)) (touched a c).
Proof.
  intros Hinv. unfold agg_prepare.
  destruct (unary _ inputs) as [input|] eqn:Eu; [|done]. apply unary_Ok in Eu as ->.
  destruct (check_schema _ _ input) as [[]|] eqn:Ec; [|done]. apply check_schema_Ok in Ec.
  cbn [map_err entries]. destruct (collect _ _ _ _) as [c'|] eqn:Ecol; [|done].
  destruct (be_get (agg_state a) primed_key) as [pr|] eqn:Epr; [|done]. cbn [map_err].
  rewrite (was_primed_spec _ _ _ _ Hinv Epr).
  destruct (try_map _ (touched a c')) as [before'|] eqn:Eb; [|done].
  intros [= <- <- <-] Hm. specialize (Hm input eq_refl).
  exists input. split_and!; try done; [by apply collect_spec|].
  eapply try_map_map; [|exact Eb]. intros g x _ Hx.
  apply (emission_emit_of a I p) in Hx; [|done..]. by rewrite Hx.
Qed.

Lemma agg_finish_spec a c (F F' : list Value -> Emission) out :
  (forall g, g ∈ touched a c -> forall x, emission a g true = Ok x -> x = F' g) ->
  agg_finish a c (map F (touched a c)) = Ok out ->
  batch_schema (data out) = agg_output_schema a /\
  batch_entries (data out) ≡z
    flat_map (fun g => zneg (emission_data (F g) 1) ++ emission_data (F' g) 1) (touched a c) /\
  batch_entries (errors out) ≡z col_errors c ++
    flat_map (fun g => zneg (emission_errors (F g) 1) ++ emission_errors (F' g) 1) (touched a c).
Proof.
  intros HF. unfold agg_finish.
  destruct (try_fold _ _ _) as [[o errs]|] eqn:Ef; [|done].
  apply (emit_fold_spec a F F') in Ef as [Ho He]; [|done].
  destruct (from_entries _ o) as [b|] eqn:Ebo; simpl; [|done].
  apply from_entries_inv in Ebo as ->. unfold consolidate.
  destruct (consolidated_entries _) as [co|] eqn:Eco; simpl; [|done].
  apply consolidated_entries_spec in Eco as [_ Hco].
  destruct (from_entries _ co) as [dd|] eqn:Ed; simpl; [|done].
  apply from_entries_inv in Ed as ->. intros [-> ->]%StepOutput_new_Ok.
  split_and!; [done| |done]. simpl. by rewrite Hco.
Qed.

Lemma agg_step_spec a I p inputs a' out :
  agg_inv a I p -> agg_step a inputs = (a', Ok out) ->
  (forall input, inputs = [input] -> mass (batch_entries input) <= i64_max) ->
  exists input, inputs = [input] /\ batch_schema input = agg_input_schema a /\ same_agg a a' /\
    agg_inv a' (I ++ batch_entries input) (no_keys (agg_keys a)) /\
    batch_schema (data out) = agg_output_schema a /\
    agg_data (agg_input_schema a) (agg_keys a) (agg_aggregates a) I p ++ batch_entries (data out)
      ≡z agg_data (agg_input_schema a) (agg_keys a) (agg_aggregates a) (I ++ batch_entries input)
           (no_keys (agg_keys a)) /\
    agg_errs (agg_input_schema a) (agg_keys a) (agg_aggregates a) I p ++ batch_entries (errors out)
      ≡z agg_errs (agg_input_schema a) (agg_keys a) (agg_aggregates a) (I ++ batch_entries input)
           (no_keys (agg_keys a)).
Proof.
  intros Hinv. unfold agg_step.
  destruct (agg_prepare a inputs) as [[[c q] before]|] eqn:Ep; [|done].
  destruct (be_write (agg_state a) (step_batch a c q)) as [st w] eqn:Ew.
  intros [= <- Hres] Hm. destruct w as [[]|]; [|done]. cbn [map_err] in Hres.
  destruct (agg_prepare_spec _ _ _ _ _ _ _ Hinv Ep Hm) as (input & -> & Hs & -> & Hcol & ->).
  pose proof (agg_inv_step _ _ _ _ _ _ Hinv Hcol Ew) as Hinv'.
  set (d := batch_entries input) in *. set (a' := mkAggregate _ _ _ _ st) in *.
  apply (agg_finish_spec a' c _ (fun g => emit_or_absent (emit_of_op a (I ++ d) (no_keys (agg_keys a)) g)))
    in Hres as (Hd & Ho & He).
  2: { intros g _ x Hx. apply (emission_emit_of a' (I ++ d) (no_keys (agg_keys a))) in Hx; [|done|done].
       change (emit_of_op a (I ++ d) (no_keys (agg_keys a)) g = Ok x) in Hx. by rewrite Hx. }
  change (touched a' c) with (touched a c) in *.
  exists input. split_and!; try done; fold d.
  - rewrite Ho.
    apply (groups_change a I d p c (out_data (agg_input_schema a) (agg_keys a) (agg_aggregates a)) Hcol);
      unfold out_data; intros until g; by intros ->.
  - rewrite He. unfold agg_errs.
    rewrite <- (groups_change a I d p c (out_errs (agg_input_schema a) (agg_keys a) (agg_aggregates a)) Hcol);
      [|unfold out_errs; intros until g; by intros ->..].
    destruct Hcol as (_ & _ & _ & _ & -> & _). rewrite zbind_app.
    unfold out_errs. intros r. rewrite !weight_app. lia.
Qed.
End agg_correct.

(** ** The output depends on the integral only up to equivalence *)

Section agg_proper.
Context (s : Schema) (ks : list (Named Expr)) (aggs : list (Named AggFunc)).

#[export] Instance state_of_proper : Proper (zeq ==> eq ==> zeq) (state_of s ks aggs).
Proof. intros I J HIJ p ? <-. unfold state_of. by rewrite HIJ. Qed.

Lemma emit_of_proper I J p g : I ≡z J -> emit_of s ks aggs I p g = emit_of s ks aggs J p g.
Proof.
  intros HIJ. unfold emit_of. f_equal. apply zcanon_unique; [apply zcanon_spec|].
  rewrite (proj2 (zcanon_spec _)). by rewrite HIJ.
Qed.

Lemma rows_groups_length I g : g ∈ rows_groups s ks I -> length g = length ks.
Proof.
  intros Hg. apply list_elem_of_In, in_flat_map in Hg as ([row w] & _ & Hg). simpl in Hg.
  destruct (group_of s ks row) eqn:E; [|done]. destruct Hg as [->|[]]. by apply group_of_length in E.
Qed.

(** Any set of groups that covers the rows' groups will do. *)
Lemma groups_cover (F : list Value -> Entries) I p GS :
  no_keys ks = false -> NoDup GS -> (forall g, g ∈ rows_groups s ks I -> g ∈ GS) ->
  (forall g, g ∈ GS -> length g = length ks) ->
  (forall g, emit_of s ks aggs I p g = Ok Absent -> F g = []) ->
  flat_map F (groups s ks I) ≡z flat_map F GS.
Proof.
  intros Hk HGS Hsub Hl HF. unfold groups. rewrite Hk.
  destruct (zdedup_spec (rows_groups s ks I)) as [Hn Hi]. symmetry.
  apply flat_map_subset; [done|done| |].
  - intros g Hg. apply Hsub. by apply Hi.
  - intros g Hg Hng. rewrite HF; [done|]. apply emit_of_absent; [done|by apply Hl|]. by rewrite <- Hi.
Qed.

Lemma groups_proper (F : list Value -> Entries) I J p :
  I ≡z J -> (forall g, emit_of s ks aggs I p g = Ok Absent -> F g = []) ->
  flat_map F (groups s ks I) ≡z flat_map F (groups s ks J).
Proof.
  intros HIJ HF. destruct (no_keys ks) eqn:Hk; [unfold groups; by rewrite Hk|].
  destruct (zdedup_spec (rows_groups s ks I ++ rows_groups s ks J)) as [Hn Hi].
  rewrite (groups_cover F I p (zdedup (rows_groups s ks I ++ rows_groups s ks J))), 
          (groups_cover F J p (zdedup (rows_groups s ks I ++ rows_groups s ks J))); try done.
  all: try (intros g Hg; apply Hi, elem_of_app; auto; fail).
  all: try (intros g Hg; apply Hi, elem_of_app in Hg as [Hg|Hg]; by apply rows_groups_length in Hg).
  intros g Hg. apply HF. by rewrite (emit_of_proper I J).
Qed.

Lemma agg_data_proper I J p : I ≡z J -> agg_data s ks aggs I p ≡z agg_data s ks aggs J p.
Proof.
  intros HIJ. unfold agg_data. rewrite (groups_proper (out_data s ks aggs I p) I J p HIJ).
  - apply flat_map_zeq. intros g _. unfold out_data. by rewrite (emit_of_proper I J).
  - unfold out_data. by intros g ->.
Qed.

Lemma agg_errs_proper I J p : I ≡z J -> agg_errs s ks aggs I p ≡z agg_errs s ks aggs J p.
Proof.
  intros HIJ. unfold agg_errs. apply zeq_app; [by apply zbind_proper|].
  rewrite (groups_proper (out_errs s ks aggs I p) I J p HIJ).
  - apply flat_map_zeq. intros g _. unfold out_errs. by rewrite (emit_of_proper I J).
  - unfold out_errs. by intros g ->.
Qed.

(** Before its first step an aggregate has emitted nothing. *)
Lemma agg_data_init : agg_data s ks aggs [] false = [].
Proof.
  unfold agg_data, groups. destruct (no_keys ks) eqn:Hk; [|done].
  unfold out_data, emit_of, emitV. simpl. by rewrite Hk.
Qed.

Lemma agg_errs_init : agg_errs s ks aggs [] false = [].
Proof.
  unfold agg_errs, groups. destruct (no_keys ks) eqn:Hk; [|done].
  unfold out_errs, emit_of, emitV. simpl. by rewrite Hk.
Qed.
End agg_proper.

(** ** Properties *)

(** The incremental aggregation is right.  Whatever the backend, when the
    state holds the multisets of the integral [I], a successful step leaves it
    holding those of the integral with the delta, and what it emits on both
    streams is exactly the change of the accumulated output: one row per live
    group, folded from the group's multisets, and the live errors of the rows
    and of the groups (S-30, S-22). *)
Theorem agg_step_correct {B} `{BackendLaws B} (a a' : Aggregate B) (I : Entries) (p : bool)
    (input : ZSetBatch) (out : StepOutput) :
  agg_inv a I p -> mass (batch_entries input) <= i64_max -> op_step a [input] = (a', Ok out) ->
  let s := agg_input_schema a in let ks := agg_keys a in let aggs := agg_aggregates a in
  same_agg a a' /\ agg_inv a' (I ++ batch_entries input) (no_keys ks) /\
  agg_data s ks aggs I p ++ batch_entries (data out)
    ≡z agg_data s ks aggs (I ++ batch_entries input) (no_keys ks) /\
  agg_errs s ks aggs I p ++ batch_entries (errors out)
    ≡z agg_errs s ks aggs (I ++ batch_entries input) (no_keys ks).
Proof.
  intros Hinv Hm Hstep.
  destruct (agg_step_spec a I p [input] a' out Hinv Hstep) as (i & [= <-] & _ & ? & ? & _ & ? & ?);
    [by intros ? [= <-]|done].
Qed.

Definition ex_agg_schema : Schema := mkSchema [mkField "l.k" Int64 true; mkField "l.v" Int64 true].

(** Counting and summing the rows of each group of the first column. *)
Definition ex_agg (state : btree Key Z) : Aggregate MemBackend :=
  mkAggregate ex_agg_schema (mkSchema [mkField "k" Int64 true; mkField "n" Int64 true; mkField "s" Int64 true])
    [mkNamed "k" (EColumn "l.k")] [mkNamed "n" CountStar; mkNamed "s" (Sum (EColumn "l.v"))] (mkMem state).

(** The totals of a step are added without an overflow check
    ([*entry += weight]), unlike every other weight of the engine.  Two valid
    entries whose weights sum past [i64::MAX] make the group's total negative,
    and the step reports success with the group missing. *)
Theorem agg_total_wraps :
  let rows := [([VInt 1; VInt 0], i64_max); ([VInt 1; VNull], 1)] in
  exists a' out, op_step (ex_agg []) [mkBatch ex_agg_schema rows] = (a', Ok out) /\
    batch_entries (data out) = [] /\ batch_entries (errors out) = [] /\
    bt_get (total_key [VInt 1]) (mem_entries (agg_state a')) = Some i64_min.
Proof. eexists _, _. split; [vm_compute; reflexivity|]. done. Qed.

(** ** Witnesses *)

Lemma ex_agg_inv : agg_inv (ex_agg []) [] false.
Proof. split_and!; [split; constructor|done|done]. Qed.

Lemma agg_step_correct_witness :
  exists a' out, op_step (ex_agg []) [mkBatch ex_agg_schema [([VInt 1; VInt 5], 2); ([VInt 1; VNull], 1)]]
      = (a', Ok out) /\
    weight (agg_data ex_agg_schema [mkNamed "k"%string (EColumn "l.k")]
              [mkNamed "n"%string CountStar; mkNamed "s"%string (Sum (EColumn "l.v"))]
              [([VInt 1; VInt 5], 2); ([VInt 1; VNull], 1)] false) [VInt 1; VInt 3; VInt 10] = 1.
Proof.
  eexists _, _. split; [vm_compute; reflexivity|].
  etransitivity; [symmetry; apply (proj1 (proj2 (proj2 (agg_step_correct (ex_agg []) _ [] false
    (mkBatch ex_agg_schema [([VInt 1; VInt 5], 2); ([VInt 1; VNull], 1)]) _ ex_agg_inv ltac:(done) eq_refl))))|].
  vm_compute. reflexivity.
Defined.
