(* ===== verification/Oracle.v ===== *)
(** * The reference engine ([schweep-oracle]: engine.rs, aggregate.rs, live_errors.rs, error.rs)

    The oracle keeps the whole log of deltas and recomputes every answer from
    scratch.  It is what the incremental engine is compared with (I-1). *)

From Stdlib Require Import ZArith Lia.
From stdpp Require Import base list strings.
From S2P Require Import Prelude BTree ZAlg Value ZSet Plan Bind Linear Aggregate.

(** [NegativeIntegral] carries the row itself where the source carries its
    rendering. *)
Inductive OracleError :=
| OrPlan (e : PlanError)
| OrZSet (e : ZSetError)
| DuplicateTable (table : string)
| NegativeIntegral (table : string) (row : Row) (w : Z) (epoch : nat)
| EpochOutOfRange (requested sealed : nat)
| OrJoinWeightOverflow
| NegativeIntermediate (stage : string) (w : Z).

Definition unknown_table (n : string) : OracleError := OrPlan (UnknownTable n).

(** ** Live errors *)

Record LiveErrors := mkLive { by_message : btree string PlanError }.

Definition live_new : LiveErrors := mkLive bt_empty.

Definition record (l : LiveErrors) (e : PlanError) : result OracleError LiveErrors :=
  match evaluation_message e with
  | None => Err (OrPlan e)
  | Some m => Ok (mkLive (bt_insert m e (by_message l)))
  end.

Definition least (l : LiveErrors) : option PlanError :=
  match by_message l with [] => None | (_, e) :: _ => Some e end.

(** ** The log *)

Record Oracle := mkOracle { o_catalog : Catalog; o_log : list EpochDeltas }.

Definition insert_table (c : Catalog) (t : string * Schema) : result OracleError Catalog :=
  let? checked := map_err OrZSet (new_table (fields t.2)) in
  match bt_get t.1 c with
  | Some _ => Err (DuplicateTable t.1)
  | None => Ok (bt_insert t.1 checked c)
  end.

Definition Oracle_new (tables : list (string * Schema)) : result OracleError Oracle :=
  let? c := try_fold insert_table bt_empty tables in
  Ok (mkOracle c []).

Definition sealed_epoch (o : Oracle) : nat := length (o_log o).

(** One addition to a checked sum per row. *)
Definition add_checked (what : string) (m : btree Row Z) (e : Row * Z) : result OracleError (btree Row Z) :=
  let? w := ok_or (checked_add (default 0 (bt_get e.1 m)) e.2) (OrZSet (WeightOverflow what)) in
  Ok (bt_insert e.1 w m).

Definition check_non_negative (table : string) (epoch : nat) (out : Entries) (e : Row * Z)
    : result OracleError Entries :=
  if e.2 <? 0 then Err (NegativeIntegral table e.1 e.2 epoch)
  else if negb (e.2 =? 0) then Ok (out ++ [e]) else Ok out.

Definition contents_at (o : Oracle) (table : string) (epoch : nat) : result OracleError Entries :=
  match bt_get table (o_catalog o) with
  | None => Err (unknown_table table)
  | Some _ =>
      if (sealed_epoch o <? epoch)%nat then Err (EpochOutOfRange epoch (sealed_epoch o))
      else
        let? integral := try_fold (add_checked "integrating a table's deltas") bt_empty
          (flat_map (fun d => entries_for d table) (take epoch (o_log o))) in
        try_fold (check_non_negative table epoch) [] integral
  end.

Definition contents_batch_at (o : Oracle) (table : string) (epoch : nat) : result OracleError ZSetBatch :=
  let? schema := ok_or (bt_get table (o_catalog o)) (unknown_table table) in
  let? es := contents_at o table epoch in
  map_err OrZSet (from_entries schema es).

(** Validation of one epoch's rows against their table. *)
Definition check_row (schema : Schema) (e : Row * Z) : result OracleError unit :=
  if negb (length e.1 =? schema_len schema)%nat then
    Err (OrZSet (ArityMismatch (schema_len schema) (length e.1)))
  else try_for (fun p => map_err OrZSet (check_value schema p.1 p.2)) (imap (fun i v => (i, v)) e.1).

Definition check_table (c : Catalog) (t : string * Entries) : result OracleError unit :=
  let? schema := ok_or (bt_get t.1 c) (unknown_table t.1) in
  try_for (check_row schema) t.2.

(** The epoch stays in the log even when its contents are refused. *)
Definition seal_epoch (o : Oracle) (d : EpochDeltas) : Oracle * result OracleError nat :=
  match try_for (check_table (o_catalog o)) (tables d) with
  | Err e => (o, Err e)
  | Ok _ =>
      let o' := mkOracle (o_catalog o) (o_log o ++ [d]) in
      let epoch := sealed_epoch o' in
      (o', check? try_for (fun n => check? contents_at o' n epoch in Ok tt) (bt_keys (o_catalog o')) in
           Ok epoch)
  end.

(** ** Evaluation *)

Record Relation := mkRelation { rel_schema : Schema; rel_entries : Entries }.

Definition oracle_consolidate (es : Entries) : result OracleError Entries :=
  let? merged := try_fold (add_checked "consolidating an intermediate relation") bt_empty es in
  Ok (List.filter (fun e => negb (e.2 =? 0)) merged).

Fixpoint keys_match (l r : Row) (ixs : list (nat * nat)) : result OracleError bool :=
  match ixs with
  | [] => Ok true
  | (li, ri) :: ixs' =>
      let? lv := ok_or (row_get l li) (NegativeIntermediate "join key lookup" 0) in
      let? rv := ok_or (row_get r ri) (NegativeIntermediate "join key lookup" 0) in
      if is_null lv || is_null rv || negb (cmp_eqb lv rv) then Ok false else keys_match l r ixs'
  end.

Definition key_index (ls rs : Schema) (p : string * string) : result OracleError (nat * nat) :=
  let? li := ok_or (schema_index_of ls p.1) (OrPlan (PUnknownColumn p.1 (schema_to_string ls))) in
  let? ri := ok_or (schema_index_of rs p.2) (OrPlan (PUnknownColumn p.2 (schema_to_string rs))) in
  Ok (li, ri).

(** One pair of the nested loop. *)
Definition join_pair (ixs : list (nat * nat)) (out : Entries) (p : (Row * Z) * (Row * Z))
    : result OracleError Entries :=
  let '((l, lw), (r, rw)) := p in
  let? matched := keys_match l r ixs in
  if negb matched then Ok out
  else let? w := ok_or (checked_mul lw rw) OrJoinWeightOverflow in Ok (out ++ [(l ++ r, w)]).

Fixpoint eval_source (o : Oracle) (s : Source) (epoch : nat) : result OracleError Relation :=
  match s with
  | Scan table alias =>
      let? schema := ok_or (bt_get table (o_catalog o)) (unknown_table table) in
      let? qualified := map_err OrZSet (Schema_new (map (qualify alias) (fields schema))) in
      let? es := contents_at o table epoch in
      Ok (mkRelation qualified es)
  | SJoin l r on =>
      match on with
      | [] => Err (OrPlan CrossJoinNotSupported)
      | _ =>
          let? lr := eval_source o l epoch in
          let? rr := eval_source o r epoch in
          let? ixs := try_map (key_index (rel_schema lr) (rel_schema rr)) on in
          let? schema := map_err OrZSet (Schema_new (fields (rel_schema lr) ++ fields (rel_schema rr))) in
          let? es := try_fold (join_pair ixs) []
            (flat_map (fun a => map (fun b => (a, b)) (rel_entries rr)) (rel_entries lr)) in
          Ok (mkRelation schema es)
      end
  end.

(** ** Aggregates *)

(** A checked count of the members a predicate keeps. *)
Fixpoint count_members (f : Row -> result OracleError bool) (name : string) (total : Z) (members : Entries)
    : result OracleError Z :=
  match members with
  | [] => Ok total
  | (row, w) :: ms =>
      let? keep := f row in
      if keep then
        let? t := ok_or (checked_add total w) (OrPlan (AggregateOverflow name)) in
        count_members f name t ms
      else count_members f name total ms
  end.

(** The loop of [sum_and_count]: sum, count and whether any value was seen. *)
Definition sum_body (arg : Expr) (scope : Schema) (func : string) (acc : Z * Z * bool) (e : Row * Z)
    : result OracleError (Z * Z * bool) :=
  let '(sum, count, any) := acc in
  let overflow := OrPlan (AggregateOverflow func) in
  let? v := map_err OrPlan (eval arg e.1 scope) in
  match v with
  | VNull => Ok (sum, count, any)
  | VInt x =>
      let? term := ok_or (checked_i128 (e.2 * x)) overflow in
      let? sum' := ok_or (checked_i128 (sum + term)) overflow in
      let? count' := ok_or (checked_add count e.2) overflow in
      Ok (sum', count', true)
  | other => Err (OrPlan (AggregateTypeUnsupported func (default Int64 (data_type other))))
  end.

Definition sum_and_count (arg : Expr) (members : Entries) (scope : Schema) (func : string)
    : result OracleError (option (Z * Z)) :=
  let? '(sum, count, any) := try_fold (sum_body arg scope func) (0, 0, false) members in
  if negb any then Ok None
  else if in_i64 sum then Ok (Some (sum, count)) else Err (OrPlan (AggregateOverflow func)).

(** One member's effect on the extremum; [better] is [<] for [MIN]. *)
Definition extremum_body (arg : Expr) (scope : Schema) (better : Value -> Value -> bool)
    (best : option Value) (e : Row * Z) : result OracleError (option Value) :=
  if e.2 <? 1 then Ok best
  else
    let? v := map_err OrPlan (eval arg e.1 scope) in
    if is_null v then Ok best
    else Ok (Some (match best with
                   | None => v
                   | Some current => if better v current then v else current
                   end)).

Definition extremum_of (arg : Expr) (members : Entries) (scope : Schema) (better : Value -> Value -> bool)
    : result OracleError Value :=
  let? best := try_fold (extremum_body arg scope better) None members in
  Ok (default VNull best).

Definition evaluate (func : AggFunc) (members : Entries) (scope : Schema) : result OracleError Value :=
  let name := agg_name func in
  match func with
  | CountStar => map_ok VInt (count_members (fun _ => Ok true) name 0 members)
  | Count arg =>
      map_ok VInt (count_members (fun row =>
        let? v := map_err OrPlan (eval arg row scope) in Ok (negb (is_null v))) name 0 members)
  | Sum arg =>
      let? r := sum_and_count arg members scope name in
      match r with None => Ok VNull | Some (sum, _) => Ok (VInt sum) end
  | Avg arg =>
      let? r := sum_and_count arg members scope name in
      match r with None => Ok VNull | Some (sum, count) => Ok (VFloat (avg_bits sum count)) end
  | Min arg => extremum_of arg members scope (fun a b => match cmp a b with Lt => true | _ => false end)
  | Max arg => extremum_of arg members scope (fun a b => match cmp a b with Gt => true | _ => false end)
  end.

(** ** Grouping *)

(** The key of a row: its values, or the error that was recorded. *)
Fixpoint group_values (ks : list (Named Expr)) (row : Row) (scope : Schema) (key : list Value)
    (live : LiveErrors) : result OracleError (option (list Value) * LiveErrors) :=
  match ks with
  | [] => Ok (Some key, live)
  | k :: ks' =>
      match eval (value k) row scope with
      | Ok v => group_values ks' row scope (key ++ [v]) live
      | Err e => let? live' := record live e in Ok (None, live')
      end
  end.

Definition group_row (ks : list (Named Expr)) (scope : Schema)
    (acc : btree (list Value) Entries * LiveErrors) (e : Row * Z)
    : result OracleError (btree (list Value) Entries * LiveErrors) :=
  let '(grps, live) := acc in
  if e.2 <? 0 then Err (NegativeIntermediate "GROUP BY input" e.2)
  else
    let? '(key, live') := group_values ks e.1 scope [] live in
    match key with
    | None => Ok (grps, live')
    | Some k => Ok (bt_update k [] (fun ms => ms ++ [e]) grps, live')
    end.

(** The aggregates of one group; [None] when one raised. *)
Fixpoint group_aggregates (aggs : list (Named AggFunc)) (members : Entries) (scope : Schema)
    (values : Row) (live : LiveErrors) : result OracleError (option Row * LiveErrors) :=
  match aggs with
  | [] => Ok (Some values, live)
  | agg :: aggs' =>
      match evaluate (value agg) members scope with
      | Ok v => group_aggregates aggs' members scope (values ++ [v]) live
      | Err (OrPlan e) =>
          if is_evaluation_error e then let? live' := record live e in Ok (None, live')
          else Err (OrPlan e)
      | Err other => Err other
      end
  end.

Definition group_emit (g : GroupBy) (scope : Schema) (acc : Entries * LiveErrors)
    (p : list Value * Entries) : result OracleError (Entries * LiveErrors) :=
  let '(out, live) := acc in
  let '(key, members) := p in
  let? total := count_members (fun _ => Ok true) "GROUP BY" 0 members in
  if (total <=? 0) && negb (match keys g with [] => true | _ => false end) then Ok (out, live)
  else
    let? '(row, live') := group_aggregates (aggregates g) members scope key live in
    match row with
    | None => Ok (out, live')
    | Some r => Ok (out ++ [(r, 1)], live')
    end.

Definition eval_group_by (g : GroupBy) (input : Relation) (output : Schema) (live : LiveErrors)
    : result OracleError (Relation * LiveErrors) :=
  let init := match keys g with [] => bt_insert [] [] bt_empty | _ => bt_empty end in
  let? '(grps, live) := try_fold (group_row (keys g) (rel_schema input)) (init, live) (rel_entries input) in
  let? '(es, live) := try_fold (group_emit g (rel_schema input)) ([], live) grps in
  Ok (mkRelation output es, live).

(** ** Answers *)

(** [WHERE] and [HAVING]. *)
Definition where_body (p : Expr) (scope : Schema) (acc : Entries * LiveErrors) (e : Row * Z)
    : result OracleError (Entries * LiveErrors) :=
  let '(kept, live) := acc in
  match is_true p e.1 scope with
  | Ok true => Ok (kept ++ [e], live)
  | Ok false => Ok (kept, live)
  | Err x => let? live' := record live x in Ok (kept, live')
  end.

Definition where_ (p : option Expr) (r : Relation) (live : LiveErrors)
    : result OracleError (Relation * LiveErrors) :=
  match p with
  | None => Ok (r, live)
  | Some p =>
      let? '(kept, live) := try_fold (where_body p (rel_schema r)) ([], live) (rel_entries r) in
      Ok (mkRelation (rel_schema r) kept, live)
  end.

Definition select_body (items : list (Named Expr)) (scope : Schema) (acc : Entries * LiveErrors)
    (e : Row * Z) : result OracleError (Entries * LiveErrors) :=
  let '(projected, live) := acc in
  let? '(row, live') := group_values items e.1 scope [] live in
  match row with
  | None => Ok (projected, live')
  | Some values => Ok (projected ++ [(values, e.2)], live')
  end.

Definition select (items : option (list (Named Expr))) (output : Schema) (r : Relation) (live : LiveErrors)
    : result OracleError (Relation * LiveErrors) :=
  match items with
  | None => Ok (r, live)
  | Some items =>
      let? '(projected, live) := try_fold (select_body items (rel_schema r)) ([], live) (rel_entries r) in
      Ok (mkRelation output projected, live)
  end.

Definition distinct_entry (e : Row * Z) : result OracleError (Row * Z) :=
  if e.2 <? 0 then Err (NegativeIntermediate "DISTINCT input" e.2) else Ok (e.1, 1).

Definition answer_at (o : Oracle) (q : Query) (epoch : nat) : result OracleError ZSetBatch :=
  if (sealed_epoch o <? epoch)%nat then Err (EpochOutOfRange epoch (sealed_epoch o))
  else
    let? bound := map_err OrPlan (bind q (o_catalog o)) in
    let? r := eval_source o (source q) epoch in
    let? '(r, live) := where_ (filter_ q) r live_new in
    let? es := oracle_consolidate (rel_entries r) in
    let r := mkRelation (rel_schema r) es in
    let? '(r, live) :=
      match group_by q with
      | None => Ok (r, live)
      | Some g =>
          let? '(r, live) := eval_group_by g r (grouped_schema bound) live in
          where_ (having g) r live
      end in
    let? '(r, live) := select (project q) (output_schema bound) r live in
    match least live with
    | Some e => Err (OrPlan e)
    | None =>
        let? es := oracle_consolidate (rel_entries r) in
        let? es := if distinct q then try_map distinct_entry es else Ok es in
        map_err OrZSet (from_entries (output_schema bound) es)
    end.

Definition canonical_answer_at (o : Oracle) (q : Query) (epoch : nat) : result OracleError Canonical :=
  let? b := answer_at o q epoch in map_err OrZSet (canonical b).
