(* ===== verification/ResultStore.v ===== *)
(** * The maintained answer ([schweep-circuit]: result_store.rs, error.rs)

    The integral of one output stream, held as an ordered map, and the errors
    of the circuit runtime. *)

From Stdlib Require Import ZArith Lia Sorted.
From stdpp Require Import base list strings.
From S2P Require Import Prelude BTree ZAlg Value ZSet Plan Codec State Operator.

Inductive CircuitError :=
| CirOp (e : OpError)
| CirPlan (e : PlanError)
| CirZSet (e : ZSetError)
| UnknownNode (id : nat)
| UnknownSink (id : nat)
| EpochWouldGoBackwards (held offered : Z)
| NodeStillConsumed (node consumer : nat)
| SinkSchemaMismatch (held offered : string)
| NodeOutOfOrder (node input : nat)
| WiringArity (op : string) (expected found : nat)
| DuplicateSource (alias : string)
| UnknownSourceTable (table : string)
| EmptyCircuit
| StateBoundViolated (op declared : string) (actual budget : Z)
| StateDeclarationArityMismatch (op : string) (declared arity : nat)
| UnboundedStateNotAdmissible (op reason : string)
| CirWeightOverflow (while_doing : string)
| CorruptErrorStore
| InjectedFault (seam : string)
| CorruptSnapshot
| Snapshot (what : string)
| LiveEvaluationError (message : string).

Definition state_error_to_string (e : StateError) : string :=
  (match e with
   | StateWeightOverflow while_doing => "weight arithmetic overflowed i64 while " +:+ while_doing
   | Backend what => "state backend failure: " +:+ what
   end)%string.

Record ResultStore := mkStore { store_schema : Schema; integral : btree Row Z }.

Definition store_new (schema : Schema) : ResultStore := mkStore schema bt_empty.

Definition store_len (s : ResultStore) : nat := length (integral s).

Definition store_is_empty (s : ResultStore) : bool := (store_len s =? 0)%nat.

(** The loop of [absorb]: the entries before a failing one stay absorbed. *)
Fixpoint absorb_entries (m : btree Row Z) (es : Entries) : btree Row Z * result CircuitError unit :=
  match es with
  | [] => (m, Ok tt)
  | (row, weight) :: es' =>
      match bt_get row m with
      | None => absorb_entries (if weight =? 0 then m else bt_insert row weight m) es'
      | Some held =>
          match checked_add held weight with
          | None => (m, Err (CirWeightOverflow "absorbing a delta into a result store"))
          | Some sum => absorb_entries (if sum =? 0 then bt_remove row m else bt_insert row sum m) es'
          end
      end
  end.

Definition absorb (s : ResultStore) (delta : ZSetBatch) : ResultStore * result CircuitError unit :=
  if negb (bool_decide (batch_schema delta = store_schema s)) then
    (s, Err (CirZSet (SchemaMismatch (schema_to_string (store_schema s))
                        (schema_to_string (batch_schema delta)))))
  else
    match entries delta with
    | Err e => (s, Err (CirZSet e))
    | Ok es => let '(m, r) := absorb_entries (integral s) es in (mkStore (store_schema s) m, r)
    end.

Definition contents (s : ResultStore) : result CircuitError ZSetBatch :=
  map_err CirZSet (from_entries (store_schema s) (integral s)).

Definition store_canonical (s : ResultStore) : result CircuitError Canonical :=
  let? b := contents s in map_err CirZSet (canonical b).

Definition store_snapshot (s : ResultStore) : result CircuitError (list N) :=
  Ok (encode_entries (integral s)).

Definition store_restore (s : ResultStore) (bytes : list N) : ResultStore * result CircuitError unit :=
  match decode_entries bytes with
  | Err e => (s, Err (Snapshot (state_error_to_string e)))
  | Ok es => (mkStore (store_schema s) (bt_of_list es), Ok tt)
  end.

(** ** Absorbing adds the delta *)

Lemma absorb_entries_spec m es m' :
  zcanonical m -> absorb_entries m es = (m', Ok tt) -> zcanonical m' /\ m' ≡z m ++ es.
Proof.
  revert m. induction es as [|[row w] es IH]; intros m Hm; cbn [absorb_entries].
  { intros [= <-]. by rewrite app_nil_r. }
  assert (forall v, v = weight m row + w -> zcanonical (zset_to row v m) /\
    zset_to row v m ++ es ≡z m ++ (row, w) :: es) as Hstep.
  { intros v ->. split; [by apply zset_to_canonical|].
    intros k. pose proof (zset_to_add row w m (proj1 Hm) k) as Hk.
    rewrite weight_app in Hk. rewrite !weight_app. simpl in *. lia. }
  pose proof (weight_bt_get m row (proj1 Hm)) as Hw.
  destruct (bt_get row m) as [held|] eqn:Eg; simpl in Hw.
  - destruct (checked_add held w) as [sum|] eqn:Es; [|done].
    apply checked_add_Some in Es as [-> _]. destruct (Hstep (held + w)) as [Hc He]; [lia|].
    intros H%(IH (zset_to row (held + w) m) Hc). by rewrite <- He.
  - destruct (Hstep w) as [Hc He]; [lia|]. intros H.
    assert (absorb_entries (zset_to row w m) es = (m', Ok tt)) as H'.
    { unfold zset_to. destruct (w =? 0) eqn:E0; [|done].
      assert (bt_remove row m = m) as ->; [|done].
      apply bt_ext; [by apply bt_remove_sorted, Hm|apply Hm|]. intros k.
      rewrite bt_get_remove by apply Hm. case_cmp_eqb k row; by subst. }
    destruct (IH _ Hc H') as [? HE]. by rewrite <- He.
Qed.

(** The rows a schema accepts, one at a time. *)
Definition row_valid (s : Schema) (r : Row) : Prop := validate s [(r, 0)] = Ok tt.

Lemma check_cell_row s i e w : check_cell s i (e.1, w) = check_cell s i e.
Proof. done. Qed.

Lemma validate_rows s es : validate s es = Ok tt <-> Forall (fun e => row_valid s e.1) es.
Proof.
  assert (forall e i, try_for (check_cell s i) [(e.1, 0)] = Ok tt <-> check_cell s i e = Ok tt) as H1.
  { intros e i. rewrite try_for_Ok, Forall_singleton. by rewrite check_cell_row. }
  unfold row_valid, validate. rewrite try_for_Ok, Forall_forall, Forall_forall. split.
  - intros Hall e He. rewrite try_for_Ok, Forall_forall. intros i Hi. apply H1.
    specialize (Hall i Hi). rewrite try_for_Ok, Forall_forall in Hall. by apply Hall.
  - intros Hall i Hi. rewrite try_for_Ok, Forall_forall. intros e He.
    specialize (Hall e He). rewrite try_for_Ok, Forall_forall in Hall. by apply H1, Hall.
Qed.

(** A batch that [from_entries] built. *)
Definition built (b : ZSetBatch) : Prop := validate (batch_schema b) (batch_entries b) = Ok tt.

Lemma from_entries_built s es b : from_entries s es = Ok b -> built b.
Proof.
  unfold from_entries, built. destruct (validate s es) as [[]|] eqn:E; [|done]. by intros [= <-].
Qed.

(** ** The invariant of a store *)

Definition store_inv (s : ResultStore) : Prop :=
  zcanonical (integral s) /\ Forall (fun e => row_valid (store_schema s) e.1) (integral s).

Lemma store_new_inv schema : store_inv (store_new schema).
Proof. split; [apply zcanonical_nil|constructor]. Qed.

Lemma absorb_entries_Forall (P : Row -> Prop) m es :
  Forall (fun e => P e.1) m -> Forall (fun e => P e.1) es ->
  Forall (fun e => P e.1) (absorb_entries m es).1.
Proof.
  revert m. induction es as [|[row w] es IH]; intros m Hm Hes; cbn [absorb_entries]; [done|].
  apply Forall_cons in Hes as [Hr Hes].
  destruct (bt_get row m) as [held|]; [destruct (checked_add held w) as [sum|]; [|done]|];
    apply IH; try done; case_match; auto using bt_remove_Forall, bt_insert_Forall.
  all: by apply (bt_insert_Forall (fun e => P e.1)).
Qed.

(** What a successful [absorb] does. *)
Lemma absorb_spec s delta s' :
  store_inv s -> built delta -> absorb s delta = (s', Ok tt) ->
  store_inv s' /\ batch_schema delta = store_schema s /\ store_schema s' = store_schema s /\
  integral s' ≡z integral s ++ batch_entries delta.
Proof.
  intros [Hc Hv] Hb. unfold absorb. case_bool_decide as Hs; [|done]. cbn [negb entries].
  destruct (absorb_entries (integral s) (batch_entries delta)) as [m r] eqn:E.
  intros [= <- ->]. pose proof (absorb_entries_Forall (row_valid (store_schema s)) (integral s)
    (batch_entries delta) Hv) as Hv'. rewrite E in Hv'.
  apply absorb_entries_spec in E as [Hm Hz]; [|done]. split_and!; try done.
  split; [done|]. apply Hv'. unfold built in Hb. rewrite Hs in Hb. by apply validate_rows.
Qed.

(** The answer of a store is its integral. *)
Lemma store_canonical_Ok s :
  store_inv s -> store_canonical s = Ok (mkCanonical (store_schema s) (integral s)).
Proof.
  intros [Hc Hv]. unfold store_canonical, contents, from_entries.
  rewrite (proj2 (validate_rows _ _) Hv). cbn [map_err]. unfold canonical.
  by rewrite consolidated_entries_id.
Qed.

(** Absorbing a sequence of deltas. *)
Definition absorb_all (s : ResultStore) (deltas : list ZSetBatch) : result CircuitError ResultStore :=
  try_fold (fun s d => let '(s', r) := absorb s d in check? r in Ok s') s deltas.

Lemma absorb_all_spec s deltas s' :
  store_inv s -> Forall built deltas -> absorb_all s deltas = Ok s' ->
  store_inv s' /\ store_schema s' = store_schema s /\
  integral s' ≡z integral s ++ flat_map batch_entries deltas.
Proof.
  unfold absorb_all. revert s. induction deltas as [|d ds IH]; intros s Hs Hb; cbn [try_fold].
  { intros [= <-]. simpl. by rewrite app_nil_r. }
  apply Forall_cons in Hb as [Hd Hb]. destruct (absorb s d) as [s1 [[]|]] eqn:E; [|done].
  apply absorb_spec in E as (H1 & _ & Hsc & Hz); [|done..].
  intros (H' & Hsc' & Hz')%IH; [|done..]. split_and!; [done|congruence|].
  simpl. by rewrite Hz', Hz, <- app_assoc.
Qed.

(** ** Properties *)

(** A result store is the integral of its stream.  After absorbing any
    sequence of deltas, in whatever epochs they arrived, the answer it gives is
    the canonical form of all their entries taken together, whatever the signs
    of the weights; rows that cancelled leave nothing behind (S-8, I-9). *)
Theorem result_store_integrates (schema : Schema) (deltas : list ZSetBatch) (s : ResultStore) :
  Forall built deltas -> absorb_all (store_new schema) deltas = Ok s ->
  store_canonical s = Ok (mkCanonical schema (zcanon (flat_map batch_entries deltas))) /\
  (store_is_empty s = true <-> flat_map batch_entries deltas ≡z []).
Proof.
  intros Hb Hs. destruct (absorb_all_spec _ _ _ (store_new_inv schema) Hb Hs) as (Hinv & Hsc & Hz).
  simpl in Hsc, Hz. rewrite store_canonical_Ok, Hsc by done.
  split; [do 2 f_equal; apply zcanon_unique; [apply Hinv|done]|].
  unfold store_is_empty, store_len. rewrite Nat.eqb_eq, length_zero_iff_nil. split.
  - intros Hn. by rewrite <- Hz, Hn.
  - intros Hn. apply zcanonical_zeq_nil; [apply Hinv|by rewrite Hz].
Qed.

Lemma result_store_integrates_witness :
  exists s, absorb_all (store_new ex_schema)
      [mkBatch ex_schema [([VInt 2], 4); ([VInt 1], 1)]; mkBatch ex_schema [([VInt 1], -1)]] = Ok s /\
    store_canonical s = Ok (mkCanonical ex_schema [([VInt 2], 4)]).
Proof.
  eexists. split; [reflexivity|].
  refine (proj1 (result_store_integrates ex_schema [mkBatch ex_schema [([VInt 2], 4); ([VInt 1], 1)];
    mkBatch ex_schema [([VInt 1], -1)]] _ _ eq_refl)).
  repeat constructor.
Defined.
