(* ===== verification/Circuit.v ===== *)
(** * The circuit runtime ([schweep-circuit]: circuit.rs)

    A circuit is a vector of nodes in dependency order, each a source or a boxed
    operator wired to earlier nodes; a step pushes one epoch's deltas through
    them and folds each sink's output into its stores.  The operators are a type
    [Op] with an [Operator] instance, the [Box<dyn Operator>] of the source.
    Calls that can fail after changing the circuit return the changed circuit
    beside the error. *)

From Stdlib Require Import ZArith Lia.
From stdpp Require Import base list strings.
From S2P Require Import Prelude BTree ZAlg Value ZSet Plan Codec State Operator ResultStore.

(** [BTreeSet<NodeId>] *)
Abbreviation NodeSet := (btree nat unit).

Inductive Node (Op : Type) :=
| NSource (table alias : string) (schema : Schema)
| NOperator (op : Op) (inputs : list nat).
Arguments NSource {Op} _ _ _.
Arguments NOperator {Op} _ _.

Record NodeState := mkNodeState {
  ns_operator : string;
  ns_declared : string;
  ns_entries : nat;
  ns_budget : option Z;
  ns_backends : nat
}.

Record Sink := mkSink {
  sink_at_node : nat;
  sink_result : ResultStore;
  sink_errors : ResultStore;
  sink_ancestors : NodeSet
}.

Record Circuit (Op : Type) := mkCircuit {
  nodes : list (option (Node Op));
  sources : btree string (list nat);
  sinks : list (option Sink);
  epoch : Z;
  emitted_entries : list Z;
  steps : list Z;
  admitted_unbounded : NodeSet
}.
Arguments mkCircuit {Op} _ _ _ _ _ _ _.
Arguments nodes {Op} _.
Arguments sources {Op} _.
Arguments sinks {Op} _.
Arguments epoch {Op} _.
Arguments emitted_entries {Op} _.
Arguments steps {Op} _.
Arguments admitted_unbounded {Op} _.

Record CircuitBuilder (Op : Type) := mkBuilder { b_nodes : list (Node Op); b_sources : btree string nat }.
Arguments mkBuilder {Op} _ _.
Arguments b_nodes {Op} _.
Arguments b_sources {Op} _.

(** Assignments to one field. *)
Definition set_nodes {Op} (ns : list (option (Node Op))) (c : Circuit Op) : Circuit Op :=
  mkCircuit ns (sources c) (sinks c) (epoch c) (emitted_entries c) (steps c) (admitted_unbounded c).
Definition set_sinks {Op} (s : list (option Sink)) (c : Circuit Op) : Circuit Op :=
  mkCircuit (nodes c) (sources c) s (epoch c) (emitted_entries c) (steps c) (admitted_unbounded c).
Definition set_counters {Op} (em st : list Z) (c : Circuit Op) : Circuit Op :=
  mkCircuit (nodes c) (sources c) (sinks c) (epoch c) em st (admitted_unbounded c).
Definition assign_epoch {Op} (e : Z) (c : Circuit Op) : Circuit Op :=
  mkCircuit (nodes c) (sources c) (sinks c) e (emitted_entries c) (steps c) (admitted_unbounded c).

Definition source_batch (schema : Schema) (es : Entries) : result CircuitError ZSetBatch :=
  map_err CirZSet (from_entries schema es).

Section circuit.
Context {Op : Type} `{Operator Op}.

(** ** Wiring *)

Definition check_wiring (op : Op) (inputs : list nat) (id : nat) (admit_unbounded : bool)
    : result CircuitError unit :=
  if negb (op_arity op =? length inputs)%nat then
    Err (WiringArity (op_name op) (op_arity op) (length inputs))
  else
    check? match op_state_bound op with
           | ProportionalToInputs declared _ _ =>
               if negb (length declared =? op_arity op)%nat then
                 Err (StateDeclarationArityMismatch (op_name op) (length declared) (op_arity op))
               else Ok tt
           | Unbounded reason =>
               if negb admit_unbounded then Err (UnboundedStateNotAdmissible (op_name op) reason)
               else Ok tt
           | Stateless => Ok tt
           end in
    try_for (fun input => if (id <=? input)%nat then Err (NodeOutOfOrder id input) else Ok tt) inputs.

Definition node_at (c : Circuit Op) (id : nat) : result CircuitError (Node Op) :=
  match nodes c !! id with
  | Some (Some n) => Ok n
  | _ => Err (UnknownNode id)
  end.

Definition node_output_schema (c : Circuit Op) (id : nat) : result CircuitError Schema :=
  let? n := node_at c id in
  match n with
  | NSource _ _ schema => Ok schema
  | NOperator op _ => Ok (op_output_schema op)
  end.

Definition inputs_of (c : Circuit Op) (id : nat) : result CircuitError (list nat) :=
  let? n := node_at c id in
  match n with
  | NSource _ _ _ => Ok []
  | NOperator _ inputs => Ok inputs
  end.

(** The input edges of a node slot. *)
Definition slot_inputs (n : option (Node Op)) : list nat :=
  match n with Some (NOperator _ inputs) => inputs | _ => [] end.

(** The [while let Some(id) = stack.pop()] loop; [None]: out of fuel. *)
Fixpoint ancestors_loop (fuel : nat) (c : Circuit Op) (stack : list nat) (out : NodeSet)
    : option (result CircuitError NodeSet) :=
  match fuel with
  | O => None
  | S fuel' =>
      match stack with
      | [] => Some (Ok out)
      | id :: stack' =>
          if bt_contains id out then ancestors_loop fuel' c stack' out
          else match node_at c id with
               | Err e => Some (Err e)
               | Ok (NSource _ _ _) => ancestors_loop fuel' c stack' (bt_insert id tt out)
               | Ok (NOperator _ inputs) =>
                   ancestors_loop fuel' c (rev inputs ++ stack') (bt_insert id tt out)
               end
      end
  end.

(** Every node is expanded at most once, so the edges bound the pushes. *)
Definition ancestors_fuel (c : Circuit Op) : nat :=
  (2 + list_sum (map (fun n => length (slot_inputs n)) (nodes c)))%nat.

Definition ancestors_of (c : Circuit Op) (node : nat) : result CircuitError NodeSet :=
  default (Err (UnknownNode node)) (ancestors_loop (ancestors_fuel c) c [node] bt_empty).

(** ** Sinks *)

Definition add_sink (c : Circuit Op) (node : nat) : result CircuitError (Circuit Op * nat) :=
  let? schema := node_output_schema c node in
  let? ancestors := ancestors_of c node in
  let? errs := map_err CirOp error_schema in
  Ok (set_sinks (sinks c ++ [Some (mkSink node (store_new schema) (store_new errs) ancestors)]) c,
      length (sinks c)).

Definition sink_at (c : Circuit Op) (id : nat) : result CircuitError Sink :=
  match sinks c !! id with
  | Some (Some s) => Ok s
  | _ => Err (UnknownSink id)
  end.

Definition remove_sink (c : Circuit Op) (id : nat) : result CircuitError (Circuit Op) :=
  let? _ := sink_at c id in Ok (set_sinks (<[id := None]> (sinks c)) c).

Definition set_sink (c : Circuit Op) (id : nat) (s : Sink) : Circuit Op :=
  set_sinks (<[id := Some s]> (sinks c)) c.

Definition refresh_ancestors (c : Circuit Op) (id : nat) : result CircuitError (Circuit Op) :=
  let? s := sink_at c id in
  let? ancestors := ancestors_of c (sink_at_node s) in
  Ok (set_sink c id (mkSink (sink_at_node s) (sink_result s) (sink_errors s) ancestors)).

Definition repoint_sink (c : Circuit Op) (id node : nat) : Circuit Op * result CircuitError unit :=
  match (let? schema := node_output_schema c node in
         let? current := sink_at c id in
         if negb (bool_decide (store_schema (sink_result current) = schema)) then
           Err (SinkSchemaMismatch (schema_to_string (store_schema (sink_result current)))
                  (schema_to_string schema))
         else Ok current) with
  | Err e => (c, Err e)
  | Ok s =>
      let c' := set_sink c id (mkSink node (sink_result s) (sink_errors s) (sink_ancestors s)) in
      match refresh_ancestors c' id with
      | Err e => (c', Err e)
      | Ok c'' => (c'', Ok tt)
      end
  end.

Definition sink_node (c : Circuit Op) (id : nat) : result CircuitError nat :=
  let? s := sink_at c id in Ok (sink_at_node s).

Definition output_schema_of (c : Circuit Op) (id : nat) : result CircuitError Schema :=
  let? s := sink_at c id in Ok (store_schema (sink_result s)).

Definition answer_of (c : Circuit Op) (id : nat) : result CircuitError Canonical :=
  let? sink := sink_at c id in
  if negb (store_is_empty (sink_errors sink)) then
    let? live := store_canonical (sink_errors sink) in
    match head (canonical_entries live) with
    | Some (VStr message :: _, _) => Err (LiveEvaluationError message)
    | _ => Err CorruptErrorStore
    end
  else store_canonical (sink_result sink).

Definition answer (c : Circuit Op) : result CircuitError Canonical := answer_of c 0.

(** ** State accounting (I-9) *)

Definition state_budget (c : Circuit Op) (declared : StateBound) (inputs : list nat) (op : string)
    : result CircuitError Z :=
  match declared with
  | Stateless => Ok 0
  | ProportionalToInputs _ factor constant =>
      let? total := try_fold (fun total input =>
          let? emitted := ok_or (emitted_entries c !! input) (UnknownNode input) in
          Ok (saturating_add total emitted)) 0 inputs in
      Ok (saturating_add (saturating_mul total (Z.of_nat factor)) (Z.of_nat constant))
  | Unbounded reason => Err (UnboundedStateNotAdmissible op reason)
  end.

Definition is_unbounded (b : StateBound) : bool := match b with Unbounded _ => true | _ => false end.

Definition check_declaration (c : Circuit Op) (p : nat * option (Node Op)) : result CircuitError unit :=
  match p.2 with
  | Some (NOperator op inputs) =>
      let declared := op_state_bound op in
      if is_unbounded declared && bt_contains p.1 (admitted_unbounded c) then Ok tt
      else
        let? budget := state_budget c declared inputs (op_name op) in
        if budget <? Z.of_nat (op_state_size op) then
          Err (StateBoundViolated (op_name op) (bound_to_string declared)
                 (Z.of_nat (op_state_size op)) budget)
        else Ok tt
  | _ => Ok tt
  end.

Definition check_state_declarations (c : Circuit Op) : result CircuitError unit :=
  try_for (check_declaration c) (imap (fun index node => (index, node)) (nodes c)).

Definition node_state (c : Circuit Op) (id : nat) : result CircuitError (option NodeState) :=
  let? n := node_at c id in
  match n with
  | NSource _ _ _ => Ok None
  | NOperator op inputs =>
      let declared := op_state_bound op in
      let? budget := if is_unbounded declared && bt_contains id (admitted_unbounded c) then Ok None
                     else let? b := state_budget c declared inputs (op_name op) in Ok (Some b) in
      Ok (Some (mkNodeState (op_name op) (bound_to_string declared) (op_state_size op) budget
                  (op_backend_count op)))
  end.

Definition total_state_size (c : Circuit Op) : nat :=
  list_sum (map (fun n => match n with Some (NOperator op _) => op_state_size op | _ => O end) (nodes c)).

Definition live_nodes (c : Circuit Op) : nat :=
  length (filter (fun n => is_Some n) (nodes c)).

Definition live_sinks (c : Circuit Op) : nat :=
  length (filter (fun n => is_Some n) (sinks c)).

Definition operator_steps (c : Circuit Op) : Z :=
  as_u64 (foldr Z.add 0 (imap (fun index n =>
    match n with Some (NOperator _ _) => default 0 (steps c !! index) | _ => 0 end) (nodes c))).

(** ** One pass of the dataflow *)

Abbreviation Outputs := (list (option ZSetBatch)).
Abbreviation ErrorDeltas := (list (nat * ZSetBatch)).

Definition is_included (subset : option (list nat)) (id : nat) : bool :=
  match subset with None => true | Some only => existsb (Nat.eqb id) only end.

(** The outputs an operator's inputs name. *)
Definition gather (outputs : Outputs) (inputs : list nat) : result CircuitError (list ZSetBatch) :=
  try_map (fun input => match outputs !! input with
                        | Some (Some b) => Ok b
                        | _ => Err (UnknownNode input)
                        end) inputs.

(** The counters of a node that produced [emitted] entries. *)
Definition count (c : Circuit Op) (index emitted : nat) : Circuit Op :=
  set_counters (alter (fun n => saturating_add n (Z.of_nat emitted)) index (emitted_entries c))
    (alter (fun n => saturating_add n 1) index (steps c)) c.

(** One iteration of the loop over the nodes. *)
Definition pass_node (deltas : EpochDeltas) (subset : option (list nat)) (index : nat)
    (c : Circuit Op) (outputs : Outputs) (errs : ErrorDeltas)
    : Circuit Op * result CircuitError (Outputs * ErrorDeltas) :=
  match is_included subset index, nodes c !! index with
  | true, Some (Some (NSource table _ schema)) =>
      match source_batch schema (entries_for deltas table) with
      | Err e => (c, Err e)
      | Ok produced => (count c index (batch_len produced), Ok (outputs ++ [Some produced], errs))
      end
  | true, Some (Some (NOperator op inputs)) =>
      match gather outputs inputs with
      | Err e => (c, Err e)
      | Ok batches =>
          let '(op', r) := op_step op batches in
          let c' := set_nodes (<[index := Some (NOperator op' inputs)]> (nodes c)) c in
          match r with
          | Err e => (c', Err (CirOp e))
          | Ok out => (count c' index (batch_len (data out)),
                       Ok (outputs ++ [Some (data out)], errs ++ [(index, errors out)]))
          end
      end
  | _, _ => (c, Ok (outputs ++ [None], errs))
  end.

Fixpoint pass_nodes (deltas : EpochDeltas) (subset : option (list nat)) (indices : list nat)
    (c : Circuit Op) (outputs : Outputs) (errs : ErrorDeltas)
    : Circuit Op * result CircuitError (Outputs * ErrorDeltas) :=
  match indices with
  | [] => (c, Ok (outputs, errs))
  | index :: indices' =>
      match pass_node deltas subset index c outputs errs with
      | (c', Err e) => (c', Err e)
      | (c', Ok (outputs', errs')) => pass_nodes deltas subset indices' c' outputs' errs'
      end
  end.

(** Each sink folds in the delta of the node it reads. *)
Fixpoint absorb_results (outputs : Outputs) (ss : list (option Sink))
    : list (option Sink) * result CircuitError unit :=
  match ss with
  | [] => ([], Ok tt)
  | slot :: ss' =>
      let '(slot', r) :=
        match slot with
        | Some s => match outputs !! sink_at_node s with
                    | Some (Some delta) =>
                        let '(st, r) := absorb (sink_result s) delta in
                        (Some (mkSink (sink_at_node s) st (sink_errors s) (sink_ancestors s)), r)
                    | _ => (slot, Ok tt)
                    end
        | None => (slot, Ok tt)
        end in
      match r with
      | Err e => (slot' :: ss', Err e)
      | Ok _ => let '(rest, r') := absorb_results outputs ss' in (slot' :: rest, r')
      end
  end.

(** One operator's error delta, folded into every sink downstream of it. *)
Fixpoint absorb_error (node : nat) (delta : ZSetBatch) (ss : list (option Sink))
    : list (option Sink) * result CircuitError unit :=
  match ss with
  | [] => ([], Ok tt)
  | slot :: ss' =>
      let '(slot', r) :=
        match slot with
        | Some s => if bt_contains node (sink_ancestors s) then
                      let '(st, r) := absorb (sink_errors s) delta in
                      (Some (mkSink (sink_at_node s) (sink_result s) st (sink_ancestors s)), r)
                    else (slot, Ok tt)
        | None => (slot, Ok tt)
        end in
      match r with
      | Err e => (slot' :: ss', Err e)
      | Ok _ => let '(rest, r') := absorb_error node delta ss' in (slot' :: rest, r')
      end
  end.

Fixpoint absorb_errors (errs : ErrorDeltas) (ss : list (option Sink))
    : list (option Sink) * result CircuitError unit :=
  match errs with
  | [] => (ss, Ok tt)
  | (node, delta) :: errs' =>
      let '(ss', r) := absorb_error node delta ss in
      match r with
      | Err e => (ss', Err e)
      | Ok _ => absorb_errors errs' ss'
      end
  end.

Definition pass (c : Circuit Op) (deltas : EpochDeltas) (subset : option (list nat))
    : Circuit Op * result CircuitError unit :=
  match pass_nodes deltas subset (seq 0 (length (nodes c))) c [] [] with
  | (c1, Err e) => (c1, Err e)
  | (c1, Ok (outputs, errs)) =>
      match check_state_declarations c1 with
      | Err e => (c1, Err e)
      | Ok _ =>
          match absorb_results outputs (sinks c1) with
          | (ss, Err e) => (set_sinks ss c1, Err e)
          | (ss, Ok _) => let '(ss', r) := absorb_errors errs ss in (set_sinks ss' c1, r)
          end
      end
  end.

Definition prime (c : Circuit Op) : Circuit Op * result CircuitError unit := pass c deltas_new None.

Definition catch_up (c : Circuit Op) (deltas : EpochDeltas) (subset : list nat)
    : Circuit Op * result CircuitError unit := pass c deltas (Some subset).

Definition step (c : Circuit Op) (deltas : EpochDeltas) : Circuit Op * result CircuitError Z :=
  match pass c deltas None with
  | (c', Err e) => (c', Err e)
  | (c', Ok _) => let e := as_u64 (epoch c' + 1) in (assign_epoch e c', Ok e)
  end.

Definition set_epoch (c : Circuit Op) (e : Z) : result CircuitError (Circuit Op) :=
  if e <? epoch c then Err (EpochWouldGoBackwards (epoch c) e) else Ok (assign_epoch e c).

(** ** Building a circuit *)

Definition builder_new : CircuitBuilder Op := mkBuilder [] bt_empty.

Definition builder_source (b : CircuitBuilder Op) (table alias : string) (schema : Schema)
    : result CircuitError (CircuitBuilder Op * nat) :=
  if bt_contains alias (b_sources b) then Err (DuplicateSource alias)
  else
    let id := length (b_nodes b) in
    Ok (mkBuilder (b_nodes b ++ [NSource table alias schema]) (bt_insert alias id (b_sources b)), id).

Definition builder_add (b : CircuitBuilder Op) (op : Op) (inputs : list nat)
    : result CircuitError (CircuitBuilder Op * nat) :=
  let id := length (b_nodes b) in
  check? check_wiring op inputs id false in
  Ok (mkBuilder (b_nodes b ++ [NOperator op inputs]) (b_sources b), id).

Definition push_source (m : btree string (list nat)) (alias : string) (id : nat) : btree string (list nat) :=
  bt_update alias [] (fun ids => ids ++ [id]) m.

(** The circuit [build] assembles, before its sink is added. *)
Definition assemble (b : CircuitBuilder Op) : Circuit Op :=
  mkCircuit (map Some (b_nodes b))
    (fold_left (fun m p => push_source m p.1 p.2) (b_sources b) bt_empty)
    [] 0 (repeat 0 (length (b_nodes b))) (repeat 0 (length (b_nodes b))) bt_empty.

Definition build (b : CircuitBuilder Op) (sink : nat) : result CircuitError (Circuit Op) :=
  match b_nodes b with
  | [] => Err EmptyCircuit
  | _ =>
      let? '(c, _) := add_sink (assemble b) sink in
      match prime c with
      | (_, Err e) => Err e
      | (c', Ok _) => Ok c'
      end
  end.

(** ** The mutable topology *)

Definition circuit_empty : Circuit Op := mkCircuit [] bt_empty [] 0 [] [] bt_empty.

Definition attach_source (c : Circuit Op) (table alias : string) (schema : Schema) : Circuit Op * nat :=
  let id := length (nodes c) in
  (mkCircuit (nodes c ++ [Some (NSource table alias schema)]) (push_source (sources c) alias id)
     (sinks c) (epoch c) (emitted_entries c ++ [0]) (steps c ++ [0]) (admitted_unbounded c), id).

Definition attach (c : Circuit Op) (op : Op) (inputs : list nat) (admit_unbounded : bool)
    : result CircuitError (Circuit Op * nat) :=
  let id := length (nodes c) in
  check? check_wiring op inputs id admit_unbounded in
  check? try_for (fun input => match node_at c input with
                               | Ok _ => Ok tt
                               | Err _ => Err (UnknownNode input)
                               end) inputs in
  Ok (mkCircuit (nodes c ++ [Some (NOperator op inputs)]) (sources c) (sinks c) (epoch c)
        (emitted_entries c ++ [0]) (steps c ++ [0])
        (if admit_unbounded then bt_insert id tt (admitted_unbounded c) else admitted_unbounded c), id).

(** No live node and no sink reads [id]. *)
Definition check_unread (c : Circuit Op) (id : nat) : result CircuitError unit :=
  check? try_for (fun p => if existsb (Nat.eqb id) (slot_inputs p.2)
                           then Err (NodeStillConsumed id p.1) else Ok tt)
           (imap (fun index n => (index, n)) (nodes c)) in
  try_for (fun s => match s with
                    | Some s => if (sink_at_node s =? id)%nat
                                then Err (NodeStillConsumed id (sink_at_node s)) else Ok tt
                    | None => Ok tt
                    end) (sinks c).

(** [sources.get_mut(alias)]: drop [id], and the alias with its last node. *)
Definition drop_source (m : btree string (list nat)) (alias : string) (id : nat) : btree string (list nat) :=
  match bt_get alias m with
  | None => m
  | Some ids =>
      match filter (fun held => held <> id) ids with
      | [] => bt_remove alias m
      | left_ids => bt_insert alias left_ids m
      end
  end.

Definition remove (c : Circuit Op) (id : nat) : result CircuitError (Circuit Op) :=
  let? n := node_at c id in
  check? check_unread c id in
  Ok (mkCircuit (<[id := None]> (nodes c))
        (match n with NSource _ alias _ => drop_source (sources c) alias id | _ => sources c end)
        (sinks c) (epoch c) (emitted_entries c) (steps c) (bt_remove id (admitted_unbounded c))).

(** Every edge at [from] of one input list. *)
Definition redirect (from to : nat) (inputs : list nat) : list nat :=
  map (fun i => if (i =? from)%nat then to else i) inputs.

Fixpoint rewire_loop (from to : nat) (indices : list nat) (c : Circuit Op) (moved : nat)
    : Circuit Op * result CircuitError nat :=
  match indices with
  | [] => (c, Ok moved)
  | index :: indices' =>
      match nodes c !! index with
      | Some (Some (NOperator op inputs)) =>
          if negb (existsb (Nat.eqb from) inputs) then rewire_loop from to indices' c moved
          else if (index <=? to)%nat then (c, Err (NodeOutOfOrder index to))
          else rewire_loop from to indices'
                 (set_nodes (<[index := Some (NOperator op (redirect from to inputs))]> (nodes c)) c)
                 (moved + length (filter (fun i => i = from) inputs))
      | _ => rewire_loop from to indices' c moved
      end
  end.

Definition rewire_inputs (c : Circuit Op) (from to : nat) : Circuit Op * result CircuitError nat :=
  match (let? offered := node_output_schema c to in
         let? held := node_output_schema c from in
         if negb (bool_decide (offered = held)) then
           Err (SinkSchemaMismatch (schema_to_string held) (schema_to_string offered))
         else Ok tt) with
  | Err e => (c, Err e)
  | Ok _ => rewire_loop from to (seq 0 (length (nodes c))) c 0
  end.

Definition reference_counts (c : Circuit Op) : btree nat nat :=
  let live := fold_left (fun m index => match nodes c !! index with
                                        | Some (Some _) => bt_update index O id m
                                        | _ => m
                                        end) (seq 0 (length (nodes c))) bt_empty in
  let edges := fold_left (fun m n => fold_left (fun m i => bt_update i O S m) (slot_inputs n) m)
                 (nodes c) live in
  fold_left (fun m s => match s with Some s => bt_update (sink_at_node s) O S m | None => m end)
    (sinks c) edges.

(** ** Checkpointing *)

Definition push_block (out block : list N) : list N := out ++ be_bytes 4 (Z.of_nat (length block)) ++ block.

(** [take_block] on the bytes from the cursor on. *)
Definition take_block (bytes : list N) : result CircuitError (list N * list N) :=
  let? '(raw, rest) := ok_or (split_at 4 bytes) CorruptSnapshot in
  ok_or (split_at (Z.to_nat (from_be_bytes raw)) rest) CorruptSnapshot.

Definition snapshot_sink (out : list N) (s : option Sink) : result CircuitError (list N) :=
  match s with
  | Some s => let? r := store_snapshot (sink_result s) in
              let? e := store_snapshot (sink_errors s) in
              Ok (push_block (push_block out r) e)
  | None => Ok (push_block (push_block out []) [])
  end.

Definition snapshot_node (out : list N) (n : option (Node Op)) : result CircuitError (list N) :=
  let? block := match n with
                | Some (NOperator op _) => map_err CirOp (op_snapshot op)
                | _ => Ok []
                end in
  Ok (push_block out block).

Definition snapshot (c : Circuit Op) : result CircuitError (list N) :=
  let out := be_bytes 8 (epoch c) ++ be_bytes 4 (Z.of_nat (length (emitted_entries c))) ++
             flat_map (be_bytes 8) (emitted_entries c) ++ be_bytes 4 (Z.of_nat (length (sinks c))) in
  let? out := try_fold snapshot_sink out (sinks c) in
  try_fold snapshot_node out (nodes c).

Fixpoint restore_counters (n : nat) (bytes : list N) (acc : list Z)
    : list Z * result CircuitError (list N) :=
  match n with
  | O => (acc, Ok bytes)
  | S n' => match split_at 8 bytes with
            | None => (acc, Err CorruptSnapshot)
            | Some (raw, rest) => restore_counters n' rest (acc ++ [from_be_bytes raw])
            end
  end.

(** The stores of one sink slot, from the two blocks at the cursor. *)
Definition restore_sink (s : option Sink) (bytes : list N)
    : option Sink * result CircuitError (list N) :=
  match take_block bytes with
  | Err e => (s, Err e)
  | Ok (result_block, next) =>
      match take_block next with
      | Err e => (s, Err e)
      | Ok (error_block, next) =>
          match s with
          | None => (s, Ok next)
          | Some k =>
              let '(res, r1) := store_restore (sink_result k) result_block in
              match r1 with
              | Err e => (Some (mkSink (sink_at_node k) res (sink_errors k) (sink_ancestors k)), Err e)
              | Ok _ =>
                  let '(errs, r2) := store_restore (sink_errors k) error_block in
                  (Some (mkSink (sink_at_node k) res errs (sink_ancestors k)), check? r2 in Ok next)
              end
          end
      end
  end.

Definition restore_node (n : option (Node Op)) (bytes : list N)
    : option (Node Op) * result CircuitError (list N) :=
  match take_block bytes with
  | Err e => (n, Err e)
  | Ok (block, next) =>
      match n with
      | Some (NOperator op inputs) =>
          let '(op', r) := op_restore op block in
          (Some (NOperator op' inputs), check? map_err CirOp r in Ok next)
      | _ => (n, Ok next)
      end
  end.

(** A loop that restores the slots of a vector one after the other. *)
Fixpoint restore_each {A} (f : A -> list N -> A * result CircuitError (list N)) (l : list A) (bytes : list N)
    : list A * result CircuitError (list N) :=
  match l with
  | [] => ([], Ok bytes)
  | x :: l' =>
      let '(x', r) := f x bytes in
      match r with
      | Err e => (x' :: l', Err e)
      | Ok next => let '(rest, r') := restore_each f l' next in (x' :: rest, r')
      end
  end.

Definition restore_body (c : Circuit Op) (bytes : list N) : Circuit Op * result CircuitError unit :=
  match restore_each restore_sink (sinks c) bytes with
  | (ss, Err e) => (set_sinks ss c, Err e)
  | (ss, Ok next) =>
      let '(ns, r) := restore_each restore_node (nodes c) next in
      (set_nodes ns (set_sinks ss c), check? r in Ok tt)
  end.

(** The sink count, then the sinks and the nodes. *)
Definition restore_slots (c : Circuit Op) (bytes : list N) : Circuit Op * result CircuitError unit :=
  match split_at 4 bytes with
  | None => (c, Err CorruptSnapshot)
  | Some (raw, rest) =>
      if negb (from_be_bytes raw =? Z.of_nat (length (sinks c))) then (c, Err CorruptSnapshot)
      else restore_body c rest
  end.

Definition restore (c : Circuit Op) (bytes : list N) : Circuit Op * result CircuitError unit :=
  match split_at 8 bytes with
  | None => (c, Err CorruptSnapshot)
  | Some (raw, rest) =>
      let c := assign_epoch (from_be_bytes raw) c in
      match split_at 4 rest with
      | None => (c, Err CorruptSnapshot)
      | Some (raw, rest) =>
          if negb (from_be_bytes raw =? Z.of_nat (length (nodes c))) then (c, Err CorruptSnapshot)
          else
            let '(em, r) := restore_counters (length (nodes c)) rest [] in
            let c := set_counters em (steps c) c in
            match r with
            | Err e => (c, Err e)
            | Ok rest => restore_slots c rest
            end
      end
  end.
End circuit.

(** ** Ancestors *)

Section ancestors.
Context {Op : Type} `{Operator Op}.
Implicit Type (c : Circuit Op) (out : NodeSet) (stack : list nat).

Lemma elem_of_rev_iff {A} (x : A) l : x ∈ rev l <-> x ∈ l.
Proof. by rewrite !list_elem_of_In, <- in_rev. Qed.

(** [reaches c n m]: [m] is [n] or upstream of it. *)
Inductive reaches c : nat -> nat -> Prop :=
| reaches_here n : reaches c n n
| reaches_up n i m slot : nodes c !! n = Some slot -> i ∈ slot_inputs slot -> reaches c i m -> reaches c n m.

Lemma reaches_input c n m slot i :
  reaches c n m -> nodes c !! m = Some slot -> i ∈ slot_inputs slot -> reaches c n i.
Proof.
  intros Hr Hm Hi. induction Hr as [n|n j m slot' Hn Hj Hr IH].
  - eapply reaches_up; [exact Hm|exact Hi|constructor].
  - eapply reaches_up; eauto.
Qed.

Lemma bt_contains_insert (k k' : nat) out :
  bt_contains k (bt_insert k' tt out) = cmp_eqb k k' || bt_contains k out.
Proof. unfold bt_contains. rewrite bt_get_insert. by destruct (cmp_eqb k k'). Qed.

(** The edges not yet pushed. *)
Definition pending c out : nat :=
  list_sum (map (fun i => if bt_contains i out then O
                          else length (slot_inputs (default None (nodes c !! i)))) (seq 0 (length (nodes c)))).

Lemma list_sum_update (f g : nat -> nat) l k :
  NoDup l -> k ∈ l -> g k = O -> (forall i, i <> k -> g i = f i) ->
  list_sum (map f l) = (f k + list_sum (map g l))%nat.
Proof.
  intros Hnd Hk Hg Hi. induction Hnd as [|x l Hx Hnd IH]; [by inversion Hk|]. simpl.
  apply elem_of_cons in Hk as [->|Hk].
  - rewrite Hg. simpl. f_equal. f_equal. apply map_ext_in. intros i Hil%list_elem_of_In.
    symmetry. apply Hi. by intros ->.
  - rewrite IH by done. rewrite Hi by (by intros ->). lia.
Qed.

Lemma pending_insert c out id slot :
  nodes c !! id = Some slot -> bt_contains id out = false ->
  pending c out = (length (slot_inputs slot) + pending c (bt_insert id tt out))%nat.
Proof.
  intros Hn Hc. unfold pending.
  rewrite (list_sum_update _ (fun i => if bt_contains i (bt_insert id tt out) then O
    else length (slot_inputs (default None (nodes c !! i)))) _ id).
  - by rewrite Hc, Hn.
  - apply NoDup_seq.
  - apply elem_of_seq. apply lookup_lt_Some in Hn. lia.
  - by rewrite bt_contains_insert, cmp_eqb_refl.
  - intros i Hi. rewrite bt_contains_insert. by case_cmp_eqb i id.
Qed.

Lemma ancestors_loop_fuel fuel c stack out :
  (length stack + pending c out < fuel)%nat -> ancestors_loop fuel c stack out <> None.
Proof.
  revert stack out. induction fuel as [|fuel IH]; intros stack out Hf; [lia|]. cbn [ancestors_loop].
  destruct stack as [|id stack]; [done|]. simpl in Hf.
  destruct (bt_contains id out) eqn:Ec; [apply IH; lia|]. unfold node_at.
  destruct (nodes c !! id) as [[[t a s|op inputs]|]|] eqn:En; try done;
    pose proof (pending_insert _ _ _ _ En Ec) as Hp; simpl in Hp; apply IH;
    rewrite ?length_app, ?length_rev; lia.
Qed.

(** The loop's fuel is always enough. *)
Lemma ancestors_of_loop c node :
  Some (ancestors_of c node) = ancestors_loop (ancestors_fuel c) c [node] bt_empty.
Proof.
  unfold ancestors_of.
  destruct (ancestors_loop (ancestors_fuel c) c [node] bt_empty) eqn:E; [done|].
  apply ancestors_loop_fuel in E; [done|]. unfold ancestors_fuel, pending. simpl.
  assert (map (fun i => length (slot_inputs (default None (nodes c !! i)))) (seq 0 (length (nodes c)))
          = map (fun n => length (slot_inputs n)) (nodes c)) as ->; [|lia].
  clear. change (map ?f ?l) with (f <$> l). apply list_eq. intros i. rewrite !list_lookup_fmap.
  destruct (nodes c !! i) as [n|] eqn:En.
  - rewrite lookup_seq_lt by (by apply lookup_lt_Some in En). simpl. by rewrite En.
  - apply lookup_ge_None in En. by rewrite lookup_seq_ge.
Qed.

Lemma ancestors_loop_spec fuel c root stack out res :
  (forall i, i ∈ stack \/ bt_contains i out = true -> reaches c root i) ->
  (forall i slot j, bt_contains i out = true -> nodes c !! i = Some slot -> j ∈ slot_inputs slot ->
     j ∈ stack \/ bt_contains j out = true) ->
  root ∈ stack \/ bt_contains root out = true ->
  ancestors_loop fuel c stack out = Some (Ok res) ->
  forall m, bt_contains m res = true <-> reaches c root m.
Proof.
  revert stack out. induction fuel as [|fuel IH]; intros stack out Hsound Hclosed Hroot; [done|].
  cbn [ancestors_loop]. destruct stack as [|id stack].
  { intros [= <-] m. split; [by intros; apply Hsound; right|]. intros Hr.
    destruct Hroot as [Hroot|Hroot]; [by inversion Hroot|]. clear Hsound IH.
    induction Hr as [|n i m slot Hn Hi Hr IHr]; [done|]. apply IHr.
    destruct (Hclosed _ _ _ Hroot Hn Hi) as [Hx|Hx]; [by inversion Hx|exact Hx]. }
  destruct (bt_contains id out) eqn:Ec.
  { apply IH.
    - intros i Hi. apply Hsound. rewrite elem_of_cons. tauto.
    - intros i slot j Hi Hs Hj. destruct (Hclosed _ _ _ Hi Hs Hj) as [Hx|]; [|by right].
      apply elem_of_cons in Hx as [->|]; [by right|by left].
    - destruct Hroot as [Hx|]; [|by right]. apply elem_of_cons in Hx as [->|]; [by right|by left]. }
  assert (forall slot rest, nodes c !! id = Some slot -> rest = rev (slot_inputs slot) ++ stack ->
    ancestors_loop fuel c rest (bt_insert id tt out) = Some (Ok res) ->
    forall m, bt_contains m res = true <-> reaches c root m) as Hgo.
  { intros slot rest Hn -> . apply IH.
    - intros i. rewrite elem_of_app, elem_of_rev_iff, bt_contains_insert, orb_true_iff, cmp_eqb_eq.
      intros Hi. assert (i ∈ slot_inputs slot \/ i ∈ id :: stack \/ bt_contains i out = true) as [Hi'|Hi']
        by (rewrite elem_of_cons; tauto); [|by apply Hsound].
      eapply reaches_input; [|exact Hn|exact Hi']. apply Hsound. left. apply list_elem_of_here.
    - intros i slot' j. rewrite elem_of_app, elem_of_rev_iff, !bt_contains_insert, !orb_true_iff, !cmp_eqb_eq.
      intros [->|Hi] Hs Hj; [rewrite Hn in Hs; injection Hs as <-; by left; left|].
      destruct (Hclosed _ _ _ Hi Hs Hj) as [Hx|Hx]; rewrite ?elem_of_cons in Hx; tauto.
    - rewrite elem_of_app, bt_contains_insert, orb_true_iff, cmp_eqb_eq.
      rewrite elem_of_cons in Hroot. tauto. }
  unfold node_at. destruct (nodes c !! id) as [[[t a s|op inputs]|]|] eqn:En; try done;
    by apply (Hgo _ _ eq_refl).
Qed.

Lemma ancestors_of_spec c node res :
  ancestors_of c node = Ok res -> forall m, bt_contains m res = true <-> reaches c node m.
Proof.
  intros Hr. assert (Some (Ok res) = ancestors_loop (ancestors_fuel c) c [node] bt_empty) as Hl
    by (rewrite <- ancestors_of_loop; by f_equal).
  symmetry in Hl. eapply ancestors_loop_spec; [| | |exact Hl].
  - intros i [->%list_elem_of_singleton|]; [constructor|done].
  - done.
  - left. apply list_elem_of_here.
Qed.
End ancestors.
