(* ===== verification/Dataflow.v ===== *)
(** * What a circuit computes

    The contract of an operator, as a class: a function from accumulated inputs
    to an accumulated output, and a state invariant under which every step emits
    exactly the change of that function.  Against this contract alone, a circuit
    of any shape maintains, at every sink, the composition of its operators'
    functions over the accumulated tables. *)

From Stdlib Require Import ZArith Lia Sorted.
From stdpp Require Import base list strings.
From S2P Require Import Prelude BTree ZAlg Value ZSet Plan Codec State Operator ResultStore Circuit.

(** A batch small enough that sums of its weights do not wrap. *)
Definition small (b : ZSetBatch) : bool := mass (batch_entries b) <=? i64_max.

(** Pointwise equivalence of accumulated inputs. *)
Abbreviation zeqs := (Forall2 (zeq (K := Row))).

(** The contract: [op_inv op b Is], the state of [op] stands for the accumulated
    inputs [Is] ([b]: it has stepped before), [op_data] and [op_errs] the
    accumulated outputs. *)
Class OperatorLaws (Op : Type) `{Operator Op} := {
  op_inv : Op -> bool -> list Entries -> Prop;
  op_data : Op -> bool -> list Entries -> Entries;
  op_errs : Op -> bool -> list Entries -> Entries;
  op_inv_proper op b Is Js : zeqs Is Js -> op_inv op b Is -> op_inv op b Js;
  op_data_proper op b Is Js : zeqs Is Js -> op_data op b Is ≡z op_data op b Js;
  op_errs_proper op b Is Js : zeqs Is Js -> op_errs op b Is ≡z op_errs op b Js;
  op_data_init op Is : Forall (fun I => I ≡z []) Is -> op_data op false Is ≡z [];
  op_errs_init op Is : Forall (fun I => I ≡z []) Is -> op_errs op false Is ≡z [];
  op_step_ok op b Is batches op' out :
    op_inv op b Is -> length Is = length batches -> Forall (fun b => small b = true) batches ->
    op_step op batches = (op', Ok out) ->
    let Js := zip_with app Is (map batch_entries batches) in
    op_inv op' true Js /\
    op_output_schema op' = op_output_schema op /\
    (forall b Is, op_data op' b Is = op_data op b Is) /\
    (forall b Is, op_errs op' b Is = op_errs op b Is) /\
    batch_schema (data out) = op_output_schema op /\ built (data out) /\ built (errors out) /\
    op_data op b Is ++ batch_entries (data out) ≡z op_data op true Js /\
    op_errs op b Is ++ batch_entries (errors out) ≡z op_errs op true Js
}.

Section dataflow.
Context {Op : Type} `{OperatorLaws Op}.
Implicit Type (c : Circuit Op) (n : option (Node Op)) (ns : list (option (Node Op))).

(** The contents of the tables. *)
Abbreviation Env := (string -> Entries).

(** ** The denotation of a circuit *)

(** The inputs of a node, given the values of the nodes before it. *)
Definition inputs_at (vals : list Entries) (inputs : list nat) : list Entries :=
  map (fun i => default [] (vals !! i)) inputs.

Definition node_value (E : Env) (b : bool) (vals : list Entries) n : Entries :=
  match n with
  | Some (NSource table _ _) => E table
  | Some (NOperator op inputs) => op_data op b (inputs_at vals inputs)
  | None => []
  end.

Definition node_error (b : bool) (vals : list Entries) n : Entries :=
  match n with
  | Some (NOperator op inputs) => op_errs op b (inputs_at vals inputs)
  | _ => []
  end.

(** The accumulated output of every node, in index order. *)
Definition values (E : Env) (b : bool) ns : list Entries :=
  fold_left (fun vals n => vals ++ [node_value E b vals n]) ns [].

Definition value_at (E : Env) (b : bool) ns (i : nat) : Entries := default [] (values E b ns !! i).

(** Inputs come before their consumer. *)
Definition wired ns : Prop :=
  forall i n, ns !! i = Some n -> Forall (fun j => j < i)%nat (slot_inputs n).

(** Two slots that compute the same function. *)
Definition same_slot n n' : Prop :=
  match n, n' with
  | Some (NSource t a s), Some (NSource t' a' s') => t = t' /\ a = a' /\ s = s'
  | Some (NOperator op i), Some (NOperator op' i') =>
      i = i' /\ op_output_schema op' = op_output_schema op /\
      (forall b Is, op_data op' b Is = op_data op b Is) /\
      (forall b Is, op_errs op' b Is = op_errs op b Is)
  | None, None => True
  | _, _ => False
  end.

Lemma same_slot_refl n : same_slot n n.
Proof. destruct n as [[]|]; simpl; auto. Qed.

Lemma same_slot_trans n1 n2 n3 : same_slot n1 n2 -> same_slot n2 n3 -> same_slot n1 n3.
Proof.
  destruct n1 as [[]|], n2 as [[]|], n3 as [[]|]; simpl; try done; [naive_solver|].
  intros (-> & H1 & H2 & H3) (-> & G1 & G2 & G3). by split_and!; intros; congruence.
Qed.

Lemma values_app E b ns n : values E b (ns ++ [n]) = values E b ns ++ [node_value E b (values E b ns) n].
Proof. unfold values. by rewrite fold_left_app. Qed.

Lemma values_length E b ns : length (values E b ns) = length ns.
Proof.
  induction ns as [|n ns IH] using rev_ind; [done|]. rewrite values_app, !length_app, IH. done.
Qed.

Lemma values_prefix E b ns ns' : exists rest, values E b (ns ++ ns') = values E b ns ++ rest.
Proof.
  induction ns' as [|n ns' IH] using rev_ind.
  - exists []. by rewrite !app_nil_r.
  - destruct IH as [rest IH]. rewrite app_assoc, values_app, IH, <- app_assoc. eauto.
Qed.

Lemma value_at_app E b ns ns' i : (i < length ns)%nat -> value_at E b (ns ++ ns') i = value_at E b ns i.
Proof.
  intros Hi. unfold value_at. destruct (values_prefix E b ns ns') as [rest ->].
  rewrite lookup_app_l by (by rewrite values_length). done.
Qed.

Lemma inputs_at_prefix vals rest inputs k :
  length vals = k -> Forall (fun j => j < k)%nat inputs ->
  inputs_at (vals ++ rest) inputs = inputs_at vals inputs.
Proof.
  intros Hl Hi. unfold inputs_at. apply map_ext_in. intros j Hj%list_elem_of_In.
  rewrite Forall_forall in Hi. specialize (Hi j Hj). rewrite lookup_app_l by lia. done.
Qed.

(** The equation every node satisfies. *)
Lemma value_at_node E b ns i n :
  wired ns -> ns !! i = Some n -> value_at E b ns i = node_value E b (values E b ns) n.
Proof.
  intros Hw Hn. pose proof (Hw i n Hn) as Hi.
  apply list_elem_of_split_length in Hn as (l1 & l2 & -> & ->).
  assert (l1 ++ n :: l2 = (l1 ++ [n]) ++ l2) as -> by by rewrite <- app_assoc.
  rewrite value_at_app by (rewrite length_app; simpl; lia).
  unfold value_at. rewrite values_app, lookup_app_r, values_length, Nat.sub_diag
    by (rewrite values_length; lia). simpl.
  destruct (values_prefix E b (l1 ++ [n]) l2) as [rest ->]. rewrite values_app, <- app_assoc.
  destruct n as [[t a s|op inputs]|]; simpl in *; [done| |done].
  by rewrite (inputs_at_prefix _ _ _ (length l1)) by (rewrite ?values_length; done).
Qed.

Lemma values_same E b ns ns' : Forall2 same_slot ns ns' -> values E b ns = values E b ns'.
Proof.
  revert ns'. induction ns as [|n ns IH] using rev_ind; intros ns' Hs.
  { apply Forall2_nil_inv_l in Hs as ->. done. }
  apply Forall2_app_inv_l in Hs as (ms & m & Hns & Hn & ->).
  apply Forall2_cons_inv_l in Hn as (m' & l & Hn & Hl & ->). apply Forall2_nil_inv_l in Hl as ->.
  rewrite !values_app, (IH _ Hns). do 2 f_equal.
  destruct n as [[t a s|op inputs]|], m' as [[t' a' s'|op' inputs']|]; simpl in *; try done.
  - by destruct Hn as (-> & _ & _).
  - destruct Hn as (-> & _ & Hd & _). by rewrite Hd.
Qed.

(** ** One pass *)

Definition nodes_inv (E : Env) (b : bool) ns : Prop :=
  forall i op inputs, ns !! i = Some (Some (NOperator op inputs)) ->
    op_inv op b (inputs_at (values E b ns) inputs).

Definition slot_schema n : option Schema :=
  match n with
  | Some (NSource _ _ s) => Some s
  | Some (NOperator op _) => Some (op_output_schema op)
  | None => None
  end.

Definition small_output (o : option ZSetBatch) : bool :=
  match o with Some b => small b | None => true end.

(** What the error deltas of a pass add for the nodes of a set. *)
Definition error_delta (errs : list (nat * ZSetBatch)) (among : NodeSet) : Entries :=
  flat_map (fun p => if bt_contains p.1 among then batch_entries p.2 else []) errs.

(** The errors [e] of the first [k] nodes, for the nodes of a set. *)
Definition errors_among (e : nat -> Entries) (among : NodeSet) (k : nat) : Entries :=
  flat_map (fun i => if bt_contains i among then e i else []) (seq 0 k).

(** The accumulated errors of node [i]. *)
Definition errors_at (E : Env) (b : bool) ns (i : nat) : Entries :=
  match ns !! i with Some n => node_error b (values E b ns) n | None => [] end.

Definition errors_upto (E : Env) (b : bool) ns : NodeSet -> nat -> Entries := errors_among (errors_at E b ns).

(** A pass over the nodes of [subset], for any reading of the nodes: [before] and
    [after] give each node's accumulated output, [berr] and [aerr] its errors. *)
Section pass.
Context (before after berr aerr : nat -> Entries) (b : bool).
Context (deltas : EpochDeltas) (subset : option (list nat)) (ns0 : list (option (Node Op))).

(** The readings fit the nodes: sources grow by the deltas, operators compute
    their functions, what the pass leaves out does not change. *)
Record readings : Prop := {
  rd_source i t a s : is_included subset i = true -> ns0 !! i = Some (Some (NSource t a s)) ->
    before i ++ entries_for deltas t ≡z after i;
  rd_operator i op inputs : is_included subset i = true -> ns0 !! i = Some (Some (NOperator op inputs)) ->
    op_inv op b (map before inputs) /\
    before i ≡z op_data op b (map before inputs) /\ after i ≡z op_data op true (map after inputs) /\
    berr i ≡z op_errs op b (map before inputs) /\ aerr i ≡z op_errs op true (map after inputs);
  rd_kept i : is_included subset i = false \/ (forall x : Node Op, ns0 !! i <> Some (Some x)) -> after i ≡z before i;
  rd_quiet i : is_included subset i = false \/ (forall op inputs, ns0 !! i <> Some (Some (NOperator op inputs))) ->
    aerr i ≡z berr i
}.
Context (Hr : readings).

(** The output of node [i] is the change of its value. *)
Definition output_ok (i : nat) (o : option ZSetBatch) : Prop :=
  match o with
  | Some d => before i ++ batch_entries d ≡z after i /\ built d /\
              (ns0 !! i ≫= slot_schema) = Some (batch_schema d)
  | None => is_included subset i = false \/ ns0 !! i = Some None
  end.

Record pass_inv (k : nat) c (outputs : list (option ZSetBatch)) (errs : list (nat * ZSetBatch)) : Prop := {
  pi_same : Forall2 same_slot ns0 (nodes c);
  pi_rest : forall i, (k <= i)%nat \/ is_included subset i = false -> nodes c !! i = ns0 !! i;
  pi_done : forall i op inputs, (i < k)%nat -> is_included subset i = true ->
              nodes c !! i = Some (Some (NOperator op inputs)) -> op_inv op true (map after inputs);
  pi_length : length outputs = k;
  pi_outputs : forall i o, outputs !! i = Some o -> output_ok i o;
  pi_errs : forall among, errors_among berr among k ++ error_delta errs among ≡z errors_among aerr among k;
  pi_built : Forall (fun p => built p.2) errs
}.

Lemma errors_among_S e among k :
  errors_among e among (S k) = errors_among e among k ++ if bt_contains k among then e k else [].
Proof. unfold errors_among. rewrite seq_S, flat_map_app. simpl. by rewrite app_nil_r. Qed.

Lemma error_delta_app e1 e2 among : error_delta (e1 ++ e2) among = error_delta e1 among ++ error_delta e2 among.
Proof. apply flat_map_app. Qed.

(** A node that raises nothing new. *)
Lemma errs_skip k outputs errs c :
  pass_inv k c outputs errs -> aerr k ≡z berr k ->
  forall among, errors_among berr among (S k) ++ error_delta errs among ≡z errors_among aerr among (S k).
Proof.
  intros Hp He among. rewrite !errors_among_S, <- (pi_errs _ _ _ _ Hp among).
  destruct (bt_contains k among); [rewrite He|]; intros r; rewrite !weight_app; lia.
Qed.

(** The batches [gather] finds are the changes of the inputs. *)
Lemma gather_spec k c outputs errs inputs batches :
  pass_inv k c outputs errs -> gather outputs inputs = Ok batches ->
  length batches = length inputs /\
  Forall (fun d => Some d ∈ outputs) batches /\
  zeqs (zip_with app (map before inputs) (map batch_entries batches)) (map after inputs).
Proof.
  intros Hp Hg%try_map_Ok. induction Hg as [|i d inputs batches Hd Hg IH]; [done|].
  destruct IH as (Hl & Hin & Hz). destruct (outputs !! i) as [[d'|]|] eqn:Ei; try done.
  injection Hd as ->. split_and!; [simpl; lia| |].
  - constructor; [by apply list_elem_of_lookup_2 in Ei|done].
  - simpl. constructor; [|done]. apply (pi_outputs _ _ _ _ Hp) in Ei as [Ei _]. exact Ei.
Qed.

Lemma pass_inv_push k c c' outputs errs o :
  pass_inv k c outputs errs -> nodes c' = nodes c -> output_ok k o -> aerr k ≡z berr k ->
  (is_included subset k = true -> forall op inputs, ns0 !! k <> Some (Some (NOperator op inputs))) ->
  pass_inv (S k) c' (outputs ++ [o]) errs.
Proof.
  intros Hp Hc Ho He Hno.
  pose proof (errs_skip _ _ _ _ Hp He) as Hskip. destruct Hp as [? Hrest Hdone Hl Hout Herr Hb].
  split; rewrite ?Hc; try done.
  - intros i Hi. apply Hrest. destruct Hi; [left; lia|by right].
  - intros i op inputs Hi Hinc Hni. destruct (decide (i = k)) as [->|]; [|apply (Hdone i); [lia|done..]].
    rewrite Hrest in Hni by (left; lia). by apply Hno in Hni.
  - rewrite length_app. simpl. lia.
  - intros i o' Hi. apply lookup_app_Some in Hi as [Hi|[Hi Hi']]; [by apply Hout|].
    apply list_lookup_singleton_Some in Hi' as [Hi' <-].
    assert (i = k) as -> by lia. done.
Qed.

Lemma pass_inv_operator k c outputs errs op inputs batches op' out c' :
  pass_inv k c outputs errs -> is_included subset k = true -> ns0 !! k = Some (Some (NOperator op inputs)) ->
  Forall (fun o => small_output o = true) outputs ->
  gather outputs inputs = Ok batches -> op_step op batches = (op', Ok out) ->
  nodes c' = <[k := Some (NOperator op' inputs)]> (nodes c) ->
  pass_inv (S k) c' (outputs ++ [Some (data out)]) (errs ++ [(k, errors out)]).
Proof.
  intros Hp Hinc Hn Hsm Hg Hstep Hc.
  destruct (gather_spec _ _ _ _ _ _ Hp Hg) as (Hl & Hin & Hz).
  assert (Forall (fun d => small d = true) batches) as Hsb.
  { eapply Forall_impl; [exact Hin|]. intros d Hd. rewrite Forall_forall in Hsm. exact (Hsm _ Hd). }
  destruct (rd_operator Hr _ _ _ Hinc Hn) as (Hinv & Hvb & Hva & Heb & Hea).
  destruct (op_step_ok op b (map before inputs) batches op' out Hinv)
    as (Hop & Hos & Hdat & Herr & Hsch & Hbd & Hbe & Hd & He);
    [by rewrite length_map|done|done|].
  destruct Hp as [Hsame Hrest Hdone Hlen Hout Hers Hb].
  assert (k < length ns0)%nat as Hk by by apply lookup_lt_Some in Hn.
  split; rewrite ?Hc.
  - rewrite <- (list_insert_id ns0 k _ Hn). apply Forall2_insert; [done|]. done.
  - intros i Hi. rewrite list_lookup_insert_ne by (destruct Hi as [|Hi]; [lia|congruence]).
    apply Hrest. destruct Hi; [left; lia|by right].
  - intros i op1 inputs1 Hi Hinc1 Hni. destruct (decide (i = k)) as [->|].
    + rewrite list_lookup_insert_eq in Hni by (rewrite <- (Forall2_length _ _ _ Hsame); lia).
      injection Hni as <- <-. by eapply op_inv_proper.
    + rewrite list_lookup_insert_ne in Hni by lia. apply (Hdone i); [lia|done..].
  - rewrite length_app. simpl. lia.
  - intros i o Hi. apply lookup_app_Some in Hi as [Hi|[Hi Hi']]; [by apply Hout|].
    apply list_lookup_singleton_Some in Hi' as [Hi' <-]. assert (i = k) as -> by lia.
    simpl. rewrite Hn. simpl. split_and!; [|done|by rewrite Hsch].
    rewrite Hvb, Hva, Hd. by apply op_data_proper.
  - intros among. rewrite error_delta_app, !errors_among_S, <- (Hers among). simpl.
    destruct (bt_contains k among); [|by rewrite !app_nil_r].
    rewrite app_nil_r, Hea, Heb, <- (op_errs_proper op true _ _ Hz), <- He.
    intros r. rewrite !weight_app. lia.
  - apply Forall_app. split; [done|]. by repeat constructor.
Qed.

Lemma pass_node_spec k c outputs errs c' outputs' errs' :
  pass_inv k c outputs errs -> (k < length ns0)%nat ->
  Forall (fun o => small_output o = true) outputs ->
  pass_node deltas subset k c outputs errs = (c', Ok (outputs', errs')) ->
  pass_inv (S k) c' outputs' errs' /\ sinks c' = sinks c /\ exists o, outputs' = outputs ++ [o].
Proof.
  intros Hp Hk Hsm. destruct (lookup_lt_is_Some_2 ns0 k Hk) as [n Hn].
  unfold pass_node. rewrite (pi_rest _ _ _ _ Hp k), Hn by (left; lia).
  destruct (is_included subset k) eqn:Hinc.
  2: { intros [= <- <- <-]. split_and!; [|done|eauto]. eapply pass_inv_push; [exact Hp|done|by left| |by rewrite Hinc].
       apply (rd_quiet Hr). by left. }
  destruct n as [[table alias schema|op inputs]|].
  - destruct (source_batch schema _) as [produced|] eqn:Es; [|done]. intros [= <- <- <-].
    unfold source_batch in Es. destruct (from_entries schema _) as [d|] eqn:Ed; [|done].
    injection Es as ->. pose proof (from_entries_built _ _ _ Ed) as Hbt.
    apply from_entries_inv in Ed as ->.
    split_and!; [|done|eauto]. eapply pass_inv_push; [exact Hp|done| | |by rewrite Hn].
    + simpl. rewrite Hn. split_and!; [|done|done]. by apply (rd_source Hr _ _ _ _ Hinc Hn).
    + apply (rd_quiet Hr). right. by rewrite Hn.
  - destruct (gather outputs inputs) as [batches|] eqn:Eg; [|done].
    destruct (op_step op batches) as [op' [out|]] eqn:Eo; [|done]. intros [= <- <- <-].
    split_and!; [|done|eauto]. by eapply pass_inv_operator.
  - intros [= <- <- <-]. split_and!; [|done|eauto].
    eapply pass_inv_push; [exact Hp|done|by right| |by rewrite Hn].
    apply (rd_quiet Hr). right. by rewrite Hn.
Qed.

Lemma pass_nodes_prefix c ks outputs errs c' outputs' errs' :
  pass_nodes deltas subset ks c outputs errs = (c', Ok (outputs', errs')) ->
  exists rest, outputs' = outputs ++ rest.
Proof.
  revert c outputs errs. induction ks as [|k ks IH]; intros c outputs errs; cbn [pass_nodes].
  { intros [= <- <- <-]. exists []. by rewrite app_nil_r. }
  destruct (pass_node deltas subset k c outputs errs) as [c1 [[o1 e1]|]] eqn:E1; [|done].
  intros [rest ->]%IH.
  assert (exists o, o1 = outputs ++ [o]) as [o ->]; [|rewrite <- app_assoc; eauto].
  unfold pass_node in E1. repeat case_match; try done; injection E1 as <- <- <-; eauto.
Qed.

Lemma pass_nodes_spec k m c outputs errs c' outputs' errs' :
  pass_inv k c outputs errs -> (k + m <= length ns0)%nat ->
  pass_nodes deltas subset (seq k m) c outputs errs = (c', Ok (outputs', errs')) ->
  Forall (fun o => small_output o = true) outputs' ->
  pass_inv (k + m) c' outputs' errs' /\ sinks c' = sinks c.
Proof.
  revert k c outputs errs. induction m as [|m IH]; intros k c outputs errs Hp Hk; cbn [seq pass_nodes].
  { intros [= <- <- <-] _. rewrite Nat.add_0_r. done. }
  destruct (pass_node deltas subset k c outputs errs) as [c1 [[o1 e1]|]] eqn:E1; [|done].
  intros Hrec Hsm. destruct (pass_nodes_prefix _ _ _ _ _ _ _ Hrec) as [rest Hrest].
  assert (Forall (fun o => small_output o = true) o1) as Hs1.
  { rewrite Hrest in Hsm. by apply Forall_app in Hsm as [? _]. }
  assert (Forall (fun o => small_output o = true) outputs) as Hs0.
  { destruct (pass_nodes_prefix c [k] outputs errs c1 o1 e1) as [r ->]; [cbn [pass_nodes]; by rewrite E1|].
    by apply Forall_app in Hs1 as [? _]. }
  apply pass_node_spec in E1 as (Hp1 & Hsk & _); [|done|lia|done].
  apply IH in Hrec as [Hp' Hs']; [|done|lia|done].
  rewrite <- Nat.add_succ_comm. split; [done|congruence].
Qed.
End pass.

(** ** The sinks of a pass *)

Definition stores_ok (s : Sink) : Prop := store_inv (sink_result s) /\ store_inv (sink_errors s).

(** [s'] is [s] with the delta of its node in its result store. *)
Definition result_absorbed (outputs : list (option ZSetBatch)) (s s' : option Sink) : Prop :=
  match s, s' with
  | Some s, Some s' =>
      sink_at_node s' = sink_at_node s /\ sink_ancestors s' = sink_ancestors s /\
      sink_errors s' = sink_errors s /\ store_schema (sink_result s') = store_schema (sink_result s) /\
      (stores_ok s -> (forall d, outputs !! sink_at_node s = Some (Some d) -> built d) ->
       stores_ok s' /\
       integral (sink_result s') ≡z integral (sink_result s) ++
         match outputs !! sink_at_node s with Some (Some d) => batch_entries d | _ => [] end)
  | None, None => True
  | _, _ => False
  end.

(** [s'] is [s] with the error deltas of its ancestors in its error store. *)
Definition errors_absorbed (errs : list (nat * ZSetBatch)) (s s' : option Sink) : Prop :=
  match s, s' with
  | Some s, Some s' =>
      sink_at_node s' = sink_at_node s /\ sink_ancestors s' = sink_ancestors s /\
      sink_result s' = sink_result s /\
      (stores_ok s -> stores_ok s' /\
       integral (sink_errors s') ≡z integral (sink_errors s) ++ error_delta errs (sink_ancestors s))
  | None, None => True
  | _, _ => False
  end.

Lemma absorb_results_spec outputs ss ss' :
  absorb_results outputs ss = (ss', Ok tt) -> Forall2 (result_absorbed outputs) ss ss'.
Proof.
  revert ss'. induction ss as [|slot ss IH]; intros ss'; cbn [absorb_results].
  { intros [= <-]. constructor. }
  destruct (match slot with Some _ => _ | None => _ end) as [slot' r] eqn:Eslot.
  destruct r as [[]|]; [|done]. destruct (absorb_results outputs ss) as [rest r'] eqn:Er.
  intros [= <- ->]. constructor; [|by apply IH]. clear IH Er.
  destruct slot as [s|]; [|by injection Eslot as <-].
  destruct (outputs !! sink_at_node s) as [[d|]|] eqn:Eo.
  - destruct (absorb (sink_result s) d) as [st r1] eqn:Ea. injection Eslot as <- ->.
    simpl. rewrite Eo. split_and!; try done.
    + unfold absorb in Ea. case_bool_decide; [|done]. simpl in Ea.
      destruct (absorb_entries _ _). by injection Ea as <- _.
    + intros [Hr He] Hb. apply absorb_spec in Ea as (H1 & _ & _ & Hz); [|done|by apply Hb].
      done.
  - injection Eslot as <-. simpl. rewrite Eo. split_and!; try done. by rewrite app_nil_r.
  - injection Eslot as <-. simpl. rewrite Eo. split_and!; try done. by rewrite app_nil_r.
Qed.

Lemma absorb_error_spec node delta ss ss' :
  built delta -> absorb_error node delta ss = (ss', Ok tt) ->
  Forall2 (errors_absorbed [(node, delta)]) ss ss'.
Proof.
  intros Hb. revert ss'. induction ss as [|slot ss IH]; intros ss'; cbn [absorb_error].
  { intros [= <-]. constructor. }
  destruct (match slot with Some _ => _ | None => _ end) as [slot' r] eqn:Eslot.
  destruct r as [[]|]; [|done]. destruct (absorb_error node delta ss) as [rest r'] eqn:Er.
  intros [= <- ->]. constructor; [|by apply IH]. clear IH Er.
  destruct slot as [s|]; [|by injection Eslot as <-].
  unfold errors_absorbed, error_delta. simpl.
  destruct (bt_contains node (sink_ancestors s)) eqn:Ec.
  - destruct (absorb (sink_errors s) delta) as [st r1] eqn:Ea. injection Eslot as <- ->. simpl.
    split_and!; try done. intros [Hr He].
    apply absorb_spec in Ea as (H1 & _ & _ & Hz); [|done..]. by rewrite app_nil_r.
  - injection Eslot as <-. simpl. split_and!; try done. by rewrite app_nil_r.
Qed.

Lemma errors_absorbed_trans e1 e2 s1 s2 s3 :
  errors_absorbed e1 s1 s2 -> errors_absorbed e2 s2 s3 -> errors_absorbed (e1 ++ e2) s1 s3.
Proof.
  destruct s1 as [s1|], s2 as [s2|], s3 as [s3|]; simpl; try done.
  intros (Hn & Ha & Hr & Hk) (Hn' & Ha' & Hr' & Hk'). split_and!; try congruence.
  intros [H1 Hz]%Hk. destruct (Hk' H1) as [H2 Hz']. split; [done|].
  rewrite Hz', Hz, Ha, error_delta_app, <- app_assoc. done.
Qed.

Lemma absorb_errors_spec errs ss ss' :
  Forall (fun p => built p.2) errs -> absorb_errors errs ss = (ss', Ok tt) ->
  Forall2 (errors_absorbed errs) ss ss'.
Proof.
  revert ss. induction errs as [|[node delta] errs IH]; intros ss Hb; cbn [absorb_errors].
  { intros [= <-]. clear. induction ss as [|[s|] ss IH]; constructor; try done.
    simpl. split_and!; try done. by rewrite app_nil_r. }
  apply Forall_cons in Hb as [Hd Hb].
  destruct (absorb_error node delta ss) as [ss1 [[]|]] eqn:E1; [|done]. intros Hrec.
  apply absorb_error_spec in E1; [|done]. apply IH in Hrec; [|done].
  clear IH. revert ss' Hrec. induction E1; intros ss' Hrec; inversion Hrec; subst; constructor.
  - by eapply (errors_absorbed_trans [(node, delta)]).
  - by apply IHE1.
Qed.

(** ** The invariant of a circuit *)

(** The sink's stores hold the value of its node and the errors upstream. *)
Definition sink_holds (value errs : nat -> Entries) (k : nat) (s : option Sink) : Prop :=
  match s with
  | Some s =>
      stores_ok s /\
      integral (sink_result s) ≡z value (sink_at_node s) /\
      integral (sink_errors s) ≡z errors_among errs (sink_ancestors s) k
  | None => True
  end.

Definition sink_inv (E : Env) (b : bool) ns : option Sink -> Prop :=
  sink_holds (value_at E b ns) (errors_at E b ns) (length ns).

(** The circuit stands for the table contents [E]; [b]: it has been primed. *)
Record circuit_inv (E : Env) (b : bool) c : Prop := {
  ci_wired : wired (nodes c);
  ci_nodes : nodes_inv E b (nodes c);
  ci_sinks : Forall (sink_inv E b (nodes c)) (sinks c)
}.

(** The batches of a pass are small enough for the unchecked additions. *)
Definition pass_small c (deltas : EpochDeltas) (subset : option (list nat)) : bool :=
  match pass_nodes deltas subset (seq 0 (length (nodes c))) c [] [] with
  | (_, Ok (outputs, _)) => forallb small_output outputs
  | _ => true
  end.

Lemma pass_inv_init before after berr aerr subset c :
  pass_inv before after berr aerr subset (nodes c) 0 c [] [].
Proof.
  split; try done; try (intros; lia).
  apply Forall2_same_length_lookup. split; [done|]. intros i n n' Hn Hn'.
  rewrite Hn in Hn'. injection Hn' as ->. apply same_slot_refl.
Qed.

Lemma errors_upto_same E b ns ns' among k :
  Forall2 same_slot ns ns' -> errors_upto E b ns among k = errors_upto E b ns' among k.
Proof.
  intros Hs. unfold errors_upto, errors_among, errors_at. rewrite <- (values_same E b _ _ Hs).
  induction (seq 0 k) as [|i l IH]; [done|]. cbn [flat_map]. rewrite IH. f_equal.
  destruct (bt_contains i among); [|done].
  pose proof (Forall2_lookup same_slot ns ns') as Hl. apply Hl with (i := i) in Hs as Hi.
  destruct Hi as [n n' Hn|]; [|done].
  destruct n as [[]|], n' as [[]|]; simpl in Hn |- *; try done.
  destruct Hn as (-> & _ & _ & He). by rewrite He.
Qed.

Lemma wired_same ns ns' : Forall2 same_slot ns ns' -> wired ns -> wired ns'.
Proof.
  intros Hs Hw i n' Hn'. destruct (Forall2_lookup_r _ _ _ _ _ Hs Hn') as (n & Hn & Hnn).
  specialize (Hw i n Hn).
  destruct n as [[]|], n' as [[]|]; simpl in Hnn, Hw |- *; try done. by destruct Hnn as (-> & _).
Qed.

Definition same_sink (s s' : option Sink) : Prop :=
  match s, s' with
  | Some s, Some s' => sink_at_node s' = sink_at_node s /\ sink_ancestors s' = sink_ancestors s /\
      store_schema (sink_result s') = store_schema (sink_result s)
  | None, None => True
  | _, _ => False
  end.

(** The value a sink's store takes on. *)
Lemma sink_value_step before after berr aerr b deltas subset ns c outputs errs i :
  readings before after berr aerr b deltas subset ns ->
  pass_inv before after berr aerr subset ns (length ns) c outputs errs ->
  before i ++ match outputs !! i with Some (Some d) => batch_entries d | _ => [] end ≡z after i.
Proof.
  intros Hr Hp. destruct (outputs !! i) as [o|] eqn:Eo.
  - apply (pi_outputs _ _ _ _ _ _ _ _ _ _ Hp) in Eo. destruct o as [d|]; [apply Eo|].
    rewrite app_nil_r. symmetry. apply (rd_kept _ _ _ _ _ _ _ _ Hr).
    destruct Eo as [|Eo]; [by left|right]. by rewrite Eo.
  - rewrite app_nil_r. symmetry. apply (rd_kept _ _ _ _ _ _ _ _ Hr). right. intros x.
    apply lookup_ge_None in Eo. rewrite (pi_length _ _ _ _ _ _ _ _ _ _ Hp) in Eo.
    by rewrite lookup_ge_None_2.
Qed.

Lemma sink_holds_step before after berr aerr b deltas subset ns c outputs errs s s1 s2 :
  readings before after berr aerr b deltas subset ns ->
  pass_inv before after berr aerr subset ns (length ns) c outputs errs ->
  sink_holds before berr (length ns) s -> result_absorbed outputs s s1 -> errors_absorbed errs s1 s2 ->
  sink_holds after aerr (length ns) s2 /\ same_sink s s2.
Proof.
  intros Hrd Hp Hs Hr He. destruct s as [s|], s1 as [s1|], s2 as [s2|]; try done.
  destruct Hs as (Hok & Hz & Hze), Hr as (Hn & Ha & Her & Hsc & Hr), He as (Hn' & Ha' & Hr' & He).
  destruct (Hr Hok) as [Hok1 Hz1].
  { intros d Hd. apply (pi_outputs _ _ _ _ _ _ _ _ _ _ Hp) in Hd. apply Hd. }
  destruct (He Hok1) as [Hok2 Hz2]. split; [|simpl; split_and!; congruence].
  split_and!; [done| |].
  - rewrite Hr', Hz1, Hn', Hn, Hz. by eapply sink_value_step.
  - rewrite Hz2, Her, Hze, Ha', Ha. apply (pi_errs _ _ _ _ _ _ _ _ _ _ Hp).
Qed.

(** What a pass does to the nodes it includes, the nodes it leaves out and the
    sinks, whatever the readings. *)
Lemma pass_readings before after berr aerr b c deltas subset c' :
  readings before after berr aerr b deltas subset (nodes c) ->
  Forall (sink_holds before berr (length (nodes c))) (sinks c) ->
  pass_small c deltas subset = true -> pass c deltas subset = (c', Ok tt) ->
  Forall2 same_slot (nodes c) (nodes c') /\ Forall2 same_sink (sinks c) (sinks c') /\
  (forall i op inputs, is_included subset i = true -> nodes c' !! i = Some (Some (NOperator op inputs)) ->
     op_inv op true (map after inputs)) /\
  (forall i, is_included subset i = false -> nodes c' !! i = nodes c !! i) /\
  Forall (sink_holds after aerr (length (nodes c))) (sinks c').
Proof.
  intros Hr Hs Hsm. unfold pass, pass_small in *.
  destruct (pass_nodes _ _ _ c [] []) as [c1 [[outputs errs]|]] eqn:Ep; [|done].
  assert (Forall (fun o => small_output o = true) outputs) as Hsm'.
  { apply Forall_forall. intros o Ho. rewrite forallb_forall in Hsm. by apply Hsm, list_elem_of_In. }
  destruct (pass_nodes_spec before after berr aerr b deltas subset (nodes c) Hr 0 (length (nodes c)) c [] [] c1
    outputs errs (pass_inv_init before after berr aerr subset c)) as [Hp Hsk]; [simpl; lia|done|done|].
  simpl in Hp. clear Ep Hsm.
  destruct (check_state_declarations c1) as [[]|]; [|done].
  destruct (absorb_results outputs (sinks c1)) as [ss [[]|]] eqn:Er; [|done].
  destruct (absorb_errors errs ss) as [ss' r] eqn:Ee. intros [= <- ->].
  rewrite Hsk in Er. apply absorb_results_spec in Er.
  apply absorb_errors_spec in Ee; [|apply (pi_built _ _ _ _ _ _ _ _ _ _ Hp)].
  pose proof (pi_same _ _ _ _ _ _ _ _ _ _ Hp) as Hsame.
  assert (Forall2 (fun s s' => sink_holds after aerr (length (nodes c)) s' /\ same_sink s s') (sinks c) ss') as Hss.
  { clear -Hr Hp Hs Er Ee H H0. revert ss ss' Er Ee. induction Hs as [|s l Hs1 Hl IH]; intros ss ss' Er Ee.
    - inversion Er; subst. inversion Ee; subst. constructor.
    - inversion Er; subst. inversion Ee; subst. constructor; [by eapply sink_holds_step|by eapply IH]. }
  split_and!; [done|eapply Forall2_impl; [exact Hss|naive_solver]| | |]; simpl.
  - intros i op inputs Hinc Hi. apply (pi_done _ _ _ _ _ _ _ _ _ _ Hp i op inputs); [|done..].
    apply lookup_lt_Some in Hi. by rewrite (Forall2_length _ _ _ Hsame).
  - intros i Hi. apply (pi_rest _ _ _ _ _ _ _ _ _ _ Hp). by right.
  - apply Forall_forall. intros s' Hs'. apply list_elem_of_lookup in Hs' as [i Hi].
    by destruct (Forall2_lookup_r _ _ _ _ _ Hss Hi) as (s & _ & Hsi & _).
Qed.

(** The circuit's own denotation is a reading. *)
Lemma circuit_readings E E' b c deltas :
  circuit_inv E b c -> (forall t, E t ++ entries_for deltas t ≡z E' t) ->
  readings (value_at E b (nodes c)) (value_at E' true (nodes c)) (errors_at E b (nodes c))
    (errors_at E' true (nodes c)) b deltas None (nodes c).
Proof.
  intros [Hw Hn _] HE. split; simpl.
  - intros i t a s _ Hi. rewrite !(value_at_node _ _ _ _ _ Hw Hi). apply HE.
  - intros i op inputs _ Hi. unfold errors_at. rewrite !(value_at_node _ _ _ _ _ Hw Hi), Hi.
    split; [by apply Hn in Hi|done].
  - intros i [|Hi]; [done|]. destruct (nodes c !! i) as [[n|]|] eqn:En; [by specialize (Hi n)|..].
    + by rewrite !(value_at_node _ _ _ _ _ Hw En).
    + apply lookup_ge_None in En. unfold value_at. by rewrite !lookup_ge_None_2 by (rewrite values_length; done).
  - intros i [|Hi]; [done|]. unfold errors_at.
    destruct (nodes c !! i) as [[[t a s|op inputs]|]|] eqn:En; try done. by specialize (Hi op inputs).
Qed.

Lemma pass_spec E E' b c deltas c' :
  circuit_inv E b c -> (forall t, E t ++ entries_for deltas t ≡z E' t) ->
  pass_small c deltas None = true -> pass c deltas None = (c', Ok tt) ->
  circuit_inv E' true c' /\ Forall2 same_slot (nodes c) (nodes c') /\ Forall2 same_sink (sinks c) (sinks c').
Proof.
  intros Hc HE Hsm Hp.
  destruct (pass_readings _ _ _ _ _ _ _ _ _ (circuit_readings E E' b c deltas Hc HE) (ci_sinks _ _ _ Hc) Hsm Hp)
    as (Hsame & Hsk & Hop & _ & Hs).
  split_and!; [|done|done]. split.
  - eapply wired_same; [exact Hsame|]. apply Hc.
  - intros i op inputs Hi. rewrite <- (values_same _ _ _ _ Hsame). by apply (Hop i).
  - eapply Forall_impl; [exact Hs|]. intros [s|]; [|done]. unfold sink_inv, sink_holds, value_at.
    rewrite (values_same _ _ _ _ Hsame), (Forall2_length _ _ _ Hsame).
    change (errors_among (errors_at ?E ?b ?ns)) with (errors_upto E b ns).
    by rewrite (errors_upto_same _ _ _ _ _ _ Hsame).
Qed.

(** ** Answers *)

(** The answer over a value and its live errors: the least message while there
    are errors, the canonical value otherwise (S-22). *)
Definition answer_over (schema : Schema) (value errs : Entries) : result CircuitError Canonical :=
  match zcanon errs with
  | [] => Ok (mkCanonical schema (zcanon value))
  | (VStr message :: _, _) :: _ => Err (LiveEvaluationError message)
  | _ => Err CorruptErrorStore
  end.

(** A sink answers from its stores. *)
Lemma answer_of_stores c id s value errs :
  sinks c !! id = Some (Some s) -> stores_ok s ->
  integral (sink_result s) ≡z value -> integral (sink_errors s) ≡z errs ->
  answer_of c id = answer_over (store_schema (sink_result s)) value errs.
Proof.
  intros Hid [Hr He] Hz Hze. unfold answer_of, sink_at, answer_over. rewrite Hid.
  rewrite !store_canonical_Ok by done.
  rewrite <- (zcanon_unique _ _ (proj1 Hr) Hz), <- (zcanon_unique _ _ (proj1 He) Hze).
  unfold store_is_empty, store_len. by destruct (integral (sink_errors s)) as [|[[|[]] ] ?].
Qed.

Lemma answer_of_spec E b c id s :
  circuit_inv E b c -> sinks c !! id = Some (Some s) ->
  answer_of c id = answer_over (store_schema (sink_result s)) (value_at E b (nodes c) (sink_at_node s))
                     (errors_upto E b (nodes c) (sink_ancestors s) (length (nodes c))).
Proof.
  intros [_ _ Hs] Hid. rewrite Forall_forall in Hs.
  destruct (Hs _ (list_elem_of_lookup_2 _ _ _ Hid)) as (Hok & Hz & Hze). by apply answer_of_stores.
Qed.

(** Sealing epochs one after the other. *)
Definition run c (ds : list EpochDeltas) : result CircuitError (Circuit Op) :=
  try_fold (fun c d => match step c d with (c', Ok _) => Ok c' | (_, Err e) => Err e end) c ds.

Fixpoint run_small c (ds : list EpochDeltas) : bool :=
  match ds with
  | [] => true
  | d :: ds' => pass_small c d None && run_small (step c d).1 ds'
  end.

(** The contents of the tables after some epochs. *)
Definition accumulate (ds : list EpochDeltas) : Env := fun t => flat_map (fun d => entries_for d t) ds.

Lemma circuit_inv_epoch E b c e : circuit_inv E b c -> circuit_inv E b (assign_epoch e c).
Proof. intros [? ? ?]. by split. Qed.

Lemma accumulate_step ds d t : accumulate ds t ++ entries_for d t = accumulate (ds ++ [d]) t.
Proof. unfold accumulate. rewrite flat_map_app. simpl. by rewrite app_nil_r. Qed.

Lemma Forall2_same_sink_trans l1 l2 l3 :
  Forall2 same_sink l1 l2 -> Forall2 same_sink l2 l3 -> Forall2 same_sink l1 l3.
Proof.
  apply Forall2_trans. intros [s1|] [s2|] [s3|]; simpl; try done.
  intros (-> & -> & ->) (-> & -> & ->). done.
Qed.

Lemma Forall2_same_slot_trans l1 l2 l3 :
  Forall2 same_slot l1 l2 -> Forall2 same_slot l2 l3 -> Forall2 same_slot l1 l3.
Proof. apply Forall2_trans. intros n1 n2 n3. apply same_slot_trans. Qed.

Lemma run_spec past c ds c' :
  circuit_inv (accumulate past) true c -> run c ds = Ok c' -> run_small c ds = true ->
  circuit_inv (accumulate (past ++ ds)) true c' /\
  Forall2 same_slot (nodes c) (nodes c') /\ Forall2 same_sink (sinks c) (sinks c').
Proof.
  revert past c. induction ds as [|d ds IH]; intros past c Hc; cbn [run_small]; unfold run; cbn [try_fold].
  - intros [= <-] _. rewrite app_nil_r. split_and!; [done|..].
    + apply Forall_Forall2_diag, Forall_true. apply same_slot_refl.
    + apply Forall_Forall2_diag, Forall_true. by intros [].
  - unfold step. destruct (pass c d None) as [c1 [[]|]] eqn:Ep; [|done]. cbn [fst].
    intros Hrun [Hs Hss]%andb_true_iff.
    destruct (pass_spec (accumulate past) (accumulate (past ++ [d])) true c d c1 Hc) as (Hc1 & Hn & Hk);
      [intros t; by rewrite accumulate_step|done|done|].
    apply (IH (past ++ [d])) in Hrun as (Hc' & Hn' & Hk'); [|by apply circuit_inv_epoch|done].
    rewrite <- app_assoc in Hc'. split_and!; [done|..].
    + by eapply Forall2_same_slot_trans.
    + by eapply Forall2_same_sink_trans.
Qed.

(** ** Building *)

(** What the builder holds: operators wired to earlier nodes, none stepped yet. *)
Definition builder_ok (ns : list (Node Op)) : Prop :=
  forall i op inputs, ns !! i = Some (NOperator op inputs) ->
    Forall (fun j => j < i)%nat inputs /\ op_inv op false (repeat [] (length inputs)).

Lemma values_init ns : Forall (fun I => I ≡z []) (values (accumulate []) false ns).
Proof.
  induction ns as [|n ns IH] using rev_ind; [constructor|]. rewrite values_app.
  apply Forall_app. split; [done|]. apply Forall_singleton.
  destruct n as [[t a s|op inputs]|]; simpl; [done| |done]. apply op_data_init.
  unfold inputs_at. apply Forall_map, Forall_true. intros i.
  destruct (values _ _ ns !! i) as [v|] eqn:Ev; simpl; [|done].
  rewrite Forall_forall in IH. by eapply IH, list_elem_of_lookup_2.
Qed.

Lemma inputs_at_init ns inputs :
  zeqs (repeat [] (length inputs)) (inputs_at (values (accumulate []) false ns) inputs).
Proof.
  unfold inputs_at. induction inputs as [|i inputs IH]; simpl; constructor; [|done].
  pose proof (values_init ns) as Hv. rewrite Forall_forall in Hv.
  destruct (values _ _ ns !! i) as [v|] eqn:Ev; simpl; [|done].
  symmetry. by eapply Hv, list_elem_of_lookup_2.
Qed.

Lemma errors_init ns among k : errors_upto (accumulate []) false ns among k ≡z [].
Proof.
  unfold errors_upto, errors_among. induction (seq 0 k) as [|i l IH]; [done|]. cbn [flat_map]. rewrite IH, app_nil_r.
  destruct (bt_contains i among); [|done]. unfold errors_at. destruct (ns !! i) as [[[t a s|op inputs]|]|]; try done. simpl.
  apply op_errs_init. pose proof (inputs_at_init ns inputs) as Hz.
  apply Forall_forall. intros I HI. apply list_elem_of_lookup in HI as [j Hj].
  destruct (Forall2_lookup_r _ _ _ _ _ Hz Hj) as (I0 & H0' & HI).
  apply list_elem_of_lookup_2 in H0'. rewrite <- HI. apply list_elem_of_In, repeat_spec in H0' as ->. done.
Qed.

Lemma value_at_init ns i : value_at (accumulate []) false ns i ≡z [].
Proof.
  unfold value_at. pose proof (values_init ns) as Hv. rewrite Forall_forall in Hv.
  destruct (values _ _ ns !! i) as [v|] eqn:Ev; simpl; [|done]. by eapply Hv, list_elem_of_lookup_2.
Qed.

Lemma builder_wired (l : list (Node Op)) : builder_ok l -> wired (map Some l).
Proof.
  intros Hb i n Hn. change (map Some l) with (Some <$> l) in Hn. rewrite list_lookup_fmap in Hn. destruct (l !! i) as [[|op inputs]|] eqn:En; try done;
    injection Hn as <-; simpl; [constructor|]. by apply (Hb _ _ _ En).
Qed.

(** The circuit before priming. *)
Lemma assemble_inv (bld : CircuitBuilder Op) sink c id :
  builder_ok (b_nodes bld) -> add_sink (assemble bld) sink = Ok (c, id) ->
  circuit_inv (accumulate []) false c /\ nodes c = map Some (b_nodes bld) /\
  exists schema anc errs, node_output_schema c sink = Ok schema /\ ancestors_of (assemble bld) sink = Ok anc /\
    sinks c = [Some (mkSink sink (store_new schema) (store_new errs) anc)].
Proof.
  intros Hb. unfold add_sink.
  destruct (node_output_schema (assemble bld) sink) as [schema|] eqn:Es; [|done].
  destruct (ancestors_of (assemble bld) sink) as [anc|] eqn:Ea; [|done].
  destruct (map_err CirOp error_schema) as [errs|]; [|done]. intros [= <- <-].
  split_and!; [|done|by exists schema, anc, errs].
  split; simpl; [by apply builder_wired| |].
  - intros i op inputs Hi. eapply op_inv_proper; [apply inputs_at_init|].
    change (map Some (b_nodes bld)) with (Some <$> b_nodes bld) in Hi.
    rewrite list_lookup_fmap in Hi. destruct (b_nodes bld !! i) as [n|] eqn:En; [|done].
    injection Hi as ->. by apply (Hb _ _ _ En).
  - apply Forall_singleton. split; [split; apply store_new_inv|]. simpl.
    rewrite value_at_init. split; [done|]. symmetry. apply (errors_init (map Some (b_nodes bld))).
Qed.

(** The batches of a circuit's life, from its priming on. *)
Definition life_small (bld : CircuitBuilder Op) (sink : nat) (ds : list EpochDeltas) : bool :=
  match add_sink (assemble bld) sink with
  | Ok (c, _) => pass_small c deltas_new None && run_small (prime c).1 ds
  | Err _ => true
  end.

Lemma build_run_spec (bld : CircuitBuilder Op) sink c0 ds c :
  builder_ok (b_nodes bld) -> build bld sink = Ok c0 -> run c0 ds = Ok c ->
  life_small bld sink ds = true ->
  exists schema anc,
    output_schema_of c0 0 = Ok schema /\ ancestors_of (assemble bld) sink = Ok anc /\
    answer c = answer_over schema (value_at (accumulate ds) true (map Some (b_nodes bld)) sink)
                 (errors_upto (accumulate ds) true (map Some (b_nodes bld)) anc (length (b_nodes bld))).
Proof.
  intros Hb Hbuild Hrun Hsm. unfold build, life_small in *.
  destruct (b_nodes bld) as [|n0 rest] eqn:Enodes; [done|]. rewrite <- Enodes in *. clear n0 rest Enodes.
  destruct (add_sink (assemble bld) sink) as [[c1 id]|] eqn:Ea; [|done].
  apply assemble_inv in Ea as (Hc1 & Hn1 & schema & anc & errs & Hsch & Hanc & Hsk); [|done].
  destruct (prime c1) as [c2 [[]|]] eqn:Ep; [|done]. injection Hbuild as ->.
  apply andb_true_iff in Hsm as [Hs1 Hs2].
  destruct (pass_spec (accumulate []) (accumulate []) false c1 deltas_new c0 Hc1) as (Hc0 & Hn & Hk);
    [done|done|done|].
  destruct (run_spec [] c0 ds c Hc0 Hrun Hs2) as (Hc & Hn' & Hk').
  pose proof (Forall2_same_slot_trans _ _ _ Hn Hn') as Hns. rewrite Hn1 in Hns. rewrite Hsk in Hk.
  apply Forall2_cons_inv_l in Hk as (s0 & ? & Hs0 & Hnil & Hk0). apply Forall2_nil_inv_l in Hnil as ->.
  destruct s0 as [s0|]; [|done]. destruct Hs0 as (Hs01 & Hs02 & Hs03). rewrite Hk0 in Hk'.
  apply Forall2_cons_inv_l in Hk' as (s1 & ? & Hs1' & _ & Hsinks).
  destruct s1 as [s'|]; [|done]. destruct Hs1' as (Hs'1 & Hs'2 & Hs'3).
  exists schema, anc. split_and!; [unfold output_schema_of, sink_at; rewrite Hk0; simpl; by rewrite Hs03|done|].
  unfold answer. rewrite (answer_of_spec _ _ _ _ s' Hc) by by rewrite Hsinks. simpl in *.
  unfold value_at. rewrite <- (values_same _ _ _ _ Hns), <- (errors_upto_same _ _ _ _ _ _ Hns),
    <- (Forall2_length _ _ _ Hns), length_map, Hs'1, Hs'2, Hs'3, Hs01, Hs02, Hs03. done.
Qed.
End dataflow.
