(* ===== verification/Engine.v ===== *)
(** * The engine's operators behind one interface

    [Box<dyn Operator>] as the sum of the five operators the planner builds, and
    the proof that each meets the contract of [Dataflow]. *)

From Stdlib Require Import ZArith Lia.
From stdpp Require Import base list strings.
From S2P Require Import Prelude BTree ZAlg Value ZSet Plan Bind Codec State Operator Linear Distinct Join Aggregate ResultStore Circuit Dataflow.

Inductive AnyOp (B : Type) :=
| OpFilter (f : Filter)
| OpProject (p : Project)
| OpJoin (j : Join B)
| OpAggregate (a : Aggregate B)
| OpDistinct (d : Distinct B).
Arguments OpFilter {B} _.
Arguments OpProject {B} _.
Arguments OpJoin {B} _.
Arguments OpAggregate {B} _.
Arguments OpDistinct {B} _.

(** A dynamic call on the operator in the box. *)
Definition dispatch {B R} `{StateBackend B} (call : forall Op, Operator Op -> Op -> R) (o : AnyOp B) : R :=
  match o with
  | OpFilter f => call _ _ f
  | OpProject p => call _ _ p
  | OpJoin j => call _ _ j
  | OpAggregate a => call _ _ a
  | OpDistinct d => call _ _ d
  end.

(** A dynamic call that changes the operator in the box. *)
Definition dispatch_mut {B R} `{StateBackend B} (call : forall Op, Operator Op -> Op -> Op * R)
    (o : AnyOp B) : AnyOp B * R :=
  match o with
  | OpFilter f => let '(f', r) := call _ _ f in (OpFilter f', r)
  | OpProject p => let '(p', r) := call _ _ p in (OpProject p', r)
  | OpJoin j => let '(j', r) := call _ _ j in (OpJoin j', r)
  | OpAggregate a => let '(a', r) := call _ _ a in (OpAggregate a', r)
  | OpDistinct d => let '(d', r) := call _ _ d in (OpDistinct d', r)
  end.

#[export] Instance any_operator {B} `{StateBackend B} : Operator (AnyOp B) := {|
  op_name := dispatch (fun _ _ => op_name);
  op_arity := dispatch (fun _ _ => op_arity);
  op_output_schema := dispatch (fun _ _ => op_output_schema);
  op_state_bound := dispatch (fun _ _ => op_state_bound);
  op_state_size := dispatch (fun _ _ => op_state_size);
  op_backend_count := dispatch (fun _ _ => op_backend_count);
  op_step o inputs := dispatch_mut (fun _ _ o => op_step o inputs) o;
  op_snapshot := dispatch (fun _ _ => op_snapshot);
  op_restore o bytes := dispatch_mut (fun _ _ o => op_restore o bytes) o
|}.

(** ** Every batch a step emits was built by [from_entries] *)

Lemma StepOutput_new_built d es out :
  StepOutput_new d es = Ok out -> built d -> built (data out) /\ built (errors out).
Proof.
  unfold StepOutput_new. destruct error_schema as [s|]; [|done].
  destruct (from_entries s es) as [e|] eqn:E; [|done]. intros [= <-] Hd.
  split; [done|]. by eapply from_entries_built.
Qed.

Lemma consolidate_built b b' : consolidate b = Ok b' -> built b'.
Proof. unfold consolidate. destruct (consolidated_entries b); [|done]. apply from_entries_built. Qed.

Lemma map_err_inv {E F A} (f : E -> F) (r : result E A) x : map_err f r = Ok x -> r = Ok x.
Proof. destruct r; [|done]. by intros [= ->]. Qed.

(** Run a successful step to the end. *)
Ltac step_inv :=
  repeat (res_inv; match goal with
    | H : map_err _ _ = Ok _ |- _ => apply map_err_inv in H
    | H : (let (_, _) := ?p in _) = Ok _ |- _ => destruct p
    end); res_inv.

Lemma filter_run_built f inputs out : filter_run f inputs = Ok out -> built (data out) /\ built (errors out).
Proof.
  unfold filter_run. intros H. step_inv.
  eapply StepOutput_new_built; [eassumption|by eapply from_entries_built].
Qed.

Lemma project_run_built p inputs out : project_run p inputs = Ok out -> built (data out) /\ built (errors out).
Proof.
  unfold project_run. intros H. step_inv.
  eapply StepOutput_new_built; [eassumption|by eapply consolidate_built].
Qed.

Section stateful.
Context {B : Type} `{StateBackend B}.

Lemma distinct_step_built (d d' : Distinct B) inputs out :
  distinct_step d inputs = (d', Ok out) -> built (data out) /\ built (errors out).
Proof.
  unfold distinct_step. destruct (distinct_prepare d inputs) as [[o w]|]; [|done].
  destruct (be_write _ _) as [st r]. intros [= _ Hr]. step_inv.
  eapply StepOutput_new_built; [eassumption|by eapply from_entries_built].
Qed.

Lemma join_step_built (j j' : Join B) inputs out :
  join_step j inputs = (j', Ok out) -> built (data out) /\ built (errors out).
Proof.
  unfold join_step. intros Hs. repeat case_match; simplify_eq; step_inv.
  all: eapply StepOutput_new_built; [eassumption|by eapply consolidate_built].
Qed.

Lemma agg_step_built (a a' : Aggregate B) inputs out :
  agg_step a inputs = (a', Ok out) -> built (data out) /\ built (errors out).
Proof.
  unfold agg_step. destruct (agg_prepare a inputs) as [[[c q] before]|]; [|done].
  destruct (be_write _ _) as [st r]. intros [= _ Hr]. unfold agg_finish in Hr. step_inv.
  eapply StepOutput_new_built; [eassumption|by eapply consolidate_built].
Qed.
End stateful.

(** ** The contract *)

Section laws.
Context {B : Type} `{BackendLaws B}.

Definition any_inv (o : AnyOp B) (b : bool) (Is : list Entries) : Prop :=
  match o, Is with
  | OpFilter _, [_] | OpProject _, [_] => True
  | OpJoin j, [L; R] => join_inv j L R
  | OpAggregate a, [X] => agg_inv a X (b && no_keys (agg_keys a))
  | OpDistinct d, [X] => distinct_inv d X
  | _, _ => False
  end.

(** The function each operator maintains. *)
Definition any_data (o : AnyOp B) (b : bool) (Is : list Entries) : Entries :=
  match o, Is with
  | OpFilter f, [X] => zbind (filter_row (predicate f) (filter_input_schema f)) X
  | OpProject p, [X] => zbind (project_row (items p) (project_input_schema p)) X
  | OpJoin j, [L; R] => zjoin (left_key j) (right_key j) L R
  | OpAggregate a, [X] =>
      agg_data (agg_input_schema a) (agg_keys a) (agg_aggregates a) X (b && no_keys (agg_keys a))
  | OpDistinct d, [X] => zdistinct X
  | _, _ => []
  end.

Definition any_errs (o : AnyOp B) (b : bool) (Is : list Entries) : Entries :=
  match o, Is with
  | OpFilter f, [X] => zbind (filter_error (predicate f) (filter_input_schema f)) X
  | OpProject p, [X] => zbind (project_error (items p) (project_input_schema p)) X
  | OpAggregate a, [X] =>
      agg_errs (agg_input_schema a) (agg_keys a) (agg_aggregates a) X (b && no_keys (agg_keys a))
  | _, _ => []
  end.

Lemma any_inv_proper o b Is Js : zeqs Is Js -> any_inv o b Is -> any_inv o b Js.
Proof.
  intros Hz. destruct Hz as [|I J ? ? HIJ [|I2 J2 ? ? HIJ2 [|]]]; destruct o; simpl; try done.
  - intros (Hb & Hv & Hp). split_and!; [done| |done]. by rewrite Hv, HIJ.
  - intros [Hb Hv]. split; [done|]. by rewrite Hv.
  - intros ([Hb Hl] & [Hb' Hr] & Hk). split; [|split; [|exact Hk]].
    + split; [done|]. by rewrite Hl, HIJ.
    + split; [done|]. by rewrite Hr, HIJ2.
Qed.

Lemma any_data_proper o b Is Js : zeqs Is Js -> any_data o b Is ≡z any_data o b Js.
Proof.
  intros Hz. destruct Hz as [|I J ? ? HIJ [|I2 J2 ? ? HIJ2 [|]]]; destruct o; simpl; try done.
  - by rewrite HIJ.
  - by rewrite HIJ.
  - by apply agg_data_proper.
  - by rewrite HIJ.
  - by rewrite HIJ, HIJ2.
Qed.

Lemma any_errs_proper o b Is Js : zeqs Is Js -> any_errs o b Is ≡z any_errs o b Js.
Proof.
  intros Hz. destruct Hz as [|I J ? ? HIJ [|I2 J2 ? ? HIJ2 [|]]]; destruct o; simpl; try done.
  - by rewrite HIJ.
  - by rewrite HIJ.
  - by apply agg_errs_proper.
Qed.

(** Accumulated inputs that cancelled are no inputs. *)
Lemma zeqs_nils (Is : list Entries) : Forall (fun I => I ≡z []) Is -> zeqs Is (repeat [] (length Is)).
Proof. induction 1; simpl; by constructor. Qed.

Lemma any_data_init o Is : Forall (fun I => I ≡z []) Is -> any_data o false Is ≡z [].
Proof.
  intros Hn%zeqs_nils. rewrite (any_data_proper _ _ _ _ Hn).
  destruct (length Is) as [|[|[|]]], o; simpl; try done. by rewrite agg_data_init.
Qed.

Lemma any_errs_init o Is : Forall (fun I => I ≡z []) Is -> any_errs o false Is ≡z [].
Proof.
  intros Hn%zeqs_nils. rewrite (any_errs_proper _ _ _ _ Hn).
  destruct (length Is) as [|[|[|]]], o; simpl; try done. by rewrite agg_errs_init.
Qed.

(** What a step of the contract promises. *)
Definition step_promise (o o' : AnyOp B) (b : bool) (Is Js : list Entries) (out : StepOutput) : Prop :=
  any_inv o' true Js /\ op_output_schema o' = op_output_schema o /\
  (forall b Is, any_data o' b Is = any_data o b Is) /\
  (forall b Is, any_errs o' b Is = any_errs o b Is) /\
  batch_schema (data out) = op_output_schema o /\ built (data out) /\ built (errors out) /\
  any_data o b Is ++ batch_entries (data out) ≡z any_data o true Js /\
  any_errs o b Is ++ batch_entries (errors out) ≡z any_errs o true Js.

Lemma linear_promise f b X d out :
  filter_run f [d] = Ok out ->
  step_promise (OpFilter f) (OpFilter f) b [X] [X ++ batch_entries d] out.
Proof.
  intros Hs. destruct (filter_run_built _ _ _ Hs) as [Hb1 Hb2].
  apply filter_run_spec in Hs as (? & [= <-] & _ & Hd & He). unfold step_promise. simpl.
  rewrite !zbind_app, He, Hd. rewrite Hd in Hb1. done.
Qed.

Lemma project_promise p b X d out :
  project_run p [d] = Ok out ->
  step_promise (OpProject p) (OpProject p) b [X] [X ++ batch_entries d] out.
Proof.
  intros Hs. destruct (project_run_built _ _ _ Hs) as [Hb1 Hb2].
  apply project_run_spec in Hs as (? & [= <-] & _ & Hsc & Hd & He). unfold step_promise. simpl.
  rewrite !zbind_app, He, Hd. done.
Qed.

Lemma join_promise j j' b L R l r out :
  join_inv j L R -> join_step j [l; r] = (j', Ok out) ->
  step_promise (OpJoin j) (OpJoin j') b [L; R] [L ++ batch_entries l; R ++ batch_entries r] out.
Proof.
  intros Hinv Hs. destruct (join_step_built _ _ _ _ Hs) as [Hb1 Hb2].
  apply (join_step_spec _ _ _ _ _ _ Hinv) in Hs
    as (? & ? & [= <- <-] & _ & _ & (_ & _ & Hos & Hlk & Hrk) & Hinv' & Hsc & Hd & He).
  unfold step_promise. simpl. rewrite Hlk, Hrk, He, Hos. done.
Qed.

Lemma distinct_promise d d' b X i out :
  distinct_inv d X -> distinct_step d [i] = (d', Ok out) ->
  step_promise (OpDistinct d) (OpDistinct d') b [X] [X ++ batch_entries i] out.
Proof.
  intros Hinv Hs. destruct (distinct_step_built _ _ _ _ Hs) as [Hb1 Hb2].
  apply (distinct_step_spec _ _ _ _ _ Hinv) in Hs as (? & [= <-] & _ & Hos & Hinv' & Hsc & Hd & He).
  unfold step_promise. simpl. rewrite He, Hos. done.
Qed.

Lemma aggregate_promise a a' b X i out :
  agg_inv a X (b && no_keys (agg_keys a)) -> small i = true -> agg_step a [i] = (a', Ok out) ->
  step_promise (OpAggregate a) (OpAggregate a') b [X] [X ++ batch_entries i] out.
Proof.
  intros Hinv Hsm Hs. destruct (agg_step_built _ _ _ _ Hs) as [Hb1 Hb2].
  apply (agg_step_spec _ _ _ _ _ _ Hinv) in Hs
    as (? & [= <-] & _ & (Hi & Hos & Hk & Ha) & Hinv' & Hsc & Hd & He).
  - unfold step_promise. simpl. rewrite Hi, Hos, Hk, Ha. done.
  - intros ? [= <-]. unfold small in Hsm. lia.
Qed.

Lemma any_step_ok op b Is batches op' out :
  any_inv op b Is -> length Is = length batches -> Forall (fun b => small b = true) batches ->
  op_step op batches = (op', Ok out) ->
  step_promise op op' b Is (zip_with app Is (map batch_entries batches)) out.
Proof.
  intros Hinv Hl Hsm Hs.
  destruct op as [f|p|j|a|d], Is as [|I1 [|I2 [|]]], batches as [|b1 [|b2 [|]]]; simpl in Hinv, Hl; try done.
  - change (op_step (OpFilter f) [b1]) with (OpFilter (B := B) f, filter_run f [b1]) in Hs.
    injection Hs as <- Hs. exact (linear_promise f b I1 b1 out Hs).
  - change (op_step (OpProject p) [b1]) with (OpProject (B := B) p, project_run p [b1]) in Hs.
    injection Hs as <- Hs. exact (project_promise p b I1 b1 out Hs).
  - change (op_step (OpJoin j) [b1; b2]) with (let '(j', r) := join_step j [b1; b2] in (OpJoin j', r)) in Hs.
    destruct (join_step j [b1; b2]) as [j' r] eqn:E. injection Hs as <- ->. exact (join_promise j j' b I1 I2 b1 b2 out Hinv E).
  - change (op_step (OpAggregate a) [b1]) with (let '(a', r) := agg_step a [b1] in (OpAggregate a', r)) in Hs.
    destruct (agg_step a [b1]) as [a' r] eqn:E. injection Hs as <- ->.
    apply Forall_cons in Hsm as [Hsm _]. exact (aggregate_promise a a' b I1 b1 out Hinv Hsm E).
  - change (op_step (OpDistinct d) [b1]) with (let '(d', r) := distinct_step d [b1] in (OpDistinct d', r)) in Hs.
    destruct (distinct_step d [b1]) as [d' r] eqn:E. injection Hs as <- ->. exact (distinct_promise d d' b I1 b1 out Hinv E).
Qed.

#[export] Instance any_laws : OperatorLaws (AnyOp B) :=
  Build_OperatorLaws _ _ any_inv any_data any_errs any_inv_proper any_data_proper any_errs_proper
    any_data_init any_errs_init any_step_ok.
End laws.
