(* ===== verification/Compile.v ===== *)
(** * From a query to a circuit ([schweep-sql]: circuit_plan.rs, incremental.rs,
    instantiate.rs)

    The incrementalizer turns a bound query into a circuit plan, a tree with one
    node per operator, and [instantiate] turns the plan into a circuit, each
    stateful operator over backends handed out by a factory.

    Its later part: the circuit of a plan computes the plan. *)

From Stdlib Require Import ZArith Lia.
From stdpp Require Import base list strings pretty.
From S2P Require Import Prelude BTree ZAlg Value ZSet Plan Bind Codec State Operator Linear Distinct Join Aggregate ResultStore Circuit Dataflow Engine.

(** The errors of the planner.  [circuit_error], [ops_error] and [state_error]
    render the failure below them into a [PlanWiringMismatch]; here the failure
    itself is kept. *)
Inductive SqlError :=
| Parse (message : string)
| NotOneStatement (found : nat)
| NotAQuery (what : string)
| NotInDialect (what : string)
| SelectStarNotSupported
| MissingOutputName (what : string)
| UnsupportedCast (what : string)
| UnknownFunction (name : string)
| UnsupportedTypeName (name : string)
| NumberOutOfRange (literal : string)
| NotAnEquiJoin (what : string)
| JoinKeysOnOneSide (left right : string)
| QualifiedTableName (name : string)
| PlanWiringMismatch (emitted expected : string)
| circuit_error (e : CircuitError)
| ops_error (e : OpError)
| state_error (e : StateError)
| SqlPlan (e : PlanError).

Inductive Rule := RInput | RLinear | RBilinear | StatefulPerGroup | StatefulPerRow.

Inductive CircuitNode :=
| CSource (table alias : string) (schema : Schema)
| CFilter (input : CircuitNode) (n : Naming) (p : Expr)
| CProject (input : CircuitNode) (n : Naming) (its : list (Named Expr)) (schema : Schema)
| CJoin (l r : CircuitNode) (keys : list (nat * nat)) (schema : Schema)
| CAggregate (input : CircuitNode) (keys : list (Named Expr)) (aggs : list (Named AggFunc)) (schema : Schema)
| CDistinct (input : CircuitNode).

Fixpoint node_schema (n : CircuitNode) : Schema :=
  match n with
  | CSource _ _ s | CProject _ _ _ s | CJoin _ _ _ s | CAggregate _ _ _ s => s
  | CFilter input _ _ | CDistinct input => node_schema input
  end.

Definition node_rule (n : CircuitNode) : Rule :=
  match n with
  | CSource _ _ _ => RInput
  | CFilter _ _ _ | CProject _ _ _ _ => RLinear
  | CJoin _ _ _ _ => RBilinear
  | CAggregate _ _ _ _ => StatefulPerGroup
  | CDistinct _ => StatefulPerRow
  end.

(** [nodes]: a node's inputs, then the node. *)
Fixpoint walk (n : CircuitNode) : list CircuitNode :=
  match n with
  | CSource _ _ _ => []
  | CFilter input _ _ | CProject input _ _ _ | CAggregate input _ _ _ | CDistinct input => walk input
  | CJoin l r _ _ => walk l ++ walk r
  end ++ [n].

Record CircuitPlan := mkPlan { root : CircuitNode; plan_output_schema : Schema }.

(** ** The incrementalizer *)

Definition plan_index_of (s : Schema) (n : string) : result SqlError nat :=
  ok_or (schema_index_of s n) (SqlPlan (PUnknownColumn n (schema_to_string s))).

Fixpoint source_node (s : Source) (catalog : Catalog) : result SqlError CircuitNode :=
  match s with
  | Scan table alias =>
      let? schema := map_err SqlPlan (bind_source s catalog) in Ok (CSource table alias schema)
  | SJoin l r on =>
      let? left_node := source_node l catalog in
      let? right_node := source_node r catalog in
      let? keys := try_map (fun p : string * string =>
          let? i := plan_index_of (node_schema left_node) p.1 in
          let? j := plan_index_of (node_schema right_node) p.2 in Ok (i, j)) on in
      let? schema := map_err (fun e => SqlPlan (PZSet e))
          (Schema_new (fields (node_schema left_node) ++ fields (node_schema right_node))) in
      Ok (CJoin left_node right_node keys schema)
  end.

(** The stages after the source, in the order the code applies them. *)
Definition add_where (q : Query) (n : CircuitNode) : CircuitNode :=
  match filter_ q with Some p => CFilter n Qualified p | None => n end.

Definition add_group_by (q : Query) (b : Bound) (n : CircuitNode) : CircuitNode :=
  match group_by q with
  | Some g =>
      let n := CAggregate n (keys g) (aggregates g) (grouped_schema b) in
      match having g with Some h => CFilter n Unqualified h | None => n end
  | None => n
  end.

Definition add_project (q : Query) (b : Bound) (n : CircuitNode) : CircuitNode :=
  match project q with
  | Some its => CProject n (match group_by q with Some _ => Unqualified | None => Qualified end) its
                  (output_schema b)
  | None => n
  end.

Definition add_distinct (q : Query) (n : CircuitNode) : CircuitNode :=
  if distinct q then CDistinct n else n.

Definition plan_of (q : Query) (b : Bound) (catalog : Catalog) : result SqlError CircuitPlan :=
  let? source := source_node (source q) catalog in
  let node := add_distinct q (add_project q b (add_group_by q b (add_where q source))) in
  if negb (bool_decide (node_schema node = output_schema b)) then
    Err (PlanWiringMismatch (schema_to_string (node_schema node)) (schema_to_string (output_schema b)))
  else Ok (mkPlan node (output_schema b)).

Definition incrementalize_typed (q : Query) (catalog : Catalog) : result SqlError CircuitPlan :=
  let? b := map_err SqlPlan (bind q catalog) in plan_of q b catalog.

(** ** Backends *)

Class BackendFactory (F B : Type) := create : F -> string -> F * result StateError B.

Record MemFactory := mkMemFactory { labels : list string }.

#[export] Instance mem_factory : BackendFactory MemFactory MemBackend :=
  fun f label => (mkMemFactory (labels f ++ [label]), Ok mem_new).

(** ** Instantiation *)

Definition node_kind (n : CircuitNode) : string :=
  match n with
  | CSource _ _ _ => "source"
  | CFilter _ _ _ => "filter"
  | CProject _ _ _ _ => "project"
  | CJoin _ _ _ _ => "join"
  | CAggregate _ _ _ _ => "aggregate"
  | CDistinct _ => "distinct"
  end.

Definition children (n : CircuitNode) : list CircuitNode :=
  match n with
  | CSource _ _ _ => []
  | CFilter input _ _ | CProject input _ _ _ | CAggregate input _ _ _ | CDistinct input => [input]
  | CJoin l r _ _ => [l; r]
  end.

Section instantiate.
Context {F B : Type} `{StateBackend B} `{BackendFactory F B}.

Definition operator_for_with (n : CircuitNode) (label : string) (f : F)
    : F * result SqlError (option (AnyOp B)) :=
  match n with
  | CSource _ _ _ => (f, Ok None)
  | CFilter input nm p =>
      (f, let? op := map_err ops_error (Filter_new (node_schema input) nm p) in Ok (Some (OpFilter op)))
  | CProject input nm its _ =>
      (f, let? op := map_err ops_error (Project_new (node_schema input) nm its) in Ok (Some (OpProject op)))
  | CJoin l r ks _ =>
      let '(f, lb) := create f (label +:+ "-left")%string in
      match lb with
      | Err e => (f, Err (state_error e))
      | Ok li =>
          let '(f, rb) := create f (label +:+ "-right")%string in
          (f, let? ri := map_err state_error rb in
              let? op := map_err ops_error (Join_new (node_schema l) (node_schema r) ks li ri) in
              Ok (Some (OpJoin op)))
      end
  | CAggregate input ks aggs s =>
      let '(f, st) := create f label in
      (f, let? st := map_err state_error st in
          let? op := map_err ops_error (Aggregate_new (node_schema input) s ks aggs st) in
          Ok (Some (OpAggregate op)))
  | CDistinct input =>
      let '(f, st) := create f label in
      (f, let? st := map_err state_error st in Ok (Some (OpDistinct (Distinct_new (node_schema input) st))))
  end.

(** The operator of a node, added over its inputs. *)
Definition add_op (n : CircuitNode) (inputs : list nat) (bld : CircuitBuilder (AnyOp B)) (f : F)
    : F * result SqlError (CircuitBuilder (AnyOp B) * nat) :=
  let label := ("n" +:+ pretty (length (b_nodes bld)) +:+ "-" +:+ node_kind n)%string in
  let '(f, r) := operator_for_with n label f in
  (f, let? o := r in
      let? op := ok_or o (PlanWiringMismatch "a source with children" "an operator") in
      map_err circuit_error (builder_add bld op inputs)).

(** Post-order: a node's children, left to right, then the node. *)
Fixpoint add (n : CircuitNode) (bld : CircuitBuilder (AnyOp B)) (f : F)
    : F * result SqlError (CircuitBuilder (AnyOp B) * nat) :=
  match n with
  | CSource table alias schema => (f, map_err circuit_error (builder_source bld table alias schema))
  | CFilter input _ _ | CProject input _ _ _ | CAggregate input _ _ _ | CDistinct input =>
      match add input bld f with
      | (f, Err e) => (f, Err e)
      | (f, Ok (bld, i)) => add_op n [i] bld f
      end
  | CJoin l r _ _ =>
      match add l bld f with
      | (f, Err e) => (f, Err e)
      | (f, Ok (bld, i)) =>
          match add r bld f with
          | (f, Err e) => (f, Err e)
          | (f, Ok (bld, j)) => add_op n [i; j] bld f
          end
      end
  end.

Definition instantiate_with (plan : CircuitPlan) (f : F) : F * result SqlError (Circuit (AnyOp B)) :=
  let '(f, r) := add (root plan) builder_new f in
  (f, let? '(bld, top) := r in
      let? c := map_err circuit_error (build bld top) in
      let? emitted := map_err circuit_error (output_schema_of c 0) in
      if negb (bool_decide (emitted = plan_output_schema plan)) then
        Err (PlanWiringMismatch (schema_to_string emitted) (schema_to_string (plan_output_schema plan)))
      else Ok c).
End instantiate.

Definition instantiate (plan : CircuitPlan) : result SqlError (Circuit (AnyOp MemBackend)) :=
  (instantiate_with plan (mkMemFactory [])).2.

(** ** What a plan computes *)

(** The accumulated output and errors of a plan over table contents. *)
Fixpoint plan_data (E : string -> Entries) (b : bool) (n : CircuitNode) : Entries :=
  match n with
  | CSource table _ _ => E table
  | CFilter input _ p => zbind (filter_row p (node_schema input)) (plan_data E b input)
  | CProject input _ its _ => zbind (project_row its (node_schema input)) (plan_data E b input)
  | CJoin l r ks _ => zjoin (map fst ks) (map snd ks) (plan_data E b l) (plan_data E b r)
  | CAggregate input ks aggs _ =>
      agg_data (node_schema input) ks aggs (plan_data E b input) (b && no_keys ks)
  | CDistinct input => zdistinct (plan_data E b input)
  end.

(** The errors raised at a node, then those of its inputs. *)
Definition own_errs (E : string -> Entries) (b : bool) (n : CircuitNode) : Entries :=
  match n with
  | CFilter input _ p => zbind (filter_error p (node_schema input)) (plan_data E b input)
  | CProject input _ its _ => zbind (project_error its (node_schema input)) (plan_data E b input)
  | CAggregate input ks aggs _ =>
      agg_errs (node_schema input) ks aggs (plan_data E b input) (b && no_keys ks)
  | _ => []
  end.

Definition plan_errs (E : string -> Entries) (b : bool) (n : CircuitNode) : Entries :=
  flat_map (own_errs E b) (walk n).

(** * The circuit of a plan computes the plan

    Instantiating a plan gives a circuit whose top node's value is the plan's,
    whose nodes are all upstream of it, and whose errors are the plan's; so the
    answer of a running circuit is the plan's over the tables so far. *)

(** What a factory promises: fresh backends are usable and empty. *)
Class FactoryLaws (F B : Type) `{BackendLaws B} `{BackendFactory F B} :=
  create_fresh : forall f label f' b, create f label = (f', Ok b) -> be_inv b /\ view b = [].

#[export] Instance mem_factory_laws : FactoryLaws MemFactory MemBackend.
Proof. intros f label f' b [= _ <-]. split; [exact (new_inv (B := MemBackend))|exact (view_new (B := MemBackend))]. Qed.

(** ** Plans as functions of the tables *)

(** A plan's value and errors depend on the contents of the tables only. *)
Lemma plan_data_proper E E' b n : (forall t, E t ≡z E' t) -> plan_data E b n ≡z plan_data E' b n.
Proof.
  intros HE. induction n as [t a s|i IH nm p|i IH nm its s|l IHl r IHr ks s|i IH ks aggs s|i IH]; simpl.
  - apply HE.
  - by apply zbind_proper.
  - by apply zbind_proper.
  - by apply zjoin_proper.
  - by apply agg_data_proper.
  - by rewrite IH.
Qed.

Lemma own_errs_proper E E' b n : (forall t, E t ≡z E' t) -> own_errs E b n ≡z own_errs E' b n.
Proof.
  intros HE. destruct n; simpl; try done.
  - by apply zbind_proper, plan_data_proper.
  - by apply zbind_proper, plan_data_proper.
  - by apply agg_errs_proper, plan_data_proper.
Qed.

Lemma plan_errs_proper E E' b n : (forall t, E t ≡z E' t) -> plan_errs E b n ≡z plan_errs E' b n.
Proof. intros HE. apply flat_map_zeq. intros m _. by apply own_errs_proper. Qed.

Lemma answer_over_proper schema v v' e e' :
  v ≡z v' -> e ≡z e' -> answer_over schema v e = answer_over schema v' e'.
Proof.
  intros Hv He. unfold answer_over.
  assert (forall a b : Entries, a ≡z b -> zcanon a = zcanon b) as Hc.
  { intros a b Hab. destruct (zcanon_spec a) as [Hca Hza]. apply zcanon_unique; [done|]. by rewrite Hza. }
  by rewrite (Hc _ _ Hv), (Hc _ _ He).
Qed.

Section compile.
Context {F B : Type} `{FactoryLaws F B}.
Implicit Type (bld : CircuitBuilder (AnyOp B)) (l : list (Node (AnyOp B))).

Lemma agg_new_inv (a : Aggregate B) :
  be_inv (agg_state a) -> view (agg_state a) = [] -> agg_inv a [] false.
Proof. intros Hb Hv. split_and!; [done|by rewrite Hv|done]. Qed.

(** The operator of a plan node computes the node from its children. *)
Lemma operator_for_spec n label f f' op :
  operator_for_with n label f = (f', Ok (Some op)) ->
  any_inv op false (repeat [] (length (children n))) /\
  (forall E b, any_data op b (map (plan_data E b) (children n)) = plan_data E b n) /\
  (forall E b, any_errs op b (map (plan_data E b) (children n)) = own_errs E b n).
Proof.
  destruct n as [t a s|input nm p|input nm its s|ln rn ks s|input ks aggs s|input]; simpl.
  - done.
  - intros [= _ Hr]. step_inv. apply Filter_new_Ok in E as [-> _]. done.
  - intros [= _ Hr]. step_inv. apply Project_new_Ok in E as (Hs & Hi & _). simpl. by rewrite Hs, Hi.
  - destruct (create f _) as [f1 [li|]] eqn:E1; [|done]. destruct (create f1 _) as [f2 rb] eqn:E2.
    intros [= _ Hr]. step_inv. subst rb. apply create_fresh in E1 as [Hli Hlv].
    apply create_fresh in E2 as [Hri Hrv].
    apply Join_new_inv in E0 as (Hinv & Hlk & Hrk & _); [|done..]. simpl. by rewrite Hlk, Hrk.
  - destruct (create f label) as [f1 st] eqn:E1. intros [= _ Hr]. step_inv. subst st.
    apply create_fresh in E1 as [Hb Hv]. unfold Aggregate_new in E0. destruct aggs as [|ag aggs]; [done|].
    injection E0 as <-. split; [|done]. by apply agg_new_inv.
  - destruct (create f label) as [f1 st] eqn:E1. intros [= _ Hr]. step_inv. subst st.
    apply create_fresh in E1 as [Hb Hv]. split; [|done]. split; [done|]. simpl. by rewrite Hv.
Qed.

(** ** Values and errors of the nodes built so far *)

(** The errors raised at node [i]. *)
Definition error_at (E : string -> Entries) (b : bool) l (i : nat) : Entries :=
  match map Some l !! i with
  | Some n => node_error b (values E b (map Some l)) n
  | None => []
  end.

Lemma builder_ok_app l1 l2 : builder_ok (l1 ++ l2) -> builder_ok l1.
Proof. intros Hb i op inputs Hi. apply (Hb i op inputs). by apply lookup_app_l_Some. Qed.

Lemma value_at_more E b l1 l2 i :
  (i < length l1)%nat -> value_at E b (map Some (l1 ++ l2)) i = value_at E b (map Some l1) i.
Proof. intros Hi. rewrite map_app. apply value_at_app. by rewrite length_map. Qed.

Lemma error_at_more E b l1 l2 i :
  builder_ok (l1 ++ l2) -> (i < length l1)%nat -> error_at E b (l1 ++ l2) i = error_at E b l1 i.
Proof.
  intros Hb Hi. unfold error_at. rewrite map_app, lookup_app_l by (by rewrite length_map).
  change (map Some l1) with (Some <$> l1). rewrite list_lookup_fmap.
  destruct (l1 !! i) as [[t a s|op inputs]|] eqn:En; simpl; try done.
  destruct (values_prefix E b (Some <$> l1) (map Some l2)) as [rest ->].
  rewrite (inputs_at_prefix _ _ _ (length l1)); [done|by rewrite values_length, length_fmap|].
  destruct (Hb i op inputs) as [Hlt _]; [by apply lookup_app_l_Some|].
  eapply Forall_impl; [exact Hlt|]. simpl. lia.
Qed.

(** [bld'] is [bld] with the nodes of the plans [cs] added, [ids] their tops. *)
Record grown bld bld' (cs : list CircuitNode) (ids : list nat) : Prop := {
  gr_prefix : exists new, b_nodes bld' = b_nodes bld ++ new;
  gr_ok : builder_ok (b_nodes bld');
  gr_length : length (b_nodes bld') = (length (b_nodes bld) + length (flat_map walk cs))%nat;
  gr_below : Forall (fun id => id < length (b_nodes bld'))%nat ids;
  gr_values : forall E b, map (value_at E b (map Some (b_nodes bld'))) ids = map (plan_data E b) cs;
  gr_errors : forall E b, flat_map (error_at E b (b_nodes bld')) 
                            (seq (length (b_nodes bld)) (length (flat_map walk cs)))
                          = flat_map (own_errs E b) (flat_map walk cs);
  gr_above : forall i, (length (b_nodes bld) <= i < length (b_nodes bld'))%nat ->
               exists id, id ∈ ids /\ reaches (assemble bld') id i
}.

Lemma grown_nil bld : builder_ok (b_nodes bld) -> grown bld bld [] [].
Proof.
  intros Hb. split; simpl; try done; try (intros; lia). exists []. by rewrite app_nil_r.
Qed.

Lemma reaches_more bld bld' new n m :
  b_nodes bld' = b_nodes bld ++ new -> reaches (assemble bld) n m -> reaches (assemble bld') n m.
Proof.
  intros Hn Hr. induction Hr as [|n i m slot Hs Hi Hr IH]; [constructor|].
  eapply reaches_up; [|exact Hi|exact IH]. simpl in *. rewrite Hn, map_app.
  by apply lookup_app_l_Some.
Qed.

Lemma flat_map_seq_ext (f g : nat -> Entries) k m :
  (forall i, (k <= i < k + m)%nat -> f i = g i) -> flat_map f (seq k m) = flat_map g (seq k m).
Proof.
  intros Hfg. rewrite !flat_map_concat_map. f_equal. apply map_ext_in. intros i Hi%in_seq. by apply Hfg.
Qed.

Lemma grown_app bld bld1 bld2 cs1 ids1 cs2 ids2 :
  grown bld bld1 cs1 ids1 -> grown bld1 bld2 cs2 ids2 -> grown bld bld2 (cs1 ++ cs2) (ids1 ++ ids2).
Proof.
  intros [[n1 Hp1] Hok1 Hl1 Hb1 Hv1 He1 Ha1] [[n2 Hp2] Hok2 Hl2 Hb2 Hv2 He2 Ha2].
  rewrite Hp2 in Hok2. split.
  - rewrite Hp2, Hp1, <- app_assoc. eauto.
  - by rewrite Hp2.
  - rewrite Hl2, Hl1, flat_map_app, length_app. lia.
  - apply Forall_app. split; [|done]. eapply Forall_impl; [exact Hb1|]. simpl. lia.
  - intros E b. rewrite !map_app, <- Hv1, <- Hv2, Hp2. f_equal.
    apply map_ext_in. intros id Hid%list_elem_of_In. rewrite Forall_forall in Hb1.
    by apply value_at_more, Hb1.
  - intros E b. rewrite !flat_map_app, length_app, seq_app, flat_map_app, <- He1, <- He2, Hl1. f_equal.
    apply flat_map_seq_ext. intros i Hi. rewrite Hp2. apply error_at_more; [done|]. lia.
  - intros i Hi. destruct (decide (i < length (b_nodes bld1))%nat).
    + destruct (Ha1 i) as (id & Hid & Hr); [lia|]. exists id. split; [apply elem_of_app; by left|].
      by eapply reaches_more.
    + destruct (Ha2 i) as (id & Hid & Hr); [lia|]. exists id. split; [apply elem_of_app; by right|done].
Qed.

(** Appending one node on top of the plans of its inputs. *)
Lemma grown_push bld bld1 bld2 cs ids n node :
  grown bld bld1 cs ids -> b_nodes bld2 = b_nodes bld1 ++ [node] ->
  walk n = flat_map walk cs ++ [n] ->
  (forall op inputs, node = NOperator op inputs -> any_inv op false (repeat [] (length inputs)) /\
     Forall (fun j => j < length (b_nodes bld1))%nat inputs) ->
  slot_inputs (Some node) = ids ->
  (forall E b, node_value E b (values E b (map Some (b_nodes bld1))) (Some node) = plan_data E b n) ->
  (forall E b, node_error b (values E b (map Some (b_nodes bld1))) (Some node) = own_errs E b n) ->
  grown bld bld2 [n] [length (b_nodes bld1)].
Proof.
  intros [[n1 Hp1] Hok1 Hl1 Hb1 Hv1 He1 Ha1] Hp2 Hw Hop Hin Hval Herr.
  assert (builder_ok (b_nodes bld1 ++ [node])) as Hok2.
  { intros i op inputs Hi. apply lookup_app_Some in Hi as [Hi|[Hle Hi]]; [by apply (Hok1 i)|].
    apply list_lookup_singleton_Some in Hi as [Hi0 Hi]. assert (i = length (b_nodes bld1)) as -> by lia.
    destruct (Hop op inputs Hi) as [Hx Hy]. split; [done|exact Hx]. }
  assert (values_last : forall E b, values E b (map Some (b_nodes bld1 ++ [node])) =
    values E b (map Some (b_nodes bld1)) ++ [plan_data E b n]).
  { intros E b. rewrite map_app. simpl. rewrite values_app. by rewrite Hval. }
  split; rewrite ?Hp2; simpl; rewrite ?app_nil_r, ?Hw, ?length_app; simpl.
  - rewrite Hp1, <- app_assoc. eauto.
  - done.
  - lia.
  - apply Forall_singleton. lia.
  - intros E b. f_equal. unfold value_at. rewrite values_last, lookup_app_r by (rewrite values_length, length_map; done).
    by rewrite values_length, length_map, Nat.sub_diag.
  - intros E b. rewrite seq_app, !flat_map_app, <- Hl1. simpl. rewrite !app_nil_r. f_equal.
    + rewrite <- He1. apply flat_map_seq_ext. intros i Hi. apply error_at_more; [done|lia].
    + unfold error_at. rewrite map_app, lookup_app_r, length_map, Nat.sub_diag by (rewrite length_map; done).
      simpl. rewrite <- Herr. destruct node as [|op inputs]; [done|]. simpl. f_equal.
      destruct (values_prefix E b (map Some (b_nodes bld1)) [Some (NOperator op inputs)]) as [rest Hr].
      rewrite Hr. apply (inputs_at_prefix _ _ _ (length (b_nodes bld1))).
      * by rewrite values_length, length_map.
      * by apply (Hop op inputs).
  - intros i Hi. exists (length (b_nodes bld1)). split; [apply list_elem_of_here|].
    destruct (decide (i = length (b_nodes bld1))) as [->|]; [constructor|].
    destruct (Ha1 i) as (id & Hid & Hr); [lia|].
    eapply (reaches_up _ _ id _ (Some node)); [|by rewrite Hin|by eapply reaches_more].
    simpl. rewrite Hp2, map_app, lookup_app_r by (rewrite length_map; done).
    by rewrite length_map, Nat.sub_diag.
Qed.

Lemma check_wiring_Ok (op : AnyOp B) inputs id adm :
  check_wiring op inputs id adm = Ok tt ->
  length inputs = op_arity op /\ Forall (fun j => j < id)%nat inputs.
Proof.
  unfold check_wiring. destruct (op_arity op =? length inputs)%nat eqn:E; [|done]. simpl.
  apply Nat.eqb_eq in E. intros Hc. step_inv.
  split; [done|]. apply try_for_Ok in Hc. eapply Forall_impl; [exact Hc|]. intros j.
  simpl. destruct (Nat.leb_spec id j); [done|]. lia.
Qed.

Lemma walk_children n : walk n = flat_map walk (children n) ++ [n].
Proof. destruct n; simpl; by rewrite ?app_nil_r. Qed.

Lemma add_op_spec n bld bld1 ids f f' bld2 id :
  grown bld bld1 (children n) ids -> length ids = length (children n) ->
  add_op n ids bld1 f = (f', Ok (bld2, id)) ->
  grown bld bld2 [n] [id].
Proof.
  intros Hg Hlen. unfold add_op. destruct (operator_for_with n _ f) as [f1 r] eqn:Eo.
  intros [= _ Hr]. destruct r as [[op|]|]; try done. cbn [ok_or] in Hr. unfold builder_add in Hr.
  destruct (check_wiring op ids _ false) as [[]|] eqn:Ew; [|done]. injection Hr as <- <-.
  apply check_wiring_Ok in Ew as [_ Hlt]. apply operator_for_spec in Eo as (Hinv & Hd & He).
  eapply grown_push; [exact Hg|done|apply walk_children| |done| |].
  - intros op' inputs [= -> ->]. by rewrite Hlen.
  - intros E b. simpl. rewrite <- Hd, <- (gr_values _ _ _ _ Hg E b). done.
  - intros E b. simpl. rewrite <- He, <- (gr_values _ _ _ _ Hg E b). done.
Qed.

Lemma add_spec n bld f f' bld' id :
  builder_ok (b_nodes bld) -> add n bld f = (f', Ok (bld', id)) -> grown bld bld' [n] [id].
Proof.
  revert bld f f' bld' id.
  assert (unary : forall n input, children n = [input] ->
    (forall bld f, add n bld f = match add input bld f with
       | (f, Err e) => (f, Err e) | (f, Ok (bld, i)) => add_op n [i] bld f end) ->
    (forall bld f f' bld' id, builder_ok (b_nodes bld) -> add input bld f = (f', Ok (bld', id)) ->
       grown bld bld' [input] [id]) ->
    forall bld f f' bld' id, builder_ok (b_nodes bld) -> add n bld f = (f', Ok (bld', id)) ->
      grown bld bld' [n] [id]).
  { intros n' input Hc Hadd IH bld f f' bld' id Hb. rewrite Hadd.
    destruct (add input bld f) as [f1 [[bld1 i]|]] eqn:E1; [|done]. apply IH in E1; [|done].
    rewrite <- Hc in E1. intros Ho. eapply add_op_spec; [exact E1|by rewrite Hc|exact Ho]. }
  induction n as [t a s|input IH nm p|input IH nm its s|ln IHl rn IHr ks s|input IH ks aggs s|input IH];
    try (by eapply (unary _ input)).
  - intros bld f f' bld' id Hb. cbn [add]. unfold builder_source.
    destruct (bt_contains a (b_sources bld)); [done|]. intros [= _ <- <-].
    eapply grown_push; [by apply grown_nil|done|done|done|done|done|done].
  - intros bld f f' bld' id Hb. cbn [add].
    destruct (add ln bld f) as [f1 [[bld1 i]|]] eqn:E1; [|done]. apply IHl in E1; [|done].
    destruct (add rn bld1 f1) as [f2 [[bld2 j]|]] eqn:E2; [|done].
    apply IHr in E2; [|apply (gr_ok _ _ _ _ E1)]. intros Ho.
    eapply add_op_spec; [exact (grown_app _ _ _ _ _ _ _ E1 E2)|done|exact Ho].
Qed.

(** Over every node of the circuit, the errors are the plan's. *)
Lemma errors_all E b bld anc :
  (forall i, (i < length (b_nodes bld))%nat -> bt_contains i anc = true) ->
  errors_upto E b (map Some (b_nodes bld)) anc (length (b_nodes bld))
  = flat_map (error_at E b (b_nodes bld)) (seq 0 (length (b_nodes bld))).
Proof. intros Ha. apply flat_map_seq_ext. intros i Hi. rewrite Ha by lia. done. Qed.

(** What a built and running plan answers. *)
Lemma instantiate_run_spec plan f f' c0 ds c bld top :
  instantiate_with plan f = (f', Ok c0) -> add (root plan) builder_new f = (f', Ok (bld, top)) ->
  run c0 ds = Ok c -> life_small bld top ds = true ->
  answer c = answer_over (plan_output_schema plan) (plan_data (accumulate ds) true (root plan))
               (plan_errs (accumulate ds) true (root plan)).
Proof.
  unfold instantiate_with. intros Hi Ha Hrun Hsm. rewrite Ha in Hi. injection Hi as Hi.
  destruct (build bld top) as [c1|] eqn:Eb; [|done]. cbn [map_err] in Hi.
  destruct (output_schema_of c1 0) as [em|] eqn:Eo; [|done]. cbn [map_err] in Hi.
  case_bool_decide as Hs; [|done]. injection Hi as ->. subst em.
  apply add_spec in Ha; [|by intros i]. destruct Ha as [_ Hok Hlen Hlt Hv He Hab].
  destruct (build_run_spec bld top c0 ds c Hok Eb Hrun Hsm) as (schema & anc & Hsch & Hanc & ->).
  rewrite Eo in Hsch. injection Hsch as ->.
  pose proof (ancestors_of_spec _ _ _ Hanc) as Hreach.
  assert (length (b_nodes bld) = length (walk (root plan))) as Hl by (rewrite Hlen; simpl; by rewrite app_nil_r).
  specialize (Hv (accumulate ds) true). injection Hv as Hv.
  specialize (He (accumulate ds) true). simpl in He. rewrite app_nil_r, <- Hl in He.
  rewrite Hv, errors_all, He; [done|]. intros i Hi. apply Hreach.
  destruct (Hab i) as (id & ->%list_elem_of_singleton & Hr); [simpl; lia|done].
Qed.
End compile.
