(* ===== verification/AggEquiv.v ===== *)
(** * What the reference engine computes, stage by stage

    The log's contents, consolidation, the linear stages and the joins of the
    oracle, each as a function of the table contents.

    Its later part: aggregates: folding a maintained multiset gives the
    oracle's value. *)

From Stdlib Require Import ZArith Lia Sorted.
From stdpp Require Import base list strings sorting.
From S2P Require Import Prelude BTree ZAlg Value ZSet Plan Bind Codec State Operator Linear Distinct Join Aggregate Oracle.

(** ** Positive relations *)

Definition positive {K} (es : list (K * Z)) : Prop := Forall (fun e => 0 < e.2) es.

Section positive.
Context {K : Type} `{LinearCmp K}.
Implicit Type es : list (K * Z).

Lemma positive_weight es r : positive es -> 0 <= weight es r.
Proof.
  induction 1 as [|[k w] es Hw Hes IH]; simpl; [done|]. simpl in Hw. destruct (cmp_eqb r k); lia.
Qed.

Lemma positive_In es r w : positive es -> (r, w) ∈ es -> 0 < weight es r.
Proof.
  intros Hp Hin. induction Hp as [|[k x] es Hx Hes IH]; [by inversion Hin|]. simpl in *.
  pose proof (positive_weight es r Hes). apply elem_of_cons in Hin as [[= -> ->]|Hin].
  - rewrite cmp_eqb_refl. lia.
  - specialize (IH Hin). destruct (cmp_eqb r k); lia.
Qed.

Lemma positive_zeq_nil es : positive es -> es ≡z [] -> es = [].
Proof.
  intros Hp Hz. destruct es as [|[k w] es]; [done|]. exfalso.
  pose proof (positive_In _ k w Hp (list_elem_of_here _ _)) as Hlt. rewrite Hz in Hlt. simpl in Hlt. lia.
Qed.

(** A canonical relation whose weights are not negative. *)
Lemma canonical_positive es : zcanonical es -> zpos es -> positive es.
Proof.
  intros Hc Hp. apply Forall_forall. intros [r w] Hin. simpl.
  assert (bt_get r es = Some w) as Hg by (apply bt_In_get; [apply Hc|done]).
  destruct (proj1 (zcanonical_bt_get _ _ _ Hc) Hg) as [Hw Hnz]. specialize (Hp r). lia.
Qed.
End positive.

(** ** Checked sums *)

Lemma add_checked_spec what m e m' :
  bt_sorted m -> add_checked what m e = Ok m' -> bt_sorted m' /\ m' ≡z m ++ [e].
Proof.
  intros Hm. unfold add_checked. destruct e as [r w]. simpl.
  destruct (checked_add _ w) as [x|] eqn:Ec; [|done]. intros [= <-].
  apply checked_add_Some in Ec as [-> _].
  assert (bt_sorted (bt_insert r (default 0 (bt_get r m) + w) m)) as Hs by by apply bt_insert_sorted.
  split; [done|]. intros k. rewrite weight_app, (weight_bt_get _ _ Hs), (weight_bt_get _ _ Hm), bt_get_insert.
  simpl. case_cmp_eqb k r; subst; simpl; lia.
Qed.

Lemma add_checked_fold what m es m' :
  bt_sorted m -> try_fold (add_checked what) m es = Ok m' -> bt_sorted m' /\ m' ≡z m ++ es.
Proof.
  revert m. induction es as [|e es IH]; intros m Hm; cbn [try_fold].
  { intros [= <-]. by rewrite app_nil_r. }
  destruct (add_checked what m e) as [m1|] eqn:E1; [|done].
  apply add_checked_spec in E1 as [Hm1 Hz]; [|done]. intros [Hs Hz']%IH; [|done].
  split; [done|]. rewrite Hz', Hz, <- app_assoc. done.
Qed.

Lemma filter_nonzero_canonical m :
  bt_sorted m -> zcanonical (List.filter (fun e : Row * Z => negb (e.2 =? 0)) m) /\
  List.filter (fun e : Row * Z => negb (e.2 =? 0)) m ≡z m.
Proof.
  intros Hm. assert (List.filter (fun e : Row * Z => negb (e.2 =? 0)) m
    = base.filter (fun e : Row * Z => e.2 <> 0) m) as ->.
  { clear. induction m as [|[k w] m IH]; [done|]. simpl. rewrite filter_cons.
    destruct (Z.eqb_spec w 0); simpl; destruct (decide (w <> 0)); try lia; by rewrite ?IH. }
  split; [split|].
  - by apply bt_sorted_filter.
  - apply Forall_forall. intros e He. by apply list_elem_of_filter in He as [? _].
  - clear Hm. induction m as [|[k w] m IH]; [done|]. intros r. rewrite filter_cons.
    case_decide; simpl in *; rewrite IH; destruct (cmp_eqb r k); lia.
Qed.

Lemma oracle_consolidate_spec es es' :
  oracle_consolidate es = Ok es' -> zcanonical es' /\ es' ≡z es.
Proof.
  unfold oracle_consolidate. destruct (try_fold _ _ es) as [m|] eqn:E; [|done]. intros [= <-].
  apply add_checked_fold in E as [Hs Hz]; [|apply bt_sorted_nil].
  destruct (filter_nonzero_canonical m Hs) as [Hc Hz']. split; [done|]. by rewrite Hz', Hz.
Qed.

(** ** The log *)

Lemma check_non_negative_fold table epoch out m out' :
  try_fold (check_non_negative table epoch) out m = Ok out' ->
  out' = out ++ List.filter (fun e => negb (e.2 =? 0)) m /\ Forall (fun e => 0 <= e.2) m.
Proof.
  revert out. induction m as [|[k w] m IH]; intros out; cbn [try_fold].
  { intros [= <-]. simpl. by rewrite app_nil_r. }
  unfold check_non_negative at 1. simpl. destruct (Z.ltb_spec w 0); [done|].
  destruct (negb (w =? 0)); intros [-> Hf]%IH; split; try (by constructor).
  by rewrite <- app_assoc.
Qed.

(** The contents of a table: the canonical integral of its deltas, all weights
    positive. *)
Lemma contents_at_spec o table epoch es :
  contents_at o table epoch = Ok es ->
  zcanonical es /\ positive es /\
  es ≡z flat_map (fun d => entries_for d table) (take epoch (o_log o)).
Proof.
  unfold contents_at. destruct (bt_get table (o_catalog o)); [|done].
  destruct (sealed_epoch o <? epoch)%nat; [done|].
  destruct (try_fold _ bt_empty _) as [m|] eqn:E; [|done].
  apply add_checked_fold in E as [Hs Hz]; [|apply bt_sorted_nil].
  intros [-> Hf]%check_non_negative_fold. simpl.
  destruct (filter_nonzero_canonical m Hs) as [Hc Hz']. split_and!; [done| |by rewrite Hz', Hz].
  apply canonical_positive; [done|]. intros r. rewrite Hz', weight_bt_get by done.
  destruct (bt_get r m) as [w|] eqn:Eg; [|done]. apply bt_get_In in Eg.
  rewrite Forall_forall in Hf. apply (Hf _ Eg).
Qed.

(** ** Live errors *)

(** Each message is kept with an error that has it. *)
Definition live_wf (l : LiveErrors) : Prop :=
  bt_sorted (by_message l) /\
  forall m e, bt_get m (by_message l) = Some e -> evaluation_message e = Some m.

(** [l'] holds the messages of [l] and those of the entries [errs]. *)
Definition live_adds (l : LiveErrors) (errs : Entries) (l' : LiveErrors) : Prop :=
  forall m, bt_contains m (by_message l') = true <->
    bt_contains m (by_message l) = true \/ exists w, (error_row m, w) ∈ errs.

Lemma live_adds_nil l : live_adds l [] l.
Proof. intros m. split; [by left|]. intros [|[w Hw]]; [done|by inversion Hw]. Qed.

Lemma live_adds_trans l1 e1 l2 e2 l3 :
  live_adds l1 e1 l2 -> live_adds l2 e2 l3 -> live_adds l1 (e1 ++ e2) l3.
Proof.
  intros H1 H2 m. specialize (H1 m). specialize (H2 m). rewrite H2, H1. setoid_rewrite elem_of_app. split.
  - intros [[|[w]]|[w]]; eauto.
  - intros [|[w [|]]]; eauto.
Qed.

Lemma record_spec l e l' m w :
  record l e = Ok l' -> evaluation_message e = Some m -> live_wf l ->
  live_wf l' /\ live_adds l [(error_row m, w)] l'.
Proof.
  unfold record. intros Hr Hm. rewrite Hm in Hr. injection Hr as <-. intros [Hs Hl]. split.
  - split; [by apply bt_insert_sorted|]. simpl. intros m' e'. rewrite bt_get_insert.
    case_cmp_eqb m' m; [|apply Hl]. subst. by intros [= ->].
  - intros m'. unfold bt_contains. simpl. rewrite bt_get_insert. setoid_rewrite list_elem_of_singleton.
    case_cmp_eqb m' m.
    + subst. split; [|done]. intros _. right. by exists w.
    + split; [by left|]. intros [|[w' [= -> _]]]; done.
Qed.

Lemma record_message l e l' : record l e = Ok l' -> exists m, evaluation_message e = Some m.
Proof. unfold record. destruct (evaluation_message e); [eauto|done]. Qed.

(** ** The linear stages *)

Lemma where_fold p s kept live es kept' live' :
  try_fold (where_body p s) (kept, live) es = Ok (kept', live') -> live_wf live ->
  live_wf live' /\ kept' = kept ++ zbind (filter_row p s) es /\
  live_adds live (zbind (filter_error p s) es) live'.
Proof.
  revert kept live. induction es as [|[row w] es IH]; intros kept live; cbn [try_fold].
  { intros [= <- <-] Hl. split_and!; [done|simpl; by rewrite app_nil_r|apply live_adds_nil]. }
  rewrite !zbind_cons. unfold where_body at 1. cbn [fst].
  unfold filter_row at 1, filter_error at 1, error_of. destruct (is_true p row s) as [[|]|x] eqn:Et.
  - intros H Hw. apply IH in H as (Hl & -> & Ha); [|done]. by rewrite zscale_single, <- app_assoc.
  - intros H Hw. apply IH in H as (Hl & -> & Ha); done.
  - destruct (record live x) as [l1|] eqn:Er; [|done]. intros H Hw.
    destruct (record_message _ _ _ Er) as [m Hm]. rewrite Hm.
    destruct (record_spec _ _ _ _ w Er Hm Hw) as [Hw1 Ha1].
    apply IH in H as (Hl & -> & Ha); [|done]. split_and!; [done|done|].
    rewrite zscale_single. by eapply live_adds_trans.
Qed.

Lemma where_spec p r live r' live' :
  where_ (Some p) r live = Ok (r', live') -> live_wf live ->
  live_wf live' /\ rel_schema r' = rel_schema r /\
  rel_entries r' = zbind (filter_row p (rel_schema r)) (rel_entries r) /\
  live_adds live (zbind (filter_error p (rel_schema r)) (rel_entries r)) live'.
Proof.
  unfold where_. destruct (try_fold _ _ _) as [[kept l]|] eqn:E; [|done]. intros [= <- <-] Hw.
  apply where_fold in E as (? & ? & ?); done.
Qed.

Lemma group_values_spec ks row s key live res live' :
  group_values ks row s key live = Ok (res, live') -> live_wf live ->
  live_wf live' /\
  res = match project_vals ks row s with Ok vs => Some (key ++ vs) | Err _ => None end /\
  forall w, live_adds live (zscale w (error_of (project_vals ks row s))) live'.
Proof.
  revert key. induction ks as [|k ks IH]; intros key; cbn [group_values].
  { intros [= <- <-] Hw. simpl. rewrite app_nil_r. split_and!; try done. intros w. apply live_adds_nil. }
  unfold project_vals in *. cbn [try_map]. destruct (eval (value k) row s) as [v|x].
  - intros H Hw. apply IH in H as (Hw' & -> & Ha); [|done]. split_and!; [done| |].
    + destruct (try_map _ ks); [|done]. by rewrite <- app_assoc.
    + intros w. specialize (Ha w). by destruct (try_map _ ks).
  - destruct (record live x) as [l1|] eqn:Er; [|done]. intros [= <- <-] Hw.
    destruct (record_message _ _ _ Er) as [m Hm]. simpl. rewrite Hm.
    split_and!; [apply (record_spec _ _ _ _ 0 Er Hm Hw)|done|]. intros w.
    rewrite zscale_single. apply (record_spec _ _ _ _ w Er Hm Hw).
Qed.

Lemma select_fold its s out live es out' live' :
  try_fold (select_body its s) (out, live) es = Ok (out', live') -> live_wf live ->
  live_wf live' /\ out' = out ++ zbind (project_row its s) es /\
  live_adds live (zbind (project_error its s) es) live'.
Proof.
  revert out live. induction es as [|[row w] es IH]; intros out live; cbn [try_fold].
  { intros [= <- <-] Hl. split_and!; [done|simpl; by rewrite app_nil_r|apply live_adds_nil]. }
  rewrite !zbind_cons. unfold select_body at 1. cbn [fst snd].
  destruct (group_values its row s [] live) as [[res l1]|] eqn:Eg; [|done]. intros H Hw.
  apply group_values_spec in Eg as (Hw1 & -> & Ha1); [|done].
  unfold project_row at 1, project_error at 1.
  assert (exists out1, try_fold (select_body its s) (out1, l1) es = Ok (out', live') /\
    out1 = out ++ zscale w match project_vals its row s with Ok vs => [(vs, 1)] | Err _ => [] end) as (out1 & H1 & ->).
  { destruct (project_vals its row s); eexists; (split; [exact H|]).
    - by rewrite zscale_single.
    - by rewrite app_nil_r. }
  apply IH in H1 as (Hl & -> & Ha); [|done]. split_and!; [done|by rewrite <- app_assoc|].
  eapply live_adds_trans; [apply Ha1|done].
Qed.

(** ** Joins *)

Lemma key_of_cons row p ps v :
  row !! p = Some v ->
  key_of row (p :: ps) = if is_null v then None else (v ::.) <$> key_of row ps.
Proof. intros Hv. cbn [key_of]. unfold row_get. rewrite Hv. by destruct v, (key_of row ps). Qed.

Lemma keys_match_spec l r ixs b :
  keys_match l r ixs = Ok b -> b = keys_equal (map fst ixs) (map snd ixs) l r.
Proof.
  unfold keys_equal. revert b. induction ixs as [|[li ri] ixs IH]; intros b; cbn [keys_match map fst snd].
  { by intros [= <-]. }
  unfold row_get. destruct (l !! li) as [lv|] eqn:Elv; [|done].
  destruct (r !! ri) as [rv|] eqn:Erv; [|done]. cbn [ok_or].
  rewrite (key_of_cons _ _ _ _ Elv), (key_of_cons _ _ _ _ Erv).
  destruct (is_null lv); simpl; [by intros [= <-]|]. destruct (is_null rv); simpl.
  { intros [= <-]. by destruct (key_of l (map fst ixs)). }
  destruct (key_of l (map fst ixs)) as [kl|], (key_of r (map snd ixs)) as [kr|]; simpl;
    rewrite ?cmp_eqb_cons; destruct (cmp_eqb lv rv); simpl; try (by intros [= <-]); intros H; by apply IH.
Qed.

Lemma join_pairs_spec ixs out ps out' :
  try_fold (join_pair ixs) out ps = Ok out' ->
  out' = out ++ flat_map (fun p => if keys_equal (map fst ixs) (map snd ixs) p.1.1 p.2.1
                                   then [(p.1.1 ++ p.2.1, p.1.2 * p.2.2)] else []) ps.
Proof.
  revert out. induction ps as [|[[l lw] [r rw]] ps IH]; intros out; cbn [try_fold].
  { intros [= <-]. simpl. by rewrite app_nil_r. }
  unfold join_pair at 1. destruct (keys_match l r ixs) as [b|] eqn:Ek; [|done].
  apply keys_match_spec in Ek as ->. cbn [flat_map fst snd].
  destruct (keys_equal _ _ l r); simpl.
  - destruct (checked_mul lw rw) as [w|] eqn:Ew; [|done]. apply checked_mul_Some in Ew as [-> _].
    intros ->%IH. by rewrite <- app_assoc.
  - by intros ->%IH.
Qed.

Lemma join_fold_spec ixs L R out :
  try_fold (join_pair ixs) [] (flat_map (fun a => map (fun b => (a, b)) R) L) = Ok out ->
  out = zjoin (map fst ixs) (map snd ixs) L R.
Proof.
  intros ->%join_pairs_spec. simpl. unfold zjoin.
  induction L as [|[l lw] L IH]; [done|]. cbn [flat_map]. rewrite flat_map_app, zbind_cons, IH. f_equal.
  clear IH. induction R as [|[r rw] R IH]; [done|]. cbn [map flat_map fst snd].
  rewrite IH, zbind_cons. unfold join_row at 2. unfold zscale. rewrite map_app. f_equal.
  destruct (keys_equal _ _ l r); simpl; [|done]. do 3 f_equal. lia.
Qed.

Lemma zbind_positive (f : Row -> Entries) es :
  (forall r, positive (f r)) -> positive es -> positive (zbind f es).
Proof.
  intros Hf Hp. unfold zbind. induction Hp as [|[k w] es Hw Hes IH]; [constructor|]. cbn [flat_map].
  apply Forall_app. split; [|done]. unfold zscale. apply Forall_map. eapply Forall_impl; [apply Hf|].
  intros [r x] Hx. simpl in *. lia.
Qed.

Lemma zjoin_positive lk rk L R : positive L -> positive R -> positive (zjoin lk rk L R).
Proof.
  intros HL HR. apply zbind_positive; [|done]. intros l. apply zbind_positive; [|done]. intros r.
  unfold join_row. destruct (keys_equal lk rk l r); repeat constructor.
Qed.

Lemma filter_row_positive p s r : positive (filter_row p s r).
Proof. unfold filter_row. destruct (is_true p r s) as [[]|]; repeat constructor. Qed.

Lemma project_row_positive its s r : positive (project_row its s r).
Proof. unfold project_row. destruct (project_vals its r s); repeat constructor. Qed.

Lemma error_of_positive {A} (r : result PlanError A) : positive (error_of r).
Proof. destruct r as [|x]; simpl; [constructor|]. destruct (evaluation_message x); repeat constructor. Qed.

(** * Aggregates: folding a maintained multiset gives the oracle's value

    The oracle evaluates an aggregate over a group's rows; the engine folds the
    multiset of argument values its state holds, in key order.  Here the two are
    shown to agree on every group of a relation with positive weights. *)

(** ** The multiset of one slot *)

(** The value a row adds to a slot's multiset. *)
Definition arg_value (arg : Expr) (s : Schema) (row : Row) : list (Value * Z) :=
  match eval arg row s with
  | Ok VNull | Err _ => []
  | Ok v => [(v, 1)]
  end.

Definition arg_values (arg : Expr) (s : Schema) (M : Entries) : list (Value * Z) := zbind (arg_value arg s) M.

Section multiset.
Context (s : Schema) (ks : list (Named Expr)) (aggs : list (Named AggFunc)).

(** The rows of group [g]. *)
Definition in_group (g : list Value) (row : Row) : bool :=
  match group_of s ks row with Ok g' => cmp_eqb g' g | Err _ => false end.

Definition members (g : list Value) (R : Entries) : Entries := List.filter (fun e => in_group g e.1) R.

Lemma wsum_members f g R : wsum f (members g R) = wsum (fun row => if in_group g row then f row else 0) R.
Proof.
  unfold members. induction R as [|[row w] R IH]; [done|]. simpl.
  destruct (in_group g row); simpl; rewrite IH; lia.
Qed.

Lemma key_of_value_inj p q :
  length p.1.2 = length q.1.2 -> key_of_value p = key_of_value q -> p = q.
Proof.
  destruct p as [[i g] v], q as [[j h] w]. unfold key_of_value, value_key, values_prefix. simpl.
  intros Hl [= Hij Hgv]. apply Nat2Z.inj in Hij as ->. apply app_inj_1 in Hgv as [-> [= ->]]; done.
Qed.

(** What one row adds under a slot's key. *)
Lemma slot_values_weight row g i l j v :
  weight (zbind (fun p => [(key_of_value p, 1)]) (slot_values s row g i l)) (value_key j g v) =
  if (j <? i)%nat then 0
  else match l !! (j - i)%nat with
       | Some agg => match argument (value agg) with Some arg => weight (arg_value arg s row) v | None => 0 end
       | None => 0
       end.
Proof.
  revert i. induction l as [|agg l IH]; intros i; cbn [slot_values]; [by destruct (j <? i)%nat|].
  rewrite zbind_app, weight_app, IH.
  assert (forall v', weight (zbind (fun p => [(key_of_value p, 1)]) [((i, g, v'), 1)]) (value_key j g v)
    = if (j =? i)%nat then weight [(v', 1)] v else 0) as Hone.
  { intros v'. rewrite zbind_single. simpl. unfold key_of_value at 1. simpl.
    case_cmp_eqb (value_key j g v) (value_key i g v').
    - apply (key_of_value_inj (j, g, v) (i, g, v')) in E; [|done]. injection E as -> ->.
      by rewrite Nat.eqb_refl, cmp_eqb_refl.
    - destruct (Nat.eqb_spec j i) as [->|]; [|done]. case_cmp_eqb v v'; [by subst|done]. }
  assert (weight (zbind (fun p => [(key_of_value p, 1)])
      match argument (value agg) with
      | None => []
      | Some arg => match eval arg row s with Ok VNull | Err _ => [] | Ok v => [((i, g, v), 1)] end
      end) (value_key j g v)
    = if (j =? i)%nat then match argument (value agg) with
                           | Some arg => weight (arg_value arg s row) v | None => 0 end else 0) as ->.
  { unfold arg_value. destruct (argument (value agg)) as [arg|]; [|by destruct (j =? i)%nat].
    destruct (eval arg row s) as [[]|]; rewrite ?Hone; try done; by destruct (j =? i)%nat. }
  destruct (Nat.ltb_spec j i), (Nat.ltb_spec j (S i)), (Nat.eqb_spec j i); try lia.
  - subst. rewrite Nat.sub_diag. simpl. lia.
  - replace (j - i)%nat with (S (j - S i)) by lia. simpl. lia.
Qed.

Lemma row_state_value row slot g v agg arg :
  length g = length ks -> aggs !! slot = Some agg -> argument (value agg) = Some arg ->
  weight (row_state s ks aggs row) (value_key slot g v) =
  if in_group g row then weight (arg_value arg s row) v else 0.
Proof.
  intros Hl Ha Harg. unfold in_group. destruct (group_of s ks row) as [g'|] eqn:Eg.
  - case_cmp_eqb g' g.
    + subst g'. unfold row_state, row_totals, row_values. rewrite Eg, weight_app, slot_values_weight.
      simpl. rewrite Nat.sub_0_r, Ha, Harg. simpl. lia.
    + destruct (decide (weight (row_state s ks aggs row) (value_key slot g v) = 0)) as [|Hw]; [done|].
      apply (row_state_relevant s ks aggs row g) in Hw; [congruence|done|]. right. exists slot.
      apply starts_with_app. unfold value_key. eauto.
  - unfold row_state, row_totals, row_values. by rewrite Eg.
Qed.

Definition under_prefix (pre : Key) (es : list (Value * Z)) : list (Key * Z) :=
  map (fun e => (pre ++ [e.1], e.2)) es.

Lemma cmp_snoc (pre : Key) (a b : Value) : cmp (pre ++ [a]) (pre ++ [b]) = cmp a b.
Proof.
  change (list_cmp (pre ++ [a]) (pre ++ [b]) = cmp a b). rewrite list_cmp_app_same. simpl.
  by destruct (cmp a b).
Qed.

Lemma under_prefix_canonical pre es : zcanonical es -> zcanonical (under_prefix pre es).
Proof.
  intros [Hs Hnz]. split.
  - unfold bt_sorted, under_prefix in *. induction Hs as [|e es Hs IH Hf]; [constructor|].
    simpl. constructor; [by apply IH; inversion Hnz|]. apply Forall_map. eapply Forall_impl; [exact Hf|].
    intros e' He. unfold key_lt in *. simpl. by rewrite cmp_snoc.
  - by apply Forall_map.
Qed.

Lemma under_prefix_weight pre es v : weight (under_prefix pre es) (pre ++ [v]) = weight es v.
Proof.
  unfold under_prefix. induction es as [|[x w] es IH]; [done|]. simpl. rewrite IH.
  unfold cmp_eqb. by rewrite cmp_snoc.
Qed.

Lemma under_prefix_none pre es k : (forall v, k <> pre ++ [v]) -> weight (under_prefix pre es) k = 0.
Proof.
  intros Hk. apply weight_not_in. intros (e & -> & He)%list_elem_of_fmap.
  apply list_elem_of_fmap in He as ([x w] & -> & _). by apply (Hk x).
Qed.

(** The state under a slot's prefix is the multiset of the slot's arguments. *)
Lemma slot_multiset R p slot g agg arg :
  length g = length ks -> aggs !! slot = Some agg -> argument (value agg) = Some arg ->
  under (values_prefix slot g) (zcanon (state_of s ks aggs R p)) =
  under_prefix (values_prefix slot g) (zcanon (arg_values arg s (members g R))).
Proof.
  intros Hl Ha Harg. destruct (zcanon_spec (state_of s ks aggs R p)) as [Hc Hz].
  destruct (zcanon_spec (arg_values arg s (members g R))) as [Hc' Hz'].
  apply zcanonical_unique; [by apply (zcanonical_filter (fun k => starts_with k _))|
    by apply under_prefix_canonical|]. intros k.
  unfold under. rewrite (weight_filter (fun k => starts_with k (values_prefix slot g))), Hz.
  destruct (starts_with k (values_prefix slot g)) eqn:Es.
  - assert (relevant g k) as Hrel by (right; eauto).
    rewrite (state_of_relevant _ _ _ _ _ _ _ Hrel), weight_bind.
    destruct (decide (length k = S (length (values_prefix slot g)))) as [Hk|Hk].
    + apply starts_with_app in Es as [k' ->]. rewrite length_app in Hk.
      destruct k' as [|v [|]]; simpl in Hk; try lia.
      rewrite under_prefix_weight, Hz'. unfold arg_values. rewrite weight_bind, wsum_members.
      apply wsum_ext. intros row w _. by apply (row_state_value row slot g v agg arg).
    + rewrite under_prefix_none by (intros v ->; apply Hk; rewrite length_app; simpl; lia).
      rewrite (wsum_ext _ (fun _ => 0)), wsum_0; [done|]. intros row w _.
      destruct (decide (weight (row_state s ks aggs row) k = 0)) as [|Hw]; [done|]. exfalso.
      pose proof (row_state_relevant s ks aggs row g k Hl Hrel Hw) as Hg.
      apply weight_nonzero_in, list_elem_of_fmap in Hw as ([k' x] & -> & Hin).
      apply row_state_In in Hin as (g' & Hg' & Hkk). rewrite Hg in Hg'. injection Hg' as <-. simpl in *.
      destruct Hkk as [->|(slot' & v & ->)]; [done|]. apply Hk. unfold value_key. rewrite length_app. simpl.
      unfold values_prefix. simpl. lia.
  - symmetry. apply under_prefix_none. intros v ->.
    rewrite (proj2 (starts_with_app _ _)) in Es; [done|eauto].
Qed.
End multiset.

(** ** Folding a multiset *)

(** The weight of a whole relation. *)
Definition total {K} (U : list (K * Z)) : Z := wsum (fun _ => 1) U.

Section folds.
Context (pre : Key).
Implicit Type (U : list (Value * Z)) (st : FoldState).

Definition int_of (v : Value) : Z := match v with VInt x => x | _ => 0 end.
Definition is_int (v : Value) : Prop := match v with VInt x => in_i64 x = true | _ => False end.
Definition nonempty {A} (l : list A) : bool := match l with [] => false | _ => true end.

Lemma total_nonneg U : positive U -> 0 <= total U.
Proof. unfold total. induction 1 as [|[v w] U Hw HU IH]; simpl in *; lia. Qed.

Lemma lookup_last (v : Value) : (pre ++ [v]) !! length pre = Some v.
Proof. by rewrite lookup_app_r, Nat.sub_diag by done. Qed.

Lemma visit_count arg U st :
  positive U -> failure st = None -> 0 <= count st -> count st + total U <= i64_max ->
  visit (fold_visitor (Count arg) (length pre)) st (under_prefix pre U) =
  mkFold None (any st || nonempty U) (count st + total U) (sum st) (extremum st).
Proof.
  unfold under_prefix, total. revert st.
  induction U as [|[v w] U IH]; intros st Hp Hf H0 Ht; cbn [map visit wsum] in *.
  { rewrite orb_false_r, Z.add_0_r. destruct st. simpl in *. by subst. }
  apply Forall_cons in Hp as [Hw HU]. pose proof (total_nonneg U HU) as HtU. unfold total in HtU.
  unfold fold_visitor at 1. cbn [fst snd] in *. rewrite lookup_last. cbn [failure count sum extremum any].
  unfold checked_add, checked. rewrite (proj2 (in_i64_spec _)) by (unfold i64_min in *; lia).
  rewrite IH; cbn [failure count sum extremum any]; try done; try lia. f_equal; [|lia].
  by rewrite orb_true_r.
Qed.

Definition sums (func : AggFunc) : bool := match func with Sum _ | Avg _ => true | _ => false end.

Lemma sum_term_bound w x c sm :
  0 < w -> in_i64 x = true -> 0 <= c -> c + w <= i64_max -> Z.abs sm <= c * 2 ^ 63 ->
  in_i128 (w * x) = true /\ in_i128 (sm + w * x) = true /\ Z.abs (sm + w * x) <= (c + w) * 2 ^ 63.
Proof.
  intros Hw Hx%in_i64_spec Hc Hcw Hs. unfold i64_min, i64_max, in_i128, i128_min, i128_max in *.
  assert (Z.abs (w * x) <= w * 2 ^ 63) as Hwx by (rewrite Z.abs_mul, (Z.abs_eq w) by lia; nia).
  rewrite !andb_true_iff, !Z.leb_le. lia.
Qed.

Lemma visit_sum func U st :
  sums func = true -> positive U -> Forall (fun e => is_int e.1) U -> failure st = None ->
  0 <= count st -> count st + total U <= i64_max -> Z.abs (sum st) <= count st * 2 ^ 63 ->
  visit (fold_visitor func (length pre)) st (under_prefix pre U) =
  mkFold None (any st || nonempty U) (count st + total U) (sum st + wsum int_of U) (extremum st).
Proof.
  intros Hfn. unfold under_prefix, total. revert st.
  induction U as [|[v w] U IH]; intros st Hp Hi Hf H0 Ht Hs; cbn [map visit wsum] in *.
  { rewrite orb_false_r, !Z.add_0_r. destruct st. simpl in *. by subst. }
  apply Forall_cons in Hp as [Hw HU]. apply Forall_cons in Hi as [Hv HUi].
  pose proof (total_nonneg U HU) as HtU. unfold total in HtU. cbn [fst snd] in *.
  destruct v as [|x| | |]; try done. simpl in Hv.
  destruct (sum_term_bound w x (count st) (sum st)) as (B1 & B2 & B3); [done|done|done|lia|done|].
  assert (fold_visitor func (length pre) st (pre ++ [VInt x]) w =
    (mkFold (failure st) true (count st + w) (sum st + w * x) (extremum st), true)) as ->.
  { unfold fold_visitor. rewrite lookup_last. unfold checked_i128, checked_add, checked.
    cbn [failure count sum extremum any]. rewrite B1, B2, (proj2 (in_i64_spec _)) by (unfold i64_min in *; lia).
    by destruct func. }
  rewrite IH; cbn [failure count sum extremum any]; try done; try lia. simpl. rewrite orb_true_r. f_equal; lia.
Qed.

Lemma visit_min arg U st :
  failure st = None -> extremum st = None ->
  fold_result (Min arg) 0 (visit (fold_visitor (Min arg) (length pre)) st (under_prefix pre U)) =
  Ok (match U with [] => VNull | (v, _) :: _ => v end).
Proof.
  intros Hf He. destruct U as [|[v w] U]; cbn [under_prefix map visit].
  - unfold fold_result. by rewrite Hf, He.
  - unfold fold_visitor. cbn [fst snd]. rewrite lookup_last. unfold fold_result. simpl. by rewrite Hf.
Qed.

Lemma visit_max arg U st :
  failure st = None ->
  fold_result (Max arg) 0 (visit (fold_visitor (Max arg) (length pre)) st (under_prefix pre U)) =
  Ok (match last U with Some (v, _) => v | None => default VNull (extremum st) end).
Proof.
  unfold under_prefix. revert st. induction U as [|[v w] U IH]; intros st Hf; cbn [map visit].
  - unfold fold_result. by rewrite Hf.
  - unfold fold_visitor at 1. cbn [fst snd]. rewrite lookup_last, IH by done. cbn [extremum].
    destruct U as [|e U]; [done|]. rewrite last_cons_cons.
    destruct (last (e :: U)) eqn:El; [done|]. by apply last_None in El.
Qed.
End folds.

(** ** The oracle's loops *)

Lemma count_members_spec f name c M t :
  count_members f name c M = Ok t ->
  Forall (fun e => exists b, f e.1 = Ok b) M /\
  t = c + wsum (fun row => match f row with Ok true => 1 | _ => 0 end) M /\
  (in_i64 c = true -> in_i64 t = true).
Proof.
  revert c. induction M as [|[row w] M IH]; intros c; cbn [count_members wsum].
  { intros [= <-]. split_and!; [constructor|lia|done]. }
  destruct (f row) as [[|]|] eqn:Ef; [| |done].
  - destruct (checked_add c w) as [c'|] eqn:Ec; [|done]. apply checked_add_Some in Ec as [-> Hc].
    intros (Hall & -> & Hr)%IH. split_and!; [constructor; [simpl; eauto|done]|lia|auto].
  - intros (Hall & -> & Hr)%IH. split_and!; [constructor; [simpl; eauto|done]|lia|done].
Qed.

Section oracle_loops.
Context (arg : Expr) (s : Schema).

(** Every member's argument evaluates. *)
Definition args_ok (M : Entries) : Prop := Forall (fun e => exists v, eval arg e.1 s = Ok v) M.

Lemma arg_values_positive M : positive M -> positive (arg_values arg s M).
Proof.
  intros Hp. unfold arg_values, zbind. induction Hp as [|[row w] M Hw HM IH]; [constructor|].
  cbn [flat_map fst snd]. apply Forall_app. split; [|done]. unfold arg_value.
  destruct (eval arg row s) as [[]|]; simpl; repeat constructor; simpl in *; lia.
Qed.

Lemma arg_values_cons row w M v :
  eval arg row s = Ok v -> arg_values arg s ((row, w) :: M) =
  (if is_null v then [] else [(v, w)]) ++ arg_values arg s M.
Proof.
  intros Hv. unfold arg_values. rewrite zbind_cons. unfold arg_value at 1. rewrite Hv.
  destruct v; simpl; rewrite ?Z.mul_1_r; done.
Qed.

Lemma sum_fold_spec func acc M acc' :
  try_fold (sum_body arg s func) acc M = Ok acc' ->
  args_ok M /\ Forall (fun e => exists x, e.1 = VInt x) (arg_values arg s M) /\
  acc'.1.1 = acc.1.1 + wsum int_of (arg_values arg s M) /\
  acc'.1.2 = acc.1.2 + total (arg_values arg s M) /\
  acc'.2 = acc.2 || nonempty (arg_values arg s M) /\
  (in_i64 acc.1.2 = true -> in_i64 acc'.1.2 = true).
Proof.
  revert acc. induction M as [|[row w] M IH]; intros acc; cbn [try_fold].
  { intros [= <-]. split_and!; try constructor; unfold arg_values, total; simpl; try lia; try done.
    by rewrite orb_false_r. }
  destruct acc as [[sm c] an]. unfold sum_body at 1. cbn [fst snd].
  destruct (eval arg row s) as [v|] eqn:Ev; [|done]. cbn [map_err].
  rewrite (arg_values_cons _ _ _ _ Ev). destruct v as [|x| | |]; try done.
  - intros (Ha & Hi & H1 & H2 & H3 & H4)%IH. split_and!; try done. constructor; [simpl; eauto|done].
  - destruct (checked_i128 (w * x)) as [term|] eqn:E1; cbn [ok_or]; [|done].
    destruct (checked_i128 (sm + term)) as [sm'|] eqn:E2; cbn [ok_or]; [|done].
    destruct (checked_add c w) as [c'|] eqn:E3; cbn [ok_or]; [|done].
    apply checked_add_Some in E3 as [-> Hc]. unfold checked_i128 in *.
    destruct (in_i128 (w * x)); [|done]. injection E1 as <-.
    destruct (in_i128 (sm + w * x)); [|done]. injection E2 as <-.
    intros (Ha & Hi & H1 & H2 & H3 & H4)%IH. simpl in *. unfold total in *. simpl.
    split_and!; [constructor; [simpl; eauto|done]|constructor; [simpl; eauto|done]|lia|lia| |auto].
    by rewrite H3, orb_true_r.
Qed.

(** [better]'s choice, one value after the other. *)
Definition pick (better : Value -> Value -> bool) (best : option Value) (v : Value) : option Value :=
  Some (match best with None => v | Some c => if better v c then v else c end).

Lemma extremum_fold_spec better best M best' :
  positive M -> try_fold (extremum_body arg s better) best M = Ok best' ->
  args_ok M /\ best' = fold_left (pick better) (map fst (arg_values arg s M)) best.
Proof.
  intros Hp. revert best. induction Hp as [|[row w] M Hw HM IH]; intros best; cbn [try_fold].
  { intros [= <-]. split; [constructor|done]. }
  unfold extremum_body at 1. simpl in Hw. cbn [fst snd]. destruct (Z.ltb_spec w 1); [lia|].
  destruct (eval arg row s) as [v|] eqn:Ev; [|done]. cbn [map_err].
  rewrite (arg_values_cons _ _ _ _ Ev). destruct (is_null v).
  - intros [Ha ->]%IH. split; [constructor; [simpl; eauto|done]|done].
  - intros [Ha ->]%IH. split; [constructor; [simpl; eauto|done]|done].
Qed.
End oracle_loops.

(** ** Extrema *)

(** [m] is an extreme element of [l]; [dir] is [Lt] for the least. *)
Definition extreme (dir : comparison) (m : Value) (l : list Value) : Prop :=
  m ∈ l /\ forall v, v ∈ l -> cmp m v <> CompOpp dir.

Definition better_than (dir : comparison) (a b : Value) : bool :=
  match dir, cmp a b with Lt, Lt | Gt, Gt => true | _, _ => false end.

Lemma not_beyond_trans dir (a b c : Value) :
  dir <> Eq -> cmp a b <> CompOpp dir -> cmp b c <> CompOpp dir -> cmp a c <> CompOpp dir.
Proof.
  destruct dir; [done|intros _; apply cmp_le_trans|]. simpl. intros _ H1 H2 H3.
  apply cmp_Gt_Lt in H3. apply (cmp_le_trans c b a); [| |done].
  - intros H4%cmp_Gt_Lt. done.
  - intros H4%cmp_Gt_Lt. done.
Qed.

Lemma extreme_unique dir m m' l l' :
  dir <> Eq -> (forall v, v ∈ l <-> v ∈ l') -> extreme dir m l -> extreme dir m' l' -> m = m'.
Proof.
  intros Hd Hl [Hm H1] [Hm' H2]. specialize (H1 m' (proj2 (Hl m') Hm')).
  specialize (H2 m (proj1 (Hl m) Hm)). apply cmp_Eq_iff. destruct (cmp m m') eqn:E; [done| |].
  - destruct dir; try done. apply cmp_Gt_Lt in E. done.
  - destruct dir; try done. apply cmp_Gt_Lt in E. done.
Qed.

Lemma pick_extreme dir best l m :
  dir <> Eq -> fold_left (pick (better_than dir)) l (Some best) = Some m -> extreme dir m (best :: l).
Proof.
  intros Hd. revert best. induction l as [|v l IH]; intros best; simpl.
  { intros [= <-]. split; [by left|]. intros v ->%list_elem_of_singleton. rewrite cmp_refl. by destruct dir. }
  intros [Hin Hle]%IH. set (b := if better_than dir v best then v else best) in *.
  assert (cmp b best <> CompOpp dir /\ cmp b v <> CompOpp dir) as [Hb Hv].
  { subst b. unfold better_than. destruct dir; [done|..]; destruct (cmp v best) eqn:E; simpl;
      rewrite ?E, ?cmp_refl; (split; [done|]); try done; intros Hx.
    - apply cmp_Gt_Lt in Hx. congruence.
    - apply cmp_Gt_Lt in Hx. congruence.
    - apply cmp_Gt_Lt in Hx. congruence.
    - apply cmp_Gt_Lt in E. congruence. }
  split.
  - apply elem_of_cons in Hin as [->|Hin]; [|by right; right].
    subst b. destruct (better_than dir v best); [by right; left|by left].
  - intros x Hx. apply elem_of_cons in Hx as [->|Hx]; [|apply elem_of_cons in Hx as [->|Hx]].
    + eapply not_beyond_trans; [done| |exact Hb]. apply Hle. by left.
    + eapply not_beyond_trans; [done| |exact Hv]. apply Hle. by left.
    + apply Hle. by right.
Qed.

(** ** A group's total *)

Section totals.
Context (s : Schema) (ks : list (Named Expr)) (aggs : list (Named AggFunc)).

Lemma row_state_total row g :
  weight (row_state s ks aggs row) (total_key g) = if in_group s ks g row then 1 else 0.
Proof.
  unfold row_state, in_group, row_totals, row_values. rewrite weight_app.
  destruct (group_of s ks row) as [g'|]; [|done].
  assert (forall i l, weight (zbind (fun p => [(key_of_value p, 1)]) (slot_values s row g' i l)) (total_key g) = 0) as ->.
  { intros i l. rewrite weight_bind, (wsum_ext _ (fun _ => 0)), wsum_0; [done|].
    by intros [[j h] v] w _. }
  rewrite zbind_single. simpl. case_cmp_eqb (total_key g) (total_key g').
  - apply total_key_inj in E as ->. by rewrite cmp_eqb_refl.
  - case_cmp_eqb g' g; [by subst|done].
Qed.

Lemma totalV_members R p g :
  totalV (zcanon (state_of s ks aggs R p)) g = total (members s ks g R).
Proof.
  destruct (zcanon_spec (state_of s ks aggs R p)) as [Hc Hz]. unfold totalV, total.
  rewrite <- weight_bt_get by apply Hc. rewrite Hz.
  rewrite (state_of_relevant s ks aggs R p g) by (by left). rewrite weight_bind, wsum_members.
  apply wsum_ext. intros row w _. apply row_state_total.
Qed.
End totals.

(** ** The values agree *)

Section agree.
Context (s : Schema) (ks : list (Named Expr)) (aggs : list (Named AggFunc)).
Context (R : Entries) (p : bool) (slot : nat) (g : list Value) (agg : Named AggFunc).
Context (Hlen : length g = length ks) (Hagg : aggs !! slot = Some agg) (Hpos : positive R).

Abbreviation M := (members s ks g R).
Abbreviation V := (zcanon (state_of s ks aggs R p)).

Lemma members_positive : positive M.
Proof.
  unfold members, positive in *. apply Forall_forall. intros e He.
  apply list_elem_of_In, filter_In in He as [He _]. rewrite Forall_forall in Hpos.
  by apply Hpos, list_elem_of_In.
Qed.

Section argument.
Context (arg : Expr) (Harg : argument (value agg) = Some arg).

Abbreviation U := (zcanon (arg_values arg s M)).

Lemma U_positive : positive U.
Proof.
  destruct (zcanon_spec (arg_values arg s M)) as [Hc Hz]. apply canonical_positive; [done|].
  rewrite Hz. intros v. apply positive_weight, arg_values_positive, members_positive.
Qed.

Lemma U_total : total U = total (arg_values arg s M).
Proof. apply wsum_zeq, zcanon_spec. Qed.

Lemma U_In v : v ∈ map fst U <-> v ∈ map fst (arg_values arg s M).
Proof.
  pose proof (proj2 (zcanon_spec (arg_values arg s M))) as Hz.
  split; intros ([x w] & -> & Hin)%list_elem_of_fmap; simpl.
  - pose proof (positive_In _ _ _ U_positive Hin) as Hw. rewrite Hz in Hw. apply weight_nonzero_in. lia.
  - pose proof (positive_In _ _ _ (arg_values_positive arg s M members_positive) Hin) as Hw.
    rewrite <- Hz in Hw. apply weight_nonzero_in. lia.
Qed.

Lemma U_nonempty : nonempty U = nonempty (arg_values arg s M).
Proof.
  pose proof (proj2 (zcanon_spec (arg_values arg s M))) as Hz.
  destruct (arg_values arg s M) as [|e l] eqn:E; [done|]. rewrite <- E in *.
  destruct U as [|e' l'] eqn:E'; [|by rewrite E]. exfalso.
  assert (arg_values arg s M = []) as E2; [|by rewrite E in E2].
  apply positive_zeq_nil; [apply arg_values_positive, members_positive|]. by rewrite <- Hz.
Qed.

Lemma foldV_U func :
  value agg = func -> func <> CountStar ->
  foldV V slot g func = fold_result func 0
    (visit (fold_visitor func (length (values_prefix slot g))) fold_init (under_prefix (values_prefix slot g) U)).
Proof.
  intros Hf Hn. unfold foldV. rewrite (slot_multiset s ks aggs R p slot g agg arg Hlen Hagg Harg).
  by destruct func.
Qed.

Lemma count_agrees v :
  value agg = Count arg -> evaluate (Count arg) M s = Ok v ->
  foldV V slot g (Count arg) = Ok v /\ args_ok arg s M.
Proof.
  intros Hf. unfold evaluate. destruct (count_members _ _ 0 M) as [t|] eqn:Ec; [|done]. intros [= <-].
  apply count_members_spec in Ec as (Hall & Ht & Hr).
  assert (t = total U) as ->.
  { rewrite U_total, Ht. unfold total, arg_values. rewrite wsum_bind. simpl. apply wsum_ext.
    intros row w _. unfold arg_value. by destruct (eval arg row s) as [[]|]. }
  split.
  - rewrite foldV_U by done. rewrite visit_count; [done|apply U_positive|done|done|].
    specialize (Hr eq_refl). apply in_i64_spec in Hr. simpl. lia.
  - eapply Forall_impl; [exact Hall|]. intros e [b Hb]. destruct (eval arg e.1 s); [eauto|done].
Qed.

(** The integers a slot sees are [i64]s. *)
Definition ints_ok : Prop := forall row w x, (row, w) ∈ R -> eval arg row s = Ok (VInt x) -> in_i64 x = true.

Lemma arg_values_In v w : (v, w) ∈ arg_values arg s M -> exists row x, (row, x) ∈ R /\ eval arg row s = Ok v.
Proof.
  unfold arg_values, zbind. intros Hin. apply list_elem_of_In, in_flat_map in Hin as ([row x] & Hr & Hin).
  apply filter_In in Hr as [Hr _]. exists row, x. split; [by apply list_elem_of_In|]. simpl in Hin.
  unfold arg_value in Hin. destruct (eval arg row s) as [u|]; [|done].
  destruct u; simpl in Hin; try done; destruct Hin as [[= <- _]|[]]; done.
Qed.

Lemma U_ints : ints_ok -> Forall (fun e => exists x, e.1 = VInt x) (arg_values arg s M) ->
  Forall (fun e => is_int e.1) U.
Proof.
  intros Hi Hv. apply Forall_forall. intros [v w] Hin.
  assert (v ∈ map fst U) as HvU by (apply list_elem_of_fmap; by exists (v, w)).
  apply U_In, list_elem_of_fmap in HvU as ([v' w'] & -> & Hin').
  rewrite Forall_forall in Hv. destruct (Hv _ Hin') as [x Hx]. simpl in *. subst.
  apply arg_values_In in Hin' as (row & y & Hr & Ev). by eapply Hi.
Qed.

Lemma sum_and_count_agrees func r :
  ints_ok -> value agg = func -> sums func = true ->
  sum_and_count arg M s (agg_name func) = Ok r ->
  args_ok arg s M /\
  visit (fold_visitor func (length (values_prefix slot g))) fold_init (under_prefix (values_prefix slot g) U) =
    mkFold None (nonempty U) (total U) (wsum int_of U) None /\
  r = (if nonempty U then Some (wsum int_of U, total U) else None) /\
  (nonempty U = true -> in_i64 (wsum int_of U) = true).
Proof.
  intros Hi Hf Hs. unfold sum_and_count.
  destruct (try_fold _ (0, 0, false) M) as [[[sm c] an]|] eqn:E; [|done].
  apply sum_fold_spec in E as (Ha & Hv & H1 & H2 & H3 & H4). simpl in H1, H2, H3, H4. intros Hr.
  assert (total U <= i64_max) as Ht.
  { specialize (H4 eq_refl). apply in_i64_spec in H4. rewrite U_total. lia. }
  assert (sm = wsum int_of U) as Hsm.
  { rewrite H1, (wsum_zeq int_of U (arg_values arg s M)) by apply zcanon_spec. lia. }
  assert (c = total U) as Hc by (rewrite U_total; lia).
  rewrite <- U_nonempty in H3. clear H1 H2. subst sm c an. split_and!; [done| |..].
  - rewrite visit_sum; [done|done|apply U_positive|by apply U_ints|done|done|simpl; lia|simpl; lia].
  - destruct (nonempty U); simpl in Hr; [|congruence]. destruct (in_i64 _); congruence.
  - intros Hn. rewrite Hn in Hr. simpl in Hr. by destruct (in_i64 (wsum int_of U)).
Qed.

Lemma sum_agrees v :
  ints_ok -> value agg = Sum arg -> evaluate (Sum arg) M s = Ok v ->
  foldV V slot g (Sum arg) = Ok v /\ args_ok arg s M.
Proof.
  intros Hi Hf. unfold evaluate.
  destruct (sum_and_count arg M s (agg_name (Sum arg))) as [r|] eqn:E; [|done].
  apply (sum_and_count_agrees (Sum arg)) in E as (Ha & Hvis & -> & Hin); [|done..].
  rewrite foldV_U, Hvis by done. unfold fold_result. simpl.
  destruct (nonempty U); simpl; [|by intros [= <-]]. rewrite Hin by done. by intros [= <-].
Qed.

Lemma avg_agrees v :
  ints_ok -> value agg = Avg arg -> evaluate (Avg arg) M s = Ok v ->
  foldV V slot g (Avg arg) = Ok v /\ args_ok arg s M.
Proof.
  intros Hi Hf. unfold evaluate.
  destruct (sum_and_count arg M s (agg_name (Avg arg))) as [r|] eqn:E; [|done].
  apply (sum_and_count_agrees (Avg arg)) in E as (Ha & Hvis & -> & Hin); [|done..].
  rewrite foldV_U, Hvis by done. unfold fold_result. simpl.
  destruct (nonempty U); simpl; [|by intros [= <-]]. rewrite Hin by done. by intros [= <-].
Qed.

(** The first key of a sorted multiset is its least value, the last its greatest. *)
Lemma head_extreme v w l : U = (v, w) :: l -> extreme Lt v (map fst U).
Proof.
  intros HU. pose proof (proj1 (proj1 (zcanon_spec (arg_values arg s M)))) as Hs. rewrite HU in *.
  split; [by left|]. intros x Hx. simpl in Hx. apply elem_of_cons in Hx as [->|Hx]; [by rewrite cmp_refl|].
  apply list_elem_of_fmap in Hx as (e & -> & He). apply StronglySorted_inv in Hs as [_ Hf].
  rewrite Forall_forall in Hf. specialize (Hf e He). unfold key_lt in Hf. simpl in *. by rewrite Hf.
Qed.

Lemma last_extreme v w : last U = Some (v, w) -> extreme Gt v (map fst U).
Proof.
  intros [l HU]%last_Some. pose proof (proj1 (proj1 (zcanon_spec (arg_values arg s M)))) as Hs.
  rewrite HU in *. rewrite map_app. split; [apply elem_of_app; right; by left|]. intros x Hx.
  apply elem_of_app in Hx as [Hx|Hx]; [|apply list_elem_of_singleton in Hx as ->; by rewrite cmp_refl].
  apply list_elem_of_fmap in Hx as (e & -> & He). unfold bt_sorted in Hs.
  apply StronglySorted_app in Hs as (Hlt & _ & _). specialize (Hlt e (v, w) He (list_elem_of_here _ _)).
  unfold key_lt in Hlt. simpl in *. by rewrite (proj2 (cmp_Gt_Lt _ _) Hlt).
Qed.

Lemma pick_Some better best l : exists m, fold_left (pick better) l (Some best) = Some m.
Proof. revert best. induction l as [|v l IH]; intros best; simpl; eauto. Qed.

(** The oracle's extremum, as an extreme value of the multiset. *)
Lemma extremum_spec dir r :
  dir <> Eq -> extremum_of arg M s (better_than dir) = Ok r ->
  args_ok arg s M /\ if nonempty U then extreme dir r (map fst U) else r = VNull.
Proof.
  intros Hd. unfold extremum_of. destruct (try_fold _ None M) as [best|] eqn:E; [|done].
  intros [= <-]. apply extremum_fold_spec in E as [Ha ->]; [|apply members_positive]. split; [done|].
  rewrite U_nonempty. pose proof U_In as HU. destruct (arg_values arg s M) as [|[v w] l] eqn:Ev; [done|].
  simpl. unfold pick at 2. destruct (pick_Some (better_than dir) v (map fst l)) as [m Hm].
  rewrite Hm. simpl. apply pick_extreme in Hm as [Hin Hle]; [|done].
  split; [by apply HU|]. intros x Hx%HU. by apply Hle.
Qed.

Lemma min_agrees v :
  value agg = Min arg -> evaluate (Min arg) M s = Ok v ->
  foldV V slot g (Min arg) = Ok v /\ args_ok arg s M.
Proof.
  intros Hf Hev. apply (extremum_spec Lt) in Hev as [Ha Hx]; [|done]. split; [|done].
  rewrite foldV_U by done. rewrite visit_min by done. destruct U as [|[m w] l] eqn:EU; simpl in Hx; [by subst|].
  pose proof (head_extreme _ _ _ EU) as Hm. rewrite EU in Hm. f_equal.
  by apply (extreme_unique Lt m v _ _ ltac:(done) (fun _ => iff_refl _) Hm).
Qed.

Lemma max_agrees v :
  value agg = Max arg -> evaluate (Max arg) M s = Ok v ->
  foldV V slot g (Max arg) = Ok v /\ args_ok arg s M.
Proof.
  intros Hf Hev. apply (extremum_spec Gt) in Hev as [Ha Hx]; [|done]. split; [|done].
  rewrite foldV_U by done. rewrite visit_max by done. destruct (last U) as [[m w]|] eqn:El.
  - destruct (nonempty U) eqn:En; [|by destruct U].
    f_equal. eapply (extreme_unique Gt); [done|done|by eapply last_extreme|exact Hx].
  - apply last_None in El. rewrite El in Hx. simpl in *. by subst.
Qed.
End argument.

(** Folding the state of a group gives the oracle's value, and the oracle
    evaluated every argument. *)
Lemma fold_evaluate v :
  (forall arg, argument (value agg) = Some arg -> ints_ok arg) ->
  evaluate (value agg) M s = Ok v ->
  foldV V slot g (value agg) = Ok v /\
  forall arg, argument (value agg) = Some arg -> args_ok arg s M.
Proof.
  intros Hi Hev. destruct (value agg) as [|arg|arg|arg|arg|arg] eqn:Ef.
  - split; [|done]. unfold evaluate in Hev. destruct (count_members _ _ 0 M) as [t|] eqn:Ec; [|done].
    injection Hev as <-. apply count_members_spec in Ec as (_ & -> & _).
    unfold foldV. rewrite totalV_members. done.
  - destruct (count_agrees arg ltac:(by rewrite Ef) v Ef Hev) as [Hv Ha]. split; [done|]. by intros ? [= <-].
  - destruct (sum_agrees arg ltac:(by rewrite Ef) v (Hi _ eq_refl) Ef Hev) as [Hv Ha]. split; [done|]. by intros ? [= <-].
  - destruct (min_agrees arg ltac:(by rewrite Ef) v Ef Hev) as [Hv Ha]. split; [done|]. by intros ? [= <-].
  - destruct (max_agrees arg ltac:(by rewrite Ef) v Ef Hev) as [Hv Ha]. split; [done|]. by intros ? [= <-].
  - destruct (avg_agrees arg ltac:(by rewrite Ef) v (Hi _ eq_refl) Ef Hev) as [Hv Ha]. split; [done|]. by intros ? [= <-].
Qed.
End agree.
