(* ===== verification/Equiv.v ===== *)
(** * Grouping: the oracle's groups are the engine's

    While no row raises, the groups the oracle collects and emits are exactly
    the accumulated output of the engine's aggregate operator.

    Its later part: the incremental engine agrees with the reference engine
    (I-1). *)

From Stdlib Require Import ZArith Lia Sorted.
From stdpp Require Import base list strings pretty.
From S2P Require Import Prelude BTree ZAlg Value ZSet Plan Bind Codec State Operator Linear Distinct Join Aggregate Oracle ResultStore Circuit Dataflow Engine Compile AggEquiv.

(** ** No live error *)

Definition quiet (l : LiveErrors) : Prop := by_message l = [].

Lemma quiet_contains l : quiet l <-> forall m, bt_contains m (by_message l) = false.
Proof.
  unfold quiet. split; [by intros ->|]. intros Hm. destruct (by_message l) as [|[m e] rest] eqn:E; [done|].
  specialize (Hm m). unfold bt_contains in Hm. simpl in Hm. by rewrite cmp_eqb_refl in Hm.
Qed.

Lemma live_adds_quiet l errs l' :
  live_adds l errs l' -> quiet l' -> quiet l /\ forall m w, (error_row m, w) ∉ errs.
Proof.
  intros Ha Hq. rewrite quiet_contains in Hq. split.
  - apply quiet_contains. intros m. destruct (bt_contains m (by_message l)) eqn:E; [|done].
    rewrite <- (Hq m). symmetry. apply Ha. by left.
  - intros m w Hin. assert (bt_contains m (by_message l') = true) as Hc by (apply Ha; eauto).
    by rewrite Hq in Hc.
Qed.

Lemma record_loud l e l' : record l e = Ok l' -> ~ quiet l'.
Proof.
  unfold record, quiet. destruct (evaluation_message e) as [m|]; [|done]. intros [= <-]. simpl. intros Hn.
  assert (bt_get m (bt_insert m e (by_message l)) = Some e) as Hg by apply bt_get_insert_eq.
  by rewrite Hn in Hg.
Qed.

(** A stream of error rows without messages is empty. *)
Lemma errors_nil {A} (f : Row -> result PlanError A) es :
  (forall m w, (error_row m, w) ∉ zbind (fun r => error_of (f r)) es) ->
  zbind (fun r => error_of (f r)) es = [].
Proof.
  induction es as [|[row w] es IH]; intros Hn; [done|]. rewrite zbind_cons in *.
  rewrite IH by (intros m x Hin; apply (Hn m x), elem_of_app; by right). rewrite app_nil_r.
  destruct (f row) as [|x]; [done|]. simpl in *.
  destruct (evaluation_message x) as [m|] eqn:Em; [|done]. exfalso. apply (Hn m (w * 1)). by left.
Qed.

(** ** Collecting groups *)

Section groups.
Context (s : Schema) (ks : list (Named Expr)).

Lemma members_cons g row w R :
  members s ks g ((row, w) :: R) = (if in_group s ks g row then [(row, w)] else []) ++ members s ks g R.
Proof. unfold members. simpl. by destruct (in_group s ks g row). Qed.

Lemma group_rows_spec R grps live grps' live' :
  try_fold (group_row ks s) (grps, live) R = Ok (grps', live') -> live_wf live -> bt_sorted grps ->
  live_wf live' /\ bt_sorted grps' /\
  live_adds live (zbind (fun row => error_of (group_of s ks row)) R) live' /\
  (forall g, default [] (bt_get g grps') = default [] (bt_get g grps) ++ members s ks g R) /\
  (forall g, bt_contains g grps' = true <-> bt_contains g grps = true \/ members s ks g R <> []).
Proof.
  revert grps live. induction R as [|[row w] R IH]; intros grps live; cbn [try_fold].
  { intros [= <- <-] Hw Hs. split_and!; try done; [apply live_adds_nil|..]; intros g.
    - by rewrite app_nil_r.
    - split; [by left|]. by intros [|]. }
  unfold group_row at 1. cbn [fst snd]. destruct (w <? 0); [done|].
  destruct (group_values ks row s [] live) as [[key l1]|] eqn:Eg; [|done]. intros H Hw Hs.
  apply group_values_spec in Eg as (Hw1 & -> & Ha1); [|done]. specialize (Ha1 w).
  rewrite zbind_cons. unfold group_of at 1.
  destruct (project_vals ks row s) as [g0|] eqn:Ev; cbn [app] in H.
  - apply IH in H as (Hw' & Hs' & Ha' & Hm & Hc); [|done|by apply bt_insert_sorted].
    assert (forall g, in_group s ks g row = cmp_eqb g0 g) as Hin
      by (intros g; unfold in_group, group_of; by rewrite Ev).
    split_and!; [done|done|by eapply live_adds_trans|..]; intros g.
    + rewrite Hm, members_cons, Hin. unfold bt_update. rewrite bt_get_insert.
      case_cmp_eqb g g0.
      * subst. rewrite cmp_eqb_refl. simpl. by rewrite <- app_assoc.
      * rewrite (proj2 (cmp_eqb_neq g0 g)) by congruence. done.
    + rewrite Hc, members_cons, Hin. unfold bt_contains, bt_update. rewrite bt_get_insert.
      case_cmp_eqb g g0.
      * subst. rewrite cmp_eqb_refl. split; [|by left]. by right.
      * rewrite (proj2 (cmp_eqb_neq g0 g)) by congruence. done.
  - apply IH in H as (Hw' & Hs' & Ha' & Hm & Hc); [|done|done].
    assert (forall g, in_group s ks g row = false) as Hin by (intros g; unfold in_group, group_of; by rewrite Ev).
    split_and!; [done|done|by eapply live_adds_trans|..]; intros g.
    + by rewrite Hm, members_cons, Hin.
    + by rewrite Hc, members_cons, Hin.
Qed.
End groups.

(** ** Emitting groups *)

Lemma group_aggregates_quiet aggs ms s vals live row live' :
  group_aggregates aggs ms s vals live = Ok (row, live') -> quiet live' ->
  live' = live /\ exists vs, row = Some (vals ++ vs) /\
    Forall2 (fun agg v => evaluate (value agg) ms s = Ok v) aggs vs.
Proof.
  revert vals. induction aggs as [|agg aggs IH]; intros vals; cbn [group_aggregates].
  { intros [= <- <-] _. split; [done|]. exists []. split; [by rewrite app_nil_r|constructor]. }
  destruct (evaluate (value agg) ms s) as [v|[]] eqn:Ev; try done.
  - intros H Hq. apply IH in H as (-> & vs & -> & Hvs); [|done]. split; [done|].
    exists (v :: vs). split; [by rewrite <- app_assoc|by constructor].
  - destruct (is_evaluation_error e); [|done]. destruct (record live e) as [l1|] eqn:Er; [|done].
    intros [= <- <-] Hq. by apply record_loud in Er.
Qed.

(** A group as the emission loop finds it. *)
Definition group_ready (g : GroupBy) (p : list Value * Entries) : Prop :=
  positive p.2 /\ (keys g <> [] -> p.2 <> []).

Lemma positive_total_lt (M : Entries) : positive M -> M <> [] -> 0 < total M.
Proof.
  intros Hp Hne. destruct Hp as [|[r w] M Hw HM]; [done|]. unfold total. simpl in *.
  assert (0 <= wsum (fun _ => 1) M); [|lia].
  clear Hne Hw. induction HM as [|[r' w'] M Hw' HM IH]; simpl in *; lia.
Qed.

Lemma group_emit_quiet g s grps out live out' live' :
  Forall (group_ready g) grps ->
  try_fold (group_emit g s) (out, live) grps = Ok (out', live') -> quiet live' ->
  live' = live /\ exists vss,
    Forall2 (fun p vs => Forall2 (fun agg v => evaluate (value agg) p.2 s = Ok v) (aggregates g) vs) grps vss /\
    out' = out ++ zip_with (fun p vs => (p.1 ++ vs, 1)) grps vss.
Proof.
  intros Hr. revert out live. induction Hr as [|[key ms] grps [Hp Hne] Hr IH]; intros out live; cbn [try_fold].
  { intros [= <- <-] _. split; [done|]. exists []. split; [constructor|]. simpl. by rewrite app_nil_r. }
  unfold group_emit at 1. destruct (count_members _ _ 0 ms) as [t|] eqn:Et; [|done]. cbn [fst snd] in *.
  apply count_members_spec in Et as (_ & Ht & _).
  assert ((t <=? 0) && negb match keys g with [] => true | _ => false end = false) as ->.
  { destruct (keys g) as [|k kk]; [by rewrite andb_false_r|]. rewrite andb_true_r.
    pose proof (positive_total_lt ms Hp (Hne ltac:(done))) as Hlt. unfold total in Hlt. lia. }
  destruct (group_aggregates _ ms s key live) as [[row l1]|] eqn:Ea; [|done]. intros H Hq.
  assert (exists out1, try_fold (group_emit g s) (out1, l1) grps = Ok (out', live') /\
    out1 = out ++ match row with None => [] | Some r => [(r, 1)] end) as (out1 & H1 & ->).
  { destruct row; eexists; (split; [exact H|]); [done|by rewrite app_nil_r]. }
  apply IH in H1 as (-> & vss & Hvss & ->); [|done].
  apply group_aggregates_quiet in Ea as (-> & vs & -> & Hvs); [|done]. split; [done|].
  exists (vs :: vss). split; [by constructor|]. simpl. by rewrite <- app_assoc.
Qed.

(** ** A group's emission *)

Section emission.
Context (s : Schema) (ks : list (Named Expr)) (aggs : list (Named AggFunc)) (R : Entries).
Context (Hpos : positive R).
Context (Hints : forall agg arg, agg ∈ aggs -> argument (value agg) = Some arg -> ints_ok s R arg).

Definition group_vals (g : list Value) (vs : list Value) : Prop :=
  Forall2 (fun agg v => evaluate (value agg) (members s ks g R) s = Ok v) aggs vs.

Lemma emit_values_agree p g slot l vs vals :
  length g = length ks -> (forall i, l !! i = aggs !! (slot + i)%nat) ->
  Forall2 (fun agg v => evaluate (value agg) (members s ks g R) s = Ok v) l vs ->
  emit_valuesV (zcanon (state_of s ks aggs R p)) g slot l vals = Ok (ERow (vals ++ vs)).
Proof.
  intros Hl Hsuf Hvs. revert slot vals Hsuf.
  induction Hvs as [|agg v l vs Hv Hvs IH]; intros slot vals Hsuf; cbn [emit_valuesV]; [by rewrite app_nil_r|].
  assert (aggs !! slot = Some agg) as Ha by (specialize (Hsuf 0%nat); by rewrite Nat.add_0_r in Hsuf).
  destruct (fold_evaluate s ks aggs R p slot g agg Hl Ha Hpos v) as [-> _]; [|done|].
  - intros arg Harg. eapply Hints; [|exact Harg]. by eapply list_elem_of_lookup_2.
  - rewrite IH; [by rewrite <- app_assoc|]. intros i. specialize (Hsuf (S i)). simpl in Hsuf.
    by rewrite <- Nat.add_succ_comm in Hsuf.
Qed.

Lemma emit_group g vs :
  length g = length ks -> (no_keys ks = false -> members s ks g R <> []) -> group_vals g vs ->
  emit_of s ks aggs R (no_keys ks) g = Ok (ERow (g ++ vs)).
Proof.
  intros Hl Hne Hvs. unfold emit_of, emitV. destruct (no_keys ks) eqn:Ek; cbn [negb].
  - by apply emit_values_agree.
  - rewrite totalV_members. specialize (Hne eq_refl).
    assert (0 < total (members s ks g R)) as Ht by (apply positive_total_lt; [by apply members_positive|done]).
    destruct (Z.leb_spec (total (members s ks g R)) 0); [lia|]. by apply emit_values_agree.
Qed.

(** The arguments of a group whose aggregates all evaluate raise nothing. *)
Lemma slot_errors_nil g vs row w :
  length g = length ks -> group_vals g vs -> (row, w) ∈ members s ks g R -> slot_errors s row aggs = [].
Proof.
  intros Hl Hvs Hin.
  assert (forall agg arg, agg ∈ aggs -> argument (value agg) = Some arg -> exists v, eval arg row s = Ok v) as Hok.
  { intros agg arg Ha Harg. apply list_elem_of_lookup in Ha as [slot Ha].
    destruct (Forall2_lookup_l _ _ _ _ _ Hvs Ha) as (v & _ & Hv).
    destruct (fold_evaluate s ks aggs R false slot g agg Hl Ha Hpos v) as [_ Hargs]; [|done|].
    - intros arg' Harg'. eapply Hints; [|exact Harg']. by eapply list_elem_of_lookup_2.
    - specialize (Hargs arg Harg). unfold args_ok in Hargs. rewrite Forall_forall in Hargs. apply (Hargs _ Hin). }
  clear Hvs Hin. induction aggs as [|agg l IH]; [done|]. cbn [slot_errors].
  rewrite IH; [| |intros agg' arg Ha; apply Hok; by right].
  - destruct (argument (value agg)) as [arg|] eqn:Harg; [|done].
    destruct (Hok agg arg ltac:(by left) Harg) as [v ->]. done.
  - intros agg' arg Ha. apply Hints. by right.
Qed.
End emission.

(** ** The whole stage *)

Section stage.
Context (g : GroupBy) (s : Schema) (R : Entries) (Hpos : positive R).
Context (Hints : forall agg arg, agg ∈ aggregates g -> argument (value agg) = Some arg -> ints_ok s R arg).

Abbreviation ks := (keys g).
Abbreviation aggs := (aggregates g).

(** The groups the oracle has collected. *)
Record collected (grps : btree (list Value) Entries) : Prop := {
  co_sorted : bt_sorted grps;
  co_members : forall k ms, (k, ms) ∈ grps -> ms = members s ks k R;
  co_length : forall k ms, (k, ms) ∈ grps -> length k = length ks;
  co_nonempty : forall k ms, (k, ms) ∈ grps -> no_keys ks = false -> ms <> [];
  co_all : forall k, members s ks k R <> [] -> k ∈ map fst grps;
  co_grand : no_keys ks = true -> map fst grps = [[]]
}.

Lemma members_length k : members s ks k R <> [] -> length k = length ks.
Proof.
  intros Hne. destruct (members s ks k R) as [|[row w] ms] eqn:E; [done|].
  assert (In (row, w) (members s ks k R)) as Hin by (rewrite E; by left).
  apply filter_In in Hin as [_ Hin]. unfold in_group in Hin. simpl in Hin.
  destruct (group_of s ks row) as [k'|] eqn:Eg; [|done]. apply (proj1 (cmp_eqb_eq _ _)) in Hin as ->.
  by apply group_of_length in Eg.
Qed.

Lemma no_keys_length : no_keys ks = true <-> length ks = 0%nat.
Proof. unfold no_keys. by destruct ks. Qed.

(** The groups before any row: the grand total exists already. *)
Definition init_groups : btree (list Value) Entries :=
  match ks with [] => bt_insert [] [] bt_empty | _ => bt_empty end.

Lemma init_groups_spec :
  bt_sorted init_groups /\ (forall k, default [] (bt_get k init_groups) = []) /\
  (forall k, bt_contains k init_groups = true <-> no_keys ks = true /\ k = []).
Proof.
  unfold init_groups, no_keys. destruct ks as [|k0 l]; (split; [|split]).
  - repeat constructor.
  - intros k. simpl. by destruct (cmp_eqb k []).
  - intros k. unfold bt_contains. simpl. case_cmp_eqb k ([] : list Value); naive_solver.
  - constructor.
  - done.
  - naive_solver.
Qed.

Lemma group_rows_collected live grps live' :
  try_fold (group_row ks s) (init_groups, live) R = Ok (grps, live') -> live_wf live ->
  live_wf live' /\ live_adds live (zbind (fun row => error_of (group_of s ks row)) R) live' /\ collected grps.
Proof.
  intros H Hw. destruct init_groups_spec as (Hs0 & Hd0 & Hc0).
  apply group_rows_spec in H as (Hw' & Hs & Ha & Hm & Hc); [|done|done].
  assert (forall k ms, (k, ms) ∈ grps -> bt_get k grps = Some ms) as Hget by (intros; by apply bt_In_get).
  assert (forall k, k ∈ map fst grps <-> bt_contains k grps = true) as Hkeys.
  { intros k. unfold bt_contains. split.
    - intros ([k' ms] & -> & Hin)%list_elem_of_fmap. simpl. by rewrite (Hget _ _ Hin).
    - destruct (bt_get k grps) as [ms|] eqn:E; [|done]. intros _. apply bt_get_In in E.
      apply list_elem_of_fmap. by exists (k, ms). }
  assert (forall k, k ∈ map fst grps -> length k = length ks) as Hlen.
  { intros k [[Hk ->]%Hc0|Hne]%Hkeys%Hc; [|by apply members_length]. by apply no_keys_length in Hk as ->. }
  assert (forall k ms, (k, ms) ∈ grps -> k ∈ map fst grps) as Hfst
    by (intros k ms Hin; apply list_elem_of_fmap; by exists (k, ms)).
  assert (forall k ms, (k, ms) ∈ grps -> ms = members s ks k R) as Hms.
  { intros k ms Hin. specialize (Hm k). rewrite (Hget _ _ Hin), Hd0 in Hm. done. }
  split_and!; [done|done|]. split; try done.
  - intros k ms Hin. by eapply Hlen, Hfst.
  - intros k ms Hin Hk. rewrite (Hms _ _ Hin). apply Hfst, Hkeys, Hc in Hin as [[Hk' _]%Hc0|]; [congruence|done].
  - intros k Hne. apply Hkeys, Hc. by right.
  - intros Hk. apply no_keys_length in Hk as Hl0.
    assert ([] ∈ map fst grps) as Hin by (apply Hkeys, Hc; left; by apply Hc0).
    pose proof (bt_sorted_NoDup _ Hs) as Hnd.
    destruct (map fst grps) as [|k1 l1]; [by inversion Hin|].
    assert (forall k, k ∈ k1 :: l1 -> k = []) as Hall
      by (intros k Hk'; apply nil_length_inv; rewrite Hlen by done; done).
    rewrite (Hall k1) in * by (by left). destruct l1 as [|k2 l2]; [done|].
    rewrite (Hall k2) in Hnd by (by right; left). apply NoDup_cons in Hnd as [Hnd _]. exfalso. apply Hnd. by left.
Qed.

Lemma collected_ready grps : collected grps -> Forall (group_ready g) grps.
Proof.
  intros Hc. apply Forall_forall. intros [k ms] Hin. split; simpl.
  - rewrite (co_members _ Hc _ _ Hin). by apply members_positive.
  - intros Hk. apply (co_nonempty _ Hc _ _ Hin). unfold no_keys. by destruct (keys g).
Qed.

(** Summing over the collected groups is summing over the operator's groups. *)
Lemma collected_groups (F : list Value -> Entries) grps :
  collected grps -> (forall k, emit_of s ks aggs R (no_keys ks) k = Ok Absent -> F k = []) ->
  flat_map F (groups s ks R) ≡z flat_map F (map fst grps).
Proof.
  intros Hc HF. destruct (no_keys ks) eqn:Ek.
  - unfold groups. by rewrite Ek, (co_grand _ Hc Ek).
  - apply (groups_cover s ks aggs F R false); [done|apply bt_sorted_NoDup, Hc| | |done].
    + intros k Hk. apply (co_all _ Hc). apply list_elem_of_In, in_flat_map in Hk as ([row w] & Hin & Hk).
      simpl in Hk. intros Hn. assert (In (row, w) (members s ks k R)) as Hin'; [|by rewrite Hn in Hin'].
      apply filter_In. split; [done|]. unfold in_group. simpl. destruct (group_of s ks row); [|done].
      destruct Hk as [->|[]]. apply cmp_eqb_refl.
    + intros k ([k' ms] & -> & Hin)%list_elem_of_fmap. by apply (co_length _ Hc _ _ Hin).
Qed.

(** Every collected group's emission is its oracle row. *)
Lemma collected_emit grps vss :
  collected grps ->
  Forall2 (fun p vs => Forall2 (fun agg v => evaluate (value agg) p.2 s = Ok v) aggs vs) grps vss ->
  Forall2 (fun p vs => emit_of s ks aggs R (no_keys ks) p.1 = Ok (ERow (p.1 ++ vs)) /\
                       group_vals s ks aggs R p.1 vs) grps vss.
Proof.
  intros Hc Hv. apply Forall2_same_length_lookup. split; [by eapply Forall2_length|].
  intros i [k ms] vs Hp Hvs. pose proof (list_elem_of_lookup_2 _ _ _ Hp) as Hin.
  pose proof (Forall2_lookup_lr _ _ _ _ _ _ Hv Hp Hvs) as Hk. simpl in *.
  rewrite (co_members _ Hc _ _ Hin) in Hk.
  split; [|exact Hk]. apply emit_group; try done.
  - by apply (co_length _ Hc _ _ Hin).
  - intros Hn. rewrite <- (co_members _ Hc _ _ Hin). by apply (co_nonempty _ Hc _ _ Hin).
Qed.

Lemma emitted_data (grps : list (list Value * Entries)) (vss : list (list Value)) :
  Forall2 (fun p vs => emit_of s ks aggs R (no_keys ks) p.1 = Ok (ERow (p.1 ++ vs)) /\
                       group_vals s ks aggs R p.1 vs) grps vss ->
  flat_map (out_data s ks aggs R (no_keys ks)) (map fst grps) = zip_with (fun p vs => (p.1 ++ vs, 1)) grps vss /\
  flat_map (out_errs s ks aggs R (no_keys ks)) (map fst grps) = [].
Proof.
  induction 1 as [|p vs grps vss [Hp _] _ [IHd IHe]]; [done|]. cbn [map flat_map zip_with].
  rewrite IHd, IHe. unfold out_data, out_errs. rewrite Hp. done.
Qed.

(** No row raises. *)
Lemma row_errors_nil (grps : list (list Value * Entries)) (vss : list (list Value)) :
  collected grps -> zbind (fun row => error_of (group_of s ks row)) R = [] ->
  Forall2 (fun p vs => emit_of s ks aggs R (no_keys ks) p.1 = Ok (ERow (p.1 ++ vs)) /\
                       group_vals s ks aggs R p.1 vs) grps vss ->
  zbind (row_errors s ks aggs) R ≡z [].
Proof.
  intros Hc Hq Hv. rewrite (zbind_ext _ (fun _ => [])); [by rewrite zbind_nil_f|].
  intros row Hw%weight_nonzero_in. apply list_elem_of_fmap in Hw as ([row' w] & -> & Hin). cbn [fst].
  unfold row_errors. destruct (group_of s ks row') as [k|x] eqn:Eg.
  - assert ((row', w) ∈ members s ks k R) as Hm.
    { apply list_elem_of_In, filter_In. split; [by apply list_elem_of_In|]. unfold in_group. simpl.
      rewrite Eg. apply cmp_eqb_refl. }
    assert (k ∈ map fst grps) as Hk by (apply (co_all _ Hc); intros Hn; rewrite Hn in Hm; by inversion Hm).
    apply list_elem_of_fmap in Hk as ([k' ms] & -> & Hk).
    apply list_elem_of_lookup in Hk as [i Hi]. destruct (Forall2_lookup_l _ _ _ _ _ Hv Hi) as (vs & _ & _ & Hvs).
    simpl in *. by rewrite (slot_errors_nil s ks aggs R Hpos Hints k' vs row' w) by
      (try done; by apply group_of_length in Eg).
  - simpl. destruct (evaluation_message x) as [m|] eqn:Em; [|done]. exfalso.
    assert ((error_row m, w * 1) ∈ zbind (fun row => error_of (group_of s ks row)) R) as Hx; [|rewrite Hq in Hx; by inversion Hx].
    apply list_elem_of_In, in_flat_map. exists (row', w). split; [by apply list_elem_of_In|].
    simpl. rewrite Eg. simpl. rewrite Em. by left.
Qed.
End stage.

(** The [GROUP BY] stage of an answer without live errors. *)
Lemma eval_group_by_quiet g input output live r live' :
  positive (rel_entries input) ->
  (forall agg arg, agg ∈ aggregates g -> argument (value agg) = Some arg ->
     ints_ok (rel_schema input) (rel_entries input) arg) ->
  eval_group_by g input output live = Ok (r, live') -> live_wf live -> quiet live' ->
  quiet live /\ live_wf live' /\ rel_schema r = output /\ positive (rel_entries r) /\
  rel_entries r ≡z agg_data (rel_schema input) (keys g) (aggregates g) (rel_entries input) (no_keys (keys g)) /\
  agg_errs (rel_schema input) (keys g) (aggregates g) (rel_entries input) (no_keys (keys g)) ≡z [].
Proof.
  intros Hpos Hints. unfold eval_group_by. set (s := rel_schema input). set (R := rel_entries input) in *.
  change (match keys g with [] => _ | _ => _ end) with (init_groups g).
  destruct (try_fold _ (init_groups g, live) R) as [[grps l1]|] eqn:E1; [|done].
  destruct (try_fold _ ([], l1) grps) as [[es l2]|] eqn:E2; [|done]. intros [= <- <-] Hw Hq.
  apply group_rows_collected in E1 as (Hw1 & Ha & Hc); [|done].
  apply group_emit_quiet in E2 as (-> & vss & Hvss & ->); [|by apply (collected_ready g s R)|done].
  destruct (live_adds_quiet _ _ _ Ha Hq) as [Hq0 Hn]. apply errors_nil in Hn.
  pose proof (collected_emit g s R Hpos Hints grps vss Hc Hvss) as He.
  destruct (emitted_data g s R grps vss He) as [Hd Hz]. cbn [rel_schema rel_entries app].
  split_and!; [done|done|done| | |].
  - clear. unfold positive. revert vss. induction grps as [|p grps IH]; intros [|vs vss]; simpl; constructor; [done|apply IH].
  - unfold agg_data. rewrite (collected_groups g s R _ grps Hc); [by rewrite Hd|]. unfold out_data. by intros k ->.
  - unfold agg_errs. rewrite (row_errors_nil g s R Hpos Hints grps vss Hc Hn He).
    rewrite (collected_groups g s R _ grps Hc); [by rewrite Hz|]. unfold out_errs. by intros k ->.
Qed.

(** * The incremental engine agrees with the reference engine (I-1)

    For a query both engines accept, over the same sealed epochs: the oracle's
    answer is the plan's value over the table contents, and the running circuit
    of the plan answers exactly that. *)

(** ** Integers stay in range *)

Lemma eval_binary_range op l r v :
  in_range l = true -> in_range r = true -> eval_binary op l r = Ok v -> in_range v = true.
Proof.
  intros Hl Hr. unfold eval_binary. destruct (is_null l || is_null r); [by intros [= <-]|].
  destruct (is_arithmetic op).
  - destruct l as [|x| | |], r as [|y| | |]; try done. intros Hv.
    pose proof (eval_arithmetic_sound op x y Hl Hr) as Hs. rewrite Hv in Hs. apply Hs.
  - destruct (ordering_test op (cmp l r)); [|done]. by intros [= <-].
Qed.

Lemma eval_range row s e v :
  Forall (fun v => in_range v = true) row -> literals_in_range e = true -> eval e row s = Ok v -> in_range v = true.
Proof.
  intros Hrow. revert v. induction e as [n|u|ty|op l r IHl IHr|e IH|l r IHl IHr|l r IHl IHr|e IH|e IH|whens otherwise IHw IHo]
    using Expr_rec'; intros v Hl Hv; simpl in Hl, Hv; try (res_inv; done).
  - res_inv. destruct (row_get row a) as [x|] eqn:Ex; [|done]. injection Hv as ->.
    unfold row_get in Ex. rewrite Forall_forall in Hrow. by eapply Hrow, list_elem_of_lookup_2.
  - apply andb_true_iff in Hl as [Hl1 Hl2]. res_inv.
    apply eval_binary_range in Hv; [done|by eapply IHl|by eapply IHr].
  - res_inv. by destruct (as_bool a).
  - res_inv. by destruct (as_bool a) as [[]|], (as_bool a0) as [[]|].
  - res_inv. by destruct (as_bool a) as [[]|], (as_bool a0) as [[]|].
  - apply andb_true_iff in Hl as [Hlw Hlo]. induction whens as [|[c r] whens IHs].
    + destruct otherwise as [e|]; [by apply (IHo e)|by injection Hv as <-].
    + simpl in Hlw. apply andb_true_iff in Hlw as [[_ Hr]%andb_true_iff Hlw].
      apply Forall_cons in IHw as [[_ IHr] IHw].
      destruct (eval c row s) as [x|]; [|done]. destruct (as_bool x) as [[|]|]; [by apply IHr|by apply IHs..].
Qed.

(** ** Rows in range *)

Definition row_in_range (r : Row) : Prop := Forall (fun v => in_range v = true) r.
Definition in_ranges (es : Entries) : Prop := Forall (fun e => row_in_range e.1) es.

(** Every value the log delivers is an [i64] where it is an integer. *)
Definition log_in_range (ds : list EpochDeltas) : Prop := forall t, in_ranges (accumulate ds t).

Lemma in_ranges_zeq es es' : positive es -> es ≡z es' -> in_ranges es' -> in_ranges es.
Proof.
  intros Hp Hz Hr. apply Forall_forall. intros [r w] Hin. simpl.
  pose proof (positive_In _ _ _ Hp Hin) as Hw. rewrite Hz in Hw.
  assert (r ∈ map fst es') as Hr' by (apply weight_nonzero_in; lia).
  apply list_elem_of_fmap in Hr' as (e & -> & He). unfold in_ranges in Hr. rewrite Forall_forall in Hr.
  by apply Hr.
Qed.

Lemma in_ranges_zbind (f : Row -> Entries) es :
  in_ranges es -> (forall r, row_in_range r -> in_ranges (f r)) -> in_ranges (zbind f es).
Proof.
  intros He Hf. unfold in_ranges, zbind. induction He as [|[r w] es Hr Hes IH]; [constructor|].
  cbn [flat_map]. apply Forall_app. split; [|done]. unfold zscale. apply Forall_map. by apply Hf.
Qed.

Lemma in_ranges_join lk rk L R : in_ranges L -> in_ranges R -> in_ranges (zjoin lk rk L R).
Proof.
  intros HL HR. apply in_ranges_zbind; [done|]. intros l Hl. apply in_ranges_zbind; [done|]. intros r Hr.
  unfold join_row. destruct (keys_equal lk rk l r); repeat constructor. by apply Forall_app.
Qed.

Lemma in_ranges_filter p s es : in_ranges es -> in_ranges (zbind (filter_row p s) es).
Proof.
  intros He. apply in_ranges_zbind; [done|]. intros r Hr. unfold filter_row.
  destruct (is_true p r s) as [[]|]; by repeat constructor.
Qed.

(** ** Stages *)

(** The recorded errors against the plan's: the same messages when [x], else
    only that no recorded error means no error. *)
Definition errs_rel (x : bool) (E : string -> Entries) (n : CircuitNode) (live : LiveErrors) : Prop :=
  if x then exists errs, live_adds live_new errs live /\ positive errs /\
         Forall (fun e => exists m, e.1 = error_row m) errs /\ errs ≡z plan_errs E true n
  else quiet live -> plan_errs E true n ≡z [].

(** The oracle's intermediate relation against a plan node's value. *)
Record agrees (x : bool) (E : string -> Entries) (n : CircuitNode) (r : Relation) (live : LiveErrors) : Prop := {
  ag_schema : rel_schema r = node_schema n;
  ag_positive : positive (rel_entries r);
  ag_data : rel_entries r ≡z plan_data E true n;
  ag_live : live_wf live;
  ag_errs : errs_rel x E n live
}.

Lemma errs_rel_quiet x E n live : errs_rel x E n live -> quiet live -> plan_errs E true n ≡z [].
Proof.
  destruct x; [|done]. intros (errs & Ha & _ & He & <-) Hq.
  destruct (live_adds_quiet _ _ _ Ha Hq) as [_ Hn].
  destruct errs as [|[r w] errs]; [done|]. apply Forall_cons in He as [[m Hm] _]. simpl in Hm. subst.
  exfalso. apply (Hn m w). by left.
Qed.

Lemma errs_rel_weaken x E n live : errs_rel x E n live -> errs_rel false E n live.
Proof. intros He Hq. by eapply errs_rel_quiet. Qed.

(** A linear stage on top of a node. *)
Lemma errs_rel_step x E n n' live errs live' :
  errs_rel x E n live -> plan_errs E true n' = plan_errs E true n ++ own_errs E true n' ->
  live_adds live errs live' -> positive errs -> Forall (fun e => exists m, e.1 = error_row m) errs ->
  errs ≡z own_errs E true n' -> errs_rel x E n' live'.
Proof.
  intros Hx Hn Ha Hp He Hz. destruct x.
  - destruct Hx as (errs0 & Ha0 & Hp0 & He0 & Hz0). exists (errs0 ++ errs). split_and!.
    + by eapply live_adds_trans.
    + by apply Forall_app.
    + by apply Forall_app.
    + by rewrite Hn, Hz0, Hz.
  - intros Hq. destruct (live_adds_quiet _ _ _ Ha Hq) as [Hq0 Hno]. rewrite Hn, (Hx Hq0), <- Hz. simpl.
    destruct errs as [|[r w] errs]; [done|]. apply Forall_cons in He as [[m Hm] _]. simpl in Hm. subst.
    exfalso. apply (Hno m w). by left.
Qed.

Lemma error_rows {A} (f : Row -> result PlanError A) es :
  Forall (fun e => exists m, e.1 = error_row m) (zbind (fun r => error_of (f r)) es).
Proof.
  unfold zbind. induction es as [|[r w] es IH]; [constructor|]. cbn [flat_map]. apply Forall_app.
  split; [|done]. unfold zscale. apply Forall_map, error_of_messages.
Qed.

Lemma zbind_errors_positive {A} (f : Row -> result PlanError A) es :
  positive es -> positive (zbind (fun r => error_of (f r)) es).
Proof. apply zbind_positive. intros r. apply error_of_positive. Qed.

Lemma where_agrees x E n r live p nm r' live' :
  agrees x E n r live -> where_ (Some p) r live = Ok (r', live') ->
  agrees x E (CFilter n nm p) r' live' /\ (in_ranges (rel_entries r) -> in_ranges (rel_entries r')).
Proof.
  intros [Hs Hp Hd Hl He] Hw. apply where_spec in Hw as (Hl' & Hs' & Hr' & Ha); [|done].
  rewrite Hs in *. split; [|rewrite Hr'; apply in_ranges_filter]. split; try done.
  - rewrite Hr'. apply zbind_positive; [|done]. intros row. apply filter_row_positive.
  - rewrite Hr'. simpl. by rewrite Hd.
  - eapply errs_rel_step; [exact He| |exact Ha|by apply zbind_errors_positive|apply error_rows|].
    + unfold plan_errs. simpl. rewrite flat_map_app. simpl. by rewrite app_nil_r.
    + simpl. apply zbind_proper, Hd.
Qed.

Lemma select_agrees x E n r live its nm output r' live' :
  agrees x E n r live -> select (Some its) output r live = Ok (r', live') ->
  agrees x E (CProject n nm its output) r' live'.
Proof.
  intros [Hs Hp Hd Hl He]. unfold select.
  destruct (try_fold _ _ _) as [[projected l1]|] eqn:Ef; [|done]. intros [= <- <-].
  apply select_fold in Ef as (Hl' & -> & Ha); [|done]. rewrite Hs in *. split; try done; simpl.
  - apply zbind_positive; [|done]. intros row. apply project_row_positive.
  - by rewrite Hd.
  - eapply errs_rel_step; [exact He| |exact Ha|by apply zbind_errors_positive|apply error_rows|].
    + unfold plan_errs. simpl. rewrite flat_map_app. simpl. by rewrite app_nil_r.
    + simpl. apply zbind_proper, Hd.
Qed.

Lemma consolidate_agrees x E n r live es :
  agrees x E n r live -> oracle_consolidate (rel_entries r) = Ok es ->
  agrees x E n (mkRelation (rel_schema r) es) live /\ zcanonical es /\
  (in_ranges (rel_entries r) -> in_ranges es).
Proof.
  intros [Hs Hp Hd Hl He] [Hc Hz]%oracle_consolidate_spec.
  assert (positive es) as Hp'.
  { apply canonical_positive; [done|]. rewrite Hz. intros k. by apply positive_weight. }
  split_and!; [|done|by apply in_ranges_zeq]. split; try done. simpl. by rewrite Hz.
Qed.

(** ** Sources *)

Lemma plan_errs_join E b l r ks s :
  plan_errs E b (CJoin l r ks s) = plan_errs E b l ++ plan_errs E b r.
Proof. unfold plan_errs. simpl. rewrite !flat_map_app. simpl. by rewrite app_nil_r. Qed.

Lemma source_errs E b s cat n : source_node s cat = Ok n -> plan_errs E b n = [].
Proof.
  revert n. induction s as [table alias|l IHl r IHr on]; intros n; cbn [source_node].
  - intros H. step_inv. done.
  - intros H. step_inv. rewrite plan_errs_join, IHl, IHr; done.
Qed.

(** The planner and the oracle resolve join keys to the same positions. *)
Lemma key_indexes ls rs on ks ixs :
  try_map (fun p : string * string =>
     let? i := plan_index_of ls p.1 in let? j := plan_index_of rs p.2 in Ok (i, j)) on = Ok ks ->
  try_map (key_index ls rs) on = Ok ixs -> ks = ixs.
Proof.
  intros H1%try_map_Ok H2%try_map_Ok. revert ixs H2.
  induction H1 as [|p k on ks Hp _ IH]; intros ixs H2; inversion H2; subst; [done|]. f_equal; [|by apply IH].
  unfold plan_index_of, key_index in *.
  destruct (schema_index_of ls p.1); [|done]. destruct (schema_index_of rs p.2); [|done].
  simpl in *. congruence.
Qed.

Lemma source_agrees o epoch s n r :
  log_in_range (take epoch (o_log o)) ->
  source_node s (o_catalog o) = Ok n -> eval_source o s epoch = Ok r ->
  agrees true (accumulate (take epoch (o_log o))) n r live_new /\ in_ranges (rel_entries r).
Proof.
  intros Hlog. revert n r.
  assert (forall n r, rel_schema r = node_schema n -> positive (rel_entries r) ->
    rel_entries r ≡z plan_data (accumulate (take epoch (o_log o))) true n ->
    plan_errs (accumulate (take epoch (o_log o))) true n = [] ->
    agrees true (accumulate (take epoch (o_log o))) n r live_new) as Hmk.
  { intros n r Hs Hp Hd He. split; try done; [split; [constructor|done]|].
    exists []. split_and!; [apply live_adds_nil|constructor|constructor|by rewrite He]. }
  induction s as [table alias|l IHl rt IHr on]; intros n r Hn Hr.
  - assert (He := source_errs (accumulate (take epoch (o_log o))) true _ _ _ Hn).
    cbn [source_node eval_source bind_source] in Hn, Hr. step_inv. simplify_eq.
    destruct (bt_get table (o_catalog o)) as [ts|]; [|done]. simplify_eq/=. assert (a2 = a0) as -> by congruence.
    apply contents_at_spec in E1 as (_ & Hp & Hz). split; [by apply Hmk|].
    eapply in_ranges_zeq; [done|exact Hz|apply Hlog].
  - assert (He := source_errs (accumulate (take epoch (o_log o))) true _ _ _ Hn).
    cbn [source_node eval_source] in Hn, Hr. destruct on as [|p on]; [done|].
    destruct (source_node l (o_catalog o)) as [ln|] eqn:El; [|done].
    destruct (source_node rt (o_catalog o)) as [rn|] eqn:Er; [|done].
    destruct (eval_source o l epoch) as [lr|] eqn:Elr; [|done].
    destruct (eval_source o rt epoch) as [rr|] eqn:Err; [|done].
    destruct (IHl _ _ eq_refl eq_refl) as [[Hls Hlp Hld _ _] Hlr].
    destruct (IHr _ _ eq_refl eq_refl) as [[Hrs Hrp Hrd _ _] Hrr].
    destruct (try_map _ (p :: on)) as [ks|] eqn:Ek; [|done].
    rewrite Hls, Hrs in Hr.
    destruct (try_map (key_index _ _) (p :: on)) as [ixs|] eqn:Ei; [|done].
    destruct (Schema_new _) as [sch|] eqn:Es; [|done]. cbn [map_err] in *.
    destruct (try_fold _ _ _) as [es|] eqn:Ef; [|done]. injection Hn as <-. injection Hr as <-.
    apply join_fold_spec in Ef as ->. rewrite <- (key_indexes _ _ _ _ _ Ek Ei). split.
    + apply Hmk; [done|by apply zjoin_positive| |done]. simpl. by rewrite Hld, Hrd.
    + by apply in_ranges_join.
Qed.

(** ** Grouping *)

Lemma group_agrees E n r live g out r' live' :
  agrees false E n r live -> in_ranges (rel_entries r) ->
  (forall agg arg, agg ∈ aggregates g -> argument (value agg) = Some arg -> literals_in_range arg = true) ->
  eval_group_by g r out live = Ok (r', live') -> quiet live' ->
  agrees false E (CAggregate n (keys g) (aggregates g) out) r' live' /\ quiet live.
Proof.
  intros [Hs Hp Hd Hl He] Hr Hlit Hg Hq.
  apply eval_group_by_quiet in Hg as (Hq0 & Hl' & Hsc & Hp' & Hd' & He'); [|done| |done|done].
  - split; [|done]. rewrite Hs in *. split; try done.
    + rewrite Hd'. simpl. by apply agg_data_proper.
    + intros _. unfold plan_errs. simpl. rewrite flat_map_app. simpl. rewrite app_nil_r.
      change (flat_map (own_errs E true) (walk n)) with (plan_errs E true n).
      rewrite (He Hq0). rewrite <- (agg_errs_proper _ _ _ _ _ _ Hd). done.
  - intros agg arg Ha Harg row w x Hin Hx.
    assert (in_range (VInt x) = true) as Hv; [|done].
    eapply (eval_range row); [|by eapply Hlit|exact Hx].
    unfold in_ranges in Hr. rewrite Forall_forall in Hr. apply (Hr _ Hin).
Qed.

(** ** The oracle's answer, in two parts *)

(** Everything up to the projection. *)
Definition stages (o : Oracle) (q : Query) (bound : Bound) (epoch : nat) : result OracleError (Relation * LiveErrors) :=
  let? r := eval_source o (source q) epoch in
  let? '(r, live) := where_ (filter_ q) r live_new in
  let? es := oracle_consolidate (rel_entries r) in
  let r := mkRelation (rel_schema r) es in
  let? '(r, live) :=
    match group_by q with
    | None => Ok (r, live)
    | Some g =>
        let? '(r, live) := eval_group_by g r (grouped_schema bound) live in
        where_ (having g) r live
    end in
  select (project q) (output_schema bound) r live.

(** The answer of a projected relation. *)
Definition finish (q : Query) (bound : Bound) (r : Relation) (live : LiveErrors) : result OracleError ZSetBatch :=
  match least live with
  | Some e => Err (OrPlan e)
  | None =>
      let? es := oracle_consolidate (rel_entries r) in
      let? es := if distinct q then try_map distinct_entry es else Ok es in
      map_err OrZSet (from_entries (output_schema bound) es)
  end.

Lemma answer_at_stages o q epoch bound :
  bind q (o_catalog o) = Ok bound -> (sealed_epoch o <? epoch)%nat = false ->
  answer_at o q epoch = let? '(r, live) := stages o q bound epoch in finish q bound r live.
Proof.
  intros Hb He. unfold answer_at, stages. rewrite He, Hb. cbn [map_err].
  destruct (eval_source o (source q) epoch) as [r|]; [|done].
  destruct (where_ (filter_ q) r live_new) as [[r1 l1]|]; [|done].
  destruct (oracle_consolidate _) as [es|]; [|done].
  destruct (match group_by q with None => _ | Some _ => _ end) as [[r2 l2]|]; [|done].
  by destruct (select _ _ r2 l2) as [[r3 l3]|].
Qed.

(** Recorded errors are never forgotten. *)
Lemma try_fold_back {X A St} (Q : St -> Prop) (body : St -> A -> result X St) l :
  (forall st a st', body st a = Ok st' -> Q st' -> Q st) ->
  forall st st', try_fold body st l = Ok st' -> Q st' -> Q st.
Proof.
  intros Hb. induction l as [|a l IH]; intros st st'; cbn [try_fold]; [by intros [= <-]|].
  destruct (body st a) as [st1|] eqn:E; [|done]. intros H Hq. eapply Hb; [exact E|]. by eapply IH.
Qed.

Lemma where_quiet p r live r' live' : where_ p r live = Ok (r', live') -> quiet live' -> quiet live.
Proof.
  destruct p as [p|]; [|by intros [= <- <-]]. unfold where_.
  destruct (try_fold _ _ _) as [[k l]|] eqn:E; [|done]. intros [= _ <-] Hq0.
  refine (try_fold_back (fun st => quiet st.2) _ _ _ _ _ E Hq0). clear.
  intros [k l] e [k' l']. unfold where_body. destruct (is_true p e.1 (rel_schema r)) as [[|]|x].
  - by intros [= <- <-].
  - by intros [= <- <-].
  - destruct (record l x) as [l1|] eqn:Er; [|done]. intros [= <- <-] Hq. by apply record_loud in Er.
Qed.

Lemma group_values_quiet ks row s key live res live' :
  group_values ks row s key live = Ok (res, live') -> quiet live' -> quiet live.
Proof.
  revert key. induction ks as [|k ks IH]; intros key; cbn [group_values]; [by intros [= <- <-]|].
  destruct (eval (value k) row s) as [v|x]; [apply IH|].
  destruct (record live x) as [l1|] eqn:Er; [|done]. intros [= <- <-] Hq. by apply record_loud in Er.
Qed.

Lemma select_quiet its out r live r' live' : select its out r live = Ok (r', live') -> quiet live' -> quiet live.
Proof.
  destruct its as [its|]; [|by intros [= <- <-]]. unfold select.
  destruct (try_fold _ _ _) as [[k l]|] eqn:E; [|done]. intros [= _ <-] Hq0.
  refine (try_fold_back (fun st => quiet st.2) _ _ _ _ _ E Hq0). clear.
  intros [k l] e [k' l']. unfold select_body.
  destruct (group_values its e.1 (rel_schema r) [] l) as [[res l1]|] eqn:Eg; [|done].
  intros H Hq. eapply group_values_quiet; [exact Eg|]. destruct res; by injection H as <- <-.
Qed.

(** The literals of the aggregates' arguments are machine integers. *)
Definition query_in_range (q : Query) : bool :=
  match group_by q with
  | None => true
  | Some g => forallb (fun a => match argument (value a) with
                                | Some arg => literals_in_range arg
                                | None => true
                                end) (aggregates g)
  end.

Lemma query_in_range_arg q g a arg :
  query_in_range q = true -> group_by q = Some g -> a ∈ aggregates g -> argument (value a) = Some arg ->
  literals_in_range arg = true.
Proof.
  unfold query_in_range. intros Hq Hg Ha Harg. rewrite Hg, forallb_forall in Hq.
  specialize (Hq a (proj1 (list_elem_of_In _ _) Ha)). by rewrite Harg in Hq.
Qed.

Definition grouped (q : Query) : bool := match group_by q with Some _ => true | None => false end.

(** A filter, or none. *)
Lemma where_opt_agrees x E n r live p nm r' live' :
  agrees x E n r live -> where_ p r live = Ok (r', live') ->
  agrees x E (match p with Some p => CFilter n nm p | None => n end) r' live' /\
  (in_ranges (rel_entries r) -> in_ranges (rel_entries r')).
Proof.
  destruct p as [p|]; [apply where_agrees|]. by intros Hag [= <- <-].
Qed.

Lemma group_opt_agrees E q bound n r live r' live' :
  agrees true E n r live -> in_ranges (rel_entries r) -> query_in_range q = true ->
  match group_by q with
  | None => Ok (r, live)
  | Some g => let? '(r, live) := eval_group_by g r (grouped_schema bound) live in where_ (having g) r live
  end = Ok (r', live') ->
  grouped q = false \/ quiet live' ->
  agrees (negb (grouped q)) E (add_group_by q bound n) r' live'.
Proof.
  unfold grouped, add_group_by. intros Hag Hr Hlit Hg Hq.
  destruct (group_by q) as [g|] eqn:Eg; [|by injection Hg as <- <-]. destruct Hq as [?|Hq]; [done|].
  destruct (eval_group_by g r (grouped_schema bound) live) as [[r1 l1]|] eqn:E1; [|done].
  assert (quiet l1) as Hq1 by by eapply where_quiet.
  apply group_agrees with (E := E) (n := n) in E1 as [Hag1 _]; [|destruct Hag; by split; try eapply errs_rel_weaken|done| |done].
  - by eapply where_opt_agrees in Hg as [Hg _].
  - intros a arg. by eapply query_in_range_arg.
Qed.

(** The stages compute the plan, minus its final distinct. *)
Lemma stages_agree o q bound epoch src r live :
  log_in_range (take epoch (o_log o)) -> query_in_range q = true ->
  source_node (source q) (o_catalog o) = Ok src ->
  stages o q bound epoch = Ok (r, live) -> grouped q = false \/ quiet live ->
  agrees (negb (grouped q)) (accumulate (take epoch (o_log o)))
    (add_project q bound (add_group_by q bound (add_where q src))) r live.
Proof.
  intros Hlog Hlit Hsrc Hst Hq. unfold stages in Hst.
  destruct (eval_source o (source q) epoch) as [r0|] eqn:E0; [|done].
  destruct (where_ (filter_ q) r0 live_new) as [[r1 l1]|] eqn:E1; [|done].
  destruct (oracle_consolidate _) as [es|] eqn:E2; [|done].
  destruct (match group_by q with None => _ | Some _ => _ end) as [[r2 l2]|] eqn:E3; [|done].
  destruct (source_agrees _ _ _ _ _ Hlog Hsrc E0) as [Hag0 Hr0].
  destruct (where_opt_agrees _ _ _ _ _ _ Qualified _ _ Hag0 E1) as [Hag1 Hr1].
  destruct (consolidate_agrees _ _ _ _ _ _ Hag1 E2) as (Hag2 & _ & Hr2).
  apply group_opt_agrees with (E := accumulate (take epoch (o_log o))) (n := add_where q src) in E3;
    [|done|by apply Hr2, Hr1|done|destruct Hq as [|Hq]; [by left|right; by eapply select_quiet]].
  unfold add_project. destruct (project q) as [its|].
  - by eapply select_agrees.
  - by injection Hst as <- <-.
Qed.

(** ** Finishing *)

Lemma distinct_entries es es' :
  try_map distinct_entry es = Ok es' -> zcanonical es -> positive es -> es' ≡z zdistinct es.
Proof.
  intros Hm [Hs _] Hp k. rewrite weight_zdistinct. apply bt_sorted_NoDup in Hs.
  revert es' Hm. induction es as [|[r w] es IH]; intros es'; cbn [try_map]; [by intros [= <-]|].
  apply Forall_cons in Hp as [Hw Hp]. cbn in Hs. apply NoDup_cons in Hs as [Hr Hn]. simpl in Hw.
  unfold distinct_entry at 1. simpl. destruct (Z.ltb_spec w 0); [lia|].
  destruct (try_map distinct_entry es) as [es1|]; [|done]. intros [= <-]. simpl. rewrite (IH Hn Hp _ eq_refl).
  case_cmp_eqb k r; [|done]. subst. rewrite (weight_not_in es r Hr). unfold sign.
  destruct (Z.gtb_spec 0 0), (Z.gtb_spec (w + 0) 0); lia.
Qed.

Lemma plan_errs_distinct E b q n : plan_errs E b (add_distinct q n) = plan_errs E b n.
Proof.
  unfold add_distinct. destruct (distinct q); [|done].
  unfold plan_errs. simpl. rewrite flat_map_app. simpl. by rewrite app_nil_r.
Qed.

Lemma least_quiet live : least live = None -> quiet live.
Proof. unfold least, quiet. by destruct (by_message live) as [|[]]. Qed.

(** An answer is the canonical form of the plan's value, which has no error. *)
Lemma finish_agrees x E q bound n r live b ans :
  agrees x E n r live -> finish q bound r live = Ok b -> canonical b = Ok ans ->
  answer_over (output_schema bound) (plan_data E true (add_distinct q n))
    (plan_errs E true (add_distinct q n)) = Ok ans.
Proof.
  intros Hag Hf Hc. unfold finish in Hf. destruct (least live) eqn:El; [done|]. apply least_quiet in El.
  destruct (oracle_consolidate _) as [es|] eqn:Eo; [|done].
  destruct (consolidate_agrees _ _ _ _ _ _ Hag Eo) as ([_ Hp Hd _ He] & Hcan & _). simpl in *.
  apply errs_rel_quiet in He; [|done].
  destruct (if distinct q then _ else _) as [es'|] eqn:Ed; [|done].
  unfold from_entries in Hf. destruct (validate _ _) as [[]|]; [|done]. injection Hf as <-.
  unfold canonical in Hc. destruct (consolidated_entries _) as [ces|] eqn:Ec; [|done]. injection Hc as <-.
  apply consolidated_entries_spec in Ec as [Hcc Hcz]. simpl in *.
  unfold answer_over. rewrite plan_errs_distinct, <- (zcanon_unique [] _ zcanonical_nil (symmetry He)).
  do 2 f_equal. symmetry. apply zcanon_unique; [done|]. rewrite Hcz. unfold add_distinct.
  destruct (distinct q); [|by injection Ed as <-]. apply distinct_entries in Ed; [|done|done].
  rewrite Ed. simpl. by rewrite Hd.
Qed.

(** The least recorded message is the head of the canonical errors. *)
Lemma bt_head_least {K V} `{LinearCmp K} k0 (v : V) m k :
  bt_sorted ((k0, v) :: m) -> bt_contains k ((k0, v) :: m) = true -> k = k0 \/ cmp k0 k = Lt.
Proof.
  intros [_ Hall]%bt_sorted_cons_inv. unfold bt_contains. simpl. case_cmp_eqb k k0; [by left|].
  destruct (bt_get k m) as [v'|] eqn:Eg; [|done]. intros _. right.
  apply bt_get_In in Eg. rewrite Forall_forall in Hall. by apply (Hall (k, v')).
Qed.

Lemma canonical_messages errs m :
  positive errs -> bt_contains (error_row m) (zcanon errs) = true <-> exists w, (error_row m, w) ∈ errs.
Proof.
  intros Hp. destruct (zcanon_spec errs) as [Hc Hz]. unfold bt_contains.
  assert (Hg := weight_bt_get _ (error_row m) (proj1 Hc)). rewrite (Hz (error_row m)) in Hg. split.
  - destruct (bt_get _ _) as [w|] eqn:Eg; [|done]. intros _. apply zcanonical_bt_get in Eg as [Hw Hnz]; [|done].
    rewrite (Hz (error_row m)) in Hw. assert (weight errs (error_row m) <> 0) as Hne by lia.
    apply weight_nonzero_in in Hne. apply list_elem_of_fmap in Hne as ([k x] & Hk & Hin). simpl in Hk.
    subst k. by exists x.
  - intros [w Hin]. apply positive_In in Hin; [|done]. destruct (bt_get _ _); [done|]. simpl in Hg. lia.
Qed.

Lemma least_message live errs e :
  live_wf live -> live_adds live_new errs live -> positive errs ->
  Forall (fun e => exists m, e.1 = error_row m) errs -> least live = Some e ->
  exists m w rest, evaluation_message e = Some m /\ zcanon errs = (error_row m, w) :: rest.
Proof.
  intros [Hs Hm] Ha Hp He Hl. unfold least in Hl. destruct (by_message live) as [|[m0 e0] ms] eqn:El; [done|].
  injection Hl as ->. exists m0.
  assert (forall m, bt_contains m ((m0, e) :: ms) = true <-> bt_contains (error_row m) (zcanon errs) = true) as Hiff.
  { intros m. rewrite <- El, canonical_messages by done. rewrite (Ha m). simpl. intuition done. }
  assert (bt_contains m0 ((m0, e) :: ms) = true) as H0 by (unfold bt_contains; simpl; by rewrite cmp_eqb_refl).
  destruct (zcanon_spec errs) as [[Hzs Hnz] Hz].
  assert (H0z := proj1 (Hiff m0) H0).
  destruct (zcanon errs) as [|[k w] rest] eqn:Ez; [done|]. exists w, rest.
  split; [apply Hm; simpl; by rewrite cmp_eqb_refl|].
  assert (exists m1, k = error_row m1) as [m1 ->].
  { assert (weight errs k <> 0) as Hne.
    { rewrite <- (Hz k), (weight_bt_get _ _ Hzs). simpl. rewrite cmp_eqb_refl. simpl.
      by apply Forall_cons in Hnz as [? _]. }
    apply weight_nonzero_in, list_elem_of_fmap in Hne as ([k' x] & -> & Hin).
    rewrite Forall_forall in He. by apply (He _ Hin). }
  destruct (bt_head_least _ _ _ _ Hzs H0z) as [[= ->]|Hlt]; [done|].
  assert (bt_contains m1 ((m0, e) :: ms) = true) as H1.
  { apply Hiff. unfold bt_contains. simpl. by rewrite cmp_eqb_refl. }
  destruct (bt_head_least _ _ _ _ Hs H1) as [->|Hlt']; [done|].
  change (match cmp m1 m0 with Eq => Eq | c => c end = Lt) in Hlt.
  assert (cmp m1 m0 = Lt) as Hc by by destruct (cmp m1 m0).
  exfalso. apply (cmp_lt_irrefl m0). by eapply cmp_lt_trans.
Qed.

(** ** Failures that are not evaluation errors *)

(** Evaluation errors are recorded, so a stage that fails does so for another
    reason. *)
Definition structural (x : OracleError) : Prop := forall e, x = OrPlan e -> evaluation_message e = None.

Lemma try_fold_Err {X A St} (Q : X -> Prop) (body : St -> A -> result X St) l :
  (forall st a x, body st a = Err x -> Q x) -> forall st x, try_fold body st l = Err x -> Q x.
Proof.
  intros Hb. induction l as [|a l IH]; intros st x; cbn [try_fold]; [done|].
  destruct (body st a) as [st1|y] eqn:Eb; [apply IH|]. intros [= <-]. by eapply Hb.
Qed.

Lemma try_map_Err {X A A'} (Q : X -> Prop) (g : A -> result X A') l :
  (forall a x, g a = Err x -> Q x) -> forall x, try_map g l = Err x -> Q x.
Proof.
  intros Hb. induction l as [|a l IH]; intros x; cbn [try_map]; [done|].
  destruct (g a) as [a1|y] eqn:Eb; [|intros [= <-]; by eapply Hb].
  destruct (try_map g l); [done|]. intros [= <-]. by apply IH.
Qed.

Lemma add_checked_structural what st e x : add_checked what st e = Err x -> structural x.
Proof. unfold add_checked. destruct e, (checked_add _ _); [done|]. by intros [= <-]. Qed.

Lemma consolidate_structural es x : oracle_consolidate es = Err x -> structural x.
Proof.
  unfold oracle_consolidate. destruct (try_fold _ _ _) eqn:E; [done|]. intros [= <-].
  eapply (try_fold_Err structural); [|exact E]. apply add_checked_structural.
Qed.

Lemma record_structural l e x : record l e = Err x -> structural x.
Proof. unfold record. destruct (evaluation_message e) eqn:E; [done|]. by intros [= <-] ? [= <-]. Qed.

Lemma where_structural p r live x : where_ p r live = Err x -> structural x.
Proof.
  destruct p as [p|]; [|done]. unfold where_. destruct (try_fold _ _ _) as [[]|] eqn:E; [done|]. intros [= <-].
  eapply (try_fold_Err structural); [|exact E]. intros [k l] en y. unfold where_body.
  destruct (is_true _ _ _) as [[|]|ev]; [done|done|]. destruct (record l ev) eqn:Er; [done|].
  intros [= <-]. by eapply record_structural.
Qed.

Lemma group_values_structural ks row s key live x : group_values ks row s key live = Err x -> structural x.
Proof.
  revert key. induction ks as [|k ks IH]; intros key; cbn [group_values]; [done|].
  destruct (eval (value k) row s) as [v|ev]; [apply IH|].
  destruct (record live ev) eqn:Er; [done|]. intros [= <-]. by eapply record_structural.
Qed.

Lemma select_structural its out r live x : select its out r live = Err x -> structural x.
Proof.
  destruct its as [its|]; [|done]. unfold select. destruct (try_fold _ _ _) as [[]|] eqn:E; [done|]. intros [= <-].
  eapply (try_fold_Err structural); [|exact E]. intros [k l] en y. unfold select_body.
  destruct (group_values _ _ _ _ _) as [[[]]|] eqn:Eg; [done|done|]. intros [= <-]. by eapply group_values_structural.
Qed.

Lemma contents_structural o t epoch x : contents_at o t epoch = Err x -> structural x.
Proof.
  unfold contents_at. destruct (bt_get t (o_catalog o)); [|by intros [= <-] ? [= <-]].
  destruct (_ <? _)%nat; [by intros [= <-]|]. destruct (try_fold _ bt_empty _) eqn:E.
  - apply (try_fold_Err structural). intros st [r w] y. unfold check_non_negative.
    repeat case_match; try done; by intros [= <-].
  - intros [= <-]. eapply (try_fold_Err structural); [|exact E]. apply add_checked_structural.
Qed.

Lemma keys_match_structural l r ixs x : keys_match l r ixs = Err x -> structural x.
Proof.
  induction ixs as [|[li ri] ixs IH]; cbn [keys_match]; [done|].
  destruct (row_get l li); [|by intros [= <-]]. destruct (row_get r ri); [|by intros [= <-]].
  cbn [ok_or]. destruct (_ || _); [done|apply IH].
Qed.

Lemma join_pair_structural ixs out p x : join_pair ixs out p = Err x -> structural x.
Proof.
  destruct p as [[l lw] [r rw]]. unfold join_pair.
  destruct (keys_match l r ixs) as [[|]|] eqn:Ek; cbn [negb]; [|done|].
  - destruct (checked_mul lw rw); [done|]. by intros [= <-].
  - intros [= <-]. by eapply keys_match_structural.
Qed.

Lemma key_index_structural ls rs p x : key_index ls rs p = Err x -> structural x.
Proof.
  unfold key_index. destruct (schema_index_of ls p.1); [|by intros [= <-] ? [= <-]].
  destruct (schema_index_of rs p.2); [done|]. by intros [= <-] ? [= <-].
Qed.

Lemma map_err_OrZSet_structural {A} (r : result ZSetError A) x : map_err OrZSet r = Err x -> structural x.
Proof. destruct r; [done|]. by intros [= <-]. Qed.

Lemma source_structural o s epoch x : eval_source o s epoch = Err x -> structural x.
Proof.
  revert x. induction s as [table alias|l IHl r IHr on]; intros x; cbn [eval_source].
  - destruct (bt_get table (o_catalog o)) as [sch|]; [|by intros [= <-] ? [= <-]]. cbn [ok_or].
    destruct (map_err OrZSet _) eqn:Eq; [|intros [= <-]; by eapply map_err_OrZSet_structural].
    destruct (contents_at o table epoch) eqn:Ec; [done|]. intros [= <-]. by eapply contents_structural.
  - destruct on as [|p on]; [by intros [= <-] ? [= <-]|].
    destruct (eval_source o l epoch) as [lr|]; [|intros [= <-]; by apply IHl].
    destruct (eval_source o r epoch) as [rr|]; [|intros [= <-]; by apply IHr].
    destruct (try_map _ (p :: on)) as [ixs|] eqn:Et.
    2: { intros [= <-]. eapply (try_map_Err structural); [|exact Et]. apply key_index_structural. }
    destruct (map_err OrZSet _) eqn:Eq; [|intros [= <-]; by eapply map_err_OrZSet_structural].
    destruct (try_fold _ _ _) eqn:Ef; [done|]. intros [= <-].
    eapply (try_fold_Err structural); [|exact Ef]. apply join_pair_structural.
Qed.

Lemma stages_structural o q bound epoch x :
  group_by q = None -> stages o q bound epoch = Err x -> structural x.
Proof.
  intros Hg. unfold stages. rewrite Hg.
  destruct (eval_source o (source q) epoch) as [r|] eqn:E1; [|intros [= <-]; by eapply source_structural].
  destruct (where_ _ _ _) as [[r1 l1]|] eqn:E2; [|intros [= <-]; by eapply where_structural].
  destruct (oracle_consolidate _) as [es|] eqn:E3; [|intros [= <-]; by eapply consolidate_structural].
  apply select_structural.
Qed.

(** The evaluation error of an answer is the least one recorded. *)
Lemma finish_least q bound r live e m :
  (let? b := finish q bound r live in map_err OrZSet (canonical b)) = Err (OrPlan e) ->
  evaluation_message e = Some m -> least live = Some e.
Proof.
  unfold finish. intros Hf Hm. destruct (least live); [by injection Hf as ->|].
  destruct (oracle_consolidate _) as [es|] eqn:E1.
  2: { injection Hf as ->. by rewrite (consolidate_structural _ _ E1 e eq_refl) in Hm. }
  destruct (if distinct q then _ else _) as [es1|] eqn:E2.
  2: { injection Hf as ->. destruct (distinct q); [|done].
       assert (structural (OrPlan e)) as Hst; [|by rewrite (Hst e eq_refl) in Hm].
       eapply (try_map_Err structural); [|exact E2]. intros [a w] y. unfold distinct_entry.
       destruct (_ <? _); [by intros [= <-]|done]. }
  destruct (from_entries _ _); [|done]. cbn [map_err] in Hf. by destruct (canonical _).
Qed.
