(* ===== verification/Invariants.v ===== *)
(** * The engine's laws

    ARCHITECTURE.md's laws over the whole pipeline, from a query to the answer
    of its running circuit: the oracle law (I-1), determinism (I-2) and
    retraction symmetry (I-5). *)

From Stdlib Require Import ZArith Lia.
From stdpp Require Import base list strings pretty.
From S2P Require Import Prelude BTree ZAlg Value ZSet Plan Bind Codec State Operator Linear Distinct Join Aggregate Oracle ResultStore Circuit Dataflow Engine Compile AggEquiv Equiv.

Section laws.
Context {F B : Type} `{FactoryLaws F B}.
Implicit Types (f : F) (c : Circuit (AnyOp B)).

(** The batches a plan's circuit emits in its life stay within machine range:
    at every node and pass, the weights' magnitudes sum to at most [i64::MAX]. *)
Definition plan_small (plan : CircuitPlan) f (ds : list EpochDeltas) : bool :=
  match add (root plan) builder_new f with
  | (_, Ok (bld, top)) => life_small bld top ds
  | (_, Err _) => true
  end.

(** A circuit instantiated from [plan] that has sealed [ds]. *)
Definition maintains (plan : CircuitPlan) f (ds : list EpochDeltas) c : Prop :=
  exists f' c0, instantiate_with plan f = (f', Ok c0) /\ run c0 ds = Ok c /\ plan_small plan f ds = true.

Lemma maintained_answer plan f ds c :
  maintains plan f ds c ->
  answer c = answer_over (plan_output_schema plan) (plan_data (accumulate ds) true (root plan))
               (plan_errs (accumulate ds) true (root plan)).
Proof.
  intros (f' & c0 & Hi & Hr & Hs). unfold plan_small in Hs.
  destruct (add (root plan) builder_new f) as [f1 [[bld top]|]] eqn:Ea.
  - assert (f1 = f') as -> by (unfold instantiate_with in Hi; rewrite Ea in Hi; by injection Hi).
    by eapply instantiate_run_spec.
  - unfold instantiate_with in Hi. by rewrite Ea in Hi.
Qed.

(** C2: what a running circuit answers (ARCHITECTURE I-1, the incremental side).
    A circuit instantiated from a plan, on any lawful backend, that has sealed
    the epochs [ds] one delta at a time answers with the plan evaluated over the
    tables' accumulated contents: its canonical value, or, while some row raises
    an evaluation error, the least live message. *)
Theorem circuit_maintains_plan plan f ds c :
  maintains plan f ds c ->
  answer c = answer_over (plan_output_schema plan) (plan_data (accumulate ds) true (root plan))
               (plan_errs (accumulate ds) true (root plan)).
Proof. apply maintained_answer. Qed.

(** C4: determinism (ARCHITECTURE I-2), in the strong form: how the changes were
    cut into epochs, ordered or cancelled, and which backend state was created
    for them, leaves no trace.  Two circuits of one plan whose logs add up to the
    same table contents give the same answer, or the same error. *)
Theorem answer_is_function_of_contents plan f f' ds ds' c c' :
  maintains plan f ds c -> maintains plan f' ds' c' ->
  (forall t, accumulate ds t ≡z accumulate ds' t) -> answer c = answer c'.
Proof.
  intros Hm Hm' HE. rewrite (maintained_answer _ _ _ _ Hm), (maintained_answer _ _ _ _ Hm').
  apply answer_over_proper; [by apply plan_data_proper|by apply plan_errs_proper].
Qed.

(** The delta that undoes a delta. *)
Definition retract (d : EpochDeltas) : EpochDeltas := mkDeltas (map (fun p => (p.1, zneg p.2)) (tables d)).

Lemma entries_for_retract d t : entries_for (retract d) t = zneg (entries_for d t).
Proof.
  unfold entries_for, retract. simpl. induction (tables d) as [|[k es] m IH]; [done|]. simpl.
  by destruct (cmp_eqb t k).
Qed.

Lemma accumulate_app ds ds' t : accumulate (ds ++ ds') t = accumulate ds t ++ accumulate ds' t.
Proof. apply flat_map_app. Qed.

Lemma accumulate_retract ds d t : accumulate (ds ++ [d; retract d]) t ≡z accumulate ds t.
Proof.
  rewrite accumulate_app. unfold accumulate at 2. simpl. rewrite app_nil_r, entries_for_retract.
  intros k. rewrite !weight_app, weight_neg. lia.
Qed.

(** C5: retraction symmetry (ARCHITECTURE I-5).  Sealing an epoch and then the
    epoch that retracts it brings every query back to the answer, or the error,
    it had before. *)
Theorem retraction_restores_answer plan f f' ds d c c' :
  maintains plan f ds c -> maintains plan f' (ds ++ [d; retract d]) c' -> answer c' = answer c.
Proof.
  intros Hm Hm'. rewrite (maintained_answer _ _ _ _ Hm), (maintained_answer _ _ _ _ Hm').
  apply answer_over_proper; [apply plan_data_proper|apply plan_errs_proper]; apply accumulate_retract.
Qed.

(** ** The oracle law *)

Lemma compiled_bound q catalog plan :
  incrementalize_typed q catalog = Ok plan ->
  exists bound src, bind q catalog = Ok bound /\ source_node (source q) catalog = Ok src /\
    plan = mkPlan (add_distinct q (add_project q bound (add_group_by q bound (add_where q src))))
             (output_schema bound).
Proof.
  unfold incrementalize_typed, plan_of. destruct (bind q catalog) as [bound|]; [|done]. cbn [map_err].
  destruct (source_node _ _) as [src|]; [|done]. case_bool_decide; [|done]. intros [= <-]. by exists bound, src.
Qed.

(** The oracle's answer is the plan over the accumulated tables. *)
Lemma oracle_is_plan o q epoch plan ans :
  log_in_range (take epoch (o_log o)) -> query_in_range q = true ->
  incrementalize_typed q (o_catalog o) = Ok plan -> canonical_answer_at o q epoch = Ok ans ->
  answer_over (plan_output_schema plan) (plan_data (accumulate (take epoch (o_log o))) true (root plan))
    (plan_errs (accumulate (take epoch (o_log o))) true (root plan)) = Ok ans.
Proof.
  intros Hlog Hlit Hplan Ho.
  apply compiled_bound in Hplan as (bound & src & Hb & Hsrc & ->). cbn [root plan_output_schema].
  unfold canonical_answer_at in Ho.
  destruct (sealed_epoch o <? epoch)%nat eqn:Ese; [unfold answer_at in Ho; by rewrite Ese in Ho|].
  rewrite (answer_at_stages _ _ _ _ Hb Ese) in Ho.
  destruct (stages o q bound epoch) as [[r live]|] eqn:Est; [|done].
  destruct (finish q bound r live) as [b|] eqn:Ef; [|done].
  destruct (canonical b) as [can|] eqn:Ec; [|done]. injection Ho as <-.
  eapply finish_agrees; [|exact Ef|exact Ec]. eapply stages_agree; try done.
  right. apply least_quiet. unfold finish in Ef. by destruct (least live).
Qed.

(** C1: the oracle law (ARCHITECTURE I-1), for answers.  Compile a query against
    the oracle's catalog, instantiate the plan on any lawful backend and feed it
    the oracle's log, one epoch at a time.  Whenever the oracle, recomputing from
    the whole log, has an answer at the epoch, the circuit has the same canonical
    answer: the same schema, rows, weights and order.  Integers in the log and
    in the aggregates' arguments are machine integers. *)
Theorem engine_agrees_with_oracle o q epoch plan f c ans :
  log_in_range (take epoch (o_log o)) -> query_in_range q = true ->
  incrementalize_typed q (o_catalog o) = Ok plan ->
  maintains plan f (take epoch (o_log o)) c ->
  canonical_answer_at o q epoch = Ok ans -> answer c = Ok ans.
Proof.
  intros Hlog Hlit Hplan Hm Ho. rewrite (maintained_answer _ _ _ _ Hm). by apply (oracle_is_plan _ q).
Qed.

(** C3: the oracle law for errors.  For a query without GROUP BY, whenever the
    oracle reports an evaluation error at the epoch, the circuit reports a live
    evaluation error with the same message. *)
Theorem engine_reports_oracle_error o q epoch plan f c e m :
  log_in_range (take epoch (o_log o)) -> group_by q = None ->
  incrementalize_typed q (o_catalog o) = Ok plan ->
  maintains plan f (take epoch (o_log o)) c ->
  canonical_answer_at o q epoch = Err (OrPlan e) -> evaluation_message e = Some m ->
  answer c = Err (LiveEvaluationError m).
Proof.
  intros Hlog Hg Hplan Hm Ho He. rewrite (maintained_answer _ _ _ _ Hm).
  apply compiled_bound in Hplan as (bound & src & Hb & Hsrc & ->). cbn [root plan_output_schema].
  unfold canonical_answer_at in Ho.
  destruct (sealed_epoch o <? epoch)%nat eqn:Ese; [unfold answer_at in Ho; by rewrite Ese in Ho|].
  rewrite (answer_at_stages _ _ _ _ Hb Ese) in Ho.
  destruct (stages o q bound epoch) as [[r live]|] eqn:Est.
  2: { injection Ho as ->. by rewrite (stages_structural _ _ _ _ _ Hg Est e eq_refl) in He. }
  apply finish_least with (m := m) in Ho; [|done].
  apply stages_agree with (src := src) in Est; [|done|unfold query_in_range; by rewrite Hg|done|];
    [|left; unfold grouped; by rewrite Hg].
  destruct Est as [_ _ _ Hl Hx]. unfold grouped in Hx. rewrite Hg in Hx. cbn [negb errs_rel] in Hx.
  destruct Hx as (errs & Ha & Hp & Hr & Hz).
  destruct (least_message _ _ _ Hl Ha Hp Hr Ho) as (m' & w & rest & Hm' & Hc).
  rewrite He in Hm'. injection Hm' as <-.
  rewrite plan_errs_distinct, <- (answer_over_proper _ _ _ _ _ (reflexivity _) Hz).
  unfold answer_over. by rewrite Hc.
Qed.
End laws.

(** ** Witnesses *)

Definition log_ints_ok (ds : list EpochDeltas) : bool :=
  forallb (fun d => forallb (fun p => forallb (fun e => forallb in_range e.1) p.2) (tables d)) ds.

Lemma log_ints_ok_spec ds : log_ints_ok ds = true -> log_in_range ds.
Proof.
  intros Hd t. unfold accumulate. apply Forall_flat_map, Forall_forall. intros d Hin.
  unfold log_ints_ok in Hd. rewrite forallb_forall in Hd. specialize (Hd d (proj1 (list_elem_of_In _ _) Hin)).
  unfold entries_for. destruct (bt_get t (tables d)) as [es|] eqn:Eg; [|constructor].
  apply bt_get_In in Eg. rewrite forallb_forall in Hd.
  specialize (Hd (t, es) (proj1 (list_elem_of_In _ _) Eg)). simpl in Hd.
  apply Forall_forall. intros e He. rewrite forallb_forall in Hd.
  specialize (Hd e (proj1 (list_elem_of_In _ _) He)). apply Forall_forall. intros v Hv.
  rewrite forallb_forall in Hd. apply Hd. by apply list_elem_of_In.
Qed.

Definition ex_tables : list (string * Schema) :=
  [("users"%string, mkSchema [mkField "id" Int64 false; mkField "name" Utf8 false]);
   ("orders"%string, mkSchema [mkField "id" Int64 false; mkField "amount" Int64 true])].

Definition ex_deltas (us os : Entries) : EpochDeltas := mkDeltas [("orders"%string, os); ("users"%string, us)].

(** Two users and their orders; an order is added, another retracted. *)
Definition ex_log : list EpochDeltas :=
  [ex_deltas [([VInt 1; VStr "ann"], 1); ([VInt 2; VStr "bob"], 1)]
             [([VInt 1; VInt 4], 1); ([VInt 2; VInt 9], 2)];
   ex_deltas [] [([VInt 1; VInt 7], 1); ([VInt 2; VNull], 1)];
   ex_deltas [] [([VInt 2; VInt 9], -1)]].

Definition ex_oracle : Oracle :=
  match Oracle_new ex_tables with Ok o => mkOracle (o_catalog o) ex_log | Err _ => mkOracle [] [] end.

Definition ex_source : Source := SJoin (Scan "users" "u") (Scan "orders" "o") [("u.id"%string, "o.id"%string)].

(** The total of each user's positive orders, when above 5. *)
Definition ex_query : Query :=
  mkQuery ex_source (Some (EBinary BGt (EColumn "o.amount") (ELiteral (VInt 0))))
    (Some (mkGroupBy [mkNamed "name"%string (EColumn "u.name")]
             [mkNamed "total"%string (Sum (EColumn "o.amount")); mkNamed "n"%string CountStar]
             (Some (EBinary BGt (EColumn "total") (ELiteral (VInt 5))))))
    (Some [mkNamed "name"%string (EColumn "name"); mkNamed "total"%string (EColumn "total")]) true.

(** Each order divided into 36; fails once an order of amount 0 joins. *)
Definition ex_div_query : Query :=
  mkQuery ex_source None None
    (Some [mkNamed "q"%string (EBinary BDiv (ELiteral (VInt 36)) (EColumn "o.amount"))]) false.

Definition ex_bad_log : list EpochDeltas :=
  ex_log ++ [ex_deltas [] [([VInt 1; VInt 0], 1)]].

Definition ex_bad_oracle : Oracle := mkOracle (o_catalog ex_oracle) ex_bad_log.

Definition compiled (q : Query) : CircuitPlan :=
  match incrementalize_typed q (o_catalog ex_oracle) with
  | Ok plan => plan
  | Err _ => mkPlan (CSource "" "" (mkSchema [])) (mkSchema [])
  end.

Definition running (plan : CircuitPlan) (ds : list EpochDeltas) : option (Circuit (AnyOp MemBackend)) :=
  match instantiate_with plan (mkMemFactory []) with
  | (_, Ok c0) =>
      match run c0 ds with
      | Ok c => if plan_small plan (mkMemFactory []) ds then Some c else None
      | Err _ => None
      end
  | (_, Err _) => None
  end.

Lemma running_maintains plan ds c : running plan ds = Some c -> maintains plan (mkMemFactory []) ds c.
Proof.
  unfold running, maintains. destruct (instantiate_with plan _) as [f' [c0|]]; [|done].
  destruct (run c0 ds) as [c'|] eqn:Er; [|done]. destruct (plan_small _ _ _); [|done].
  intros [= ->]. by exists f', c0.
Qed.

(** ** Where the laws stop *)

(** Two aggregates over one group, each failing on another row. *)
Definition ex_sums_query : Query :=
  mkQuery (Scan "orders" "o") None
    (Some (mkGroupBy []
             [mkNamed "a"%string (Sum (EBinary BDiv (ELiteral (VInt 36)) (EColumn "o.amount")));
              mkNamed "b"%string (Sum (EBinary BMul (ELiteral (VInt i64_max)) (EColumn "o.amount")))] None))
    None false.

Definition ex_sums_log : list EpochDeltas :=
  [ex_deltas [] [([VInt 1; VInt 0], 1); ([VInt 1; VInt 2], 1)]].

(** Where the error half of the oracle law stops.  The oracle leaves a group
    at the first aggregate that fails; the engine records the errors of every
    aggregate and row of the group.  With two failing aggregates the circuit
    reports the least of both messages and the oracle that of the first
    aggregate, although S-22c and I-1 ask both for the least message. *)
Theorem group_errors_diverge :
  match running (compiled ex_sums_query) ex_sums_log with
  | Some c => answer c = Err (LiveEvaluationError "arithmetic overflow in * (S-20)")
  | None => False
  end /\
  canonical_answer_at (mkOracle (o_catalog ex_oracle) ex_sums_log) ex_sums_query 1
    = Err (OrPlan (DivisionByZero "/")).
Proof. split; vm_compute; reflexivity. Qed.

Definition ex_constant_query : Query :=
  mkQuery ex_source None None (Some [mkNamed "one"%string (ELiteral (VInt 1))]) false.

Definition ex_heavy_log : list EpochDeltas :=
  [ex_deltas [([VInt 1; VStr "ann"], 1)] [([VInt 1; VInt 0], i64_max)]].

(** A step that fails is not undone.  The second order overflows the weight
    of the answer's only row, so the epoch is refused and the epoch counter and
    the answer stay; but the join has already indexed the order, so the circuit
    is not the one before the step, and sealing the epoch again counts it
    twice. *)
Theorem failed_step_keeps_operator_state :
  match running (compiled ex_constant_query) ex_heavy_log with
  | Some c =>
      match step c (ex_deltas [] [([VInt 1; VInt 5], 1)]) with
      | (c', Err _) => epoch c' = epoch c /\ answer c' = answer c /\
                       total_state_size c = 2%nat /\ total_state_size c' = 3%nat
      | (_, Ok _) => False
      end
  | None => False
  end.
Proof. vm_compute. repeat split; reflexivity. Qed.

Ltac get_running c H :=
  match goal with |- context [running ?p ?ds] =>
    destruct (running p ds) as [c|] eqn:H; [|vm_compute in H; discriminate H]
  end.

Lemma circuit_maintains_plan_witness :
  match running (compiled ex_query) ex_log with
  | Some c => answer c = Ok (mkCanonical (plan_output_schema (compiled ex_query))
                              [([VStr "ann"; VInt 11], 1); ([VStr "bob"; VInt 9], 1)])
  | None => False
  end.
Proof.
  get_running c Hc. rewrite (circuit_maintains_plan _ _ _ _ (running_maintains _ _ _ Hc)). vm_compute. reflexivity.
Defined.

(** The same contents in one epoch. *)
Definition ex_squashed : list EpochDeltas :=
  [ex_deltas [([VInt 1; VStr "ann"], 1); ([VInt 2; VStr "bob"], 1)]
             [([VInt 1; VInt 4], 1); ([VInt 2; VInt 9], 1); ([VInt 1; VInt 7], 1); ([VInt 2; VNull], 1)]].

Lemma ex_squashed_same t : accumulate ex_log t ≡z accumulate ex_squashed t.
Proof.
  unfold accumulate, ex_log, ex_squashed, ex_deltas, entries_for. cbn [flat_map tables bt_get].
  destruct (cmp_eqb t "orders"), (cmp_eqb t "users"); intros k; rewrite ?app_nil_r, ?weight_app; cbn [default weight fst from_option id];
    repeat match goal with |- context [cmp_eqb k ?x] => destruct (cmp_eqb k x) end; lia.
Qed.

Lemma answer_is_function_of_contents_witness :
  match running (compiled ex_query) ex_log, running (compiled ex_query) ex_squashed with
  | Some c, Some c' => answer c = answer c'
  | _, _ => False
  end.
Proof.
  get_running c Hc. get_running c' Hc'.
  exact (answer_is_function_of_contents _ _ _ _ _ _ _ (running_maintains _ _ _ Hc) (running_maintains _ _ _ Hc')
           ex_squashed_same).
Defined.

Lemma retraction_restores_answer_witness :
  match running (compiled ex_div_query) ex_log,
        running (compiled ex_div_query) (ex_log ++ [ex_deltas [] [([VInt 1; VInt 0], 1)];
                                                    retract (ex_deltas [] [([VInt 1; VInt 0], 1)])]) with
  | Some c, Some c' => answer c' = answer c
  | _, _ => False
  end.
Proof.
  get_running c Hc. get_running c' Hc'.
  exact (retraction_restores_answer _ _ _ _ _ _ _ (running_maintains _ _ _ Hc) (running_maintains _ _ _ Hc')).
Defined.

Lemma engine_agrees_with_oracle_witness :
  match running (compiled ex_query) ex_log, canonical_answer_at ex_oracle ex_query 3 with
  | Some c, Ok ans => answer c = Ok ans
  | _, _ => False
  end.
Proof.
  get_running c Hc. destruct (canonical_answer_at ex_oracle ex_query 3) as [ans|] eqn:Ha; [|vm_compute in Ha; discriminate Ha].
  apply (engine_agrees_with_oracle ex_oracle ex_query 3 (compiled ex_query) (mkMemFactory []) c ans).
  - apply log_ints_ok_spec. vm_compute. reflexivity.
  - vm_compute. reflexivity.
  - vm_compute. reflexivity.
  - exact (running_maintains _ _ _ Hc).
  - exact Ha.
Defined.

Lemma engine_reports_oracle_error_witness :
  match running (compiled ex_div_query) ex_bad_log with
  | Some c => answer c = Err (LiveEvaluationError "division by zero in / (S-21)")
  | None => False
  end.
Proof.
  get_running c Hc.
  apply (engine_reports_oracle_error ex_bad_oracle ex_div_query 4 (compiled ex_div_query) (mkMemFactory []) c
           (DivisionByZero "/")).
  - apply log_ints_ok_spec. vm_compute. reflexivity.
  - reflexivity.
  - vm_compute. reflexivity.
  - exact (running_maintains _ _ _ Hc).
  - vm_compute. reflexivity.
  - reflexivity.
Defined.
