(* ===== verification/Text.v ===== *)
(** * Text files

    The readable files of the engine (the log's pointer, a snapshot's manifest,
    the server's registry) are lines of text under a checksum.  This file has
    the operations on [str] they are parsed with, over UTF-8 bytes, and the laws
    that make parsing undo printing. *)

From Stdlib Require Import ZArith NArith Lia Ascii.
From stdpp Require Import base list strings pretty sets.
From S2P Require Import Prelude Codec.

Abbreviation text := (list N).

Definition tx : string -> text := string_bytes.

(** Membership in a closed text, by computation. *)
Ltac not_in := apply (bool_decide_unpack _); vm_compute; exact I.

(** Decide the equalities of literal strings. *)
Ltac decide_strings := repeat first [rewrite decide_True by reflexivity | rewrite decide_False by discriminate].

(** ** Operations *)

(** [str::strip_prefix] *)
Fixpoint strip_prefix (p t : text) : option text :=
  match p, t with
  | [], _ => Some t
  | a :: p', b :: t' => if (a =? b)%N then strip_prefix p' t' else None
  | _ :: _, [] => None
  end.

(** [str::starts_with], [str::ends_with] *)
Definition begins_with (p t : text) : bool := bool_decide (is_Some (strip_prefix p t)).
Definition ends_with (p t : text) : bool := begins_with (rev p) (rev t).

(** [str::split_once] at a character. *)
Fixpoint split_once (c : N) (t : text) : option (text * text) :=
  match t with
  | [] => None
  | b :: t' =>
      if (b =? c)%N then Some ([], t')
      else match split_once c t' with Some (l, r) => Some (b :: l, r) | None => None end
  end.

(** [str::rsplit_once] at a string. *)
Fixpoint rsplit_once (p t : text) : option (text * text) :=
  match t with
  | [] => match p with [] => Some ([], []) | _ => None end
  | b :: t' =>
      match rsplit_once p t' with
      | Some (l, r) => Some (b :: l, r)
      | None => match strip_prefix p t with Some r => Some ([], r) | None => None end
      end
  end.

(** [str::find] of a string, split there: what precedes it and what follows. *)
Fixpoint split_at_first (p t : text) : option (text * text) :=
  match strip_prefix p t with
  | Some r => Some ([], r)
  | None =>
      match t with
      | [] => None
      | b :: t' => match split_at_first p t' with Some (l, r) => Some (b :: l, r) | None => None end
      end
  end.

(** The end of a line: its [\r] goes with its [\n]. *)
Definition chop_cr (line : text) : text :=
  match last line with Some 13%N => removelast line | _ => line end.

(** [str::lines] *)
Fixpoint lines_from (line t : text) : list text :=
  match t with
  | [] => match line with [] => [] | _ => [line] end
  | b :: t' => if (b =? 10)%N then chop_cr line :: lines_from [] t' else lines_from (line ++ [b]) t'
  end.
Definition lines (t : text) : list text := lines_from [] t.

(** The white space of Unicode's White_Space property that takes three bytes. *)
Definition wide_space (b c d : N) : bool :=
  ((b =? 225) && (c =? 154) && (d =? 128) ||
   (b =? 226) && (c =? 128) && ((128 <=? d) && (d <=? 138) || (d =? 168) || (d =? 169) || (d =? 175)) ||
   (b =? 226) && (c =? 129) && (d =? 159) ||
   (b =? 227) && (c =? 128) && (d =? 128))%N.

(** How many bytes the white space at the head of a text takes, 0 if there is
    none.  A byte inside a character is never the first of a white space. *)
Definition ws_len (t : text) : nat :=
  match t with
  | [] => 0
  | b :: t' =>
      if ((9 <=? b) && (b <=? 13) || (b =? 32))%N then 1
      else
        match t' with
        | [] => 0
        | c :: t'' =>
            if ((b =? 194) && ((c =? 133) || (c =? 160)))%N then 2
            else match t'' with [] => 0 | d :: _ => if wide_space b c d then 3 else 0 end
        end
  end%nat.

(** Whether white space is all there is, [skip] bytes of which were seen. *)
Fixpoint blank_from (skip : nat) (t : text) : bool :=
  match t with
  | [] => true
  | _ :: t' =>
      match skip with
      | S k => blank_from k t'
      | O => match ws_len t with O => false | S k => blank_from k t' end
      end
  end.

(** [str::trim_end]: no white space starts inside a character. *)
Fixpoint trim_end (t : text) : text :=
  match t with [] => [] | b :: t' => if blank_from 0 t then [] else b :: trim_end t' end.

Fixpoint trim_start_from (skip : nat) (t : text) : text :=
  match t with
  | [] => []
  | _ :: t' =>
      match skip with
      | S k => trim_start_from k t'
      | O => match ws_len t with O => t | S k => trim_start_from k t' end
      end
  end.

(** [str::trim] *)
Definition trim (t : text) : text := trim_end (trim_start_from 0 t).

(** [str::split_whitespace] *)
Definition word_if (w : text) : list text := match w with [] => [] | _ => [w] end.

Fixpoint words_from (skip : nat) (w t : text) : list text :=
  match t with
  | [] => word_if w
  | b :: t' =>
      match skip with
      | S k => words_from k w t'
      | O => match ws_len t with O => words_from 0 (w ++ [b]) t' | S k => word_if w ++ words_from k [] t' end
      end
  end.
Definition split_whitespace (t : text) : list text := words_from 0 [] t.

(** ** Numbers *)

(** The digits of [from_str_radix], checked against [bound]. *)
Fixpoint parse_radix (radix bound acc : Z) (t : text) : option Z :=
  match t with
  | [] => Some acc
  | b :: t' =>
      let d := if ((48 <=? b) && (b <=? 57))%N then Z.of_N b - 48
               else if ((97 <=? b) && (b <=? 122))%N then Z.of_N b - 87
               else if ((65 <=? b) && (b <=? 90))%N then Z.of_N b - 55 else radix in
      if d <? radix then
        let acc := acc * radix + d in
        if acc <? bound then parse_radix radix bound acc t' else None
      else None
  end.

(** [from_str_radix] of an unsigned type below [bound]. *)
Definition from_str_radix (radix bound : Z) (t : text) : option Z :=
  match t with
  | [] | [43%N] => None
  | 43%N :: t' => parse_radix radix bound 0 t'
  | _ => parse_radix radix bound 0 t
  end.

Definition parse_u32_hex : text -> option Z := from_str_radix 16 (2 ^ 32).
Definition parse_dec : text -> option Z := from_str_radix 10 (2 ^ 64).
Definition parse_u32 : text -> option Z := from_str_radix 10 (2 ^ 32).

Definition hex_char (d : Z) : N := Z.to_N (if d <? 10 then 48 + d else 87 + d).

(** The [n] low hexadecimal digits, most significant first. *)
Fixpoint hex_digits (n : nat) (v : Z) : text :=
  match n with O => [] | S n' => hex_digits n' (v / 16) ++ [hex_char (v mod 16)] end.

(** [format!("{v:08x}")] of a [u32]; [{:016x}] of a [u64]. *)
Definition hex8 (v : Z) : text := hex_digits 8 v.
Definition hex16 (v : Z) : text := hex_digits 16 v.

(** [format!("{v}")] *)
Definition dec (v : Z) : text := tx (pretty (Z.to_N v)).

(** ** Laws *)

Lemma tx_app s t : tx (s +:+ t) = tx s ++ tx t.
Proof. induction s as [|c s IH]; [done|]. simpl. f_equal. exact IH. Qed.

Lemma bytes_string_tx s : bytes_string (tx s) = s.
Proof. apply bytes_string_bytes. Qed.

Lemma utf8_valid_app a b : utf8_valid a = true -> utf8_valid (a ++ b) = utf8_valid b.
Proof.
  revert a. assert (forall n a, (length a <= n)%nat -> utf8_valid a = true -> utf8_valid (a ++ b) = utf8_valid b) as H.
  2: { intros a. by apply (H (length a)). }
  induction n as [|n IH]; intros a Hn Ha; [by destruct a; simpl in Hn; [|lia]|].
  destruct a as [|b0 l0]; [done|]. cbn [utf8_valid app] in *. destruct (b0 <? 128)%N; [apply IH; [simpl in Hn; lia|done]|].
  destruct l0 as [|b1 l1]; [done|]. cbn [app].
  destruct ((194 <=? b0) && (b0 <=? 223))%N.
  { apply andb_true_iff in Ha as [-> Ha]. apply IH; [simpl in Hn; lia|done]. }
  destruct l1 as [|b2 l2]; [done|]. cbn [app]. destruct ((224 <=? b0) && (b0 <=? 239))%N.
  { apply andb_true_iff in Ha as [-> Ha]. apply IH; [simpl in Hn; lia|done]. }
  destruct l2 as [|b3 l3]; [done|]. cbn [app].
  apply andb_true_iff in Ha as [-> Ha]. apply IH; [simpl in Hn; lia|done].
Qed.

Lemma strip_prefix_app p t : strip_prefix p (p ++ t) = Some t.
Proof. induction p as [|a p IH]; [done|]. simpl. by rewrite N.eqb_refl. Qed.

Lemma strip_prefix_Some p t r : strip_prefix p t = Some r -> t = p ++ r.
Proof.
  revert t. induction p as [|a p IH]; intros t; simpl; [congruence|]. destruct t as [|b t]; [done|].
  destruct (N.eqb_spec a b) as [->|]; [|done]. intros ->%IH. done.
Qed.

Lemma begins_with_app p t : begins_with p (p ++ t) = true.
Proof. unfold begins_with. by rewrite strip_prefix_app. Qed.

Lemma begins_with_Some p t : begins_with p t = true -> exists r, t = p ++ r.
Proof. unfold begins_with. intros [r Hr]%bool_decide_eq_true. exists r. by apply strip_prefix_Some. Qed.

Lemma ends_with_app p t : ends_with p (t ++ p) = true.
Proof. unfold ends_with. rewrite rev_app_distr. apply begins_with_app. Qed.

Lemma ends_with_Some p t : ends_with p t = true -> exists r, t = r ++ p.
Proof.
  intros [r Hr]%begins_with_Some. exists (rev r). apply (f_equal (@rev N)) in Hr.
  by rewrite rev_involutive, rev_app_distr, rev_involutive in Hr.
Qed.

Lemma split_once_app c l r : c ∉ l -> split_once c (l ++ c :: r) = Some (l, r).
Proof.
  induction l as [|b l IH]; intros Hc; simpl.
  - by rewrite N.eqb_refl.
  - apply not_elem_of_cons in Hc as [Hb Hc]. rewrite (proj2 (N.eqb_neq _ _)) by congruence. by rewrite IH.
Qed.

(** The first occurrence of a byte is one place. *)
Lemma cut_unique (c : N) a b x y : c ∉ a -> c ∉ b -> a ++ c :: x = b ++ c :: y -> a = b /\ x = y.
Proof.
  intros Ha Hb E. apply (f_equal (split_once c)) in E. rewrite !split_once_app in E by done. by injection E.
Qed.

Lemma rsplit_once_None p c t : c ∈ p -> c ∉ t -> rsplit_once p t = None.
Proof.
  intros Hp. induction t as [|b t IH]; intros Ht; simpl.
  - destruct p; [by apply elem_of_nil in Hp|done].
  - assert (c ∉ t) as Ht' by set_solver. rewrite (IH Ht').
    destruct (strip_prefix p (b :: t)) eqn:E; [|done]. apply strip_prefix_Some in E. rewrite E in Ht. set_solver.
Qed.

Lemma rsplit_once_short c s p r :
  c ∉ s -> c ∉ p -> c ∉ r -> (length s < length p)%nat -> rsplit_once (p ++ [c]) (s ++ c :: r) = None.
Proof.
  intros Hs Hp Hr. induction s as [|b s IH]; intros Hl; cbn [app rsplit_once].
  - rewrite (rsplit_once_None _ c) by (done || set_solver). destruct (strip_prefix _ _) eqn:E; [|done].
    apply strip_prefix_Some in E. rewrite <- app_assoc in E.
    destruct (cut_unique c [] p r l) as [<- _]; [set_solver|done|done|simpl in Hl; lia].
  - rewrite IH by (set_solver || (simpl in Hl; lia)). destruct (strip_prefix _ _) eqn:E; [|done].
    apply strip_prefix_Some in E. rewrite <- app_assoc in E.
    destruct (cut_unique c (b :: s) p r l) as [<- _]; [done|done|done|simpl in Hl; lia].
Qed.

(** A tag that ends in a byte found nowhere else in it nor after it. *)
Lemma rsplit_once_app c l p r :
  c ∉ p -> c ∉ r -> rsplit_once (p ++ [c]) (l ++ (p ++ [c]) ++ r) = Some (l, r).
Proof.
  intros Hp Hr. induction l as [|b l IH].
  - rewrite app_nil_l. destruct p as [|b p]; cbn [app rsplit_once].
    + rewrite (rsplit_once_None _ c) by (done || set_solver). simpl. by rewrite N.eqb_refl.
    + rewrite <- app_assoc. cbn [app].
      change (b :: p ++ [c]) with ((b :: p) ++ [c]). rewrite rsplit_once_short by (set_solver || (simpl; lia)).
      change (b :: p ++ c :: r) with ((b :: p) ++ [c] ++ r). by rewrite app_assoc, strip_prefix_app.
  - cbn [app rsplit_once]. by rewrite IH.
Qed.

(** ** Lines *)

Definition line (t : text) : text := t ++ [10%N].

(** A text that is one line and comes back from [lines] as it is. *)
Definition one_line (t : text) : bool :=
  forallb (fun b => negb (b =? 10)%N) t && match last t with Some 13%N => false | _ => true end.

Lemma lines_from_line l t : forall acc,
  forallb (fun b => negb (b =? 10)%N) l = true -> lines_from acc (line l ++ t) = chop_cr (acc ++ l) :: lines t.
Proof.
  unfold line. induction l as [|b l IH]; intros acc Hl; cbn [app lines_from].
  - simpl. by rewrite app_nil_r.
  - simpl in Hl. apply andb_true_iff in Hl as [Hb Hl]. apply negb_true_iff in Hb. rewrite Hb.
    rewrite IH by done. by rewrite <- app_assoc.
Qed.

Lemma lines_line l t : one_line l = true -> lines (line l ++ t) = l :: lines t.
Proof.
  intros [Hl Hc]%andb_true_iff. unfold lines at 1. rewrite lines_from_line by done. simpl. f_equal. unfold chop_cr.
  destruct (last l) as [[|p]|]; [done| |done]. do 4 (destruct p as [p|p|]; try done).
Qed.

Lemma lines_flat ls : forallb one_line ls = true -> lines (flat_map line ls) = ls.
Proof.
  induction ls as [|l ls IH]; simpl; [done|]. intros [Hl Hls]%andb_true_iff. by rewrite lines_line, IH.
Qed.

(** ** Visible ASCII *)

Definition visible (b : N) : bool := ((33 <=? b) && (b <=? 126))%N.
Definition plain (t : text) : bool := forallb visible t.

Lemma visible_range b : visible b = true <-> (33 <= b <= 126)%N.
Proof. unfold visible. by rewrite andb_true_iff, !N.leb_le. Qed.

Lemma plain_app a b : plain (a ++ b) = plain a && plain b.
Proof. apply forallb_app. Qed.

Lemma plain_utf8 t : plain t = true -> utf8_valid t = true.
Proof.
  induction t as [|b t IH]; simpl; [done|]. intros [Hb%visible_range Ht]%andb_true_iff.
  rewrite (proj2 (N.ltb_lt _ _)) by lia. auto.
Qed.

Lemma plain_not_in c t : plain t = true -> visible c = false -> c ∉ t.
Proof.
  intros Ht Hc Hin. unfold plain in Ht. rewrite forallb_forall in Ht. specialize (Ht c (proj1 (list_elem_of_In _ _) Hin)).
  congruence.
Qed.

Lemma plain_no_newline t : plain t = true -> forallb (fun b => negb (b =? 10)%N) t = true.
Proof.
  unfold plain. rewrite !forallb_forall. intros H b Hb. apply H, visible_range in Hb.
  apply negb_true_iff, N.eqb_neq. lia.
Qed.

Lemma one_line_plain t : plain t = true -> one_line t = true.
Proof.
  intros Ht. unfold one_line. rewrite plain_no_newline by done. simpl. destruct (last t) as [b|] eqn:E; [|done].
  apply last_Some_elem_of in E. destruct (decide (b = 13%N)) as [->|Hb].
  - exfalso. by eapply plain_not_in; [exact Ht| |exact E].
  - destruct b as [|p]; [done|]. do 4 (destruct p as [p|p|]; try done).
Qed.

(** A line may start with anything that is on one line. *)
Lemma one_line_app a b : forallb (fun b => negb (b =? 10)%N) a = true -> b <> [] -> one_line b = true -> one_line (a ++ b) = true.
Proof.
  unfold one_line. intros Ha Hb [Hn Hl]%andb_true_iff. rewrite forallb_app, Ha, Hn. simpl.
  destruct (last b) as [x|] eqn:E; [|by apply last_None in E]. rewrite last_app, E. done.
Qed.

Lemma eqb_out c b : (c < 33 \/ 126 < c)%N -> visible b = true -> (b =? c)%N = false.
Proof. intros Hc Hb%visible_range. apply N.eqb_neq. lia. Qed.

Lemma ws_len_visible b t : visible b = true -> ws_len (b :: t) = 0%nat.
Proof.
  intros Hb. cbn [ws_len]. unfold wide_space. rewrite !(eqb_out _ b) by (done || lia). apply visible_range in Hb.
  rewrite (proj2 (N.leb_gt b 13)), andb_false_r by lia. cbn [andb orb]. by destruct t as [|c [|d t]].
Qed.

Lemma trim_plain_line t : plain t = true -> trim (line t) = t.
Proof.
  intros Ht. unfold trim. assert (forall t, plain t = true -> trim_end (line t) = t) as He.
  { clear. induction t as [|b t IH]; intros Ht; [done|]. simpl in Ht. apply andb_true_iff in Ht as [Hb Ht].
    unfold line. cbn [app trim_end blank_from]. rewrite ws_len_visible by done. f_equal. by apply IH. }
  destruct t as [|b t]; [done|]. simpl in Ht. apply andb_true_iff in Ht as [Hb Ht].
  unfold line. cbn [app trim_start_from]. rewrite ws_len_visible by done. apply (He (b :: t)). simpl. by rewrite Hb.
Qed.

Lemma trim_plain t : plain t = true -> trim t = t.
Proof.
  intros Ht. unfold trim. assert (forall t, plain t = true -> trim_end t = t) as He.
  { clear. induction t as [|b t IH]; intros Ht; [done|]. simpl in Ht. apply andb_true_iff in Ht as [Hb Ht].
    cbn [trim_end blank_from]. rewrite ws_len_visible by done. f_equal. by apply IH. }
  destruct t as [|b t]; [done|]. pose proof Ht as Ht'. simpl in Ht. apply andb_true_iff in Ht as [Hb Ht].
  cbn [trim_start_from]. rewrite ws_len_visible by done. by apply He.
Qed.

(** ** Numbers *)

Lemma parse_radix_digit radix bound acc b t d :
  0 <= d < radix ->
  ((48 <= b <= 57)%N /\ Z.of_N b - 48 = d) \/ ((97 <= b <= 122)%N /\ Z.of_N b - 87 = d) ->
  acc * radix + d < bound -> parse_radix radix bound acc (b :: t) = parse_radix radix bound (acc * radix + d) t.
Proof.
  intros Hd Hb Hlt. cbn [parse_radix]. destruct Hb as [[Hr <-]|[Hr <-]].
  - rewrite (proj2 (N.leb_le 48 b)), (proj2 (N.leb_le b 57)) by lia. cbn [andb].
    by rewrite (proj2 (Z.ltb_lt (Z.of_N b - 48) radix)), (proj2 (Z.ltb_lt _ bound)) by lia.
  - rewrite (proj2 (N.leb_gt b 57)), andb_false_r by lia.
    rewrite (proj2 (N.leb_le 97 b)), (proj2 (N.leb_le b 122)) by lia. cbn [andb].
    by rewrite (proj2 (Z.ltb_lt (Z.of_N b - 87) radix)), (proj2 (Z.ltb_lt _ bound)) by lia.
Qed.

Lemma hex_char_ok d : 0 <= d < 16 ->
  visible (hex_char d) = true /\
  (((48 <= hex_char d <= 57)%N /\ Z.of_N (hex_char d) - 48 = d) \/ ((97 <= hex_char d <= 122)%N /\ Z.of_N (hex_char d) - 87 = d)).
Proof.
  intros Hd. unfold hex_char. rewrite visible_range. destruct (Z.ltb_spec d 10); lia.
Qed.

Lemma hex_digits_plain n v : plain (hex_digits n v) = true.
Proof.
  revert v. induction n as [|n IH]; intros v; [done|]. cbn [hex_digits]. rewrite plain_app, IH. simpl.
  rewrite andb_true_r. apply hex_char_ok. by apply Z.mod_pos_bound.
Qed.

Lemma parse_hex_digits n bound v t :
  0 <= v < 16 ^ Z.of_nat n -> v < bound ->
  parse_radix 16 bound 0 (hex_digits n v ++ t) = parse_radix 16 bound v t.
Proof.
  revert v t. induction n as [|n IH]; intros v t Hv Hb.
  - replace v with 0 by (simpl in Hv; lia). done.
  - cbn [hex_digits]. rewrite <- app_assoc. cbn [app].
    pose proof (Z.mod_pos_bound v 16 ltac:(done)) as Hm. pose proof (Z.div_mod v 16 ltac:(done)) as Hdm.
    replace (Z.of_nat (S n)) with (Z.of_nat n + 1) in Hv by lia. rewrite Z.pow_add_r in Hv by lia.
    assert (0 <= v / 16 < 16 ^ Z.of_nat n) by (split; [apply Z.div_pos; lia|apply Z.div_lt_upper_bound; lia]).
    rewrite IH by lia.
    destruct (hex_char_ok (v mod 16) Hm) as [Hvis Hval].
    rewrite (parse_radix_digit 16 bound _ _ _ (v mod 16)) by (done || lia). f_equal. lia.
Qed.

Lemma from_str_radix_plain radix bound b t :
  b <> 43%N -> from_str_radix radix bound (b :: t) = parse_radix radix bound 0 (b :: t).
Proof.
  intros Hb. unfold from_str_radix. destruct b as [|p]; [done|]. by do 6 (destruct p as [p|p|]; try done).
Qed.

Lemma hex_digits_head n v : exists b t, hex_digits (S n) v = b :: t /\ b <> 43%N.
Proof.
  revert v. induction n as [|n IH]; intros v.
  - exists (hex_char (v mod 16)), []. split; [done|]. pose proof (Z.mod_pos_bound v 16 ltac:(done)) as Hm.
    destruct (hex_char_ok _ Hm) as [_ [[? _]|[? _]]]; lia.
  - cbn [hex_digits]. destruct (IH (v / 16)) as (b & t & E & Hb). cbn [hex_digits] in E. rewrite E.
    eexists b, _. by split.
Qed.

Lemma from_str_radix_hex n bound v :
  0 <= v < 16 ^ Z.of_nat (S n) -> v < bound -> from_str_radix 16 bound (hex_digits (S n) v) = Some v.
Proof.
  intros Hv Hb. destruct (hex_digits_head n v) as (b & t & E & Hne).
  rewrite E, from_str_radix_plain, <- E by done. rewrite <- (app_nil_r (hex_digits (S n) v)).
  by rewrite parse_hex_digits.
Qed.

Lemma parse_hex8 v : 0 <= v < 2 ^ 32 -> parse_u32_hex (hex8 v) = Some v.
Proof. intros Hv. unfold parse_u32_hex, hex8. apply from_str_radix_hex; lia. Qed.

Lemma parse_hex16 v : 0 <= v < 2 ^ 64 -> from_str_radix 16 (2 ^ 64) (hex16 v) = Some v.
Proof. intros Hv. unfold hex16. apply from_str_radix_hex; lia. Qed.

Lemma pretty_char_ok n : (n < 10)%N ->
  let b := N_of_ascii (pretty_N_char n) in (48 <= b <= 57)%N /\ Z.of_N b - 48 = Z.of_N n.
Proof.
  intros Hn. assert (n = 0 \/ n = 1 \/ n = 2 \/ n = 3 \/ n = 4 \/ n = 5 \/ n = 6 \/ n = 7 \/ n = 8 \/ n = 9)%N as H by lia.
  repeat destruct H as [->|H]; [..|subst]; vm_compute; intuition congruence.
Qed.

Lemma parse_pretty_go n : forall bound s, Z.of_N n < bound ->
  parse_radix 10 bound 0 (tx (pretty_N_go n s)) = parse_radix 10 bound (Z.of_N n) (tx s).
Proof.
  induction (N.lt_wf_0 n) as [n _ IH]. intros bound s Hb. destruct (decide (n = 0%N)) as [->|Hn]; [done|].
  rewrite pretty_N_go_step by lia. pose proof (N.mod_lt n 10 ltac:(done)) as Hm. pose proof (N.div_mod n 10 ltac:(done)) as Hdm.
  assert (n / 10 < n)%N as Hlt by (apply N.div_lt; lia).
  rewrite IH by (exact Hlt || lia). destruct (pretty_char_ok _ Hm) as [Hr Hv].
  change (tx (String ?c s)) with (N_of_ascii c :: tx s).
  rewrite (parse_radix_digit 10 bound _ _ _ (Z.of_N (n mod 10))); [|lia|by left|lia].
  f_equal. lia.
Qed.

Lemma pretty_go_plain n : forall s, plain (tx s) = true -> plain (tx (pretty_N_go n s)) = true.
Proof.
  induction (N.lt_wf_0 n) as [n _ IH]. intros s Hs. destruct (decide (n = 0%N)) as [->|Hn]; [done|].
  rewrite pretty_N_go_step by lia. apply IH; [apply N.div_lt; lia|].
  destruct (pretty_char_ok (n mod 10) (N.mod_lt n 10 ltac:(done))) as [Hr _].
  change (tx (String ?c s)) with (N_of_ascii c :: tx s). cbn [plain forallb].
  rewrite (proj2 (visible_range _)) by lia. done.
Qed.

Lemma pretty_go_head n : forall s, n <> 0%N -> exists b t, tx (pretty_N_go n s) = b :: t /\ b <> 43%N.
Proof.
  induction (N.lt_wf_0 n) as [n _ IH]. intros s Hn. rewrite pretty_N_go_step by lia.
  destruct (decide (n / 10 = 0)%N) as [->|Hd]; [|apply IH; [apply N.div_lt; lia|done]].
  destruct (pretty_char_ok (n mod 10) (N.mod_lt n 10 ltac:(done))) as [Hr _].
  eexists _, _. split; [reflexivity|]. lia.
Qed.

Lemma dec_plain v : plain (dec v) = true.
Proof.
  unfold dec, pretty, pretty_N. destruct (decide _); [done|]. by apply pretty_go_plain.
Qed.

Lemma from_str_radix_dec bound v : 0 <= v < bound -> from_str_radix 10 bound (dec v) = Some v.
Proof.
  intros Hv. unfold dec, pretty, pretty_N. destruct (decide (Z.to_N v = 0%N)) as [E|E].
  - replace v with 0 by lia. unfold from_str_radix. simpl. rewrite (proj2 (Z.ltb_lt _ _)) by lia. done.
  - destruct (pretty_go_head _ EmptyString E) as (b & t & Ht & Hb).
    rewrite Ht, from_str_radix_plain, <- Ht by done. rewrite parse_pretty_go by lia. simpl. f_equal. lia.
Qed.

Lemma parse_dec_dec v : 0 <= v < 2 ^ 64 -> parse_dec (dec v) = Some v.
Proof. apply from_str_radix_dec. Qed.

Lemma parse_u32_dec v : 0 <= v < 2 ^ 32 -> parse_u32 (dec v) = Some v.
Proof. apply from_str_radix_dec. Qed.

Lemma dec_nonempty v : dec v <> [].
Proof.
  unfold dec, pretty, pretty_N. destruct (decide (Z.to_N v = 0%N)) as [E|E]; [done|].
  destruct (pretty_go_head _ EmptyString E) as (b & t & -> & Hb). done.
Qed.

(** ** Words *)

(** A text no white space is in. *)
Fixpoint spaceless (t : text) : bool :=
  match t with [] => true | _ :: t' => (ws_len t =? 0)%nat && spaceless t' end.

Definition ascii_head (t : text) : bool := match t with [] => true | b :: _ => (b <? 128)%N end.

Lemma ws_len_app t r : t <> [] -> ascii_head r = true -> ws_len t = 0%nat -> ws_len (t ++ r) = 0%nat.
Proof.
  intros Ht Hr. destruct t as [|b [|c [|d t]]]; [done|..]; cbn [app ws_len].
  - destruct (_ || _)%bool; [done|]. destruct r as [|c r]; [done|]. simpl in Hr. apply N.ltb_lt in Hr. intros _.
    unfold wide_space. rewrite (proj2 (N.eqb_neq c 133)), (proj2 (N.eqb_neq c 160)), (proj2 (N.eqb_neq c 154)),
      (proj2 (N.eqb_neq c 128)), (proj2 (N.eqb_neq c 129)) by lia.
    rewrite !andb_false_r. cbn [orb andb]. by destruct r.
  - destruct (_ || _)%bool; [done|]. destruct (_ && _)%bool; [done|]. destruct r as [|d r]; [done|].
    simpl in Hr. apply N.ltb_lt in Hr. intros _. unfold wide_space.
    rewrite (proj2 (N.eqb_neq d 128)), (proj2 (N.leb_gt 128 d)), (proj2 (N.eqb_neq d 168)), (proj2 (N.eqb_neq d 169)),
      (proj2 (N.eqb_neq d 175)), (proj2 (N.eqb_neq d 159)) by lia. by rewrite !andb_false_r.
  - done.
Qed.

Lemma words_from_word w t : forall acc,
  spaceless w = true -> ascii_head t = true -> words_from 0 acc (w ++ t) = words_from 0 (acc ++ w) t.
Proof.
  induction w as [|b w IH]; intros acc Hw Ht; [by rewrite app_nil_r|].
  cbn [spaceless] in Hw. apply andb_true_iff in Hw as [Hb%Nat.eqb_eq Hw].
  pose proof (ws_len_app (b :: w) t ltac:(done) Ht Hb) as E. cbn [app] in E |- *. cbn [words_from]. rewrite E.
  rewrite IH by done. by rewrite <- app_assoc.
Qed.

Lemma split_whitespace_word w t :
  spaceless w = true -> w <> [] -> split_whitespace (w ++ 32%N :: t) = w :: split_whitespace t.
Proof.
  intros Hw Hne. unfold split_whitespace. rewrite words_from_word by done. simpl. by destruct w.
Qed.

Lemma split_whitespace_last w : spaceless w = true -> w <> [] -> split_whitespace w = [w].
Proof.
  intros Hw Hne. unfold split_whitespace. rewrite <- (app_nil_r w) at 1. rewrite words_from_word by done. by destruct w.
Qed.

Lemma spaceless_plain_app a t : plain a = true -> spaceless t = true -> spaceless (a ++ t) = true.
Proof.
  intros Ha Ht. induction a as [|b a IH]; [done|]. simpl in Ha. apply andb_true_iff in Ha as [Hb Ha].
  cbn [app spaceless]. rewrite ws_len_visible by done. by apply IH.
Qed.

Lemma spaceless_plain t : plain t = true -> spaceless t = true.
Proof. intros Ht. rewrite <- (app_nil_r t). by apply spaceless_plain_app. Qed.

Lemma spaceless_no_newline t : spaceless t = true -> forallb (fun b => negb (b =? 10)%N) t = true.
Proof.
  induction t as [|b t IH]; [done|]. cbn [spaceless forallb]. intros [Hb%Nat.eqb_eq Ht]%andb_true_iff.
  rewrite (IH Ht), andb_true_r. apply negb_true_iff, N.eqb_neq. intros ->. done.
Qed.

(** ** Tagged lines and checksums *)

Lemma hex_digits_no_tag n v : 61%N ∉ hex_digits n v.
Proof.
  revert v. induction n as [|n IH]; intros v; cbn [hex_digits]; [apply not_elem_of_nil|].
  apply not_elem_of_app. split; [apply IH|]. intros E%list_elem_of_singleton.
  destruct (hex_char_ok (v mod 16) (Z.mod_pos_bound v 16 ltac:(done))) as [_ [[H _]|[H _]]]; lia.
Qed.

(** A body under its checksum: [body ++ tag ++ crc], where the tag ends in [=]. *)
Lemma checksum_parts p body v :
  61%N ∉ p -> 0 <= v < 2 ^ 32 ->
  rsplit_once (p ++ [61%N]) (body ++ (p ++ [61%N]) ++ line (hex8 v)) = Some (body, line (hex8 v)) /\
  parse_u32_hex (trim (line (hex8 v))) = Some v.
Proof.
  intros Hp Hv. split.
  - apply rsplit_once_app; [done|]. apply not_elem_of_app. split; [apply hex_digits_no_tag|]. by intros E%list_elem_of_singleton.
  - rewrite trim_plain_line by apply hex_digits_plain. by apply parse_hex8.
Qed.

Lemma line_utf8 t : utf8_valid t = true -> utf8_valid (line t) = true.
Proof. intros Ht. unfold line. by rewrite utf8_valid_app. Qed.

Lemma flat_lines_utf8 ls : forallb utf8_valid ls = true -> utf8_valid (flat_map line ls) = true.
Proof.
  induction ls as [|l ls IH]; simpl; [done|]. intros [Hl Hls]%andb_true_iff.
  rewrite utf8_valid_app; [by apply IH|by apply line_utf8].
Qed.

(** [key=value] on one line. *)
Lemma one_line_key k v : plain k = true -> one_line v = true -> one_line (k ++ v) = true.
Proof.
  intros Hk Hv. destruct v as [|b v]; [rewrite app_nil_r; by apply one_line_plain|].
  by apply one_line_app; [apply plain_no_newline| |].
Qed.

Lemma utf8_key k v : plain k = true -> utf8_valid v = true -> utf8_valid (k ++ v) = true.
Proof. intros Hk Hv. by rewrite utf8_valid_app by by apply plain_utf8. Qed.

(** ** Digits *)

Definition digit (b : N) : bool := ((48 <=? b) && (b <=? 57))%N.

Lemma digit_range b : digit b = true <-> (48 <= b <= 57)%N.
Proof. unfold digit. by rewrite andb_true_iff, !N.leb_le. Qed.

Lemma pretty_go_digits n : forall s, forallb digit (tx s) = true -> forallb digit (tx (pretty_N_go n s)) = true.
Proof.
  induction (N.lt_wf_0 n) as [n _ IH]. intros s Hs. destruct (decide (n = 0%N)) as [->|Hn]; [done|].
  rewrite pretty_N_go_step by lia. apply IH; [apply N.div_lt; lia|].
  destruct (pretty_char_ok (n mod 10) (N.mod_lt n 10 ltac:(done))) as [Hr _].
  change (tx (String ?c s)) with (N_of_ascii c :: tx s). cbn [forallb]. by rewrite (proj2 (digit_range _)) by lia.
Qed.

Lemma pretty_digits (n : N) : forallb digit (tx (pretty n)) = true.
Proof. unfold pretty, pretty_N. destruct (decide _); [done|]. by apply pretty_go_digits. Qed.

Lemma parse_radix_dec v : 0 <= v < 2 ^ 64 -> parse_radix 10 (2 ^ 64) 0 (tx (pretty (Z.to_N v))) = Some v.
Proof.
  intros Hv. unfold pretty, pretty_N. destruct (decide (Z.to_N v = 0%N)) as [E|E].
  - by replace v with 0 by lia.
  - rewrite parse_pretty_go by lia. simpl. f_equal. lia.
Qed.

(** Digits are read the same behind zeros. *)
Lemma parse_zeros k v : 0 <= v < 2 ^ 64 -> parse_dec (repeat 48%N k ++ tx (pretty (Z.to_N v))) = Some v.
Proof.
  intros Hv. destruct k as [|k]; [by apply parse_dec_dec|]. unfold parse_dec. cbn [repeat app].
  rewrite from_str_radix_plain by done.
  assert (forall k, parse_radix 10 (2 ^ 64) 0 (repeat 48%N k ++ tx (pretty (Z.to_N v))) = Some v) as H; [|apply (H (S k))].
  clear k. induction k as [|k IH]; [by apply parse_radix_dec|]. cbn [repeat app].
  rewrite (parse_radix_digit 10 (2 ^ 64) 0 48%N _ 0); [done|lia|left; lia|lia].
Qed.
