(* ===== verification/LogRecord.v ===== *)
(** * Crash seams ([schweep-log]: fault.rs)

    The named instants at which the crash harness stops a process, and the
    injector that counts them and fires once.  The inert injector is the
    production configuration.

    Its later part: the log's record format ([schweep-log]: record.rs,
    dedup.rs). *)

From Stdlib Require Import ZArith NArith Lia.
From stdpp Require Import base list strings.
From S2P Require Import Prelude BTree Value ZSet Codec.

Inductive Seam :=
| AckBeforeValidate
| AckBeforeAppend
| AckAfterAppendBeforeFsync
| AckAfterFsyncBeforeIndex
| AckAfterFsyncBeforeAck
| SealBeforeRecord
| SealAfterRecordBeforeFsync
| SealAfterFsyncBeforeStep
| SealAfterStepBeforeCounter
| CheckpointBeforeStateFlush
| CheckpointAfterStateFlushBeforeFsync
| CheckpointAfterFsyncBeforeManifest
| CheckpointAfterManifestBeforePublish
| CheckpointAfterPublishBeforeCurrent
| CheckpointAfterCurrentBeforeTrim
| CheckpointAfterTrimBeforeCleanup
| CompactBeforeSnapshot
| CompactAfterWriteBeforeFsync
| CompactAfterFsyncBeforeManifest
| CompactAfterManifestBeforePublish
| CompactAfterPublishBeforeSegment
| CompactAfterSegmentBeforePointer
| CompactAfterPointerBeforeTrim
| CompactAfterTrimBeforeCleanup
| RecoveryAfterCheckpointBeforeReplay
| RecoveryMidReplay.

#[export] Instance Seam_eq_dec : EqDecision Seam.
Proof. solve_decision. Defined.

Definition seam_all : list Seam :=
  [AckBeforeValidate; AckBeforeAppend; AckAfterAppendBeforeFsync; AckAfterFsyncBeforeIndex;
   AckAfterFsyncBeforeAck; SealBeforeRecord; SealAfterRecordBeforeFsync; SealAfterFsyncBeforeStep;
   SealAfterStepBeforeCounter; CheckpointBeforeStateFlush; CheckpointAfterStateFlushBeforeFsync;
   CheckpointAfterFsyncBeforeManifest; CheckpointAfterManifestBeforePublish;
   CheckpointAfterPublishBeforeCurrent; CheckpointAfterCurrentBeforeTrim;
   CheckpointAfterTrimBeforeCleanup; CompactBeforeSnapshot; CompactAfterWriteBeforeFsync;
   CompactAfterFsyncBeforeManifest; CompactAfterManifestBeforePublish;
   CompactAfterPublishBeforeSegment; CompactAfterSegmentBeforePointer; CompactAfterPointerBeforeTrim;
   CompactAfterTrimBeforeCleanup; RecoveryAfterCheckpointBeforeReplay; RecoveryMidReplay].

Definition seam_name (s : Seam) : string :=
  match s with
  | AckBeforeValidate => "AckBeforeValidate"
  | AckBeforeAppend => "AckBeforeAppend"
  | AckAfterAppendBeforeFsync => "AckAfterAppendBeforeFsync"
  | AckAfterFsyncBeforeIndex => "AckAfterFsyncBeforeIndex"
  | AckAfterFsyncBeforeAck => "AckAfterFsyncBeforeAck"
  | SealBeforeRecord => "SealBeforeRecord"
  | SealAfterRecordBeforeFsync => "SealAfterRecordBeforeFsync"
  | SealAfterFsyncBeforeStep => "SealAfterFsyncBeforeStep"
  | SealAfterStepBeforeCounter => "SealAfterStepBeforeCounter"
  | CheckpointBeforeStateFlush => "CheckpointBeforeStateFlush"
  | CheckpointAfterStateFlushBeforeFsync => "CheckpointAfterStateFlushBeforeFsync"
  | CheckpointAfterFsyncBeforeManifest => "CheckpointAfterFsyncBeforeManifest"
  | CheckpointAfterManifestBeforePublish => "CheckpointAfterManifestBeforePublish"
  | CheckpointAfterPublishBeforeCurrent => "CheckpointAfterPublishBeforeCurrent"
  | CheckpointAfterCurrentBeforeTrim => "CheckpointAfterCurrentBeforeTrim"
  | CheckpointAfterTrimBeforeCleanup => "CheckpointAfterTrimBeforeCleanup"
  | CompactBeforeSnapshot => "CompactBeforeSnapshot"
  | CompactAfterWriteBeforeFsync => "CompactAfterWriteBeforeFsync"
  | CompactAfterFsyncBeforeManifest => "CompactAfterFsyncBeforeManifest"
  | CompactAfterManifestBeforePublish => "CompactAfterManifestBeforePublish"
  | CompactAfterPublishBeforeSegment => "CompactAfterPublishBeforeSegment"
  | CompactAfterSegmentBeforePointer => "CompactAfterSegmentBeforePointer"
  | CompactAfterPointerBeforeTrim => "CompactAfterPointerBeforeTrim"
  | CompactAfterTrimBeforeCleanup => "CompactAfterTrimBeforeCleanup"
  | RecoveryAfterCheckpointBeforeReplay => "RecoveryAfterCheckpointBeforeReplay"
  | RecoveryMidReplay => "RecoveryMidReplay"
  end%string.

(** The derived order: declaration order. *)
Definition seam_index (s : Seam) : Z := default 0 ((fun p => Z.of_nat p.1) <$> list_find (eq s) seam_all).
#[export] Instance seam_cmp : Cmp Seam := fun a b => cmp (seam_index a) (seam_index b).

#[export] Instance seam_total_order : LinearCmp Seam.
Proof.
  apply (linear_cmp_via seam_index); [|done]. intros a b. destruct a, b; vm_compute; congruence || discriminate.
Qed.

Record FaultPlan := mkFaultPlan { plan_seam : Seam; occurrence : Z }.

Record FaultInjector := mkInjector {
  fault_plan : option FaultPlan;
  seen : btree Seam Z;
  fired : option Seam;
  reached_seams : btree Seam unit
}.

Definition inert : FaultInjector := mkInjector None bt_empty None bt_empty.
Definition planned (plan : FaultPlan) : FaultInjector := mkInjector (Some plan) bt_empty None bt_empty.

Definition reached (f : FaultInjector) (seam : Seam) : FaultInjector * bool :=
  let reached' := bt_insert seam tt (reached_seams f) in
  let count := (default 0 (bt_get seam (seen f)) + 1) mod 2 ^ 32 in
  let seen' := bt_insert seam count (seen f) in
  match fault_plan f with
  | Some plan =>
      if bool_decide (plan_seam plan = seam) && (occurrence plan =? count)
      then (mkInjector (fault_plan f) seen' (Some seam) reached', true)
      else (mkInjector (fault_plan f) seen' (fired f) reached', false)
  | None => (mkInjector (fault_plan f) seen' (fired f) reached', false)
  end.

(** Without a plan no seam fires, now or later. *)
Definition unplanned (f : FaultInjector) : Prop := fault_plan f = None.

Lemma reached_unplanned f seam f' hit : unplanned f -> reached f seam = (f', hit) -> hit = false /\ unplanned f'.
Proof. unfold unplanned, reached. intros ->. by intros [= <- <-]. Qed.

Ltac seam_off H :=
  match goal with
  | |- context [reached ?f ?s] =>
      let f' := fresh "f" in let hit := fresh "hit" in let E := fresh "E" in
      destruct (reached f s) as [f' hit] eqn:E; apply reached_unplanned in E as [-> H]; [|assumption]
  end.

(** * The log's record format ([schweep-log]: record.rs, dedup.rs)

    Records, their payload encoding, the length-and-CRC frame around a payload,
    and the ledger of acknowledged tokens.  A reader over a slice is the suffix
    still to be read. *)

Inductive LogError :=
| Io (message : string)
| NotADirectory (path : string)
| LogCorrupt (what : string)
| LogUnknownTable (table : string)
| LogZSet (e : ZSetError)
| TokenReused (source_id token : string)
| LogEpochOutOfRange (requested sealed : Z)
| EpochCompacted (requested retained_from : Z)
| NothingToCompact (anchor retained_from : Z)
| InjectedFault (seam : string).

Inductive Record_ :=
| RAppend (source_id dedup_token table : string) (entries : Entries)
| RSealEpoch (epoch : Z).

(** ** Writers *)

Definition put_u64 (v : Z) : list N := be_bytes 8 v.
Definition put_i64 (v : Z) : list N := put_u64 (as_u64 v).
Definition put_str (s : string) : list N := put_u64 (Z.of_nat (String.length s)) ++ string_bytes s.

Definition put_value (v : Value) : list N :=
  match v with
  | VNull => [0%N]
  | VBool b => [1%N; if b then 1%N else 0%N]
  | VInt i => 2%N :: put_i64 i
  | VFloat x => 3%N :: put_u64 (as_u64 x)
  | VStr s => 4%N :: put_str s
  end.

Definition put_entry (e : Row * Z) : list N :=
  put_u64 (Z.of_nat (length e.1)) ++ flat_map put_value e.1 ++ put_i64 e.2.

Definition record_encode (r : Record_) : list N :=
  match r with
  | RAppend source_id dedup_token table entries =>
      1%N :: put_str source_id ++ put_str dedup_token ++ put_str table ++
      put_u64 (Z.of_nat (length entries)) ++ flat_map put_entry entries
  | RSealEpoch epoch => 2%N :: put_u64 epoch
  end.

(** ** Readers *)

(** [bytes.get(at..at + n).ok_or(Corrupt(short))]: the next [n] bytes, when there
    are that many. *)
Definition take_or (short : string) (n : Z) (bytes : list N) : result LogError (list N * list N) :=
  if n <=? Z.of_nat (length bytes) then Ok (take (Z.to_nat n) bytes, drop (Z.to_nat n) bytes)
  else Err (LogCorrupt short).

Definition rd_take : Z -> list N -> result LogError (list N * list N) := take_or "record payload is short".

Definition rd_u8 (bytes : list N) : result LogError (N * list N) :=
  match bytes with
  | [] => Err (LogCorrupt "record payload is short")
  | b :: rest => Ok (b, rest)
  end.

Definition rd_u64 (bytes : list N) : result LogError (Z * list N) :=
  let? '(raw, rest) := rd_take 8 bytes in Ok (from_be_bytes raw, rest).

Definition rd_i64 (bytes : list N) : result LogError (Z * list N) :=
  let? '(u, rest) := rd_u64 bytes in Ok (as_i64 u, rest).

Definition rd_string (bytes : list N) : result LogError (string * list N) :=
  let? '(len, rest) := rd_u64 bytes in
  let? '(raw, rest) := rd_take len rest in
  let? s := ok_or (from_utf8 raw) (LogCorrupt "string is not UTF-8") in
  Ok (s, rest).

Definition rd_value (bytes : list N) : result LogError (Value * list N) :=
  let? '(tag, rest) := rd_u8 bytes in
  if (tag =? 0)%N then Ok (VNull, rest)
  else if (tag =? 1)%N then let? '(b, rest) := rd_u8 rest in Ok (VBool (negb (b =? 0)%N), rest)
  else if (tag =? 2)%N then let? '(i, rest) := rd_i64 rest in Ok (VInt i, rest)
  else if (tag =? 3)%N then let? '(u, rest) := rd_u64 rest in Ok (VFloat (as_i64 u), rest)
  else if (tag =? 4)%N then let? '(s, rest) := rd_string rest in Ok (VStr s, rest)
  else Err (LogCorrupt "unknown value tag").

(** [for _ in 0..count { out.push(read()?) }].  Every read takes a byte, so one
    iteration more than there are bytes left is never reached ([rd_count_fuel]). *)
Fixpoint rd_count {A} (read : list N -> result LogError (A * list N)) (fuel : nat) (count : Z)
    (bytes : list N) (out : list A) : result LogError (list A * list N) :=
  if count <=? 0 then Ok (out, bytes)
  else
    match fuel with
    | O => Err (LogCorrupt "record payload is short")
    | S fuel' => let? '(a, rest) := read bytes in rd_count read fuel' (count - 1) rest (out ++ [a])
    end.

Definition rd_many {A} (read : list N -> result LogError (A * list N)) (count : Z) (bytes : list N)
    : result LogError (list A * list N) :=
  rd_count read (S (length bytes)) count bytes [].

Definition rd_entry (bytes : list N) : result LogError ((Row * Z) * list N) :=
  let? '(width, rest) := rd_u64 bytes in
  let? '(values, rest) := rd_many rd_value width rest in
  let? '(weight, rest) := rd_i64 rest in
  Ok ((values, weight), rest).

Definition record_decode (payload : list N) : result LogError Record_ :=
  let? '(tag, r) := rd_u8 payload in
  if (tag =? 1)%N then
    let? '(source_id, r) := rd_string r in
    let? '(dedup_token, r) := rd_string r in
    let? '(table, r) := rd_string r in
    let? '(count, r) := rd_u64 r in
    let? '(entries, _) := rd_many rd_entry count r in
    Ok (RAppend source_id dedup_token table entries)
  else if (tag =? 2)%N then let? '(epoch, _) := rd_u64 r in Ok (RSealEpoch epoch)
  else Err (LogCorrupt "unknown record tag").

(** ** Checksums *)

(** FNV-1a over the encoded payload. *)
Definition content_hash (r : Record_) : Z :=
  fold_left (fun hash byte => (Z.lxor hash (Z.of_N byte) * 0x100000001B3) mod 2 ^ 64)
    (record_encode r) 0xcbf29ce484222325.

Definition crc_bit (crc : Z) : Z :=
  let mask := if negb (Z.land crc 1 =? 0) then 0xEDB88320 else 0 in
  Z.lxor (Z.shiftr crc 1) mask.

Definition crc_byte (crc : Z) (byte : N) : Z := Nat.iter 8 crc_bit (Z.lxor crc (Z.of_N byte)).

Definition crc_new : Z := 0xFFFFFFFF.
Definition crc_update (crc : Z) (bytes : list N) : Z := fold_left crc_byte bytes crc.
Definition crc_finish (crc : Z) : Z := Z.lxor crc 0xFFFFFFFF.
Definition crc32 (bytes : list N) : Z := crc_finish (crc_update crc_new bytes).

(** ** Frames *)

Definition frame (payload : list N) : list N :=
  be_bytes 4 (Z.of_nat (length payload)) ++ be_bytes 4 (crc32 payload) ++ payload.

(** [read_framed(bytes, at)], on the bytes from [at] on; the consumed length
    comes back in place of the next position.  [Ok None] is the torn tail. *)
Definition read_framed (bytes : list N) : result LogError (option (Record_ * Z)) :=
  match split_at 8 bytes with
  | None => Ok None
  | Some (header, body) =>
      let len := from_be_bytes (take 4 header) in
      let expected := from_be_bytes (drop 4 header) in
      if negb (len <=? Z.of_nat (length body)) then Ok None
      else
        let payload := take (Z.to_nat len) body in
        if negb (crc32 payload =? expected) then Ok None
        else let? record := record_decode payload in Ok (Some (record, 8 + len))
  end.

(** ** The ledger of acknowledged tokens *)

Definition ledger_entry (p : string * Z) : list N := put_str p.1 ++ put_u64 p.2.

Definition ledger_encode (tokens : btree string Z) : list N :=
  let body := put_u64 (Z.of_nat (length tokens)) ++ flat_map ledger_entry tokens in
  be_bytes 4 (crc32 body) ++ body.

Definition take_u64 (bytes : list N) : result LogError (Z * list N) :=
  let? '(raw, rest) := take_or "dedup ledger is short" 8 bytes in Ok (from_be_bytes raw, rest).

Definition ledger_read (bytes : list N) : result LogError ((string * Z) * list N) :=
  let? '(len, rest) := take_u64 bytes in
  let? '(raw, rest) := take_or "dedup ledger is short" len rest in
  let? token := ok_or (from_utf8 raw) (LogCorrupt "dedup token is not UTF-8") in
  let? '(hash, rest) := take_u64 rest in
  Ok ((token, hash), rest).

Definition ledger_decode (bytes : list N) : result LogError (btree string Z) :=
  let? '(stored, body) := take_or "dedup ledger is short" 4 bytes in
  if negb (crc32 body =? from_be_bytes stored) then Err (LogCorrupt "dedup ledger failed its CRC")
  else
    let? '(count, rest) := take_u64 body in
    let? '(tokens, _) := rd_many ledger_read count rest in
    Ok (bt_of_list tokens).

(** ** Records a process can hold *)

(** A Rust [String]: UTF-8, at most [isize::MAX] bytes. *)
Definition valid_text (s : string) : bool :=
  utf8_valid (string_bytes s) && (Z.of_nat (String.length s) <? 2 ^ 63).

Definition valid_cell (v : Value) : bool :=
  match v with
  | VInt i => in_i64 i
  | VFloat x => in_i64 x
  | VStr s => valid_text s
  | _ => true
  end.

Definition valid_entry (e : Row * Z) : bool :=
  (Z.of_nat (length e.1) <? 2 ^ 63) && forallb valid_cell e.1 && in_i64 e.2.

Definition valid_record (r : Record_) : bool :=
  match r with
  | RAppend source_id dedup_token table entries =>
      valid_text source_id && valid_text dedup_token && valid_text table &&
      (Z.of_nat (length entries) <? 2 ^ 63) && forallb valid_entry entries
  | RSealEpoch epoch => (0 <=? epoch) && (epoch <? 2 ^ 64)
  end.

(** ** Reading back what was written *)

#[local] Opaque be_bytes.
#[local] Arguments from_be_bytes : simpl never.

Lemma string_bytes_length s : length (string_bytes s) = String.length s.
Proof. induction s; simpl; congruence. Qed.

Lemma take_or_app short p rest : take_or short (Z.of_nat (length p)) (p ++ rest) = Ok (p, rest).
Proof.
  unfold take_or. rewrite length_app, (proj2 (Z.leb_le _ _)) by lia.
  by rewrite Nat2Z.id, take_app_length, drop_app_length.
Qed.

Lemma take_or_8 short v rest : take_or short 8 (put_u64 v ++ rest) = Ok (put_u64 v, rest).
Proof. rewrite <- (take_or_app short (put_u64 v) rest). unfold put_u64. by rewrite be_bytes_length. Qed.

Lemma rd_u64_put v rest : 0 <= v < 2 ^ 64 -> rd_u64 (put_u64 v ++ rest) = Ok (v, rest).
Proof. intros Hv. unfold rd_u64, rd_take. rewrite take_or_8. unfold put_u64. by rewrite from_be_8. Qed.

Lemma take_u64_put v rest : 0 <= v < 2 ^ 64 -> take_u64 (put_u64 v ++ rest) = Ok (v, rest).
Proof. intros Hv. unfold take_u64. rewrite take_or_8. unfold put_u64. by rewrite from_be_8. Qed.

Lemma rd_i64_put v rest : in_i64 v = true -> rd_i64 (put_i64 v ++ rest) = Ok (v, rest).
Proof.
  intros Hv. unfold rd_i64, put_i64. rewrite rd_u64_put by apply as_u64_range. by rewrite as_i64_as_u64.
Qed.

Lemma rd_string_put s rest : valid_text s = true -> rd_string (put_str s ++ rest) = Ok (s, rest).
Proof.
  unfold valid_text. intros [Hu Hl%Z.ltb_lt]%andb_true_iff. unfold rd_string, put_str.
  rewrite <- app_assoc, rd_u64_put by lia. unfold rd_take.
  rewrite <- string_bytes_length, take_or_app. unfold from_utf8. rewrite Hu. simpl. by rewrite bytes_string_bytes.
Qed.

Lemma rd_value_put v rest : valid_cell v = true -> rd_value (put_value v ++ rest) = Ok (v, rest).
Proof.
  destruct v as [|i|s|b|x]; simpl; intros Hv.
  - done.
  - unfold rd_value. simpl. by rewrite rd_i64_put.
  - unfold rd_value. simpl. by rewrite rd_string_put.
  - by destruct b.
  - unfold rd_value. simpl. rewrite rd_u64_put by apply as_u64_range. by rewrite as_i64_as_u64.
Qed.

Section counted.
Context {A : Type} (read : list N -> result LogError (A * list N)).

(** Reading a counted sequence of written items. *)
Lemma rd_count_put (put : A -> list N) (P : A -> bool) l fuel rest out :
  (forall a rest, P a = true -> read (put a ++ rest) = Ok (a, rest)) ->
  forallb P l = true -> (length l <= fuel)%nat ->
  rd_count read fuel (Z.of_nat (length l)) (flat_map put l ++ rest) out = Ok (out ++ l, rest).
Proof.
  intros Hr. revert fuel out. induction l as [|a l IH]; intros fuel out Hp Hf.
  - destruct fuel; simpl; by rewrite app_nil_r.
  - simpl in Hp. apply andb_true_iff in Hp as [Ha Hp]. destruct fuel as [|fuel]; [simpl in Hf; lia|].
    cbn [rd_count length flat_map]. rewrite (proj2 (Z.leb_gt _ _)) by lia.
    rewrite <- app_assoc, Hr by done. replace (Z.of_nat (S (length l)) - 1) with (Z.of_nat (length l)) by lia.
    rewrite IH; [by rewrite <- app_assoc|done|simpl in Hf; lia].
Qed.

Lemma rd_many_put (put : A -> list N) (P : A -> bool) l rest :
  (forall a rest, P a = true -> read (put a ++ rest) = Ok (a, rest)) ->
  (forall a, put a <> []) -> forallb P l = true ->
  rd_many read (Z.of_nat (length l)) (flat_map put l ++ rest) = Ok (l, rest).
Proof.
  intros Hr Hne Hp. unfold rd_many. rewrite (rd_count_put put P); [done..|].
  rewrite length_app. enough (length l <= length (flat_map put l))%nat by lia. clear Hp.
  induction l as [|a l IH]; simpl; [lia|]. rewrite length_app. specialize (Hne a).
  destruct (put a); simpl; [done|lia].
Qed.

(** More fuel than bytes changes nothing. *)
Lemma rd_count_fuel f1 f2 count bytes out :
  (forall bs a rest, read bs = Ok (a, rest) -> (length rest < length bs)%nat) ->
  (length bytes < f1)%nat -> (length bytes < f2)%nat ->
  rd_count read f1 count bytes out = rd_count read f2 count bytes out.
Proof.
  intros Hlt. revert f2 count bytes out. induction f1 as [|f1 IH]; intros f2 count bytes out H1 H2; [lia|].
  destruct f2 as [|f2]; [lia|]. cbn [rd_count]. destruct (count <=? 0); [done|].
  destruct (read bytes) as [[a rest]|] eqn:E; [|done]. apply Hlt in E. apply IH; lia.
Qed.
End counted.

Lemma rd_entry_put e rest : valid_entry e = true -> rd_entry (put_entry e ++ rest) = Ok (e, rest).
Proof.
  unfold valid_entry. rewrite !andb_true_iff. intros ((Hl & Hc) & Hw). apply Z.ltb_lt in Hl. destruct e as [row w]. simpl in *.
  unfold rd_entry, put_entry. simpl. rewrite <- !app_assoc, rd_u64_put by lia.
  rewrite (rd_many_put rd_value put_value valid_cell); [by rewrite rd_i64_put|apply rd_value_put|by intros []|done].
Qed.

Lemma put_entry_nonempty e : put_entry e <> [].
Proof.
  intros He. apply (f_equal length) in He. unfold put_entry, put_u64 in He.
  rewrite length_app, be_bytes_length in He. simpl in He. lia.
Qed.

Lemma decode_encode_record r : valid_record r = true -> record_decode (record_encode r) = Ok r.
Proof.
  destruct r as [src tok tab es|n]; simpl; intros Hv.
  - rewrite !andb_true_iff in Hv. destruct Hv as ((((Hs & Ht) & Hb) & Hl) & He). apply Z.ltb_lt in Hl.
    unfold record_decode. simpl. rewrite !rd_string_put by done. rewrite rd_u64_put by lia.
    rewrite <- (app_nil_r (flat_map put_entry es)).
    by rewrite (rd_many_put rd_entry put_entry valid_entry); [|apply rd_entry_put|apply put_entry_nonempty|].
  - apply andb_true_iff in Hv as [?%Z.leb_le ?%Z.ltb_lt]. unfold record_decode. simpl.
    rewrite <- (app_nil_r (put_u64 n)). by rewrite rd_u64_put.
Qed.

(** ** Bytes and checksums *)

Definition bytes_ok (l : list N) : Prop := Forall (fun b => (b < 256)%N) l.

Lemma lxor_range n a b : 0 <= n -> 0 <= a < 2 ^ n -> 0 <= b < 2 ^ n -> 0 <= Z.lxor a b < 2 ^ n.
Proof.
  intros Hn Ha Hb. assert (0 <= Z.lxor a b) as H0 by (apply Z.lxor_nonneg; lia). split; [done|].
  destruct (Z.eq_dec (Z.lxor a b) 0) as [->|Hne]; [lia|]. apply Z.log2_lt_pow2; [lia|].
  pose proof (Z.log2_lxor a b ltac:(lia) ltac:(lia)) as Hl.
  assert (forall x, 0 <= x < 2 ^ n -> Z.log2 x < n \/ x = 0) as Hx.
  { intros x Hx. destruct (Z.eq_dec x 0); [by right|left]. apply Z.log2_lt_pow2; lia. }
  destruct (Z.eq_dec n 0) as [->|]; [simpl in *; assert (a = 0) as -> by lia; assert (b = 0) as -> by lia; done|].
  destruct (Hx a Ha) as [?|E], (Hx b Hb) as [?|E']; subst; simpl in *; lia.
Qed.

Lemma crc_bit_range c : 0 <= c < 2 ^ 32 -> 0 <= crc_bit c < 2 ^ 32.
Proof.
  intros Hc. unfold crc_bit. apply lxor_range; [lia| |destruct (negb _); lia].
  rewrite Z.shiftr_div_pow2 by lia. change (2 ^ 1) with 2. split; [apply Z.div_pos; lia|].
  apply Z.div_lt_upper_bound; lia.
Qed.

Lemma crc_byte_range c b : 0 <= c < 2 ^ 32 -> (b < 256)%N -> 0 <= crc_byte c b < 2 ^ 32.
Proof.
  intros Hc Hb. unfold crc_byte. apply Nat.iter_invariant; [intros; by apply crc_bit_range|].
  apply lxor_range; lia.
Qed.

Lemma crc_update_range c l : bytes_ok l -> 0 <= c < 2 ^ 32 -> 0 <= crc_update c l < 2 ^ 32.
Proof.
  intros Hl. revert c. induction Hl as [|b l Hb _ IH]; intros c Hc; [done|]. simpl. apply IH, crc_byte_range; done.
Qed.

Lemma crc32_range l : bytes_ok l -> 0 <= crc32 l < 2 ^ 32.
Proof.
  intros Hl. unfold crc32, crc_finish. apply lxor_range; [lia| |lia]. apply crc_update_range; [done|].
  unfold crc_new. lia.
Qed.

Lemma string_bytes_ok s : bytes_ok (string_bytes s).
Proof. induction s as [|a s IH]; simpl; constructor; [apply Ascii.N_ascii_bounded|done]. Qed.

Lemma put_u64_ok v : bytes_ok (put_u64 v).
Proof. apply be_bytes_range. Qed.

Lemma put_str_ok s : bytes_ok (put_str s).
Proof. apply Forall_app. split; [apply put_u64_ok|apply string_bytes_ok]. Qed.

Lemma put_value_ok v : bytes_ok (put_value v).
Proof.
  destruct v as [|i|s|b|x]; (apply Forall_cons; split; [lia|]); simpl.
  - constructor.
  - apply put_u64_ok.
  - apply put_str_ok.
  - apply Forall_cons. split; [by destruct b|constructor].
  - apply put_u64_ok.
Qed.

Lemma flat_map_ok {A} (f : A -> list N) l : (forall a, bytes_ok (f a)) -> bytes_ok (flat_map f l).
Proof. intros Hf. apply Forall_flat_map, Forall_forall. intros a _. apply Hf. Qed.

Lemma record_encode_ok r : bytes_ok (record_encode r).
Proof.
  destruct r as [src tok tab es|n]; (apply Forall_cons; split; [lia|]); [|apply put_u64_ok].
  rewrite !Forall_app. split_and!; try apply put_str_ok; try apply put_u64_ok.
  apply flat_map_ok. intros [row w]. unfold bytes_ok, put_entry. rewrite !Forall_app.
  split_and!; try apply put_u64_ok. apply flat_map_ok, put_value_ok.
Qed.

(** ** Frames *)

Lemma frame_length p : length (frame p) = (8 + length p)%nat.
Proof. unfold frame. rewrite !length_app, !be_bytes_length. lia. Qed.

(** What the reader finds where a frame was written. *)
Lemma read_framed_frame p rest :
  bytes_ok p -> Z.of_nat (length p) < 2 ^ 32 ->
  read_framed (frame p ++ rest) = let? record := record_decode p in Ok (Some (record, Z.of_nat (length (frame p)))).
Proof.
  intros Hp Hl. unfold read_framed. rewrite frame_length. unfold frame. rewrite !app_assoc, <- (app_assoc _ p rest).
  rewrite split_at_app by (by rewrite length_app, !be_bytes_length).
  assert (forall (a b : list N), length a = 4%nat -> take 4 (a ++ b) = a /\ drop 4 (a ++ b) = b) as H4.
  { intros a b Ha. rewrite <- Ha. by rewrite take_app_length, drop_app_length. }
  destruct (H4 (be_bytes 4 (Z.of_nat (length p))) (be_bytes 4 (crc32 p)) (be_bytes_length _ _)) as [-> ->].
  rewrite !from_be_be_bytes. change (256 ^ Z.of_nat 4) with (2 ^ 32).
  rewrite (Z.mod_small (Z.of_nat (length p))) by lia. rewrite (Z.mod_small (crc32 p)) by (by apply crc32_range).
  rewrite length_app, (proj2 (Z.leb_le _ _)) by lia. cbn [negb].
  rewrite Nat2Z.id, take_app_length, Z.eqb_refl. cbn [negb].
  destruct (record_decode p); [|done]. do 3 f_equal. lia.
Qed.

(** A frame cut short is a torn tail wherever it is cut. *)
Lemma read_framed_torn p k :
  Z.of_nat (length p) < 2 ^ 32 -> (k < length (frame p))%nat -> read_framed (take k (frame p)) = Ok None.
Proof.
  intros Hl Hk. rewrite frame_length in Hk. unfold read_framed.
  destruct (split_at 8 (take k (frame p))) as [[header body]|] eqn:E; [|done].
  pose proof (split_at_length _ _ _ _ E) as Hlen. rewrite length_take, frame_length in Hlen.
  unfold split_at in E. destruct (8 <=? _)%nat; [|done]. injection E as <- <-.
  assert (take 8 (take k (frame p)) = be_bytes 4 (Z.of_nat (length p)) ++ be_bytes 4 (crc32 p)) as ->.
  { rewrite take_take. replace (8 `min` k)%nat with 8%nat by lia. unfold frame. rewrite app_assoc.
    rewrite take_app_length'; [done|]. by rewrite length_app, !be_bytes_length. }
  rewrite (take_app_length' (be_bytes 4 _)) by (by rewrite be_bytes_length).
  rewrite from_be_be_bytes. change (256 ^ Z.of_nat 4) with (2 ^ 32). rewrite Z.mod_small by lia.
  rewrite length_drop, length_take, frame_length, (proj2 (Z.leb_gt _ _)) by lia. done.
Qed.

(** ** What the CRC detects *)

Lemma crc_bit_parity c : 0 <= c < 2 ^ 32 -> Z.testbit (crc_bit c) 31 = Z.odd c.
Proof.
  intros Hc. unfold crc_bit. rewrite Z.lxor_spec, Z.shiftr_spec by lia.
  assert (Z.testbit c (31 + 1) = false) as ->.
  { destruct (Z.eq_dec c 0) as [->|]; [done|]. apply Z.bits_above_log2; [lia|]. apply Z.log2_lt_pow2; lia. }
  assert (Z.land c 1 = if Z.odd c then 1 else 0) as ->.
  { change 1 with (Z.ones 1). rewrite Z.land_ones by lia. change (2 ^ 1) with 2. apply Zmod_odd. }
  by destruct (Z.odd c).
Qed.

Lemma lxor_inj_l a b m : Z.lxor a m = Z.lxor b m -> a = b.
Proof.
  intros E. apply (f_equal (fun x => Z.lxor x m)) in E.
  by rewrite !Z.lxor_assoc, !Z.lxor_nilpotent, !Z.lxor_0_r in E.
Qed.

Lemma crc_bit_inj c d : 0 <= c < 2 ^ 32 -> 0 <= d < 2 ^ 32 -> crc_bit c = crc_bit d -> c = d.
Proof.
  intros Hc Hd E. assert (Z.odd c = Z.odd d) as Ho by (rewrite <- !crc_bit_parity by done; by rewrite E).
  assert (forall x, Z.land x 1 = if Z.odd x then 1 else 0) as Hl.
  { intros x. change 1 with (Z.ones 1). rewrite Z.land_ones by lia. change (2 ^ 1) with 2. apply Zmod_odd. }
  unfold crc_bit in E. rewrite !Hl, <- Ho in E. apply lxor_inj_l in E.
  rewrite !Z.shiftr_div_pow2 in E by lia. change (2 ^ 1) with 2 in E.
  rewrite (Z_div_mod_eq_full c 2), (Z_div_mod_eq_full d 2), E, !Zmod_odd, Ho. done.
Qed.

Lemma crc_iter_inj n c d :
  0 <= c < 2 ^ 32 -> 0 <= d < 2 ^ 32 -> Nat.iter n crc_bit c = Nat.iter n crc_bit d -> c = d.
Proof.
  intros Hc Hd. induction n as [|n IH]; simpl; [done|]. intros E.
  apply crc_bit_inj in E; [by apply IH|..]; (apply Nat.iter_invariant; [intros; by apply crc_bit_range|done]).
Qed.

Lemma crc_byte_inj c d b b' :
  0 <= c < 2 ^ 32 -> 0 <= d < 2 ^ 32 -> (b < 256)%N -> (b' < 256)%N ->
  crc_byte c b = crc_byte d b' -> Z.lxor c (Z.of_N b) = Z.lxor d (Z.of_N b').
Proof. intros Hc Hd Hb Hb'. apply crc_iter_inj; apply lxor_range; lia. Qed.

Lemma crc_update_inj l c d :
  bytes_ok l -> 0 <= c < 2 ^ 32 -> 0 <= d < 2 ^ 32 -> crc_update c l = crc_update d l -> c = d.
Proof.
  intros Hl. revert c d. induction Hl as [|b l Hb _ IH]; intros c d Hc Hd E; [done|]. simpl in E.
  apply IH in E; [|by apply crc_byte_range..]. apply crc_byte_inj in E; [|done..]. by apply lxor_inj_l in E.
Qed.

Lemma fold_left_app_cons {A B} (f : A -> B -> A) p b q c :
  fold_left f (p ++ b :: q) c = fold_left f q (f (fold_left f p c) b).
Proof. by rewrite fold_left_app. Qed.

Lemma crc_update_app c p b q : crc_update c (p ++ b :: q) = crc_update (crc_byte (crc_update c p) b) q.
Proof. unfold crc_update. apply fold_left_app_cons. Qed.

(** A changed byte changes the checksum. *)
Lemma crc32_changed p b b' q :
  bytes_ok (p ++ b :: q) -> (b' < 256)%N -> b <> b' -> crc32 (p ++ b :: q) <> crc32 (p ++ b' :: q).
Proof.
  intros [Hp [Hb Hq]%Forall_cons]%Forall_app Hb' Hne E. unfold crc32, crc_finish in E. apply lxor_inj_l in E.
  rewrite !crc_update_app in E. assert (0 <= crc_new < 2 ^ 32) as Hn by done.
  pose proof (crc_update_range crc_new p Hp Hn) as Hc. revert Hc E. generalize (crc_update crc_new p). intros c Hc E.
  pose proof (crc_update_inj q _ _ Hq (crc_byte_range c b Hc Hb) (crc_byte_range c b' Hc Hb') E) as E1.
  pose proof (crc_byte_inj c c b b' Hc Hc Hb Hb' E1) as E2.
  rewrite !(Z.lxor_comm c) in E2. apply lxor_inj_l in E2. lia.
Qed.

(** The reader over a frame whose payload was replaced by one of its length. *)
Lemma read_framed_damaged p p' rest :
  bytes_ok p -> length p' = length p -> Z.of_nat (length p) < 2 ^ 32 -> crc32 p' <> crc32 p ->
  read_framed (take 8 (frame p) ++ p' ++ rest) = Ok None.
Proof.
  intros Hp Hlen Hl Hne. unfold read_framed.
  rewrite split_at_app by (rewrite length_take, frame_length; lia).
  assert (take 8 (frame p) = be_bytes 4 (Z.of_nat (length p)) ++ be_bytes 4 (crc32 p)) as ->.
  { unfold frame. rewrite app_assoc, take_app_length'; [done|]. by rewrite length_app, !be_bytes_length. }
  rewrite (take_app_length' (be_bytes 4 _)), (drop_app_length' (be_bytes 4 _)) by (by rewrite be_bytes_length).
  rewrite !from_be_be_bytes. change (256 ^ Z.of_nat 4) with (2 ^ 32). rewrite !Z.mod_small by (try apply crc32_range; lia || done).
  rewrite length_app, (proj2 (Z.leb_le _ _)) by lia. cbn [negb]. rewrite Nat2Z.id, <- Hlen, take_app_length.
  by rewrite (proj2 (Z.eqb_neq _ _)).
Qed.

(** ** The ledger *)

Definition valid_token (p : string * Z) : bool := valid_text p.1 && (0 <=? p.2) && (p.2 <? 2 ^ 64).

Lemma ledger_read_put p rest : valid_token p = true -> ledger_read (ledger_entry p ++ rest) = Ok (p, rest).
Proof.
  unfold valid_token, valid_text. rewrite !andb_true_iff, Z.ltb_lt, Z.leb_le, Z.ltb_lt.
  intros (((Hu & Hl) & H0) & H1). destruct p as [t h]. simpl in *.
  unfold ledger_read, ledger_entry, put_str. simpl. rewrite <- !app_assoc, take_u64_put by lia.
  rewrite <- string_bytes_length, take_or_app. unfold from_utf8. rewrite Hu. simpl.
  by rewrite take_u64_put, bytes_string_bytes.
Qed.

Lemma ledger_entry_nonempty p : ledger_entry p <> [].
Proof.
  intros He. apply (f_equal length) in He. unfold ledger_entry, put_str, put_u64 in He.
  rewrite !length_app, !be_bytes_length in He. simpl in He. lia.
Qed.

Lemma ledger_entry_ok p : bytes_ok (ledger_entry p).
Proof. apply Forall_app. split; [apply put_str_ok|apply put_u64_ok]. Qed.

Lemma ledger_decode_encode tokens :
  bt_sorted tokens -> forallb valid_token tokens = true -> Z.of_nat (length tokens) < 2 ^ 63 ->
  ledger_decode (ledger_encode tokens) = Ok tokens.
Proof.
  intros Hs Hv Hl. unfold ledger_decode, ledger_encode.
  set (body := put_u64 _ ++ _). assert (bytes_ok body) as Hok.
  { apply Forall_app. split; [apply put_u64_ok|]. apply flat_map_ok, ledger_entry_ok. }
  assert (forall short, take_or short 4 (be_bytes 4 (crc32 body) ++ body) = Ok (be_bytes 4 (crc32 body), body)) as ->.
  { intros short. rewrite <- (take_or_app short). by rewrite be_bytes_length. }
  rewrite from_be_be_bytes. change (256 ^ Z.of_nat 4) with (2 ^ 32).
  rewrite (Z.mod_small (crc32 body)) by (by apply crc32_range). rewrite Z.eqb_refl. cbn [negb].
  unfold body. rewrite take_u64_put by lia. rewrite <- (app_nil_r (flat_map ledger_entry tokens)).
  rewrite (rd_many_put ledger_read ledger_entry valid_token);
    [by rewrite bt_of_list_id|apply ledger_read_put|apply ledger_entry_nonempty|done].
Qed.

(** ** Theorems *)

(** A framed record reads back.  Whatever bytes follow it in the segment, the
    reader returns the record that was written and the length of its frame, for
    every record a process can hold whose payload the 32-bit length can
    express. *)
Theorem record_roundtrip (r : Record_) (rest : list N) :
  valid_record r = true -> Z.of_nat (length (record_encode r)) < 2 ^ 32 ->
  read_framed (frame (record_encode r) ++ rest) = Ok (Some (r, Z.of_nat (length (frame (record_encode r))))).
Proof.
  intros Hv Hl. rewrite read_framed_frame by (done || apply record_encode_ok). by rewrite decode_encode_record.
Qed.

(** A torn or damaged frame is never read as a record.  A frame cut at any
    byte is the torn tail, and so is a frame one byte of whose payload was
    changed, whatever follows it: the CRC tells every single-byte change. *)
Theorem damaged_frame_is_torn (p : list N) (q : list N) (b b' : N) (rest : list N) (k : nat) :
  bytes_ok (p ++ b :: q) -> (b' < 256)%N -> b <> b' ->
  Z.of_nat (length (p ++ b :: q)) < 2 ^ 32 -> (k < length (frame (p ++ b :: q)))%nat ->
  read_framed (take k (frame (p ++ b :: q))) = Ok None /\
  read_framed (take 8 (frame (p ++ b :: q)) ++ (p ++ b' :: q) ++ rest) = Ok None.
Proof.
  intros Hok Hb' Hne Hl Hk. split; [by apply read_framed_torn|].
  apply read_framed_damaged; [done|by rewrite !length_app|done|]. intros E. by apply (crc32_changed p b b' q).
Qed.

(** The ledger of acknowledged tokens survives its file: decoding what was
    encoded gives the same map back. *)
Theorem ledger_roundtrip (tokens : btree string Z) :
  bt_sorted tokens -> forallb valid_token tokens = true -> Z.of_nat (length tokens) < 2 ^ 63 ->
  ledger_decode (ledger_encode tokens) = Ok tokens.
Proof. apply ledger_decode_encode. Qed.

(** ** Witnesses *)

Definition ex_record : Record_ :=
  RAppend "sensor" "tok-1" "orders" [([VInt 1; VNull; VStr "x"], -1); ([VBool true; VFloat 0; VInt (-5)], 3)].

Lemma record_roundtrip_witness :
  read_framed (frame (record_encode ex_record) ++ [7%N; 7%N])
    = Ok (Some (ex_record, Z.of_nat (length (frame (record_encode ex_record))))).
Proof. apply (record_roundtrip ex_record [7%N; 7%N]); vm_compute; reflexivity. Defined.

Lemma damaged_frame_is_torn_witness :
  read_framed (take 9 (frame ([1%N] ++ 2%N :: [3%N]))) = Ok None /\
  read_framed (take 8 (frame ([1%N] ++ 2%N :: [3%N])) ++ ([1%N] ++ 9%N :: [3%N]) ++ []) = Ok None.
Proof.
  apply (damaged_frame_is_torn [1%N] [3%N] 2%N 9%N [] 9).
  - repeat constructor.
  - reflexivity.
  - discriminate.
  - vm_compute. reflexivity.
  - vm_compute. lia.
Defined.

Lemma ledger_roundtrip_witness :
  ledger_decode (ledger_encode [("a"%string, 7); ("b"%string, 2 ^ 64 - 1)]) = Ok [("a"%string, 7); ("b"%string, 2 ^ 64 - 1)].
Proof.
  apply (ledger_roundtrip [("a"%string, 7); ("b"%string, 2 ^ 64 - 1)]).
  - repeat constructor.
  - vm_compute. reflexivity.
  - vm_compute. reflexivity.
Defined.
