(* ===== verification/Log.v ===== *)
(** * The append-only log ([schweep-log]: log.rs)

    Appending, sealing, reading back, recovering and compacting the log, over a
    directory of segment files.  The disk is part of the state: an operation
    returns the disk it leaves behind, also when a seam stops it.  The calls of
    the operating system succeed; a crash in the middle of a write is a step of
    its own ([crash_append]). *)

From Stdlib Require Import ZArith NArith Lia Ascii.
From stdpp Require Import base list strings pretty.
From S2P Require Import Prelude BTree Value ZSet Bind Codec Text LogRecord.

Inductive SyncPolicy := Full | Deferred.

Inductive Ack := Appended | DroppedAsReplay.

Record Batch := mkLogBatch {
  source_id : string;
  dedup_token : string;
  batch_table : string;
  batch_rows : Entries
}.

Record EpochSpan := mkSpan { span_start : Z; span_end : Z }.

Definition len_bytes (s : EpochSpan) : Z := Z.max 0 (span_end s - span_start s).

Record Pointer := mkPointer {
  pointer_segment : string;
  pointer_snapshot : option string;
  pointer_retained_from : Z
}.

Record Log := mkLog {
  sync : SyncPolicy;
  log_catalog : Catalog;
  dedup : btree string Z;
  log_pending : list Batch;
  sealed : list EpochSpan;
  segment_len : Z;
  epoch_start : Z;
  segment : string;
  retained_from : Z;
  log_snapshot : option string
}.

(** ** The pointer *)

Definition pointer_body (p : Pointer) : text :=
  flat_map line
    [tx "schweep-log pointer v1"; tx "segment=" ++ tx (pointer_segment p);
     tx "snapshot=" ++ tx (default "-"%string (pointer_snapshot p));
     tx "retained_from=" ++ dec (pointer_retained_from p)].

Definition pointer_encode (p : Pointer) : list N :=
  let body := pointer_body p in body ++ tx "crc=" ++ line (hex8 (crc32 body)).

(** The loop variables of [Pointer::decode]: segment, snapshot, epoch. *)
Abbreviation PointerFields := (option string * option string * Z)%type.

Definition pointer_line (st : PointerFields) (l : text) : result LogError PointerFields :=
  let '(segment, snapshot, from) := st in
  match split_once 61 l with
  | Some (key, value) =>
      if decide (key = tx "segment") then Ok (Some (bytes_string value), snapshot, from)
      else if decide (key = tx "snapshot") then
        Ok (segment, if decide (value = tx "-") then None else Some (bytes_string value), from)
      else if decide (key = tx "retained_from") then
        let? from := ok_or (parse_dec value) (LogCorrupt "pointer epoch is not a number") in
        Ok (segment, snapshot, from)
      else Ok st
  | None => Ok st
  end.

Definition pointer_decode (bytes : list N) : result LogError Pointer :=
  if negb (utf8_valid bytes) then Err (LogCorrupt "pointer is not UTF-8")
  else
    let? parts := ok_or (rsplit_once (tx "crc=") bytes) (LogCorrupt "pointer has no crc") in
    let '(body, crc_line) := parts in
    let? expected := ok_or (parse_u32_hex (trim crc_line)) (LogCorrupt "pointer crc is not hex") in
    if negb (crc32 body =? expected) then Err (LogCorrupt "pointer failed its CRC")
    else
      let? fields := try_fold pointer_line (None, None, 0) (lines body) in
      let '(segment, snapshot, from) := fields in
      let? segment := ok_or segment (LogCorrupt "pointer names no segment") in
      Ok (mkPointer segment snapshot from).

(** ** The directory *)

(** A snapshot directory: its files by name. *)
Abbreviation SnapshotDir := (btree string (list N)).

(** The log's directory: the segments, [LOG] and the snapshots, published or
    [.partial]. *)
Record Disk := mkDisk {
  segments : btree string (list N);
  pointer : option (list N);
  snapshots : btree string SnapshotDir
}.

Definition MANIFEST : string := "MANIFEST".
Definition DEDUP_LEDGER : string := "DEDUP".

(** A pointer that does not verify counts as absent. *)
Definition read_pointer (d : Disk) : option Pointer :=
  match pointer d with
  | Some bytes => match pointer_decode bytes with Ok p => Some p | Err _ => None end
  | None => None
  end.

Definition write_pointer (d : Disk) (p : Pointer) : Disk :=
  mkDisk (segments d) (Some (pointer_encode p)) (snapshots d).

Definition DEFAULT_SEGMENT : string := "segment-00000001.log".

Definition segment_bytes (d : Disk) (name : string) : list N := default [] (bt_get name (segments d)).

(** [OpenOptions::new().create(true).append(true)], then [write_all]. *)
Definition append_file (d : Disk) (name : string) (bytes : list N) : Disk :=
  mkDisk (bt_insert name (segment_bytes d name ++ bytes) (segments d)) (pointer d) (snapshots d).

(** ** Reading records *)

(** [fill]: a buffer of [n] bytes, or the end of the stream first. *)
Definition fill (n : Z) (reader : list N) : option (list N * list N) :=
  if n <=? Z.of_nat (length reader) then Some (take (Z.to_nat n) reader, drop (Z.to_nat n) reader) else None.

Definition read_one (reader : list N) : result LogError (option (Record_ * Z * list N)) :=
  match fill 8 reader with
  | None => Ok None
  | Some (header, reader) =>
      let len := from_be_bytes (take 4 header) in
      let expected := from_be_bytes (drop 4 header) in
      match fill len reader with
      | None => Ok None
      | Some (payload, reader) =>
          if negb (crc32 payload =? expected) then Ok None
          else let? record := record_decode payload in Ok (Some (record, 8 + len, reader))
      end
  end.

(** ** Recovery *)

(** The loop variables of [replay_from_disk]. *)
Record Replay := mkReplay {
  rp_at : Z;
  rp_epoch_start : Z;
  rp_pending : list Batch;
  rp_replayed : Z;
  rp_dedup : btree string Z;
  rp_sealed : list EpochSpan
}.

Definition batch_record (b : Batch) : Record_ :=
  RAppend (source_id b) (dedup_token b) (batch_table b) (batch_rows b).

Definition replay_record (st : Replay) (record : Record_) (consumed : Z) : Replay :=
  match record with
  | RAppend src tok tab es =>
      mkReplay (rp_at st + consumed) (rp_epoch_start st) (rp_pending st ++ [mkLogBatch src tok tab es])
        (rp_replayed st) (bt_insert tok (content_hash record) (rp_dedup st)) (rp_sealed st)
  | RSealEpoch _ =>
      mkReplay (rp_at st + consumed) (rp_at st + consumed) [] (rp_replayed st) (rp_dedup st)
        (rp_sealed st ++ [mkSpan (rp_epoch_start st) (rp_at st)])
  end.

Definition bump_replayed (st : Replay) : Replay :=
  mkReplay (rp_at st) (rp_epoch_start st) (rp_pending st) ((rp_replayed st + 1) mod 2 ^ 32) (rp_dedup st)
    (rp_sealed st).

(** [while let Some((record, consumed)) = read_one(&mut reader)?].  A record takes
    eight bytes or more, so the fuel is never used up ([replay_loop_fuel]). *)
Fixpoint replay_loop (fuel : nat) (reader : list N) (faults : FaultInjector) (st : Replay)
    : FaultInjector * result LogError Replay :=
  match fuel with
  | O => (faults, Ok st)
  | S fuel' =>
      match read_one reader with
      | Err e => (faults, Err e)
      | Ok None => (faults, Ok st)
      | Ok (Some (record, consumed, reader')) =>
          let st := bump_replayed st in
          let '(faults, hit) :=
            if rp_replayed st mod 4 =? 0 then reached faults RecoveryMidReplay else (faults, false) in
          if hit then (faults, Err (InjectedFault (seam_name RecoveryMidReplay)))
          else replay_loop fuel' reader' faults (replay_record st record consumed)
      end
  end.

Definition replay_from_disk (log : Log) (d : Disk) (faults : FaultInjector) : FaultInjector * result LogError Log :=
  match bt_get (segment log) (segments d) with
  | None => (faults, Ok (mkLog (sync log) (log_catalog log) (dedup log) (log_pending log) (sealed log) 0 0
                           (segment log) (retained_from log) (log_snapshot log)))
  | Some bytes =>
      let '(faults, r) := replay_loop (S (length bytes)) bytes faults (mkReplay 0 0 [] 0 (dedup log) (sealed log)) in
      (faults, let? st := r in
               Ok (mkLog (sync log) (log_catalog log) (rp_dedup st) (rp_pending st) (rp_sealed st) (rp_at st)
                     (rp_epoch_start st) (segment log) (retained_from log) (log_snapshot log)))
  end.

Definition snapshot_usable (d : Disk) (name : string) : bool :=
  match bt_get name (snapshots d) with Some files => bt_contains MANIFEST files | None => false end.

(** Where [LOG] points, when what it names is there. *)
Definition authority (d : Disk) : string * option string * Z :=
  match read_pointer d with
  | Some p =>
      let usable := bt_contains (pointer_segment p) (segments d) &&
        match pointer_snapshot p with Some name => snapshot_usable d name | None => true end in
      if usable then (pointer_segment p, pointer_snapshot p, pointer_retained_from p)
      else (DEFAULT_SEGMENT, None, 0)
  | None => (DEFAULT_SEGMENT, None, 0)
  end.

(** R7: the tokens of the snapshot's ledger. *)
Definition seed_dedup (d : Disk) (snap : option string) : result LogError (btree string Z) :=
  match snap with
  | None => Ok bt_empty
  | Some name =>
      match bt_get name (snapshots d) ≫= bt_get DEDUP_LEDGER with
      | Some bytes => ledger_decode bytes
      | None => Err (LogCorrupt "snapshot has no dedup ledger")
      end
  end.

Definition log_open (d : Disk) (catalog : Catalog) (faults : FaultInjector) (policy : SyncPolicy)
    : FaultInjector * result LogError Log :=
  let '(seg, snap, from) := authority d in
  match seed_dedup d snap with
  | Err e => (faults, Err e)
  | Ok tokens => replay_from_disk (mkLog policy catalog tokens [] [] 0 0 seg from snap) d faults
  end.

(** ** Reading epochs back *)

Definition log_sealed_epoch (log : Log) : Z := retained_from log + Z.of_nat (length (sealed log)).

(** The [while let] of [read_span], over the span's bytes. *)
Fixpoint span_loop (fuel : nat) (reader : list N) (batches : list Batch) : result LogError (list Batch) :=
  match fuel with
  | O => Ok batches
  | S fuel' =>
      let? next := read_one reader in
      match next with
      | None => Ok batches
      | Some (RAppend src tok tab es, _, reader') => span_loop fuel' reader' (batches ++ [mkLogBatch src tok tab es])
      | Some (RSealEpoch _, _, _) => Err (LogCorrupt "a seal record inside an epoch's span")
      end
  end.

Definition read_span (log : Log) (d : Disk) (span : EpochSpan) : result LogError (list Batch) :=
  if len_bytes span =? 0 then Ok []
  else
    match bt_get (segment log) (segments d) with
    | None => Err (Io "No such file or directory (os error 2)")
    | Some bytes =>
        let reader := take (Z.to_nat (len_bytes span)) (drop (Z.to_nat (span_start span)) bytes) in
        span_loop (S (length reader)) reader []
    end.

Definition log_epoch (log : Log) (d : Disk) (epoch : Z) : result LogError (list Batch) :=
  if negb (epoch =? 0) && (epoch <=? retained_from log) then Err (EpochCompacted epoch (retained_from log))
  else if (epoch =? 0) || (log_sealed_epoch log <? epoch) then Err (LogEpochOutOfRange epoch (log_sealed_epoch log))
  else
    let index := Z.to_nat (epoch - retained_from log - 1) in
    let? span := ok_or (sealed log !! index) (LogEpochOutOfRange epoch (log_sealed_epoch log)) in
    read_span log d span.

(** ** Appending *)

Definition log_check_row (schema : Schema) (e : Row * Z) : result LogError unit :=
  if negb (length e.1 =? schema_len schema)%nat then
    Err (LogZSet (ArityMismatch (schema_len schema) (length e.1)))
  else try_for (fun p => map_err LogZSet (check_value schema p.1 p.2)) (imap (fun i v => (i, v)) e.1).

Definition log_validate (log : Log) (table : string) (entries : Entries) : result LogError unit :=
  let? schema := ok_or (bt_get table (log_catalog log)) (LogUnknownTable table) in
  try_for (log_check_row schema) entries.

(** A7: the frame's length, the token and the batch. *)
Definition index_append (log : Log) (b : Batch) : Log :=
  let record := batch_record b in
  mkLog (sync log) (log_catalog log) (bt_insert (dedup_token b) (content_hash record) (dedup log))
    (log_pending log ++ [b]) (sealed log) (segment_len log + Z.of_nat (length (frame (record_encode record))))
    (epoch_start log) (segment log) (retained_from log) (log_snapshot log).

Definition fault {A} (seam : Seam) : result LogError A := Err (InjectedFault (seam_name seam)).

(** A5 to A8. *)
Definition append_write (log : Log) (d : Disk) (faults : FaultInjector) (b : Batch)
    : FaultInjector * Disk * Log * result LogError Ack :=
  let '(faults, hit) := reached faults AckBeforeAppend in
  if hit then (faults, d, log, fault AckBeforeAppend)
  else
    let d := append_file d (segment log) (frame (record_encode (batch_record b))) in
    let '(faults, hit) := reached faults AckAfterAppendBeforeFsync in
    if hit then (faults, d, log, fault AckAfterAppendBeforeFsync)
    else
      let '(faults, hit) := reached faults AckAfterFsyncBeforeIndex in
      if hit then (faults, d, log, fault AckAfterFsyncBeforeIndex)
      else
        let log := index_append log b in
        let '(faults, hit) := reached faults AckAfterFsyncBeforeAck in
        if hit then (faults, d, log, fault AckAfterFsyncBeforeAck)
        else (faults, d, log, Ok Appended).

Definition log_append (log : Log) (d : Disk) (faults : FaultInjector) (b : Batch)
    : FaultInjector * Disk * Log * result LogError Ack :=
  let '(faults, hit) := reached faults AckBeforeValidate in
  if hit then (faults, d, log, fault AckBeforeValidate)
  else
    match log_validate log (batch_table b) (batch_rows b) with
    | Err e => (faults, d, log, Err e)
    | Ok _ =>
        match bt_get (dedup_token b) (dedup log) with
        | Some known =>
            if known =? content_hash (batch_record b) then (faults, d, log, Ok DroppedAsReplay)
            else (faults, d, log, Err (TokenReused (source_id b) (dedup_token b)))
        | None => append_write log d faults b
        end
    end.

(** ** Sealing *)

Definition index_seal (log : Log) (seal_bytes : Z) : Log :=
  let len := segment_len log + seal_bytes in
  mkLog (sync log) (log_catalog log) (dedup log) [] (sealed log ++ [mkSpan (epoch_start log) (segment_len log)])
    len len (segment log) (retained_from log) (log_snapshot log).

Definition log_seal (log : Log) (d : Disk) (faults : FaultInjector) : FaultInjector * Disk * Log * result LogError Z :=
  let '(faults, hit) := reached faults SealBeforeRecord in
  if hit then (faults, d, log, fault SealBeforeRecord)
  else
    let epoch := log_sealed_epoch log + 1 in
    let record := frame (record_encode (RSealEpoch epoch)) in
    let d := append_file d (segment log) record in
    let '(faults, hit) := reached faults SealAfterRecordBeforeFsync in
    if hit then (faults, d, log, fault SealAfterRecordBeforeFsync)
    else (faults, d, index_seal log (Z.of_nat (length record)), Ok epoch).

(** A process that dies inside a write leaves the first [k] bytes of the frame;
    nothing of its memory survives. *)
Definition crash_append (log : Log) (d : Disk) (r : Record_) (k : nat) : Disk :=
  append_file d (segment log) (take k (frame (record_encode r))).

(** ** Compaction *)

(** The text after the last [c], and the one before it. *)
Fixpoint after_last (c : ascii) (from s : string) : string :=
  match s with
  | EmptyString => from
  | String a s' => if Ascii.eqb a c then after_last c s' s' else after_last c from s'
  end.

Fixpoint before_last (c : ascii) (s : string) : option string :=
  match s with
  | EmptyString => None
  | String a s' =>
      match before_last c s' with
      | Some p => Some (String a p)
      | None => if Ascii.eqb a c then Some EmptyString else None
      end
  end.

(** [Path::file_stem] of a file name. *)
Definition file_stem (name : string) : string :=
  match before_last "." name with
  | None | Some EmptyString => name
  | Some stem => stem
  end.

Fixpoint zeros (n : nat) : string := match n with O => EmptyString | S n' => String "0" (zeros n') end.

(** [format!("{:08}", n)] *)
Definition pad8 (n : Z) : string :=
  let digits := pretty (Z.to_N n) in (zeros (8 - String.length digits) +:+ digits)%string.

Definition next_segment_name (log : Log) : string :=
  let stem := file_stem (segment log) in
  let current := default 1 (parse_dec (tx (after_last "-" stem stem))) in
  ("segment-" +:+ pad8 (current + 1) +:+ ".log")%string.

Definition batch_frame (b : Batch) : list N := frame (record_encode (batch_record b)).

(** The file being written, its span index and where the next epoch starts. *)
Record Rewrite := mkRewrite { written : list N; rebuilt : list EpochSpan; rebuilt_start : Z }.

Definition rewrite_epoch (log : Log) (d : Disk) (w : Rewrite) (epoch : Z) : result LogError Rewrite :=
  let? batches := log_epoch log d epoch in
  let out := written w ++ flat_map batch_frame batches in
  let span := mkSpan (rebuilt_start w) (Z.of_nat (length out)) in
  let out := out ++ frame (record_encode (RSealEpoch epoch)) in
  Ok (mkRewrite out (rebuilt w ++ [span]) (Z.of_nat (length out))).

(** [(anchor + 1)..=sealed_epoch] *)
Definition epochs_after (anchor last : Z) : list Z :=
  map (fun i => anchor + 1 + Z.of_nat i) (seq 0 (Z.to_nat (last - anchor))).

(** P6: the suffix after the anchor, then the batches not sealed yet. *)
Definition rewrite_suffix (log : Log) (d : Disk) (anchor : Z) : result LogError Rewrite :=
  let? w := try_fold (rewrite_epoch log d) (mkRewrite [] [] 0) (epochs_after anchor (log_sealed_epoch log)) in
  Ok (mkRewrite (written w ++ flat_map batch_frame (log_pending log)) (rebuilt w) (rebuilt_start w)).

(** P6 to P8.  [snapshot] is the file name of the published snapshot.  A partial
    file an earlier failure left is never read. *)
Definition compact (log : Log) (d : Disk) (faults : FaultInjector) (anchor : Z) (snapshot : option string)
    : FaultInjector * Disk * Log * result LogError unit :=
  if anchor <=? retained_from log then (faults, d, log, Err (NothingToCompact anchor (retained_from log)))
  else if log_sealed_epoch log <? anchor then
    (faults, d, log, Err (LogEpochOutOfRange anchor (log_sealed_epoch log)))
  else
    match snapshot with
    | None => (faults, d, log, Err (LogCorrupt "snapshot path has no name"))
    | Some name =>
        let next := next_segment_name log in
        match rewrite_suffix log d anchor with
        | Err e => (faults, d, log, Err e)
        | Ok w =>
            let d := mkDisk (bt_insert next (written w) (segments d)) (pointer d) (snapshots d) in
            let '(faults, hit) := reached faults CompactAfterSegmentBeforePointer in
            if hit then (faults, d, log, fault CompactAfterSegmentBeforePointer)
            else
              let d := write_pointer d (mkPointer next (Some name) anchor) in
              let '(faults, hit) := reached faults CompactAfterPointerBeforeTrim in
              if hit then (faults, d, log, fault CompactAfterPointerBeforeTrim)
              else
                let d := if decide (segment log = next) then d
                         else mkDisk (bt_remove (segment log) (segments d)) (pointer d) (snapshots d) in
                (faults, d,
                 mkLog (sync log) (log_catalog log) (dedup log) (log_pending log) (rebuilt w)
                   (Z.of_nat (length (written w))) (rebuilt_start w) next anchor (Some name), Ok tt)
        end
    end.

(** ** Streaming ([schweep-log]: stream.rs) *)

Record SealedEpoch := mkSealedEpoch { sealed_number : Z; sealed_batches : list Batch }.

(** The iterator: what is left of the file, the records not closed by a seal. *)
Record Epochs := mkEpochs { ep_reader : list N; ep_pending : list Batch; ep_done : bool }.

Definition epochs_open (bytes : list N) : Epochs := mkEpochs bytes [] false.

(** [None] at the torn tail or the end of the file. *)
Definition next_record (reader : list N) : result LogError (option (Record_ * list N)) :=
  match fill 8 reader with
  | None => Ok None
  | Some (header, reader) =>
      let len := from_be_bytes (take 4 header) in
      let expected := from_be_bytes (drop 4 header) in
      match fill len reader with
      | None => Ok None
      | Some (payload, reader) =>
          if negb (crc32 payload =? expected) then Ok None
          else let? record := record_decode payload in Ok (Some (record, reader))
      end
  end.

(** The [loop] of [Iterator::next]. *)
Fixpoint epochs_loop (fuel : nat) (reader : list N) (pending : list Batch)
    : Epochs * option (result LogError SealedEpoch) :=
  match fuel with
  | O => (mkEpochs reader pending true, None)
  | S fuel' =>
      match next_record reader with
      | Err e => (mkEpochs reader pending true, Some (Err e))
      | Ok None => (mkEpochs reader pending true, None)
      | Ok (Some (RAppend src tok tab es, reader')) => epochs_loop fuel' reader' (pending ++ [mkLogBatch src tok tab es])
      | Ok (Some (RSealEpoch epoch, reader')) =>
          (mkEpochs reader' [] false, Some (Ok (mkSealedEpoch epoch pending)))
      end
  end.

Definition epochs_next (e : Epochs) : Epochs * option (result LogError SealedEpoch) :=
  if ep_done e then (e, None) else epochs_loop (S (length (ep_reader e))) (ep_reader e) (ep_pending e).

(** [collect()]: until the iterator ends. *)
Fixpoint epochs_collect (fuel : nat) (e : Epochs) : list (result LogError SealedEpoch) :=
  match fuel with
  | O => []
  | S fuel' => match epochs_next e with (e', Some x) => x :: epochs_collect fuel' e' | (_, None) => [] end
  end.

(** ** The two readers of a frame *)

Definition with_rest (bytes : list N) (r : result LogError (option (Record_ * Z)))
    : result LogError (option (Record_ * Z * list N)) :=
  match r with
  | Ok (Some (record, consumed)) => Ok (Some (record, consumed, drop (Z.to_nat consumed) bytes))
  | Ok None => Ok None
  | Err e => Err e
  end.

Lemma from_be_bytes_nonneg l : 0 <= from_be_bytes l.
Proof.
  unfold from_be_bytes. enough (forall acc, 0 <= acc -> 0 <= fold_left (fun acc b => acc * 256 + Z.of_N b) l acc) by auto with lia.
  induction l as [|b l IH]; intros acc Ha; simpl; [done|]. apply IH. lia.
Qed.

Lemma read_one_framed bytes : read_one bytes = with_rest bytes (read_framed bytes).
Proof.
  unfold read_one, read_framed, fill, split_at. change (Z.to_nat 8) with 8%nat.
  destruct (Nat.leb_spec 8 (length bytes)) as [Hl|Hl].
  2: { by rewrite (proj2 (Z.leb_gt _ _)) by lia. }
  rewrite (proj2 (Z.leb_le _ _)) by lia.
  pose proof (from_be_bytes_nonneg (take 4 (take 8 bytes))) as Hn.
  destruct (Z.leb_spec (from_be_bytes (take 4 (take 8 bytes))) (Z.of_nat (length (drop 8 bytes)))); [|done]. cbn [negb].
  destruct (crc32 _ =? _); [|done]. cbn [negb]. destruct (record_decode _); [|done]. cbn [with_rest].
  do 3 f_equal. rewrite drop_drop. f_equal. lia.
Qed.

(** Every record takes at least its header, so a scan ends within the file. *)
Lemma read_one_shorter bytes r consumed rest :
  read_one bytes = Ok (Some (r, consumed, rest)) -> (length rest + 8 <= length bytes)%nat.
Proof.
  unfold read_one, fill. destruct (Z.leb_spec 8 (Z.of_nat (length bytes))) as [H8|]; [|done].
  destruct (_ <=? Z.of_nat (length (drop _ bytes))); [|done].
  destruct (negb _); [done|]. destruct (record_decode _); [|done]. intros [= _ _ <-]. rewrite !length_drop. lia.
Qed.

Lemma replay_loop_fuel n m bytes faults st :
  (length bytes < n)%nat -> (length bytes < m)%nat ->
  replay_loop n bytes faults st = replay_loop m bytes faults st.
Proof.
  revert m bytes faults st. induction n as [|n IH]; intros m bytes faults st Hn Hm; [lia|].
  destruct m as [|m]; [lia|]. cbn [replay_loop].
  destruct (read_one bytes) as [[[[r consumed] rest]|]|] eqn:E; [|done..]. apply read_one_shorter in E.
  destruct (if rp_replayed (bump_replayed st) mod 4 =? 0 then _ else _) as [f hit]. destruct hit; [done|]. apply IH; lia.
Qed.

(** ** Frames of records the log writes *)

Definition rframe (r : Record_) : list N := frame (record_encode r).

Definition record_ok (r : Record_) : bool := valid_record r && (Z.of_nat (length (record_encode r)) <? 2 ^ 32).

Lemma read_one_rframe r rest :
  record_ok r = true -> read_one (rframe r ++ rest) = Ok (Some (r, Z.of_nat (length (rframe r)), rest)).
Proof.
  unfold record_ok. intros [Hv Hl]%andb_true_iff. apply Z.ltb_lt in Hl.
  rewrite read_one_framed. unfold rframe. rewrite read_framed_frame by (done || apply record_encode_ok).
  rewrite decode_encode_record by done. cbn [with_rest]. by rewrite Nat2Z.id, drop_app_length.
Qed.

Lemma rframe_length r : (8 <= length (rframe r))%nat.
Proof. unfold rframe. rewrite frame_length. lia. Qed.

(** ** Replaying *)

Definition replay_step (st : Replay) (r : Record_) : Replay :=
  replay_record (bump_replayed st) r (Z.of_nat (length (rframe r))).

(** Replaying written records, up to where the reader finds no frame. *)
Lemma replay_frames rs tail fuel f st :
  forallb record_ok rs = true -> read_one tail = Ok None -> unplanned f ->
  (length (flat_map rframe rs ++ tail) < fuel)%nat ->
  exists f', unplanned f' /\ replay_loop fuel (flat_map rframe rs ++ tail) f st = (f', Ok (fold_left replay_step rs st)).
Proof.
  intros Hok Ht. revert fuel f st. induction rs as [|r rs IH]; intros fuel f st Hf Hlt; (destruct fuel as [|fuel]; [lia|]).
  - exists f. split; [done|]. cbn [flat_map app replay_loop]. by rewrite Ht.
  - simpl in Hok. apply andb_true_iff in Hok as [Hr Hrs]. cbn [flat_map] in *. rewrite <- app_assoc in *.
    cbn [replay_loop]. rewrite read_one_rframe by done. cbn [fold_left]. unfold replay_step at 2.
    set (st1 := bump_replayed st). rewrite length_app in Hlt. pose proof (rframe_length r).
    destruct (rp_replayed st1 mod 4 =? 0).
    + destruct (reached f RecoveryMidReplay) as [f1 hit] eqn:Er. apply reached_unplanned in Er as [-> Hf1]; [|done].
      apply IH; [done|done|lia].
    + apply IH; [done|done|lia].
Qed.

Lemma read_one_nil : read_one [] = Ok None.
Proof. done. Qed.

(** A frame cut short by a crash is where reading stops. *)
Lemma read_one_torn r k :
  record_ok r = true -> (k < length (rframe r))%nat -> read_one (take k (rframe r)) = Ok None.
Proof.
  unfold record_ok. intros [_ Hl]%andb_true_iff Hk. apply Z.ltb_lt in Hl.
  rewrite read_one_framed. unfold rframe. by rewrite read_framed_torn.
Qed.

(** ** The pointer comes back *)

(** What a line of the pointer can name. *)
Definition pointer_name (s : string) : bool := utf8_valid (tx s) && one_line (tx s).

Definition valid_pointer (p : Pointer) : bool :=
  pointer_name (pointer_segment p) &&
  match pointer_snapshot p with Some s => pointer_name s && negb (bool_decide (s = "-"%string)) | None => true end &&
  (0 <=? pointer_retained_from p) && (pointer_retained_from p <? 2 ^ 64).

Lemma tx_inj s t : tx s = tx t -> s = t.
Proof. apply string_bytes_inj. Qed.

Lemma utf8_bytes_ok l : utf8_valid l = true -> bytes_ok l.
Proof.
  assert (forall n l, (length l <= n)%nat -> utf8_valid l = true -> bytes_ok l) as H.
  2: { by apply (H (length l)). }
  clear l. induction n as [|n IH]; intros l Hn Hl; [destruct l; simpl in Hn; [constructor|lia]|].
  destruct l as [|b0 l0]; [constructor|]. cbn [utf8_valid] in Hl. unfold is_cont in Hl.
  destruct (N.ltb_spec b0 128); [constructor; [lia|apply IH; [simpl in Hn; lia|done]]|].
  destruct l0 as [|b1 l1]; [done|]. destruct ((194 <=? b0) && (b0 <=? 223))%N eqn:E0;
    [|destruct l1 as [|b2 l2]; [done|]; destruct ((224 <=? b0) && (b0 <=? 239))%N eqn:E1;
       [|destruct l2 as [|b3 l3]; [done|]]];
    rewrite ?andb_true_iff, ?N.leb_le in *; destruct_and?;
    repeat match goal with H : (if (?a =? ?b)%N then _ else _) = true |- _ => destruct (N.eqb_spec a b) end;
    rewrite ?N.leb_le in *; repeat (constructor; [lia|]); (apply IH; [simpl in Hn; lia|done]).
Qed.

Lemma crc32_text l : utf8_valid l = true -> 0 <= crc32 l < 2 ^ 32.
Proof. intros Hl. by apply crc32_range, utf8_bytes_ok. Qed.

Lemma valid_pointer_facts p :
  valid_pointer p = true ->
  pointer_name (pointer_segment p) = true /\ pointer_name (default "-"%string (pointer_snapshot p)) = true /\
  pointer_snapshot p <> Some "-"%string /\ 0 <= pointer_retained_from p < 2 ^ 64.
Proof.
  unfold valid_pointer. rewrite !andb_true_iff, Z.leb_le, Z.ltb_lt. intros (((Hs & Hn) & H0) & H1). split_and!; try done.
  - destruct (pointer_snapshot p); [|done]. by apply andb_true_iff in Hn as [? _].
  - destruct (pointer_snapshot p) as [n|]; [|done]. apply andb_true_iff in Hn as [_ Hn].
    apply negb_true_iff, bool_decide_eq_false in Hn. congruence.
Qed.

(** A line [key=value] of the pointer. *)
Lemma pointer_line_key st k v :
  61%N ∉ tx k ->
  pointer_line st (tx k ++ 61%N :: v) =
  let '(segment, snapshot, from) := st in
  if decide (k = "segment"%string) then Ok (Some (bytes_string v), snapshot, from)
  else if decide (k = "snapshot"%string) then
    Ok (segment, if decide (v = tx "-") then None else Some (bytes_string v), from)
  else if decide (k = "retained_from"%string) then
    let? from := ok_or (parse_dec v) (LogCorrupt "pointer epoch is not a number") in
    Ok (segment, snapshot, from)
  else Ok st.
Proof.
  intros Hk. destruct st as [[s n] f]. unfold pointer_line. rewrite split_once_app by done.
  assert (forall t, tx k = tx t <-> k = t) as E by (split; [apply tx_inj|congruence]).
  by repeat (rewrite (decide_ext _ _ _ _ (E _)); case_decide).
Qed.

Lemma pointer_body_lines p : valid_pointer p = true ->
  lines (pointer_body p) =
    [tx "schweep-log pointer v1"; tx "segment" ++ 61%N :: tx (pointer_segment p);
     tx "snapshot" ++ 61%N :: tx (default "-"%string (pointer_snapshot p));
     tx "retained_from" ++ 61%N :: dec (pointer_retained_from p)] /\
  utf8_valid (pointer_body p) = true.
Proof.
  intros ((Hsu & Hso)%andb_true_iff & (Hnu & Hno)%andb_true_iff & _ & _)%valid_pointer_facts. unfold pointer_body. split.
  - rewrite lines_flat; [done|]. cbn [forallb]. by rewrite !one_line_key by (done || apply one_line_plain, dec_plain).
  - apply flat_lines_utf8. cbn [forallb]. by rewrite !utf8_key by (done || apply plain_utf8, dec_plain).
Qed.

Lemma pointer_round_trip p : valid_pointer p = true -> pointer_decode (pointer_encode p) = Ok p.
Proof.
  intros Hp. destruct (pointer_body_lines p Hp) as [Hl Hu]. apply valid_pointer_facts in Hp as (_ & _ & Hdash & Hf).
  unfold pointer_decode, pointer_encode. pose proof (crc32_text _ Hu) as Hc.
  rewrite utf8_valid_app, utf8_key by (done || apply line_utf8, plain_utf8, hex_digits_plain). cbn [negb].
  destruct (checksum_parts (tx "crc") (pointer_body p) (crc32 (pointer_body p))) as [Hr Hx]; [not_in|done|].
  change (tx "crc=") with (tx "crc" ++ [61%N]). rewrite Hr. cbn [ok_or]. rewrite Hx. cbn [ok_or]. rewrite Z.eqb_refl, Hl.
  cbn [negb try_fold]. change (pointer_line (None, None, 0) (tx "schweep-log pointer v1")) with
    (@Ok LogError PointerFields (None, None, 0)). cbn iota beta.
  rewrite !pointer_line_key by not_in. simpl. rewrite parse_dec_dec by done. simpl.
  rewrite !bytes_string_tx. destruct p as [s [n|] f]; simpl in *; [|done].
  case_decide as E; [|done]. apply (tx_inj n "-") in E. congruence.
Qed.

(** ** Segment names *)

Lemma zeros_plain n : plain (tx (zeros n)) = true.
Proof. by induction n. Qed.

Lemma next_segment_pointer log : pointer_name (next_segment_name log) = true.
Proof.
  assert (plain (tx (next_segment_name log)) = true) as Hp.
  { unfold next_segment_name, pad8. rewrite !tx_app, !plain_app, zeros_plain. cbn [andb].
    pose proof (dec_plain (default 1 (parse_dec (tx (after_last "-" (file_stem (segment log)) (file_stem (segment log))))) + 1)) as H.
    unfold dec in H. by rewrite H. }
  unfold pointer_name. by rewrite plain_utf8, one_line_plain.
Qed.
