(* ===== verification/LogCorrect.v ===== *)
(** * The log keeps its promises

    An abstract log (the acknowledged tokens, the sealed epochs, the pending
    batches) and the proof that the log on disk refines it through appends,
    seals, restarts and compactions; and what a torn write does to it. *)

From Stdlib Require Import ZArith NArith Lia.
From stdpp Require Import base list strings pretty.
From S2P Require Import Prelude BTree Value ZSet Bind Codec Text LogRecord Log.

(** ** The abstract log *)

Record ALog := mkALog {
  a_known : btree string Z;
  a_from : Z;
  a_epochs : list (list Batch);
  a_pending : list Batch
}.

Definition abs_append (catalog : Catalog) (a : ALog) (b : Batch) : ALog * result LogError Ack :=
  let validated :=
    let? schema := ok_or (bt_get (batch_table b) catalog) (LogUnknownTable (batch_table b)) in
    try_for (log_check_row schema) (batch_rows b) in
  match validated with
  | Err e => (a, Err e)
  | Ok _ =>
      match bt_get (dedup_token b) (a_known a) with
      | Some known =>
          (a, if known =? content_hash (batch_record b) then Ok DroppedAsReplay
              else Err (TokenReused (source_id b) (dedup_token b)))
      | None =>
          (mkALog (bt_insert (dedup_token b) (content_hash (batch_record b)) (a_known a)) (a_from a) (a_epochs a)
             (a_pending a ++ [b]), Ok Appended)
      end
  end.

Definition abs_sealed (a : ALog) : Z := a_from a + Z.of_nat (length (a_epochs a)).

Definition abs_seal (a : ALog) : ALog * result LogError Z :=
  (mkALog (a_known a) (a_from a) (a_epochs a ++ [a_pending a]) [], Ok (abs_sealed a + 1)).

Definition abs_epoch (a : ALog) (epoch : Z) : result LogError (list Batch) :=
  if negb (epoch =? 0) && (epoch <=? a_from a) then Err (EpochCompacted epoch (a_from a))
  else if (epoch =? 0) || (abs_sealed a <? epoch) then Err (LogEpochOutOfRange epoch (abs_sealed a))
  else ok_or (a_epochs a !! Z.to_nat (epoch - a_from a - 1)) (LogEpochOutOfRange epoch (abs_sealed a)).

Definition abs_compact (a : ALog) (anchor : Z) : ALog * result LogError unit :=
  if anchor <=? a_from a then (a, Err (NothingToCompact anchor (a_from a)))
  else if abs_sealed a <? anchor then (a, Err (LogEpochOutOfRange anchor (abs_sealed a)))
  else (mkALog (a_known a) anchor (drop (Z.to_nat (anchor - a_from a)) (a_epochs a)) (a_pending a), Ok tt).

(** ** The records of an abstract log *)

Fixpoint records_from (n : Z) (eps : list (list Batch)) : list Record_ :=
  match eps with
  | [] => []
  | bs :: eps' => map batch_record bs ++ RSealEpoch n :: records_from (n + 1) eps'
  end.

Definition records (a : ALog) : list Record_ :=
  records_from (a_from a + 1) (a_epochs a) ++ map batch_record (a_pending a).

Definition tokens_of (bs : list Batch) (m : btree string Z) : btree string Z :=
  fold_left (fun m b => bt_insert (dedup_token b) (content_hash (batch_record b)) m) bs m.

Definition bytes_of (bs : list Batch) : list N := flat_map batch_frame bs.
Definition blen (l : list N) : Z := Z.of_nat (length l).

Lemma rframe_eq r : frame (record_encode r) = rframe r.
Proof. reflexivity. Qed.

Lemma batch_frame_eq b : batch_frame b = rframe (batch_record b).
Proof. reflexivity. Qed.

#[local] Opaque rframe batch_frame.

Lemma bytes_of_frames bs : flat_map rframe (map batch_record bs) = bytes_of bs.
Proof. induction bs as [|b bs IH]; [done|]. cbn. by rewrite IH, batch_frame_eq. Qed.

(** The span index of epochs laid out from [at]. *)
Fixpoint spans (n : Z) (at_ : Z) (eps : list (list Batch)) : list EpochSpan :=
  match eps with
  | [] => []
  | bs :: eps' =>
      let e := at_ + blen (bytes_of bs) in
      mkSpan at_ e :: spans (n + 1) (e + blen (rframe (RSealEpoch n))) eps'
  end.

Definition same_replay (st : Replay) (at_ start : Z) (pend : list Batch) (known : btree string Z) (sp : list EpochSpan) : Prop :=
  rp_at st = at_ /\ rp_epoch_start st = start /\ rp_pending st = pend /\ rp_dedup st = known /\ rp_sealed st = sp.

Lemma replay_batches bs st at_ start pend known sp :
  same_replay st at_ start pend known sp ->
  same_replay (fold_left replay_step (map batch_record bs) st) (at_ + blen (bytes_of bs)) start (pend ++ bs)
    (tokens_of bs known) sp.
Proof.
  revert st at_ pend known. induction bs as [|b bs IH]; intros st at_ pend known Hs; cbn [map fold_left].
  - destruct Hs as (<- & <- & <- & <- & <-). unfold same_replay, blen. simpl. rewrite app_nil_r. split_and!; (done || lia).
  - unfold bytes_of, tokens_of. cbn [flat_map fold_left]. fold (bytes_of bs).
    replace (at_ + blen (batch_frame b ++ bytes_of bs)) with (at_ + blen (batch_frame b) + blen (bytes_of bs))
      by (unfold blen; rewrite length_app; lia).
    replace (pend ++ b :: bs) with ((pend ++ [b]) ++ bs) by (by rewrite <- app_assoc).
    apply IH. destruct Hs as (<- & <- & <- & <- & <-). destruct b. done.
Qed.

Lemma replay_epochs eps : forall n st at_ known sp,
  same_replay st at_ at_ [] known sp ->
  let at' := at_ + blen (flat_map rframe (records_from n eps)) in
  same_replay (fold_left replay_step (records_from n eps) st) at' at' [] (tokens_of (concat eps) known)
    (sp ++ spans n at_ eps).
Proof.
  induction eps as [|bs eps IH]; intros n st at_ known sp Hs; cbn [records_from fold_left spans concat].
  - cbn. unfold blen. simpl. by rewrite Z.add_0_r, app_nil_r.
  - rewrite fold_left_app. cbn [fold_left]. apply (replay_batches bs) in Hs. simpl in Hs.
    set (st1 := fold_left replay_step (map batch_record bs) st) in *.
    assert (same_replay (replay_step st1 (RSealEpoch n))
      (at_ + blen (bytes_of bs) + blen (rframe (RSealEpoch n))) (at_ + blen (bytes_of bs) + blen (rframe (RSealEpoch n)))
      [] (tokens_of bs known) (sp ++ [mkSpan at_ (at_ + blen (bytes_of bs))])) as Hs'.
    { destruct Hs as (<- & <- & _ & <- & <-). done. }
    apply (IH (n + 1)) in Hs'. unfold tokens_of in Hs'. rewrite <- fold_left_app in Hs'. rewrite <- app_assoc in Hs'.
    cbn [flat_map]. rewrite flat_map_app. cbn [flat_map].
    rewrite bytes_of_frames.
    replace (at_ + blen (bytes_of bs ++ rframe (RSealEpoch n) ++ flat_map rframe (records_from (n + 1) eps))) with
      (at_ + blen (bytes_of bs) + blen (rframe (RSealEpoch n)) + blen (flat_map rframe (records_from (n + 1) eps)))
      by (unfold blen; rewrite !length_app; lia).
    exact Hs'.
Qed.

(** ** The log of an abstract log *)

Section refine.
Variables (policy : SyncPolicy) (catalog : Catalog).

Definition epoch_bytes (a : ALog) : list N := flat_map rframe (records_from (a_from a + 1) (a_epochs a)).
Definition all_bytes (a : ALog) : list N := flat_map rframe (records a).
Definition batches (a : ALog) : list Batch := concat (a_epochs a) ++ a_pending a.

Definition log_of (seg : string) (snap : option string) (base : btree string Z) (a : ALog) : Log :=
  mkLog policy catalog (tokens_of (batches a) base) (a_pending a) (spans (a_from a + 1) 0 (a_epochs a))
    (blen (all_bytes a)) (blen (epoch_bytes a)) seg (a_from a) snap.

Lemma all_bytes_split a : all_bytes a = epoch_bytes a ++ bytes_of (a_pending a).
Proof. unfold all_bytes, records. by rewrite flat_map_app, bytes_of_frames. Qed.

Lemma replay_all a base :
  same_replay (fold_left replay_step (records a) (mkReplay 0 0 [] 0 base [])) (blen (all_bytes a)) (blen (epoch_bytes a))
    (a_pending a) (tokens_of (batches a) base) (spans (a_from a + 1) 0 (a_epochs a)).
Proof.
  unfold records. rewrite fold_left_app.
  assert (same_replay (mkReplay 0 0 [] 0 base []) 0 0 [] base []) as Hs by done.
  apply (replay_epochs (a_epochs a) (a_from a + 1)) in Hs. apply (replay_batches (a_pending a)) in Hs.
  rewrite all_bytes_split. unfold blen in *. rewrite length_app, Nat2Z.inj_add.
  unfold batches, tokens_of in *. rewrite fold_left_app. exact Hs.
Qed.

(** What [LOG] names, when it names something. *)
Definition points_to (d : Disk) (seg : string) (snap : option string) (from : Z) : Prop :=
  match read_pointer d with
  | None => seg = DEFAULT_SEGMENT /\ snap = None /\ from = 0
  | Some p => p = mkPointer seg snap from /\ bt_contains seg (segments d) = true /\
              match snap with Some name => snapshot_usable d name = true | None => True end
  end.

Lemma points_to_authority d seg snap from : points_to d seg snap from -> authority d = (seg, snap, from).
Proof.
  unfold points_to, authority. destruct (read_pointer d) as [p|]; [|by intros (-> & -> & ->)].
  intros (-> & Hs & Hn). simpl. rewrite Hs. by destruct snap; [rewrite Hn|].
Qed.

(** Opening a segment that holds the records of [a], torn or not at its end. *)
Lemma open_segment d seg snap a base tail f :
  points_to d seg snap (a_from a) -> seed_dedup d snap = Ok base ->
  segment_bytes d seg = all_bytes a ++ tail -> read_one tail = Ok None ->
  forallb record_ok (records a) = true -> unplanned f ->
  exists f', unplanned f' /\ log_open d catalog f policy = (f', Ok (log_of seg snap base a)).
Proof.
  intros Hp Hseed Hb Ht Hok Hf. unfold log_open. rewrite (points_to_authority _ _ _ _ Hp), Hseed.
  unfold replay_from_disk, segment_bytes in *.
  cbn [sync log_catalog dedup log_pending sealed segment retained_from log_snapshot]. destruct (bt_get seg (segments d)) as [bytes|]; simpl in Hb.
  - subst bytes. destruct (replay_frames (records a) tail (S (length (all_bytes a ++ tail))) f (mkReplay 0 0 [] 0 base []))
      as (f' & Hf' & E); [done|done|done|unfold all_bytes; lia|]. fold (all_bytes a) in E. rewrite E.
    exists f'. split; [done|]. destruct (replay_all a base) as (-> & -> & -> & -> & ->). done.
  - exists f. split; [done|]. symmetry in Hb. apply app_nil in Hb as [Hb _].
    destruct (replay_all a base) as (Hat & Hst & Hpe & Hde & Hse).
    assert (records a = []) as Hr.
    { unfold all_bytes in Hb. destruct (records a) as [|r rs]; [done|]. exfalso. cbn [flat_map] in Hb.
      apply (f_equal length) in Hb. rewrite length_app in Hb. pose proof (rframe_length r). cbn [length] in Hb. lia. }
    rewrite Hr in *. simpl in Hat, Hst, Hpe, Hde, Hse. unfold log_of. by rewrite <- Hat, <- Hst, <- Hpe, <- Hde, <- Hse.
Qed.

Record log_inv (base : btree string Z) (d : Disk) (log : Log) (a : ALog) : Prop := {
  li_log : log = log_of (segment log) (log_snapshot log) base a;
  li_known : a_known a = tokens_of (batches a) base;
  li_ok : forallb record_ok (records a) = true;
  li_bytes : segment_bytes d (segment log) = all_bytes a;
  li_from : 0 <= a_from a;
  li_sorted : bt_sorted (segments d);
  li_points : points_to d (segment log) (log_snapshot log) (a_from a);
  li_seed : seed_dedup d (log_snapshot log) = Ok base
}.

(** Restarting changes nothing. *)
Lemma reopen_inv base d log a f :
  log_inv base d log a -> unplanned f -> exists f', unplanned f' /\ log_open d catalog f policy = (f', Ok log).
Proof.
  intros [Hl _ Hok Hb _ _ Hp Hs] Hf.
  destruct (open_segment d _ _ a base [] f Hp Hs) as (f' & Hf' & Ho);
    [by rewrite app_nil_r|apply read_one_nil|done|done|].
  exists f'. by rewrite Ho, <- Hl.
Qed.

Lemma append_file_bytes d seg bytes : segment_bytes (append_file d seg bytes) seg = segment_bytes d seg ++ bytes.
Proof. unfold segment_bytes at 1, append_file. simpl. by rewrite bt_get_insert_eq. Qed.

Lemma append_file_points d seg bytes snap from :
  points_to d seg snap from -> points_to (append_file d seg bytes) seg snap from.
Proof.
  unfold points_to. change (read_pointer (append_file d seg bytes)) with (read_pointer d).
  destruct (read_pointer d); [|done]. intros (-> & _ & Hn).
  split_and!; [done| |done]. unfold bt_contains, append_file. simpl. by rewrite bt_get_insert_eq.
Qed.

(** A frame at the end of the segment. *)
Lemma append_inv base d log a r log' a' :
  log_inv base d log a -> record_ok r = true -> records a' = records a ++ [r] -> a_from a' = a_from a ->
  segment log' = segment log -> log_snapshot log' = log_snapshot log ->
  log' = log_of (segment log) (log_snapshot log) base a' -> a_known a' = tokens_of (batches a') base ->
  log_inv base (append_file d (segment log) (rframe r)) log' a'.
Proof.
  intros [Hl Hk Hok Hb Hfr Hso Hp Hs] Hr Hrec Hfrom Hseg Hsnap Hl' Hk'. split.
  - by rewrite Hseg, Hsnap.
  - done.
  - rewrite Hrec, forallb_app, Hok. simpl. by rewrite Hr.
  - rewrite Hseg, append_file_bytes, Hb. unfold all_bytes. rewrite Hrec, flat_map_app. simpl. by rewrite app_nil_r.
  - by rewrite Hfrom.
  - by apply bt_insert_sorted.
  - rewrite Hseg, Hsnap, Hfrom. by apply append_file_points.
  - by rewrite Hsnap.
Qed.

Lemma log_dedup base d log a : log_inv base d log a -> dedup log = a_known a.
Proof. intros [Hl Hk _ _ _ _ _ _]. rewrite Hl. simpl. by rewrite Hk. Qed.

Lemma index_append_inv base d log a b :
  log_inv base d log a -> record_ok (batch_record b) = true ->
  log_inv base (append_file d (segment log) (rframe (batch_record b))) (index_append log b)
    (mkALog (bt_insert (dedup_token b) (content_hash (batch_record b)) (a_known a)) (a_from a) (a_epochs a)
       (a_pending a ++ [b])).
Proof.
  intros Hinv Hr. pose proof Hinv as [Hl Hk Hok Hb Hfr Hso Hp Hs].
  set (a' := mkALog _ _ _ _).
  assert (records a' = records a ++ [batch_record b]) as Hrec.
  { unfold records. simpl. by rewrite map_app, app_assoc. }
  assert (batches a' = batches a ++ [b]) as Hbat by (unfold batches; simpl; by rewrite app_assoc).
  eapply append_inv; [exact Hinv|exact Hr|exact Hrec|done|done|done| |].
  - rewrite Hl at 1. unfold index_append, log_of. cbn [segment log_snapshot sync log_catalog dedup log_pending sealed
      segment_len epoch_start retained_from]. f_equal.
    + rewrite Hbat. unfold tokens_of. by rewrite fold_left_app.
    + unfold all_bytes, blen. rewrite Hrec, flat_map_app, length_app. cbn [flat_map].
      rewrite app_nil_r, rframe_eq. lia.
  - simpl. rewrite Hbat, Hk. unfold tokens_of. by rewrite fold_left_app.
Qed.

Lemma log_append_refines base d log a f b :
  log_inv base d log a -> record_ok (batch_record b) = true -> unplanned f ->
  exists f' d' log', log_append log d f b = (f', d', log', (abs_append catalog a b).2) /\ unplanned f' /\
    log_inv base d' log' (abs_append catalog a b).1.
Proof.
  intros Hinv Hr Hf. unfold log_append, abs_append, log_validate. seam_off Hf1. rewrite (log_dedup _ _ _ _ Hinv).
  assert (log_catalog log = catalog) as -> by (rewrite (li_log _ _ _ _ Hinv); done).
  destruct (let? schema := _ in _) as [[]|e]; [|by eexists _, _, _].
  destruct (bt_get (dedup_token b) (a_known a)) as [known|].
  { destruct (known =? content_hash (batch_record b)); by eexists _, _, _. }
  unfold append_write. seam_off Hf2. seam_off Hf3. seam_off Hf4. seam_off Hf5.
  eexists _, _, _. split_and!; [reflexivity|done|].
  rewrite rframe_eq. by apply index_append_inv.
Qed.

Lemma spans_length eps : forall n at_, length (spans n at_ eps) = length eps.
Proof. induction eps as [|bs eps IH]; intros n at_; simpl; [done|]. by rewrite IH. Qed.

Lemma log_sealed_of base d log a : log_inv base d log a -> log_sealed_epoch log = abs_sealed a.
Proof. intros Hinv. rewrite (li_log _ _ _ _ Hinv). unfold log_sealed_epoch, abs_sealed. simpl. by rewrite spans_length. Qed.

Lemma records_from_app eps eps' : forall n,
  records_from n (eps ++ eps') = records_from n eps ++ records_from (n + Z.of_nat (length eps)) eps'.
Proof.
  induction eps as [|bs eps IH]; intros n; cbn [app records_from length]; [by rewrite Z.add_0_r|].
  replace (n + Z.of_nat (S (length eps))) with (n + 1 + Z.of_nat (length eps)) by lia.
  by rewrite IH, <- app_assoc.
Qed.

Lemma spans_app eps eps' : forall n at_,
  spans n at_ (eps ++ eps') = spans n at_ eps ++
    spans (n + Z.of_nat (length eps)) (at_ + blen (flat_map rframe (records_from n eps))) eps'.
Proof.
  induction eps as [|bs eps IH]; intros n at_; cbn [app records_from length spans flat_map].
  - unfold blen. simpl. by rewrite !Z.add_0_r.
  - replace (n + Z.of_nat (S (length eps))) with (n + 1 + Z.of_nat (length eps)) by lia.
    rewrite IH, flat_map_app, bytes_of_frames. cbn [app flat_map]. do 3 f_equal.
    unfold blen. rewrite !length_app. lia.
Qed.

Lemma seal_record_ok e : 0 <= e < 2 ^ 64 -> record_ok (RSealEpoch e) = true.
Proof.
  intros He. unfold record_ok. simpl. by rewrite (proj2 (Z.leb_le _ _)), (proj2 (Z.ltb_lt _ _)) by lia.
Qed.

Lemma log_seal_refines base d log a f :
  log_inv base d log a -> abs_sealed a + 1 < 2 ^ 64 -> unplanned f ->
  exists f' d' log', log_seal log d f = (f', d', log', (abs_seal a).2) /\ unplanned f' /\
    log_inv base d' log' (abs_seal a).1.
Proof.
  intros Hinv Hlt Hf. pose proof Hinv as [Hl Hk Hok Hb Hfr Hso Hp Hs]. unfold log_seal. seam_off Hf1.
  rewrite (log_sealed_of _ _ _ _ Hinv). seam_off Hf2. eexists _, _, _. split_and!; [reflexivity|done|].
  set (a' := (abs_seal a).1). rewrite rframe_eq.
  assert (records a' = records a ++ [RSealEpoch (abs_sealed a + 1)]) as Hrec.
  { unfold records, a', abs_seal, abs_sealed. simpl. rewrite records_from_app, <- !app_assoc. simpl.
    rewrite app_nil_r. do 4 f_equal. lia. }
  assert (batches a' = batches a) as Hbat.
  { unfold batches, a'. simpl. rewrite concat_app. simpl. by rewrite !app_nil_r. }
  assert (epoch_bytes a' = all_bytes a') as Heb.
  { unfold epoch_bytes, all_bytes, records, a'. simpl. by rewrite app_nil_r. }
  assert (blen (all_bytes a') = blen (all_bytes a) + blen (rframe (RSealEpoch (abs_sealed a + 1)))) as Hlen.
  { unfold all_bytes, blen. rewrite Hrec, flat_map_app, length_app. cbn [flat_map]. rewrite app_nil_r. lia. }
  eapply append_inv; [exact Hinv| |exact Hrec|done|done|done| |by rewrite Hbat, <- Hk].
  - apply seal_record_ok. unfold abs_sealed in *. lia.
  - rewrite Hl at 1. unfold index_seal, log_of. cbn [segment log_snapshot sync log_catalog dedup log_pending sealed
      segment_len epoch_start retained_from]. fold (blen (rframe (RSealEpoch (abs_sealed a + 1)))).
    rewrite Heb, Hlen, Hbat. f_equal. unfold a'. simpl. rewrite spans_app. simpl.
    do 3 f_equal. rewrite all_bytes_split. unfold blen, epoch_bytes. rewrite length_app. lia.
Qed.

(** ** Reading epochs back *)

Lemma spans_lookup eps : forall n at_ i sp,
  spans n at_ eps !! i = Some sp ->
  exists bs pre post, eps !! i = Some bs /\ flat_map rframe (records_from n eps) = pre ++ bytes_of bs ++ post /\
    span_start sp = at_ + blen pre /\ span_end sp = span_start sp + blen (bytes_of bs).
Proof.
  induction eps as [|bs eps IH]; intros n at_ i sp; cbn [spans records_from]; [done|].
  rewrite flat_map_app, bytes_of_frames. destruct i as [|i]; simpl.
  - intros [= <-]. exists bs, [], (rframe (RSealEpoch n) ++ flat_map rframe (records_from (n + 1) eps)).
    split_and!; [done|done| |done]. unfold blen. simpl. lia.
  - intros (bs' & pre & post & Hi & Hb & Hst & Hen)%IH.
    exists bs', (bytes_of bs ++ rframe (RSealEpoch n) ++ pre), post. split_and!; [done| | |done].
    + by rewrite Hb, <- !app_assoc.
    + rewrite Hst. unfold blen. rewrite !length_app. lia.
Qed.

Lemma epoch_ok eps : forall n i bs,
  forallb record_ok (records_from n eps) = true -> eps !! i = Some bs ->
  forallb (fun b => record_ok (batch_record b)) bs = true.
Proof.
  induction eps as [|bs' eps IH]; intros n i bs; cbn [records_from]; [done|].
  rewrite forallb_app. cbn [forallb]. rewrite !andb_true_iff. intros (Hb & _ & Hr). destruct i as [|i]; simpl.
  - intros [= <-]. rewrite <- Hb. clear. induction bs'; simpl; congruence.
  - by eapply IH.
Qed.

Lemma span_loop_bytes bs : forall fuel acc,
  forallb (fun b => record_ok (batch_record b)) bs = true -> (length (bytes_of bs) < fuel)%nat ->
  span_loop fuel (bytes_of bs) acc = Ok (acc ++ bs).
Proof.
  induction bs as [|b bs IH]; intros fuel acc Hok Hf; (destruct fuel as [|fuel]; [lia|]).
  - simpl. by rewrite app_nil_r.
  - simpl in Hok. apply andb_true_iff in Hok as [Hb Hbs]. unfold bytes_of in *. cbn [flat_map span_loop] in *.
    rewrite length_app in Hf. pose proof (rframe_length (batch_record b)) as Hl.
    rewrite batch_frame_eq in Hf |- *. rewrite read_one_rframe by done.
    unfold batch_record at 1. rewrite IH; [|done|lia]. rewrite <- app_assoc. by destruct b.
Qed.

Lemma bytes_of_nil bs : bytes_of bs = [] -> bs = [].
Proof.
  destruct bs as [|b bs]; [done|]. unfold bytes_of. cbn [flat_map]. intros H. apply (f_equal length) in H.
  rewrite length_app, batch_frame_eq in H. pose proof (rframe_length (batch_record b)). cbn [length] in H. lia.
Qed.

Lemma read_span_refines base d log a i sp :
  log_inv base d log a -> sealed log !! i = Some sp ->
  exists bs, a_epochs a !! i = Some bs /\ read_span log d sp = Ok bs.
Proof.
  intros Hinv Hi. pose proof Hinv as [Hl Hk Hok Hb Hfr Hso Hp Hs]. rewrite Hl in Hi. simpl in Hi.
  apply spans_lookup in Hi as (bs & pre & post & Hbs & Hlay & Hst & Hen). exists bs. split; [done|].
  unfold read_span, len_bytes. rewrite Hen. unfold blen in *.
  replace (Z.max 0 (span_start sp + Z.of_nat (length (bytes_of bs)) - span_start sp)) with (Z.of_nat (length (bytes_of bs))) by lia.
  destruct (Z.eqb_spec (Z.of_nat (length (bytes_of bs))) 0) as [E|E].
  { by rewrite (bytes_of_nil bs) by (apply length_zero_iff_nil; lia). }
  unfold segment_bytes in Hb. rewrite all_bytes_split in Hb. unfold epoch_bytes in Hb. rewrite Hlay in Hb.
  destruct (bt_get (segment log) (segments d)) as [bytes|]; simpl in Hb.
  - rewrite Hb, Hst, Nat2Z.id. replace (Z.to_nat (0 + Z.of_nat (length pre))) with (length pre) by lia.
    rewrite <- !app_assoc, drop_app_length, take_app_length. rewrite span_loop_bytes; [done| |lia].
    eapply epoch_ok; [|exact Hbs]. unfold records in Hok. rewrite forallb_app in Hok. by apply andb_true_iff in Hok as [? _].
  - symmetry in Hb. apply app_nil in Hb as [Hb _]. apply app_nil in Hb as [_ Hb]. apply app_nil in Hb as [Hb _].
    rewrite Hb in E. done.
Qed.

Lemma log_epoch_refines base d log a n : log_inv base d log a -> log_epoch log d n = abs_epoch a n.
Proof.
  intros Hinv. unfold log_epoch, abs_epoch. rewrite (log_sealed_of _ _ _ _ Hinv).
  assert (retained_from log = a_from a) as -> by (rewrite (li_log _ _ _ _ Hinv); done).
  destruct (negb (n =? 0) && (n <=? a_from a)); [done|]. destruct ((n =? 0) || (abs_sealed a <? n)); [done|].
  set (i := Z.to_nat (n - a_from a - 1)). destruct (sealed log !! i) as [sp|] eqn:E; cbn [ok_or].
  - by destruct (read_span_refines _ _ _ _ _ _ Hinv E) as (bs & -> & ->).
  - rewrite (li_log _ _ _ _ Hinv) in E. simpl in E. apply lookup_ge_None in E. rewrite spans_length in E.
    by rewrite (lookup_ge_None_2 (a_epochs a)).
Qed.

(** ** Compaction *)

Lemma rewrite_loop log d eps : forall n w,
  (forall i bs, eps !! i = Some bs -> log_epoch log d (n + Z.of_nat i) = Ok bs) -> rebuilt_start w = blen (written w) ->
  try_fold (rewrite_epoch log d) w (map (fun i => n + Z.of_nat i) (seq 0 (length eps))) =
  Ok (let out := written w ++ flat_map rframe (records_from n eps) in
      mkRewrite out (rebuilt w ++ spans n (blen (written w)) eps) (blen out)).
Proof.
  induction eps as [|bs eps IH]; intros n w Hread Hw; cbn [length seq map try_fold records_from spans flat_map].
  - rewrite !app_nil_r. destruct w. simpl in *. by rewrite Hw.
  - unfold rewrite_epoch at 1. rewrite (Hread 0%nat bs eq_refl). fold (bytes_of bs). rewrite rframe_eq.
    replace (n + Z.of_nat 0) with n by lia. rewrite <- seq_shift, map_map.
    rewrite (map_ext (fun i => n + Z.of_nat (S i)) (fun i => n + 1 + Z.of_nat i)) by (intros; lia).
    rewrite IH; [|intros i bs' Hi; rewrite <- (Hread (S i) bs' Hi); f_equal; lia|done].
    cbn [written rebuilt rebuilt_start]. rewrite flat_map_app, bytes_of_frames. cbn [flat_map].
    rewrite Hw, <- !app_assoc. cbn [app]. unfold blen. rewrite !length_app, !Nat2Z.inj_add.
    do 4 f_equal. f_equal. lia.
Qed.

Lemma epochs_after_seq anchor last : epochs_after anchor last = map (fun i => anchor + 1 + Z.of_nat i) (seq 0 (Z.to_nat (last - anchor))).
Proof. done. Qed.

Lemma rewrite_suffix_refines base d log a anchor :
  log_inv base d log a -> a_from a < anchor -> anchor <= abs_sealed a ->
  let a' := (abs_compact a anchor).1 in
  rewrite_suffix log d anchor = Ok (mkRewrite (all_bytes a') (spans (anchor + 1) 0 (a_epochs a')) (blen (epoch_bytes a'))).
Proof.
  intros Hinv Hlt Hle a'. unfold rewrite_suffix. rewrite (log_sealed_of _ _ _ _ Hinv), epochs_after_seq.
  assert (a' = mkALog (a_known a) anchor (drop (Z.to_nat (anchor - a_from a)) (a_epochs a)) (a_pending a)) as Ha'.
  { unfold a', abs_compact. rewrite (proj2 (Z.leb_gt _ _)), (proj2 (Z.ltb_ge _ _)) by lia. done. }
  assert (Z.to_nat (abs_sealed a - anchor) = length (a_epochs a')) as ->.
  { rewrite Ha'. simpl. rewrite length_drop. unfold abs_sealed in *. lia. }
  pose proof (li_from _ _ _ _ Hinv). rewrite rewrite_loop; [|intros i bs Hi|done].
  - cbn [written rebuilt rebuilt_start app]. rewrite all_bytes_split. unfold epoch_bytes. rewrite Ha'. simpl.
    assert (log_pending log = a_pending a) as -> by (rewrite (li_log _ _ _ _ Hinv); done). done.
  - rewrite (log_epoch_refines _ _ _ _ _ Hinv). rewrite Ha' in Hi. simpl in Hi. rewrite lookup_drop in Hi.
    unfold abs_epoch. assert (Z.to_nat (anchor - a_from a) + i < length (a_epochs a))%nat by (by eapply lookup_lt_Some).
    unfold abs_sealed in *.
    rewrite (proj2 (Z.eqb_neq _ _)), (proj2 (Z.leb_gt _ _)), (proj2 (Z.ltb_ge _ _)) by lia. simpl.
    replace (Z.to_nat (anchor + 1 + Z.of_nat i - a_from a - 1)) with (Z.to_nat (anchor - a_from a) + i)%nat by lia.
    by rewrite Hi.
Qed.

(** ** Well-formed abstract logs *)

(** Every batch's token is known under its content, no token is used twice, and
    everything known fits the ledger; [k] bounds the operations so far. *)
Record abs_ok (k : Z) (a : ALog) : Prop := {
  ao_sorted : bt_sorted (a_known a);
  ao_hash : Forall (fun b => bt_get (dedup_token b) (a_known a) = Some (content_hash (batch_record b))) (batches a);
  ao_nodup : NoDup (map dedup_token (batches a));
  ao_valid : Forall (fun p => valid_token p = true) (a_known a);
  ao_known : Z.of_nat (length (a_known a)) <= k;
  ao_sealed : abs_sealed a <= k
}.

Lemma content_hash_range r : 0 <= content_hash r < 2 ^ 64.
Proof.
  unfold content_hash. generalize (record_encode r). intros l.
  assert (0 <= 0xcbf29ce484222325 < 2 ^ 64) as Hi by done. revert Hi. generalize 0xcbf29ce484222325.
  induction l as [|b l IH]; intros h Hh; [done|]. apply IH. by apply Z.mod_pos_bound.
Qed.

Lemma bt_insert_present {V} (k : string) (v : V) m : bt_sorted m -> bt_get k m = Some v -> bt_insert k v m = m.
Proof.
  intros Hs Hg. apply bt_ext; [by apply bt_insert_sorted|done|]. intros k'. rewrite bt_get_insert.
  case_cmp_eqb k' k; [by subst|done].
Qed.

Lemma tokens_known bs m :
  bt_sorted m -> Forall (fun b => bt_get (dedup_token b) m = Some (content_hash (batch_record b))) bs ->
  tokens_of bs m = m.
Proof.
  intros Hs Hb. induction Hb as [|b bs Hb _ IH]; [done|]. unfold tokens_of. cbn [fold_left].
  by rewrite bt_insert_present.
Qed.

Lemma ledger_known k a :
  abs_ok k a -> k < 2 ^ 63 -> ledger_decode (ledger_encode (a_known a)) = Ok (a_known a).
Proof.
  intros [Hs _ _ Hv Hk _] Hlt. apply ledger_decode_encode; [done| |lia].
  apply forallb_forall. intros p Hp. rewrite Forall_forall in Hv. apply Hv. by apply list_elem_of_In.
Qed.

(** The caller publishes a snapshot directory before compacting (P2 to P5). *)
Definition publish (d : Disk) (name : string) (files : SnapshotDir) : Disk :=
  mkDisk (segments d) (pointer d) (bt_insert name files (snapshots d)).

(** A directory with a manifest, whose ledger has every token acknowledged. *)
Definition carries (files : SnapshotDir) (known : btree string Z) : Prop :=
  bt_contains MANIFEST files = true /\ exists bytes, bt_get DEDUP_LEDGER files = Some bytes /\ ledger_decode bytes = Ok known.

Lemma publish_usable d name files known :
  carries files known ->
  snapshot_usable (publish d name files) name = true /\ seed_dedup (publish d name files) (Some name) = Ok known.
Proof.
  intros (Hm & bytes & Hb & Hd). unfold snapshot_usable, seed_dedup. simpl. rewrite bt_get_insert_eq. simpl.
  by rewrite Hb.
Qed.

Lemma log_of_base seg snap base base' a :
  tokens_of (batches a) base = tokens_of (batches a) base' -> log_of seg snap base a = log_of seg snap base' a.
Proof. unfold log_of. by intros ->. Qed.

Lemma publish_points d name files known seg snap from :
  points_to d seg snap from -> carries files known -> points_to (publish d name files) seg snap from.
Proof.
  intros Hp Hc. unfold points_to in *. change (read_pointer (publish d name files)) with (read_pointer d).
  destruct (read_pointer d); [|done]. destruct Hp as (-> & Hs & Hu). split_and!; [done|done|].
  destruct snap as [n|]; [|done]. destruct (decide (n = name)) as [->|Hn].
  - apply (publish_usable d name files known Hc).
  - unfold snapshot_usable in *. simpl. by rewrite bt_get_insert_ne.
Qed.

Lemma publish_inv base d log a name files k :
  log_inv base d log a -> abs_ok k a -> carries files (a_known a) -> exists base', log_inv base' (publish d name files) log a.
Proof.
  intros [Hl Hkn Hrec Hb Hfr Hso Hp Hs] Hok Hc. pose proof (publish_points _ name _ _ _ _ _ Hp Hc) as Hp'.
  destruct (decide (log_snapshot log = Some name)) as [E|E].
  - exists (a_known a). pose proof (tokens_known _ _ (ao_sorted _ _ Hok) (ao_hash _ _ Hok)) as Hfix. split; try done.
    + rewrite Hl at 1. apply log_of_base. by rewrite Hfix, Hkn.
    + rewrite E. apply (publish_usable d name files _ Hc).
  - exists base. split; try done. rewrite <- Hs. unfold seed_dedup. destruct (log_snapshot log) as [n|]; [|done].
    simpl. by rewrite bt_get_insert_ne by congruence.
Qed.

Lemma abs_compact_ok a anchor :
  a_from a < anchor -> anchor <= abs_sealed a ->
  abs_compact a anchor = (mkALog (a_known a) anchor (drop (Z.to_nat (anchor - a_from a)) (a_epochs a)) (a_pending a), Ok tt).
Proof. intros Hlt Hle. unfold abs_compact. by rewrite (proj2 (Z.leb_gt _ _)), (proj2 (Z.ltb_ge _ _)) by lia. Qed.

Lemma batches_drop a k :
  batches a = concat (take k (a_epochs a)) ++ (concat (drop k (a_epochs a)) ++ a_pending a).
Proof. unfold batches. rewrite <- (take_drop k (a_epochs a)) at 1. by rewrite concat_app, <- app_assoc. Qed.

Lemma compacted_records_ok a anchor :
  0 <= a_from a -> a_from a < anchor -> anchor <= abs_sealed a -> forallb record_ok (records a) = true ->
  forallb record_ok (records (abs_compact a anchor).1) = true.
Proof.
  intros Hf Hlt Hle. rewrite abs_compact_ok by done. unfold records. simpl.
  rewrite <- (take_drop (Z.to_nat (anchor - a_from a)) (a_epochs a)) at 1. rewrite records_from_app, !forallb_app.
  unfold abs_sealed in Hle. rewrite length_take.
  replace (a_from a + 1 + Z.of_nat (Z.to_nat (anchor - a_from a) `min` length (a_epochs a))) with (anchor + 1) by lia.
  rewrite !andb_true_iff. tauto.
Qed.

Definition snapshot_name (name : string) : bool := pointer_name name && negb (bool_decide (name = "-"%string)).

(** The log a compaction leaves, in a directory whose pointer names it. *)
Definition compacted_log (log : Log) (a : ALog) (anchor : Z) (name : string) : Log :=
  log_of (next_segment_name log) (Some name) (a_known a) (abs_compact a anchor).1.

Lemma compacted_tokens a anchor k :
  abs_ok k a -> a_from a < anchor -> anchor <= abs_sealed a ->
  tokens_of (batches (abs_compact a anchor).1) (a_known a) = a_known a.
Proof.
  intros Hok Hlt Hle. rewrite abs_compact_ok by done. apply tokens_known; [apply Hok|].
  pose proof (ao_hash _ _ Hok) as Hh. rewrite (batches_drop a (Z.to_nat (anchor - a_from a))) in Hh.
  by apply Forall_app in Hh as [_ Hh].
Qed.

Lemma compacted_inv base d d' log a anchor name k :
  log_inv base d log a -> abs_ok k a -> a_from a < anchor -> anchor <= abs_sealed a ->
  snapshot_usable d name = true -> seed_dedup d (Some name) = Ok (a_known a) ->
  bt_get (next_segment_name log) (segments d') = Some (all_bytes (abs_compact a anchor).1) -> bt_sorted (segments d') ->
  read_pointer d' = Some (mkPointer (next_segment_name log) (Some name) anchor) -> snapshots d' = snapshots d ->
  log_inv (a_known a) d' (compacted_log log a anchor name) (abs_compact a anchor).1.
Proof.
  intros [_ _ Hrec _ Hfr _ _ _] Hok Hlt Hle Hu Hseed Hg Hsd Hpd Hsn. pose proof (compacted_tokens _ _ _ Hok Hlt Hle) as Hfix.
  pose proof (abs_compact_ok a anchor Hlt Hle) as Ha. split; cbn [segment log_snapshot compacted_log log_of].
  - done.
  - rewrite Hfix. by rewrite Ha.
  - by apply compacted_records_ok.
  - unfold segment_bytes. by rewrite Hg.
  - rewrite Ha. simpl. lia.
  - done.
  - unfold points_to. rewrite Hpd. unfold bt_contains, snapshot_usable. rewrite Hg, Hsn, Ha. done.
  - unfold seed_dedup. by rewrite Hsn.
Qed.

Lemma compact_pointer d log name anchor :
  snapshot_name name = true -> 0 <= anchor < 2 ^ 64 ->
  read_pointer (write_pointer d (mkPointer (next_segment_name log) (Some name) anchor)) =
  Some (mkPointer (next_segment_name log) (Some name) anchor).
Proof.
  intros Hname Ha. unfold read_pointer, write_pointer. cbn [pointer]. rewrite pointer_round_trip; [done|].
  unfold valid_pointer. cbn [pointer_segment pointer_snapshot pointer_retained_from].
  rewrite next_segment_pointer. unfold snapshot_name in Hname. rewrite Hname. simpl. lia.
Qed.

(** What P6 writes, and the log P8 leaves in memory. *)
Lemma compact_memory base d log a anchor name k :
  log_inv base d log a -> abs_ok k a -> a_from a < anchor -> anchor <= abs_sealed a ->
  mkLog (sync log) (log_catalog log) (dedup log) (log_pending log) (spans (anchor + 1) 0 (a_epochs (abs_compact a anchor).1))
    (Z.of_nat (length (all_bytes (abs_compact a anchor).1))) (blen (epoch_bytes (abs_compact a anchor).1))
    (next_segment_name log) anchor (Some name) = compacted_log log a anchor name.
Proof.
  intros Hinv Hok Hlt Hle. unfold compacted_log, log_of. rewrite (compacted_tokens _ _ _ Hok Hlt Hle).
  rewrite (log_dedup _ _ _ _ Hinv), abs_compact_ok by done. cbn [fst a_known a_from a_pending a_epochs].
  rewrite (li_log _ _ _ _ Hinv). done.
Qed.

Lemma compact_refines base d log a f anchor name k :
  log_inv base d log a -> abs_ok k a -> k < 2 ^ 63 -> unplanned f -> snapshot_name name = true ->
  snapshot_usable d name = true -> seed_dedup d (Some name) = Ok (a_known a) ->
  exists f' d' log' base', compact log d f anchor (Some name) = (f', d', log', (abs_compact a anchor).2) /\ unplanned f' /\
    log_inv base' d' log' (abs_compact a anchor).1.
Proof.
  intros Hinv Hok Hk63 Hf Hname Hu Hseed. pose proof Hinv as [Hl Hk Hrec Hb Hfr Hso Hp Hs].
  unfold compact. rewrite (log_sealed_of _ _ _ _ Hinv).
  assert (retained_from log = a_from a) as -> by (rewrite Hl; done).
  unfold abs_compact at 1. destruct (Z.leb_spec anchor (a_from a)) as [Hle|Hlt].
  { exists f, d, log, base. unfold abs_compact. by rewrite (proj2 (Z.leb_le _ _)) by lia. }
  destruct (Z.ltb_spec (abs_sealed a) anchor) as [Hgt|Hle].
  { exists f, d, log, base. unfold abs_compact. by rewrite (proj2 (Z.leb_gt _ _)), (proj2 (Z.ltb_lt _ _)) by lia. }
  rewrite (rewrite_suffix_refines _ _ _ _ _ Hinv Hlt Hle). seam_off Hf1. seam_off Hf2.
  eexists _, _, _, (a_known a). split_and!; [reflexivity|done|]. cbn [written rebuilt rebuilt_start].
  rewrite (compact_memory _ _ _ _ _ name _ Hinv Hok Hlt Hle). pose proof (ao_sealed _ _ Hok).
  pose proof (compact_pointer (mkDisk (bt_insert (next_segment_name log) (all_bytes (abs_compact a anchor).1) (segments d))
    (pointer d) (snapshots d)) log name anchor Hname ltac:(lia)) as Hpt.
  case_decide as E; apply (compacted_inv base d _ _ _ _ _ k); try done; cbn [segments write_pointer].
  - by rewrite bt_get_insert_eq.
  - by apply bt_insert_sorted.
  - rewrite bt_get_remove by by apply bt_insert_sorted. rewrite (proj2 (cmp_eqb_neq _ _)) by congruence. by rewrite bt_get_insert_eq.
  - by apply bt_remove_sorted, bt_insert_sorted.
Qed.

(** A segment nothing points at changes nothing. *)
Lemma orphan_segment_inv base d log a name bytes :
  log_inv base d log a -> name <> segment log ->
  log_inv base (mkDisk (bt_insert name bytes (segments d)) (pointer d) (snapshots d)) log a.
Proof.
  intros [Hl Hk Hrec Hb Hfr Hso Hp Hs] Hne. split; try done.
  - unfold segment_bytes. simpl. by rewrite bt_get_insert_ne by congruence.
  - by apply bt_insert_sorted.
  - unfold points_to in *. change (read_pointer (mkDisk _ (pointer d) _)) with (read_pointer d). destruct (read_pointer d); [|done].
    destruct Hp as (-> & Hc & Hn). split_and!; [done| |done]. unfold bt_contains in *. simpl.
    by rewrite bt_get_insert_ne by congruence.
Qed.

(** Whatever seam stops it, a compaction leaves a directory that opens as the log
    before it or as the log after it: the pointer decides. *)
Lemma compact_any_fault base d log a f anchor name k :
  log_inv base d log a -> abs_ok k a -> k < 2 ^ 63 -> snapshot_name name = true ->
  snapshot_usable d name = true -> seed_dedup d (Some name) = Ok (a_known a) ->
  a_from a < anchor -> anchor <= abs_sealed a -> next_segment_name log <> segment log ->
  exists f' d' log' r, compact log d f anchor (Some name) = (f', d', log', r) /\ snapshots d' = snapshots d /\
    (r = Ok tt \/ exists seam, r = Err (InjectedFault (seam_name seam))) /\ (unplanned f -> r = Ok tt /\ unplanned f') /\
    ((log_inv base d' log a /\ r <> Ok tt) \/
     (log_inv (a_known a) d' (compacted_log log a anchor name) (abs_compact a anchor).1 /\
      (r = Ok tt -> log' = compacted_log log a anchor name))).
Proof.
  intros Hinv Hok Hk63 Hname Hu Hseed Hlt Hle Hnext. pose proof Hinv as [Hl Hk Hrec Hb Hfr Hso Hp Hs].
  unfold compact. rewrite (log_sealed_of _ _ _ _ Hinv).
  assert (retained_from log = a_from a) as -> by (rewrite Hl; done).
  rewrite (proj2 (Z.leb_gt _ _)), (proj2 (Z.ltb_ge _ _)) by lia.
  rewrite (rewrite_suffix_refines _ _ _ _ _ Hinv Hlt Hle). cbn [written rebuilt rebuilt_start].
  rewrite (compact_memory _ _ _ _ _ name _ Hinv Hok Hlt Hle). pose proof (ao_sealed _ _ Hok).
  set (d1 := mkDisk (bt_insert _ _ _) _ _).
  pose proof (compact_pointer d1 log name anchor Hname ltac:(lia)) as Hpt.
  destruct (reached f CompactAfterSegmentBeforePointer) as [f1 hit1] eqn:E1. destruct hit1.
  { eexists _, _, _, _. split_and!; [reflexivity|done|right; by eexists| |].
    - intros Hf. by apply reached_unplanned in E1 as [? _].
    - left. split; [|done]. by apply orphan_segment_inv. }
  assert (forall d', segments d' = segments d1 \/ segments d' = bt_remove (segment log) (segments d1) ->
    read_pointer d' = Some (mkPointer (next_segment_name log) (Some name) anchor) -> snapshots d' = snapshots d ->
    log_inv (a_known a) d' (compacted_log log a anchor name) (abs_compact a anchor).1) as Hnew.
  { assert (bt_sorted (segments d1)) as Hs1 by by apply bt_insert_sorted.
    intros d' Hd' Hrp Hsn. apply (compacted_inv base d _ _ _ _ _ k); try done; destruct Hd' as [->| ->]; try done.
    - unfold d1. simpl. by rewrite bt_get_insert_eq.
    - rewrite bt_get_remove by done. rewrite (proj2 (cmp_eqb_neq _ _)) by congruence. unfold d1. simpl. by rewrite bt_get_insert_eq.
    - by apply bt_remove_sorted. }
  destruct (reached f1 CompactAfterPointerBeforeTrim) as [f2 hit2] eqn:E2. destruct hit2.
  { eexists _, _, _, _. split_and!; [reflexivity|done|right; by eexists| |].
    - intros Hf. apply reached_unplanned in E1 as [_ Hf1]; [|done]. by apply reached_unplanned in E2 as [? _].
    - right. split; [|done]. apply Hnew; [by left|done|done]. }
  eexists _, _, _, _. split_and!; [reflexivity|by case_decide|by left| |].
  - intros Hf. apply reached_unplanned in E1 as [_ Hf1]; [|done]. by apply reached_unplanned in E2 as [_ ?].
  - right. split; [|done]. rewrite decide_False by congruence. apply Hnew; [by right|done|done].
Qed.

(** ** Runs *)

(** What happens to a log: a source appends, the engine seals, the process
    restarts, dies between writing a batch and indexing it, or compacts. *)
Inductive LogOp :=
| LAppend (b : Batch)
| LSeal
| LRestart
| LCrash (b : Batch)
| LCompact (anchor : Z) (name : string) (manifest : list N).

Inductive LogOut :=
| OutAck (r : result LogError Ack)
| OutSeal (r : result LogError Z)
| OutUp
| OutDown (e : LogError)
| OutCompact (r : result LogError unit).

Definition restart (d : Disk) (log : Log) : Disk * Log * LogOut :=
  match (log_open d catalog inert policy).2 with
  | Ok log' => (d, log', OutUp)
  | Err e => (d, log, OutDown e)
  end.

Definition dying : FaultInjector := planned (mkFaultPlan AckAfterFsyncBeforeIndex 1).

Definition run_op (s : Disk * Log) (op : LogOp) : Disk * Log * LogOut :=
  let '(d, log) := s in
  match op with
  | LAppend b => let '(_, d', log', r) := log_append log d inert b in (d', log', OutAck r)
  | LSeal => let '(_, d', log', r) := log_seal log d inert in (d', log', OutSeal r)
  | LRestart => restart d log
  | LCrash b => let '(_, d', _, _) := log_append log d dying b in restart d' log
  | LCompact anchor name manifest =>
      let files := [(DEDUP_LEDGER, ledger_encode (dedup log)); (MANIFEST, manifest)] in
      let '(_, d', log', r) := compact log (publish d name files) inert anchor (Some name) in (d', log', OutCompact r)
  end.

Definition abs_op (a : ALog) (op : LogOp) : ALog * LogOut :=
  match op with
  | LAppend b => let '(a', r) := abs_append catalog a b in (a', OutAck r)
  | LSeal => let '(a', r) := abs_seal a in (a', OutSeal r)
  | LRestart => (a, OutUp)
  | LCrash b => ((abs_append catalog a b).1, OutUp)
  | LCompact anchor _ _ => let '(a', r) := abs_compact a anchor in (a', OutCompact r)
  end.

Definition op_ok (op : LogOp) : bool :=
  match op with LAppend b | LCrash b => record_ok (batch_record b) | LCompact _ name _ => snapshot_name name | _ => true end.

Lemma crash_inv base d log a b :
  log_inv base d log a -> record_ok (batch_record b) = true ->
  exists f d' log0 r log', log_append log d dying b = (f, d', log0, r) /\ log_inv base d' log' (abs_append catalog a b).1 /\
    snapshots d' = snapshots d /\ segment log' = segment log /\ log_snapshot log' = log_snapshot log.
Proof.
  intros Hinv Hr. unfold log_append, abs_append, log_validate. rewrite (log_dedup _ _ _ _ Hinv).
  assert (log_catalog log = catalog) as -> by (rewrite (li_log _ _ _ _ Hinv); done).
  destruct (reached dying AckBeforeValidate) as [f1 hit] eqn:E1. vm_compute in E1. injection E1 as <- <-.
  destruct (let? schema := _ in _) as [[]|e]; [|by eexists _, _, _, _, log].
  destruct (bt_get (dedup_token b) (a_known a)) as [known|].
  { destruct (known =? content_hash (batch_record b)); by eexists _, _, _, _, log. }
  unfold append_write. rewrite rframe_eq.
  eexists _, _, _, _, (index_append log b). split_and!; [reflexivity|by apply index_append_inv|done..].
Qed.

Lemma log_append_frame log d f b f' d' log' r :
  log_append log d f b = (f', d', log', r) ->
  snapshots d' = snapshots d /\ segment log' = segment log /\ log_snapshot log' = log_snapshot log.
Proof. unfold log_append, append_write. intros H. repeat case_match; simplify_eq; done. Qed.

Lemma log_seal_frame log d f f' d' log' r :
  log_seal log d f = (f', d', log', r) ->
  snapshots d' = snapshots d /\ segment log' = segment log /\ log_snapshot log' = log_snapshot log.
Proof. unfold log_seal. intros H. repeat case_match; simplify_eq; done. Qed.

Lemma restart_inv base d log log0 a :
  log_inv base d log a -> restart d log0 = (d, log, OutUp).
Proof.
  intros Hinv. unfold restart. destruct (reopen_inv _ _ _ _ inert Hinv) as (f' & _ & ->); done.
Qed.

Lemma abs_append_ok k a b :
  abs_ok k a -> record_ok (batch_record b) = true -> abs_ok (k + 1) (abs_append catalog a b).1.
Proof.
  intros [Hs Hh Hn Hv Hk Hl] Hr. unfold abs_append.
  assert (abs_ok (k + 1) a) as Hsame by (split; done || lia).
  destruct (let? schema := _ in _) as [[]|]; [|done].
  destruct (bt_get (dedup_token b) (a_known a)) as [known|] eqn:Eg; [done|].
  set (a' := mkALog _ _ _ _). assert (batches a' = batches a ++ [b]) as Hb by (unfold batches; simpl; by rewrite app_assoc).
  change (abs_ok (k + 1) a'). split; rewrite ?Hb; change (a_known a') with
    (bt_insert (dedup_token b) (content_hash (batch_record b)) (a_known a)).
  - by apply bt_insert_sorted.
  - apply Forall_app. split; [|constructor; [by rewrite bt_get_insert_eq|constructor]].
    eapply Forall_impl; [exact Hh|]. intros b' Hb'. simpl. rewrite bt_get_insert_ne; [done|]. congruence.
  - rewrite map_app. apply NoDup_app. split_and!; [done| |apply NoDup_singleton].
    intros t (b' & -> & Hin)%list_elem_of_fmap Ht. simpl in Ht. apply list_elem_of_singleton in Ht.
    rewrite Forall_forall in Hh. specialize (Hh _ Hin). congruence.
  - apply bt_insert_Forall; [|done]. unfold record_ok in Hr. apply andb_true_iff in Hr as [Hr _]. simpl in Hr.
    rewrite !andb_true_iff in Hr. destruct Hr as ((((_ & Ht) & _) & _) & _). unfold valid_token. simpl.
    pose proof (content_hash_range (batch_record b)). rewrite Ht, (proj2 (Z.leb_le _ _)), (proj2 (Z.ltb_lt _ _)) by lia. done.
  - pose proof (bt_insert_length (dedup_token b) (content_hash (batch_record b)) (a_known a)). lia.
  - unfold abs_sealed in *. simpl. lia.
Qed.

Definition run_inv (k : Z) (s : Disk * Log) (a : ALog) : Prop := (exists base, log_inv base s.1 s.2 a) /\ abs_ok k a.

Lemma abs_weaken k k' a : abs_ok k a -> k <= k' -> abs_ok k' a.
Proof. intros [] ?. split; done || lia. Qed.

Lemma abs_seal_ok k a : abs_ok k a -> abs_ok (k + 1) (abs_seal a).1.
Proof.
  intros [Hs Hh Hn Hv Hk Hl].
  assert (batches (abs_seal a).1 = batches a) as Hb.
  { unfold batches. simpl. rewrite concat_app. simpl. by rewrite !app_nil_r. }
  split; rewrite ?Hb; simpl; try done; try lia.
  unfold abs_sealed in *. simpl. rewrite length_app. simpl. lia.
Qed.

Lemma abs_compact_abs_ok k a anchor : abs_ok k a -> abs_ok (k + 1) (abs_compact a anchor).1.
Proof.
  intros Hok. assert (abs_ok (k + 1) a) as Hsame by (eapply abs_weaken; [done|lia]).
  unfold abs_compact. destruct (Z.leb_spec anchor (a_from a)); [done|].
  destruct (Z.ltb_spec (abs_sealed a) anchor); [done|].
  destruct Hsame as [Hs Hh Hn Hv Hk Hl]. rewrite (batches_drop a (Z.to_nat (anchor - a_from a))) in Hh, Hn.
  apply Forall_app in Hh as [_ Hh]. rewrite map_app in Hn. apply NoDup_app in Hn as (_ & _ & Hn).
  split; try done. unfold abs_sealed in *. simpl. rewrite length_drop. lia.
Qed.

Lemma run_op_refines k s a op :
  run_inv k s a -> op_ok op = true -> k + 1 < 2 ^ 63 ->
  exists s', run_op s op = (s', (abs_op a op).2) /\ run_inv (k + 1) s' (abs_op a op).1.
Proof.
  destruct s as [d log]. intros [[base Hinv] Hok] Hop Hk. cbn [fst snd] in Hinv. assert (unplanned inert) as Hf by done.
  pose proof (ao_sealed _ _ Hok) as Hse. destruct op as [b| | |b|anchor name manifest]; cbn [op_ok run_op abs_op] in Hop |- *.
  - destruct (log_append_refines _ _ _ _ _ _ Hinv Hop Hf) as (f' & d' & log' & -> & _ & Hinv').
    destruct (abs_append catalog a b) as [a' r] eqn:E. exists (d', log'). split; [done|]. split; [by exists base|].
    replace a' with (abs_append catalog a b).1 by (by rewrite E). by apply abs_append_ok.
  - destruct (log_seal_refines _ _ _ _ _ Hinv ltac:(lia) Hf) as (f' & d' & log' & -> & _ & Hinv').
    exists (d', log'). split; [done|]. split; [by exists base|]. by apply abs_seal_ok.
  - rewrite (restart_inv _ _ _ _ _ Hinv). exists (d, log). split; [done|]. split; [by exists base|].
    eapply abs_weaken; [done|lia].
  - destruct (crash_inv _ _ _ _ _ Hinv Hop) as (f & d' & log0 & r & log' & -> & Hinv' & _).
    rewrite (restart_inv _ _ _ _ _ Hinv'). exists (d', log'). split; [done|]. split; [by exists base|].
    by apply abs_append_ok.
  - set (files := [_; _]). assert (carries files (a_known a)) as Hc.
    { split; [done|]. exists (ledger_encode (a_known a)). split; [|apply (ledger_known k); [done|lia]].
      unfold files. by rewrite (log_dedup _ _ _ _ Hinv). }
    destruct (publish_inv _ _ _ _ name files k Hinv Hok Hc) as [base' Hinv'].
    destruct (publish_usable d name files _ Hc) as [Hu Hs].
    destruct (compact_refines base' (publish d name files) log a inert anchor name k) as (f' & d' & log' & b2 & E & _ & Hinv2);
      [done|done|lia|done|done|done|done|].
    rewrite E. pose proof (abs_compact_abs_ok k a anchor Hok) as Hok2. destruct (abs_compact a anchor) as [a' r].
    exists (d', log'). split; [done|]. by split; [exists b2|].
Qed.

Fixpoint run_ops (s : Disk * Log) (ops : list LogOp) : Disk * Log * list LogOut :=
  match ops with
  | [] => (s, [])
  | op :: ops' =>
      let '(s', out) := run_op s op in
      let '(s'', outs) := run_ops s' ops' in (s'', out :: outs)
  end.

Fixpoint abs_run (a : ALog) (ops : list LogOp) : ALog * list LogOut :=
  match ops with
  | [] => (a, [])
  | op :: ops' =>
      let '(a', out) := abs_op a op in
      let '(a'', outs) := abs_run a' ops' in (a'', out :: outs)
  end.

Lemma run_ops_refines ops : forall k s a,
  run_inv k s a -> forallb op_ok ops = true -> k + Z.of_nat (length ops) < 2 ^ 63 ->
  exists s', run_ops s ops = (s', (abs_run a ops).2) /\ run_inv (k + Z.of_nat (length ops)) s' (abs_run a ops).1.
Proof.
  induction ops as [|op ops IH]; intros k s a Hinv Hop Hk; cbn [forallb length run_ops abs_run] in *.
  - exists s. by rewrite Z.add_0_r.
  - apply andb_true_iff in Hop as [Hop Hops].
    destruct (run_op_refines _ _ _ _ Hinv Hop ltac:(lia)) as (s1 & -> & Hinv1).
    destruct (abs_op a op) as [a1 out]. simpl in Hinv1 |- *.
    destruct (IH (k + 1) s1 a1 Hinv1 Hops ltac:(lia)) as (s2 & -> & Hinv2).
    destruct (abs_run a1 ops) as [a2 outs]. exists s2. split; [done|]. simpl in *.
    by replace (k + Z.of_nat (S (length ops))) with (k + 1 + Z.of_nat (length ops)) by lia.
Qed.

Definition empty_disk : Disk := mkDisk [] None [].
Definition new_log : Log := mkLog policy catalog [] [] [] 0 0 DEFAULT_SEGMENT 0 None.
Definition new_alog : ALog := mkALog [] 0 [] [].

Lemma new_inv : run_inv 0 (empty_disk, new_log) new_alog.
Proof.
  split.
  - exists []. split; try done. constructor.
  - split; try done; constructor.
Qed.

(** ** What a log holds *)

(** Every batch of the log, read back: the epochs from disk, then the pending. *)
Definition log_contents (log : Log) (d : Disk) : result LogError (list Batch) :=
  let? eps := try_map (log_epoch log d) (epochs_after (retained_from log) (log_sealed_epoch log)) in
  Ok (concat eps ++ log_pending log).

Lemma try_map_lookup {E A B} (g : A -> result E B) l l' :
  length l = length l' -> (forall i a b, l !! i = Some a -> l' !! i = Some b -> g a = Ok b) -> try_map g l = Ok l'.
Proof.
  revert l'. induction l as [|a l IH]; intros [|b l'] Hlen Hg; try done. cbn [try_map].
  rewrite (Hg 0%nat a b eq_refl eq_refl), (IH l'); [done|by injection Hlen|]. intros i. apply (Hg (S i)).
Qed.

Lemma contents_refines base d log a : log_inv base d log a -> log_contents log d = Ok (batches a).
Proof.
  intros Hinv. unfold log_contents. rewrite (log_sealed_of _ _ _ _ Hinv).
  assert (retained_from log = a_from a) as -> by (rewrite (li_log _ _ _ _ Hinv); done).
  assert (Z.to_nat (abs_sealed a - a_from a) = length (a_epochs a)) as Hn by (unfold abs_sealed; lia).
  pose proof (li_from _ _ _ _ Hinv). rewrite (try_map_lookup _ _ (a_epochs a)).
  - assert (log_pending log = a_pending a) as -> by (rewrite (li_log _ _ _ _ Hinv); done). done.
  - unfold epochs_after. by rewrite length_map, length_seq, Hn.
  - intros i n bs Hi Hb. rewrite (log_epoch_refines _ _ _ _ _ Hinv). unfold epochs_after in Hi.
    change (map ?f ?l) with (f <$> l) in Hi. rewrite list_lookup_fmap in Hi.
    destruct (seq 0 _ !! i) as [j|] eqn:Ej; [|done]. injection Hi as <-. apply lookup_seq in Ej as [-> Hj]. unfold abs_epoch.
    rewrite (proj2 (Z.eqb_neq _ _)), (proj2 (Z.leb_gt _ _)), (proj2 (Z.ltb_ge _ _)) by lia. simpl.
    replace (Z.to_nat (a_from a + 1 + Z.of_nat i - a_from a - 1)) with i by lia. by rewrite Hb.
Qed.

(** ** Nothing acknowledged is lost *)

Definition no_compaction (op : LogOp) : bool := match op with LCompact _ _ _ => false | _ => true end.

(** Without compaction every known token names a batch the log holds. *)
Definition abs_full (a : ALog) : Prop :=
  forall t h, bt_get t (a_known a) = Some h ->
    exists b, b ∈ batches a /\ dedup_token b = t /\ content_hash (batch_record b) = h.

Lemma abs_append_full a b :
  abs_full a -> abs_full (abs_append catalog a b).1 /\ (forall x, x ∈ batches a -> x ∈ batches (abs_append catalog a b).1).
Proof.
  intros Hfull. unfold abs_append. destruct (let? schema := _ in _) as [[]|]; [|done].
  destruct (bt_get (dedup_token b) (a_known a)) as [known|]; [done|].
  set (a' := mkALog _ _ _ _). assert (batches a' = batches a ++ [b]) as Hb by (unfold batches; simpl; by rewrite app_assoc).
  change (abs_full a' /\ forall x, x ∈ batches a -> x ∈ batches a'). rewrite Hb.
  split; [|intros x Hx; apply elem_of_app; by left]. intros t h. rewrite Hb. simpl. rewrite bt_get_insert. case_cmp_eqb t (dedup_token b).
  - intros [= <-]. exists b. subst. split_and!; [apply elem_of_app; right; by left|done|done].
  - intros (x & Hx & ? & ?)%Hfull. exists x. split_and!; [apply elem_of_app; by left|done|done].
Qed.

Lemma abs_op_full a op :
  abs_full a -> no_compaction op = true ->
  abs_full (abs_op a op).1 /\ (forall x, x ∈ batches a -> x ∈ batches (abs_op a op).1).
Proof.
  intros Hfull Hn. destruct op as [b| | |b|]; cbn [abs_op]; try done.
  - pose proof (abs_append_full a b Hfull). by destruct (abs_append catalog a b).
  - assert (batches (abs_seal a).1 = batches a) as Hb.
    { unfold batches. simpl. rewrite concat_app. simpl. by rewrite !app_nil_r. }
    cbn [fst abs_seal] in *. unfold abs_full. rewrite Hb. done.
  - by apply abs_append_full.
Qed.

Lemma abs_run_full ops : forall a,
  abs_full a -> forallb no_compaction ops = true ->
  abs_full (abs_run a ops).1 /\ (forall x, x ∈ batches a -> x ∈ batches (abs_run a ops).1).
Proof.
  induction ops as [|op ops IH]; intros a Hfull Hn; cbn [abs_run forallb] in *; [done|].
  apply andb_true_iff in Hn as [Hop Hn]. destruct (abs_op_full a op Hfull Hop) as [Hf1 Hin1].
  destruct (abs_op a op) as [a1 out]. destruct (IH a1 Hf1 Hn) as [Hf2 Hin2].
  destruct (abs_run a1 ops) as [a2 outs]. simpl in *. auto.
Qed.

(** An acknowledged append leaves its batch, or the one it repeats, for good. *)
Lemma abs_run_acked ops : forall a i b ack,
  abs_full a -> forallb no_compaction ops = true -> ops !! i = Some (LAppend b) ->
  (abs_run a ops).2 !! i = Some (OutAck (Ok ack)) ->
  exists b', b' ∈ batches (abs_run a ops).1 /\ dedup_token b' = dedup_token b /\
    content_hash (batch_record b') = content_hash (batch_record b) /\ (ack = Appended -> b' = b).
Proof.
  induction ops as [|op ops IH]; intros a i b ack Hfull Hn; cbn [abs_run forallb] in *; [done|].
  apply andb_true_iff in Hn as [Hop Hn]. destruct (abs_op_full a op Hfull Hop) as [Hf1 _].
  destruct i as [|i]; simpl.
  - intros [= ->]. destruct (abs_op a (LAppend b)) as [a1 out] eqn:E. simpl in Hf1.
    destruct (abs_run_full ops a1 Hf1 Hn) as [_ Hin]. destruct (abs_run a1 ops) as [a2 outs]. simpl in *. intros [= ->].
    unfold abs_append in E. destruct (let? schema := _ in _) as [[]|]; [|done].
    destruct (bt_get (dedup_token b) (a_known a)) as [known|] eqn:Eg.
    + destruct (Z.eqb_spec known (content_hash (batch_record b))) as [Eh|]; [|done]. injection E as <- <-.
      apply Hfull in Eg as (b' & Hb' & Ht & Hh). exists b'. split_and!; [auto|done|congruence|done].
    + injection E as <- <-. exists b. split_and!; [|done|done|done]. apply Hin. unfold batches. simpl.
      rewrite app_assoc, elem_of_app. right. by left.
  - intros Hi. specialize (IH (abs_op a op).1 i b ack Hf1 Hn Hi). destruct (abs_op a op) as [a1 out]. simpl in IH.
    destruct (abs_run a1 ops) as [a2 outs]. done.
Qed.

Lemma filter_nil_iff_tokens (P : Batch -> Prop) `{!forall b, Decision (P b)} bs :
  (forall y, y ∈ bs -> ~ P y) -> base.filter P bs = [].
Proof.
  induction bs as [|y bs IH]; intros Hp; [done|]. rewrite filter_cons. destruct (decide (P y)) as [Hy|].
  - exfalso. apply (Hp y); [by left|done].
  - apply IH. intros z Hz. apply Hp. by right.
Qed.

Lemma filter_token bs b :
  NoDup (map dedup_token bs) -> b ∈ bs -> base.filter (fun x => dedup_token x = dedup_token b) bs = [b].
Proof.
  induction bs as [|x bs IH]; simpl; [by intros _ Hb%elem_of_nil|].
  intros [Hx Hn]%NoDup_cons [->|Hin]%elem_of_cons; rewrite filter_cons.
  - destruct (decide _) as [_|]; [|done]. f_equal. apply filter_nil_iff_tokens. intros y Hy Ht. apply Hx. rewrite <- Ht.
    by apply list_elem_of_fmap_2.
  - destruct (decide (dedup_token x = dedup_token b)) as [E|]; [|by apply IH].
    exfalso. apply Hx. rewrite E. by apply list_elem_of_fmap_2.
Qed.

Lemma run_from_new ops d log outs :
  forallb op_ok ops = true -> Z.of_nat (length ops) < 2 ^ 63 ->
  run_ops (empty_disk, new_log) ops = (d, log, outs) ->
  exists base, outs = (abs_run new_alog ops).2 /\ log_inv base d log (abs_run new_alog ops).1 /\
    abs_ok (Z.of_nat (length ops)) (abs_run new_alog ops).1.
Proof.
  intros Hok Hl Hrun. destruct (run_ops_refines ops 0 _ _ new_inv Hok Hl) as ([d' log'] & E & [[base Hinv] Hao]).
  rewrite Hrun in E. injection E as -> -> ->. exists base. split_and!; [done|done|]. exact Hao.
Qed.

(** ** Streaming *)

Lemma next_record_one reader :
  next_record reader = let? o := read_one reader in Ok ((fun p => (p.1.1, p.2)) <$> o).
Proof.
  unfold next_record, read_one. destruct (fill 8 reader) as [[h r]|]; [|done].
  destruct (fill _ r) as [[p r']|]; [|done]. destruct (negb _); [done|]. by destruct (record_decode p).
Qed.

Lemma epochs_loop_batches bs : forall fuel rest pend,
  forallb (fun b => record_ok (batch_record b)) bs = true -> (length (bytes_of bs ++ rest) < fuel)%nat ->
  exists fuel', (length rest < fuel')%nat /\ epochs_loop fuel (bytes_of bs ++ rest) pend = epochs_loop fuel' rest (pend ++ bs).
Proof.
  induction bs as [|b bs IH]; intros fuel rest pend Hok Hf; [exists fuel; by rewrite app_nil_r|].
  destruct fuel as [|fuel]; [lia|]. simpl in Hok. apply andb_true_iff in Hok as [Hb Hbs].
  unfold bytes_of in *. cbn [flat_map epochs_loop] in *. rewrite <- app_assoc in *. rewrite length_app in Hf.
  pose proof (rframe_length (batch_record b)) as Hl. rewrite batch_frame_eq in Hf |- *.
  rewrite next_record_one, read_one_rframe by done. cbn [fmap option_fmap option_map fst snd].
  destruct (IH fuel rest (pend ++ [b]) Hbs ltac:(lia)) as (fuel' & Hf' & E). exists fuel'. split; [done|].
  rewrite <- app_assoc in E. destruct b. exact E.
Qed.

(** The numbered epochs of an abstract log. *)
Definition numbered (n : Z) (eps : list (list Batch)) : list SealedEpoch :=
  imap (fun i bs => mkSealedEpoch (n + Z.of_nat i) bs) eps.

Lemma collect_epochs eps : forall n tail pend fuel,
  forallb record_ok (records_from n eps ++ map batch_record pend) = true -> read_one tail = Ok None ->
  (length eps < fuel)%nat ->
  epochs_collect fuel (epochs_open (flat_map rframe (records_from n eps) ++ bytes_of pend ++ tail)) =
  map Ok (numbered n eps).
Proof.
  assert (forall bs, forallb record_ok (map batch_record bs) = forallb (fun b => record_ok (batch_record b)) bs) as Hmap.
  { induction bs; simpl; congruence. }
  induction eps as [|bs eps IH]; intros n tail pend fuel Hok Ht Hf; (destruct fuel as [|fuel]; [lia|]);
    cbn [records_from flat_map epochs_collect app] in *; unfold epochs_next, epochs_open; cbn [ep_done ep_reader ep_pending].
  - rewrite Hmap in Hok. edestruct (epochs_loop_batches pend) as (fuel' & Hf' & ->); [exact Hok|apply Nat.lt_succ_diag_r|].
    destruct fuel' as [|fuel']; [lia|]. cbn [epochs_loop]. by rewrite next_record_one, Ht.
  - rewrite flat_map_app, bytes_of_frames, <- !app_assoc. cbn [flat_map]. rewrite <- !app_assoc in *.
    rewrite forallb_app, Hmap in Hok. apply andb_true_iff in Hok as [Hb Hok].
    cbn [app forallb] in Hok. apply andb_true_iff in Hok as [Hs Hok].
    edestruct (epochs_loop_batches bs) as (fuel' & Hf' & ->); [exact Hb|apply Nat.lt_succ_diag_r|].
    destruct fuel' as [|fuel']; [lia|]. cbn [epochs_loop]. rewrite next_record_one, read_one_rframe by done.
    cbn [fmap option_fmap option_map fst snd app]. fold (epochs_open (flat_map rframe (records_from (n + 1) eps) ++ bytes_of pend ++ tail)).
    rewrite (IH (n + 1) tail pend fuel); [|done|done|simpl in Hf; lia].
    unfold numbered. cbn [imap map]. rewrite Z.add_0_r. do 2 f_equal. apply imap_ext. intros i x _. simpl. f_equal. lia.
Qed.

(** ** Theorems *)

(** C28: the log refines its specification.  Through any sequence of appends,
    seals, restarts, deaths between a write and its index, and compactions, the
    log on disk answers as an abstract log that has no disk: the same
    acknowledgements, replays dropped, refusals and epoch numbers, the same
    batches for every epoch, and reopening the directory gives the very log in
    memory, so that a crash equals a replay (I-7). *)
Theorem log_refines_spec ops d log outs :
  forallb op_ok ops = true -> Z.of_nat (length ops) < 2 ^ 63 ->
  run_ops (empty_disk, new_log) ops = (d, log, outs) ->
  outs = (abs_run new_alog ops).2 /\
  (forall n, log_epoch log d n = abs_epoch (abs_run new_alog ops).1 n) /\
  log_pending log = a_pending (abs_run new_alog ops).1 /\
  (log_open d catalog inert policy).2 = Ok log.
Proof.
  intros Hok Hl Hrun. destruct (run_from_new _ _ _ _ Hok Hl Hrun) as (base & Ho & Hinv & _). split_and!; [done| | |].
  - intros n. by eapply log_epoch_refines.
  - by rewrite (li_log _ _ _ _ Hinv).
  - by destruct (reopen_inv _ _ _ _ inert Hinv) as (f' & _ & ->).
Qed.

(** C29: exactly-once ingest (ARCHITECTURE I-4).  Whatever restarts and crashes
    between steps a run has, a batch whose append was acknowledged is in the log
    exactly once: one batch of the log carries its token, it is the batch itself
    when the acknowledgement was [Appended], and one with its content when the
    append was a replay. *)
Theorem acknowledged_exactly_once ops d log outs i b ack :
  forallb op_ok ops = true -> forallb no_compaction ops = true -> Z.of_nat (length ops) < 2 ^ 63 ->
  run_ops (empty_disk, new_log) ops = (d, log, outs) ->
  ops !! i = Some (LAppend b) -> outs !! i = Some (OutAck (Ok ack)) ->
  exists all b', log_contents log d = Ok all /\
    base.filter (fun x => dedup_token x = dedup_token b) all = [b'] /\
    content_hash (batch_record b') = content_hash (batch_record b) /\ (ack = Appended -> b' = b).
Proof.
  intros Hok Hn Hl Hrun Hi Ho. destruct (run_from_new _ _ _ _ Hok Hl Hrun) as (base & -> & Hinv & Hao).
  assert (abs_full new_alog) as Hfull by done.
  destruct (abs_run_acked ops new_alog i b ack Hfull Hn Hi Ho) as (b' & Hin & Ht & Hh & Hack).
  exists (batches (abs_run new_alog ops).1), b'. split_and!; [by eapply contents_refines| |done|done].
  rewrite <- Ht. apply filter_token; [apply Hao|done].
Qed.

(** Streaming the segment file, torn at its end or not, yields exactly the
    sealed epochs, in order and under their numbers: the same batches
    [Log::epoch] reads one at a time. *)
Theorem stream_yields_epochs ops d log outs r k fuel :
  forallb op_ok ops = true -> Z.of_nat (length ops) < 2 ^ 63 ->
  run_ops (empty_disk, new_log) ops = (d, log, outs) ->
  record_ok r = true -> (k < length (frame (record_encode r)))%nat -> (length (sealed log) < fuel)%nat ->
  exists eps, length eps = length (sealed log) /\
    (forall i bs, eps !! i = Some bs -> log_epoch log d (retained_from log + 1 + Z.of_nat i) = Ok bs) /\
    epochs_collect fuel (epochs_open (segment_bytes (crash_append log d r k) (segment log))) =
    map Ok (imap (fun i bs => mkSealedEpoch (retained_from log + 1 + Z.of_nat i) bs) eps).
Proof.
  intros Hok Hl Hrun Hr Hk Hf. destruct (run_from_new _ _ _ _ Hok Hl Hrun) as (base & _ & Hinv & _).
  set (a := (abs_run new_alog ops).1) in *. pose proof Hinv as [Hlog _ Hrec Hb Hfr _ _ _].
  assert (length (sealed log) = length (a_epochs a)) as Hlen by (rewrite Hlog; apply spans_length).
  assert (retained_from log = a_from a) as -> by (by rewrite Hlog). exists (a_epochs a). split_and!; [done| |].
  - intros i bs Hi. rewrite (log_epoch_refines _ _ _ _ _ Hinv). apply lookup_lt_Some in Hi as Hlt.
    unfold abs_epoch, abs_sealed.
    rewrite (proj2 (Z.eqb_neq _ _)), (proj2 (Z.leb_gt _ _)), (proj2 (Z.ltb_ge _ _)) by lia. simpl.
    replace (Z.to_nat (a_from a + 1 + Z.of_nat i - a_from a - 1)) with i by lia. by rewrite Hi.
  - unfold crash_append. rewrite append_file_bytes, Hb, all_bytes_split, <- app_assoc, rframe_eq in *.
    apply collect_epochs; [done|by apply read_one_torn|lia].
Qed.

(** A torn write is discarded.  When the process dies with any number of
    bytes of a record's frame written, short of all, reopening the directory
    gives the log as it was before the write. *)
Theorem torn_write_discarded ops d log outs r k :
  forallb op_ok ops = true -> Z.of_nat (length ops) < 2 ^ 63 ->
  run_ops (empty_disk, new_log) ops = (d, log, outs) ->
  record_ok r = true -> (k < length (frame (record_encode r)))%nat ->
  (log_open (crash_append log d r k) catalog inert policy).2 = Ok log.
Proof.
  intros Hok Hl Hrun Hr Hk. destruct (run_from_new _ _ _ _ Hok Hl Hrun) as (base & _ & Hinv & _).
  pose proof Hinv as [Hlog _ Hrec Hb _ _ Hp Hs]. unfold crash_append. rewrite rframe_eq in *.
  destruct (open_segment (append_file d (segment log) (take k (rframe r))) (segment log) (log_snapshot log)
    (abs_run new_alog ops).1 base (take k (rframe r)) inert) as (f' & _ & ->).
  - by apply append_file_points.
  - done.
  - by rewrite append_file_bytes, Hb.
  - by apply read_one_torn.
  - done.
  - done.
  - by rewrite <- Hlog.
Qed.
End refine.

(** ** After a torn write *)

Definition ex_catalog : Catalog :=
  [("orders"%string, mkSchema [mkField "id" Int64 false; mkField "amount" Int64 true])].

Definition ex_batch (token : string) (n : Z) : Batch := mkLogBatch "shop" token "orders" [([VInt 1; VInt n], 1)].




(** ** Witnesses *)

Definition ex_ops : list LogOp :=
  [LAppend (ex_batch "a" 5); LCrash (ex_batch "b" 7); LAppend (ex_batch "b" 7); LSeal; LRestart;
   LAppend (ex_batch "a" 6); LAppend (ex_batch "c" 8)].

Definition ex_run : Disk * Log * list LogOut := run_ops Full ex_catalog (empty_disk, new_log Full ex_catalog) ex_ops.

Lemma ex_run_eq :
  run_ops Full ex_catalog (empty_disk, new_log Full ex_catalog) ex_ops = (ex_run.1.1, ex_run.1.2, ex_run.2).
Proof. unfold ex_run. by destruct (run_ops _ _ _ _) as [[? ?] ?]. Qed.

Lemma log_refines_spec_witness :
  ex_run.2 = [OutAck (Ok Appended); OutUp; OutAck (Ok DroppedAsReplay); OutSeal (Ok 1); OutUp;
              OutAck (Err (TokenReused "shop" "a")); OutAck (Ok Appended)] /\
  log_epoch ex_run.1.2 ex_run.1.1 1 = Ok [ex_batch "a" 5; ex_batch "b" 7] /\
  log_pending ex_run.1.2 = [ex_batch "c" 8].
Proof.
  destruct (log_refines_spec Full ex_catalog ex_ops ex_run.1.1 ex_run.1.2 ex_run.2) as (Ho & He & Hp & _).
  - vm_compute. reflexivity.
  - vm_compute. reflexivity.
  - exact ex_run_eq.
  - split_and!.
    + rewrite Ho. vm_compute. reflexivity.
    + rewrite (He 1). vm_compute. reflexivity.
    + rewrite Hp. vm_compute. reflexivity.
Defined.

Lemma acknowledged_exactly_once_witness :
  exists all b', log_contents ex_run.1.2 ex_run.1.1 = Ok all /\
    base.filter (fun x => dedup_token x = "b"%string) all = [b'] /\
    content_hash (batch_record b') = content_hash (batch_record (ex_batch "b" 7)) /\
    (DroppedAsReplay = Appended -> b' = ex_batch "b" 7).
Proof.
  apply (acknowledged_exactly_once Full ex_catalog ex_ops ex_run.1.1 ex_run.1.2 ex_run.2 2 (ex_batch "b" 7) DroppedAsReplay).
  - vm_compute. reflexivity.
  - vm_compute. reflexivity.
  - vm_compute. reflexivity.
  - exact ex_run_eq.
  - vm_compute. reflexivity.
  - vm_compute. reflexivity.
Defined.

Lemma torn_write_discarded_witness :
  (log_open (crash_append ex_run.1.2 ex_run.1.1 (batch_record (ex_batch "d" 1)) 30) ex_catalog inert Full).2 = Ok ex_run.1.2.
Proof.
  apply (torn_write_discarded Full ex_catalog ex_ops ex_run.1.1 ex_run.1.2 ex_run.2 (batch_record (ex_batch "d" 1)) 30).
  - vm_compute. reflexivity.
  - vm_compute. reflexivity.
  - exact ex_run_eq.
  - vm_compute. reflexivity.
  - vm_compute. lia.
Defined.

Lemma stream_yields_epochs_witness :
  exists eps, length eps = 1%nat /\
    (forall i bs, eps !! i = Some bs -> log_epoch ex_run.1.2 ex_run.1.1 (0 + 1 + Z.of_nat i) = Ok bs) /\
    epochs_collect 2 (epochs_open (segment_bytes (crash_append ex_run.1.2 ex_run.1.1 (batch_record (ex_batch "d" 1)) 30)
                                     DEFAULT_SEGMENT)) =
    map Ok (imap (fun i bs => mkSealedEpoch (0 + 1 + Z.of_nat i) bs) eps).
Proof.
  apply (stream_yields_epochs Full ex_catalog ex_ops ex_run.1.1 ex_run.1.2 ex_run.2 (batch_record (ex_batch "d" 1)) 30 2).
  - vm_compute. reflexivity.
  - vm_compute. reflexivity.
  - exact ex_run_eq.
  - vm_compute. reflexivity.
  - vm_compute. lia.
  - vm_compute. lia.
Defined.
