(* ===== verification/PlanForm.v ===== *)
(** * The identity of a plan ([schweep-sql]: circuit_plan.rs, [schweep-memo]:
    canonical.rs)

    The s-expression rendering of a plan and its hash, which name a subtree in
    the memo's share index, and the canonical form a plan is brought into before
    it is hashed.  Canonicalization keeps what a plan computes. *)

From Stdlib Require Import ZArith Lia Ascii.
From stdpp Require Import base list strings pretty sorting.
From S2P Require Import Prelude BTree ZAlg Value ZSet Plan Bind Codec State Operator Linear Distinct Join Aggregate ResultStore Circuit Dataflow Engine Compile.

(** [{:?}] of a string with a character outside ASCII, which depends on the
    Unicode tables, and of an [f64]. *)
Class Debug := { debug_wide : string -> string; debug_f64 : Z -> string }.

(** ** Rendering a value ([impl Display for Value]) *)

Definition chr (n : nat) : string := String (ascii_of_nat n) "".

Definition hex_digit (n : nat) : string := chr (if n <? 10 then 48 + n else 87 + n)%nat.

(** [{:x}] of a byte. *)
Definition hex_byte (n : nat) : string :=
  if (n <? 16)%nat then hex_digit n else (hex_digit (n / 16) +:+ hex_digit (n mod 16))%string.

(** [char::escape_debug] inside a string, for ASCII. *)
Definition escape_char (n : nat) : string :=
  match n with
  | 0 => chr 92 +:+ "0"
  | 9 => chr 92 +:+ "t"
  | 10 => chr 92 +:+ "n"
  | 13 => chr 92 +:+ "r"
  | 34 => chr 92 +:+ chr 34
  | 92 => chr 92 +:+ chr 92
  | _ => if (n <? 32)%nat || (n =? 127)%nat then chr 92 +:+ "u{" +:+ hex_byte n +:+ "}" else chr n
  end%string%nat.

Fixpoint escape_str (s : string) : string :=
  match s with
  | EmptyString => ""
  | String c s' => (escape_char (nat_of_ascii c) +:+ escape_str s')%string
  end.

Fixpoint is_ascii (s : string) : bool :=
  match s with
  | EmptyString => true
  | String c s' => (nat_of_ascii c <? 128)%nat && is_ascii s'
  end.

Section form.
Context `{Debug}.

Definition debug_str (s : string) : string :=
  if is_ascii s then (chr 34 +:+ escape_str s +:+ chr 34)%string else debug_wide s.

Definition value_to_string (v : Value) : string :=
  match v with
  | VNull => "NULL"
  | VInt i => pretty i
  | VStr s => debug_str s
  | VBool b => if b then "true" else "false"
  | VFloat bits => debug_f64 bits
  end.

(** ** The structural form *)

Definition naming_form (n : Naming) : string :=
  match n with Qualified => "qualified" | Unqualified => "unqualified" end.

Fixpoint expr_form (e : Expr) : string :=
  match e with
  | EColumn n => "#" +:+ n
  | ELiteral v => value_to_string v
  | ENull ty => "null:" +:+ type_name ty
  | EBinary op l r => "(" +:+ binop_name op +:+ " " +:+ expr_form l +:+ " " +:+ expr_form r +:+ ")"
  | ENot i => "(not " +:+ expr_form i +:+ ")"
  | EAnd l r => "(and " +:+ expr_form l +:+ " " +:+ expr_form r +:+ ")"
  | EOr l r => "(or " +:+ expr_form l +:+ " " +:+ expr_form r +:+ ")"
  | EIsNull i => "(is-null " +:+ expr_form i +:+ ")"
  | EIsNotNull i => "(is-not-null " +:+ expr_form i +:+ ")"
  | ECase whens otherwise =>
      "(case [" +:+ join_strings " " (map (fun w => "(" +:+ expr_form w.1 +:+ " " +:+ expr_form w.2 +:+ ")") whens)
      +:+ "] else " +:+ match otherwise with None => "none" | Some x => expr_form x end +:+ ")"
  end%string.

Definition agg_func_form (f : AggFunc) : string :=
  match argument f with
  | None => agg_name f
  | Some arg => agg_name f +:+ "(" +:+ expr_form arg +:+ ")"
  end%string.

(** [(name form)] for each item, separated by spaces. *)
Definition named_forms {T} (form : T -> string) (l : list (Named T)) : string :=
  join_strings " " (map (fun x => "(" +:+ name x +:+ " " +:+ form (value x) +:+ ")")%string l).

Fixpoint pad (depth : nat) : string :=
  match depth with O => "" | S d => ("  " +:+ pad d)%string end.

Fixpoint write_form (n : CircuitNode) (depth : nat) : string :=
  match n with
  | CSource table alias schema =>
      pad depth +:+ "(source " +:+ table +:+ " as " +:+ alias +:+ " " +:+ schema_to_string schema +:+ ")" +:+ chr 10
  | CFilter input nm p =>
      pad depth +:+ "(filter " +:+ naming_form nm +:+ " " +:+ expr_form p +:+ ")" +:+ chr 10
      +:+ write_form input (S depth)
  | CProject input nm its schema =>
      pad depth +:+ "(project " +:+ naming_form nm +:+ " [" +:+ named_forms expr_form its +:+ "] "
      +:+ schema_to_string schema +:+ ")" +:+ chr 10 +:+ write_form input (S depth)
  | CJoin l r ks schema =>
      pad depth +:+ "(join ["
      +:+ join_strings " " (map (fun p => "(" +:+ pretty p.1 +:+ " " +:+ pretty p.2 +:+ ")") ks) +:+ "] "
      +:+ schema_to_string schema +:+ ")" +:+ chr 10 +:+ write_form l (S depth) +:+ write_form r (S depth)
  | CAggregate input ks aggs schema =>
      pad depth +:+ "(aggregate keys [" +:+ named_forms expr_form ks +:+ "] aggs ["
      +:+ named_forms agg_func_form aggs +:+ "] " +:+ schema_to_string schema +:+ ")" +:+ chr 10
      +:+ write_form input (S depth)
  | CDistinct input => pad depth +:+ "(distinct)" +:+ chr 10 +:+ write_form input (S depth)
  end%string.

Definition structural_form (n : CircuitNode) : string := write_form n 0.

(** FNV-1a over the bytes of the form. *)
Definition structural_hash (n : CircuitNode) : Z :=
  fold_left (fun hash byte => (Z.lxor hash (Z.of_N byte) * 1099511628211) mod 2 ^ 64)
    (string_bytes (structural_form n)) 14695981039346656037.
End form.

(** ** The canonical form *)

Definition key_le (a b : nat * nat) : Prop := cmp a b <> Gt.
#[export] Instance key_le_dec : RelDecision key_le.
Proof. intros a b. unfold key_le. apply _. Defined.

Fixpoint canonical_node (n : CircuitNode) : CircuitNode :=
  match n with
  | CSource _ _ _ => n
  | CFilter input nm p => CFilter (canonical_node input) nm p
  | CProject input nm its schema => CProject (canonical_node input) nm its schema
  | CJoin l r ks schema => CJoin (canonical_node l) (canonical_node r) (merge_sort key_le ks) schema
  | CAggregate input ks aggs schema => CAggregate (canonical_node input) ks aggs schema
  | CDistinct input => CDistinct (canonical_node input)
  end.

Definition canonicalize (plan : CircuitPlan) : CircuitPlan :=
  mkPlan (canonical_node (root plan)) (plan_output_schema plan).

Definition subtree_hash `{Debug} (n : CircuitNode) : Z := structural_hash n.

(** ** Canonicalization keeps the plan's meaning *)

(** One pair of key columns agrees, neither side null. *)
Definition pair_equal (l r : Row) (p : nat * nat) : bool :=
  match row_get l p.1, row_get r p.2 with
  | Some a, Some b => negb (is_null a) && negb (is_null b) && cmp_eqb a b
  | _, _ => false
  end.

Lemma keys_equal_pairs ks l r : keys_equal (map fst ks) (map snd ks) l r = forallb (pair_equal l r) ks.
Proof.
  unfold keys_equal. induction ks as [|[i j] ks IH]; [done|]. cbn [map fst snd forallb key_of].
  rewrite <- IH. unfold pair_equal. cbn [fst snd].
  destruct (row_get l i) as [[]|], (row_get r j) as [[]|]; cbn [is_null negb andb];
    destruct (key_of l (map fst ks)), (key_of r (map snd ks)); rewrite ?cmp_eqb_cons, ?andb_false_r; done.
Qed.

Lemma forallb_Permutation {A} (f : A -> bool) l l' : l ≡ₚ l' -> forallb f l = forallb f l'.
Proof.
  intros Hp. apply eq_true_iff_eq. rewrite !forallb_forall.
  split; intros Hf x Hx; apply Hf; (eapply Permutation_in; [|exact Hx]); [by symmetry|done].
Qed.

Lemma zjoin_Permutation ks ks' L R :
  ks ≡ₚ ks' -> zjoin (map fst ks) (map snd ks) L R = zjoin (map fst ks') (map snd ks') L R.
Proof.
  intros Hp. unfold zjoin. assert (forall l r, join_row (map fst ks) (map snd ks) l r
    = join_row (map fst ks') (map snd ks') l r) as Hj.
  { intros l r. unfold join_row. by rewrite !keys_equal_pairs, (forallb_Permutation _ _ _ Hp). }
  unfold zbind. apply flat_map_ext. intros [l w]. f_equal. apply flat_map_ext. intros [r w']. simpl.
  by rewrite Hj.
Qed.

Lemma canonical_node_schema n : node_schema (canonical_node n) = node_schema n.
Proof. by induction n. Qed.

Lemma canonical_data E b n : plan_data E b (canonical_node n) = plan_data E b n.
Proof.
  induction n as [t a s|i IH nm p|i IH nm its s|l IHl r IHr ks s|i IH ks aggs s|i IH]; simpl;
    rewrite ?canonical_node_schema, ?IH; try done.
  rewrite IHl, IHr. apply zjoin_Permutation, merge_sort_Permutation.
Qed.

Lemma canonical_own_errs E b n : own_errs E b (canonical_node n) = own_errs E b n.
Proof. by destruct n; simpl; rewrite ?canonical_node_schema, ?canonical_data. Qed.

Lemma canonical_walk n : walk (canonical_node n) = map canonical_node (walk n).
Proof.
  induction n as [t a s|i IH nm p|i IH nm its s|l IHl r IHr ks s|i IH ks aggs s|i IH]; simpl;
    rewrite ?map_app, ?IH, ?IHl, ?IHr; done.
Qed.

Lemma canonical_errs E b n : plan_errs E b (canonical_node n) = plan_errs E b n.
Proof.
  unfold plan_errs. rewrite canonical_walk. induction (walk n) as [|m l IH]; [done|]. simpl.
  by rewrite canonical_own_errs, IH.
Qed.
