(* ===== verification/MemoGraph.v ===== *)
(** * A shared dataflow and the plans its nodes compute

    Every live node of a memo's dataflow stands for a subtree of some registered
    plan.  Under that labelling a pass, over all nodes or over the nodes of one
    registration, moves each node's state and each sink's stores from one state
    of the tables to the next.

    Its later part: the shape of a compiled plan. *)

From Stdlib Require Import ZArith Lia.
From stdpp Require Import base list strings pretty.
From S2P Require Import Prelude BTree ZAlg Value ZSet Plan Bind Codec State Operator Linear Distinct Join Aggregate Oracle ResultStore Circuit Dataflow Engine Compile AggEquiv Equiv Invariants PlanForm.

(** ** Plans over empty tables *)

Lemma plan_data_init E n : (forall t, E t ≡z []) -> plan_data E false n ≡z [].
Proof.
  intros HE. induction n as [t a s|i IH nm p|i IH nm its s|l IHl r IHr ks s|i IH ks aggs s|i IH]; simpl.
  - apply HE.
  - by apply (any_data_init (OpFilter (B := MemBackend) (mkFilter (node_schema i) p)) [plan_data E false i]),
      Forall_singleton.
  - by apply (any_data_init (OpProject (B := MemBackend) (mkProject (node_schema i) s its)) [plan_data E false i]),
      Forall_singleton.
  - apply (any_data_init (OpJoin (mkJoin s s s (map fst ks) (map snd ks) mem_new mem_new))
      [plan_data E false l; plan_data E false r]). by repeat constructor.
  - by apply (any_data_init (OpAggregate (mkAggregate (node_schema i) s ks aggs mem_new)) [plan_data E false i]),
      Forall_singleton.
  - by apply (any_data_init (OpDistinct (mkDistinct (node_schema i) mem_new)) [plan_data E false i]),
      Forall_singleton.
Qed.

Lemma own_errs_init E n : (forall t, E t ≡z []) -> own_errs E false n ≡z [].
Proof.
  intros HE. destruct n as [t a s|i nm p|i nm its s|l r ks s|i ks aggs s|i]; simpl; try done.
  - by apply (any_errs_init (OpFilter (B := MemBackend) (mkFilter (node_schema i) p)) [plan_data E false i]),
      Forall_singleton, plan_data_init.
  - by apply (any_errs_init (OpProject (B := MemBackend) (mkProject (node_schema i) s its)) [plan_data E false i]),
      Forall_singleton, plan_data_init.
  - by apply (any_errs_init (OpAggregate (mkAggregate (node_schema i) s ks aggs mem_new)) [plan_data E false i]),
      Forall_singleton, plan_data_init.
Qed.

Lemma plan_errs_init E n : (forall t, E t ≡z []) -> plan_errs E false n ≡z [].
Proof.
  intros HE. unfold plan_errs. induction (walk n) as [|m l IH]; [done|]. simpl. by rewrite own_errs_init, IH.
Qed.

(** The schema the operator built for a node emits. *)
Definition emitted_schema (n : CircuitNode) : Schema :=
  match n with
  | CSource _ _ s | CAggregate _ _ _ s => s
  | CFilter i _ _ | CDistinct i => node_schema i
  | CProject i nm its s => match projection_schema (mkScope (node_schema i) nm) its with Ok o => o | Err _ => s end
  | CJoin l r _ s => match Schema_new (fields (node_schema l) ++ fields (node_schema r)) with Ok o => o | Err _ => s end
  end.

Section graph.
Context {F B : Type} `{FactoryLaws F B}.
Implicit Type (c : Circuit (AnyOp B)) (ns : list (option (Node (AnyOp B)))) (op : AnyOp B).

(** ** The labelling *)

Abbreviation Plans := (list (option CircuitNode)).
Implicit Type P : Plans.

Definition plan_at P (i : nat) : option CircuitNode := match P !! i with Some p => p | None => None end.

(** The operator computes node [n] from its children. *)
Definition computes op (n : CircuitNode) : Prop :=
  (forall E b, any_data op b (map (plan_data E b) (children n)) = plan_data E b n) /\
  (forall E b, any_errs op b (map (plan_data E b) (children n)) = own_errs E b n) /\
  op_output_schema op = emitted_schema n.

Definition slot_fits P (slot : option (Node (AnyOp B))) (p : option CircuitNode) : Prop :=
  match slot, p with
  | None, None => True
  | Some (NSource t a s), Some n => n = CSource t a s
  | Some (NOperator op ids), Some n => map (plan_at P) ids = map Some (children n) /\ computes op n
  | _, _ => False
  end.

Record graph_ok ns P : Prop := {
  g_length : length P = length ns;
  g_fits : forall i slot, ns !! i = Some slot -> slot_fits P slot (plan_at P i);
  g_wired : wired ns
}.

(** What node [i] holds, and the errors it raises, over the tables [E]. *)
Definition val P (E : string -> Entries) (b : bool) (i : nat) : Entries :=
  match plan_at P i with Some n => plan_data E b n | None => [] end.
Definition err P (E : string -> Entries) (b : bool) (i : nat) : Entries :=
  match plan_at P i with Some n => own_errs E b n | None => [] end.

(** The state of node [i] stands for the tables [E]. *)
Definition op_at ns P (E : string -> Entries) (b : bool) (i : nat) : Prop :=
  forall op ids n, ns !! i = Some (Some (NOperator op ids)) -> plan_at P i = Some n ->
    any_inv op b (map (plan_data E b) (children n)).

Lemma map_val P E b ids n :
  map (plan_at P) ids = map Some (children n) -> map (val P E b) ids = map (plan_data E b) (children n).
Proof.
  revert ids. generalize (children n). intros l. induction l as [|ch l IH]; intros [|i ids]; simpl; try done.
  intros [= Hi Hl]. unfold val at 1. by rewrite Hi, IH.
Qed.

Lemma fits_operator ns P i op ids :
  graph_ok ns P -> ns !! i = Some (Some (NOperator op ids)) ->
  exists n, plan_at P i = Some n /\ map (plan_at P) ids = map Some (children n) /\ computes op n.
Proof.
  intros Hg Hi. pose proof (g_fits _ _ Hg _ _ Hi) as Hf. simpl in Hf.
  destruct (plan_at P i) as [n|]; [|done]. by exists n.
Qed.

Lemma fits_source ns P i t a s :
  graph_ok ns P -> ns !! i = Some (Some (NSource t a s)) -> plan_at P i = Some (CSource t a s).
Proof.
  intros Hg Hi. pose proof (g_fits _ _ Hg _ _ Hi) as Hf. simpl in Hf.
  destruct (plan_at P i) as [n|]; [|done]. by subst n.
Qed.

(** A labelled slot is live and an unlabelled one is not. *)
Lemma fits_live ns P i : graph_ok ns P -> is_Some (plan_at P i) <-> exists x : Node (AnyOp B), ns !! i = Some (Some x).
Proof.
  intros Hg. split.
  - intros [n Hn]. destruct (ns !! i) as [slot|] eqn:Ei.
    + pose proof (g_fits _ _ Hg _ _ Ei) as Hf. rewrite Hn in Hf. destruct slot as [x|]; [by exists x|done].
    + apply lookup_ge_None in Ei. rewrite <- (g_length _ _ Hg) in Ei. unfold plan_at in Hn.
      by rewrite lookup_ge_None_2 in Hn.
  - intros [x Hx]. pose proof (g_fits _ _ Hg _ _ Hx) as Hf. destruct (plan_at P i); [done|]. by destruct x.
Qed.

Lemma computes_same op op' n :
  op_output_schema op' = op_output_schema op ->
  (forall b Is, any_data op' b Is = any_data op b Is) -> (forall b Is, any_errs op' b Is = any_errs op b Is) ->
  computes op n -> computes op' n.
Proof. intros Hs Hd He (Hcd & Hce & Hcs). split_and!; intros; rewrite ?Hd, ?He, ?Hs; auto. Qed.

Lemma graph_ok_same ns ns' P : Forall2 same_slot ns ns' -> graph_ok ns P -> graph_ok ns' P.
Proof.
  intros Hs [Hl Hf Hw]. split.
  - by rewrite <- (Forall2_length _ _ _ Hs).
  - intros i slot' Hi. destruct (Forall2_lookup_r _ _ _ _ _ Hs Hi) as (slot & Hi' & Hss).
    specialize (Hf _ _ Hi'). destruct slot as [[]|], slot' as [[]|], (plan_at P i); simpl in *; try done.
    + by destruct Hss as (<- & <- & <-).
    + destruct Hss as (<- & Hsch & Hd & He), Hf as [Hc Hop]. split; [done|]. by eapply computes_same.
  - by eapply wired_same.
Qed.

(** ** Upstream *)

Lemma reaches_plan c P i j n :
  graph_ok (nodes c) P -> reaches c i j -> plan_at P i = Some n ->
  exists m, plan_at P j = Some m /\ m ∈ walk n.
Proof.
  intros Hg Hr. revert n. induction Hr as [i|i k j slot Hs Hk Hr IH]; intros n Hn.
  { exists n. split; [done|]. rewrite walk_children. apply elem_of_app. right. apply list_elem_of_here. }
  destruct slot as [[|op ids]|]; simpl in Hk; try by inversion Hk.
  destruct (fits_operator _ _ _ _ _ Hg Hs) as (n' & Hn' & Hch & _). rewrite Hn in Hn'. injection Hn' as <-.
  apply (list_elem_of_fmap_2 (plan_at P)) in Hk. change (plan_at P <$> ids) with (map (plan_at P) ids) in Hk.
  rewrite Hch in Hk. apply list_elem_of_fmap in Hk as (ch & Hkc & Hin).
  destruct (IH ch Hkc) as (m & Hm & Hw). exists m. split; [done|]. rewrite walk_children.
  apply elem_of_app. left. apply list_elem_of_In, in_flat_map. exists ch.
  by rewrite <- !list_elem_of_In.
Qed.

Lemma walk_reached c P i n m :
  graph_ok (nodes c) P -> plan_at P i = Some n -> m ∈ walk n ->
  exists j, reaches c i j /\ plan_at P j = Some m.
Proof.
  intros Hg. revert n. induction i as [i IH] using lt_wf_ind. intros n Hn Hm.
  rewrite walk_children in Hm. apply elem_of_app in Hm as [Hm|Hm].
  2: { apply list_elem_of_singleton in Hm as ->. exists i. split; [constructor|done]. }
  apply list_elem_of_In, in_flat_map in Hm as (ch & Hch & Hm%list_elem_of_In).
  destruct (proj1 (fits_live _ _ _ Hg) (mk_is_Some _ _ Hn)) as [x Hx].
  destruct x as [t a s|op ids].
  { rewrite (fits_source _ _ _ _ _ _ Hg Hx) in Hn. injection Hn as <-. done. }
  destruct (fits_operator _ _ _ _ _ Hg Hx) as (n' & Hn' & Hids & _). rewrite Hn in Hn'. injection Hn' as <-.
  assert (Some ch ∈ map (plan_at P) ids) as Hin.
  { rewrite Hids. apply list_elem_of_In, in_map, Hch. }
  apply list_elem_of_fmap in Hin as (k & Hk & Hkin).
  pose proof (g_wired _ _ Hg _ _ Hx) as Hlt. simpl in Hlt. rewrite Forall_forall in Hlt.
  destruct (IH k (Hlt k Hkin) ch (eq_sym Hk) Hm) as (j & Hj & Hpj).
  exists j. split; [|done]. by eapply (reaches_up _ _ _ _ _ Hx).
Qed.

(** [top] reaches no two nodes of one plan. *)
Definition unshared c P (top : nat) : Prop :=
  forall i j n, reaches c top i -> reaches c top j -> plan_at P i = Some n -> plan_at P j = Some n -> i = j.

Lemma flat_map_Permutation {A} (f : A -> Entries) l l' : l ≡ₚ l' -> flat_map f l ≡z flat_map f l'.
Proof.
  intros Hp. induction Hp as [|x l l' Hp IH|x y l|l1 l2 l3 _ IH1 _ IH2]; simpl; [done|by rewrite IH| |by rewrite IH1].
  intros r. rewrite !weight_app. lia.
Qed.

(** The plans of the nodes of a set, in index order. *)
Definition plans_among P (among : NodeSet) (k : nat) : list CircuitNode :=
  omap (fun i => if bt_contains i among then plan_at P i else None) (seq 0 k).

Lemma errors_plans P E b among k :
  errors_among (err P E b) among k = flat_map (own_errs E b) (plans_among P among k).
Proof.
  unfold errors_among, plans_among. induction (seq 0 k) as [|i l IH]; [done|]. cbn [flat_map omap list_omap].
  rewrite IH. destruct (bt_contains i among); [|done]. unfold err. by destruct (plan_at P i).
Qed.

Lemma NoDup_omap {A B'} (f : A -> option B') l :
  (forall x y z, x ∈ l -> y ∈ l -> f x = Some z -> f y = Some z -> x = y) -> NoDup l -> NoDup (omap f l).
Proof.
  intros Hinj Hn. induction Hn as [|x l Hx Hn IH]; [constructor|]. cbn [omap list_omap].
  assert (NoDup (omap f l)) as Hl.
  { apply IH. intros y y' z Hy Hy'. apply Hinj; by right. }
  destruct (f x) as [z|] eqn:Ez; [|done]. constructor; [|done].
  intros Hz. apply list_elem_of_omap in Hz as (y & Hy & Hfy). apply Hx.
  rewrite (Hinj x y z); [done|by left|by right|done|done].
Qed.

(** The errors upstream of a node are the errors of its plan. *)
Lemma reach_errors c P E b top n anc :
  graph_ok (nodes c) P -> plan_at P top = Some n -> NoDup (walk n) -> unshared c P top ->
  (forall k, bt_contains k anc = true <-> reaches c top k) ->
  errors_among (err P E b) anc (length (nodes c)) ≡z plan_errs E b n.
Proof.
  intros Hg Hn Hnd Hu Ha. rewrite errors_plans. apply flat_map_Permutation.
  apply NoDup_Permutation; [|done|].
  - apply NoDup_omap; [|apply NoDup_seq]. intros i j m _ _.
    destruct (bt_contains i anc) eqn:Ei; [|done]. destruct (bt_contains j anc) eqn:Ej; [|done].
    apply Ha in Ei, Ej. by apply Hu.
  - intros m. unfold plans_among. rewrite list_elem_of_omap. split.
    + intros (i & _ & Hi). destruct (bt_contains i anc) eqn:Ei; [|done]. apply Ha in Ei.
      destruct (reaches_plan _ _ _ _ _ Hg Ei Hn) as (m' & Hm' & Hw). congruence.
    + intros Hm. destruct (walk_reached _ _ _ _ _ Hg Hn Hm) as (i & Hr & Hi). exists i.
      rewrite (proj2 (Ha i) Hr), elem_of_seq. split; [|done].
      destruct (proj1 (fits_live _ _ _ Hg) (mk_is_Some _ _ Hi)) as [x Hx].
      apply lookup_lt_Some in Hx. lia.
Qed.

(** ** Sinks *)

(** The stores of a sink hold its plan's answer over [E]. *)
Definition sink_value P (E : string -> Entries) (b : bool) (s : Sink) : Prop :=
  exists n, plan_at P (sink_at_node s) = Some n /\ stores_ok s /\ NoDup (walk n) /\
    integral (sink_result s) ≡z plan_data E b n /\ integral (sink_errors s) ≡z plan_errs E b n /\
    store_schema (sink_result s) = emitted_schema n.

(** Its ancestors are the nodes upstream, one per subtree. *)
Definition sink_reach c P (s : Sink) : Prop :=
  (forall k, bt_contains k (sink_ancestors s) = true <-> reaches c (sink_at_node s) k) /\
  unshared c P (sink_at_node s).

Lemma sink_errors_plan c P E b s n :
  graph_ok (nodes c) P -> sink_reach c P s -> plan_at P (sink_at_node s) = Some n -> NoDup (walk n) ->
  errors_among (err P E b) (sink_ancestors s) (length (nodes c)) ≡z plan_errs E b n.
Proof. intros Hg [Ha Hu] Hn Hnd. by eapply reach_errors. Qed.

(** Reachability only looks at the edges. *)
Definition edges c (i : nat) : list nat := default [] (slot_inputs <$> nodes c !! i).

Lemma reaches_edges c c' top j :
  (forall i, reaches c top i -> edges c' i = edges c i) -> reaches c top j -> reaches c' top j.
Proof.
  intros He Hr. induction Hr as [i|i k j slot Hs Hk Hr IH]; [constructor|].
  assert (edges c' i = slot_inputs slot) as Hi.
  { rewrite He by constructor. unfold edges. by rewrite Hs. }
  unfold edges in Hi. destruct (nodes c' !! i) as [slot'|] eqn:Ei; simpl in Hi; [|by rewrite <- Hi in Hk; inversion Hk].
  eapply (reaches_up _ _ k); [exact Ei|by rewrite Hi|]. apply IH. intros i' Hi'. apply He.
  by eapply reaches_up.
Qed.

Lemma reaches_edges_iff c c' top j :
  (forall i, reaches c top i -> edges c' i = edges c i) -> reaches c top j <-> reaches c' top j.
Proof.
  intros He. split; [by apply reaches_edges|]. intros Hr.
  assert (reaches c top j /\ True) as [? _]; [|done].
  revert He. induction Hr as [i|i k j slot Hs Hk Hr IH]; intros He; [split; [constructor|done]|].
  assert (edges c i = slot_inputs slot) as Hi.
  { rewrite <- He by constructor. unfold edges. by rewrite Hs. }
  unfold edges in Hi. destruct (nodes c !! i) as [slot'|] eqn:Ei; simpl in Hi; [|by rewrite <- Hi in Hk; inversion Hk].
  split; [|done]. eapply (reaches_up _ _ k); [exact Ei|by rewrite Hi|]. apply IH.
  intros i' Hi'. apply He. eapply (reaches_up _ _ k); [exact Ei|by rewrite Hi|done].
Qed.

(** Changes that keep the edges and the labels upstream of a sink. *)
Lemma sink_reach_edges c c' P P' s :
  (forall i, reaches c (sink_at_node s) i -> edges c' i = edges c i /\ plan_at P' i = plan_at P i) ->
  sink_reach c P s -> sink_reach c' P' s.
Proof.
  intros He [Ha Hu].
  assert (forall k, reaches c (sink_at_node s) k <-> reaches c' (sink_at_node s) k) as Hr.
  { intros k. apply reaches_edges_iff. intros i Hi. by apply He. }
  split; [intros k; by rewrite Ha|]. intros i j n Hi%Hr Hj%Hr.
  destruct (He i Hi) as [_ ->], (He j Hj) as [_ ->]. by apply Hu.
Qed.

Lemma edges_same c c' i : Forall2 same_slot (nodes c) (nodes c') -> edges c' i = edges c i.
Proof.
  intros Hs. unfold edges. apply (Forall2_lookup _ _ _) with (i := i) in Hs.
  destruct Hs as [n n' Hn|]; [|done]. destruct n as [[]|], n' as [[]|]; simpl in *; try done. by destruct Hn as (-> & _).
Qed.

(** ** A pass over part of the graph *)

Lemma errors_among_ext e e' among k :
  (forall i, bt_contains i among = true -> e i ≡z e' i) -> errors_among e among k ≡z errors_among e' among k.
Proof.
  intros He. apply flat_map_zeq. intros i _. destruct (bt_contains i among) eqn:Ei; [by apply He|done].
Qed.

(** The nodes of [subset] take their inputs from [subset]. *)
Definition closed ns (subset : option (list nat)) : Prop :=
  forall i op ids, is_included subset i = true -> ns !! i = Some (Some (NOperator op ids)) ->
    Forall (fun j => is_included subset j = true) ids.

(** A sink all of whose nodes are in the subset, or none. *)
Definition sink_side c (subset : option (list nat)) (inside : bool) (s : Sink) : Prop :=
  forall k, reaches c (sink_at_node s) k -> is_included subset k = inside.

Section pass_part.
Context c P (subset : option (list nat)) (E0 E1 E : string -> Entries) (b0 : bool) (deltas : EpochDeltas).
Context (Hg : graph_ok (nodes c) P) (Hclosed : closed (nodes c) subset).
Context (Hops : forall i, is_included subset i = true -> op_at (nodes c) P E0 b0 i).
Context (HE : forall t, E0 t ++ entries_for deltas t ≡z E1 t).

(** The nodes of the subset move from [E0] to [E1], the others stay at [E]. *)
Definition staged (f : Plans -> (string -> Entries) -> bool -> nat -> Entries) (E' : string -> Entries)
    (b : bool) (i : nat) : Entries :=
  if is_included subset i then f P E' b i else f P E true i.

Lemma map_staged f E' b ids :
  Forall (fun j => is_included subset j = true) ids -> map (staged f E' b) ids = map (f P E' b) ids.
Proof. intros Hi. induction Hi as [|j l Hj _ IH]; [done|]. simpl. rewrite IH. unfold staged. by rewrite Hj. Qed.

Lemma staged_readings :
  readings (staged val E0 b0) (staged val E1 true) (staged err E0 b0) (staged err E1 true) b0 deltas subset (nodes c).
Proof.
  split.
  - intros i t a s Hinc Hi. unfold staged, val. rewrite Hinc, (fits_source _ _ _ _ _ _ Hg Hi). simpl. apply HE.
  - intros i op ids Hinc Hi. pose proof (Hclosed _ _ _ Hinc Hi) as Hcl.
    destruct (fits_operator _ _ _ _ _ Hg Hi) as (n & Hn & Hch & Hd & He & _).
    rewrite !map_staged by done. rewrite !(map_val _ _ _ _ _ Hch). unfold staged, val, err. rewrite Hinc, Hn.
    split_and!; [by eapply Hops|..]; symmetry.
    + by rewrite <- (Hd E0 b0).
    + by rewrite <- (Hd E1 true).
    + by rewrite <- (He E0 b0).
    + by rewrite <- (He E1 true).
  - intros i Hi. unfold staged, val. destruct (is_included subset i); [|done].
    destruct Hi as [|Hi]; [done|]. destruct (plan_at P i) as [n|] eqn:Hn; [|done].
    destruct (proj1 (fits_live _ _ _ Hg) (mk_is_Some _ _ Hn)) as [x Hx]. by destruct (Hi x).
  - intros i Hi. unfold staged, err. destruct (is_included subset i); [|done].
    destruct Hi as [|Hi]; [done|]. destruct (plan_at P i) as [n|] eqn:Hn; [|done].
    destruct (proj1 (fits_live _ _ _ Hg) (mk_is_Some _ _ Hn)) as [[t a s|op ids] Hx]; [|by destruct (Hi op ids)].
    rewrite (fits_source _ _ _ _ _ _ Hg Hx) in Hn. by injection Hn as <-.
Qed.

(** The stores of a sink, on one side of the subset. *)
Lemma staged_sink inside s n E' b :
  sink_reach c P s -> sink_side c subset inside s -> plan_at P (sink_at_node s) = Some n -> NoDup (walk n) ->
  stores_ok s ->
  sink_holds (staged val E' b) (staged err E' b) (length (nodes c)) (Some s) <->
  integral (sink_result s) ≡z plan_data (if inside then E' else E) (if inside then b else true) n /\
  integral (sink_errors s) ≡z plan_errs (if inside then E' else E) (if inside then b else true) n.
Proof.
  intros Hr Hside Hn Hnd Hok. unfold sink_holds.
  assert (errors_among (staged err E' b) (sink_ancestors s) (length (nodes c))
          ≡z plan_errs (if inside then E' else E) (if inside then b else true) n) as He.
  { rewrite <- (sink_errors_plan _ _ _ _ _ _ Hg Hr Hn Hnd). apply errors_among_ext. intros i Hi%Hr.
    unfold staged. rewrite (Hside _ Hi). by destruct inside. }
  unfold staged at 1, val. rewrite (Hside _ (reaches_here _ _)), Hn, He. destruct inside; naive_solver.
Qed.

Lemma pass_part c' :
  (forall s, Some s ∈ sinks c -> sink_reach c P s /\ exists inside, sink_side c subset inside s /\
     sink_value P (if inside then E0 else E) (if inside then b0 else true) s) ->
  pass_small c deltas subset = true -> pass c deltas subset = (c', Ok tt) ->
  Forall2 same_slot (nodes c) (nodes c') /\ Forall2 same_sink (sinks c) (sinks c') /\
  (forall i, is_included subset i = true -> op_at (nodes c') P E1 true i) /\
  (forall i, is_included subset i = false -> nodes c' !! i = nodes c !! i) /\
  (forall k s s' inside, sinks c !! k = Some (Some s) -> sinks c' !! k = Some (Some s') ->
     sink_side c subset inside s -> sink_value P (if inside then E1 else E) true s').
Proof.
  intros Hs Hsm Hp.
  assert (Forall (sink_holds (staged val E0 b0) (staged err E0 b0) (length (nodes c))) (sinks c)) as Hs0.
  { apply Forall_forall. intros [s|] Hin; [|done]. destruct (Hs s Hin) as (Hr & inside & Hside & n & Hn & Hok & Hnd & Hz & He & _).
    by apply (staged_sink inside s n). }
  destruct (pass_readings _ _ _ _ _ _ _ _ _ staged_readings Hs0 Hsm Hp) as (Hsame & Hsk & Hop & Hkept & Hs').
  split_and!; [done|done| |done|].
  - intros i Hinc op ids n Hi Hn. pose proof (Hop i op ids Hinc Hi) as Hinv.
    destruct (Forall2_lookup_r _ _ _ _ _ Hsame Hi) as (slot & Hi' & Hslot).
    destruct slot as [[|op0 ids0]|]; simpl in Hslot; try done. destruct Hslot as (-> & _).
    rewrite map_staged in Hinv by (by eapply Hclosed).
    destruct (fits_operator _ _ _ _ _ Hg Hi') as (n' & Hn' & Hch & _). rewrite Hn in Hn'. injection Hn' as <-.
    by rewrite (map_val _ _ _ _ _ Hch) in Hinv.
  - intros k s s' inside Hk Hk' Hside.
    destruct (Hs s (list_elem_of_lookup_2 _ _ _ Hk)) as (Hr & inside' & Hside' & n & Hn & Hok & Hnd & _ & _ & Hsch).
    rewrite Forall_forall in Hs'. specialize (Hs' _ (list_elem_of_lookup_2 _ _ _ Hk')).
    destruct (Forall2_lookup_lr _ _ _ _ _ _ Hsk Hk Hk') as (Hnode & Hanc & Hst).
    assert (sink_reach c P s') as Hr' by (unfold sink_reach; by rewrite Hnode, Hanc).
    assert (sink_side c subset inside s') as Hside'' by (unfold sink_side; by rewrite Hnode).
    rewrite <- Hnode in Hn. destruct Hs' as (Hok' & Hs').
    pose proof (proj1 (staged_sink inside s' n E1 true Hr' Hside'' Hn Hnd Hok') (conj Hok' Hs')) as [Hz He].
    exists n. rewrite Hst. split_and!; try done; by destruct inside.
Qed.
End pass_part.
End graph.

(** * The shape of a compiled plan

    A query that binds names every source once, so no subtree of its plan occurs
    twice, and the operators built from the plan emit the schema it declares. *)

(** ** No subtree twice *)

(** The aliases a plan reads, from left to right. *)
Fixpoint plan_aliases (n : CircuitNode) : list string :=
  match n with
  | CSource _ a _ => [a]
  | CFilter i _ _ | CProject i _ _ _ | CAggregate i _ _ _ | CDistinct i => plan_aliases i
  | CJoin l r _ _ => plan_aliases l ++ plan_aliases r
  end.

Lemma plan_aliases_ne n : exists a, a ∈ plan_aliases n.
Proof.
  induction n as [t a s|i IH nm p|i IH nm its s|l [a Ha] r IHr ks s|i IH ks aggs s|i IH]; simpl; try done.
  - exists a. constructor.
  - exists a. apply elem_of_app. by left.
Qed.

Fixpoint plan_size (n : CircuitNode) : nat :=
  match n with
  | CSource _ _ _ => 1
  | CFilter i _ _ | CProject i _ _ _ | CAggregate i _ _ _ | CDistinct i => S (plan_size i)
  | CJoin l r _ _ => S (plan_size l + plan_size r)
  end.

Lemma walk_size n m : m ∈ walk n -> (plan_size m <= plan_size n)%nat.
Proof.
  induction n as [t a s|i IH nm p|i IH nm its s|l IHl r IHr ks s|i IH ks aggs s|i IH]; cbn [walk app];
    rewrite ?elem_of_app, ?list_elem_of_singleton; simpl; try naive_solver lia.
Qed.

Lemma walk_aliases n m a : m ∈ walk n -> a ∈ plan_aliases m -> a ∈ plan_aliases n.
Proof.
  intros Hm Ha. induction n as [t b s|i IH nm p|i IH nm its s|l IHl r IHr ks s|i IH ks aggs s|i IH]; cbn [walk app] in Hm;
    try (apply elem_of_app in Hm as [Hm|Hm]; [|by apply list_elem_of_singleton in Hm as ->]);
    try (by apply IH).
  - by apply list_elem_of_singleton in Hm as ->.
  - cbn [plan_aliases]. apply elem_of_app. apply elem_of_app in Hm as [Hm|Hm]; [left; by apply IHl|right; by apply IHr].
Qed.

Lemma walk_own i n : (plan_size i < plan_size n)%nat -> NoDup (walk i) -> NoDup (walk i ++ [n]).
Proof.
  intros Hs Hi. apply NoDup_app. split; [done|]. split; [|apply NoDup_singleton].
  intros m Hm%walk_size ->%list_elem_of_singleton. lia.
Qed.

Lemma walk_NoDup n : NoDup (plan_aliases n) -> NoDup (walk n).
Proof.
  induction n as [t a s|i IH nm p|i IH nm its s|l IHl r IHr ks s|i IH ks aggs s|i IH]; cbn [walk plan_aliases]; intros Ha;
    try (apply walk_own; [simpl; lia|by apply IH]).
  - apply NoDup_singleton.
  - apply NoDup_app in Ha as (Hl & Hd & Hr). apply NoDup_app. split; [|split; [|apply NoDup_singleton]].
    + apply NoDup_app. split; [by apply IHl|]. split; [|by apply IHr]. intros m Hml Hmr.
      destruct (plan_aliases_ne m) as [a Hm]. apply (Hd a); by eapply walk_aliases.
    + intros m [Hm%walk_size|Hm%walk_size]%elem_of_app ->%list_elem_of_singleton; simpl in Hm; lia.
Qed.

Lemma canonical_aliases n : plan_aliases (canonical_node n) = plan_aliases n.
Proof. induction n; simpl; by rewrite ?IHn, ?IHn1, ?IHn2. Qed.

(** ** Compiled plans *)

Lemma check_aliases_NoDup prior l :
  check_aliases prior l = Ok tt -> NoDup l /\ forall a, a ∈ l -> a ∉ prior.
Proof.
  revert prior. induction l as [|a l IH]; intros prior; simpl.
  { intros _. split; [constructor|]. intros a Ha. by inversion Ha. }
  destruct (existsb (String.eqb a) prior) eqn:E; [done|]. intros Hc. destruct (IH _ Hc) as [Hnd Hp].
  assert (a ∉ prior) as Ha.
  { intros Hin. rewrite <- not_true_iff_false, existsb_exists in E. apply E. exists a.
    split; [by apply list_elem_of_In|apply String.eqb_refl]. }
  split.
  - constructor; [|done]. intros Hin%Hp. rewrite elem_of_app, list_elem_of_singleton in Hin. tauto.
  - intros b [->|Hb%Hp]%elem_of_cons; [done|]. rewrite elem_of_app in Hb. tauto.
Qed.

Lemma source_aliases s catalog n : source_node s catalog = Ok n -> plan_aliases n = aliases s.
Proof.
  revert n. induction s as [t a|l IHl r IHr on]; intros n; cbn [source_node].
  - destruct (bind_source _ _); [|done]. by intros [= <-].
  - destruct (source_node l catalog) as [nl|]; [|done]. destruct (source_node r catalog) as [nr|]; [|done].
    destruct (try_map _ _); [|done]. destruct (Schema_new _); [|done]. intros [= <-]. simpl.
    by rewrite (IHl _ eq_refl), (IHr _ eq_refl).
Qed.

Lemma source_emits s catalog n sch :
  source_node s catalog = Ok n -> bind_source s catalog = Ok sch -> node_schema n = sch /\ emitted_schema n = sch.
Proof.
  revert n sch. induction s as [t a|l IHl r IHr on]; intros n sch; cbn [source_node].
  - intros Hn Hb. rewrite Hb in Hn. by injection Hn as <-.
  - destruct (source_node l catalog) as [nl|]; [|done]. destruct (source_node r catalog) as [nr|]; [|done].
    cbn [bind_source]. destruct (try_map _ _); [|done].
    destruct (Schema_new (fields (node_schema nl) ++ _)) as [s|] eqn:Es; [|done]. intros [= <-].
    destruct on; [done|]. destruct (bind_source l catalog) as [ls|]; [|done]. destruct (bind_source r catalog) as [rs|]; [|done].
    destruct (try_for _ _); [|done].
    destruct (IHl _ _ eq_refl eq_refl) as [Hl _], (IHr _ _ eq_refl eq_refl) as [Hr _]. rewrite <- Hl, <- Hr, Es.
    intros [= <-]. simpl. by rewrite Es.
Qed.

Lemma compiled_NoDup q catalog plan :
  incrementalize_typed q catalog = Ok plan -> NoDup (walk (root (canonicalize plan))).
Proof.
  intros Hp. destruct (compiled_bound _ _ _ Hp) as (bound & src & Hb & Hsrc & ->). unfold canonicalize. cbn [root].
  apply walk_NoDup. rewrite canonical_aliases.
  assert (check_aliases_unique (source q) = Ok tt) as Hc.
  { unfold bind in Hb. by destruct (check_aliases_unique (source q)) as [[]|]. }
  apply check_aliases_NoDup in Hc as [Hnd _]. rewrite <- (source_aliases _ _ _ Hsrc) in Hnd.
  unfold add_distinct, add_project, add_group_by, add_where.
  destruct (distinct q), (project q), (group_by q) as [g|], (filter_ q); simpl; try done; by destruct (having g).
Qed.

Lemma compiled_emits q catalog plan :
  incrementalize_typed q catalog = Ok plan -> emitted_schema (root plan) = plan_output_schema plan.
Proof.
  intros Hp. destruct (compiled_bound _ _ _ Hp) as (bound & src & Hb & Hsrc & ->). cbn [root plan_output_schema].
  destruct (bind_inv _ _ _ Hb) as (Hin & _ & Hg & Ho). destruct (source_emits _ _ _ _ Hsrc Hin) as [Hs He].
  unfold grouped_scope in Ho.
  unfold add_distinct, add_project, add_group_by, add_where.
  destruct (group_by q) as [g|]; [clear Hg; destruct (having g)|];
    destruct (distinct q), (project q), (filter_ q); simpl; rewrite ?Hs, ?He, ?Ho; try done; congruence || by rewrite <- Hg, Ho.
Qed.
