(* ===== verification/Memo.v ===== *)
(** * The standing-query registry ([schweep-memo]: registry.rs, error.rs)

    A memo owns one dataflow and many queries.  Registering builds a private copy
    of the plan, catches it up, then moves the copy's consumers onto nodes that
    already compute the same subtrees and frees the duplicates; deregistering
    frees what nothing else reads. *)

From Stdlib Require Import ZArith Lia.
From stdpp Require Import base list strings pretty.
From S2P Require Import Prelude BTree ZAlg Value ZSet Plan Bind Codec State Operator Linear Distinct Join Aggregate ResultStore Circuit Dataflow Engine Compile PlanForm.

Inductive MemoError :=
| UnknownHandle (handle : Z)
| MUnknownTable (table : string)
| EmptyPlan
| NoInputCache
| PlanNodeNotFound
| RefcountDisagrees (node held actual : nat)
| StaleShareIndex (hash : Z) (node : nat)
| MCircuit (e : CircuitError)
| MSql (e : SqlError)
| MZSet (e : ZSetError).

(** [Handle::unregistered] *)
Definition unregistered : Z := 2 ^ 64 - 1.

Inductive Sharing := SharingOn | SharingOff.

Record Admission := mkAdmission { unbounded_state : option string }.

Definition bounded : Admission := mkAdmission None.
Definition with_unbounded_state (reason : string) : Admission := mkAdmission (Some reason).
Definition admits_unbounded (a : Admission) : bool :=
  match unbounded_state a with Some _ => true | None => false end.
Definition unbounded_reason (a : Admission) : option string := unbounded_state a.

Record Registration := mkRegistration {
  reg_handle : Z;
  reg_sink : nat;
  reg_plan : CircuitPlan;
  reg_nodes : list nat;
  reg_private : list nat;
  reg_admission : Admission;
  registered_at : Z
}.

Record Memo (F B : Type) := mkMemo {
  dataflow : Circuit (AnyOp B);
  sharing : Sharing;
  memo_catalog : Catalog;
  by_hash : btree Z nat;
  refs : btree nat nat;
  inputs : option (btree string ZSetBatch);
  registrations : btree Z Registration;
  next_handle : Z;
  factory : F
}.
Arguments mkMemo {F B} _ _ _ _ _ _ _ _ _.
Arguments dataflow {F B} _.
Arguments sharing {F B} _.
Arguments memo_catalog {F B} _.
Arguments by_hash {F B} _.
Arguments refs {F B} _.
Arguments inputs {F B} _.
Arguments registrations {F B} _.
Arguments next_handle {F B} _.
Arguments factory {F B} _.

(** Assignments to one field. *)
Section set.
Context {F B : Type}.
Implicit Type m : Memo F B.

Definition with_dataflow (c : Circuit (AnyOp B)) m : Memo F B :=
  mkMemo c (sharing m) (memo_catalog m) (by_hash m) (refs m) (inputs m) (registrations m) (next_handle m) (factory m).
Definition with_by_hash (h : btree Z nat) m : Memo F B :=
  mkMemo (dataflow m) (sharing m) (memo_catalog m) h (refs m) (inputs m) (registrations m) (next_handle m) (factory m).
Definition with_refs (r : btree nat nat) m : Memo F B :=
  mkMemo (dataflow m) (sharing m) (memo_catalog m) (by_hash m) r (inputs m) (registrations m) (next_handle m) (factory m).
Definition with_inputs (i : option (btree string ZSetBatch)) m : Memo F B :=
  mkMemo (dataflow m) (sharing m) (memo_catalog m) (by_hash m) (refs m) i (registrations m) (next_handle m) (factory m).
Definition with_registrations (r : btree Z Registration) (next : Z) m : Memo F B :=
  mkMemo (dataflow m) (sharing m) (memo_catalog m) (by_hash m) (refs m) (inputs m) r next (factory m).
Definition with_factory (f : F) m : Memo F B :=
  mkMemo (dataflow m) (sharing m) (memo_catalog m) (by_hash m) (refs m) (inputs m) (registrations m) (next_handle m) f.
End set.

(** ** Nodes of a plan

    [&CircuitNode] is an address; here it is the path from the root to the node,
    so that two equal subtrees of one plan stay apart. *)

Fixpoint walk_at (path : list nat) (n : CircuitNode) : list (list nat * CircuitNode) :=
  match n with
  | CSource _ _ _ => []
  | CFilter input _ _ | CProject input _ _ _ | CAggregate input _ _ _ | CDistinct input =>
      walk_at (path ++ [0%nat]) input
  | CJoin l r _ _ => walk_at (path ++ [0%nat]) l ++ walk_at (path ++ [1%nat]) r
  end ++ [(path, n)].

(** The dataflow nodes a plan node's children resolved to. *)
Definition resolve_inputs (plan_nodes : list (list nat * CircuitNode)) (fresh : list nat)
    (node : list nat * CircuitNode) : result MemoError (list nat) :=
  try_map (fun child =>
      let? '(position, _) := ok_or (list_find (fun candidate => candidate.1 = node.1 ++ [child]) plan_nodes)
                               PlanNodeNotFound in
      ok_or (fresh !! position) PlanNodeNotFound)
    (seq 0 (length (children node.2))).

(** ** Where a registration's catch-up comes from: the chunks [feed] applies *)

Definition feed_once (deltas : EpochDeltas) : list EpochDeltas := [deltas].
Definition feed_chunks (chunks : list EpochDeltas) : list EpochDeltas :=
  match chunks with [] => [deltas_new] | _ => chunks end.

Section memo.
Context {F B : Type} `{StateBackend B} `{BackendFactory F B} `{Debug}.
Abbreviation M := (Memo F B).
Implicit Type m : M.

(** ** Building *)

Definition memo_build (catalog : Catalog) (sh : Sharing) (f : F) (cache_inputs : bool) : M :=
  mkMemo circuit_empty sh catalog bt_empty bt_empty (if cache_inputs then Some bt_empty else None) bt_empty 0 f.

Definition with_backends (catalog : Catalog) (sh : Sharing) (f : F) : M := memo_build catalog sh f true.
Definition without_input_cache (catalog : Catalog) (sh : Sharing) (f : F) : M := memo_build catalog sh f false.

Definition caches_inputs m : bool := match inputs m with Some _ => true | None => false end.

Definition memo_epoch m : Z := epoch (dataflow m).

Definition memo_set_epoch m (e : Z) : M * result MemoError unit :=
  match set_epoch (dataflow m) e with
  | Err e => (m, Err (MCircuit e))
  | Ok c => (with_dataflow c m, Ok tt)
  end.

(** ** Reference counts *)

Definition held_refs m (id : nat) : nat := default O (bt_get id (refs m)).

Definition bump m (id : nat) : M := with_refs (bt_update id O S (refs m)) m.

Definition drop_ref_shallow m (id : nat) : M := with_refs (bt_insert id (pred (held_refs m id)) (refs m)) m.

(** [by_hash.retain(|_, node| *node != id)] *)
Definition retain_other (id : nat) (h : btree Z nat) : btree Z nat := filter (fun p => p.2 <> id) h.

(** The [for] loop that releases a freed node's inputs. *)
Fixpoint drop_all (drop : M -> nat -> option (M * result MemoError unit)) m (ids : list nat)
    : option (M * result MemoError unit) :=
  match ids with
  | [] => Some (m, Ok tt)
  | id :: ids' =>
      match drop m id with
      | Some (m', Ok _) => drop_all drop m' ids'
      | r => r
      end
  end.

Definition free_with (drop : M -> nat -> option (M * result MemoError unit)) m (id : nat)
    : option (M * result MemoError unit) :=
  match inputs_of (dataflow m) id with
  | Err e => Some (m, Err (MCircuit e))
  | Ok ids =>
      match remove (dataflow m) id with
      | Err e => Some (m, Err (MCircuit e))
      | Ok c =>
          drop_all drop
            (with_by_hash (retain_other id (by_hash m))
              (with_refs (bt_remove id (refs m)) (with_dataflow c m))) ids
      end
  end.

(** [drop_ref] and [free] call each other down the graph; [None]: out of fuel. *)
Fixpoint drop_ref_loop (fuel : nat) m (id : nat) : option (M * result MemoError unit) :=
  match fuel with
  | O => None
  | S fuel' =>
      let left := pred (held_refs m id) in
      let m := with_refs (bt_insert id left (refs m)) m in
      if (left =? 0)%nat then free_with (drop_ref_loop fuel') m id else Some (m, Ok tt)
  end.

(** A node's inputs are older than the node, so its index bounds the descent. *)
Definition free_fuel m : nat := S (length (nodes (dataflow m))).

Definition drop_ref m (id : nat) : M * result MemoError unit :=
  default (m, Err PlanNodeNotFound) (drop_ref_loop (free_fuel m) m id).

Definition free m (id : nat) : M * result MemoError unit :=
  default (m, Err PlanNodeNotFound) (free_with (drop_ref_loop (free_fuel m)) m id).

Definition free_duplicate m (id : nat) : M * result MemoError unit :=
  if negb (held_refs m id =? 0)%nat then (m, Err (RefcountDisagrees id (held_refs m id) 0)) else free m id.

(** ** Registering *)

(** The bookkeeping of a node just attached. *)
Definition track_node m (ids : list nat) (id : nat) : M :=
  let m := fold_left bump ids m in with_refs (bt_update id O (fun n => n) (refs m)) m.

(** Build one plan node as a new dataflow node. *)
Definition attach_fresh m (node : CircuitNode) (ids : list nat) (admit_unbounded : bool)
    : M * result MemoError nat :=
  match node with
  | CSource table alias schema =>
      let '(c, id) := attach_source (dataflow m) table alias schema in
      (track_node (with_dataflow c m) ids id, Ok id)
  | _ =>
      let label := ("n" +:+ pretty (live_nodes (dataflow m)) +:+ "-" +:+ node_kind node)%string in
      let '(f, r) := operator_for_with node label (factory m) in
      let m := with_factory f m in
      match (let? o := map_err MSql r in
             let? op := ok_or o PlanNodeNotFound in
             map_err MCircuit (attach (dataflow m) op ids admit_unbounded)) with
      | Err e => (m, Err e)
      | Ok (c, id) => (track_node (with_dataflow c m) ids id, Ok id)
      end
  end.

(** Every node of the plan, fresh, a node's inputs before it. *)
Fixpoint attach_nodes (plan_nodes todo : list (list nat * CircuitNode)) (admit_unbounded : bool) m
    (fresh : list nat) : M * result MemoError (list nat) :=
  match todo with
  | [] => (m, Ok fresh)
  | node :: todo' =>
      match resolve_inputs plan_nodes fresh node with
      | Err e => (m, Err e)
      | Ok ids =>
          match attach_fresh m node.2 ids admit_unbounded with
          | (m', Err e) => (m', Err e)
          | (m', Ok id) => attach_nodes plan_nodes todo' admit_unbounded m' (fresh ++ [id])
          end
      end
  end.

(** The chunks of a catch-up, through the new nodes only. *)
Fixpoint feed_all (c : Circuit (AnyOp B)) (chunks : list EpochDeltas) (fresh : list nat)
    : Circuit (AnyOp B) * result CircuitError unit :=
  match chunks with
  | [] => (c, Ok tt)
  | deltas :: chunks' =>
      match catch_up c deltas fresh with
      | (c', Err e) => (c', Err e)
      | (c', Ok _) => feed_all c' chunks' fresh
      end
  end.

(** Forget one node of an abandoned registration; a refused removal is ignored. *)
Definition abandon_node m (id : nat) : M :=
  with_by_hash (retain_other id (by_hash m))
    (with_refs (bt_remove id (refs m))
      (with_dataflow (match remove (dataflow m) id with Ok c => c | Err _ => dataflow m end) m)).

Definition abandon m (sink : nat) (fresh : list nat) : M :=
  fold_left abandon_node (rev fresh)
    (with_dataflow (match remove_sink (dataflow m) sink with Ok c => c | Err _ => dataflow m end) m).

(** One edge moved from [from] to [to]. *)
Definition move_ref (from to : nat) m : M := bump (drop_ref_shallow m from) to.

(** Move this registration's edges off [from] and onto [to]. *)
Definition rewire_within m (resolved : list nat) (from to sink : nat) : M * result MemoError (list nat) :=
  let resolved := redirect from to resolved in
  let '(c, r) := rewire_inputs (dataflow m) from to in
  let m := with_dataflow c m in
  match r with
  | Err e => (m, Err (MCircuit e))
  | Ok moved =>
      let m := Nat.iter moved (move_ref from to) m in
      match sink_node (dataflow m) sink with
      | Err e => (m, Err (MCircuit e))
      | Ok node =>
          if (node =? from)%nat then
            let '(c, r) := repoint_sink (dataflow m) sink to in
            let m := with_dataflow c m in
            match r with
            | Err e => (m, Err (MCircuit e))
            | Ok _ => (move_ref from to m, Ok resolved)
            end
          else (m, Ok resolved)
      end
  end.

(** Attach to what already exists and free the duplicates, bottom-up. *)
Fixpoint share_nodes (todo : list (nat * Z)) (sink : nat) m (resolved private : list nat)
    : M * result MemoError (list nat * list nat) :=
  match todo with
  | [] => (m, Ok (resolved, private))
  | (id, hash) :: todo' =>
      match bt_get hash (by_hash m) with
      | Some existing =>
          if (existing =? id)%nat then share_nodes todo' sink m resolved (private ++ [id])
          else
            match rewire_within m resolved id existing sink with
            | (m, Err e) => (m, Err e)
            | (m, Ok resolved) =>
                match free_duplicate m id with
                | (m, Err e) => (m, Err e)
                | (m, Ok _) => share_nodes todo' sink m resolved private
                end
            end
      | None =>
          share_nodes todo' sink (with_by_hash (bt_insert hash id (by_hash m)) m) resolved (private ++ [id])
      end
  end.

(** The nodes a registration reads and owns, after sharing. *)
Definition settle m (sink : nat) (fresh : list nat) (hashes : list Z)
    : M * result MemoError (list nat * list nat) :=
  match sharing m with
  | SharingOff => (m, Ok (fresh, fresh))
  | SharingOn =>
      match share_nodes (zip fresh hashes) sink m fresh [] with
      | (m, Err e) => (m, Err e)
      | (m, Ok res) =>
          match refresh_ancestors (dataflow m) sink with
          | Err e => (m, Err (MCircuit e))
          | Ok c => (with_dataflow c m, Ok res)
          end
      end
  end.

Definition register_catching_up m (plan : CircuitPlan) (admission : Admission) (chunks : list EpochDeltas)
    : M * result MemoError Z :=
  let canon := canonicalize plan in
  let plan_nodes := walk_at [] (root canon) in
  match attach_nodes plan_nodes plan_nodes (admits_unbounded admission) m [] with
  | (m, Err e) => (m, Err e)
  | (m, Ok fresh) =>
      match (let? top := ok_or (last fresh) EmptyPlan in
             let? '(c, sink) := map_err MCircuit (add_sink (dataflow m) top) in Ok (top, c, sink)) with
      | Err e => (m, Err e)
      | Ok (top, c, sink) =>
          let m := bump (with_dataflow c m) top in
          let '(c, r) := feed_all (dataflow m) chunks fresh in
          let m := with_dataflow c m in
          match r with
          | Err e => (abandon m sink fresh, Err (MCircuit e))
          | Ok _ =>
              match settle m sink fresh (map (fun node => subtree_hash node.2) plan_nodes) with
              | (m, Err e) => (m, Err e)
              | (m, Ok (resolved, private)) =>
                  let handle := next_handle m in
                  (with_registrations
                     (bt_insert handle (mkRegistration handle sink canon resolved private admission
                                          (epoch (dataflow m))) (registrations m))
                     (as_u64 (handle + 1)) m, Ok handle)
              end
          end
      end
  end.

Definition register_from m (plan : CircuitPlan) (admission : Admission) (catch_up : EpochDeltas)
    : M * result MemoError Z := register_catching_up m plan admission (feed_once catch_up).

Definition register_from_chunks m (plan : CircuitPlan) (admission : Admission) (chunks : list EpochDeltas)
    : M * result MemoError Z := register_catching_up m plan admission (feed_chunks chunks).

(** The whole accumulated input, as one delta. *)
Definition accumulated_deltas m : result MemoError EpochDeltas :=
  let? cache := ok_or (inputs m) NoInputCache in
  try_fold (fun deltas p =>
      let? c := map_err MZSet (canonical p.2) in Ok (deltas_extend deltas p.1 (canonical_entries c)))
    deltas_new cache.

Definition register m (plan : CircuitPlan) (admission : Admission) : M * result MemoError Z :=
  if negb (caches_inputs m) then (m, Err NoInputCache)
  else match accumulated_deltas m with
       | Err e => (m, Err e)
       | Ok catch_up => register_from m plan admission catch_up
       end.

(** ** Reading, deregistering, sealing *)

Definition registration m (handle : Z) : result MemoError Registration :=
  ok_or (bt_get handle (registrations m)) (UnknownHandle handle).

Definition read m (handle : Z) : result MemoError (Z * Canonical) :=
  let? reg := registration m handle in
  let? ans := map_err MCircuit (answer_of (dataflow m) (reg_sink reg)) in
  Ok (epoch (dataflow m), ans).

Definition deregister m (handle : Z) : M * result MemoError unit :=
  match registration m handle with
  | Err e => (m, Err e)
  | Ok reg =>
      let m := with_registrations (bt_remove handle (registrations m)) (next_handle m) m in
      match remove_sink (dataflow m) (reg_sink reg) with
      | Err e => (m, Err (MCircuit e))
      | Ok c =>
          let m := with_dataflow c m in
          match last (reg_nodes reg) with
          | None => (m, Err EmptyPlan)
          | Some top => drop_ref m top
          end
      end
  end.

Definition table_schema m (table : string) : result MemoError Schema :=
  ok_or (bt_get table (memo_catalog m)) (MUnknownTable table).

(** One table of an epoch, folded into the input cache. *)
Definition cache_table m (cache : btree string ZSetBatch) (p : string * Entries)
    : result MemoError (btree string ZSetBatch) :=
  let? schema := table_schema m p.1 in
  let? batch := map_err MZSet (from_entries schema p.2) in
  let? merged := map_err MZSet
      match bt_get p.1 cache with
      | Some held => let? sum := ZSet.add held batch in consolidate sum
      | None => consolidate batch
      end in
  Ok (bt_insert p.1 merged cache).

(** The loop over the epoch's tables; what it cached before a failure stays. *)
Fixpoint cache_tables m (cache : btree string ZSetBatch) (l : list (string * Entries))
    : btree string ZSetBatch * result MemoError unit :=
  match l with
  | [] => (cache, Ok tt)
  | p :: l' =>
      match cache_table m cache p with
      | Err e => (cache, Err e)
      | Ok cache' => cache_tables m cache' l'
      end
  end.

Definition memo_step m (deltas : EpochDeltas) : M * result MemoError Z :=
  let '(c, r) := step (dataflow m) deltas in (with_dataflow c m, map_err MCircuit r).

Definition seal_epoch m (deltas : EpochDeltas) : M * result MemoError Z :=
  match inputs m with
  | None => memo_step m deltas
  | Some cache =>
      let '(cache, r) := cache_tables m cache (tables deltas) in
      let m := with_inputs (Some cache) m in
      match r with
      | Err e => (m, Err e)
      | Ok _ => memo_step m deltas
      end
  end.

(** ** Accounting *)

Record Accounting := mkAccounting {
  acc_live_nodes : nat;
  acc_live_sinks : nat;
  state_entries_held : nat;
  shared_subtrees : nat;
  tracked_refs : nat;
  acc_operator_steps : Z;
  acc_registrations : nat
}.

Definition accounting m : Accounting :=
  mkAccounting (live_nodes (dataflow m)) (live_sinks (dataflow m)) (total_state_size (dataflow m))
    (length (by_hash m)) (length (filter (fun p => 0 < p.2)%nat (refs m))) (operator_steps (dataflow m))
    (length (registrations m)).

Definition holdings (a : Accounting) : nat * nat * nat * nat * nat * nat :=
  (acc_live_nodes a, acc_live_sinks a, state_entries_held a, shared_subtrees a, tracked_refs a,
   acc_registrations a).

Definition audit m : result MemoError unit :=
  let truth := reference_counts (dataflow m) in
  check? try_for (fun p => if negb (held_refs m p.1 =? p.2)%nat
                           then Err (RefcountDisagrees p.1 (held_refs m p.1) p.2) else Ok tt) truth in
  check? try_for (fun p => if (0 <? p.2)%nat && negb (bt_contains p.1 truth)
                           then Err (RefcountDisagrees p.1 p.2 0) else Ok tt) (refs m) in
  try_for (fun p => match node_output_schema (dataflow m) p.2 with
                    | Err _ => Err (StaleShareIndex p.1 p.2)
                    | Ok _ => Ok tt
                    end) (by_hash m).
End memo.
