(* ===== verification/MemoAttach.v ===== *)
(** * Reference counts and freeing

    The memo's counts are the dataflow's: one per input edge and one per sink.
    Dropping a reference then always succeeds, frees exactly the nodes nothing
    reads any more, and leaves every sink's nodes alone.

    Its later part: attaching a plan to a shared dataflow. *)

From Stdlib Require Import ZArith Lia.
From stdpp Require Import base list strings pretty.
From S2P Require Import Prelude BTree ZAlg Value ZSet Plan Bind Codec State Operator Linear Distinct Join Aggregate ResultStore Circuit Dataflow Engine Compile PlanForm MemoGraph Memo.

(** ** Counting *)

Definition occ (i : nat) (l : list nat) : nat := length (filter (fun j => j = i) l).

Lemma occ_cons i j l : occ i (j :: l) = ((if decide (j = i) then 1 else 0) + occ i l)%nat.
Proof. unfold occ. rewrite filter_cons. by destruct (decide (j = i)). Qed.

Lemma occ_app i l l' : occ i (l ++ l') = (occ i l + occ i l')%nat.
Proof. unfold occ. by rewrite filter_app, length_app. Qed.

Lemma occ_pos i l : (0 < occ i l)%nat <-> i ∈ l.
Proof.
  induction l as [|j l IH]; [change (occ i []) with 0%nat; rewrite elem_of_nil; lia|].
  rewrite occ_cons, elem_of_cons, <- IH. destruct (decide (j = i)); naive_solver lia.
Qed.

Lemma occ_zero i l : occ i l = 0%nat <-> i ∉ l.
Proof. rewrite <- occ_pos. lia. Qed.

Lemma list_sum_insert {A} (f : A -> nat) l i x y :
  l !! i = Some x -> (list_sum (map f (<[i:=y]> l)) + f x = list_sum (map f l) + f y)%nat.
Proof.
  revert i. induction l as [|z l IH]; intros [|i] Hi; simplify_eq/=; [lia|].
  specialize (IH i Hi). change (list_sum ?l) with (sum_list l) in *. simpl in *. lia.
Qed.

Lemma list_sum_zero {A} (f : A -> nat) l : list_sum (map f l) = 0%nat <-> Forall (fun x => f x = 0%nat) l.
Proof.
  induction l as [|x l IH]; [split; [constructor|done]|]. simpl. rewrite Forall_cons, <- IH. lia.
Qed.

Lemma list_sum_map_app {A} (f : A -> nat) l l' :
  list_sum (map f (l ++ l')) = (list_sum (map f l) + list_sum (map f l'))%nat.
Proof. by rewrite map_app, list_sum_app. Qed.

Section refs.
Context {F B : Type} `{FactoryLaws F B} `{Debug}.
Implicit Type (m : Memo F B) (c : Circuit (AnyOp B)) (P : list (option CircuitNode)).

Definition reads_sink (i : nat) (s : option Sink) : nat :=
  match s with Some s => if (sink_at_node s =? i)%nat then 1 else 0 | None => 0 end%nat.

(** How many things read node [i]. *)
Definition readers c (i : nat) : nat :=
  (list_sum (map (fun slot => occ i (slot_inputs slot)) (nodes c)) + list_sum (map (reads_sink i) (sinks c)))%nat.

(** ** Removing an unread node *)

Lemma unread_slots c i : readers c i = 0%nat -> Forall (fun slot => i ∉ slot_inputs slot) (nodes c).
Proof.
  intros Hr. assert (list_sum (map (fun slot => occ i (slot_inputs slot)) (nodes c)) = 0%nat) as Hz
    by (unfold readers in Hr; lia).
  apply list_sum_zero in Hz. eapply Forall_impl; [exact Hz|]. intros slot. apply occ_zero.
Qed.

Lemma unread_sinks c i : readers c i = 0%nat -> Forall (fun s => reads_sink i s = 0%nat) (sinks c).
Proof. intros Hr. apply list_sum_zero. unfold readers in Hr. lia. Qed.

Lemma check_unread_Ok c i : readers c i = 0%nat -> check_unread c i = Ok tt.
Proof.
  intros Hr. unfold check_unread. pose proof (unread_slots _ _ Hr) as Hu. rewrite Forall_forall in Hu.
  rewrite (proj2 (try_for_Ok _ _)).
  2: { apply Forall_forall. intros [k n] (j & y & [= <- <-] & Hy)%elem_of_lookup_imap_1. simpl.
       destruct (existsb (Nat.eqb i) (slot_inputs n)) eqn:Ex; [|done].
       apply existsb_exists in Ex as (j' & Hj & <-%Nat.eqb_eq).
       by destruct (Hu n (list_elem_of_lookup_2 _ _ _ Hy)); apply list_elem_of_In. }
  apply try_for_Ok.
  eapply Forall_impl; [exact (unread_sinks _ _ Hr)|]. intros [s|]; [|done]. simpl.
  by destruct (sink_at_node s =? i)%nat.
Qed.

Lemma remove_Ok c i x :
  nodes c !! i = Some (Some x) -> readers c i = 0%nat ->
  exists c', remove c i = Ok c' /\ nodes c' = <[i := None]> (nodes c) /\ sinks c' = sinks c /\ epoch c' = epoch c.
Proof.
  intros Hi Hr. unfold remove, node_at. rewrite Hi, check_unread_Ok by done. by eexists.
Qed.

Lemma readers_removed c c' i x j :
  nodes c !! i = Some x -> nodes c' = <[i := None]> (nodes c) -> sinks c' = sinks c ->
  readers c j = (readers c' j + occ j (slot_inputs x))%nat.
Proof.
  intros Hi Hn Hs. unfold readers. rewrite Hn, Hs.
  pose proof (list_sum_insert (fun slot => occ j (slot_inputs slot)) _ _ x None Hi) as Hsum. simpl in Hsum.
  change (occ j []) with 0%nat in Hsum. lia.
Qed.

(** No sink looks upstream at an unread node. *)
Lemma unread_unreached c i s k :
  readers c i = 0%nat -> Some s ∈ sinks c -> reaches c (sink_at_node s) k -> k <> i.
Proof.
  intros Hr Hs Hk ->.
  assert (sink_at_node s <> i) as Hne.
  { intros <-. pose proof (unread_sinks _ _ Hr) as Hu. rewrite Forall_forall in Hu.
    specialize (Hu _ Hs). simpl in Hu. by rewrite Nat.eqb_refl in Hu. }
  induction Hk as [|a b i slot Ha Hb Hk IH]; [done|].
  destruct (decide (b = i)) as [->|Hbi]; [|by apply IH].
  pose proof (unread_slots _ _ Hr) as Hu. rewrite Forall_forall in Hu.
  by apply (Hu slot (list_elem_of_lookup_2 _ _ _ Ha)).
Qed.

Lemma plan_at_erase P i j : plan_at (<[i := None]> P) j = if decide (j = i) then None else plan_at P j.
Proof.
  unfold plan_at. destruct (decide (j = i)) as [->|]; [|by rewrite list_lookup_insert_ne].
  destruct (decide (i < length P)%nat).
  - by rewrite list_lookup_insert_eq.
  - rewrite list_insert_ge by lia. by rewrite lookup_ge_None_2 by lia.
Qed.

Lemma graph_ok_erase c P i :
  graph_ok (nodes c) P -> readers c i = 0%nat -> graph_ok (<[i := None]> (nodes c)) (<[i := None]> P).
Proof.
  intros [Hl Hf Hw] Hr. pose proof (unread_slots _ _ Hr) as Hu. rewrite Forall_forall in Hu. split.
  - by rewrite !length_insert.
  - intros j slot Hj. rewrite plan_at_erase. destruct (decide (j = i)) as [->|Hne].
    + apply list_lookup_insert_Some in Hj as [(_ & <- & _)|[? _]]; done.
    + rewrite list_lookup_insert_ne in Hj by done. pose proof (Hf _ _ Hj) as Hs.
      destruct slot as [[t a s|op ids]|], (plan_at P j) as [n|]; simpl in *; try done.
      destruct Hs as [Hch Hc]. split; [|done]. rewrite <- Hch. apply map_ext_in. intros k Hk%list_elem_of_In.
      rewrite plan_at_erase. destruct (decide (k = i)) as [->|]; [|done].
      by destruct (Hu _ (list_elem_of_lookup_2 _ _ _ Hj)).
  - intros j slot Hj. apply list_lookup_insert_Some in Hj as [(_ & <- & _)|[_ Hj]]; [constructor|by apply (Hw j)].
Qed.

(** ** The counts are exact, up to references still to be dropped *)

Record held m P (pend : list nat) (ex : option nat) : Prop := {
  h_graph : graph_ok (nodes (dataflow m)) P;
  h_sorted : bt_sorted (refs m);
  h_refs : forall i, bt_get i (refs m) =
             match plan_at P i with Some _ => Some (readers (dataflow m) i + occ i pend)%nat | None => None end;
  h_pend : Forall (fun i => is_Some (plan_at P i)) pend;
  h_tight : forall i, is_Some (plan_at P i) -> (0 < readers (dataflow m) i + occ i pend)%nat \/ ex = Some i
}.

(** [m'] is [m] with some nodes freed that no sink needs. *)
Record shrinks m P m' P' : Prop := {
  sh_sinks : sinks (dataflow m') = sinks (dataflow m);
  sh_epoch : epoch (dataflow m') = epoch (dataflow m);
  sh_rest : sharing m' = sharing m /\ memo_catalog m' = memo_catalog m /\ inputs m' = inputs m /\
            registrations m' = registrations m /\ next_handle m' = next_handle m /\ factory m' = factory m;
  sh_nodes : forall i, (nodes (dataflow m') !! i = nodes (dataflow m) !! i /\ plan_at P' i = plan_at P i) \/
                       (nodes (dataflow m') !! i = Some None /\ plan_at P' i = None);
  sh_kept : forall s i, Some s ∈ sinks (dataflow m) -> reaches (dataflow m) (sink_at_node s) i ->
              nodes (dataflow m') !! i = nodes (dataflow m) !! i /\ plan_at P' i = plan_at P i;
  sh_hash_sorted : bt_sorted (by_hash m) -> bt_sorted (by_hash m');
  sh_hash : bt_sorted (by_hash m) -> forall h i, bt_get h (by_hash m') = Some i ->
              bt_get h (by_hash m) = Some i /\ plan_at P' i = plan_at P i;
  sh_hash_kept : bt_sorted (by_hash m) -> forall h i, bt_get h (by_hash m) = Some i -> is_Some (plan_at P' i) ->
              bt_get h (by_hash m') = Some i
}.

Lemma shrinks_refl m P : shrinks m P m P.
Proof. split; auto. split_and!; done. Qed.

Lemma kept_edges c c' i : nodes c' !! i = nodes c !! i -> edges c' i = edges c i.
Proof. intros Hi. unfold edges. by rewrite Hi. Qed.

Lemma shrinks_trans m1 P1 m2 P2 m3 P3 : shrinks m1 P1 m2 P2 -> shrinks m2 P2 m3 P3 -> shrinks m1 P1 m3 P3.
Proof.
  intros [S1 E1 R1 N1 K1 B1 G1 C1] [S2 E2 R2 N2 K2 B2 G2 C2]. split.
  - congruence.
  - congruence.
  - destruct R1 as (?&?&?&?&?&?), R2 as (?&?&?&?&?&?). split_and!; congruence.
  - intros i. destruct (N2 i) as [[-> ->]|Hn]; [apply N1|by right].
  - intros s i Hs Hi. destruct (K1 s i Hs Hi) as [Hn Hp].
    assert (reaches (dataflow m2) (sink_at_node s) i) as Hi2.
    { eapply reaches_edges; [|exact Hi]. intros j Hj. apply kept_edges. by apply (K1 s). }
    rewrite <- S1 in Hs. destruct (K2 s i Hs Hi2) as [Hn' Hp']. by rewrite Hn', Hp'.
  - auto.
  - intros Hb h i Hi. apply G2 in Hi as [Hi Hp]; [|auto]. apply G1 in Hi as [Hi Hp1]; [|auto].
    split; [done|congruence].
  - intros Hb h i Hi Hl. apply C2; [auto| |done]. apply C1; [done|done|].
    destruct (N2 i) as [[_ Hp]|[_ Hp]]; rewrite Hp in Hl; [done|by destruct Hl].
Qed.

Lemma retain_sorted i (h : btree Z nat) : bt_sorted h -> bt_sorted (retain_other i h).
Proof. apply bt_sorted_filter. Qed.

Lemma retain_get i (h : btree Z nat) k j :
  bt_sorted h -> bt_get k (retain_other i h) = Some j <-> bt_get k h = Some j /\ j <> i.
Proof.
  intros Hs. split.
  - intros Hk%bt_get_In. apply list_elem_of_filter in Hk as [Hne Hk]. split; [by apply bt_In_get|done].
  - intros [Hk Hne]. apply bt_In_get; [by apply retain_sorted|]. apply list_elem_of_filter.
    split; [done|by apply bt_get_In].
Qed.

(** ** Freeing *)

(** What [free] leaves before it releases the node's inputs. *)
Definition erased m (id : nat) (c' : Circuit (AnyOp B)) : Memo F B :=
  with_by_hash (retain_other id (by_hash m)) (with_refs (bt_remove id (refs m)) (with_dataflow c' m)).

Lemma erased_held m P rest id x c' :
  held m P rest (Some id) -> nodes (dataflow m) !! id = Some (Some x) ->
  (readers (dataflow m) id + occ id rest = 0)%nat ->
  nodes c' = <[id := None]> (nodes (dataflow m)) -> sinks c' = sinks (dataflow m) ->
  held (erased m id c') (<[id := None]> P) (slot_inputs (Some x) ++ rest) None.
Proof.
  intros [Hg Hs Hr Hp Ht] Hx Hz Hn Hk. assert (readers (dataflow m) id = 0%nat) as Hz' by lia.
  pose proof (fun j => readers_removed _ c' _ _ j Hx Hn Hk) as Hcount.
  split; cbn [erased dataflow refs with_by_hash with_refs with_dataflow].
  - rewrite Hn. by apply graph_ok_erase.
  - by apply bt_remove_sorted.
  - intros i. rewrite bt_get_remove, plan_at_erase, Hr by done. case_cmp_eqb i id.
    + by rewrite decide_True.
    + rewrite decide_False by done. destruct (plan_at P i); [|done]. f_equal. rewrite (Hcount i), occ_app. lia.
  - assert (forall i, i <> id -> is_Some (plan_at P i) -> is_Some (plan_at (<[id := None]> P) i)) as Hkeep.
    { intros i Hi. by rewrite plan_at_erase, decide_False. }
    apply Forall_app. split.
    + destruct x as [t a s|op ids]; [constructor|].
      destruct (fits_operator _ _ _ _ _ Hg Hx) as (n & _ & Hch & _).
      cbn [slot_inputs]. apply Forall_forall. intros i Hi. apply Hkeep.
      * intros ->. pose proof (g_wired _ _ Hg _ _ Hx) as Hw. rewrite Forall_forall in Hw. specialize (Hw _ Hi). lia.
      * apply (list_elem_of_fmap_2 (plan_at P)) in Hi. change (plan_at P <$> ids) with (map (plan_at P) ids) in Hi.
        rewrite Hch in Hi. by apply list_elem_of_fmap in Hi as (ch & -> & _).
    + apply Forall_forall. intros i Hi. rewrite Forall_forall in Hp. apply Hkeep; [|by apply Hp].
      intros ->. apply occ_pos in Hi. lia.
  - intros i. rewrite plan_at_erase. destruct (decide (i = id)) as [->|Hne]; [by intros []|].
    intros Hi. left. destruct (Ht i Hi) as [Hpos|[= ->]]; [|done]. rewrite (Hcount i) in Hpos. rewrite occ_app. lia.
Qed.

Lemma erased_shrinks m P id c' :
  graph_ok (nodes (dataflow m)) P -> readers (dataflow m) id = 0%nat -> (id < length (nodes (dataflow m)))%nat ->
  nodes c' = <[id := None]> (nodes (dataflow m)) -> sinks c' = sinks (dataflow m) ->
  epoch c' = epoch (dataflow m) -> shrinks m P (erased m id c') (<[id := None]> P).
Proof.
  intros Hg Hz Hlt Hn Hk He.
  assert (forall i, i <> id -> nodes c' !! i = nodes (dataflow m) !! i /\ plan_at (<[id := None]> P) i = plan_at P i) as Hi.
  { intros i Hne. by rewrite Hn, list_lookup_insert_ne, plan_at_erase, decide_False. }
  split; cbn [erased dataflow by_hash sharing memo_catalog inputs registrations next_handle factory
              with_by_hash with_refs with_dataflow]; [done|done|split_and!; done|..].
  - intros i. destruct (decide (i = id)) as [->|Hne]; [right|left; by apply Hi].
    by rewrite Hn, list_lookup_insert_eq, plan_at_erase, decide_True.
  - intros s i Hs Hr. apply Hi. by eapply unread_unreached.
  - apply retain_sorted.
  - intros Hb h i [Hh Hne]%retain_get; [|done]. split; [done|]. by apply Hi.
  - intros Hb h i Hh Hl. apply retain_get; [done|]. split; [done|]. intros ->.
    rewrite plan_at_erase, decide_True in Hl by done. by destruct Hl.
Qed.

(** A call that drops one pending reference. *)
Definition drops (drop : Memo F B -> nat -> option (Memo F B * result MemoError unit)) (bound : nat) : Prop :=
  forall m P id rest, held m P (id :: rest) None -> (id < bound)%nat ->
    exists m' P', drop m id = Some (m', Ok tt) /\ held m' P' rest None /\ shrinks m P m' P'.

Lemma drop_all_ok drop bound ids m P rest :
  drops drop bound -> held m P (ids ++ rest) None -> Forall (fun i => i < bound)%nat ids ->
  exists m' P', drop_all drop m ids = Some (m', Ok tt) /\ held m' P' rest None /\ shrinks m P m' P'.
Proof.
  intros Hd. revert m P. induction ids as [|id ids IH]; intros m P Hh Hb; cbn [drop_all].
  { exists m, P. split_and!; [done|done|apply shrinks_refl]. }
  apply Forall_cons in Hb as [Hid Hb].
  destruct (Hd m P id (ids ++ rest) Hh Hid) as (m1 & P1 & -> & Hh1 & Hs1).
  destruct (IH m1 P1 Hh1 Hb) as (m2 & P2 & -> & Hh2 & Hs2). exists m2, P2.
  split_and!; [done|done|by eapply shrinks_trans].
Qed.

Lemma free_with_ok drop bound m P rest id :
  drops drop bound -> held m P rest (Some id) -> is_Some (plan_at P id) ->
  (readers (dataflow m) id + occ id rest = 0)%nat -> (id <= bound)%nat ->
  exists m' P', free_with drop m id = Some (m', Ok tt) /\ held m' P' rest None /\ shrinks m P m' P' /\
    plan_at P' id = None.
Proof.
  intros Hd Hh Hl Hz Hb. pose proof (h_graph _ _ _ _ Hh) as Hg.
  destruct (proj1 (fits_live _ _ _ Hg) Hl) as [x Hx].
  destruct (remove_Ok _ _ _ Hx) as (c' & Hrm & Hn & Hk & He); [lia|].
  unfold free_with. assert (inputs_of (dataflow m) id = Ok (slot_inputs (Some x))) as ->.
  { unfold inputs_of, node_at. rewrite Hx. by destruct x. }
  rewrite Hrm. fold (erased m id c').
  destruct (drop_all_ok drop bound (slot_inputs (Some x)) (erased m id c') (<[id := None]> P) rest Hd)
    as (m' & P' & -> & Hh' & Hs').
  - by apply erased_held.
  - pose proof (g_wired _ _ Hg _ _ Hx) as Hw. eapply Forall_impl; [exact Hw|]. simpl. lia.
  - assert (shrinks m P (erased m id c') (<[id := None]> P)) as Hs.
    { apply erased_shrinks; try done; [lia|by eapply lookup_lt_Some]. }
    exists m', P'. split_and!; [done|done|by eapply shrinks_trans|].
    destruct (sh_nodes _ _ _ _ Hs' id) as [[_ ->]|[_ ->]]; [|done]. by rewrite plan_at_erase, decide_True.
Qed.

Lemma held_refs_live m P pend ex i :
  held m P pend ex -> is_Some (plan_at P i) -> held_refs m i = (readers (dataflow m) i + occ i pend)%nat.
Proof. intros Hh [n Hn]. unfold held_refs. by rewrite (h_refs _ _ _ _ Hh), Hn. Qed.

(** The decrement at the head of [drop_ref]. *)
Lemma decrement_held m P id rest :
  held m P (id :: rest) None ->
  let left := pred (held_refs m id) in
  left = (readers (dataflow m) id + occ id rest)%nat /\
  held (with_refs (bt_insert id left (refs m)) m) P rest (if (left =? 0)%nat then Some id else None).
Proof.
  intros Hh left. pose proof (h_pend _ _ _ _ Hh) as Hp. apply Forall_cons in Hp as [Hl Hp].
  assert (left = (readers (dataflow m) id + occ id rest)%nat) as Hleft.
  { unfold left. rewrite (held_refs_live _ _ _ _ _ Hh Hl), occ_cons, decide_True by done. lia. }
  split; [done|]. destruct Hh as [Hg Hs Hr _ Ht]. split; cbn [dataflow refs with_refs]; try done.
  - by apply bt_insert_sorted.
  - intros i. rewrite bt_get_insert, Hr, occ_cons. case_cmp_eqb i id.
    + subst i. destruct Hl as [n ->]. by rewrite Hleft.
    + by rewrite decide_False by congruence.
  - intros i Hi. destruct (decide (id = i)) as [->|Hne].
    + destruct (left =? 0)%nat eqn:E; [by right|]. apply Nat.eqb_neq in E. left. lia.
    + destruct (Ht i Hi) as [Hpos|[=]]. left. rewrite occ_cons, decide_False in Hpos by done. done.
Qed.

Lemma shrinks_refs m P r : shrinks m P (with_refs r m) P.
Proof. split; cbn; auto. by split_and!. Qed.

Lemma drop_ref_loop_drops fuel : drops (drop_ref_loop fuel) fuel.
Proof.
  induction fuel as [|fuel IH]; intros m P id rest Hh Hid; [lia|]. cbn [drop_ref_loop].
  destruct (decrement_held _ _ _ _ Hh) as [Hleft Hh1].
  pose proof (h_pend _ _ _ _ Hh) as Hp. apply Forall_cons in Hp as [Hl _].
  destruct (pred (held_refs m id) =? 0)%nat eqn:E.
  - apply Nat.eqb_eq in E.
    destruct (free_with_ok (drop_ref_loop fuel) fuel _ P rest id IH Hh1 Hl) as (m' & P' & -> & Hh' & Hs & _);
      [cbn; lia|lia|].
    exists m', P'. split_and!; [done|done|]. eapply shrinks_trans; [apply shrinks_refs|exact Hs].
  - eexists _, P. split_and!; [done|done|apply shrinks_refs].
Qed.

(** Dropping a reference always succeeds, and frees what nothing reads. *)
Lemma drop_ref_ok m P id rest :
  held m P (id :: rest) None ->
  exists m' P', drop_ref m id = (m', Ok tt) /\ held m' P' rest None /\ shrinks m P m' P'.
Proof.
  intros Hh. unfold drop_ref.
  destruct (drop_ref_loop_drops (free_fuel m) m P id rest Hh) as (m' & P' & -> & Hh' & Hs); [|by exists m', P'].
  pose proof (h_pend _ _ _ _ Hh) as Hp. apply Forall_cons in Hp as [Hl _].
  destruct (proj1 (fits_live _ _ _ (h_graph _ _ _ _ Hh)) Hl) as [x Hx].
  apply lookup_lt_Some in Hx. unfold free_fuel. lia.
Qed.

Lemma free_duplicate_ok m P id m' :
  held m P [] (Some id) -> is_Some (plan_at P id) -> free_duplicate m id = (m', Ok tt) ->
  exists P', held m' P' [] None /\ shrinks m P m' P' /\ plan_at P' id = None.
Proof.
  intros Hh Hl. unfold free_duplicate, free. destruct (held_refs m id =? 0)%nat eqn:E; [|done].
  apply Nat.eqb_eq in E. rewrite (held_refs_live _ _ _ _ _ Hh Hl) in E. cbn [negb].
  destruct (proj1 (fits_live _ _ _ (h_graph _ _ _ _ Hh)) Hl) as [x Hx]. apply lookup_lt_Some in Hx.
  destruct (free_with_ok (drop_ref_loop (free_fuel m)) (free_fuel m) m P [] id) as (m1 & P1 & -> & Hh' & Hs & Hn);
    [apply drop_ref_loop_drops|done|done|done|unfold free_fuel; lia|].
  intros [= <-]. by exists P1.
Qed.
End refs.

(** * Attaching a plan to a shared dataflow

    The steps of a registration: every node built fresh on top of the dataflow,
    the catch-up of the new nodes alone, and the move onto nodes that already
    compute the same subtrees. *)

(** ** Paths of a plan *)

(** The subtree at a path. *)
Fixpoint sub (n : CircuitNode) (path : list nat) : option CircuitNode :=
  match path with
  | [] => Some n
  | i :: path' => children n !! i ≫= fun ch => sub ch path'
  end.

Lemma sub_snoc n path i : sub n (path ++ [i]) = sub n path ≫= fun x => children x !! i.
Proof.
  revert n. induction path as [|j path IH]; intros n; simpl.
  - by destruct (children n !! i).
  - destruct (children n !! j); simpl; [apply IH|done].
Qed.

Lemma walk_at_children p n :
  walk_at p n = concat (imap (fun i ch => walk_at (p ++ [i]) ch) (children n)) ++ [(p, n)].
Proof. by destruct n; simpl; rewrite ?app_nil_r. Qed.

Lemma children_smaller n ch : ch ∈ children n -> (length (walk ch) < length (walk n))%nat.
Proof.
  intros Hin. rewrite (walk_children n), length_app. simpl.
  assert (length (walk ch) <= length (flat_map walk (children n)))%nat; [|lia].
  induction (children n) as [|x l IH]; [by inversion Hin|]. simpl. rewrite length_app.
  apply elem_of_cons in Hin as [->|Hin]; [lia|]. specialize (IH Hin). lia.
Qed.

Lemma elem_of_walk_at n p q x : (q, x) ∈ walk_at p n <-> exists r, q = p ++ r /\ sub n r = Some x.
Proof.
  remember (length (walk n)) as k eqn:Hk. revert n p Hk.
  induction k as [k IH] using lt_wf_ind. intros n p ->.
  rewrite walk_at_children, elem_of_app, list_elem_of_singleton. split.
  - intros [Hin|[= -> ->]]; [|exists []; by rewrite app_nil_r].
    apply list_elem_of_In, in_concat in Hin as (l & Hl%list_elem_of_In & Hin%list_elem_of_In).
    apply elem_of_lookup_imap_1 in Hl as (i & ch & -> & Hch).
    apply (IH (length (walk ch))) in Hin as (r & -> & Hr);
      [|by apply children_smaller, (list_elem_of_lookup_2 _ i)|done].
    exists (i :: r). rewrite <- app_assoc. split; [done|]. simpl. by rewrite Hch.
  - intros ([|i r] & -> & Hr).
    + right. rewrite app_nil_r. by injection Hr as ->.
    + left. simpl in Hr. destruct (children n !! i) as [ch|] eqn:Hch; [|done]. simpl in Hr.
      apply list_elem_of_In, in_concat. exists (walk_at (p ++ [i]) ch). split; apply list_elem_of_In.
      * apply elem_of_lookup_imap_2 with (f := fun i ch => walk_at (p ++ [i]) ch) in Hch. done.
      * apply (IH (length (walk ch))); [by apply children_smaller, (list_elem_of_lookup_2 _ i)|done|].
        exists r. by rewrite <- app_assoc.
Qed.

Lemma walk_at_snd p n : map snd (walk_at p n) = walk n.
Proof.
  revert p. induction n as [t a s|i IH nm e|i IH nm its s|l IHl r IHr ks s|i IH ks aggs s|i IH]; intros p; simpl;
    rewrite ?map_app; simpl; by rewrite ?IH, ?IHl, ?IHr.
Qed.

Lemma walk_at_paths_prefix p n q : q ∈ map fst (walk_at p n) -> exists r, q = p ++ r.
Proof.
  intros ([q' x] & -> & Hin)%list_elem_of_fmap. apply elem_of_walk_at in Hin as (r & -> & _). by exists r.
Qed.

Lemma walk_at_NoDup p n : NoDup (map fst (walk_at p n)).
Proof.
  revert p. induction n as [t a s|i IH nm e|i IH nm its s|l IHl r IHr ks s|i IH ks aggs s|i IH]; intros p; simpl;
    rewrite ?map_app; simpl; try apply NoDup_singleton;
    try (apply NoDup_app; split_and!; [apply IH| |apply NoDup_singleton];
         intros q (r & ->)%walk_at_paths_prefix Hq%list_elem_of_singleton;
         apply (f_equal length) in Hq; rewrite !length_app in Hq; simpl in Hq; lia).
  apply NoDup_app. split_and!; [apply NoDup_app; split_and!; [apply IHl| |apply IHr]| |apply NoDup_singleton].
  - intros q (r1 & ->)%walk_at_paths_prefix (r2 & Hq)%walk_at_paths_prefix.
    rewrite <- !app_assoc in Hq. apply app_inv_head in Hq. done.
  - intros q Hin Hq%list_elem_of_singleton. apply elem_of_app in Hin as [Hin|Hin];
      apply walk_at_paths_prefix in Hin as (r' & ->);
      apply (f_equal length) in Hq; rewrite !length_app in Hq; simpl in Hq; lia.
Qed.

Lemma list_sum_le x l : In x l -> (x <= list_sum l)%nat.
Proof.
  induction l as [|y l IH]; [done|]. simpl. intros [->|Hin]; [lia|]. specialize (IH Hin). lia.
Qed.

Section attach.
Context {F B : Type} `{FactoryLaws F B} `{Debug}.
Implicit Type (m : Memo F B) (c : Circuit (AnyOp B)) (P : list (option CircuitNode)).

(** ** One node *)

Lemma operator_for_schema n label (f f' : F) (op : AnyOp B) :
  operator_for_with n label f = (f', Ok (Some op)) -> op_output_schema op = emitted_schema n.
Proof.
  destruct n as [t a s|input nm p|input nm its s|ln rn ks s|input ks aggs s|input]; simpl.
  - done.
  - intros [= _ Hr]. step_inv. by apply Filter_new_Ok in E as [-> _].
  - intros [= _ Hr]. step_inv. unfold Project_new in E. step_inv. by rewrite E0.
  - destruct (create f _) as [f1 [li|]]; [|done]. destruct (create f1 _) as [f2 rb].
    intros [= _ Hr]. step_inv. unfold Join_new in E0. destruct ks as [|k ks]; [done|].
    destruct (try_for _ _) as [[]|]; [|done]. step_inv. by rewrite E1.
  - destruct (create f label) as [f1 st]. intros [= _ Hr]. step_inv. unfold Aggregate_new in E0.
    destruct aggs; [done|]. by injection E0 as <-.
  - destruct (create f label) as [f1 st]. intros [= _ Hr]. by step_inv.
Qed.

(** What has not changed outside the dataflow, the counts and the backends. *)
Definition same_books m m' : Prop :=
  sharing m' = sharing m /\ memo_catalog m' = memo_catalog m /\ by_hash m' = by_hash m /\
  inputs m' = inputs m /\ registrations m' = registrations m /\ next_handle m' = next_handle m.

Lemma same_books_refl m : same_books m m.
Proof. by split_and!. Qed.

Lemma same_books_trans m1 m2 m3 : same_books m1 m2 -> same_books m2 m3 -> same_books m1 m3.
Proof. intros (?&?&?&?&?&?) (?&?&?&?&?&?). split_and!; congruence. Qed.

Lemma bump_refs m i j :
  bt_get j (refs (bump m i)) = if decide (i = j) then Some (S (held_refs m j)) else bt_get j (refs m).
Proof.
  unfold bump, held_refs, bt_update. cbn [refs with_refs]. rewrite bt_get_insert.
  case_cmp_eqb j i; [subst; by rewrite decide_True|by rewrite decide_False].
Qed.

Lemma bumps_spec ids m :
  let m' := fold_left bump ids m in
  dataflow m' = dataflow m /\ same_books m m' /\ factory m' = factory m /\
  (bt_sorted (refs m) -> bt_sorted (refs m')) /\
  (forall j, Forall (fun i => is_Some (bt_get i (refs m))) ids ->
     bt_get j (refs m') = (fun n => n + occ j ids)%nat <$> bt_get j (refs m)).
Proof.
  revert m. induction ids as [|i ids IH]; intros m; cbn [fold_left].
  { split_and!; try done. intros j _. change (occ j []) with 0%nat.
    destruct (bt_get j (refs m)); [|done]. simpl. by rewrite Nat.add_0_r. }
  destruct (IH (bump m i)) as (Hd & Hb & Hf & Hs & Hg). split_and!; try done.
  - intros Hm. by apply Hs, bt_insert_sorted.
  - intros j Hl. apply Forall_cons in Hl as [Hi Hl]. rewrite Hg.
    2: { eapply Forall_impl; [exact Hl|]. intros k Hk. rewrite bump_refs. by destruct (decide (i = k)). }
    rewrite bump_refs, occ_cons. destruct (decide (i = j)) as [->|].
    + unfold held_refs. destruct Hi as [n ->]. simpl. f_equal. lia.
    + done.
Qed.

Lemma track_spec ids m id :
  let m' := track_node m ids id in
  dataflow m' = dataflow m /\ same_books m m' /\
  (bt_sorted (refs m) -> bt_sorted (refs m')) /\
  (forall j, Forall (fun i => is_Some (bt_get i (refs m))) ids -> bt_get id (refs m) = None ->
     bt_get j (refs m') = if decide (j = id) then Some 0%nat else (fun n => n + occ j ids)%nat <$> bt_get j (refs m)).
Proof.
  destruct (bumps_spec ids m) as (Hd & Hb & _ & Hs & Hg). unfold track_node. split_and!.
  - exact Hd.
  - exact Hb.
  - intros Hm. by apply bt_insert_sorted, Hs.
  - intros j Hl Hn. cbn [refs with_refs]. unfold bt_update. rewrite bt_get_insert, !Hg by done.
    case_cmp_eqb j id; [subst; by rewrite decide_True, Hn|by rewrite decide_False].
Qed.

Lemma attach_fresh_spec m n ids adm m' id :
  (children n = [] -> ids = []) -> attach_fresh m n ids adm = (m', Ok id) ->
  exists slot m1, m' = track_node m1 ids id /\ refs m1 = refs m /\ same_books m m1 /\
    id = length (nodes (dataflow m)) /\ nodes (dataflow m1) = nodes (dataflow m) ++ [Some slot] /\
    sinks (dataflow m1) = sinks (dataflow m) /\ epoch (dataflow m1) = epoch (dataflow m) /\
    match slot with
    | NSource t a s => n = CSource t a s /\ ids = []
    | NOperator op ids' => ids' = ids /\ computes op n /\ any_inv op false (repeat [] (length (children n))) /\
                           Forall (fun j => j < id)%nat ids
    end.
Proof.
  intros Hids. unfold attach_fresh. destruct n as [t a s|input nm p|input nm its s|ln rn ks s|input ks aggs s|input].
  { intros [= <- <-]. eexists (NSource t a s), _. split_and!; try done. by apply Hids. }
  all: destruct (operator_for_with _ _ (factory m)) as [f r] eqn:Eo;
    destruct r as [[op|]|]; cbn [map_err ok_or]; try done;
    destruct (attach _ op ids adm) as [[c' id']|] eqn:Ea; cbn [map_err]; try done; intros [= <- <-];
    pose proof (operator_for_schema _ _ _ _ _ Eo) as Hsch; apply operator_for_spec in Eo as (Hinv & Hd & He);
    unfold attach in Ea; cbn [dataflow with_factory] in Ea;
    destruct (check_wiring op ids _ adm) as [[]|] eqn:Ew; try done; apply check_wiring_Ok in Ew as [_ Hlt];
    destruct (try_for _ ids) as [[]|]; try done; injection Ea as <- <-;
    eexists (NOperator op ids), _; split_and!; done.
Qed.

(** ** Growing the graph *)

Lemma plan_at_app_l P P' i : (i < length P)%nat -> plan_at (P ++ P') i = plan_at P i.
Proof. intros Hi. unfold plan_at. by rewrite lookup_app_l. Qed.

Lemma plan_at_app_r P P' i : plan_at (P ++ P') (length P + i) = plan_at P' i.
Proof. unfold plan_at. rewrite lookup_app_r by lia. by replace (length P + i - length P)%nat with i by lia. Qed.

Lemma plan_at_snoc P p : plan_at (P ++ [p]) (length P) = p.
Proof. rewrite <- (Nat.add_0_r (length P)). by rewrite plan_at_app_r. Qed.

Lemma plan_at_lt P i n : plan_at P i = Some n -> (i < length P)%nat.
Proof. unfold plan_at. destruct (P !! i) eqn:E; [|done]. intros _. by apply lookup_lt_Some in E. Qed.

Lemma graph_ok_snoc (ns : list (option (Node (AnyOp B)))) P slot n :
  graph_ok ns P -> slot_fits P (Some slot) (Some n) -> Forall (fun j => j < length ns)%nat (slot_inputs (Some slot)) ->
  graph_ok (ns ++ [Some slot]) (P ++ [Some n]).
Proof.
  intros [Hl Hf Hw] Hs Hlt.
  assert (forall ids, Forall (fun j => j < length ns)%nat ids -> map (plan_at (P ++ [Some n])) ids = map (plan_at P) ids) as Hm.
  { intros ids Hi. apply map_ext_in. intros j Hj%list_elem_of_In. rewrite Forall_forall in Hi.
    apply plan_at_app_l. rewrite Hl. by apply Hi. }
  split.
  - rewrite !length_app. simpl. lia.
  - intros i sl Hi. apply lookup_app_Some in Hi as [Hi|[Hle Hi]].
    + pose proof (lookup_lt_Some _ _ _ Hi) as Hlti. rewrite plan_at_app_l by lia.
      pose proof (Hf _ _ Hi) as Hfi. pose proof (Hw _ _ Hi) as Hwi.
      destruct sl as [[t a s|op ids]|], (plan_at P i); simpl in *; try done.
      rewrite Hm; [done|]. eapply Forall_impl; [exact Hwi|]. simpl. lia.
    + apply list_lookup_singleton_Some in Hi as [Hi <-].
      assert (i = length P) as -> by lia. rewrite plan_at_snoc.
      destruct slot as [t a s|op ids]; simpl in *; [done|]. by rewrite Hm.
  - intros i sl Hi. apply lookup_app_Some in Hi as [Hi|[Hle Hi]]; [by apply (Hw i)|].
    apply list_lookup_singleton_Some in Hi as [Hi <-]. assert (i = length ns) as -> by lia. done.
Qed.

Lemma op_at_snoc_old (ns : list (option (Node (AnyOp B)))) P slot p E b i :
  length P = length ns -> (i < length ns)%nat -> op_at ns P E b i -> op_at (ns ++ [slot]) (P ++ [p]) E b i.
Proof.
  intros Hl Hi Ho op ids n Hop Hn. rewrite lookup_app_l in Hop by done.
  rewrite plan_at_app_l in Hn by lia. by eapply Ho.
Qed.

Lemma fresh_inv (op : AnyOp B) n :
  any_inv op false (repeat [] (length (children n))) ->
  any_inv op false (map (plan_data (fun _ => []) false) (children n)).
Proof.
  apply any_inv_proper. induction (children n) as [|ch l IH]; simpl; constructor; [|done].
  symmetry. by apply plan_data_init.
Qed.

(** ** Every node of a plan *)

Section nodes.
Context (m0 : Memo F B) (P0 : list (option CircuitNode)) (top : CircuitNode).
Abbreviation N0 := (length (nodes (dataflow m0))).
Abbreviation plan_nodes := (walk_at [] top).

Context (Hg0 : graph_ok (nodes (dataflow m0)) P0) (Hsort0 : bt_sorted (refs m0)).
Context (Hrefs0 : forall i, bt_get i (refs m0) =
  match plan_at P0 i with Some _ => Some (readers (dataflow m0) i) | None => None end).
Context (Hsinks0 : forall s, Some s ∈ sinks (dataflow m0) -> is_Some (plan_at P0 (sink_at_node s))).

(** The labels once the first [k] nodes of the plan are attached. *)
Definition labels_upto (k : nat) : list (option CircuitNode) := P0 ++ map Some (take k (walk top)).

(** Where child [child] of the node at path [p] was attached. *)
Definition child_at (k : nat) (p : list nat) (child id : nat) : Prop :=
  exists q x, list_find (fun candidate => candidate.1 = p ++ [child]) plan_nodes = Some (q, x) /\
    (q < k)%nat /\ id = (N0 + q)%nat.

Record attached (k : nat) m (fresh : list nat) : Prop := {
  at_nodes : exists new, nodes (dataflow m) = nodes (dataflow m0) ++ new /\ length new = k;
  at_fresh : fresh = seq N0 k;
  at_graph : graph_ok (nodes (dataflow m)) (labels_upto k);
  at_ops : forall i, (N0 <= i)%nat -> op_at (nodes (dataflow m)) (labels_upto k) (fun _ => []) false i;
  at_inputs : forall j p n slot, (j < k)%nat -> plan_nodes !! j = Some (p, n) ->
    nodes (dataflow m) !! (N0 + j)%nat = Some slot ->
    Forall2 (child_at k p) (seq 0 (length (children n))) (slot_inputs slot);
  at_sinks : sinks (dataflow m) = sinks (dataflow m0) /\ epoch (dataflow m) = epoch (dataflow m0);
  at_books : same_books m0 m;
  at_sorted : bt_sorted (refs m);
  at_refs : forall i, bt_get i (refs m) =
    match plan_at (labels_upto k) i with Some _ => Some (readers (dataflow m) i) | None => None end
}.

Lemma attached_nil : attached 0 m0 [].
Proof.
  assert (labels_upto 0 = P0) as HP by (unfold labels_upto; by rewrite take_0, app_nil_r).
  split; rewrite ?HP; try done.
  - exists []. by rewrite app_nil_r.
  - intros i Hi op ids n Hop. apply lookup_lt_Some in Hop. lia.
  - intros; lia.
Qed.

Lemma labels_upto_S k n : walk top !! k = Some n -> labels_upto (S k) = labels_upto k ++ [Some n].
Proof. intros Hn. unfold labels_upto. by rewrite (take_S_r _ _ _ Hn), map_app, app_assoc. Qed.

Lemma labels_upto_length k : (k <= length (walk top))%nat -> length (labels_upto k) = (N0 + k)%nat.
Proof. intros Hk. unfold labels_upto. rewrite length_app, length_map, length_take, (g_length _ _ Hg0). lia. Qed.

Lemma labels_upto_new k j : (j < k)%nat -> plan_at (labels_upto k) (N0 + j) = walk top !! j.
Proof.
  intros Hj. unfold labels_upto. rewrite <- (g_length _ _ Hg0), plan_at_app_r. unfold plan_at.
  change (map Some (take k (walk top))) with (Some <$> take k (walk top)).
  rewrite list_lookup_fmap, lookup_take_lt by done. by destruct (walk top !! j).
Qed.

Lemma labels_upto_old k i : (i < N0)%nat -> plan_at (labels_upto k) i = plan_at P0 i.
Proof. intros Hi. unfold labels_upto. apply plan_at_app_l. by rewrite (g_length _ _ Hg0). Qed.

(** The plan at a position of the walk. *)
Lemma plan_nodes_walk j p n : plan_nodes !! j = Some (p, n) -> walk top !! j = Some n.
Proof.
  intros Hj. rewrite <- (walk_at_snd [] top). change (map snd plan_nodes) with (snd <$> plan_nodes).
  by rewrite list_lookup_fmap, Hj.
Qed.

Lemma resolve_inputs_spec k m fresh p n ids :
  attached k m fresh -> (p, n) ∈ plan_nodes -> resolve_inputs plan_nodes fresh (p, n) = Ok ids ->
  Forall2 (child_at k p) (seq 0 (length (children n))) ids /\
  map (plan_at (labels_upto k)) ids = map Some (children n).
Proof.
  intros Ha Hin Hr%try_map_Ok. rewrite (at_fresh _ _ _ Ha) in Hr. cbn [fst snd] in Hr.
  assert (Forall2 (child_at k p) (seq 0 (length (children n))) ids) as Hc.
  { eapply Forall2_impl; [exact Hr|]. intros child id Hid. simpl in Hid.
    destruct (list_find (fun candidate => candidate.1 = p ++ [child]) plan_nodes) as [[q x]|] eqn:Ef; [|done]. cbn [ok_or] in Hid.
    destruct (seq N0 k !! q) as [id'|] eqn:Es; [|done]. injection Hid as ->.
    apply lookup_seq in Es as [-> Hq]. by exists q, x. }
  split; [done|]. change (map ?f ?l) with (f <$> l). apply list_eq_Forall2, Forall2_fmap.
  apply Forall2_same_length_lookup. split.
  { rewrite <- (Forall2_length _ _ _ Hc). by rewrite length_seq. }
  intros i id ch Hid Hch. assert (seq 0 (length (children n)) !! i = Some i) as Hi.
  { apply lookup_seq. apply lookup_lt_Some in Hch. lia. }
  destruct (Forall2_lookup_lr _ _ _ _ _ _ Hc Hi Hid) as (q & [p' x] & Hf & Hq & ->).
  apply list_find_Some in Hf as (Hqx & Hp' & _). simpl in Hp'. subst p'.
  rewrite labels_upto_new, (plan_nodes_walk _ _ _ Hqx) by done.
  apply list_elem_of_lookup_2 in Hqx. apply elem_of_walk_at in Hqx as (r & Hr' & Hx), Hin as (r0 & Hr0 & Hn).
  simpl in Hr', Hr0. subst r r0. rewrite sub_snoc, Hn in Hx. simpl in Hx. by rewrite Hch in Hx.
Qed.

Lemma attached_length k m fresh : attached k m fresh -> length (nodes (dataflow m)) = (N0 + k)%nat.
Proof. intros Ha. destruct (at_nodes _ _ _ Ha) as (new & -> & Hl). rewrite length_app. lia. Qed.

(** Nothing reads a node that does not exist. *)
Lemma readers_new k m fresh i :
  attached k m fresh -> (length (nodes (dataflow m)) <= i)%nat -> readers (dataflow m) i = 0%nat.
Proof.
  intros Ha Hi. unfold readers. rewrite !(proj2 (list_sum_zero _ _)); [done|..].
  - destruct (at_sinks _ _ _ Ha) as [-> _]. apply Forall_forall. intros [s|] Hs; [|done]. simpl.
    destruct (Nat.eqb_spec (sink_at_node s) i) as [Heq|]; [|done].
    destruct (Hsinks0 _ Hs) as [x Hx]. apply plan_at_lt in Hx. rewrite (g_length _ _ Hg0) in Hx.
    rewrite (attached_length _ _ _ Ha) in Hi. lia.
  - apply Forall_forall. intros slot Hs. apply list_elem_of_lookup in Hs as [j Hj].
    pose proof (g_wired _ _ (at_graph _ _ _ Ha) _ _ Hj) as Hw. apply lookup_lt_Some in Hj.
    apply occ_zero. intros Hin. rewrite Forall_forall in Hw. specialize (Hw _ Hin). lia.
Qed.

Lemma readers_snoc c c' slot i :
  nodes c' = nodes c ++ [slot] -> sinks c' = sinks c ->
  readers c' i = (readers c i + occ i (slot_inputs slot))%nat.
Proof. intros Hn Hs. unfold readers. rewrite Hn, Hs, list_sum_map_app. simpl. lia. Qed.

Lemma child_at_mono k k' p child id : (k <= k')%nat -> child_at k p child id -> child_at k' p child id.
Proof. intros Hk (q & x & Hf & Hq & ->). exists q, x. split_and!; [done|lia|done]. Qed.

Lemma child_at_lt k p l ids : Forall2 (child_at k p) l ids -> Forall (fun j => N0 <= j < N0 + k)%nat ids.
Proof. induction 1 as [|i id l ids (q & x & _ & Hq & ->) _ IH]; constructor; [lia|done]. Qed.

Lemma attached_step k m fresh p n ids adm m' id :
  attached k m fresh -> plan_nodes !! k = Some (p, n) -> resolve_inputs plan_nodes fresh (p, n) = Ok ids ->
  attach_fresh m n ids adm = (m', Ok id) -> attached (S k) m' (fresh ++ [id]).
Proof.
  intros Ha Hk Hres Hat. pose proof (attached_length _ _ _ Ha) as Hlen.
  destruct (resolve_inputs_spec _ _ _ _ _ _ Ha (list_elem_of_lookup_2 _ _ _ Hk) Hres) as [Hc Hids].
  pose proof (plan_nodes_walk _ _ _ Hk) as Hw. pose proof (labels_upto_S _ _ Hw) as HP.
  pose proof (lookup_lt_Some _ _ _ Hw) as Hlt. pose proof (labels_upto_length k ltac:(lia)) as HPl.
  apply attach_fresh_spec in Hat as (slot & m1 & -> & Hr1 & Hb1 & -> & Hn1 & Hs1 & He1 & Hslot).
  2: { intros Hch. rewrite Hch in Hids. by destruct ids. }
  pose proof (child_at_lt _ _ _ _ Hc) as Hbnd.
  assert (slot_inputs (Some slot) = ids) as Hin by (destruct slot; naive_solver).
  destruct (track_spec ids m1 (length (nodes (dataflow m)))) as (Hd & Hb & Hsort & Hget).
  rewrite Hr1 in Hsort, Hget.
  split; rewrite ?Hd, ?Hn1, ?HP.
  - destruct (at_nodes _ _ _ Ha) as (new & -> & Hl). exists (new ++ [Some slot]).
    rewrite app_assoc, length_app. simpl. split; [done|lia].
  - rewrite (at_fresh _ _ _ Ha), Hlen, seq_S. done.
  - apply graph_ok_snoc; [apply Ha| |].
    + destruct slot as [t a s|op ids']; simpl; [naive_solver|]. by destruct Hslot as (-> & ? & _).
    + rewrite Hin. eapply Forall_impl; [exact Hbnd|]. simpl. lia.
  - intros i Hi. destruct (decide (i < length (nodes (dataflow m)))%nat).
    + apply op_at_snoc_old; [by rewrite HPl, Hlen|done|by apply (at_ops _ _ _ Ha)].
    + intros op ids' n' Hop Hn'. rewrite lookup_app_r in Hop by lia.
      apply list_lookup_singleton_Some in Hop as [Hi' Hop]. injection Hop as ->.
      assert (i = length (labels_upto k)) as -> by lia. rewrite plan_at_snoc in Hn'. injection Hn' as <-.
      destruct Hslot as (_ & _ & Hinv & _). by apply fresh_inv.
  - intros j p' n' slot' Hj Hjk Hj'. destruct (decide (j = k)) as [->|].
    + rewrite Hk in Hjk. injection Hjk as <- <-. rewrite lookup_app_r, Hlen, Nat.sub_diag in Hj' by lia.
      injection Hj' as <-. rewrite Hin. eapply Forall2_impl; [exact Hc|]. intros ??. apply child_at_mono. lia.
    + rewrite lookup_app_l in Hj' by lia. eapply Forall2_impl; [by apply (at_inputs _ _ _ Ha j p' n' slot'); [lia|..]|].
      intros ??. apply child_at_mono. lia.
  - rewrite Hs1, He1. apply Ha.
  - eapply same_books_trans; [|exact Hb]. eapply same_books_trans; [apply Ha|exact Hb1].
  - apply Hsort, Ha.
  - intros i. pose proof (at_refs _ _ _ Ha) as Hrefs. rewrite Hget.
    + rewrite (readers_snoc (dataflow m) _ (Some slot)), Hin, Hrefs by done.
      destruct (decide (i = length (nodes (dataflow m)))) as [->|Hne].
      * rewrite Hlen, <- HPl, plan_at_snoc, HPl, <- Hlen. f_equal. symmetry.
        rewrite (readers_new _ _ _ _ Ha) by lia. apply occ_zero. intros Hx.
        rewrite Forall_forall in Hbnd. specialize (Hbnd _ Hx). lia.
      * assert (plan_at (labels_upto k ++ [Some n]) i = plan_at (labels_upto k) i) as ->.
        { destruct (decide (i < length (labels_upto k))%nat); [by apply plan_at_app_l|].
          unfold plan_at. rewrite !lookup_ge_None_2; rewrite ?length_app; simpl; [done|lia|lia]. }
        by destruct (plan_at (labels_upto k) i).
    + apply Forall_forall. intros j Hj. rewrite Hrefs.
      assert (plan_at (labels_upto k) j ∈ map (plan_at (labels_upto k)) ids) as Hx.
      { apply list_elem_of_In, in_map. by apply list_elem_of_In. }
      rewrite Hids in Hx. apply list_elem_of_fmap in Hx as (ch & -> & _). done.
    + rewrite Hrefs. destruct (plan_at _ _) eqn:E; [|done]. apply plan_at_lt in E. lia.
Qed.

Lemma attach_nodes_spec todo k adm m fresh m' fresh' :
  attached k m fresh -> drop k plan_nodes = todo ->
  attach_nodes plan_nodes todo adm m fresh = (m', Ok fresh') -> attached (length plan_nodes) m' fresh'.
Proof.
  revert k m fresh. induction todo as [|[p n] todo IH]; intros k m fresh Ha Hd; cbn [attach_nodes].
  { intros [= <- <-]. assert (k = length plan_nodes) as <-; [|done].
    apply (f_equal length) in Hd. rewrite length_drop in Hd. simpl in Hd.
    destruct (at_nodes _ _ _ Ha) as (new & Hn & Hl). pose proof (g_length _ _ (at_graph _ _ _ Ha)) as Hgl.
    unfold labels_upto in Hgl. rewrite Hn, !length_app, length_map, length_take, (g_length _ _ Hg0) in Hgl.
    rewrite <- (walk_at_snd [] top), length_map in Hgl. lia. }
  destruct (resolve_inputs plan_nodes fresh (p, n)) as [ids|] eqn:Er; [|done]. cbn [snd].
  destruct (attach_fresh m n ids adm) as [m1 [id|]] eqn:Ea; [|done].
  assert (plan_nodes !! k = Some (p, n)) as Hk.
  { rewrite <- (take_drop k plan_nodes), Hd, lookup_app_r, length_take_le, Nat.sub_diag; [done|..];
      [|rewrite length_take_le; [done|]].
    all: apply (f_equal length) in Hd; rewrite length_drop in Hd; simpl in Hd; lia. }
  apply (IH (S k)); [by eapply attached_step|].
  apply (drop_S plan_nodes _ k) in Hk. rewrite Hk in Hd. by injection Hd.
Qed.

(** ** The whole plan attached *)

Abbreviation K := (length (walk top)).
Abbreviation P1 := (labels_upto (length (walk top))).

Lemma plan_nodes_length : length plan_nodes = K.
Proof. by rewrite <- (walk_at_snd [] top), length_map. Qed.

Lemma walk_last : exists l, walk top = l ++ [top].
Proof. rewrite walk_children. eauto. Qed.

Lemma walk_pos : (0 < K)%nat.
Proof. destruct walk_last as [l ->]. rewrite length_app. simpl. lia. Qed.

Lemma walk_top : walk top !! (K - 1)%nat = Some top.
Proof.
  destruct walk_last as [l ->]. rewrite length_app, lookup_app_r by (simpl; lia). simpl.
  by replace (length l + 1 - 1 - length l)%nat with 0%nat by lia.
Qed.

Lemma plan_at_top : plan_at P1 (N0 + (K - 1)) = Some top.
Proof. rewrite labels_upto_new by (pose proof walk_pos; lia). apply walk_top. Qed.

Lemma root_position j : plan_nodes !! j = Some ([], top) -> j = (K - 1)%nat.
Proof.
  intros Hj. pose proof (walk_at_NoDup [] top) as Hnd.
  assert (plan_nodes !! (K - 1)%nat = Some ([], top)) as Hl.
  { rewrite <- plan_nodes_length, walk_at_children, length_app, lookup_app_r by (simpl; lia). simpl.
    by replace (_ - _)%nat with 0%nat by lia. }
  eapply (NoDup_lookup _ _ _ []); [exact Hnd|..];
    change (map fst plan_nodes) with (fst <$> plan_nodes); by rewrite list_lookup_fmap, ?Hj, ?Hl.
Qed.

Context (m : Memo F B) (fresh : list nat) (Ha : attached (length plan_nodes) m fresh).

Lemma attached_all : attached K m fresh.
Proof. rewrite <- plan_nodes_length. exact Ha. Qed.

Lemma fresh_closed i op ids :
  (N0 <= i)%nat -> nodes (dataflow m) !! i = Some (Some (NOperator op ids)) ->
  Forall (fun j => N0 <= j < N0 + K)%nat ids.
Proof.
  intros Hi Hop. pose proof (lookup_lt_Some _ _ _ Hop) as Hlt. rewrite (attached_length _ _ _ attached_all) in Hlt.
  assert (i - N0 < length plan_nodes)%nat as Hj by (rewrite plan_nodes_length; lia).
  apply lookup_lt_is_Some in Hj as [[p n] Hj].
  pose proof (at_inputs _ _ _ attached_all (i - N0) p n (Some (NOperator op ids)) ltac:(lia) Hj) as Hc.
  replace (N0 + (i - N0))%nat with i in Hc by lia. by eapply child_at_lt, Hc.
Qed.

(** Every new node but the root is read by its parent. *)
Lemma fresh_read i : (N0 <= i < N0 + (K - 1))%nat -> (0 < readers (dataflow m) i)%nat.
Proof.
  intros Hi. assert (i - N0 < length plan_nodes)%nat as Hj by (rewrite plan_nodes_length; lia).
  apply lookup_lt_is_Some in Hj as [[p n] Hj].
  pose proof (list_elem_of_lookup_2 _ _ _ Hj) as Hin. apply elem_of_walk_at in Hin as (r & Hr & Hsub).
  simpl in Hr. subst r. destruct p as [|ch p _] using rev_ind.
  { injection Hsub as <-. apply root_position in Hj. lia. }
  rewrite sub_snoc in Hsub. destruct (sub top p) as [x|] eqn:Ex; [|done]. simpl in Hsub.
  assert ((p, x) ∈ plan_nodes) as Hp by (apply elem_of_walk_at; by exists p).
  apply list_elem_of_lookup in Hp as [j' Hj'].
  pose proof (lookup_lt_Some _ _ _ Hj') as Hlt'. rewrite plan_nodes_length in Hlt'.
  assert (is_Some (nodes (dataflow m) !! (N0 + j')%nat)) as [slot Hslot].
  { apply lookup_lt_is_Some. rewrite (attached_length _ _ _ attached_all). lia. }
  pose proof (at_inputs _ _ _ attached_all j' p x slot Hlt' Hj' Hslot) as Hc.
  assert (seq 0 (length (children x)) !! ch = Some ch) as Hch.
  { apply lookup_seq. apply lookup_lt_Some in Hsub. lia. }
  destruct (Forall2_lookup_l _ _ _ _ _ Hc Hch) as (id & Hid & q & y & Hf & _ & ->).
  apply list_find_Some in Hf as (Hq & Hyp & _).
  assert (q = i - N0)%nat as ->.
  { eapply (NoDup_lookup _ _ _ (p ++ [ch]) (walk_at_NoDup [] top));
      change (map fst plan_nodes) with (fst <$> plan_nodes); rewrite list_lookup_fmap, ?Hq, ?Hj; simpl; by f_equal. }
  apply list_elem_of_lookup_2 in Hid. replace (N0 + (i - N0))%nat with i in Hid by lia.
  unfold readers. apply list_elem_of_lookup_2, list_elem_of_In in Hslot.
  apply (in_map (fun slot => occ i (slot_inputs slot))) in Hslot.
  apply occ_pos in Hid. pose proof (list_sum_le _ _ Hslot) as Hle. simpl in Hle. lia.
Qed.
End nodes.
End attach.
