(* ===== verification/MemoShare.v ===== *)
(** * A registration from its first node to its catch-up

    The new query's nodes sit on top of the shared dataflow, with a sink of its
    own.  Catching up moves them, and them alone, from empty tables to the
    accumulated input.

    Its later part: sharing what already exists. *)

From Stdlib Require Import ZArith Lia.
From stdpp Require Import base list strings pretty.
From S2P Require Import Prelude BTree ZAlg Value ZSet Plan Bind Codec State Operator Linear Distinct Join Aggregate ResultStore Circuit Dataflow Engine Compile PlanForm MemoGraph Memo MemoAttach.

Section join.
Context {F B : Type} `{FactoryLaws F B} `{Debug}.
Implicit Type (m : Memo F B) (c : Circuit (AnyOp B)) (P : list (option CircuitNode)).

(** ** The dataflow a memo holds between calls *)

(** Every node and every sink stands for the tables [E]. *)
Record flow_inv (E : string -> Entries) m P : Prop := {
  fi_held : held m P [] None;
  fi_ops : forall i, op_at (nodes (dataflow m)) P E true i;
  fi_sinks : forall s, Some s ∈ sinks (dataflow m) -> sink_reach (dataflow m) P s /\ sink_value P E true s
}.

Lemma reaches_live c P i j : graph_ok (nodes c) P -> is_Some (plan_at P i) -> reaches c i j -> is_Some (plan_at P j).
Proof. intros Hg [n Hn] Hr. destruct (reaches_plan _ _ _ _ _ Hg Hr Hn) as (x & -> & _). done. Qed.

Lemma sink_value_live P E b s : sink_value P E b s -> is_Some (plan_at P (sink_at_node s)).
Proof. intros (n & -> & _). done. Qed.

Lemma plan_at_nodes c P i : graph_ok (nodes c) P -> is_Some (plan_at P i) -> (i < length (nodes c))%nat.
Proof. intros Hg [n Hn]. apply plan_at_lt in Hn. by rewrite (g_length _ _ Hg) in Hn. Qed.

(** ** A registration under way *)

Record joined (E E0 : string -> Entries) (b : bool) (N0 : nat) (top : CircuitNode) m P
    (old : list (option Sink)) (s : Sink) : Prop := {
  jo_held : held m P [] None;
  jo_length : length (nodes (dataflow m)) = (N0 + length (walk top))%nat;
  jo_plan : forall j, (j < length (walk top))%nat -> plan_at P (N0 + j) = walk top !! j;
  jo_old_ops : forall i, (i < N0)%nat -> op_at (nodes (dataflow m)) P E true i;
  jo_new_ops : forall i, (N0 <= i)%nat -> op_at (nodes (dataflow m)) P E0 b i;
  jo_closed : forall i op ids, (N0 <= i)%nat -> nodes (dataflow m) !! i = Some (Some (NOperator op ids)) ->
    Forall (fun j => N0 <= j < N0 + length (walk top))%nat ids;
  jo_sinks : sinks (dataflow m) = old ++ [Some s];
  jo_old : forall s, Some s ∈ old -> (sink_at_node s < N0)%nat /\ sink_reach (dataflow m) P s /\ sink_value P E true s;
  jo_at : sink_at_node s = (N0 + (length (walk top) - 1))%nat;
  jo_reach : sink_reach (dataflow m) P s;
  jo_value : sink_value P E0 b s
}.

(** Downstream nodes are older. *)
Lemma reaches_le c i j : wired (nodes c) -> reaches c i j -> (j <= i)%nat.
Proof.
  intros Hw Hr. induction Hr as [|i k j slot Hs Hk Hr IH]; [done|].
  pose proof (Hw _ _ Hs) as Hlt. rewrite Forall_forall in Hlt. specialize (Hlt _ Hk). lia.
Qed.

(** A new node only looks at new nodes. *)
Lemma reaches_new c lo hi i j :
  (forall i op ids, (lo <= i)%nat -> nodes c !! i = Some (Some (NOperator op ids)) ->
     Forall (fun j => lo <= j < hi)%nat ids) ->
  (lo <= i)%nat -> reaches c i j -> (lo <= j)%nat.
Proof.
  intros Hcl Hi Hr. induction Hr as [|i k j slot Hs Hk Hr IH]; [done|].
  destruct slot as [[|op ids]|]; simpl in Hk; try by inversion Hk.
  pose proof (Hcl _ _ _ Hi Hs) as Hf. rewrite Forall_forall in Hf. apply IH. by apply Hf.
Qed.

(** Nodes of one plan with distinct subtrees are told apart by their labels. *)
Lemma unshared_fresh c P N0 top i :
  NoDup (walk top) -> (forall j, (j < length (walk top))%nat -> plan_at P (N0 + j) = walk top !! j) ->
  (forall j, reaches c i j -> (N0 <= j < N0 + length (walk top))%nat) -> unshared c P i.
Proof.
  intros Hnd Hp Hr a b' n Ha%Hr Hb%Hr. replace a with (N0 + (a - N0))%nat by lia.
  replace b' with (N0 + (b' - N0))%nat by lia. rewrite !Hp by lia. intros Hna Hnb.
  rewrite (NoDup_lookup _ _ _ _ Hnd Hna Hnb). done.
Qed.

Lemma store_new_integral s : integral (store_new s) = [].
Proof. done. Qed.

(** ** The sink of a new plan *)

Lemma reaches_nodes c c' i j : nodes c' = nodes c -> reaches c i j <-> reaches c' i j.
Proof. intros Hn. apply reaches_edges_iff. intros k _. unfold edges. by rewrite Hn. Qed.

Lemma readers_add_sink c c' i s :
  nodes c' = nodes c -> sinks c' = sinks c ++ [Some s] ->
  readers c' i = (readers c i + if decide (sink_at_node s = i) then 1 else 0)%nat.
Proof.
  intros Hn Hs. unfold readers. rewrite Hn, Hs, list_sum_map_app. simpl.
  destruct (Nat.eqb_spec (sink_at_node s) i); destruct (decide (sink_at_node s = i)); try done; lia.
Qed.

Lemma new_sink_held m0 P0 top m fresh c s :
  held m0 P0 [] None ->
  attached m0 P0 top (length (walk_at [] top)) m fresh ->
  nodes c = nodes (dataflow m) -> sinks c = sinks (dataflow m) ++ [Some s] ->
  sink_at_node s = (length (nodes (dataflow m0)) + (length (walk top) - 1))%nat ->
  held (bump (with_dataflow c m) (sink_at_node s)) (labels_upto P0 top (length (walk top))) [] None.
Proof.
  intros Hh Hat Hn Hsk Hs. pose proof (h_graph _ _ _ _ Hh) as Hg0.
  pose proof (attached_all _ _ _ _ _ Hat) as Ha.
  assert (plan_at (labels_upto P0 top (length (walk top))) (sink_at_node s) = Some top) as Htop.
  { rewrite Hs. by apply plan_at_top. }
  split; cbn [dataflow bump with_refs with_dataflow refs].
  - rewrite Hn. apply Ha.
  - by apply bt_insert_sorted, (at_sorted _ _ _ _ _ _ Ha).
  - intros i. pose proof (at_refs _ _ _ _ _ _ Ha) as Hr. unfold bt_update. rewrite bt_get_insert, !Hr.
    rewrite (readers_add_sink (dataflow m) c i s Hn Hsk). change (occ i []) with 0%nat. rewrite Nat.add_0_r.
    case_cmp_eqb i (sink_at_node s).
    + subst i. rewrite Htop, decide_True by done. simpl. f_equal. lia.
    + rewrite decide_False by done. by rewrite Nat.add_0_r.
  - constructor.
  - intros i Hi. left. change (occ i []) with 0%nat. rewrite Nat.add_0_r.
    rewrite (readers_add_sink (dataflow m) c i s Hn Hsk).
    destruct (decide (sink_at_node s = i)) as [|Hne]; [lia|]. rewrite Nat.add_0_r.
    destruct (decide (i < length (nodes (dataflow m0)))%nat) as [Hlt|Hge].
    + rewrite (labels_upto_old m0 P0 top Hg0) in Hi by done. destruct (h_tight _ _ _ _ Hh i Hi) as [Hpos|[=]].
      change (occ i []) with 0%nat in Hpos. unfold readers in *.
      destruct (at_nodes _ _ _ _ _ _ Ha) as (new & -> & _). destruct (at_sinks _ _ _ _ _ _ Ha) as [-> _].
      rewrite list_sum_map_app. lia.
    + apply (fresh_read m0 P0 top m fresh Hat).
      apply (plan_at_nodes (dataflow m)) in Hi; [|apply Ha].
      rewrite (attached_length _ _ _ _ _ _ Ha) in Hi. lia.
Qed.

Lemma add_sink_spec c id c' k :
  add_sink c id = Ok (c', k) ->
  exists schema errs anc, node_output_schema c id = Ok schema /\ ancestors_of c id = Ok anc /\
    nodes c' = nodes c /\ epoch c' = epoch c /\ k = length (sinks c) /\
    sinks c' = sinks c ++ [Some (mkSink id (store_new schema) (store_new errs) anc)].
Proof.
  unfold add_sink. destruct (node_output_schema c id) as [schema|]; [|done].
  destruct (ancestors_of c id) as [anc|]; [|done]. destruct (map_err CirOp error_schema) as [errs|]; [|done].
  intros [= <- <-]. by exists schema, errs, anc.
Qed.

Lemma output_schema_plan c P i n schema :
  graph_ok (nodes c) P -> plan_at P i = Some n -> node_output_schema c i = Ok schema -> schema = emitted_schema n.
Proof.
  intros Hg Hn. unfold node_output_schema, node_at.
  destruct (nodes c !! i) as [[[t a s|op ids]|]|] eqn:Ei; try done; intros [= <-].
  - rewrite (fits_source _ _ _ _ _ _ Hg Ei) in Hn. by injection Hn as <-.
  - destruct (fits_operator _ _ _ _ _ Hg Ei) as (n' & Hn' & _ & _ & _ & Hs). rewrite Hn in Hn'. by injection Hn' as <-.
Qed.

(** An old sink does not see the new nodes. *)
Lemma old_sink_kept E m0 P0 top m fresh c s :
  flow_inv E m0 P0 -> attached m0 P0 top (length (walk top)) m fresh -> nodes c = nodes (dataflow m) ->
  Some s ∈ sinks (dataflow m0) ->
  (sink_at_node s < length (nodes (dataflow m0)))%nat /\
  sink_reach c (labels_upto P0 top (length (walk top))) s /\
  sink_value (labels_upto P0 top (length (walk top))) E true s.
Proof.
  intros [Hh _ Hs] Ha Hn Hin. pose proof (h_graph _ _ _ _ Hh) as Hg0.
  destruct (Hs s Hin) as [Hr Hv]. pose proof (sink_value_live _ _ _ _ Hv) as Hl.
  pose proof (plan_at_nodes _ _ _ Hg0 Hl) as Hlt. split_and!; [done| |].
  - eapply sink_reach_edges; [|exact Hr]. intros i Hi.
    pose proof (plan_at_nodes _ _ _ Hg0 (reaches_live _ _ _ _ Hg0 Hl Hi)) as Hi'.
    rewrite (labels_upto_old m0 P0 top Hg0) by done. split; [|done]. apply kept_edges.
    destruct (at_nodes _ _ _ _ _ _ Ha) as (new & Hnew & _). by rewrite Hn, Hnew, lookup_app_l.
  - unfold sink_value. by rewrite (labels_upto_old m0 P0 top Hg0).
Qed.

Lemma joined_start E m0 P0 top m fresh c k :
  flow_inv E m0 P0 -> NoDup (walk top) ->
  attached m0 P0 top (length (walk_at [] top)) m fresh ->
  add_sink (dataflow m) (length (nodes (dataflow m0)) + (length (walk top) - 1)) = Ok (c, k) ->
  exists s, joined E (fun _ => []) false (length (nodes (dataflow m0))) top
    (bump (with_dataflow c m) (length (nodes (dataflow m0)) + (length (walk top) - 1)))
    (labels_upto P0 top (length (walk top))) (sinks (dataflow m0)) s /\ k = length (sinks (dataflow m0)).
Proof.
  intros Hf Hnd Hat Hadd. pose proof (attached_all _ _ _ _ _ Hat) as Ha.
  pose proof (h_graph _ _ _ _ (fi_held _ _ _ Hf)) as Hg0.
  apply add_sink_spec in Hadd as (schema & errs & anc & Hsch & Hanc & Hn & He & -> & Hsk).
  destruct (at_sinks _ _ _ _ _ _ Ha) as [Hsk0 He0]. rewrite Hsk0 in *.
  set (top_id := (length (nodes (dataflow m0)) + (length (walk top) - 1))%nat) in *.
  pose proof (plan_at_top m0 P0 top Hg0) as Htop. fold top_id in Htop.
  set (s := mkSink top_id (store_new schema) (store_new errs) anc) in *.
  assert (forall j, reaches c top_id j ->
    (length (nodes (dataflow m0)) <= j < length (nodes (dataflow m0)) + length (walk top))%nat) as Hrange.
  { intros j Hj. split.
    - eapply (reaches_new c _ _ top_id); [|unfold top_id; lia|exact Hj]. rewrite Hn.
      apply (fresh_closed m0 P0 top m fresh Hat).
    - rewrite <- (attached_length _ _ _ _ _ _ Ha). eapply plan_at_nodes; [apply Ha|].
      eapply (reaches_live (dataflow m)); [apply Ha|by eexists|]. by apply (reaches_nodes (dataflow m) c). }
  exists s. split; [|done]. split; cbn [dataflow bump with_refs with_dataflow]; rewrite ?Hn.
  - change top_id with (sink_at_node s). apply (new_sink_held m0 P0 top m fresh c s (fi_held _ _ _ Hf) Hat Hn); [|done].
    by rewrite Hsk, Hsk0.
  - apply (attached_length _ _ _ _ _ _ Ha).
  - intros j Hj. by apply labels_upto_new.
  - intros i Hi op ids n Hop Hpn. rewrite (labels_upto_old m0 P0 top Hg0) in Hpn by done.
    eapply (fi_ops _ _ _ Hf i); [|exact Hpn].
    destruct (at_nodes _ _ _ _ _ _ Ha) as (new & Hnew & _). by rewrite Hnew, lookup_app_l in Hop.
  - apply (at_ops _ _ _ _ _ _ Ha).
  - apply (fresh_closed m0 P0 top m fresh Hat).
  - done.
  - intros s' Hs'. eapply old_sink_kept; [exact Hf|exact Ha|exact Hn|done].
  - done.
  - split.
    + intros j. cbn [sink_ancestors sink_at_node s]. rewrite (ancestors_of_spec _ _ _ Hanc).
      by apply reaches_nodes.
    + eapply unshared_fresh; [exact Hnd| |exact Hrange]. intros j Hj. by apply labels_upto_new.
  - exists top. split_and!; try done.
    + split; apply store_new_inv.
    + symmetry. by apply plan_data_init.
    + symmetry. by apply plan_errs_init.
    + simpl. eapply (output_schema_plan (dataflow m)); [apply Ha|exact Htop|exact Hsch].
Qed.

(** ** Catching up *)

Lemma readers_same c c' i :
  Forall2 same_slot (nodes c) (nodes c') -> Forall2 same_sink (sinks c) (sinks c') -> readers c' i = readers c i.
Proof.
  intros Hn Hs. unfold readers. f_equal; f_equal.
  - symmetry. apply list_eq_Forall2. change (map ?f ?l) with (f <$> l). apply Forall2_fmap.
    eapply Forall2_impl; [exact Hn|]. intros [[]|] [[]|]; simpl; try done. by intros (-> & _).
  - symmetry. apply list_eq_Forall2. change (map ?f ?l) with (f <$> l). apply Forall2_fmap.
    eapply Forall2_impl; [exact Hs|]. intros [s|] [s'|]; simpl; try done. by intros (-> & _).
Qed.

Lemma held_readers m P c' pend ex :
  graph_ok (nodes c') P -> (forall i, readers c' i = readers (dataflow m) i) ->
  held m P pend ex -> held (with_dataflow c' m) P pend ex.
Proof.
  intros Hg Hrd [_ Hso Hr Hp Ht]. split; cbn [dataflow with_dataflow refs]; try done.
  - intros i. by rewrite Hrd.
  - intros i Hi. rewrite Hrd. by apply Ht.
Qed.

Lemma held_same m P c' pend ex :
  Forall2 same_slot (nodes (dataflow m)) (nodes c') -> Forall2 same_sink (sinks (dataflow m)) (sinks c') ->
  held m P pend ex -> held (with_dataflow c' m) P pend ex.
Proof.
  intros Hn Hs Hh. apply held_readers; [eapply graph_ok_same; [exact Hn|apply Hh]| |done].
  intros i. by apply readers_same.
Qed.

Lemma included_seq lo k i : is_included (Some (seq lo k)) i = bool_decide (lo <= i < lo + k)%nat.
Proof.
  simpl. apply eq_true_iff_eq. rewrite existsb_exists, bool_decide_eq_true. split.
  - by intros (j & Hj%in_seq & ->%Nat.eqb_eq).
  - intros Hi. exists i. by rewrite in_seq, Nat.eqb_refl.
Qed.

Lemma sink_reach_same c c' P s s' :
  Forall2 same_slot (nodes c) (nodes c') -> same_sink (Some s) (Some s') -> sink_reach c P s -> sink_reach c' P s'.
Proof.
  intros Hn (Hs1 & Hs2 & _) Hr. assert (sink_reach c' P s) as [Ha Hu].
  { eapply sink_reach_edges; [|exact Hr]. intros i _. split; [by apply edges_same|done]. }
  unfold sink_reach. by rewrite Hs1, Hs2.
Qed.

(** The old sinks look at old nodes only, the new one at new nodes only. *)
Lemma joined_sides E E0 b N0 top m P old s :
  joined E E0 b N0 top m P old s ->
  (forall s, Some s ∈ old -> sink_side (dataflow m) (Some (seq N0 (length (walk top)))) false s) /\
  sink_side (dataflow m) (Some (seq N0 (length (walk top)))) true s.
Proof.
  intros Hj. pose proof (h_graph _ _ _ _ (jo_held _ _ _ _ _ _ _ _ _ Hj)) as Hg. split.
  - intros s0 Hs0 k Hk. destruct (jo_old _ _ _ _ _ _ _ _ _ Hj s0 Hs0) as [Hlt _].
    apply reaches_le in Hk; [|apply Hg]. rewrite included_seq. apply bool_decide_eq_false. lia.
  - intros k Hk. rewrite included_seq. apply bool_decide_eq_true. split.
    + eapply reaches_new; [apply (jo_closed _ _ _ _ _ _ _ _ _ Hj)| |exact Hk]. rewrite (jo_at _ _ _ _ _ _ _ _ _ Hj). lia.
    + apply reaches_le in Hk; [|apply Hg]. rewrite (jo_at _ _ _ _ _ _ _ _ _ Hj) in Hk. pose proof (walk_pos top). lia.
Qed.

Lemma joined_pass E E0 b N0 top m P old s deltas c' :
  joined E E0 b N0 top m P old s ->
  pass_small (dataflow m) deltas (Some (seq N0 (length (walk top)))) = true ->
  catch_up (dataflow m) deltas (seq N0 (length (walk top))) = (c', Ok tt) ->
  Forall2 same_slot (nodes (dataflow m)) (nodes c') /\ Forall2 same_sink (sinks (dataflow m)) (sinks c') /\
  (forall i, (N0 <= i < N0 + length (walk top))%nat -> op_at (nodes c') P (fun t => E0 t ++ entries_for deltas t) true i) /\
  (forall i, (i < N0)%nat -> nodes c' !! i = nodes (dataflow m) !! i) /\
  (forall k s0 s' (new : bool), sinks (dataflow m) !! k = Some (Some s0) -> sinks c' !! k = Some (Some s') ->
     (if new then s0 = s else Some s0 ∈ old) ->
     sink_value P (if new then fun t => E0 t ++ entries_for deltas t else E) true s').
Proof.
  intros Hj Hsm Hc. destruct (joined_sides _ _ _ _ _ _ _ _ _ Hj) as [Hold Hnew].
  pose proof (included_seq N0 (length (walk top))) as Hinc.
  destruct (pass_part (dataflow m) P (Some (seq N0 (length (walk top)))) E0 (fun t => E0 t ++ entries_for deltas t) E b deltas)
    with (c' := c') as (Hsame & Hsk & Hops & Hkept & Hval).
  - exact (h_graph _ _ _ _ (jo_held _ _ _ _ _ _ _ _ _ Hj)).
  - intros i op ids Hi Hop. rewrite Hinc, bool_decide_eq_true in Hi.
    eapply Forall_impl; [apply (jo_closed _ _ _ _ _ _ _ _ _ Hj i op ids); [lia|done]|].
    intros j Hij. by rewrite Hinc, bool_decide_eq_true.
  - intros i Hi. rewrite Hinc, bool_decide_eq_true in Hi. apply (jo_new_ops _ _ _ _ _ _ _ _ _ Hj). lia.
  - done.
  - intros s0. rewrite (jo_sinks _ _ _ _ _ _ _ _ _ Hj), elem_of_app, list_elem_of_singleton.
    intros [Hs0|[= ->]].
    + destruct (jo_old _ _ _ _ _ _ _ _ _ Hj s0 Hs0) as (_ & Hr & Hv). split; [done|]. exists false. auto.
    + split; [exact (jo_reach _ _ _ _ _ _ _ _ _ Hj)|]. exists true. split; [done|exact (jo_value _ _ _ _ _ _ _ _ _ Hj)].
  - exact Hsm.
  - exact Hc.
  - split; [done|]. split; [done|]. split; [|split].
    + intros i Hi. apply Hops. by rewrite Hinc, bool_decide_eq_true.
    + intros i Hi. apply Hkept. rewrite Hinc, bool_decide_eq_false. lia.
    + intros k s0 s' new Hk Hk' Hs0. apply (Hval k s0 s' new); [done..|]. destruct new; [by subst|by apply Hold].
Qed.

Lemma catch_up_joined E E0 b N0 top m P old s deltas c' :
  joined E E0 b N0 top m P old s ->
  pass_small (dataflow m) deltas (Some (seq N0 (length (walk top)))) = true ->
  catch_up (dataflow m) deltas (seq N0 (length (walk top))) = (c', Ok tt) ->
  exists s' old', length old' = length old /\
    joined E (fun t => E0 t ++ entries_for deltas t) true N0 top (with_dataflow c' m) P old' s' /\
    Forall2 same_slot (nodes (dataflow m)) (nodes c') /\ Forall2 same_sink old old'.
Proof.
  intros Hj Hsm Hc. destruct (joined_pass _ _ _ _ _ _ _ _ _ _ _ Hj Hsm Hc) as (Hsame & Hsk & Hops & Hkept & Hval).
  rewrite (jo_sinks _ _ _ _ _ _ _ _ _ Hj) in Hsk.
  apply Forall2_app_inv_l in Hsk as (old' & l & Hold' & Hl & Hsinks).
  apply Forall2_cons_inv_l in Hl as (s1 & l' & Hs1 & Hl' & ->). apply Forall2_nil_inv_l in Hl' as ->.
  destruct s1 as [s'|]; [|done]. pose proof Hs1 as (Hs1n & _).
  exists s', old'. split; [symmetry; by eapply Forall2_length|]. split; [|done].
  split; cbn [dataflow with_dataflow].
  - apply held_same; [done| |exact (jo_held _ _ _ _ _ _ _ _ _ Hj)]. rewrite (jo_sinks _ _ _ _ _ _ _ _ _ Hj), Hsinks.
    apply Forall2_app; [done|]. constructor; [exact Hs1|constructor].
  - rewrite <- (Forall2_length _ _ _ Hsame). exact (jo_length _ _ _ _ _ _ _ _ _ Hj).
  - exact (jo_plan _ _ _ _ _ _ _ _ _ Hj).
  - intros i Hi op ids n Hop Hpn. rewrite Hkept in Hop by done.
    by eapply (jo_old_ops _ _ _ _ _ _ _ _ _ Hj i).
  - intros i Hi. destruct (decide (i < N0 + length (walk top))%nat) as [Hlt|Hge].
    + by apply Hops.
    + intros op ids n Hop. apply lookup_lt_Some in Hop. rewrite <- (Forall2_length _ _ _ Hsame), (jo_length _ _ _ _ _ _ _ _ _ Hj) in Hop. lia.
  - intros i op ids Hi Hop. destruct (Forall2_lookup_r _ _ _ _ _ Hsame Hop) as ([[|op0 ids0]|] & Hop0 & Hss); try done.
    destruct Hss as (-> & _). by apply (jo_closed _ _ _ _ _ _ _ _ _ Hj i op0).
  - exact Hsinks.
  - intros s0' Hs0'. apply list_elem_of_lookup in Hs0' as [k Hk].
    destruct (Forall2_lookup_r _ _ _ _ _ Hold' Hk) as ([s0|] & Hk0 & Hss); [|done].
    pose proof (list_elem_of_lookup_2 _ _ _ Hk0) as Hs0.
    destruct (jo_old _ _ _ _ _ _ _ _ _ Hj s0 Hs0) as (Hlt & Hr & Hv). split_and!.
    + by destruct Hss as (-> & _).
    + by eapply sink_reach_same.
    + eapply (Hval k s0 s0' false); [|rewrite Hsinks; by apply lookup_app_l_Some|done].
      rewrite (jo_sinks _ _ _ _ _ _ _ _ _ Hj). by apply lookup_app_l_Some.
  - rewrite Hs1n. exact (jo_at _ _ _ _ _ _ _ _ _ Hj).
  - eapply sink_reach_same; [exact Hsame|exact Hs1|exact (jo_reach _ _ _ _ _ _ _ _ _ Hj)].
  - eapply (Hval (length old) s s' true); [..|done].
    + rewrite (jo_sinks _ _ _ _ _ _ _ _ _ Hj), lookup_app_r, Nat.sub_diag by done. done.
    + rewrite Hsinks, lookup_app_r, (Forall2_length _ _ _ Hold'), Nat.sub_diag by (rewrite (Forall2_length _ _ _ Hold'); done). done.
Qed.

Lemma op_at_proper (ns : list (option (Node (AnyOp B)))) P E E' b i :
  (forall t, E t ≡z E' t) -> op_at ns P E b i -> op_at ns P E' b i.
Proof.
  intros HE Ho op ids n Hop Hn. eapply any_inv_proper; [|by eapply Ho].
  induction (children n) as [|ch l IH]; simpl; constructor; [by apply plan_data_proper|done].
Qed.

Lemma sink_value_proper P E E' b s : (forall t, E t ≡z E' t) -> sink_value P E b s -> sink_value P E' b s.
Proof.
  intros HE (n & Hn & Hok & Hnd & Hz & He & Hs). exists n. split_and!; try done.
  - rewrite Hz. by apply plan_data_proper.
  - rewrite He. by apply plan_errs_proper.
Qed.

Lemma joined_proper E E0 E1 b N0 top m P old s :
  (forall t, E0 t ≡z E1 t) -> joined E E0 b N0 top m P old s -> joined E E1 b N0 top m P old s.
Proof.
  intros HE [? ? ? ? Hops ? ? ? ? ? Hv]. split; try done.
  - intros i Hi. eapply op_at_proper; [exact HE|by apply Hops].
  - by eapply sink_value_proper.
Qed.

(** The batches of a catch-up stay within machine range. *)
Fixpoint feed_small c (chunks : list EpochDeltas) (fresh : list nat) : bool :=
  match chunks with
  | [] => true
  | d :: chunks' => pass_small c d (Some fresh) && feed_small (catch_up c d fresh).1 chunks' fresh
  end.

Lemma Forall2_refl_slot (l : list (option (Node (AnyOp B)))) : Forall2 same_slot l l.
Proof. apply Forall_Forall2_diag, Forall_true. apply same_slot_refl. Qed.

Lemma Forall2_refl_sink l : Forall2 same_sink l l.
Proof. apply Forall_Forall2_diag, Forall_true. by intros []. Qed.

Lemma with_dataflow_id m : with_dataflow (dataflow m) m = m.
Proof. by destruct m. Qed.

(** A pass does not move the epoch. *)
Lemma pass_nodes_epoch deltas subset ks c outputs errs c' r :
  pass_nodes deltas subset ks c outputs errs = (c', r) -> epoch c' = epoch c.
Proof.
  revert c outputs errs. induction ks as [|k ks IH]; intros c outputs errs; cbn [pass_nodes]; [by intros [= <- _]|].
  destruct (pass_node deltas subset k c outputs errs) as [c1 r1] eqn:E1.
  assert (epoch c1 = epoch c) as <-.
  { unfold pass_node in E1. repeat case_match; simplify_eq; done. }
  destruct r1 as [[o1 e1]|]; [apply IH|by intros [= <- _]].
Qed.

Lemma pass_epoch c deltas subset c' r : pass c deltas subset = (c', r) -> epoch c' = epoch c.
Proof.
  unfold pass. destruct (pass_nodes _ _ _ c [] []) as [c1 r1] eqn:E1. apply pass_nodes_epoch in E1 as <-.
  repeat case_match; intros; simplify_eq; done.
Qed.

Lemma feed_all_joined chunks E E0 b N0 top m P old s c' :
  joined E E0 b N0 top m P old s ->
  feed_small (dataflow m) chunks (seq N0 (length (walk top))) = true ->
  feed_all (dataflow m) chunks (seq N0 (length (walk top))) = (c', Ok tt) ->
  exists s' old', joined E (fun t => E0 t ++ accumulate chunks t) (b || bool_decide (chunks <> [])) N0 top
      (with_dataflow c' m) P old' s' /\
    Forall2 same_slot (nodes (dataflow m)) (nodes c') /\ Forall2 same_sink old old' /\
    epoch c' = epoch (dataflow m).
Proof.
  revert E0 b m old s. induction chunks as [|d chunks IH]; intros E0 b m old s Hj; cbn [feed_small feed_all].
  { intros _ [= <-]. exists s, old. rewrite bool_decide_false, orb_false_r by auto.
    split_and!; [|apply Forall2_refl_slot|apply Forall2_refl_sink|done].
    rewrite with_dataflow_id. eapply joined_proper; [|exact Hj]. intros t. by rewrite app_nil_r. }
  intros [Hsm Hsms]%andb_true_iff. destruct (catch_up _ d _) as [c1 [[]|]] eqn:E1; [|done]. intros Hfeed.
  destruct (catch_up_joined _ _ _ _ _ _ _ _ _ _ _ Hj Hsm E1) as (s1 & old1 & _ & Hj1 & Hn1 & Hs1).
  destruct (IH _ _ _ _ _ Hj1 Hsms Hfeed) as (s2 & old2 & Hj2 & Hn2 & Hs2 & He2).
  exists s2, old2. rewrite (bool_decide_true (d :: chunks <> [])), orb_true_r by done. split_and!.
  - eapply joined_proper; [|exact Hj2]. intros t. unfold accumulate. simpl. by rewrite app_assoc.
  - by eapply Forall2_same_slot_trans.
  - by eapply Forall2_same_sink_trans.
  - rewrite He2. unfold catch_up in E1. by eapply pass_epoch.
Qed.
End join.

(** * Sharing what already exists

    A new query's node whose subtree is already computed gives its readers to the
    existing node and is freed.  Afterwards every subtree has one live node, and
    every sink still holds its answer. *)

Section share.
Context {F B : Type} `{FactoryLaws F B} `{Debug}.
Implicit Type (m : Memo F B) (c : Circuit (AnyOp B)) (P : list (option CircuitNode)).
Abbreviation Slot := (option (Node (AnyOp B))).

(** ** Rewiring *)

Definition redirect_slot (from to : nat) (slot : Slot) : Slot :=
  match slot with Some (NOperator op ids) => Some (NOperator op (redirect from to ids)) | s => s end.

Lemma redirect_inputs from to (slot : Slot) :
  slot_inputs (redirect_slot from to slot) = redirect from to (slot_inputs slot).
Proof. by destruct slot as [[]|]. Qed.

Lemma redirect_absent from to ids : from ∉ ids -> redirect from to ids = ids.
Proof.
  intros Hn. unfold redirect. rewrite <- (map_id ids) at 2. apply map_ext_in. intros i Hi%list_elem_of_In.
  destruct (Nat.eqb_spec i from) as [->|]; done.
Qed.

Lemma occ_redirect from to ids i :
  from <> to ->
  occ i (redirect from to ids) =
    if decide (i = from) then 0%nat else if decide (i = to) then (occ to ids + occ from ids)%nat else occ i ids.
Proof.
  intros Hne. induction ids as [|j ids IH]; cbn [redirect map].
  { change (occ ?k []) with 0%nat. by repeat case_decide. }
  change (map _ ids) with (redirect from to ids). rewrite !occ_cons, IH.
  destruct (Nat.eqb_spec j from); repeat case_decide; subst; try done; lia.
Qed.

Lemma redirect_slot_absent from to (slot : Slot) : from ∉ slot_inputs slot -> redirect_slot from to slot = slot.
Proof. destruct slot as [[|op ids]|]; simpl; [done| |done]. intros Hn. by rewrite redirect_absent. Qed.

(** The loop, from index [k] on. *)
Lemma rewire_loop_spec from to n k c moved c' moved' :
  rewire_loop from to (seq k n) c moved = (c', Ok moved') -> (k + n = length (nodes c))%nat ->
  nodes c' = take k (nodes c) ++ map (redirect_slot from to) (drop k (nodes c)) /\
  sinks c' = sinks c /\ epoch c' = epoch c /\
  moved' = (moved + list_sum (map (fun slot => occ from (slot_inputs slot)) (drop k (nodes c))))%nat /\
  (forall i slot, (k <= i)%nat -> nodes c !! i = Some slot -> from ∈ slot_inputs slot -> (to < i)%nat).
Proof.
  revert k c moved. induction n as [|n IH]; intros k c moved; cbn [seq rewire_loop].
  { intros [= <- <-] Hk. rewrite drop_ge, take_ge by lia. simpl. rewrite app_nil_r. split_and!; try done; try lia.
    intros i slot Hi Hs. apply lookup_lt_Some in Hs. lia. }
  intros Hr Hk. assert (is_Some (nodes c !! k)) as [slot Hs] by (apply lookup_lt_is_Some; lia).
  assert (forall (c1 : Circuit (AnyOp B)) mv, nodes c1 = <[k := redirect_slot from to slot]> (nodes c) ->
    sinks c1 = sinks c -> epoch c1 = epoch c -> mv = (moved + occ from (slot_inputs slot))%nat ->
    (from ∈ slot_inputs slot -> (to < k)%nat) ->
    rewire_loop from to (seq (S k) n) c1 mv = (c', Ok moved') ->
    nodes c' = take k (nodes c) ++ map (redirect_slot from to) (drop k (nodes c)) /\
    sinks c' = sinks c /\ epoch c' = epoch c /\
    moved' = (moved + list_sum (map (fun slot => occ from (slot_inputs slot)) (drop k (nodes c))))%nat /\
    (forall i slot, (k <= i)%nat -> nodes c !! i = Some slot -> from ∈ slot_inputs slot -> (to < i)%nat)) as Hgo.
  { intros c1 mv Hn Hsk He -> Hlt Hrec. apply IH in Hrec as (H1' & H2' & H3' & H4' & H5').
    2: { rewrite Hn, length_insert. lia. }
    pose proof (lookup_lt_Some _ _ _ Hs) as Hkl.
    assert (drop (S k) (nodes c1) = drop (S k) (nodes c)) as Hd by (rewrite Hn; by rewrite drop_insert_lt by lia).
    assert (take (S k) (nodes c1) = take k (nodes c) ++ [redirect_slot from to slot]) as Ht.
    { rewrite Hn, (take_S_r _ _ (redirect_slot from to slot)) by (by apply list_lookup_insert_eq).
      by rewrite take_insert_ge by lia. }
    rewrite (drop_S _ _ _ Hs). split_and!.
    - rewrite H1', Hd, Ht, <- app_assoc. done.
    - congruence.
    - congruence.
    - rewrite H4', Hd. simpl. lia.
    - intros i sl Hi Hsl. destruct (decide (i = k)) as [->|]; [rewrite Hs in Hsl; by injection Hsl as <-|].
      apply (H5' i); [lia|]. rewrite Hn. by rewrite list_lookup_insert_ne. }
  rewrite Hs in Hr. destruct slot as [[t a s|op ids]|].
  - eapply Hgo; [|done|done|..|exact Hr]; [by rewrite list_insert_id|simpl; change (occ from []) with 0%nat; lia|].
    simpl. by intros ?%elem_of_nil.
  - destruct (existsb (Nat.eqb from) ids) eqn:Ex; simpl in Hr.
    + destruct (Nat.leb_spec k to) as [|Hlt]; [done|]. eapply Hgo; [..|exact Hr]; try done.
    + assert (from ∉ ids) as Hni.
      { intros Hin. apply not_true_iff_false in Ex. apply Ex, existsb_exists. exists from.
        by rewrite <- list_elem_of_In, Nat.eqb_refl. }
      eapply Hgo; [|done|done|..|exact Hr].
      * rewrite redirect_slot_absent by done. by rewrite list_insert_id.
      * simpl. rewrite (proj2 (occ_zero _ _) Hni). lia.
      * simpl. done.
  - eapply Hgo; [|done|done|..|exact Hr]; [by rewrite list_insert_id|simpl; change (occ from []) with 0%nat; lia|].
    simpl. by intros ?%elem_of_nil.
Qed.

Lemma rewire_inputs_spec c from to c' moved :
  rewire_inputs c from to = (c', Ok moved) ->
  nodes c' = map (redirect_slot from to) (nodes c) /\ sinks c' = sinks c /\ epoch c' = epoch c /\
  moved = list_sum (map (fun slot => occ from (slot_inputs slot)) (nodes c)) /\
  (forall i slot, nodes c !! i = Some slot -> from ∈ slot_inputs slot -> (to < i)%nat).
Proof.
  unfold rewire_inputs. destruct (let? offered := _ in _) as [[]|]; [|done]. intros Hr.
  apply rewire_loop_spec in Hr as (Hn & Hs & He & Hm & Hlt); [|done].
  rewrite drop_0 in *. simpl in Hn. split_and!; try done. intros i slot. apply Hlt. lia.
Qed.

Lemma graph_ok_rewire (ns : list Slot) P from to n :
  graph_ok ns P -> plan_at P from = Some n -> plan_at P to = Some n ->
  (forall i slot, ns !! i = Some slot -> from ∈ slot_inputs slot -> (to < i)%nat) ->
  graph_ok (map (redirect_slot from to) ns) P.
Proof.
  intros [Hl Hf Hw] Hfrom Hto Hlt. change (map ?f ?l) with (f <$> l).
  assert (forall ids, map (plan_at P) (redirect from to ids) = map (plan_at P) ids) as Hm.
  { intros ids. unfold redirect. rewrite map_map. apply map_ext. intros i.
    destruct (Nat.eqb_spec i from) as [->|]; [congruence|done]. }
  split.
  - by rewrite length_fmap.
  - intros i slot Hi. rewrite list_lookup_fmap in Hi. destruct (ns !! i) as [sl|] eqn:Es; [|done].
    injection Hi as <-. specialize (Hf _ _ Es).
    destruct sl as [[t a s|op ids]|], (plan_at P i); simpl in *; try done. by rewrite Hm.
  - intros i slot Hi. rewrite list_lookup_fmap in Hi. destruct (ns !! i) as [sl|] eqn:Es; [|done].
    injection Hi as <-. rewrite redirect_inputs. unfold redirect. apply Forall_map, Forall_forall. intros j Hj.
    pose proof (Hw _ _ Es) as Hwi. rewrite Forall_forall in Hwi. specialize (Hwi _ Hj).
    destruct (Nat.eqb_spec j from) as [->|]; [|done]. by apply (Hlt i sl).
Qed.

Lemma sum_redirect from to (ns : list Slot) i :
  from <> to ->
  let f k := list_sum (map (fun slot => occ k (slot_inputs slot)) ns) in
  list_sum (map (fun slot => occ i (slot_inputs slot)) (map (redirect_slot from to) ns)) =
    if decide (i = from) then 0%nat else if decide (i = to) then (f to + f from)%nat else f i.
Proof.
  intros Hne f. unfold f. clear f. induction ns as [|slot ns IH]; [by repeat case_decide|]. cbn [map list_sum foldr].
  change (foldr Nat.add 0%nat) with list_sum. rewrite IH, redirect_inputs, occ_redirect by done.
  repeat case_decide; try done; lia.
Qed.

Lemma move_ref_get from to m i :
  from <> to ->
  bt_get i (refs (move_ref from to m)) =
    if decide (i = from) then Some (pred (held_refs m from))
    else if decide (i = to) then Some (S (held_refs m to)) else bt_get i (refs m).
Proof.
  intros Hne. unfold move_ref. rewrite bump_refs. unfold held_refs at 1, drop_ref_shallow. cbn [refs with_refs].
  rewrite !bt_get_insert. destruct (decide (i = from)) as [->|Hi].
  - by rewrite decide_False, cmp_eqb_refl.
  - rewrite (proj2 (cmp_eqb_neq i from)) by done.
    destruct (decide (to = i)) as [->|]; [by rewrite decide_True|by rewrite decide_False].
Qed.

(** [k] edges' worth of references moved. *)
Lemma move_refs_spec k from to m a b :
  from <> to -> bt_get from (refs m) = Some a -> bt_get to (refs m) = Some b -> (k <= a)%nat -> bt_sorted (refs m) ->
  let m' := Nat.iter k (move_ref from to) m in
  dataflow m' = dataflow m /\ same_books m m' /\ factory m' = factory m /\ bt_sorted (refs m') /\
  (forall i, bt_get i (refs m') = if decide (i = from) then Some (a - k)%nat
                                  else if decide (i = to) then Some (b + k)%nat else bt_get i (refs m)).
Proof.
  intros Hne Ha Hb Hk Hs. induction k as [|k IH]; cbn [Nat.iter nat_rect].
  { split_and!; try done. intros i. repeat case_decide; subst; rewrite ?Ha, ?Hb; f_equal; lia. }
  destruct IH as (Hd & Hbk & Hf & Hso & Hg); [lia|]. change (nat_rect _ m (fun _ => move_ref from to) k)
    with (Nat.iter k (move_ref from to) m). revert Hd Hbk Hf Hso Hg.
  generalize (Nat.iter k (move_ref from to) m). intros m1 Hd Hbk Hf Hso Hg.
  split_and!; [exact Hd|exact Hbk|exact Hf| |].
  - by apply bt_insert_sorted, bt_insert_sorted.
  - intros i. rewrite move_ref_get by done. unfold held_refs. rewrite !Hg.
    rewrite (decide_True (P := from = from)), (decide_False (P := to = from)), (decide_True (P := to = to)) by congruence.
    simpl. destruct (decide (i = from)); [f_equal; lia|]. destruct (decide (i = to)); [f_equal; lia|done].
Qed.

(** The edges to a node. *)
Definition edge_readers c (i : nat) : nat := list_sum (map (fun slot => occ i (slot_inputs slot)) (nodes c)).

Lemma refs_of m P ex i n : held m P [] ex -> plan_at P i = Some n -> bt_get i (refs m) = Some (readers (dataflow m) i).
Proof. intros Hh Hn. rewrite (h_refs _ _ _ _ Hh), Hn. change (occ i []) with 0%nat. by rewrite Nat.add_0_r. Qed.

(** Counts move with what they count. *)
Lemma moved_held m c' P from to n k :
  held m P [] None \/ held m P [] (Some from) ->
  from <> to -> plan_at P from = Some n -> plan_at P to = Some n -> graph_ok (nodes c') P ->
  (k <= readers (dataflow m) from)%nat ->
  (forall i, readers c' i = if decide (i = from) then (readers (dataflow m) from - k)%nat
                            else if decide (i = to) then (readers (dataflow m) to + k)%nat
                            else readers (dataflow m) i) ->
  let m' := Nat.iter k (move_ref from to) (with_dataflow c' m) in
  held m' P [] (Some from) /\ dataflow m' = c' /\ same_books m m' /\ factory m' = factory m.
Proof.
  intros Hh Hne Hfrom Hto Hg Hk Hr.
  assert (bt_get from (refs m) = Some (readers (dataflow m) from)) as Hrf by (destruct Hh as [Hh|Hh]; by eapply refs_of).
  assert (bt_get to (refs m) = Some (readers (dataflow m) to)) as Hrt by (destruct Hh as [Hh|Hh]; by eapply refs_of).
  assert (bt_sorted (refs m)) as Hs by (destruct Hh as [Hh|Hh]; apply Hh).
  destruct (move_refs_spec k from to (with_dataflow c' m) _ _ Hne Hrf Hrt Hk Hs) as (Hd & Hb & Hf & Hso & Hget).
  intros m'. split_and!; [|exact Hd|exact Hb|exact Hf].
  split; [unfold m'; by rewrite Hd|exact Hso| |constructor|]; unfold m' in *; rewrite ?Hd.
  - intros i. rewrite Hget, Hr. change (occ i []) with 0%nat. rewrite Nat.add_0_r.
    destruct (decide (i = from)) as [->|]; [by rewrite Hfrom|]. destruct (decide (i = to)) as [->|]; [by rewrite Hto|].
    cbn [refs with_dataflow]. destruct (plan_at P i) as [x|] eqn:Ex; destruct Hh as [Hh|Hh].
    + by eapply refs_of.
    + by eapply refs_of.
    + rewrite (h_refs _ _ _ _ Hh). by rewrite Ex.
    + rewrite (h_refs _ _ _ _ Hh). by rewrite Ex.
  - intros i Hi. destruct (decide (i = from)) as [->|Hif]; [by right|left].
    rewrite Hr, decide_False by done. change (occ i []) with 0%nat.
    assert (0 < readers (dataflow m) i)%nat as Hpos.
    { destruct Hh as [Hh|Hh]; destruct (h_tight _ _ _ _ Hh i Hi) as [Hp|Hp]; try done;
        change (occ i []) with 0%nat in Hp; try lia. by injection Hp as ->. }
    destruct (decide (i = to)) as [->|]; lia.
Qed.

Lemma repoint_spec c sink node c' :
  repoint_sink c sink node = (c', Ok tt) ->
  exists s anc, sinks c !! sink = Some (Some s) /\ nodes c' = nodes c /\ epoch c' = epoch c /\
    sinks c' = <[sink := Some (mkSink node (sink_result s) (sink_errors s) anc)]> (sinks c).
Proof.
  unfold repoint_sink. destruct (node_output_schema c node) as [schema|]; [|done].
  unfold sink_at at 1. destruct (sinks c !! sink) as [[s|]|] eqn:Es; try done.
  destruct (negb _); [done|]. unfold refresh_ancestors, sink_at. cbn [sinks set_sink set_sinks].
  rewrite list_lookup_insert_eq by (by eapply lookup_lt_Some).
  destruct (ancestors_of _ _) as [anc|]; [|done]. intros [= <-]. exists s, anc. cbn. by rewrite list_insert_insert_eq.
Qed.

Lemma readers_last c c' old s s' i :
  nodes c' = nodes c -> sinks c = old ++ [Some s] -> sinks c' = old ++ [Some s'] ->
  (readers c' i + (if decide (sink_at_node s = i) then 1 else 0) =
   readers c i + (if decide (sink_at_node s' = i) then 1 else 0))%nat.
Proof.
  intros Hn Hs Hs'. unfold readers. rewrite Hn, Hs, Hs', !list_sum_map_app. simpl.
  destruct (Nat.eqb_spec (sink_at_node s) i), (Nat.eqb_spec (sink_at_node s') i); repeat case_decide; try done; lia.
Qed.

(** ** Giving one duplicate's readers away *)

Lemma rewire_within_spec m P resolved from to n old s m' resolved' :
  held m P [] None -> from <> to -> plan_at P from = Some n -> plan_at P to = Some n ->
  sinks (dataflow m) = old ++ [Some s] ->
  rewire_within m resolved from to (length old) = (m', Ok resolved') ->
  exists s', held m' P [] (Some from) /\ same_books m m' /\ resolved' = redirect from to resolved /\
    nodes (dataflow m') = map (redirect_slot from to) (nodes (dataflow m)) /\
    epoch (dataflow m') = epoch (dataflow m) /\ sinks (dataflow m') = old ++ [Some s'] /\
    sink_result s' = sink_result s /\ sink_errors s' = sink_errors s /\
    sink_at_node s' = (if decide (sink_at_node s = from) then to else sink_at_node s) /\
    (forall i slot, nodes (dataflow m) !! i = Some slot -> from ∈ slot_inputs slot -> (to < i)%nat).
Proof.
  intros Hh Hne Hfrom Hto Hsk. unfold rewire_within.
  destruct (rewire_inputs (dataflow m) from to) as [c1 [moved|]] eqn:Er; [|done].
  apply rewire_inputs_spec in Er as (Hn & Hs & He & Hm & Hlt).
  assert (graph_ok (nodes c1) P) as Hg1 by (rewrite Hn; eapply graph_ok_rewire; try done; apply Hh).
  destruct (moved_held m c1 P from to n moved) as (Hh1 & Hd1 & Hb1 & _); try done; [by left|..].
  { unfold readers. lia. }
  { intros i. unfold readers. rewrite Hn, Hs, sum_redirect by done. subst moved.
    destruct (decide (i = from)) as [->|]; [lia|]. destruct (decide (i = to)) as [->|]; lia. }
  revert Hh1 Hd1 Hb1. generalize (Nat.iter moved (move_ref from to) (with_dataflow c1 m)). intros m1 Hh1 Hd1 Hb1.
  assert (sinks (dataflow m1) = old ++ [Some s]) as Hsk1 by by rewrite Hd1, Hs.
  assert (sinks (dataflow m1) !! length old = Some (Some s)) as Hl.
  { rewrite Hsk1, lookup_app_r, Nat.sub_diag by done. done. }
  unfold sink_node at 1, sink_at at 1. rewrite Hl. destruct (Nat.eqb_spec (sink_at_node s) from) as [Heq|Hneq].
  2: { intros [= <- <-]. exists s. rewrite Hd1. split_and!; try done; [congruence|by rewrite decide_False]. }
  destruct (repoint_sink (dataflow m1) (length old) to) as [c2 [[]|]] eqn:Ep; [|done].
  apply repoint_spec in Ep as (s0 & anc & Hs0 & Hn2 & He2 & Hsk2).
  rewrite Hl in Hs0. injection Hs0 as <-. intros [= <- <-].
  set (s' := mkSink to (sink_result s) (sink_errors s) anc) in *.
  assert (sinks c2 = old ++ [Some s']) as Hsk2'.
  { rewrite Hsk2, Hsk1, insert_app_r_alt, Nat.sub_diag by done. done. }
  pose proof (fun i => readers_last (dataflow m1) c2 old s s' i Hn2 Hsk1 Hsk2') as Hr. simpl in Hr.
  destruct (moved_held m1 c2 P from to n 1) as (Hh2 & Hd2 & Hb2 & _); try done; [by right|..].
  { rewrite Hn2, Hd1. exact Hg1. }
  { specialize (Hr from). rewrite decide_True, decide_False in Hr by congruence. lia. }
  { intros i. specialize (Hr i). rewrite Heq in Hr. repeat case_decide; subst; try congruence; lia. }
  change (Nat.iter 1 (move_ref from to) ?x) with (move_ref from to x) in *. exists s'. rewrite Hd2.
  split_and!; try done.
  - rewrite Hn2, Hd1. exact Hn.
  - rewrite He2, Hd1. exact He.
  - by rewrite decide_True.
Qed.

(** ** The loop over the new nodes *)

(** What sharing leaves alone. *)
Definition same_registry m m' : Prop :=
  epoch (dataflow m') = epoch (dataflow m) /\ sharing m' = sharing m /\ memo_catalog m' = memo_catalog m /\
  inputs m' = inputs m /\ registrations m' = registrations m /\ next_handle m' = next_handle m.

Lemma same_registry_trans m1 m2 m3 : same_registry m1 m2 -> same_registry m2 m3 -> same_registry m1 m3.
Proof. intros (?&?&?&?&?&?) (?&?&?&?&?&?). split_and!; congruence. Qed.

Section loop.
Context (E : string -> Entries) (U : CircuitNode -> Prop) (N0 : nat) (top : CircuitNode) (old : list (option Sink)).
Context (P0 : list (option CircuitNode)).
Context (Hsep : forall n n', U n -> U n' -> subtree_hash n = subtree_hash n' -> n = n').
Abbreviation K := (length (walk top)).

(** Nodes below [lo] are settled: indexed, and one per subtree. *)
Record sharing_inv (lo : nat) m P (s : Sink) (resolved : list nat) : Prop := {
  si_held : held m P [] None;
  si_ops : forall i, op_at (nodes (dataflow m)) P E true i;
  si_lo : (N0 <= lo)%nat;
  si_todo : forall j, (lo <= j < N0 + K)%nat -> plan_at P j = walk top !! (j - N0)%nat;
  si_up : forall j, (lo <= j < N0 + K)%nat -> reaches (dataflow m) (sink_at_node s) j;
  si_known : forall i n, plan_at P i = Some n -> U n;
  si_bound : forall i n, plan_at P i = Some n -> (i < N0 + K)%nat;
  si_sorted : bt_sorted (by_hash m);
  si_hash : forall h i, bt_get h (by_hash m) = Some i -> (i < lo)%nat /\ exists n, plan_at P i = Some n /\ subtree_hash n = h;
  si_indexed : forall i n, (i < lo)%nat -> plan_at P i = Some n -> bt_get (subtree_hash n) (by_hash m) = Some i;
  si_sinks : sinks (dataflow m) = old ++ [Some s];
  si_old : forall s, Some s ∈ old -> (sink_at_node s < N0)%nat /\ sink_reach (dataflow m) P s /\
    sink_value P E true s /\ plan_at P (sink_at_node s) = plan_at P0 (sink_at_node s);
  si_value : sink_value P E true s;
  si_plan : plan_at P (sink_at_node s) = Some top;
  si_resolved : last resolved = Some (sink_at_node s);
  si_rest : forall k, (lo <= N0 + k < N0 + K)%nat -> resolved !! k = Some (N0 + k)%nat;
  si_labels : map (plan_at P) resolved = map Some (walk top)
}.

(** A novel subtree enters the index. *)
Lemma share_novel lo m P s resolved n :
  sharing_inv lo m P s resolved -> (lo < N0 + K)%nat -> plan_at P lo = Some n ->
  bt_get (subtree_hash n) (by_hash m) = None ->
  sharing_inv (S lo) (with_by_hash (bt_insert (subtree_hash n) lo (by_hash m)) m) P s resolved.
Proof.
  intros Hi Hlt Hn Hnone. destruct Hi as [[? ? ? ? ?] ? ? Htodo Hup ? ? Hso Hh Hx ? ? ? ? ? Hrest ?].
  split; try done; cbn [by_hash with_by_hash].
  - lia.
  - intros j Hj. apply Htodo. lia.
  - intros j Hj. apply Hup. lia.
  - by apply bt_insert_sorted.
  - intros h i. rewrite bt_get_insert. case_cmp_eqb h (subtree_hash n).
    + intros [= <-]. split; [lia|]. exists n. by subst.
    + intros Hb. destruct (Hh _ _ Hb) as [Hil Hex]. split; [lia|done].
  - intros i n' Hil Hn'. rewrite bt_get_insert. case_cmp_eqb (subtree_hash n') (subtree_hash n).
    + destruct (decide (i = lo)) as [->|]; [done|]. rewrite <- E0, (Hx i n') in Hnone by (done || lia). done.
    + apply Hx; [|done]. assert (i <> lo) by (intros ->; congruence). lia.
  - intros k Hk. apply Hrest. lia.
Qed.

(** A resolved node is the one the new sink reaches for its subtree, so it
    outlives the duplicate. *)
Lemma resolved_kept lo m P s resolved c P' s' existing k n i :
  sharing_inv lo m P s resolved -> NoDup (walk top) -> graph_ok (nodes c) P -> plan_at P (sink_at_node s') = Some top ->
  (forall j, (S lo <= j < N0 + K)%nat -> reaches c (sink_at_node s') j) ->
  (forall j, reaches c (sink_at_node s') j -> plan_at P' j = plan_at P j) -> plan_at P' lo = None ->
  (existing < lo)%nat -> plan_at P existing = plan_at P lo ->
  redirect lo existing resolved !! k = Some i -> walk top !! k = Some n -> plan_at P' i = Some n.
Proof.
  intros Hi Hnd Hg Htop Hup Hkept Hgone Hlt Hex Hk Hn. unfold redirect in Hk. change (map ?f ?l) with (f <$> l) in Hk.
  rewrite list_lookup_fmap in Hk. destruct (resolved !! k) as [i0|] eqn:Ek; [|done]. injection Hk as Hk.
  assert (plan_at P i = Some n /\ i <> lo) as [Hin Hil].
  { pose proof (si_labels _ _ _ _ _ Hi) as Hl. apply (f_equal (lookup k)) in Hl.
    change (map ?f ?l) with (f <$> l) in Hl. rewrite !list_lookup_fmap, Ek, Hn in Hl. injection Hl as Hl.
    destruct (Nat.eqb_spec i0 lo); subst; [split; [congruence|lia]|done]. }
  destruct (decide (i < lo)%nat) as [Hlo|Hge].
  2: { rewrite Hkept; [done|]. apply Hup. pose proof (si_bound _ _ _ _ _ Hi _ _ Hin). lia. }
  destruct (walk_reached c P _ _ n Hg Htop) as (j & Hr & Hj); [by eapply list_elem_of_lookup_2|].
  assert (plan_at P' j = Some n) as Hj' by by rewrite Hkept.
  assert (j <> lo) as Hjl by (intros ->; congruence).
  destruct (decide (j < lo)%nat) as [Hjlo|Hjge].
  - pose proof (si_indexed _ _ _ _ _ Hi i n Hlo Hin). pose proof (si_indexed _ _ _ _ _ Hi j n Hjlo Hj). congruence.
  - pose proof (si_bound _ _ _ _ _ Hi _ _ Hj). pose proof (si_lo _ _ _ _ _ Hi).
    pose proof (si_todo _ _ _ _ _ Hi j ltac:(lia)) as Ht. rewrite Hj in Ht.
    pose proof (NoDup_lookup _ _ _ _ Hnd (eq_sym Ht) Hn).
    rewrite (si_rest _ _ _ _ _ Hi k) in Ek by lia. injection Ek as <-.
    rewrite (proj2 (Nat.eqb_neq _ _)) in Hk by lia. by replace i with j by lia.
Qed.

Lemma redirect_last from to l i : last l = Some i -> last (redirect from to l) = Some (if (i =? from)%nat then to else i).
Proof. intros Hl. unfold redirect. change (map ?f l) with (f <$> l). by rewrite fmap_last, Hl. Qed.

(** Redirecting edges to [from] leaves what is upstream of nodes up to [from]. *)
Lemma edges_redirect c c' from to i :
  wired (nodes c) -> nodes c' = map (redirect_slot from to) (nodes c) -> (i <= from)%nat -> edges c' i = edges c i.
Proof.
  intros Hw Hn Hi. unfold edges. rewrite Hn. change (map ?f ?l) with (f <$> l). rewrite list_lookup_fmap.
  destruct (nodes c !! i) as [slot|] eqn:Es; [|done]. simpl. rewrite redirect_inputs. apply redirect_absent.
  intros Hin. pose proof (Hw _ _ Es) as Hf. rewrite Forall_forall in Hf. specialize (Hf _ Hin). lia.
Qed.

(** A path to a node above [from] does not use the redirected edges. *)
Lemma reaches_redirect c c' from to i j :
  wired (nodes c) -> nodes c' = map (redirect_slot from to) (nodes c) -> (from < j)%nat ->
  reaches c i j -> reaches c' i j.
Proof.
  intros Hw Hn Hj Hr. induction Hr as [|i k j slot Hs Hk Hr IH]; [constructor|].
  pose proof (reaches_le _ _ _ Hw Hr) as Hle.
  eapply (reaches_up _ _ k _ (redirect_slot from to slot)); [|rewrite redirect_inputs|by apply IH].
  - rewrite Hn. change (map ?f ?l) with (f <$> l). by rewrite list_lookup_fmap, Hs.
  - unfold redirect. apply list_elem_of_In, in_map_iff. exists k.
    split; [|by apply list_elem_of_In]. destruct (Nat.eqb_spec k from); [lia|done].
Qed.

Lemma op_at_redirect (ns : list Slot) P b i from to :
  op_at ns P E b i -> op_at (map (redirect_slot from to) ns) P E b i.
Proof.
  intros Ho op ids n Hop Hn. change (map ?f ?l) with (f <$> l) in Hop. rewrite list_lookup_fmap in Hop.
  destruct (ns !! i) as [[[t a s|op0 ids0]|]|] eqn:Es; try done. injection Hop as -> <-. by eapply Ho.
Qed.

Lemma op_at_shrinks m P m' P' b i :
  shrinks m P m' P' -> op_at (nodes (dataflow m)) P E b i -> op_at (nodes (dataflow m')) P' E b i.
Proof.
  intros Hs Ho op ids n. destruct (sh_nodes _ _ _ _ Hs i) as [[-> ->]|[-> _]]; [apply Ho|done].
Qed.

Lemma shrinks_live m P m' P' i n : shrinks m P m' P' -> plan_at P' i = Some n -> plan_at P i = Some n.
Proof. intros Hs Hn. destruct (sh_nodes _ _ _ _ Hs i) as [[_ <-]|[_ Hp]]; [done|congruence]. Qed.

Lemma shrinks_reaches m P m' P' s i :
  shrinks m P m' P' -> Some s ∈ sinks (dataflow m) -> reaches (dataflow m) (sink_at_node s) i ->
  reaches (dataflow m') (sink_at_node s) i.
Proof.
  intros Hs Hin Hr. eapply reaches_edges; [|exact Hr]. intros j Hj. by apply kept_edges, (sh_kept _ _ _ _ Hs s).
Qed.

Lemma shrinks_sink_reach m P m' P' s :
  shrinks m P m' P' -> Some s ∈ sinks (dataflow m) -> sink_reach (dataflow m) P s -> sink_reach (dataflow m') P' s.
Proof.
  intros Hs Hin. apply sink_reach_edges. intros i Hi. destruct (sh_kept _ _ _ _ Hs s i Hin Hi) as [Hn Hp].
  split; [by apply kept_edges|done].
Qed.

Lemma shrinks_sink_value m P m' P' b s :
  shrinks m P m' P' -> Some s ∈ sinks (dataflow m) -> sink_value P E b s -> sink_value P' E b s.
Proof.
  intros Hs Hin (n & Hn & Hv). exists n. split; [|done]. rewrite <- Hn. apply (sh_kept _ _ _ _ Hs s); [done|constructor].
Qed.

(** A duplicate hands its readers over and goes. *)
Lemma resolved_labels lo m P s resolved c P' s' existing :
  sharing_inv lo m P s resolved -> graph_ok (nodes c) P -> plan_at P (sink_at_node s') = Some top ->
  (forall j, (S lo <= j < N0 + K)%nat -> reaches c (sink_at_node s') j) ->
  (forall j, reaches c (sink_at_node s') j -> plan_at P' j = plan_at P j) -> plan_at P' lo = None ->
  (existing < lo)%nat -> plan_at P existing = plan_at P lo ->
  map (plan_at P') (redirect lo existing resolved) = map Some (walk top).
Proof.
  intros Hi Hg Htop Hup Hkept Hgone Hlt Hex. destruct (si_value _ _ _ _ _ Hi) as (n & Hn & _ & Hnd & _).
  rewrite (si_plan _ _ _ _ _ Hi) in Hn. injection Hn as <-. pose proof (f_equal length (si_labels _ _ _ _ _ Hi)) as Hl.
  rewrite !length_map in Hl. apply list_eq_same_length with K; [by rewrite length_map|unfold redirect; by rewrite !length_map|].
  intros k x y Hk. change (map ?f ?l) with (f <$> l). rewrite !list_lookup_fmap.
  destruct (redirect lo existing resolved !! k) as [i|] eqn:Ei; [|done]. destruct (walk top !! k) as [x'|] eqn:Ex; [|done].
  intros [= <-] [= <-]. by eapply resolved_kept.
Qed.

Lemma share_duplicate lo m P s resolved n existing m1 resolved1 m2 :
  sharing_inv lo m P s resolved -> (lo < N0 + K)%nat -> plan_at P lo = Some n ->
  bt_get (subtree_hash n) (by_hash m) = Some existing ->
  rewire_within m resolved lo existing (length old) = (m1, Ok resolved1) ->
  free_duplicate m1 lo = (m2, Ok tt) ->
  exists P' s', sharing_inv (S lo) m2 P' s' resolved1 /\ same_registry m m2.
Proof.
  intros Hi Hlt Hn Hb Hw Hf.
  destruct (si_hash _ _ _ _ _ Hi _ _ Hb) as (Hel & n' & Hn' & Hh').
  assert (n' = n) as -> by (apply Hsep; [by eapply si_known|by eapply si_known|done]).
  destruct (rewire_within_spec m P resolved lo existing n old s m1 resolved1) as
    (s' & Hh1 & Hbk & -> & Hns & He & Hsk & Hr & Hre & Hat & _);
    [apply Hi|lia|done|done|apply Hi|done|].
  destruct (free_duplicate_ok m1 P lo m2) as (P' & Hh2 & Hs & Hgone); [done|by exists n|done|].
  assert (wired (nodes (dataflow m))) as Hwd by (apply g_wired with P, Hi).
  assert (plan_at P (sink_at_node s') = Some top) as Htop.
  { rewrite Hat. pose proof (si_plan _ _ _ _ _ Hi). case_decide; [congruence|done]. }
  exists P', s'. destruct Hbk as (?&?&Hbh&?&?&?).
  destruct (sh_rest _ _ _ _ Hs) as (?&?&?&?&?&?). pose proof (sh_epoch _ _ _ _ Hs).
  split; [|by split_and!; congruence].
  assert (forall j, (S lo <= j < N0 + K)%nat -> reaches (dataflow m1) (sink_at_node s') j) as Hup.
  { intros j Hj. pose proof (si_up _ _ _ _ _ Hi j ltac:(lia)) as Hu. pose proof (reaches_le _ _ _ Hwd Hu).
    rewrite Hat, decide_False by lia. eapply reaches_redirect; [exact Hwd|exact Hns|lia|done]. }
  assert (Some s' ∈ sinks (dataflow m1)) as Hs' by (rewrite Hsk; apply elem_of_app; right; constructor).
  pose proof (si_sorted _ _ _ _ _ Hi) as Hso. rewrite <- Hbh in Hso. split.
  - done.
  - intros i. eapply op_at_shrinks; [done|]. rewrite Hns. apply op_at_redirect, Hi.
  - pose proof (si_lo _ _ _ _ _ Hi). lia.
  - intros j Hj. rewrite <- (si_todo _ _ _ _ _ Hi j ltac:(lia)). by apply (sh_kept _ _ _ _ Hs s'); [|apply Hup].
  - intros j Hj. eapply shrinks_reaches; [done..|]. by apply Hup.
  - intros i x Hx. eapply (si_known _ _ _ _ _ Hi), shrinks_live; done.
  - intros i x Hx. eapply (si_bound _ _ _ _ _ Hi), shrinks_live; done.
  - by apply (sh_hash_sorted _ _ _ _ Hs).
  - intros h i Hg. apply (sh_hash _ _ _ _ Hs Hso) in Hg as [Hg Hp]. rewrite Hbh in Hg.
    destruct (si_hash _ _ _ _ _ Hi _ _ Hg) as (Hil & x & Hx & Hxh). split; [lia|]. exists x. by rewrite Hp.
  - intros i x Hil Hx. apply (sh_hash_kept _ _ _ _ Hs Hso); [|by exists x]. rewrite Hbh.
    apply (si_indexed _ _ _ _ _ Hi); [|by eapply shrinks_live]. assert (i <> lo) by (intros ->; congruence). lia.
  - by rewrite (sh_sinks _ _ _ _ Hs).
  - intros s0 Hs0. destruct (si_old _ _ _ _ _ Hi s0 Hs0) as (Hl0 & Hr0 & Hv0 & Hp0). split; [done|].
    assert (Some s0 ∈ sinks (dataflow m1)) as Hin0 by (rewrite Hsk; apply elem_of_app; by left).
    split; [|split; [by eapply shrinks_sink_value|]].
    2: { rewrite <- Hp0. apply (sh_kept _ _ _ _ Hs s0 _ Hin0). constructor. }
    eapply shrinks_sink_reach; [done..|].
    eapply sink_reach_edges; [|exact Hr0]. intros i Hri. split; [|done]. eapply edges_redirect; [exact Hwd|exact Hns|].
    pose proof (reaches_le _ _ _ Hwd Hri). pose proof (si_lo _ _ _ _ _ Hi). lia.
  - eapply shrinks_sink_value; [done..|]. destruct (si_value _ _ _ _ _ Hi) as (x & Hx & Hok & Hv).
    rewrite (si_plan _ _ _ _ _ Hi) in Hx. injection Hx as <-. exists top. split; [done|].
    unfold stores_ok in *. by rewrite Hr, Hre.
  - rewrite <- Htop. apply (sh_kept _ _ _ _ Hs s'); [done|constructor].
  - rewrite (redirect_last _ _ _ _ (si_resolved _ _ _ _ _ Hi)), Hat.
    destruct (Nat.eqb_spec (sink_at_node s) lo); [by rewrite decide_True|by rewrite decide_False].
  - intros k Hk. unfold redirect. change (map ?f ?l) with (f <$> l). rewrite list_lookup_fmap, (si_rest _ _ _ _ _ Hi k) by lia.
    simpl. by rewrite (proj2 (Nat.eqb_neq _ _)) by lia.
  - apply (resolved_labels lo m P s resolved (dataflow m1) P' s' existing); try done; [apply Hh1| |congruence].
    intros j Hj. by apply (sh_kept _ _ _ _ Hs s').
Qed.

Lemma unique_plan m P s resolved i j n :
  sharing_inv (N0 + K) m P s resolved -> plan_at P i = Some n -> plan_at P j = Some n -> i = j.
Proof.
  intros Hi Hni Hnj.
  pose proof (si_indexed _ _ _ _ _ Hi i n (si_bound _ _ _ _ _ Hi _ _ Hni) Hni).
  pose proof (si_indexed _ _ _ _ _ Hi j n (si_bound _ _ _ _ _ Hi _ _ Hnj) Hnj). congruence.
Qed.

Lemma share_nodes_spec k lo m P s resolved private m' resolved' private' :
  sharing_inv lo m P s resolved -> (lo + k = N0 + K)%nat ->
  share_nodes (zip (seq lo k) (map subtree_hash (drop (lo - N0) (walk top)))) (length old) m resolved private =
    (m', Ok (resolved', private')) ->
  exists P' s', sharing_inv (N0 + K) m' P' s' resolved' /\ same_registry m m'.
Proof.
  revert lo m P s resolved private. induction k as [|k IH]; intros lo m P s resolved private Hi Hk.
  { cbn [seq zip zip_with share_nodes]. intros [= <- <- _]. exists P, s.
    replace (N0 + K)%nat with lo by lia. by split_and!. }
  pose proof (si_lo _ _ _ _ _ Hi) as Hlo.
  assert (is_Some (walk top !! (lo - N0)%nat)) as [n Hn] by (apply lookup_lt_is_Some; lia).
  pose proof (si_todo _ _ _ _ _ Hi lo ltac:(lia)) as Hp. rewrite Hn in Hp.
  rewrite (drop_S _ _ _ Hn). cbn [seq map zip zip_with share_nodes].
  replace (S (lo - N0)) with (S lo - N0)%nat by lia.
  destruct (bt_get (subtree_hash n) (by_hash m)) as [existing|] eqn:Eb.
  - destruct (si_hash _ _ _ _ _ Hi _ _ Eb) as [Hlt _].
    destruct (Nat.eqb_spec existing lo) as [|_]; [lia|].
    destruct (rewire_within _ _ _ _ _) as [m1 [resolved1|]] eqn:E1; [|done].
    destruct (free_duplicate m1 lo) as [m2 [[]|]] eqn:E2; [|done]. intros Hgo.
    destruct (share_duplicate _ _ _ _ _ _ _ _ _ _ Hi ltac:(lia) Hp Eb E1 E2) as (P1 & s1 & Hi1 & Hr1).
    destruct (IH _ _ _ _ _ _ Hi1 ltac:(lia) Hgo) as (P2 & s2 & Hi2 & Hr2).
    exists P2, s2. split; [done|]. by eapply same_registry_trans.
  - intros Hgo. destruct (IH _ _ _ _ _ _ (share_novel _ _ _ _ _ _ Hi ltac:(lia) Hp Eb) ltac:(lia) Hgo) as (P2 & s2 & Hi2 & Hr2).
    by exists P2, s2.
Qed.
End loop.

(** ** Settling a registration *)

(** The index: with sharing, one live node per subtree; without, nothing. *)
Record index_ok m P : Prop := {
  ix_sorted : bt_sorted (by_hash m);
  ix_sound : forall h i, bt_get h (by_hash m) = Some i -> exists n, plan_at P i = Some n /\ subtree_hash n = h;
  ix_full : sharing m = SharingOn -> forall i n, plan_at P i = Some n -> bt_get (subtree_hash n) (by_hash m) = Some i
}.

Lemma refresh_spec c old s c' :
  sinks c = old ++ [Some s] -> refresh_ancestors c (length old) = Ok c' ->
  exists anc, ancestors_of c (sink_at_node s) = Ok anc /\
    c' = set_sink c (length old) (mkSink (sink_at_node s) (sink_result s) (sink_errors s) anc) /\
    sinks c' = old ++ [Some (mkSink (sink_at_node s) (sink_result s) (sink_errors s) anc)].
Proof.
  intros Hs. unfold refresh_ancestors, sink_at. rewrite Hs, list_lookup_middle by done. cbn [bind ok_or].
  destruct (ancestors_of c (sink_at_node s)) as [anc|] eqn:E; [|done]. intros [= <-]. exists anc.
  split_and!; [done..|]. cbn [set_sink set_sinks sinks]. by rewrite Hs, insert_app_r_alt, Nat.sub_diag by done.
Qed.

(** Every new node is above the new sink's node. *)
Lemma joined_up E E0 b N0 top m P old s j :
  joined E E0 b N0 top m P old s -> (N0 <= j < N0 + length (walk top))%nat -> reaches (dataflow m) (sink_at_node s) j.
Proof.
  intros Hj Hjr. destruct (jo_value _ _ _ _ _ _ _ _ _ Hj) as (n & Hn & _ & Hnd & _).
  pose proof (h_graph _ _ _ _ (jo_held _ _ _ _ _ _ _ _ _ Hj)) as Hg.
  pose proof (jo_plan _ _ _ _ _ _ _ _ _ Hj) as Hp.
  assert (n = top) as ->.
  { rewrite (jo_at _ _ _ _ _ _ _ _ _ Hj), Hp in Hn by lia. rewrite walk_top in Hn. congruence. }
  assert (is_Some (walk top !! (j - N0)%nat)) as [x Hx] by (apply lookup_lt_is_Some; lia).
  destruct (walk_reached _ _ _ _ x Hg Hn (list_elem_of_lookup_2 _ _ _ Hx)) as (i & Hr & Hi).
  assert (N0 <= i)%nat as Hle.
  { eapply reaches_new; [exact (jo_closed _ _ _ _ _ _ _ _ _ Hj)| |exact Hr].
    rewrite (jo_at _ _ _ _ _ _ _ _ _ Hj). lia. }
  pose proof (plan_at_nodes _ _ _ Hg (mk_is_Some _ _ Hi)) as Hlt. rewrite (jo_length _ _ _ _ _ _ _ _ _ Hj) in Hlt.
  specialize (Hp (i - N0)%nat ltac:(lia)). replace (N0 + (i - N0))%nat with i in Hp by lia. rewrite Hi in Hp.
  symmetry in Hp. pose proof (NoDup_lookup _ _ _ _ Hnd Hp Hx). by replace j with i by lia.
Qed.

Lemma joined_top E E0 b N0 top m P old s :
  joined E E0 b N0 top m P old s -> plan_at P (sink_at_node s) = Some top.
Proof.
  intros Hj. rewrite (jo_at _ _ _ _ _ _ _ _ _ Hj), (jo_plan _ _ _ _ _ _ _ _ _ Hj); [apply walk_top|].
  pose proof (walk_pos top). lia.
Qed.

Lemma joined_ops E N0 top m P old s i :
  joined E E true N0 top m P old s -> op_at (nodes (dataflow m)) P E true i.
Proof.
  intros Hj. destruct (decide (i < N0)%nat) as [Hlt|Hge].
  - by apply (jo_old_ops _ _ _ _ _ _ _ _ _ Hj).
  - apply (jo_new_ops _ _ _ _ _ _ _ _ _ Hj). lia.
Qed.

Lemma joined_last E E0 b N0 top m P old s :
  joined E E0 b N0 top m P old s -> last (seq N0 (length (walk top))) = Some (sink_at_node s).
Proof.
  intros Hj. rewrite (jo_at _ _ _ _ _ _ _ _ _ Hj), last_lookup, length_seq. pose proof (walk_pos top).
  replace (pred (length (walk top))) with (length (walk top) - 1)%nat by lia. by rewrite lookup_seq_lt by lia.
Qed.

Lemma joined_labels E E0 b N0 top m P old s :
  joined E E0 b N0 top m P old s -> map (plan_at P) (seq N0 (length (walk top))) = map Some (walk top).
Proof.
  intros Hj. apply list_eq_same_length with (length (walk top)); [by rewrite length_map|by rewrite length_map, length_seq|].
  intros k x y Hk. change (map ?f ?l) with (f <$> l). rewrite !list_lookup_fmap, lookup_seq_lt by done. simpl.
  rewrite (jo_plan _ _ _ _ _ _ _ _ _ Hj) by done. destruct (walk top !! k); [|done]. by intros [= <-] [= <-].
Qed.

(** [l] lists the nodes above a sink, each once. *)
Definition lists_nodes (l : list nat) (s : Sink) : Prop :=
  NoDup l /\ forall i, i ∈ l <-> bt_contains i (sink_ancestors s) = true.

Lemma labelled_nodes c P s top l :
  graph_ok (nodes c) P -> sink_reach c P s -> plan_at P (sink_at_node s) = Some top -> NoDup (walk top) ->
  map (plan_at P) l = map Some (walk top) -> (forall i, i ∈ l -> reaches c (sink_at_node s) i) -> lists_nodes l s.
Proof.
  intros Hg [Ha Hu] Htop Hnd Hl Hr. split.
  - apply (NoDup_fmap_1 (plan_at P)). change (plan_at P <$> l) with (map (plan_at P) l). rewrite Hl.
    by apply (NoDup_fmap_2 Some).
  - intros i. rewrite Ha. split; [apply Hr|]. intros Hi. destruct (reaches_plan _ _ _ _ _ Hg Hi Htop) as (n & Hn & Hin).
    apply (list_elem_of_fmap_2 Some) in Hin. change (Some <$> walk top) with (map Some (walk top)) in Hin. rewrite <- Hl in Hin.
    apply list_elem_of_fmap in Hin as (j & Hj & Hjl). replace i with j; [done|]. by apply (Hu j i n); [apply Hr|..].
Qed.

Section settle.
Context (E : string -> Entries) (U : CircuitNode -> Prop) (N0 : nat) (top : CircuitNode).
Context (Hsep : forall n n', U n -> U n' -> subtree_hash n = subtree_hash n' -> n = n').

(** The index before the new nodes are entered. *)
Definition index_below m P : Prop :=
  bt_sorted (by_hash m) /\
  (forall h i, bt_get h (by_hash m) = Some i -> (i < N0)%nat /\ exists n, plan_at P i = Some n /\ subtree_hash n = h) /\
  (sharing m = SharingOn -> forall i n, (i < N0)%nat -> plan_at P i = Some n -> bt_get (subtree_hash n) (by_hash m) = Some i).

(** A registration in place: all invariants, and the new sink answers for [top]. *)
Definition settled P0 m P (old : list (option Sink)) (resolved : list nat) : Prop :=
  flow_inv E m P /\ index_ok m P /\ (forall i n, plan_at P i = Some n -> U n) /\
  (forall s, Some s ∈ old -> plan_at P (sink_at_node s) = plan_at P0 (sink_at_node s)) /\
  exists s, sinks (dataflow m) = old ++ [Some s] /\ plan_at P (sink_at_node s) = Some top /\
    last resolved = Some (sink_at_node s) /\ lists_nodes resolved s.

Lemma joined_sharing m P old s :
  joined E E true N0 top m P old s -> (forall i n, plan_at P i = Some n -> U n) -> index_below m P ->
  sharing m = SharingOn -> sharing_inv E U N0 top old P N0 m P s (seq N0 (length (walk top))).
Proof.
  intros Hj Hk (Hso & Hh & Hx) Hon. split; try done.
  - exact (jo_held _ _ _ _ _ _ _ _ _ Hj).
  - intros i. by eapply joined_ops.
  - intros j Hjr. rewrite <- (jo_plan _ _ _ _ _ _ _ _ _ Hj) by lia. f_equal. lia.
  - intros j Hjr. by eapply joined_up.
  - intros i n Hn. rewrite <- (jo_length _ _ _ _ _ _ _ _ _ Hj).
    by apply (plan_at_nodes _ _ _ (h_graph _ _ _ _ (jo_held _ _ _ _ _ _ _ _ _ Hj))).
  - by apply Hx.
  - exact (jo_sinks _ _ _ _ _ _ _ _ _ Hj).
  - intros s0 Hs0. by destruct (jo_old _ _ _ _ _ _ _ _ _ Hj s0 Hs0) as (?&?&?).
  - exact (jo_value _ _ _ _ _ _ _ _ _ Hj).
  - by eapply joined_top.
  - by eapply joined_last.
  - intros k Hkr. by rewrite lookup_seq_lt by lia.
  - by eapply joined_labels.
Qed.

(** Without sharing the new nodes stay as they are. *)
Lemma settle_off m P old s :
  joined E E true N0 top m P old s -> (forall i n, plan_at P i = Some n -> U n) -> index_below m P ->
  sharing m = SharingOff -> settled P m P old (seq N0 (length (walk top))).
Proof.
  intros Hj Hk (Hso & Hh & Hx) Hoff. split; [|split; [|split; [done|split; [done|]]]].
  - split; [exact (jo_held _ _ _ _ _ _ _ _ _ Hj)| |].
    + intros i. by eapply joined_ops.
    + rewrite (jo_sinks _ _ _ _ _ _ _ _ _ Hj). intros s0 [Hs0|Hs0]%elem_of_app.
      * by apply (jo_old _ _ _ _ _ _ _ _ _ Hj).
      * apply list_elem_of_singleton in Hs0. injection Hs0 as ->.
        split; [exact (jo_reach _ _ _ _ _ _ _ _ _ Hj)|exact (jo_value _ _ _ _ _ _ _ _ _ Hj)].
  - split; [done| |congruence]. intros h i Hg. by apply Hh in Hg as [_ Hg].
  - exists s. split; [exact (jo_sinks _ _ _ _ _ _ _ _ _ Hj)|].
    split; [by eapply joined_top|]. split; [by eapply joined_last|].
    destruct (jo_value _ _ _ _ _ _ _ _ _ Hj) as (n & Hn & _ & Hnd & _). rewrite (joined_top _ _ _ _ _ _ _ _ _ Hj) in Hn. injection Hn as <-.
    apply (labelled_nodes (dataflow m) P s top).
    + exact (h_graph _ _ _ _ (jo_held _ _ _ _ _ _ _ _ _ Hj)).
    + exact (jo_reach _ _ _ _ _ _ _ _ _ Hj).
    + by eapply joined_top.
    + done.
    + by eapply joined_labels.
    + intros i Hi%elem_of_seq. by eapply joined_up.
Qed.

(** The refreshed ancestors of the new sink. *)
Lemma refreshed_sink P0 m P old s resolved anc :
  sharing_inv E U N0 top old P0 (N0 + length (walk top)) m P s resolved ->
  ancestors_of (dataflow m) (sink_at_node s) = Ok anc ->
  let s' := mkSink (sink_at_node s) (sink_result s) (sink_errors s) anc in
  sink_reach (dataflow m) P s' /\ lists_nodes resolved s'.
Proof.
  intros Hi Hanc s'. pose proof (h_graph _ _ _ _ (si_held _ _ _ _ _ _ _ _ _ _ _ Hi)) as Hg.
  pose proof (si_plan _ _ _ _ _ _ _ _ _ _ _ Hi) as Hp.
  destruct (si_value _ _ _ _ _ _ _ _ _ _ _ Hi) as (n & Hn & _ & Hnd & _). rewrite Hp in Hn. injection Hn as <-.
  assert (sink_reach (dataflow m) P s') as Hsr.
  { split; [intros k; apply (ancestors_of_spec _ _ _ Hanc k)|]. intros i j n _ _ Hi' Hj'. by eapply unique_plan. }
  split; [done|]. pose proof (si_labels _ _ _ _ _ _ _ _ _ _ _ Hi) as Hl.
  apply (labelled_nodes (dataflow m) P s' top); try done.
  intros i Hin. apply (list_elem_of_fmap_2 (plan_at P)) in Hin. change (plan_at P <$> resolved) with (map (plan_at P) resolved) in Hin.
  rewrite Hl in Hin. apply list_elem_of_fmap in Hin as (n & Hn & Hw).
  destruct (walk_reached _ _ _ _ _ Hg Hp Hw) as (j & Hr & Hj). by rewrite (unique_plan _ _ _ _ _ _ _ _ _ _ i j n Hi Hn Hj).
Qed.

(** With sharing, refreshing the ancestors makes the new sink see one node per subtree. *)
Lemma sharing_settled P0 m P old s resolved c' :
  sharing_inv E U N0 top old P0 (N0 + length (walk top)) m P s resolved ->
  refresh_ancestors (dataflow m) (length old) = Ok c' ->
  settled P0 (with_dataflow c' m) P old resolved /\ same_registry m (with_dataflow c' m).
Proof.
  intros Hi Hr. destruct (refresh_spec _ _ _ _ (si_sinks _ _ _ _ _ _ _ _ _ _ _ Hi) Hr) as (anc & Hanc & Hc & Hsk).
  assert (nodes c' = nodes (dataflow m)) as Hn by by rewrite Hc.
  destruct (refreshed_sink _ _ _ _ _ _ _ Hi Hanc) as [Hsr Hlist].
  set (s' := mkSink (sink_at_node s) (sink_result s) (sink_errors s) anc) in *.
  split; [|rewrite Hc; by split_and!]. split; [|split; [|split; [|split]]].
  - split.
    + pose proof (si_held _ _ _ _ _ _ _ _ _ _ _ Hi) as Hh.
      apply held_readers; [rewrite Hn; apply Hh| |done]. intros i.
      pose proof (readers_last _ _ _ _ _ i Hn (si_sinks _ _ _ _ _ _ _ _ _ _ _ Hi) Hsk). simpl in *. lia.
    + cbn [dataflow with_dataflow]. rewrite Hn. exact (si_ops _ _ _ _ _ _ _ _ _ _ _ Hi).
    + cbn [dataflow with_dataflow]. rewrite Hsk. intros s0 [Hs0|Hs0]%elem_of_app.
      * destruct (si_old _ _ _ _ _ _ _ _ _ _ _ Hi s0 Hs0) as (_ & Hreach & Hv & _). split; [|done].
        eapply sink_reach_edges; [|exact Hreach]. intros i _. unfold edges. by rewrite Hn.
      * apply list_elem_of_singleton in Hs0. injection Hs0 as ->.
        split; [|exact (si_value _ _ _ _ _ _ _ _ _ _ _ Hi)].
        eapply sink_reach_edges; [|exact Hsr]. intros i _. unfold edges. by rewrite Hn.
  - split; [exact (si_sorted _ _ _ _ _ _ _ _ _ _ _ Hi)| |].
    + intros h i Hg. by apply (si_hash _ _ _ _ _ _ _ _ _ _ _ Hi) in Hg as [_ Hg].
    + intros _ i n Hp. apply (si_indexed _ _ _ _ _ _ _ _ _ _ _ Hi); [|done].
      by apply (si_bound _ _ _ _ _ _ _ _ _ _ _ Hi) in Hp.
  - exact (si_known _ _ _ _ _ _ _ _ _ _ _ Hi).
  - intros s0 Hs0. by destruct (si_old _ _ _ _ _ _ _ _ _ _ _ Hi s0 Hs0) as (_ & _ & _ & ?).
  - exists s'. split; [done|]. split; [exact (si_plan _ _ _ _ _ _ _ _ _ _ _ Hi)|].
    split; [exact (si_resolved _ _ _ _ _ _ _ _ _ _ _ Hi)|done].
Qed.

Lemma settle_spec m P old s m' resolved private :
  joined E E true N0 top m P old s -> (forall i n, plan_at P i = Some n -> U n) -> index_below m P ->
  settle m (length old) (seq N0 (length (walk top))) (map subtree_hash (walk top)) = (m', Ok (resolved, private)) ->
  exists P', settled P m' P' old resolved /\ same_registry m m'.
Proof.
  intros Hj Hk Hix. unfold settle. destruct (sharing m) eqn:Esh.
  - destruct (share_nodes _ _ _ _ _) as [m1 [[resolved1 private1]|]] eqn:E1; [|done].
    destruct (refresh_ancestors (dataflow m1) _) as [c'|] eqn:E2; [|done]. intros [= <- <- <-].
    destruct (share_nodes_spec E U N0 top old P Hsep (length (walk top)) N0 m P s _ [] m1 resolved1 private1
      (joined_sharing _ _ _ _ Hj Hk Hix Esh) eq_refl) as (P1 & s1 & Hi1 & Hr1).
    { rewrite Nat.sub_diag, drop_0. exact E1. }
    destruct (sharing_settled _ _ _ _ _ _ _ Hi1 E2) as [Hs2 Hr2]. exists P1. split; [done|].
    by eapply same_registry_trans.
  - intros [= <- <- _]. exists P. split; [by eapply settle_off|by split_and!].
Qed.
End settle.
End share.
