(* ===== verification/MemoCorrect.v ===== *)
(** * The registry keeps every standing query right

    A run of the registry: any sequence of registrations, deregistrations and
    sealed epochs.  Whatever it shares, every standing query answers as its own
    circuit would alone; retiring a query always works and frees what only it
    used; the audit never finds a miscount.

    Its later part: what a registry holds. *)

From Stdlib Require Import ZArith Lia.
From stdpp Require Import base list strings pretty.
From S2P Require Import Prelude BTree ZAlg Value ZSet Plan Bind Codec State Operator Linear Distinct Join Aggregate ResultStore Circuit Dataflow Engine Compile PlanForm MemoGraph Memo MemoAttach MemoShare.

(** ** The input cache *)

(** What the cache holds of a table. *)
Definition cached (cache : btree string ZSetBatch) (t : string) : Entries :=
  match bt_get t cache with Some b => batch_entries b | None => [] end.

Lemma consolidate_zeq b b' : consolidate b = Ok b' -> batch_entries b' ≡z batch_entries b.
Proof.
  unfold consolidate. destruct (consolidated_entries b) as [es|] eqn:E; [|done]. cbn [bind].
  intros ->%from_entries_inv. by apply consolidated_entries_spec in E as [_ E].
Qed.

Lemma add_entries a b sum : ZSet.add a b = Ok sum -> batch_entries sum = batch_entries a ++ batch_entries b.
Proof. unfold ZSet.add, entries. destruct (negb _); [done|]. cbn [bind]. by intros ->%from_entries_inv. Qed.

Section cache.
Context {F B : Type} `{StateBackend B} `{BackendFactory F B}.
Implicit Type m : Memo F B.

Lemma cache_table_zeq m cache p cache' :
  bt_sorted cache -> cache_table m cache p = Ok cache' ->
  bt_sorted cache' /\ forall t, cached cache' t ≡z cached cache t ++ (if cmp_eqb t p.1 then p.2 else []).
Proof.
  intros Hso. unfold cache_table. destruct (table_schema m p.1) as [schema|]; [|done]. cbn [bind].
  destruct (from_entries schema p.2) as [b|] eqn:Eb; [|done]. apply from_entries_inv in Eb as ->. cbn [bind map_err].
  assert (forall merged, batch_entries merged ≡z cached cache p.1 ++ p.2 ->
    forall t, cached (bt_insert p.1 merged cache) t ≡z cached cache t ++ (if cmp_eqb t p.1 then p.2 else [])) as Hgo.
  { intros merged Hz t. unfold cached at 1. rewrite bt_get_insert. case_cmp_eqb t p.1; [by subst|].
    rewrite app_nil_r. done. }
  destruct (bt_get p.1 cache) as [held|] eqn:Eg.
  - destruct (ZSet.add held _) as [sum|] eqn:Ea; [|done]. apply add_entries in Ea. cbn [bind].
    destruct (consolidate sum) as [merged|] eqn:Ec; [|done]. intros [= <-].
    split; [by apply bt_insert_sorted|]. apply Hgo. apply consolidate_zeq in Ec. rewrite Ec, Ea. unfold cached. by rewrite Eg.
  - destruct (consolidate (mkBatch schema p.2)) as [merged|] eqn:Ec; [|done]. intros [= <-].
    split; [by apply bt_insert_sorted|]. apply Hgo. apply consolidate_zeq in Ec. rewrite Ec. unfold cached. by rewrite Eg.
Qed.

(** Caching an epoch adds it. *)
Lemma cache_tables_zeq m l cache cache' :
  bt_sorted l -> bt_sorted cache -> cache_tables m cache l = (cache', Ok tt) ->
  bt_sorted cache' /\ forall t, cached cache' t ≡z cached cache t ++ default [] (bt_get t l).
Proof.
  revert cache. induction l as [|[k es] l IH]; intros cache Hl Hso; cbn [cache_tables].
  { intros [= <-]. split; [done|]. intros t. simpl. by rewrite app_nil_r. }
  destruct (cache_table m cache (k, es)) as [cache1|] eqn:E1; [|done]. intros Hgo.
  apply bt_sorted_cons_inv in Hl as [Hl Hk].
  destruct (cache_table_zeq _ _ _ _ Hso E1) as [Hso1 Hz1].
  destruct (IH _ Hl Hso1 Hgo) as [Hso2 Hz2]. split; [done|]. intros t. rewrite Hz2, Hz1, bt_get_cons. cbn [fst snd].
  case_cmp_eqb t k; [|by rewrite app_nil_r]. subst. rewrite bt_get_below; [|done]. simpl. by rewrite app_nil_r.
Qed.

(** The accumulated delta is the cache. *)
Lemma accumulated_zeq m cache d t :
  inputs m = Some cache -> bt_sorted cache -> accumulated_deltas m = Ok d -> entries_for d t ≡z cached cache t.
Proof.
  intros Hin Hso. unfold accumulated_deltas. rewrite Hin. cbn [ok_or bind].
  change (cached cache t) with (entries_for deltas_new t ++ cached cache t).
  clear Hin. generalize deltas_new. induction cache as [|[k b] l IH]; intros d0; cbn [try_fold].
  { intros [= <-]. unfold cached. simpl. by rewrite app_nil_r. }
  cbn [fst snd]. destruct (canonical b) as [can|] eqn:Ec; [|done]. cbn [bind map_err]. intros Hgo.
  apply bt_sorted_cons_inv in Hso as [Hl Hk].
  rewrite (IH Hl _ Hgo), entries_for_extend, <- app_assoc. unfold cached at 2. rewrite bt_get_cons.
  case_cmp_eqb t k; [|done]. subst. unfold cached. rewrite bt_get_below by done. rewrite app_nil_r.
  by rewrite (canonical_zeq _ _ Ec).
Qed.
End cache.

(** ** The contract *)

(** What a registry promises, without circuits: the standing queries by handle,
    the epochs sealed so far, the epoch counter and the next handle. *)
Record Standing := mkStanding {
  queries : btree Z CircuitPlan;
  sealed : list EpochDeltas;
  at_epoch : Z;
  issued : Z
}.

Definition nothing_standing : Standing := mkStanding bt_empty [] 0 0.

(** A read: the plan over everything sealed. *)
Definition standing_read (st : Standing) (h : Z) : result MemoError (Z * Canonical) :=
  match bt_get h (queries st) with
  | None => Err (UnknownHandle h)
  | Some plan =>
      let? ans := map_err MCircuit (answer_over (emitted_schema (root plan))
                    (plan_data (accumulate (sealed st)) true (root plan))
                    (plan_errs (accumulate (sealed st)) true (root plan))) in
      Ok (at_epoch st, ans)
  end.

Definition stand (st : Standing) (plan : CircuitPlan) : Standing :=
  mkStanding (bt_insert (issued st) plan (queries st)) (sealed st) (at_epoch st) (issued st + 1).

Definition retire (st : Standing) (h : Z) : Standing :=
  mkStanding (bt_remove h (queries st)) (sealed st) (at_epoch st) (issued st).

Definition seal (st : Standing) (d : EpochDeltas) : Standing :=
  mkStanding (queries st) (sealed st ++ [d]) (at_epoch st + 1) (issued st).

Definition skip_to (st : Standing) (e : Z) : Standing :=
  mkStanding (queries st) (sealed st) e (issued st).

Section registry.
Context {F B : Type} `{FactoryLaws F B} `{Debug}.
Implicit Type (m : Memo F B) (c : Circuit (AnyOp B)) (P : list (option CircuitNode)).

(** ** Registering *)

(** The batches a registration's catch-up emits stay within machine range. *)
Definition register_small m (plan : CircuitPlan) (adm : Admission) (chunks : list EpochDeltas) : bool :=
  let plan_nodes := walk_at [] (root (canonicalize plan)) in
  match attach_nodes plan_nodes plan_nodes (admits_unbounded adm) m [] with
  | (m, Ok fresh) =>
      match last fresh with
      | Some top => match add_sink (dataflow m) top with
                    | Ok (c, _) => feed_small c chunks fresh
                    | Err _ => true
                    end
      | None => true
      end
  | (_, Err _) => true
  end.

(** The invariants look at the circuit, the counts and the index only. *)
Lemma held_books m m' P pend ex :
  dataflow m' = dataflow m -> refs m' = refs m -> held m P pend ex -> held m' P pend ex.
Proof. intros Hd Hr [? ? ? ? ?]. split; rewrite ?Hd, ?Hr; done. Qed.

Lemma flow_inv_books E m m' P : dataflow m' = dataflow m -> refs m' = refs m -> flow_inv E m P -> flow_inv E m' P.
Proof. intros Hd Hr [Hh Ho Hs]. split; rewrite ?Hd; [by eapply held_books|done..]. Qed.

Lemma index_ok_books m m' P : by_hash m' = by_hash m -> sharing m' = sharing m -> index_ok m P -> index_ok m' P.
Proof. intros Hb Hs [? ? ?]. split; rewrite ?Hb, ?Hs; done. Qed.

Section joining.
Context (E : string -> Entries) (U : CircuitNode -> Prop).
Context (Hsep : forall n n', U n -> U n' -> subtree_hash n = subtree_hash n' -> n = n').

Lemma index_below_labels m0 P0 top k m :
  graph_ok (nodes (dataflow m0)) P0 -> index_ok m0 P0 -> by_hash m = by_hash m0 -> sharing m = sharing m0 ->
  index_below (length (nodes (dataflow m0))) m (labels_upto P0 top k).
Proof.
  intros Hg [Hso Hs Hf] Hb Hsh. unfold index_below. rewrite Hb, Hsh, <- (g_length _ _ Hg). split; [done|]. split.
  - intros h i Hi. destruct (Hs _ _ Hi) as (n & Hn & Hh). split; [by eapply plan_at_lt|].
    exists n. split; [|done]. unfold labels_upto. rewrite plan_at_app_l; [done|by eapply plan_at_lt].
  - intros Hon i n Hi Hn. apply (Hf Hon). unfold labels_upto in Hn. by rewrite plan_at_app_l in Hn.
Qed.

Lemma known_labels P0 top k :
  (forall i n, plan_at P0 i = Some n -> U n) -> (forall n, n ∈ walk top -> U n) ->
  forall i n, plan_at (labels_upto P0 top k) i = Some n -> U n.
Proof.
  intros Hp0 Ht i n. unfold labels_upto, plan_at. intros Hn.
  destruct (decide (i < length P0)%nat) as [Hlt|Hge].
  - rewrite lookup_app_l in Hn by done. by apply (Hp0 i).
  - rewrite lookup_app_r in Hn by lia. change (map Some ?l) with (Some <$> l) in Hn. rewrite list_lookup_fmap in Hn.
    destruct (take k (walk top) !! _) as [x|] eqn:Ex; [|done]. injection Hn as <-.
    apply Ht. apply list_elem_of_lookup_2, elem_of_take in Ex as (j & Hj & _). by eapply list_elem_of_lookup_2.
Qed.

(** The new nodes are in the circuit. *)
Lemma attach_all_spec m P top adm m1 fresh :
  flow_inv E m P -> attach_nodes (walk_at [] top) (walk_at [] top) adm m [] = (m1, Ok fresh) ->
  attached m P top (length (walk_at [] top)) m1 fresh.
Proof.
  intros Hf Ha. pose proof (fi_held _ _ _ Hf) as Hh. pose proof (h_graph _ _ _ _ Hh) as Hg.
  eapply (attach_nodes_spec m P top Hg) with (k := 0%nat) (todo := walk_at [] top); [|apply attached_nil; [done|apply Hh|]|done|exact Ha].
  - intros s Hs. destruct (fi_sinks _ _ _ Hf s Hs) as [_ Hv]. by eapply sink_value_live.
  - intros i. rewrite (h_refs _ _ _ _ Hh). change (occ i []) with 0%nat. by rewrite Nat.add_0_r.
Qed.

(** They have caught up with the tables. *)
Lemma caught_up_spec m P top m1 fresh top_id c sink chunks c' :
  flow_inv E m P -> NoDup (walk top) -> attached m P top (length (walk_at [] top)) m1 fresh ->
  last fresh = Some top_id -> add_sink (dataflow m1) top_id = Ok (c, sink) ->
  chunks <> [] -> (forall t, accumulate chunks t ≡z E t) ->
  feed_small c chunks fresh = true -> feed_all c chunks fresh = (c', Ok tt) ->
  exists s old, joined E E true (length (nodes (dataflow m))) top (with_dataflow c' (bump (with_dataflow c m1) top_id))
      (labels_upto P top (length (walk top))) old s /\
    fresh = seq (length (nodes (dataflow m))) (length (walk top)) /\
    sink = length (sinks (dataflow m)) /\ Forall2 same_sink (sinks (dataflow m)) old /\
    epoch c' = epoch (dataflow m) /\ same_books m (with_dataflow c' (bump (with_dataflow c m1) top_id)).
Proof.
  intros Hf Hnd Hat Hl Hadd Hne HE Hsm Hfeed. pose proof (attached_all _ _ _ _ _ Hat) as Ha.
  pose proof (at_fresh _ _ _ _ _ _ Ha) as ->. pose proof (walk_pos top).
  assert (top_id = length (nodes (dataflow m)) + (length (walk top) - 1))%nat as ->.
  { rewrite last_lookup, length_seq, lookup_seq_lt in Hl by lia. injection Hl as <-. lia. }
  destruct (joined_start _ _ _ _ _ _ _ _ Hf Hnd Hat Hadd) as (s0 & Hj0 & ->).
  destruct (feed_all_joined chunks _ _ _ _ _ _ _ _ _ c' Hj0 Hsm Hfeed) as (s & old & Hj & _ & Hold & He).
  rewrite bool_decide_true in Hj by done. exists s, old. split; [by eapply joined_proper|].
  split_and!; try done.
  - rewrite He. cbn [dataflow bump with_refs with_dataflow]. apply add_sink_spec in Hadd as (? & ? & ? & _ & _ & _ & -> & _).
    apply (at_sinks _ _ _ _ _ _ Ha).
  - exact (at_books _ _ _ _ _ _ Ha).
Qed.

Lemma register_catching_up_spec m P plan adm chunks m' h :
  flow_inv E m P -> index_ok m P -> (forall i n, plan_at P i = Some n -> U n) ->
  NoDup (walk (root (canonicalize plan))) -> (forall n, n ∈ walk (root (canonicalize plan)) -> U n) ->
  chunks <> [] -> (forall t, accumulate chunks t ≡z E t) -> register_small m plan adm chunks = true ->
  register_catching_up m plan adm chunks = (m', Ok h) ->
  exists P1 P' old resolved private,
    settled E U (root (canonicalize plan)) P1 m' P' old resolved /\ Forall2 same_sink (sinks (dataflow m)) old /\
    (forall i, (i < length P)%nat -> plan_at P1 i = plan_at P i) /\
    h = next_handle m /\ next_handle m' = as_u64 (h + 1) /\
    registrations m' = bt_insert h (mkRegistration h (length (sinks (dataflow m))) (canonicalize plan) resolved private adm
                                      (epoch (dataflow m))) (registrations m) /\
    epoch (dataflow m') = epoch (dataflow m) /\ inputs m' = inputs m /\ sharing m' = sharing m.
Proof.
  intros Hf Hix Hk Hnd Hu Hne HE. unfold register_small, register_catching_up.
  set (top := root (canonicalize plan)) in *.
  destruct (attach_nodes _ _ _ _ _) as [m1 [fresh|]] eqn:Ea; [|done].
  pose proof (attach_all_spec _ _ _ _ _ _ Hf Ea) as Hat.
  destruct (last fresh) as [top_id|] eqn:El; [|done]. cbn [ok_or bind].
  destruct (add_sink (dataflow m1) top_id) as [[c sink]|] eqn:Eadd; [|done]. cbn [bind map_err].
  change (dataflow (bump (with_dataflow c m1) top_id)) with c. intros Hsm.
  destruct (feed_all c chunks fresh) as [c' [[]|]] eqn:Efeed; [|done].
  destruct (caught_up_spec _ _ _ _ _ _ _ _ _ _ Hf Hnd Hat El Eadd Hne HE Hsm Efeed)
    as (s & old & Hj & -> & -> & Hold & He & Hb).
  set (m2 := with_dataflow c' (bump (with_dataflow c m1) top_id)) in *.
  destruct (settle m2 _ _ _) as [m3 [[resolved private]|]] eqn:Es; [|done]. intros [= <- <-].
  rewrite (Forall2_length _ _ _ Hold) in Es.
  replace (map _ (walk_at [] top)) with (map subtree_hash (walk top)) in Es
    by (by rewrite <- (walk_at_snd [] top), map_map).
  destruct Hb as (Hsh & _ & Hbh & Hin & Hreg & Hnext).
  assert (index_below (length (nodes (dataflow m))) m2 (labels_upto P top (length (walk top)))) as Hbelow
    by (apply index_below_labels; [apply (fi_held _ _ _ Hf)|done..]).
  destruct (settle_spec E U _ top Hsep _ _ _ _ _ _ _ Hj (known_labels _ _ _ Hk Hu) Hbelow Es)
    as (P' & Hs & He3 & Hsh3 & _ & Hin3 & Hreg3 & Hnext3).
  exists (labels_upto P top (length (walk top))), P', old, resolved, private.
  split; [destruct Hs as (?&?&?); split; [by apply (flow_inv_books E m3)|split; [by apply (index_ok_books m3)|done]]|].
  split; [done|]. split; [intros i Hi; unfold labels_upto; by apply plan_at_app_l|].
  cbn [next_handle registrations with_registrations dataflow inputs sharing].
  rewrite He3, Hreg3, Hnext3, Hin3, Hsh3, Hreg, Hnext, Hin, Hsh, <- He. split_and!; try done.
Qed.
End joining.

(** ** The invariant of a registry *)

(** Registration [r] keeps [plan] at a live sink. *)
Definition keeps m P (r : Registration) (plan : CircuitPlan) : Prop :=
  reg_plan r = canonicalize plan /\
  exists s, sinks (dataflow m) !! reg_sink r = Some (Some s) /\
    plan_at P (sink_at_node s) = Some (root (canonicalize plan)) /\ last (reg_nodes r) = Some (sink_at_node s) /\
    lists_nodes (reg_nodes r) s.

Record memo_ok (U : CircuitNode -> Prop) m (st : Standing) P : Prop := {
  mo_flow : flow_inv (accumulate (sealed st)) m P;
  mo_index : index_ok m P;
  mo_known : forall i n, plan_at P i = Some n -> U n;
  mo_epoch : epoch (dataflow m) = at_epoch st;
  mo_next : next_handle m = issued st;
  mo_nonneg : 0 <= issued st /\ 0 <= at_epoch st;
  mo_sorted : bt_sorted (registrations m) /\ bt_sorted (queries st);
  mo_kept : forall h, match bt_get h (registrations m), bt_get h (queries st) with
                      | Some r, Some plan => keeps m P r plan
                      | None, None => True
                      | _, _ => False
                      end;
  mo_issued : forall h r, bt_get h (registrations m) = Some r -> h < issued st;
  mo_distinct : forall h h' r r', bt_get h (registrations m) = Some r -> bt_get h' (registrations m) = Some r' ->
                  reg_sink r = reg_sink r' -> h = h';
  mo_owned : forall k s, sinks (dataflow m) !! k = Some (Some s) ->
               exists h r, bt_get h (registrations m) = Some r /\ reg_sink r = k;
  mo_cache : forall cache, inputs m = Some cache ->
               bt_sorted cache /\ forall t, cached cache t ≡z accumulate (sealed st) t
}.

Definition memo_inv (U : CircuitNode -> Prop) m (st : Standing) : Prop := exists P, memo_ok U m st P.

Lemma memo_build_inv U catalog sh (f : F) cache : memo_inv U (memo_build catalog sh f cache : Memo F B) nothing_standing.
Proof.
  exists []. split; try done.
  - split; [|done|by intros s Hs; apply elem_of_nil in Hs]. split; try done.
    + constructor.
    + intros i [n Hn]. by destruct i.
  - split; [constructor|done|]. intros _ i n Hn. by destruct i.
  - split; constructor.
  - simpl. destruct cache; [|done]. intros ? [= <-]. split; [constructor|done].
Qed.

(** ** Registering keeps it *)

Lemma same_sink_lookup (l l' : list (option Sink)) k s :
  Forall2 same_sink l l' -> l !! k = Some (Some s) ->
  exists s', l' !! k = Some (Some s') /\ sink_at_node s' = sink_at_node s /\ forall ids, lists_nodes ids s -> lists_nodes ids s'.
Proof.
  intros Hf Hk. destruct (Forall2_lookup_l _ _ _ _ _ Hf Hk) as ([s'|] & Hk' & Hs); [|done].
  exists s'. destruct Hs as (? & Ha & _). split_and!; [done..|]. intros ids. unfold lists_nodes. by rewrite Ha.
Qed.

Lemma register_inv U m st plan adm chunks m' h :
  (forall n n', U n -> U n' -> subtree_hash n = subtree_hash n' -> n = n') ->
  memo_inv U m st ->
  NoDup (walk (root (canonicalize plan))) -> (forall n, n ∈ walk (root (canonicalize plan)) -> U n) ->
  chunks <> [] -> (forall t, accumulate chunks t ≡z accumulate (sealed st) t) ->
  register_small m plan adm chunks = true -> issued st + 1 < 2^64 ->
  register_catching_up m plan adm chunks = (m', Ok h) ->
  h = issued st /\ memo_inv U m' (stand st plan).
Proof.
  intros Hsep [P Hm] Hnd Hu Hne HE Hsm Hlt Hreg.
  destruct (register_catching_up_spec (accumulate (sealed st)) U Hsep m P plan adm chunks m' h) as
    (P1 & P' & old & resolved & private & Hs & Hold & HP1 & Hh & Hnx & Hr & He & Hin & Hsh); try done; [apply Hm..|].
  destruct Hs as (Hf & Hix & Hk & Hkept & s & Hsk & Hps & Hres & Hlist).
  assert (h = issued st) as Hhi by (rewrite Hh; apply Hm). split; [done|]. exists P'. clear Hh.
  assert (forall r p, keeps m P r p -> keeps m' P' r p) as Hkeep.
  { intros r p (Hp & s0 & Hs0 & Hps0 & Hl & Hls). split; [done|].
    destruct (same_sink_lookup _ _ _ _ Hold Hs0) as (s1 & Hs1 & Hn1 & Hls1). exists s1. rewrite Hsk, Hn1.
    split; [by apply lookup_app_l_Some|]. split; [|split; [done|by apply Hls1]].
    rewrite <- Hn1, Hkept by (by eapply list_elem_of_lookup_2). rewrite Hn1, HP1; [done|by eapply plan_at_lt]. }
  assert (forall h' r, bt_get h' (registrations m) = Some r -> (reg_sink r < length (sinks (dataflow m)))%nat) as Hbnd.
  { intros h' r Hg. pose proof (mo_kept _ _ _ _ Hm h') as Hkp. rewrite Hg in Hkp.
    destruct (bt_get h' (queries st)); [|done]. destruct Hkp as (_ & s0 & Hs0 & _). by apply lookup_lt_Some in Hs0. }
  destruct Hm as [_ _ _ He0 Hn0 Hnn [Hso Hso'] Hkp Hiss Hdis Hown Hca]. split; cbn [sealed at_epoch issued queries stand]; try done.
  - by rewrite He.
  - rewrite Hnx, Hhi. unfold as_u64. by rewrite Z.mod_small by lia.
  - lia.
  - rewrite Hr. split; by apply bt_insert_sorted.
  - intros h'. rewrite Hr, Hhi, !bt_get_insert. case_cmp_eqb h' (issued st).
    + split; [done|]. exists s. rewrite Hsk, (Forall2_length _ _ _ Hold), list_lookup_middle by done. done.
    + specialize (Hkp h'). destruct (bt_get h' (registrations m)), (bt_get h' (queries st)); try done. by apply Hkeep.
  - intros h' r. rewrite Hr, bt_get_insert. case_cmp_eqb h' h; [lia|]. intros Hg%Hiss. lia.
  - intros h1 h2 r1 r2. rewrite Hr, !bt_get_insert. case_cmp_eqb h1 h; case_cmp_eqb h2 h; [congruence|..].
    + intros [= <-] Hg2 Heq. apply Hbnd in Hg2. simpl in Heq. lia.
    + intros Hg1 [= <-] Heq. apply Hbnd in Hg1. simpl in Heq. lia.
    + by apply Hdis.
  - intros k s0. rewrite Hsk, Hr. intros [Hk0|[Hge Hk0]]%lookup_app_Some.
    + destruct (Forall2_lookup_r _ _ _ _ _ Hold Hk0) as ([s1|] & Hk1 & Hss); [|by destruct Hss].
      destruct (Hown _ _ Hk1) as (h0 & r0 & Hg0 & Hr0). exists h0, r0. split; [|done].
      rewrite bt_get_insert_ne; [done|]. intros ->. apply Hiss in Hg0. lia.
    + eexists h, _. rewrite bt_get_insert_eq. split; [done|]. cbn [reg_sink].
      apply lookup_lt_Some in Hk0 as Hl. simpl in Hl. rewrite (Forall2_length _ _ _ Hold). lia.
  - intros cache. rewrite Hin. apply Hca.
Qed.

(** ** Retiring a query *)

(** With its sink gone, the top node has one reference nobody holds. *)
Lemma held_drop_sink m P k s c :
  held m P [] None -> is_Some (plan_at P (sink_at_node s)) -> sinks (dataflow m) !! k = Some (Some s) ->
  nodes c = nodes (dataflow m) -> sinks c = <[k := None]> (sinks (dataflow m)) ->
  held (with_dataflow c m) P [sink_at_node s] None.
Proof.
  intros [Hg Hso Hr _ Ht] Hl Hk Hn Hs.
  assert (forall i, readers (dataflow m) i = readers c i + occ i [sink_at_node s])%nat as Hrd.
  { intros i. unfold readers. rewrite Hn, Hs. pose proof (list_sum_insert (reads_sink i) _ _ _ None Hk) as Hsum.
    rewrite occ_cons. change (occ i []) with 0%nat. simpl in Hsum.
    destruct (Nat.eqb_spec (sink_at_node s) i); case_decide; subst; try done; lia. }
  split; cbn [dataflow with_dataflow refs].
  - by rewrite Hn.
  - done.
  - intros i. rewrite Hr, Hrd. change (occ i []) with 0%nat. by rewrite Nat.add_0_r.
  - by constructor.
  - intros i Hi. rewrite <- Hrd. destruct (Ht i Hi) as [Hp|]; [|done]. left.
    change (occ i []) with 0%nat in Hp. lia.
Qed.

Lemma flow_inv_shrinks E m P m' P' :
  (forall i, op_at (nodes (dataflow m)) P E true i) ->
  (forall s, Some s ∈ sinks (dataflow m) -> sink_reach (dataflow m) P s /\ sink_value P E true s) ->
  held m' P' [] None -> shrinks m P m' P' -> flow_inv E m' P'.
Proof.
  intros Ho Hs Hh Hsh. split; [done|intros i; by eapply op_at_shrinks|].
  intros s. rewrite (sh_sinks _ _ _ _ Hsh). intros Hin. destruct (Hs s Hin) as [Hr Hv].
  split; [by eapply shrinks_sink_reach|by eapply shrinks_sink_value].
Qed.

Lemma index_ok_shrinks m P m' P' : index_ok m P -> shrinks m P m' P' -> index_ok m' P'.
Proof.
  intros [Hso Hs Hf] Hsh. split.
  - by apply (sh_hash_sorted _ _ _ _ Hsh).
  - intros h i Hg. apply (sh_hash _ _ _ _ Hsh Hso) in Hg as [Hg Hp]. rewrite Hp. by apply Hs.
  - destruct (sh_rest _ _ _ _ Hsh) as (-> & _). intros Hon i n Hn.
    apply (sh_hash_kept _ _ _ _ Hsh Hso); [|by exists n]. apply (Hf Hon). by eapply shrinks_live.
Qed.

Lemma deregister_inv U m st h plan :
  memo_inv U m st -> bt_get h (queries st) = Some plan ->
  exists m', deregister m h = (m', Ok tt) /\ memo_inv U m' (retire st h).
Proof.
  intros [P [Hf Hix Hk He Hnx Hnn [Hso Hso'] Hkp Hiss Hdis Hown Hca]] Hq. pose proof (Hkp h) as Hh. rewrite Hq in Hh.
  destruct (bt_get h (registrations m)) as [r|] eqn:Er; [|done]. destruct Hh as (Hrp & s & Hs & Hps & Hl & _).
  unfold deregister, registration. rewrite Er. cbn [ok_or].
  unfold remove_sink, sink_at. cbn [dataflow with_registrations]. rewrite Hs. cbn [bind]. rewrite Hl.
  set (c := set_sinks _ _). set (m1 := with_dataflow c _).
  assert (held m1 P [sink_at_node s] None) as Hh1.
  { apply (held_books (with_dataflow c m)); [done..|]. apply (held_drop_sink _ _ (reg_sink r)); try done; apply Hf. }
  destruct (drop_ref_ok _ _ _ _ Hh1) as (m' & P' & -> & Hh' & Hsh). exists m'. split; [done|]. exists P'.
  assert (forall s0, Some s0 ∈ sinks (dataflow m1) -> Some s0 ∈ sinks (dataflow m)) as Hsub.
  { intros s0 (k & Hk0)%list_elem_of_lookup. cbn in Hk0. apply list_lookup_insert_Some in Hk0 as [[_ [? _]]|[_ Hk0]]; [done|].
    by eapply list_elem_of_lookup_2. }
  destruct (sh_rest _ _ _ _ Hsh) as (Hr1 & _ & Hr3 & Hr4 & Hr5 & _).
  pose proof (sh_sinks _ _ _ _ Hsh) as Hsk. cbn in Hsk, Hr3, Hr4, Hr5.
  split; cbn [sealed at_epoch issued queries retire]; rewrite ?Hr3, ?Hr4, ?Hr5; try done.
  - eapply (flow_inv_shrinks _ m1); [apply Hf| |done|exact Hsh]. intros s0 Hs0.
    destruct (fi_sinks _ _ _ Hf s0 (Hsub _ Hs0)) as [Hre Hv]. split; [|done].
    eapply sink_reach_edges; [|exact Hre]. done.
  - eapply (index_ok_shrinks m1); [|exact Hsh]. by apply (index_ok_books m).
  - intros i n Hn. apply (Hk i). by eapply shrinks_live.
  - by rewrite (sh_epoch _ _ _ _ Hsh).
  - split; by apply bt_remove_sorted.
  - intros h'. rewrite !bt_get_remove by done. case_cmp_eqb h' h; [done|]. specialize (Hkp h').
    destruct (bt_get h' (registrations m)) as [r'|] eqn:Er', (bt_get h' (queries st)) as [p'|]; try done.
    destruct Hkp as (Hp' & s' & Hs' & Hps' & Hl'). split; [done|]. exists s'.
    assert (sinks (dataflow m1) !! reg_sink r' = Some (Some s')) as Hs1.
    { cbn. rewrite list_lookup_insert_ne; [done|]. intros Heq. apply E. symmetry. by eapply Hdis. }
    rewrite (sh_sinks _ _ _ _ Hsh). split; [done|]. split; [|done]. rewrite <- Hps'.
    apply (sh_kept _ _ _ _ Hsh s'); [by eapply list_elem_of_lookup_2|constructor].
  - intros h' r'. rewrite bt_get_remove by done. case_cmp_eqb h' h; [done|]. apply Hiss.
  - intros h1 h2 r1 r2. rewrite !bt_get_remove by done. case_cmp_eqb h1 h; [done|]. case_cmp_eqb h2 h; [done|]. apply Hdis.
  - intros k s0. rewrite Hsk. intros Hk0. apply list_lookup_insert_Some in Hk0 as [[_ [? _]]|[Hne Hk0]]; [done|].
    destruct (Hown _ _ Hk0) as (h0 & r0 & Hg0 & Hr0). exists h0, r0. split; [|done]. rewrite bt_get_remove by done.
    case_cmp_eqb h0 h; [|done]. subst. rewrite Er in Hg0. by injection Hg0 as ->.
Qed.

(** ** Sealing an epoch *)

Lemma pass_flow E E1 m P d c' :
  flow_inv E m P -> (forall t, E t ++ entries_for d t ≡z E1 t) ->
  pass_small (dataflow m) d None = true -> pass (dataflow m) d None = (c', Ok tt) ->
  flow_inv E1 (with_dataflow c' m) P /\ Forall2 same_sink (sinks (dataflow m)) (sinks c').
Proof.
  intros [Hh Ho Hs] HE Hsm Hp.
  destruct (pass_part (dataflow m) P None E E1 E true d (h_graph _ _ _ _ Hh)) with (c' := c')
    as (Hsame & Hsk & Hops & _ & Hval); try done.
  - intros i op ids _ _. by apply Forall_true.
  - intros s Hin. destruct (Hs s Hin) as [Hr Hv]. split; [done|]. by exists true.
  - split; [|done]. split; [by apply held_same|by intros i; apply Hops|]. cbn [dataflow with_dataflow].
    intros s' (k & Hk)%list_elem_of_lookup.
    destruct (Forall2_lookup_r _ _ _ _ _ Hsk Hk) as ([s|] & Hk0 & Hss); [|done].
    split; [|by apply (Hval k s s' true)]. eapply sink_reach_same; [done|exact Hss|].
    by apply Hs; eapply list_elem_of_lookup_2.
Qed.

(** Sealing through the registry, with the cache folded or not. *)
Lemma seal_epoch_spec m d m' e :
  seal_epoch m d = (m', Ok e) ->
  exists c' cache', pass (dataflow m) d None = (c', Ok tt) /\ e = as_u64 (epoch c' + 1) /\
    m' = with_dataflow (assign_epoch e c') (with_inputs cache' m) /\
    match inputs m, cache' with
    | Some cache, Some cache' => cache_tables m cache (tables d) = (cache', Ok tt)
    | None, None => True
    | _, _ => False
    end.
Proof.
  unfold seal_epoch, memo_step, step. destruct (inputs m) as [cache|] eqn:Ei.
  - destruct (cache_tables m cache (tables d)) as [cache' [[]|]] eqn:Ec; [|done].
    cbn [dataflow with_inputs]. destruct (pass (dataflow m) d None) as [c' [[]|]] eqn:Ep; [|done].
    intros [= <- <-]. exists c', (Some cache'). done.
  - destruct (pass (dataflow m) d None) as [c' [[]|]] eqn:Ep; [|done]. intros [= <- <-].
    exists c', None. split_and!; try done. destruct m; simpl in *. by subst.
Qed.

Lemma seal_inv U m st d m' e :
  memo_inv U m st -> bt_sorted (tables d) -> pass_small (dataflow m) d None = true ->
  at_epoch st + 1 < 2^64 ->
  seal_epoch m d = (m', Ok e) -> e = at_epoch st + 1 /\ memo_inv U m' (seal st d).
Proof.
  intros [P [Hf Hix Hk He Hnx Hnn Hso Hkp Hiss Hdis Hown Hca]] Hd Hsm Hrange Hse.
  apply seal_epoch_spec in Hse as (c' & cache' & Hp & -> & -> & Hc).
  rewrite (pass_epoch _ _ _ _ _ Hp), He. unfold as_u64. rewrite Z.mod_small by lia. split; [done|].
  destruct (pass_flow _ (accumulate (sealed st ++ [d])) _ _ d c' Hf) as [Hf' Hsk];
    [by intros t; rewrite accumulate_step|done|done|].
  exists P. split; cbn [sealed at_epoch issued queries seal dataflow with_dataflow with_inputs epoch assign_epoch
    next_handle registrations sinks]; try done.
  - destruct Hf' as [Hh' Ho' Hs']. split; [|done|].
    + apply (held_books (with_dataflow (assign_epoch (at_epoch st + 1) c') (with_dataflow c' m))); [done..|].
      apply held_readers; [apply Hh'|done..].
    + intros s Hin. destruct (Hs' s Hin) as [Hr Hv]. split; [|done]. by eapply sink_reach_edges; [|exact Hr].
  - by apply (index_ok_books m).
  - lia.
  - intros h. specialize (Hkp h). destruct (bt_get h (registrations m)) as [r|], (bt_get h (queries st)) as [p|]; try done.
    destruct Hkp as (Hrp & s & Hs & Hps & Hl). split; [done|].
    destruct (same_sink_lookup _ _ _ _ Hsk Hs) as (s' & Hs' & Hn' & Hls). exists s'. rewrite Hn'.
    destruct Hl as [Hl Hin]. by split_and!; [..|apply Hls].
  - intros k s Hs. destruct (Forall2_lookup_r _ _ _ _ _ Hsk Hs) as ([s0|] & Hk0 & Hss); [|by destruct Hss]. by eapply Hown.
  - intros cache Hin. cbn in Hin. subst cache'. destruct (inputs m) as [cache0|] eqn:Ei; [|done].
    destruct (Hca _ eq_refl) as [Hso0 Hz0]. destruct (cache_tables_zeq _ _ _ _ Hd Hso0 Hc) as [Hso1 Hz1].
    split; [done|]. intros t. rewrite Hz1, Hz0, <- accumulate_step. done.
Qed.

(** Skipping ahead moves the counter only. *)
Lemma set_epoch_inv U m st e m' :
  memo_inv U m st -> memo_set_epoch m e = (m', Ok tt) -> memo_inv U m' (skip_to st e).
Proof.
  intros [P Hm]. unfold memo_set_epoch, set_epoch. destruct (e <? epoch (dataflow m)) eqn:El; [done|].
  intros [= <-]. apply Z.ltb_ge in El. destruct Hm as [Hf Hix Hk He Hnx [Hnn Hne] Hso Hkp Hiss Hdis Hown Hca].
  exists P. split; cbn [sealed at_epoch issued queries skip_to dataflow with_dataflow epoch assign_epoch next_handle
    registrations sinks]; try done.
  - destruct Hf as [Hh Ho Hs]. split; [|done|].
    + apply held_readers; [apply Hh|done..].
    + intros s Hin. destruct (Hs s Hin) as [Hr Hv]. split; [|done]. by eapply sink_reach_edges; [|exact Hr].
  - by apply (index_ok_books m).
  - lia.
Qed.

(** ** Reading *)

Lemma canonical_emitted n : emitted_schema (canonical_node n) = emitted_schema n.
Proof. by destruct n; simpl; rewrite ?canonical_node_schema. Qed.

Lemma read_inv U m st h : memo_inv U m st -> read m h = standing_read st h.
Proof.
  intros [P Hm]. pose proof (mo_kept _ _ _ _ Hm h) as Hk. unfold read, registration, standing_read.
  destruct (bt_get h (registrations m)) as [r|] eqn:Er, (bt_get h (queries st)) as [plan|] eqn:Eq; try done.
  destruct Hk as (_ & s & Hs & Hps & _). cbn [ok_or bind].
  destruct (fi_sinks _ _ _ (mo_flow _ _ _ _ Hm) s (list_elem_of_lookup_2 _ _ _ Hs)) as [_ (n & Hn & Hok & _ & Hv & He & Hsch)].
  rewrite Hps in Hn. injection Hn as <-.
  rewrite (answer_of_stores _ _ _ _ _ Hs Hok Hv He), Hsch, (mo_epoch _ _ _ _ Hm).
  unfold canonicalize. cbn [root]. by rewrite canonical_emitted, canonical_data, canonical_errs.
Qed.
End registry.

(** * What a registry holds

    Every live node is upstream of a standing query, so an empty registry holds
    nothing; with sharing there is one node per distinct subtree; the counts the
    audit recomputes are the ones kept. *)

Lemma list_sum_pos {A} (f : A -> nat) l : (0 < list_sum (map f l))%nat -> exists x, x ∈ l /\ (0 < f x)%nat.
Proof.
  induction l as [|x l IH]; simpl; [lia|]. intros Hp. destruct (decide (0 < f x)%nat) as [Hx|Hx].
  - exists x. split; [constructor|done].
  - destruct IH as (y & Hy & Hfy); [lia|]. exists y. split; [by constructor|done].
Qed.

Section holds.
Context {F B : Type} `{FactoryLaws F B} `{Debug}.
Implicit Type (m : Memo F B) (c : Circuit (AnyOp B)) (P : list (option CircuitNode)).

(** A read node is an input of a later node or a sink's. *)
Lemma readers_pos c i :
  (0 < readers c i)%nat ->
  (exists j slot, nodes c !! j = Some slot /\ i ∈ slot_inputs slot) \/ (exists s, Some s ∈ sinks c /\ sink_at_node s = i).
Proof.
  unfold readers. intros Hp. destruct (decide (0 < list_sum (map (fun slot => occ i (slot_inputs slot)) (nodes c)))%nat) as [Hn|Hn].
  - left. apply list_sum_pos in Hn as (slot & (j & Hj)%list_elem_of_lookup & Ho). exists j, slot. split; [done|].
    by apply occ_pos.
  - right. destruct (list_sum_pos (reads_sink i) (sinks c)) as ([s|] & Hs & Hr); [lia| |simpl in Hr; lia].
    exists s. split; [done|]. simpl in Hr. destruct (Nat.eqb_spec (sink_at_node s) i); [done|lia].
Qed.

(** Every live node is upstream of a sink. *)
Lemma live_reached m P i :
  held m P [] None -> is_Some (plan_at P i) ->
  exists s, Some s ∈ sinks (dataflow m) /\ reaches (dataflow m) (sink_at_node s) i.
Proof.
  intros Hh. pose proof (h_graph _ _ _ _ Hh) as Hg. remember (length P - i)%nat as k eqn:Ek. revert i Ek.
  induction k as [k IH] using lt_wf_ind. intros i -> Hi. destruct Hi as [n Hn]. pose proof (plan_at_lt _ _ _ Hn).
  destruct (h_tight _ _ _ _ Hh i (mk_is_Some _ _ Hn)) as [Hp|]; [|done].
  change (occ i []) with 0%nat in Hp. rewrite Nat.add_0_r in Hp.
  apply readers_pos in Hp as [(j & slot & Hj & Hij)|(s & Hs & <-)]; [|exists s; split; [done|constructor]].
  pose proof (g_wired _ _ Hg _ _ Hj) as Hw. rewrite Forall_forall in Hw. specialize (Hw _ Hij).
  assert (is_Some (plan_at P j)) as Hjl.
  { apply (fits_live _ _ _ Hg). destruct slot as [x|]; [by exists x|by inversion Hij]. }
  destruct (IH (length P - j)%nat) with (i := j) as (s & Hs & Hr); [|done|done|].
  { destruct Hjl as [x Hx]. apply plan_at_lt in Hx. lia. }
  exists s. split; [done|]. by eapply reaches_input.
Qed.

(** ** An empty registry *)

Lemma live_count {A} (l : list (option A)) : length (filter (fun x => is_Some x) l) = length (omap id l).
Proof. induction l as [|[x|] l IH]; simpl; [done|..]; by rewrite ?IH. Qed.

Lemma all_gone {A} (l : list (option A)) : (forall i x, l !! i <> Some (Some x)) -> Forall (fun x => x = None) l.
Proof.
  intros Hn. apply Forall_lookup. intros i [x|] Hi; [by apply Hn in Hi|done].
Qed.

Lemma omap_gone {A} (l : list (option A)) : Forall (fun x => x = None) l -> omap id l = [].
Proof. induction 1 as [|x l -> _ IH]; [done|exact IH]. Qed.

Lemma bt_gone {K V} `{LinearCmp K} (t : btree K V) : (forall k, bt_get k t = None) -> t = [].
Proof.
  destruct t as [|[k v] t]; [done|]. intros Hn. specialize (Hn k). simpl in Hn. by rewrite cmp_eqb_refl in Hn.
Qed.

Lemma drained_holdings U m st P :
  memo_ok U m st P -> queries st = [] -> holdings (accounting m) = (0, 0, 0, 0, 0, 0)%nat.
Proof.
  intros Hm Hq. pose proof (fi_held _ _ _ (mo_flow _ _ _ _ Hm)) as Hh. pose proof (h_graph _ _ _ _ Hh) as Hg.
  assert (registrations m = []) as Hreg.
  { apply bt_gone. intros h. pose proof (mo_kept _ _ _ _ Hm h) as Hk. rewrite Hq in Hk. simpl in Hk.
    by destruct (bt_get h (registrations m)). }
  assert (forall k s, sinks (dataflow m) !! k <> Some (Some s)) as Hns.
  { intros k s Hs. destruct (mo_owned _ _ _ _ Hm _ _ Hs) as (h & r & Hr & _). by rewrite Hreg in Hr. }
  assert (forall i, plan_at P i = None) as Hnp.
  { intros i. destruct (plan_at P i) as [n|] eqn:En; [|done].
    destruct (live_reached _ _ _ Hh (mk_is_Some _ _ En)) as (s & (k & Hs)%list_elem_of_lookup & _). by apply Hns in Hs. }
  assert (Forall (fun x => x = None) (nodes (dataflow m))) as Hnn.
  { apply all_gone. intros i x Hx. destruct (proj2 (fits_live _ _ i Hg) (ex_intro _ x Hx)) as [n Hn]. by rewrite Hnp in Hn. }
  unfold holdings, accounting, live_nodes, live_sinks, total_state_size. cbn.
  rewrite !live_count, (omap_gone _ Hnn), (omap_gone _ (all_gone _ Hns)), Hreg.
  rewrite (proj2 (list_sum_zero _ _)) by (eapply Forall_impl; [exact Hnn|]; by intros ? ->).
  assert (by_hash m = []) as ->.
  { apply bt_gone. intros h. destruct (bt_get h (by_hash m)) as [i|] eqn:Ei; [|done].
    destruct (ix_sound _ _ (mo_index _ _ _ _ Hm) _ _ Ei) as (n & Hn & _). by rewrite Hnp in Hn. }
  assert (refs m = []) as ->; [|done].
  apply bt_gone. intros i. by rewrite (h_refs _ _ _ _ Hh), Hnp.
Qed.

(** ** One node per subtree *)

Lemma elem_of_plans P n : n ∈ omap id P <-> exists i, plan_at P i = Some n.
Proof.
  rewrite list_elem_of_omap. split.
  - intros (x & (i & Hi)%list_elem_of_lookup & Hx). exists i. unfold plan_at. rewrite Hi. exact Hx.
  - intros [i Hi]. unfold plan_at in Hi. destruct (P !! i) as [x|] eqn:Ex; [|done]. exists x.
    split; [by eapply list_elem_of_lookup_2|exact Hi].
Qed.

Lemma plans_NoDup P : (forall i j n, plan_at P i = Some n -> plan_at P j = Some n -> i = j) -> NoDup (omap id P).
Proof.
  induction P as [|[n|] P IH]; intros Hu; simpl; [constructor|..].
  - constructor; [|apply IH].
    + intros (i & Hi)%elem_of_plans. by specialize (Hu 0%nat (S i) n eq_refl Hi).
    + intros i j x Hi Hj. by specialize (Hu (S i) (S j) x Hi Hj) as [= ->].
  - apply IH. intros i j x Hi Hj. by specialize (Hu (S i) (S j) x Hi Hj) as [= ->].
Qed.

Lemma live_plans (ns : list (option (Node (AnyOp B)))) P :
  graph_ok ns P -> length (filter (fun x => is_Some x) ns) = length (omap id P).
Proof.
  intros Hg. rewrite live_count. pose proof (g_length _ _ Hg) as Hl.
  assert (forall i slot p, ns !! i = Some slot -> P !! i = Some p -> is_Some slot <-> is_Some p) as Hf.
  { intros i slot p Hs Hp. pose proof (fits_live _ _ i Hg) as Hi. unfold plan_at in Hi. rewrite Hs, Hp in Hi.
    simpl in Hi. rewrite Hi. split; [intros [x ->]; by exists x|intros [x [= ->]]; by exists x]. }
  clear Hg. revert P Hl Hf. induction ns as [|slot ns IH]; intros [|p P] Hl Hf; try done.
  injection Hl as Hl. pose proof (Hf 0%nat slot p eq_refl eq_refl) as H0'.
  specialize (IH P Hl (fun i => Hf (S i))).
  destruct slot as [x|], p as [n|]; simpl.
  - f_equal. exact IH.
  - destruct (proj1 H0') as [? ?]; [by eexists|done].
  - destruct (proj2 H0') as [? ?]; [by eexists|done].
  - exact IH.
Qed.

Lemma live_is_subtree U m st P n :
  memo_ok U m st P ->
  n ∈ omap id P <-> exists h plan, bt_get h (queries st) = Some plan /\ n ∈ walk (root (canonicalize plan)).
Proof.
  intros Hm. pose proof (fi_held _ _ _ (mo_flow _ _ _ _ Hm)) as Hh. pose proof (h_graph _ _ _ _ Hh) as Hg.
  rewrite elem_of_plans. split.
  - intros [i Hi]. destruct (live_reached _ _ _ Hh (mk_is_Some _ _ Hi)) as (s & (k & Hs)%list_elem_of_lookup & Hr).
    destruct (mo_owned _ _ _ _ Hm _ _ Hs) as (h & r & Hreg & Hrk). pose proof (mo_kept _ _ _ _ Hm h) as Hk.
    rewrite Hreg in Hk. destruct (bt_get h (queries st)) as [plan|] eqn:Eq; [|done]. exists h, plan. split; [done|].
    destruct Hk as (_ & s' & Hs' & Hps & _). rewrite Hrk, Hs in Hs'. injection Hs' as <-.
    destruct (reaches_plan _ _ _ _ _ Hg Hr Hps) as (x & Hx & Hin). rewrite Hi in Hx. by injection Hx as <-.
  - intros (h & plan & Hq & Hin). pose proof (mo_kept _ _ _ _ Hm h) as Hk. rewrite Hq in Hk.
    destruct (bt_get h (registrations m)) as [r|]; [|done]. destruct Hk as (_ & s & _ & Hps & _).
    destruct (walk_reached _ _ _ _ _ Hg Hps Hin) as (j & _ & Hj). by exists j.
Qed.

(** ** The audit *)

Section counts.
Context (P : list (option CircuitNode)).

(** [t] counts [f] references for every live node. *)
Definition counts (t : btree nat nat) (f : nat -> nat) : Prop :=
  bt_sorted t /\ forall i, bt_get i t = match plan_at P i with Some _ => Some (f i) | None => None end.

Lemma counts_ext t f g : (forall i, f i = g i) -> counts t f -> counts t g.
Proof. intros Hfg [Hs Hf]. split; [done|]. intros i. by rewrite Hf, Hfg. Qed.

Lemma counts_inc t f i :
  counts t f -> is_Some (plan_at P i) -> counts (bt_update i O S t) (fun j => f j + if decide (i = j) then 1 else 0)%nat.
Proof.
  intros [Hs Hf] [n Hn]. split; [by apply bt_insert_sorted|]. intros j. unfold bt_update. rewrite bt_get_insert.
  case_cmp_eqb j i.
  - subst. rewrite Hf, Hn, decide_True by done. simpl. f_equal. lia.
  - rewrite Hf. destruct (plan_at P j); [|done]. rewrite decide_False by done. f_equal. lia.
Qed.

Lemma counts_inputs l t f :
  counts t f -> Forall (fun i => is_Some (plan_at P i)) l ->
  counts (fold_left (fun t i => bt_update i O S t) l t) (fun j => f j + occ j l)%nat.
Proof.
  revert t f. induction l as [|i l IH]; intros t f Hc Hl; simpl.
  - eapply counts_ext; [|exact Hc]. intros j. change (occ j []) with 0%nat. lia.
  - apply Forall_cons in Hl as [Hi Hl]. eapply counts_ext; [|exact (IH _ _ (counts_inc _ _ _ Hc Hi) Hl)].
    intros j. cbn beta. rewrite occ_cons. lia.
Qed.

Lemma counts_slots (ns : list (option (Node (AnyOp B)))) t f :
  counts t f -> Forall (fun slot => Forall (fun i => is_Some (plan_at P i)) (slot_inputs slot)) ns ->
  counts (fold_left (fun t n => fold_left (fun t i => bt_update i O S t) (slot_inputs n) t) ns t)
    (fun j => f j + list_sum (map (fun slot => occ j (slot_inputs slot)) ns))%nat.
Proof.
  revert t f. induction ns as [|n ns IH]; intros t f Hc Hl; simpl.
  - eapply counts_ext; [|exact Hc]. intros j. lia.
  - apply Forall_cons in Hl as [Hi Hl]. eapply counts_ext; [|exact (IH _ _ (counts_inputs _ _ _ Hc Hi) Hl)].
    intros j. cbn beta. lia.
Qed.

Lemma counts_sinks (ss : list (option Sink)) t f :
  counts t f -> (forall s, Some s ∈ ss -> is_Some (plan_at P (sink_at_node s))) ->
  counts (fold_left (fun t s => match s with Some s => bt_update (sink_at_node s) O S t | None => t end) ss t)
    (fun j => f j + list_sum (map (reads_sink j) ss))%nat.
Proof.
  revert t f. induction ss as [|s ss IH]; intros t f Hc Hl; simpl.
  - eapply counts_ext; [|exact Hc]. intros j. lia.
  - assert (forall s0, Some s0 ∈ ss -> is_Some (plan_at P (sink_at_node s0))) as Hl'.
    { intros s0 Hs0. apply Hl. by constructor. }
    destruct s as [s|].
    + eapply counts_ext; [|exact (IH _ _ (counts_inc _ _ _ Hc (Hl s ltac:(constructor))) Hl')].
      intros j. cbn beta. simpl. destruct (Nat.eqb_spec (sink_at_node s) j); case_decide; try done; lia.
    + by eapply counts_ext; [|exact (IH _ _ Hc Hl')].
Qed.

Lemma counts_live c :
  graph_ok (nodes c) P ->
  counts (fold_left (fun t index => match nodes c !! index with
                                    | Some (Some _) => bt_update index O id t
                                    | _ => t
                                    end) (seq 0 (length (nodes c))) bt_empty) (fun _ => 0%nat).
Proof.
  intros Hg. set (upd := fun t index => _).
  assert (forall k, bt_sorted (fold_left upd (seq 0 k) bt_empty) /\
    forall i, bt_get i (fold_left upd (seq 0 k) bt_empty) =
      match plan_at P i with Some _ => if decide (i < k)%nat then Some 0%nat else None | None => None end) as Hk.
  { induction k as [|k [IHs IHg]].
    { split; [constructor|]. intros i. simpl. by destruct (plan_at P i). }
    rewrite seq_S, fold_left_app. cbn [Nat.add fold_left].
    pose proof (fits_live _ _ k Hg) as Hl. unfold upd at 1 3. destruct (nodes c !! k) as [[x|]|] eqn:Ek.
    1: { split; [by apply bt_insert_sorted|]. intros i. unfold bt_update. rewrite bt_get_insert, !IHg.
      destruct (proj2 Hl (ex_intro _ x eq_refl)) as [n Hn]. case_cmp_eqb i k.
      - subst. rewrite Hn, decide_False, decide_True by lia. done.
      - destruct (plan_at P i); [|done]. repeat case_decide; try done; lia. }
    all: split; [done|]; intros i; rewrite IHg; destruct (plan_at P i) as [n|] eqn:En; [|done];
      assert (i <> k) by (intros ->; destruct (proj1 Hl (mk_is_Some _ _ En)) as [y Hy]; done);
      repeat case_decide; try done; lia. }
  destruct (Hk (length (nodes c))) as [Hs Hg0]. split; [done|]. intros i. rewrite Hg0.
  destruct (plan_at P i) as [n|] eqn:En; [|done]. pose proof (plan_at_nodes _ _ _ Hg (mk_is_Some _ _ En)).
  by rewrite decide_True.
Qed.
End counts.

Lemma inputs_live c P i slot j :
  graph_ok (nodes c) P -> nodes c !! i = Some slot -> j ∈ slot_inputs slot -> is_Some (plan_at P j).
Proof.
  intros Hg Hi Hj. destruct slot as [[|op ids]|]; simpl in Hj; [by inversion Hj| |by inversion Hj].
  destruct (fits_operator _ _ _ _ _ Hg Hi) as (n & _ & Hch & _).
  assert (plan_at P j ∈ map (plan_at P) ids) as Hin by (by apply list_elem_of_fmap_2).
  rewrite Hch in Hin. apply list_elem_of_fmap in Hin as (x & -> & _). done.
Qed.

Lemma reference_counts_spec c P :
  graph_ok (nodes c) P -> (forall s, Some s ∈ sinks c -> is_Some (plan_at P (sink_at_node s))) ->
  counts P (reference_counts c) (readers c).
Proof.
  intros Hg Hs. unfold reference_counts, readers.
  eapply counts_ext; [|apply counts_sinks; [apply counts_slots; [by apply counts_live|]|done]].
  { intros j. simpl. lia. }
  apply Forall_lookup. intros i slot Hi. apply Forall_forall. intros j Hj. by eapply inputs_live.
Qed.

Lemma audit_ok U m st P : memo_ok U m st P -> audit m = Ok tt.
Proof.
  intros Hm. pose proof (fi_held _ _ _ (mo_flow _ _ _ _ Hm)) as Hh. pose proof (h_graph _ _ _ _ Hh) as Hg.
  destruct (reference_counts_spec (dataflow m) P Hg) as [Hts Ht].
  { intros s Hin. destruct (fi_sinks _ _ _ (mo_flow _ _ _ _ Hm) s Hin) as [_ Hv]. by eapply sink_value_live. }
  assert (forall i, bt_get i (refs m) = bt_get i (reference_counts (dataflow m))) as Hsame.
  { intros i. rewrite Ht, (h_refs _ _ _ _ Hh). change (occ i []) with 0%nat. by rewrite Nat.add_0_r. }
  unfold audit. rewrite (proj2 (try_for_Ok _ _)); [rewrite (proj2 (try_for_Ok _ _))|]; [apply try_for_Ok| |];
    apply Forall_forall; intros [k x] Hin; cbn [fst snd].
  - apply bt_In_get in Hin; [|apply (mo_index _ _ _ _ Hm)].
    destruct (ix_sound _ _ (mo_index _ _ _ _ Hm) _ _ Hin) as (n & Hn & _).
    destruct (proj1 (fits_live _ _ _ Hg) (mk_is_Some _ _ Hn)) as [[] Hx];
      unfold node_output_schema, node_at; by rewrite Hx.
  - apply bt_In_get in Hin; [|apply Hh]. unfold bt_contains. rewrite <- Hsame, Hin. by rewrite andb_false_r.
  - apply bt_In_get in Hin; [|done]. unfold held_refs. by rewrite Hsame, Hin, Nat.eqb_refl.
Qed.
End holds.
