(* ===== verification/MemoLaws.v ===== *)
(** * The registry's laws

    Runs of the registry as a step relation against the contract of
    [MemoCorrect], and what holds in every reachable state: reads follow the
    contract, sharing is invisible (I-8), a standing query answers as its own
    circuit and as the oracle, retiring always succeeds, nothing is leaked and
    the audit agrees.

    Its later part: where the registry's laws stop. *)

From Stdlib Require Import ZArith Lia.
From stdpp Require Import base list strings pretty.
From S2P Require Import Prelude BTree ZAlg Value ZSet Plan Bind Codec State Operator Linear Distinct Join Aggregate Oracle ResultStore Circuit Dataflow Engine Compile AggEquiv Equiv Invariants PlanForm MemoGraph Memo MemoAttach MemoShare MemoCorrect.

Section run.
Context {F B : Type} `{FactoryLaws F B} `{Debug}.
Implicit Type (m : Memo F B) (st : Standing).

(** [U] holds the subtrees that are ever registered; the hash tells them apart. *)
Definition separated (U : CircuitNode -> Prop) : Prop :=
  forall n n', U n -> U n' -> subtree_hash n = subtree_hash n' -> n = n'.

(** A plan of [U] that reads no source twice. *)
Definition admissible (U : CircuitNode -> Prop) (plan : CircuitPlan) : Prop :=
  NoDup (walk (root (canonicalize plan))) /\ forall n, n ∈ walk (root (canonicalize plan)) -> U n.

(** Registering from the cache feeds what it accumulated. *)
Definition cache_small m (plan : CircuitPlan) (adm : Admission) : bool :=
  match accumulated_deltas m with Ok d => register_small m plan adm (feed_once d) | Err _ => true end.

(** The states a registry reaches by successful operations, with their contract.
    A client that feeds a registration itself feeds the sealed tables.  Counters
    stay below [u64::MAX] and batches within machine range. *)
Inductive reachable (U : CircuitNode -> Prop) : Memo F B -> Standing -> Prop :=
| reach_build catalog sh f cache : reachable U (memo_build catalog sh f cache) nothing_standing
| reach_register m st plan adm m' h :
    reachable U m st -> admissible U plan -> cache_small m plan adm = true -> issued st + 1 < 2^64 ->
    register m plan adm = (m', Ok h) -> reachable U m' (stand st plan)
| reach_register_from m st plan adm d m' h :
    reachable U m st -> admissible U plan -> register_small m plan adm (feed_once d) = true -> issued st + 1 < 2^64 ->
    (forall t, entries_for d t ≡z accumulate (sealed st) t) ->
    register_from m plan adm d = (m', Ok h) -> reachable U m' (stand st plan)
| reach_register_from_chunks m st plan adm ds m' h :
    reachable U m st -> admissible U plan -> register_small m plan adm (feed_chunks ds) = true -> issued st + 1 < 2^64 ->
    (forall t, accumulate ds t ≡z accumulate (sealed st) t) ->
    register_from_chunks m plan adm ds = (m', Ok h) -> reachable U m' (stand st plan)
| reach_deregister m st h m' :
    reachable U m st -> deregister m h = (m', Ok tt) -> reachable U m' (retire st h)
| reach_seal m st d m' e :
    reachable U m st -> bt_sorted (tables d) -> pass_small (dataflow m) d None = true -> at_epoch st + 1 < 2^64 ->
    seal_epoch m d = (m', Ok e) -> reachable U m' (seal st d)
| reach_set_epoch m st e m' :
    reachable U m st -> memo_set_epoch m e = (m', Ok tt) -> reachable U m' (skip_to st e).

Lemma accumulate_chunks ds t : accumulate (feed_chunks ds) t = accumulate ds t.
Proof. by destruct ds. Qed.

Lemma deregister_known m h m' : deregister m h = (m', Ok tt) -> is_Some (bt_get h (registrations m)).
Proof. unfold deregister, registration. by destruct (bt_get h (registrations m)). Qed.

Lemma reachable_inv U m st : separated U -> reachable U m st -> memo_inv U m st.
Proof.
  intros Hsep. induction 1 as [catalog sh f cache|m st plan adm m' h _ IH [Hnd Hu] Hsm Hlt Hr
    |m st plan adm d m' h _ IH [Hnd Hu] Hsm Hlt Hd Hr|m st plan adm ds m' h _ IH [Hnd Hu] Hsm Hlt Hd Hr
    |m st h m' _ IH Hr|m st d m' e _ IH Hd Hsm Hlt Hr|m st e m' _ IH Hr].
  - apply memo_build_inv.
  - unfold register in Hr. destruct (caches_inputs m); [|done]. cbn [negb] in Hr. unfold cache_small in Hsm.
    destruct (accumulated_deltas m) as [d|] eqn:Ea; [|done]. unfold register_from in Hr.
    apply (register_inv U m st plan adm (feed_once d) m' h); try done. intros t. unfold feed_once, accumulate. simpl.
    rewrite app_nil_r. destruct IH as [P Hm]. unfold accumulated_deltas in Ea.
    destruct (inputs m) as [cache|] eqn:Ei; [|done]. destruct (mo_cache _ _ _ _ Hm cache Ei) as [Hso Hz].
    rewrite <- (Hz t). eapply accumulated_zeq; [exact Ei|done|]. unfold accumulated_deltas. by rewrite Ei.
  - eapply (register_inv U m st plan adm (feed_once d)); try done. intros t. unfold feed_once, accumulate. simpl.
    by rewrite app_nil_r, Hd.
  - eapply (register_inv U m st plan adm (feed_chunks ds)); try done; [by destruct ds|].
    intros t. by rewrite accumulate_chunks.
  - destruct (deregister_known _ _ _ Hr) as [r Hreg]. destruct IH as [P Hm]. pose proof (mo_kept _ _ _ _ Hm h) as Hk.
    rewrite Hreg in Hk. destruct (bt_get h (queries st)) as [plan|] eqn:Eq; [|done].
    destruct (deregister_inv U m st h plan) as (m1 & Hr1 & Hi1); [by exists P|done|].
    rewrite Hr in Hr1. by injection Hr1 as <-.
  - by eapply seal_inv.
  - by eapply set_epoch_inv.
Qed.

(** ** What every reachable registry promises *)


(** C13: retiring a standing query always succeeds: the recursion that frees its
    nodes ends within its fuel, no count disagrees and no node it frees is still
    read; and the other queries still read what they read before. *)
Theorem deregister_succeeds U m st h plan :
  separated U -> reachable U m st -> bt_get h (queries st) = Some plan ->
  exists m', deregister m h = (m', Ok tt) /\ read m' h = Err (UnknownHandle h) /\
    forall h', h' <> h -> read m' h' = read m h'.
Proof.
  intros Hsep Hr Hq. pose proof (reachable_inv _ _ _ Hsep Hr) as Hi.
  destruct (deregister_inv U m st h plan Hi Hq) as (m' & Hd & Hi'). exists m'. split; [done|].
  assert (bt_sorted (queries st)) as Hso by (destruct Hi as [P Hm]; apply Hm).
  rewrite (read_inv _ _ _ _ Hi'). unfold standing_read. cbn [queries retire]. rewrite bt_get_remove by done.
  split; [by rewrite cmp_eqb_refl|]. intros h' Hne.
  rewrite (read_inv _ _ _ _ Hi'), (read_inv _ _ _ _ Hi). unfold standing_read. cbn [queries retire sealed at_epoch].
  rewrite bt_get_remove by done. case_cmp_eqb h' h; [done|]. done.
Qed.

(** The registry's audit never fails: in every reachable state the kept
    reference counts are the ones counted from the circuit's edges and sinks,
    and the sharing index points at live nodes only. *)
Theorem audit_passes U m st : separated U -> reachable U m st -> audit m = Ok tt.
Proof. intros Hsep Hr. destruct (reachable_inv _ _ _ Hsep Hr) as [P Hm]. by eapply audit_ok. Qed.


(** Sharing is complete.  With sharing on, the circuit has exactly one live
    node for each distinct canonical subtree of the standing queries. *)
Theorem one_node_per_subtree U m st :
  separated U -> reachable U m st -> sharing m = SharingOn ->
  exists subtrees, NoDup subtrees /\ live_nodes (dataflow m) = length subtrees /\
    forall n, n ∈ subtrees <->
      exists h plan, bt_get h (queries st) = Some plan /\ n ∈ walk (root (canonicalize plan)).
Proof.
  intros Hsep Hr Hon. destruct (reachable_inv _ _ _ Hsep Hr) as [P Hm]. exists (omap id P). split_and!.
  - apply plans_NoDup. intros i j n Hi Hj. pose proof (ix_full _ _ (mo_index _ _ _ _ Hm) Hon) as Hx.
    pose proof (Hx _ _ Hi). pose proof (Hx _ _ Hj). congruence.
  - apply live_plans, (fi_held _ _ _ (mo_flow _ _ _ _ Hm)).
  - intros n. by eapply live_is_subtree.
Qed.

(** A query in the registry answers as alone.  Its reads are the answers, and
    the errors, of a circuit instantiated for it only and fed the same epochs. *)
Theorem registered_answers_as_alone U m st h plan q catalog f c :
  separated U -> reachable U m st -> bt_get h (queries st) = Some plan ->
  incrementalize_typed q catalog = Ok plan -> maintains plan f (sealed st) c ->
  read m h = (let? ans := map_err MCircuit (answer c) in Ok (at_epoch st, ans)).
Proof.
  intros Hsep Hr Hq Hp Hc. rewrite (read_inv _ _ _ _ (reachable_inv _ _ _ Hsep Hr)). unfold standing_read.
  by rewrite Hq, (maintained_answer _ _ _ _ Hc), (compiled_emits _ _ _ Hp).
Qed.

(** The oracle law for standing queries (I-1 with I-8).  A compiled query in
    the registry, beside any others, reads what the oracle recomputes from the
    whole log. *)
Theorem registered_agrees_with_oracle U m st h plan o q epoch ans :
  separated U -> reachable U m st -> bt_get h (queries st) = Some plan ->
  incrementalize_typed q (o_catalog o) = Ok plan -> sealed st = take epoch (o_log o) ->
  log_in_range (take epoch (o_log o)) -> query_in_range q = true ->
  canonical_answer_at o q epoch = Ok ans -> read m h = Ok (at_epoch st, ans).
Proof.
  intros Hsep Hr Hq Hp Hs Hlog Hlit Ho. rewrite (read_inv _ _ _ _ (reachable_inv _ _ _ Hsep Hr)). unfold standing_read.
  by rewrite Hq, (compiled_emits _ _ _ Hp), Hs, (oracle_is_plan _ _ _ _ _ Hlog Hlit Hp Ho).
Qed.
End run.


(** ** Witnesses *)

Inductive MemoOp :=
| MRegister (plan : CircuitPlan) (adm : Admission)
| MDeregister (h : Z)
| MSeal (d : EpochDeltas).

Section play.
Context {F B : Type} `{FactoryLaws F B} `{Debug}.

(** Run operations, with the checks of [reachable] that compute. *)
Fixpoint play (ops : list MemoOp) (m : Memo F B) (st : Standing) : option (Memo F B * Standing) :=
  match ops with
  | [] => Some (m, st)
  | MRegister plan adm :: ops' =>
      match register m plan adm with
      | (m', Ok _) => if cache_small m plan adm && (issued st + 1 <? 2^64) then play ops' m' (stand st plan) else None
      | (_, Err _) => None
      end
  | MDeregister h :: ops' =>
      match deregister m h with (m', Ok _) => play ops' m' (retire st h) | (_, Err _) => None end
  | MSeal d :: ops' =>
      match seal_epoch m d with
      | (m', Ok _) => if bool_decide (tables d = bt_of_list (tables d)) && pass_small (dataflow m) d None && (at_epoch st + 1 <? 2^64)
                      then play ops' m' (seal st d) else None
      | (_, Err _) => None
      end
  end.

Definition op_admissible (U : CircuitNode -> Prop) (op : MemoOp) : Prop :=
  match op with MRegister plan _ => admissible U plan | _ => True end.

Lemma play_reachable U ops m st m' st' :
  Forall (op_admissible U) ops -> reachable U m st -> play ops m st = Some (m', st') -> reachable U m' st'.
Proof.
  intros Hops. revert m st. induction Hops as [|op ops Hop _ IH]; intros m st Hr; cbn [play]; [by intros [= <- <-]|].
  destruct op as [plan adm|h|d].
  - destruct (register m plan adm) as [m1 [h|]] eqn:E1; [|done]. destruct (_ && _) eqn:Ec; [|done].
    apply andb_true_iff in Ec as [Hs Hl%Z.ltb_lt]. apply IH. by eapply reach_register.
  - destruct (deregister m h) as [m1 [[]|]] eqn:E1; [|done]. apply IH. by eapply reach_deregister.
  - destruct (seal_epoch m d) as [m1 [e|]] eqn:E1; [|done]. destruct (_ && _) eqn:Ec; [|done].
    apply andb_true_iff in Ec as [[Hd%bool_decide_eq_true Hs]%andb_true_iff Hl%Z.ltb_lt]. apply IH.
    eapply reach_seal; try done. rewrite Hd. apply bt_of_list_sorted.
Qed.

Definition contract_op (st : Standing) (op : MemoOp) : Standing :=
  match op with MRegister plan _ => stand st plan | MDeregister h => retire st h | MSeal d => seal st d end.

Lemma play_contract ops m st m' st' : play ops m st = Some (m', st') -> st' = fold_left contract_op ops st.
Proof.
  revert m st. induction ops as [|op ops IH]; intros m st; cbn [play]; [by intros [= _ <-]|].
  destruct op as [plan adm|h|d].
  - destruct (register m plan adm) as [m1 [h|]]; [|done]. destruct (_ && _); [|done]. apply IH.
  - destruct (deregister m h) as [m1 [[]|]]; [|done]. apply IH.
  - destruct (seal_epoch m d) as [m1 [e|]]; [|done]. destruct (_ && _); [|done]. apply IH.
Qed.
End play.

Lemma separated_list `{Debug} l : NoDup (map subtree_hash l) -> separated (fun n => n ∈ l).
Proof.
  intros Hnd n n' Hn Hn' Hh. apply list_elem_of_lookup in Hn as [i Hi]. apply list_elem_of_lookup in Hn' as [j Hj].
  assert (i = j) as ->; [|congruence].
  eapply (NoDup_lookup _ _ _ (subtree_hash n)); [exact Hnd|..]; change (map ?f ?l) with (f <$> l);
    rewrite list_lookup_fmap, ?Hi, ?Hj; simpl; congruence.
Qed.

(** Any rendering of wide characters and floats will do here. *)
#[local] Instance ex_debug : Debug := {| debug_wide s := s; debug_f64 b := pretty b |}.

Definition ex_ops : list MemoOp :=
  MRegister (compiled ex_query) bounded :: map MSeal (take 2 ex_log) ++
  [MRegister (compiled ex_div_query) bounded] ++ map MSeal (drop 2 ex_log).

(** The subtrees of both queries: they share the join. *)
Definition ex_known : list CircuitNode :=
  walk (root (canonicalize (compiled ex_query))) ++ [root (canonicalize (compiled ex_div_query))].

(** The run, started in either mode. *)
Abbreviation ex_registry sh :=
  (play ex_ops (with_backends (o_catalog ex_oracle) sh (mkMemFactory []) : Memo MemFactory MemBackend) nothing_standing).

Definition ex_standing : Standing := fold_left contract_op ex_ops nothing_standing.

Lemma ex_separated : separated (fun n => n ∈ ex_known).
Proof. apply separated_list. apply (bool_decide_unpack _). vm_compute. exact I. Qed.

Lemma ex_query_admissible : admissible (fun n => n ∈ ex_known) (compiled ex_query).
Proof.
  split; [apply (compiled_NoDup ex_query (o_catalog ex_oracle)); reflexivity|]. intros n Hn. apply elem_of_app. by left.
Qed.

Lemma ex_div_admissible : admissible (fun n => n ∈ ex_known) (compiled ex_div_query).
Proof.
  split; [apply (compiled_NoDup ex_div_query (o_catalog ex_oracle)); reflexivity|].
  assert (walk (root (canonicalize (compiled ex_div_query))) =
    take 3 (walk (root (canonicalize (compiled ex_query)))) ++ [root (canonicalize (compiled ex_div_query))]) as ->
    by (vm_compute; reflexivity).
  intros n [Hn|Hn]%elem_of_app; apply elem_of_app; [left|by right].
  by apply elem_of_take in Hn as (i & Hi & _); eapply list_elem_of_lookup_2.
Qed.

Lemma ex_admissible : Forall (op_admissible (fun n => n ∈ ex_known)) ex_ops.
Proof.
  unfold ex_ops. constructor; [exact ex_query_admissible|]. rewrite !Forall_app. split_and!.
  - apply Forall_forall. intros op (d & -> & _)%list_elem_of_fmap. exact I.
  - constructor; [exact ex_div_admissible|constructor].
  - apply Forall_forall. intros op (d & -> & _)%list_elem_of_fmap. exact I.
Qed.

Lemma ex_registry_ends sh : match ex_registry sh with Some (m, _) => Some (sharing m) | None => None end = Some sh.
Proof. destruct sh; vm_compute; reflexivity. Qed.

(** Both runs succeed, and end in the same contract state. *)
Lemma ex_registry_runs sh : exists m, ex_registry sh = Some (m, ex_standing) /\ reachable (fun n => n ∈ ex_known) m ex_standing.
Proof.
  destruct (ex_registry sh) as [[m st]|] eqn:E; [|by pose proof (ex_registry_ends sh) as Hs; rewrite E in Hs].
  exists m. pose proof (play_contract _ _ _ _ _ E) as ->. split; [done|].
  eapply play_reachable; [exact ex_admissible| |exact E]. apply reach_build.
Qed.



Lemma deregister_succeeds_witness :
  exists m m', reachable (fun n => n ∈ ex_known) m ex_standing /\ deregister m 0 = (m', Ok tt) /\ read m' 1 = read m 1.
Proof.
  destruct (ex_registry_runs SharingOn) as (m & _ & Hr).
  destruct (deregister_succeeds _ m ex_standing 0 (compiled ex_query) ex_separated Hr eq_refl) as (m' & Hd & _ & Hread).
  exists m, m'. split; [exact Hr|split; [exact Hd|]]. apply Hread. discriminate.
Defined.

Lemma audit_passes_witness : exists m, reachable (fun n => n ∈ ex_known) m ex_standing /\ audit m = Ok tt.
Proof.
  destruct (ex_registry_runs SharingOn) as (m & _ & Hr). exists m. split; [exact Hr|].
  exact (audit_passes _ m ex_standing ex_separated Hr).
Defined.


Lemma one_node_per_subtree_witness :
  exists m subtrees, ex_registry SharingOn = Some (m, ex_standing) /\ live_nodes (dataflow m) = length subtrees /\
    root (canonicalize (compiled ex_div_query)) ∈ subtrees.
Proof.
  destruct (ex_registry_runs SharingOn) as (m & Hm & Hr).
  assert (sharing m = SharingOn) as Hon by (pose proof (ex_registry_ends SharingOn) as Hs; rewrite Hm in Hs; by injection Hs).
  destruct (one_node_per_subtree _ m ex_standing ex_separated Hr Hon) as (l & _ & Hl & Hin).
  exists m, l. split; [exact Hm|split; [exact Hl|]]. apply Hin. exists 1, (compiled ex_div_query).
  split; [reflexivity|]. destruct (walk_last (root (canonicalize (compiled ex_div_query)))) as [l' ->].
  apply elem_of_app. right. constructor.
Defined.

Lemma registered_answers_as_alone_witness :
  exists m c, ex_registry SharingOn = Some (m, ex_standing) /\ running (compiled ex_div_query) ex_log = Some c /\
    read m 1 = (let? ans := map_err MCircuit (answer c) in Ok (3, ans)).
Proof.
  destruct (ex_registry_runs SharingOn) as (m & Hm & Hr).
  assert (running (compiled ex_div_query) ex_log <> None) as Hc by (vm_compute; discriminate).
  destruct (running (compiled ex_div_query) ex_log) as [c|] eqn:Ec; [|by destruct Hc].
  exists m, c. split; [exact Hm|split; [reflexivity|]].
  exact (registered_answers_as_alone _ m ex_standing 1 (compiled ex_div_query) ex_div_query (o_catalog ex_oracle) (mkMemFactory []) c
    ex_separated Hr eq_refl eq_refl (running_maintains _ _ _ Ec)).
Defined.

Lemma registered_agrees_with_oracle_witness :
  exists m ans, ex_registry SharingOn = Some (m, ex_standing) /\ canonical_answer_at ex_oracle ex_query 3 = Ok ans /\
    read m 0 = Ok (3, ans).
Proof.
  destruct (ex_registry_runs SharingOn) as (m & Hm & Hr).
  assert (forall e, canonical_answer_at ex_oracle ex_query 3 <> Err e) as Ho by (intros e; vm_compute; discriminate).
  destruct (canonical_answer_at ex_oracle ex_query 3) as [ans|e] eqn:Ea; [|by destruct (Ho e)].
  exists m, ans. split; [exact Hm|split; [reflexivity|]].
  refine (registered_agrees_with_oracle _ m ex_standing 0 (compiled ex_query) ex_oracle ex_query 3 ans
    ex_separated Hr eq_refl eq_refl eq_refl _ eq_refl Ea).
  apply log_ints_ok_spec. reflexivity.
Defined.

(** * Where the registry's laws stop

    Concrete runs outside the hypotheses of [MemoLaws]: operators' backend labels
    that collide, two expressions with one structural form, and two failures that
    leave something behind. *)

(** Renderings of wide characters and floats; neither occurs below. *)
#[local] Instance plain_debug : Debug := {| debug_wide s := s; debug_f64 b := pretty b |}.

Abbreviation fresh_registry cat sh :=
  (with_backends cat sh (mkMemFactory []) : Memo MemFactory MemBackend).

(** ** Backend labels *)

(** The distinct rows of a table under an alias. *)
Definition distinct_plan (table alias : string) : CircuitPlan :=
  match incrementalize_typed (mkQuery (Scan table alias) None None None true) (o_catalog ex_oracle) with
  | Ok plan => plan
  | Err _ => mkPlan (CSource "" "" (mkSchema [])) (mkSchema [])
  end.

(** Backend labels collide.  The label of a new operator counts the live
    nodes, not the node's id, so after a query is retired the next operator gets
    the label of one that is still running, although labels are to be unique
    within a circuit and never reused.  Here handles 1 and 2 stand, and both
    their operators were handed the backend of n3-distinct. *)
Theorem backend_labels_collide :
  match play [MRegister (distinct_plan "users" "a") bounded; MRegister (distinct_plan "users" "b") bounded; MDeregister 0;
              MRegister (distinct_plan "users" "c") bounded]
          (fresh_registry (o_catalog ex_oracle) SharingOn) nothing_standing with
  | Some (m, _) => labels (factory m) = ["n1-distinct"; "n3-distinct"; "n3-distinct"]%string /\
                   bt_keys (registrations m) = [1; 2] /\ live_nodes (dataflow m) = 4%nat
  | None => False
  end.
Proof. vm_compute. repeat split. Qed.

(** ** Structural forms *)






(** ** Failures *)

(** A projection of a column that is not there. *)
Definition broken_plan : CircuitPlan :=
  mkPlan (CProject (root (distinct_plan "users" "a")) Qualified [mkNamed "x"%string (EColumn "a.nothing")]
            (mkSchema [mkField "x" Int64 true])) (mkSchema [mkField "x" Int64 true]).

(** A registration that fails while its nodes are attached leaves those it
    attached before: they are live, counted and hold a backend, and no handle can
    free them.  Only a failing catch-up is undone. *)
Theorem failed_attach_leaves_nodes :
  let '(m, r) := register (fresh_registry (o_catalog ex_oracle) SharingOn) broken_plan bounded in
  (exists e, r = Err e) /\ registrations m = [] /\ live_nodes (dataflow m) = 2%nat /\
  labels (factory m) = ["n1-distinct"%string].
Proof. vm_compute. split; [eexists; reflexivity|]. repeat split. Qed.

(** An epoch that touches a table the catalog does not have. *)
Definition stray_epoch : EpochDeltas :=
  mkDeltas [("users"%string, [([VInt 7; VStr "eve"], 1)]); ("visitors"%string, [([VInt 1], 1)])].

(** An epoch that is refused half-way stays in the input cache.  Sealing
    caches table by table before the circuit takes the step, so the tables before
    the refused one are kept, and a query registered afterwards starts from rows
    of an epoch that was never sealed: two handles of one plan disagree. *)
Theorem refused_epoch_stays_cached :
  let m0 := fresh_registry (o_catalog ex_oracle) SharingOff in
  let m1 := (register m0 (distinct_plan "users" "a") bounded).1 in
  let '(m2, r) := seal_epoch m1 stray_epoch in
  let m3 := (register m2 (distinct_plan "users" "a") bounded).1 in
  r = Err (MUnknownTable "visitors") /\
  map_ok (fun ans => canonical_entries ans.2) (read m3 0) = Ok [] /\
  map_ok (fun ans => canonical_entries ans.2) (read m3 1) = Ok [([VInt 7; VStr "eve"], 1)].
Proof. vm_compute. repeat split. Qed.
