(* ===== verification/MemoReport.v ===== *)
(** * Reports on the registry ([schweep-memo]: explain.rs, maintenance.rs, costs.rs)

    EXPLAIN STATE and EXPLAIN MAINTENANCE: what every operator holds and the work
    it did, per query and counted once over the dataflow, and the reconciliation
    of the report with the operators and the files.

    Its later part: the reports count what is there. *)

From Stdlib Require Import ZArith Lia.
From stdpp Require Import base list strings pretty.
From S2P Require Import Prelude BTree ZAlg Value ZSet Plan Bind Codec State Operator Linear Distinct Join Aggregate ResultStore Circuit Dataflow Engine Compile Invariants Text PlanForm MemoGraph Memo MemoAttach MemoShare MemoCorrect MemoLaws.

(** [BackendFactory::describe] *)
Class DescribeFactory (F : Type) := describe : F -> string.

#[export] Instance mem_describe : DescribeFactory MemFactory := fun _ => "MemBackend (in memory)"%string.

(** ** Costs *)

Definition BYTES_PER_BACKEND : Z := 1056768.
Definition BYTES_PER_ENTRY_LOW : Z := 48.
Definition BYTES_PER_ENTRY_TYPICAL_MAX : Z := 205.
Definition BYTES_PER_ENTRY_IN_MEMORY : Z := 64.

Record CostModel := mkCostModel {
  bytes_per_entry_low : Z;
  bytes_per_entry_typical_max : Z;
  bytes_per_backend : Z;
  on_disk : bool
}.

Definition cost_redb : CostModel := mkCostModel BYTES_PER_ENTRY_LOW BYTES_PER_ENTRY_TYPICAL_MAX BYTES_PER_BACKEND true.
Definition cost_memory : CostModel := mkCostModel BYTES_PER_ENTRY_IN_MEMORY BYTES_PER_ENTRY_IN_MEMORY 0 false.

(** Products of [u64], which wrap in a release build. *)
Definition cost_floor (model : CostModel) (entries : Z) : Z := as_u64 (entries * bytes_per_entry_low model).
Definition empty_allowance (model : CostModel) (backends : Z) : Z := as_u64 (backends * bytes_per_backend model).
Definition typical (model : CostModel) (entries : Z) : Z := as_u64 (entries * bytes_per_entry_typical_max model).

(** ** EXPLAIN STATE *)

Record OperatorState := mkOperatorState {
  os_node : nat;
  os_operator : string;
  os_declared : string;
  os_entries : nat;
  os_budget : option Z;
  os_shared_with : nat;
  os_backends : nat
}.

Record QueryState := mkQueryState { qs_handle : Z; qs_operators : list OperatorState }.

Definition query_entries (q : QueryState) : nat := list_sum (map os_entries (qs_operators q)).
Definition query_backends (q : QueryState) : nat := list_sum (map os_backends (qs_operators q)).

Record ExplainState := mkExplainState {
  es_backends : string;
  es_queries : list QueryState;
  distinct_entries : nat;
  distinct_backends : nat;
  es_model : CostModel
}.

Definition byte_floor_and_typical (r : ExplainState) : Z * Z :=
  (cost_floor (es_model r) (Z.of_nat (distinct_entries r)), typical (es_model r) (Z.of_nat (distinct_entries r))).

(** One operator as a report shows it. *)
Definition operator_state (id shared : nat) (n : NodeState) : OperatorState :=
  mkOperatorState id (ns_operator n) (ns_declared n) (ns_entries n) (ns_budget n) shared (ns_backends n).

(** ** Text *)

(** [{:<width$}] and [{:>width$}] of text that is one byte per character. *)
Definition pad_right (width : nat) (t : text) : text := t ++ repeat 32%N (width - length t).
Definition pad_left (width : nat) (t : text) : text := repeat 32%N (width - length t) ++ t.

Definition dec_nat (n : nat) : text := dec (Z.of_nat n).

Definition shared_text (shared : nat) : text :=
  if (0 <? shared)%nat then tx "shared with " ++ dec_nat shared ++ tx " other quer(y|ies)" else tx "private".

Definition operator_line (o : OperatorState) : text :=
  line (tx "  node " ++ pad_right 3 (dec_nat (os_node o)) ++ tx " " ++ pad_right 10 (tx (os_operator o)) ++
        tx " entries " ++ pad_left 10 (dec_nat (os_entries o)) ++
        tx "  budget " ++ pad_left 12 (match os_budget o with Some b => dec b | None => tx "admitted-unbounded" end) ++
        tx "  " ++ shared_text (os_shared_with o) ++ tx "  [" ++ tx (os_declared o) ++ tx "]").

Definition query_lines (q : QueryState) : text :=
  (if qs_handle q =? unregistered then [10%N] ++ line (tx "circuit (no registration)")
   else [10%N] ++ line (tx "query " ++ dec (qs_handle q))) ++
  flat_map operator_line (qs_operators q) ++
  line (tx "  total" ++ pad_left 24 [] ++ pad_left 10 (dec_nat (query_entries q)) ++ tx " entries").

Definition explain_render (r : ExplainState) : text :=
  line (tx "EXPLAIN STATE") ++ line (tx "backends: " ++ tx (es_backends r)) ++ flat_map query_lines (es_queries r) ++
  [10%N] ++ line (tx "dataflow: " ++ dec_nat (distinct_entries r) ++ tx " entries in " ++ dec_nat (distinct_backends r) ++
                  tx " backend(s), counted once each") ++
  line (tx "bytes: at least " ++ dec (byte_floor_and_typical r).1 ++ tx " (a measured bound); typically around " ++
        dec (byte_floor_and_typical r).2 ++
        tx " for keys of ordinary width — NOT a bound, because key width is unbounded (schweep_memo::costs)").

(** ** Building the report *)

Section memo.
Context {F B : Type} `{StateBackend B} `{BackendFactory F B} `{Debug} `{DescribeFactory F}.
Abbreviation M := (Memo F B).
Implicit Type m : M.

(** [registrations().values()] *)
Definition all_registrations m : list Registration := map snd (registrations m).

(** How many registrations read each node. *)
Definition count_nodes (counted : btree nat nat) (ids : list nat) : btree nat nat :=
  fold_left (fun counted id => bt_update id O S counted) ids counted.

Definition readers_of m : btree nat nat :=
  fold_left (fun readers r => count_nodes readers (reg_nodes r)) (all_registrations m) bt_empty.

Definition shared_count (readers : btree nat nat) (id : nat) : nat := pred (default 1%nat (bt_get id readers)).

Abbreviation Counted := (btree nat (nat * nat)).

(** One node of a registration: a source holds nothing. *)
Definition explain_node m (readers : btree nat nat) (acc : Counted * list OperatorState) (id : nat)
    : result MemoError (Counted * list OperatorState) :=
  let? report := map_err MCircuit (node_state (dataflow m) id) in
  match report with
  | None => Ok acc
  | Some n => Ok (bt_insert id (ns_entries n, ns_backends n) acc.1, acc.2 ++ [operator_state id (shared_count readers id) n])
  end.

Definition explain_registration m (readers : btree nat nat) (acc : Counted * list QueryState) (r : Registration)
    : result MemoError (Counted * list QueryState) :=
  let? '(distinct, operators) := try_fold (explain_node m readers) (acc.1, []) (reg_nodes r) in
  Ok (distinct, acc.2 ++ [mkQueryState (reg_handle r) operators]).

Definition explain_state m (model : CostModel) : result MemoError ExplainState :=
  let? '(distinct, queries) := try_fold (explain_registration m (readers_of m)) (bt_empty, []) (all_registrations m) in
  Ok (mkExplainState (describe (factory m)) queries (list_sum (map (fun p => p.2.1) distinct))
        (list_sum (map (fun p => p.2.2) distinct)) model).

(** One circuit, with no registry above it. *)
Definition explain_circuit_node (c : Circuit (AnyOp B)) (operators : list OperatorState) (id : nat)
    : result MemoError (list OperatorState) :=
  let? report := map_err MCircuit (node_state c id) in
  Ok (operators ++ match report with None => [] | Some n => [operator_state id 0 n] end).

Definition explain_circuit (c : Circuit (AnyOp B)) (model : CostModel) (backends : string) : result MemoError ExplainState :=
  let? operators := try_fold (explain_circuit_node c) [] (seq 0 (length (nodes c))) in
  Ok (mkExplainState backends [mkQueryState unregistered operators] (list_sum (map os_entries operators))
        (list_sum (map os_backends operators)) model).

(** ** Reconciliation *)

Record Reconciliation := mkReconciliation {
  reported_entries : nat;
  reported_backends : nat;
  actual_entries : nat;
  rc_floor : Z;
  rc_empty_allowance : Z;
  actual_bytes : Z;
  reconcilable : bool
}.

Definition agrees (r : Reconciliation) : bool :=
  if negb (reported_entries r =? actual_entries r)%nat then false
  else if negb (reconcilable r) then true
  else if (reported_entries r =? 0)%nat then actual_bytes r <=? rc_empty_allowance r
  else rc_floor r <=? actual_bytes r.

Definition reconciliation (report : ExplainState) (model : CostModel) (actual : nat) (bytes : Z) : Reconciliation :=
  mkReconciliation (distinct_entries report) (distinct_backends report) actual
    (cost_floor model (Z.of_nat (distinct_entries report))) (empty_allowance model (Z.of_nat (distinct_backends report)))
    bytes (on_disk model).

Definition reconcile m (model : CostModel) (bytes : Z) : result MemoError Reconciliation :=
  let? report := explain_state m model in
  Ok (reconciliation report model (total_state_size (dataflow m)) bytes).

Definition reconcile_circuit (c : Circuit (AnyOp B)) (model : CostModel) (backends : string) (bytes : Z)
    : result MemoError Reconciliation :=
  let? report := explain_circuit c model backends in
  Ok (reconciliation report model (total_state_size c) bytes).

(** ** EXPLAIN MAINTENANCE *)

Record MaintenanceNode := mkMaintenanceNode {
  mn_node : nat;
  mn_operator : string;
  mn_steps : Z;
  mn_emitted : Z;
  mn_shared_with : nat
}.

Record QueryMaintenance := mkQueryMaintenance { qm_handle : Z; qm_nodes : list MaintenanceNode }.

Record ExplainMaintenance := mkExplainMaintenance {
  em_epoch : Z;
  em_queries : list QueryMaintenance;
  distinct_nodes : nat;
  distinct_steps : Z;
  distinct_emitted : Z
}.

(** [Circuit::node_label] *)
Definition node_label (c : Circuit (AnyOp B)) (id : nat) : option string :=
  match nodes c !! id with
  | Some (Some (NSource _ _ _)) => Some "source"%string
  | Some (Some (NOperator op _)) => Some (op_name op)
  | _ => None
  end.

(** A node counts once per registration, however often its plan lists it. *)
Definition memberships m : btree nat nat :=
  fold_left (fun counted r => count_nodes counted (map fst (fold_left (fun s id => bt_insert id tt s) (reg_nodes r) bt_empty)))
    (all_registrations m) bt_empty.

Definition node_record m (id : nat) : MaintenanceNode :=
  mkMaintenanceNode id (default "freed"%string (node_label (dataflow m) id)) (default 0 (steps (dataflow m) !! id))
    (default 0 (emitted_entries (dataflow m) !! id)) (shared_count (memberships m) id).

Definition explain_maintenance m : ExplainMaintenance :=
  let distinct := map fst (memberships m) in
  mkExplainMaintenance (memo_epoch m)
    (map (fun r => mkQueryMaintenance (reg_handle r) (map (node_record m) (reg_nodes r))) (all_registrations m))
    (length distinct)
    (foldr Z.add 0 (map (fun id => default 0 (steps (dataflow m) !! id)) distinct))
    (foldr Z.add 0 (map (fun id => default 0 (emitted_entries (dataflow m) !! id)) distinct)).
End memo.

Definition maintenance_line (n : MaintenanceNode) : text :=
  line (tx "  node " ++ pad_right 3 (dec_nat (mn_node n)) ++ tx " " ++ pad_right 10 (tx (mn_operator n)) ++
        tx " steps " ++ pad_left 10 (dec (mn_steps n)) ++ tx "  emitted " ++ pad_left 10 (dec (mn_emitted n)) ++
        tx "  " ++ shared_text (mn_shared_with n)).

Definition maintenance_render (r : ExplainMaintenance) : text :=
  line (tx "EXPLAIN MAINTENANCE") ++ line (tx "epoch " ++ dec (em_epoch r)) ++
  line (tx "counters are cumulative measured work; timings: testing/evidence/c10-benchmarks.json") ++
  flat_map (fun q => [10%N] ++ line (tx "query " ++ dec (qm_handle q)) ++ flat_map maintenance_line (qm_nodes q)) (em_queries r) ++
  [10%N] ++ line (tx "dataflow: " ++ dec_nat (distinct_nodes r) ++ tx " distinct nodes · " ++ dec (distinct_steps r) ++
                  tx " steps · " ++ dec (distinct_emitted r) ++ tx " emitted entries; counted once each").

(** * The reports count what is there

    Every live node is read by a registered query and every query lists its nodes
    once, so the totals of the reports are those of the dataflow itself. *)

(** ** A circuit keeps a counter per node *)

Section tallies.
Context {F B : Type} `{StateBackend B} `{BackendFactory F B} `{Debug}.
Implicit Type (m : Memo F B) (c : Circuit (AnyOp B)).

Definition tallied c : Prop := length (emitted_entries c) = length (nodes c).
Abbreviation mtallied m := (tallied (dataflow m)).

Lemma pass_node_tallied deltas subset index c outputs errs c' r :
  tallied c -> pass_node deltas subset index c outputs errs = (c', r) -> tallied c'.
Proof.
  unfold tallied, pass_node. intros Hc Hp. repeat case_match; simplify_eq; try done; cbn; by rewrite ?length_alter, ?length_insert.
Qed.

Lemma pass_nodes_tallied deltas subset ks : forall c outputs errs c' r,
  tallied c -> pass_nodes deltas subset ks c outputs errs = (c', r) -> tallied c'.
Proof.
  induction ks as [|k ks IH]; intros c outputs errs c' r Hc; cbn [pass_nodes]; [by intros [= <- <-]|].
  destruct (pass_node _ _ _ _ _ _) as [c1 [[o e]|x]] eqn:E; apply pass_node_tallied in E as Hc1; try done.
  - by apply IH.
  - by intros [= <- <-].
Qed.

Lemma pass_tallied c deltas subset c' r : tallied c -> pass c deltas subset = (c', r) -> tallied c'.
Proof.
  unfold pass. intros Hc. destruct (pass_nodes _ _ _ _ _ _) as [c1 r1] eqn:E. apply pass_nodes_tallied in E; [|done].
  intros Hp. repeat case_match; simplify_eq; done.
Qed.

Lemma feed_all_tallied chunks fresh : forall c c' r, tallied c -> feed_all c chunks fresh = (c', r) -> tallied c'.
Proof.
  induction chunks as [|d chunks IH]; intros c c' r Hc; cbn [feed_all]; [by intros [= <- <-]|].
  destruct (catch_up c d fresh) as [c1 [[]|x]] eqn:E; apply pass_tallied in E; try done; [by apply IH|by intros [= <- <-]].
Qed.

Lemma bumps_tallied ids : forall m, mtallied m -> mtallied (fold_left bump ids m).
Proof. induction ids as [|i ids IH]; intros m Hm; [done|]. by apply IH. Qed.

Lemma attach_fresh_tallied m n ids adm m' r : mtallied m -> attach_fresh m n ids adm = (m', r) -> mtallied m'.
Proof.
  intros Hm. unfold attach_fresh. set (label := (_ +:+ _)%string). clearbody label.
  assert (forall c' id, tallied c' -> mtallied (track_node (with_dataflow c' m) ids id)) as Hsrc
    by (intros c' id Hc'; by apply (bumps_tallied ids (with_dataflow c' m))).
  assert (forall f c' id, tallied c' -> mtallied (track_node (with_dataflow c' (with_factory f m)) ids id)) as Hop
    by (intros f c' id Hc'; by apply (bumps_tallied ids (with_dataflow c' (with_factory f m)))).
  assert (forall op c' id, attach (dataflow m) op ids adm = Ok (c', id) -> tallied c') as Hat.
  { intros op c' id. unfold attach, tallied in *. repeat case_match; try done; intros [= <- <-]; cbn; rewrite !length_app; simpl; lia. }
  destruct n; [intros [= <- <-]; apply Hsrc; unfold tallied in *; cbn; rewrite !length_app; simpl; lia|..];
    destruct (operator_for_with _ _ _) as [f [[op|]|]]; cbn [map_err ok_or]; try (by intros [= <- <-]);
    change (dataflow (with_factory f m)) with (dataflow m);
    (destruct (attach (dataflow m) op ids adm) as [[c' id]|] eqn:E; cbn [map_err]; intros [= <- <-]; [eapply Hop, Hat, E|done]).
Qed.

Lemma attach_nodes_tallied plan_nodes todo adm : forall m fresh m' r,
  mtallied m -> attach_nodes plan_nodes todo adm m fresh = (m', r) -> mtallied m'.
Proof.
  induction todo as [|n todo IH]; intros m fresh m' r Hm; cbn [attach_nodes]; [by intros [= <- <-]|].
  destruct (resolve_inputs _ _ _) as [ids|]; [|by intros [= <- <-]].
  destruct (attach_fresh m n.2 ids adm) as [m1 [id|x]] eqn:E; apply attach_fresh_tallied in E; try done; [by apply IH|by intros [= <- <-]].
Qed.

Lemma remove_tallied c id c' : tallied c -> remove c id = Ok c' -> tallied c'.
Proof. unfold tallied, remove. intros Hc. repeat case_match; try done; intros [= <-]; cbn; by rewrite length_insert. Qed.

Definition drops_tallied (drop : Memo F B -> nat -> option (Memo F B * result MemoError unit)) : Prop :=
  forall m id m' r, mtallied m -> drop m id = Some (m', r) -> mtallied m'.

Lemma drop_all_tallied drop ids : drops_tallied drop -> forall m m' r, mtallied m -> drop_all drop m ids = Some (m', r) -> mtallied m'.
Proof.
  intros Hd. induction ids as [|id ids IH]; intros m m' r Hm; cbn [drop_all]; [by intros [= <- <-]|].
  destruct (drop m id) as [[m1 [[]|x]]|] eqn:E; [| |done]; apply Hd in E; try done; [by apply IH|by intros [= <- <-]].
Qed.

Lemma free_with_tallied drop m id m' r : drops_tallied drop -> mtallied m -> free_with drop m id = Some (m', r) -> mtallied m'.
Proof.
  intros Hd Hm. unfold free_with. destruct (inputs_of _ _); [|by intros [= <- <-]].
  destruct (remove (dataflow m) id) as [c|] eqn:E; [|by intros [= <- <-]]. apply drop_all_tallied; [done|]. by eapply remove_tallied.
Qed.

Lemma drop_ref_loop_tallied fuel : drops_tallied (drop_ref_loop fuel).
Proof.
  induction fuel as [|fuel IH]; intros m id m' r Hm; cbn [drop_ref_loop]; [done|]. case_match; [|by intros [= <- <-]].
  by apply free_with_tallied.
Qed.

Lemma drop_ref_tallied m id m' r : mtallied m -> drop_ref m id = (m', r) -> mtallied m'.
Proof.
  intros Hm. unfold drop_ref. destruct (drop_ref_loop _ m id) as [[m1 r1]|] eqn:E; [|by intros [= <- <-]].
  intros [= <- <-]. by eapply drop_ref_loop_tallied.
Qed.

Lemma rewire_loop_tallied from to ks : forall c moved c' r, tallied c -> rewire_loop from to ks c moved = (c', r) -> tallied c'.
Proof.
  induction ks as [|k ks IH]; intros c moved c' r Hc; cbn [rewire_loop]; [by intros [= <- <-]|].
  repeat case_match; try (by apply IH); [by intros [= <- <-]|]. apply IH. unfold tallied in *. cbn. by rewrite length_insert.
Qed.

Lemma moves_tallied k from to m : mtallied m -> mtallied (Nat.iter k (move_ref from to) m).
Proof. intros Hm. induction k as [|k IH]; [done|]. exact IH. Qed.

Lemma repoint_tallied c id node c' r : tallied c -> repoint_sink c id node = (c', r) -> tallied c'.
Proof.
  intros Hc. unfold repoint_sink, refresh_ancestors. repeat case_match; intros; simplify_eq; try done;
    repeat (case_match; simplify_eq; try done).
Qed.

Lemma rewire_within_tallied m resolved from to sink m' r :
  mtallied m -> rewire_within m resolved from to sink = (m', r) -> mtallied m'.
Proof.
  intros Hm. unfold rewire_within. destruct (rewire_inputs (dataflow m) from to) as [c r1] eqn:E.
  assert (tallied c) as Hc.
  { unfold rewire_inputs in E. repeat case_match; simplify_eq; try done; by eapply rewire_loop_tallied. }
  destruct r1 as [moved|]; [|by intros [= <- <-]]. set (m1 := Nat.iter moved _ _).
  assert (mtallied m1) as Hm1 by by apply moves_tallied. destruct (sink_node (dataflow m1) sink) as [node|]; [|by intros [= <- <-]].
  destruct (node =? from)%nat; [|by intros [= <- <-]]. destruct (repoint_sink (dataflow m1) sink to) as [c2 r2] eqn:E2.
  apply repoint_tallied in E2; [|done]. by destruct r2; intros [= <- <-].
Qed.

Lemma share_nodes_tallied todo sink : forall m resolved private m' r,
  mtallied m -> share_nodes todo sink m resolved private = (m', r) -> mtallied m'.
Proof.
  induction todo as [|[id hash] todo IH]; intros m resolved private m' r Hm; cbn [share_nodes]; [by intros [= <- <-]|].
  destruct (bt_get hash (by_hash m)) as [existing|]; [|by apply IH]. destruct (existing =? id)%nat; [by apply IH|].
  destruct (rewire_within m resolved id existing sink) as [m1 [resolved1|x]] eqn:E1; apply rewire_within_tallied in E1; try done;
    [|by intros [= <- <-]]. destruct (free_duplicate m1 id) as [m2 r2] eqn:E2.
  assert (mtallied m2) as Hm2.
  { unfold free_duplicate, free in E2. destruct (negb _); [by simplify_eq|].
    destruct (free_with _ m1 id) as [[m3 r3]|] eqn:E3; cbn [default] in E2; [|by simplify_eq]. injection E2 as <- <-.
    eapply free_with_tallied; [apply drop_ref_loop_tallied|exact E1|exact E3]. }
  destruct r2; [by apply IH|by intros [= <- <-]].
Qed.

Lemma settle_tallied m sink fresh hashes m' r : mtallied m -> settle m sink fresh hashes = (m', r) -> mtallied m'.
Proof.
  intros Hm. unfold settle. destruct (sharing m); [|by intros [= <- <-]].
  destruct (share_nodes _ _ _ _ _) as [m1 [res|x]] eqn:E; apply share_nodes_tallied in E; try done; [|by intros [= <- <-]].
  unfold refresh_ancestors. repeat case_match; intros; simplify_eq; try done.
Qed.

Lemma register_tallied m plan adm chunks m' h : mtallied m -> register_catching_up m plan adm chunks = (m', Ok h) -> mtallied m'.
Proof.
  intros Hm. unfold register_catching_up. destruct (attach_nodes _ _ _ m []) as [m1 [fresh|x]] eqn:E1; [|done].
  apply attach_nodes_tallied in E1; [|done]. destruct (last fresh) as [top|]; [|done]. cbn [ok_or].
  destruct (add_sink (dataflow m1) top) as [[c sink]|] eqn:E2; [|done]. cbn [map_err].
  assert (tallied c) as Hc by (unfold add_sink in E2; repeat case_match; by simplify_eq).
  destruct (feed_all _ chunks fresh) as [c1 [[]|x]] eqn:E3; [|done]. apply feed_all_tallied in E3; [|done].
  destruct (settle _ sink fresh _) as [m2 [[resolved private]|x]] eqn:E4; [|done]. apply settle_tallied in E4; [|done].
  by intros [= <- <-].
Qed.

Lemma deregister_tallied m h m' r : mtallied m -> deregister m h = (m', r) -> mtallied m'.
Proof.
  intros Hm. unfold deregister. destruct (registration m h) as [reg|]; [|by intros [= <- <-]].
  unfold remove_sink. destruct (sink_at _ _); [|by intros [= <- <-]]. destruct (last (reg_nodes reg)); [|by intros [= <- <-]].
  by apply drop_ref_tallied.
Qed.

Lemma seal_tallied m d m' r : mtallied m -> seal_epoch m d = (m', r) -> mtallied m'.
Proof.
  intros Hm. unfold seal_epoch, memo_step, step. repeat case_match; intros; simplify_eq; try done;
    repeat match goal with E : pass _ _ _ = _ |- _ => apply pass_tallied in E; [|done] end; done.
Qed.
End tallies.

(** ** Sums over the nodes *)

Lemma list_sum_Permutation l l' : l ≡ₚ l' -> list_sum l = list_sum l'.
Proof. induction 1; simpl; lia. Qed.

Lemma list_sum_positions {A} (f : option A -> nat) (l : list A) :
  list_sum (map (fun x => f (Some x)) l) = list_sum (map (fun i => f (l !! i)) (seq 0 (length l))).
Proof.
  induction l as [|x l IH]; [done|]. cbn [map list_sum length seq lookup list_lookup]. simpl. f_equal.
  rewrite IH, <- seq_shift, map_map. done.
Qed.

Lemma distinct_keys {V} (d : btree nat V) (held : nat -> option V) n :
  bt_sorted d -> (forall i, bt_get i d = held i) -> (forall i, is_Some (held i) -> i < n)%nat ->
  map fst d ≡ₚ base.filter (fun i => is_Some (held i)) (seq 0 n).
Proof.
  intros Hs Hg Hn. apply NoDup_Permutation; [by apply bt_sorted_NoDup|by apply NoDup_filter, NoDup_seq|].
  intros i. rewrite list_elem_of_filter, elem_of_seq, <- Hg. split.
  - intros ((i' & v) & -> & Hin)%list_elem_of_fmap. simpl. pose proof (bt_In_get _ _ _ Hs Hin) as Hi. rewrite Hi.
    split; [by eexists|]. split; [lia|]. apply Hn. rewrite <- Hg, Hi. by eexists.
  - intros [[v Hv] _]. apply bt_get_In in Hv. apply list_elem_of_fmap. by exists (i, v).
Qed.

(** A sorted map that holds exactly [held] below [n] sums to the sum over [0..n]. *)
Lemma distinct_sum {V} (d : btree nat V) (held : nat -> option V) (f : V -> nat) n :
  bt_sorted d -> (forall i, bt_get i d = held i) -> (forall i, is_Some (held i) -> i < n)%nat ->
  list_sum (map (fun p => f p.2) d) = list_sum (map (fun i => from_option f O (held i)) (seq 0 n)).
Proof.
  intros Hs Hg Hn.
  assert (map (fun p => f p.2) d = map (fun i => from_option f O (held i)) (map fst d)) as ->.
  { rewrite map_map. apply map_ext_in. intros [i v] Hin%list_elem_of_In. simpl. rewrite <- Hg.
    by rewrite (bt_In_get _ _ _ Hs Hin). }
  rewrite (list_sum_Permutation _ _ (Permutation_map _ (distinct_keys d held n Hs Hg Hn))). clear.
  induction (seq 0 n) as [|i l IH]; [done|]. rewrite filter_cons. destruct (decide (is_Some (held i))) as [Hi|Hi]; simpl; rewrite IH; [done|].
  destruct (held i); [by destruct Hi; eexists|done].
Qed.

(** ** The report *)

Section reports.
Context {F B : Type} `{FactoryLaws F B} `{Debug} `{DescribeFactory F}.
Implicit Type (m : Memo F B) (c : Circuit (AnyOp B)) (st : Standing).

Lemma reachable_tallied U m st : reachable U m st -> tallied (dataflow m).
Proof.
  induction 1 as [| m st plan adm m' h _ IH _ _ _ Hr|m st plan adm d m' h _ IH _ _ _ _ Hr|m st plan adm ds m' h _ IH _ _ _ _ Hr
    |m st h m' _ IH Hr|m st d m' e _ IH _ _ _ Hr|m st e m' _ IH Hr].
  - done.
  - unfold register in Hr. repeat case_match; simplify_eq. by eapply register_tallied.
  - by eapply register_tallied.
  - by eapply register_tallied.
  - by eapply deregister_tallied.
  - by eapply seal_tallied.
  - unfold memo_set_epoch, set_epoch in Hr. repeat case_match; by simplify_eq.
Qed.

(** What node [i] holds, and in how many backends; a source holds nothing. *)
Definition held_at c (i : nat) : option (nat * nat) :=
  match nodes c !! i with Some (Some (NOperator op _)) => Some (op_state_size op, op_backend_count op) | _ => None end.

Lemma state_budget_Ok c op ids i :
  tallied c -> wired (nodes c) -> nodes c !! i = Some (Some (NOperator op ids)) ->
  exists b, state_budget c (op_state_bound op) ids (op_name op) = Ok b.
Proof.
  intros Ht Hw Hi. pose proof (Hw _ _ Hi) as Hids. cbn [slot_inputs] in Hids. apply lookup_lt_Some in Hi.
  assert (forall total, exists b, try_fold (fun total input =>
      let? emitted := ok_or (emitted_entries c !! input) (UnknownNode input) in Ok (saturating_add total emitted)) total ids = Ok b) as Hf.
  { clear -Ht Hids Hi. induction Hids as [|j ids Hj _ IH]; intros total; [by eexists|]. cbn [try_fold].
    assert (is_Some (emitted_entries c !! j)) as [x ->] by (apply lookup_lt_is_Some; unfold tallied in Ht; lia). apply IH. }
  destruct (Hf 0) as [b Hb]. destruct op; cbn; try (by eexists); rewrite Hb; by eexists.
Qed.

Lemma node_state_live c i x :
  tallied c -> wired (nodes c) -> nodes c !! i = Some (Some x) ->
  exists r, node_state c i = Ok r /\ (fun n => (ns_entries n, ns_backends n)) <$> r = held_at c i.
Proof.
  intros Ht Hw Hi. unfold node_state, node_at, held_at. rewrite Hi. destruct x as [t a s|op ids]; [by exists None|].
  destruct (state_budget_Ok _ _ _ _ Ht Hw Hi) as [b ->].
  destruct (_ && _); (eexists; split; [reflexivity|done]).
Qed.

(** The row of the report for node [i]. *)
Definition report_row m (readers : btree nat nat) (i : nat) : option OperatorState :=
  match node_state (dataflow m) i with Ok (Some n) => Some (operator_state i (shared_count readers i) n) | _ => None end.

Abbreviation live m ids := (Forall (fun i => exists x, nodes (dataflow m) !! i = Some (Some x)) ids).

(** The map holds the nodes counted so far. *)
Definition counted c (d : btree nat (nat * nat)) (seen : nat -> Prop) : Prop :=
  bt_sorted d /\ forall i v, bt_get i d = Some v <-> held_at c i = Some v /\ seen i.

Lemma explain_nodes_spec m readers ids : forall d ops seen,
  tallied (dataflow m) -> wired (nodes (dataflow m)) -> live m ids -> counted (dataflow m) d seen ->
  exists d', try_fold (explain_node m readers) (d, ops) ids = Ok (d', ops ++ omap (report_row m readers) ids) /\
    counted (dataflow m) d' (fun i => seen i \/ i ∈ ids).
Proof.
  induction ids as [|j ids IH]; intros d ops seen Ht Hw Hl [Hs Hd]; cbn [try_fold].
  { exists d. rewrite app_nil_r. split; [done|]. split; [done|]. intros i v. rewrite Hd, elem_of_nil. tauto. }
  apply Forall_cons in Hl as [[x Hx] Hl]. destruct (node_state_live _ _ _ Ht Hw Hx) as (r & Hr & Hh).
  unfold explain_node at 1. cbn [omap list_omap]. unfold report_row at 1. rewrite Hr. cbn [map_err fst snd].
  destruct r as [n|]; cbn [fmap option_fmap option_map] in Hh.
  - destruct (IH (bt_insert j (ns_entries n, ns_backends n) d) (ops ++ [operator_state j (shared_count readers j) n])
      (fun i => seen i \/ i = j)) as (d' & -> & Hs' & Hg); [done..| |].
    { split; [by apply bt_insert_sorted|]. intros i v. rewrite bt_get_insert. case_cmp_eqb i j; [subst i; rewrite <- Hh; naive_solver|].
      rewrite Hd. naive_solver. }
    exists d'. rewrite <- app_assoc. split; [done|]. split; [done|]. intros i v. rewrite Hg, elem_of_cons. tauto.
  - destruct (IH d ops seen) as (d' & -> & Hs' & Hg); [done..|]. exists d'. split; [done|]. split; [done|].
    intros i v. rewrite Hg, elem_of_cons. split; [tauto|]. intros [Hi Hc]. split; [done|].
    destruct Hc as [|[->|]]; [by left|congruence|by right].
Qed.

Definition report_query m (readers : btree nat nat) (r : Registration) : QueryState :=
  mkQueryState (reg_handle r) (omap (report_row m readers) (reg_nodes r)).

Lemma explain_registrations_spec m readers rs : forall d qs seen,
  tallied (dataflow m) -> wired (nodes (dataflow m)) -> Forall (fun r => live m (reg_nodes r)) rs -> counted (dataflow m) d seen ->
  exists d', try_fold (explain_registration m readers) (d, qs) rs = Ok (d', qs ++ map (report_query m readers) rs) /\
    counted (dataflow m) d' (fun i => seen i \/ exists r, r ∈ rs /\ i ∈ reg_nodes r).
Proof.
  induction rs as [|r rs IH]; intros d qs seen Ht Hw Hl Hd; cbn [try_fold map].
  { exists d. rewrite app_nil_r. split; [done|]. destruct Hd as [Hs Hd]. split; [done|]. intros i v. rewrite Hd.
    split; [tauto|]. intros [? [?|(r & Hr & _)]]; [done|]. by apply elem_of_nil in Hr. }
  apply Forall_cons in Hl as [Hr Hl]. unfold explain_registration at 1. cbn [fst snd].
  destruct (explain_nodes_spec m readers (reg_nodes r) d [] seen Ht Hw Hr Hd) as (d1 & -> & Hd1).
  destruct (IH d1 (qs ++ [report_query m readers r]) _ Ht Hw Hl Hd1) as (d' & Hgo & Hs' & Hg).
  exists d'. cbn [app] in *. rewrite <- app_assoc in Hgo. split; [exact Hgo|]. split; [done|].
  intros i v. rewrite Hg. setoid_rewrite elem_of_cons. naive_solver.
Qed.

(** Counting with a map. *)
Lemma count_nodes_sorted ids : forall d, bt_sorted d -> bt_sorted (count_nodes d ids).
Proof. induction ids as [|j ids IH]; intros d Hd; [done|]. apply IH. by apply bt_insert_sorted. Qed.

Lemma count_nodes_get ids i : forall d, default O (bt_get i (count_nodes d ids)) = (default O (bt_get i d) + occ i ids)%nat.
Proof.
  induction ids as [|j ids IH]; intros d; [simpl; unfold occ; simpl; lia|]. unfold count_nodes in *. cbn [fold_left]. rewrite IH, occ_cons.
  unfold bt_update. rewrite bt_get_insert. case_cmp_eqb i j; [subst; rewrite decide_True by done; simpl; lia|].
  rewrite decide_False by done. lia.
Qed.

Lemma occ_NoDup i ids : NoDup ids -> occ i ids = if decide (i ∈ ids) then 1%nat else O.
Proof.
  induction 1 as [|j ids Hj _ IH]; [by rewrite decide_False by apply not_elem_of_nil|]. rewrite occ_cons, IH.
  repeat case_decide; rewrite ?elem_of_cons in *; first [lia | exfalso; naive_solver].
Qed.

(** Counting one list per registration counts the registrations that list a node. *)
Lemma count_registrations (f : Registration -> list nat) rs i : forall d,
  Forall (fun r => NoDup (f r)) rs ->
  default O (bt_get i (fold_left (fun d r => count_nodes d (f r)) rs d)) =
    (default O (bt_get i d) + length (base.filter (fun r => i ∈ f r) rs))%nat.
Proof.
  induction rs as [|r rs IH]; intros d Hf; [simpl; lia|]. apply Forall_cons in Hf as [Hr Hf]. cbn [fold_left].
  rewrite IH, count_nodes_get, occ_NoDup, filter_cons by done. case_decide; simpl; lia.
Qed.

(** The nodes of the queries are the live ones. *)
Lemma listed_live U m st : separated U -> reachable U m st ->
  wired (nodes (dataflow m)) /\ Forall (fun r => live m (reg_nodes r) /\ NoDup (reg_nodes r)) (all_registrations m) /\
  forall i x, nodes (dataflow m) !! i = Some (Some x) -> exists r, r ∈ all_registrations m /\ i ∈ reg_nodes r.
Proof.
  intros Hsep Hr. destruct (reachable_inv U m st Hsep Hr) as [P Hm]. pose proof (fi_held _ _ _ (mo_flow _ _ _ _ Hm)) as Hh.
  pose proof (h_graph _ _ _ _ Hh) as Hg. split; [apply Hg|]. destruct (mo_sorted _ _ _ _ Hm) as [Hso _].
  assert (forall h r s, bt_get h (registrations m) = Some r -> sinks (dataflow m) !! reg_sink r = Some (Some s) ->
    lists_nodes (reg_nodes r) s /\ forall i, i ∈ reg_nodes r <-> reaches (dataflow m) (sink_at_node s) i) as Hlist.
  { intros h r s Hget Hs. pose proof (mo_kept _ _ _ _ Hm h) as Hk. rewrite Hget in Hk.
    destruct (bt_get h (queries st)) as [plan|]; [|done]. destruct Hk as (_ & s' & Hs' & _ & _ & Hl). rewrite Hs in Hs'.
    injection Hs' as <-. split; [done|]. intros i. rewrite (proj2 Hl i).
    apply (proj1 (fi_sinks _ _ _ (mo_flow _ _ _ _ Hm) s (list_elem_of_lookup_2 _ _ _ Hs))). }
  split.
  - apply Forall_forall. intros r ((h & r') & -> & Hin)%list_elem_of_fmap. apply (bt_In_get _ _ _ Hso) in Hin. simpl.
    pose proof (mo_kept _ _ _ _ Hm h) as Hk. rewrite Hin in Hk. destruct (bt_get h (queries st)) as [plan|]; [|done].
    destruct Hk as (_ & s & Hs & Hps & _). destruct (Hlist _ _ _ Hin Hs) as [[Hnd _] Hre]. split; [|done].
    apply Forall_forall. intros i Hi%Hre. apply (fits_live _ _ _ Hg), (reaches_live _ _ _ _ Hg (mk_is_Some _ _ Hps) Hi).
  - intros i x Hx. destruct (live_reached m P i Hh) as (s & (k & Hs)%list_elem_of_lookup & Hre); [apply (fits_live _ _ _ Hg); by eexists|].
    destruct (mo_owned _ _ _ _ Hm _ _ Hs) as (h & r & Hget & <-). exists r. split.
    + apply bt_get_In in Hget. apply list_elem_of_fmap. by exists (h, r).
    + by apply (proj2 (Hlist _ _ _ Hget Hs)).
Qed.

(** The sharing column: in how many other queries of the report the node is. *)
Lemma shared_count_spec m i :
  Forall (fun r => NoDup (reg_nodes r)) (all_registrations m) ->
  shared_count (readers_of m) i = pred (length (base.filter (fun r => i ∈ reg_nodes r) (all_registrations m))).
Proof.
  intros Hnd. pose proof (count_registrations reg_nodes (all_registrations m) i bt_empty Hnd) as Hc. unfold shared_count, readers_of.
  destruct (bt_get i _) as [k|]; simpl in *; [by rewrite Hc|]. by destruct (base.filter _ _).
Qed.

Lemma report_row_node m readers i o : report_row m readers i = Some o -> os_node o = i /\ os_shared_with o = shared_count readers i.
Proof. unfold report_row. destruct (node_state _ _) as [[n|]|]; [|done..]. by intros [= <-]. Qed.

Lemma omap_nodes_NoDup m readers ids : NoDup ids -> NoDup (map os_node (omap (report_row m readers) ids)).
Proof.
  induction 1 as [|i ids Hi _ IH]; cbn [omap list_omap map]; [constructor|]. destruct (report_row m readers i) as [o|] eqn:Eo; [|done].
  cbn [map]. constructor; [|done]. destruct (report_row_node _ _ _ _ Eo) as [-> _].
  intros (o' & Hn & (j & Hj & Ho')%list_elem_of_omap)%list_elem_of_fmap. destruct (report_row_node _ _ _ _ Ho') as [Hj' _]. congruence.
Qed.

Lemma report_nodes m readers r i :
  i ∈ map os_node (qs_operators (report_query m readers r)) <-> i ∈ reg_nodes r /\ is_Some (report_row m readers i).
Proof.
  unfold report_query. cbn [qs_operators]. rewrite list_elem_of_fmap. setoid_rewrite list_elem_of_omap. split.
  - intros (o & -> & j & Hj & Ho). destruct (report_row_node _ _ _ _ Ho) as [-> _]. split; [done|by eexists].
  - intros [Hi [o Ho]]. exists o. destruct (report_row_node _ _ _ _ Ho) as [<- _]. split; [done|]. by eexists.
Qed.

Lemma filter_queries m readers i rs :
  is_Some (report_row m readers i) ->
  length (base.filter (fun q => i ∈ map os_node (qs_operators q)) (map (report_query m readers) rs)) =
    length (base.filter (fun r => i ∈ reg_nodes r) rs).
Proof.
  intros Hi. induction rs as [|r rs IH]; [done|]. cbn [map]. rewrite !filter_cons. pose proof (report_nodes m readers r i).
  repeat case_decide; simpl; rewrite ?IH; try done; tauto.
Qed.

(** Totals over the live operators. *)
Lemma counted_total (f : nat * nat -> nat) c d seen :
  counted c d seen -> (forall i, is_Some (held_at c i) -> seen i) ->
  list_sum (map (fun p => f p.2) d) =
    list_sum (map (fun n => match n with Some (NOperator op _) => f (op_state_size op, op_backend_count op) | _ => O end) (nodes c)).
Proof.
  intros [Hs Hd] Hseen. rewrite (distinct_sum d (held_at c) f (length (nodes c)) Hs).
  - rewrite (list_sum_positions (fun n => match n with Some (Some (NOperator op _)) => f (op_state_size op, op_backend_count op) | _ => O end)).
    f_equal. apply map_ext. intros i. unfold held_at. by repeat case_match.
  - intros i. destruct (held_at c i) as [v|] eqn:E; [apply Hd; split; [done|]; apply Hseen; by eexists|].
    destruct (bt_get i d) as [v|] eqn:Eb; [|done]. apply Hd in Eb as [Eb _]. congruence.
  - intros i. unfold held_at. destruct (nodes c !! i) eqn:E; [|by intros []]. intros _. by eapply lookup_lt_Some.
Qed.

(** Maintenance counts the nodes of the registrations, each once. *)
Lemma dedup_nodes (ids : list nat) :
  let l := map fst (fold_left (fun s id => bt_insert id tt s) ids bt_empty) in NoDup l /\ forall i, i ∈ l <-> i ∈ ids.
Proof.
  assert (forall d : btree nat unit, bt_sorted d -> let d' := fold_left (fun s id => bt_insert id tt s) ids d in
    bt_sorted d' /\ forall i, is_Some (bt_get i d') <-> is_Some (bt_get i d) \/ i ∈ ids) as Hgo.
  { induction ids as [|j ids IH]; intros d Hd; cbn [fold_left]; [split; [done|]; intros i; rewrite elem_of_nil; tauto|].
    destruct (IH (bt_insert j tt d)) as [Hs Hg]; [by apply bt_insert_sorted|]. split; [done|]. intros i.
    rewrite Hg, bt_get_insert, elem_of_cons. case_cmp_eqb i j; [subst; split; [tauto|intros _; left; by eexists]|tauto]. }
  destruct (Hgo bt_empty) as [Hs Hg]; [constructor|]. split; [by apply bt_sorted_NoDup|]. intros i. specialize (Hg i). split.
  - intros ((i' & []) & -> & Hin)%list_elem_of_fmap. apply (bt_In_get _ _ _ Hs) in Hin. destruct (proj1 Hg) as [[? ?]|?]; [by eexists|done..].
  - intros Hi. destruct (proj2 Hg (or_intror Hi)) as [[] Hv]. apply bt_get_In in Hv. apply list_elem_of_fmap. by eexists (i, tt).
Qed.

Lemma memberships_sorted m : bt_sorted (memberships m).
Proof.
  unfold memberships. assert (forall rs d, bt_sorted d -> bt_sorted (fold_left (fun counted r => count_nodes counted
    (map fst (fold_left (fun s id => bt_insert id tt s) (reg_nodes r) bt_empty))) rs d)) as Hgo; [|apply Hgo; constructor].
  induction rs as [|r rs IH]; intros d Hd; [done|]. by apply IH, count_nodes_sorted.
Qed.

Lemma count_nodes_some ids i : forall d, is_Some (bt_get i (count_nodes d ids)) <-> is_Some (bt_get i d) \/ i ∈ ids.
Proof.
  induction ids as [|j ids IH]; intros d; [rewrite elem_of_nil; cbn; tauto|]. unfold count_nodes in *. cbn [fold_left].
  rewrite IH, elem_of_cons. unfold bt_update. rewrite bt_get_insert. case_cmp_eqb i j; [subst; split; [tauto|intros _; left; by eexists]|tauto].
Qed.

Lemma memberships_some m i : is_Some (bt_get i (memberships m)) <-> exists r, r ∈ all_registrations m /\ i ∈ reg_nodes r.
Proof.
  unfold memberships. generalize (all_registrations m). intros rs.
  assert (forall d, is_Some (bt_get i (fold_left (fun counted r => count_nodes counted
    (map fst (fold_left (fun s id => bt_insert id tt s) (reg_nodes r) bt_empty))) rs d)) <->
    is_Some (bt_get i d) \/ exists r, r ∈ rs /\ i ∈ reg_nodes r) as Hgo.
  { induction rs as [|r rs IH]; intros d; cbn [fold_left].
    - split; [tauto|]. intros [?|(r & Hr & _)]; [done|]. by apply elem_of_nil in Hr.
    - rewrite IH, count_nodes_some, (proj2 (dedup_nodes _)). setoid_rewrite elem_of_cons. naive_solver. }
  rewrite Hgo. split; [|tauto]. intros [[]|]; done.
Qed.

Lemma maintenance_nodes U m st : separated U -> reachable U m st -> distinct_nodes (explain_maintenance m) = live_nodes (dataflow m).
Proof.
  intros Hsep Hr. destruct (listed_live U m st Hsep Hr) as (_ & Hl & Hown). unfold explain_maintenance. cbn [distinct_nodes].
  assert (forall i, is_Some (bt_get i (memberships m)) <-> exists x, nodes (dataflow m) !! i = Some (Some x)) as Hmem.
  { intros i. rewrite memberships_some. split; [|by intros [x Hx]; eapply Hown]. intros (r & Hin & Hi).
    rewrite Forall_forall in Hl. destruct (Hl r Hin) as [Hlv _]. rewrite Forall_forall in Hlv. by apply Hlv. }
  rewrite length_map. transitivity (list_sum (map (fun p : nat * nat => 1%nat) (memberships m))); [clear; induction (memberships m) as [|p l IH]; [done|]; cbn [map length]; by rewrite IH|].
  rewrite (distinct_sum (memberships m) (fun i => bt_get i (memberships m)) (fun _ => 1%nat) (length (nodes (dataflow m)))
    (memberships_sorted m)); [|done|intros i [x Hx]%Hmem; by eapply lookup_lt_Some].
  unfold live_nodes. transitivity (list_sum (map (fun n : option (Node (AnyOp B)) => if decide (is_Some n) then 1%nat else O) (nodes (dataflow m)))).
  - rewrite (list_sum_positions (fun o => match o with Some n => if decide (is_Some n) then 1%nat else O | None => O end)).
    f_equal. apply map_ext. intros i. destruct (Hmem i) as [Hin Hout].
    destruct (bt_get i (memberships m)) as [k|], (nodes (dataflow m) !! i) as [[x|]|]; try done.
    + by destruct (Hin (mk_is_Some _ _ eq_refl)).
    + by destruct (Hin (mk_is_Some _ _ eq_refl)).
    + by destruct (Hout (ex_intro _ x eq_refl)).
  - clear. induction (nodes (dataflow m)) as [|n l IH]; [done|]. rewrite filter_cons. simpl. rewrite IH. by case_decide.
Qed.

(** C25: the reports of a registry say what is there (I-9).  In every reachable
    registry EXPLAIN STATE succeeds and counts, by walking the queries, exactly
    the entries all live operators hold, each once however many queries read it,
    so it reconciles with the dataflow's own count and with the files whenever
    their size is within the cost model.  A query lists an operator once, and the
    sharing column is the number of other queries that list it.  EXPLAIN
    MAINTENANCE counts the live nodes. *)
Theorem reports_reconcile U m st model bytes :
  separated U -> reachable U m st ->
  exists report r, explain_state m model = Ok report /\ reconcile m model bytes = Ok r /\
    distinct_entries report = total_state_size (dataflow m) /\
    agrees r = negb (on_disk model) || (if (total_state_size (dataflow m) =? 0)%nat
                                        then bytes <=? empty_allowance model (Z.of_nat (distinct_backends report))
                                        else cost_floor model (Z.of_nat (total_state_size (dataflow m))) <=? bytes) /\
    (forall q, q ∈ es_queries report -> NoDup (map os_node (qs_operators q)) /\
       forall o, o ∈ qs_operators q -> os_shared_with o =
         pred (length (base.filter (fun q' => os_node o ∈ map os_node (qs_operators q')) (es_queries report)))) /\
    distinct_nodes (explain_maintenance m) = live_nodes (dataflow m).
Proof.
  intros Hsep Hr. pose proof (reachable_tallied U m st Hr) as Ht. destruct (listed_live U m st Hsep Hr) as (Hw & Hl & Hown).
  assert (Forall (fun r => live m (reg_nodes r)) (all_registrations m)) as Hlive by (eapply Forall_impl; [exact Hl|by intros ? []]).
  assert (Forall (fun r => NoDup (reg_nodes r)) (all_registrations m)) as Hnd by (eapply Forall_impl; [exact Hl|by intros ? []]).
  destruct (explain_registrations_spec m (readers_of m) (all_registrations m) bt_empty [] (fun _ => False) Ht Hw Hlive) as (d & Hd & Hc);
    [by split; [constructor|]; intros i v; split; [done|intros []]|].
  assert (forall i, is_Some (held_at (dataflow m) i) -> False \/ exists r, r ∈ all_registrations m /\ i ∈ reg_nodes r) as Hseen.
  { intros i. unfold held_at. destruct (nodes (dataflow m) !! i) as [[x|]|] eqn:Ei; [|by intros []..]. intros _. right. by eapply Hown. }
  unfold reconcile, explain_state. rewrite Hd. cbn [app] in *. eexists _, _. split; [reflexivity|]. split; [reflexivity|].
  cbn [distinct_entries distinct_backends es_queries]. rewrite (counted_total fst _ _ _ Hc Hseen). split; [done|].
  change (list_sum (map _ (nodes (dataflow m)))) with (total_state_size (dataflow m)).
  split; [|split; [|by eapply maintenance_nodes]].
  - unfold agrees, reconciliation. cbn [reported_entries actual_entries reconcilable actual_bytes rc_floor rc_empty_allowance distinct_entries distinct_backends].
    rewrite Nat.eqb_refl. cbn [negb]. by destruct (on_disk model).
  - intros q (r & -> & Hin)%list_elem_of_fmap. rewrite Forall_forall in Hnd. split.
    + cbn [report_query qs_operators]. apply (omap_nodes_NoDup m (readers_of m)), Hnd, Hin.
    + intros o (i & Hi & Ho)%list_elem_of_omap. destruct (report_row_node _ _ _ _ Ho) as [<- ->].
      rewrite filter_queries by (by eexists). apply shared_count_spec. by apply Forall_forall.
Qed.
End reports.

(** ** Witness *)

#[local] Existing Instance ex_debug.

Lemma reports_reconcile_witness :
  exists m : Memo MemFactory MemBackend, reachable (fun n => n ∈ ex_known) m ex_standing /\
    exists report r, explain_state m cost_redb = Ok report /\ reconcile m cost_redb 4096 = Ok r /\
      distinct_entries report = total_state_size (dataflow m) /\ distinct_nodes (explain_maintenance m) = live_nodes (dataflow m).
Proof.
  destruct (ex_registry_runs SharingOn) as (m & _ & Hr). exists m. split; [exact Hr|].
  destruct (reports_reconcile (fun n => n ∈ ex_known) m ex_standing cost_redb 4096 ex_separated Hr)
    as (report & r & He & Hrc & Hd & _ & _ & Hn).
  exists report, r. split; [exact He|]. split; [exact Hrc|]. split; [exact Hd|exact Hn].
Defined.
