(* ===== verification/Snapshot.v ===== *)
(** * Snapshots ([schweep-batch]: snapshot.rs)

    A snapshot directory holds one Parquet file per table, the ledger of
    acknowledged tokens, the source-attribution ledger and a manifest.  This file
    has the manifest and its text form, the ledger of sources, and the reading
    and writing of tables.  Parquet itself is the class [Parquet]. *)

From Stdlib Require Import ZArith NArith Lia.
From stdpp Require Import base list strings.
From S2P Require Import Prelude BTree Value ZSet Bind Codec ResultStore Compile Text LogRecord Log Memo.

(** ** Errors ([schweep-batch]: error.rs) *)

(** The text of an operating system, Parquet or Arrow message is not modelled. *)
Inductive BatchError :=
| BatchIo
| BatchParquet
| BatchArrow
| CorruptSnapshot (what : string)
| ReservedColumn (column : string)
| BatchUnknownTable (table : string)
| ProvenanceUnavailable (epoch : Z)
| NoCheckpointToAnchorTo
| BatchLog (e : LogError)
| BatchZSet (e : ZSetError)
| BatchCircuit (e : CircuitError)
| BatchSql (e : SqlError)
| BatchMemo (e : MemoError).

Definition io {A} (r : option A) : result BatchError A := ok_or r BatchIo.
Definition corrupt_unless {A} (what : string) (r : option A) : result BatchError A := ok_or r (CorruptSnapshot what).

(** ** The manifest *)

Record Manifest := mkManifest {
  manifest_epoch : Z;
  manifest_tables : btree string (nat * Z);
  dedup_crc : Z;
  provenance_crc : option Z
}.

Definition table_line (p : string * (nat * Z)) : text :=
  let '(table, (rows, crc)) := p in
  tx "table=" ++ tx table ++ tx " rows=" ++ dec (Z.of_nat rows) ++ tx " crc=" ++ hex8 crc.

Definition manifest_body (m : Manifest) : text :=
  let version := match provenance_crc m with Some _ => "current snapshot v2"%string | None => "current snapshot v1"%string end in
  flat_map line
    (tx version :: (tx "epoch=" ++ dec (manifest_epoch m)) :: map table_line (manifest_tables m) ++
     (tx "dedup=" ++ hex8 (dedup_crc m)) ::
     match provenance_crc m with Some crc => [tx "provenance=" ++ hex8 crc] | None => [] end).

Definition manifest_encode (m : Manifest) : list N :=
  let body := manifest_body m in body ++ tx "manifest=" ++ line (hex8 (crc32 body)).

(** The loop variables of [Manifest::decode]. *)
Record ManifestFields := mkFields {
  mf_epoch : option Z;
  mf_tables : btree string (nat * Z);
  mf_dedup : option Z;
  mf_provenance : option Z;
  mf_version : option Z
}.

(** The loop over the words of a [table=] line: name, rows, checksum. *)
Definition table_part (st : option string * option Z * option Z) (part : text) : option string * option Z * option Z :=
  let '(name, rows, crc) := st in
  match split_once 61 part with
  | Some (key, value) =>
      if decide (key = tx "table") then (Some (bytes_string value), rows, crc)
      else if decide (key = tx "rows") then (name, parse_dec value, crc)
      else if decide (key = tx "crc") then (name, rows, parse_u32_hex value)
      else st
  | None => st
  end.

Definition manifest_line (f : ManifestFields) (l : text) : ManifestFields :=
  if decide (l = tx "current snapshot v1") then
    mkFields (mf_epoch f) (mf_tables f) (mf_dedup f) (mf_provenance f) (Some 1)
  else if decide (l = tx "current snapshot v2") then
    mkFields (mf_epoch f) (mf_tables f) (mf_dedup f) (mf_provenance f) (Some 2)
  else
    match strip_prefix (tx "epoch=") l with
    | Some value => mkFields (parse_dec value) (mf_tables f) (mf_dedup f) (mf_provenance f) (mf_version f)
    | None =>
        match strip_prefix (tx "dedup=") l with
        | Some value => mkFields (mf_epoch f) (mf_tables f) (parse_u32_hex (trim value)) (mf_provenance f) (mf_version f)
        | None =>
            match strip_prefix (tx "provenance=") l with
            | Some value => mkFields (mf_epoch f) (mf_tables f) (mf_dedup f) (parse_u32_hex (trim value)) (mf_version f)
            | None =>
                match strip_prefix (tx "table=") l with
                | Some _ =>
                    match fold_left table_part (split_whitespace l) (None, None, None) with
                    | (Some name, Some rows, Some crc) =>
                        mkFields (mf_epoch f) (bt_insert name (Z.to_nat rows, crc) (mf_tables f)) (mf_dedup f)
                          (mf_provenance f) (mf_version f)
                    | _ => f
                    end
                | None => f
                end
            end
        end
    end.

Definition manifest_decode (bytes : list N) : result BatchError Manifest :=
  if negb (utf8_valid bytes) then Err (CorruptSnapshot "manifest is not UTF-8")
  else
    let? '(body, checksum) := corrupt_unless "manifest has no checksum" (rsplit_once (tx "manifest=") bytes) in
    let? expected := corrupt_unless "manifest checksum is not hex" (parse_u32_hex (trim checksum)) in
    if negb (crc32 body =? expected) then Err (CorruptSnapshot "manifest failed its own checksum")
    else
      let f := fold_left manifest_line (lines body) (mkFields None bt_empty None None None) in
      let? version := corrupt_unless "manifest has an unknown snapshot version" (mf_version f) in
      if (version =? 2) && negb (bool_decide (is_Some (mf_provenance f))) then
        Err (CorruptSnapshot "snapshot v2 manifest names no provenance checksum")
      else
        let? epoch := corrupt_unless "manifest names no epoch" (mf_epoch f) in
        let? dedup := corrupt_unless "manifest names no dedup checksum" (mf_dedup f) in
        Ok (mkManifest epoch (mf_tables f) dedup (mf_provenance f)).

Definition PROVENANCE : string := "PROVENANCE".

(** [fs::read(dir.join(MANIFEST))], decoded. *)
Definition read_manifest (files : SnapshotDir) : result BatchError Manifest :=
  let? bytes := io (bt_get MANIFEST files) in manifest_decode bytes.

(** [None] when the directory has no manifest. *)
Definition manifest_of (files : SnapshotDir) : result BatchError (option Manifest) :=
  match bt_get MANIFEST files with
  | Some bytes => let? m := manifest_decode bytes in Ok (Some m)
  | None => Ok None
  end.

(** ** The ledger of sources *)

(** Source id to table to net contribution (source.rs). *)
Abbreviation Integrals := (btree string ZSetBatch).
Abbreviation SourceIntegrals := (btree string Integrals).

(** One (source, table) of [write_provenance]: a framed record, or nothing. *)
Definition provenance_entry (source_id table : string) (integral : ZSetBatch) : result BatchError (list N) :=
  let? consolidated := map_err BatchZSet (consolidate integral) in
  if batch_is_empty consolidated then Ok []
  else Ok (frame (record_encode (RAppend source_id "" table (batch_entries consolidated)))).

Definition provenance_source (p : string * Integrals) : result BatchError (list N) :=
  let? parts := try_map (fun q => provenance_entry p.1 q.1 q.2) p.2 in Ok (concat parts).

(** The bytes written and their checksum. *)
Definition write_provenance (sources : SourceIntegrals) : result BatchError (list N * Z) :=
  let? parts := try_map provenance_source sources in
  let bytes := concat parts in Ok (bytes, crc32 bytes).

Abbreviation RawSources := (btree string (btree string Entries)).

(** [raw.entry(source_id).or_default().entry(table).or_default().extend(entries)] *)
Definition raw_extend (raw : RawSources) (source_id table : string) (es : Entries) : RawSources :=
  let tables := default bt_empty (bt_get source_id raw) in
  bt_insert source_id (bt_insert table (default [] (bt_get table tables) ++ es) tables) raw.

(** The [while at < bytes.len()] loop; a frame takes eight bytes or more. *)
Fixpoint provenance_loop (fuel : nat) (catalog : Catalog) (bytes : list N) (raw : RawSources)
    : result BatchError RawSources :=
  match fuel with
  | O => Ok raw
  | S fuel' =>
      if (length bytes =? 0)%nat then Ok raw
      else
        let? next := map_err BatchLog (read_framed bytes) in
        match next with
        | None => Err (CorruptSnapshot "the source provenance ledger has a torn frame")
        | Some (RAppend source_id _ table es, consumed) =>
            if negb (bt_contains table catalog) then Err (BatchUnknownTable table)
            else provenance_loop fuel' catalog (drop (Z.to_nat consumed) bytes) (raw_extend raw source_id table es)
        | Some (RSealEpoch _, _) => Err (CorruptSnapshot "the source provenance ledger contains an epoch seal")
        end
  end.

(** The batches of one source that are not empty. *)
Definition build_tables (catalog : Catalog) (tables : btree string Entries) : result BatchError Integrals :=
  try_fold (fun built p =>
    let? schema := ok_or (bt_get p.1 catalog) (BatchUnknownTable p.1) in
    let? batch := map_err BatchZSet (from_entries schema p.2) in
    let? batch := map_err BatchZSet (consolidate batch) in
    Ok (if batch_is_empty batch then built else bt_insert p.1 batch built)) bt_empty tables.

Definition build_sources (catalog : Catalog) (raw : RawSources) : result BatchError SourceIntegrals :=
  try_fold (fun out p =>
    let? built := build_tables catalog p.2 in
    Ok (if (length built =? 0)%nat then out else bt_insert p.1 built out)) bt_empty raw.

Definition read_provenance (files : SnapshotDir) (catalog : Catalog) : result BatchError (option SourceIntegrals) :=
  let? m := read_manifest files in
  match provenance_crc m with
  | None => Ok None
  | Some expected =>
      let? bytes := io (bt_get PROVENANCE files) in
      if negb (crc32 bytes =? expected) then
        Err (CorruptSnapshot "the source provenance ledger failed its manifest checksum")
      else
        let? raw := provenance_loop (S (length bytes)) catalog bytes bt_empty in
        let? out := build_sources catalog raw in Ok (Some out)
  end.

(** ** Arrow record batches *)

(** A field of an Arrow schema; [None] is a type the engine has no column of. *)
Record ArrowField := mkArrowField { arrow_name : string; arrow_type : option DataType; arrow_nullable : bool }.

#[export] Instance ArrowField_eq_dec : EqDecision ArrowField.
Proof. solve_decision. Defined.

(** The columns of a record batch, given by its rows. *)
Record RecordBatch := mkRecordBatch { rb_fields : list ArrowField; rb_rows : list Row }.

Definition to_arrow (s : Schema) : list ArrowField :=
  map (fun f => mkArrowField (field_name f) (Some (field_type f)) (nullable f)) (fields s).

(** [RecordBatch::try_new]: a cell is of its column's type, null only where allowed. *)
Definition arrow_cell (f : ArrowField) (v : Value) : bool :=
  match data_type v with None => arrow_nullable f | Some t => bool_decide (arrow_type f = Some t) end.

Fixpoint arrow_row (fs : list ArrowField) (r : Row) : bool :=
  match fs, r with
  | [], [] => true
  | f :: fs', v :: r' => arrow_cell f v && arrow_row fs' r'
  | _, _ => false
  end.

Definition try_new (fs : list ArrowField) (rows : list Row) : option RecordBatch :=
  if forallb (arrow_row fs) rows then Some (mkRecordBatch fs rows) else None.

(** [ArrowSchema::index_of] *)
Definition arrow_index_of (b : RecordBatch) (name : string) : option nat :=
  position (fun f => String.eqb (arrow_name f) name) (rb_fields b).

(** [ZSetBatch::from_arrow], the weights taken from one column.  The text of the
    mismatch is Arrow's rendering of the two schemas. *)
Definition from_arrow (s : Schema) (b : RecordBatch) (weights : list Value) : result ZSetError ZSetBatch :=
  if negb (bool_decide (rb_fields b = to_arrow s)) then Err (SchemaMismatch "" "")
  else if negb (length weights =? length (rb_rows b))%nat then
    Err (WeightLengthMismatch (length weights) (length (rb_rows b)))
  else if existsb is_null weights then Err (Arrow "weight column contains nulls; a weight is always an integer")
  else Ok (mkBatch s (zip (rb_rows b) (map (fun v => match v with VInt w => w | _ => 0 end) weights))).

(** ** Parquet *)

(** [ArrowWriter] and [ParquetRecordBatchReader]: a file of one batch, and the
    batches a reader of the given size yields ([None]: the library's error). *)
Class Parquet := {
  parquet_write : RecordBatch -> option (list N);
  parquet_read : nat -> list N -> option (list (option RecordBatch));
  default_batch_size : nat
}.

Definition WEIGHT_COLUMN : string := "__weight".

Definition weight_field : ArrowField := mkArrowField WEIGHT_COLUMN (Some Int64) false.

Definition table_path (table : string) : string := (table +:+ ".parquet")%string.

Section tables.
Context `{Parquet}.

(** The row with its weight in the last column. *)
Definition weighted (e : Row * Z) : Row := e.1 ++ [VInt e.2].

(** The number of rows and the file. *)
Definition write_table (integral : ZSetBatch) : result BatchError (nat * list N) :=
  let schema := batch_schema integral in
  match schema_index_of schema WEIGHT_COLUMN with
  | Some _ => Err (ReservedColumn WEIGHT_COLUMN)
  | None =>
      let? consolidated := map_err BatchZSet (consolidate integral) in
      let file_schema := to_arrow schema ++ [weight_field] in
      let? batch := ok_or (try_new file_schema (map weighted (batch_entries consolidated))) BatchArrow in
      let? bytes := ok_or (parquet_write batch) BatchParquet in
      Ok (batch_len consolidated, bytes)
  end.

Definition decode_batch (b : RecordBatch) (schema : Schema) : result BatchError ZSetBatch :=
  let? weight_index := corrupt_unless "a snapshot file has no __weight column" (arrow_index_of b WEIGHT_COLUMN) in
  if negb (bool_decide ((rb_fields b !! weight_index) ≫= arrow_type = Some Int64)) then
    Err (CorruptSnapshot "__weight is not an Int64 column")
  else
    let weights := map (fun r => default VNull (r !! weight_index)) (rb_rows b) in
    let data := mkRecordBatch (take weight_index (rb_fields b)) (map (take weight_index) (rb_rows b)) in
    map_err BatchZSet (from_arrow schema data weights).

Definition read_table (bytes : list N) (schema : Schema) : result BatchError ZSetBatch :=
  let? reader := ok_or (parquet_read default_batch_size bytes) BatchParquet in
  let? es := try_fold (fun es b =>
    let? batch := ok_or b BatchArrow in
    let? rows := decode_batch batch schema in
    Ok (es ++ batch_entries rows)) [] reader in
  map_err BatchZSet (from_entries schema es).

(** ** Loading whole *)

Definition load_table (files : SnapshotDir) (catalog : Catalog) (out : Integrals) (p : string * (nat * Z))
    : result BatchError Integrals :=
  let '(table, (rows, crc)) := p in
  let? schema := ok_or (bt_get table catalog) (BatchUnknownTable table) in
  let? bytes := io (bt_get (table_path table) files) in
  if negb (crc32 bytes =? crc) then Err (CorruptSnapshot "a snapshot file failed its manifest checksum")
  else
    let? integral := read_table bytes schema in
    if negb (batch_len integral =? rows)%nat then
      Err (CorruptSnapshot "a snapshot file holds a different number of rows than the manifest claims")
    else Ok (bt_insert table integral out).

Definition load (files : SnapshotDir) (catalog : Catalog) : result BatchError Integrals :=
  let? m := read_manifest files in
  try_fold (load_table files catalog) bt_empty (manifest_tables m).

(** ** Streaming *)

Record TableDescriptor := mkDescriptor {
  descriptor_table : string;
  descriptor_path : string;
  descriptor_schema : Schema;
  expected_rows : nat
}.

Record CurrentTable := mkCurrent { descriptor : TableDescriptor; reader : list (option RecordBatch); current_rows : nat }.

Record SnapshotChunks := mkChunks { pending_tables : list TableDescriptor; current : option CurrentTable; chunks_failed : bool }.

Definition READ_BUFFER : nat := Z.to_nat (64 * 1024).

(** [file_crc32]: the checksum of a file read a buffer at a time. *)
Fixpoint crc_pieces (buffer fuel : nat) (checksum : Z) (bytes : list N) : Z :=
  match fuel, bytes with
  | S fuel', _ :: _ => crc_pieces buffer fuel' (crc_update checksum (take buffer bytes)) (drop buffer bytes)
  | _, _ => crc_finish checksum
  end.

Definition file_crc32 (files : SnapshotDir) (path : string) : result BatchError Z :=
  let? bytes := io (bt_get path files) in Ok (crc_pieces READ_BUFFER (length bytes) crc_new bytes).

Definition describe (files : SnapshotDir) (catalog : Catalog) (p : string * (nat * Z)) : result BatchError TableDescriptor :=
  let '(table, (rows, crc)) := p in
  let? schema := ok_or (bt_get table catalog) (BatchUnknownTable table) in
  let path := table_path table in
  let? found := file_crc32 files path in
  if negb (found =? crc) then Err (CorruptSnapshot "a snapshot file failed its manifest checksum")
  else Ok (mkDescriptor table path schema rows).

Definition chunks (files : SnapshotDir) (catalog : Catalog) : result BatchError SnapshotChunks :=
  let? m := read_manifest files in
  let? pending := try_map (describe files catalog) (manifest_tables m) in
  Ok (mkChunks pending None false).

Definition fail_chunks (c : SnapshotChunks) : SnapshotChunks := mkChunks (pending_tables c) (current c) true.

(** One record batch of the open table. *)
Definition next_batch (c : SnapshotChunks) (cur : CurrentTable) (b : option RecordBatch) (rest : list (option RecordBatch))
    : SnapshotChunks * option (result BatchError EpochDeltas) :=
  match ok_or b BatchArrow with
  | Err e => (fail_chunks c, Some (Err e))
  | Ok batch =>
      match decode_batch batch (descriptor_schema (descriptor cur)) with
      | Err e => (fail_chunks c, Some (Err e))
      | Ok rows =>
          let seen := (current_rows cur + batch_len rows)%nat in
          let c := mkChunks (pending_tables c) (Some (mkCurrent (descriptor cur) rest seen)) (chunks_failed c) in
          if (expected_rows (descriptor cur) <? seen)%nat then
            (fail_chunks c, Some (Err (CorruptSnapshot "a snapshot file holds more rows than its manifest claims")))
          else (c, Some (Ok (deltas_extend deltas_new (descriptor_table (descriptor cur)) (batch_entries rows))))
      end
  end.

(** The [loop] of [Iterator::next]: it opens and closes each table once. *)
Fixpoint chunks_loop (fuel : nat) (files : SnapshotDir) (c : SnapshotChunks)
    : SnapshotChunks * option (result BatchError EpochDeltas) :=
  match fuel with
  | O => (c, None)
  | S fuel' =>
      match current c with
      | Some cur =>
          match reader cur with
          | b :: rest => next_batch c cur b rest
          | [] =>
              if negb (current_rows cur =? expected_rows (descriptor cur))%nat then
                (fail_chunks c,
                 Some (Err (CorruptSnapshot "a snapshot file holds a different number of rows than its manifest claims")))
              else chunks_loop fuel' files (mkChunks (pending_tables c) None (chunks_failed c))
          end
      | None =>
          match pending_tables c with
          | [] => (c, None)
          | d :: pending =>
              let c := mkChunks pending None (chunks_failed c) in
              match bt_get (descriptor_path d) files with
              | None => (fail_chunks c, Some (Err BatchIo))
              | Some bytes =>
                  match parquet_read 1024 bytes with
                  | None => (fail_chunks c, Some (Err BatchParquet))
                  | Some items => chunks_loop fuel' files (mkChunks pending (Some (mkCurrent d items 0)) (chunks_failed c))
                  end
              end
          end
      end
  end.

Definition chunks_next (files : SnapshotDir) (c : SnapshotChunks) : SnapshotChunks * option (result BatchError EpochDeltas) :=
  if chunks_failed c then (c, None) else chunks_loop (2 * length (pending_tables c) + 2) files c.

(** [collect()], up to an error. *)
Fixpoint chunks_collect (fuel : nat) (files : SnapshotDir) (c : SnapshotChunks) : list (result BatchError EpochDeltas) :=
  match fuel with
  | O => []
  | S fuel' => match chunks_next files c with (c', Some x) => x :: chunks_collect fuel' files c' | (_, None) => [] end
  end.
End tables.
