(* ===== verification/SnapshotCorrect.v ===== *)
(** * Snapshots come back as they were written

    The manifest, the ledger of sources and the tables of a snapshot, read back. *)

From Stdlib Require Import ZArith NArith Lia.
From stdpp Require Import base list strings.
From S2P Require Import Prelude BTree ZAlg Value ZSet Bind Codec ResultStore Compile Text LogRecord Log Snapshot.

(** ** The manifest *)

(** A table whose name the manifest can carry: it has no white space. *)
Definition table_name (s : string) : bool := utf8_valid (tx s) && spaceless (tx s).

Definition valid_table (p : string * (nat * Z)) : bool :=
  table_name p.1 && (Z.of_nat p.2.1 <? 2 ^ 64) && (0 <=? p.2.2) && (p.2.2 <? 2 ^ 32).

Definition u32 (v : Z) : bool := (0 <=? v) && (v <? 2 ^ 32).

Definition valid_manifest (m : Manifest) : bool :=
  (0 <=? manifest_epoch m) && (manifest_epoch m <? 2 ^ 64) && forallb valid_table (manifest_tables m) &&
  u32 (dedup_crc m) && match provenance_crc m with Some crc => u32 crc | None => true end.

Lemma valid_table_facts t rows crc :
  valid_table (t, (rows, crc)) = true ->
  utf8_valid (tx t) = true /\ spaceless (tx t) = true /\ Z.of_nat rows < 2 ^ 64 /\ 0 <= crc < 2 ^ 32.
Proof. unfold valid_table, table_name. simpl. rewrite !andb_true_iff, Z.leb_le, !Z.ltb_lt. tauto. Qed.

Lemma table_line_words t rows crc :
  valid_table (t, (rows, crc)) = true ->
  split_whitespace (table_line (t, (rows, crc))) =
    [tx "table" ++ 61%N :: tx t; tx "rows" ++ 61%N :: dec (Z.of_nat rows); tx "crc" ++ 61%N :: hex8 crc].
Proof.
  intros (_ & Hs & _ & _)%valid_table_facts. unfold table_line.
  change (tx " rows=" ++ ?x) with (32%N :: tx "rows=" ++ x). change (tx " crc=" ++ ?x) with (32%N :: tx "crc=" ++ x).
  rewrite app_assoc, split_whitespace_word by (done || by apply spaceless_plain_app).
  rewrite app_assoc, split_whitespace_word by (done || apply spaceless_plain; by rewrite plain_app, dec_plain).
  rewrite split_whitespace_last by (done || apply spaceless_plain; rewrite plain_app; apply hex_digits_plain). done.
Qed.

Lemma table_line_one_line t rows crc :
  valid_table (t, (rows, crc)) = true ->
  one_line (table_line (t, (rows, crc))) = true /\ utf8_valid (table_line (t, (rows, crc))) = true.
Proof.
  intros (Hu & Hs & _ & _)%valid_table_facts. pose proof (hex_digits_plain 8 crc) as Hh. fold (hex8 crc) in Hh.
  assert (plain (tx "crc=" ++ hex8 crc) = true) as Hc by (by rewrite plain_app).
  pose proof (dec_plain (Z.of_nat rows)) as Hd. unfold table_line. split.
  - change (tx " crc=" ++ hex8 crc) with ([32%N] ++ tx "crc=" ++ hex8 crc).
    rewrite !app_assoc. rewrite <- (app_assoc _ (tx "crc=")). apply one_line_app; [|done|by apply one_line_plain].
    rewrite !forallb_app. rewrite (plain_no_newline _ Hd), (spaceless_no_newline _ Hs). done.
  - rewrite !utf8_valid_app; try done; by apply plain_utf8.
Qed.

Lemma table_part_key st k v :
  61%N ∉ tx k ->
  table_part st (tx k ++ 61%N :: v) =
  let '(name, rows, crc) := st in
  if decide (k = "table"%string) then (Some (bytes_string v), rows, crc)
  else if decide (k = "rows"%string) then (name, parse_dec v, crc)
  else if decide (k = "crc"%string) then (name, rows, parse_u32_hex v)
  else st.
Proof.
  intros Hk. destruct st as [[n r] c]. unfold table_part. rewrite split_once_app by done.
  assert (forall t, tx k = tx t <-> k = t) as E by (split; [apply tx_inj|congruence]).
  by repeat (rewrite (decide_ext _ _ _ _ (E _)); case_decide).
Qed.

Lemma manifest_line_table f t rows crc :
  valid_table (t, (rows, crc)) = true ->
  manifest_line f (table_line (t, (rows, crc))) =
  mkFields (mf_epoch f) (bt_insert t (rows, crc) (mf_tables f)) (mf_dedup f) (mf_provenance f) (mf_version f).
Proof.
  intros Hv. unfold manifest_line. rewrite (table_line_words _ _ _ Hv). apply valid_table_facts in Hv as (_ & _ & Hr & Hc).
  set (l := table_line _). unfold table_line in l. rewrite !decide_False by discriminate.
  change (strip_prefix (tx "epoch=") l) with (@None text). change (strip_prefix (tx "dedup=") l) with (@None text).
  change (strip_prefix (tx "provenance=") l) with (@None text).
  unfold l. rewrite strip_prefix_app. cbn [fold_left]. rewrite !table_part_key by not_in. decide_strings. cbn iota beta.
  by rewrite parse_dec_dec, parse_hex8, Nat2Z.id, bytes_string_tx by lia.
Qed.

Lemma manifest_lines_tables ts : forall f,
  forallb valid_table ts = true ->
  fold_left manifest_line (map table_line ts) f =
  mkFields (mf_epoch f) (fold_left (fun m p => bt_insert p.1 p.2 m) ts (mf_tables f)) (mf_dedup f) (mf_provenance f)
    (mf_version f).
Proof.
  induction ts as [|[t [rows crc]] ts IH]; intros f Hv; [by destruct f|]. simpl in Hv.
  apply andb_true_iff in Hv as [Ht Hts]. cbn [map fold_left]. rewrite manifest_line_table by done. by rewrite IH.
Qed.

Definition manifest_text (m : Manifest) : list text :=
  tx (match provenance_crc m with Some _ => "current snapshot v2"%string | None => "current snapshot v1"%string end) ::
  (tx "epoch=" ++ dec (manifest_epoch m)) :: map table_line (manifest_tables m) ++
  (tx "dedup=" ++ hex8 (dedup_crc m)) ::
  match provenance_crc m with Some crc => [tx "provenance=" ++ hex8 crc] | None => [] end.

Lemma manifest_body_text m :
  valid_manifest m = true ->
  lines (manifest_body m) = manifest_text m /\ utf8_valid (manifest_body m) = true.
Proof.
  unfold valid_manifest. rewrite !andb_true_iff. intros ((((_ & _) & Ht) & _) & _).
  change (manifest_body m) with (flat_map line (manifest_text m)).
  assert (forall k v, plain (tx k ++ hex8 v) = plain (tx k)) as Hh.
  { intros k v. rewrite plain_app. unfold hex8. by rewrite hex_digits_plain, andb_true_r. }
  assert (forallb (fun l => one_line l && utf8_valid l) (manifest_text m) = true) as Hall.
  { unfold manifest_text. cbn [forallb]. rewrite forallb_app. cbn [forallb].
    rewrite one_line_key, utf8_key by (done || apply one_line_plain, dec_plain || apply plain_utf8, dec_plain).
    rewrite (one_line_plain (tx "dedup=" ++ _)), (plain_utf8 (tx "dedup=" ++ _)) by by rewrite Hh.
    assert (forallb (fun l => one_line l && utf8_valid l) (map table_line (manifest_tables m)) = true) as ->.
    { revert Ht. induction (manifest_tables m) as [|[t [r c]] ts IH]; [done|]. cbn [forallb map].
      intros [H Hts]%andb_true_iff. destruct (table_line_one_line t r c H) as [-> ->]. by apply IH. }
    destruct (provenance_crc m); [|done]. cbn [forallb].
    by rewrite (one_line_plain (tx "provenance=" ++ _)), (plain_utf8 (tx "provenance=" ++ _)) by by rewrite Hh. }
  rewrite forallb_forall in Hall. split; [apply lines_flat|apply flat_lines_utf8];
    apply forallb_forall; intros l Hl; specialize (Hall l Hl); by apply andb_true_iff in Hall as [? ?].
Qed.

Lemma manifest_line_epoch f v :
  manifest_line f (tx "epoch=" ++ v) = mkFields (parse_dec v) (mf_tables f) (mf_dedup f) (mf_provenance f) (mf_version f).
Proof. unfold manifest_line. by rewrite !decide_False, strip_prefix_app by discriminate. Qed.

Lemma manifest_line_dedup f v :
  manifest_line f (tx "dedup=" ++ v) =
  mkFields (mf_epoch f) (mf_tables f) (parse_u32_hex (trim v)) (mf_provenance f) (mf_version f).
Proof.
  unfold manifest_line. rewrite !decide_False by discriminate.
  change (strip_prefix (tx "epoch=") (tx "dedup=" ++ v)) with (@None text). by rewrite strip_prefix_app.
Qed.

Lemma manifest_line_provenance f v :
  manifest_line f (tx "provenance=" ++ v) =
  mkFields (mf_epoch f) (mf_tables f) (mf_dedup f) (parse_u32_hex (trim v)) (mf_version f).
Proof.
  unfold manifest_line. rewrite !decide_False by discriminate.
  change (strip_prefix (tx "epoch=") (tx "provenance=" ++ v)) with (@None text).
  change (strip_prefix (tx "dedup=") (tx "provenance=" ++ v)) with (@None text). by rewrite strip_prefix_app.
Qed.

Lemma manifest_line_version f (v2 : bool) :
  manifest_line f (tx (if v2 then "current snapshot v2" else "current snapshot v1")) =
  mkFields (mf_epoch f) (mf_tables f) (mf_dedup f) (mf_provenance f) (Some (if v2 then 2 else 1)).
Proof. unfold manifest_line. destruct v2; [rewrite decide_False by discriminate|]; by rewrite decide_True. Qed.

(** What the lines of a manifest say. *)
Lemma manifest_text_fields m :
  valid_manifest m = true -> bt_sorted (manifest_tables m) ->
  fold_left manifest_line (manifest_text m) (mkFields None bt_empty None None None) =
  mkFields (Some (manifest_epoch m)) (manifest_tables m) (Some (dedup_crc m)) (provenance_crc m)
    (Some (match provenance_crc m with Some _ => 2 | None => 1 end)).
Proof.
  intros Hv Hs. unfold valid_manifest, u32 in Hv. rewrite !andb_true_iff, !Z.leb_le, !Z.ltb_lt in Hv.
  destruct Hv as ((((He0 & He) & Ht) & Hd) & Hp). pose proof (bt_of_list_id _ Hs) as Hid. unfold bt_of_list in Hid.
  unfold manifest_text. cbn [fold_left]. rewrite fold_left_app.
  rewrite manifest_line_epoch, manifest_lines_tables, parse_dec_dec by done. cbn [fold_left].
  rewrite manifest_line_dedup, trim_plain, parse_hex8 by (done || apply hex_digits_plain).
  destruct (provenance_crc m) as [pc|].
  - rewrite (manifest_line_version _ true). cbn [fold_left]. apply andb_true_iff in Hp as [Hp0 Hp].
    rewrite manifest_line_provenance, trim_plain, parse_hex8 by (lia || apply hex_digits_plain).
    cbn [mf_epoch mf_tables mf_dedup mf_provenance mf_version]. by rewrite Hid.
  - rewrite (manifest_line_version _ false). cbn [fold_left mf_epoch mf_tables mf_dedup mf_provenance mf_version].
    by rewrite Hid.
Qed.

Lemma manifest_round_trip m :
  valid_manifest m = true -> bt_sorted (manifest_tables m) -> manifest_decode (manifest_encode m) = Ok m.
Proof.
  intros Hv Hs. destruct (manifest_body_text m Hv) as [Hl Hu].
  unfold manifest_decode, manifest_encode. pose proof (crc32_text _ Hu) as Hc.
  rewrite utf8_valid_app, utf8_key by (done || apply line_utf8, plain_utf8, hex_digits_plain). cbn [negb].
  destruct (checksum_parts (tx "manifest") (manifest_body m) (crc32 (manifest_body m))) as [Hr Hx]; [not_in|done|].
  change (tx "manifest=") with (tx "manifest" ++ [61%N]). rewrite Hr. cbn [corrupt_unless ok_or]. rewrite Hx.
  cbn [corrupt_unless ok_or]. rewrite Z.eqb_refl, Hl. cbn [negb]. rewrite manifest_text_fields by done.
  by destruct m as [e ts dc [pc|]].
Qed.

(** ** Parquet files *)

(** What the engine stores: typed cells a process can hold, named columns. *)
Definition storable (b : RecordBatch) : bool :=
  forallb (fun f => valid_text (arrow_name f) && bool_decide (is_Some (arrow_type f))) (rb_fields b) &&
  (Z.of_nat (length (rb_fields b)) <? 2 ^ 62) && (Z.of_nat (length (rb_rows b)) <? 2 ^ 63) &&
  forallb (fun r => arrow_row (rb_fields b) r && forallb valid_cell r) (rb_rows b).

(** A file gives back the batch it was written from, cut into batches of the
    reader's size, under the same fields. *)
Class ParquetLaws (P : Parquet) := {
  parquet_size : (0 < default_batch_size)%nat;
  parquet_round_trip b : storable b = true ->
    exists bytes, parquet_write b = Some bytes /\ bytes_ok bytes /\
      forall size, (0 < size)%nat ->
        exists parts, parquet_read size bytes = Some (map Some parts) /\
          Forall (fun p => rb_fields p = rb_fields b) parts /\ concat (map rb_rows parts) = rb_rows b
}.

(** A catalog whose tables a snapshot can hold. *)
Definition storable_schema (s : Schema) : bool :=
  negb (length (fields s) =? 0)%nat && (Z.of_nat (length (fields s)) <? 2 ^ 61) &&
  forallb (fun f => valid_text (field_name f) && negb (String.eqb (field_name f) WEIGHT_COLUMN)) (fields s).

Lemma position_app {A} (p : A -> bool) l x :
  forallb (fun a => negb (p a)) l = true -> p x = true -> position p (l ++ [x]) = Some (length l).
Proof.
  induction l as [|a l IH]; simpl; [by intros _ ->|]. intros [Ha Hl]%andb_true_iff Hx.
  apply negb_true_iff in Ha. rewrite Ha, IH by done. done.
Qed.

Lemma position_None {A} (p : A -> bool) l : forallb (fun a => negb (p a)) l = true -> position p l = None.
Proof.
  induction l as [|a l IH]; simpl; [done|]. intros [Ha Hl]%andb_true_iff. apply negb_true_iff in Ha. by rewrite Ha, IH.
Qed.

Lemma storable_schema_facts s :
  storable_schema s = true ->
  fields s <> [] /\ Z.of_nat (length (fields s)) < 2 ^ 61 /\ schema_index_of s WEIGHT_COLUMN = None /\
  position (fun f => String.eqb (arrow_name f) WEIGHT_COLUMN) (to_arrow s ++ [weight_field]) = Some (length (fields s)) /\
  forallb (fun f => valid_text (arrow_name f) && bool_decide (is_Some (arrow_type f))) (to_arrow s ++ [weight_field]) = true.
Proof.
  unfold storable_schema. rewrite !andb_true_iff, negb_true_iff, Nat.eqb_neq, Z.ltb_lt.
  intros ((Hne & Hl) & Hf).
  assert (forallb (fun f => negb (String.eqb (field_name f) WEIGHT_COLUMN)) (fields s) = true) as Hw.
  { rewrite forallb_forall in *. intros f Hin. specialize (Hf f Hin). by apply andb_true_iff in Hf as [_ ?]. }
  split_and!; [by intros E; rewrite E in Hne|done|by apply position_None| |].
  - replace (length (fields s)) with (length (to_arrow s)) by (unfold to_arrow; by rewrite length_map).
    apply position_app; [|done]. unfold to_arrow. clear -Hw. induction (fields s); simpl in *; [done|].
    apply andb_true_iff in Hw as [-> ?]. auto.
  - rewrite forallb_app. unfold to_arrow. apply andb_true_iff. split; [|by vm_compute].
    clear -Hf. induction (fields s); simpl in *; [done|]. apply andb_true_iff in Hf as [Ha ?].
    apply andb_true_iff in Ha as [-> _]. simpl. auto.
Qed.

Lemma conforms_arrow s r w : conforms s r -> arrow_row (to_arrow s ++ [weight_field]) (weighted (r, w)) = true.
Proof.
  unfold conforms, weighted, to_arrow. simpl. induction 1 as [|f v fs r Hv _ IH]; [done|]. cbn [map app arrow_row].
  rewrite IH, andb_true_r. unfold arrow_cell, fits_field in *. simpl. destruct (data_type v); [|done].
  subst. by apply bool_decide_eq_true.
Qed.

Lemma weighted_take s (e : Row * Z) :
  length e.1 = length (fields s) ->
  take (length (fields s)) (weighted e) = e.1 /\ weighted e !! length (fields s) = Some (VInt e.2).
Proof.
  intros <-. unfold weighted. split; [by rewrite take_app_length|].
  by rewrite lookup_app_r, Nat.sub_diag by lia.
Qed.

Lemma decode_weighted s es :
  storable_schema s = true -> Forall (fun e => length e.1 = length (fields s)) es ->
  decode_batch (mkRecordBatch (to_arrow s ++ [weight_field]) (map weighted es)) s = Ok (mkBatch s es).
Proof.
  intros (_ & _ & _ & Hp & _)%storable_schema_facts Hes. assert (length (to_arrow s) = length (fields s)) as Hl by apply length_map.
  assert ((to_arrow s ++ [weight_field]) !! length (fields s) = Some weight_field) as Hw
    by (rewrite <- Hl; by rewrite lookup_app_r, Nat.sub_diag by lia).
  assert (take (length (fields s)) (to_arrow s ++ [weight_field]) = to_arrow s) as Ht
    by (rewrite <- Hl; by rewrite take_app_length).
  unfold decode_batch, arrow_index_of. cbn [rb_fields rb_rows]. rewrite Hp. cbn [corrupt_unless ok_or].
  rewrite Hw, Ht, !map_map. cbn -[weighted fields]. unfold from_arrow. cbn [rb_fields rb_rows].
  rewrite !bool_decide_eq_true_2 by done. rewrite !length_map, Nat.eqb_refl. simpl.
  assert (map (fun e => default VNull (weighted e !! length (fields s))) es = map (fun e => VInt e.2) es) as ->.
  { apply map_ext_Forall. eapply Forall_impl; [exact Hes|]. intros e He. by destruct (weighted_take s e He) as [_ ->]. }
  assert (map (fun e => take (length (fields s)) (weighted e)) es = map fst es) as ->.
  { apply map_ext_Forall. eapply Forall_impl; [exact Hes|]. intros e He. by destruct (weighted_take s e He) as [-> _]. }
  assert (existsb is_null (map (fun e : Row * Z => VInt e.2) es) = false) as ->.
  { clear. induction es; simpl; auto. }
  rewrite map_map. simpl. do 2 f_equal. clear. induction es as [|[r w] es IH]; [done|]. simpl. by rewrite IH.
Qed.

Lemma concat_map_parts {A B} (f : A -> B) (ls : list (list B)) : forall es,
  concat ls = map f es -> exists ess, ls = map (map f) ess /\ concat ess = es.
Proof.
  induction ls as [|l ls IH]; intros es E; simpl in E.
  - exists []. split; [done|]. by destruct es.
  - symmetry in E. apply map_eq_app in E as (e1 & e2 & -> & <- & E). destruct (IH e2 (eq_sym E)) as (ess & -> & <-).
    by exists (e1 :: ess).
Qed.

(** The batches a reader yields are the rows, in order, cut somewhere. *)
Definition parts_of (s : Schema) (ess : list Entries) : list RecordBatch :=
  map (fun es => mkRecordBatch (to_arrow s ++ [weight_field]) (map weighted es)) ess.

Section tables.
Context `{P : Parquet, !ParquetLaws P}.

(** An integral in canonical form that a snapshot can hold. *)
Definition storable_batch (b : ZSetBatch) : Prop :=
  storable_schema (batch_schema b) = true /\ zcanonical (batch_entries b) /\
  Forall (fun e => conforms (batch_schema b) e.1) (batch_entries b) /\
  Forall (fun e => valid_entry e = true) (batch_entries b) /\ Z.of_nat (length (batch_entries b)) < 2 ^ 63.

Lemma storable_batch_wf b : storable_batch b -> wf_batch b.
Proof. intros ((Hne & _)%storable_schema_facts & _ & Hc & _). by split. Qed.

Lemma consolidate_id b : storable_batch b -> consolidate b = Ok b.
Proof.
  intros Hb. rewrite consolidate_Ok by by apply storable_batch_wf. destruct Hb as (_ & Hc & _). destruct b as [s es].
  simpl in *. by rewrite consolidated_entries_id.
Qed.

Lemma storable_file s es :
  storable_batch (mkBatch s es) ->
  try_new (to_arrow s ++ [weight_field]) (map weighted es) =
    Some (mkRecordBatch (to_arrow s ++ [weight_field]) (map weighted es)) /\
  storable (mkRecordBatch (to_arrow s ++ [weight_field]) (map weighted es)) = true.
Proof.
  intros ((_ & Hl & _ & _ & Hf)%storable_schema_facts & _ & Hc & Hv & Hn). simpl in *.
  assert (forallb (fun r => arrow_row (to_arrow s ++ [weight_field]) r && forallb valid_cell r) (map weighted es) = true) as Hr.
  { apply forallb_forall. intros r (e & <- & He)%in_map_iff. apply list_elem_of_In in He.
    rewrite Forall_forall in Hc, Hv. specialize (Hc _ He). specialize (Hv _ He). destruct e as [row w].
    rewrite conforms_arrow by done. unfold valid_entry in Hv. simpl in Hv. rewrite !andb_true_iff in Hv.
    destruct Hv as ((_ & Hcell) & Hw). unfold weighted. simpl. rewrite forallb_app, Hcell. simpl. by rewrite Hw. }
  split.
  - unfold try_new. assert (forallb (arrow_row (to_arrow s ++ [weight_field])) (map weighted es) = true) as ->; [|done].
    rewrite forallb_forall in *. intros r Hin. specialize (Hr r Hin). by apply andb_true_iff in Hr as [? _].
  - unfold storable. cbn [rb_fields rb_rows]. rewrite Hf, Hr, length_app, !length_map. unfold to_arrow. rewrite length_map.
    cbn [length]. rewrite (proj2 (Z.ltb_lt _ _)), (proj2 (Z.ltb_lt _ _)) by lia. done.
Qed.

(** A table's file, and what any reader of it yields. *)
Lemma write_table_spec b :
  storable_batch b ->
  exists bytes, write_table b = Ok (batch_len b, bytes) /\ bytes_ok bytes /\
    forall size, (0 < size)%nat -> exists ess, parquet_read size bytes = Some (map Some (parts_of (batch_schema b) ess)) /\
      concat ess = batch_entries b.
Proof.
  intros Hb. pose proof (consolidate_id b Hb) as Hcon. destruct b as [s es]. destruct (storable_file s es Hb) as [Hnew Hst].
  destruct (parquet_round_trip _ Hst) as (bytes & Hw & Hok & Hread). exists bytes. split_and!; [|done|].
  - unfold write_table. cbn [batch_schema]. destruct Hb as ((_ & _ & Hx & _ & _)%storable_schema_facts & _). simpl in Hx.
    rewrite Hx, Hcon. cbn [map_err batch_entries]. rewrite Hnew. cbn [ok_or]. by rewrite Hw.
  - intros size Hsz. destruct (Hread size Hsz) as (parts & Hp & Hf & Hc). cbn [rb_fields rb_rows batch_schema batch_entries] in *.
    destruct (concat_map_parts weighted (map rb_rows parts) es Hc) as (ess & E & Hes). exists ess. split; [|done].
    rewrite Hp. do 2 f_equal. clear -Hf E. revert ess E. induction Hf as [|p parts Hp _ IH]; intros [|e ess]; simpl; try done.
    intros [= E1 E2]. rewrite (IH ess E2). unfold parts_of. simpl. f_equal. destruct p. simpl in *. congruence.
Qed.

Lemma read_parts s ess acc :
  storable_schema s = true -> Forall (Forall (fun e => length e.1 = length (fields s))) ess ->
  try_fold (fun es b =>
    let? batch := ok_or b BatchArrow in
    let? rows := decode_batch batch s in
    Ok (es ++ batch_entries rows)) acc (map Some (parts_of s ess)) = Ok (acc ++ concat ess).
Proof.
  intros Hs. revert acc. induction ess as [|es ess IH]; intros acc Hl; [by rewrite app_nil_r|].
  apply Forall_cons in Hl as [He Hl]. cbn [parts_of map try_fold ok_or]. rewrite decode_weighted by done.
  cbn [batch_entries]. fold (parts_of s ess). rewrite IH by done. by rewrite <- app_assoc.
Qed.

Lemma conforms_lengths s es :
  Forall (fun e : Row * Z => conforms s e.1) es -> Forall (fun e => length e.1 = length (fields s)) es.
Proof. intros Hc. eapply Forall_impl; [exact Hc|]. intros e He. by apply conforms_length. Qed.

Lemma table_round_trip b bytes :
  storable_batch b -> write_table b = Ok (batch_len b, bytes) -> read_table bytes (batch_schema b) = Ok b.
Proof.
  intros Hb Hw. destruct (write_table_spec b Hb) as (bytes' & Hw' & _ & Hread). rewrite Hw' in Hw. injection Hw as <-.
  destruct (Hread default_batch_size parquet_size) as (ess & Hr & Hc). destruct b as [s es].
  pose proof Hb as (Hs & _ & Hcf & _). cbn [batch_schema batch_entries] in *. unfold read_table. rewrite Hr. cbn [ok_or].
  rewrite read_parts; [|done|].
  - rewrite app_nil_l, Hc. assert (from_entries s es = Ok (mkBatch s es)) as ->; [|done].
    apply from_entries_Ok; [|done]. by apply storable_schema_facts in Hs as [? _].
  - apply Forall_concat. rewrite Hc. by apply conforms_lengths.
Qed.
End tables.

(** ** The ledger of sources *)

(** A batch a source owns, as the ledger keeps it: one frame, canonical. *)
Record owned (catalog : Catalog) (source table : string) (b : ZSetBatch) : Prop := {
  ow_schema : bt_get table catalog = Some (batch_schema b);
  ow_batch : storable_batch b;
  ow_some : batch_entries b <> [];
  ow_record : record_ok (RAppend source "" table (batch_entries b)) = true
}.

Definition valid_tables (catalog : Catalog) (source : string) (tables : Integrals) : Prop :=
  tables <> [] /\ bt_sorted tables /\ Forall (fun q => owned catalog source q.1 q.2) tables.

Definition valid_sources (catalog : Catalog) (sources : SourceIntegrals) : Prop :=
  bt_sorted sources /\ Forall (fun p => valid_tables catalog p.1 p.2) sources.

Definition owned_record (source : string) (q : string * ZSetBatch) : Record_ := RAppend source "" q.1 (batch_entries q.2).

Definition ledger_records (sources : SourceIntegrals) : list Record_ :=
  flat_map (fun p => map (owned_record p.1) p.2) sources.

Lemma batch_some_len b : batch_entries b <> [] -> batch_is_empty b = false.
Proof. unfold batch_is_empty, batch_len. by destruct (batch_entries b). Qed.

Lemma provenance_source_frames catalog source tables :
  Forall (fun q => owned catalog source q.1 q.2) tables ->
  provenance_source (source, tables) = Ok (flat_map rframe (map (owned_record source) tables)).
Proof.
  intros Ht. unfold provenance_source. cbn [fst snd].
  rewrite (try_map_pure _ (fun q => rframe (owned_record source q))); [by rewrite flat_map_concat_map, map_map|].
  intros [t b] Hin. rewrite Forall_forall in Ht. destruct (Ht _ Hin) as [_ Hb Hs _]. simpl in *.
  unfold provenance_entry. rewrite consolidate_id by done. cbn [map_err]. by rewrite batch_some_len.
Qed.

Lemma write_provenance_frames catalog sources :
  valid_sources catalog sources ->
  write_provenance sources =
  Ok (flat_map rframe (ledger_records sources), crc32 (flat_map rframe (ledger_records sources))).
Proof.
  intros [_ Hall]. unfold write_provenance.
  rewrite (try_map_pure _ (fun p => flat_map rframe (map (owned_record p.1) p.2))).
  - assert (concat (map (fun p => flat_map rframe (map (owned_record p.1) p.2)) sources) =
      flat_map rframe (ledger_records sources)) as ->; [|done].
    unfold ledger_records. clear. induction sources as [|p sources IH]; [done|]. simpl. by rewrite flat_map_app, IH.
  - intros [s T] Hin. rewrite Forall_forall in Hall. destruct (Hall _ Hin) as (_ & _ & Ht). by eapply provenance_source_frames.
Qed.

(** The ledger's records, read into the loop's map. *)
Definition raw_of (tables : Integrals) : btree string Entries := bt_map (fun _ b => batch_entries b) tables.

Lemma read_framed_rframe r rest :
  record_ok r = true -> read_framed (rframe r ++ rest) = Ok (Some (r, Z.of_nat (length (rframe r)))).
Proof.
  unfold record_ok. intros [Hv Hl]%andb_true_iff. apply Z.ltb_lt in Hl. unfold rframe.
  rewrite read_framed_frame by (done || apply record_encode_ok). by rewrite decode_encode_record.
Qed.

#[local] Opaque rframe.

Lemma provenance_step fuel catalog s t es rest raw :
  record_ok (RAppend s "" t es) = true -> bt_contains t catalog = true ->
  provenance_loop (S fuel) catalog (rframe (RAppend s "" t es) ++ rest) raw =
  provenance_loop fuel catalog rest (raw_extend raw s t es).
Proof.
  intros Hr Ht. cbn [provenance_loop]. pose proof (rframe_length (RAppend s "" t es)) as Hl.
  rewrite (proj2 (Nat.eqb_neq _ _)) by (rewrite length_app; lia).
  rewrite read_framed_rframe by done. cbn [map_err]. rewrite Ht. cbn [negb]. by rewrite Nat2Z.id, drop_app_length.
Qed.

Lemma raw_extend_last done_ s tabs t es :
  Forall (fun p => cmp p.1 s = Lt) done_ -> Forall (fun p => cmp p.1 t = Lt) tabs ->
  raw_extend (done_ ++ match tabs with [] => [] | _ => [(s, tabs)] end) s t es = done_ ++ [(s, tabs ++ [(t, es)])].
Proof.
  intros Hd Ht. unfold raw_extend. destruct tabs as [|q tabs].
  - rewrite app_nil_r. assert (bt_get s done_ = None) as ->.
    { apply bt_get_Forall_None. eapply Forall_impl; [exact Hd|]. intros p Hp ->. by apply cmp_lt_irrefl in Hp. }
    simpl. by rewrite bt_insert_above.
  - rewrite bt_get_last by done. change (default bt_empty (Some (q :: tabs))) with (q :: tabs).
    rewrite bt_insert_last by done.
    assert (bt_get t (q :: tabs) = None) as ->.
    { apply bt_get_Forall_None. eapply Forall_impl; [exact Ht|]. intros p Hp ->. by apply cmp_lt_irrefl in Hp. }
    by rewrite bt_insert_above.
Qed.

Lemma provenance_tables fuel catalog s rest tables : forall done_ tabs,
  bt_sorted (tabs ++ raw_of tables) -> Forall (fun q => owned catalog s q.1 q.2) tables ->
  Forall (fun p => cmp p.1 s = Lt) done_ -> tabs ++ raw_of tables <> [] ->
  provenance_loop (length tables + fuel) catalog (flat_map rframe (map (owned_record s) tables) ++ rest)
    (done_ ++ match tabs with [] => [] | _ => [(s, tabs)] end) =
  provenance_loop fuel catalog rest (done_ ++ [(s, tabs ++ raw_of tables)]).
Proof.
  induction tables as [|[t b] tables IH]; intros done_ tabs Hs Ho Hd Hne.
  - simpl in *. rewrite app_nil_r in *. by destruct tabs.
  - apply Forall_cons in Ho as [[Hsc Hb Hsm Hr] Ho]. cbn [map flat_map length]. unfold owned_record at 1. cbn [fst snd].
    rewrite <- app_assoc. cbn [plus]. rewrite provenance_step; [|done|unfold bt_contains; simpl in Hsc; by rewrite Hsc].
    pose proof (bt_sorted_app_above _ _ _ _ Hs) as Hab. rewrite raw_extend_last by done.
    specialize (IH done_ (tabs ++ [(t, batch_entries b)])). rewrite <- app_assoc in IH.
    destruct (tabs ++ [(t, batch_entries b)]) eqn:E; [by destruct tabs|]. rewrite <- E in *. by apply IH.
Qed.

Definition raw_sources (sources : SourceIntegrals) : RawSources := bt_map (fun _ T => raw_of T) sources.

Lemma provenance_sources catalog sources : forall fuel done_,
  bt_sorted (done_ ++ raw_sources sources) -> Forall (fun p => valid_tables catalog p.1 p.2) sources ->
  (length (ledger_records sources) < fuel)%nat ->
  provenance_loop fuel catalog (flat_map rframe (ledger_records sources)) done_ = Ok (done_ ++ raw_sources sources).
Proof.
  induction sources as [|[s T] sources IH]; intros fuel done_ Hs Hv Hf.
  - rewrite app_nil_r. by destruct fuel.
  - apply Forall_cons in Hv as [(Hne & Hst & Ho) Hv]. cbn [fst snd] in *. unfold ledger_records in *.
    cbn [flat_map fst snd] in *. rewrite flat_map_app, length_app, length_map in *.
    replace fuel with (length T + (fuel - length T))%nat by lia.
    pose proof (bt_sorted_app_above _ _ _ _ Hs) as Hab.
    pose proof (provenance_tables (fuel - length T) catalog s (flat_map rframe (ledger_records sources)) T done_ []) as Ht.
    cbn [app] in Ht. rewrite app_nil_r in Ht. unfold ledger_records in Ht. rewrite Ht; [|by apply bt_map_sorted|done|done|by destruct T].
    rewrite IH; [by rewrite <- app_assoc|by rewrite <- app_assoc|done|lia].
Qed.

Lemma build_tables_raw catalog s tables :
  valid_tables catalog s tables -> build_tables catalog (raw_of tables) = Ok tables.
Proof.
  intros (_ & Hst & Ho). unfold build_tables.
  assert (forall built p, p ∈ raw_of tables ->
    (let? schema := ok_or (bt_get p.1 catalog) (BatchUnknownTable p.1) in
     let? batch := map_err BatchZSet (from_entries schema p.2) in
     let? batch := map_err BatchZSet (consolidate batch) in
     Ok (if batch_is_empty batch then built else bt_insert p.1 batch built)) =
    Ok (bt_insert p.1 (default (mkBatch (mkSchema []) []) (bt_get p.1 tables)) built)) as Hb.
  { intros built p Hin. unfold raw_of, bt_map in Hin. apply list_elem_of_In, in_map_iff in Hin as ([t b] & <- & Hin).
    apply list_elem_of_In in Hin. rewrite Forall_forall in Ho. destruct (Ho _ Hin) as [Hsc Hb Hsm _]. cbn [fst snd] in *.
    rewrite Hsc. cbn [ok_or]. destruct (storable_batch_wf b Hb) as [Hne Hc].
    rewrite (proj2 (from_entries_Ok _ _ _ Hne) (conj eq_refl Hc)). cbn [map_err].
    replace (mkBatch (batch_schema b) (batch_entries b)) with b by (by destruct b).
    rewrite consolidate_id by done. cbn [map_err]. rewrite batch_some_len by done.
    by rewrite (bt_In_get t b tables Hst Hin). }
  rewrite (try_fold_pure _ _ _ _ Hb). f_equal.
  rewrite (bt_collect (fun k _ => default (mkBatch (mkSchema []) []) (bt_get k tables))) by by apply bt_map_sorted.
  apply bt_ext; [by apply bt_map_sorted, bt_map_sorted|done|]. intros k. unfold raw_of. rewrite !bt_get_map.
  by destruct (bt_get k tables).
Qed.

Lemma provenance_round_trip catalog sources files m :
  valid_sources catalog sources -> bt_get MANIFEST files = Some (manifest_encode m) ->
  valid_manifest m = true -> bt_sorted (manifest_tables m) ->
  bt_get PROVENANCE files = Some (flat_map rframe (ledger_records sources)) ->
  provenance_crc m = Some (crc32 (flat_map rframe (ledger_records sources))) ->
  read_provenance files catalog = Ok (Some sources).
Proof.
  intros [Hs Hv] Hm Hvm Hsm Hp Hc. unfold read_provenance, read_manifest. rewrite Hm. cbn [io ok_or].
  rewrite manifest_round_trip by done. rewrite Hc, Hp. cbn [io ok_or]. rewrite Z.eqb_refl. cbn [negb].
  rewrite (provenance_sources catalog sources _ []); [|by apply bt_map_sorted|done|].
  2: { assert (forall rs, (length rs <= length (flat_map rframe rs))%nat) as Hl.
       { induction rs as [|r rs IH]; simpl; [lia|]. rewrite length_app. pose proof (rframe_length r). lia. }
       specialize (Hl (ledger_records sources)). lia. }
  rewrite app_nil_l. unfold build_sources.
  rewrite (try_fold_pure _ (fun out p => bt_insert p.1 (default [] (bt_get p.1 sources)) out)).
  - do 2 f_equal. unfold raw_sources.
    rewrite (bt_collect (fun k _ => default [] (bt_get k sources))) by by apply bt_map_sorted.
    apply bt_ext; [by apply bt_map_sorted, bt_map_sorted|done|]. intros k. rewrite !bt_get_map.
    by destruct (bt_get k sources).
  - intros out p Hin. unfold raw_sources, bt_map in Hin. apply list_elem_of_In, in_map_iff in Hin as ([s T] & <- & Hin).
    apply list_elem_of_In in Hin. rewrite Forall_forall in Hv. pose proof (Hv _ Hin) as Ht. cbn [fst snd] in *.
    rewrite (build_tables_raw _ _ _ Ht). destruct Ht as (Hne & _ & _).
    rewrite (bt_In_get s T sources Hs Hin). by destruct T.
Qed.

(** ** Whole snapshots *)

Lemma table_path_inj t t' : table_path t = table_path t' -> t = t'.
Proof.
  intros E. apply (f_equal tx) in E. unfold table_path in E. rewrite !tx_app in E. by apply app_inv_tail, tx_inj in E.
Qed.

Lemma table_path_last t : last (tx (table_path t)) = Some 116%N.
Proof. unfold table_path. by rewrite tx_app, last_app. Qed.

Lemma table_path_ne t name : last (tx name) <> Some 116%N -> table_path t <> name.
Proof. intros Hn <-. by rewrite table_path_last in Hn. Qed.

Lemma crc_update_concat c a b : crc_update c (a ++ b) = crc_update (crc_update c a) b.
Proof. apply fold_left_app. Qed.

Lemma READ_BUFFER_pos : READ_BUFFER <> 0%nat.
Proof. unfold READ_BUFFER. intros E%(Z2Nat.inj _ 0); [discriminate E|discriminate|discriminate]. Qed.

#[local] Opaque READ_BUFFER.

Lemma crc_pieces_spec buffer fuel c bytes :
  buffer <> 0%nat -> (length bytes <= fuel)%nat -> crc_pieces buffer fuel c bytes = crc_finish (crc_update c bytes).
Proof.
  intros Hb. revert c bytes. induction fuel as [|fuel IH]; intros c bytes Hl.
  - destruct bytes; [done|simpl in Hl; lia].
  - destruct bytes as [|b bytes]; [done|]. cbn [crc_pieces]. rewrite IH.
    + by rewrite <- crc_update_concat, take_drop.
    + rewrite length_drop. cbn [length] in *. lia.
Qed.

(** Checksumming a file through a fixed buffer is checksumming it whole. *)
Lemma file_crc32_whole files path bytes :
  bt_get path files = Some bytes -> file_crc32 files path = Ok (crc32 bytes).
Proof. intros E. unfold file_crc32. rewrite E. cbn [io ok_or]. by rewrite crc_pieces_spec by (apply READ_BUFFER_pos || done). Qed.

Section snapshot.
Context `{P : Parquet, !ParquetLaws P} (catalog : Catalog).

Definition file_of (b : ZSetBatch) : list N := match write_table b with Ok (_, bytes) => bytes | Err _ => [] end.

Lemma file_of_spec b : storable_batch b -> write_table b = Ok (batch_len b, file_of b) /\ bytes_ok (file_of b).
Proof. intros Hb. unfold file_of. by destruct (write_table_spec b Hb) as (bytes & -> & Hok & _). Qed.

(** Integrals a snapshot can hold under the catalog's schemas. *)
Definition valid_integrals (integrals : Integrals) : Prop :=
  bt_sorted integrals /\
  Forall (fun p => table_name p.1 = true /\ bt_get p.1 catalog = Some (batch_schema p.2) /\ storable_batch p.2) integrals.

(** The manifest's view of them, and the directory that holds them. *)
Definition sums_of (integrals : Integrals) : btree string (nat * Z) :=
  bt_map (fun _ b => (batch_len b, crc32 (file_of b))) integrals.

Definition tables_in (integrals : Integrals) (files : SnapshotDir) : Prop :=
  forall t b, bt_get t integrals = Some b -> bt_get (table_path t) files = Some (file_of b).

Lemma valid_integrals_get integrals t b :
  valid_integrals integrals -> bt_get t integrals = Some b ->
  table_name t = true /\ bt_get t catalog = Some (batch_schema b) /\ storable_batch b.
Proof. intros [_ Hall] Hg. rewrite Forall_forall in Hall. apply (Hall (t, b)). by apply bt_get_In. Qed.

Lemma sums_valid integrals : valid_integrals integrals -> forallb valid_table (sums_of integrals) = true.
Proof.
  intros [_ Hall]. apply forallb_forall. intros p Hin. unfold sums_of, bt_map in Hin.
  apply in_map_iff in Hin as ([t b] & <- & Hin). apply list_elem_of_In in Hin. rewrite Forall_forall in Hall.
  destruct (Hall _ Hin) as (Ht & _ & Hb). cbn [fst snd] in *. destruct (file_of_spec b Hb) as [_ Hok].
  pose proof (crc32_range _ Hok) as Hc. destruct Hb as (_ & _ & _ & _ & Hl). unfold valid_table. cbn [fst snd].
  rewrite Ht. unfold batch_len. cbn [andb]. rewrite !andb_true_iff, Z.leb_le, !Z.ltb_lt. lia.
Qed.

Lemma load_round_trip integrals m files :
  valid_integrals integrals -> valid_manifest m = true -> manifest_tables m = sums_of integrals ->
  bt_get MANIFEST files = Some (manifest_encode m) -> tables_in integrals files ->
  load files catalog = Ok integrals.
Proof.
  intros Hv Hvm Hmt Hm Ht. pose proof Hv as [Hs Hall]. unfold load, read_manifest. rewrite Hm. cbn [io ok_or].
  rewrite manifest_round_trip; [|done|rewrite Hmt; by apply bt_map_sorted]. rewrite Hmt.
  rewrite (try_fold_pure _ (fun out p => bt_insert p.1 (default (mkBatch (mkSchema []) []) (bt_get p.1 integrals)) out)).
  - f_equal. unfold sums_of. rewrite (bt_collect (fun k _ => default (mkBatch (mkSchema []) []) (bt_get k integrals)))
      by by apply bt_map_sorted.
    apply bt_ext; [by apply bt_map_sorted, bt_map_sorted|done|]. intros k. rewrite !bt_get_map.
    by destruct (bt_get k integrals).
  - intros out p Hin. unfold sums_of, bt_map in Hin. apply list_elem_of_In, in_map_iff in Hin as ([t b] & <- & Hin).
    apply list_elem_of_In in Hin. pose proof (bt_In_get t b integrals Hs Hin) as Hg.
    destruct (valid_integrals_get _ _ _ Hv Hg) as (_ & Hc & Hb). cbn [fst snd load_table].
    rewrite Hc. cbn [ok_or]. rewrite (Ht _ _ Hg). cbn [io ok_or]. rewrite Z.eqb_refl. cbn [negb].
    destruct (file_of_spec b Hb) as [Hw _]. rewrite (table_round_trip b _ Hb Hw), Nat.eqb_refl, Hg. done.
Qed.

(** ** Streaming *)

Definition chunks_need (c : SnapshotChunks) : nat :=
  2 * length (pending_tables c) + match current c with Some _ => 2 | None => 1 end.

(** The loop of [next] ends before its fuel. *)
Lemma chunks_loop_fuel fuel : forall fuel' files c,
  (chunks_need c <= fuel)%nat -> (chunks_need c <= fuel')%nat -> chunks_loop fuel files c = chunks_loop fuel' files c.
Proof.
  induction fuel as [|fuel IH]; intros fuel' files c Hf Hf'; unfold chunks_need in *; [destruct (current c); lia|].
  destruct fuel' as [|fuel']; [destruct (current c); lia|]. cbn [chunks_loop]. destruct (current c) as [cur|].
  - destruct (reader cur); [|done]. destruct (negb _); [done|]. apply IH; simpl; lia.
  - destruct (pending_tables c) as [|d pending]; [done|]. destruct (bt_get _ files); [|done].
    destruct (parquet_read _ _); [|done]. apply IH; simpl in *; lia.
Qed.

Definition describe_of (p : string * ZSetBatch) : TableDescriptor :=
  mkDescriptor p.1 (table_path p.1) (batch_schema p.2) (batch_len p.2).

Lemma chunks_open integrals m files :
  valid_integrals integrals -> valid_manifest m = true -> manifest_tables m = sums_of integrals ->
  bt_get MANIFEST files = Some (manifest_encode m) -> tables_in integrals files ->
  chunks files catalog = Ok (mkChunks (map describe_of integrals) None false).
Proof.
  intros Hv Hvm Hmt Hm Ht. pose proof Hv as [Hs Hall]. unfold chunks, read_manifest. rewrite Hm. cbn [io ok_or].
  rewrite manifest_round_trip; [|done|rewrite Hmt; by apply bt_map_sorted]. rewrite Hmt.
  unfold sums_of, bt_map. assert (forall l, (forall p, p ∈ l -> p ∈ integrals) ->
    try_map (describe files catalog) (map (fun p => (p.1, (batch_len p.2, crc32 (file_of p.2)))) l) =
    Ok (map describe_of l)) as ->; [|done|done].
  induction l as [|[t b] l IH]; intros Hl; [done|]. cbn [map try_map].
  pose proof (bt_In_get t b integrals Hs (Hl _ ltac:(by left))) as Hg.
  destruct (valid_integrals_get _ _ _ Hv Hg) as (_ & Hc & Hb). cbn [fst snd describe]. rewrite Hc. cbn [ok_or].
  rewrite (file_crc32_whole _ _ _ (Ht _ _ Hg)), Z.eqb_refl. cbn [negb]. rewrite IH; [done|].
  intros p Hp. apply Hl. by right.
Qed.

Lemma next_opens files t b pending ess :
  bt_get (table_path t) files = Some (file_of b) ->
  parquet_read 1024 (file_of b) = Some (map Some (parts_of (batch_schema b) ess)) ->
  chunks_next files (mkChunks (describe_of (t, b) :: pending) None false) =
  chunks_next files (mkChunks pending (Some (mkCurrent (describe_of (t, b)) (map Some (parts_of (batch_schema b) ess)) 0)) false).
Proof.
  intros Hf Hr. unfold chunks_next. cbn [chunks_failed pending_tables length].
  replace (2 * S (length pending) + 2)%nat with (S (2 * length pending + 3)) by lia. cbn [chunks_loop current pending_tables].
  unfold describe_of at 1. cbn [descriptor_path fst]. rewrite Hf, Hr. apply chunks_loop_fuel; unfold chunks_need; simpl; lia.
Qed.

Lemma next_closes files d pending n :
  expected_rows d = n ->
  chunks_next files (mkChunks pending (Some (mkCurrent d [] n)) false) = chunks_next files (mkChunks pending None false).
Proof.
  intros <-. unfold chunks_next. cbn [chunks_failed pending_tables].
  rewrite (chunks_loop_fuel _ (S (2 * length pending + 1)) files (mkChunks pending (Some _) false))
    by (unfold chunks_need; simpl; lia).
  cbn [chunks_loop current reader current_rows descriptor]. rewrite Nat.eqb_refl. cbn [negb]. apply chunks_loop_fuel; unfold chunks_need; simpl; lia.
Qed.

(** The chunks of one table. *)
Lemma collect_parts files t b pending fuel ess : forall n,
  storable_schema (batch_schema b) = true -> Forall (Forall (fun e => length e.1 = length (fields (batch_schema b)))) ess ->
  (n + length (concat ess) = batch_len b)%nat ->
  chunks_collect (length ess + S fuel) files
    (mkChunks pending (Some (mkCurrent (describe_of (t, b)) (map Some (parts_of (batch_schema b) ess)) n)) false) =
  map (fun es => Ok (deltas_extend deltas_new t es)) ess ++ chunks_collect (S fuel) files (mkChunks pending None false).
Proof.
  induction ess as [|es ess IH]; intros n Hs Hl Hn.
  - cbn [length plus map app chunks_collect parts_of]. rewrite next_closes; [done|]. simpl in *. unfold batch_len in *. lia.
  - apply Forall_cons in Hl as [He Hl]. cbn [length plus map app parts_of]. cbn [chunks_collect].
    unfold chunks_next at 1. cbn [chunks_failed pending_tables]. rewrite Nat.add_comm. cbn [plus chunks_loop current reader].
    unfold next_batch. cbn [ok_or descriptor current_rows]. unfold describe_of at 1. cbn [descriptor_schema snd].
    rewrite decode_weighted by done. unfold batch_len at 1 2. cbn [batch_entries]. cbn [concat] in Hn. rewrite length_app in Hn.
    rewrite (proj2 (Nat.ltb_ge _ _)) by (unfold describe_of; cbn [expected_rows snd]; lia). cbn [describe_of descriptor_table fst].
    f_equal. apply IH; [done|done|]. unfold batch_len in *. cbn [batch_entries] in *. lia.
Qed.

Lemma collect_tables files integrals :
  valid_integrals integrals -> tables_in integrals files ->
  exists ds, (forall fuel, (length ds < fuel)%nat ->
      chunks_collect fuel files (mkChunks (map describe_of integrals) None false) = map Ok ds) /\
    (forall t, flat_map (fun d => entries_for d t) ds = default [] (batch_entries <$> bt_get t integrals)).
Proof.
  induction integrals as [|[t b] integrals IH]; intros Hv Ht.
  - exists []. split; [|done]. intros fuel Hf. destruct fuel; [simpl in Hf; lia|done].
  - destruct Hv as [Hs Hall]. pose proof (bt_sorted_cons_inv _ _ _ Hs) as [Hs' Hab].
    apply Forall_cons in Hall as [(_ & _ & Hb) Hall]. cbn [fst snd] in *.
    destruct IH as (ds & Hcol & Hent); [done| |].
    { intros t' b' Hg. apply Ht. rewrite bt_get_cons. case_cmp_eqb t' t; [|done]. subst.
      rewrite bt_get_below in Hg; done. }
    destruct (write_table_spec b Hb) as (bytes & Hw & _ & Hread). destruct (Hread 1024%nat ltac:(lia)) as (ess & Hr & Hc).
    assert (file_of b = bytes) as Hf by (unfold file_of; by rewrite Hw).
    exists (map (deltas_extend deltas_new t) ess ++ ds). split.
    + intros fuel Hlt. rewrite length_app, length_map in Hlt.
      replace fuel with (length ess + S (fuel - length ess - 1))%nat by lia. rewrite map_app, map_map.
      rewrite <- (Hcol (S (fuel - length ess - 1))) by lia. cbn [map].
      rewrite <- (collect_parts files t b (map describe_of integrals) (fuel - length ess - 1) ess 0).
      * rewrite !(Nat.add_comm (length ess)). cbn [plus chunks_collect].
        rewrite (next_opens files t b (map describe_of integrals) ess); [done| |by rewrite Hf].
        apply Ht. by rewrite bt_get_cons, cmp_eqb_refl.
      * by destruct Hb as [? _].
      * apply Forall_concat. rewrite Hc. destruct Hb as (_ & _ & Hcf & _). by apply conforms_lengths.
      * rewrite Hc. done.
    + intros t'. rewrite flat_map_app, Hent, bt_get_cons. rewrite flat_map_concat_map, map_map.
      assert (forall es, entries_for (deltas_extend deltas_new t es) t' = if cmp_eqb t' t then es else []) as He.
      { intros es. unfold entries_for, deltas_extend, bt_update. cbn [tables deltas_new]. rewrite bt_get_insert.
        by case_cmp_eqb t' t. }
      rewrite (map_ext _ _ He). case_cmp_eqb t' t.
      * subst. rewrite map_id, Hc. rewrite bt_get_below by done. simpl. by rewrite app_nil_r.
      * clear. induction ess; [done|]. done.
Qed.
End snapshot.
