(* ===== verification/Compaction.v ===== *)
(** * Compaction, bootstrap and one-shot queries ([schweep-batch]: source.rs,
    hydrate.rs, compact.rs, oneshot.rs)

    The accumulated contents of the tables read from the live snapshot and the
    retained log, who contributed them, the compaction that moves a prefix of the
    log into a snapshot, and the one-shot query over what was read. *)

From Stdlib Require Import ZArith NArith Lia.
From stdpp Require Import base list strings pretty.
From S2P Require Import Prelude BTree Value ZSet Plan Bind Codec State Operator ResultStore Circuit Engine Compile Text LogRecord Log Snapshot.

Section batch.
Context `{Parquet}.

(** ** Ownership ([source.rs]) *)

(** The files of the live snapshot, if the log has one. *)
Definition live_files (log : Log) (d : Disk) : option SnapshotDir :=
  name ← log_snapshot log; Some (default bt_empty (bt_get name (snapshots d))).

Definition extend_one (catalog : Catalog) (source : Integrals) (table : string) (es : Entries) : result BatchError Integrals :=
  let? schema := ok_or (bt_get table catalog) (BatchUnknownTable table) in
  let? delta := map_err BatchZSet (from_entries schema es) in
  let? combined := match bt_get table source with Some current => map_err BatchZSet (ZSet.add current delta) | None => Ok delta end in
  Ok (bt_insert table combined (bt_remove table source)).

Definition extend (catalog : Catalog) (out : SourceIntegrals) (b : Batch) : result BatchError SourceIntegrals :=
  let? source := extend_one catalog (default bt_empty (bt_get (source_id b) out)) (batch_table b) (batch_rows b) in
  Ok (bt_insert (source_id b) source out).

Definition consolidate_one (tables : Integrals) : result BatchError Integrals :=
  try_fold (fun out p =>
    let? batch := map_err BatchZSet (ZSet.consolidate p.2) in
    Ok (if batch_is_empty batch then out else bt_insert p.1 batch out)) bt_empty tables.

Definition consolidate_all (all : SourceIntegrals) : result BatchError SourceIntegrals :=
  let? all := try_map (fun p => let? tables := consolidate_one p.2 in Ok (p.1, tables)) all in
  Ok (base.filter (fun p => p.2 <> []) all).

(** Every source's contribution through [anchor], without the pending appends. *)
Definition source_integrals_upto (log : Log) (d : Disk) (catalog : Catalog) (anchor : Z) : result BatchError SourceIntegrals :=
  if anchor <? retained_from log then Err (BatchLog (EpochCompacted anchor (retained_from log)))
  else if log_sealed_epoch log <? anchor then Err (BatchLog (LogEpochOutOfRange anchor (log_sealed_epoch log)))
  else
    let? out :=
      match live_files log d with
      | None => Ok bt_empty
      | Some files =>
          let? found := read_provenance files catalog in
          match found with
          | Some provenance => Ok provenance
          | None => if retained_from log =? 0 then Ok bt_empty else Err (ProvenanceUnavailable (retained_from log))
          end
      end in
    let? out := try_fold (fun out epoch =>
      let? batches := map_err BatchLog (log_epoch log d epoch) in
      try_fold (extend catalog) out batches) out (epochs_after (retained_from log) anchor) in
    consolidate_all out.

(** One source, its unsealed appends included. *)
Definition source_integral (log : Log) (d : Disk) (catalog : Catalog) (source : string) : result BatchError Integrals :=
  let? all := source_integrals_upto log d catalog (log_sealed_epoch log) in
  let? out := try_fold (fun out b => extend_one catalog out (batch_table b) (batch_rows b))
    (default bt_empty (bt_get source all))
    (base.filter (fun b => source_id b = source) (log_pending log)) in
  consolidate_one out.

(** ** Bootstrap ([hydrate.rs]) *)

Definition live_integrals (log : Log) (d : Disk) (catalog : Catalog) : result BatchError Integrals :=
  match live_files log d with None => Ok bt_empty | Some files => load files catalog end.

Definition accumulate_batch (catalog : Catalog) (integrals : Integrals) (b : Batch) : result BatchError Integrals :=
  let? schema := ok_or (bt_get (batch_table b) catalog) (BatchUnknownTable (batch_table b)) in
  let? delta := map_err BatchZSet (from_entries schema (batch_rows b)) in
  let? merged := match bt_get (batch_table b) integrals with Some held => map_err BatchZSet (ZSet.add held delta) | None => Ok delta end in
  let? merged := map_err BatchZSet (ZSet.consolidate merged) in
  Ok (bt_insert (batch_table b) merged integrals).

Definition accumulated_upto (log : Log) (d : Disk) (catalog : Catalog) (upto : Z) : result BatchError Integrals :=
  let? integrals := live_integrals log d catalog in
  try_fold (fun integrals epoch =>
    let? batches := map_err BatchLog (log_epoch log d epoch) in
    try_fold (accumulate_batch catalog) integrals batches) integrals
    (epochs_after (retained_from log) (Z.min upto (log_sealed_epoch log))).

Definition accumulated (log : Log) (d : Disk) (catalog : Catalog) : result BatchError Integrals :=
  accumulated_upto log d catalog (log_sealed_epoch log).

Definition as_one_delta (integrals : Integrals) : result BatchError EpochDeltas :=
  try_fold (fun deltas p =>
    let? c := map_err BatchZSet (canonical p.2) in
    Ok (deltas_extend deltas p.1 (canonical_entries c))) deltas_new integrals.

Definition one_delta_for (log : Log) (d : Disk) (catalog : Catalog) : result BatchError EpochDeltas :=
  let? integrals := accumulated log d catalog in as_one_delta integrals.

(** ** Compaction ([compact.rs]) *)

Record Compacted := mkCompacted {
  compacted_anchor : Z;
  compacted_snapshot : string;
  compacted_rows : btree string nat;
  compacted_tokens : nat;
  compacted_sources : nat
}.

(** [format!("{epoch:010}")] *)
Definition pad10 (n : Z) : string :=
  let digits := pretty (Z.to_N n) in (zeros (10 - String.length digits) +:+ digits)%string.

Definition snapshot_dir (epoch : Z) : string := ("snap-" +:+ pad10 epoch)%string.
Definition partial_dir (epoch : Z) : string := (snapshot_dir epoch +:+ ".partial")%string.

Definition with_snapshots (d : Disk) (snaps : btree string SnapshotDir) : Disk := mkDisk (segments d) (pointer d) snaps.

(** What P2 has written so far: the files, the rows and checksums per table. *)
Record Written := mkWritten { wr_files : SnapshotDir; wr_rows : btree string nat; wr_sums : btree string (nat * Z) }.

(** P2's loop; an error leaves the files of the tables before it. *)
Fixpoint write_tables (w : Written) (integrals : Integrals) : Written * result BatchError unit :=
  match integrals with
  | [] => (w, Ok tt)
  | (table, integral) :: rest =>
      match write_table integral with
      | Err e => (w, Err e)
      | Ok (rows, bytes) =>
          write_tables (mkWritten (bt_insert (table_path table) bytes (wr_files w)) (bt_insert table rows (wr_rows w))
                          (bt_insert table (rows, crc32 bytes) (wr_sums w))) rest
      end
  end.

(** P9 and R5: [.partial] entries, and snapshots older than the live one. *)
Definition superseded (live : Z) (name : string) : bool :=
  ends_with (tx ".partial") (tx name) ||
  match strip_prefix (tx "snap-") (tx name) with
  | Some digits => match parse_dec digits with Some epoch => epoch <? live | None => false end
  | None => false
  end.

Definition cleanup (d : Disk) (live : Z) : Disk :=
  with_snapshots d (base.filter (fun p => superseded live p.1 = false) (snapshots d)).

Abbreviation CompactOut := (FaultInjector * Disk * Log * result BatchError Compacted)%type.

Definition seam_fault {A} (seam : Seam) : result BatchError A := Err (BatchLog (InjectedFault (seam_name seam))).

(** P6 to P9: the log's side, then the cleanup. *)
Definition compact_commit (log : Log) (d : Disk) (faults : FaultInjector) (done : Compacted) : CompactOut :=
  let anchor := compacted_anchor done in
  let '(faults, hit) := reached faults CompactAfterPublishBeforeSegment in
  if hit then (faults, d, log, seam_fault CompactAfterPublishBeforeSegment)
  else
    match Log.compact log d faults anchor (Some (compacted_snapshot done)) with
    | (faults, d, log, Err e) => (faults, d, log, Err (BatchLog e))
    | (faults, d, log, Ok _) =>
        let '(faults, hit) := reached faults CompactAfterTrimBeforeCleanup in
        if hit then (faults, d, log, seam_fault CompactAfterTrimBeforeCleanup)
        else (faults, cleanup d anchor, log, Ok done)
    end.

(** P3 to P5: the manifest, then the published name. *)
Definition compact_publish (log : Log) (d : Disk) (faults : FaultInjector) (m : Manifest) (files : SnapshotDir)
    (done : Compacted) : CompactOut :=
  let partial := partial_dir (compacted_anchor done) in
  let published := compacted_snapshot done in
  let '(faults, hit) := reached faults CompactAfterWriteBeforeFsync in
  if hit then (faults, d, log, seam_fault CompactAfterWriteBeforeFsync)
  else
    let '(faults, hit) := reached faults CompactAfterFsyncBeforeManifest in
    if hit then (faults, d, log, seam_fault CompactAfterFsyncBeforeManifest)
    else
      let files := bt_insert MANIFEST (manifest_encode m) files in
      let d := with_snapshots d (bt_insert partial files (snapshots d)) in
      let '(faults, hit) := reached faults CompactAfterManifestBeforePublish in
      if hit then (faults, d, log, seam_fault CompactAfterManifestBeforePublish)
      else
        let d := with_snapshots d (bt_insert published files (bt_remove partial (bt_remove published (snapshots d)))) in
        compact_commit log d faults done.

(** P2: every table's integral, the ledger of tokens, the ledger of sources. *)
Definition compact_write (log : Log) (d : Disk) (faults : FaultInjector) (anchor : Z) (integrals : Integrals)
    (provenance : SourceIntegrals) : CompactOut :=
  let partial := partial_dir anchor in
  let wrote files := with_snapshots d (bt_insert partial files (bt_remove partial (snapshots d))) in
  let '(w, r) := write_tables (mkWritten bt_empty bt_empty bt_empty) integrals in
  match r with
  | Err e => (faults, wrote (wr_files w), log, Err e)
  | Ok _ =>
      let ledger := ledger_encode (dedup log) in
      match ledger_decode ledger with
      | Err e => (faults, wrote (wr_files w), log, Err (BatchLog e))
      | Ok tokens =>
          let files := bt_insert DEDUP_LEDGER ledger (wr_files w) in
          match write_provenance provenance with
          | Err e => (faults, wrote files, log, Err e)
          | Ok (bytes, crc) =>
              let files := bt_insert PROVENANCE bytes files in
              compact_publish log (wrote files) faults (mkManifest anchor (wr_sums w) (crc32 ledger) (Some crc)) files
                (mkCompacted anchor (snapshot_dir anchor) (wr_rows w) (length tokens) (length provenance))
          end
      end
  end.

Definition compact (log : Log) (d : Disk) (anchor : Z) (integrals : Integrals) (faults : FaultInjector) : CompactOut :=
  if anchor =? 0 then (faults, d, log, Err NoCheckpointToAnchorTo)
  else if anchor <=? retained_from log then
    (faults, d, log, Err (BatchLog (NothingToCompact anchor (retained_from log))))
  else
    let '(faults, hit) := reached faults CompactBeforeSnapshot in
    if hit then (faults, d, log, seam_fault CompactBeforeSnapshot)
    else
      match source_integrals_upto log d (log_catalog log) anchor with
      | Err e => (faults, d, log, Err e)
      | Ok provenance => compact_write log d faults anchor integrals provenance
      end.
End batch.

(** ** One-shot queries ([oneshot.rs]) *)

Definition answer_once (catalog : Catalog) (query : Query) (input : EpochDeltas) : result BatchError Canonical :=
  let? plan := map_err BatchSql (incrementalize_typed query catalog) in
  let? circuit := map_err BatchSql (instantiate plan) in
  match step circuit input with
  | (_, Err e) => Err (BatchCircuit e)
  | (circuit, Ok _) => map_err BatchCircuit (Circuit.answer circuit)
  end.

Definition answer_over_log `{Parquet} (log : Log) (d : Disk) (catalog : Catalog) (query : Query) : result BatchError Canonical :=
  let? input := one_delta_for log d catalog in answer_once catalog query input.

Definition answer_over_integrals (catalog : Catalog) (query : Query) (integrals : Integrals) : result BatchError Canonical :=
  let? input := as_one_delta integrals in answer_once catalog query input.
