(* ===== verification/CompactionCorrect.v ===== *)
(** * Compaction is invisible

    What the tables hold and who contributed it, read from a log or from a
    snapshot and the rest of the log: both are functions of the batches ever
    sealed.  Compacting, dying in the middle of it and restarting change neither.

    Its later part: names of segments and snapshots. *)

From Stdlib Require Import ZArith NArith Lia Ascii.
From stdpp Require Import base list strings pretty.
From S2P Require Import Prelude BTree ZAlg Value ZSet Bind Codec State Operator ResultStore Circuit Dataflow Text LogRecord Log LogCorrect Snapshot SnapshotCorrect Compaction.

(** ** What a list of batches amounts to *)

Definition entries_of (t : string) (bs : list Batch) : Entries :=
  flat_map (fun b => if decide (batch_table b = t) then batch_rows b else []) bs.

Definition by_source (s : string) (bs : list Batch) : list Batch := base.filter (fun b => source_id b = s) bs.

Definition all_rows (bs : list Batch) : Entries := flat_map batch_rows bs.

Lemma entries_of_app t bs bs' : entries_of t (bs ++ bs') = entries_of t bs ++ entries_of t bs'.
Proof. apply flat_map_app. Qed.

Lemma all_rows_app bs bs' : all_rows (bs ++ bs') = all_rows bs ++ all_rows bs'.
Proof. apply flat_map_app. Qed.

(** The delta of an epoch: its batches, by table. *)
Definition epoch_delta (bs : list Batch) : EpochDeltas :=
  fold_left (fun d b => deltas_extend d (batch_table b) (batch_rows b)) bs deltas_new.

Lemma epoch_delta_entries bs t : forall d,
  entries_for (fold_left (fun d b => deltas_extend d (batch_table b) (batch_rows b)) bs d) t = entries_for d t ++ entries_of t bs.
Proof.
  induction bs as [|b bs IH]; intros d; simpl; [by rewrite app_nil_r|].
  rewrite IH, entries_for_extend, <- app_assoc. f_equal. f_equal.
  case_cmp_eqb t (batch_table b); case_decide; congruence.
Qed.

Lemma accumulate_epochs eps t : accumulate (map epoch_delta eps) t = entries_of t (concat eps).
Proof.
  induction eps as [|bs eps IH]; [done|]. unfold accumulate in *. cbn [map flat_map concat].
  rewrite IH, entries_of_app. unfold epoch_delta. by rewrite epoch_delta_entries.
Qed.

Lemma entries_of_mass t bs : mass (entries_of t bs) <= mass (all_rows bs).
Proof.
  induction bs as [|b bs IH]; [done|]. unfold entries_of, all_rows in *. simpl. rewrite !mass_app.
  pose proof (mass_nonneg (batch_rows b)). case_decide; [lia|]. change (mass []) with 0. lia.
Qed.

Lemma by_source_mass s bs : mass (all_rows (by_source s bs)) <= mass (all_rows bs).
Proof.
  induction bs as [|b bs IH]; [done|]. unfold by_source in *. rewrite filter_cons. unfold all_rows in *. simpl.
  rewrite mass_app. pose proof (mass_nonneg (batch_rows b)). case_decide; simpl; rewrite ?mass_app; lia.
Qed.

(** ** Canonical forms *)

Lemma zcanon_mass (es : Entries) : mass es <= i64_max -> mass (zcanon es) <= mass es.
Proof.
  intros Hm. destruct (consolidated_entries_total (mkBatch (mkSchema []) es) Hm) as [cs Hc].
  pose proof (consolidated_entries_mass _ _ Hc) as Hle. destruct (consolidated_entries_spec _ _ Hc) as [Hz He].
  simpl in *. by rewrite <- (zcanon_unique _ _ Hz He).
Qed.

Lemma zcanon_ext (a b : Entries) : a ≡z b -> zcanon a = zcanon b.
Proof.
  intros E. destruct (zcanon_spec a) as [Hc Hz]. apply zcanon_unique; [done|]. by rewrite Hz.
Qed.

Lemma zcanon_idem (a : Entries) : zcanonical a -> zcanon a = a.
Proof. intros Ha. symmetry. by apply zcanon_unique. Qed.

Lemma zcanon_incl (Q : Row -> Prop) (es : Entries) :
  Forall (fun e => Q e.1) es -> mass es <= i64_max -> Forall (fun e => Q e.1) (zcanon es).
Proof.
  intros Hq Hm. destruct (consolidated_entries_total (mkBatch (mkSchema []) es) Hm) as [cs Hc].
  pose proof (consolidated_entries_incl Q (mkBatch (mkSchema []) es) cs Hq Hc) as Hi. destruct (consolidated_entries_spec _ _ Hc) as [Hz He].
  simpl in *. by rewrite <- (zcanon_unique _ _ Hz He).
Qed.

Lemma consolidate_zcanon s es :
  wf_batch (mkBatch s es) -> mass es <= i64_max -> consolidate (mkBatch s es) = Ok (mkBatch s (zcanon es)).
Proof.
  intros Hwf Hm. rewrite consolidate_Ok by done. destruct (consolidated_entries_total (mkBatch s es) Hm) as [cs Hc].
  rewrite Hc. destruct (consolidated_entries_spec _ _ Hc) as [Hz He]. simpl in *. by rewrite (zcanon_unique _ _ Hz He).
Qed.

Lemma canonical_length (es : Entries) : zcanonical es -> Z.of_nat (length es) <= mass es.
Proof.
  intros [_ Hnz]. induction Hnz as [|[r w] es Hw _ IH]; [done|]. rewrite mass_cons. cbn [length]. simpl in Hw. lia.
Qed.

(** ** Batches the log accepted *)

Section catalog.
Variable catalog : Catalog.

(** A name that is one component of a path: a snapshot is a map from such names
    to files only for these. *)
Definition path_name (t : string) : bool := forallb (fun b => negb ((b =? 47) || (b =? 0))%N) (tx t).

(** Every table can be compacted: see [table_name] and [storable_schema]. *)
Definition storable_catalog : bool := forallb (fun p => path_name p.1 && (table_name p.1 && storable_schema p.2)) catalog.

Definition catalog_ok : Prop :=
  forall t s, bt_get t catalog = Some s -> table_name t = true /\ storable_schema s = true.

Lemma storable_catalog_ok : storable_catalog = true -> catalog_ok.
Proof.
  unfold storable_catalog. rewrite forallb_forall. intros H t s Hg%bt_get_In%list_elem_of_In%H.
  by apply andb_true_iff in Hg as [_ Hg%andb_true_iff].
Qed.

Record batch_ok (b : Batch) : Prop := {
  bo_table : exists s, bt_get (batch_table b) catalog = Some s /\ Forall (fun e => conforms s e.1) (batch_rows b);
  bo_record : record_ok (batch_record b) = true
}.

(** The weights ever appended add up within machine range. *)
Definition history_ok (bs : list Batch) : Prop := Forall batch_ok bs /\ mass (all_rows bs) <= i64_max.

Hypothesis Hcat : catalog_ok.

Definition schema_of (t : string) : Schema := default (mkSchema []) (bt_get t catalog).

Lemma history_app bs bs' : history_ok (bs ++ bs') -> history_ok bs /\ history_ok bs'.
Proof.
  intros [Hb Hm]. apply Forall_app in Hb as [Hb Hb']. rewrite all_rows_app, mass_app in Hm.
  pose proof (mass_nonneg (all_rows bs)). pose proof (mass_nonneg (all_rows bs')). split; (split; [done|lia]).
Qed.

Lemma by_source_history s bs : history_ok bs -> history_ok (by_source s bs).
Proof.
  intros [Hb Hm]. pose proof (by_source_mass s bs). split; [|lia].
  apply Forall_forall. intros b Hin. apply list_elem_of_filter in Hin as [_ Hin]. rewrite Forall_forall in Hb. by apply Hb.
Qed.

Lemma entries_of_conform t bs : history_ok bs -> Forall (fun e => conforms (schema_of t) e.1) (entries_of t bs).
Proof.
  intros [Hb _]. induction Hb as [|b bs [[s [Hs Hc]] _] _ IH]; [constructor|]. unfold entries_of in *. simpl.
  apply Forall_app. split; [|done]. case_decide as E; [|constructor]. subst. unfold schema_of. by rewrite Hs.
Qed.

Lemma entries_of_cells t bs : history_ok bs -> Forall (fun e => forallb valid_cell e.1 = true) (entries_of t bs).
Proof.
  intros [Hb _]. induction Hb as [|b bs [_ Hr] _ IH]; [constructor|]. unfold entries_of in *. simpl.
  apply Forall_app. split; [|done]. case_decide; [|constructor]. unfold record_ok in Hr.
  apply andb_true_iff in Hr as [Hr _]. simpl in Hr. rewrite !andb_true_iff in Hr. destruct Hr as [_ Hv].
  rewrite forallb_forall in Hv. apply Forall_forall. intros e He. apply list_elem_of_In, Hv in He.
  unfold valid_entry in He. rewrite !andb_true_iff in He. tauto.
Qed.

Lemma entries_of_empty t bs : history_ok bs -> entries_of t bs <> [] -> exists s, bt_get t catalog = Some s.
Proof.
  intros [Hb _]. induction Hb as [|b bs [[s [Hs _]] _] _ IH]; [done|]. unfold entries_of in *. simpl.
  case_decide as E; [subst; by exists s|]. done.
Qed.

(** What a table's batches come to can be stored. *)
Lemma table_storable t bs :
  history_ok bs -> is_Some (bt_get t catalog) -> storable_batch (mkBatch (schema_of t) (zcanon (entries_of t bs))).
Proof.
  intros Hh [s Hs]. destruct (Hcat _ _ Hs) as [_ Hst]. assert (schema_of t = s) as E by (unfold schema_of; by rewrite Hs).
  pose proof (entries_of_mass t bs). pose proof (proj2 Hh) as Hm.
  assert (mass (entries_of t bs) <= i64_max) as Hm' by lia. pose proof (zcanon_mass _ Hm') as Hz.
  destruct (zcanon_spec (entries_of t bs)) as [Hc _]. pose proof (entries_of_conform t bs Hh) as Hco.
  pose proof (zcanon_incl _ _ Hco Hm') as Hco'.
  pose proof (zcanon_incl (fun r => forallb valid_cell r = true) _ (entries_of_cells t bs Hh) Hm') as Hce.
  rewrite E in *. split_and!; cbn [batch_schema batch_entries]; [done|done|done| |].
  - apply Forall_forall. intros [r w] Hin. pose proof (mass_In _ _ _ Hin). rewrite Forall_forall in Hco', Hce.
    specialize (Hco' _ Hin). specialize (Hce _ Hin). cbn [fst] in *. apply conforms_length in Hco'.
    apply storable_schema_facts in Hst as (_ & Hl & _). unfold valid_entry. cbn [fst snd]. rewrite Hce.
    unfold schema_len in Hco'. rewrite (proj2 (Z.ltb_lt _ _)) by lia. cbn [andb]. apply in_i64_spec.
    unfold i64_max, i64_min in *. lia.
  - pose proof (canonical_length _ Hc). unfold i64_max in *. lia.
Qed.

(** ** The tables' contents *)

Definition table_of (bs : list Batch) (t : string) : ZSetBatch := mkBatch (schema_of t) (zcanon (entries_of t bs)).

(** The integral of every table the batches touch. *)
Definition contents (bs : list Batch) : Integrals := bt_of_list (map (fun b => (batch_table b, table_of bs (batch_table b))) bs).

Lemma bt_get_of_list_fn {V} (g : string -> V) (l : list string) t :
  bt_get t (bt_of_list (map (fun k => (k, g k)) l)) = if decide (t ∈ l) then Some (g t) else None.
Proof.
  unfold bt_of_list. assert (forall acc, bt_get t (fold_left (fun m p => bt_insert p.1 p.2 m) (map (fun k => (k, g k)) l) acc) =
    if decide (t ∈ l) then Some (g t) else bt_get t acc) as H; [|by rewrite H].
  induction l as [|k l IH]; intros acc; cbn [map fold_left fst snd]; [by rewrite decide_False by apply not_elem_of_nil|].
  rewrite IH, bt_get_insert. case_cmp_eqb t k.
  - subst. rewrite (decide_True (P := k ∈ k :: l)) by left. by case_decide.
  - repeat case_decide; try done; rewrite elem_of_cons in *; tauto.
Qed.

Lemma contents_sorted bs : bt_sorted (contents bs).
Proof. apply bt_of_list_sorted. Qed.

Lemma contents_get bs t : bt_get t (contents bs) = if decide (t ∈ map batch_table bs) then Some (table_of bs t) else None.
Proof. unfold contents. rewrite <- (map_map batch_table (fun t => (t, table_of bs t))). apply bt_get_of_list_fn. Qed.

Lemma entries_of_absent bs t : t ∉ map batch_table bs -> entries_of t bs = [].
Proof.
  induction bs as [|b bs IH]; [done|]. cbn [map]. rewrite not_elem_of_cons. intros [Hb Ht]. unfold entries_of in *. simpl.
  rewrite decide_False by congruence. by apply IH.
Qed.

Lemma accumulate_batch_step bs b :
  history_ok (bs ++ [b]) -> accumulate_batch catalog (contents bs) b = Ok (contents (bs ++ [b])).
Proof.
  intros Hh. pose proof (history_app _ _ Hh) as [Hh1 Hh2]. set (t := batch_table b).
  assert (entries_of t (bs ++ [b]) = entries_of t bs ++ batch_rows b) as He.
  { rewrite entries_of_app. unfold entries_of at 2. simpl. by rewrite decide_True, app_nil_r. }
  destruct Hh2 as [Hb2 _]. inversion Hb2 as [|? ? [[s [Hs Hc]] _] _]; subst. fold t in Hs.
  assert (schema_of t = s) as Es by (unfold schema_of; by rewrite Hs).
  assert (fields s <> []) as Hne by (by apply (Hcat t s), proj2, storable_schema_facts in Hs as [? _]).
  pose proof (entries_of_mass t (bs ++ [b])) as Hm. pose proof (proj2 Hh) as Hm2.
  pose proof (entries_of_conform t bs Hh1) as Hco. rewrite Es in Hco. rewrite He, mass_app in Hm.
  pose proof (mass_nonneg (batch_rows b)). pose proof (zcanon_mass (entries_of t bs) ltac:(lia)) as Hzm.
  assert (exists es0, es0 ≡z entries_of t bs /\ mass es0 <= mass (entries_of t bs) /\ Forall (fun e => conforms s e.1) es0 /\
    match bt_get t (contents bs) with Some held => map_err BatchZSet (ZSet.add held (mkBatch s (batch_rows b))) | None => Ok (mkBatch s (batch_rows b)) end
    = Ok (mkBatch s (es0 ++ batch_rows b))) as (es0 & Hz0 & Hm0 & Hc0 & Hmerge).
  { rewrite contents_get. case_decide as Ht.
    - exists (zcanon (entries_of t bs)). split_and!; [apply zcanon_spec|done|apply (zcanon_incl _ _ Hco); lia|].
      unfold table_of. rewrite Es. unfold ZSet.add. rewrite bool_decide_eq_true_2 by done. cbn [negb entries batch_entries batch_schema].
      rewrite (proj2 (from_entries_Ok s _ (mkBatch s (zcanon (entries_of t bs) ++ batch_rows b)) Hne)); [done|]. split; [done|].
      apply Forall_app. split; [|done]. apply (zcanon_incl _ _ Hco). lia.
    - exists []. rewrite (entries_of_absent bs t Ht). split_and!; [done|done|constructor|done]. }
  unfold accumulate_batch. fold t. rewrite Hs. cbn [ok_or].
  rewrite (proj2 (from_entries_Ok s _ (mkBatch s (batch_rows b)) Hne)) by done. cbn [map_err]. rewrite Hmerge.
  rewrite consolidate_zcanon; [|split; [done|by apply Forall_app]|rewrite mass_app; lia]. cbn [map_err]. f_equal.
  apply bt_ext; [by apply bt_insert_sorted, contents_sorted|apply contents_sorted|]. intros t'.
  rewrite bt_get_insert, !contents_get, map_app. cbn [map]. fold t. case_cmp_eqb t' t.
  - subst t'. rewrite decide_True by (apply elem_of_app; right; left). unfold table_of. rewrite Es, He. do 2 f_equal.
    apply zcanon_ext. by rewrite Hz0.
  - assert (t' ∈ map batch_table bs ++ [t] <-> t' ∈ map batch_table bs) as Hel.
    { rewrite elem_of_app, list_elem_of_singleton. tauto. }
    rewrite (decide_ext _ _ _ _ Hel). case_decide; [|done]. unfold table_of.
    rewrite entries_of_app, (entries_of_absent [b]); [by rewrite app_nil_r|]. cbn [map]. fold t.
    by intros ?%list_elem_of_singleton.
Qed.

Lemma accumulate_batches bs' : forall bs,
  history_ok (bs ++ bs') -> try_fold (accumulate_batch catalog) (contents bs) bs' = Ok (contents (bs ++ bs')).
Proof.
  induction bs' as [|b bs' IH]; intros bs Hh; [by rewrite app_nil_r|].
  replace (bs ++ b :: bs') with ((bs ++ [b]) ++ bs') in * by (by rewrite <- app_assoc).
  cbn [try_fold]. rewrite accumulate_batch_step by by apply (history_app _ bs'). by apply IH.
Qed.

Lemma contents_valid bs : history_ok bs -> valid_integrals catalog (contents bs).
Proof.
  intros Hh. split; [apply contents_sorted|]. apply Forall_forall. intros [t b] Hin.
  apply bt_In_get in Hin; [|apply contents_sorted]. rewrite contents_get in Hin. case_decide as Ht; [|done].
  injection Hin as <-. cbn [fst snd]. apply list_elem_of_fmap in Ht as (x & -> & Hx).
  pose proof (proj1 Hh) as Hb. rewrite Forall_forall in Hb. destruct (Hb _ Hx) as [[s [Hs _]] _].
  destruct (Hcat _ _ Hs) as [Hn _]. split_and!; [done|simpl; unfold schema_of; by rewrite Hs|].
  apply table_storable; [done|by rewrite Hs].
Qed.

(** ** Who contributed what *)

Lemma bt_get_filter {V} (Q : string * V -> Prop) `{!forall x, Decision (Q x)} (m : btree string V) k :
  bt_sorted m -> bt_get k (base.filter Q m) = v ← bt_get k m; if decide (Q (k, v)) then Some v else None.
Proof.
  induction m as [|[k1 v1] m IH]; intros Hs; [done|]. apply bt_sorted_cons_inv in Hs as [Hs Hall].
  rewrite filter_cons. simpl. case_cmp_eqb k k1.
  - subst. simpl. case_decide; [simpl; by rewrite cmp_eqb_refl|]. rewrite IH by done. by rewrite bt_get_below.
  - case_decide; [simpl|by apply IH]. rewrite (proj2 (cmp_eqb_neq k k1)) by done. by apply IH.
Qed.

(** A source's net contribution: the tables where it is not nothing. *)
Definition owns (bs : list Batch) : Integrals := base.filter (fun p => batch_entries p.2 <> []) (contents bs).

Definition ownership (bs : list Batch) : SourceIntegrals :=
  base.filter (fun p => p.2 <> []) (bt_of_list (map (fun b => (source_id b, owns (by_source (source_id b) bs))) bs)).

Lemma owns_sorted bs : bt_sorted (owns bs).
Proof. apply bt_sorted_filter, contents_sorted. Qed.

Lemma owns_get bs t :
  bt_get t (owns bs) = if decide (zcanon (entries_of t bs) = []) then None else Some (table_of bs t).
Proof.
  unfold owns. rewrite bt_get_filter by apply contents_sorted. rewrite contents_get. case_decide as Ht; simpl.
  - by repeat case_decide.
  - by rewrite (entries_of_absent bs t Ht).
Qed.

Lemma by_source_absent bs s : s ∉ map source_id bs -> by_source s bs = [].
Proof.
  induction bs as [|b bs IH]; [done|]. cbn [map]. rewrite not_elem_of_cons. intros [Hb Hs]. unfold by_source in *.
  rewrite filter_cons_False by congruence. by apply IH.
Qed.

Lemma ownership_sorted bs : bt_sorted (ownership bs).
Proof. apply bt_sorted_filter, bt_of_list_sorted. Qed.

Lemma ownership_get bs s :
  bt_get s (ownership bs) = if decide (owns (by_source s bs) = []) then None else Some (owns (by_source s bs)).
Proof.
  unfold ownership. rewrite bt_get_filter by apply bt_of_list_sorted.
  rewrite <- (map_map source_id (fun s => (s, owns (by_source s bs)))), bt_get_of_list_fn. case_decide as Hs; simpl.
  - by repeat case_decide.
  - by rewrite (by_source_absent bs s Hs).
Qed.

(** Batches held per table that come to what [bs] comes to. *)
Record collects_one (bs : list Batch) (T : Integrals) : Prop := {
  co_sorted : bt_sorted T;
  co_typed t b : bt_get t T = Some b ->
    bt_get t catalog = Some (batch_schema b) /\ Forall (fun e => conforms (batch_schema b) e.1) (batch_entries b);
  co_entries t : let es := default [] (batch_entries <$> bt_get t T) in
    es ≡z entries_of t bs /\ mass es <= mass (entries_of t bs)
}.

Record collects (bs : list Batch) (out : SourceIntegrals) : Prop := {
  cs_sorted : bt_sorted out;
  cs_source s : collects_one (by_source s bs) (default [] (bt_get s out))
}.

Lemma extend_one_spec bs T b :
  collects_one bs T -> history_ok (bs ++ [b]) ->
  exists T', extend_one catalog T (batch_table b) (batch_rows b) = Ok T' /\ collects_one (bs ++ [b]) T'.
Proof.
  intros [Hs Hty He] Hh. set (t := batch_table b). pose proof (history_app _ _ Hh) as [_ [Hb2 _]].
  inversion Hb2 as [|? ? [[s [Hsch Hc]] _] _]; subst. fold t in Hsch.
  assert (fields s <> []) as Hne by (by apply (Hcat t s), proj2, storable_schema_facts in Hsch as [? _]).
  set (es0 := default [] (batch_entries <$> bt_get t T)).
  assert (match bt_get t T with Some current => map_err BatchZSet (ZSet.add current (mkBatch s (batch_rows b))) | None => Ok (mkBatch s (batch_rows b)) end
    = Ok (mkBatch s (es0 ++ batch_rows b)) /\ Forall (fun e => conforms s e.1) es0) as [Hadd Hc0].
  { unfold es0. destruct (bt_get t T) as [cur|] eqn:Eg; [|split; [done|constructor]].
    destruct (Hty _ _ Eg) as [Hcs Hcc]. assert (batch_schema cur = s) as Es by congruence. rewrite Es in *.
    split; [|done]. unfold ZSet.add. rewrite Es, bool_decide_eq_true_2 by done. cbn [negb entries batch_entries fmap option_fmap option_map default].
    by rewrite (proj2 (from_entries_Ok s _ (mkBatch s (batch_entries cur ++ batch_rows b)) Hne)) by (split; [done|by apply Forall_app]). }
  exists (bt_insert t (mkBatch s (es0 ++ batch_rows b)) (bt_remove t T)). split.
  - unfold extend_one. fold t. rewrite Hsch. cbn [ok_or].
    rewrite (proj2 (from_entries_Ok s _ (mkBatch s (batch_rows b)) Hne)) by done. cbn [map_err]. by rewrite Hadd.
  - assert (forall t', bt_get t' (bt_insert t (mkBatch s (es0 ++ batch_rows b)) (bt_remove t T)) =
      if cmp_eqb t' t then Some (mkBatch s (es0 ++ batch_rows b)) else bt_get t' T) as Hg.
    { intros t'. rewrite bt_get_insert, bt_get_remove by done. by destruct (cmp_eqb t' t). }
    split; [by apply bt_insert_sorted, bt_remove_sorted| |]; intros t'; rewrite Hg; case_cmp_eqb t' t.
    + subst. intros b' [= <-]. split; [done|]. simpl. by apply Forall_app.
    + apply Hty.
    + subst t'. destruct (He t) as [Hz Hm]. fold es0 in Hz, Hm. simpl. rewrite entries_of_app, !mass_app.
      assert (entries_of t [b] = batch_rows b) as -> by (unfold entries_of; simpl; by rewrite decide_True, app_nil_r).
      split; [by rewrite Hz|lia].
    + rewrite entries_of_app, (entries_of_absent [b]), app_nil_r; [apply He|]. cbn [map]. fold t.
      by intros ?%list_elem_of_singleton.
Qed.

Lemma extend_ones bs' : forall bs T,
  collects_one bs T -> history_ok (bs ++ bs') ->
  exists T', try_fold (fun out b => extend_one catalog out (batch_table b) (batch_rows b)) T bs' = Ok T' /\
    collects_one (bs ++ bs') T'.
Proof.
  induction bs' as [|b bs' IH]; intros bs T HT Hb; [exists T; by rewrite app_nil_r|].
  replace (bs ++ b :: bs') with ((bs ++ [b]) ++ bs') in * by (by rewrite <- app_assoc).
  destruct (extend_one_spec bs T b HT) as (T' & HT' & Hc'); [by apply (history_app _ bs')|].
  cbn [try_fold]. rewrite HT'. by apply IH.
Qed.

(** Consolidating a source's tables drops the empty ones. *)
Lemma prune_loop (g : string -> ZSetBatch) (T : Integrals) :
  (forall t b, (t, b) ∈ T -> ZSet.consolidate b = Ok (g t)) -> forall acc, bt_sorted acc ->
  exists r, try_fold (fun out p => let? batch := map_err BatchZSet (ZSet.consolidate p.2) in
      Ok (if batch_is_empty batch then out else bt_insert p.1 batch out)) acc T = Ok r /\ bt_sorted r /\
    forall t, bt_get t r = if decide (t ∈ map fst T /\ batch_entries (g t) <> []) then Some (g t) else bt_get t acc.
Proof.
  induction T as [|[t b] T IH]; intros Hcon acc Hacc.
  - exists acc. split_and!; [done|done|]. intros t. rewrite decide_False; [done|]. by intros [?%elem_of_nil _].
  - cbn [try_fold fst snd]. rewrite (Hcon t b) by left. cbn [map_err].
    set (acc' := if batch_is_empty (g t) then acc else _).
    assert (forall t', bt_get t' acc' = if decide (t' = t /\ batch_entries (g t') <> []) then Some (g t') else bt_get t' acc) as Ha.
    { intros t'. unfold acc'. destruct (decide (batch_entries (g t) = [])) as [E|E].
      - assert (batch_is_empty (g t) = true) as -> by (unfold batch_is_empty, batch_len; by rewrite E).
        rewrite decide_False; [done|]. by intros [-> ?].
      - rewrite batch_some_len by done. rewrite bt_get_insert.
        case_cmp_eqb t' t; [subst; by rewrite decide_True|by rewrite decide_False by tauto]. }
    destruct (IH (fun t' b' Hin => Hcon t' b' ltac:(by right)) acc') as (r & Hr & Hrs & Hrg).
    { unfold acc'. destruct (batch_is_empty _); [done|by apply bt_insert_sorted]. }
    exists r. split_and!; [done|done|]. intros t'. rewrite Hrg, Ha. cbn [map fst].
    repeat case_decide; try done; rewrite elem_of_cons in *; tauto.
Qed.

Lemma consolidate_one_spec bs T : collects_one bs T -> history_ok bs -> consolidate_one T = Ok (owns bs).
Proof.
  intros [Hs Hty He] Hh.
  assert (forall t b, (t, b) ∈ T -> ZSet.consolidate b = Ok (table_of bs t)) as Hcon.
  { intros t [s es] Hg%bt_In_get; [|done]. destruct (Hty _ _ Hg) as [Hc Hf]. destruct (He t) as [Hz Hm].
    rewrite Hg in Hz, Hm. simpl in *.
    pose proof (entries_of_mass t bs). pose proof (proj2 Hh). destruct (Hcat _ _ Hc) as [_ (Hne & _)%storable_schema_facts].
    rewrite consolidate_zcanon by (done || lia). unfold table_of, schema_of. rewrite Hc. simpl.
    by rewrite (zcanon_ext _ _ Hz). }
  destruct (prune_loop (table_of bs) T Hcon bt_empty) as (r & Hr & Hrs & Hrg); [constructor|].
  unfold consolidate_one. rewrite Hr. f_equal.
  apply bt_ext; [done|apply owns_sorted|]. intros t. rewrite Hrg, owns_get. unfold table_of at 1. cbn [batch_entries].
  case_decide as Hd; [rewrite decide_False by tauto; done|].
  case_decide as Hz; [done|]. exfalso. apply Hd. split; [|done]. destruct (bt_get t T) as [b|] eqn:Hg.
  - apply bt_get_In in Hg. by apply (list_elem_of_fmap_2 fst) in Hg.
  - destruct (He t) as [Hz' _]. rewrite Hg in Hz'. simpl in Hz'. destruct Hz. by rewrite <- (zcanon_ext _ _ Hz').
Qed.

Lemma extend_spec bs out b :
  collects bs out -> history_ok (bs ++ [b]) -> exists out', extend catalog out b = Ok out' /\ collects (bs ++ [b]) out'.
Proof.
  intros [Hs Hc] Hh. pose proof (by_source_history (source_id b) _ Hh) as Hbh.
  assert (forall s, by_source s (bs ++ [b]) = by_source s bs ++ (if decide (s = source_id b) then [b] else [])) as Hby.
  { intros s. unfold by_source. rewrite filter_app. f_equal. rewrite filter_cons, filter_nil.
    repeat case_decide; congruence. }
  rewrite Hby, decide_True in Hbh by done.
  destruct (extend_one_spec _ _ b (Hc (source_id b)) Hbh) as (T' & HT & Hco).
  exists (bt_insert (source_id b) T' out). split; [unfold extend, bt_empty; by rewrite HT|].
  split; [by apply bt_insert_sorted|]. intros s. rewrite bt_get_insert, Hby. case_cmp_eqb s (source_id b).
  - subst. by rewrite decide_True.
  - rewrite decide_False by done. rewrite app_nil_r. apply Hc.
Qed.

Lemma extend_batches bs' : forall bs out,
  collects bs out -> history_ok (bs ++ bs') -> exists out', try_fold (extend catalog) out bs' = Ok out' /\ collects (bs ++ bs') out'.
Proof.
  induction bs' as [|b bs' IH]; intros bs out Hc Hh; [exists out; by rewrite app_nil_r|].
  replace (bs ++ b :: bs') with ((bs ++ [b]) ++ bs') in * by (by rewrite <- app_assoc).
  destruct (extend_spec bs out b Hc) as (out' & Ho & Hc'); [by apply (history_app _ bs')|]. cbn [try_fold]. rewrite Ho.
  by apply IH.
Qed.

Lemma consolidate_all_spec bs out : collects bs out -> history_ok bs -> consolidate_all out = Ok (ownership bs).
Proof.
  intros [Hs Hc] Hh. unfold consolidate_all.
  rewrite (try_map_pure _ (fun p => (p.1, owns (by_source p.1 bs)))).
  - change (map (fun p => (p.1, owns (by_source p.1 bs))) out) with (bt_map (fun s (_ : Integrals) => owns (by_source s bs)) out).
    f_equal. apply bt_ext; [by apply bt_sorted_filter, bt_map_sorted|apply ownership_sorted|]. intros s.
    rewrite bt_get_filter, bt_get_map, ownership_get by by apply bt_map_sorted.
    destruct (bt_get s out) as [T|] eqn:Hg; simpl; [by repeat case_decide|]. rewrite decide_True; [done|].
    apply bt_ext; [apply owns_sorted|constructor|]. intros t. rewrite owns_get. rewrite decide_True; [done|].
    specialize (Hc s). rewrite Hg in Hc. destruct Hc as [_ _ He]. destruct (He t) as [Hz _]. simpl in Hz.
    by rewrite <- (zcanon_ext _ _ Hz).
  - intros [s T] Hin. apply bt_In_get in Hin; [|done]. specialize (Hc s). rewrite Hin in Hc.
    change (default [] (Some T)) with T in Hc. cbn [fst snd].
    rewrite (consolidate_one_spec _ _ Hc); [done|by apply by_source_history].
Qed.

Lemma owns_collects bs : history_ok bs -> collects_one bs (owns bs).
Proof.
  intros Hh. split; [apply owns_sorted| |]; intros t; rewrite owns_get; case_decide as Hz; try done.
  - intros b [= <-]. simpl. pose proof (entries_of_mass t bs). pose proof (proj2 Hh).
    assert (entries_of t bs <> []) as Hne by (intros E; by rewrite E in Hz).
    destruct (entries_of_empty t bs Hh Hne) as [s Hs]. unfold schema_of at 1. split; [by rewrite Hs|].
    apply (zcanon_incl (fun r => conforms (schema_of t) r)); [by apply entries_of_conform|lia].
  - simpl. pose proof (mass_nonneg (entries_of t bs)). split; [|done]. rewrite <- Hz. apply zcanon_spec.
  - simpl. split; [apply zcanon_spec|]. pose proof (entries_of_mass t bs). pose proof (proj2 Hh). apply zcanon_mass. lia.
Qed.

Lemma ownership_collects bs : history_ok bs -> collects bs (ownership bs).
Proof.
  intros Hh. split; [apply ownership_sorted|]. intros s. rewrite ownership_get.
  pose proof (owns_collects _ (by_source_history s _ Hh)) as Ho. case_decide as E; [|done]. rewrite E in Ho. done.
Qed.

Lemma nothing_collected : collects [] [].
Proof. split; [constructor|]. intros s. split; [constructor|done|]. done. Qed.

(** Every source's net contribution to a table fits one frame of the ledger. *)
Definition ledger_fits (bs : list Batch) : bool :=
  forallb (fun b => forallb (fun b' =>
    let s := source_id b in let t := batch_table b' in
    Z.of_nat (length (record_encode (RAppend s "" t (zcanon (entries_of t (by_source s bs)))))) <? 2 ^ 32) bs) bs.

Lemma ownership_valid bs : history_ok bs -> ledger_fits bs = true -> valid_sources catalog (ownership bs).
Proof.
  intros Hh Hfit. split; [apply ownership_sorted|]. apply Forall_forall. intros [s T] Hin.
  apply bt_In_get in Hin; [|apply ownership_sorted]. rewrite ownership_get in Hin. case_decide as Hne; [done|].
  injection Hin as <-. cbn [fst snd]. split_and!; [done|apply owns_sorted|]. apply Forall_forall. intros [t b] Hin.
  apply bt_In_get in Hin; [|apply owns_sorted]. rewrite owns_get in Hin. case_decide as Hz; [done|]. injection Hin as <-.
  cbn [fst snd]. pose proof (by_source_history s _ Hh) as Hbh.
  assert (entries_of t (by_source s bs) <> []) as Hnz by (intros E; by rewrite E in Hz).
  destruct (entries_of_empty t _ Hbh Hnz) as [sch Hs].
  assert (exists x, x ∈ by_source s bs /\ batch_table x = t) as (x & Hx & Hxt).
  { destruct (decide (t ∈ map batch_table (by_source s bs))) as [Hd|Hd].
    - apply list_elem_of_fmap in Hd as (x & -> & Hx). by exists x.
    - by rewrite entries_of_absent in Hnz. }
  apply list_elem_of_filter in Hx as [Hxs Hx]. pose proof (proj1 Hh) as Hb. rewrite Forall_forall in Hb.
  destruct (Hb _ Hx) as [_ Hr]. unfold record_ok in Hr. apply andb_true_iff in Hr as [Hr _]. simpl in Hr.
  rewrite !andb_true_iff in Hr. destruct Hr as ((((Hvs & _) & Hvt) & _) & _). rewrite Hxs in Hvs. rewrite Hxt in Hvt.
  pose proof (table_storable t _ Hbh ltac:(by rewrite Hs)) as Hst. split.
  - simpl. unfold schema_of. by rewrite Hs.
  - done.
  - done.
  - destruct Hst as (_ & _ & _ & Hv & Hl). cbn [batch_entries] in *. unfold record_ok.
    unfold ledger_fits in Hfit. rewrite forallb_forall in Hfit. specialize (Hfit x (proj1 (list_elem_of_In _ _) Hx)).
    rewrite forallb_forall in Hfit. specialize (Hfit x (proj1 (list_elem_of_In _ _) Hx)). cbn zeta in Hfit. rewrite Hxs, Hxt in Hfit.
    change (batch_entries (table_of (by_source s bs) t)) with (zcanon (entries_of t (by_source s bs))). rewrite Hfit.
    rewrite andb_true_r. cbn [valid_record table_of batch_entries]. rewrite Hvs, Hvt, (proj2 (Z.ltb_lt _ _)) by done. simpl.
    apply forallb_forall. intros e He. apply list_elem_of_In in He. rewrite Forall_forall in Hv. by apply Hv.
Qed.
End catalog.

(** * Names of segments and snapshots

    The names compaction gives to what it writes never collide with the names of
    what is live, and the cleanup recognises exactly the superseded ones. *)

Lemma tx_zeros n : tx (zeros n) = repeat 48%N n.
Proof. induction n as [|n IH]; [done|]. simpl. f_equal. exact IH. Qed.

Lemma zeros_digits n : forallb digit (tx (zeros n)) = true.
Proof. rewrite tx_zeros. by induction n. Qed.

(** A number behind any count of zeros. *)
Definition padded (k : nat) (n : Z) : string := (zeros k +:+ pretty (Z.to_N n))%string.

Lemma padded_digits k n : forallb digit (tx (padded k n)) = true.
Proof. unfold padded. by rewrite tx_app, forallb_app, zeros_digits, pretty_digits. Qed.

Lemma padded_parse k n : 0 <= n < 2 ^ 64 -> parse_dec (tx (padded k n)) = Some n.
Proof. intros Hn. unfold padded. rewrite tx_app, tx_zeros. by apply parse_zeros. Qed.

Lemma digits_lack (c : N) t : forallb digit t = true -> digit c = false -> c ∉ t.
Proof.
  intros Ht Hc Hin. rewrite forallb_forall in Ht. specialize (Ht c (proj1 (list_elem_of_In _ _) Hin)). congruence.
Qed.

Lemma digits_plain t : forallb digit t = true -> plain t = true.
Proof.
  unfold plain. rewrite !forallb_forall. intros H b Hb. apply H, digit_range in Hb. apply visible_range. lia.
Qed.

(** ** Segments *)

Definition segment_name (n : Z) : string := ("segment-" +:+ pad8 n +:+ ".log")%string.

Lemma eqb_lack a c s : N_of_ascii c ∉ tx (String a s) -> Ascii.eqb a c = false /\ N_of_ascii c ∉ tx s.
Proof.
  change (tx (String a s)) with (N_of_ascii a :: tx s). rewrite not_elem_of_cons. intros [Ha Hs]. split; [|done].
  apply Ascii.eqb_neq. congruence.
Qed.

Lemma before_last_None c s : N_of_ascii c ∉ tx s -> before_last c s = None.
Proof.
  induction s as [|a s IH]; [done|]. intros [Ha Hs]%eqb_lack. simpl. by rewrite IH, Ha.
Qed.

Lemma before_last_app c a s : N_of_ascii c ∉ tx s -> before_last c (a +:+ String c s) = Some a.
Proof.
  intros Hs. induction a as [|x a IH]; simpl; [|by rewrite IH].
  by rewrite before_last_None, Ascii.eqb_refl.
Qed.

Lemma after_last_None c from s : N_of_ascii c ∉ tx s -> after_last c from s = from.
Proof. revert from. induction s as [|a s IH]; intros from; [done|]. intros [Ha Hs]%eqb_lack. simpl. rewrite Ha. by apply IH. Qed.

Lemma after_last_app c a from s : N_of_ascii c ∉ tx s -> after_last c from (a +:+ String c s) = s.
Proof.
  intros Hs. revert from. induction a as [|x a IH]; intros from; simpl; [by rewrite Ascii.eqb_refl, after_last_None|].
  destruct (Ascii.eqb x c); apply IH.
Qed.

Lemma pad8_padded n : exists k, pad8 n = padded k n.
Proof. by eexists. Qed.

Lemma string_app_assoc (a b c : string) : ((a +:+ b) +:+ c = a +:+ (b +:+ c))%string.
Proof. apply tx_inj. by rewrite !tx_app, app_assoc. Qed.

Lemma segment_stem n : file_stem (segment_name n) = ("segment-" +:+ pad8 n)%string.
Proof.
  unfold file_stem, segment_name. change ".log"%string with (String "." "log").
  rewrite <- string_app_assoc. rewrite before_last_app by not_in. done.
Qed.

Lemma next_segment_of log n :
  segment log = segment_name n -> 0 <= n < 2 ^ 64 -> next_segment_name log = segment_name (n + 1).
Proof.
  intros E Hn. unfold next_segment_name. rewrite E, segment_stem. destruct (pad8_padded n) as [k Hk]. rewrite Hk.
  change ("segment-" +:+ padded k n)%string with ("segment" +:+ String "-" (padded k n))%string.
  rewrite after_last_app by (apply digits_lack; [apply padded_digits|done]). by rewrite padded_parse.
Qed.

Lemma segment_name_inj n m : 0 <= n < 2 ^ 64 -> 0 <= m < 2 ^ 64 -> segment_name n = segment_name m -> n = m.
Proof.
  intros Hn Hm E. apply (f_equal file_stem) in E. rewrite !segment_stem in E. destruct (pad8_padded n) as [k Hk], (pad8_padded m) as [j Hj].
  rewrite Hk, Hj in E. apply (f_equal tx) in E. rewrite !tx_app in E. apply app_inv_head in E.
  apply (f_equal parse_dec) in E. rewrite !padded_parse in E by done. by injection E.
Qed.

Lemma default_segment : DEFAULT_SEGMENT = segment_name 1.
Proof. reflexivity. Qed.

(** ** Numbered directories *)

(** A prefix and a number of at least ten digits. *)
Definition stamped (p : string) (n : Z) : string := (p +:+ pad10 n)%string.

Lemma pad10_padded n : exists k, pad10 n = padded k n.
Proof. by eexists. Qed.

Lemma stamped_digits p n : exists t, tx (stamped p n) = tx p ++ t /\ forallb digit t = true /\
  (0 <= n < 2 ^ 64 -> parse_dec t = Some n) /\ t <> [].
Proof.
  destruct (pad10_padded n) as [k Hk]. exists (tx (padded k n)). unfold stamped. rewrite tx_app, Hk. split_and!; [done| | |].
  - apply padded_digits.
  - apply padded_parse.
  - unfold padded. rewrite tx_app. intros E%app_nil. destruct E as [_ E]. unfold pretty, pretty_N in E. destruct (decide _); [done|].
    destruct (pretty_go_head (Z.to_N n) EmptyString n0) as (b & t & Ht & _). by rewrite Ht in E.
Qed.

Lemma stamped_inj p n m : 0 <= n < 2 ^ 64 -> 0 <= m < 2 ^ 64 -> stamped p n = stamped p m -> n = m.
Proof.
  intros Hn Hm E. destruct (stamped_digits p n) as (t & Ht & _ & Hp & _), (stamped_digits p m) as (u & Hu & _ & Hq & _).
  rewrite E, Hu in Ht. apply app_inv_head in Ht as ->. specialize (Hp Hn). specialize (Hq Hm). congruence.
Qed.

Lemma stamped_last p n : exists b, last (tx (stamped p n)) = Some b /\ digit b = true.
Proof.
  destruct (stamped_digits p n) as (t & Ht & Hd & _ & Hne). rewrite Ht, last_app. destruct (last t) as [b|] eqn:E.
  - exists b. split; [done|]. rewrite forallb_forall in Hd. apply Hd, list_elem_of_In. by apply last_Some_elem_of.
  - by apply last_None in E.
Qed.

Lemma stamped_not_partial p n : ends_with (tx ".partial") (tx (stamped p n)) = false.
Proof.
  destruct (ends_with _ _) eqn:E; [|done]. apply ends_with_Some in E as [r Hr].
  destruct (stamped_last p n) as (b & Hb & Hd). rewrite Hr, last_app in Hb. injection Hb as <-. done.
Qed.

(** ** Snapshots *)

Lemma snapshot_dir_inj n m : 0 <= n < 2 ^ 64 -> 0 <= m < 2 ^ 64 -> snapshot_dir n = snapshot_dir m -> n = m.
Proof. apply (stamped_inj "snap-"). Qed.

Lemma partial_ne n m : partial_dir n <> snapshot_dir m.
Proof.
  intros E. pose proof (stamped_not_partial "snap-" m) as Hp. change (stamped "snap-" m) with (snapshot_dir m) in Hp.
  rewrite <- E in Hp. unfold partial_dir in Hp. by rewrite tx_app, ends_with_app in Hp.
Qed.

Lemma snapshot_dir_name n : snapshot_name (snapshot_dir n) = true.
Proof.
  destruct (stamped_digits "snap-" n) as (t & Ht & Hd & _ & _). unfold snapshot_name, pointer_name.
  change (snapshot_dir n) with (stamped "snap-" n). rewrite Ht.
  assert (plain (tx "snap-" ++ t) = true) as Hp by (rewrite plain_app, (digits_plain t Hd); done).
  by rewrite plain_utf8, one_line_plain.
Qed.

(** The cleanup keeps the live snapshot. *)
Lemma live_not_superseded n : 0 <= n < 2 ^ 64 -> superseded n (snapshot_dir n) = false.
Proof.
  intros Hn. unfold superseded. change (snapshot_dir n) with (stamped "snap-" n). rewrite stamped_not_partial.
  destruct (stamped_digits "snap-" n) as (t & -> & Hd & Hp & _). rewrite strip_prefix_app, (Hp Hn). apply Z.ltb_irrefl.
Qed.
