(* ===== verification/CompactionLaws.v ===== *)
(** * The state a compacting log keeps

    A log, its directory and its live snapshot stand for a history: every batch
    ever sealed, epoch by epoch.  The invariant, and that compaction keeps it
    whatever seam stops it.

    Its later part: the laws of compaction. *)

From Stdlib Require Import ZArith NArith Lia.
From stdpp Require Import base list strings pretty.
From S2P Require Import Prelude BTree ZAlg Value ZSet Bind Codec Text LogRecord Log LogCorrect Snapshot SnapshotCorrect Compaction CompactionCorrect.

(** ** What the log accepts *)

Lemma check_values_conform s (r : Row) : forall fs pre,
  fields s = pre ++ fs -> length r = length fs ->
  try_for (fun p => map_err LogZSet (check_value s p.1 p.2)) (imap (fun i v => ((length pre + i)%nat, v)) r) = Ok tt ->
  Forall2 fits_field fs r.
Proof.
  induction r as [|v r IH]; intros [|f fs] pre Hf Hl; try done. cbn [imap try_for fst snd].
  rewrite Nat.add_0_r. intros Hc.
  assert (fields s !! length pre = Some f) as Hlk by (rewrite Hf, lookup_app_r, Nat.sub_diag by lia; done).
  destruct (check_value s (length pre) v) as [[]|] eqn:E; [|done]. constructor; [by apply (check_value_Ok _ _ _ _ Hlk)|].
  apply (IH fs (pre ++ [f])); [by rewrite <- app_assoc|by injection Hl|]. cbn [map_err] in Hc. rewrite <- Hc. f_equal.
  apply imap_ext. intros i x _. simpl. rewrite length_app. simpl. f_equal. lia.
Qed.

Lemma log_check_row_conforms s e : log_check_row s e = Ok tt -> conforms s e.1.
Proof.
  unfold log_check_row. destruct (Nat.eqb_spec (length e.1) (schema_len s)) as [Hl|]; [|done]. cbn [negb].
  intros H. by apply (check_values_conform s e.1 (fields s) []).
Qed.

(** Appending a batch twice or not at all leaves the log; once, one batch more. *)
Lemma abs_append_cases catalog a b :
  (abs_append catalog a b).1 = a \/
  ((abs_append catalog a b).1 = mkALog (bt_insert (dedup_token b) (content_hash (batch_record b)) (a_known a)) (a_from a)
     (a_epochs a) (a_pending a ++ [b]) /\ (record_ok (batch_record b) = true -> batch_ok catalog b)).
Proof.
  unfold abs_append. destruct (bt_get (batch_table b) catalog) as [s|] eqn:Es; cbn [ok_or]; [|by left].
  destruct (try_for (log_check_row s) (batch_rows b)) as [[]|] eqn:Ev; [|by left].
  destruct (bt_get (dedup_token b) (a_known a)); [by left|]. right. split; [done|]. intros Hr. split; [|done].
  exists s. split; [done|]. apply try_for_Ok in Ev. eapply Forall_impl; [exact Ev|]. intros e. apply log_check_row_conforms.
Qed.

Section inv.
Context `{P : Parquet, !ParquetLaws P} (policy : SyncPolicy) (catalog : Catalog).
Hypothesis Hcat : catalog_ok catalog.

(** ** Snapshots on disk *)

(** A directory that is a snapshot of [bs]: whole, by source, and in chunks. *)
Record holds (files : SnapshotDir) (bs : list Batch) : Prop := {
  ho_load : load files catalog = Ok (contents catalog bs);
  ho_sources : read_provenance files catalog = Ok (Some (ownership catalog bs));
  ho_stream : exists c ds, chunks files catalog = Ok c /\
    (forall fuel, (length ds < fuel)%nat -> chunks_collect fuel files c = map Ok ds) /\
    forall t, flat_map (fun d => entries_for d t) ds = default [] (batch_entries <$> bt_get t (contents catalog bs))
}.

Lemma write_tables_spec l : forall w,
  Forall (fun p => storable_batch p.2) l ->
  write_tables w l =
  (mkWritten (fold_left (fun m p => bt_insert (table_path p.1) (file_of p.2) m) l (wr_files w))
     (fold_left (fun m p => bt_insert p.1 (batch_len p.2) m) l (wr_rows w))
     (fold_left (fun m p => bt_insert p.1 (batch_len p.2, crc32 (file_of p.2)) m) l (wr_sums w)), Ok tt).
Proof.
  induction l as [|[t b] l IH]; intros w Hl; [by destruct w|]. apply Forall_cons in Hl as [Hb Hl]. cbn [write_tables].
  destruct (file_of_spec b Hb) as [-> _]. by rewrite IH.
Qed.

Lemma written_files (l : Integrals) t : forall acc,
  bt_sorted l ->
  bt_get (table_path t) (fold_left (fun m p => bt_insert (table_path p.1) (file_of p.2) m) l acc) =
  match bt_get t l with Some b => Some (file_of b) | None => bt_get (table_path t) acc end.
Proof.
  induction l as [|[t1 b1] l IH]; intros acc Hs; [done|]. apply bt_sorted_cons_inv in Hs as [Hs Hall].
  cbn [fold_left fst snd]. rewrite IH, bt_get_cons by done. case_cmp_eqb t t1.
  - subst. rewrite (bt_get_below t1 l) by done. by rewrite bt_get_insert_eq.
  - destruct (bt_get t l); [done|]. apply bt_get_insert_ne. by intros ?%table_path_inj.
Qed.

(** The files P2 writes, and the directory they make with the manifest. *)
Definition snapshot_files (bs : list Batch) (ledger : list N) : SnapshotDir :=
  bt_insert PROVENANCE (flat_map rframe (ledger_records (ownership catalog bs)))
    (bt_insert DEDUP_LEDGER ledger
       (fold_left (fun m p => bt_insert (table_path p.1) (file_of p.2) m) (contents catalog bs) bt_empty)).

Definition snapshot_manifest (bs : list Batch) (anchor : Z) (ledger : list N) : Manifest :=
  mkManifest anchor (sums_of (contents catalog bs)) (crc32 ledger)
    (Some (crc32 (flat_map rframe (ledger_records (ownership catalog bs))))).

Lemma rframes_ok rs : bytes_ok (flat_map rframe rs).
Proof.
  apply flat_map_ok. intros r. unfold rframe, frame, bytes_ok. rewrite !Forall_app.
  split_and!; [apply be_bytes_range..|apply record_encode_ok].
Qed.

Lemma snapshot_holds bs anchor ledger :
  history_ok catalog bs -> ledger_fits bs = true -> 0 <= anchor < 2 ^ 64 -> bytes_ok ledger ->
  holds (bt_insert MANIFEST (manifest_encode (snapshot_manifest bs anchor ledger)) (snapshot_files bs ledger)) bs.
Proof.
  intros Hh Hfit Ha Hled. pose proof (contents_valid catalog Hcat bs Hh) as Hv. pose proof (proj1 Hv) as Hs.
  set (m := snapshot_manifest bs anchor ledger). set (files := bt_insert MANIFEST _ _).
  assert (valid_manifest m = true) as Hvm.
  { unfold valid_manifest, u32. cbn [m manifest_epoch manifest_tables dedup_crc provenance_crc snapshot_manifest].
    rewrite (sums_valid catalog _ Hv). pose proof (crc32_range _ Hled).
    pose proof (crc32_range _ (rframes_ok (ledger_records (ownership catalog bs)))).
    rewrite !andb_true_iff, !Z.leb_le, !Z.ltb_lt. lia. }
  assert (bt_get MANIFEST files = Some (manifest_encode m)) as Hm by apply bt_get_insert_eq.
  assert (tables_in (contents catalog bs) files) as Ht.
  { intros t b Hg. unfold files, snapshot_files.
    rewrite !bt_get_insert_ne by (apply table_path_ne; by vm_compute). by rewrite written_files, Hg. }
  split.
  - by eapply load_round_trip.
  - eapply provenance_round_trip; [by apply ownership_valid|exact Hm|done|by apply bt_map_sorted| |done].
    unfold files, snapshot_files. by rewrite bt_get_insert_ne, bt_get_insert_eq.
  - eexists. destruct (collect_tables catalog files _ Hv Ht) as (ds & Hc & He). exists ds.
    split_and!; [by eapply chunks_open|done|done].
Qed.

(** ** The invariant *)

(** [hist] is what was sealed, from epoch 1 on; [k] bounds the operations so far. *)
Record db_inv (k : Z) (hist : list (list Batch)) (a : ALog) (d : Disk) (log : Log) : Prop := {
  db_log : exists base, log_inv policy catalog base d log a;
  db_abs : abs_ok k a;
  db_from : 0 <= a_from a <= Z.of_nat (length hist);
  db_epochs : a_epochs a = drop (Z.to_nat (a_from a)) hist;
  db_history : history_ok catalog (concat hist ++ a_pending a);
  db_segment : exists n, segment log = segment_name n /\ 1 <= n <= k + 1;
  db_sorted : bt_sorted (snapshots d);
  db_snapshot :
    match log_snapshot log with
    | None => a_from a = 0
    | Some name => name = snapshot_dir (a_from a) /\
        exists files, bt_get name (snapshots d) = Some files /\ holds files (concat (take (Z.to_nat (a_from a)) hist))
    end
}.

Definition upto (n : Z) (hist : list (list Batch)) : list Batch := concat (take (Z.to_nat n) hist).

Lemma upto_history n hist pending : history_ok catalog (concat hist ++ pending) -> history_ok catalog (upto n hist).
Proof.
  intros Hh. unfold upto. rewrite <- (take_drop (Z.to_nat n) hist), concat_app in Hh.
  rewrite <- app_assoc in Hh. by apply history_app in Hh as [? _].
Qed.

Section at_state.
Context (k : Z) (hist : list (list Batch)) (a : ALog) (d : Disk) (log : Log) (Hdb : db_inv k hist a d log).

Lemma db_sealed : abs_sealed a = Z.of_nat (length hist).
Proof. unfold abs_sealed. rewrite (db_epochs _ _ _ _ _ Hdb), length_drop. pose proof (db_from _ _ _ _ _ Hdb). lia. Qed.

Lemma db_log_sealed : log_sealed_epoch log = Z.of_nat (length hist).
Proof. destruct (db_log _ _ _ _ _ Hdb) as [base Hl]. rewrite (log_sealed_of _ _ _ _ _ _ Hl). apply db_sealed. Qed.

Lemma db_retained : retained_from log = a_from a.
Proof. destruct (db_log _ _ _ _ _ Hdb) as [base Hl]. by rewrite (li_log _ _ _ _ _ _ Hl). Qed.

Lemma db_catalog : log_catalog log = catalog.
Proof. destruct (db_log _ _ _ _ _ Hdb) as [base Hl]. by rewrite (li_log _ _ _ _ _ _ Hl). Qed.

Lemma db_pending : log_pending log = a_pending a.
Proof. destruct (db_log _ _ _ _ _ Hdb) as [base Hl]. by rewrite (li_log _ _ _ _ _ _ Hl). Qed.

Lemma db_epoch e : a_from a < e <= Z.of_nat (length hist) -> exists bs, hist !! Z.to_nat (e - 1) = Some bs /\ log_epoch log d e = Ok bs.
Proof.
  intros He. destruct (db_log _ _ _ _ _ Hdb) as [base Hl]. pose proof (db_from _ _ _ _ _ Hdb) as Hf.
  destruct (lookup_lt_is_Some_2 hist (Z.to_nat (e - 1))) as [bs Hb]; [lia|]. exists bs. split; [done|].
  rewrite (log_epoch_refines _ _ _ _ _ _ _ Hl). unfold abs_epoch. rewrite db_sealed.
  rewrite (proj2 (Z.eqb_neq _ _)), (proj2 (Z.leb_gt _ _)), (proj2 (Z.ltb_ge _ _)) by lia. simpl.
  rewrite (db_epochs _ _ _ _ _ Hdb), lookup_drop.
  replace (Z.to_nat (a_from a) + Z.to_nat (e - a_from a - 1))%nat with (Z.to_nat (e - 1)) by lia. by rewrite Hb.
Qed.

(** A loop over epochs is a loop over their batches. *)
Lemma epoch_fold {St} (G : St -> Batch -> result BatchError St) lo hi : forall st,
  a_from a <= lo -> lo <= hi -> hi <= Z.of_nat (length hist) ->
  try_fold (fun st e => let? bs := map_err BatchLog (log_epoch log d e) in try_fold G st bs) st (epochs_after lo hi) =
  try_fold G st (concat (take (Z.to_nat (hi - lo)) (drop (Z.to_nat lo) hist))).
Proof.
  pose proof (db_from _ _ _ _ _ Hdb) as Hf. unfold epochs_after.
  remember (Z.to_nat (hi - lo)) as n eqn:Hn. revert lo Hn. induction n as [|n IH]; intros lo Hn st Hlo Hle Hhi; [done|].
  cbn [seq map try_fold]. destruct (db_epoch (lo + 1 + Z.of_nat 0)) as (bs & Hb & ->); [lia|]. cbn [map_err].
  replace (Z.to_nat (lo + 1 + Z.of_nat 0 - 1)) with (Z.to_nat lo) in Hb by lia.
  rewrite (drop_S _ _ _ Hb). cbn [take concat]. rewrite try_fold_app. destruct (try_fold G st bs) as [st'|]; [|done].
  rewrite <- seq_shift, map_map.
  rewrite (map_ext (fun i => lo + 1 + Z.of_nat (S i)) (fun i => lo + 1 + 1 + Z.of_nat i)) by (intros; lia).
  rewrite (IH (lo + 1)) by lia. do 4 f_equal. lia.
Qed.

Lemma upto_split lo hi : 0 <= lo <= hi -> upto lo hist ++ concat (take (Z.to_nat (hi - lo)) (drop (Z.to_nat lo) hist)) = upto hi hist.
Proof.
  intros H. unfold upto. rewrite <- concat_app. f_equal.
  replace (Z.to_nat hi) with (Z.to_nat lo + Z.to_nat (hi - lo))%nat by lia. apply take_take_drop.
Qed.

Lemma db_live :
  live_integrals log d catalog = Ok (contents catalog (upto (a_from a) hist)).
Proof.
  unfold live_integrals, live_files. pose proof (db_snapshot _ _ _ _ _ Hdb) as Hs. destruct (log_snapshot log) as [name|]; simpl.
  - destruct Hs as (_ & files & Hg & Hh). rewrite Hg. simpl. apply Hh.
  - by rewrite Hs.
Qed.

(** Bootstrap reads the history, whatever part of it is in a snapshot. *)
Lemma accumulated_upto_spec n :
  a_from a <= n <= Z.of_nat (length hist) -> accumulated_upto log d catalog n = Ok (contents catalog (upto n hist)).
Proof.
  intros Hn. unfold accumulated_upto. rewrite db_live, db_retained, db_log_sealed. pose proof (db_from _ _ _ _ _ Hdb) as Hf.
  replace (Z.min n (Z.of_nat (length hist))) with n by lia. rewrite epoch_fold by lia.
  rewrite accumulate_batches, upto_split by (done || lia || (rewrite upto_split by lia; by eapply upto_history, db_history)). done.
Qed.

Lemma upto_all : upto (Z.of_nat (length hist)) hist = concat hist.
Proof. unfold upto. by rewrite Nat2Z.id, firstn_all. Qed.

Lemma accumulated_spec : accumulated log d catalog = Ok (contents catalog (concat hist)).
Proof.
  unfold accumulated. rewrite db_log_sealed, accumulated_upto_spec, upto_all by (pose proof (db_from _ _ _ _ _ Hdb); lia). done.
Qed.

Lemma source_integrals_spec n :
  a_from a <= n <= Z.of_nat (length hist) -> source_integrals_upto log d catalog n = Ok (ownership catalog (upto n hist)).
Proof.
  intros Hn. pose proof (db_from _ _ _ _ _ Hdb) as Hf. pose proof (db_history _ _ _ _ _ Hdb) as Hh.
  unfold source_integrals_upto. rewrite db_retained, db_log_sealed, !(proj2 (Z.ltb_ge _ _)) by lia.
  assert (exists out, collects catalog (upto (a_from a) hist) out /\
    match live_files log d with
    | None => Ok bt_empty
    | Some files => let? found := read_provenance files catalog in
        match found with Some provenance => Ok provenance
        | None => if a_from a =? 0 then Ok bt_empty else Err (ProvenanceUnavailable (a_from a)) end
    end = Ok out) as (out & Hco & Hout).
  { unfold live_files. pose proof (db_snapshot _ _ _ _ _ Hdb) as Hs. destruct (log_snapshot log) as [name|]; simpl.
    - destruct Hs as (_ & files & Hg & Hho). rewrite Hg. simpl. rewrite (ho_sources _ _ Hho).
      exists (ownership catalog (upto (a_from a) hist)). split; [|done]. by eapply ownership_collects, upto_history.
    - exists bt_empty. split; [|done]. rewrite Hs. apply nothing_collected. }
  rewrite Hout, epoch_fold by lia. pose proof (upto_history n _ _ Hh) as Hhn.
  destruct (extend_batches catalog Hcat (concat (take (Z.to_nat (n - a_from a)) (drop (Z.to_nat (a_from a)) hist))) _ out Hco) as (out' & Ho & Hco').
  { by rewrite upto_split by lia. }
  rewrite Ho. rewrite upto_split in Hco' by lia. by apply consolidate_all_spec.
Qed.

Lemma source_integral_spec s :
  source_integral log d catalog s = Ok (owns catalog (by_source s (concat hist ++ a_pending a))).
Proof.
  pose proof (db_from _ _ _ _ _ Hdb) as Hf. pose proof (db_history _ _ _ _ _ Hdb) as Hh. unfold source_integral.
  rewrite db_log_sealed, source_integrals_spec, upto_all, db_pending by lia.
  change bt_empty with (@nil (string * ZSetBatch)).
  pose proof (cs_source _ _ _ (ownership_collects catalog _ (proj1 (history_app _ _ _ Hh))) s) as Hc.
  assert (by_source s (concat hist ++ a_pending a) = by_source s (concat hist) ++ by_source s (a_pending a)) as Hby by apply filter_app.
  pose proof (by_source_history catalog s _ Hh) as Hhs. rewrite Hby in *. fold (by_source s (a_pending a)).
  destruct (extend_ones catalog Hcat _ _ _ Hc Hhs) as (T' & HT' & Hc'). rewrite HT'. by apply consolidate_one_spec.
Qed.
End at_state.

(** ** Compaction *)

Lemma db_weaken k k' hist a d log : db_inv k hist a d log -> k <= k' -> db_inv k' hist a d log.
Proof.
  intros [Hl Ha Hf He Hh (n & Hn & Hb) Hs Hsn] Hk. split; try done; [by eapply abs_weaken|]. exists n. split; [done|lia].
Qed.

(** Snapshots nothing points at can come and go. *)
Lemma side_inv k hist a d log snaps :
  db_inv k hist a d log -> bt_sorted snaps ->
  (forall name, log_snapshot log = Some name -> bt_get name snaps = bt_get name (snapshots d)) ->
  db_inv k hist a (with_snapshots d snaps) log.
Proof.
  intros [[base [Hl Hk Hrec Hb Hfr Hso Hp Hs]] Ha Hf He Hh Hseg Hss Hsn] Hsorted Hsame. split; try done.
  - exists base. split; try done.
    + unfold points_to in *. change (read_pointer (with_snapshots d snaps)) with (read_pointer d). destruct (read_pointer d); [|done].
      destruct Hp as (-> & Hc & Hu). split_and!; [done|done|]. destruct (log_snapshot log) as [name|]; [|done].
      unfold snapshot_usable in *. simpl. by rewrite (Hsame _ eq_refl).
    + unfold seed_dedup in *. destruct (log_snapshot log) as [name|]; [|done]. simpl. by rewrite (Hsame _ eq_refl).
  - destruct (log_snapshot log) as [name|]; [|done]. destruct Hsn as [Hn (files & Hg & Hho)]. split; [done|].
    exists files. simpl. by rewrite (Hsame _ eq_refl).
Qed.

(** What a compaction leaves: a directory that stands for the same history, and
    the log in memory with it when the compaction was not stopped. *)
Definition survives (k : Z) (hist : list (list Batch)) (a : ALog) (d : Disk) (log : Log) (r : result BatchError Compacted) : Prop :=
  exists a' log', db_inv k hist a' d log' /\ a_pending a' = a_pending a /\ a_known a' = a_known a /\
    match r with
    | Ok c => log = log' /\ a_from a' = compacted_anchor c
    | Err e => exists seam, e = BatchLog (InjectedFault (seam_name seam))
    end.

Lemma survives_old k hist a d log log0 seam :
  db_inv k hist a d log -> survives k hist a d log0 (seam_fault seam).
Proof. intros Hdb. exists a, log. split_and!; [done..|]. by eexists. Qed.

Lemma same_snapshots_inv k hist a d d' log base :
  db_inv k hist a d log -> log_inv policy catalog base d' log a -> snapshots d' = snapshots d -> db_inv k hist a d' log.
Proof.
  intros [_ Ha Hf He Hhi Hse Hs Hsnap] Hinv Hsn.
  split; [by exists base|exact Ha|exact Hf|exact He|exact Hhi|exact Hse|by rewrite Hsn|by rewrite Hsn].
Qed.

(** The invariant after the pointer moved. *)
Lemma compacted_db k hist a d d' log anchor files base' :
  db_inv k hist a d log -> a_from a < anchor -> anchor <= Z.of_nat (length hist) -> k < 2 ^ 63 ->
  log_inv policy catalog base' d' (compacted_log policy catalog log a anchor (snapshot_dir anchor)) (abs_compact a anchor).1 ->
  bt_sorted (snapshots d') -> bt_get (snapshot_dir anchor) (snapshots d') = Some files -> holds files (upto anchor hist) ->
  db_inv (k + 1) hist (abs_compact a anchor).1 d' (compacted_log policy catalog log a anchor (snapshot_dir anchor)).
Proof.
  intros Hdb Hlt Hle Hk Hinv Hs Hg Hh. pose proof (db_sealed _ _ _ _ _ Hdb) as Hse. pose proof (db_from _ _ _ _ _ Hdb) as Hf.
  destruct (db_segment _ _ _ _ _ Hdb) as (n & Hn & Hnk). pose proof (abs_compact_ok a anchor Hlt ltac:(lia)) as Ha. split.
  - by exists base'.
  - apply abs_compact_abs_ok, Hdb.
  - rewrite Ha. simpl. lia.
  - rewrite Ha. simpl. rewrite (db_epochs _ _ _ _ _ Hdb), drop_drop. f_equal. lia.
  - rewrite Ha. apply (db_history _ _ _ _ _ Hdb).
  - exists (n + 1). split; [|lia]. simpl. apply next_segment_of; [done|lia].
  - done.
  - cbn [compacted_log log_of log_snapshot]. rewrite Ha. cbn [fst a_from]. split; [done|]. by exists files.
Qed.

Lemma cleanup_db k hist a d log :
  db_inv k hist a d log -> (exists name, log_snapshot log = Some name) -> k < 2 ^ 63 ->
  db_inv k hist a (cleanup d (a_from a)) log.
Proof.
  intros Hdb [name Hn] Hk. apply side_inv; [done|apply bt_sorted_filter, Hdb|]. intros name' Hn'.
  pose proof (db_snapshot _ _ _ _ _ Hdb) as Hs. rewrite Hn' in Hs. destruct Hs as [-> (files & Hg & _)].
  rewrite bt_get_filter by apply Hdb. rewrite Hg. simpl. rewrite decide_True; [done|]. apply live_not_superseded.
  pose proof (db_from _ _ _ _ _ Hdb). pose proof (ao_sealed _ _ (db_abs _ _ _ _ _ Hdb)).
  rewrite (db_sealed _ _ _ _ _ Hdb) in *. lia.
Qed.

(** P6 to P8, stopped anywhere. *)
Lemma log_compact_db k hist a d log f anchor files :
  db_inv k hist a d log -> k < 2 ^ 62 -> a_from a < anchor -> anchor <= Z.of_nat (length hist) ->
  bt_get (snapshot_dir anchor) (snapshots d) = Some files -> holds files (upto anchor hist) -> carries files (a_known a) ->
  exists f' d' log' r, Log.compact log d f anchor (Some (snapshot_dir anchor)) = (f', d', log', r) /\
    (unplanned f -> r = Ok tt /\ unplanned f') /\
    exists a' log'', db_inv (k + 1) hist a' d' log'' /\ a_pending a' = a_pending a /\ a_known a' = a_known a /\
      match r with
      | Ok _ => log' = log'' /\ a_from a' = anchor /\ exists name, log_snapshot log'' = Some name
      | Err e => exists seam, e = InjectedFault (seam_name seam)
      end.
Proof.
  intros Hdb Hk Hlt Hle Hg Hh [Hm (bytes & Hb & Hl)]. destruct (db_log _ _ _ _ _ Hdb) as [base Hinv].
  destruct (db_segment _ _ _ _ _ Hdb) as (n & Hn & Hnk). pose proof (db_sealed _ _ _ _ _ Hdb) as Hse.
  destruct (compact_any_fault policy catalog base d log a f anchor (snapshot_dir anchor) k) as
    (f2 & d2 & log2 & r2 & Hc & Hsn & Hr & Hun & Hcase); try done.
  { apply Hdb. } { lia. } { apply snapshot_dir_name. }
  { unfold snapshot_usable. by rewrite Hg. } { unfold seed_dedup. rewrite Hg. simpl. by rewrite Hb. } { by rewrite Hse. }
  { rewrite (next_segment_of log n Hn), Hn by lia. intros E%segment_name_inj; lia. }
  exists f2, d2, log2, r2. split_and!; [done|done|]. destruct Hcase as [[Hinv2 Hnok]|[Hinv2 Hlog]].
  - exists a, log. split_and!; [|done|done|].
    + eapply db_weaken; [by eapply same_snapshots_inv|lia].
    + destruct Hr as [->|[seam ->]]; [done|by eexists].
  - exists (abs_compact a anchor).1, (compacted_log policy catalog log a anchor (snapshot_dir anchor)).
    pose proof (abs_compact_ok a anchor Hlt ltac:(by rewrite Hse)) as Ha. split_and!; [|by rewrite Ha|by rewrite Ha|].
    + eapply compacted_db; try done; [lia|rewrite Hsn; apply Hdb|by rewrite Hsn].
    + destruct Hr as [->|[seam ->]]; [|by eexists]. split_and!; [by apply Hlog|by rewrite Ha|by eexists].
Qed.

Lemma compact_commit_survives k hist a d log f done_ files :
  db_inv k hist a d log -> k < 2 ^ 62 -> a_from a < compacted_anchor done_ -> compacted_anchor done_ <= Z.of_nat (length hist) ->
  compacted_snapshot done_ = snapshot_dir (compacted_anchor done_) ->
  bt_get (snapshot_dir (compacted_anchor done_)) (snapshots d) = Some files ->
  holds files (upto (compacted_anchor done_) hist) -> carries files (a_known a) ->
  exists f' d' log' r, compact_commit log d f done_ = (f', d', log', r) /\ survives (k + 1) hist a d' log' r /\
    (unplanned f -> r = Ok done_).
Proof.
  intros Hdb Hk Hlt Hle Hname Hg Hh Hc. unfold compact_commit. rewrite Hname.
  destruct (reached f CompactAfterPublishBeforeSegment) as [f1 hit1] eqn:E1. destruct hit1.
  { eexists _, _, _, _. split_and!; [reflexivity|eapply survives_old, db_weaken; [done|lia]|].
    intros Hf. by apply reached_unplanned in E1 as [? _]. }
  destruct (log_compact_db k hist a d log f1 _ files Hdb Hk Hlt Hle Hg Hh Hc) as
    (f2 & d2 & log2 & r2 & -> & Hun & a' & log' & Hdb2 & Hp & Hkn & Hr).
  assert (unplanned f -> r2 = Ok tt /\ unplanned f2) as Hunf.
  { intros Hf. apply reached_unplanned in E1 as [_ Hf1]; [|done]. by apply Hun. }
  destruct r2 as [[]|e].
  2: { eexists _, _, _, _. split_and!; [reflexivity| |intros Hf; by destruct (Hunf Hf) as [? _]].
       destruct Hr as [seam ->]. exists a', log'. split_and!; [done..|]. by eexists. }
  destruct Hr as (-> & Hfa & Hsn). destruct (reached f2 CompactAfterTrimBeforeCleanup) as [f3 hit3] eqn:E3. destruct hit3.
  - eexists _, _, _, _. split_and!; [reflexivity| |].
    + exists a', log'. split_and!; [done..|]. by eexists.
    + intros Hf. destruct (Hunf Hf) as [_ Hf2]. by apply reached_unplanned in E3 as [? _].
  - eexists _, _, _, _. split_and!; [reflexivity| |done]. exists a', log'. split_and!; [|done|done|done|done].
    rewrite <- Hfa. apply cleanup_db; [done|done|lia].
Qed.

(** P3 to P9, stopped anywhere. *)
Lemma compact_publish_survives k hist a d log f m files done_ :
  db_inv k hist a d log -> k < 2 ^ 62 -> a_from a < compacted_anchor done_ -> compacted_anchor done_ <= Z.of_nat (length hist) ->
  compacted_snapshot done_ = snapshot_dir (compacted_anchor done_) ->
  holds (bt_insert MANIFEST (manifest_encode m) files) (upto (compacted_anchor done_) hist) ->
  carries (bt_insert MANIFEST (manifest_encode m) files) (a_known a) ->
  exists f' d' log' r, compact_publish log d f m files done_ = (f', d', log', r) /\ survives (k + 1) hist a d' log' r /\
    (unplanned f -> r = Ok done_).
Proof.
  intros Hdb Hk Hlt Hle Hname Hh Hc. unfold compact_publish. rewrite Hname. set (anchor := compacted_anchor done_) in *.
  assert (forall name, log_snapshot log = Some name -> name <> partial_dir anchor /\ name <> snapshot_dir anchor) as Hlive.
  { intros name Hn. pose proof (db_snapshot _ _ _ _ _ Hdb) as Hs. rewrite Hn in Hs. destruct Hs as [-> _].
    pose proof (db_from _ _ _ _ _ Hdb). pose proof (ao_sealed _ _ (db_abs _ _ _ _ _ Hdb)) as Hse.
    rewrite (db_sealed _ _ _ _ _ Hdb) in Hse. split; [intros E; by apply (partial_ne anchor (a_from a))|].
    intros E%snapshot_dir_inj; lia. }
  assert (db_inv (k + 1) hist a d log) as Hdb1 by (eapply db_weaken; [done|lia]).
  destruct (reached f CompactAfterWriteBeforeFsync) as [f1 hit1] eqn:E1. destruct hit1.
  { eexists _, _, _, _. split_and!; [reflexivity|by eapply survives_old|]. intros Hf. by apply reached_unplanned in E1 as [? _]. }
  destruct (reached f1 CompactAfterFsyncBeforeManifest) as [f2 hit2] eqn:E2. destruct hit2.
  { eexists _, _, _, _. split_and!; [reflexivity|by eapply survives_old|].
    intros Hf. apply reached_unplanned in E1 as [_ Hf1]; [|done]. by apply reached_unplanned in E2 as [? _]. }
  set (files' := bt_insert MANIFEST _ files) in *. set (d1 := with_snapshots d (bt_insert (partial_dir anchor) files' (snapshots d))).
  assert (forall k, db_inv k hist a d log -> db_inv k hist a d1 log) as Hd1.
  { intros k' Hk'. apply side_inv; [done|apply bt_insert_sorted, Hdb|]. intros name Hn.
    apply bt_get_insert_ne. by apply Hlive. }
  destruct (reached f2 CompactAfterManifestBeforePublish) as [f3 hit3] eqn:E3. destruct hit3.
  { eexists _, _, _, _. split_and!; [reflexivity|by eapply survives_old, Hd1|].
    intros Hf. apply reached_unplanned in E1 as [_ Hf1]; [|done]. apply reached_unplanned in E2 as [_ Hf2]; [|done].
    by apply reached_unplanned in E3 as [? _]. }
  edestruct (compact_commit_survives k hist a) with (f := f3) (done_ := done_) (files := files') as
    (f4 & d4 & log4 & r4 & -> & Hsv & Hu); [|done|done|done|done| |exact Hh|exact Hc|].
  - apply side_inv; [by apply Hd1| |].
    + apply bt_insert_sorted, bt_remove_sorted, bt_remove_sorted. apply (Hd1 k Hdb).
    + intros name Hn. destruct (Hlive _ Hn) as [Hn1 Hn2]. assert (bt_sorted (snapshots d1)) as Hs1 by apply (Hd1 k Hdb).
      rewrite bt_get_insert_ne by done. rewrite !bt_get_remove by by try apply bt_remove_sorted.
      by rewrite (proj2 (cmp_eqb_neq _ _)), (proj2 (cmp_eqb_neq _ _)).
  - simpl. apply bt_get_insert_eq.
  - eexists _, _, _, _. split_and!; [reflexivity|done|]. intros Hf. apply Hu.
    apply reached_unplanned in E1 as [_ Hf1]; [|done]. apply reached_unplanned in E2 as [_ Hf2]; [|done].
    by apply reached_unplanned in E3 as [_ ?].
Qed.

Lemma ledger_encode_ok tokens : bytes_ok (ledger_encode tokens).
Proof.
  unfold ledger_encode, bytes_ok. rewrite !Forall_app. split_and!; [apply be_bytes_range|apply put_u64_ok|].
  apply flat_map_ok, ledger_entry_ok.
Qed.

(** A whole compaction, stopped anywhere, over the contents at the anchor. *)
Lemma compact_survives k hist a d log f anchor :
  db_inv k hist a d log -> k < 2 ^ 62 -> a_from a < anchor -> anchor <= Z.of_nat (length hist) ->
  ledger_fits (upto anchor hist) = true ->
  exists f' d' log' r, compact log d anchor (contents catalog (upto anchor hist)) f = (f', d', log', r) /\
    survives (k + 1) hist a d' log' r /\ (unplanned f -> exists c, r = Ok c /\ compacted_anchor c = anchor).
Proof.
  intros Hdb Hk Hlt Hle Hfit. pose proof (db_from _ _ _ _ _ Hdb) as Hf. unfold compact.
  pose proof (ao_sealed _ _ (db_abs _ _ _ _ _ Hdb)) as Hse. rewrite (db_sealed _ _ _ _ _ Hdb) in Hse.
  rewrite (proj2 (Z.eqb_neq _ _)), (db_retained _ _ _ _ _ Hdb), (proj2 (Z.leb_gt _ _)) by lia.
  destruct (reached f CompactBeforeSnapshot) as [f1 hit1] eqn:E1. destruct hit1.
  { eexists _, _, _, _. split_and!; [reflexivity|eapply survives_old, db_weaken; [done|lia]|].
    intros Hu. by apply reached_unplanned in E1 as [? _]. }
  rewrite (db_catalog _ _ _ _ _ Hdb), (source_integrals_spec _ _ _ _ _ Hdb) by lia.
  pose proof (upto_history anchor _ _ (db_history _ _ _ _ _ Hdb)) as Hh. pose proof (contents_valid catalog Hcat _ Hh) as Hv.
  pose proof (ownership_valid catalog Hcat _ Hh Hfit) as Hov. unfold compact_write.
  rewrite write_tables_spec by (eapply Forall_impl; [apply Hv|]; intros p Hp; by destruct Hp as (_ & _ & ?)).
  cbn [wr_files wr_rows wr_sums]. destruct (db_log _ _ _ _ _ Hdb) as [base Hinv]. rewrite (log_dedup _ _ _ _ _ _ Hinv).
  rewrite (ledger_known k) by (apply Hdb || lia). rewrite (write_provenance_frames catalog _ Hov).
  set (ledger := ledger_encode (a_known a)). set (done_ := mkCompacted _ _ _ _ _).
  change (bt_insert PROVENANCE _ _) with (snapshot_files (upto anchor hist) ledger).
  set (d1 := with_snapshots d _). set (m := mkManifest _ _ _ _).
  assert (m = snapshot_manifest (upto anchor hist) anchor ledger) as Em.
  { unfold m, snapshot_manifest, sums_of. f_equal. by rewrite <- bt_collect by apply contents_sorted. }
  assert (db_inv k hist a d1 log) as Hd1.
  { apply side_inv; [done|apply bt_insert_sorted, bt_remove_sorted, Hdb|]. intros name Hn.
    pose proof (db_snapshot _ _ _ _ _ Hdb) as Hs. rewrite Hn in Hs. destruct Hs as [-> _].
    pose proof (partial_ne anchor (a_from a)) as Hne.
    rewrite bt_get_insert_ne, bt_get_remove by (congruence || apply Hdb). by rewrite (proj2 (cmp_eqb_neq _ _)) by congruence. }
  destruct (compact_publish_survives k hist a d1 log f1 m (snapshot_files (upto anchor hist) ledger) done_) as
    (f2 & d2 & log2 & r2 & -> & Hs & Hu); try done.
  - rewrite Em. apply snapshot_holds; [done|done|lia|apply ledger_encode_ok].
  - split; [unfold bt_contains; by rewrite bt_get_insert_eq|]. exists ledger. split.
    + rewrite bt_get_insert_ne by done. unfold snapshot_files. by rewrite bt_get_insert_ne, bt_get_insert_eq.
    + apply (ledger_known k); [apply Hdb|lia].
  - eexists _, _, _, _. split_and!; [reflexivity|done|]. intros Hun. exists done_. split; [|done]. apply Hu.
    by apply reached_unplanned in E1 as [_ ?].
Qed.
End inv.

(** * The laws of compaction

    Runs of a log that appends, seals, restarts, dies and compacts, against one
    that never compacts (ARCHITECTURE I-7), and the one-shot query over either. *)

Section runs.
Context `{P : Parquet, !ParquetLaws P} (policy : SyncPolicy) (catalog : Catalog).

(** What happens to a database's log.  A compaction may die at the seam its plan
    names; the process is then restarted. *)
Inductive DbOp :=
| DAppend (b : Batch)
| DSeal
| DRestart
| DCrash (b : Batch)
| DCompact (anchor : Z) (plan : option FaultPlan).

Inductive DbOut :=
| DAck (r : result LogError Ack)
| DSealed (r : result LogError Z)
| DQuiet
| DDown (e : LogError).

Definition reopen (d : Disk) (log : Log) : Disk * Log * DbOut :=
  match (log_open d catalog inert policy).2 with Ok log' => (d, log', DQuiet) | Err e => (d, log, DDown e) end.

Definition injector (plan : option FaultPlan) : FaultInjector := match plan with Some p => planned p | None => inert end.

(** The compaction a server runs: over what it reads at the anchor. *)
Definition db_compact (d : Disk) (log : Log) (anchor : Z) (faults : FaultInjector) : Disk * Log * result BatchError Compacted :=
  match accumulated_upto log d catalog anchor with
  | Err e => (d, log, Err e)
  | Ok integrals => let '(_, d', log', r) := compact log d anchor integrals faults in (d', log', r)
  end.

Definition db_op (s : Disk * Log) (op : DbOp) : Disk * Log * DbOut :=
  let '(d, log) := s in
  match op with
  | DAppend b => let '(_, d', log', r) := log_append log d inert b in (d', log', DAck r)
  | DSeal => let '(_, d', log', r) := log_seal log d inert in (d', log', DSealed r)
  | DRestart => reopen d log
  | DCrash b => let '(_, d', _, _) := log_append log d dying b in reopen d' log
  | DCompact anchor plan =>
      match db_compact d log anchor (injector plan) with
      | (d', log', Err (BatchLog (InjectedFault _))) => reopen d' log'
      | (d', log', _) => (d', log', DQuiet)
      end
  end.

(** The same on an abstract log, which compaction leaves alone. *)
Definition spec_op (h : ALog) (op : DbOp) : ALog * DbOut :=
  match op with
  | DAppend b => let '(h', r) := abs_append catalog h b in (h', DAck r)
  | DSeal => let '(h', r) := abs_seal h in (h', DSealed r)
  | DCrash b => ((abs_append catalog h b).1, DQuiet)
  | DRestart | DCompact _ _ => (h, DQuiet)
  end.

Definition db_op_ok (op : DbOp) : bool :=
  match op with DAppend b | DCrash b => record_ok (batch_record b) | _ => true end.

Fixpoint db_run (s : Disk * Log) (ops : list DbOp) : Disk * Log * list DbOut :=
  match ops with
  | [] => (s, [])
  | op :: ops' =>
      let '(s', out) := db_op s op in
      let '(s'', outs) := db_run s' ops' in (s'', out :: outs)
  end.

Fixpoint spec_run (h : ALog) (ops : list DbOp) : ALog * list DbOut :=
  match ops with
  | [] => (h, [])
  | op :: ops' =>
      let '(h', out) := spec_op h op in
      let '(h'', outs) := spec_run h' ops' in (h'', out :: outs)
  end.

(** Every prefix of the history has a ledger of sources that fits its frames. *)
Definition ledgers_fit (hist : list (list Batch)) : bool :=
  forallb (fun n => ledger_fits (concat (take n hist))) (seq 0 (S (length hist))).

(** The limits of the format: weights within [i64], ledgers within their frames. *)
Definition within_limits (h : ALog) : Prop := mass (all_rows (batches h)) <= i64_max /\ ledgers_fit (a_epochs h) = true.

Hypothesis Hcat : catalog_ok catalog.

(** [d] and [log] stand for the uncompacted [h]. *)
Definition db_view (k : Z) (h : ALog) (d : Disk) (log : Log) : Prop :=
  exists a, db_inv policy catalog k (a_epochs h) a d log /\ a_pending a = a_pending h /\ a_known a = a_known h /\ a_from h = 0.

Lemma db_append k hist a d d' log log' b base :
  db_inv policy catalog k hist a d log -> record_ok (batch_record b) = true ->
  log_inv policy catalog base d' log' (abs_append catalog a b).1 ->
  snapshots d' = snapshots d /\ segment log' = segment log /\ log_snapshot log' = log_snapshot log ->
  mass (all_rows (concat hist ++ a_pending (abs_append catalog a b).1)) <= i64_max ->
  db_inv policy catalog (k + 1) hist (abs_append catalog a b).1 d' log'.
Proof.
  intros [_ Ha Hf He Hh (n & Hn & Hnk) Hs Hsn] Hr Hinv (Hsd & Hseg & Hsnap) Hm.
  pose proof (abs_append_ok catalog k a b Ha Hr) as Ha'.
  assert (a_from (abs_append catalog a b).1 = a_from a /\ a_epochs (abs_append catalog a b).1 = a_epochs a /\
    Forall (batch_ok catalog) (concat hist ++ a_pending (abs_append catalog a b).1)) as (Ef & Ee & Hb).
  { destruct (abs_append_cases catalog a b) as [E|[E Hok]]; rewrite E; [split_and!; [done|done|apply Hh]|].
    split_and!; [done|done|]. simpl. rewrite app_assoc. apply Forall_app. split; [apply Hh|]. constructor; [by apply Hok|constructor]. }
  split; [by exists base|exact Ha'|by rewrite Ef|by rewrite Ee, Ef|by split|exists n; rewrite Hseg; split; [done|lia]|by rewrite Hsd|].
  rewrite Hsnap, Ef, Hsd. exact Hsn.
Qed.

Lemma db_seal k hist a d d' log log' base :
  db_inv policy catalog k hist a d log -> log_inv policy catalog base d' log' (abs_seal a).1 ->
  snapshots d' = snapshots d /\ segment log' = segment log /\ log_snapshot log' = log_snapshot log ->
  db_inv policy catalog (k + 1) (hist ++ [a_pending a]) (abs_seal a).1 d' log'.
Proof.
  intros [_ Ha Hf He Hh (n & Hn & Hnk) Hs Hsn] Hinv (Hsd & Hseg & Hsnap).
  split; [by exists base|by apply abs_seal_ok|rewrite length_app; simpl; lia| | |exists n; rewrite Hseg; split; [done|lia]|by rewrite Hsd|].
  - simpl. rewrite He, drop_app_le by lia. done.
  - simpl. rewrite concat_app. simpl. by rewrite !app_nil_r.
  - rewrite Hsnap, Hsd. change (a_from (abs_seal a).1) with (a_from a). rewrite take_app_le by lia. exact Hsn.
Qed.

Lemma db_reopen k hist a d log log0 :
  db_inv policy catalog k hist a d log -> reopen d log0 = (d, log, DQuiet).
Proof.
  intros Hdb. destruct (db_log _ _ _ _ _ _ _ Hdb) as [base Hinv].
  unfold reopen. destruct (reopen_inv _ _ _ _ _ _ inert Hinv) as (f' & _ & ->); done.
Qed.

(** An anchor that is not ahead of the snapshot, or not sealed, is refused. *)
Lemma compact_refused k hist a d log f anchor integrals :
  db_inv policy catalog k hist a d log -> ~ (a_from a < anchor <= Z.of_nat (length hist)) ->
  exists f' e, compact log d anchor integrals f = (f', d, log, Err e).
Proof.
  intros Hdb Hn. pose proof (db_from _ _ _ _ _ _ _ Hdb) as Hf. unfold compact.
  destruct (Z.eqb_spec anchor 0); [by eexists _, _|]. rewrite (db_retained _ _ _ _ _ _ _ Hdb).
  destruct (Z.leb_spec anchor (a_from a)); [by eexists _, _|].
  destruct (reached f CompactBeforeSnapshot) as [f1 []]; [by eexists _, _|].
  unfold source_integrals_upto. rewrite (db_retained _ _ _ _ _ _ _ Hdb), (db_log_sealed _ _ _ _ _ _ _ Hdb).
  rewrite (proj2 (Z.ltb_ge _ _)), (proj2 (Z.ltb_lt _ _)) by lia. by eexists _, _.
Qed.

Lemma ledgers_fit_upto hist n : ledgers_fit hist = true -> ledger_fits (upto n hist) = true.
Proof.
  unfold ledgers_fit, upto. rewrite forallb_forall. intros H.
  destruct (decide (Z.to_nat n <= length hist)%nat) as [Hn|Hn].
  - apply H, in_seq. lia.
  - rewrite take_ge by lia. rewrite <- (firstn_all hist). apply H, in_seq. lia.
Qed.

Lemma db_compact_view k hist a d log anchor f :
  db_inv policy catalog k hist a d log -> k < 2 ^ 62 -> ledgers_fit hist = true ->
  exists d' log' r, db_compact d log anchor f = (d', log', r) /\
    exists a' log'', db_inv policy catalog (k + 1) hist a' d' log'' /\ a_pending a' = a_pending a /\ a_known a' = a_known a /\
      ((exists s, r = Err (BatchLog (InjectedFault s))) \/ log' = log'') /\
      (unplanned f -> a_from a < anchor <= Z.of_nat (length hist) -> log' = log'' /\ a_from a' = anchor /\ exists c, r = Ok c).
Proof.
  intros Hdb Hk Hfit. pose proof (db_from _ _ _ _ _ _ _ Hdb) as Hf. unfold db_compact.
  destruct (decide (a_from a < anchor <= Z.of_nat (length hist))) as [Hin|Hout].
  - rewrite (accumulated_upto_spec _ _ Hcat _ _ _ _ _ Hdb) by lia.
    destruct (compact_survives policy catalog Hcat k hist a d log f anchor) as (f' & d' & log' & r & -> & Hs & Hu);
      [done|done|lia|lia|by apply ledgers_fit_upto|].
    exists d', log', r. split; [done|]. destruct Hs as (a' & log'' & Hdb' & Hp & Hkn & Hr). exists a', log''.
    split_and!; [done|done|done| |].
    + destruct r as [c|e]; [right; apply Hr|]. left. destruct Hr as [seam ->]. by eexists.
    + intros Hun _. destruct (Hu Hun) as (c & -> & Hc). destruct Hr as [-> ->]. by split_and!; [|by rewrite Hc|eexists].
  - assert (exists integrals, accumulated_upto log d catalog anchor = Ok integrals) as [integrals ->].
    { unfold accumulated_upto. rewrite (db_live _ _ _ _ _ _ _ Hdb), (db_retained _ _ _ _ _ _ _ Hdb), (db_log_sealed _ _ _ _ _ _ _ Hdb).
      destruct (decide (anchor <= a_from a)) as [Hle|Hgt].
      - unfold epochs_after. replace (Z.to_nat (Z.min anchor (Z.of_nat (length hist)) - a_from a)) with 0%nat by lia.
        simpl. by eexists.
      - replace (Z.min anchor (Z.of_nat (length hist))) with (Z.of_nat (length hist)) by lia.
        rewrite (epoch_fold _ _ _ _ _ _ _ Hdb) by lia.
        rewrite accumulate_batches; [by eexists|done|].
        rewrite upto_split by lia. eapply upto_history, (db_history _ _ _ _ _ _ _ Hdb). }
    destruct (compact_refused _ _ _ _ _ f anchor integrals Hdb Hout) as (f' & e & ->).
    exists d, log, (Err e). split; [done|]. exists a, log. split_and!; [eapply db_weaken; [done|lia]|done|done|by right|].
    intros _ ?. tauto.
Qed.

(** An append reads and changes only the tokens and the pending batches. *)
Lemma abs_append_same a h b :
  a_known a = a_known h -> a_pending a = a_pending h ->
  let a' := abs_append catalog a b in let h' := abs_append catalog h b in
  a'.2 = h'.2 /\ a_pending a'.1 = a_pending h'.1 /\ a_known a'.1 = a_known h'.1 /\
  a_epochs h'.1 = a_epochs h /\ a_from h'.1 = a_from h.
Proof.
  intros Hk Hp. unfold abs_append. rewrite Hk, Hp. destruct (let? schema := _ in _) as [[]|]; [|done].
  destruct (bt_get (dedup_token b) (a_known h)); done.
Qed.

Lemma spec_op_grows h op : exists more, batches (spec_op h op).1 = batches h ++ more.
Proof.
  assert (forall b, exists more, batches (abs_append catalog h b).1 = batches h ++ more) as Ha.
  { intros b. destruct (abs_append_cases catalog h b) as [->|[-> _]]; [exists []; by rewrite app_nil_r|].
    exists [b]. unfold batches. simpl. by rewrite app_assoc. }
  destruct op as [b| | |b|]; cbn [spec_op]; try (exists []; by rewrite app_nil_r).
  - specialize (Ha b). revert Ha. by destruct (abs_append catalog h b).
  - exists []. unfold batches. simpl. rewrite concat_app. simpl. by rewrite !app_nil_r.
  - apply Ha.
Qed.

Lemma spec_op_epochs h op : exists more, a_epochs (spec_op h op).1 = a_epochs h ++ more.
Proof.
  assert (forall b, exists more, a_epochs (abs_append catalog h b).1 = a_epochs h ++ more) as Ha.
  { intros b. exists []. rewrite app_nil_r. by destruct (abs_append_cases catalog h b) as [->|[-> _]]. }
  destruct op as [b| | |b|]; cbn [spec_op]; try (exists []; by rewrite app_nil_r).
  - specialize (Ha b). revert Ha. by destruct (abs_append catalog h b).
  - by eexists.
  - apply Ha.
Qed.

Lemma ledgers_fit_prefix hist more : ledgers_fit (hist ++ more) = true -> ledgers_fit hist = true.
Proof.
  unfold ledgers_fit. rewrite !forallb_forall. intros H n Hn%in_seq. specialize (H n). rewrite take_app_le in H by lia.
  apply H, in_seq. rewrite length_app. lia.
Qed.

Lemma within_limits_before h op : within_limits (spec_op h op).1 -> within_limits h.
Proof.
  intros [Hm Hl]. destruct (spec_op_grows h op) as [more E], (spec_op_epochs h op) as [more' E'].
  rewrite E, all_rows_app, mass_app in Hm. rewrite E' in Hl. pose proof (mass_nonneg (all_rows more)).
  split; [lia|by eapply ledgers_fit_prefix].
Qed.

Lemma within_limits_run ops : forall h, within_limits (spec_run h ops).1 -> within_limits h.
Proof.
  induction ops as [|op ops IH]; intros h; [done|]. cbn [spec_run]. pose proof (within_limits_before h op) as Hb.
  destruct (spec_op h op) as [h1 out]. specialize (IH h1). destruct (spec_run h1 ops) as [h2 outs]. intros Hw.
  by apply Hb, IH.
Qed.

Lemma db_append_view k h a d d' log log' b base :
  db_inv policy catalog k (a_epochs h) a d log -> a_pending a = a_pending h -> a_known a = a_known h -> a_from h = 0 ->
  record_ok (batch_record b) = true -> within_limits (abs_append catalog h b).1 ->
  log_inv policy catalog base d' log' (abs_append catalog a b).1 ->
  snapshots d' = snapshots d /\ segment log' = segment log /\ log_snapshot log' = log_snapshot log ->
  db_view (k + 1) (abs_append catalog h b).1 d' log'.
Proof.
  intros Hdb Hp Hk Hf Hr [Hm _] Hinv Hframe. destruct (abs_append_same a h b Hk Hp) as (_ & Hp' & Hk' & He' & Hf').
  exists (abs_append catalog a b).1. split_and!; [|done|done|by rewrite Hf']. rewrite He'.
  eapply db_append; [exact Hdb|done|exact Hinv|done|]. rewrite Hp'. unfold batches in Hm. by rewrite He' in Hm.
Qed.

Lemma db_op_view k h d log op :
  db_view k h d log -> db_op_ok op = true -> k + 1 < 2 ^ 62 -> within_limits (spec_op h op).1 ->
  exists d' log', db_op (d, log) op = (d', log', (spec_op h op).2) /\ db_view (k + 1) (spec_op h op).1 d' log'.
Proof.
  intros (a & Hdb & Hp & Hk & Hf) Hop Hlt Hw. pose proof (within_limits_before _ _ Hw) as [_ Hfit].
  destruct (db_log _ _ _ _ _ _ _ Hdb) as [base Hinv]. assert (unplanned inert) as Hi by done.
  destruct op as [b| | |b|anchor plan]; cbn [db_op spec_op db_op_ok] in *.
  - destruct (log_append_refines _ _ _ _ _ _ _ _ Hinv Hop Hi) as (f' & d' & log' & E & _ & Hinv'). rewrite E.
    destruct (abs_append_same a h b Hk Hp) as (Hr & _). exists d', log'.
    pose proof (db_append_view k h a d d' log log' b base Hdb Hp Hk Hf Hop) as Hv.
    destruct (abs_append catalog h b) as [h' r]. rewrite Hr. split; [done|]. apply Hv; [done|done|by eapply log_append_frame].
  - pose proof (ao_sealed _ _ (db_abs _ _ _ _ _ _ _ Hdb)).
    destruct (log_seal_refines _ _ _ _ _ _ _ Hinv ltac:(lia) Hi) as (f' & d' & log' & E & _ & Hinv'). rewrite E.
    exists d', log'. split.
    + simpl. rewrite (db_sealed _ _ _ _ _ _ _ Hdb). unfold abs_sealed. rewrite Hf. done.
    + exists (abs_seal a).1. split_and!; [|done|done|done]. simpl. rewrite <- Hp. eapply db_seal; [done|done|by eapply log_seal_frame].
  - exists d, log. rewrite (db_reopen _ _ _ _ _ _ Hdb). split; [done|]. exists a. split_and!; [|done..].
    eapply db_weaken; [done|lia].
  - destruct (crash_inv _ _ _ _ _ _ _ Hinv Hop) as (f & d' & log0 & r & log' & -> & Hinv' & Hframe).
    exists d', log'. pose proof (db_append_view k h a d d' log log' b base Hdb Hp Hk Hf Hop Hw Hinv' Hframe) as Hv.
    split; [|done]. destruct Hv as (a' & Hdb' & _). by rewrite (db_reopen _ _ _ _ _ _ Hdb').
  - destruct (db_compact_view k _ a d log anchor (injector plan) Hdb ltac:(lia) Hfit) as
      (d' & log' & r & -> & a' & log'' & Hdb' & Hp' & Hk' & Hr & _).
    exists d', log''. split; [|exists a'; split_and!; [done|by rewrite Hp'|by rewrite Hk'|done]].
    destruct Hr as [[s ->]| ->]; [by rewrite (db_reopen _ _ _ _ _ _ Hdb')|].
    destruct r as [c|[]]; try done. destruct e; try done. by rewrite (db_reopen _ _ _ _ _ _ Hdb').
Qed.

Lemma db_run_view ops : forall k h d log,
  db_view k h d log -> forallb db_op_ok ops = true -> k + Z.of_nat (length ops) < 2 ^ 62 -> within_limits (spec_run h ops).1 ->
  exists d' log', db_run (d, log) ops = (d', log', (spec_run h ops).2) /\
    db_view (k + Z.of_nat (length ops)) (spec_run h ops).1 d' log'.
Proof.
  induction ops as [|op ops IH]; intros k h d log Hv Hop Hk Hw; cbn [forallb length db_run spec_run] in *.
  - exists d, log. by rewrite Z.add_0_r.
  - apply andb_true_iff in Hop as [Hop Hops]. pose proof (within_limits_run ops (spec_op h op).1) as Hw1.
    pose proof (db_op_view k h d log op Hv Hop ltac:(lia)) as Hstep.
    destruct (spec_op h op) as [h1 out]. cbn [fst snd] in *. specialize (IH (k + 1) h1).
    destruct (spec_run h1 ops) as [h2 outs]. cbn [fst snd] in *. destruct (Hstep (Hw1 Hw)) as (d1 & log1 & -> & Hv1).
    destruct (IH d1 log1 Hv1 Hops ltac:(lia) Hw) as (d2 & log2 & -> & Hv2). exists d2, log2. split; [done|].
    by replace (k + Z.of_nat (S (length ops))) with (k + 1 + Z.of_nat (length ops)) by lia.
Qed.

Lemma new_view : db_view 0 new_alog empty_disk (new_log policy catalog).
Proof.
  destruct (new_inv policy catalog) as [[base Hinv] Hok]. cbn [fst snd] in Hinv.
  exists new_alog. split_and!; try done. split; try done; [by exists base|exists 1; split; [done|lia]|constructor].
Qed.

Lemma db_run_from_new ops d log outs :
  forallb db_op_ok ops = true -> Z.of_nat (length ops) < 2 ^ 62 -> within_limits (spec_run new_alog ops).1 ->
  db_run (empty_disk, new_log policy catalog) ops = (d, log, outs) ->
  outs = (spec_run new_alog ops).2 /\ db_view (Z.of_nat (length ops)) (spec_run new_alog ops).1 d log.
Proof.
  intros Hop Hk Hw Hrun. destruct (db_run_view ops 0 _ _ _ new_view Hop Hk Hw) as (d' & log' & E & Hv).
  rewrite Hrun in E. injection E as -> -> ->. by split.
Qed.
End runs.
