(* ===== verification/ParquetModel.v ===== *)
(** * An instance of [Parquet]

    A file format in the place of Parquet: two records, the fields and the rows.
    It satisfies [ParquetLaws], so the laws can hold, and it lets the examples of
    snapshots and compactions run. *)

From Stdlib Require Import ZArith NArith Lia.
From stdpp Require Import base list strings.
From S2P Require Import Prelude BTree Value ZSet Codec LogRecord Snapshot SnapshotCorrect.

Definition type_code (t : option DataType) : Z :=
  match t with Some Int64 => 1 | Some Utf8 => 2 | Some Boolean => 3 | Some Float64 => 4 | None => 0 end.

Definition type_of_code (c : Z) : option DataType :=
  if c =? 1 then Some Int64 else if c =? 2 then Some Utf8 else if c =? 3 then Some Boolean
  else if c =? 4 then Some Float64 else None.

Definition field_row (f : ArrowField) : Row := [VStr (arrow_name f); VInt (type_code (arrow_type f)); VBool (arrow_nullable f)].

Definition row_field (r : Row) : option ArrowField :=
  match r with [VStr n; VInt c; VBool b] => Some (mkArrowField n (type_of_code c) b) | _ => None end.

Definition rows_record (rows : list Row) : Record_ := RAppend "" "" "" (map (fun r => (r, 0)) rows).

Definition record_rows (bytes : list N) : option (list Row) :=
  match record_decode bytes with Ok (RAppend _ _ _ es) => Some (map fst es) | _ => None end.

(** The length of the first record in tally marks, so that no width bounds it. *)
Definition tally (n : nat) : list N := replicate n 1%N ++ [0%N].

Fixpoint read_tally (l : list N) : nat * list N :=
  match l with 1%N :: l' => let '(n, rest) := read_tally l' in (S n, rest) | _ :: l' => (0%nat, l') | [] => (0%nat, []) end.

Definition model_write (b : RecordBatch) : option (list N) :=
  let head := record_encode (rows_record (map field_row (rb_fields b))) in
  Some (tally (length head) ++ head ++ record_encode (rows_record (rb_rows b))).

(** Pieces of [size] rows. *)
Fixpoint pieces (fuel size : nat) (rows : list Row) : list (list Row) :=
  match fuel, rows with S fuel', _ :: _ => take size rows :: pieces fuel' size (drop size rows) | _, _ => [] end.

Definition model_read (size : nat) (bytes : list N) : option (list (option RecordBatch)) :=
  let '(n, rest) := read_tally bytes in
  heads ← record_rows (take n rest);
  fields ← mapM row_field heads;
  rows ← record_rows (drop n rest);
  Some (map (fun piece => Some (mkRecordBatch fields piece)) (pieces (length rows) size rows)).

#[export] Instance model_parquet : Parquet := {
  parquet_write := model_write;
  parquet_read := model_read;
  default_batch_size := 1024
}.

Lemma type_code_inv t : type_of_code (type_code t) = t.
Proof. by destruct t as [[]|]. Qed.

Lemma row_field_inv f : row_field (field_row f) = Some f.
Proof. destruct f. unfold row_field, field_row. simpl. by rewrite type_code_inv. Qed.

Lemma read_tally_inv n rest : read_tally (tally n ++ rest) = (n, rest).
Proof. induction n as [|n IH]; [done|]. unfold tally in *. cbn [replicate app read_tally]. by rewrite IH. Qed.

Lemma record_rows_inv rows :
  Z.of_nat (length rows) < 2 ^ 63 ->
  Forall (fun r => Z.of_nat (length r) < 2 ^ 63 /\ forallb valid_cell r = true) rows ->
  record_rows (record_encode (rows_record rows)) = Some rows.
Proof.
  intros Hl Hr. unfold record_rows. rewrite decode_encode_record.
  - unfold rows_record. rewrite map_map. cbn [fst]. by rewrite map_id.
  - cbn [rows_record valid_record]. rewrite length_map, (proj2 (Z.ltb_lt _ _)) by done.
    apply andb_true_iff. split; [done|]. apply forallb_forall. intros e (r & <- & Hin)%in_map_iff.
    rewrite Forall_forall in Hr. apply list_elem_of_In, Hr in Hin as (Hrl & Hc).
    unfold LogRecord.valid_entry. cbn [fst snd]. by rewrite Hc, (proj2 (Z.ltb_lt _ _)).
Qed.

Lemma arrow_row_length fs r : arrow_row fs r = true -> length r = length fs.
Proof.
  revert r. induction fs as [|f fs IH]; intros [|v r]; try done.
  cbn [arrow_row length]. intros (_ & Hr)%andb_true_iff. by rewrite (IH r).
Qed.

Lemma pieces_concat fuel size rows :
  size <> 0%nat -> (length rows <= fuel)%nat -> concat (pieces fuel size rows) = rows.
Proof.
  intros Hs. revert rows. induction fuel as [|fuel IH]; intros rows Hl; [destruct rows; [done|simpl in Hl; lia]|].
  destruct rows as [|r rows]; [done|]. cbn [pieces concat]. rewrite IH, take_drop; [done|].
  rewrite length_drop. cbn [length] in *. lia.
Qed.

Lemma fields_inv fs :
  Z.of_nat (length fs) < 2 ^ 62 -> forallb (fun f => valid_text (arrow_name f) && bool_decide (is_Some (arrow_type f))) fs = true ->
  record_rows (record_encode (rows_record (map field_row fs))) = Some (map field_row fs) /\
  mapM row_field (map field_row fs) = Some fs.
Proof.
  intros Hl Hf. split.
  - apply record_rows_inv; [rewrite length_map; lia|]. apply Forall_forall. intros r (f & -> & Hin)%list_elem_of_fmap.
    rewrite forallb_forall in Hf. apply list_elem_of_In, Hf, andb_true_iff in Hin as (Hn & _).
    split; [cbn [field_row length]; lia|]. cbn [field_row forallb valid_cell]. rewrite Hn. by destruct (arrow_type f) as [[]|].
  - clear. induction fs as [|f fs IH]; [done|]. cbn [map mapM]. rewrite row_field_inv. cbn. unfold fmap in IH. by rewrite IH.
Qed.

#[local] Opaque record_encode tally.

#[export] Instance model_laws : ParquetLaws model_parquet.
Proof.
  split; [apply Nat.lt_0_succ|]. intros b Hst. unfold storable in Hst. rewrite !andb_true_iff, !Z.ltb_lt in Hst.
  destruct Hst as (((Hf & Hfl) & Hrl) & Hr). destruct (fields_inv _ Hfl Hf) as (Hhead & Hmap).
  assert (Hrows : record_rows (record_encode (rows_record (rb_rows b))) = Some (rb_rows b)).
  { apply record_rows_inv; [done|]. apply Forall_forall. intros r Hin. rewrite forallb_forall in Hr.
    apply list_elem_of_In, Hr, andb_true_iff in Hin as (Hrow & Hc). rewrite (arrow_row_length _ _ Hrow). split; [lia|done]. }
  eexists. split_and!; [reflexivity| |].
  { unfold bytes_ok. rewrite !Forall_app. split_and!; [|apply record_encode_ok..].
    Transparent tally. unfold tally. apply Forall_app. split; [by apply Forall_replicate|by repeat constructor]. }
  intros size Hsize. exists (map (mkRecordBatch (rb_fields b)) (pieces (length (rb_rows b)) size (rb_rows b))). split_and!.
  - cbn [parquet_read model_parquet]. unfold model_read. rewrite read_tally_inv, take_app_length, drop_app_length, Hhead.
    cbn [mbind option_bind]. rewrite Hmap. cbn [mbind option_bind]. rewrite Hrows. cbn [mbind option_bind]. by rewrite map_map.
  - apply Forall_forall. intros p (q & -> & _)%list_elem_of_fmap. done.
  - rewrite map_map. cbn [rb_rows]. rewrite map_id. apply pieces_concat; lia.
Qed.
