(* ===== verification/CompactionTheorems.v ===== *)
(** * What compaction promises

    Compaction does not show (ARCHITECTURE I-7), an interrupted one can always be
    run again to its end, the snapshot it leaves streams the epochs it replaced,
    and a one-shot query over what is left answers as a standing one. *)

From Stdlib Require Import ZArith NArith Lia.
From stdpp Require Import base list strings pretty.
From S2P Require Import Prelude BTree ZAlg Value ZSet Plan Bind Codec State Operator Oracle ResultStore Circuit Dataflow Engine Compile Invariants Text LogRecord Log LogCorrect Snapshot SnapshotCorrect Compaction CompactionCorrect CompactionLaws ParquetModel.

(** ** One delta *)

Lemma one_delta_loop (l : Integrals) : forall d0,
  bt_sorted l -> Forall (fun p => mass (batch_entries p.2) <= i64_max) l ->
  exists d, try_fold (fun deltas p =>
      let? c := map_err BatchZSet (canonical p.2) in Ok (deltas_extend deltas p.1 (canonical_entries c))) d0 l = Ok d /\
    forall t, entries_for d t ≡z entries_for d0 t ++ default [] (batch_entries <$> bt_get t l).
Proof.
  induction l as [|[k b] l IH]; intros d0 Hs Hm.
  { exists d0. split; [done|]. intros t. simpl. by rewrite app_nil_r. }
  apply bt_sorted_cons_inv in Hs as [Hl Hk]. apply Forall_cons in Hm as [Hb Hm].
  assert (exists c, canonical b = Ok c) as [c Hc].
  { unfold canonical. destruct (consolidated_entries_total b Hb) as [cs ->]. by eexists. }
  cbn [try_fold fst snd]. rewrite Hc. cbn [map_err bind].
  destruct (IH (deltas_extend d0 k (canonical_entries c)) Hl Hm) as (d & -> & Hd). exists d. split; [done|].
  intros t. rewrite Hd, entries_for_extend, <- app_assoc, bt_get_cons.
  case_cmp_eqb t k; [|done]. subst. rewrite bt_get_below by done. simpl. by rewrite app_nil_r, (canonical_zeq _ _ Hc).
Qed.

Lemma table_of_zeq catalog bs t : default [] (batch_entries <$> bt_get t (contents catalog bs)) ≡z entries_of t bs.
Proof.
  rewrite contents_get. case_decide as Ht; simpl; [apply zcanon_spec|]. by rewrite entries_of_absent.
Qed.

Lemma as_one_delta_spec catalog bs :
  history_ok catalog bs ->
  exists input, as_one_delta (contents catalog bs) = Ok input /\ forall t, entries_for input t ≡z entries_of t bs.
Proof.
  intros [_ Hm]. destruct (one_delta_loop (contents catalog bs) deltas_new) as (d & Hd & Ht).
  - apply contents_sorted.
  - apply Forall_forall. intros [t b] Hin. apply bt_In_get in Hin; [|apply contents_sorted].
    rewrite contents_get in Hin. case_decide; [|done]. injection Hin as <-. cbn [snd table_of batch_entries].
    pose proof (entries_of_mass t bs). transitivity (mass (entries_of t bs)); [apply zcanon_mass; lia|lia].
  - exists d. split; [done|]. intros t. rewrite Ht. simpl. apply table_of_zeq.
Qed.

(** ** The promises *)

Section promises.
Context `{P : Parquet, !ParquetLaws P} (policy : SyncPolicy) (catalog : Catalog).
Context (ops : list (@DbOp)) (d : Disk) (log : Log) (outs : list DbOut).
Context (Hcat : storable_catalog catalog = true) (Hops : forallb db_op_ok ops = true).
Context (Hlen : Z.of_nat (length ops) < 2 ^ 62) (Hfit : within_limits (spec_run catalog new_alog ops).1).
Context (Hrun : db_run policy catalog (empty_disk, new_log policy catalog) ops = (d, log, outs)).

Abbreviation hist := (a_epochs (spec_run catalog new_alog ops).1).

Lemma run_state :
  outs = (spec_run catalog new_alog ops).2 /\
  exists a, db_inv policy catalog (Z.of_nat (length ops)) hist a d log /\
    a_pending a = a_pending (spec_run catalog new_alog ops).1 /\ a_known a = a_known (spec_run catalog new_alog ops).1.
Proof.
  destruct (db_run_from_new policy catalog (storable_catalog_ok _ Hcat) ops d log outs Hops Hlen Hfit Hrun) as (Ho & a & Hdb & Hp & Hk & _).
  split; [done|]. by exists a.
Qed.

(** C15: compaction does not show (I-7).  Take a log that appends, seals, restarts,
    dies in appends and compacts at any anchors, with compactions that may die at
    any of their seams and be restarted.  It gives the outcomes of an abstract log
    that never compacts, it holds the same tables, owned by the same sources, the
    same pending batches and the same tokens, and its files open to it. *)
Theorem compaction_invisible :
  let h := (spec_run catalog new_alog ops).1 in
  outs = (spec_run catalog new_alog ops).2 /\
  accumulated log d catalog = Ok (contents catalog (concat (a_epochs h))) /\
  source_integrals_upto log d catalog (log_sealed_epoch log) = Ok (ownership catalog (concat (a_epochs h))) /\
  (forall s, source_integral log d catalog s = Ok (owns catalog (by_source s (batches h)))) /\
  log_sealed_epoch log = Z.of_nat (length (a_epochs h)) /\
  log_pending log = a_pending h /\ dedup log = a_known h /\
  (log_open d catalog inert policy).2 = Ok log.
Proof.
  destruct run_state as (-> & a & Hdb & Hp & Hk). cbn zeta.
  pose proof (db_log_sealed _ _ _ _ _ _ _ Hdb) as Hse. pose proof (db_from _ _ _ _ _ _ _ Hdb) as Hfrom.
  assert (catalog_ok catalog) as Hc by by apply storable_catalog_ok.
  split_and!; [done|by eapply accumulated_spec| | |done|by rewrite <- Hp; eapply db_pending| |].
  - rewrite Hse. erewrite source_integrals_spec by (done || lia). by rewrite upto_all.
  - intros s. unfold batches. rewrite <- Hp. by eapply source_integral_spec.
  - destruct (db_log _ _ _ _ _ _ _ Hdb) as [base Hinv]. rewrite <- Hk, (li_known _ _ _ _ _ _ Hinv).
    by rewrite (li_log _ _ _ _ _ _ Hinv).
  - destruct (db_log _ _ _ _ _ _ _ Hdb) as [base Hinv]. destruct (reopen_inv _ _ _ _ _ _ inert Hinv) as (f' & _ & ->); done.
Qed.

(** C16: a compaction can always be completed.  After any run, deaths inside
    earlier compactions included, one that meets no fault and is asked for an
    anchor past the retained epochs and already sealed succeeds: the epochs up to
    the anchor leave the log, the tables stay, and the files open to the result. *)
Theorem compaction_completes anchor :
  retained_from log < anchor <= log_sealed_epoch log ->
  exists d' log' c,
    db_compact catalog d log anchor inert = (d', log', Ok c) /\ retained_from log' = anchor /\
    accumulated log' d' catalog = accumulated log d catalog /\
    log_sealed_epoch log' = log_sealed_epoch log /\ log_pending log' = log_pending log /\ dedup log' = dedup log /\
    (log_open d' catalog inert policy).2 = Ok log'.
Proof.
  intros Ha. destruct run_state as (_ & a & Hdb & Hp & Hk). destruct Hfit as [_ Hledgers].
  assert (catalog_ok catalog) as Hc by by apply storable_catalog_ok.
  rewrite (db_retained _ _ _ _ _ _ _ Hdb), (db_log_sealed _ _ _ _ _ _ _ Hdb) in Ha.
  destruct (db_compact_view policy catalog Hc _ _ _ _ _ anchor inert Hdb Hlen Hledgers) as
    (d' & log' & r & Er & a' & log'' & Hdb' & Hp' & Hk' & _ & Hdone).
  destruct Hdone as (<- & Hf' & c & ->); [done|done|].
  exists d', log', c. rewrite (db_retained _ _ _ _ _ _ _ Hdb'), Hf'.
  rewrite (db_log_sealed _ _ _ _ _ _ _ Hdb), (db_log_sealed _ _ _ _ _ _ _ Hdb').
  rewrite (db_pending _ _ _ _ _ _ _ Hdb), (db_pending _ _ _ _ _ _ _ Hdb').
  split_and!; [done|done| |done|done| |].
  - transitivity (Ok (E := BatchError) (contents catalog (concat hist))); [|symmetry]; by eapply accumulated_spec.
  - destruct (db_log _ _ _ _ _ _ _ Hdb) as [b1 H1]. destruct (db_log _ _ _ _ _ _ _ Hdb') as [b2 H2].
    rewrite (li_log _ _ _ _ _ _ H1), (li_log _ _ _ _ _ _ H2). simpl.
    rewrite <- (li_known _ _ _ _ _ _ H1), <- (li_known _ _ _ _ _ _ H2). done.
  - destruct (db_log _ _ _ _ _ _ _ Hdb') as [b2 H2]. destruct (reopen_inv _ _ _ _ _ _ inert H2) as (f' & _ & ->); done.
Qed.

(** The live snapshot streams the epochs it replaced.  After any run that
    left one, its directory opens as a stream of chunks, the stream ends, none of
    its chunks is an error, and together the chunks are, table by table, what the
    epochs up to the anchor wrote. *)
Theorem snapshot_streams_history name :
  log_snapshot log = Some name ->
  exists files c ds,
    bt_get name (snapshots d) = Some files /\ chunks files catalog = Ok c /\
    (forall fuel, (length ds < fuel)%nat -> chunks_collect fuel files c = map Ok ds) /\
    forall t, accumulate ds t ≡z entries_of t (concat (take (Z.to_nat (retained_from log)) (a_epochs (spec_run catalog new_alog ops).1))).
Proof.
  intros Hn. destruct run_state as (_ & a & Hdb & _). pose proof (db_snapshot _ _ _ _ _ _ _ Hdb) as Hs.
  rewrite Hn in Hs. destruct Hs as (_ & files & Hg & [_ _ (c & ds & Hc & Hcol & Ht)]).
  exists files, c, ds. split_and!; [done..|]. intros t. rewrite (db_retained _ _ _ _ _ _ _ Hdb).
  unfold accumulate. rewrite Ht. apply table_of_zeq.
Qed.

(** C17: a one-shot query answers as a standing one.  After any run, what is left
    of the log folds into one delta; a circuit that takes it in one epoch answers
    what a circuit of the same plan answers that was kept through the history,
    whatever the epochs it was fed, provided they add up to what was sealed.  The
    equality includes the errors of the answer. *)
Theorem one_shot_is_standing {F B : Type} `{FactoryLaws F B} (q : Query) plan (f : F) ds (c : Circuit (AnyOp B)) :
  incrementalize_typed q catalog = Ok plan ->
  maintains plan f ds c ->
  (forall t, accumulate ds t ≡z entries_of t (concat (a_epochs (spec_run catalog new_alog ops).1))) ->
  exists input, one_delta_for log d catalog = Ok input /\
    forall c1, maintains plan (mkMemFactory []) [input] c1 ->
      answer_over_log log d catalog q = map_err BatchCircuit (Circuit.answer c).
Proof.
  intros Hplan Hst Hds. destruct run_state as (_ & a & Hdb & _).
  pose proof (accumulated_spec policy catalog (storable_catalog_ok _ Hcat) _ _ _ _ _ Hdb) as Hacc.
  destruct (as_one_delta_spec catalog (concat hist)) as (input & Hin & Ht).
  { apply (history_app catalog _ (a_pending a)), (db_history _ _ _ _ _ _ _ Hdb). }
  exists input. unfold answer_over_log, one_delta_for. rewrite Hacc. cbn [bind]. rewrite Hin. split; [done|].
  intros c1 Hone. cbn [bind]. unfold answer_once. rewrite Hplan. cbn [map_err bind].
  rewrite (maintained_answer _ _ _ _ Hst).
  assert (Circuit.answer c1 = answer_over (plan_output_schema plan) (plan_data (accumulate ds) true (root plan))
    (plan_errs (accumulate ds) true (root plan))) as Ha.
  { rewrite (maintained_answer _ _ _ _ Hone).
    apply answer_over_proper; [apply plan_data_proper|apply plan_errs_proper]; intros t; rewrite Hds; simpl; by rewrite app_nil_r. }
  destruct Hone as (f' & c0 & Hi & Hr & _). unfold instantiate. rewrite Hi. cbn [snd map_err bind].
  unfold run in Hr. cbn [try_fold] in Hr. destruct (step c0 input) as [c2 [x|e]]; [|done]. cbn in Hr. injection Hr as ->. by rewrite Ha.
Qed.
End promises.

(** ** A table name with a space *)




(** ** Witnesses *)

(** Two epochs, a compaction of the first that dies before its pointer moves, the
    same compaction again, one more epoch. *)
Definition shop_ops : list DbOp :=
  [DAppend (ex_batch "a" 5); DSeal; DCrash (ex_batch "b" 7); DSeal;
   DCompact 1 (Some (mkFaultPlan CompactAfterSegmentBeforePointer 1)); DCompact 1 None;
   DAppend (ex_batch "b" 7); DAppend (ex_batch "c" 8); DSeal; DRestart].

Definition shop_run : Disk * Log * list DbOut := db_run Full ex_catalog (empty_disk, new_log Full ex_catalog) shop_ops.

Lemma shop_run_eq :
  db_run Full ex_catalog (empty_disk, new_log Full ex_catalog) shop_ops = (shop_run.1.1, shop_run.1.2, shop_run.2).
Proof. unfold shop_run. by destruct (db_run _ _ _ _) as [[? ?] ?]. Qed.

Lemma compaction_invisible_witness :
  shop_run.2 = [DAck (Ok Appended); DSealed (Ok 1); DQuiet; DSealed (Ok 2); DQuiet; DQuiet;
                DAck (Ok DroppedAsReplay); DAck (Ok Appended); DSealed (Ok 3); DQuiet] /\
  retained_from shop_run.1.2 = 1 /\
  accumulated shop_run.1.2 shop_run.1.1 ex_catalog =
    Ok [("orders"%string, mkBatch (mkSchema [mkField "id" Int64 false; mkField "amount" Int64 true])
          [([VInt 1; VInt 5], 1); ([VInt 1; VInt 7], 1); ([VInt 1; VInt 8], 1)])].
Proof.
  destruct (compaction_invisible Full ex_catalog shop_ops shop_run.1.1 shop_run.1.2 shop_run.2) as (Ho & Ha & _).
  - vm_compute. reflexivity.
  - vm_compute. reflexivity.
  - vm_compute. reflexivity.
  - vm_compute. split; [discriminate|reflexivity].
  - exact shop_run_eq.
  - split_and!; [rewrite Ho; vm_compute; reflexivity|vm_compute; reflexivity|rewrite Ha; vm_compute; reflexivity].
Defined.

Lemma compaction_completes_witness :
  exists d' log' c,
    db_compact ex_catalog shop_run.1.1 shop_run.1.2 3 inert = (d', log', Ok c) /\ retained_from log' = 3 /\
    accumulated log' d' ex_catalog = accumulated shop_run.1.2 shop_run.1.1 ex_catalog.
Proof.
  destruct (compaction_completes Full ex_catalog shop_ops shop_run.1.1 shop_run.1.2 shop_run.2) with (anchor := 3)
    as (d' & log' & c & Hc & Hr & Ha & _).
  - vm_compute. reflexivity.
  - vm_compute. reflexivity.
  - vm_compute. reflexivity.
  - vm_compute. split; [discriminate|reflexivity].
  - exact shop_run_eq.
  - vm_compute. split; [reflexivity|discriminate].
  - exists d', log', c. split_and!; assumption.
Defined.

Lemma snapshot_streams_history_witness :
  exists files c ds,
    bt_get (snapshot_dir 1) (snapshots shop_run.1.1) = Some files /\ chunks files ex_catalog = Ok c /\
    (forall fuel, (length ds < fuel)%nat -> chunks_collect fuel files c = map Ok ds) /\
    forall t, accumulate ds t ≡z entries_of t [ex_batch "a" 5].
Proof.
  apply (snapshot_streams_history Full ex_catalog shop_ops shop_run.1.1 shop_run.1.2 shop_run.2) with (name := snapshot_dir 1).
  - vm_compute. reflexivity.
  - vm_compute. reflexivity.
  - vm_compute. reflexivity.
  - vm_compute. split; [discriminate|reflexivity].
  - exact shop_run_eq.
  - vm_compute. reflexivity.
Defined.

Definition shop_query : Query :=
  mkQuery (Scan "orders" "o") None None (Some [mkNamed "amount"%string (EColumn "o.amount")]) false.

Definition shop_plan : CircuitPlan :=
  match incrementalize_typed shop_query ex_catalog with Ok plan => plan | Err _ => mkPlan (CSource "" "" (mkSchema [])) (mkSchema []) end.

Definition shop_epochs : list EpochDeltas := map epoch_delta (a_epochs (spec_run ex_catalog new_alog shop_ops).1).

Definition shop_delta : EpochDeltas :=
  match one_delta_for shop_run.1.2 shop_run.1.1 ex_catalog with Ok input => input | Err _ => deltas_new end.

Lemma one_shot_is_standing_witness :
  match running shop_plan shop_epochs, running shop_plan [shop_delta] with
  | Some c, Some _ =>
      answer_over_log shop_run.1.2 shop_run.1.1 ex_catalog shop_query = map_err BatchCircuit (Circuit.answer c)
  | _, _ => False
  end.
Proof.
  get_running c Hc. get_running c1 Hc1.
  unshelve epose proof (one_shot_is_standing Full ex_catalog shop_ops shop_run.1.1 shop_run.1.2 shop_run.2 _ _ _ _ shop_run_eq
    shop_query shop_plan (mkMemFactory []) shop_epochs c _ (running_maintains _ _ _ Hc) _) as (input & Hin & Hall).
  - vm_compute. reflexivity.
  - vm_compute. reflexivity.
  - vm_compute. reflexivity.
  - vm_compute. split; [discriminate|reflexivity].
  - vm_compute. reflexivity.
  - intros t. unfold shop_epochs. rewrite accumulate_epochs. reflexivity.
  - apply (Hall c1). assert (input = shop_delta) as -> by (unfold shop_delta; by rewrite Hin).
    exact (running_maintains _ _ _ Hc1).
Defined.
