(* ===== verification/Checkpoint.v ===== *)
(** * Checkpoints ([schweep-circuit], checkpoint.rs)

    The checkpoint protocol over a directory: taking one with every seam a crash
    is injected at, cleaning up, and choosing and verifying one on recovery.

    Its later part: checkpoints are found again. *)

From Stdlib Require Import ZArith NArith Lia.
From stdpp Require Import base list strings pretty sets.
From S2P Require Import Prelude BTree Value ZSet Plan Bind Codec State Operator Oracle ResultStore Circuit Dataflow Engine Compile Invariants Text LogRecord Log LogCorrect Compaction CompactionCorrect.

(** ** The directory *)

(** The subdirectories with their files, and the two files beside them. *)
Record CkptRoot := mkCkptRoot {
  ck_dirs : btree string (btree string (list N));
  ck_current : option (list N);
  ck_temp : option (list N)
}.

Definition empty_root : CkptRoot := mkCkptRoot bt_empty None None.

Definition with_dirs (r : CkptRoot) (dirs : btree string (btree string (list N))) : CkptRoot :=
  mkCkptRoot dirs (ck_current r) (ck_temp r).

Definition CKPT_MANIFEST : string := "MANIFEST".
Definition STATE : string := "state.bin".

Definition ckpt_dir (epoch : Z) : string := ("ckpt-" +:+ pad10 epoch)%string.
Definition ckpt_partial (epoch : Z) : string := (ckpt_dir epoch +:+ ".partial")%string.

(** ** Taking one *)

(** [format!("epoch {epoch}\nstate {} {}\n", state.len(), crc32(&state))]; the
    checksum is the log's. *)
Definition ckpt_manifest (epoch : Z) (state : list N) : text :=
  tx "epoch " ++ dec epoch ++ [10%N] ++
  tx "state " ++ dec (Z.of_nat (length state)) ++ [32%N] ++ dec (crc32 state) ++ [10%N].

Definition ckpt_fault {A} (seam : Seam) : result CircuitError A := Err (ResultStore.InjectedFault (seam_name seam)).

(** Every checkpoint and every partial but the one kept. *)
Definition ckpt_superseded (keep : Z) (name : string) : bool :=
  begins_with (tx "ckpt-") (tx name) && negb (String.eqb name (ckpt_dir keep)).

Definition ckpt_cleanup (r : CkptRoot) (keep : Z) : CkptRoot :=
  with_dirs r (base.filter (fun p => ckpt_superseded keep p.1 = false) (ck_dirs r)).

Section take.
Context {Op : Type} `{Operator Op}.

Abbreviation TakeOut := (FaultInjector * CkptRoot * result CircuitError unit)%type.

(** C5 to C7: the current checkpoint, then the cleanup. *)
Definition take_current (r : CkptRoot) (faults : FaultInjector) (epoch : Z) : TakeOut :=
  let r := mkCkptRoot (ck_dirs r) (Some (tx (ckpt_dir epoch) ++ [10%N])) None in
  let '(faults, hit) := reached faults CheckpointAfterCurrentBeforeTrim in
  if hit then (faults, r, ckpt_fault CheckpointAfterCurrentBeforeTrim)
  else
    let '(faults, hit) := reached faults CheckpointAfterTrimBeforeCleanup in
    if hit then (faults, r, ckpt_fault CheckpointAfterTrimBeforeCleanup)
    else (faults, ckpt_cleanup r epoch, Ok tt).

(** C3 and C4: the manifest, then the rename. *)
Definition take_publish (r : CkptRoot) (faults : FaultInjector) (epoch : Z) (state : list N) : TakeOut :=
  let partial := ckpt_partial epoch in
  let files := bt_insert CKPT_MANIFEST (ckpt_manifest epoch state) (bt_insert STATE state bt_empty) in
  let r := with_dirs r (bt_insert partial files (ck_dirs r)) in
  let '(faults, hit) := reached faults CheckpointAfterManifestBeforePublish in
  if hit then (faults, r, ckpt_fault CheckpointAfterManifestBeforePublish)
  else
    let r := with_dirs r (bt_insert (ckpt_dir epoch) files (bt_remove partial (bt_remove (ckpt_dir epoch) (ck_dirs r)))) in
    let '(faults, hit) := reached faults CheckpointAfterPublishBeforeCurrent in
    if hit then (faults, r, ckpt_fault CheckpointAfterPublishBeforeCurrent)
    else take_current r faults epoch.

(** C1 and C2: the state file. *)
Definition take_checkpoint (r : CkptRoot) (c : Circuit Op) (faults : FaultInjector) : TakeOut :=
  let partial := ckpt_partial (epoch c) in
  let wrote files := with_dirs r (bt_insert partial files (bt_remove partial (ck_dirs r))) in
  let '(faults, hit) := reached faults CheckpointBeforeStateFlush in
  if hit then (faults, r, ckpt_fault CheckpointBeforeStateFlush)
  else
    match snapshot c with
    | Err e => (faults, wrote bt_empty, Err e)
    | Ok state =>
        let r := wrote (bt_insert STATE state bt_empty) in
        let '(faults, hit) := reached faults CheckpointAfterStateFlushBeforeFsync in
        if hit then (faults, r, ckpt_fault CheckpointAfterStateFlushBeforeFsync)
        else
          let '(faults, hit) := reached faults CheckpointAfterFsyncBeforeManifest in
          if hit then (faults, r, ckpt_fault CheckpointAfterFsyncBeforeManifest)
          else take_publish r faults (epoch c) state
    end.
End take.

(** ** Loading one *)

Record Loaded := mkLoaded { loaded_epoch : Z; loaded_state : list N }.

(** The words of a manifest line. *)
Definition ckpt_line (st : option Z * option (Z * Z)) (l : text) : option Z * option (Z * Z) :=
  match split_whitespace l with
  | w :: rest =>
      if decide (w = tx "epoch") then (head rest ≫= parse_dec, st.2)
      else if decide (w = tx "state") then
        match head rest ≫= parse_dec, head (tail rest) ≫= parse_u32 with
        | Some len, Some crc => (st.1, Some (len, crc))
        | _, _ => st
        end
      else st
  | [] => st
  end.

(** [fs::read] and [fs::read_to_string] of a file that is not there, or is not
    text, fail with a message of the system. *)
Definition verify (files : btree string (list N)) : result CircuitError Loaded :=
  let? state := ok_or (bt_get STATE files) (Snapshot "") in
  let? manifest := ok_or (bt_get CKPT_MANIFEST files) (Snapshot "") in
  if negb (utf8_valid manifest) then Err (Snapshot "")
  else
    let '(epoch, expected) := fold_left ckpt_line (lines manifest) (None, None) in
    let? epoch := ok_or epoch CorruptSnapshot in
    let? '(len, crc) := ok_or expected CorruptSnapshot in
    if negb (Z.of_nat (length state) =? len) || negb (crc32 state =? crc) then Err CorruptSnapshot
    else Ok (mkLoaded epoch state).

(** R4: abandoned partials. *)
Definition drop_partials (r : CkptRoot) : CkptRoot :=
  mkCkptRoot (base.filter (fun p => ends_with (tx ".partial") (tx p.1) = false) (ck_dirs r)) (ck_current r) None.

Definition published_dir (name : string) : bool :=
  begins_with (tx "ckpt-") (tx name) && negb (ends_with (tx ".partial") (tx name)).

(** The checkpoint [CURRENT] names, if its text can be read and is not blank. *)
Definition named (r : CkptRoot) : list string :=
  match ck_current r with
  | Some bytes => if utf8_valid bytes then map bytes_string (word_if (trim bytes)) else []
  | None => []
  end.

(** [CURRENT]'s choice, then the published ones from the last name down. *)
Definition candidates (r : CkptRoot) : list string :=
  named r ++ base.filter (fun n => n ∉ named r) (rev (base.filter (fun n => published_dir n = true) (bt_keys (ck_dirs r)))).

Fixpoint first_verified (dirs : btree string (btree string (list N))) (names : list string) : option Loaded :=
  match names with
  | [] => None
  | name :: names' =>
      match bt_get name dirs with
      | None => first_verified dirs names'
      | Some files => match verify files with Ok l => Some l | Err _ => first_verified dirs names' end
      end
  end.

Definition ckpt_load (r : CkptRoot) : CkptRoot * result CircuitError (option Loaded) :=
  let r := drop_partials r in (r, Ok (first_verified (ck_dirs r) (candidates r))).

(** The epochs of the directories whose names carry one, newest first. *)
Definition epoch_from_name (name : string) : option Z := strip_prefix (tx "ckpt-") (tx name) ≫= parse_dec.

Fixpoint insert_desc (e : Z) (l : list Z) : list Z :=
  match l with [] => [e] | x :: l' => if x <=? e then e :: l else x :: insert_desc e l' end.

Definition published_epochs (r : CkptRoot) : list Z :=
  foldr insert_desc [] (omap epoch_from_name (bt_keys (ck_dirs r))).

(** ** Damage to one *)

(** [corrupt_for_test]: the state cut at an offset, or one byte inverted. *)
Definition damage (state : list N) (offset : nat) (truncate : bool) : list N :=
  let at_ := (offset mod length state)%nat in
  if truncate then take at_ state else alter (fun b => N.lxor b 255) at_ state.

Definition corrupt_for_test (r : CkptRoot) (epoch : Z) (offset : nat) (truncate : bool) : CkptRoot * bool :=
  match bt_get (ckpt_dir epoch) (ck_dirs r) ≫= bt_get STATE with
  | None | Some [] => (r, false)
  | Some state =>
      (with_dirs r (bt_update (ckpt_dir epoch) bt_empty (bt_insert STATE (damage state offset truncate)) (ck_dirs r)), true)
  end.

(** * Checkpoints are found again

    A checkpoint that was taken is the one that is loaded; one that died at any
    seam leaves the previous one or is complete; a damaged one is never loaded. *)

(** ** The manifest *)

Definition ckpt_files (epoch : Z) (state : list N) : btree string (list N) :=
  bt_insert CKPT_MANIFEST (ckpt_manifest epoch state) (bt_insert STATE state bt_empty).

(** What the format can carry. *)
Definition ckpt_fits (epoch : Z) (state : list N) : Prop :=
  0 <= epoch < 2 ^ 64 /\ bytes_ok state /\ Z.of_nat (length state) < 2 ^ 64.

Definition epoch_line (epoch : Z) : text := tx "epoch" ++ 32%N :: dec epoch.
Definition state_line (len crc : Z) : text := tx "state" ++ 32%N :: dec len ++ 32%N :: dec crc.

Lemma ckpt_manifest_lines epoch state :
  ckpt_manifest epoch state = flat_map line [epoch_line epoch; state_line (Z.of_nat (length state)) (crc32 state)].
Proof.
  unfold ckpt_manifest, epoch_line, state_line, line. cbn [flat_map]. rewrite app_nil_r.
  change (tx "epoch ") with (tx "epoch" ++ [32%N]). change (tx "state ") with (tx "state" ++ [32%N]).
  by rewrite <- ?app_assoc, <- ?app_comm_cons, <- ?app_assoc.
Qed.

Lemma epoch_line_read st epoch : 0 <= epoch < 2 ^ 64 -> ckpt_line st (epoch_line epoch) = (Some epoch, st.2).
Proof.
  intros He. unfold ckpt_line, epoch_line. rewrite split_whitespace_word by done.
  rewrite split_whitespace_last by (apply spaceless_plain, dec_plain || apply dec_nonempty).
  rewrite decide_True by done. cbn [head mbind option_bind]. by rewrite parse_dec_dec.
Qed.

Lemma state_line_read st len crc :
  0 <= len < 2 ^ 64 -> 0 <= crc < 2 ^ 32 -> ckpt_line st (state_line len crc) = (st.1, Some (len, crc)).
Proof.
  intros Hl Hc. unfold ckpt_line, state_line. rewrite split_whitespace_word by done.
  rewrite split_whitespace_word by (apply spaceless_plain, dec_plain || apply dec_nonempty).
  rewrite split_whitespace_last by (apply spaceless_plain, dec_plain || apply dec_nonempty).
  rewrite decide_False by discriminate. rewrite decide_True by done. cbn [head tail mbind option_bind].
  by rewrite parse_dec_dec, parse_u32_dec.
Qed.

(** Words of visible characters make one line of text. *)
Lemma words_line a b :
  plain a = true -> b <> [] -> one_line b = true /\ utf8_valid b = true ->
  one_line (a ++ 32%N :: b) = true /\ utf8_valid (a ++ 32%N :: b) = true.
Proof.
  intros Ha Hne [Hl Hu]. change (32%N :: b) with ([32%N] ++ b). rewrite app_assoc. split.
  - apply one_line_app; [|done|done]. by rewrite forallb_app, plain_no_newline.
  - rewrite utf8_valid_app; [done|]. by rewrite utf8_valid_app by by apply plain_utf8.
Qed.

Lemma dec_line v : one_line (dec v) = true /\ utf8_valid (dec v) = true.
Proof. split; [apply one_line_plain|apply plain_utf8]; apply dec_plain. Qed.

Lemma verify_files epoch state : ckpt_fits epoch state -> verify (ckpt_files epoch state) = Ok (mkLoaded epoch state).
Proof.
  intros (He & Hs & Hl). unfold verify, ckpt_files. rewrite bt_get_insert_ne by discriminate. rewrite !bt_get_insert_eq.
  cbn [ok_or]. rewrite ckpt_manifest_lines. set (e := epoch_line epoch). set (st := state_line _ _).
  assert (one_line e = true /\ utf8_valid e = true) as [He1 He2] by (apply words_line; [done|apply dec_nonempty|apply dec_line]).
  assert (one_line st = true /\ utf8_valid st = true) as [Hs1 Hs2].
  { apply words_line; [done| |apply words_line; [apply dec_plain|apply dec_nonempty|apply dec_line]].
    intros E. by apply app_nil in E as [_ ?]. }
  rewrite flat_lines_utf8 by (cbn [forallb]; by rewrite He2, Hs2). cbn [negb].
  rewrite lines_flat by (cbn [forallb]; by rewrite He1, Hs1). cbn [fold_left].
  pose proof (crc32_range state Hs) as Hc. unfold e, st. rewrite epoch_line_read by done. rewrite state_line_read by (done || lia).
  cbn [fst snd ok_or]. by rewrite !Z.eqb_refl.
Qed.

(** ** Damage is detected *)

(** A state file other than the one the manifest was written for, of another
    length or different in one byte, fails. *)
Lemma verify_other epoch state state' :
  ckpt_fits epoch state -> length state' <> length state \/ crc32 state' <> crc32 state ->
  verify (bt_insert STATE state' (ckpt_files epoch state)) = Err CorruptSnapshot.
Proof.
  intros Hf Hne. pose proof (verify_files epoch state Hf) as Hok. unfold verify, ckpt_files in *.
  rewrite !bt_get_insert_ne in Hok by discriminate. rewrite !bt_get_insert_eq in Hok.
  rewrite bt_get_insert_eq. rewrite bt_get_insert_ne by discriminate. rewrite bt_get_insert_eq. cbn [ok_or] in *.
  destruct (utf8_valid _); [|done]. cbn [negb] in *.
  destruct (fold_left _ _ _) as [[e|] [[len crc]|]]; [|done..]. cbn [ok_or] in *.
  destruct (Z.eqb_spec (Z.of_nat (length state)) len) as [El|]; [|done].
  destruct (Z.eqb_spec (crc32 state) crc) as [Ec|]; [|done].
  destruct (Z.eqb_spec (Z.of_nat (length state')) len) as [El'|]; [|done].
  destruct (Z.eqb_spec (crc32 state') crc) as [Ec'|]; [|done]. destruct Hne; [lia|congruence].
Qed.

Lemma inverted_byte b : (b < 256)%N -> (N.lxor b 255 < 256)%N /\ b <> N.lxor b 255.
Proof.
  intros Hb. split.
  - assert (forallb (fun b => N.lxor b 255 <? 256)%N (map N.of_nat (seq 0 256)) = true) as Hall by (vm_compute; reflexivity).
    rewrite forallb_forall in Hall. apply N.ltb_lt, Hall, in_map_iff. exists (N.to_nat b). split; [lia|apply in_seq; lia].
  - intros E. apply (f_equal (N.lxor b)) in E. by rewrite <- N.lxor_assoc, N.lxor_nilpotent in E.
Qed.

Lemma damage_seen state offset truncate :
  state <> [] -> bytes_ok state ->
  length (damage state offset truncate) <> length state \/ crc32 (damage state offset truncate) <> crc32 state.
Proof.
  intros Hne Hs. assert (length state <> 0)%nat as Hl by by destruct state.
  pose proof (Nat.mod_upper_bound offset _ Hl) as Hat. unfold damage. set (i := (offset mod length state)%nat) in *.
  destruct truncate.
  - left. rewrite length_take. lia.
  - right. destruct (lookup_lt_is_Some_2 state i Hat) as [b Hb].
    rewrite <- (take_drop_middle state i b Hb) in Hs |- *. rewrite alter_app_r_alt by (rewrite length_take; lia).
    replace (i - length (take i state))%nat with 0%nat by (rewrite length_take; lia). cbn [alter list_alter].
    assert (b < 256)%N as Hb256 by (apply Forall_app in Hs as [_ [? _]%Forall_cons]; done).
    destruct (inverted_byte b Hb256). intros E. symmetry in E. revert E. by apply crc32_changed.
Qed.

(** ** Names *)

Lemma ckpt_dir_published e : published_dir (ckpt_dir e) = true.
Proof.
  unfold published_dir. change (ckpt_dir e) with (stamped "ckpt-" e). rewrite stamped_not_partial.
  unfold stamped. by rewrite tx_app, begins_with_app.
Qed.

Lemma ckpt_partial_hidden e : ends_with (tx ".partial") (tx (ckpt_partial e)) = true.
Proof. unfold ckpt_partial. rewrite tx_app. apply ends_with_app. Qed.

Lemma ckpt_dir_shown e : ends_with (tx ".partial") (tx (ckpt_dir e)) = false.
Proof. apply (stamped_not_partial "ckpt-"). Qed.

Lemma ckpt_partial_ne e e' : ckpt_partial e <> ckpt_dir e'.
Proof. intros E. pose proof (ckpt_partial_hidden e) as H. rewrite E in H. by rewrite ckpt_dir_shown in H. Qed.

Lemma ckpt_dir_plain e : plain (tx (ckpt_dir e)) = true.
Proof.
  destruct (stamped_digits "ckpt-" e) as (t & Ht & Hd & _). change (ckpt_dir e) with (stamped "ckpt-" e).
  rewrite Ht, plain_app, (digits_plain t Hd). done.
Qed.

(** ** What is loaded *)

Definition current_text (e : Z) : list N := tx (ckpt_dir e) ++ [10%N].

(** [CURRENT] is absent or was written by the protocol. *)
Record root_ok (r : CkptRoot) : Prop := {
  ro_sorted : bt_sorted (ck_dirs r);
  ro_current : ck_current r = None \/ exists e, ck_current r = Some (current_text e)
}.

Lemma named_none r : ck_current r = None -> named r = [].
Proof. unfold named. by intros ->. Qed.

Lemma named_current r e : ck_current r = Some (current_text e) -> named r = [ckpt_dir e].
Proof.
  unfold named. intros ->. change (current_text e) with (line (tx (ckpt_dir e))).
  rewrite line_utf8 by apply plain_utf8, ckpt_dir_plain. rewrite trim_plain_line by apply ckpt_dir_plain.
  unfold word_if. destruct (tx (ckpt_dir e)) eqn:E; [done|]. rewrite <- E. simpl. by rewrite bytes_string_tx.
Qed.

Abbreviation Dirs := (btree string (btree string (list N))).

Definition shown (dirs : Dirs) : Dirs := base.filter (fun p => published_dir p.1 = true) dirs.

Definition view (cur : list string) (dirs : Dirs) : option Loaded :=
  first_verified dirs (cur ++ base.filter (fun n => n ∉ cur) (rev (bt_keys dirs))).

Lemma first_verified_ext dirs dirs' names :
  (forall n, n ∈ names -> bt_get n dirs = bt_get n dirs') -> first_verified dirs names = first_verified dirs' names.
Proof.
  induction names as [|n names IH]; intros Hn; [done|]. cbn [first_verified]. rewrite (Hn n) by set_solver.
  rewrite IH; [done|]. intros m Hm. apply Hn. set_solver.
Qed.

Lemma shown_get dirs n : bt_sorted dirs -> published_dir n = true -> bt_get n (shown dirs) = bt_get n dirs.
Proof.
  intros Hs Hn. unfold shown. rewrite bt_get_filter by done. destruct (bt_get n dirs); [|done]. simpl. by rewrite decide_True.
Qed.

Lemma shown_keys dirs : bt_keys (shown dirs) = base.filter (fun n => published_dir n = true) (bt_keys dirs).
Proof.
  unfold shown, bt_keys. induction dirs as [|[k v] m IH]; [done|]. rewrite filter_cons. cbn [map fst]. rewrite filter_cons.
  case_decide; [cbn [map fst]; by f_equal|done].
Qed.

Lemma shown_sorted dirs : bt_sorted dirs -> bt_sorted (shown dirs).
Proof. apply bt_sorted_filter. Qed.

(** Only the published directories matter. *)
Lemma shown_ext dirs dirs' :
  bt_sorted dirs -> bt_sorted dirs' -> (forall n, published_dir n = true -> bt_get n dirs = bt_get n dirs') -> shown dirs = shown dirs'.
Proof.
  intros Hs Hs' He. apply bt_ext; [by apply shown_sorted..|]. intros n. unfold shown. rewrite !bt_get_filter by done. cbn [fst].
  destruct (published_dir n) eqn:E; [by rewrite He|]. by destruct (bt_get n dirs), (bt_get n dirs').
Qed.

Lemma published_shown n : published_dir n = true -> ends_with (tx ".partial") (tx n) = false.
Proof. unfold published_dir. intros [_ H]%andb_true_iff. by apply negb_true_iff in H. Qed.

Lemma named_published r n : root_ok r -> n ∈ named r -> published_dir n = true.
Proof.
  intros [_ [Hc|[e Hc]]] Hn; [by rewrite named_none in Hn; [set_solver|]|].
  rewrite (named_current _ _ Hc) in Hn. apply list_elem_of_singleton in Hn as ->. apply ckpt_dir_published.
Qed.

Lemma ckpt_load_view r : root_ok r -> ckpt_load r = (drop_partials r, Ok (view (named r) (shown (ck_dirs r)))).
Proof.
  intros Hok. pose proof (ro_sorted _ Hok) as Hs. unfold ckpt_load, view. f_equal. f_equal.
  assert (shown (ck_dirs (drop_partials r)) = shown (ck_dirs r)) as Hsh.
  { apply shown_ext; [by apply bt_sorted_filter|done|]. intros n Hn. simpl. rewrite bt_get_filter by done.
    destruct (bt_get n (ck_dirs r)); [|done]. simpl. rewrite decide_True; [done|by apply published_shown]. }
  assert (candidates (drop_partials r) = named r ++ base.filter (fun n => n ∉ named r) (rev (bt_keys (shown (ck_dirs r))))) as ->.
  { unfold candidates. change (named (drop_partials r)) with (named r). rewrite <- Hsh. by rewrite shown_keys. }
  rewrite <- Hsh. apply first_verified_ext. intros n Hn. symmetry. apply shown_get; [by apply bt_sorted_filter|].
  apply elem_of_app in Hn as [Hn|Hn]; [by apply (named_published r)|]. apply list_elem_of_filter in Hn as [_ Hn].
  apply list_elem_of_In, in_rev, list_elem_of_In in Hn. rewrite shown_keys in Hn.
  by apply list_elem_of_filter in Hn as [? _].
Qed.

(** ** A new checkpoint among the others *)

Lemma first_verified_app dirs a b :
  first_verified dirs (a ++ b) = match first_verified dirs a with Some l => Some l | None => first_verified dirs b end.
Proof.
  induction a as [|n a IH]; [done|]. cbn [app first_verified]. rewrite IH. destruct (bt_get n dirs) as [fs|]; [|done].
  by destruct (verify fs).
Qed.

Lemma keys_above {V} k (m : btree string V) : Forall (fun p => cmp k p.1 = Lt) m -> k ∉ bt_keys m.
Proof.
  intros Hall Hin. unfold bt_keys in Hin. apply list_elem_of_fmap in Hin as (p & -> & Hp). rewrite Forall_forall in Hall.
  specialize (Hall p Hp). by rewrite cmp_refl in Hall.
Qed.

Lemma keys_insert {V} k (v : V) (m : btree string V) :
  bt_sorted m -> exists a b, bt_keys (bt_insert k v m) = a ++ k :: b /\ (k ∉ b) /\ (bt_keys m = a ++ b \/ bt_keys m = a ++ k :: b).
Proof.
  induction m as [|[k1 v1] m IH]; intros Hs; [exists [], []; set_solver|].
  apply bt_sorted_cons_inv in Hs as [Hs Hall]. cbn [bt_insert]. destruct (cmp k k1) eqn:E.
  - apply cmp_eq in E as <-. exists [], (bt_keys m). split_and!; [done|by apply keys_above|by right].
  - exists [], (k1 :: bt_keys m). split_and!; [done| |by left]. apply (keys_above k ((k1, v1) :: m)). constructor; [done|].
    eapply Forall_impl; [exact Hall|]. intros p. by apply cmp_lt_trans.
  - destruct (IH Hs) as (a & b & Hk & Hb & Hm). exists (k1 :: a), b. cbn [bt_keys map fst app] in *. unfold bt_keys in *.
    rewrite Hk. split_and!; [done|done|]. destruct Hm as [->| ->]; [by left|by right].
Qed.

(** A verified directory is chosen, or the choice is what it was. *)
Lemma view_insert cur dirs k files l :
  bt_sorted dirs -> verify files = Ok l -> cur = [] \/ (exists n, cur = [n]) ->
  view cur (bt_insert k files dirs) = Some l \/ view cur (bt_insert k files dirs) = view cur dirs.
Proof.
  intros Hs Hv Hcur. unfold view. destruct (decide (k ∈ cur)) as [Hk|Hk].
  { destruct Hcur as [->|[n ->]]; [set_solver|]. apply list_elem_of_singleton in Hk as <-. left.
    cbn [app first_verified]. by rewrite bt_get_insert_eq, Hv. }
  destruct (keys_insert k files dirs Hs) as (a & b & -> & Hb & Hm).
  rewrite rev_app_distr. cbn [rev]. rewrite !filter_app, filter_cons, decide_True by done.
  set (x := cur ++ base.filter (fun n => n ∉ cur) (rev b)).
  assert (exists y, cur ++ base.filter (fun n => n ∉ cur) (rev (bt_keys dirs)) = x ++ y) as [y ->].
  { destruct Hm as [->| ->]; rewrite rev_app_distr; [|cbn [rev]]; rewrite !filter_app; unfold x; eexists;
      rewrite <- !app_assoc; reflexivity. }
  replace (first_verified (bt_insert k files dirs) _) with
    (first_verified (bt_insert k files dirs) (x ++ k :: base.filter (fun n => n ∉ cur) (rev a)))
    by (unfold x; by rewrite <- ?app_assoc).
  rewrite !first_verified_app. assert (first_verified (bt_insert k files dirs) x = first_verified dirs x) as ->.
  { apply first_verified_ext. intros n Hn. apply bt_get_insert_ne. intros ->. unfold x in Hn.
    apply elem_of_app in Hn as [Hn|Hn]; [done|]. apply list_elem_of_filter in Hn as [_ Hn]. by apply list_elem_of_In, in_rev, list_elem_of_In in Hn. }
  destruct (first_verified dirs x); [by right|]. left. cbn [first_verified]. by rewrite bt_get_insert_eq, Hv.
Qed.

Lemma view_current dirs k files l : bt_get k dirs = Some files -> verify files = Ok l -> view [k] dirs = Some l.
Proof. intros Hg Hv. unfold view. cbn [app first_verified]. by rewrite Hg, Hv. Qed.

(** ** The protocol *)

(** The directories of [r] with some partials and nothing published changed. *)
Lemma hidden_change r dirs :
  root_ok r -> bt_sorted dirs -> (forall n, published_dir n = true -> bt_get n dirs = bt_get n (ck_dirs r)) ->
  root_ok (with_dirs r dirs) /\ (ckpt_load (with_dirs r dirs)).2 = (ckpt_load r).2.
Proof.
  intros Hok Hs He. assert (root_ok (with_dirs r dirs)) as Hok' by (split; [done|apply Hok]). split; [done|].
  rewrite !ckpt_load_view by done. cbn [snd ck_dirs with_dirs]. change (named (with_dirs r dirs)) with (named r).
  by rewrite (shown_ext dirs (ck_dirs r) Hs (ro_sorted _ Hok) He).
Qed.

Lemma partial_hidden n e : published_dir n = true -> n <> ckpt_partial e.
Proof. intros Hn ->. apply published_shown in Hn. by rewrite ckpt_partial_hidden in Hn. Qed.

Lemma partial_change r e files :
  root_ok r -> forall dirs, dirs = bt_insert (ckpt_partial e) files (ck_dirs r) \/
      dirs = bt_insert (ckpt_partial e) files (bt_remove (ckpt_partial e) (ck_dirs r)) ->
    root_ok (with_dirs r dirs) /\ (ckpt_load (with_dirs r dirs)).2 = (ckpt_load r).2.
Proof.
  intros Hok dirs Hd. pose proof (ro_sorted _ Hok) as Hs. apply hidden_change; [done| |].
  - destruct Hd as [->| ->]; apply bt_insert_sorted; [done|by apply bt_remove_sorted].
  - intros n Hn. pose proof (partial_hidden n e Hn) as Hne.
    destruct Hd as [->| ->]; rewrite bt_get_insert_ne by done; [done|]. rewrite bt_get_remove by done.
    by rewrite (proj2 (cmp_eqb_neq _ _)).
Qed.

(** The state of the directory once [e] is published. *)
Definition published_dirs (r : CkptRoot) (e : Z) (files : btree string (list N)) : Dirs :=
  bt_insert (ckpt_dir e) files (bt_remove (ckpt_partial e) (bt_remove (ckpt_dir e) (ck_dirs r))).

Lemma published_sorted r e files : root_ok r -> bt_sorted (published_dirs r e files).
Proof. intros Hok. apply bt_insert_sorted, bt_remove_sorted, bt_remove_sorted, Hok. Qed.

Lemma published_shown_dirs r e files :
  root_ok r -> shown (published_dirs r e files) = bt_insert (ckpt_dir e) files (shown (ck_dirs r)).
Proof.
  intros Hok. pose proof (ro_sorted _ Hok) as Hs. apply bt_ext.
  - by apply shown_sorted, published_sorted.
  - by apply bt_insert_sorted, shown_sorted.
  - intros n. destruct (decide (n = ckpt_dir e)) as [->|Hn].
    + rewrite shown_get; [by unfold published_dirs; rewrite !bt_get_insert_eq|by apply published_sorted|apply ckpt_dir_published].
    + rewrite bt_get_insert_ne by done. unfold shown. rewrite !bt_get_filter by (done || by apply published_sorted). cbn [fst].
      destruct (published_dir n) eqn:Ep; [|by destruct (bt_get n (published_dirs r e files)), (bt_get n (ck_dirs r))].
      unfold published_dirs. rewrite bt_get_insert_ne by done. rewrite !bt_get_remove by by try apply bt_remove_sorted.
      by rewrite (proj2 (cmp_eqb_neq _ _)), (proj2 (cmp_eqb_neq _ _)) by (done || by apply partial_hidden).
Qed.

Lemma publish_change r e files l :
  root_ok r -> verify files = Ok l ->
  root_ok (with_dirs r (published_dirs r e files)) /\
  ((ckpt_load (with_dirs r (published_dirs r e files))).2 = Ok (Some l) \/
   (ckpt_load (with_dirs r (published_dirs r e files))).2 = (ckpt_load r).2).
Proof.
  intros Hok Hv. assert (root_ok (with_dirs r (published_dirs r e files))) as Hok'.
  { split; [by apply published_sorted|apply Hok]. }
  split; [done|]. rewrite !ckpt_load_view by done. cbn [snd ck_dirs with_dirs].
  change (named (with_dirs r _)) with (named r). rewrite published_shown_dirs by done.
  destruct (view_insert (named r) (shown (ck_dirs r)) (ckpt_dir e) files l) as [->| ->]; [|done| |by left|by right].
  - apply shown_sorted, Hok.
  - destruct (ro_current _ Hok) as [Hc|[n Hc]]; [left; by apply named_none|right]. eexists. by apply named_current.
Qed.

Lemma current_loaded dirs temp e files l :
  bt_sorted dirs -> bt_get (ckpt_dir e) dirs = Some files -> verify files = Ok l ->
  root_ok (mkCkptRoot dirs (Some (current_text e)) temp) /\
  (ckpt_load (mkCkptRoot dirs (Some (current_text e)) temp)).2 = Ok (Some l).
Proof.
  intros Hs Hg Hv. assert (root_ok (mkCkptRoot dirs (Some (current_text e)) temp)) as Hok by (split; [done|right; by eexists]).
  split; [done|]. rewrite ckpt_load_view by done. cbn [snd]. rewrite (named_current _ e) by done. f_equal.
  eapply view_current; [|exact Hv]. rewrite shown_get; [done|done|apply ckpt_dir_published].
Qed.

Lemma cleanup_keeps dirs cur temp e :
  bt_sorted dirs -> bt_sorted (ck_dirs (ckpt_cleanup (mkCkptRoot dirs cur temp) e)) /\
  bt_get (ckpt_dir e) (ck_dirs (ckpt_cleanup (mkCkptRoot dirs cur temp) e)) = bt_get (ckpt_dir e) dirs.
Proof.
  intros Hs. split; [by apply bt_sorted_filter|]. simpl. rewrite bt_get_filter by done. destruct (bt_get _ dirs); [|done].
  simpl. rewrite decide_True; [done|]. unfold ckpt_superseded. by rewrite String.eqb_refl, andb_false_r.
Qed.

(** What an attempt at a checkpoint of [l] leaves of [r]. *)
Definition ckpt_outcome (r : CkptRoot) (l : Loaded) (f : FaultInjector) (r' : CkptRoot) (res : result CircuitError unit) : Prop :=
  root_ok r' /\
  match res with
  | Ok _ => (ckpt_load r').2 = Ok (Some l)
  | Err e => (ckpt_load r').2 = (ckpt_load r).2 \/ (ckpt_load r').2 = Ok (Some l)
  end /\ (unplanned f -> res = Ok tt).

(** A seam: the attempt ends there, or goes on. *)
Lemma outcome_at r l f seam r1 (k : FaultInjector -> FaultInjector * CkptRoot * result CircuitError unit) :
  root_ok r1 -> (ckpt_load r1).2 = (ckpt_load r).2 \/ (ckpt_load r1).2 = Ok (Some l) ->
  (forall f', exists f2 r' res, k f' = (f2, r', res) /\ ckpt_outcome r l f' r' res) ->
  exists f2 r' res, (let '(f', hit) := reached f seam in if hit then (f', r1, ckpt_fault seam) else k f') = (f2, r', res) /\
    ckpt_outcome r l f r' res.
Proof.
  intros Hok Hl Hk. destruct (reached f seam) as [f' hit] eqn:E. destruct hit.
  - eexists _, _, _. split; [reflexivity|]. split_and!; [done|done|]. intros Hu. by destruct (reached_unplanned _ _ _ _ Hu E).
  - destruct (Hk f') as (f2 & r' & res & -> & Hok' & Hl' & Hu). eexists _, _, _. split; [reflexivity|]. split_and!; [done|done|].
    intros Hf. apply Hu. by destruct (reached_unplanned _ _ _ _ Hf E).
Qed.

Lemma take_current_outcome r0 r f e files l :
  bt_sorted (ck_dirs r) -> bt_get (ckpt_dir e) (ck_dirs r) = Some files -> verify files = Ok l ->
  exists f' r' res, take_current r f e = (f', r', res) /\ ckpt_outcome r0 l f r' res.
Proof.
  intros Hs Hg Hv. unfold take_current. change (tx (ckpt_dir e) ++ [10%N]) with (current_text e).
  destruct (current_loaded (ck_dirs r) None e files l Hs Hg Hv) as [Hok Hl].
  apply outcome_at; [done|by right|]. intros f1. apply outcome_at; [done|by right|]. intros f2.
  destruct (cleanup_keeps (ck_dirs r) (Some (current_text e)) None e Hs) as [Hs' Hg'].
  destruct (current_loaded _ None e files l Hs' (eq_trans Hg' Hg) Hv) as [Hok' Hl'].
  eexists _, _, _. split; [reflexivity|]. split_and!; [exact Hok'|exact Hl'|done].
Qed.

Lemma take_publish_outcome r0 r f e state :
  root_ok r -> (ckpt_load r).2 = (ckpt_load r0).2 -> ckpt_fits e state ->
  exists f' r' res, take_publish r f e state = (f', r', res) /\ ckpt_outcome r0 (mkLoaded e state) f r' res.
Proof.
  intros Hok Hl Hfit. pose proof (verify_files e state Hfit) as Hv. unfold take_publish. fold (ckpt_files e state).
  set (r1 := with_dirs r (bt_insert (ckpt_partial e) (ckpt_files e state) (ck_dirs r))).
  destruct (partial_change r e (ckpt_files e state) Hok _ (or_introl eq_refl)) as [Hok1 Hl1]. fold r1 in Hok1, Hl1.
  apply outcome_at; [done|left; congruence|]. intros f1.
  destruct (publish_change r1 e (ckpt_files e state) _ Hok1 Hv) as [Hok2 Hl2].
  apply outcome_at; [done|destruct Hl2 as [Hl2|Hl2]; [by right|left; by rewrite <- Hl, <- Hl1]|]. intros f2.
  apply (take_current_outcome _ _ _ _ (ckpt_files e state)); [by apply published_sorted|apply bt_get_insert_eq|done].
Qed.

Section circuits.
Context {Op : Type} `{Operator Op}.

Lemma take_outcome r (c : Circuit Op) f state :
  root_ok r -> snapshot c = Ok state -> ckpt_fits (epoch c) state ->
  exists f' r' res, take_checkpoint r c f = (f', r', res) /\ ckpt_outcome r (mkLoaded (epoch c) state) f r' res.
Proof.
  intros Hok Hsnap Hfit. unfold take_checkpoint. rewrite Hsnap. apply outcome_at; [done|by left|]. intros f1.
  destruct (partial_change r (epoch c) (bt_insert STATE state bt_empty) Hok _ (or_intror eq_refl)) as [Hok1 Hl1].
  apply outcome_at; [done|by left|]. intros f2. apply outcome_at; [done|by left|]. intros f3.
  by apply take_publish_outcome.
Qed.

Lemma forallb_bytes_ok l : forallb (fun b => b <? 256)%N l = true -> bytes_ok l.
Proof. rewrite forallb_forall. intros Hl. apply Forall_forall. intros b Hb. by apply N.ltb_lt, Hl, list_elem_of_In. Qed.

(** What the format carries of a circuit. *)
Definition snapshot_fits (c : Circuit Op) : bool :=
  match snapshot c with
  | Ok state => (0 <=? epoch c) && (epoch c <? 2 ^ 64) && forallb (fun b => b <? 256)%N state && (Z.of_nat (length state) <? 2 ^ 64)
  | Err _ => false
  end.

Lemma snapshot_fits_ok c : snapshot_fits c = true -> exists state, snapshot c = Ok state /\ ckpt_fits (epoch c) state.
Proof.
  unfold snapshot_fits. destruct (snapshot c) as [state|]; [|done]. rewrite !andb_true_iff, Z.leb_le, !Z.ltb_lt.
  intros (((H0 & H1) & Hb) & Hl). exists state. split; [done|]. split_and!; [lia..|by apply forallb_bytes_ok|done].
Qed.

(** Checkpoints attempted one after the other, each with its own fault. *)
Fixpoint attempts (r : CkptRoot) (l : list (Circuit Op * FaultInjector)) : CkptRoot * list (result CircuitError unit) :=
  match l with
  | [] => (r, [])
  | (c, f) :: l' =>
      let '(_, r1, out) := take_checkpoint r c f in
      let '(r2, outs) := attempts r1 l' in (r2, out :: outs)
  end.

Lemma empty_root_ok : root_ok empty_root.
Proof. split; [constructor|by left]. Qed.

(** [got] is attempt [i], and no later one completed. *)
Definition newest (l : list (Circuit Op * FaultInjector)) (outs : list (result CircuitError unit)) (got : option Loaded) : Prop :=
  exists i c f state, l !! i = Some (c, f) /\ snapshot c = Ok state /\ got = Some (mkLoaded (epoch c) state) /\
    forall j, (i < j)%nat -> outs !! j <> Some (Ok tt).

Lemma attempts_newest l : forall r r' outs,
  root_ok r -> forallb (fun a => snapshot_fits a.1) l = true -> attempts r l = (r', outs) ->
  root_ok r' /\ exists got, (ckpt_load r').2 = Ok got /\
    (((ckpt_load r').2 = (ckpt_load r).2 /\ forall j, outs !! j <> Some (Ok tt)) \/ newest l outs got).
Proof.
  induction l as [|[c f] l IH]; intros r r' outs Hok Hfit Hrun.
  { injection Hrun as <- <-. split; [done|]. rewrite ckpt_load_view by done. eexists. split; [reflexivity|]. left. by split. }
  cbn [forallb fst] in Hfit. apply andb_true_iff in Hfit as [(state & Hs & Hc)%snapshot_fits_ok Hfit].
  cbn [attempts] in Hrun. destruct (take_outcome r c f state Hok Hs Hc) as (f1 & r1 & out & Ht & Hok1 & Hl1 & _).
  rewrite Ht in Hrun. destruct (attempts r1 l) as [r2 outs2] eqn:E2. injection Hrun as <- <-.
  destruct (IH _ _ _ Hok1 Hfit E2) as (Hok2 & got & Hg & Hcase). split; [done|]. exists got. split; [done|].
  destruct Hcase as [[Hsame Hno]|(i & c2 & f2 & st2 & Hi & Hs2 & Hgot & Hno)].
  2: { right. exists (S i), c2, f2, st2. split_and!; [done..|]. intros [|j] Hj; [lia|]. apply Hno. lia. }
  assert ((ckpt_load r1).2 = Ok (Some (mkLoaded (epoch c) state)) -> newest ((c, f) :: l) (out :: outs2) got) as Hnew.
  { intros Hn. exists 0%nat, c, f, state. split_and!; [done|done|congruence|]. intros [|j] Hj; [lia|]. apply Hno. }
  destruct out as [[]|e]; [right; by apply Hnew|]. destruct Hl1 as [Hl1|Hl1]; [left|right; by apply Hnew].
  split; [congruence|]. intros [|j]; [done|apply Hno].
Qed.

(** C24: a checkpoint that dies does no harm.  Take checkpoints one after the
    other, each of which may die at any seam of the protocol.  What recovery then
    loads is, with its exact bytes and epoch, the checkpoint of some attempt after
    which none completed; it loads none only when none completed.  An attempt
    that meets no fault completes. *)
Theorem checkpoint_survives_faults l r outs :
  forallb (fun a => snapshot_fits a.1) l = true -> attempts empty_root l = (r, outs) ->
  exists got, (ckpt_load r).2 = Ok got /\
    match got with None => forall j, outs !! j <> Some (Ok tt) | Some _ => newest l outs got end /\
    (forall c f, snapshot_fits c = true -> unplanned f -> (take_checkpoint r c f).2 = Ok tt).
Proof.
  intros Hfit Hrun. destruct (attempts_newest l _ _ _ empty_root_ok Hfit Hrun) as (Hok & got & Hg & Hcase).
  exists got. split; [done|]. split.
  - destruct Hcase as [[Hsame Hno]|Hn]; [|destruct got; [done|by destruct Hn as (? & ? & ? & ? & _ & _ & ? & _)]].
    rewrite Hsame in Hg. injection Hg as <-. done.
  - intros c f (state & Hs & Hc)%snapshot_fits_ok Hf. destruct (take_outcome r c f state Hok Hs Hc) as (f1 & r1 & out & -> & _ & _ & Hu).
    by apply Hu.
Qed.
End circuits.

(** ** A damaged checkpoint *)

Definition without (r : CkptRoot) (e : Z) : CkptRoot := with_dirs r (bt_remove (ckpt_dir e) (ck_dirs r)).

Lemma first_verified_broken dirs dirs' k names :
  (forall n, n <> k -> bt_get n dirs = bt_get n dirs') ->
  match bt_get k dirs with Some files => exists e, verify files = Err e | None => True end ->
  first_verified dirs names = first_verified dirs' (base.filter (fun n => n <> k) names).
Proof.
  intros He Hk. induction names as [|n names IH]; [done|]. rewrite filter_cons. cbn [first_verified]. case_decide as Hn.
  - cbn [first_verified]. rewrite (He n Hn), IH. done.
  - subst n. destruct (bt_get k dirs) as [files|]; [|done]. destruct Hk as [e ->]. done.
Qed.

(** The names in [rev], without the chosen one and without [k]. *)
Lemma other_names (cur names : list string) k :
  base.filter (fun n => n <> k) (base.filter (fun n => n ∉ cur) (rev names)) =
  base.filter (fun n => n ∉ cur) (rev (base.filter (fun n => n <> k) names)).
Proof.
  induction names as [|n names IH]; [done|]. cbn [rev]. rewrite !filter_app, IH, (filter_cons (fun n => n <> k) n names). clear IH.
  destruct (decide (n <> k)) as [Hn|Hn].
  - cbn [rev]. rewrite filter_app. f_equal. rewrite filter_cons. case_decide; [|done]. by rewrite filter_cons, decide_True.
  - rewrite (filter_cons _ n []). case_decide; [rewrite filter_cons, decide_False by done|]; by rewrite ?filter_nil, app_nil_r.
Qed.

Lemma keys_other_insert {V} k (v : V) (m : btree string V) :
  base.filter (fun n => n <> k) (bt_keys (bt_insert k v m)) = base.filter (fun n => n <> k) (bt_keys m).
Proof.
  unfold bt_keys. induction m as [|[k1 v1] m IH]; cbn [bt_insert map fst]; [by rewrite filter_cons, decide_False by auto|].
  destruct (cmp k k1) eqn:E; cbn [map fst]; rewrite ?(filter_cons _ k), ?(decide_False (P := k <> k)) by auto; [|done|].
  - apply cmp_eq in E as <-. by rewrite filter_cons, decide_False by auto.
  - rewrite !(filter_cons _ k1). by rewrite IH.
Qed.

Lemma keys_other_remove {V} k (m : btree string V) :
  base.filter (fun n => n <> k) (bt_keys (bt_remove k m)) = base.filter (fun n => n <> k) (bt_keys m).
Proof.
  unfold bt_keys. induction m as [|[k1 v1] m IH]; [done|]. cbn [bt_remove map fst]. case_cmp_eqb k k1.
  - subst. by rewrite filter_cons, decide_False by auto.
  - cbn [map fst]. by rewrite !filter_cons, IH.
Qed.

Lemma damaged_view cur dirs k files e :
  bt_sorted dirs -> verify files = Err e -> view cur (bt_insert k files dirs) = view cur (bt_remove k dirs).
Proof.
  intros Hs Hv. unfold view. set (names := cur ++ base.filter _ (rev (bt_keys (bt_remove k dirs)))).
  rewrite (first_verified_broken (bt_remove k dirs) (bt_remove k dirs) k names); [|done|by rewrite bt_get_remove, cmp_eqb_refl].
  unfold names. rewrite (first_verified_broken _ (bt_remove k dirs) k).
  - by rewrite !filter_app, !other_names, keys_other_insert, keys_other_remove.
  - intros n Hn. rewrite bt_get_insert_ne, bt_get_remove by done. by rewrite (proj2 (cmp_eqb_neq _ _)).
  - rewrite bt_get_insert_eq. by exists e.
Qed.

Lemma shown_insert dirs k files :
  bt_sorted dirs -> published_dir k = true -> shown (bt_insert k files dirs) = bt_insert k files (shown dirs).
Proof.
  intros Hs Hk. apply bt_ext; [by apply shown_sorted, bt_insert_sorted|by apply bt_insert_sorted, shown_sorted|].
  intros n. unfold shown. rewrite bt_get_filter by by apply bt_insert_sorted.
  destruct (decide (n = k)) as [->|Hn]; [rewrite !bt_get_insert_eq; simpl; by rewrite decide_True|].
  rewrite !bt_get_insert_ne by done. by rewrite bt_get_filter.
Qed.

Lemma shown_remove dirs k : bt_sorted dirs -> shown (bt_remove k dirs) = bt_remove k (shown dirs).
Proof.
  intros Hs. apply bt_ext; [by apply shown_sorted, bt_remove_sorted|by apply bt_remove_sorted, shown_sorted|].
  intros n. rewrite bt_get_remove by by apply shown_sorted. unfold shown. rewrite !bt_get_filter by by try apply bt_remove_sorted.
  rewrite bt_get_remove by done. by destruct (cmp_eqb n k).
Qed.

(** A damaged checkpoint is as good as none.  When the state file of a
    published checkpoint was cut anywhere or had any one byte inverted, recovery
    loads what it would load if the checkpoint had never been published. *)
Theorem damaged_checkpoint_ignored r e state offset truncate :
  root_ok r -> bt_get (ckpt_dir e) (ck_dirs r) = Some (ckpt_files e state) -> ckpt_fits e state -> state <> [] ->
  exists r', corrupt_for_test r e offset truncate = (r', true) /\ (ckpt_load r').2 = (ckpt_load (without r e)).2.
Proof.
  intros Hok Hg Hfit Hne. unfold corrupt_for_test. rewrite Hg. cbn [mbind option_bind].
  assert (bt_get STATE (ckpt_files e state) = Some state) as Hst.
  { unfold ckpt_files. rewrite bt_get_insert_ne by discriminate. apply bt_get_insert_eq. }
  rewrite Hst. destruct state as [|b state]; [done|]. eexists. split; [reflexivity|].
  set (state0 := b :: state) in *. unfold bt_update. rewrite Hg. cbn [default].
  assert (verify (bt_insert STATE (damage state0 offset truncate) (ckpt_files e state0)) = Err CorruptSnapshot) as Hv.
  { apply verify_other; [done|]. apply damage_seen; [done|apply Hfit]. }
  pose proof (ro_sorted _ Hok) as Hs.
  rewrite !ckpt_load_view; [|split; [by apply bt_remove_sorted|apply Hok]|split; [by apply bt_insert_sorted|apply Hok]].
  cbn [snd ck_dirs with_dirs without]. f_equal. change (named (with_dirs r _)) with (named r). change (named (without r e)) with (named r).
  rewrite shown_insert, shown_remove by (done || apply ckpt_dir_published).
  eapply damaged_view; [by apply shown_sorted|exact Hv].
Qed.

(** ** Witnesses *)

(** A running circuit after one and after two epochs. *)
Definition ex_states : list (Circuit (AnyOp MemBackend)) :=
  omap (running (compiled ex_query)) [take 1 ex_log; take 2 ex_log].

(** The first checkpoint completes, the second dies before it is current. *)
Definition ex_attempts : list (Circuit (AnyOp MemBackend) * FaultInjector) :=
  zip ex_states [inert; planned (mkFaultPlan CheckpointAfterPublishBeforeCurrent 1)].

Lemma checkpoint_survives_faults_witness :
  length ex_attempts = 2%nat /\
  exists got, (ckpt_load (attempts empty_root ex_attempts).1).2 = Ok got /\
    match got with
    | None => forall j, (attempts empty_root ex_attempts).2 !! j <> Some (Ok tt)
    | Some _ => newest ex_attempts (attempts empty_root ex_attempts).2 got
    end.
Proof.
  split; [vm_compute; reflexivity|].
  destruct (checkpoint_survives_faults ex_attempts (attempts empty_root ex_attempts).1 (attempts empty_root ex_attempts).2)
    as (got & Hg & Hn & _).
  - vm_compute. reflexivity.
  - apply surjective_pairing.
  - exists got. split; assumption.
Defined.

Lemma damaged_checkpoint_ignored_witness :
  exists r', corrupt_for_test (attempts empty_root ex_attempts).1 2 7 false = (r', true) /\
    (ckpt_load r').2 = (ckpt_load (without (attempts empty_root ex_attempts).1 2)).2.
Proof.
  apply (damaged_checkpoint_ignored (attempts empty_root ex_attempts).1 2
    (match snapshot (default (mkCircuit [] bt_empty [] 0 [] [] []) (ex_states !! 1%nat)) with Ok s => s | Err _ => [] end) 7 false).
  - apply (attempts_newest ex_attempts empty_root _ (attempts empty_root ex_attempts).2); [apply empty_root_ok|vm_compute; reflexivity|apply surjective_pairing].
  - vm_compute. reflexivity.
  - split; [vm_compute; split; [discriminate|reflexivity]|split; [|vm_compute; reflexivity]].
    apply forallb_bytes_ok. vm_compute. reflexivity.
  - vm_compute. discriminate.
Defined.
