(* ===== verification/ServerParts.v ===== *)
(** * Errors of the server and the gate in front of it ([schweep-server])

    error.rs with the kinds of wire.rs, and admission.rs: what one source may have
    queued between two seals.

    Its later part: the persisted registry ([schweep-server],
    registry_file.rs). *)

From Stdlib Require Import ZArith Lia NArith.
From stdpp Require Import base list strings pretty sets.
From S2P Require Import Prelude BTree Plan Codec ResultStore Compile Text LogRecord Log Memo Snapshot.

(** ** Kinds *)

Inductive ErrorKind := Refused | NotFound | Rejected | KOverloaded | Internal.

Definition status (k : ErrorKind) : Z :=
  match k with Refused => 400 | NotFound => 404 | Rejected => 409 | KOverloaded => 429 | Internal => 500 end.

Definition kind_name (k : ErrorKind) : string :=
  match k with
  | Refused => "Refused" | NotFound => "NotFound" | Rejected => "Rejected" | KOverloaded => "Overloaded"
  | Internal => "Internal"
  end.

Definition retryable (k : ErrorKind) : bool := match k with KOverloaded => true | _ => false end.

Inductive ServerError :=
| SrvIo
| SrvUnknownHandle (handle : Z)
| SrvUnknownPath (method path : string)
| SrvQuarantined (handle : Z) (reason : string)
| SrvOverloaded (source_id : string) (depth bound : Z)
| SrvOverloadedBytes (source_id : string) (queued_bytes batch_bytes bound : Z)
| SrvBatchTooLarge (batch_bytes bound : Z)
| SrvTokenTooOld (handle token oldest : Z)
| SrvCorruptRegistry (what : string)
| SrvUnsupported (what : string)
| SrvLog (e : LogError)
| SrvSql (e : SqlError)
| SrvMemo (e : MemoError)
| SrvCircuit (e : CircuitError)
| SrvBatch (e : BatchError).

Definition kind (e : ServerError) : ErrorKind :=
  match e with
  | SrvOverloaded _ _ _ | SrvOverloadedBytes _ _ _ _ => KOverloaded
  | SrvBatchTooLarge _ _ => Refused
  | SrvUnknownHandle _ | SrvUnknownPath _ _ => NotFound
  | SrvQuarantined _ _ | SrvTokenTooOld _ _ _ | SrvBatch (ProvenanceUnavailable _) | SrvLog (TokenReused _ _) => Rejected
  | SrvSql _ => Refused
  | SrvLog (LogUnknownTable _) => NotFound
  | SrvLog _ | SrvMemo _ | SrvCircuit _ | SrvBatch _ | SrvCorruptRegistry _ | SrvUnsupported _ | SrvIo => Internal
  end.

(** ** Admission *)

Definition DEFAULT_SOURCE_QUEUE_BOUND : Z := 64.
Definition DEFAULT_SOURCE_QUEUE_BYTES : Z := 8 * 1024 * 1024.

Record Policy := mkPolicy { queue_bound : Z; queue_bytes : Z }.

Definition default_policy : Policy := mkPolicy DEFAULT_SOURCE_QUEUE_BOUND DEFAULT_SOURCE_QUEUE_BYTES.

Inductive Verdict :=
| Admit
| Overloaded (source_depth bound : Z)
| OverloadedBytes (queued_bytes batch_bytes bound : Z)
| TooLarge (batch_bytes bound : Z).

(** [admission::Admission]; the memo's [Admission] is another type. *)
Record Gate := mkGate {
  gate_policy : Policy;
  depths : btree string Z;
  gate_bytes : btree string Z;
  refused : btree string Z
}.

Definition gate_new (p : Policy) : Gate := mkGate p bt_empty bt_empty bt_empty.

Definition queued_bytes (g : Gate) (source : string) : Z := default 0 (bt_get source (gate_bytes g)).
Definition depth (g : Gate) (source : string) : Z := default 0 (bt_get source (depths g)).

Definition refuse (g : Gate) (source : string) : Gate :=
  mkGate (gate_policy g) (depths g) (gate_bytes g) (bt_update source 0 (fun n => n + 1) (refused g)).

(** [usize::saturating_add] *)
Definition saturating_add (a b : Z) : Z := Z.min (a + b) (2 ^ 64 - 1).

Definition check (g : Gate) (source : string) (batch_bytes : Z) : Gate * Verdict :=
  let bound := queue_bytes (gate_policy g) in
  if bound <? batch_bytes then (refuse g source, TooLarge batch_bytes bound)
  else if bound <? saturating_add (queued_bytes g source) batch_bytes then
    (refuse g source, OverloadedBytes (queued_bytes g source) batch_bytes bound)
  else if queue_bound (gate_policy g) <=? depth g source then
    (refuse g source, Overloaded (depth g source) (queue_bound (gate_policy g)))
  else (g, Admit).

Definition admitted (g : Gate) (source : string) (batch_bytes : Z) : Gate :=
  mkGate (gate_policy g) (bt_update source 0 (fun n => n + 1) (depths g))
    (bt_update source 0 (fun n => n + batch_bytes) (gate_bytes g)) (refused g).

Definition gate_sealed (g : Gate) : Gate := mkGate (gate_policy g) bt_empty bt_empty (refused g).

Definition sum_values (m : btree string Z) : Z := foldr Z.add 0 (map snd m).
Definition total_depth (g : Gate) : Z := sum_values (depths g).
Definition total_queued_bytes (g : Gate) : Z := sum_values (gate_bytes g).
Definition total_refused (g : Gate) : Z := sum_values (refused g).

(** What an admitted batch leaves within the bounds. *)
Lemma check_admits g source n :
  0 <= n -> 0 <= queued_bytes g source -> queue_bytes (gate_policy g) < 2 ^ 64 - 1 -> check g source n = (g, Admit) ->
  queued_bytes g source + n <= queue_bytes (gate_policy g) /\ depth g source < queue_bound (gate_policy g).
Proof.
  intros Hn Hq Hb. unfold check, saturating_add. destruct (Z.ltb_spec (queue_bytes (gate_policy g)) n); [done|].
  destruct (Z.ltb_spec (queue_bytes (gate_policy g)) (Z.min (queued_bytes g source + n) (2 ^ 64 - 1))); [done|].
  destruct (Z.leb_spec (queue_bound (gate_policy g)) (depth g source)); [done|]. intros _. lia.
Qed.

(** * The persisted registry ([schweep-server], registry_file.rs)

    The text a registration is kept in across restarts, its writer and its
    reader, and what survives the round trip. *)

(** ** Text *)

(** [str::replace] of a non-empty pattern: from the left, without overlap. *)
Fixpoint replace_from (skip : nat) (pat to t : text) : text :=
  match t with
  | [] => []
  | b :: t' =>
      match skip with
      | S k => replace_from k pat to t'
      | O => if begins_with pat t then to ++ replace_from (length pat - 1) pat to t' else b :: replace_from 0 pat to t'
      end
  end.

Definition replace (pat to t : text) : text := replace_from 0 pat to t.

(** ** The file *)

Record Entry := mkEntry { entry_handle : Z; entry_sql : string; entry_admission : Admission }.

Record Registry := mkRegistry { reg_entries : btree Z Entry; reg_next_handle : Z }.

Definition registry_default : Registry := mkRegistry bt_empty 0.

Definition escape (reason : text) : text :=
  replace [13%N] (tx "%0D") (replace [10%N] (tx "%0A") (replace [32%N] (tx "%20") (replace [37%N] (tx "%25") reason))).

Definition unescape (escaped : text) : text :=
  replace (tx "%25") [37%N] (replace (tx "%0D") [13%N] (replace (tx "%0A") [10%N] (replace (tx "%20") [32%N] escaped))).

Definition admission_text (a : Admission) : text :=
  match unbounded_reason a with None => tx "bounded" | Some reason => tx "unbounded:" ++ escape (tx reason) end.

Definition entry_line (e : Entry) : text :=
  tx "handle=" ++ dec (entry_handle e) ++ tx " admission=" ++ admission_text (entry_admission e) ++
  tx " sql=" ++ replace [10%N] [32%N] (tx (entry_sql e)).

Definition registry_body (r : Registry) : text :=
  line (tx "schweep registry v1") ++ line (tx "next_handle=" ++ dec (reg_next_handle r)) ++
  flat_map (fun p => line (entry_line p.2)) (reg_entries r).

Definition registry_encode (r : Registry) : list N :=
  registry_body r ++ tx "crc=" ++ line (hex8 (crc32 (registry_body r))).

(** The text after the key's first occurrence, up to a space. *)
Definition field (l key : text) : option text :=
  '(_, rest) ← split_at_first key l;
  Some (match split_once 32 rest with Some (w, _) => w | None => rest end).

Definition registry_line (r : Registry) (l : text) : result ServerError Registry :=
  match strip_prefix (tx "next_handle=") l with
  | Some value => Ok (mkRegistry (reg_entries r) (default 0 (parse_dec (trim value))))
  | None =>
      if negb (begins_with (tx "handle=") l) then Ok r
      else
        let? handle := ok_or (field l (tx "handle=") ≫= parse_dec) (SrvCorruptRegistry "a handle is not a number") in
        let? admission := ok_or (field l (tx "admission=")) (SrvCorruptRegistry "an entry has no admission") in
        let admission := match strip_prefix (tx "unbounded:") admission with
                         | Some reason => with_unbounded_state (bytes_string (unescape reason))
                         | None => bounded
                         end in
        let? parts := ok_or (split_at_first (tx " sql=") l) (SrvCorruptRegistry "an entry has no sql") in
        Ok (mkRegistry (bt_insert handle (mkEntry handle (bytes_string parts.2) admission) (reg_entries r)) (reg_next_handle r))
  end.

(** The next handle is past every entry. *)
Definition highest (m : btree Z Entry) : Z := foldr (fun h acc => Z.max (h + 1) acc) 0 (bt_keys m).

Definition registry_decode (bytes : list N) : result ServerError Registry :=
  if negb (utf8_valid bytes) then Err (SrvCorruptRegistry "not UTF-8")
  else if negb (ends_with [10%N] bytes) then Err (SrvCorruptRegistry "truncated: no final newline")
  else
    let? parts := ok_or (rsplit_once (tx "crc=") bytes) (SrvCorruptRegistry "no checksum") in
    let '(body, checksum) := parts in
    let? expected := ok_or (parse_u32_hex (trim checksum)) (SrvCorruptRegistry "checksum is not hex") in
    if negb (crc32 body =? expected) then Err (SrvCorruptRegistry "failed its checksum")
    else
      let? r := try_fold registry_line registry_default (lines body) in
      Ok (mkRegistry (reg_entries r) (Z.max (reg_next_handle r) (highest (reg_entries r)))).

(** The file in a directory, if there is one. *)
Definition registry_load (file : option (list N)) : result ServerError Registry :=
  match file with Some bytes => registry_decode bytes | None => Ok registry_default end.

(** ** Replacing *)

Lemma replace_char c to t : replace [c] to t = flat_map (fun b => if (b =? c)%N then to else [b]) t.
Proof.
  unfold replace. induction t as [|b t IH]; [done|]. cbn [replace_from flat_map length Nat.sub]. rewrite IH.
  unfold begins_with. cbn [strip_prefix]. rewrite (N.eqb_sym c b). by destruct (b =? c)%N.
Qed.

Lemma flat_map_flat_map {A B C} (f : B -> list C) (g : A -> list B) l :
  flat_map f (flat_map g l) = flat_map (fun x => flat_map f (g x)) l.
Proof. induction l as [|x l IH]; [done|]. simpl. by rewrite flat_map_app, IH. Qed.

Definition escaped_char (b : N) : text :=
  if (b =? 37)%N then tx "%25" else if (b =? 32)%N then tx "%20" else if (b =? 10)%N then tx "%0A"
  else if (b =? 13)%N then tx "%0D" else [b].

Lemma escape_chars t : escape t = flat_map escaped_char t.
Proof.
  unfold escape. rewrite !replace_char, !flat_map_flat_map. apply flat_map_ext. intros b. unfold escaped_char.
  destruct (N.eqb_spec b 37) as [->|H1]; [done|]. simpl. destruct (N.eqb_spec b 32) as [->|H2]; [done|].
  simpl. destruct (N.eqb_spec b 10) as [->|H3]; [done|]. simpl. by destruct (b =? 13)%N.
Qed.

(** A character that is not the escape character, or an escape of two others. *)
Definition token (t : text) : Prop :=
  (exists b, t = [b] /\ b <> 37%N) \/ (exists x y, t = [37%N; x; y] /\ x <> 37%N /\ y <> 37%N).

Lemma begins_escape p q t : begins_with [37%N; p; q] t = bool_decide (take 3 t = [37%N; p; q]).
Proof.
  unfold begins_with. apply bool_decide_ext. split.
  - intros [r Hr]. apply strip_prefix_Some in Hr as ->. done.
  - intros Ht. exists (drop 3 t). rewrite <- (take_drop 3 t) at 1. rewrite Ht. apply strip_prefix_app.
Qed.

(** Escapes are replaced token by token. *)
Lemma replace_tokens p q to toks :
  p <> 37%N -> q <> 37%N -> Forall token toks ->
  replace [37%N; p; q] to (concat toks) = concat (map (fun t => if decide (t = [37%N; p; q]) then to else t) toks).
Proof.
  intros Hp Hq. unfold replace. induction 1 as [|t toks Ht _ IH]; [done|]. cbn [concat map].
  destruct Ht as [(b & -> & Hb)|(x & y & -> & Hx & Hy)].
  - cbn [app replace_from]. rewrite begins_escape, bool_decide_eq_false_2 by (destruct (concat toks) as [|? [|? ?]]; simpl; congruence).
    rewrite decide_False by done. by rewrite IH.
  - cbn [app]. rewrite <- IH. cbn [replace_from length Nat.sub]. rewrite begins_escape. case_decide as E.
    + rewrite bool_decide_eq_true_2 by done. done.
    + rewrite bool_decide_eq_false_2 by done.
      rewrite begins_escape, bool_decide_eq_false_2 by (destruct (concat toks); simpl; congruence).
      rewrite begins_escape, bool_decide_eq_false_2 by (destruct (concat toks) as [|? [|? ?]]; simpl; congruence). done.
Qed.

(** One stage of undoing the escapes, character by character. *)
Lemma unescape_stage (f g : N -> text) p q to t :
  p <> 37%N -> q <> 37%N -> (forall b, token (f b)) ->
  (forall b, (if decide (f b = [37%N; p; q]) then to else f b) = g b) ->
  replace [37%N; p; q] to (concat (map f t)) = concat (map g t).
Proof.
  intros Hp Hq Hf Hg. rewrite replace_tokens by (done || by apply Forall_map, Forall_true).
  rewrite map_map. f_equal. by apply map_ext.
Qed.

(** The characters still escaped: the first [n] of these. *)
Definition still_escaped (n : nat) (b : N) : text :=
  if decide (b ∈ take n [37%N; 13%N; 10%N; 32%N]) then escaped_char b else [b].

Lemma still_token n b : (0 < n)%nat -> token (still_escaped n b).
Proof.
  intros Hn. unfold still_escaped, escaped_char. case_decide as Hb.
  - repeat case_match; try (right; by eexists _, _). left. eexists. split; [done|]. by apply N.eqb_neq.
  - left. eexists. split; [done|]. intros ->. apply Hb. destruct n; [lia|]. simpl. by left.
Qed.

Ltac stage := intros b; unfold still_escaped, escaped_char; cbn [take];
  repeat match goal with |- context [(b =? ?c)%N] => destruct (N.eqb_spec b c); [subst b; reflexivity|] end;
  repeat case_decide; congruence || set_solver.

Lemma reason_roundtrip t : unescape (escape t) = t.
Proof.
  rewrite escape_chars, flat_map_concat_map. unfold unescape.
  assert (map escaped_char t = map (still_escaped 4) t) as ->.
  { apply map_ext. stage. }
  change (tx "%20") with [37%N; 50%N; 48%N]. rewrite (unescape_stage (still_escaped 4) (still_escaped 3));
    [|done|done|intros b; apply still_token; lia|stage].
  change (tx "%0A") with [37%N; 48%N; 65%N]. rewrite (unescape_stage (still_escaped 3) (still_escaped 2));
    [|done|done|intros b; apply still_token; lia|stage].
  change (tx "%0D") with [37%N; 48%N; 68%N]. rewrite (unescape_stage (still_escaped 2) (still_escaped 1));
    [|done|done|intros b; apply still_token; lia|stage].
  change (tx "%25") with [37%N; 50%N; 53%N]. rewrite (unescape_stage (still_escaped 1) (still_escaped 0));
    [|done|done|intros b; apply still_token; lia|stage].
  unfold still_escaped. cbn [take]. induction t as [|b t IH]; [done|]. cbn [map concat]. rewrite decide_False by set_solver.
  cbn [app]. by rewrite IH.
Qed.

(** ** Reading a line back *)

Lemma split_at_first_skip c p pre t :
  c ∉ pre -> split_at_first (c :: p) (pre ++ t) = (fun x => (pre ++ x.1, x.2)) <$> split_at_first (c :: p) t.
Proof.
  induction pre as [|b pre IH]; intros Hc; [cbn [app]; by destruct (split_at_first _ t) as [[]|]|].
  apply not_elem_of_cons in Hc as [Hb Hc].
  cbn [app split_at_first strip_prefix]. rewrite (proj2 (N.eqb_neq c b)) by done. rewrite IH by done.
  by destruct (split_at_first _ t) as [[]|].
Qed.

Lemma split_at_first_step p b t :
  strip_prefix p (b :: t) = None -> split_at_first p (b :: t) = (fun x => (b :: x.1, x.2)) <$> split_at_first p t.
Proof. cbn [split_at_first]. intros ->. by destruct (split_at_first p t) as [[]|]. Qed.

Lemma split_at_first_here p t : split_at_first p (p ++ t) = Some ([], t).
Proof. unfold split_at_first. destruct (p ++ t) eqn:E; rewrite <- E; by rewrite strip_prefix_app. Qed.

Lemma escape_no_space t : 32%N ∉ escape t.
Proof.
  rewrite escape_chars, list_elem_of_In, in_flat_map. intros (b & _ & Hb). unfold escaped_char in Hb.
  repeat case_match; [by destruct Hb as [?|[?|[?|[]]]]..|]. destruct Hb as [->|[]]. done.
Qed.

Lemma admission_no_space a : 32%N ∉ admission_text a.
Proof.
  unfold admission_text. destruct (unbounded_reason a); [|by not_in]. apply not_elem_of_app. split; [by not_in|apply escape_no_space].
Qed.

Lemma digits_no_space v : 32%N ∉ dec v.
Proof. intros Hin. pose proof (dec_plain v) as Hp. unfold plain in Hp. rewrite forallb_forall in Hp. apply list_elem_of_In, Hp in Hin. done. Qed.

(** The line of an entry, for any text in the place of the query. *)
Definition entry_text (h : Z) (a : Admission) (sql : text) : text :=
  tx "handle=" ++ dec h ++ tx " admission=" ++ admission_text a ++ tx " sql=" ++ sql.

Lemma entry_handle_field h a sql : field (entry_text h a sql) (tx "handle=") = Some (dec h).
Proof.
  unfold field, entry_text. rewrite split_at_first_here. cbn [mbind option_bind].
  change (tx " admission=") with (32%N :: tx "admission="). by rewrite <- app_comm_cons, split_once_app by apply digits_no_space.
Qed.

Lemma entry_admission_field h a sql : field (entry_text h a sql) (tx "admission=") = Some (admission_text a).
Proof.
  assert (split_at_first (tx "admission=") (entry_text h a sql) =
    Some (tx "handle=" ++ dec h ++ [32%N], admission_text a ++ tx " sql=" ++ sql)) as E.
  { unfold entry_text. set (rest := admission_text a ++ _).
    assert (split_at_first (tx "admission=") (dec h ++ tx " admission=" ++ rest) = Some (dec h ++ [32%N], rest)) as E.
    { change (tx "admission=") with (97%N :: tx "dmission="). rewrite split_at_first_skip.
      - change (tx " admission=") with ([32%N] ++ 97%N :: tx "dmission="). rewrite <- app_assoc, split_at_first_skip by not_in.
        by rewrite split_at_first_here.
      - intros Hin. pose proof (pretty_digits (Z.to_N h)) as Hd. rewrite forallb_forall in Hd.
        apply list_elem_of_In in Hin. specialize (Hd _ Hin). done. }
    change (tx "handle=" ++ ?t) with (104%N :: 97%N :: 110%N :: 100%N :: 108%N :: 101%N :: 61%N :: t).
    do 7 rewrite split_at_first_step by reflexivity. by rewrite E. }
  unfold field. rewrite E. cbn [mbind option_bind]. change (tx " sql=") with (32%N :: tx "sql=").
  by rewrite <- app_comm_cons, split_once_app by apply admission_no_space.
Qed.

Lemma entry_sql_field h a sql : exists pre, split_at_first (tx " sql=") (entry_text h a sql) = Some (pre, sql).
Proof.
  unfold entry_text. change (tx " sql=") with (32%N :: tx "sql=").
  rewrite split_at_first_skip by not_in. rewrite split_at_first_skip by apply digits_no_space.
  change (tx " admission=" ++ ?t) with (32%N :: tx "admission=" ++ t). rewrite split_at_first_step by reflexivity.
  rewrite split_at_first_skip by not_in. rewrite split_at_first_skip by apply admission_no_space.
  rewrite split_at_first_here. by eexists.
Qed.

Lemma admission_read a :
  match strip_prefix (tx "unbounded:") (admission_text a) with
  | Some reason => with_unbounded_state (bytes_string (unescape reason))
  | None => bounded
  end = a.
Proof.
  unfold admission_text, unbounded_reason. destruct a as [[reason|]]; [|done]. cbn [unbounded_state].
  rewrite strip_prefix_app, reason_roundtrip. unfold with_unbounded_state. by rewrite bytes_string_tx.
Qed.

Lemma registry_line_entry r h a sql :
  0 <= h < 2 ^ 64 ->
  registry_line r (entry_text h a sql) = Ok (mkRegistry (bt_insert h (mkEntry h (bytes_string sql) a) (reg_entries r)) (reg_next_handle r)).
Proof.
  intros Hh. unfold registry_line.
  assert (strip_prefix (tx "next_handle=") (entry_text h a sql) = None) as -> by done.
  assert (begins_with (tx "handle=") (entry_text h a sql) = true) as -> by apply begins_with_app. cbn [negb].
  rewrite entry_handle_field. cbn [mbind option_bind]. rewrite parse_dec_dec by done. cbn [ok_or].
  rewrite entry_admission_field. cbn [ok_or]. rewrite admission_read.
  destruct (entry_sql_field h a sql) as [pre ->]. done.
Qed.

(** ** The whole file *)

(** A text starts with an ASCII character or with one of several bytes. *)
Lemma utf8_cases b0 l0 :
  utf8_valid (b0 :: l0) = true ->
  ((b0 < 128)%N /\ utf8_valid l0 = true) \/
  exists u r, b0 :: l0 = u ++ r /\ u <> [] /\ Forall (fun b => 128 <= b)%N u /\ utf8_valid u = true /\ utf8_valid r = true.
Proof.
  intros Hl. pose proof Hl as Hl'. cbn [utf8_valid] in Hl. unfold is_cont in Hl.
  destruct (N.ltb_spec b0 128); [by left|]. right.
  destruct l0 as [|b1 l1]; [done|]. destruct ((194 <=? b0) && (b0 <=? 223))%N eqn:E0;
    [exists [b0; b1], l1|destruct l1 as [|b2 l2]; [done|]; destruct ((224 <=? b0) && (b0 <=? 239))%N eqn:E1;
       [exists [b0; b1; b2], l2|destruct l2 as [|b3 l3]; [done|]; exists [b0; b1; b2; b3], l3]];
    (apply andb_true_iff in Hl as [Hl Hr]; split_and!; [done|done| | |exact Hr]).
  all: try (cbn [utf8_valid]; unfold is_cont; rewrite (proj2 (N.ltb_ge _ _)), ?E0, ?E1 by done; by rewrite ?Hl).
  all: rewrite ?andb_true_iff, ?N.leb_le in *; destruct_and?;
    repeat match goal with H : (if (?a =? ?b)%N then _ else _) = true |- _ => destruct (N.eqb_spec a b) end;
    rewrite ?N.leb_le in *; repeat (constructor; [lia|]); constructor.
Qed.

(** Replacing ASCII characters by texts leaves a text. *)
Lemma utf8_replaced (f : N -> text) t :
  (forall b, (b < 128)%N -> utf8_valid (f b) = true) -> (forall b, (128 <= b)%N -> f b = [b]) ->
  utf8_valid t = true -> utf8_valid (flat_map f t) = true.
Proof.
  intros Ha Hh. assert (forall n t, (length t <= n)%nat -> utf8_valid t = true -> utf8_valid (flat_map f t) = true) as H.
  2: { by apply (H (length t)). }
  clear t. induction n as [|n IH]; intros t Hn Ht; [by destruct t; simpl in Hn; [|lia]|].
  destruct t as [|b t]; [done|]. destruct (utf8_cases b t Ht) as [[Hb Hr]|(u & r & E & Hne & Hu & Huv & Hr)].
  - cbn [flat_map]. rewrite utf8_valid_app by by apply Ha. apply IH; [simpl in Hn; lia|done].
  - rewrite E, flat_map_app in *. assert (flat_map f u = u) as ->.
    { clear -Hu Hh. induction Hu as [|b u Hb _ IH]; [done|]. simpl. by rewrite Hh, IH. }
    rewrite utf8_valid_app by done. apply IH; [|done]. rewrite length_app in Hn. destruct u; [done|]. simpl in Hn. lia.
Qed.

Lemma escape_utf8 t : utf8_valid t = true -> utf8_valid (escape t) = true.
Proof.
  rewrite escape_chars. apply utf8_replaced; intros b Hb; unfold escaped_char.
  - repeat case_match; try done. cbn [utf8_valid]. by rewrite (proj2 (N.ltb_lt _ _)).
  - by rewrite !(proj2 (N.eqb_neq b _)) by lia.
Qed.

Lemma spaced_utf8 t : utf8_valid t = true -> utf8_valid (replace [10%N] [32%N] t) = true.
Proof.
  rewrite replace_char. apply utf8_replaced; intros b Hb.
  - case_match; [done|]. cbn [utf8_valid]. by rewrite (proj2 (N.ltb_lt _ _)).
  - by rewrite (proj2 (N.eqb_neq b _)) by lia.
Qed.

(** The query text as it is read back: a newline becomes a space, and a carriage
    return at the end is lost. *)
Definition stored_text (sql : string) : text := chop_cr (replace [10%N] [32%N] (tx sql)).
Definition stored_sql (sql : string) : string := bytes_string (stored_text sql).

Definition stored_entry (e : Entry) : Entry := mkEntry (entry_handle e) (stored_sql (entry_sql e)) (entry_admission e).

Definition valid_entry_of (p : Z * Entry) : bool :=
  (entry_handle p.2 =? p.1) && (0 <=? p.1) && (p.1 <? 2 ^ 64) && utf8_valid (tx (entry_sql p.2)) &&
  match unbounded_reason (entry_admission p.2) with Some reason => utf8_valid (tx reason) | None => true end.

Definition valid_registry (r : Registry) : Prop :=
  bt_sorted (reg_entries r) /\ forallb valid_entry_of (reg_entries r) = true /\ highest (reg_entries r) <= reg_next_handle r < 2 ^ 64.

Lemma chop_cr_app a b : b <> [] -> chop_cr (a ++ b) = a ++ chop_cr b.
Proof.
  intros Hb. unfold chop_cr. rewrite last_app. destruct (last b) as [c|] eqn:E; [|by apply last_None in E].
  destruct c as [|p]; [done|]. do 4 (destruct p as [p|p|]; try done). by rewrite removelast_app.
Qed.

Lemma chop_cr_entry h a sql : chop_cr (entry_text h a sql) = entry_text h a (chop_cr sql).
Proof.
  unfold entry_text. destruct (decide (sql = [])) as [->|Hne].
  - change (chop_cr []) with (@nil N). rewrite app_nil_r. rewrite !app_assoc, chop_cr_app by discriminate. done.
  - rewrite !app_assoc. by rewrite chop_cr_app.
Qed.

Lemma no_newline_app a b :
  forallb (fun b => negb (b =? 10)%N) (a ++ b) = forallb (fun b => negb (b =? 10)%N) a && forallb (fun b => negb (b =? 10)%N) b.
Proof. apply forallb_app. Qed.

Lemma escape_no_newline t : forallb (fun b => negb (b =? 10)%N) (escape t) = true.
Proof.
  rewrite escape_chars. induction t as [|b t IH]; [done|]. cbn [flat_map]. rewrite no_newline_app, IH, andb_true_r.
  unfold escaped_char. repeat case_match; try done. simpl. by rewrite H1.
Qed.

Lemma spaced_no_newline t : forallb (fun b => negb (b =? 10)%N) (replace [10%N] [32%N] t) = true.
Proof.
  rewrite replace_char. induction t as [|b t IH]; [done|]. cbn [flat_map]. rewrite no_newline_app, IH, andb_true_r.
  case_match; [done|]. simpl. by rewrite H.
Qed.

Lemma admission_no_newline a : forallb (fun b => negb (b =? 10)%N) (admission_text a) = true.
Proof.
  unfold admission_text. destruct (unbounded_reason a); [|done]. by rewrite no_newline_app, escape_no_newline.
Qed.

Lemma entry_no_newline e : forallb (fun b => negb (b =? 10)%N) (entry_line e) = true.
Proof.
  unfold entry_line. rewrite !no_newline_app, admission_no_newline, spaced_no_newline, (plain_no_newline (dec _)) by apply dec_plain.
  done.
Qed.

Lemma registry_lines r :
  lines (registry_body r) = tx "schweep registry v1" :: (tx "next_handle=" ++ dec (reg_next_handle r)) ::
    map (fun p => entry_text (entry_handle p.2) (entry_admission p.2) (stored_text (entry_sql p.2))) (reg_entries r).
Proof.
  unfold registry_body. rewrite lines_line by done.
  rewrite lines_line by (apply one_line_key; [done|apply one_line_plain, dec_plain]). f_equal. f_equal.
  induction (reg_entries r) as [|[h e] m IH]; [done|]. cbn [flat_map map snd].
  unfold lines at 1. rewrite lines_from_line by apply entry_no_newline. cbn [app]. rewrite IH. f_equal.
  apply chop_cr_entry.
Qed.

Lemma registry_body_utf8 r : forallb valid_entry_of (reg_entries r) = true -> utf8_valid (registry_body r) = true.
Proof.
  intros Hv. unfold registry_body. rewrite utf8_valid_app by done.
  rewrite utf8_valid_app by (apply line_utf8; rewrite utf8_valid_app by done; apply plain_utf8, dec_plain).
  induction (reg_entries r) as [|[h e] m IH]; [done|]. cbn [forallb] in Hv. apply andb_true_iff in Hv as [He Hv].
  cbn [flat_map snd]. rewrite utf8_valid_app; [by apply IH|]. apply line_utf8.
  unfold valid_entry_of in He. rewrite !andb_true_iff in He. destruct He as (((_ & _) & Hs) & Ha). cbn [snd] in *.
  unfold entry_line. rewrite utf8_valid_app by done. rewrite utf8_valid_app by apply plain_utf8, dec_plain.
  rewrite utf8_valid_app by done. rewrite utf8_valid_app; [rewrite utf8_valid_app by done; by apply spaced_utf8|].
  unfold admission_text. destruct (unbounded_reason _); [|done]. rewrite utf8_valid_app by done. by apply escape_utf8.
Qed.

Lemma registry_fold l : forall r,
  forallb valid_entry_of l = true ->
  try_fold registry_line r (map (fun p => entry_text (entry_handle p.2) (entry_admission p.2) (stored_text (entry_sql p.2))) l) =
  Ok (mkRegistry (fold_left (fun m p => bt_insert p.1 (stored_entry p.2) m) l (reg_entries r)) (reg_next_handle r)).
Proof.
  induction l as [|[h e] l IH]; intros r Hv; [by destruct r|]. cbn [forallb] in Hv. apply andb_true_iff in Hv as [He Hv].
  unfold valid_entry_of in He. rewrite !andb_true_iff, Z.eqb_eq, Z.leb_le, Z.ltb_lt in He. cbn [fst snd] in He.
  destruct He as ((((Hh & H0) & H1) & _) & _). cbn [map try_fold snd]. rewrite registry_line_entry by lia.
  rewrite IH by done. cbn [reg_entries reg_next_handle fold_left fst snd]. subst h. done.
Qed.

Lemma highest_stored (m : btree Z Entry) : highest (bt_map (fun _ e => stored_entry e) m) = highest m.
Proof. unfold highest, bt_keys, bt_map. by rewrite map_map. Qed.

(** What is stored is read back, but for the line breaks of the queries. *)
Lemma registry_round_trip r :
  valid_registry r ->
  registry_decode (registry_encode r) = Ok (mkRegistry (bt_map (fun _ e => stored_entry e) (reg_entries r)) (reg_next_handle r)).
Proof.
  intros (Hs & Hv & Hn). pose proof (registry_body_utf8 r Hv) as Hu. pose proof (crc32_text _ Hu) as Hc.
  unfold registry_decode, registry_encode.
  rewrite utf8_valid_app, utf8_key by (done || apply line_utf8, plain_utf8, hex_digits_plain). cbn [negb].
  assert (ends_with [10%N] (registry_body r ++ tx "crc=" ++ line (hex8 (crc32 (registry_body r)))) = true) as ->.
  { unfold line. rewrite !app_assoc. apply ends_with_app. }
  cbn [negb]. destruct (checksum_parts (tx "crc") (registry_body r) (crc32 (registry_body r))) as [Hr Hx]; [not_in|done|].
  change (tx "crc=") with (tx "crc" ++ [61%N]). rewrite Hr. cbn [ok_or]. rewrite Hx. cbn [ok_or]. rewrite Z.eqb_refl. cbn [negb].
  rewrite registry_lines. cbn [try_fold].
  change (registry_line registry_default (tx "schweep registry v1")) with (Ok (E := ServerError) registry_default). cbn iota beta.
  assert (registry_line registry_default (tx "next_handle=" ++ dec (reg_next_handle r)) = Ok (mkRegistry bt_empty (reg_next_handle r))) as ->.
  { unfold registry_line. rewrite strip_prefix_app, trim_plain by apply dec_plain.
    rewrite parse_dec_dec; [done|]. split; [|lia]. transitivity (highest (reg_entries r)); [|lia].
    unfold highest. induction (bt_keys (reg_entries r)); simpl; lia. }
  cbn iota beta. rewrite registry_fold by done. cbn [reg_entries reg_next_handle].
  rewrite (bt_collect (fun _ e => stored_entry e)) by done. rewrite highest_stored. f_equal. f_equal. lia.
Qed.

(** A query on one line is stored as it is. *)
Lemma stored_one_line sql : one_line (tx sql) = true -> stored_sql sql = sql.
Proof.
  intros [Hl Hc]%andb_true_iff. unfold stored_sql, stored_text.
  assert (replace [10%N] [32%N] (tx sql) = tx sql) as ->.
  { rewrite replace_char. clear Hc. induction (tx sql) as [|b t IH]; [done|]. cbn [forallb flat_map] in *.
    apply andb_true_iff in Hl as [Hb Hl]. apply negb_true_iff in Hb. by rewrite Hb, IH. }
  assert (chop_cr (tx sql) = tx sql) as ->; [|by rewrite bytes_string_tx].
  unfold chop_cr. destruct (last (tx sql)) as [[|p]|]; [done| |done]. do 4 (destruct p as [p|p|]; try done).
Qed.

(** ** A query with a comment *)

Definition commented_sql : string :=
  ("SELECT t.n AS n FROM t -- every row" +:+ String (Ascii.ascii_of_nat 10) "WHERE t.n > 1")%string.

(** The registry file changes queries.  A newline in a query is written as a
    space.  In a query with a line comment the comment then runs to the end: what
    is read back after a restart is the query without its WHERE clause, and the
    registry accepts it. *)
Theorem registry_swallows_clauses :
  registry_decode (registry_encode (mkRegistry [(0, mkEntry 0 commented_sql bounded)] 1)) =
  Ok (mkRegistry [(0, mkEntry 0 "SELECT t.n AS n FROM t -- every row WHERE t.n > 1" bounded)] 1).
Proof. vm_compute. reflexivity. Qed.
