(* ===== verification/Server.v ===== *)
(** * The server's engine ([schweep-server], engine.rs)

    The composition of the log, the registry of standing queries, checkpoints,
    snapshots and subscriptions, over what is on disk.

    Its later part: what the server's operations do. *)

From Stdlib Require Import ZArith NArith Lia.
From stdpp Require Import base list strings pretty.
From S2P Require Import Prelude BTree ZAlg Value ZSet Plan Bind Codec State Operator ResultStore Circuit Dataflow Engine Compile Text LogRecord Log LogCorrect PlanForm MemoGraph Memo MemoAttach MemoShare MemoCorrect MemoLaws Snapshot SnapshotCorrect Compaction CompactionCorrect CompactionLaws Checkpoint ServerParts.

(** The texts of errors, which the [thiserror] derive generates. *)
Class ErrorText := { server_error_text : ServerError -> string; memo_error_text : MemoError -> string }.

(** What [sqlparser] and the translation of its tree make of a query's text. *)
Class SqlText := sql_query : string -> result SqlError Query.

Definition SUBSCRIPTION_RING : nat := 256.
Definition SUBSCRIPTION_RING_BYTES : Z := 8 * 1024 * 1024.

Record EpochDelta := mkEpochDelta { delta_epoch : Z; rendered : text }.

Record RetractionReceipt := mkReceipt {
  sealed_epoch : option Z;
  receipt_tables : nat;
  receipt_rows : nat;
  multiplicity : Z
}.

Record Standing := mkStanding {
  st_entry : Entry;
  st_handle : Z;
  ring : list EpochDelta;
  ring_bytes : Z;
  oldest : Z;
  last_answer : text;
  quarantined : option string
}.

Record Drained := mkDrained { drained_epoch : Z; pending_appends : nat; drained_registrations : nat }.

(** What a server keeps on disk: the log's directory, the checkpoints and the
    registry file.  The state store is deleted before it is opened. *)
Record ServerDisk := mkServerDisk { sd_log : Disk; sd_ckpt : CkptRoot; sd_registry : option (list N) }.

Definition empty_server_disk : ServerDisk := mkServerDisk (mkDisk bt_empty None bt_empty) empty_root None.

(** ** Rendering ([Canonical::render], [Display for Row]) *)

Section render.
Context `{Debug}.

Definition row_to_string (r : Row) : string := ("(" +:+ String.concat ", " (map value_to_string r) +:+ ")")%string.

Definition render (c : Canonical) : text :=
  line (tx (schema_to_string (canonical_schema c))) ++
  flat_map (fun e => line (tx (row_to_string e.1 +:+ " => " +:+ pretty e.2)%string)) (canonical_entries c).
End render.

(** ** The difference of two answers *)

Definition delta_lines (previous current : text) : list text :=
  let old := lines previous in
  let new := lines current in
  map (fun l => tx "+ " ++ l) (base.filter (fun l => l ∉ old) new) ++
  map (fun l => tx "- " ++ l) (base.filter (fun l => l ∉ new) old).

Definition delta_between (previous current : text) : text :=
  match delta_lines previous current with [] => line (tx "(no change)") | ls => flat_map line ls end.

(** Dropping from the ring while it is over one of its bounds. *)
Fixpoint trim_ring (ring : list EpochDelta) (bytes oldest : Z) : list EpochDelta * Z * Z :=
  match ring with
  | dropped :: ring' =>
      if (SUBSCRIPTION_RING <? length ring)%nat || ((1 <? length ring)%nat && (SUBSCRIPTION_RING_BYTES <? bytes)) then
        trim_ring ring' (Z.max 0 (bytes - Z.of_nat (length (rendered dropped)))) (oldest + 1)
      else (ring, bytes, oldest)
  | [] => ([], bytes, oldest)
  end.

Definition push_delta (s : Standing) (epoch : Z) (answer : text) : Standing :=
  let rendered := delta_between (last_answer s) answer in
  let '(ring, bytes, oldest) :=
    trim_ring (ring s ++ [mkEpochDelta epoch rendered]) (ring_bytes s + Z.of_nat (length rendered)) (oldest s) in
  mkStanding (st_entry s) (st_handle s) ring bytes oldest answer (quarantined s).

(** ** The wire's batch ([encode_batch], server.rs) *)

Definition encode_batch (table token : string) (es : Entries) : list N :=
  frame (record_encode (RAppend "wire" token table es)).

(** [format!("{identity:016x}")] *)
Definition retract_token (source : string) (target : Z) (table : string) (identity : Z) : string :=
  ("retract:" +:+ source +:+ ":" +:+ pretty target +:+ ":" +:+ table +:+ ":" +:+ bytes_string (hex16 identity))%string.

(** [map_while] of an iterator of results that keeps the first error. *)
Fixpoint until_error {A E} (l : list (result E A)) : list A * option E :=
  match l with
  | [] => ([], None)
  | Ok x :: l' => let '(xs, failure) := until_error l' in (x :: xs, failure)
  | Err e :: _ => ([], Some e)
  end.

(** The record batches a stream still has to read, and so a bound on its items. *)
Definition batches_of `{Parquet} (files : SnapshotDir) (d : TableDescriptor) : nat :=
  match bt_get (descriptor_path d) files with
  | Some bytes => match parquet_read 1024 bytes with Some items => length items | None => 0 end
  | None => 0
  end.

Definition chunks_left `{Parquet} (files : SnapshotDir) (c : SnapshotChunks) : nat :=
  (match current c with Some cur => length (reader cur) | None => 0 end + sum_list (map (batches_of files) (pending_tables c)))%nat.

(** [schweep_sql::compile]; the bound query the parser returns is the one
    [incrementalize_typed] binds. *)
Definition compile `{SqlText} (sql : string) (catalog : Catalog) : result SqlError CircuitPlan :=
  let? q := sql_query sql in incrementalize_typed q catalog.

(** [RedbFactory::new] on the deleted state directory. *)
Class FreshFactory (F : Type) := fresh_factory : F.

Section engine.
Context {F B : Type} `{StateBackend B} `{BackendFactory F B} `{Debug} `{Parquet} `{ErrorText} `{SqlText} `{!FreshFactory F}.

Record Engine := mkEngine {
  e_catalog : Catalog;
  e_log : Log;
  e_memo : Memo F B;
  e_gate : Gate;
  e_standing : btree Z Standing;
  e_registry : Registry;
  e_checkpoint_every : Z
}.
Implicit Type (e : Engine) (sd : ServerDisk).

Definition with_memo (m : Memo F B) e : Engine :=
  mkEngine (e_catalog e) (e_log e) m (e_gate e) (e_standing e) (e_registry e) (e_checkpoint_every e).
Definition with_log (log : Log) e : Engine :=
  mkEngine (e_catalog e) log (e_memo e) (e_gate e) (e_standing e) (e_registry e) (e_checkpoint_every e).
Definition with_gate (g : Gate) e : Engine :=
  mkEngine (e_catalog e) (e_log e) (e_memo e) g (e_standing e) (e_registry e) (e_checkpoint_every e).
Definition with_standing (st : btree Z Standing) e : Engine :=
  mkEngine (e_catalog e) (e_log e) (e_memo e) (e_gate e) st (e_registry e) (e_checkpoint_every e).
Definition with_registry (r : Registry) e : Engine :=
  mkEngine (e_catalog e) (e_log e) (e_memo e) (e_gate e) (e_standing e) r (e_checkpoint_every e).
Definition with_sd_log (d : Disk) sd : ServerDisk := mkServerDisk d (sd_ckpt sd) (sd_registry sd).
Definition with_ckpt (c : CkptRoot) sd : ServerDisk := mkServerDisk (sd_log sd) c (sd_registry sd).

Definition epoch_deltas (log : Log) (d : Disk) (epoch : Z) : result ServerError EpochDeltas :=
  let? batches := map_err SrvLog (log_epoch log d epoch) in Ok (epoch_delta batches).

(** The epochs the log holds. *)
Definition retained_epochs (log : Log) : list Z := epochs_after (retained_from log) (log_sealed_epoch log).

Fixpoint replay_loop (log : Log) (d : Disk) (m : Memo F B) (epochs : list Z) : Memo F B * result ServerError unit :=
  match epochs with
  | [] => (m, Ok tt)
  | epoch :: epochs' =>
      match epoch_deltas log d epoch with
      | Err x => (m, Err x)
      | Ok deltas =>
          match seal_epoch m deltas with
          | (m, Err x) => (m, Err (SrvMemo x))
          | (m, Ok _) => replay_loop log d m epochs'
          end
      end
  end.

Definition replay e sd : Engine * result ServerError unit :=
  let '(m, r) := replay_loop (e_log e) (sd_log sd) (e_memo e) (retained_epochs (e_log e)) in (with_memo m e, r).

(** The chunks a registration is caught up from: the snapshot's, then the log's. *)
Definition catch_up_chunks (log : Log) (d : Disk) (catalog : Catalog) : result ServerError (list EpochDeltas * option ServerError) :=
  let? snapshot_chunks :=
    match live_files log d with
    | None => Ok []
    | Some files =>
        let? c := map_err SrvBatch (chunks files catalog) in
        Ok (map (map_err SrvBatch) (chunks_collect (S (S (chunks_left files c))) files c))
    end in
  Ok (until_error (snapshot_chunks ++ map (epoch_deltas log d) (retained_epochs log))).

Definition render_answer (m : Memo F B) (handle : Z) : text :=
  match read m handle with
  | Ok (_, answer) => render answer
  | Err x => line (tx ("ERROR: " +:+ memo_error_text x)%string)
  end.

Definition live_standing (entry : Entry) (handle at_epoch : Z) (answer : text) : Standing :=
  mkStanding entry handle [] 0 at_epoch answer None.

Definition install e sd (entry : Entry) : Engine * result ServerError unit :=
  match map_err SrvSql (compile (entry_sql entry) (e_catalog e)) with
  | Err x => (e, Err x)
  | Ok plan =>
      match catch_up_chunks (e_log e) (sd_log sd) (e_catalog e) with
      | Err x => (e, Err x)
      | Ok (chunks, failure) =>
          match register_from_chunks (e_memo e) plan (entry_admission entry) chunks with
          | (m, Err x) => (with_memo m e, Err (SrvMemo x))
          | (m, Ok handle) =>
              match failure with
              | Some x =>
                  match deregister m handle with
                  | (m, Err x') => (with_memo m e, Err (SrvMemo x'))
                  | (m, Ok _) => (with_memo m e, Err x)
                  end
              | None =>
                  let s := live_standing entry handle (log_sealed_epoch (e_log e)) (render_answer m handle) in
                  (with_standing (bt_insert (entry_handle entry) s (e_standing e)) (with_memo m e), Ok tt)
              end
          end
      end
  end.

Definition quarantine (entry : Entry) (x : ServerError) : Standing :=
  mkStanding entry unregistered [] 0 0 [] (Some (server_error_text x)).

Fixpoint rebuild_registrations e sd (entries : list Entry) : Engine :=
  match entries with
  | [] => e
  | entry :: entries' =>
      match install e sd entry with
      | (e, Ok _) => rebuild_registrations e sd entries'
      | (e, Err x) =>
          rebuild_registrations (with_standing (bt_insert (entry_handle entry) (quarantine entry x) (e_standing e)) e) sd entries'
      end
  end.

Definition Out (A : Type) : Type := ServerDisk * Engine * result ServerError A.

(** ** Opening *)

(** The first part of [open]: the log, the checkpoints' partials, an empty memo
    at the log's anchor and the registry; no registration is rebuilt yet. *)
Definition open_parts sd (catalog : Catalog) (policy : Policy) (sync : SyncPolicy) (checkpoint_every : Z)
    : ServerDisk * result ServerError Engine :=
  match log_open (sd_log sd) catalog inert sync with
  | (_, Err x) => (sd, Err (SrvLog x))
  | (_, Ok log) =>
      let '(root, loaded) := ckpt_load (sd_ckpt sd) in
      let sd := with_ckpt root sd in
      match loaded with
      | Err x => (sd, Err (SrvCircuit x))
      | Ok _ =>
          match memo_set_epoch (without_input_cache catalog SharingOn fresh_factory) (retained_from log) with
          | (_, Err x) => (sd, Err (SrvMemo x))
          | (memo, Ok _) =>
              match registry_load (sd_registry sd) with
              | Err x => (sd, Err x)
              | Ok registry => (sd, Ok (mkEngine catalog log memo (gate_new policy) bt_empty registry checkpoint_every))
              end
          end
      end
  end.

Definition engine_open sd (catalog : Catalog) (policy : Policy) (sync : SyncPolicy) (checkpoint_every : Z)
    : ServerDisk * result ServerError Engine :=
  match open_parts sd catalog policy sync checkpoint_every with
  | (sd, Err x) => (sd, Err x)
  | (sd, Ok e) =>
      match replay e sd with
      | (_, Err x) => (sd, Err x)
      | (e, Ok _) => (sd, Ok (rebuild_registrations e sd (map snd (reg_entries (e_registry e)))))
      end
  end.

(** ** Checkpoints *)

Definition engine_checkpoint e sd : Out unit :=
  let '(_, root, r) := take_checkpoint (sd_ckpt sd) (dataflow (e_memo e)) inert in
  (with_ckpt root sd, e, map_err SrvCircuit r).

(** ** Appending and sealing *)

Definition refused_by (source : string) (v : Verdict) : option ServerError :=
  match v with
  | Overloaded depth bound => Some (SrvOverloaded source depth bound)
  | OverloadedBytes queued batch bound => Some (SrvOverloadedBytes source queued batch bound)
  | TooLarge batch bound => Some (SrvBatchTooLarge batch bound)
  | Admit => None
  end.

Definition engine_ingest e sd (source table token : string) (entries : Entries) : Out Ack :=
  let batch_bytes := Z.of_nat (length (encode_batch table token entries)) in
  let '(gate, verdict) := check (e_gate e) source batch_bytes in
  let e := with_gate gate e in
  match refused_by source verdict with
  | Some x => (sd, e, Err x)
  | None =>
      let '(_, d, log, r) := log_append (e_log e) (sd_log sd) inert (mkLogBatch source token table entries) in
      let sd := with_sd_log d sd in
      let e := with_log log e in
      match r with
      | Err x => (sd, e, Err (SrvLog x))
      | Ok Appended => (sd, with_gate (admitted (e_gate e) source batch_bytes) e, Ok Appended)
      | Ok ack => (sd, e, Ok ack)
      end
  end.

(** Every live query's delta for the epoch just sealed. *)
Definition advance_standing (m : Memo F B) (epoch : Z) (st : btree Z Standing) : btree Z Standing :=
  bt_map (fun _ s => match quarantined s with
                     | None => push_delta s epoch (render_answer m (st_handle s))
                     | Some _ => s
                     end) st.

Definition engine_seal e sd : Out Z :=
  let batches := log_pending (e_log e) in
  let '(_, d, log, r) := log_seal (e_log e) (sd_log sd) inert in
  let sd := with_sd_log d sd in
  let e := with_log log e in
  match r with
  | Err x => (sd, e, Err (SrvLog x))
  | Ok epoch =>
      match seal_epoch (e_memo e) (epoch_delta batches) with
      | (m, Err x) => (sd, with_memo m e, Err (SrvMemo x))
      | (m, Ok _) =>
          let e := with_gate (gate_sealed (e_gate e)) (with_memo m e) in
          let e := with_standing (advance_standing m epoch (e_standing e)) e in
          if (0 <? e_checkpoint_every e) && (epoch mod e_checkpoint_every e =? 0) then
            let '(sd, e, r) := engine_checkpoint e sd in
            (sd, e, match r with Err x => Err x | Ok _ => Ok epoch end)
          else (sd, e, Ok epoch)
      end
  end.

Fixpoint transaction e sd (source : string) (batches : list (string * string * Entries)) : Out Z :=
  match batches with
  | [] => engine_seal e sd
  | (table, token, entries) :: batches' =>
      match engine_ingest e sd source table token entries with
      | (sd, e, Err x) => (sd, e, Err x)
      | (sd, e, Ok _) => transaction e sd source batches'
      end
  end.

(** ** Retracting a source *)

(** A row the predicate selects, with its weight negated. *)
Definition retract_row (predicate : option (Expr * Schema)) (selected : Entries) (entry : Row * Z) : result ServerError Entries :=
  let? matches :=
    match predicate with
    | None => Ok true
    | Some (expression, scope) => map_err (fun x => SrvSql (SqlPlan x)) (is_true expression entry.1 scope)
    end in
  if matches then
    let? negative := ok_or (checked_neg entry.2) (SrvBatch (BatchZSet (WeightOverflow "negating a source contribution"))) in
    Ok (selected ++ [(entry.1, negative)])
  else Ok selected.

(** The batch that takes one table's selected contribution back, if it has any. *)
Definition retract_table (predicate : option (Expr * Schema)) (source : string) (target : Z) (candidate : string) (integral : ZSetBatch)
    : result ServerError (list (string * string * Entries)) :=
  let? es := map_err (fun x => SrvBatch (BatchZSet x)) (entries integral) in
  let? selected := try_fold (retract_row predicate) [] es in
  match selected with
  | [] => Ok []
  | _ => Ok [(candidate, retract_token source target candidate (content_hash (RAppend source "" candidate selected)), selected)]
  end.

Definition retract_batches (predicate : option (Expr * Schema)) (source : string) (target : Z) (table : option string) (contributions : Integrals)
    : result ServerError (list (string * string * Entries)) :=
  try_fold (fun batches p =>
    if match table with Some selected => negb (bool_decide (selected = p.1)) | None => false end then Ok batches
    else let? more := retract_table predicate source target p.1 p.2 in Ok (batches ++ more)) [] contributions.

(** [quote] doubles a quotation mark. *)
Definition quote (name : string) : string :=
  bytes_string ([34%N] ++ replace [34%N] [34%N; 34%N] (tx name) ++ [34%N]).

Definition bind_where_predicate (table predicate : string) (catalog : Catalog) : result SqlError (Expr * Schema) :=
  let? schema := ok_or (bt_get table catalog) (SqlPlan (UnknownTable table)) in
  let? field := ok_or (head (fields schema))
    (Parse ("table " +:+ debug_str table +:+ " has no columns, so a predicate cannot be bound")%string) in
  let sql := ("SELECT " +:+ quote table +:+ "." +:+ quote (field_name field) +:+ " AS __source_retraction_probe FROM " +:+
              quote table +:+ " WHERE " +:+ predicate)%string in
  let? q := sql_query sql in
  let? b := map_err SqlPlan (bind q catalog) in
  let? expression := ok_or (Plan.filter_ q) (Parse "source-retraction predicate produced no WHERE expression") in
  Ok (expression, input_schema b).

(** The rows and the weight the retractions of a source carry. *)
Definition retracted_rows (l : list (string * Entries)) : nat := sum_list (map (fun p => length p.2) l).
Definition retracted_weight (l : list (string * Entries)) : Z :=
  foldr Z.add 0 (map (fun p => foldr Z.add 0 (map (fun en => Z.abs en.2) p.2)) l).

Definition receipt_of (sealed_at : Z) (l : list (string * Entries)) : RetractionReceipt :=
  mkReceipt (Some sealed_at) (length (remove_dups (map fst l))) (retracted_rows l) (retracted_weight l).

Definition retract_source e sd (source : string) (table predicate : option string) : Out RetractionReceipt :=
  let prepared :=
    let? _ := if bool_decide (is_Some predicate) && bool_decide (table = None)
              then Err (SrvSql (Parse "a source-retraction predicate requires a table")) else Ok tt in
    let? _ := match table with
              | Some t => if bt_contains t (e_catalog e) then Ok tt else Err (SrvLog (LogUnknownTable t))
              | None => Ok tt
              end in
    let? bound := match table, predicate with
                  | Some t, Some p =>
                      if bool_decide (trim (tx p) = []) then Ok None
                      else let? b := map_err SrvSql (bind_where_predicate t p (e_catalog e)) in Ok (Some b)
                  | _, _ => Ok None
                  end in
    let? contributions := map_err SrvBatch (source_integral (e_log e) (sd_log sd) (e_catalog e) source) in
    retract_batches bound source (log_sealed_epoch (e_log e) + 1) table contributions in
  let prefix := ("retract:" +:+ source +:+ ":")%string in
  let pending_retractions :=
    map (fun b => (batch_table b, batch_rows b))
      (base.filter (fun b => source_id b = source /\ begins_with (tx prefix) (tx (dedup_token b)) = true) (log_pending (e_log e))) in
  match prepared with
  | Err x => (sd, e, Err x)
  | Ok [] =>
      match pending_retractions with
      | [] => (sd, e, Ok (mkReceipt None 0 0 0))
      | _ =>
          match engine_seal e sd with
          | (sd, e, Err x) => (sd, e, Err x)
          | (sd, e, Ok epoch) => (sd, e, Ok (receipt_of epoch pending_retractions))
          end
      end
  | Ok batches =>
      match transaction e sd source batches with
      | (sd, e, Err x) => (sd, e, Err x)
      | (sd, e, Ok epoch) => (sd, e, Ok (receipt_of epoch (pending_retractions ++ map (fun p => (p.1.1, p.2)) batches)))
      end
  end.

(** ** Standing queries *)

(** [Registry::store]: a temporary file renamed over the registry's. *)
Definition registry_store (r : Registry) sd : ServerDisk := mkServerDisk (sd_log sd) (sd_ckpt sd) (Some (registry_encode r)).

Definition engine_register e sd (sql : string) (admission : Admission) : Out Z :=
  match map_err SrvSql (compile sql (e_catalog e)) with
  | Err x => (sd, e, Err x)
  | Ok _ =>
      let id := reg_next_handle (e_registry e) in
      let entry := mkEntry id sql admission in
      match install e sd entry with
      | (e, Err x) => (sd, e, Err x)
      | (e, Ok _) =>
          let r := mkRegistry (bt_insert id entry (reg_entries (e_registry e))) (id + 1) in
          (registry_store r sd, with_registry r e, Ok id)
      end
  end.

Definition engine_deregister e sd (id : Z) : Out unit :=
  match bt_get id (e_standing e) with
  | None => (sd, e, Err (SrvUnknownHandle id))
  | Some s =>
      let e := with_standing (bt_remove id (e_standing e)) e in
      let '(m, r) := match quarantined s with
                     | None => deregister (e_memo e) (st_handle s)
                     | Some _ => (e_memo e, Ok tt)
                     end in
      let e := with_memo m e in
      match r with
      | Err x => (sd, e, Err (SrvMemo x))
      | Ok _ =>
          let r := mkRegistry (bt_remove id (reg_entries (e_registry e))) (reg_next_handle (e_registry e)) in
          (registry_store r sd, with_registry r e, Ok tt)
      end
  end.

Definition live e (id : Z) : result ServerError Standing :=
  let? s := ok_or (bt_get id (e_standing e)) (SrvUnknownHandle id) in
  match quarantined s with Some reason => Err (SrvQuarantined id reason) | None => Ok s end.

Definition engine_read e (id : Z) : result ServerError (Z * text) :=
  let? s := live e id in
  let? '(epoch, answer) := map_err SrvMemo (read (e_memo e) (st_handle s)) in
  Ok (epoch, render answer).

Definition read_frames e (id : Z) : result ServerError (list N) :=
  let? s := live e id in
  let? '(epoch, answer) := map_err SrvMemo (read (e_memo e) (st_handle s)) in
  Ok (frame (record_encode (RAppend "answer" (pretty epoch) (schema_to_string (canonical_schema answer)) (canonical_entries answer)))).

Definition subscribe e (id from : Z) : result ServerError (Z * list EpochDelta) :=
  let? s := live e id in
  if from <? oldest s then Err (SrvTokenTooOld id from (oldest s))
  else
    let deltas := base.filter (fun dl => from < delta_epoch dl) (ring s) in
    Ok (match last deltas with Some dl => delta_epoch dl | None => from end, deltas).

Definition oneshot e sd (sql : string) : result ServerError text :=
  let? q := map_err SrvSql (sql_query sql) in
  let? _ := map_err (fun x => SrvSql (SqlPlan x)) (bind q (e_catalog e)) in
  let? answer := map_err SrvBatch (answer_over_log (e_log e) (sd_log sd) (e_catalog e) q) in
  Ok (render answer).

Definition engine_plan_of e (id : Z) : result ServerError text :=
  let? s := ok_or (bt_get id (e_standing e)) (SrvUnknownHandle id) in
  let? reg := ok_or (bt_get (st_handle s) (registrations (e_memo e))) (SrvUnknownHandle id) in
  Ok (tx "hash " ++ hex16 (structural_hash (root (reg_plan reg))) ++ [10%N] ++ tx (structural_form (root (reg_plan reg)))).

(** ** Compaction and shutdown *)

Definition engine_compact e sd : Out Compacted :=
  match engine_checkpoint e sd with
  | (sd, e, Err x) => (sd, e, Err x)
  | (sd, e, Ok _) =>
      let anchor := log_sealed_epoch (e_log e) in
      match accumulated_upto (e_log e) (sd_log sd) (e_catalog e) anchor with
      | Err x => (sd, e, Err (SrvBatch x))
      | Ok integrals =>
          let '(_, d, log, r) := Compaction.compact (e_log e) (sd_log sd) anchor integrals inert in
          (with_sd_log d sd, with_log log e, map_err SrvBatch r)
      end
  end.

Definition pending_count e : nat := length (log_pending (e_log e)).

Definition shutdown e sd : Out Drained :=
  match engine_checkpoint e sd with
  | (sd, e, Err x) => (sd, e, Err x)
  | (sd, e, Ok _) => (sd, e, Ok (mkDrained (log_sealed_epoch (e_log e)) (pending_count e) (length (e_standing e))))
  end.
End engine.

(** * What the server's operations do

    The chunks a registration is caught up from, the replay into an empty memo,
    and the invariant that ties an engine and its disk to an abstract server: a
    log that is never compacted and the registered queries. *)

(** ** Streams *)

Lemma until_error_ok {A E} (l : list A) : until_error (E := E) (map Ok l) = (l, None).
Proof. induction l as [|x l IH]; [done|]. cbn [map until_error]. by rewrite IH. Qed.

Section stream.
Context `{Parquet}.

(** Every item but an error takes a record batch. *)
Lemma chunks_loop_left fuel files : forall c c' x,
  chunks_loop fuel files c = (c', Some x) ->
  chunks_failed c' = true \/ (chunks_left files c' < chunks_left files c)%nat.
Proof.
  induction fuel as [|fuel IH]; intros c c' x; [done|]. cbn [chunks_loop].
  destruct (current c) as [[d rd seen]|] eqn:Ec; cbn [reader descriptor current_rows].
  - destruct rd as [|b rest].
    + destruct (negb _); [intros [= <- <-]; by left|]. intros Hl. apply IH in Hl as [Hl|Hl]; [by left|right].
      unfold chunks_left in *. rewrite Ec. cbn [current pending_tables reader length] in *. lia.
    + unfold next_batch. destruct (ok_or b BatchArrow) as [batch|]; [|intros [= <- <-]; by left].
      destruct (decode_batch _ _) as [rows|]; [|intros [= <- <-]; by left]. cbn zeta.
      destruct (_ <? _)%nat; intros [= <- <-]; [by left|right].
      unfold chunks_left. rewrite Ec. cbn [current pending_tables reader length]. lia.
  - destruct (pending_tables c) as [|d pending] eqn:Ep; [done|]. cbn zeta.
    destruct (bt_get (descriptor_path d) files) as [bytes|] eqn:Eb; [|intros [= <- <-]; by left].
    destruct (parquet_read 1024 bytes) as [items|] eqn:Er; [|intros [= <- <-]; by left].
    intros Hl. apply IH in Hl as [Hl|Hl]; [by left|right].
    unfold chunks_left in *. rewrite Ec, Ep. cbn [current pending_tables reader map sum_list] in *.
    assert (batches_of files d = length items) as Hb by (unfold batches_of; by rewrite Eb, Er).
    change (sum_list (batches_of files d :: ?l)) with (batches_of files d + sum_list l)%nat. rewrite Hb. cbn [id]. lia.
Qed.

Lemma chunks_collect_length fuel files : forall c, (length (chunks_collect fuel files c) <= S (chunks_left files c))%nat.
Proof.
  induction fuel as [|fuel IH]; intros c; cbn [chunks_collect]; [simpl; lia|].
  destruct (chunks_next files c) as [c' [x|]] eqn:En; [|simpl; lia]. unfold chunks_next in En.
  destruct (chunks_failed c); [done|]. apply chunks_loop_left in En as [Hf|Hlt].
  - assert (chunks_collect fuel files c' = []) as ->; [|simpl; lia].
    destruct fuel; [done|]. cbn [chunks_collect]. unfold chunks_next. by rewrite Hf.
  - cbn [length]. specialize (IH c'). lia.
Qed.

(** A stream that ends is read to its end within the computed bound. *)
Lemma chunks_collect_all files c ds :
  (forall fuel, (length ds < fuel)%nat -> chunks_collect fuel files c = map Ok ds) ->
  chunks_collect (S (S (chunks_left files c))) files c = map Ok ds.
Proof.
  intros Hall. apply Hall. pose proof (chunks_collect_length (S (length ds)) files c) as Hl.
  rewrite Hall, length_map in Hl by lia. lia.
Qed.
End stream.

(** ** Catching up from disk *)

Section catch_up.
Context `{P : Parquet, !ParquetLaws P} (policy : SyncPolicy) (catalog : Catalog).
Context (k : Z) (hist : list (list Batch)) (a : ALog) (d : Disk) (log : Log).
Context (Hcat : catalog_ok catalog) (Hdb : db_inv policy catalog k hist a d log).

Lemma retained_epochs_deltas :
  map (epoch_deltas log d) (retained_epochs log) = map Ok (map epoch_delta (drop (Z.to_nat (a_from a)) hist)).
Proof.
  pose proof (db_from _ _ _ _ _ _ _ Hdb) as Hf. unfold retained_epochs, epochs_after.
  rewrite (db_retained _ _ _ _ _ _ _ Hdb), (db_log_sealed _ _ _ _ _ _ _ Hdb).
  apply list_eq. intros i. rewrite !map_map.
  repeat change (map ?f ?l) with (f <$> l). rewrite !list_lookup_fmap, lookup_drop.
  destruct (decide (i < length hist - Z.to_nat (a_from a))%nat) as [Hi|Hi].
  - rewrite lookup_seq_lt by lia. simpl. destruct (db_epoch _ _ _ _ _ _ _ Hdb (a_from a + 1 + Z.of_nat i)) as (bs & Hb & He); [lia|].
    replace (Z.to_nat (a_from a + 1 + Z.of_nat i - 1)) with (Z.to_nat (a_from a) + i)%nat in Hb by lia.
    rewrite Hb. simpl. unfold epoch_deltas. by rewrite He.
  - rewrite lookup_seq_ge by lia. rewrite lookup_ge_None_2 by lia. done.
Qed.

(** The chunks are the whole history, none of them an error. *)
Lemma catch_up_history :
  exists chunks, catch_up_chunks log d catalog = Ok (chunks, None) /\
    forall t, accumulate chunks t ≡z entries_of t (concat hist).
Proof.
  pose proof (db_snapshot _ _ _ _ _ _ _ Hdb) as Hs. unfold catch_up_chunks, live_files.
  assert (concat hist = upto (a_from a) hist ++ concat (drop (Z.to_nat (a_from a)) hist)) as Hsplit.
  { unfold upto. by rewrite <- concat_app, take_drop. }
  destruct (log_snapshot log) as [name|]; cbn [mbind option_bind].
  - destruct Hs as (_ & files & -> & [_ _ (c & ds & Hc & Hcol & Ht)]). cbn [from_option id].
    rewrite Hc. cbn [map_err]. rewrite (chunks_collect_all _ _ _ Hcol), map_map, retained_epochs_deltas.
    change (map (fun x => map_err SrvBatch (Ok x)) ds) with (map (fun x : EpochDeltas => Ok (E := ServerError) x) ds).
    rewrite <- map_app, until_error_ok. eexists. split; [done|]. intros t. unfold accumulate.
    rewrite flat_map_app, Ht. fold (accumulate (map epoch_delta (drop (Z.to_nat (a_from a)) hist)) t).
    rewrite accumulate_epochs, Hsplit, entries_of_app. f_equiv. rewrite contents_get.
    case_decide as He; simpl; [apply zcanon_spec|]. by rewrite entries_of_absent.
  - rewrite retained_epochs_deltas. cbn [app]. rewrite until_error_ok. eexists. split; [done|]. intros t.
    rewrite accumulate_epochs, Hs. by rewrite drop_0.
Qed.
End catch_up.

(** ** A memo that holds nothing *)

Section blank.
Context {F B : Type} `{FactoryLaws F B} `{Debug}.

(** An empty memo at epoch [e], as [open] builds it. *)
Definition blank_memo (catalog : Catalog) (f : F) (e : Z) : Memo F B :=
  with_dataflow (assign_epoch e circuit_empty) (memo_build catalog SharingOn f false).

(** With no query to answer, any tables are the ones it has sealed. *)
Definition nothing_over (ds : list EpochDeltas) (e : Z) : MemoCorrect.Standing := MemoCorrect.mkStanding bt_empty ds e 0.

Lemma blank_inv U catalog f e ds : 0 <= e -> memo_inv U (blank_memo catalog f e) (nothing_over ds e).
Proof.
  intros He. exists []. split; try done.
  - split; [|done|by intros s Hs; apply elem_of_nil in Hs]. split; try done.
    + constructor.
    + intros i [n Hn]. by destruct i.
  - split; [constructor|done|]. intros _ i n Hn. by destruct i.
  - split; constructor.
Qed.

Lemma blank_seal catalog f e d :
  0 <= e -> e + 1 < 2 ^ 64 -> seal_epoch (blank_memo catalog f e) d = (blank_memo catalog f (e + 1), Ok (e + 1)).
Proof.
  intros He Hlt. unfold seal_epoch, memo_step, step. cbn. unfold as_u64. rewrite Z.mod_small by lia. done.
Qed.

Lemma blank_replay log d catalog f : forall ds epochs e,
  map (epoch_deltas log d) epochs = map Ok ds -> 0 <= e -> e + Z.of_nat (length ds) < 2 ^ 64 ->
  replay_loop log d (blank_memo catalog f e) epochs = (blank_memo catalog f (e + Z.of_nat (length ds)), Ok tt).
Proof.
  induction ds as [|x ds IH]; intros [|n epochs] e Heq He Hlt; try done.
  - cbn [replay_loop length]. by rewrite Z.add_0_r.
  - cbn [map length] in *. injection Heq as Hx Heq. cbn [replay_loop]. rewrite Hx, blank_seal by lia.
    rewrite (IH epochs (e + 1) Heq) by lia. do 2 f_equal. lia.
Qed.
End blank.

(** ** Subscriptions *)

(** The deltas of the epochs after [lo] up to [hi], of a query whose answer at
    epoch [n] renders to [text_at n]. *)
Definition delta_at (text_at : Z -> text) (n : Z) : EpochDelta := mkEpochDelta n (delta_between (text_at (n - 1)) (text_at n)).
Definition deltas_in (text_at : Z -> text) (lo hi : Z) : list EpochDelta := map (delta_at text_at) (epochs_after lo hi).

Definition bytes_of (ring : list EpochDelta) : Z := foldr Z.add 0 (map (fun dl => Z.of_nat (length (rendered dl))) ring).

Definition ring_fits (ring : list EpochDelta) : Prop :=
  (length ring <= SUBSCRIPTION_RING)%nat /\ ((length ring <= 1)%nat \/ bytes_of ring <= SUBSCRIPTION_RING_BYTES).

(** A ring that holds what happened after its oldest epoch, within its bounds. *)
Record ring_ok (text_at : Z -> text) (now : Z) (s : Standing) : Prop := {
  ro_oldest : 0 <= oldest s <= now;
  ro_ring : ring s = deltas_in text_at (oldest s) now;
  ro_bytes : ring_bytes s = bytes_of (ring s);
  ro_fits : ring_fits (ring s);
  ro_last : last_answer s = text_at now
}.

Lemma bytes_of_nonneg ring : 0 <= bytes_of ring.
Proof. induction ring as [|dl ring IH]; unfold bytes_of in *; simpl; lia. Qed.

Lemma epochs_after_cons lo hi : lo < hi -> epochs_after lo hi = (lo + 1) :: epochs_after (lo + 1) hi.
Proof.
  intros Hlt. unfold epochs_after. replace (Z.to_nat (hi - lo)) with (S (Z.to_nat (hi - (lo + 1)))) by lia.
  cbn [seq map]. f_equal; [lia|]. rewrite <- seq_shift, map_map. apply map_ext. intros i. lia.
Qed.

Lemma epochs_after_snoc lo hi : lo <= hi -> epochs_after lo (hi + 1) = epochs_after lo hi ++ [hi + 1].
Proof.
  intros Hle. unfold epochs_after. replace (Z.to_nat (hi + 1 - lo)) with (S (Z.to_nat (hi - lo))) by lia.
  rewrite seq_S, map_app. simpl. do 2 f_equal. lia.
Qed.

Lemma epochs_after_length lo hi : length (epochs_after lo hi) = Z.to_nat (hi - lo).
Proof. unfold epochs_after. by rewrite length_map, length_seq. Qed.

Lemma deltas_in_cons text_at lo hi : lo < hi -> deltas_in text_at lo hi = delta_at text_at (lo + 1) :: deltas_in text_at (lo + 1) hi.
Proof. intros Hlt. unfold deltas_in. by rewrite epochs_after_cons. Qed.

Lemma trim_ring_spec text_at hi : forall (n : nat) lo bytes,
  n = Z.to_nat (hi - lo) -> lo <= hi -> bytes = bytes_of (deltas_in text_at lo hi) ->
  exists lo', trim_ring (deltas_in text_at lo hi) bytes lo = (deltas_in text_at lo' hi, bytes_of (deltas_in text_at lo' hi), lo') /\
    lo <= lo' <= hi /\ ring_fits (deltas_in text_at lo' hi).
Proof.
  induction n as [|n IH]; intros lo bytes Hn Hle Hb.
  - assert (lo = hi) as -> by lia. exists hi. unfold deltas_in, epochs_after in *. rewrite Z.sub_diag in *. simpl in *.
    subst. split_and!; [done|lia|lia|]. split; simpl; unfold SUBSCRIPTION_RING; lia.
  - pose proof (deltas_in_cons text_at lo hi ltac:(lia)) as Hc.
    assert (length (deltas_in text_at lo hi) = S n) as Hl by (unfold deltas_in; rewrite length_map, epochs_after_length; lia).
    assert (bytes = Z.of_nat (length (rendered (delta_at text_at (lo + 1)))) + bytes_of (deltas_in text_at (lo + 1) hi)) as Hb'
      by (rewrite Hb, Hc; done).
    pose proof (bytes_of_nonneg (deltas_in text_at (lo + 1) hi)) as Hnn.
    rewrite Hc in Hl |- *. cbn [trim_ring]. rewrite <- Hc in Hl |- *. destruct (_ || _) eqn:Eo.
    + destruct (IH (lo + 1) (Z.max 0 (bytes - Z.of_nat (length (rendered (delta_at text_at (lo + 1))))))) as (lo' & -> & Hlo & Hf);
        [lia|lia|lia|]. exists lo'. split_and!; [done|lia|lia|done].
    + exists lo. rewrite <- Hb. split_and!; [done|lia|lia|]. apply orb_false_iff in Eo as [H1%Nat.ltb_ge H2].
      split; [done|]. apply andb_false_iff in H2 as [H2%Nat.ltb_ge|H2%Z.ltb_ge]; [by left|right; by rewrite <- Hb].
Qed.

Lemma bytes_of_app r r' : bytes_of (r ++ r') = bytes_of r + bytes_of r'.
Proof. unfold bytes_of. induction r as [|x r IH]; simpl in *; lia. Qed.

(** The ring after an epoch. *)
Lemma push_delta_ok text_at now s answer :
  ring_ok text_at now s -> text_at (now + 1) = answer -> ring_ok text_at (now + 1) (push_delta s (now + 1) answer).
Proof.
  intros [Ho Hr Hb Hf Hl] Ha. unfold push_delta.
  assert (ring s ++ [mkEpochDelta (now + 1) (delta_between (last_answer s) answer)] = deltas_in text_at (oldest s) (now + 1)) as Hring.
  { rewrite Hr, Hl, <- Ha. unfold deltas_in. rewrite epochs_after_snoc, map_app by lia. cbn [map]. do 2 f_equal.
    unfold delta_at. by rewrite Z.add_simpl_r. }
  rewrite Hring. destruct (trim_ring_spec text_at (now + 1) (Z.to_nat (now + 1 - oldest s)) (oldest s)
    (ring_bytes s + Z.of_nat (length (delta_between (last_answer s) answer)))) as (lo' & -> & Hlo & Hfit); [done|lia| |].
  - rewrite <- Hring, bytes_of_app, Hb. unfold bytes_of at 3. simpl. lia.
  - split; cbn [oldest ring ring_bytes last_answer]; [lia|done|done|done|done].
Qed.
