(* ===== verification/ServerInv.v ===== *)
(** * The server's invariant

    An engine and its disk against an abstract server, which has a log that is
    never compacted and the entries of the registry.  Every operation keeps them
    in step; a failed append, a refused batch and a refused compaction included. *)

From Stdlib Require Import ZArith NArith Lia.
From stdpp Require Import base list strings pretty.
From S2P Require Import Prelude BTree ZAlg Value ZSet Plan Bind Codec State Operator ResultStore Circuit Dataflow Engine Compile Text LogRecord Log LogCorrect PlanForm MemoGraph Memo MemoAttach MemoShare MemoCorrect MemoLaws Snapshot SnapshotCorrect Compaction CompactionCorrect CompactionLaws Checkpoint ServerParts Server.

(** The abstract server. *)
Record ServerSpec := mkSpec { sp_log : ALog; sp_registry : Registry }.

Definition new_spec : ServerSpec := mkSpec new_alog registry_default.

(** A plan over sealed epochs. *)
Definition plan_answer (plan : CircuitPlan) (eps : list (list Batch)) : result CircuitError Canonical :=
  let tables t := entries_of t (concat eps) in
  answer_over (emitted_schema (root plan)) (plan_data tables true (root plan)) (plan_errs tables true (root plan)).

Lemma ring_ok_ext f g now s : (forall n, n <= now -> f n = g n) -> ring_ok f now s -> ring_ok g now s.
Proof.
  intros Hfg [Ho Hr Hb Hf Hl]. split; try done; [|by rewrite <- Hfg by lia].
  rewrite Hr. unfold deltas_in, epochs_after, delta_at. rewrite !map_map. apply map_ext_in.
  intros i Hi%in_seq. by rewrite !Hfg by lia.
Qed.

Section server.
Context {F B : Type} `{FactoryLaws F B} `{Debug} `{P : Parquet, !ParquetLaws P} `{ErrorText} `{SqlText} `{!FreshFactory F}.
Context (policy : SyncPolicy) (catalog : Catalog) (U : CircuitNode -> Prop).
Implicit Type (sd : ServerDisk) (m : Memo F B) (sp : ServerSpec).
Abbreviation E := (@Engine F B).

(** The rendered answer, or the rendered error in its place. *)
Definition answer_text (plan : CircuitPlan) (eps : list (list Batch)) : text :=
  match plan_answer plan eps with
  | Ok ans => render ans
  | Err x => line (tx ("ERROR: " +:+ memo_error_text (MCircuit x))%string)
  end.

(** At the end of epoch [n]. *)
Definition answer_at (plan : CircuitPlan) (eps : list (list Batch)) (n : Z) : text := answer_text plan (take (Z.to_nat n) eps).

(** A read of the abstract server. *)
Definition spec_read sp (id : Z) : result ServerError (Z * text) :=
  match bt_get id (reg_entries (sp_registry sp)) with
  | None => Err (SrvUnknownHandle id)
  | Some entry =>
      let? plan := map_err SrvSql (compile (entry_sql entry) catalog) in
      let? ans := map_err (fun x => SrvMemo (MCircuit x)) (plan_answer plan (a_epochs (sp_log sp))) in
      Ok (Z.of_nat (length (a_epochs (sp_log sp))), render ans)
  end.

(** The memo's contract state covers the sealed epochs. *)
Definition covers (st : MemoCorrect.Standing) (eps : list (list Batch)) : Prop :=
  at_epoch st = Z.of_nat (length eps) /\ forall t, accumulate (MemoCorrect.sealed st) t ≡z entries_of t (concat eps).

Lemma read_covers m st eps h plan :
  memo_inv U m st -> covers st eps -> bt_get h (queries st) = Some plan ->
  read m h = let? ans := map_err MCircuit (plan_answer plan eps) in Ok (Z.of_nat (length eps), ans).
Proof.
  intros Hi [He Ht] Hq. rewrite (read_inv _ _ _ _ Hi). unfold standing_read. rewrite Hq, He. unfold plan_answer.
  by rewrite (answer_over_proper _ _ _ _ _ (plan_data_proper _ _ _ _ Ht) (plan_errs_proper _ _ _ _ Ht)).
Qed.

Lemma render_covers m st eps h plan :
  memo_inv U m st -> covers st eps -> bt_get h (queries st) = Some plan -> render_answer m h = answer_text plan eps.
Proof.
  intros Hi Hc Hq. unfold render_answer, answer_text. rewrite (read_covers _ _ _ _ _ Hi Hc Hq).
  by destruct (plan_answer plan eps).
Qed.

(** A standing query that is live, and its plan. *)
Record stands (st : MemoCorrect.Standing) (eps : list (list Batch)) (entry : Entry) (s : Standing) : Prop := {
  so_live : quarantined s = None;
  so_entry : st_entry s = entry;
  so_plan : exists plan, compile (entry_sql entry) catalog = Ok plan /\ bt_get (st_handle s) (queries st) = Some plan /\
    ring_ok (answer_at plan eps) (Z.of_nat (length eps)) s
}.

(** The standing queries are the registered ones, each with a handle of its own. *)
Record all_stand (st : MemoCorrect.Standing) (eps : list (list Batch)) (entries : btree Z Entry) (standing : btree Z Standing) : Prop := {
  as_sorted : bt_sorted standing;
  as_each : forall id, match bt_get id standing, bt_get id entries with
                       | Some s, Some entry => stands st eps entry s
                       | None, None => True
                       | _, _ => False
                       end;
  as_handles : forall id id' s s', bt_get id standing = Some s -> bt_get id' standing = Some s' -> st_handle s = st_handle s' -> id = id'
}.

(** A registry whose queries are on one line each is read back as it is. *)
Definition storable_registry (r : Registry) : Prop :=
  valid_registry r /\ forallb (fun p => one_line (tx (entry_sql p.2))) (reg_entries r) = true.

Lemma storable_loads r : storable_registry r -> registry_load (Some (registry_encode r)) = Ok r.
Proof.
  intros [Hv Hl]. cbn [registry_load]. rewrite registry_round_trip by done. destruct r as [m n]. cbn [reg_entries reg_next_handle] in *.
  do 2 f_equal. clear Hv. induction m as [|[h en] m IH]; [done|]. cbn [forallb snd] in Hl. apply andb_true_iff in Hl as [Hh Hl].
  unfold bt_map in *. cbn [map fst snd]. rewrite IH by done. f_equal. f_equal. unfold stored_entry.
  rewrite stored_one_line by done. by destruct en.
Qed.

(** Every entry compiles to a plan of [U]. *)
Definition known_entries (entries : btree Z Entry) : Prop :=
  Forall (fun p => exists plan, compile (entry_sql p.2) catalog = Ok plan /\ admissible U plan) entries.

Record serves (k : Z) sd (e : E) sp : Prop := {
  sv_catalog : e_catalog e = catalog;
  sv_log : db_view policy catalog k (sp_log sp) (sd_log sd) (e_log e);
  sv_memo : exists st, memo_inv U (e_memo e) st /\ covers st (a_epochs (sp_log sp)) /\
    all_stand st (a_epochs (sp_log sp)) (reg_entries (sp_registry sp)) (e_standing e);
  sv_registry : e_registry e = sp_registry sp;
  sv_storable : storable_registry (sp_registry sp);
  sv_file : registry_load (sd_registry sd) = Ok (sp_registry sp);
  sv_known : known_entries (reg_entries (sp_registry sp))
}.

(** Reading follows the abstract server. *)
Lemma read_serves k sd (e : E) sp id : serves k sd e sp -> engine_read e id = spec_read sp id.
Proof.
  intros [_ _ (st & Hi & Hc & Ha) _ _ _ _]. pose proof (as_each _ _ _ _ Ha id) as Hid. unfold engine_read, live, spec_read.
  destruct (bt_get id (e_standing e)) as [s|], (bt_get id (reg_entries (sp_registry sp))) as [entry|]; try done.
  destruct Hid as [Hq _ (plan & -> & Hh & _)]. cbn [ok_or map_err]. rewrite Hq, (read_covers _ _ _ _ _ Hi Hc Hh).
  by destruct (plan_answer plan _).
Qed.

(** ** What changes the log only *)

Lemma view_weaken k k' h d log : db_view policy catalog k h d log -> k <= k' -> db_view policy catalog k' h d log.
Proof. intros (a & Hdb & Hrest) Hk. exists a. split; [by eapply db_weaken|done]. Qed.

(** The log may move while its sealed epochs, the memo and the registry stay. *)
Lemma log_serves k k' sd sd' (e e' : E) sp sp' :
  serves k sd e sp -> db_view policy catalog k' (sp_log sp') (sd_log sd') (e_log e') ->
  a_epochs (sp_log sp') = a_epochs (sp_log sp) -> sp_registry sp' = sp_registry sp ->
  sd_registry sd' = sd_registry sd -> e_catalog e' = e_catalog e -> e_memo e' = e_memo e -> e_standing e' = e_standing e ->
  e_registry e' = e_registry e -> serves k' sd' e' sp'.
Proof.
  intros [Hc _ Hm Hr Hs Hf Hkn] Hv He Hre Hsd Hc' Hm' Hs' Hr'.
  split; rewrite ?He, ?Hre, ?Hsd, ?Hc', ?Hm', ?Hs', ?Hr'; done.
Qed.

Definition spec_ingest sp (b : Batch) (r : result ServerError Ack) : ServerSpec :=
  match r with Ok _ => mkSpec (abs_append catalog (sp_log sp) b).1 (sp_registry sp) | Err _ => sp end.

Lemma abs_append_epochs h b : a_epochs (abs_append catalog h b).1 = a_epochs h.
Proof. by destruct (abs_append_cases catalog h b) as [->|[-> _]]. Qed.

Lemma abs_append_Err h b x : (abs_append catalog h b).2 = Err x -> (abs_append catalog h b).1 = h.
Proof.
  unfold abs_append. destruct (let? schema := _ in _) as [[]|]; [|done].
  destruct (bt_get (dedup_token b) (a_known h)); [|done]. by destruct (_ =? _).
Qed.

Context (Hcat : catalog_ok catalog).

(** What an ingest does to the log, and what it leaves. *)
Lemma ingest_view k h sd (e : E) source table token entries sd' (e' : E) r :
  let b := mkLogBatch source token table entries in
  db_view policy catalog k h (sd_log sd) (e_log e) -> record_ok (batch_record b) = true -> k + 1 < 2 ^ 62 ->
  within_limits (abs_append catalog h b).1 -> engine_ingest e sd source table token entries = (sd', e', r) ->
  (db_view policy catalog (k + 1) (match r with Ok _ => (abs_append catalog h b).1 | Err _ => h end) (sd_log sd') (e_log e') /\
   forall ack, r = Ok ack -> (abs_append catalog h b).2 = Ok ack) /\
  sd_registry sd' = sd_registry sd /\ e_catalog e' = e_catalog e /\ e_memo e' = e_memo e /\ e_standing e' = e_standing e /\
  e_registry e' = e_registry e.
Proof.
  intros b Hv Hok Hk Hw. unfold engine_ingest. cbn zeta.
  destruct (check (e_gate e) source _) as [gate verdict]. destruct (refused_by source verdict) as [x|].
  { intros [= <- <- <-]. split; [|done]. split; [|done]. eapply view_weaken; [exact Hv|lia]. }
  cbn [e_log with_gate].
  destruct (db_op_view policy catalog Hcat k h (sd_log sd) (e_log e) (DAppend b) Hv Hok Hk) as (d' & log' & Ed & Hv').
  { cbn [spec_op]. by destruct (abs_append catalog h b). }
  cbn [db_op spec_op] in Ed, Hv'. fold b. destruct (log_append _ _ _ b) as [[[f d1] log1] r1].
  pose proof (abs_append_Err h b) as Herr.
  destruct (abs_append catalog h b) as [h' r2]. cbn [fst snd] in *. injection Ed as <- <- <-. destruct r1 as [ack|x].
  - destruct ack; intros [= <- <- <-]; (split; [|done]); (split; [exact Hv'|by intros ? [= <-]]).
  - rewrite (Herr x eq_refl) in Hv'. intros [= <- <- <-]. split; [|done]. split; [exact Hv'|done].
Qed.

Lemma ingest_serves k sd (e : E) sp source table token entries sd' (e' : E) r :
  let b := mkLogBatch source token table entries in
  serves k sd e sp -> record_ok (batch_record b) = true -> k + 1 < 2 ^ 62 ->
  within_limits (abs_append catalog (sp_log sp) b).1 ->
  engine_ingest e sd source table token entries = (sd', e', r) -> serves (k + 1) sd' e' (spec_ingest sp b r).
Proof.
  intros b Hs Hok Hk Hw Hgo.
  destruct (ingest_view _ _ _ _ _ _ _ _ _ _ _ (sv_log _ _ _ _ Hs) Hok Hk Hw Hgo) as ([Hv _] & H6 & H7 & H8 & H9 & H10).
  eapply log_serves; [exact Hs| |destruct r; [apply abs_append_epochs|done]|by destruct r|done..]. by destruct r.
Qed.

(** ** Sealing *)

Lemma epoch_delta_sorted bs : bt_sorted (tables (epoch_delta bs)).
Proof.
  unfold epoch_delta. assert (bt_sorted (tables deltas_new)) as Hd by constructor. revert Hd. generalize deltas_new.
  induction bs as [|b bs IH]; intros d Hd; [done|]. cbn [fold_left]. apply IH. by apply bt_insert_sorted.
Qed.

Lemma covers_seal st eps bs : covers st eps -> covers (MemoCorrect.seal st (epoch_delta bs)) (eps ++ [bs]).
Proof.
  intros [He Ht]. split; [cbn [at_epoch MemoCorrect.seal]; rewrite length_app, He; simpl; lia|].
  intros t. cbn [MemoCorrect.sealed MemoCorrect.seal]. rewrite <- accumulate_step, Ht, concat_app, entries_of_app.
  cbn [concat]. rewrite app_nil_r. unfold epoch_delta. by rewrite epoch_delta_entries.
Qed.

Lemma push_delta_same s n t :
  st_entry (push_delta s n t) = st_entry s /\ st_handle (push_delta s n t) = st_handle s /\ quarantined (push_delta s n t) = quarantined s.
Proof. unfold push_delta. by destruct (trim_ring _ _ _) as [[? ?] ?]. Qed.

Lemma stands_seal m st eps bs entry s :
  memo_inv U m (MemoCorrect.seal st (epoch_delta bs)) -> covers st eps -> stands st eps entry s ->
  stands (MemoCorrect.seal st (epoch_delta bs)) (eps ++ [bs]) entry
    (push_delta s (Z.of_nat (length eps) + 1) (render_answer m (st_handle s))).
Proof.
  intros Hi Hc [Hq He (plan & Hp & Hh & Hr)].
  destruct (push_delta_same s (Z.of_nat (length eps) + 1) (render_answer m (st_handle s))) as (E1 & E2 & E3).
  split; [by rewrite E3|by rewrite E1|]. exists plan. rewrite E2. split_and!; [done|done|].
  rewrite (render_covers _ _ _ _ _ Hi (covers_seal _ _ bs Hc) Hh). rewrite length_app. cbn [length].
  replace (Z.of_nat (length eps + 1)) with (Z.of_nat (length eps) + 1) by lia. apply push_delta_ok.
  - eapply ring_ok_ext; [|exact Hr]. intros n Hn. unfold answer_at. by rewrite take_app_le by lia.
  - unfold answer_at. rewrite take_ge; [done|]. rewrite length_app. simpl. lia.
Qed.

Lemma advance_stand m st eps bs entries standing :
  memo_inv U m (MemoCorrect.seal st (epoch_delta bs)) -> covers st eps -> all_stand st eps entries standing ->
  all_stand (MemoCorrect.seal st (epoch_delta bs)) (eps ++ [bs]) entries
    (advance_standing m (Z.of_nat (length eps) + 1) standing).
Proof.
  intros Hi Hc [Hso Hea Hha].
  assert (forall id, bt_get id (advance_standing m (Z.of_nat (length eps) + 1) standing) =
    (fun s => push_delta s (Z.of_nat (length eps) + 1) (render_answer m (st_handle s))) <$> bt_get id standing) as Hget.
  { intros id. unfold advance_standing. rewrite bt_get_map. specialize (Hea id). destruct (bt_get id standing) as [s|]; [|done].
    simpl. destruct (bt_get id entries) as [entry|]; [|done]. by rewrite (so_live _ _ _ _ Hea). }
  split; [by apply bt_map_sorted| |].
  - intros id. rewrite Hget. specialize (Hea id). destruct (bt_get id standing), (bt_get id entries); try done. by apply stands_seal.
  - intros id id' s s'. rewrite !Hget. destruct (bt_get id standing) as [s1|] eqn:E1, (bt_get id' standing) as [s2|] eqn:E2; try done.
    intros [= <-] [= <-]. rewrite (proj1 (proj2 (push_delta_same s1 _ _))), (proj1 (proj2 (push_delta_same s2 _ _))). by apply Hha.
Qed.

Lemma view_pending k h d log : db_view policy catalog k h d log -> log_pending log = a_pending h.
Proof. intros (a & Hdb & Hp & _). by rewrite (db_pending _ _ _ _ _ _ _ Hdb). Qed.

Lemma view_sealed k h d log : db_view policy catalog k h d log -> log_sealed_epoch log = Z.of_nat (length (a_epochs h)).
Proof. intros (a & Hdb & _). by rewrite (db_log_sealed _ _ _ _ _ _ _ Hdb). Qed.

Lemma view_bound k h d log : db_view policy catalog k h d log -> Z.of_nat (length (a_epochs h)) <= k.
Proof.
  intros (a & Hdb & _). rewrite <- (db_sealed _ _ _ _ _ _ _ Hdb). apply (ao_sealed _ _ (db_abs _ _ _ _ _ _ _ Hdb)).
Qed.

Definition spec_seal sp : ServerSpec := mkSpec (abs_seal (sp_log sp)).1 (sp_registry sp).

Lemma checkpoint_frame (e : E) sd sd' e' r :
  engine_checkpoint e sd = (sd', e', r) -> e' = e /\ sd_log sd' = sd_log sd /\ sd_registry sd' = sd_registry sd.
Proof. unfold engine_checkpoint. destruct (take_checkpoint _ _ _) as [[? ?] ?]. by intros [= <- <- <-]. Qed.

(** The server before the periodic checkpoint. *)
Definition sealed_engine (e : E) (log : Log) m (epoch : Z) : E :=
  with_standing (advance_standing m epoch (e_standing e)) (with_gate (gate_sealed (e_gate e)) (with_memo m (with_log log e))).

Lemma seal_cases (e : E) sd sd' e' r f d' log' epoch m' ep :
  log_seal (e_log e) (sd_log sd) inert = (f, d', log', Ok epoch) ->
  seal_epoch (e_memo e) (epoch_delta (log_pending (e_log e))) = (m', Ok ep) ->
  engine_seal e sd = (sd', e', r) ->
  e' = sealed_engine e log' m' epoch /\ sd_log sd' = d' /\ sd_registry sd' = sd_registry sd /\
  (r = Ok epoch \/ exists x, r = Err (SrvCircuit x)).
Proof.
  intros Hl Hm. unfold engine_seal. rewrite Hl. cbn [e_memo with_log]. rewrite Hm. cbn zeta.
  destruct (_ && _); [|intros [= <- <- <-]; split_and!; [done..|by left]].
  destruct (engine_checkpoint _ _) as [[sd1 e1] r1] eqn:Ec. pose proof (checkpoint_frame _ _ _ _ _ Ec) as (-> & Hd & Hr).
  intros [= <- <- <-]. split_and!; [done..|]. unfold engine_checkpoint in Ec. destruct (take_checkpoint _ _ _) as [[? ?] [[]|x]];
    simplify_eq Ec; intros; subst; [by left|right; by eexists].
Qed.

(** The log seals whatever becomes of the memo. *)
Lemma seal_view k h sd (e : E) sd' (e' : E) r :
  db_view policy catalog k h (sd_log sd) (e_log e) -> k + 1 < 2 ^ 62 -> within_limits (abs_seal h).1 ->
  engine_seal e sd = (sd', e', r) -> db_view policy catalog (k + 1) (abs_seal h).1 (sd_log sd') (e_log e').
Proof.
  intros Hv Hk Hw. destruct (db_op_view policy catalog Hcat k h (sd_log sd) (e_log e) DSeal Hv eq_refl Hk Hw) as (d' & log' & Ed & Hv').
  cbn [db_op spec_op] in Ed, Hv'. unfold engine_seal. destruct (log_seal (e_log e) (sd_log sd) inert) as [[[f d1] log1] r1].
  injection Ed as -> -> ->. cbn [e_memo with_log]. destruct (seal_epoch _ _) as [m' [ep|]]; [|by intros [= <- <- <-]].
  cbn zeta. destruct (_ && _); [|by intros [= <- <- <-]]. destruct (engine_checkpoint _ _) as [[sd1 e1] r1] eqn:Ec.
  destruct (checkpoint_frame _ _ _ _ _ Ec) as (-> & Hd & _). intros [= <- <- <-]. by rewrite Hd.
Qed.

Lemma seal_serves k sd (e : E) sp sd' (e' : E) r m' ep :
  serves k sd e sp -> k + 1 < 2 ^ 62 -> within_limits (abs_seal (sp_log sp)).1 ->
  pass_small (dataflow (e_memo e)) (epoch_delta (log_pending (e_log e))) None = true ->
  seal_epoch (e_memo e) (epoch_delta (log_pending (e_log e))) = (m', Ok ep) ->
  engine_seal e sd = (sd', e', r) -> serves (k + 1) sd' e' (spec_seal sp).
Proof.
  intros [Hc Hl (st & Hi & Hcov & Has) Hr Hst Hf Hkn] Hk Hw Hsm Hse Hgo.
  pose proof (view_bound _ _ _ _ Hl) as Hb. pose proof (view_pending _ _ _ _ Hl) as Hp.
  destruct (db_op_view policy catalog Hcat k (sp_log sp) (sd_log sd) (e_log e) DSeal Hl eq_refl Hk Hw) as (d' & log' & Ed & Hv).
  cbn [db_op spec_op] in Ed, Hv. destruct (log_seal (e_log e) (sd_log sd) inert) as [[[f d1] log1] r1] eqn:El.
  injection Ed as -> -> Hr1.
  destruct Hl as (a & Hdb & Hpa & Hka & Hfa). rewrite Hr1 in El. unfold abs_sealed in El. rewrite Hfa in El.
  destruct (seal_cases _ _ _ _ _ _ _ _ _ _ _ El Hse Hgo) as (-> & Hd & Hrf & _). rewrite Hp in *.
  destruct (seal_inv U _ _ _ _ _ Hi (epoch_delta_sorted _) Hsm ltac:(destruct Hcov as [-> _]; lia) Hse) as [-> Hi'].
  split; [exact Hc|by rewrite Hd| |exact Hr|exact Hst|by rewrite Hrf|exact Hkn].
  exists (MemoCorrect.seal st (epoch_delta (a_pending (sp_log sp)))). split_and!; [exact Hi'|by apply covers_seal|].
  cbn [sealed_engine e_standing with_standing with_gate with_memo with_log]. by apply advance_stand.
Qed.

(** ** Installing a query *)

(** The batches the catch-up emits stay within machine range. *)
Definition install_small (e : E) sd (entry : Entry) : bool :=
  match compile (entry_sql entry) (e_catalog e), catch_up_chunks (e_log e) (sd_log sd) (e_catalog e) with
  | Ok plan, Ok (chunks, _) => register_small (e_memo e) plan (entry_admission entry) (feed_chunks chunks)
  | _, _ => true
  end.

Lemma issued_below m st h plan : memo_inv U m st -> bt_get h (queries st) = Some plan -> h < issued st.
Proof.
  intros [Q Hm] Hq. pose proof (mo_kept _ _ _ _ Hm h) as Hk. rewrite Hq in Hk.
  destruct (bt_get h (registrations m)) as [r|] eqn:Er; [|done]. by eapply (mo_issued _ _ _ _ Hm).
Qed.

Lemma stands_stand m st eps entry s plan :
  memo_inv U m st -> stands st eps entry s -> stands (stand st plan) eps entry s.
Proof.
  intros Hi [Hq He (p & Hp & Hh & Hr)]. split; [done..|]. exists p. split_and!; [done| |done]. cbn [queries stand].
  rewrite bt_get_insert_ne; [done|]. pose proof (issued_below _ _ _ _ Hi Hh). lia.
Qed.

Lemma all_stand_insert m st eps entries standing id entry s plan :
  memo_inv U m st -> all_stand st eps entries standing -> bt_get id entries = None ->
  stands (stand st plan) eps entry s -> st_handle s = issued st ->
  all_stand (stand st plan) eps (bt_insert id entry entries) (bt_insert id s standing).
Proof.
  intros Hi [Hso Hea Hha] Hid Hs Hh.
  assert (forall id' s', bt_get id' standing = Some s' -> st_handle s' < issued st) as Hbelow.
  { intros id' s' Hs'. specialize (Hea id'). rewrite Hs' in Hea. destruct (bt_get id' entries); [|done].
    destruct Hea as [_ _ (p & _ & Hq & _)]. by eapply issued_below. }
  split; [by apply bt_insert_sorted| |].
  - intros id'. rewrite !bt_get_insert. case_cmp_eqb id' id; [done|]. specialize (Hea id').
    destruct (bt_get id' standing), (bt_get id' entries); try done. by eapply stands_stand.
  - intros id1 id2 s1 s2. rewrite !bt_get_insert. case_cmp_eqb id1 id; case_cmp_eqb id2 id; try congruence; intros G1 G2 Heq.
    + injection G1 as <-. apply Hbelow in G2. lia.
    + injection G2 as <-. apply Hbelow in G1. lia.
    + by eapply Hha.
Qed.

Lemma install_spec k h sd (e e' : E) entry st plan :
  separated U -> e_catalog e = catalog -> db_view policy catalog k h (sd_log sd) (e_log e) ->
  memo_inv U (e_memo e) st -> covers st (a_epochs h) ->
  compile (entry_sql entry) catalog = Ok plan -> admissible U plan -> install_small e sd entry = true -> issued st + 1 < 2 ^ 64 ->
  install e sd entry = (e', Ok tt) ->
  exists s m', e' = with_standing (bt_insert (entry_handle entry) s (e_standing e)) (with_memo m' e) /\
    memo_inv U m' (stand st plan) /\ stands (stand st plan) (a_epochs h) entry s /\ st_handle s = issued st.
Proof.
  intros Hsep Hc Hv Hi Hcov Hp [Hnd Hu] Hsm Hlt. pose proof (view_sealed _ _ _ _ Hv) as Hse. destruct Hv as (a & Hdb & _).
  destruct (catch_up_history policy catalog k _ a _ _ Hdb) as (chunks & Hch & Ht).
  unfold install, install_small in *. rewrite Hc, Hp, Hch in *. cbn [map_err].
  destruct (register_from_chunks _ _ _ _) as [m' [handle|]] eqn:Er; [|done]. intros [= <-].
  destruct (register_inv U (e_memo e) st plan (entry_admission entry) (feed_chunks chunks) m' handle) as [-> Hi']; try done.
  { by destruct chunks. }
  { intros t. rewrite accumulate_chunks, Ht. symmetry. apply Hcov. }
  eexists _, m'. split_and!; [done|done| |done]. split; [done..|]. exists plan.
  assert (bt_get (issued st) (queries (stand st plan)) = Some plan) as Hq by apply bt_get_insert_eq.
  split_and!; [done|done|]. rewrite Hse.
  assert (answer_at plan (a_epochs h) (Z.of_nat (length (a_epochs h))) = answer_text plan (a_epochs h)) as Hat.
  { unfold answer_at. by rewrite Nat2Z.id, take_ge by lia. }
  split; cbn [oldest ring ring_bytes last_answer live_standing]; [lia| |done| |].
  - unfold deltas_in, epochs_after. by rewrite Z.sub_diag.
  - split; simpl; unfold SUBSCRIPTION_RING; lia.
  - rewrite Hat. by eapply render_covers.
Qed.

Lemma highest_above (l : btree Z Entry) id entry : bt_get id l = Some entry -> id < highest l.
Proof.
  induction l as [|[id1 e1] l IH]; [done|]. rewrite bt_get_cons. unfold highest in *. cbn [bt_keys map fst foldr].
  case_cmp_eqb id id1; [intros _; lia|]. intros Hg. specialize (IH Hg). unfold bt_keys in *. lia.
Qed.

Lemma highest_le (l : btree Z Entry) n : highest l <= n <-> 0 <= n /\ Forall (fun p => p.1 < n) l.
Proof.
  unfold highest, bt_keys. induction l as [|[id en] l IH]; cbn [map fst foldr].
  - split; [by intros ?|by intros [? _]].
  - rewrite Forall_cons, Z.max_lub_iff, IH. cbn [fst]. intuition lia.
Qed.

Definition storable_entry (p : Z * Entry) : bool := valid_entry_of p && one_line (tx (entry_sql p.2)).

Lemma storable_iff r :
  storable_registry r <-> bt_sorted (reg_entries r) /\ Forall (fun p => storable_entry p = true /\ p.1 < reg_next_handle r) (reg_entries r) /\
    0 <= reg_next_handle r < 2 ^ 64.
Proof.
  unfold storable_registry, valid_registry, storable_entry. rewrite !forallb_forall, highest_le, !Forall_forall.
  split.
  - intros [(Hs & Hv & (Hz & Hb) & Hn) Ho]. split_and!; [done| |done..]. intros p Hp. split; [|by apply Hb].
    apply andb_true_iff. split; [apply Hv|apply (Ho p)]; by apply list_elem_of_In.
  - intros (Hs & Hf & Hz & Hn). split; [split_and!; [done| |done| |done]|].
    + intros p Hp. by apply list_elem_of_In, Hf in Hp as [[? _]%andb_true_iff _].
    + intros p Hp. by apply Hf.
    + intros p Hp. by apply list_elem_of_In, Hf in Hp as [[_ ?]%andb_true_iff _].
Qed.

Definition spec_register sp (sql : string) (adm : Admission) : ServerSpec :=
  let id := reg_next_handle (sp_registry sp) in
  mkSpec (sp_log sp) (mkRegistry (bt_insert id (mkEntry id sql adm) (reg_entries (sp_registry sp))) (id + 1)).

Lemma storable_register sp sql adm :
  storable_registry (sp_registry sp) -> storable_entry (reg_next_handle (sp_registry sp), mkEntry (reg_next_handle (sp_registry sp)) sql adm) = true ->
  reg_next_handle (sp_registry sp) + 1 < 2 ^ 64 -> storable_registry (sp_registry (spec_register sp sql adm)).
Proof.
  rewrite !storable_iff. cbn [spec_register sp_registry reg_entries reg_next_handle]. intros (Hs & Hf & Hn) He Hlt.
  split_and!; [by apply bt_insert_sorted| |lia|lia]. apply bt_insert_Forall; [cbn [fst]; split; [done|lia]|].
  eapply Forall_impl; [exact Hf|]. intros p [Hp Hb]. split; [done|lia].
Qed.

Lemma register_serves k sd (e : E) sp sql adm plan sd' (e' : E) id :
  separated U -> serves k sd e sp -> compile sql catalog = Ok plan -> admissible U plan ->
  (let entry := mkEntry (reg_next_handle (sp_registry sp)) sql adm in
   install_small e sd entry = true /\ storable_entry (entry_handle entry, entry) = true) ->
  reg_next_handle (sp_registry sp) + 1 < 2 ^ 64 -> next_handle (e_memo e) + 1 < 2 ^ 64 ->
  engine_register e sd sql adm = (sd', e', Ok id) ->
  id = reg_next_handle (sp_registry sp) /\ serves k sd' e' (spec_register sp sql adm).
Proof.
  intros Hsep [Hc Hl (st & Hi & Hcov & Has) Hr Hst Hf Hkn] Hp Hadm [Hsm Hstor] Hn Hnm.
  set (entry := mkEntry (reg_next_handle (sp_registry sp)) sql adm) in *.
  unfold engine_register. rewrite Hc, Hp, Hr. cbn [map_err]. fold entry.
  destruct (install e sd entry) as [e1 [[]|]] eqn:Ei; [|done]. intros [= <- <- <-]. split; [done|].
  assert (next_handle (e_memo e) = issued st) as Hnx by (destruct Hi as [Q Hm]; apply (mo_next _ _ _ _ Hm)).
  destruct (install_spec k (sp_log sp) sd e e1 entry st plan) as (s & m' & -> & Hi' & Hs' & Hh'); try done; [lia|].
  pose proof (storable_register sp sql adm Hst Hstor Hn) as Hst'.
  assert (bt_get (reg_next_handle (sp_registry sp)) (reg_entries (sp_registry sp)) = None) as Hfresh.
  { destruct (bt_get _ _) as [x|] eqn:Eg; [|done]. apply highest_above in Eg. destruct Hst as [(_ & _ & ? & _) _]. lia. }
  cbn [e_registry with_standing with_memo]. rewrite Hr. split; [exact Hc|exact Hl| |done|exact Hst'| |].
  - exists (stand st plan). split_and!; [exact Hi'|exact Hcov|].
    cbn [spec_register sp_log sp_registry reg_entries e_standing with_standing with_memo with_registry].
    eapply all_stand_insert; done.
  - by apply storable_loads.
  - apply bt_insert_Forall; [by exists plan|exact Hkn].
Qed.

(** ** Retiring a query *)

Definition spec_deregister sp (id : Z) : ServerSpec :=
  mkSpec (sp_log sp) (mkRegistry (bt_remove id (reg_entries (sp_registry sp))) (reg_next_handle (sp_registry sp))).

Lemma storable_deregister sp id : storable_registry (sp_registry sp) -> storable_registry (sp_registry (spec_deregister sp id)).
Proof.
  rewrite !storable_iff. cbn [spec_deregister sp_registry reg_entries reg_next_handle]. intros (Hs & Hf & Hn).
  split_and!; [by apply bt_remove_sorted|by apply bt_remove_Forall|lia|lia].
Qed.

Lemma all_stand_remove st eps entries standing id s :
  bt_sorted (queries st) -> bt_sorted entries -> all_stand st eps entries standing -> bt_get id standing = Some s ->
  all_stand (retire st (st_handle s)) eps (bt_remove id entries) (bt_remove id standing).
Proof.
  intros Hq He [Hso Hea Hha] Hs. split; [by apply bt_remove_sorted| |].
  - intros id'. rewrite !bt_get_remove by done. case_cmp_eqb id' id; [done|]. specialize (Hea id').
    destruct (bt_get id' standing) as [s'|] eqn:Es', (bt_get id' entries); try done.
    destruct Hea as [Hl Hen (plan & Hp & Hh & Hr)]. split; [done..|]. exists plan. split_and!; [done| |done].
    cbn [queries retire]. rewrite bt_get_remove by done. case_cmp_eqb (st_handle s') (st_handle s); [|done].
    exfalso. naive_solver.
  - intros id1 id2 s1 s2. rewrite !bt_get_remove by done. case_cmp_eqb id1 id; [done|]. case_cmp_eqb id2 id; [done|]. apply Hha.
Qed.

(** Retiring succeeds exactly on the registered handles. *)
Lemma deregister_serves k sd (e : E) sp id :
  serves k sd e sp ->
  match bt_get id (reg_entries (sp_registry sp)) with
  | None => engine_deregister e sd id = (sd, e, Err (SrvUnknownHandle id))
  | Some _ => exists sd' e', engine_deregister e sd id = (sd', e', Ok tt) /\ serves k sd' e' (spec_deregister sp id)
  end.
Proof.
  intros [Hc Hl (st & Hi & Hcov & Has) Hr Hst Hf Hkn]. pose proof (as_each _ _ _ _ Has id) as Hid. unfold engine_deregister.
  destruct (bt_get id (e_standing e)) as [s|] eqn:Es, (bt_get id (reg_entries (sp_registry sp))) as [entry|] eqn:Ee; try done.
  destruct Hid as [Hq _ (plan & _ & Hh & _)]. rewrite Hq. cbn [e_memo with_standing].
  destruct (deregister_inv U (e_memo e) st (st_handle s) plan Hi Hh) as (m' & -> & Hi').
  cbn [e_registry with_memo with_standing]. rewrite Hr. eexists _, _. split; [done|].
  assert (bt_sorted (queries st)) as Hso by (destruct Hi as [Q Hm]; apply Hm).
  split; [exact Hc|exact Hl| |done|by apply storable_deregister|apply storable_loads, storable_deregister, Hst|by apply bt_remove_Forall].
  exists (retire st (st_handle s)). split_and!; [exact Hi'|exact Hcov|].
  cbn [spec_deregister sp_log sp_registry reg_entries e_standing with_standing with_memo with_registry].
  apply all_stand_remove; try done. by apply storable_iff in Hst as [? _].
Qed.
End server.
