(* ===== verification/ServerLaws.v ===== *)
(** * Runs of the server

    Compaction, deaths and restarts against the abstract server, and runs of all
    the operations as a step relation. *)

From Stdlib Require Import ZArith NArith Lia.
From stdpp Require Import base list strings pretty.
From S2P Require Import Prelude BTree ZAlg Value ZSet Plan Bind Codec State Operator ResultStore Circuit Dataflow Engine Compile Text LogRecord Log LogCorrect PlanForm MemoGraph Memo MemoAttach MemoShare MemoCorrect MemoLaws Snapshot SnapshotCorrect Compaction CompactionCorrect CompactionLaws Checkpoint ServerParts Server ServerInv.

(** Where a process dies: between operations, in an append after its record is
    on disk, or at a seam of a checkpoint or of a compaction. *)
Inductive Death :=
| DieIdle
| DieAppending (b : Batch)
| DieCheckpointing (plan : FaultPlan)
| DieCompacting (plan : FaultPlan).

(** What a client or the operating system does to a server. *)
Inductive ServerOp :=
| OIngest (b : Batch)
| OSeal
| ORegister (sql : string) (adm : Admission)
| ODeregister (id : Z)
| OCheckpoint
| OCompact
| ORestart (death : Death).

Definition limits_ok (h : ALog) : bool := (mass (all_rows (batches h)) <=? i64_max) && ledgers_fit (a_epochs h).

Lemma limits_ok_within h : limits_ok h = true -> within_limits h.
Proof. unfold limits_ok. by intros [Hm%Z.leb_le Hl]%andb_true_iff. Qed.

Section server.
Context {F B : Type} `{FactoryLaws F B} `{Debug} `{P : Parquet, !ParquetLaws P} `{ErrorText} `{SqlText} `{!FreshFactory F}.
Context (policy : SyncPolicy) (catalog : Catalog) (U : CircuitNode -> Prop) (Hcat : catalog_ok catalog).
Implicit Type (sd : ServerDisk) (m : Memo F B) (sp : ServerSpec).
Abbreviation E := (@Engine F B).
Abbreviation serves := (serves (F := F) (B := B) policy catalog U).

(** ** Compaction *)

Lemma compaction_view k h d log f d' log' r :
  db_view policy catalog k h d log -> k < 2 ^ 62 -> within_limits h ->
  db_compact catalog d log (log_sealed_epoch log) f = (d', log', r) ->
  exists log'', db_view policy catalog (k + 1) h d' log'' /\ (unplanned f -> log' = log'').
Proof.
  intros (a & Hdb & Hp & Hk & Hf) Hlt [_ Hfit] Hgo. rewrite (db_log_sealed _ _ _ _ _ _ _ Hdb) in Hgo.
  destruct (db_compact_view policy catalog Hcat k _ a d log (Z.of_nat (length (a_epochs h))) f Hdb ltac:(lia) Hfit) as
    (d1 & log1 & r1 & E1 & a' & log'' & Hdb' & Hp' & Hk' & _ & Hdone).
  rewrite Hgo in E1. injection E1 as <- <- <-. pose proof (db_from _ _ _ _ _ _ _ Hdb) as Hfrom.
  destruct (decide (a_from a < Z.of_nat (length (a_epochs h)))) as [Hin|Hout].
  - exists log''. split; [exists a'; split_and!; [done|by rewrite Hp'|by rewrite Hk'|done]|].
    intros Hun. by destruct (Hdone Hun ltac:(lia)) as [? _].
  - unfold db_compact in Hgo. rewrite (accumulated_upto_spec _ _ Hcat _ _ _ _ _ Hdb) in Hgo by lia.
    destruct (compact_refused policy catalog k _ a d log f (Z.of_nat (length (a_epochs h)))
      (contents catalog (upto (Z.of_nat (length (a_epochs h))) (a_epochs h))) Hdb ltac:(lia)) as (f' & x & Ex).
    rewrite Ex in Hgo. injection Hgo as <- <- <-. exists log. split; [|done].
    exists a. split_and!; [eapply db_weaken; [done|lia]|done..].
Qed.

(** The server's compaction is the log's at its last epoch. *)
Lemma engine_compact_db (e : E) sd sd1 :
  engine_checkpoint e sd = (sd1, e, Ok tt) -> e_catalog e = catalog ->
  exists r, engine_compact e sd =
    (let '(d, log, _) := db_compact catalog (sd_log sd1) (e_log e) (log_sealed_epoch (e_log e)) inert in
     (with_sd_log d sd1, with_log log e, r)).
Proof.
  intros Hc Hca. unfold engine_compact, db_compact. rewrite Hc, Hca.
  destruct (accumulated_upto _ _ _ _) as [integrals|x].
  - destruct (Compaction.compact _ _ _ _ _) as [[[f d] log] r]. by eexists.
  - exists (Err (SrvBatch x)). by destruct sd1, e.
Qed.

Lemma compact_serves k sd (e : E) sp sd' (e' : E) r :
  serves k sd e sp -> k + 1 < 2 ^ 62 -> within_limits (sp_log sp) ->
  engine_compact e sd = (sd', e', r) -> serves (k + 1) sd' e' sp.
Proof.
  intros Hs Hk Hw Hgo. destruct (engine_checkpoint e sd) as [[sd1 e1] r1] eqn:Ec.
  destruct (checkpoint_frame _ _ _ _ _ Ec) as (-> & Hd & Hr). destruct r1 as [[]|x].
  - destruct (engine_compact_db e sd sd1 Ec (sv_catalog _ _ _ _ _ _ _ Hs)) as [r2 Hgo2]. rewrite Hgo in Hgo2.
    destruct (db_compact _ _ _ _ _) as [[d log] r3] eqn:Ed. rewrite Hd in Ed. injection Hgo2 as -> -> ->.
    destruct (compaction_view k (sp_log sp) (sd_log sd) (e_log e) inert d log r3 (sv_log _ _ _ _ _ _ _ Hs) ltac:(lia) Hw Ed) as (log'' & Hv & Hun).
    rewrite <- Hun in Hv by done.
    eapply log_serves; [exact Hs|exact Hv|done..].
  - unfold engine_compact in Hgo. rewrite Ec in Hgo. injection Hgo as <- <- <-.
    eapply log_serves; [exact Hs|rewrite Hd; eapply view_weaken; [apply Hs|lia]|done..].
Qed.

Lemma checkpoint_serves k sd (e : E) sp sd' (e' : E) r :
  serves k sd e sp -> engine_checkpoint e sd = (sd', e', r) -> serves k sd' e' sp.
Proof.
  intros Hs Hgo. destruct (checkpoint_frame _ _ _ _ _ Hgo) as (-> & Hd & Hr).
  eapply log_serves; [exact Hs|rewrite Hd; apply Hs|done..].
Qed.

(** ** Dying *)

(** What a dying process leaves on disk. *)
Definition left_behind (e : E) sd (death : Death) : ServerDisk :=
  match death with
  | DieIdle => sd
  | DieAppending b => let '(_, d, _, _) := log_append (e_log e) (sd_log sd) dying b in with_sd_log d sd
  | DieCheckpointing plan => let '(_, root, _) := take_checkpoint (sd_ckpt sd) (dataflow (e_memo e)) (planned plan) in with_ckpt root sd
  | DieCompacting plan =>
      let '(sd, _, r) := engine_checkpoint e sd in
      match r with
      | Err _ => sd
      | Ok _ => let '(d, _, _) := db_compact (e_catalog e) (sd_log sd) (e_log e) (log_sealed_epoch (e_log e)) (planned plan) in with_sd_log d sd
      end
  end.

Definition spec_death sp (death : Death) : ServerSpec :=
  match death with DieAppending b => mkSpec (abs_append catalog (sp_log sp) b).1 (sp_registry sp) | _ => sp end.

Definition death_ok (death : Death) : bool :=
  match death with DieAppending b => record_ok (batch_record b) | _ => true end.

(** A disk a server can be started from. *)
Record restorable (k : Z) sd sp (log : Log) : Prop := {
  rs_log : db_view policy catalog k (sp_log sp) (sd_log sd) log;
  rs_storable : storable_registry (sp_registry sp);
  rs_file : registry_load (sd_registry sd) = Ok (sp_registry sp);
  rs_known : known_entries catalog U (reg_entries (sp_registry sp))
}.

Lemma death_restorable k sd (e : E) sp death :
  serves k sd e sp -> death_ok death = true -> k + 1 < 2 ^ 62 -> within_limits (sp_log (spec_death sp death)) ->
  exists log, restorable (k + 1) (left_behind e sd death) (spec_death sp death) log.
Proof.
  intros [Hc Hl _ _ Hst Hf Hkn] Hok Hk Hw. pose proof (view_weaken policy catalog k (k + 1) _ _ _ Hl ltac:(lia)) as Hl'.
  destruct death as [|b|plan|plan]; cbn [left_behind spec_death death_ok] in *.
  - exists (e_log e). by split.
  - destruct Hl as (a & Hdb & Hp & Hka & Hfa). destruct (db_log _ _ _ _ _ _ _ Hdb) as [base Hinv].
    destruct (crash_inv _ _ _ _ _ _ _ Hinv Hok) as (f & d' & log0 & r & log' & -> & Hinv' & Hframe). exists log'. split; try done.
    by eapply db_append_view.
  - exists (e_log e). destruct (take_checkpoint _ _ _) as [[? ?] ?]. by split.
  - destruct (engine_checkpoint e sd) as [[sd1 e1] r1] eqn:Ec. destruct (checkpoint_frame _ _ _ _ _ Ec) as (-> & Hd & Hr).
    destruct r1 as [[]|x]; [|exists (e_log e); split; rewrite ?Hd, ?Hr; done]. rewrite Hd, Hc.
    destruct (db_compact _ _ _ _ _) as [[d log] r3] eqn:Ed.
    destruct (compaction_view k _ _ _ _ _ _ _ Hl ltac:(lia) Hw Ed) as (log'' & Hv & _). exists log''. split; try done.
    cbn [sd_registry with_sd_log]. by rewrite Hr.
Qed.

(** ** Restarting *)

(** The engine [open] has before it rebuilds the registrations. *)
Definition started (log : Log) (gp : Policy) (reg : Registry) (every n : Z) : E :=
  mkEngine catalog log (blank_memo catalog fresh_factory n) (gate_new gp) bt_empty reg every.

Lemma open_parts_spec k sd sp log gp every :
  restorable k sd sp log ->
  open_parts sd catalog gp policy every =
  (with_ckpt (drop_partials (sd_ckpt sd)) sd, Ok (started log gp (sp_registry sp) every (retained_from log))).
Proof.
  intros [(a & Hdb & _) _ Hf _]. unfold open_parts. pose proof (db_reopen policy catalog _ _ _ _ _ log Hdb) as Hre.
  unfold reopen in Hre. destruct (log_open _ _ _ _) as [f [log1|]]; [|done]. cbn [snd] in Hre. injection Hre as ->.
  cbn [ckpt_load]. unfold memo_set_epoch, set_epoch. cbn [dataflow without_input_cache memo_build].
  pose proof (db_from _ _ _ _ _ _ _ Hdb). rewrite (proj2 (Z.ltb_ge _ _)) by (rewrite (db_retained _ _ _ _ _ _ _ Hdb); simpl; lia).
  cbn [sd_registry with_ckpt]. by rewrite Hf.
Qed.

Lemma replay_spec k sd sp log gp every root :
  restorable k sd sp log -> k < 2 ^ 62 ->
  replay (started log gp (sp_registry sp) every (retained_from log)) (with_ckpt root sd) =
  (started log gp (sp_registry sp) every (Z.of_nat (length (a_epochs (sp_log sp)))), Ok tt).
Proof.
  intros [Hv _ _ _] Hk. pose proof (view_bound _ _ _ _ _ _ Hv) as Hb. destruct Hv as (a & Hdb & _). unfold replay. cbn [started e_log e_memo sd_log with_ckpt].
  pose proof (db_from _ _ _ _ _ _ _ Hdb). rewrite (db_retained _ _ _ _ _ _ _ Hdb).
  erewrite blank_replay; [|by eapply retained_epochs_deltas|lia|rewrite length_map, length_drop; lia].
  rewrite length_map, length_drop. unfold with_memo, started. cbn [e_catalog e_log e_gate e_standing e_registry e_checkpoint_every].
  do 3 f_equal. lia.
Qed.

(** Every query is installed, its catch-up within machine range. *)
Fixpoint rebuild_small (e : E) sd (entries : list Entry) : bool :=
  match entries with
  | [] => true
  | entry :: entries' =>
      install_small e sd entry && (next_handle (e_memo e) + 1 <? 2 ^ 64) &&
      match install e sd entry with (e', Ok _) => rebuild_small e' sd entries' | (_, Err _) => false end
  end.

Definition restart_small sd (gp : Policy) (every : Z) : bool :=
  match open_parts sd catalog gp policy every with
  | (sd, Ok e) =>
      match replay e sd with
      | (e, Ok _) => rebuild_small e sd (map snd (reg_entries (e_registry e)))
      | (_, Err _) => false
      end
  | (_, Err _) => false
  end.

Lemma rebuild_spec k sd h : forall (l : list (Z * Entry)) (e : E) st fin,
  separated U -> e_catalog e = catalog -> db_view policy catalog k h (sd_log sd) (e_log e) ->
  memo_inv U (e_memo e) st -> covers st (a_epochs h) -> all_stand catalog st (a_epochs h) fin (e_standing e) ->
  Forall (fun p => entry_handle p.2 = p.1 /\ exists plan, compile (entry_sql p.2) catalog = Ok plan /\ admissible U plan) l ->
  NoDup (map fst l) -> Forall (fun p => bt_get p.1 fin = None) l -> rebuild_small e sd (map snd l) = true ->
  exists m' standing' st', rebuild_registrations e sd (map snd l) = with_standing standing' (with_memo m' e) /\
    memo_inv U m' st' /\ covers st' (a_epochs h) /\
    all_stand catalog st' (a_epochs h) (fold_left (fun acc p => bt_insert p.1 p.2 acc) l fin) standing'.
Proof.
  induction l as [|[id entry] l IH]; intros e st fin Hsep Hc Hv Hi Hcov Has Hl Hnd Hfin Hsm.
  { exists (e_memo e), (e_standing e), st. by destruct e. }
  cbn [map snd rebuild_small] in Hsm. rewrite !andb_true_iff, Z.ltb_lt in Hsm. destruct Hsm as [[Hs1 Hlt] Hsm].
  destruct (install e sd entry) as [e1 [[]|]] eqn:Ei; [|done].
  apply Forall_cons in Hl as [[Hid (plan & Hp & Hadm)] Hl]. apply Forall_cons in Hfin as [Hf1 Hfin].
  cbn [map fst] in Hnd. apply NoDup_cons in Hnd as [Hni Hnd]. cbn [fst snd] in *.
  assert (next_handle (e_memo e) = issued st) as Hnx by (destruct Hi as [Q Hm]; apply (mo_next _ _ _ _ Hm)).
  destruct (install_spec policy catalog U k h sd e e1 entry st plan) as (s & m' & -> & Hi' & Hs' & Hh'); try done; [lia|].
  rewrite Hid in *. cbn [map snd rebuild_registrations fold_left fst]. rewrite Ei.
  destruct (IH (with_standing (bt_insert id s (e_standing e)) (with_memo m' e)) (stand st plan) (bt_insert id entry fin))
    as (m2 & sta2 & st2 & -> & Hrest); try done.
  - by eapply all_stand_insert.
  - apply Forall_forall. intros [id' en'] Hin. cbn [fst]. rewrite bt_get_insert_ne; [by apply (Forall_forall _ l) with (x := (id', en')) in Hfin|].
    intros ->. apply Hni. apply list_elem_of_fmap. by exists (id, en').
  - by exists m2, sta2, st2.
Qed.

Lemma open_spec k sd sp log gp every :
  restorable k sd sp log -> k < 2 ^ 62 ->
  let sd' := with_ckpt (drop_partials (sd_ckpt sd)) sd in
  engine_open sd catalog gp policy every =
  (sd', Ok (rebuild_registrations (started log gp (sp_registry sp) every (Z.of_nat (length (a_epochs (sp_log sp))))) sd'
              (map snd (reg_entries (sp_registry sp))))).
Proof.
  intros Hr Hk. cbn zeta. unfold engine_open. by rewrite (open_parts_spec _ _ _ _ _ _ Hr), (replay_spec _ _ _ _ _ _ _ Hr Hk).
Qed.

Lemma storable_handles r : storable_registry r ->
  Forall (fun p => entry_handle p.2 = p.1) (reg_entries r) /\ NoDup (map fst (reg_entries r)).
Proof.
  intros (Hs & Hf & _)%storable_iff. split.
  - eapply Forall_impl; [exact Hf|]. intros p [Hp _]. unfold storable_entry, valid_entry_of in Hp.
    rewrite !andb_true_iff, Z.eqb_eq in Hp. tauto.
  - induction (reg_entries r) as [|[id en] l IH]; [constructor|]. apply bt_sorted_cons_inv in Hs as [Hs Hall].
    apply Forall_cons in Hf as [_ Hf]. cbn [map fst]. constructor; [|by apply IH]. intros ([id' en'] & Hid & Hin)%list_elem_of_fmap.
    cbn [fst] in Hid. subst. apply (Forall_forall _ l) with (x := (id', en')) in Hall; [|done]. cbn [fst] in Hall. by rewrite cmp_refl in Hall.
Qed.

Lemma bt_rebuilt (entries : btree Z Entry) : bt_sorted entries -> fold_left (fun acc p => bt_insert p.1 p.2 acc) entries bt_empty = entries.
Proof.
  intros Hs. rewrite (bt_collect (fun _ en => en)) by done. unfold bt_map. clear Hs. induction entries as [|[] l IH]; [done|].
  cbn [map fst snd]. by rewrite IH.
Qed.

Lemma open_serves k sd sp log gp every sd' (e' : E) :
  separated U -> restorable k sd sp log -> k < 2 ^ 62 -> restart_small sd gp every = true ->
  engine_open sd catalog gp policy every = (sd', Ok e') -> serves k sd' e' sp.
Proof.
  intros Hsep Hr Hk Hsm. rewrite (open_spec _ _ _ _ _ _ Hr Hk). intros [= <- <-].
  unfold restart_small in Hsm. rewrite (open_parts_spec _ _ _ _ _ _ Hr), (replay_spec _ _ _ _ _ _ _ Hr Hk) in Hsm.
  destruct Hr as [Hv Hst Hf Hkn]. destruct (storable_handles _ Hst) as [Hh Hnd]. set (n := Z.of_nat (length (a_epochs (sp_log sp)))) in *.
  set (sd' := with_ckpt _ _) in *.
  destruct (rebuild_spec k sd' (sp_log sp) (reg_entries (sp_registry sp)) (started log gp (sp_registry sp) every n)
    (nothing_over (map epoch_delta (a_epochs (sp_log sp))) n) bt_empty) as (m' & standing' & st' & -> & Hi & Hc & Ha); try done.
  - apply blank_inv. lia.
  - split; [done|]. intros t. cbn [MemoCorrect.sealed nothing_over]. by rewrite accumulate_epochs.
  - by split; [constructor| |].
  - apply Forall_forall. intros p Hp. split; [by apply (Forall_forall _ _) with (x := p) in Hh|by apply (Forall_forall _ _) with (x := p) in Hkn].
  - by apply Forall_true.
  - rewrite bt_rebuilt in Ha by (by apply storable_iff in Hst as [? _]). split; try done. by exists st'.
Qed.

(** Rebuilding drops no registration, and moves nothing but the memo. *)
Lemma install_frame (e : E) sd entry e' r :
  install e sd entry = (e', r) ->
  e_log e' = e_log e /\ e_registry e' = e_registry e /\ e_catalog e' = e_catalog e /\ e_gate e' = e_gate e /\
  match r with
  | Ok _ => exists s, e_standing e' = bt_insert (entry_handle entry) s (e_standing e)
  | Err _ => e_standing e' = e_standing e
  end.
Proof.
  unfold install. destruct (map_err SrvSql _) as [plan|]; [|by intros [= <- <-]].
  destruct (catch_up_chunks _ _ _) as [[chunks failure]|]; [|by intros [= <- <-]].
  destruct (register_from_chunks _ _ _ _) as [m [handle|]]; [|by intros [= <- <-]]. destruct failure as [x|].
  - destruct (deregister m handle) as [m1 [[]|]]; by intros [= <- <-].
  - intros [= <- <-]. split_and!; [done..|]. by eexists.
Qed.

Lemma rebuild_frame sd entries : forall (e : E),
  let e' := rebuild_registrations e sd entries in
  e_log e' = e_log e /\ e_registry e' = e_registry e /\ e_catalog e' = e_catalog e /\ e_gate e' = e_gate e /\
  forall id, is_Some (bt_get id (e_standing e')) <-> is_Some (bt_get id (e_standing e)) \/ id ∈ map entry_handle entries.
Proof.
  induction entries as [|entry entries IH]; intros e; cbn [rebuild_registrations map].
  { split_and!; [done..|]. intros id. split; [by left|]. intros [Hs|Hn]; [done|]. by apply elem_of_nil in Hn. }
  assert (forall (e1 : E) s, e_standing e1 = bt_insert (entry_handle entry) s (e_standing e) ->
    e_log e1 = e_log e -> e_registry e1 = e_registry e -> e_catalog e1 = e_catalog e -> e_gate e1 = e_gate e ->
    let e' := rebuild_registrations e1 sd entries in
    e_log e' = e_log e /\ e_registry e' = e_registry e /\ e_catalog e' = e_catalog e /\ e_gate e' = e_gate e /\
    forall id, is_Some (bt_get id (e_standing e')) <-> is_Some (bt_get id (e_standing e)) \/ id ∈ entry_handle entry :: map entry_handle entries) as Hgo.
  { intros e1 s Hst <- <- <- <-. cbn zeta. destruct (IH e1) as (-> & -> & -> & -> & Hid). split_and!; [done..|].
    intros id. rewrite Hid, Hst, bt_get_insert, elem_of_cons. case_cmp_eqb id (entry_handle entry); [subst|]; naive_solver. }
  destruct (install e sd entry) as [e1 [[]|x]] eqn:Ei; destruct (install_frame _ _ _ _ _ Ei) as (Hl & Hr & Hc & Hg & Hs).
  - destruct Hs as [s Hs]. by eapply Hgo.
  - eapply Hgo; [cbn [e_standing with_standing]; by rewrite Hs|done..].
Qed.

(** ** Runs *)

(** What a server and its disk go through, and the abstract server with them.
    The guards bound counters and weights by their machine widths; [seal] is one
    whose memo step succeeds, [register] one that succeeds. *)
Inductive serving (gp : Policy) (every : Z) : Z -> ServerDisk -> E -> ServerSpec -> Prop :=
| serve_new sd e :
    engine_open empty_server_disk catalog gp policy every = (sd, Ok e) -> serving gp every 0 sd e new_spec
| serve_ingest k sd e sp source table token entries sd' e' r :
    serving gp every k sd e sp -> record_ok (batch_record (mkLogBatch source token table entries)) = true -> k + 1 < 2 ^ 62 ->
    within_limits (abs_append catalog (sp_log sp) (mkLogBatch source token table entries)).1 ->
    engine_ingest e sd source table token entries = (sd', e', r) ->
    serving gp every (k + 1) sd' e' (spec_ingest catalog sp (mkLogBatch source token table entries) r)
| serve_seal k sd e sp sd' e' r m' ep :
    serving gp every k sd e sp -> k + 1 < 2 ^ 62 -> within_limits (abs_seal (sp_log sp)).1 ->
    pass_small (dataflow (e_memo e)) (epoch_delta (log_pending (e_log e))) None = true ->
    seal_epoch (e_memo e) (epoch_delta (log_pending (e_log e))) = (m', Ok ep) ->
    engine_seal e sd = (sd', e', r) -> serving gp every (k + 1) sd' e' (spec_seal sp)
| serve_register k sd e sp sql adm plan sd' e' id :
    serving gp every k sd e sp -> compile sql catalog = Ok plan -> admissible U plan ->
    (let entry := mkEntry (reg_next_handle (sp_registry sp)) sql adm in
     install_small e sd entry = true /\ storable_entry (entry_handle entry, entry) = true) ->
    reg_next_handle (sp_registry sp) + 1 < 2 ^ 64 -> next_handle (e_memo e) + 1 < 2 ^ 64 ->
    engine_register e sd sql adm = (sd', e', Ok id) -> serving gp every k sd' e' (spec_register sp sql adm)
| serve_deregister k sd e sp id sd' e' :
    serving gp every k sd e sp -> engine_deregister e sd id = (sd', e', Ok tt) -> serving gp every k sd' e' (spec_deregister sp id)
| serve_checkpoint k sd e sp sd' e' r :
    serving gp every k sd e sp -> engine_checkpoint e sd = (sd', e', r) -> serving gp every k sd' e' sp
| serve_compact k sd e sp sd' e' r :
    serving gp every k sd e sp -> k + 1 < 2 ^ 62 -> within_limits (sp_log sp) ->
    engine_compact e sd = (sd', e', r) -> serving gp every (k + 1) sd' e' sp
| serve_restart k sd e sp death sd' e' :
    serving gp every k sd e sp -> death_ok death = true -> k + 1 < 2 ^ 62 -> within_limits (sp_log (spec_death sp death)) ->
    restart_small (left_behind e sd death) gp every = true ->
    engine_open (left_behind e sd death) catalog gp policy every = (sd', Ok e') ->
    serving gp every (k + 1) sd' e' (spec_death sp death).

Lemma new_restorable : restorable 0 empty_server_disk new_spec (new_log policy catalog).
Proof.
  split; [apply new_view|apply storable_iff; cbn; split_and!; [constructor|constructor|lia|lia]|done|constructor].
Qed.

Lemma serving_inv gp every k sd e sp : separated U -> serving gp every k sd e sp -> serves k sd e sp.
Proof.
  intros Hsep. induction 1 as [sd e Ho|k sd e sp source table token entries sd' e' r _ IH Hok Hk Hw Hgo
    |k sd e sp sd' e' r m' ep _ IH Hk Hw Hsm Hse Hgo|k sd e sp sql adm plan sd' e' id _ IH Hp Ha Hg Hn Hm Hgo
    |k sd e sp id sd' e' _ IH Hgo|k sd e sp sd' e' r _ IH Hgo|k sd e sp sd' e' r _ IH Hk Hw Hgo
    |k sd e sp death sd' e' _ IH Hok Hk Hw Hsm Hgo].
  - eapply open_serves; [done|apply new_restorable|lia|done|exact Ho].
  - by eapply ingest_serves.
  - by eapply seal_serves.
  - by eapply register_serves.
  - pose proof (deregister_serves policy catalog U k sd e sp id IH) as Hd. destruct (bt_get id _); [|congruence].
    destruct Hd as (sd1 & e1 & E1 & Hs). rewrite Hgo in E1. by injection E1 as -> ->.
  - by eapply checkpoint_serves.
  - by eapply compact_serves.
  - destruct (death_restorable k sd e sp death IH Hok Hk Hw) as [log Hr]. by eapply open_serves.
Qed.

(** ** Running a list of operations *)

(** One step, with the guards of [serving] that compute. *)
Definition serve_step (gp : Policy) (every : Z) (st : Z * ServerDisk * E * ServerSpec) (op : ServerOp)
    : option (Z * ServerDisk * E * ServerSpec) :=
  let '(k, sd, e, sp) := st in
  match op with
  | OIngest b =>
      let '(sd', e', r) := engine_ingest e sd (source_id b) (batch_table b) (dedup_token b) (batch_rows b) in
      if record_ok (batch_record b) && (k + 1 <? 2 ^ 62) && limits_ok (abs_append catalog (sp_log sp) b).1
      then Some (k + 1, sd', e', spec_ingest catalog sp b r) else None
  | OSeal =>
      let '(sd', e', r) := engine_seal e sd in
      if (k + 1 <? 2 ^ 62) && limits_ok (abs_seal (sp_log sp)).1 &&
         pass_small (dataflow (e_memo e)) (epoch_delta (log_pending (e_log e))) None &&
         match seal_epoch (e_memo e) (epoch_delta (log_pending (e_log e))) with (_, Ok _) => true | _ => false end
      then Some (k + 1, sd', e', spec_seal sp) else None
  | ORegister sql adm =>
      let entry := mkEntry (reg_next_handle (sp_registry sp)) sql adm in
      match engine_register e sd sql adm with
      | (sd', e', Ok _) =>
          if install_small e sd entry && storable_entry (entry_handle entry, entry) &&
             (reg_next_handle (sp_registry sp) + 1 <? 2 ^ 64) && (next_handle (e_memo e) + 1 <? 2 ^ 64)
          then Some (k, sd', e', spec_register sp sql adm) else None
      | _ => None
      end
  | ODeregister id => match engine_deregister e sd id with (sd', e', Ok _) => Some (k, sd', e', spec_deregister sp id) | _ => None end
  | OCheckpoint => let '(sd', e', _) := engine_checkpoint e sd in Some (k, sd', e', sp)
  | OCompact =>
      let '(sd', e', _) := engine_compact e sd in
      if (k + 1 <? 2 ^ 62) && limits_ok (sp_log sp) then Some (k + 1, sd', e', sp) else None
  | ORestart death =>
      match engine_open (left_behind e sd death) catalog gp policy every with
      | (sd', Ok e') =>
          if death_ok death && (k + 1 <? 2 ^ 62) && limits_ok (sp_log (spec_death sp death)) && restart_small (left_behind e sd death) gp every
          then Some (k + 1, sd', e', spec_death sp death) else None
      | _ => None
      end
  end.

Fixpoint serve_ops (gp : Policy) (every : Z) (st : Z * ServerDisk * E * ServerSpec) (ops : list ServerOp)
    : option (Z * ServerDisk * E * ServerSpec) :=
  match ops with [] => Some st | op :: ops' => st' ← serve_step gp every st op; serve_ops gp every st' ops' end.

Definition serve_all (gp : Policy) (every : Z) (ops : list ServerOp) : option (Z * ServerDisk * E * ServerSpec) :=
  match engine_open empty_server_disk catalog gp policy every with
  | (sd, Ok e) => serve_ops gp every (0, sd, e, new_spec) ops
  | _ => None
  end.

(** The queries of the run compile to plans of [U]. *)
Definition op_known (op : ServerOp) : Prop :=
  match op with ORegister sql _ => exists plan, compile sql catalog = Ok plan /\ admissible U plan | _ => True end.

Lemma serve_step_serving gp every k sd e sp op k' sd' e' sp' :
  serving gp every k sd e sp -> op_known op -> serve_step gp every (k, sd, e, sp) op = Some (k', sd', e', sp') ->
  serving gp every k' sd' e' sp'.
Proof.
  intros Hs Hop. destruct op as [[src tok tbl rows]| |sql adm|id| | |death]; cbn [serve_step source_id batch_table dedup_token batch_rows].
  - destruct (engine_ingest _ _ _ _ _ _) as [[sd1 e1] r] eqn:Eg. destruct (_ && _) eqn:Ec; [|done]. intros [= <- <- <- <-].
    rewrite !andb_true_iff, Z.ltb_lt in Ec. destruct Ec as [[H6 H7] H8%limits_ok_within]. by eapply serve_ingest.
  - destruct (engine_seal e sd) as [[sd1 e1] r] eqn:Eg. destruct (seal_epoch _ _) as [m1 [ep|]] eqn:Em; [|by rewrite andb_false_r].
    destruct (_ && _) eqn:Ec; [|done]. intros [= <- <- <- <-]. rewrite !andb_true_iff, Z.ltb_lt in Ec.
    destruct Ec as [[[H6 H7%limits_ok_within] H8] _]. by eapply serve_seal.
  - destruct (engine_register _ _ _ _) as [[sd1 e1] [id|]] eqn:Eg; [|done]. destruct (_ && _) eqn:Ec; [|done]. intros [= <- <- <- <-].
    rewrite !andb_true_iff, !Z.ltb_lt in Ec. destruct Ec as [[[H6 H7] H8] H9]. destruct Hop as (plan & Hp & Ha). by eapply serve_register.
  - destruct (engine_deregister _ _ _) as [[sd1 e1] [[]|]] eqn:Eg; [|done]. intros [= <- <- <- <-]. by eapply serve_deregister.
  - destruct (engine_checkpoint _ _) as [[sd1 e1] r] eqn:Eg. intros [= <- <- <- <-]. by eapply serve_checkpoint.
  - destruct (engine_compact _ _) as [[sd1 e1] r] eqn:Eg. destruct (_ && _) eqn:Ec; [|done]. intros [= <- <- <- <-].
    apply andb_true_iff in Ec as [H6%Z.ltb_lt H7%limits_ok_within]. by eapply serve_compact.
  - destruct (engine_open _ _ _ _ _) as [sd1 [e1|]] eqn:Eg; [|done]. destruct (_ && _) eqn:Ec; [|done]. intros [= <- <- <- <-].
    rewrite !andb_true_iff, Z.ltb_lt in Ec. destruct Ec as [[[H6 H7] H8%limits_ok_within] H9]. by eapply serve_restart.
Qed.

Lemma serve_ops_serving gp every ops : forall k sd e sp k' sd' e' sp',
  serving gp every k sd e sp -> Forall op_known ops -> serve_ops gp every (k, sd, e, sp) ops = Some (k', sd', e', sp') ->
  serving gp every k' sd' e' sp'.
Proof.
  induction ops as [|op ops IH]; intros k sd e sp k' sd' e' sp' Hs Hop; cbn [serve_ops]; [by intros [= <- <- <- <-]|].
  apply Forall_cons in Hop as [Ho Hops]. destruct (serve_step gp every (k, sd, e, sp) op) as [[[[k1 sd1] e1] sp1]|] eqn:E1; [|done].
  cbn [mbind option_bind]. apply IH; [by eapply serve_step_serving|done].
Qed.

Lemma serve_all_serving gp every ops k sd e sp :
  Forall op_known ops -> serve_all gp every ops = Some (k, sd, e, sp) -> serving gp every k sd e sp.
Proof.
  intros Hops. unfold serve_all. destruct (engine_open _ _ _ _ _) as [sd0 [e0|]] eqn:Eo; [|done].
  apply serve_ops_serving; [by apply serve_new|done].
Qed.
End server.
