(* ===== verification/ServerExample.v ===== *)
(** * A server to run

    Instances for concrete runs: a catalog of one table, a dialect of three
    queries, in-memory operator state, and the modelled Parquet files. *)

From Stdlib Require Import ZArith NArith Lia.
From stdpp Require Import base list strings pretty.
From S2P Require Import Prelude BTree ZAlg Value ZSet Plan Bind Codec State Operator ResultStore Circuit Dataflow Engine Compile Text LogRecord Log LogCorrect PlanForm MemoGraph Memo MemoAttach MemoShare MemoCorrect MemoLaws Snapshot SnapshotCorrect Compaction CompactionCorrect CompactionLaws ParquetModel Checkpoint ServerParts Server ServerInv ServerLaws.

Definition shop_debug : Debug := {| debug_wide s := s; debug_f64 b := pretty b |}.
Definition shop_texts : ErrorText := {| server_error_text _ := "an error"%string; memo_error_text _ := "an error"%string |}.

Definition shop_catalog : Catalog := [("orders"%string, mkSchema [mkField "id" Int64 false; mkField "amount" Int64 true])].

Definition amounts_sql : string := "SELECT o.amount AS amount FROM orders AS o".
Definition amounts : Query := mkQuery (Scan "orders" "o") None None (Some [mkNamed "amount"%string (EColumn "o.amount")]) false.

Definition kinds_sql : string := "SELECT DISTINCT o.id AS id FROM orders AS o".
Definition kinds : Query := mkQuery (Scan "orders" "o") None None (Some [mkNamed "id"%string (EColumn "o.id")]) true.

Definition shop_sql : SqlText :=
  fun sql => if decide (sql = amounts_sql) then Ok amounts else if decide (sql = kinds_sql) then Ok kinds else Err (Parse sql).

Definition shop_factory : FreshFactory MemFactory := mkMemFactory [].

Definition shop_plan (q : Query) : CircuitPlan :=
  match incrementalize_typed q shop_catalog with Ok plan => plan | Err _ => mkPlan (CSource "" "" (mkSchema [])) (mkSchema []) end.

(** The subtrees of the two queries, which share the scan. *)
Definition shop_known : list CircuitNode :=
  walk (root (canonicalize (shop_plan amounts))) ++ tail (walk (root (canonicalize (shop_plan kinds)))).

#[local] Existing Instances shop_debug shop_texts shop_sql shop_factory.

Lemma shop_separated : separated (fun n => n ∈ shop_known).
Proof. apply separated_list. apply (bool_decide_unpack _). vm_compute. exact I. Qed.

Lemma shop_admissible q : q = amounts \/ q = kinds -> admissible (fun n => n ∈ shop_known) (shop_plan q).
Proof.
  intros Hq. split.
  - destruct Hq as [-> | ->]; [apply (compiled_NoDup amounts shop_catalog)|apply (compiled_NoDup kinds shop_catalog)]; reflexivity.
  - intros n Hn. destruct Hq as [-> | ->]; apply elem_of_app; [by left|].
    assert (walk (root (canonicalize (shop_plan kinds))) = take 1 (walk (root (canonicalize (shop_plan amounts)))) ++
      tail (walk (root (canonicalize (shop_plan kinds))))) as Hw by (vm_compute; reflexivity).
    rewrite Hw in Hn. apply elem_of_app in Hn as [Hn|Hn]; [left|by right].
    by apply elem_of_take in Hn as (i & Hi & _); eapply list_elem_of_lookup_2.
Qed.

Lemma amounts_known : exists plan, compile amounts_sql shop_catalog = Ok plan /\ admissible (fun n => n ∈ shop_known) plan.
Proof. exists (shop_plan amounts). split; [reflexivity|apply shop_admissible; by left]. Qed.

Lemma kinds_known : exists plan, compile kinds_sql shop_catalog = Ok plan /\ admissible (fun n => n ∈ shop_known) plan.
Proof. exists (shop_plan kinds). split; [reflexivity|apply shop_admissible; by right]. Qed.

Definition order (source token : string) (id amount w : Z) : Batch := mkLogBatch source token "orders" [([VInt id; VInt amount], w)].

(** A day: an epoch, two queries, a second epoch, a compaction, a death in an
    append, a third epoch, a compaction that dies before its pointer moves, a
    query retired and a fourth epoch. *)
Definition day : list ServerOp :=
  [OIngest (order "web" "a" 1 5 1); OSeal; ORegister amounts_sql bounded; ORegister kinds_sql bounded;
   OIngest (order "web" "b" 2 7 1); OSeal; OCompact; ORestart (DieAppending (order "web" "c" 1 9 1));
   OIngest (order "web" "c" 1 9 1); OSeal; ORestart (DieCompacting (mkFaultPlan CompactAfterSegmentBeforePointer 1));
   ODeregister 1; OIngest (order "shop" "d" 2 7 (-1)); OSeal].

Abbreviation served := (serve_all (F := MemFactory) (B := MemBackend) Full shop_catalog default_policy 2 day).

Definition idle_engine : @Engine MemFactory MemBackend :=
  mkEngine shop_catalog (new_log Full shop_catalog) (blank_memo shop_catalog (mkMemFactory []) 0) (gate_new default_policy) bt_empty registry_default 0.

Definition day_state : Z * ServerDisk * @Engine MemFactory MemBackend * ServerSpec :=
  Eval vm_compute in default (0, empty_server_disk, idle_engine, new_spec) served.

Lemma day_served : served = Some (day_state.1.1.1, day_state.1.1.2, day_state.1.2, day_state.2).
Proof. vm_compute. reflexivity. Qed.

Lemma day_known : Forall (op_known shop_catalog (fun n => n ∈ shop_known)) day.
Proof.
  unfold day. repeat (apply Forall_cons; split; [first [exact amounts_known|exact kinds_known|exact I]|]). by apply Forall_nil.
Qed.

Lemma day_serving :
  serving Full shop_catalog (fun n => n ∈ shop_known) default_policy 2 day_state.1.1.1 day_state.1.1.2 day_state.1.2 day_state.2.
Proof. exact (serve_all_serving Full shop_catalog _ default_policy 2 day _ _ _ _ day_known day_served). Qed.
