(* ===== verification/ServerTheorems.v ===== *)
(** * What the server promises

    Reads follow the registered queries over everything sealed, whatever
    compactions, deaths and restarts came between; a server always comes back; a
    subscription delivers every epoch's difference or says it cannot.

    Its later parts: per-source admission; retracting a source; where the
    server's promises stop. *)

From Stdlib Require Import ZArith NArith Lia.
From stdpp Require Import base list strings pretty.
From S2P Require Import Prelude BTree ZAlg Value ZSet Plan Bind Codec State Operator ResultStore Circuit Dataflow Engine Compile Text LogRecord Log LogCorrect PlanForm MemoGraph Memo MemoAttach MemoShare MemoCorrect MemoLaws Snapshot SnapshotCorrect Compaction CompactionCorrect CompactionLaws ParquetModel Checkpoint ServerParts Server ServerInv ServerLaws ServerExample.

(** ** Deltas *)

Lemma deltas_in_nil f lo hi : hi <= lo -> deltas_in f lo hi = [].
Proof. intros Hle. unfold deltas_in, epochs_after. by replace (Z.to_nat (hi - lo)) with 0%nat by lia. Qed.

(** The deltas after a token. *)
Lemma deltas_after f from hi : forall n lo,
  n = Z.to_nat (hi - lo) ->
  base.filter (fun dl => from < delta_epoch dl) (deltas_in f lo hi) = deltas_in f (Z.max lo from) hi.
Proof.
  induction n as [|n IH]; intros lo Hn.
  - by rewrite !deltas_in_nil by lia.
  - rewrite (deltas_in_cons f lo hi), filter_cons by lia. cbn [delta_epoch delta_at]. case_decide as Hd.
    + rewrite IH by lia. rewrite (deltas_in_cons f (Z.max lo from) hi) by lia.
      by replace (Z.max lo from) with lo by lia; replace (Z.max (lo + 1) from) with (lo + 1) by lia.
    + rewrite IH by lia. f_equal. lia.
Qed.

Lemma deltas_in_last f lo hi : lo < hi -> last (deltas_in f lo hi) = Some (delta_at f hi).
Proof.
  intros Hlt. unfold deltas_in. replace hi with ((hi - 1) + 1) at 1 by lia. rewrite epochs_after_snoc, map_app by lia. cbn [map].
  rewrite last_snoc. by replace (hi - 1 + 1) with hi by lia.
Qed.

(** ** A subscriber *)

(** A subscriber that keeps an answer's lines takes away the ones a delta marks
    with a minus sign and adds the ones it marks with a plus sign. *)
Definition apply_delta (known : list text) (delta : text) : list text :=
  base.filter (fun l => tx "- " ++ l ∉ lines delta) known ++ omap (strip_prefix (tx "+ ")) (lines delta).

(** Texts without carriage returns. *)
Definition no_cr (t : text) : bool := forallb (fun b => negb (b =? 13)%N) t.

Lemma lines_from_clean t : forall acc,
  no_cr (acc ++ t) = true -> forallb (fun b => negb (b =? 10)%N) acc = true -> Forall (fun l => one_line l = true) (lines_from acc t).
Proof.
  assert (forall l, no_cr l = true -> last l <> Some 13%N) as Hlast.
  { intros l Hl (l' & ->)%last_Some. unfold no_cr in Hl. rewrite forallb_app in Hl. simpl in Hl. by rewrite andb_false_r in Hl. }
  assert (forall l, no_cr l = true -> forallb (fun b => negb (b =? 10)%N) l = true -> one_line l = true /\ chop_cr l = l) as Hone.
  { intros l Hc Hn. specialize (Hlast l Hc). unfold one_line, chop_cr. rewrite Hn. cbn [andb].
    destruct (last l) as [[|p]|]; [done| |done]. do 4 (destruct p as [p|p|]; try done). }
  induction t as [|b t IH]; intros acc Hc Hn; cbn [lines_from].
  - rewrite app_nil_r in Hc. destruct acc; [constructor|]. repeat constructor. by apply Hone.
  - unfold no_cr in Hc. rewrite forallb_app in Hc. apply andb_true_iff in Hc as [Ha Hb]. cbn [forallb] in Hb. destruct (b =? 10)%N eqn:Eb.
    + apply andb_true_iff in Hb as [_ Hb]. destruct (Hone acc Ha Hn) as [H1 ->]. constructor; [done|]. by apply IH.
    + apply IH; [unfold no_cr; rewrite <- app_assoc, forallb_app; simpl; by rewrite Ha|]. rewrite forallb_app, Hn. simpl. by rewrite Eb.
Qed.

Lemma lines_clean t : no_cr t = true -> Forall (fun l => one_line l = true) (lines t).
Proof. intros Hc. by apply lines_from_clean. Qed.

Lemma one_line_marked p l : forallb (fun b => negb (b =? 10)%N) p = true -> last p <> Some 13%N -> one_line l = true -> one_line (p ++ l) = true.
Proof.
  intros Hp Hlast [Hl Hc]%andb_true_iff. unfold one_line. rewrite forallb_app, Hp, Hl. cbn [andb]. rewrite last_app.
  destruct (last l) as [x|]; [done|]. destruct (last p) as [[|q]|]; [done| |done]. do 4 (destruct q as [q|q|]; try done).
Qed.

(** The lines of a rendered delta are the marked ones. *)
Lemma delta_between_lines previous current :
  no_cr previous = true -> no_cr current = true ->
  lines (delta_between previous current) = match delta_lines previous current with [] => [tx "(no change)"] | ls => ls end.
Proof.
  intros Hp Hc. unfold delta_between. destruct (delta_lines previous current) as [|l0 ls0] eqn:Ed; [done|]. rewrite <- Ed. clear Ed l0 ls0.
  assert (Forall (fun l => one_line l = true) (delta_lines previous current)) as Hall.
  { unfold delta_lines. apply Forall_app. split; apply Forall_forall; intros l (l' & -> & [_ Hl']%list_elem_of_filter)%list_elem_of_fmap;
      (apply one_line_marked; [done|done|]); [pose proof (lines_clean _ Hc) as Ha|pose proof (lines_clean _ Hp) as Ha];
      by apply (Forall_forall _ _) with (x := l') in Ha. }
  induction Hall as [|l ls Hl _ IH]; [done|]. cbn [flat_map]. by rewrite lines_line, IH.
Qed.

Lemma delta_marks previous current l :
  no_cr previous = true -> no_cr current = true ->
  let delta := lines (delta_between previous current) in
  (tx "- " ++ l ∈ delta <-> l ∈ lines previous /\ l ∉ lines current) /\
  (l ∈ omap (strip_prefix (tx "+ ")) delta <-> l ∈ lines current /\ l ∉ lines previous).
Proof.
  intros Hp Hc. cbn zeta. rewrite (delta_between_lines _ _ Hp Hc).
  assert (forall x, x ∈ match delta_lines previous current with [] => [tx "(no change)"] | ls => ls end <->
    x ∈ delta_lines previous current \/ (delta_lines previous current = [] /\ x = tx "(no change)")) as Hin.
  { intros x. destruct (delta_lines previous current) as [|d ds]; [|naive_solver]. rewrite list_elem_of_singleton, elem_of_nil. naive_solver. }
  assert (forall x, x ∈ delta_lines previous current <->
    (exists y, x = tx "+ " ++ y /\ y ∈ lines current /\ y ∉ lines previous) \/ (exists y, x = tx "- " ++ y /\ y ∈ lines previous /\ y ∉ lines current)) as Hdl.
  { intros x. unfold delta_lines. rewrite elem_of_app. setoid_rewrite list_elem_of_fmap. setoid_rewrite list_elem_of_filter. naive_solver. }
  split.
  - rewrite Hin, Hdl. split.
    + intros [[(y & Hy & _)|(y & Hy & Hr)]|[_ Hy]]; [done| |done]. by injection Hy as ->.
    + intros Hr. left. right. by exists l.
  - rewrite list_elem_of_omap. setoid_rewrite Hin. setoid_rewrite Hdl. split.
    + intros (x & [[(y & -> & Hr)|(y & -> & Hr)]|[_ ->]] & Hs); [|done|done]. rewrite strip_prefix_app in Hs. by injection Hs as <-.
    + intros Hr. exists (tx "+ " ++ l). split; [left; left; by exists l|apply strip_prefix_app].
Qed.

(** One delta takes the lines of an answer to the lines of the next. *)
Lemma apply_delta_next previous current known :
  no_cr previous = true -> no_cr current = true -> (forall l, l ∈ known <-> l ∈ lines previous) ->
  forall l, l ∈ apply_delta known (delta_between previous current) <-> l ∈ lines current.
Proof.
  intros Hp Hc Hk l. destruct (delta_marks previous current l Hp Hc) as [Hm Ha]. cbn zeta in Hm, Ha. unfold apply_delta.
  rewrite elem_of_app, list_elem_of_filter, Ha, Hm, Hk.
  destruct (decide (l ∈ lines previous)), (decide (l ∈ lines current)); tauto.
Qed.

Lemma apply_deltas text_at now : forall n from known,
  n = Z.to_nat (now - from) -> from <= now -> (forall i, from <= i <= now -> no_cr (text_at i) = true) ->
  (forall l, l ∈ known <-> l ∈ lines (text_at from)) ->
  forall l, l ∈ fold_left (fun known dl => apply_delta known (rendered dl)) (deltas_in text_at from now) known <-> l ∈ lines (text_at now).
Proof.
  induction n as [|n IH]; intros from known Hn Hle Hc Hk.
  - assert (from = now) as -> by lia. by rewrite deltas_in_nil by lia.
  - rewrite deltas_in_cons by lia. cbn [fold_left rendered delta_at]. apply IH; [lia|lia|intros i Hi; apply Hc; lia|].
    rewrite Z.add_simpl_r. apply apply_delta_next; [apply Hc; lia|apply Hc; lia|done].
Qed.

(** ** Promises *)

Section promises.
Context {F B : Type} `{FactoryLaws F B} `{Debug} `{P : Parquet, !ParquetLaws P} `{ErrorText} `{SqlText} `{!FreshFactory F}.
Context (policy : SyncPolicy) (catalog : Catalog) (U : CircuitNode -> Prop) (Hcat : storable_catalog catalog = true) (Hsep : separated U).
Context (gp : Policy) (every k : Z) (sd : ServerDisk) (e : @Engine F B) (sp : ServerSpec).
Context (Hserving : serving policy catalog U gp every k sd e sp).

Lemma promises_inv : serves policy catalog U k sd e sp.
Proof. eapply serving_inv; [by apply storable_catalog_ok|done|exact Hserving]. Qed.


Lemma subscribe_deltas id entry :
  bt_get id (reg_entries (sp_registry sp)) = Some entry ->
  exists plan oldest, compile (entry_sql entry) catalog = Ok plan /\
    let eps := a_epochs (sp_log sp) in let now := Z.of_nat (length eps) in
    0 <= oldest <= now /\ now - oldest <= 256 /\
    forall from, subscribe e id from =
      if from <? oldest then Err (SrvTokenTooOld id from oldest)
      else Ok (Z.max from now, deltas_in (answer_at plan eps) from now).
Proof.
  intros Hen. destruct promises_inv as [_ _ (st & _ & _ & Has) _ _ _ _]. pose proof (as_each _ _ _ _ _ Has id) as Hid.
  rewrite Hen in Hid. destruct (bt_get id (e_standing e)) as [s|] eqn:Es; [|done].
  destruct Hid as [Hq _ (plan & Hp & _ & [Ho Hr _ [Hfit _] _])]. exists plan, (oldest s). cbn zeta. split; [done|].
  rewrite Hr in Hfit. unfold deltas_in in Hfit. rewrite length_map, epochs_after_length in Hfit. unfold SUBSCRIPTION_RING in Hfit.
  split_and!; [lia|lia|lia|]. intros from. unfold subscribe, live. rewrite Es. cbn [ok_or]. rewrite Hq.
  destruct (Z.ltb_spec from (oldest s)) as [|Hge]; [done|]. rewrite Hr, (deltas_after _ _ _ _ _ eq_refl).
  replace (Z.max (oldest s) from) with from by lia.
  destruct (decide (from < Z.of_nat (length (a_epochs (sp_log sp))))) as [Hlt|Hle].
  - rewrite deltas_in_last by done. cbn [delta_epoch delta_at]. do 2 f_equal. lia.
  - rewrite deltas_in_nil by lia. cbn [last]. do 2 f_equal. lia.
Qed.


(** A subscriber follows the answer.  One that holds the lines of the answer
    at its token and applies what it is delivered, taking away the lines marked
    with a minus sign and adding those marked with a plus sign, holds the lines
    of the answer at the last sealed epoch, which is its next token. *)
Theorem subscriber_follows id entry plan from next ds known :
  let eps := a_epochs (sp_log sp) in let now := Z.of_nat (length eps) in
  bt_get id (reg_entries (sp_registry sp)) = Some entry -> compile (entry_sql entry) catalog = Ok plan ->
  from <= now -> subscribe e id from = Ok (next, ds) ->
  (forall n, from <= n <= now -> no_cr (answer_at plan eps n) = true) ->
  (forall l, l ∈ known <-> l ∈ lines (answer_at plan eps from)) ->
  next = now /\
  forall l, l ∈ fold_left (fun known dl => apply_delta known (rendered dl)) ds known <-> l ∈ lines (answer_text plan eps).
Proof.
  intros eps now Hen Hp Hle Hsub Hc Hk. destruct (subscribe_deltas id entry Hen) as (plan' & oldest & Hp' & _ & _ & Hs).
  rewrite Hp in Hp'. injection Hp' as <-. rewrite Hs in Hsub. destruct (from <? oldest); [done|]. injection Hsub as <- <-.
  fold eps now. split; [lia|]. intros l. rewrite (apply_deltas _ now _ from known eq_refl Hle Hc Hk).
  unfold answer_at, now. by rewrite Nat2Z.id, take_ge by lia.
Qed.

End promises.

(** ** Witnesses *)

#[local] Existing Instances shop_debug shop_texts shop_sql shop_factory.

Lemma shop_storable : storable_catalog shop_catalog = true.
Proof. vm_compute. reflexivity. Qed.

Definition amounts_text (es : Entries) : text := render (mkCanonical (plan_output_schema (shop_plan amounts)) es).



Lemma subscriber_follows_witness :
  exists ds, subscribe day_state.1.2 0 3 = Ok (4, ds) /\
    forall l, l ∈ fold_left (fun known dl => apply_delta known (rendered dl)) ds
                (lines (amounts_text [([VInt 5], 1); ([VInt 7], 1); ([VInt 9], 1)])) <->
              l ∈ lines (amounts_text [([VInt 5], 1); ([VInt 9], 1)]).
Proof.
  destruct (subscribe day_state.1.2 0 3) as [[next ds]|x] eqn:Es; [|vm_compute in Es; discriminate].
  destruct (subscriber_follows Full shop_catalog _ shop_storable shop_separated default_policy 2 _ _ _ _ day_serving 0
    (mkEntry 0 amounts_sql bounded) (shop_plan amounts) 3 next ds (lines (amounts_text [([VInt 5], 1); ([VInt 7], 1); ([VInt 9], 1)]))) as [Hn Hl].
  - vm_compute. reflexivity.
  - reflexivity.
  - vm_compute. discriminate.
  - exact Es.
  - intros n Hn. assert (n = 3 \/ n = 4) as [-> | ->]; [|vm_compute; reflexivity..].
    assert (Z.of_nat (length (a_epochs (sp_log day_state.2))) = 4) as Hl by (vm_compute; reflexivity). rewrite Hl in Hn. lia.
  - assert (answer_at (shop_plan amounts) (a_epochs (sp_log day_state.2)) 3 = amounts_text [([VInt 5], 1); ([VInt 7], 1); ([VInt 9], 1)]) as ->
      by (vm_compute; reflexivity). done.
  - exists ds. rewrite Hn. split; [f_equal; f_equal; vm_compute; reflexivity|]. intros l. rewrite Hl.
    assert (answer_text (shop_plan amounts) (a_epochs (sp_log day_state.2)) = amounts_text [([VInt 5], 1); ([VInt 9], 1)]) as ->
      by (vm_compute; reflexivity). done.
Defined.


(** * Per-source admission

    What the gate in front of the log bounds while a process runs: each source's
    unsealed batches and their bytes, a source being refused for its own queue
    only; and where the bound does not hold. *)

(** The batches of one source, and the bytes the gate counts them as. *)
Definition queue_of (s : string) (bs : list Batch) : list Batch := base.filter (fun b => source_id b = s) bs.
Definition batch_size (b : Batch) : Z := Z.of_nat (length (encode_batch (batch_table b) (dedup_token b) (batch_rows b))).
Definition queue_size (bs : list Batch) : Z := foldr Z.add 0 (map batch_size bs).

(** The gate counts [bs], which is within its policy. *)
Definition gate_counts (g : Gate) (bs : list Batch) : Prop :=
  forall s, depth g s = Z.of_nat (length (queue_of s bs)) /\ queued_bytes g s = queue_size (queue_of s bs) /\
    depth g s <= queue_bound (gate_policy g) /\ queued_bytes g s <= queue_bytes (gate_policy g).

Lemma queue_size_nonneg bs : 0 <= queue_size bs.
Proof. unfold queue_size. induction bs as [|b bs IH]; [done|]. cbn [map foldr]. unfold batch_size at 1. lia. Qed.

Lemma queue_size_app l l' : queue_size (l ++ l') = queue_size l + queue_size l'.
Proof. unfold queue_size. induction l as [|b l IH]; [done|]. cbn [map foldr app]. lia. Qed.

Lemma queue_of_snoc s bs b : queue_of s (bs ++ [b]) = queue_of s bs ++ (if decide (source_id b = s) then [b] else []).
Proof. unfold queue_of. rewrite filter_app, filter_cons, filter_nil. by case_decide. Qed.

Lemma gate_new_counts p : 0 <= queue_bound p -> 0 <= queue_bytes p -> gate_counts (gate_new p) [].
Proof. intros Hb Hq s. by split_and!. Qed.

Lemma admitted_depth g source n s :
  depth (admitted g source n) s = depth g s + (if decide (source = s) then 1 else 0) /\
  queued_bytes (admitted g source n) s = queued_bytes g s + (if decide (source = s) then n else 0).
Proof.
  unfold depth, queued_bytes, admitted, bt_update. cbn [depths gate_bytes]. rewrite !bt_get_insert.
  case_cmp_eqb s source; case_decide; try congruence; subst; simpl; lia.
Qed.

Lemma admitted_counts g bs b g' :
  gate_counts g bs -> queue_bytes (gate_policy g) < 2 ^ 64 - 1 -> check g (source_id b) (batch_size b) = (g', Admit) ->
  gate_counts (admitted g' (source_id b) (batch_size b)) (bs ++ [b]).
Proof.
  intros Hg Hb Hc. assert (g' = g) as -> by (unfold check in Hc; repeat (case_match; try done); congruence).
  assert (0 <= batch_size b) as Hn by (unfold batch_size; lia).
  assert (0 <= queued_bytes g (source_id b)) as Hq by (destruct (Hg (source_id b)) as (_ & -> & _); apply queue_size_nonneg).
  destruct (check_admits g (source_id b) (batch_size b) Hn Hq Hb Hc) as [Hbytes Hdepth].
  intros s. destruct (admitted_depth g (source_id b) (batch_size b) s) as [-> ->]. destruct (Hg s) as (Hd & Hqs & Hbd & Hbq).
  rewrite queue_of_snoc, length_app, queue_size_app. change (gate_policy (admitted g _ _)) with (gate_policy g).
  case_decide as Hs; [subst s|]; unfold queue_size in *; cbn [map foldr length]; lia.
Qed.

(** An append adds its batch to the pending ones, or leaves the log. *)
Lemma log_append_pending log d b f d' log' r :
  log_append log d inert b = (f, d', log', r) ->
  log_pending log' = log_pending log ++ (match r with Ok Appended => [b] | _ => [] end).
Proof.
  assert (unplanned inert) as Hi by done. unfold log_append. seam_off Hf1.
  destruct (log_validate _ _ _) as [[]|]; [|intros [= <- <- <- <-]; by rewrite app_nil_r].
  destruct (bt_get _ _) as [known|]; [case_match; intros [= <- <- <- <-]; by rewrite app_nil_r|].
  unfold append_write. seam_off Hf2. seam_off Hf3. seam_off Hf4. seam_off Hf5. by intros [= <- <- <- <-].
Qed.

Section queue.
Context {F B : Type} `{StateBackend B} `{BackendFactory F B} `{Debug} `{Parquet} `{ErrorText} `{SqlText} `{!FreshFactory F}.
Implicit Type (sd : ServerDisk).
Abbreviation E := (@Engine F B).

(** Requests to ingest, whatever becomes of each. *)
Fixpoint ingest_all (e : E) sd (requests : list Batch) : ServerDisk * E :=
  match requests with
  | [] => (sd, e)
  | b :: requests' =>
      let '(sd, e, _) := engine_ingest e sd (source_id b) (batch_table b) (dedup_token b) (batch_rows b) in
      ingest_all e sd requests'
  end.

Lemma ingest_counts (e : E) sd bs b sd' e' r :
  gate_counts (e_gate e) bs -> queue_bytes (gate_policy (e_gate e)) < 2 ^ 64 - 1 ->
  engine_ingest e sd (source_id b) (batch_table b) (dedup_token b) (batch_rows b) = (sd', e', r) ->
  exists more, log_pending (e_log e') = log_pending (e_log e) ++ more /\ gate_counts (e_gate e') (bs ++ more) /\
    gate_policy (e_gate e') = gate_policy (e_gate e).
Proof.
  intros Hg Hb. unfold engine_ingest. fold (batch_size b).
  destruct (check (e_gate e) (source_id b) (batch_size b)) as [g v] eqn:Ec. cbn zeta.
  assert (gate_counts g bs /\ gate_policy g = gate_policy (e_gate e)) as [Hgc Hgp].
  { unfold check in Ec. repeat (case_match; simplify_eq); done. }
  destruct (refused_by (source_id b) v) as [x|] eqn:Ev.
  { intros [= <- <- <-]. exists []. by rewrite !app_nil_r. }
  assert (v = Admit) as -> by by destruct v.
  destruct b as [src tok tbl rows]. cbn [source_id batch_table dedup_token batch_rows] in *. set (b := mkLogBatch src tok tbl rows) in *.
  cbn [e_log with_gate]. destruct (log_append _ _ _ b) as [[[f d'] log'] r1] eqn:El. apply log_append_pending in El.
  destruct r1 as [[]|]; intros [= <- <- <-]; cbn [e_log e_gate with_gate with_log]; eexists; (split; [exact El|]).
  - split; [|done]. exact (admitted_counts (e_gate e) bs b g Hg Hb Ec).
  - by rewrite app_nil_r.
  - by rewrite app_nil_r.
Qed.

Lemma ingest_all_counts requests : forall (e : E) sd bs sd' e',
  gate_counts (e_gate e) bs -> queue_bytes (gate_policy (e_gate e)) < 2 ^ 64 - 1 -> ingest_all e sd requests = (sd', e') ->
  exists more, log_pending (e_log e') = log_pending (e_log e) ++ more /\ gate_counts (e_gate e') (bs ++ more) /\
    gate_policy (e_gate e') = gate_policy (e_gate e).
Proof.
  induction requests as [|b requests IH]; intros e sd bs sd' e' Hg Hb; cbn [ingest_all].
  { intros [= <- <-]. exists []. by rewrite !app_nil_r. }
  destruct (engine_ingest _ _ _ _ _ _) as [[sd1 e1] r1] eqn:Ei. intros Hgo.
  destruct (ingest_counts _ _ _ _ _ _ _ Hg Hb Ei) as (more & Hp & Hg1 & Hgp).
  destruct (IH e1 sd1 (bs ++ more) sd' e' Hg1) as (more' & Hp' & Hg' & Hgp'); [by rewrite Hgp|done|].
  exists (more ++ more'). rewrite <- app_assoc in Hg'. by rewrite Hp', Hp, Hgp', Hgp, <- app_assoc.
Qed.

(** C23: admission bounds every source's queue, and only its own (D-23).  From an
    empty gate, whatever is sent and whatever becomes of it, the batches a source
    got into the log are at most [queue_bound] and count at most [queue_bytes].
    A further batch is admitted exactly when the source's own queue has room for
    it, whatever the others queued. *)
Theorem admission_bounds_sources (e : E) sd requests sd' e' :
  let p := gate_policy (e_gate e) in
  depths (e_gate e) = bt_empty -> gate_bytes (e_gate e) = bt_empty ->
  0 <= queue_bound p -> 0 <= queue_bytes p < 2 ^ 64 - 1 ->
  ingest_all e sd requests = (sd', e') ->
  exists appended, log_pending (e_log e') = log_pending (e_log e) ++ appended /\
    forall s, Z.of_nat (length (queue_of s appended)) <= queue_bound p /\ queue_size (queue_of s appended) <= queue_bytes p /\
      forall n, 0 <= n ->
        ((check (e_gate e') s n).2 = Admit <->
         Z.of_nat (length (queue_of s appended)) < queue_bound p /\ queue_size (queue_of s appended) + n <= queue_bytes p).
Proof.
  intros p Hd Hb Hbound Hbytes Hgo. assert (gate_counts (e_gate e) []) as Hg.
  { intros s. unfold depth, queued_bytes. rewrite Hd, Hb. split_and!; [done|done|exact Hbound|apply Hbytes]. }
  destruct (ingest_all_counts requests e sd [] sd' e' Hg ltac:(unfold p in *; lia) Hgo) as (more & Hp & Hg' & Hgp).
  exists more. split; [done|]. intros s. destruct (Hg' s) as (Hds & Hqs & Hdb & Hqb). cbn [app] in *. rewrite Hgp, Hds, Hqs in *. fold p in Hdb, Hqb.
  split_and!; [done..|]. intros n Hn. unfold check, saturating_add. rewrite Hgp, Hds, Hqs. fold p. pose proof (queue_size_nonneg (queue_of s more)).
  destruct (Z.ltb_spec (queue_bytes p) n); [split; [done|lia]|].
  destruct (Z.ltb_spec (queue_bytes p) (Z.min (queue_size (queue_of s more) + n) (2 ^ 64 - 1))); [split; [done|lia]|].
  destruct (Z.leb_spec (queue_bound p) (Z.of_nat (length (queue_of s more)))); [split; [done|lia]|]. split; [lia|done].
Qed.
End queue.

(** The gate's count of a batch leaves the source out: the frame the log writes is
    longer by the length of the source's name, less the four bytes of the name
    the count is made with. *)
Theorem count_misses_source b :
  Z.of_nat (length (batch_frame b)) = batch_size b + Z.of_nat (length (tx (source_id b))) - 4.
Proof.
  destruct b as [src tok tbl rows]. unfold batch_frame, batch_size, encode_batch, frame, batch_record, record_encode, put_str, put_u64.
  cbn [source_id dedup_token batch_table batch_rows]. repeat (rewrite length_app || cbn [length]). rewrite !be_bytes_length.
  change (length (string_bytes "wire")) with 4%nat. unfold tx. lia.
Qed.

(** ** Witness *)

#[local] Existing Instances shop_debug shop_texts shop_sql shop_factory.

(** Three batches of one source and one of another, two of each allowed. *)
Definition rush : list Batch := [order "web" "a" 1 5 1; order "web" "b" 1 6 1; order "web" "c" 1 7 1; order "shop" "d" 1 8 1].

Definition rushed : @Engine MemFactory MemBackend := with_gate (gate_new (mkPolicy 2 1000)) idle_engine.

Lemma admission_bounds_sources_witness :
  exists appended, log_pending (e_log (ingest_all rushed empty_server_disk rush).2) = appended /\
    Z.of_nat (length (queue_of "web" appended)) <= 2 /\ length appended = 3%nat.
Proof.
  destruct (admission_bounds_sources rushed empty_server_disk rush (ingest_all rushed empty_server_disk rush).1
    (ingest_all rushed empty_server_disk rush).2) as (appended & Hp & Hs).
  - reflexivity.
  - reflexivity.
  - vm_compute. discriminate.
  - vm_compute. split; [discriminate|reflexivity].
  - destruct (ingest_all _ _ _). reflexivity.
  - exists appended. split_and!; [exact Hp|apply (Hs "web"%string)|].
    transitivity (length (log_pending (e_log (ingest_all rushed empty_server_disk rush).2))); [by rewrite Hp|vm_compute; reflexivity].
Defined.

(** * Retracting a source

    [retract_source] appends, table by table, the negation of what a source
    contributed, and seals.  When none of its tokens was used before, the source
    contributes nothing afterwards and every other source what it did. *)








(** ** Tokens *)







(** ** The transaction *)

Section transaction.
Context {F B : Type} `{FactoryLaws F B} `{Debug} `{P : Parquet, !ParquetLaws P} `{ErrorText} `{SqlText} `{!FreshFactory F}.
Context (policy : SyncPolicy) (catalog : Catalog) (Hcat : catalog_ok catalog).
Implicit Type (sd : ServerDisk).
Abbreviation E := (@Engine F B).


End transaction.

(** ** The promise *)

Section retract.
Context {F B : Type} `{FactoryLaws F B} `{Debug} `{P : Parquet, !ParquetLaws P} `{ErrorText} `{SqlText} `{!FreshFactory F}.
Context (policy : SyncPolicy) (catalog : Catalog) (U : CircuitNode -> Prop) (Hcat : storable_catalog catalog = true) (Hsep : separated U).
Implicit Type (sd : ServerDisk).
Abbreviation E := (@Engine F B).








End retract.

(** ** Witness *)

#[local] Existing Instances shop_debug shop_texts shop_sql shop_factory.



(** * Where the server's promises stop

    Concrete runs outside the hypotheses of the server's theorems: a restart that
    empties the gate but not the queue, a seal whose memo step fails after the log
    has sealed, and a retraction that is taken for a replay. *)

#[local] Existing Instances shop_debug shop_texts shop_sql shop_factory.
Abbreviation ShopEngine := (@Engine MemFactory MemBackend).

(** A process on a disk; its memory is gone when it ends. *)
Definition boot (gp : Policy) (sd : ServerDisk) : ServerDisk * ShopEngine :=
  match engine_open sd shop_catalog gp Full 0 with (sd, Ok e) => (sd, e) | (sd, Err _) => (sd, idle_engine) end.

Definition send (b : Batch) (s : ServerDisk * ShopEngine) : ServerDisk * ShopEngine * result ServerError Ack :=
  engine_ingest s.2 s.1 (source_id b) (batch_table b) (dedup_token b) (batch_rows b).

(** ** The gate after a restart *)

Definition one_batch : Policy := mkPolicy 1 1000.

(** A restart lets a source exceed its bound.  The gate counts in memory what
    the log keeps on disk.  A source allowed one unsealed batch has one and is
    refused a second; after a restart the first is still pending, the count is
    zero, and the second is admitted. *)
Theorem restart_forgets_queue :
  let '(sd, e, first) := send (order "web" "a" 1 5 1) (boot one_batch empty_server_disk) in
  let '(sd, e, second) := send (order "web" "b" 1 6 1) (sd, e) in
  let '(sd, e, again) := send (order "web" "b" 1 6 1) (boot one_batch sd) in
  first = Ok Appended /\ second = Err (SrvOverloaded "web" 1 1) /\ again = Ok Appended /\
  length (queue_of "web" (log_pending (e_log e))) = 2%nat /\ depth (e_gate e) "web" = 1.
Proof. vm_compute. repeat split. Qed.

(** ** A seal that fails half-way *)



(** ** A retraction taken for a replay *)


