(* ===== verification/Wire.v ===== *)
(** * The wire ([schweep-server]: wire.rs, client.rs)

    One request and one response per connection, in a small part of HTTP/1.1.  A
    connection's bytes are a list; [read_request] is what the server makes of
    what a client sent, [read_response] what the client makes of the answer.

    Its later part: the wire carries what was sent. *)

From Stdlib Require Import ZArith NArith Lia Ascii.
From stdpp Require Import base list strings pretty.
From S2P Require Import Prelude BTree Codec Text ServerParts.

(** ** Text from bytes *)

Definition REPLACEMENT : text := [239; 191; 189]%N.

(** The second byte of a three- and of a four-byte character. *)
Definition second_of_three (b0 b1 : N) : bool :=
  ((if (b0 =? 224)%N then 160 <=? b1 else 128 <=? b1) && (if (b0 =? 237)%N then b1 <=? 159 else b1 <=? 191))%N.
Definition second_of_four (b0 b1 : N) : bool :=
  ((if (b0 =? 240)%N then 144 <=? b1 else 128 <=? b1) && (if (b0 =? 244)%N then b1 <=? 143 else b1 <=? 191))%N.

(** [String::from_utf8_lossy]: each maximal ill-formed part becomes U+FFFD. *)
Fixpoint from_utf8_lossy (l : list N) : text :=
  match l with
  | [] => []
  | b0 :: l0 =>
      if (b0 <? 128)%N then b0 :: from_utf8_lossy l0
      else if ((194 <=? b0) && (b0 <=? 223))%N then
        match l0 with
        | b1 :: l1 => if is_cont b1 then b0 :: b1 :: from_utf8_lossy l1 else REPLACEMENT ++ from_utf8_lossy l0
        | [] => REPLACEMENT
        end
      else if ((224 <=? b0) && (b0 <=? 239))%N then
        match l0 with
        | b1 :: l1 =>
            if second_of_three b0 b1 then
              match l1 with
              | b2 :: l2 => if is_cont b2 then b0 :: b1 :: b2 :: from_utf8_lossy l2 else REPLACEMENT ++ from_utf8_lossy l1
              | [] => REPLACEMENT
              end
            else REPLACEMENT ++ from_utf8_lossy l0
        | [] => REPLACEMENT
        end
      else if ((240 <=? b0) && (b0 <=? 244))%N then
        match l0 with
        | b1 :: l1 =>
            if second_of_four b0 b1 then
              match l1 with
              | b2 :: l2 =>
                  if is_cont b2 then
                    match l2 with
                    | b3 :: l3 => if is_cont b3 then b0 :: b1 :: b2 :: b3 :: from_utf8_lossy l3 else REPLACEMENT ++ from_utf8_lossy l2
                    | [] => REPLACEMENT
                    end
                  else REPLACEMENT ++ from_utf8_lossy l1
              | [] => REPLACEMENT
              end
            else REPLACEMENT ++ from_utf8_lossy l0
        | [] => REPLACEMENT
        end
      else REPLACEMENT ++ from_utf8_lossy l0
  end.

(** [str::split] at a character: at least one part. *)
Fixpoint split_from (c : N) (part t : text) : list text :=
  match t with
  | [] => [part]
  | b :: t' => if (b =? c)%N then part :: split_from c [] t' else split_from c (part ++ [b]) t'
  end.
Definition split_on (c : N) (t : text) : list text := split_from c [] t.

(** [BufRead::read_line], over and over: the lines with their line feeds. *)
Fixpoint raw_lines_from (part t : text) : list text :=
  match t with
  | [] => match part with [] => [] | _ => [part] end
  | b :: t' => if (b =? 10)%N then (part ++ [b]) :: raw_lines_from [] t' else raw_lines_from (part ++ [b]) t'
  end.
Definition raw_lines (t : text) : list text := raw_lines_from [] t.

(** [eq_ignore_ascii_case] *)
Definition ascii_lower (b : N) : N := if ((65 <=? b) && (b <=? 90))%N then (b + 32)%N else b.
Definition eq_ignore_ascii_case (a b : text) : bool := bool_decide (map ascii_lower a = map ascii_lower b).

(** ** Percent-encoding *)

Fixpoint percent_bytes (t : text) : list N :=
  match t with
  | [] => []
  | b :: t' =>
      if (b =? 37)%N then
        match t' with
        | h :: l :: t'' =>
            match from_str_radix 16 256 [h; l] with
            | Some v => Z.to_N v :: percent_bytes t''
            | None => b :: percent_bytes t'
            end
        | _ => b :: percent_bytes t'
        end
      else b :: percent_bytes t'
  end.

Definition percent_decode (raw : text) : text := from_utf8_lossy (percent_bytes raw).

(** [A-Za-z0-9-_.~] *)
Definition unreserved (b : N) : bool :=
  ((65 <=? b) && (b <=? 90) || (97 <=? b) && (b <=? 122) || (48 <=? b) && (b <=? 57) ||
   (b =? 45) || (b =? 95) || (b =? 46) || (b =? 126))%N.

Definition hex_upper (d : N) : N := if (d <? 10)%N then (48 + d)%N else (55 + d)%N.

Definition encode_query (raw : text) : text :=
  flat_map (fun b => if unreserved b then [b] else [37%N; hex_upper (b / 16); hex_upper (b mod 16)]) raw.

(** ** Requests *)

Record Request := mkRequest {
  rq_method : string;
  rq_path : string;
  rq_query : btree string string;
  rq_body : list N
}.

(** What reading a connection comes to.  [Panicked]: the length a client claims
    is more than a vector can hold. *)
Inductive ReadOutcome :=
| Got (r : Request)
| Closed
| ReadFailed
| Panicked.

(** The header loop: the length of the body and what follows the headers. *)
Fixpoint read_headers (length : Z) (ls : list text) : option (Z * list text) :=
  match ls with
  | [] => Some (length, [])
  | l :: ls' =>
      if negb (utf8_valid l) then None
      else
        match trim_end l with
        | [] => Some (length, ls')
        | header =>
            match split_once 58 header with
            | Some (name, value) =>
                if eq_ignore_ascii_case name (tx "content-length") then read_headers (default 0 (parse_dec (trim value))) ls'
                else read_headers length ls'
            | None => read_headers length ls'
            end
        end
  end.

Definition query_pair (query : btree string string) (pair : text) : btree string string :=
  let '(name, value) := default (pair, []) (split_once 61 pair) in
  bt_insert (bytes_string (percent_decode name)) (bytes_string (percent_decode value)) query.

Definition parse_query (raw : text) : btree string string :=
  fold_left query_pair (base.filter (fun p => p <> []) (split_on 38 raw)) bt_empty.

(** [isize::MAX], the most a vector holds. *)
Definition isize_max : Z := 2 ^ 63 - 1.

Definition read_request (input : list N) : ReadOutcome :=
  match raw_lines input with
  | [] => Closed
  | l :: ls =>
      if negb (utf8_valid l) then ReadFailed
      else
        let parts := split_on 32 (trim_end l) in
        let method := default [] (parts !! 0%nat) in
        let target := default [] (parts !! 1%nat) in
        if bool_decide (method = []) || bool_decide (target = []) then Closed
        else
          match read_headers 0 ls with
          | None => ReadFailed
          | Some (len, ls) =>
              let stream := concat ls in
              if isize_max <? len then Panicked
              else if Z.of_nat (length stream) <? len then ReadFailed
              else
                let '(path, raw_query) := default (target, []) (split_once 63 target) in
                Got (mkRequest (bytes_string method) (bytes_string path) (parse_query raw_query) (take (Z.to_nat len) stream))
          end
  end.

(** ** Responses *)

Definition crlf : text := [13; 10]%N.

Definition write_response (status : Z) (reason : string) (body : list N) : list N :=
  tx "HTTP/1.1 " ++ dec status ++ tx " " ++ tx reason ++ crlf ++
  tx "Content-Length: " ++ dec (Z.of_nat (length body)) ++ crlf ++
  tx "Content-Type: text/plain; charset=utf-8" ++ crlf ++ tx "Connection: close" ++ crlf ++ crlf ++ body.

Definition respond (body : list N) : list N := write_response 200 "OK" body.

Definition respond_error (k : ErrorKind) (message : string) : list N :=
  write_response (status k) (kind_name k) (line (tx (kind_name k)) ++ line (tx message)).

(** ** The client *)

Definition request_bytes (method : string) (target : text) (body : list N) : list N :=
  tx method ++ tx " " ++ target ++ tx " HTTP/1.1" ++ crlf ++ tx "Host: schweepd" ++ crlf ++
  tx "Content-Length: " ++ dec (Z.of_nat (length body)) ++ crlf ++ tx "Connection: close" ++ crlf ++ crlf ++ body.

Inductive Response :=
| ROk (body : text)
| RFailed (k : ErrorKind) (message : text).

Definition kind_of (status : Z) : ErrorKind :=
  if status =? 400 then Refused else if status =? 404 then NotFound else if status =? 409 then Rejected
  else if status =? 429 then KOverloaded else Internal.

Record RawResponse := mkRawResponse { raw_status : Z; raw_body : list N }.

Definition request_raw_reply (raw : list N) : RawResponse :=
  let '(head, body) := match split_at_first (crlf ++ crlf) raw with
                       | Some (head, body) => (head ++ crlf ++ crlf, body)
                       | None => (raw, [])
                       end in
  let first := default [] (lines (from_utf8_lossy head) !! 0%nat) in
  mkRawResponse (default 0 (split_on 32 first !! 1%nat ≫= from_str_radix 10 65536)) body.

(** What follows the first line, trimmed. *)
Definition message_of (body : text) : text := trim (default body (snd <$> split_once 10 body)).

Definition read_response (raw : list N) : Response :=
  let r := request_raw_reply raw in
  let body := from_utf8_lossy (raw_body r) in
  if raw_status r =? 200 then ROk body else RFailed (kind_of (raw_status r)) (message_of body).

Definition read_frames_response (raw : list N) : result (ErrorKind * text) (list N) :=
  let r := request_raw_reply raw in
  if raw_status r =? 200 then Ok (raw_body r) else Err (kind_of (raw_status r), message_of (from_utf8_lossy (raw_body r))).

(** * The wire carries what was sent

    Encoding and decoding of query values, requests and responses undo each
    other. *)

(** ** Text *)

Lemma from_utf8_lossy_valid l : utf8_valid l = true -> from_utf8_lossy l = l.
Proof.
  assert (forall n l, (length l <= n)%nat -> utf8_valid l = true -> from_utf8_lossy l = l) as Hgo; [|by apply (Hgo (length l))].
  clear l. induction n as [|n IH]; intros l Hn Hl; [by destruct l; simpl in Hn; [|lia]|].
  destruct l as [|b0 l0]; [done|]. cbn [utf8_valid from_utf8_lossy] in *.
  destruct (b0 <? 128)%N; [by rewrite IH by (simpl in Hn; (lia || done))|]. destruct l0 as [|b1 l1]; [done|].
  destruct ((194 <=? b0) && (b0 <=? 223))%N.
  { apply andb_true_iff in Hl as [-> Hl]. by rewrite IH by (simpl in Hn; (lia || done)). }
  destruct l1 as [|b2 l2]; [done|]. unfold second_of_three, second_of_four.
  destruct ((224 <=? b0) && (b0 <=? 239))%N.
  { apply andb_true_iff in Hl as [Hl Hr]. apply andb_true_iff in Hl as [-> ->]. by rewrite IH by (simpl in Hn; (lia || done)). }
  destruct l2 as [|b3 l3]; [done|]. rewrite !andb_true_iff in Hl. destruct Hl as ((((([H0 H1] & H2) & H3) & H4) & H5) & H6).
  rewrite H0, H1, H2, H3, H4, H5. cbn [andb]. by rewrite IH by (simpl in Hn; (lia || done)).
Qed.

Lemma utf8_byte l : utf8_valid l = true -> Forall (fun b => b < 256)%N l.
Proof.
  assert (forall n l, (length l <= n)%nat -> utf8_valid l = true -> Forall (fun b => b < 256)%N l) as Hgo; [|by apply (Hgo (length l))].
  clear l. induction n as [|n IH]; intros l Hn Hl; [by destruct l; simpl in Hn; [constructor|lia]|].
  destruct l as [|b0 l0]; [constructor|]. cbn [utf8_valid] in Hl. unfold is_cont in Hl.
  destruct (N.ltb_spec b0 128); [constructor; [lia|apply IH; [simpl in Hn; lia|done]]|].
  destruct l0 as [|b1 l1]; [done|]. destruct ((194 <=? b0) && (b0 <=? 223))%N eqn:E0;
    [|destruct l1 as [|b2 l2]; [done|]; destruct ((224 <=? b0) && (b0 <=? 239))%N eqn:E1; [|destruct l2 as [|b3 l3]; [done|]]];
    rewrite ?andb_true_iff, ?N.leb_le in *; destruct_and?;
    repeat match goal with Hif : (if ?c then _ else _) = true |- _ => destruct c end; rewrite ?N.leb_le in *;
    repeat (constructor; [lia|]); (apply IH; [simpl in Hn; lia|done]).
Qed.

(** ** Percent-encoding *)

Lemma hex_upper_value d : (d < 16)%N ->
  ((48 <= hex_upper d <= 57)%N /\ Z.of_N (hex_upper d) - 48 = Z.of_N d) \/ ((65 <= hex_upper d <= 70)%N /\ Z.of_N (hex_upper d) - 55 = Z.of_N d).
Proof. intros Hd. unfold hex_upper. destruct (N.ltb_spec d 10); lia. Qed.

Lemma parse_hex_upper bound acc d t :
  (d < 16)%N -> acc * 16 + Z.of_N d < bound -> parse_radix 16 bound acc (hex_upper d :: t) = parse_radix 16 bound (acc * 16 + Z.of_N d) t.
Proof.
  intros Hd Hb. cbn [parse_radix]. destruct (hex_upper_value d Hd) as [[Hr He]|[Hr He]].
  - rewrite (proj2 (N.leb_le 48 _)), (proj2 (N.leb_le _ 57)) by lia. cbn [andb]. rewrite He.
    by rewrite (proj2 (Z.ltb_lt (Z.of_N d) 16)), (proj2 (Z.ltb_lt (acc * 16 + Z.of_N d) bound)) by lia.
  - rewrite (proj2 (N.leb_gt _ 57)), andb_false_r by lia. rewrite (proj2 (N.leb_gt 97 _)) by lia. cbn [andb].
    rewrite (proj2 (N.leb_le 65 _)), (proj2 (N.leb_le _ 90)) by lia. cbn [andb]. rewrite He.
    by rewrite (proj2 (Z.ltb_lt (Z.of_N d) 16)), (proj2 (Z.ltb_lt (acc * 16 + Z.of_N d) bound)) by lia.
Qed.

Lemma percent_pair b : (b < 256)%N -> from_str_radix 16 256 [hex_upper (b / 16); hex_upper (b mod 16)] = Some (Z.of_N b).
Proof.
  intros Hb. assert (b / 16 < 16)%N by (apply N.Div0.div_lt_upper_bound; lia). assert (b mod 16 < 16)%N by (apply N.mod_lt; lia).
  assert (hex_upper (b / 16) <> 43%N) by (destruct (hex_upper_value (b / 16)); [done|lia..]).
  assert (forall h t, h <> 43%N -> from_str_radix 16 256 (h :: t) = parse_radix 16 256 0 (h :: t)) as ->.
  { intros h t Hh. unfold from_str_radix. destruct h as [|p]; [done|]. do 6 (destruct p as [p|p|]; try done). }
  2: done. pose proof (N.div_mod b 16 ltac:(done)). rewrite parse_hex_upper by (done || lia). rewrite parse_hex_upper by (done || lia).
  cbn [parse_radix]. f_equal. lia.
Qed.

Lemma percent_bytes_encode raw : Forall (fun b => b < 256)%N raw -> percent_bytes (encode_query raw) = raw.
Proof.
  unfold encode_query. induction 1 as [|b raw Hb _ IH]; [done|]. cbn [flat_map]. destruct (unreserved b) eqn:E.
  - cbn [app percent_bytes]. rewrite IH. assert (b <> 37%N) as Hne by (intros ->; discriminate E). by rewrite (proj2 (N.eqb_neq b 37)).
  - cbn [app percent_bytes]. rewrite N.eqb_refl, percent_pair by done. by rewrite N2Z.id, IH.
Qed.

Lemma percent_roundtrip raw : utf8_valid raw = true -> percent_decode (encode_query raw) = raw.
Proof. intros Hr. unfold percent_decode. rewrite percent_bytes_encode by by apply utf8_byte. by apply from_utf8_lossy_valid. Qed.

(** A value that may stand in a query as it is. *)
Definition query_safe (t : text) : bool := forallb (fun b => visible b && negb (b =? 37)%N && negb (b =? 38)%N) t.

Lemma percent_safe t : query_safe t = true -> percent_decode t = t.
Proof.
  intros Ht. unfold percent_decode. assert (percent_bytes t = t /\ plain t = true) as [-> Hp]; [|by apply from_utf8_lossy_valid, plain_utf8].
  induction t as [|b t IH]; [done|]. cbn [query_safe forallb] in Ht. rewrite !andb_true_iff in Ht. destruct Ht as [[[Hv H37] _] Ht].
  destruct (IH Ht) as [IH1 IH2]. cbn [percent_bytes plain forallb]. apply negb_true_iff in H37. rewrite H37, IH1, Hv. by split.
Qed.

(** What an encoded value is made of. *)
Definition query_value (t : text) : bool := forallb (fun b => visible b && negb (b =? 38)%N) t.

Lemma encode_query_value raw : Forall (fun b => b < 256)%N raw -> query_value (encode_query raw) = true.
Proof.
  assert (forall d, (d < 16)%N -> visible (hex_upper d) && negb (hex_upper d =? 38)%N = true) as Hh.
  { intros d Hd. rewrite andb_true_iff, visible_range, negb_true_iff, N.eqb_neq. destruct (hex_upper_value d Hd); lia. }
  unfold encode_query, query_value. induction 1 as [|b raw Hb _ IH]; [done|]. cbn [flat_map]. rewrite forallb_app, IH, andb_true_r.
  destruct (unreserved b) eqn:E; cbn [forallb].
  - rewrite andb_true_r, andb_true_iff, visible_range, negb_true_iff, N.eqb_neq. unfold unreserved in E.
    rewrite ?orb_true_iff, ?andb_true_iff, ?N.leb_le, ?N.eqb_eq in E. lia.
  - rewrite !Hh by (apply N.mod_lt || apply N.Div0.div_lt_upper_bound; lia). done.
Qed.

Lemma query_safe_value t : query_safe t = true -> query_value t = true.
Proof. unfold query_safe, query_value. rewrite !forallb_forall. intros Hs b Hb%Hs. rewrite !andb_true_iff in *. tauto. Qed.

Lemma dec_safe v : query_safe (dec v) = true.
Proof.
  unfold query_safe, dec. pose proof (pretty_digits (Z.to_N v)) as Hd. rewrite !forallb_forall in *. intros b Hb%Hd%digit_range.
  rewrite !andb_true_iff, visible_range, !negb_true_iff, !N.eqb_neq. lia.
Qed.

(** ** Lines and parts *)

Lemma raw_lines_from_line l t : forall part, 10%N ∉ l -> raw_lines_from part (l ++ 10%N :: t) = (part ++ l ++ [10%N]) :: raw_lines t.
Proof.
  induction l as [|b l IH]; intros part Hl; [done|]. apply not_elem_of_cons in Hl as [Hb Hl]. cbn [app raw_lines_from].
  rewrite (proj2 (N.eqb_neq b 10)) by done. rewrite IH by done. by rewrite <- app_assoc.
Qed.

Lemma raw_lines_line l t : 10%N ∉ l -> raw_lines (l ++ crlf ++ t) = (l ++ crlf) :: raw_lines t.
Proof.
  intros Hl. unfold raw_lines at 1, crlf. change (l ++ [13; 10]%N ++ t) with (l ++ [13%N] ++ 10%N :: t). rewrite app_assoc.
  rewrite raw_lines_from_line; [by rewrite <- app_assoc|]. apply not_elem_of_app. split; [done|by not_in].
Qed.

Lemma concat_raw_lines t : concat (raw_lines t) = t.
Proof.
  assert (forall part, concat (raw_lines_from part t) = part ++ t) as Hgo; [|by apply Hgo].
  induction t as [|b t IH]; intros part; cbn [raw_lines_from].
  - rewrite app_nil_r. destruct part; [done|]. cbn [concat]. by rewrite app_nil_r.
  - destruct (b =? 10)%N; cbn [concat]; rewrite IH; by rewrite <- app_assoc.
Qed.

Lemma split_from_part c w t : forall part, c ∉ w -> split_from c part (w ++ c :: t) = (part ++ w) :: split_on c t.
Proof.
  induction w as [|b w IH]; intros part Hw; cbn [app split_from]; [by rewrite N.eqb_refl, app_nil_r|].
  apply not_elem_of_cons in Hw as [Hb Hw]. rewrite (proj2 (N.eqb_neq b c)) by done. rewrite IH by done. by rewrite <- app_assoc.
Qed.

Lemma split_on_part c w t : c ∉ w -> split_on c (w ++ c :: t) = w :: split_on c t.
Proof. intros Hw. unfold split_on at 1. by rewrite split_from_part. Qed.

Lemma split_on_last c w : c ∉ w -> split_on c w = [w].
Proof.
  unfold split_on. assert (forall part, c ∉ w -> split_from c part w = [part ++ w]) as Hgo; [|apply (Hgo [])].
  induction w as [|b w IH]; intros part Hw; cbn [split_from]; [by rewrite app_nil_r|].
  apply not_elem_of_cons in Hw as [Hb Hw]. rewrite (proj2 (N.eqb_neq b c)) by done. rewrite IH by done. by rewrite <- app_assoc.
Qed.

(** Printable ASCII, the space included. *)
Definition printable (b : N) : bool := ((32 <=? b) && (b <=? 126))%N.

Lemma printable_cases b : printable b = true -> b = 32%N \/ visible b = true.
Proof. unfold printable. rewrite andb_true_iff, !N.leb_le, visible_range. lia. Qed.

Lemma plain_printable t : plain t = true -> forallb printable t = true.
Proof. unfold plain, printable. rewrite !forallb_forall. intros Hp b Hb%Hp%visible_range. rewrite andb_true_iff, !N.leb_le. lia. Qed.

Lemma not_blank u b v : forallb printable u = true -> visible b = true -> blank_from 0 (u ++ b :: v) = false.
Proof.
  intros Hu Hb. induction u as [|x u IH]; cbn [app blank_from].
  - by rewrite ws_len_visible.
  - cbn [forallb] in Hu. apply andb_true_iff in Hu as [Hx Hu]. destruct (printable_cases x Hx) as [->|Hv]; [by apply IH|].
    by rewrite ws_len_visible.
Qed.

Lemma trim_end_crlf u b : forallb printable u = true -> visible b = true -> trim_end (u ++ b :: crlf) = u ++ [b].
Proof.
  intros Hu Hb. induction u as [|x u IH]; cbn [app trim_end].
  - pose proof (not_blank [] b crlf Hu Hb) as Hn. cbn [app] in Hn. by rewrite Hn.
  - pose proof (not_blank (x :: u) b crlf Hu Hb) as Hn. cbn [app] in Hn. rewrite Hn. cbn [forallb] in Hu. apply andb_true_iff in Hu as [_ Hu]. by rewrite IH.
Qed.

(** A line that ends in plain text loses its line break only. *)
Lemma trim_end_line u w : forallb printable u = true -> plain w = true -> w <> [] -> trim_end (u ++ w ++ crlf) = u ++ w.
Proof.
  intros Hu Hw Hne. destruct (exists_last Hne) as (w' & b & ->). rewrite plain_app in Hw. apply andb_true_iff in Hw as [Hw Hb].
  cbn [plain forallb] in Hb. rewrite andb_true_r in Hb. rewrite <- (app_assoc w'), !app_assoc, <- app_assoc. cbn [app].
  rewrite trim_end_crlf; [done| |done]. by rewrite forallb_app, Hu, plain_printable.
Qed.

(** ** The request a client sends *)

Lemma trim_space_plain t : plain t = true -> trim (32%N :: t) = t.
Proof. intros Ht. rewrite <- (trim_plain t Ht) at 2. done. Qed.

(** One header line: another than the length is passed over. *)
Lemma read_header len l h name value ls :
  utf8_valid l = true -> trim_end l = h -> split_once 58 h = Some (name, value) ->
  read_headers len (l :: ls) =
    read_headers (if eq_ignore_ascii_case name (tx "content-length") then default 0 (parse_dec (trim value)) else len) ls.
Proof.
  intros Hu Ht Hs. cbn [read_headers]. rewrite Hu, Ht. cbn [negb]. destruct h as [|b h]; [done|]. rewrite Hs. by destruct (eq_ignore_ascii_case _ _).
Qed.

Lemma sent_headers n rest :
  0 <= n < 2 ^ 64 ->
  read_headers 0 ([tx "Host: schweepd" ++ crlf; tx "Content-Length: " ++ dec n ++ crlf; tx "Connection: close" ++ crlf; crlf] ++ rest) = Some (n, rest).
Proof.
  intros Hn. cbn [app]. rewrite (read_header 0 _ (tx "Host: schweepd") (tx "Host") (tx " schweepd")) by reflexivity.
  rewrite (read_header _ _ (tx "Content-Length: " ++ dec n) (tx "Content-Length") (32%N :: dec n)).
  - rewrite trim_space_plain, parse_dec_dec by (done || apply dec_plain).
    rewrite (read_header _ _ (tx "Connection: close") (tx "Connection") (tx " close")) by reflexivity. reflexivity.
  - rewrite utf8_valid_app by reflexivity. by rewrite utf8_valid_app by apply plain_utf8, dec_plain.
  - by rewrite trim_end_line by (reflexivity || apply dec_plain || apply dec_nonempty).
  - change (tx "Content-Length: " ++ dec n) with (tx "Content-Length" ++ 58%N :: 32%N :: dec n). apply split_once_app. by not_in.
Qed.

(** The pairs of a query, as the client writes them. *)
Fixpoint query_text (l : list (text * text)) : text :=
  match l with
  | [] => []
  | [(n, v)] => n ++ 61%N :: v
  | (n, v) :: l' => n ++ 61%N :: v ++ 38%N :: query_text l'
  end.

Definition query_of (l : list (text * text)) : btree string string :=
  fold_left (fun q p => bt_insert (bytes_string (percent_decode p.1)) (bytes_string (percent_decode p.2)) q) l bt_empty.

(** A name has neither separator in it, and a value no [&]. *)
Definition pair_ok (p : text * text) : bool := query_value p.1 && negb (bool_decide (61%N ∈ p.1)) && query_value p.2.

Lemma query_value_spec t : query_value t = true -> plain t = true /\ 38%N ∉ t.
Proof.
  unfold query_value, plain. intros Ht. rewrite !forallb_forall in *. split.
  - intros b Hb%Ht. apply andb_true_iff in Hb as [-> _]. done.
  - intros Hin%list_elem_of_In%Ht. by apply andb_true_iff in Hin as [_ ?].
Qed.

Lemma pair_text p : pair_ok p = true -> plain (p.1 ++ 61%N :: p.2) = true /\ (38%N ∉ p.1 ++ 61%N :: p.2) /\ (61%N ∉ p.1).
Proof.
  unfold pair_ok. rewrite !andb_true_iff, negb_true_iff, bool_decide_eq_false. intros [[Hn H61] Hv].
  apply query_value_spec in Hn as [Hn Hn'], Hv as [Hv Hv']. rewrite plain_app, Hn. split_and!; [done| |done].
  apply not_elem_of_app. split; [done|]. by apply not_elem_of_cons.
Qed.

Lemma split_once_None c t : c ∉ t -> split_once c t = None.
Proof.
  induction t as [|b t IH]; intros Ht; [done|]. apply not_elem_of_cons in Ht as [Hb Ht]. cbn [split_once].
  rewrite (proj2 (N.eqb_neq b c)) by done. by rewrite IH.
Qed.

Lemma query_pair_text q p : pair_ok p = true ->
  query_pair q (p.1 ++ 61%N :: p.2) = bt_insert (bytes_string (percent_decode p.1)) (bytes_string (percent_decode p.2)) q.
Proof. intros (_ & _ & H61)%pair_text. unfold query_pair. by rewrite split_once_app. Qed.

Lemma parse_query_text l : forallb pair_ok l = true -> parse_query (query_text l) = query_of l.
Proof.
  unfold parse_query, query_of. generalize (@bt_empty string string). induction l as [|[n v] l IH]; intros q Hl; [done|].
  cbn [forallb] in Hl. apply andb_true_iff in Hl as [Hp Hl]. destruct (pair_text _ Hp) as (_ & H38 & _). cbn [fst snd] in H38.
  assert (n ++ 61%N :: v <> []) as Hne by by destruct n. pose proof (query_pair_text q (n, v) Hp) as Hq. cbn [fst snd] in Hq.
  destruct l as [|p l].
  - cbn [query_text]. rewrite split_on_last by done. rewrite filter_cons_True by done. cbn [base.filter list_filter fold_left fst snd]. by rewrite Hq.
  - change (query_text ((n, v) :: p :: l)) with (n ++ 61%N :: v ++ 38%N :: query_text (p :: l)).
    rewrite app_comm_cons, app_assoc, split_on_part by done. rewrite filter_cons_True by done. cbn [fold_left fst snd]. rewrite Hq. by apply IH.
Qed.

Lemma query_text_plain l : forallb pair_ok l = true -> plain (query_text l) = true.
Proof.
  induction l as [|[n v] l IH]; [done|]. cbn [forallb]. intros [Hp Hl]%andb_true_iff. destruct (pair_text _ Hp) as (Hpl & _ & _).
  cbn [fst snd] in Hpl. destruct l as [|p l]; [done|]. change (query_text ((n, v) :: p :: l)) with (n ++ 61%N :: v ++ 38%N :: query_text (p :: l)).
  rewrite app_comm_cons, app_assoc, plain_app, Hpl. cbn [plain forallb]. by apply IH.
Qed.

(** The target a client asks for. *)
Definition target_of (path : string) (l : list (text * text)) : text :=
  match l with [] => tx path | _ => tx path ++ 63%N :: query_text l end.

Definition path_ok (path : string) : bool :=
  plain (tx path) && negb (bool_decide (63%N ∈ tx path)) && negb (bool_decide (path = ""%string)).

Lemma request_line method target :
  plain (tx method) = true -> plain target = true ->
  trim_end (tx method ++ tx " " ++ target ++ tx " HTTP/1.1" ++ crlf) = tx method ++ 32%N :: target ++ 32%N :: tx "HTTP/1.1".
Proof.
  intros Hm Ht. change (tx " HTTP/1.1" ++ crlf) with (tx " " ++ tx "HTTP/1.1" ++ crlf). rewrite !app_assoc, <- app_assoc.
  rewrite trim_end_line; [by rewrite <- !app_assoc| |done|done].
  by rewrite !forallb_app, (plain_printable (tx method)), (plain_printable target).
Qed.

Lemma sent_lines method target body :
  plain (tx method) = true -> plain target = true ->
  raw_lines (request_bytes method target body) =
    (tx method ++ tx " " ++ target ++ tx " HTTP/1.1" ++ crlf) ::
    [tx "Host: schweepd" ++ crlf; tx "Content-Length: " ++ dec (Z.of_nat (length body)) ++ crlf; tx "Connection: close" ++ crlf; crlf] ++
    raw_lines body.
Proof.
  intros Hm Ht. unfold request_bytes.
  replace (tx method ++ tx " " ++ target ++ tx " HTTP/1.1" ++ crlf ++ _) with
    ((tx method ++ tx " " ++ target ++ tx " HTTP/1.1") ++ crlf ++ tx "Host: schweepd" ++ crlf ++
     (tx "Content-Length: " ++ dec (Z.of_nat (length body))) ++ crlf ++ tx "Connection: close" ++ crlf ++ [] ++ crlf ++ body)
    by by rewrite <- !app_assoc.
  rewrite raw_lines_line.
  2: { rewrite !not_elem_of_app. split_and!; [by apply plain_not_in|by not_in|by apply plain_not_in|by not_in]. }
  rewrite raw_lines_line by by not_in. rewrite raw_lines_line.
  2: { apply not_elem_of_app. split; [by not_in|]. apply plain_not_in; [apply dec_plain|done]. }
  rewrite raw_lines_line by by not_in. rewrite raw_lines_line by by not_in. by rewrite <- !app_assoc.
Qed.

Lemma request_roundtrip method path l body :
  plain (tx method) = true -> method <> ""%string -> path_ok path = true -> forallb pair_ok l = true ->
  Z.of_nat (length body) <= isize_max ->
  read_request (request_bytes method (target_of path l) body) = Got (mkRequest method path (query_of l) body).
Proof.
  intros Hm Hme Hpath Hl Hb. unfold path_ok in Hpath. rewrite !andb_true_iff, !negb_true_iff, !bool_decide_eq_false in Hpath. destruct Hpath as [[Hp H63] Hpe].
  assert (plain (target_of path l) = true /\ target_of path l <> []) as [Ht Hte].
  { unfold target_of. destruct l as [|p l]; [split; [done|]; by destruct path|]. split; [|by destruct path].
    rewrite plain_app, Hp. cbn [plain forallb]. by apply query_text_plain. }
  assert (default (target_of path l, []) (split_once 63 (target_of path l)) = (tx path, query_text l)) as Hq.
  { unfold target_of. destruct l as [|p l]; [by rewrite split_once_None|by rewrite split_once_app]. }
  unfold read_request. rewrite (sent_lines method (target_of path l) body Hm Ht).
  assert (utf8_valid (tx method ++ tx " " ++ target_of path l ++ tx " HTTP/1.1" ++ crlf) = true) as ->.
  { rewrite utf8_valid_app by by apply plain_utf8. rewrite utf8_valid_app by done. by rewrite utf8_valid_app by by apply plain_utf8. }
  rewrite request_line by done. cbn [negb].
  rewrite split_on_part by by apply plain_not_in. rewrite split_on_part by by apply plain_not_in.
  cbn [lookup list_lookup default id]. rewrite !bool_decide_false by (done || by destruct method). cbn [orb].
  rewrite sent_headers by (unfold isize_max in Hb; lia). rewrite concat_raw_lines.
  rewrite (proj2 (Z.ltb_ge isize_max _)) by lia. rewrite Z.ltb_irrefl, Hq, !bytes_string_tx, parse_query_text by done.
  by rewrite Nat2Z.id, firstn_all.
Qed.

(** ** The response it gets *)

Lemma plain_no_crlf t : plain t = true -> 13%N ∉ t.
Proof. intros Ht. by apply plain_not_in. Qed.

(** Up to the empty line, line by line. *)
Lemma split_head_line l b t :
  13%N ∉ l -> b <> 13%N ->
  split_at_first (crlf ++ crlf) (l ++ crlf ++ b :: t) = (fun x => (l ++ crlf ++ x.1, x.2)) <$> split_at_first (crlf ++ crlf) (b :: t).
Proof.
  intros Hl Hb. change (crlf ++ crlf) with (13%N :: [10; 13; 10]%N). rewrite split_at_first_skip by done.
  assert (forall r, strip_prefix (13%N :: [10; 13; 10]%N) (crlf ++ b :: r) = None) as Hp.
  { intros r. cbn [crlf app strip_prefix]. rewrite !N.eqb_refl, (proj2 (N.eqb_neq 13 b)); [done|congruence]. }
  change (crlf ++ b :: t) with (13%N :: 10%N :: b :: t) in *. rewrite split_at_first_step by apply (Hp t).
  rewrite split_at_first_step by done. by destruct (split_at_first _ (b :: t)) as [[]|].
Qed.

Lemma split_head_end l t : 13%N ∉ l -> split_at_first (crlf ++ crlf) (l ++ crlf ++ crlf ++ t) = Some (l, t).
Proof.
  intros Hl. change (crlf ++ crlf) with (13%N :: [10; 13; 10]%N) at 1. rewrite split_at_first_skip by done. rewrite app_assoc.
  change (13%N :: [10; 13; 10]%N) with (crlf ++ crlf). rewrite split_at_first_here. cbn. by rewrite app_nil_r.
Qed.

Definition response_head (status : Z) (reason : string) (n : Z) : text :=
  (tx "HTTP/1.1 " ++ dec status ++ tx " " ++ tx reason) ++ crlf ++ (tx "Content-Length: " ++ dec n) ++ crlf ++
  tx "Content-Type: text/plain; charset=utf-8" ++ crlf ++ tx "Connection: close".

Lemma dec_no_cr pre v : 13%N ∉ pre -> 13%N ∉ (pre ++ dec v).
Proof. intros Hp. apply not_elem_of_app. split; [done|]. apply plain_not_in; [apply dec_plain|done]. Qed.

Lemma split_next_line l t b :
  13%N ∉ l -> head t = Some b -> b <> 13%N ->
  split_at_first (crlf ++ crlf) (l ++ crlf ++ t) = (fun x => (l ++ crlf ++ x.1, x.2)) <$> split_at_first (crlf ++ crlf) t.
Proof. intros Hl Ht Hb. destruct t as [|b' t]; [done|]. injection Ht as ->. by apply split_head_line. Qed.

Lemma split_response status reason body :
  plain (tx reason) = true ->
  split_at_first (crlf ++ crlf) (write_response status reason body) = Some (response_head status reason (Z.of_nat (length body)), body).
Proof.
  intros Hr. unfold write_response, response_head.
  replace (tx "HTTP/1.1 " ++ _) with
    ((tx "HTTP/1.1 " ++ dec status ++ tx " " ++ tx reason) ++ crlf ++ (tx "Content-Length: " ++ dec (Z.of_nat (length body))) ++ crlf ++
     tx "Content-Type: text/plain; charset=utf-8" ++ crlf ++ tx "Connection: close" ++ crlf ++ crlf ++ body)
    by by rewrite <- !app_assoc.
  rewrite (split_next_line _ _ 67%N); [|rewrite app_assoc; apply not_elem_of_app; split; [by apply dec_no_cr; not_in|]|done|done].
  2: { apply not_elem_of_app. split; [by not_in|by apply plain_not_in]. }
  rewrite (split_next_line (tx "Content-Length: " ++ _) _ 67%N); [|apply dec_no_cr; by not_in|done|done].
  rewrite (split_next_line (tx "Content-Type: text/plain; charset=utf-8") _ 67%N); [|by not_in|done|done].
  rewrite split_head_end by by not_in. cbn [fmap option_fmap option_map fst snd]. by rewrite <- !app_assoc.
Qed.

Lemma response_line status reason n :
  plain (tx reason) = true ->
  lines (from_utf8_lossy (response_head status reason n ++ crlf ++ crlf)) !! 0%nat = Some (tx "HTTP/1.1 " ++ dec status ++ tx " " ++ tx reason).
Proof.
  intros Hr. unfold response_head. set (first := tx "HTTP/1.1 " ++ dec status ++ tx " " ++ tx reason).
  assert (utf8_valid first = true) as Hu.
  { unfold first. rewrite utf8_valid_app by reflexivity. rewrite utf8_valid_app by apply plain_utf8, dec_plain. rewrite utf8_valid_app by reflexivity. by apply plain_utf8. }
  rewrite from_utf8_lossy_valid.
  2: { rewrite <- !app_assoc, (utf8_valid_app first) by done. rewrite utf8_valid_app by reflexivity. rewrite utf8_valid_app by reflexivity.
       rewrite utf8_valid_app by apply plain_utf8, dec_plain. reflexivity. }
  replace ((first ++ crlf ++ _) ++ crlf ++ crlf) with (line (first ++ [13%N]) ++ ((tx "Content-Length: " ++ dec n) ++ crlf ++
    tx "Content-Type: text/plain; charset=utf-8" ++ crlf ++ tx "Connection: close") ++ crlf ++ crlf)
    by (unfold line, crlf; rewrite <- !app_assoc; reflexivity).
  unfold lines. rewrite lines_from_line.
  - cbn [lookup list_lookup app]. f_equal. unfold chop_cr. rewrite last_snoc. apply removelast_last.
  - rewrite forallb_app. cbn [forallb N.eqb Pos.eqb negb andb]. rewrite andb_true_r. unfold first. rewrite !forallb_app.
    rewrite (plain_no_newline (dec status)), (plain_no_newline (tx reason)) by (done || apply dec_plain). reflexivity.
Qed.

Lemma request_reply status reason body :
  plain (tx reason) = true -> 0 <= status < 65536 ->
  request_raw_reply (write_response status reason body) = mkRawResponse status body.
Proof.
  intros Hr Hs. unfold request_raw_reply. rewrite split_response, response_line by done. cbn [default id].
  change (tx "HTTP/1.1 " ++ dec status ++ tx " " ++ tx reason) with (tx "HTTP/1.1" ++ 32%N :: dec status ++ 32%N :: tx reason).
  rewrite split_on_part by by not_in. rewrite split_on_part by (apply plain_not_in; [apply dec_plain|done]).
  cbn [lookup list_lookup mbind option_bind]. by rewrite from_str_radix_dec.
Qed.

Lemma kind_roundtrip k : kind_of (status k) = k.
Proof. by destruct k. Qed.

(** A success gives back the body, a failure the kind and the message. *)
Lemma response_roundtrip body : utf8_valid body = true -> read_response (respond body) = ROk body.
Proof.
  intros Hb. unfold read_response, respond. rewrite request_reply by done. cbn [raw_status raw_body]. by rewrite from_utf8_lossy_valid.
Qed.

Lemma error_roundtrip k message :
  utf8_valid (tx message) = true -> read_response (respond_error k message) = RFailed k (trim (line (tx message))).
Proof.
  intros Hm. assert (plain (tx (kind_name k)) = true) as Hp by by destruct k.
  unfold read_response, respond_error. rewrite request_reply by (done || by destruct k). cbn [raw_status raw_body].
  assert ((status k =? 200) = false) as -> by by destruct k. rewrite kind_roundtrip, from_utf8_lossy_valid.
  - assert (forall a b, line a ++ b = a ++ 10%N :: b) as -> by (intros a b; unfold line; by rewrite <- app_assoc).
    unfold message_of. rewrite split_once_app by by apply plain_not_in. done.
  - rewrite utf8_valid_app by by apply line_utf8, plain_utf8. by apply line_utf8.
Qed.
