(* ===== verification/Handlers.v ===== *)
(** * The server's handlers ([schweep-server]: server.rs, client.rs, the reports of engine.rs)

    A request is translated into one call of the engine and its result into the
    bytes of a response; the client's endpoints send the requests. *)

From Stdlib Require Import ZArith NArith Lia.
From stdpp Require Import base list strings pretty.
From S2P Require Import Prelude BTree ZAlg Value ZSet Plan Bind Codec State Operator Linear Distinct Join Aggregate ResultStore Circuit Dataflow Engine Compile Text LogRecord Log PlanForm Memo MemoReport Snapshot Compaction CompactionCorrect Checkpoint ServerParts Server Wire.

(** ** Fingerprints ([Circuit::state_fingerprint]) *)

Section fingerprint.
Context {B : Type} `{StateBackend B} `{Debug}.

Definition state_lines (label : string) (b : B) : result OpError text :=
  let? es := map_err OpState (be_iter_all b) in
  Ok (flat_map (fun e => line (tx ("    " +:+ label +:+ ": [" +:+ String.concat ", " (map value_to_string e.1) +:+ "] => " +:+ pretty e.2)%string)) es).

(** [Operator::render_state] *)
Definition render_state (op : AnyOp B) : result OpError text :=
  match op with
  | OpFilter _ | OpProject _ => Ok []
  | OpJoin j => let? l := state_lines "left" (left_index j) in let? r := state_lines "right" (right_index j) in Ok (l ++ r)
  | OpAggregate a => state_lines "agg" (agg_state a)
  | OpDistinct d => state_lines "distinct" (distinct_state d)
  end.

Definition emitted_text (c : Circuit (AnyOp B)) (index : nat) : text := dec (default 0 (emitted_entries c !! index)).

Definition fingerprint_node (c : Circuit (AnyOp B)) (out : text) (p : nat * option (Node (AnyOp B))) : result CircuitError text :=
  let head := out ++ tx "node " ++ dec_nat p.1 in
  match p.2 with
  | None => Ok (head ++ line (tx " freed"))
  | Some (NSource table alias schema) =>
      Ok (head ++ tx " source table=" ++ tx table ++ tx " alias=" ++ tx alias ++ tx " emitted=" ++ emitted_text c p.1 ++
          line (tx " schema=" ++ tx (schema_to_string schema)))
  | Some (NOperator op inputs) =>
      let budget := match state_budget c (op_state_bound op) inputs (op_name op) with
                    | Ok b => dec b
                    | Err _ => tx "admitted-unbounded"
                    end in
      let? state := map_err CirOp (render_state op) in
      Ok (head ++ tx " " ++ tx (op_name op) ++
          tx (" inputs=[" +:+ String.concat ", " (map (fun i => "node " +:+ pretty (N.of_nat i)) inputs) +:+ "]")%string ++
          tx " state_bound=" ++ tx (bound_to_string (op_state_bound op)) ++ tx " state_size=" ++ dec_nat (op_state_size op) ++
          tx " budget=" ++ budget ++ tx " emitted=" ++ emitted_text c p.1 ++
          line (tx " schema=" ++ tx (schema_to_string (op_output_schema op))) ++ state)
  end.

Definition fingerprint_sink (out : text) (p : nat * option Sink) : result CircuitError text :=
  match p.2 with
  | None => Ok (out ++ tx "sink " ++ dec_nat p.1 ++ line (tx " freed"))
  | Some s =>
      let head := out ++ tx "sink node " ++ dec_nat (sink_at_node s) ++ tx " · result store holds " ++
                  dec_nat (store_len (sink_result s)) ++ tx " row(s) · " ++ dec_nat (store_len (sink_errors s)) ++
                  line (tx " live error(s)") in
      let? answer := store_canonical (sink_result s) in
      if store_is_empty (sink_errors s) then Ok (head ++ render answer)
      else let? errs := store_canonical (sink_errors s) in
           Ok (head ++ render answer ++ line (tx "live errors:") ++ render errs)
  end.

Definition state_fingerprint (c : Circuit (AnyOp B)) : result CircuitError text :=
  let? out := try_fold (fingerprint_node c) (line (tx "circuit @ epoch " ++ dec (epoch c))) (imap pair (nodes c)) in
  try_fold fingerprint_sink out (imap pair (sinks c)).
End fingerprint.

(** ** Bodies *)

Definition decode_entries (body : list N) : result ServerError Entries :=
  match body with
  | [] => Ok []
  | _ =>
      let? r := map_err SrvLog (read_framed body) in
      let? '(record, _) := ok_or r (SrvCorruptRegistry "a truncated wire frame") in
      match record with
      | RAppend _ _ _ entries => Ok entries
      | RSealEpoch _ => Err (SrvCorruptRegistry "a seal record is not a batch")
      end
  end.

(** The loop over the frames of a transaction; a frame takes eight bytes or more,
    so the length of the body is fuel enough. *)
Fixpoint decode_frames (fuel : nat) (body : list N) (out : list (string * string * Entries))
    : result ServerError (list (string * string * Entries)) :=
  match fuel with
  | O => Ok out
  | S fuel' =>
      let? r := map_err SrvLog (read_framed body) in
      match r with
      | None => Ok out
      | Some (RAppend _ token table entries, next) => decode_frames fuel' (drop (Z.to_nat next) body) (out ++ [(table, token, entries)])
      | Some (RSealEpoch _, _) => Err (SrvCorruptRegistry "a transaction body holds batches, and the seal is implied")
      end
  end.

Definition decode_transaction (body : list N) : result ServerError (list (string * string * Entries)) :=
  decode_frames (S (length body)) body [].

(** ** Parameters *)

Section params.
Context `{Debug}.

Definition refused_parse (message : string) : ServerError := SrvSql (Parse message).

Definition param (r : Request) (name : string) : result ServerError string :=
  ok_or (bt_get name (rq_query r)) (refused_parse ("the query parameter " +:+ debug_str name +:+ " is required")%string).

Definition u64_param (r : Request) (name : string) : result ServerError Z :=
  let? raw := param r name in
  ok_or (parse_dec (tx raw))
    (refused_parse ("the query parameter " +:+ debug_str name +:+ " must be a number, not " +:+ debug_str raw)%string).

Definition body_text (r : Request) : result ServerError string :=
  if utf8_valid (rq_body r) then Ok (bytes_string (rq_body r)) else Err (refused_parse "the body is not UTF-8").
End params.

(** [first_number] *)
Definition first_number (body : text) : option Z :=
  head (lines body) ≫= fun l => last (split_whitespace l) ≫= parse_dec.

(** ** Reports *)

Definition receipt_render (r : RetractionReceipt) : text :=
  match sealed_epoch r with
  | Some epoch => line (tx "retracted") ++ line (tx "epoch " ++ dec epoch) ++ line (tx "tables " ++ dec_nat (receipt_tables r)) ++
                  line (tx "rows " ++ dec_nat (receipt_rows r)) ++ line (tx "multiplicity " ++ dec (multiplicity r))
  | None => line (tx "no-op") ++ line (tx "tables 0") ++ line (tx "rows 0") ++ line (tx "multiplicity 0")
  end.

(** [Admission::render] of the gate. *)
Definition gate_render (g : Gate) : text :=
  line (tx "admission: bound " ++ dec (queue_bound (gate_policy g)) ++ tx " batches / " ++ dec (queue_bytes (gate_policy g)) ++
        tx " bytes per source · " ++ dec (total_depth g) ++ tx " queued · " ++ dec (total_queued_bytes g) ++
        tx " queued_bytes · " ++ dec (total_refused g) ++ tx " refused") ++
  flat_map (fun p => line (tx "  source " ++ tx p.1 ++ tx ": " ++ dec p.2 ++ tx " queued · " ++ dec (queued_bytes g p.1) ++ tx " bytes"))
    (depths g) ++
  flat_map (fun p => line (tx "  source " ++ tx p.1 ++ tx ": " ++ dec p.2 ++ tx " refused")) (refused g).

(** ** Handling one request *)

Section server.
Context {F B : Type} `{StateBackend B} `{BackendFactory F B} `{Debug} `{Parquet} `{ErrorText} `{SqlText} `{!FreshFactory F} `{DescribeFactory F}.
Abbreviation E := (@Engine F B).
Implicit Type (e : E) (sd : ServerDisk).

Definition counters e : text :=
  let c := dataflow (e_memo e) in
  line (tx "operator steps " ++ dec (operator_steps c)) ++
  concat (imap (fun index emitted => line (tx "node " ++ dec_nat index ++ tx " emitted " ++ dec emitted ++ tx " stepped " ++
                                           dec (default 0 (steps c !! index)))) (emitted_entries c)).

Definition standing_line (p : Z * Standing) : text :=
  let sql := tx (entry_sql (st_entry p.2)) in
  match quarantined p.2 with
  | None => line (tx "handle " ++ dec p.1 ++ tx ": live · ring " ++ dec_nat (length (ring p.2)) ++ tx " · ring_bytes " ++
                  dec (ring_bytes p.2) ++ tx " · oldest " ++ dec (oldest p.2) ++ tx " · " ++ sql)
  | Some reason => line (tx "handle " ++ dec p.1 ++ tx ": QUARANTINED · " ++ tx reason ++ tx " · " ++ sql)
  end.

Definition health e : text :=
  line (tx "epoch " ++ dec (log_sealed_epoch (e_log e))) ++ line (tx "retained_from " ++ dec (retained_from (e_log e))) ++
  line (tx "registrations " ++ dec_nat (length (e_standing e))) ++ line (tx "pending_appends " ++ dec_nat (pending_count e)) ++
  gate_render (e_gate e) ++ flat_map standing_line (e_standing e).

(** A call that changes nothing. *)
Definition reply {A} e sd (f : A -> text) (r : result ServerError A) : Out text := (sd, e, map_ok f r).

(** The result of a call, rendered. *)
Definition rendered_out {A} (f : A -> text) (out : @Out F B A) : Out text := let '(sd, e, r) := out in (sd, e, map_ok f r).

(** Decode the arguments, then call. *)
Definition with_args {A} e sd (r : result ServerError A) (call : A -> Out text) : Out text :=
  match r with Err x => (sd, e, Err x) | Ok a => call a end.

Definition ack_text (a : Ack) : text := match a with Appended => line (tx "appended") | DroppedAsReplay => line (tx "duplicate") end.
Definition dec_line (v : Z) : text := line (dec v).
Definition epoch_answer (r : Z * text) : text := line (tx "epoch " ++ dec r.1) ++ r.2.
Definition deltas_text (r : Z * list EpochDelta) : text :=
  line (tx "token " ++ dec r.1) ++ line (tx "epochs " ++ dec_nat (length r.2)) ++
  flat_map (fun dl => line (tx "epoch " ++ dec (delta_epoch dl)) ++ rendered dl) r.2.

Definition handle_ingest e sd (r : Request) : Out text :=
  with_args e sd (let? source := param r "source" in let? table := param r "table" in let? token := param r "token" in
                  let? entries := decode_entries (rq_body r) in Ok (source, table, token, entries))
    (fun '(source, table, token, entries) => rendered_out ack_text (engine_ingest e sd source table token entries)).

Definition handle_txn e sd (r : Request) : Out text :=
  with_args e sd (let? source := param r "source" in let? batches := decode_transaction (rq_body r) in Ok (source, batches))
    (fun '(source, batches) => rendered_out dec_line (transaction e sd source batches)).

Definition handle_retract e sd (r : Request) : Out text :=
  with_args e sd (let? source := param r "source" in
                  let? predicate := match rq_body r with [] => Ok None | _ => let? t := body_text r in Ok (Some t) end in
                  Ok (source, predicate))
    (fun '(source, predicate) => rendered_out receipt_render (retract_source e sd source (bt_get "table"%string (rq_query r)) predicate)).

Definition handle_register e sd (r : Request) : Out text :=
  with_args e sd (body_text r) (fun sql =>
    let admission := match bt_get "unbounded"%string (rq_query r) with
                     | Some reason => if decide (reason = ""%string) then bounded else with_unbounded_state reason
                     | None => bounded
                     end in
    rendered_out dec_line (engine_register e sd sql admission)).

Definition handle_oneshot e sd (r : Request) : Out text :=
  with_args e sd (match bt_get "sql"%string (rq_query r) with Some sql => Ok sql | None => body_text r end)
    (fun sql => reply e sd id (oneshot e sd sql)).

Definition handle_string e sd (r : Request) : Out text :=
  let at_ method path := bool_decide (rq_method r = method /\ rq_path r = path) in
  if at_ "POST" "/ingest" then handle_ingest e sd r
  else if at_ "POST" "/seal" then rendered_out dec_line (engine_seal e sd)
  else if at_ "POST" "/txn" then handle_txn e sd r
  else if at_ "POST" "/retract-source" then handle_retract e sd r
  else if at_ "POST" "/register" then handle_register e sd r
  else if at_ "POST" "/deregister" then
    with_args e sd (u64_param r "handle") (fun h => rendered_out (fun _ => line (tx "ok")) (engine_deregister e sd h))
  else if at_ "GET" "/read" then
    reply e sd epoch_answer (let? h := u64_param r "handle" in engine_read e h)
  else if at_ "GET" "/oneshot" then handle_oneshot e sd r
  else if at_ "GET" "/subscribe" then
    reply e sd deltas_text (let? h := u64_param r "handle" in let? from := u64_param r "from" in subscribe e h from)
  else if at_ "GET" "/plan" then reply e sd id (let? h := u64_param r "handle" in engine_plan_of e h)
  else if at_ "GET" "/counters" then reply e sd id (Ok (counters e))
  else if at_ "GET" "/fingerprint" then reply e sd id (map_err SrvCircuit (state_fingerprint (dataflow (e_memo e))))
  else if at_ "GET" "/explain-state" then reply e sd explain_render (map_err SrvMemo (explain_state (e_memo e) cost_redb))
  else if at_ "GET" "/explain-maintenance" then reply e sd maintenance_render (Ok (explain_maintenance (e_memo e)))
  else if at_ "GET" "/health" then reply e sd id (Ok (health e))
  else (sd, e, Err (SrvUnknownPath (rq_method r) (rq_path r))).

Definition formats_message (format : string) : string :=
  bytes_string (tx "unknown read format " ++ tx (debug_str format) ++ tx "; the formats are " ++ [34%N] ++ tx "render" ++ [34%N] ++
                tx " and " ++ [34%N] ++ tx "frames" ++ [34%N]).

Definition handle e sd (r : Request) : Out (list N) :=
  match (if bool_decide (rq_method r = "GET"%string /\ rq_path r = "/read"%string) then bt_get "format"%string (rq_query r) else None) with
  | Some format =>
      if decide (format = "frames"%string) then reply e sd id (let? h := u64_param r "handle" in read_frames e h)
      else (sd, e, Err (refused_parse (formats_message format)))
  | None => handle_string e sd r
  end.

(** ** One round of the accept loop *)

(** What serving a connection comes to: the loop goes on with or without a
    response, ends with a report, or stops with an error or a panic. *)
Inductive Served :=
| Continued (response : option (list N))
| ShutDown (response : list N) (report : Drained)
| Stopped (x : ServerError)
| Crashed.

Definition drained_text (d : Drained) : text :=
  line (tx "ok") ++ line (tx "epoch " ++ dec (drained_epoch d)) ++ line (tx "pending_appends " ++ dec_nat (pending_appends d)) ++
  line (tx "registrations " ++ dec_nat (drained_registrations d)).

Definition serve_one e sd (input : list N) : ServerDisk * E * Served :=
  match read_request input with
  | Closed | ReadFailed => (sd, e, Continued None)
  | Panicked => (sd, e, Crashed)
  | Got r =>
      if decide (rq_path r = "/shutdown"%string) then
        match shutdown e sd with
        | (sd, e, Err x) => (sd, e, Stopped x)
        | (sd, e, Ok d) => (sd, e, ShutDown (respond (drained_text d)) d)
        end
      else
        match handle e sd r with
        | (sd, e, Ok body) => (sd, e, Continued (Some (respond body)))
        | (sd, e, Err x) => (sd, e, Continued (Some (respond_error (kind x) (server_error_text x))))
        end
  end.
End server.

(** ** The client's endpoints *)

Definition client_ingest (source table token : string) (entries : Entries) : list N :=
  request_bytes "POST" (tx ("/ingest?source=" +:+ source +:+ "&table=" +:+ table +:+ "&token=" +:+ token)%string)
    (encode_batch table token entries).

Definition client_seal : list N := request_bytes "POST" (tx "/seal") [].

Definition client_transaction (source : string) (batches : list (string * string * Entries)) : list N :=
  request_bytes "POST" (tx ("/txn?source=" +:+ source)%string)
    (flat_map (fun '(table, token, entries) => encode_batch table token entries) batches).

Definition client_retract_source (source : string) (table predicate : option string) : list N :=
  request_bytes "POST"
    (tx "/retract-source?source=" ++ encode_query (tx source) ++
     match table with Some t => tx "&table=" ++ encode_query (tx t) | None => [] end)
    (match predicate with Some p => tx p | None => [] end).

Definition client_register (sql : string) : list N := request_bytes "POST" (tx "/register") (tx sql).

Definition client_register_unbounded (sql reason : string) : list N :=
  request_bytes "POST" (tx "/register?unbounded=" ++ encode_query (tx reason)) (tx sql).

Definition client_deregister (handle : Z) : list N := request_bytes "POST" (tx "/deregister?handle=" ++ dec handle) [].
Definition client_read (handle : Z) : list N := request_bytes "GET" (tx "/read?handle=" ++ dec handle) [].
Definition client_read_frames (handle : Z) : list N :=
  request_bytes "GET" (tx "/read?handle=" ++ dec handle ++ tx "&format=frames") [].
Definition client_oneshot (sql : string) : list N := request_bytes "GET" (tx "/oneshot") (tx sql).
Definition client_subscribe (handle from : Z) : list N :=
  request_bytes "GET" (tx "/subscribe?handle=" ++ dec handle ++ tx "&from=" ++ dec from) [].
Definition client_plan (handle : Z) : list N := request_bytes "GET" (tx "/plan?handle=" ++ dec handle) [].
Definition client_shutdown : list N := request_bytes "POST" (tx "/shutdown") [].

(** [Client::answer]: the body without its first line. *)
Definition client_answer (r : Response) : result (ErrorKind * text) text :=
  match r with ROk body => Ok (default [] (snd <$> split_once 10 body)) | RFailed k m => Err (k, m) end.
