(* ===== verification/WireTheorems.v ===== *)
(** * What a client can rely on

    A call of the client, carried over the wire, is the call of the engine, and
    the client reads the engine's answer; and the runs where that fails. *)

From Stdlib Require Import ZArith NArith Lia.
From stdpp Require Import base list strings pretty.
From S2P Require Import Prelude BTree ZAlg Value ZSet Plan Bind Codec State Operator ResultStore Circuit Dataflow Engine Compile Text LogRecord Log PlanForm Memo MemoReport Snapshot Compaction CompactionCorrect ParquetModel Checkpoint ServerParts Server ServerInv ServerLaws ServerExample ServerTheorems Wire Handlers.

(** ** Bodies *)

Abbreviation WireBatch := (string * string * Entries)%type.

Definition batch_bytes (b : WireBatch) : list N := encode_batch b.1.1 b.1.2 b.2.
Definition batch_ok (b : WireBatch) : bool := record_ok (RAppend "wire" b.1.2 b.1.1 b.2).

Lemma read_batch b rest : batch_ok b = true ->
  read_framed (batch_bytes b ++ rest) = Ok (Some (RAppend "wire" b.1.2 b.1.1 b.2, Z.of_nat (length (batch_bytes b)))).
Proof.
  unfold batch_ok, record_ok. intros [Hv Hl]%andb_true_iff. apply Z.ltb_lt in Hl. unfold batch_bytes, encode_batch.
  rewrite read_framed_frame by (done || apply record_encode_ok). by rewrite decode_encode_record.
Qed.

Lemma batch_bytes_nonempty b : batch_bytes b <> [].
Proof. intros E. apply (f_equal length) in E. unfold batch_bytes, encode_batch in E. rewrite frame_length in E. simpl in E. lia. Qed.

Lemma decode_entries_sent b : batch_ok b = true -> decode_entries (batch_bytes b) = Ok b.2.
Proof.
  intros Hb. unfold decode_entries. pose proof (read_batch b [] Hb) as Hr. rewrite app_nil_r in Hr. rewrite Hr.
  by destruct (batch_bytes b) eqn:E; [by apply batch_bytes_nonempty in E|].
Qed.

(** A transaction decodes to the frames before the first that does not read back. *)
Lemma decode_frames_sent tail bs : forall fuel out,
  read_framed tail = Ok None -> forallb batch_ok bs = true -> (length bs < fuel)%nat ->
  decode_frames fuel (flat_map batch_bytes bs ++ tail) out = Ok (out ++ bs).
Proof.
  induction bs as [|[[table token] es] bs IH]; intros fuel out Ht Hbs Hf; (destruct fuel as [|fuel]; [simpl in Hf; lia|]); cbn [decode_frames flat_map].
  - cbn [app]. rewrite Ht. cbn [map_err]. by rewrite app_nil_r.
  - cbn [forallb] in Hbs. apply andb_true_iff in Hbs as [Hb Hbs]. rewrite <- app_assoc, read_batch by done. cbn [map_err fst snd].
    rewrite Nat2Z.id, drop_app_length, IH by (done || simpl in Hf; lia). by rewrite <- app_assoc.
Qed.

Lemma decode_transaction_sent tail bs :
  read_framed tail = Ok None -> forallb batch_ok bs = true -> decode_transaction (flat_map batch_bytes bs ++ tail) = Ok bs.
Proof.
  intros Ht Hbs. unfold decode_transaction. rewrite decode_frames_sent; [done..|].
  assert (length bs <= length (flat_map batch_bytes bs))%nat; [|rewrite length_app; lia].
  clear. induction bs as [|b bs IH]; [done|]. cbn [flat_map length]. rewrite length_app. pose proof (batch_bytes_nonempty b).
  destruct (batch_bytes b); [done|]. simpl. lia.
Qed.

(** ** Calls *)

Inductive Call :=
| CallIngest (source table token : string) (entries : Entries)
| CallSeal
| CallTransaction (source : string) (batches : list WireBatch)
| CallRetract (source : string) (table predicate : option string)
| CallRegister (sql : string)
| CallRegisterUnbounded (sql reason : string)
| CallDeregister (handle : Z)
| CallRead (handle : Z)
| CallSubscribe (handle from : Z)
| CallOneshot (sql : string)
| CallPlan (handle : Z).

(** The bytes the client sends. *)
Definition sent (c : Call) : list N :=
  match c with
  | CallIngest source table token entries => client_ingest source table token entries
  | CallSeal => client_seal
  | CallTransaction source batches => client_transaction source batches
  | CallRetract source table predicate => client_retract_source source table predicate
  | CallRegister sql => client_register sql
  | CallRegisterUnbounded sql reason => client_register_unbounded sql reason
  | CallDeregister h => client_deregister h
  | CallRead h => client_read h
  | CallSubscribe h from => client_subscribe h from
  | CallOneshot sql => client_oneshot sql
  | CallPlan h => client_plan h
  end.

(** Names the client does not encode have to be safe in a query; what it encodes
    and what it sends as a body is any text.  An empty predicate is none, and an
    empty reason none. *)
Definition body_ok (s : string) : bool := utf8_valid (tx s) && (Z.of_nat (length (tx s)) <=? isize_max).
Definition given (s : string) : bool := negb (bool_decide (s = ""%string)).
Definition safe (s : string) : bool := query_safe (tx s).
Definition in_u64 (h : Z) : bool := (0 <=? h) && (h <? 2 ^ 64).

Definition sendable (c : Call) : bool :=
  match c with
  | CallIngest source table token entries => safe source && safe table && safe token && batch_ok (table, token, entries)
  | CallSeal => true
  | CallTransaction source batches =>
      safe source && forallb batch_ok batches && (Z.of_nat (length (flat_map batch_bytes batches)) <=? isize_max)
  | CallRetract source table predicate =>
      utf8_valid (tx source) && match table with Some t => utf8_valid (tx t) | None => true end &&
      match predicate with Some p => body_ok p && given p | None => true end
  | CallRegister sql | CallOneshot sql => body_ok sql
  | CallRegisterUnbounded sql reason => body_ok sql && utf8_valid (tx reason) && given reason
  | CallDeregister h | CallRead h | CallPlan h => in_u64 h
  | CallSubscribe h from => in_u64 h && in_u64 from
  end.

(** ** Queries *)

(** The query a list of named values parses to. *)
Definition query_of_named (l : list (string * text)) : btree string string :=
  fold_left (fun q p => bt_insert p.1 (bytes_string (percent_decode p.2)) q) l bt_empty.

Definition raw_pairs (l : list (string * text)) : list (text * text) := map (fun p => (tx p.1, p.2)) l.

Lemma query_of_raw l : forallb (fun p => safe p.1) l = true -> query_of (raw_pairs l) = query_of_named l.
Proof.
  unfold query_of, query_of_named. generalize (@bt_empty string string). induction l as [|[n v] l IH]; intros q Hl; [done|].
  cbn [forallb fst] in Hl. apply andb_true_iff in Hl as [Hn Hl]. cbn [raw_pairs map fold_left fst snd].
  rewrite percent_safe, bytes_string_tx by done. by apply IH.
Qed.

Definition named_ok (p : string * text) : bool := safe p.1 && pair_ok (tx p.1, p.2).

(** A request sent with named values arrives with them. *)
Lemma request_arrives method path l body :
  plain (tx method) = true -> method <> ""%string -> path_ok path = true -> forallb named_ok l = true ->
  Z.of_nat (length body) <= isize_max ->
  read_request (request_bytes method (target_of path (raw_pairs l)) body) = Got (mkRequest method path (query_of_named l) body).
Proof.
  intros Hm Hme Hp Hl Hb. assert (forallb pair_ok (raw_pairs l) = true /\ forallb (fun p => safe p.1) l = true) as [Hl1 Hl2].
  { clear -Hl. induction l as [|p l IH]; [done|]. cbn [forallb raw_pairs map] in *. unfold named_ok in Hl at 1.
    rewrite !andb_true_iff in *. destruct Hl as [[? ?] Hl%IH]. tauto. }
  rewrite request_roundtrip by done. by rewrite query_of_raw.
Qed.

(** ** Requests *)

Definition post (path : string) (l : list (string * text)) (body : list N) : Request := mkRequest "POST" path (query_of_named l) body.
Definition get (path : string) (l : list (string * text)) (body : list N) : Request := mkRequest "GET" path (query_of_named l) body.

Definition retract_pairs (source : string) (table : option string) : list (string * text) :=
  ("source"%string, encode_query (tx source)) :: match table with Some t => [("table"%string, encode_query (tx t))] | None => [] end.

(** The request the server reads. *)
Definition arrived (c : Call) : Request :=
  match c with
  | CallIngest source table token entries =>
      post "/ingest" [("source"%string, tx source); ("table"%string, tx table); ("token"%string, tx token)] (batch_bytes (table, token, entries))
  | CallSeal => post "/seal" [] []
  | CallTransaction source batches => post "/txn" [("source"%string, tx source)] (flat_map batch_bytes batches)
  | CallRetract source table predicate =>
      post "/retract-source" (retract_pairs source table) (match predicate with Some p => tx p | None => [] end)
  | CallRegister sql => post "/register" [] (tx sql)
  | CallRegisterUnbounded sql reason => post "/register" [("unbounded"%string, encode_query (tx reason))] (tx sql)
  | CallDeregister h => post "/deregister" [("handle"%string, dec h)] []
  | CallRead h => get "/read" [("handle"%string, dec h)] []
  | CallSubscribe h from => get "/subscribe" [("handle"%string, dec h); ("from"%string, dec from)] []
  | CallOneshot sql => get "/oneshot" [] (tx sql)
  | CallPlan h => get "/plan" [("handle"%string, dec h)] []
  end.

Lemma named_safe n v : safe n = true -> (61%N ∉ tx n) -> query_value v = true -> named_ok (n, v) = true.
Proof.
  intros Hn H61 Hv. unfold named_ok, pair_ok. cbn [fst snd]. rewrite Hn, Hv, (query_safe_value (tx n) Hn), bool_decide_false by done. done.
Qed.

Lemma encode_value s : utf8_valid (tx s) = true -> query_value (encode_query (tx s)) = true.
Proof. intros Hs. by apply encode_query_value, utf8_byte. Qed.

Ltac arrives path l :=
  unfold post, get;
  match goal with |- read_request ?sent = Got (mkRequest ?m _ _ ?body) =>
    change sent with (request_bytes m (target_of path (raw_pairs l)) body); apply request_arrives; [reflexivity|discriminate|reflexivity| |]
  end.

Ltac named_pairs :=
  repeat match goal with |- named_ok _ && _ = true => apply andb_true_iff; split end; try reflexivity;
  (apply named_safe; [reflexivity|by not_in|]).

Lemma encode_batch_length b : batch_ok b = true -> Z.of_nat (length (batch_bytes b)) <= isize_max.
Proof.
  unfold batch_ok, record_ok. intros [_ Hl%Z.ltb_lt]%andb_true_iff. unfold batch_bytes, encode_batch. rewrite frame_length.
  unfold isize_max. lia.
Qed.

Lemma sent_arrives c : sendable c = true -> read_request (sent c) = Got (arrived c).
Proof.
  assert (0 <= isize_max) as H0 by done.
  destruct c as [source table token es| |source bs|source table predicate|sql|sql reason|h|h|h from|sql|h]; cbn [sendable sent arrived]; intros Hs;
    unfold body_ok in Hs; rewrite ?andb_true_iff, ?Z.leb_le in Hs.
  - destruct Hs as [[[Hso Hta] Hto] Hb]. unfold client_ingest, post. rewrite !tx_app.
    replace (tx "/ingest?source=" ++ _) with (target_of "/ingest" (raw_pairs [("source"%string, tx source); ("table"%string, tx table); ("token"%string, tx token)])).
    2: { cbn [target_of raw_pairs map query_text fst snd]. by rewrite <- ?app_assoc. }
    apply request_arrives; [reflexivity|discriminate|reflexivity| |by apply encode_batch_length].
    cbn [forallb]. named_pairs; by apply query_safe_value.
  - arrives "/seal"%string (@nil (string * text)); done.
  - destruct Hs as [[Hso Hbs] Hl]. unfold client_transaction, post. rewrite tx_app.
    replace (tx "/txn?source=" ++ tx source) with (target_of "/txn" (raw_pairs [("source"%string, tx source)])) by done.
    replace (flat_map _ bs) with (flat_map batch_bytes bs) by (apply flat_map_ext; by intros [[? ?] ?]).
    apply request_arrives; [reflexivity|discriminate|reflexivity| |done]. cbn [forallb]. named_pairs. by apply query_safe_value.
  - destruct Hs as [[Hso Hta] Hpr]. unfold client_retract_source, post.
    replace (tx "/retract-source?source=" ++ _) with (target_of "/retract-source" (raw_pairs (retract_pairs source table))).
    2: { unfold retract_pairs. destruct table; cbn [target_of raw_pairs map query_text fst snd]; by rewrite ?app_nil_r. }
    apply request_arrives; [reflexivity|discriminate|reflexivity| |].
    + unfold retract_pairs. cbn [forallb]. destruct table; cbn [forallb]; named_pairs; by apply encode_value.
    + destruct predicate; [|done]. rewrite !andb_true_iff, Z.leb_le in Hpr. tauto.
  - arrives "/register"%string (@nil (string * text)); [done|tauto].
  - destruct Hs as [[[Hsql Hl] Hr] _]. arrives "/register"%string [("unbounded"%string, encode_query (tx reason))]; [|done].
    cbn [forallb]. named_pairs. by apply encode_value.
  - arrives "/deregister"%string [("handle"%string, dec h)]; [|done]. cbn [forallb]. named_pairs. apply query_safe_value, dec_safe.
  - arrives "/read"%string [("handle"%string, dec h)]; [|done]. cbn [forallb]. named_pairs. apply query_safe_value, dec_safe.
  - unfold client_subscribe.
    replace (tx "/subscribe?handle=" ++ _) with (target_of "/subscribe" (raw_pairs [("handle"%string, dec h); ("from"%string, dec from)])) by reflexivity.
    unfold get. apply request_arrives; [reflexivity|discriminate|reflexivity| |done]. cbn [forallb]. named_pairs; apply query_safe_value, dec_safe.
  - arrives "/oneshot"%string (@nil (string * text)); [done|tauto].
  - arrives "/plan"%string [("handle"%string, dec h)]; [|done]. cbn [forallb]. named_pairs. apply query_safe_value, dec_safe.
Qed.

(** ** The engine behind the wire *)

Section calls.
Context {F B : Type} `{StateBackend B} `{BackendFactory F B} `{Debug} `{Parquet} `{ErrorText} `{SqlText} `{!FreshFactory F} `{DescribeFactory F}.
Abbreviation E := (@Engine F B).
Implicit Type (e : E) (sd : ServerDisk).

(** The call itself, its result rendered. *)
Definition called e sd (c : Call) : Out text :=
  match c with
  | CallIngest source table token entries => rendered_out ack_text (engine_ingest e sd source table token entries)
  | CallSeal => rendered_out dec_line (engine_seal e sd)
  | CallTransaction source batches => rendered_out dec_line (transaction e sd source batches)
  | CallRetract source table predicate => rendered_out receipt_render (retract_source e sd source table predicate)
  | CallRegister sql => rendered_out dec_line (engine_register e sd sql bounded)
  | CallRegisterUnbounded sql reason => rendered_out dec_line (engine_register e sd sql (with_unbounded_state reason))
  | CallDeregister h => rendered_out (fun _ => line (tx "ok")) (engine_deregister e sd h)
  | CallRead h => reply e sd epoch_answer (engine_read e h)
  | CallSubscribe h from => reply e sd deltas_text (subscribe e h from)
  | CallOneshot sql => reply e sd id (oneshot e sd sql)
  | CallPlan h => reply e sd id (engine_plan_of e h)
  end.

Lemma param_given r n v : bt_get n (rq_query r) = Some v -> param r n = Ok v.
Proof. intros Hg. unfold param. by rewrite Hg. Qed.

Lemma u64_param_given r n h : bt_get n (rq_query r) = Some (bytes_string (dec h)) -> in_u64 h = true -> u64_param r n = Ok h.
Proof.
  intros Hg [Hh0%Z.leb_le Hh%Z.ltb_lt]%andb_true_iff. unfold u64_param. rewrite (param_given _ _ _ Hg).
  assert (tx (bytes_string (dec h)) = dec h) as -> by (unfold dec; by rewrite bytes_string_tx). by rewrite parse_dec_dec.
Qed.

Lemma value_safe s : safe s = true -> bytes_string (percent_decode (tx s)) = s.
Proof. intros Hs. rewrite percent_safe by done. apply bytes_string_tx. Qed.

Lemma value_encoded s : utf8_valid (tx s) = true -> bytes_string (percent_decode (encode_query (tx s))) = s.
Proof. intros Hs. rewrite percent_roundtrip by done. apply bytes_string_tx. Qed.

Lemma value_number h : percent_decode (dec h) = dec h.
Proof. apply percent_safe, dec_safe. Qed.

Ltac lookups :=
  cbn [rq_query post get query_of_named fold_left fst snd]; repeat first [rewrite bt_get_insert_eq | rewrite bt_get_insert_ne by discriminate];
  rewrite ?value_number; try reflexivity; f_equal; first [by apply value_safe | by apply value_encoded].

Ltac routed :=
  unfold handle, handle_string; cbn [arrived post get rq_method rq_path]; cbv beta zeta;
  repeat first [rewrite bool_decide_true by (split; reflexivity) | rewrite bool_decide_false by (intros [? ?]; discriminate)]; cbn iota.

Lemma body_text_sent method path q sql : body_ok sql = true -> body_text (mkRequest method path q (tx sql)) = Ok sql.
Proof. intros [Hu _]%andb_true_iff. unfold body_text. cbn [rq_body post get]. by rewrite Hu, bytes_string_tx. Qed.

Lemma given_body p : given p = true -> tx p <> [].
Proof. unfold given. rewrite negb_true_iff, bool_decide_eq_false. by destruct p. Qed.

Lemma handle_called e sd c : sendable c = true -> handle e sd (arrived c) = called e sd c.
Proof.
  destruct c as [source table token es| |source bs|source table predicate|sql|sql reason|h|h|h from|sql|h]; cbn [sendable]; intros Hs;
    rewrite ?andb_true_iff in Hs; routed; unfold post, get; cbn [called].
  - destruct Hs as [[[Hso Hta] Hto] Hb]. unfold handle_ingest.
    rewrite (param_given _ "source" source), (param_given _ "table" table), (param_given _ "token" token) by lookups.
    cbn [rq_body post get]. by rewrite decode_entries_sent.
  - done.
  - destruct Hs as [[Hso Hbs] _]. unfold handle_txn. rewrite (param_given _ "source" source) by lookups. cbn [rq_body post get].
    pose proof (decode_transaction_sent [] bs eq_refl Hbs) as Hd. rewrite app_nil_r in Hd. by rewrite Hd.
  - destruct Hs as [[Hso Hta] Hpr]. unfold handle_retract. cbn [rq_body post get].
    rewrite (param_given _ "source" source) by (unfold retract_pairs; destruct table; lookups).
    assert (bt_get "table"%string (query_of_named (retract_pairs source table)) = table) as Ht.
    { unfold retract_pairs. destruct table; [lookups|reflexivity]. }
    cbn [rq_query post get]. rewrite Ht. destruct predicate as [p|]; [|done]. rewrite andb_true_iff in Hpr. destruct Hpr as [Hp Hg].
    rewrite body_text_sent by done. pose proof (given_body p Hg). by destruct (tx p).
  - unfold handle_register. by rewrite body_text_sent.
  - destruct Hs as [[Hb Hu] Hg]. unfold handle_register. rewrite body_text_sent by done. cbn [with_args rq_query post get].
    assert (bt_get "unbounded"%string (query_of_named [("unbounded"%string, encode_query (tx reason))]) = Some reason) as -> by lookups.
    unfold given in Hg. rewrite negb_true_iff, bool_decide_eq_false in Hg. by rewrite decide_False.
  - by rewrite (u64_param_given _ "handle" h) by (done || lookups).
  - by rewrite (u64_param_given _ "handle" h) by (done || lookups).
  - destruct Hs as [Hh Hf]. by rewrite (u64_param_given _ "handle" h), (u64_param_given _ "from" from) by (done || lookups).
  - unfold handle_oneshot. by rewrite body_text_sent.
  - by rewrite (u64_param_given _ "handle" h) by (done || lookups).
Qed.

(** C21: the wire adds nothing and loses nothing (D-23).  Whatever the client
    calls with names it need not encode and any texts it does, the server reads
    that request, makes exactly that call of the engine and answers, and the
    client reads the call's result from the answer: the rendered value, or the
    kind of the error with its message. *)
Theorem wire_is_transparent e sd c :
  sendable c = true ->
  let '(sd', e', r) := called e sd c in
  exists raw, serve_one e sd (sent c) = (sd', e', Continued (Some raw)) /\
    (utf8_valid (match r with Ok t => t | Err x => tx (server_error_text x) end) = true ->
     read_response raw = match r with Ok t => ROk t | Err x => RFailed (kind x) (trim (line (tx (server_error_text x)))) end).
Proof.
  intros Hc. pose proof (handle_called e sd c Hc) as Hh. unfold serve_one. rewrite sent_arrives by done.
  rewrite decide_False by (by destruct c). rewrite Hh. destruct (called e sd c) as [[sd' e'] [t|x]]; (eexists; split; [reflexivity|]).
  - apply response_roundtrip.
  - apply error_roundtrip.
Qed.
(** ** Where it fails *)

(** C34: a damaged transaction is sealed in part.  A body is read up to the first
    frame whose checksum does not match, and what was read is appended and
    sealed as if it were all that was sent: the client gets the epoch a smaller
    transaction would have got, and the batches from the damaged one on are
    gone.  The same bytes as a single batch are refused. *)
Theorem damaged_transaction_sealed e sd source bs b damaged rest :
  safe source = true -> forallb batch_ok bs = true -> batch_ok b = true ->
  length damaged = length (record_encode (RAppend "wire" b.1.2 b.1.1 b.2)) ->
  crc32 damaged <> crc32 (record_encode (RAppend "wire" b.1.2 b.1.1 b.2)) ->
  let tail := take 8 (batch_bytes b) ++ damaged ++ rest in
  Z.of_nat (length (flat_map batch_bytes bs ++ tail)) <= isize_max ->
  serve_one e sd (request_bytes "POST" (tx "/txn?source=" ++ tx source) (flat_map batch_bytes bs ++ tail)) =
    serve_one e sd (sent (CallTransaction source bs)) /\
  decode_entries tail = Err (SrvCorruptRegistry "a truncated wire frame").
Proof.
  intros Hso Hbs Hb Hlen Hcrc tail Hl.
  assert (read_framed tail = Ok None) as Ht.
  { unfold batch_ok, record_ok in Hb. apply andb_true_iff in Hb as [_ Hb%Z.ltb_lt].
    by apply read_framed_damaged; [apply record_encode_ok|..]. }
  split.
  - unfold serve_one. rewrite sent_arrives.
    2: { cbn [sendable]. rewrite Hso, Hbs. apply Z.leb_le. rewrite length_app in Hl. lia. }
    change (tx "/txn?source=" ++ tx source) with (target_of "/txn" (raw_pairs [("source"%string, tx source)])).
    rewrite request_arrives; [|done|done|done| |done].
    2: { cbn [forallb]. named_pairs. by apply query_safe_value. }
    rewrite !decide_False by done. rewrite (handle_called e sd (CallTransaction source bs)).
    2: { cbn [sendable]. rewrite Hso, Hbs. apply Z.leb_le. rewrite length_app in Hl. lia. }
    assert (forall body, decode_transaction body = Ok bs ->
      handle e sd (mkRequest "POST" "/txn" (query_of_named [("source"%string, tx source)]) body) = called e sd (CallTransaction source bs)) as Hgo.
    { intros body Hd. routed. cbn [called]. unfold handle_txn. rewrite (param_given _ "source" source) by lookups. cbn [rq_body]. by rewrite Hd. }
    by rewrite Hgo by by apply decode_transaction_sent.
  - unfold decode_entries. rewrite Ht. assert (tail <> []) as Hne.
    { intros E0. apply (f_equal length) in E0. unfold tail in E0. rewrite length_app, length_take in E0. pose proof (batch_bytes_nonempty b).
      destruct (batch_bytes b); [done|]. simpl in E0. lia. }
    by destruct tail.
Qed.

(** A read in the format the message offers is refused. *)
Theorem render_format_refused e sd h :
  handle e sd (get "/read" [("handle"%string, dec h); ("format"%string, tx "render")] []) =
    (sd, e, Err (refused_parse (formats_message "render"))).
Proof.
  unfold handle, get. cbn [rq_method rq_path]. rewrite bool_decide_true by done. cbn [rq_query].
  assert (bt_get "format"%string (query_of_named [("handle"%string, dec h); ("format"%string, tx "render")]) = Some "render"%string) as -> by lookups.
  done.
Qed.

(** A client that claims a body no vector can hold ends the server. *)
Theorem claimed_length_crashes e sd :
  serve_one e sd (tx "POST /ingest HTTP/1.1" ++ crlf ++ tx "Content-Length: 18446744073709551615" ++ crlf ++ crlf) = (sd, e, Crashed).
Proof. reflexivity. Qed.
End calls.

(** ** Runs *)

#[local] Existing Instances shop_debug shop_texts shop_sql shop_factory.

Abbreviation fresh := (boot default_policy empty_server_disk).

(** One connection after the other. *)
Fixpoint serve_inputs (s : ServerDisk * ShopEngine) (inputs : list (list N)) : ServerDisk * ShopEngine * list (option Response) :=
  match inputs with
  | [] => (s, [])
  | input :: inputs' =>
      let '(sd, e, served) := serve_one s.2 s.1 input in
      let '(s', responses) := serve_inputs (sd, e) inputs' in
      (s', match served with Continued (Some raw) => Some (read_response raw) | _ => None end :: responses)
  end.

(** Tokens that differ after a space are one token.  The client writes the
    source, the table and the token of an ingest into the request line as they
    are, so the token ends at its first space.  Two batches with tokens "order 1"
    and "order 2" and the same row reach the engine with the token "order": the
    second is dropped as a replay, and one of two rows is in the log. *)
Theorem token_cut_at_space :
  let row := ([VInt 1; VInt 5], 1) in
  let '(_, e, responses) := serve_inputs fresh
    [sent (CallIngest "web" "orders" "order 1" [row]); sent (CallIngest "web" "orders" "order 2" [row])] in
  responses = [Some (ROk (line (tx "appended"))); Some (ROk (line (tx "duplicate")))] /\
  log_pending (e_log e) = [mkLogBatch "web" "order" "orders" [row]].
Proof. vm_compute. split; reflexivity. Qed.

(** ** Witnesses *)

Lemma wire_is_transparent_witness :
  let call := CallIngest "web" "orders" "a" [([VInt 1; VInt 5], 1)] in
  sendable call = true /\
  exists raw, serve_one fresh.2 fresh.1 (sent call) = ((called fresh.2 fresh.1 call).1, Continued (Some raw)) /\
    read_response raw = ROk (line (tx "appended")).
Proof.
  split; [vm_compute; reflexivity|].
  pose proof (wire_is_transparent fresh.2 fresh.1 (CallIngest "web" "orders" "a" [([VInt 1; VInt 5], 1)]) ltac:(vm_compute; reflexivity)) as Hw.
  destruct (called fresh.2 fresh.1 (CallIngest "web" "orders" "a" [([VInt 1; VInt 5], 1)])) as [[sd e] r] eqn:Ec.
  assert (r = Ok (line (tx "appended"))) as -> by (apply (f_equal snd) in Ec; vm_compute in Ec; symmetry; exact Ec).
  destruct Hw as (raw & Hs & Hr). exists raw. split; [exact Hs|]. apply Hr. vm_compute. reflexivity.
Defined.

Lemma damaged_transaction_sealed_witness :
  let b token := ("orders"%string, token, [([VInt 1; VInt 5], 1)]) : WireBatch in
  let damaged := 255%N :: tail (record_encode (RAppend "wire" "b" "orders" [([VInt 1; VInt 5], 1)])) in
  serve_one fresh.2 fresh.1 (request_bytes "POST" (tx "/txn?source=" ++ tx "web")
      (flat_map batch_bytes [b "a"%string] ++ take 8 (batch_bytes (b "b"%string)) ++ damaged ++ [])) =
    serve_one fresh.2 fresh.1 (sent (CallTransaction "web" [b "a"%string])).
Proof.
  apply (damaged_transaction_sealed fresh.2 fresh.1 "web" [("orders"%string, "a"%string, [([VInt 1; VInt 5], 1)])]
    ("orders"%string, "b"%string, [([VInt 1; VInt 5], 1)])
    (255%N :: tail (record_encode (RAppend "wire" "b" "orders" [([VInt 1; VInt 5], 1)]))) []); vm_compute; first [reflexivity | discriminate].
Defined.
