(* ===== verification/SqlParse.v ===== *)
(** * The syntax tree of a query's text

    The tree the third-party sqlparser gives for a text, as [schweep-sql] takes
    it apart: the constructors the source names, and the fields it looks into.  A
    part the source only tests for presence is an option or a list of its text,
    and the constructors it does not name are one constructor.  An identifier is
    its value; its quotes are never looked at.

    Its later part: accepting a statement ([schweep-sql]: parse.rs). *)

From stdpp Require Import base list strings.
From S2P Require Import Prelude Plan Compile.

Module ast.

Inductive Value :=
| Number (digits : string) (long : bool)
| SingleQuotedString (s : string)
| Boolean (b : bool)
| Null
| Placeholder (s : string)
| OtherValue (rest : string).

Inductive DataType :=
| BigInt (width : option string)
| Int64
| Text
| Varchar (width : option string)
| BooleanType
| Bool
| OtherType (rest : string).

Inductive UnaryOperator := Minus | Plus | Not | BangNot | OtherUnary (rest : string).

Inductive BinaryOperator :=
| BPlus | BMinus | Multiply | Divide | Modulo
| Eq | NotEq | Lt | LtEq | Gt | GtEq
| And | Or | StringConcat | Spaceship | Xor
| OtherBinary (rest : string).

Inductive CastKind := Cast | TryCast | SafeCast | DoubleColon.

Inductive ObjectNamePart := Identifier_ (ident : string) | NameFunction (rest : string).

Inductive DuplicateTreatment := TreatDistinct | TreatAll.

#[local] Set Warnings "-register-all".

Inductive Expr :=
| CompoundIdentifier (parts : list string)
| Identifier (ident : string)
| Nested (inner : Expr)
| Value_ (v : Value)
| UnaryOp (op : UnaryOperator) (expr : Expr)
| BinaryOp (left : Expr) (op : BinaryOperator) (right : Expr)
| IsNull (inner : Expr)
| IsNotNull (inner : Expr)
| Case (operand : option Expr) (conditions : list (Expr * Expr)) (else_result : option Expr)
| Cast_ (kind : CastKind) (expr : Expr) (data_type : DataType) (array : bool) (format : option string)
| Function_ (function : Function)
| Subquery (rest : string) | Exists (rest : string) | InSubquery (rest : string)
| InList (rest : string) | Between (rest : string) | Like (rest : string) | ILike (rest : string)
| IsTrue (rest : string) | IsNotTrue (rest : string) | IsFalse (rest : string) | IsNotFalse (rest : string)
| IsUnknown (rest : string) | IsNotUnknown (rest : string)
| IsDistinctFrom (rest : string) | IsNotDistinctFrom (rest : string) | Collate (rest : string)
| Rollup (rest : string) | Cube (rest : string) | GroupingSets (rest : string)
| Wildcard (rest : string) | QualifiedWildcard (rest : string)
| OtherExpr (rest : string)
with Function :=
| mkFunction (name : list ObjectNamePart) (uses_odbc_syntax : bool) (parameters args : FunctionArguments)
    (filter null_treatment over : option string) (within_group : list string)
with FunctionArguments :=
| NoArguments
| ArgSubquery (rest : string)
| ArgList (duplicate_treatment : option DuplicateTreatment) (args : list FunctionArg) (clauses : list string)
with FunctionArg :=
| NamedArg (rest : string)
| Unnamed (arg : FunctionArgExpr)
with FunctionArgExpr :=
| ArgExpr (e : Expr)
| ArgQualifiedWildcard (rest : string)
| ArgWildcard
| OtherArg (rest : string).

Inductive SelectItem :=
| UnnamedExpr (e : Expr)
| ExprWithAlias (e : Expr) (alias : string)
| ExprWithAliases (rest : string)
| ItemQualifiedWildcard (rest : string)
| ItemWildcard (rest : string).

Inductive JoinConstraint := On (predicate : Expr) | Using (rest : string) | Natural | NoConstraint.

Inductive JoinOperator :=
| Inner (c : JoinConstraint) | Join (c : JoinConstraint)
| Left (c : JoinConstraint) | LeftOuter (c : JoinConstraint)
| Right (c : JoinConstraint) | RightOuter (c : JoinConstraint)
| FullOuter (c : JoinConstraint) | CrossJoin (c : JoinConstraint)
| CrossApply | OuterApply | OtherJoin (rest : string).

Record TableAlias := mkTableAlias { alias_name : string; alias_columns : list string }.

Inductive TableFactor :=
| Table (name : list ObjectNamePart) (alias : option TableAlias) (args : option string) (with_hints : list string)
    (version : option string) (with_ordinality : bool) (partitions : list string) (json_path sample : option string)
    (index_hints : list string)
| Derived (rest : string)
| NestedJoin (rest : string)
| TableFunction (rest : string)
| TFFunction (rest : string)
| OtherFactor (rest : string).

Record JoinItem := mkJoin { relation : TableFactor; global : bool; join_operator : JoinOperator }.

Record TableWithJoins := mkTableWithJoins { first_relation : TableFactor; joins : list JoinItem }.

Inductive GroupByExpr := All (modifiers : list string) | Expressions (exprs : list Expr) (modifiers : list string).

Inductive Distinct := DAll | DDistinct | DOn (rest : string).

Inductive SelectFlavor := Standard | FromFirst | FromFirstNoSelect.

Record Select := mkSelect {
  optimizer_hints : list string;
  distinct : option Distinct;
  select_modifiers : option string;
  top : option string;
  top_before_distinct : bool;
  projection : list SelectItem;
  exclude : option string;
  into : option string;
  from : list TableWithJoins;
  lateral_views : list string;
  prewhere : option string;
  selection : option Expr;
  connect_by : list string;
  group_by : GroupByExpr;
  cluster_by : list string;
  distribute_by : list string;
  sort_by : list string;
  having : option Expr;
  named_window : list string;
  qualify : option string;
  window_before_qualify : bool;
  value_table_mode : option string;
  flavor : SelectFlavor
}.

Inductive SetExpr :=
| SelectBody (select : Select)
| SetOperation (rest : string)
| QueryBody (rest : string)
| Values (rest : string)
| Insert (rest : string) | Update (rest : string) | Delete (rest : string) | Merge (rest : string)
| TableBody (rest : string).

Record Query := mkQuery {
  with_ : option string;
  body : SetExpr;
  order_by : option string;
  limit_clause : option string;
  fetch : option string;
  locks : list string;
  for_clause : option string;
  settings : option string;
  format_clause : option string;
  pipe_operators : list string
}.

Inductive Statement :=
| QueryStatement (q : Query)
| InsertStatement (rest : string) | UpdateStatement (rest : string) | DeleteStatement (rest : string)
| CreateTable (rest : string) | CreateView (rest : string) | Explain (rest : string)
| OtherStatement (rest : string).

End ast.

(** [Parser::parse_sql] of the generic dialect, with the message of a failure. *)
Class SqlParser := parse_sql : string -> string + list ast.Statement.

(** [Display] of the parts of the tree a refusal quotes. *)
Class AstText := {
  expr_text : ast.Expr -> string;
  function_text : ast.Function -> string;
  object_name_text : list ast.ObjectNamePart -> string;
  data_type_text : ast.DataType -> string
}.

(** * Accepting a statement ([schweep-sql]: parse.rs)

    One statement, a query, and every clause around its [SELECT] that the dialect
    does not have refused by name (S-35). *)

Record SelectStatement := mkSelectStatement { st_select : ast.Select; st_distinct : bool }.

Definition parse `{SqlParser} (sql : string) : result SqlError ast.Query :=
  match parse_sql sql with
  | inl message => Err (Parse message)
  | inr statements =>
      match statements with
      | [ast.QueryStatement query] => Ok query
      | [ast.InsertStatement _] => Err (NotAQuery "INSERT")
      | [ast.UpdateStatement _] => Err (NotAQuery "UPDATE")
      | [ast.DeleteStatement _] => Err (NotAQuery "DELETE")
      | [ast.CreateTable _] => Err (NotAQuery "CREATE TABLE")
      | [ast.CreateView _] => Err (NotAQuery "CREATE VIEW")
      | [ast.Explain _] => Err (NotAQuery "EXPLAIN")
      | [ast.OtherStatement _] => Err (NotAQuery "that statement")
      | _ => Err (NotOneStatement (length statements))
      end
  end.

(** [if condition { return Err(SqlError::NotInDialect(name)) }] for a clause that
    is an option, and for one that is a list. *)
Definition given {A} (o : option A) : bool := match o with Some _ => true | None => false end.
Definition nonempty {A} (l : list A) : bool := match l with [] => false | _ => true end.

Fixpoint refuse (clauses : list (bool * string)) : result SqlError unit :=
  match clauses with
  | [] => Ok tt
  | (present, what) :: clauses' => if present then Err (Compile.NotInDialect what) else refuse clauses'
  end.

Definition check_select_clauses (s : ast.Select) : result SqlError bool :=
  check? refuse
    [(nonempty (ast.optimizer_hints s), "optimizer hints"%string);
     (given (ast.select_modifiers s), "MySQL SELECT modifiers"%string);
     (given (ast.top s), "TOP"%string);
     (given (ast.exclude s), "EXCLUDE"%string);
     (given (ast.into s), "SELECT INTO"%string);
     (nonempty (ast.lateral_views s), "LATERAL VIEW"%string);
     (given (ast.prewhere s), "PREWHERE"%string);
     (nonempty (ast.connect_by s), "CONNECT BY"%string);
     (nonempty (ast.cluster_by s), "CLUSTER BY"%string);
     (nonempty (ast.distribute_by s), "DISTRIBUTE BY"%string);
     (nonempty (ast.sort_by s), "SORT BY"%string);
     (nonempty (ast.named_window s), "WINDOW"%string);
     (given (ast.qualify s), "QUALIFY"%string);
     (given (ast.value_table_mode s), "SELECT AS VALUE / AS STRUCT"%string);
     (match ast.flavor s with ast.Standard => false | _ => true end, "a FROM-first SELECT"%string)] in
  check? match ast.group_by s with
         | ast.All _ => Err (Compile.NotInDialect "GROUP BY ALL")
         | ast.Expressions _ modifiers =>
             if nonempty modifiers then Err (Compile.NotInDialect "ROLLUP / CUBE / GROUPING SETS") else Ok tt
         end in
  match ast.distinct s with
  | None | Some ast.DAll => Ok false
  | Some ast.DDistinct => Ok true
  | Some (ast.DOn _) => Err (Compile.NotInDialect "DISTINCT ON")
  end.

Definition select_of (q : ast.Query) : result SqlError SelectStatement :=
  check? refuse
    [(given (ast.with_ q), "WITH (common table expressions)"%string);
     (given (ast.order_by q), "ORDER BY"%string);
     (given (ast.limit_clause q), "LIMIT"%string);
     (given (ast.fetch q), "FETCH"%string);
     (nonempty (ast.locks q), "FOR UPDATE / FOR SHARE"%string);
     (given (ast.for_clause q), "FOR XML / FOR JSON"%string);
     (given (ast.settings q), "SETTINGS"%string);
     (given (ast.format_clause q), "FORMAT"%string);
     (nonempty (ast.pipe_operators q), "pipe operators"%string)] in
  let? select :=
    match ast.body q with
    | ast.SelectBody select => Ok select
    | ast.SetOperation _ => Err (Compile.NotInDialect "UNION / EXCEPT / INTERSECT")
    | ast.QueryBody _ => Err (Compile.NotInDialect "a parenthesised subquery")
    | ast.Values _ => Err (Compile.NotInDialect "VALUES")
    | ast.Insert _ | ast.Update _ | ast.Delete _ | ast.Merge _ => Err (NotAQuery "a write inside a query")
    | ast.TableBody _ => Err (Compile.NotInDialect "TABLE")
    end in
  let? distinct := check_select_clauses select in
  Ok (mkSelectStatement select distinct).
