(* ===== verification/SqlSelect.v ===== *)
(** * Expressions of a query's text ([schweep-sql]: expr.rs)

    The translation of a scalar expression and of a call of an aggregate into the
    expressions of a plan; everything else is refused by its name.

    Its later part: binding a SELECT ([schweep-sql]: select.rs). *)

From Stdlib Require Import ZArith NArith Ascii.
From stdpp Require Import base list strings.
From S2P Require Import Prelude BTree Value Plan Bind Codec Compile Text SqlParse.

(** ** Literals *)

(** [str::parse::<i64>] *)
Definition parse_i64 (t : text) : option Z :=
  match t with
  | [] | [43%N] | [45%N] => None
  | 45%N :: t' => option_map Z.opp (parse_radix 10 (2 ^ 63 + 1) 0 t')
  | 43%N :: t' => parse_radix 10 (2 ^ 63) 0 t'
  | _ => parse_radix 10 (2 ^ 63) 0 t
  end.

(** [text.contains(['.', 'e', 'E'])] *)
Definition float_text (t : text) : bool := existsb (fun b => (b =? 46) || (b =? 101) || (b =? 69))%N t.

Definition int_literal (digits : string) : result SqlError Value :=
  if float_text (tx digits) then Err (SqlPlan (Plan.NotInDialect "a FLOAT literal"))
  else match parse_i64 (tx digits) with
       | Some v => Ok (VInt v)
       | None => Err (NumberOutOfRange digits)
       end.

Definition literal (v : ast.Value) : result SqlError Expr :=
  match v with
  | ast.Number digits _ => map_ok ELiteral (int_literal digits)
  | ast.SingleQuotedString s => Ok (ELiteral (VStr s))
  | ast.Boolean b => Ok (ELiteral (VBool b))
  | ast.Null => Err (SqlPlan UntypedNullLiteral)
  | ast.Placeholder _ => Err (Compile.NotInDialect "a bind placeholder")
  | ast.OtherValue _ => Err (Compile.NotInDialect "that literal")
  end.

(** [-<integer literal>], folded into the literal. *)
Fixpoint negated_int (inner : ast.Expr) : option Expr :=
  match inner with
  | ast.Value_ (ast.Number digits _) =>
      if float_text (tx digits) then None
      else match parse_i64 (45%N :: tx digits) with Some v => Some (ELiteral (VInt v)) | None => None end
  | ast.Nested deeper => negated_int deeper
  | _ => None
  end.

(** ** Operators and types *)

Definition binary_op (op : ast.BinaryOperator) : result SqlError BinOp :=
  match op with
  | ast.BPlus => Ok BAdd
  | ast.BMinus => Ok BSub
  | ast.Multiply => Ok BMul
  | ast.Divide => Ok BDiv
  | ast.Modulo => Ok BMod
  | ast.Eq => Ok BEq
  | ast.NotEq => Ok BNe
  | ast.Lt => Ok BLt
  | ast.LtEq => Ok BLe
  | ast.Gt => Ok BGt
  | ast.GtEq => Ok BGe
  | ast.StringConcat => Err (Compile.NotInDialect "||")
  | ast.Spaceship => Err (Compile.NotInDialect "<=>")
  | ast.Xor => Err (Compile.NotInDialect "XOR")
  | _ => Err (Compile.NotInDialect "that binary operator")
  end.

(** ** Where an expression was found *)

Inductive Place := InWhere | InHaving | InScalar | InAggregateArgument (outer : string).

(** [Context::aggregate_refusal] *)
Definition aggregate_refusal (place : Place) (func : string) : SqlError :=
  SqlPlan match place with
          | InWhere => AggregateInWhere func
          | InHaving => AggregateInHaving func
          | InScalar => AggregateNotTopLevel func
          | InAggregateArgument outer => NestedAggregate outer func
          end.

Section translation.
Context `{AstText}.

(** The type names of [CAST(NULL AS ...)]. *)
Definition cast_type (ty : ast.DataType) : result SqlError DataType :=
  match ty with
  | ast.BigInt _ | ast.Int64 => Ok Int64
  | ast.Text | ast.Varchar _ => Ok Utf8
  | ast.BooleanType | ast.Bool => Ok Boolean
  | other => Err (UnsupportedTypeName (data_type_text other))
  end.

Fixpoint scalar (expr : ast.Expr) (place : Place) {struct expr} : result SqlError Expr :=
  match expr with
  | ast.CompoundIdentifier parts => Ok (EColumn (String.concat "." parts))
  | ast.Identifier ident => Ok (EColumn ident)
  | ast.Nested inner => scalar inner place
  | ast.Value_ v => literal v
  | ast.UnaryOp ast.Minus inner => ok_or (negated_int inner) (Compile.NotInDialect "unary minus")
  | ast.UnaryOp ast.Plus _ => Err (Compile.NotInDialect "unary plus")
  | ast.UnaryOp ast.Not inner | ast.UnaryOp ast.BangNot inner => let? e := scalar inner place in Ok (ENot e)
  | ast.UnaryOp (ast.OtherUnary _) _ => Err (Compile.NotInDialect "that unary operator")
  | ast.BinaryOp a op b =>
      let? l := scalar a place in
      let? r := scalar b place in
      match op with
      | ast.And => Ok (EAnd l r)
      | ast.Or => Ok (EOr l r)
      | _ => let? o := binary_op op in Ok (EBinary o l r)
      end
  | ast.IsNull inner => let? e := scalar inner place in Ok (EIsNull e)
  | ast.IsNotNull inner => let? e := scalar inner place in Ok (EIsNotNull e)
  | ast.Case operand conditions else_result =>
      if given operand then Err (Compile.NotInDialect "CASE with an operand")
      else
        let? whens :=
          (fix go (l : list (ast.Expr * ast.Expr)) : result SqlError (list (Expr * Expr)) :=
             match l with
             | [] => Ok []
             | (condition, res) :: l' =>
                 let? c := scalar condition place in
                 let? r := scalar res place in
                 let? rest := go l' in Ok ((c, r) :: rest)
             end) conditions in
        let? otherwise :=
          match else_result with
          | None => Ok None
          | Some e => let? e := scalar e place in Ok (Some e)
          end in
        Ok (ECase whens otherwise)
  | ast.Cast_ kind inner data_type array format =>
      match kind, array, format with
      | ast.Cast, false, None =>
          match inner with
          | ast.Value_ ast.Null => let? ty := cast_type data_type in Ok (ENull ty)
          | _ => Err (UnsupportedCast (expr_text expr))
          end
      | _, _, _ => Err (UnsupportedCast (expr_text expr))
      end
  | ast.Function_ function => Err (aggregate_refusal place (function_text function))
  | ast.Subquery _ | ast.Exists _ | ast.InSubquery _ => Err (Compile.NotInDialect "a subquery")
  | ast.InList _ => Err (Compile.NotInDialect "IN")
  | ast.Between _ => Err (Compile.NotInDialect "BETWEEN")
  | ast.Like _ | ast.ILike _ => Err (Compile.NotInDialect "LIKE")
  | ast.IsTrue _ | ast.IsNotTrue _ | ast.IsFalse _ | ast.IsNotFalse _ | ast.IsUnknown _ | ast.IsNotUnknown _ =>
      Err (Compile.NotInDialect "IS TRUE / FALSE / UNKNOWN")
  | ast.IsDistinctFrom _ | ast.IsNotDistinctFrom _ => Err (Compile.NotInDialect "IS [NOT] DISTINCT FROM")
  | ast.Collate _ => Err (Compile.NotInDialect "COLLATE")
  | ast.Rollup _ | ast.Cube _ | ast.GroupingSets _ => Err (Compile.NotInDialect "ROLLUP / CUBE / GROUPING SETS")
  | ast.Wildcard _ | ast.QualifiedWildcard _ => Err SelectStarNotSupported
  | ast.OtherExpr _ => Err (Compile.NotInDialect "that expression")
  end.

(** ** Aggregates *)

Fixpoint as_aggregate (expr : ast.Expr) : option ast.Function :=
  match expr with
  | ast.Function_ function => Some function
  | ast.Nested inner => as_aggregate inner
  | _ => None
  end.

(** [str::to_ascii_uppercase] *)
Definition ascii_upper (c : ascii) : ascii :=
  let n := N_of_ascii c in if ((97 <=? n) && (n <=? 122))%N then ascii_of_N (n - 32) else c.
Fixpoint to_ascii_uppercase (s : string) : string :=
  match s with EmptyString => EmptyString | String c s' => String (ascii_upper c) (to_ascii_uppercase s') end.

(** The five aggregates of one argument. *)
Definition aggregate_of (upper : string) : option (Expr -> AggFunc) :=
  if String.eqb upper "COUNT" then Some Count
  else if String.eqb upper "SUM" then Some Sum
  else if String.eqb upper "MIN" then Some Min
  else if String.eqb upper "MAX" then Some Max
  else if String.eqb upper "AVG" then Some Avg
  else None.

Definition is_star (arg : ast.FunctionArg) : bool :=
  match arg with ast.Unnamed ast.ArgWildcard => true | _ => false end.

Definition aggregate (function : ast.Function) : result SqlError AggFunc :=
  match function with
  | ast.mkFunction name uses_odbc_syntax parameters args filter null_treatment over within_group =>
      let rendered := function_text function in
      check? refuse
        [(uses_odbc_syntax, "ODBC function syntax"%string);
         (match parameters with ast.NoArguments => false | _ => true end, "parametric aggregates"%string);
         (given filter, "FILTER on an aggregate"%string);
         (given null_treatment, "IGNORE / RESPECT NULLS"%string);
         (given over, "a window function (OVER)"%string);
         (nonempty within_group, "WITHIN GROUP"%string)] in
      let? upper :=
        match name with
        | [ast.Identifier_ ident] => Ok (to_ascii_uppercase ident)
        | _ => Err (UnknownFunction rendered)
        end in
      match args with
      | ast.NoArguments => Err (UnknownFunction rendered)
      | ast.ArgSubquery _ => Err (Compile.NotInDialect "a subquery")
      | ast.ArgList duplicate_treatment args clauses =>
          check? refuse
            [(nonempty clauses, "ORDER BY inside an aggregate"%string);
             (match duplicate_treatment with Some ast.TreatDistinct => true | _ => false end,
              "DISTINCT inside an aggregate"%string)] in
          if String.eqb upper "COUNT" && existsb is_star args && (length args =? 1)%nat then Ok CountStar
          else
            match args with
            | [ast.Unnamed (ast.ArgExpr e)] =>
                match aggregate_of upper with
                | None => Err (UnknownFunction rendered)
                | Some make => let? inner := scalar e (InAggregateArgument upper) in Ok (make inner)
                end
            | _ => Err (UnknownFunction rendered)
            end
      end
  end.

End translation.

(** * Binding a SELECT ([schweep-sql]: select.rs)

    One [SELECT] becomes one query of the plan language, the same value the typed
    interface builds, and is bound against the catalog: the sources and join keys,
    the names of the select list, grouping, and the projection of S-36. *)

(** ** Equality of expressions ([PartialEq]) *)

#[export] Instance BinOp_eq_dec : EqDecision BinOp.
Proof. solve_decision. Defined.

Fixpoint expr_eqb (a b : Expr) {struct a} : bool :=
  match a, b with
  | EColumn n, EColumn m => String.eqb n m
  | ELiteral v, ELiteral w => bool_decide (v = w)
  | ENull t, ENull u => bool_decide (t = u)
  | EBinary o l r, EBinary p x y => bool_decide (o = p) && expr_eqb l x && expr_eqb r y
  | ENot e, ENot f | EIsNull e, EIsNull f | EIsNotNull e, EIsNotNull f => expr_eqb e f
  | EAnd l r, EAnd x y | EOr l r, EOr x y => expr_eqb l x && expr_eqb r y
  | ECase ws o, ECase vs p =>
      (fix go (ws vs : list (Expr * Expr)) : bool :=
         match ws, vs with
         | [], [] => true
         | (c, r) :: ws', (d, s) :: vs' => expr_eqb c d && expr_eqb r s && go ws' vs'
         | _, _ => false
         end) ws vs &&
      match o, p with None, None => true | Some e, Some f => expr_eqb e f | _, _ => false end
  | _, _ => false
  end.

(** ** Names *)

Section select.
Context `{AstText}.

(** The name an expression carries on its own (S-11). *)
Definition derived_name (e : ast.Expr) : result SqlError string :=
  match e with
  | ast.Identifier ident => Ok ident
  | ast.CompoundIdentifier parts => ok_or (last parts) (MissingOutputName (expr_text e))
  | _ => Err (MissingOutputName (expr_text e))
  end.

(** The select list, classified. *)
Record Items := mkItems {
  scalars : list (Named Expr);
  item_aggregates : list (Named AggFunc);
  item_order : list string
}.

Definition bind_select_item (items : Items) (element : ast.SelectItem) : result SqlError Items :=
  let? '(e, name) :=
    match element with
    | ast.ItemWildcard _ | ast.ItemQualifiedWildcard _ => Err SelectStarNotSupported
    | ast.ExprWithAliases _ => Err (Compile.NotInDialect "multiple aliases on one output column")
    | ast.UnnamedExpr e => let? name := derived_name e in Ok (e, name)
    | ast.ExprWithAlias e alias => Ok (e, alias)
    end in
  let order := item_order items ++ [name] in
  match as_aggregate e with
  | Some function =>
      let? f := aggregate function in Ok (mkItems (scalars items) (item_aggregates items ++ [mkNamed name f]) order)
  | None =>
      let? v := scalar e InScalar in Ok (mkItems (scalars items ++ [mkNamed name v]) (item_aggregates items) order)
  end.

Definition bind_select_items (projection : list ast.SelectItem) : result SqlError Items :=
  match projection with
  | [] => Err (Compile.NotInDialect "a SELECT with no output columns")
  | _ => try_fold bind_select_item (mkItems [] [] []) projection
  end.

(** ** FROM *)

Definition table_factor (factor : ast.TableFactor) : result SqlError Source :=
  match factor with
  | ast.Table name alias args with_hints version with_ordinality partitions json_path sample index_hints =>
      check? refuse
        [(given args, "a table-valued function"%string);
         (nonempty with_hints, "table hints"%string);
         (given version, "table time-travel (FOR SYSTEM_TIME)"%string);
         (with_ordinality, "WITH ORDINALITY"%string);
         (nonempty partitions, "PARTITION selection"%string);
         (given json_path, "a JSON path"%string);
         (given sample, "TABLESAMPLE"%string);
         (nonempty index_hints, "index hints"%string)] in
      let? table :=
        match name with
        | [ast.Identifier_ ident] => Ok ident
        | _ => Err (QualifiedTableName (object_name_text name))
        end in
      let? alias_name :=
        match alias with
        | None => Ok table
        | Some table_alias =>
            if nonempty (ast.alias_columns table_alias) then Err (Compile.NotInDialect "column aliases on a table")
            else Ok (ast.alias_name table_alias)
        end in
      Ok (Scan table alias_name)
  | ast.Derived _ => Err (Compile.NotInDialect "a derived table (subquery)")
  | ast.NestedJoin _ => Err (Compile.NotInDialect "a parenthesised join")
  | ast.TableFunction _ | ast.TFFunction _ => Err (Compile.NotInDialect "a table-valued function")
  | ast.OtherFactor _ => Err (Compile.NotInDialect "that FROM item")
  end.

Fixpoint flatten_and (e : ast.Expr) : list ast.Expr :=
  match e with
  | ast.BinaryOp a ast.And b => flatten_and a ++ flatten_and b
  | ast.Nested inner => flatten_and inner
  | other => [other]
  end.

Definition column_name (e : ast.Expr) : result SqlError string :=
  let? v := scalar e InScalar in
  match v with EColumn name => Ok name | _ => Err (NotAnEquiJoin (expr_text e)) end.

Definition qualifier (name : string) : result SqlError string :=
  match split_once 46 (tx name) with
  | Some (alias, _) => Ok (bytes_string alias)
  | None => Err (SqlPlan (UnqualifiedColumn name))
  end.

(** One conjunct of an [ON]: its two columns, the left side's first. *)
Definition equi_pair (left_aliases right_aliases : list string) (conjunct : ast.Expr) : result SqlError (string * string) :=
  match conjunct with
  | ast.BinaryOp a ast.Eq b =>
      let? l_name := column_name a in
      let? r_name := column_name b in
      let? l_side := qualifier l_name in
      let? r_side := qualifier r_name in
      let l_on_left := existsb (String.eqb l_side) left_aliases in
      let r_on_right := existsb (String.eqb r_side) right_aliases in
      let l_on_right := existsb (String.eqb l_side) right_aliases in
      let r_on_left := existsb (String.eqb r_side) left_aliases in
      if l_on_left && r_on_right then Ok (l_name, r_name)
      else if l_on_right && r_on_left then Ok (r_name, l_name)
      else if (l_on_left && r_on_left) || (l_on_right && r_on_right) then Err (JoinKeysOnOneSide l_name r_name)
      else Err (NotAnEquiJoin (expr_text conjunct))
  | _ => Err (NotAnEquiJoin (expr_text conjunct))
  end.

Definition equi_pairs (on : ast.Expr) (l r : Source) : result SqlError (list (string * string)) :=
  let? pairs := try_map (equi_pair (aliases l) (aliases r)) (flatten_and on) in
  match pairs with [] => Err (SqlPlan CrossJoinNotSupported) | _ => Ok pairs end.

Definition bind_join (source : Source) (join : ast.JoinItem) : result SqlError Source :=
  if ast.global join then Err (Compile.NotInDialect "GLOBAL JOIN")
  else
    let? constraint :=
      match ast.join_operator join with
      | ast.Inner c | ast.Join c => Ok c
      | ast.Left _ | ast.LeftOuter _ => Err (Compile.NotInDialect "LEFT JOIN")
      | ast.Right _ | ast.RightOuter _ => Err (Compile.NotInDialect "RIGHT JOIN")
      | ast.FullOuter _ => Err (Compile.NotInDialect "FULL OUTER JOIN")
      | ast.CrossJoin _ | ast.CrossApply | ast.OuterApply => Err (Compile.NotInDialect "CROSS JOIN")
      | ast.OtherJoin _ => Err (Compile.NotInDialect "that join kind")
      end in
    let? on :=
      match constraint with
      | ast.On predicate => Ok predicate
      | ast.Using _ => Err (Compile.NotInDialect "JOIN USING")
      | ast.Natural => Err (Compile.NotInDialect "NATURAL JOIN")
      | ast.NoConstraint => Err (Compile.NotInDialect "a join with no ON")
      end in
    let? right_source := table_factor (ast.relation join) in
    let? pairs := equi_pairs on source right_source in
    Ok (SJoin source right_source pairs).

Definition bind_from (from : list ast.TableWithJoins) : result SqlError Source :=
  match from with
  | [] => Err (Compile.NotInDialect "a SELECT with no FROM")
  | [first] =>
      let? source := table_factor (ast.first_relation first) in
      try_fold bind_join source (ast.joins first)
  | _ => Err (Compile.NotInDialect "a comma join (write JOIN ... ON instead)")
  end.

(** ** Grouping *)

(** The first element with an expression, or with a name. *)
Definition find_value (v : Expr) (l : list (Named Expr)) : option (Named Expr) := find (fun item => expr_eqb (value item) v) l.
Definition find_name (n : string) (l : list (Named Expr)) : option (Named Expr) := find (fun item => String.eqb (name item) n) l.

(** A grouping expression under the name of the select item that asks for it. *)
Definition group_key (items : list (Named Expr)) (group_expr : ast.Expr) : result SqlError (Named Expr) :=
  let? v := scalar group_expr InScalar in
  let? n := match find_value v items with Some item => Ok (name item) | None => derived_name group_expr end in
  Ok (mkNamed n v).

(** The column of the group's output a select item reads. *)
Definition source_name (items keys : list (Named Expr)) (n : string) : string :=
  match find_name n items with
  | Some item => match find_value (value item) keys with Some key => name key | None => n end
  | None => n
  end.

Definition bind_optional (e : option ast.Expr) (place : Place) : result SqlError (option Expr) :=
  match e with
  | None => Ok None
  | Some predicate => let? v := scalar predicate place in Ok (Some v)
  end.

(** S-36: no projection when the group's output is what was asked for. *)
Definition group_projection (items : Items) (keys : list (Named Expr)) : option (list (Named Expr)) :=
  if bool_decide (item_order items = map name keys ++ map name (item_aggregates items)) then None
  else Some (map (fun n => mkNamed n (EColumn (source_name (scalars items) keys n))) (item_order items)).

Definition check_grouped (keys : list (Named Expr)) (item : Named Expr) : result SqlError unit :=
  if existsb (fun key => expr_eqb (value key) (value item)) keys then Ok tt
  else Err (SqlPlan (ColumnNotGrouped (name item))).

Definition bind_aggregating (st : SelectStatement) (source : Source) (filter : option Expr) (group_exprs : list ast.Expr)
    (items : Items) : result SqlError Query :=
  let? keys := try_map (group_key (scalars items)) group_exprs in
  check? try_for (check_grouped keys) (scalars items) in
  let? having := bind_optional (ast.having (st_select st)) InHaving in
  Ok (mkQuery source filter (Some (mkGroupBy keys (item_aggregates items) having)) (group_projection items keys) (st_distinct st)).

(** ** The query *)

(** What [bind_select] makes of a statement before it binds it. *)
Definition select_query (st : SelectStatement) : result SqlError Query :=
  let select := st_select st in
  let? source := bind_from (ast.from select) in
  let? filter := bind_optional (ast.selection select) InWhere in
  let? group_exprs :=
    match ast.group_by select with
    | ast.Expressions exprs _ => Ok exprs
    | ast.All _ => Err (Compile.NotInDialect "GROUP BY ALL")
    end in
  let? items := bind_select_items (ast.projection select) in
  if nonempty group_exprs || nonempty (item_aggregates items) || given (ast.having select)
  then bind_aggregating st source filter group_exprs items
  else Ok (mkQuery source filter None (Some (scalars items)) (st_distinct st)).

Record BoundQuery := mkBoundQuery { bq_query : Query; bq_bound : Bound }.

Definition bind_select (st : SelectStatement) (catalog : Catalog) : result SqlError BoundQuery :=
  let? query := select_query st in
  let? bound := map_err SqlPlan (bind query catalog) in
  Ok (mkBoundQuery query bound).

End select.

(** ** The entry points ([schweep-sql]: lib.rs) *)

Definition bind_sql `{SqlParser} `{AstText} (sql : string) (catalog : Catalog) : result SqlError BoundQuery :=
  let? parsed := parse sql in
  let? st := select_of parsed in
  bind_select st catalog.
