(* ===== verification/SqlNames.v ===== *)
(** * What a SELECT answers ([schweep-sql]: select.rs)

    The answer of an accepted [SELECT] has the columns of its select list, in
    their order and under their names, and each column holds what its item asks
    for; and the query for which it does not. *)

From Stdlib Require Import ZArith Lia.
From stdpp Require Import base list strings.
From S2P Require Import Prelude BTree Value Plan Bind Codec Compile Text SqlParse SqlSelect.

(** ** Equality *)

Lemma expr_eqb_refl e : expr_eqb e e = true.
Proof.
  induction e as [n|v|ty|op l r IHl IHr|e IHe|l r IHl IHr|l r IHl IHr|e IHe|e IHe|whens o Hw Ho] using Expr_rec'; simpl;
    rewrite ?bool_decide_true, ?String.eqb_refl, ?IHl, ?IHr, ?IHe by done; try done.
  apply andb_true_iff. split.
  - induction Hw as [|[c r] ws [Hc Hr] _ IH]; [done|]. simpl in *. by rewrite Hc, Hr, IH.
  - destruct o as [e|]; [by apply Ho|done].
Qed.

Lemma expr_eqb_eq a b : expr_eqb a b = true -> a = b.
Proof.
  revert b. induction a as [n|v|ty|op l r IHl IHr|e IHe|l r IHl IHr|l r IHl IHr|e IHe|e IHe|whens o Hw Ho] using Expr_rec';
    intros [] Hb; simpl in Hb; try done; repeat (apply andb_true_iff in Hb as [Hb ?]);
    try (apply String.eqb_eq in Hb); try (apply bool_decide_eq_true in Hb); subst; f_equal; auto.
  - clear Ho. revert whens0 Hb. induction Hw as [|[c r] ws [Hc Hr] _ IH]; intros [|[d s] vs] Hb; try done.
    apply andb_true_iff in Hb as [[Hcd Hrs]%andb_true_iff Hb]. simpl in *. f_equal; [f_equal; auto|auto].
  - destruct o, otherwise; try done. f_equal. by apply Ho.
Qed.

Lemma expr_eqb_spec a b : reflect (a = b) (expr_eqb a b).
Proof. destruct (expr_eqb a b) eqn:E; constructor; [by apply expr_eqb_eq|]. intros ->. by rewrite expr_eqb_refl in E. Qed.

(** ** The select list *)

(** What one element of the select list asks for, and under which name. *)
Definition asked_item `{AstText} (element : ast.SelectItem) : result SqlError (string * (Expr + AggFunc)) :=
  let? '(e, name) :=
    match element with
    | ast.ItemWildcard _ | ast.ItemQualifiedWildcard _ => Err SelectStarNotSupported
    | ast.ExprWithAliases _ => Err (Compile.NotInDialect "multiple aliases on one output column")
    | ast.UnnamedExpr e => let? name := derived_name e in Ok (e, name)
    | ast.ExprWithAlias e alias => Ok (e, alias)
    end in
  match as_aggregate e with
  | Some function => let? f := aggregate function in Ok (name, inr f)
  | None => let? v := scalar e InScalar in Ok (name, inl v)
  end.

Definition scalar_part (p : string * (Expr + AggFunc)) : option (Named Expr) :=
  match p.2 with inl e => Some (mkNamed p.1 e) | inr _ => None end.
Definition aggregate_part (p : string * (Expr + AggFunc)) : option (Named AggFunc) :=
  match p.2 with inl _ => None | inr f => Some (mkNamed p.1 f) end.

Section asked.
Context `{AstText}.

Lemma bind_select_item_asked items element items' :
  bind_select_item items element = Ok items' ->
  exists p, asked_item element = Ok p /\
    items' = mkItems (scalars items ++ omap scalar_part [p]) (item_aggregates items ++ omap aggregate_part [p])
               (item_order items ++ [p.1]).
Proof.
  unfold bind_select_item, asked_item. intros Hb.
  destruct (match element with ast.UnnamedExpr _ => _ | _ => _ end) as [[e n]|]; [|done].
  destruct (as_aggregate e) as [f|].
  - destruct (aggregate f); [|done]. injection Hb as <-. eexists. split; [done|]. simpl. by rewrite app_nil_r.
  - destruct (scalar e InScalar); [|done]. injection Hb as <-. eexists. split; [done|]. simpl. by rewrite app_nil_r.
Qed.

Lemma bind_items_asked projection items items' :
  try_fold bind_select_item items projection = Ok items' ->
  exists l, try_map asked_item projection = Ok l /\
    items' = mkItems (scalars items ++ omap scalar_part l) (item_aggregates items ++ omap aggregate_part l)
               (item_order items ++ map fst l).
Proof.
  revert items. induction projection as [|element projection IH]; intros items; simpl.
  - intros [= <-]. exists []. simpl. by rewrite !app_nil_r; destruct items.
  - destruct (bind_select_item items element) as [items1|] eqn:E; [|done]. intros (l & -> & ->)%IH.
    apply bind_select_item_asked in E as (p & -> & ->). exists (p :: l). split; [done|].
    simpl. rewrite <- !app_assoc. simpl. f_equal; destruct (scalar_part p), (aggregate_part p); done.
Qed.

Lemma bind_select_items_asked projection items :
  bind_select_items projection = Ok items ->
  exists l, try_map asked_item projection = Ok l /\ items = mkItems (omap scalar_part l) (omap aggregate_part l) (map fst l).
Proof. unfold bind_select_items. destruct projection; [done|]. apply bind_items_asked. Qed.

End asked.

(** ** Rows read by name *)

Lemma NoDup_fst_eq {A} (l : list (string * A)) n a b : NoDup (map fst l) -> (n, a) ∈ l -> (n, b) ∈ l -> a = b.
Proof.
  induction l as [|[m c] l IH]; simpl; intros Hnd Ha Hb; [by apply elem_of_nil in Ha|].
  apply NoDup_cons in Hnd as [Hm Hnd].
  apply elem_of_cons in Ha as [[= -> ->]|Ha], Hb as [[= Hb]|Hb]; try done.
  - exfalso. apply Hm. apply (list_elem_of_fmap_2 fst) in Hb. done.
  - subst. exfalso. apply Hm. apply (list_elem_of_fmap_2 fst) in Ha. done.
  - auto.
Qed.

(** Two lists with the same names, one within the other. *)
Lemma same_names {A} (k l : list (string * A)) :
  map fst k = map fst l -> NoDup (map fst l) -> (forall x, x ∈ k -> x ∈ l) -> k = l.
Proof.
  intros Hn Hnd Hin. revert l Hn Hnd Hin. induction k as [|[n a] k IH]; intros [|[m b] l] Hn Hnd Hin; try done.
  simpl in *. injection Hn as -> Hn. assert (a = b) as ->.
  { eapply (NoDup_fst_eq ((m, b) :: l) m); [done| |by left]. apply Hin. by left. }
  f_equal. apply NoDup_cons in Hnd as [Hm Hnd]. apply IH; [done..|]. intros x Hx.
  assert (x ∈ (m, b) :: l) as [->|?]%elem_of_cons by (apply Hin; by right); [|done].
  exfalso. apply Hm. rewrite <- Hn. by apply (list_elem_of_fmap_2 fst) in Hx.
Qed.

Lemma position_named n v (cells : list (string * Value)) fs :
  map field_name fs = map fst cells -> NoDup (map fst cells) -> (n, v) ∈ cells ->
  exists i, position (fun f => String.eqb (field_name f) n) fs = Some i /\ map snd cells !! i = Some v.
Proof.
  revert fs. induction cells as [|[m w] cells IH]; intros [|f fs] Hn Hnd Hin; try done; [by apply elem_of_nil in Hin|].
  simpl in *. injection Hn as Hf Hn. apply NoDup_cons in Hnd as [Hm Hnd].
  apply elem_of_cons in Hin as [[= -> ->]|Hin].
  - rewrite Hf, String.eqb_refl. by exists 0%nat.
  - rewrite (proj2 (String.eqb_neq _ _)).
    2: { rewrite Hf. intros ->. apply Hm. by apply (list_elem_of_fmap_2 fst) in Hin. }
    destruct (IH fs Hn Hnd Hin) as (i & -> & Hi). by exists (S i).
Qed.

Lemma eval_named n v (cells : list (string * Value)) s :
  map field_name (fields s) = map fst cells -> NoDup (map fst cells) -> (n, v) ∈ cells ->
  eval (EColumn n) (map snd cells) s = Ok v.
Proof.
  intros Hn Hnd Hin. destruct (position_named n v cells (fields s) Hn Hnd Hin) as (i & Hp & Hv).
  simpl. unfold schema_index_of. rewrite Hp. simpl. unfold row_get. by rewrite Hv.
Qed.

Lemma find_value_spec v l item : find_value v l = Some item -> item ∈ l /\ value item = v.
Proof.
  unfold find_value. intros [Hin He]%List.find_some. split; [by apply list_elem_of_In|by apply expr_eqb_eq].
Qed.

Lemma find_value_some v l item : item ∈ l -> value item = v -> exists first, find_value v l = Some first.
Proof.
  intros Hin Hv. unfold find_value. destruct (List.find _ l) as [f|] eqn:E; [by exists f|].
  exfalso. apply list_elem_of_In in Hin. pose proof (List.find_none _ _ E item Hin) as Hn. simpl in Hn.
  by rewrite Hv, expr_eqb_refl in Hn.
Qed.

Lemma find_name_spec n l item : find_name n l = Some item -> item ∈ l /\ name item = n.
Proof.
  unfold find_name. intros [Hin He]%List.find_some. split; [by apply list_elem_of_In|by apply String.eqb_eq].
Qed.

Lemma find_name_some n l item : item ∈ l -> name item = n -> exists first, find_name n l = Some first.
Proof.
  intros Hin Hv. unfold find_name. destruct (List.find _ l) as [f|] eqn:E; [by exists f|].
  exfalso. apply list_elem_of_In in Hin. pose proof (List.find_none _ _ E item Hin) as Hn. simpl in Hn.
  by rewrite Hv, String.eqb_refl in Hn.
Qed.

(** ** The answer's columns *)

(** A row of the group's output: the values of the keys, then of the aggregates. *)
Definition group_row (kv : Expr -> Value) (av : AggFunc -> Value) (g : GroupBy) : Row :=
  map (fun k => kv (value k)) (keys g) ++ map (fun a => av (value a)) (aggregates g).

(** The row of the answer a row of the (grouped) input gives. *)
Definition answer_row (q : Query) (b : Bound) (row : Row) : result PlanError Row :=
  match project q with
  | None => Ok row
  | Some items => try_map (fun item => eval (value item) row (grouped_schema b)) items
  end.

(** What an item of the select list asks for. *)
Definition asked_cell (kv : Expr -> Value) (av : AggFunc -> Value) (p : string * (Expr + AggFunc)) : Value :=
  match p.2 with inl e => kv e | inr f => av f end.

Definition group_cells (kv : Expr -> Value) (av : AggFunc -> Value) (g : GroupBy) : list (string * Value) :=
  map (fun k => (name k, kv (value k))) (keys g) ++ map (fun a => (name a, av (value a))) (aggregates g).

Lemma group_cells_row kv av g : map snd (group_cells kv av g) = group_row kv av g.
Proof. unfold group_cells, group_row. by rewrite map_app, !map_map. Qed.

Lemma group_cells_names kv av g : map fst (group_cells kv av g) = map name (keys g) ++ map name (aggregates g).
Proof. unfold group_cells. by rewrite map_app, !map_map. Qed.

Lemma scalar_part_elem (l : list (string * (Expr + AggFunc))) (item : Named Expr) : item ∈ omap scalar_part l <-> (name item, inl (value item)) ∈ l.
Proof.
  rewrite list_elem_of_omap. split.
  - intros ([n [e|f]] & Hin & Hp); [|done]. by injection Hp as <-.
  - intros Hin. exists (name item, inl (value item)). split; [done|]. by destruct item.
Qed.

Lemma aggregate_part_elem (l : list (string * (Expr + AggFunc))) (item : Named AggFunc) : item ∈ omap aggregate_part l <-> (name item, inr (value item)) ∈ l.
Proof.
  rewrite list_elem_of_omap. split.
  - intros ([n [e|f]] & Hin & Hp); [done|]. by injection Hp as <-.
  - intros Hin. exists (name item, inr (value item)). split; [done|]. by destruct item.
Qed.

Section answered.
Context `{AstText}.
Implicit Type (l : list (string * (Expr + AggFunc))).

Lemma group_keys_named items group_exprs ks :
  try_map (group_key items) group_exprs = Ok ks ->
  forall key item, key ∈ ks -> find_value (value key) items = Some item -> name key = name item.
Proof.
  intros Hk%try_map_Ok. induction Hk as [|e k es ks He _ IH]; intros key item Hin Hf; [by apply elem_of_nil in Hin|].
  apply elem_of_cons in Hin as [->|Hin]; [|by eapply IH]. unfold group_key in He.
  destruct (scalar e InScalar) as [v|]; [|done]. destruct (find_value v items) as [i|] eqn:E.
  - injection He as <-. simpl in Hf. rewrite E in Hf. by injection Hf as <-.
  - destruct (derived_name e); [|done]. injection He as <-. simpl in Hf. congruence.
Qed.

Lemma scalars_grouped ks items :
  try_for (check_grouped ks) items = Ok tt -> forall item, item ∈ items -> exists key, find_value (value item) ks = Some key.
Proof.
  intros Hf%try_for_Ok item Hin. rewrite Forall_forall in Hf. specialize (Hf item Hin). unfold check_grouped in Hf.
  destruct (existsb _ ks) eqn:E; [|done]. apply existsb_exists in E as (key & Hk & He).
  apply (find_value_some _ _ key); [by apply list_elem_of_In|by apply expr_eqb_eq].
Qed.

(** The columns of a group's output. *)
Lemma grouped_names g sc s :
  bind_group_by g sc = Ok s ->
  map field_name (fields s) = map name (keys g) ++ map name (aggregates g) /\ NoDup (map field_name (fields s)).
Proof.
  unfold bind_group_by. destruct (aggregates g) as [|a aggs] eqn:Ea; [done|]. rewrite <- Ea. clear Ea.
  destruct (try_map _ (keys g)) as [kf|] eqn:Ek; [|done]. destruct (try_map _ (aggregates g)) as [af|] eqn:Eg; [|done].
  intros (-> & _ & Hnd)%build_output_schema_Ok. split; [|done]. cbn [fields]. rewrite map_app. f_equal.
  - apply typed_outputs in Ek. clear -Ek. induction Ek as [|k f ks fs (_ & _ & Hf) _ IH]; [done|]. simpl. by rewrite Hf, IH.
  - apply try_map_Ok in Eg. clear -Eg. induction Eg as [|k f ks fs Hf _ IH]; [done|]. simpl. rewrite IH. f_equal.
    destruct (aggregate_result_type _ _); [|done]. by injection Hf as <-.
Qed.

(** The cells of a grouped answer without a projection. *)
Lemma unprojected_cells l ks kv av hv :
  let g := mkGroupBy ks (omap aggregate_part l) hv in
  (forall key item, key ∈ ks -> find_value (value key) (omap scalar_part l) = Some item -> name key = name item) ->
  (forall key, key ∈ ks -> (exists n, (n, inl (value key)) ∈ l) \/ name key ∉ map fst l) ->
  map fst l = map name ks ++ map name (omap aggregate_part l) -> NoDup (map fst l) ->
  group_row kv av g = map (asked_cell kv av) l.
Proof.
  intros g Hnamed Hapart Hnames Hnd. rewrite <- group_cells_row.
  assert (group_cells kv av g = map (fun p => (p.1, asked_cell kv av p)) l) as ->; [|by rewrite map_map].
  apply same_names.
  - by rewrite group_cells_names, map_map.
  - by rewrite map_map.
  - intros x [Hx|Hx]%elem_of_app; apply list_elem_of_In, in_map_iff in Hx as (k & <- & Hk); apply list_elem_of_In in Hk; cbn in Hk.
    + destruct (Hapart k Hk) as [[n Hn]|Hn].
      2: { exfalso. apply Hn. rewrite Hnames. apply elem_of_app. left. by apply list_elem_of_fmap_2. }
      destruct (find_value_some (value k) (omap scalar_part l) (mkNamed n (value k))) as [item Hi]; [by apply scalar_part_elem|done|].
      rewrite (Hnamed k item Hk Hi). apply find_value_spec in Hi as [Hi <-]. apply scalar_part_elem in Hi.
      by apply (list_elem_of_fmap_2 (fun p => (p.1, asked_cell kv av p))) in Hi.
    + apply aggregate_part_elem in Hk. by apply (list_elem_of_fmap_2 (fun p => (p.1, asked_cell kv av p))) in Hk.
Qed.

(** The cells of a grouped answer with one: every item reads its own column. *)
Lemma projected_cell l ks kv av hv s p :
  let g := mkGroupBy ks (omap aggregate_part l) hv in
  (forall item, item ∈ omap scalar_part l -> exists key, find_value (value item) ks = Some key) ->
  map field_name (fields s) = map name ks ++ map name (omap aggregate_part l) -> NoDup (map field_name (fields s)) ->
  NoDup (map fst l) -> p ∈ l ->
  eval (EColumn (source_name (omap scalar_part l) ks p.1)) (group_row kv av g) s = Ok (asked_cell kv av p).
Proof.
  intros g Hgrouped Hs Hnds Hnd Hp. rewrite <- group_cells_row. apply eval_named.
  - by rewrite group_cells_names.
  - rewrite group_cells_names. cbn [keys aggregates g]. by rewrite <- Hs.
  - unfold source_name, group_cells. destruct p as [n [e|f]]; cbn.
    + destruct (find_name_some n (omap scalar_part l) (mkNamed n e)) as [item Hi]; [by apply scalar_part_elem|done|]. rewrite Hi.
      apply find_name_spec in Hi as [Hi Hn]. destruct (Hgrouped item Hi) as [key Hk]. rewrite Hk. apply scalar_part_elem in Hi. rewrite Hn in Hi.
      assert (inl (value item) = inl e :> Expr + AggFunc) as [= Hv] by (by eapply NoDup_fst_eq).
      apply find_value_spec in Hk as [Hk Hkv]. apply elem_of_app. left. apply (list_elem_of_fmap_2 (fun k => (name k, kv (value k)))) in Hk.
      by rewrite Hkv, Hv in Hk.
    + destruct (find_name n (omap scalar_part l)) as [item|] eqn:E.
      { exfalso. apply find_name_spec in E as [Hi Hn]. apply scalar_part_elem in Hi. rewrite Hn in Hi.
        assert (inl (value item) = inr f :> Expr + AggFunc) as [=] by (by eapply NoDup_fst_eq). }
      apply elem_of_app. right. apply (list_elem_of_fmap_2 (fun a => (name a, av (value a))) _ (mkNamed n f)).
      by apply aggregate_part_elem.
Qed.

End answered.

Section theorem.
Context `{AstText}.

Lemma projection_names items sc s : projection_schema sc items = Ok s -> map field_name (fields s) = map name items /\ NoDup (map name items).
Proof.
  intros (Ht & _ & Hnd)%projection_schema_Ok.
  assert (map field_name (fields s) = map name items) as Hn; [|by rewrite <- Hn].
  clear Hnd. induction Ht as [|item f items fs (_ & _ & Hf) _ IH]; [done|]. simpl. by rewrite Hf, IH.
Qed.

(** The shape of the query of a statement. *)
Lemma select_query_shape st q :
  select_query st = Ok q ->
  exists l, try_map asked_item (ast.projection (st_select st)) = Ok l /\
    ((group_by q = None /\ omap aggregate_part l = [] /\ project q = Some (omap scalar_part l)) \/
     exists ks hv, group_by q = Some (mkGroupBy ks (omap aggregate_part l) hv) /\
       project q = group_projection (mkItems (omap scalar_part l) (omap aggregate_part l) (map fst l)) ks /\
       (forall key item, key ∈ ks -> find_value (value key) (omap scalar_part l) = Some item -> name key = name item) /\
       (forall item, item ∈ omap scalar_part l -> exists key, find_value (value item) ks = Some key)).
Proof.
  unfold select_query. destruct (bind_from _) as [src|]; [|done]. destruct (bind_optional (ast.selection _) _) as [f|]; [|done].
  destruct (ast.group_by _) as [|exprs m]; [done|]. destruct (bind_select_items _) as [items|] eqn:Ei; [|done].
  apply bind_select_items_asked in Ei as (l & Hl & ->). cbn [item_aggregates].
  destruct (nonempty exprs || nonempty (omap aggregate_part l) || given _) eqn:E; intros Hq; exists l; (split; [done|]).
  - right. unfold bind_aggregating in Hq. cbn [scalars item_aggregates] in Hq.
    destruct (try_map _ exprs) as [ks|] eqn:Ek; [|done]. destruct (try_for _ _) as [[]|] eqn:Ef; [|done].
    destruct (bind_optional _ InHaving) as [hv|]; [|done]. injection Hq as <-. exists ks, hv.
    repeat split; [by eapply group_keys_named|by apply scalars_grouped].
  - left. injection Hq as <-. apply orb_false_iff in E as [[_ E]%orb_false_iff _]. by destruct (omap aggregate_part l).
Qed.

(** C27: a SELECT answers its select list (S-11, S-27, S-36).  The columns of an
    accepted query are the items of its select list, under their names and in
    their order.  Without grouping the answer projects the items' expressions.
    With grouping, whether or not a projection was emitted and however the items
    were reordered, repeated or renamed, the column of an item holds the value of
    its grouping expression or of its aggregate, provided a grouping expression
    that is not selected does not carry the name of an item. *)
Theorem select_list_answered st catalog bq :
  bind_select st catalog = Ok bq ->
  exists l, try_map asked_item (ast.projection (st_select st)) = Ok l /\
    map field_name (fields (output_schema (bq_bound bq))) = map fst l /\
    match group_by (bq_query bq) with
    | None => l = map (fun item => (name item, inl (value item))) (default [] (project (bq_query bq)))
    | Some g =>
        (forall key, key ∈ keys g -> (exists n, (n, inl (value key)) ∈ l) \/ name key ∉ map fst l) ->
        forall kv av, answer_row (bq_query bq) (bq_bound bq) (group_row kv av g) = Ok (map (asked_cell kv av) l)
    end.
Proof.
  unfold bind_select. destruct (select_query st) as [q|] eqn:Eq; [|done].
  destruct (bind q catalog) as [b|] eqn:Eb; [|done]. intros [= <-]. cbn [bq_query bq_bound].
  apply select_query_shape in Eq as (l & Hl & Hshape). exists l. split; [done|]. apply bind_inv in Eb as (_ & _ & Hg & Hp).
  destruct Hshape as [(-> & Hagg & Hproj)|(ks & hv & Eg & Hproj & Hnamed & Hgrouped)].
  - rewrite Hproj in Hp |- *. apply projection_names in Hp as [Hp _]. rewrite Hp. cbn [default]. clear -Hagg.
    induction l as [|[n [e|f]] l IH]; [done| |done]. cbn in *. destruct (IH Hagg) as [IH1 IH2]. by rewrite IH1, <- IH2.
  - rewrite Eg in Hg |- *. destruct Hg as [Hg _]. apply grouped_names in Hg as [Hs Hnd]. cbn [keys aggregates] in *.
    unfold answer_row. rewrite Hproj in Hp |- *. unfold group_projection in *. cbn [item_order item_aggregates scalars] in *.
    destruct (bool_decide _) eqn:Ed.
    + apply bool_decide_eq_true in Ed. rewrite Hp, Hs. split; [done|]. intros Hapart kv av. f_equal.
      rewrite Hs, <- Ed in Hnd. by apply unprojected_cells.
    + apply projection_names in Hp as [Hp Hndp]. rewrite map_map in Hndp, Hp. cbn [name] in Hp, Hndp. rewrite map_id in Hndp, Hp.
      split; [done|]. intros _ kv av. apply try_map_Ok. rewrite map_map. apply Forall2_fmap. apply Forall_Forall2_diag, Forall_forall.
      intros p Hin. cbn [value]. by apply projected_cell.
Qed.

End theorem.

(** ** Examples *)

Definition door_texts : AstText :=
  {| expr_text _ := ""; function_text _ := ""; object_name_text _ := ""; data_type_text _ := "" |}%string.

Definition door_catalog : Catalog :=
  [("orders"%string, mkSchema [mkField "id" Int64 false; mkField "amount" Int64 true])].

Definition orders_from : list ast.TableWithJoins :=
  [ast.mkTableWithJoins
     (ast.Table [ast.Identifier_ "orders"] (Some (ast.mkTableAlias "o" [])) None [] None false [] None None []) []].

Definition count_star : ast.Expr :=
  ast.Function_ (ast.mkFunction [ast.Identifier_ "count"] false ast.NoArguments (ast.ArgList None [ast.Unnamed ast.ArgWildcard] [])
    None None None []).

Definition o_id : ast.Expr := ast.CompoundIdentifier ["o"; "id"]%string.
Definition o_amount : ast.Expr := ast.CompoundIdentifier ["o"; "amount"]%string.

(** A grouped statement over the orders. *)
Definition grouped_orders (projection : list ast.SelectItem) (groups : list ast.Expr) : SelectStatement :=
  mkSelectStatement
    (ast.mkSelect [] None None None false projection None None orders_from [] None None [] (ast.Expressions groups []) [] [] [] None [] None
       false None ast.Standard) false.

(** [SELECT count( * ) AS n, o.id AS x, o.id FROM orders AS o GROUP BY o.id, o.amount] *)
Definition reordered : SelectStatement :=
  grouped_orders [ast.ExprWithAlias count_star "n"; ast.ExprWithAlias o_id "x"; ast.UnnamedExpr o_id] [o_id; o_amount].

#[local] Existing Instance door_texts.

Lemma select_list_answered_witness :
  match bind_select reordered door_catalog with
  | Ok bq => answer_row (bq_query bq) (bq_bound bq) [VInt 5; VInt 9; VInt 3] = Ok [VInt 3; VInt 5; VInt 5]
  | Err _ => False
  end.
Proof.
  destruct (bind_select reordered door_catalog) as [bq|] eqn:E; [|discriminate E].
  destruct (select_list_answered reordered door_catalog bq E) as (l & Hl & _ & Hg).
  vm_compute in E. injection E as <-. vm_compute in Hl. injection Hl as <-. cbn [bq_query bq_bound group_by] in *.
  refine (Hg _ (fun e => if expr_eqb e (EColumn "o.id") then VInt 5 else VInt 9) (fun _ => VInt 3)).
  intros key Hk. cbn [keys] in Hk. apply elem_of_cons in Hk as [->|Hk].
  - left. exists "x"%string. right. left.
  - apply list_elem_of_singleton in Hk as ->. right. cbn. apply (bool_decide_unpack _). vm_compute. exact I.
Defined.



(** The order of a select list decides whether it is accepted: after a grouping
    a column whose name has a dot can be answered but not projected. *)
Theorem dotted_name_refused_reordered :
  let dotted := ast.ExprWithAlias o_id "order.id" in
  let n := ast.ExprWithAlias count_star "n" in
  is_ok (bind_select (grouped_orders [dotted; n] [o_id]) door_catalog) = true /\
  bind_select (grouped_orders [n; dotted] [o_id]) door_catalog = Err (SqlPlan (QualifiedColumnAfterGroupBy "order.id")).
Proof. vm_compute. split; reflexivity. Qed.
