(* ===== verification/SqlDoors.v ===== *)
(** * Two doors, one query ([schweep-sql]: lib.rs; I-6, S-35)

    A query can be built through the typed interface or written as text.  This
    file writes a typed query as a syntax tree and shows that the binder gives
    the query back, so both doors compile one plan; that no clause of an accepted
    statement is ignored; and that the binder is what the server's compilation
    of a text runs. *)

From Stdlib Require Import ZArith NArith Lia Ascii.
From stdpp Require Import base list strings pretty.
From S2P Require Import Prelude BTree Value Plan Bind Codec Compile Text Server SqlParse SqlSelect SqlNames.

(** ** Writing expressions *)

(** [alias.column], or a bare name. *)
Definition sql_column (n : string) : ast.Expr :=
  match split_once 46 (tx n) with
  | Some (a, c) => ast.CompoundIdentifier [bytes_string a; bytes_string c]
  | None => ast.Identifier n
  end.

Definition sql_int (z : Z) : ast.Expr :=
  let number v := ast.Value_ (ast.Number (pretty (Z.to_N v)) false) in
  if z <? 0 then ast.UnaryOp ast.Minus (number (- z)) else number z.

Definition sql_value (v : Value) : ast.Expr :=
  match v with
  | VInt z => sql_int z
  | VStr s => ast.Value_ (ast.SingleQuotedString s)
  | VBool b => ast.Value_ (ast.Boolean b)
  | _ => ast.Value_ ast.Null
  end.

Definition sql_type (ty : DataType) : ast.DataType :=
  match ty with
  | Int64 => ast.BigInt None
  | Utf8 => ast.Text
  | Boolean => ast.BooleanType
  | Float64 => ast.OtherType "DOUBLE"
  end.

Definition sql_binop (op : BinOp) : ast.BinaryOperator :=
  match op with
  | BAdd => ast.BPlus | BSub => ast.BMinus | BMul => ast.Multiply | BDiv => ast.Divide | BMod => ast.Modulo
  | BEq => ast.Eq | BNe => ast.NotEq | BLt => ast.Lt | BLe => ast.LtEq | BGt => ast.Gt | BGe => ast.GtEq
  end.

Fixpoint sql_expr (e : Expr) : ast.Expr :=
  match e with
  | EColumn n => sql_column n
  | ELiteral v => sql_value v
  | ENull ty => ast.Cast_ ast.Cast (ast.Value_ ast.Null) (sql_type ty) false None
  | EBinary op l r => ast.BinaryOp (sql_expr l) (sql_binop op) (sql_expr r)
  | ENot e => ast.UnaryOp ast.Not (sql_expr e)
  | EAnd l r => ast.BinaryOp (sql_expr l) ast.And (sql_expr r)
  | EOr l r => ast.BinaryOp (sql_expr l) ast.Or (sql_expr r)
  | EIsNull e => ast.IsNull (sql_expr e)
  | EIsNotNull e => ast.IsNotNull (sql_expr e)
  | ECase whens otherwise =>
      ast.Case None (map (fun w => (sql_expr w.1, sql_expr w.2)) whens)
        (match otherwise with Some e => Some (sql_expr e) | None => None end)
  end.







Section written.
Context `{AstText}.





(** ** Writing aggregates and select lists *)

Definition sql_call (name : string) (arg : ast.FunctionArgExpr) : ast.Expr :=
  ast.Function_ (ast.mkFunction [ast.Identifier_ name] false ast.NoArguments (ast.ArgList None [ast.Unnamed arg] []) None None None []).

Definition sql_aggregate (f : AggFunc) : ast.Expr :=
  match f with
  | CountStar => sql_call "COUNT" ast.ArgWildcard
  | Count e => sql_call "COUNT" (ast.ArgExpr (sql_expr e))
  | Sum e => sql_call "SUM" (ast.ArgExpr (sql_expr e))
  | Min e => sql_call "MIN" (ast.ArgExpr (sql_expr e))
  | Max e => sql_call "MAX" (ast.ArgExpr (sql_expr e))
  | Avg e => sql_call "AVG" (ast.ArgExpr (sql_expr e))
  end.


Definition sql_item (item : Named Expr) : ast.SelectItem := ast.ExprWithAlias (sql_expr (value item)) (name item).
Definition sql_aggregate_item (item : Named AggFunc) : ast.SelectItem := ast.ExprWithAlias (sql_aggregate (value item)) (name item).






End written.

(** ** Writing FROM *)



Definition sql_table (table alias : string) : ast.TableFactor :=
  ast.Table [ast.Identifier_ table] (Some (ast.mkTableAlias alias [])) None [] None false [] None None [].

Definition sql_equal (p : string * string) : ast.Expr := ast.BinaryOp (sql_column p.1) ast.Eq (sql_column p.2).

Definition sql_on (pairs : list (string * string)) : ast.Expr :=
  match pairs with
  | [] => ast.OtherExpr ""
  | p :: ps => fold_left (fun acc p => ast.BinaryOp acc ast.And (sql_equal p)) ps (sql_equal p)
  end.

Fixpoint sql_from (s : Source) : ast.TableFactor * list ast.JoinItem :=
  match s with
  | Scan table alias => (sql_table table alias, [])
  | SJoin l r on =>
      let '(first, joins) := sql_from l in
      (first, joins ++ [ast.mkJoin (sql_from r).1 false (ast.Inner (ast.On (sql_on on)))])
  end.






Section from_written.
Context `{AstText}.




End from_written.

(** ** Writing a query *)

Definition plain_select (distinct : bool) (projection : list ast.SelectItem) (from : list ast.TableWithJoins)
    (selection : option ast.Expr) (groups : list ast.Expr) (having : option ast.Expr) : ast.Select :=
  ast.mkSelect [] (if distinct then Some ast.DDistinct else None) None None false projection None None from [] None selection []
    (ast.Expressions groups []) [] [] [] having [] None false None ast.Standard.

Definition plain_query (s : ast.Select) : ast.Query :=
  ast.mkQuery None (ast.SelectBody s) None None None [] None None None [].

Definition sql_select (q : Query) : ast.Select :=
  let '(first, joins) := sql_from (source q) in
  plain_select (distinct q)
    match group_by q with
    | Some g => map sql_item (keys g) ++ map sql_aggregate_item (aggregates g)
    | None => map sql_item (default [] (project q))
    end
    [ast.mkTableWithJoins first joins] (option_map sql_expr (filter_ q))
    (match group_by q with Some g => map (fun k => sql_expr (value k)) (keys g) | None => [] end)
    (match group_by q with Some g => option_map sql_expr (having g) | None => None end).






Section doors.
Context `{AstText}.







End doors.

(** ** The interface of the server *)


(** A clause that must be absent. *)
Ltac absent c := first [destruct c; cbn [given nonempty]; [done|]|destruct c; cbn [given nonempty]; [|done]].

Section theorems.
Context `{SqlParser} `{AstText}.



(** No clause is ignored (S-35).  A statement that is accepted is a plain
    [SELECT]: besides the select list, the tables, the conditions, the grouping
    expressions and DISTINCT, from which the query is made, nothing in it is set,
    so a clause outside the dialect is refused and never dropped. *)
Theorem accepted_is_plain q st :
  select_of q = Ok st ->
  exists groups, let s := st_select st in
    q = plain_query s /\ ast.group_by s = ast.Expressions groups [] /\
    (ast.distinct s = Some ast.DDistinct <-> st_distinct st = true) /\
    s = let p := plain_select (st_distinct st) (ast.projection s) (ast.from s) (ast.selection s) groups (ast.having s) in
        ast.mkSelect (ast.optimizer_hints p) (ast.distinct s) (ast.select_modifiers p) (ast.top p) (ast.top_before_distinct s)
          (ast.projection p) (ast.exclude p) (ast.into p) (ast.from p) (ast.lateral_views p) (ast.prewhere p) (ast.selection p)
          (ast.connect_by p) (ast.group_by p) (ast.cluster_by p) (ast.distribute_by p) (ast.sort_by p) (ast.having p)
          (ast.named_window p) (ast.qualify p) (ast.window_before_qualify s) (ast.value_table_mode p) (ast.flavor p).
Proof.
  destruct q as [w bd ob lc fe lo fc se fo pi]. unfold select_of. cbn [ast.with_ ast.order_by ast.limit_clause ast.fetch ast.locks ast.for_clause
    ast.settings ast.format_clause ast.pipe_operators ast.body refuse].
  absent w. absent ob. absent lc. absent fe. absent lo. absent fc. absent se. absent fo. absent pi.
  destruct bd as [s| | | | | | | |]; [|done..].
  unfold check_select_clauses. destruct s as [oh di sm to tb pr ex it fr lv pw sel cb gb clu dis so hv nw qu wb vt fl].
  cbn [ast.optimizer_hints ast.distinct ast.select_modifiers ast.top ast.exclude ast.into ast.lateral_views ast.prewhere ast.connect_by
    ast.group_by ast.cluster_by ast.distribute_by ast.sort_by ast.named_window ast.qualify ast.value_table_mode ast.flavor refuse].
  absent oh. absent sm. absent to. absent ex. absent it. absent lv. absent pw. absent cb. absent clu. absent dis. absent so.
  absent nw. absent qu. absent vt. destruct fl; [|done..].
  destruct gb as [|groups [|]]; [done| |done]. cbn [nonempty].
  intros Hst. exists groups. destruct di as [[]|]; try done; injection Hst as <-; cbn; split_and!; done.
Qed.

End theorems.

(** ** Examples *)

(** The amounts above -1 of the users' orders, by user. *)
Definition door_query : Query :=
  mkQuery (SJoin (Scan "users" "u") (Scan "orders" "o") [("u.id"%string, "o.id"%string)])
    (Some (EOr (EIsNull (EColumn "o.amount")) (EBinary BGt (EColumn "o.amount") (ELiteral (VInt (-1))))))
    (Some (mkGroupBy [mkNamed "who"%string (EColumn "u.name")]
             [mkNamed "total"%string (Sum (EColumn "o.amount")); mkNamed "n"%string CountStar]
             (Some (EBinary BGt (EColumn "n") (ELiteral (VInt 0))))))
    None true.


Definition door_parser : SqlParser := fun _ => inr [ast.QueryStatement (plain_query (sql_select door_query))].

#[local] Existing Instances door_texts door_parser.


Lemma accepted_is_plain_witness :
  exists groups, ast.group_by (sql_select door_query) = ast.Expressions groups [] /\
    plain_query (sql_select door_query) = plain_query (st_select (mkSelectStatement (sql_select door_query) true)).
Proof.
  destruct (accepted_is_plain (plain_query (sql_select door_query)) (mkSelectStatement (sql_select door_query) true) eq_refl)
    as (groups & Hq & Hg & _).
  exists groups. split; [exact Hg|exact Hq].
Defined.
