(* ===== verification/Vfs.v ===== *)
(** * The filesystem under a page store ([substrate-pager]: vfs.rs, testing.rs)

    A store keeps four kinds of files: pages and manifests under the hash of
    their content, the segments of the log under their number, and the checkpoint
    marker.  [Path] has a constructor per kind, in place of the directory names
    under which the source keeps them apart, and a [Disk] is what the files hold.
    A [Vfs] is a disk with the fault plan of the crash harness: a number of
    bytes that still reach the disk, after which every write fails. *)

From Stdlib Require Import ZArith NArith Lia.
From stdpp Require Import base list gmap.
From S2P Require Import Prelude BTree.

Definition PageId : Type := list N.
Definition ManifestId : Type := list N.

#[export] Instance PageId_eq_dec : EqDecision PageId := list_eq_dec.
#[export] Instance ManifestId_eq_dec : EqDecision ManifestId := list_eq_dec.

Inductive Path :=
| PagePath (id : PageId)
| ManifestPath (id : ManifestId)
| SegmentPath (n : Z)
| CheckpointPath.

Record Disk := mkDisk {
  d_pages : gmap PageId (list N);
  d_manifests : gmap ManifestId (list N);
  d_segments : btree Z (list N);
  d_marker : option (list N);
}.

Definition disk_empty : Disk := mkDisk ∅ ∅ [] None.

(** ** Files in memory *)

Definition file_get (d : Disk) (p : Path) : option (list N) :=
  match p with
  | PagePath id => d_pages d !! id
  | ManifestPath id => d_manifests d !! id
  | SegmentPath n => bt_get n (d_segments d)
  | CheckpointPath => d_marker d
  end.

Definition file_set (d : Disk) (p : Path) (bytes : list N) : Disk :=
  match p with
  | PagePath id => mkDisk (<[id := bytes]> (d_pages d)) (d_manifests d) (d_segments d) (d_marker d)
  | ManifestPath id => mkDisk (d_pages d) (<[id := bytes]> (d_manifests d)) (d_segments d) (d_marker d)
  | SegmentPath n => mkDisk (d_pages d) (d_manifests d) (bt_insert n bytes (d_segments d)) (d_marker d)
  | CheckpointPath => mkDisk (d_pages d) (d_manifests d) (d_segments d) (Some bytes)
  end.

Definition file_remove (d : Disk) (p : Path) : Disk :=
  match p with
  | PagePath id => mkDisk (delete id (d_pages d)) (d_manifests d) (d_segments d) (d_marker d)
  | ManifestPath id => mkDisk (d_pages d) (delete id (d_manifests d)) (d_segments d) (d_marker d)
  | SegmentPath n => mkDisk (d_pages d) (d_manifests d) (bt_remove n (d_segments d)) (d_marker d)
  | CheckpointPath => mkDisk (d_pages d) (d_manifests d) (d_segments d) None
  end.

(** [entry(path).or_default().extend_from_slice(bytes)]. *)
Definition file_append (d : Disk) (p : Path) (bytes : list N) : Disk :=
  file_set d p (match file_get d p with Some old => old ++ bytes | None => bytes end).

(** ** The filesystem that dies *)

Inductive IoError := NoSuchFile | MachineGone.

(** [budget] is [None] on the real filesystem, which is only ever asked to write
    what fits. *)
Record Vfs := mkVfs { vfs_disk : Disk; budget : option Z; crashed : bool }.

Definition with_disk (d : Disk) (v : Vfs) : Vfs := mkVfs d (budget v) (crashed v).

(** How many of the bytes wanted still reach the disk. *)
Definition claim (want : Z) (v : Vfs) : Vfs * Z :=
  if crashed v then (v, 0)
  else match budget v with
       | None => (v, want)
       | Some remaining =>
           if want <=? remaining then (mkVfs (vfs_disk v) (Some (remaining - want)) false, want)
           else (mkVfs (vfs_disk v) (Some 0) true, Z.max remaining 0)
       end.

Definition vfs_create_dir_all (v : Vfs) : result IoError unit := if crashed v then Err MachineGone else Ok tt.

Definition vfs_atomic_write (p : Path) (bytes : list N) (v : Vfs) : Vfs * result IoError unit :=
  let '(v, granted) := claim (Z.of_nat (length bytes)) v in
  if granted <? Z.of_nat (length bytes) then (v, Err MachineGone)
  else (with_disk (file_set (vfs_disk v) p bytes) v, Ok tt).

(** A write that does not fit is torn: its first bytes are on the disk. *)
Definition vfs_append (p : Path) (bytes : list N) (v : Vfs) : Vfs * result IoError unit :=
  let '(v, granted) := claim (Z.of_nat (length bytes)) v in
  if granted <? Z.of_nat (length bytes) then
    (if 0 <? granted then with_disk (file_append (vfs_disk v) p (take (Z.to_nat granted) bytes)) v else v,
     Err MachineGone)
  else (with_disk (file_append (vfs_disk v) p bytes) v, Ok tt).

Definition vfs_read (p : Path) (v : Vfs) : result IoError (list N) := ok_or (file_get (vfs_disk v) p) NoSuchFile.

Definition vfs_truncate (p : Path) (len : Z) (v : Vfs) : Vfs * result IoError unit :=
  if crashed v then (v, Err MachineGone)
  else match file_get (vfs_disk v) p with
       | None => (v, Err NoSuchFile)
       | Some bytes => (with_disk (file_set (vfs_disk v) p (take (Z.to_nat len) bytes)) v, Ok tt)
       end.

Definition vfs_exists (p : Path) (v : Vfs) : bool := match file_get (vfs_disk v) p with Some _ => true | None => false end.

Definition vfs_remove_file (p : Path) (v : Vfs) : Vfs * result IoError unit :=
  if crashed v then (v, Err MachineGone) else (with_disk (file_remove (vfs_disk v) p) v, Ok tt).

(** The machine was started again, with [fuel] bytes until the next crash. *)
Definition reboot (fuel : option Z) (v : Vfs) : Vfs := mkVfs (vfs_disk v) fuel false.

(** ** What an operation leaves

    A write takes effect or dies with the machine; a torn append leaves the
    first bytes.  On a machine that does not crash nothing fails. *)

Definition healthy (v : Vfs) : Prop := budget v = None /\ crashed v = false.

Lemma claim_cases want v : 0 <= want ->
  exists v' g, claim want v = (v', g) /\ vfs_disk v' = vfs_disk v /\ 0 <= g <= want /\
    (crashed v = true -> crashed v' = true) /\ (g < want -> crashed v' = true) /\ (healthy v -> v' = v /\ g = want).
Proof.
  intros Hw. unfold claim, healthy. destruct (crashed v) eqn:Ec.
  - exists v, 0. repeat split; try done; try lia; naive_solver.
  - destruct (budget v) as [b|] eqn:Eb.
    + destruct (Z.leb_spec want b); eexists _, _; (split; [done|]); repeat split; simpl; try done; try lia; naive_solver.
    + exists v, want. repeat split; try done; try lia; naive_solver.
Qed.

Lemma atomic_write_cases p bytes v : exists v' r,
  vfs_atomic_write p bytes v = (v', r) /\ (crashed v = true -> crashed v' = true) /\ (healthy v -> healthy v' /\ r = Ok tt) /\
  match r with
  | Ok _ => vfs_disk v' = file_set (vfs_disk v) p bytes
  | Err _ => vfs_disk v' = vfs_disk v /\ crashed v' = true
  end.
Proof.
  unfold vfs_atomic_write.
  destruct (claim_cases (Z.of_nat (length bytes)) v) as (v' & g & -> & Hd & Hg & Hc & Hlt & Hh); [lia|].
  destruct (Z.ltb_spec g (Z.of_nat (length bytes))); eexists _, _; (split; [done|]); simpl.
  - assert (~ healthy v) by (intros [-> ->]%Hh; lia). (split; [by auto|]; split; [done|]; by auto).
  - rewrite Hd. split; [by auto|]. split; [|done]. intros Hv. by destruct (Hh Hv) as [-> ->].
Qed.

Lemma append_cases p bytes v : exists v' r,
  vfs_append p bytes v = (v', r) /\ (crashed v = true -> crashed v' = true) /\ (healthy v -> healthy v' /\ r = Ok tt) /\
  match r with
  | Ok _ => vfs_disk v' = file_append (vfs_disk v) p bytes
  | Err _ => crashed v' = true /\
      (vfs_disk v' = vfs_disk v \/
       exists k, (0 < k < length bytes)%nat /\ vfs_disk v' = file_append (vfs_disk v) p (take k bytes))
  end.
Proof.
  unfold vfs_append.
  destruct (claim_cases (Z.of_nat (length bytes)) v) as (v' & g & -> & Hd & Hg & Hc & Hlt & Hh); [lia|].
  destruct (Z.ltb_spec g (Z.of_nat (length bytes))); eexists _, _; (split; [done|]); simpl.
  - assert (~ healthy v) by (intros [-> ->]%Hh; lia).
    destruct (Z.ltb_spec 0 g); simpl; rewrite ?Hd.
    + split; [by auto|]. split; [done|]. split; [by auto|]. right. exists (Z.to_nat g). split; [lia|done].
    + split; [by auto|]. split; [done|]. split; by auto.
  - rewrite Hd. split; [by auto|]. split; [|done]. intros Hv. by destruct (Hh Hv) as [-> ->].
Qed.

Lemma remove_file_cases p v : exists v' r,
  vfs_remove_file p v = (v', r) /\ (crashed v = true -> crashed v' = true) /\ (healthy v -> healthy v' /\ r = Ok tt) /\
  match r with
  | Ok _ => vfs_disk v' = file_remove (vfs_disk v) p
  | Err _ => vfs_disk v' = vfs_disk v /\ crashed v' = true
  end.
Proof.
  unfold vfs_remove_file, healthy. destruct (crashed v) eqn:E; eexists _, _; (split; [done|]); simpl; naive_solver.
Qed.

Lemma truncate_cases p len v bytes : file_get (vfs_disk v) p = Some bytes -> exists v' r,
  vfs_truncate p len v = (v', r) /\ (crashed v = true -> crashed v' = true) /\ (healthy v -> healthy v' /\ r = Ok tt) /\
  match r with
  | Ok _ => vfs_disk v' = file_set (vfs_disk v) p (take (Z.to_nat len) bytes)
  | Err _ => vfs_disk v' = vfs_disk v /\ crashed v' = true
  end.
Proof.
  intros Hf. unfold vfs_truncate, healthy. rewrite Hf. destruct (crashed v) eqn:E; eexists _, _; (split; [done|]); simpl; naive_solver.
Qed.
