(* ===== verification/Pager.v ===== *)
(** * The page store ([substrate-pager]: page.rs, manifest.rs, cas.rs, pager.rs, gc.rs, error.rs)

    Pages and manifests are immutable and stored under the hash of their content.
    A manifest maps logical page numbers to pages, whole or as an overlay on
    another manifest; a store is a head that names a manifest.

    Methods take the filesystem and the pager and return both beside the result.
    A method that only reads fills the cache of decoded manifests on the way; that
    effect is [fetch_fill], apart from the value [fetch] reads, which does not
    depend on it ([PagerCorrect]). *)

From Stdlib Require Import ZArith NArith Lia.
From stdpp Require Import base list gmap sorting strings.
From S2P Require Import Prelude BTree Text Vfs.

(** ** Identity *)

(** The third-party hash. *)
Class Blake3 := { blake3_hash : list N -> list N; blake3_keyed : list N -> list N -> list N }.

Inductive PageHasher := Unkeyed | Keyed (pool_key : list N).

Definition hash_page `{Blake3} (h : PageHasher) (bytes : list N) : PageId :=
  match h with Unkeyed => blake3_hash bytes | Keyed key => blake3_keyed key bytes end.

Definition to_hex (id : list N) : text := flat_map (fun b => hex_digits 2 (Z.of_N b)) id.

Fixpoint from_hex_pairs (t : text) : option (list N) :=
  match t with
  | [] => Some []
  | [_] => None
  | a :: b :: t' =>
      match from_str_radix 16 256 [a; b], from_hex_pairs t' with
      | Some v, Some rest => Some (Z.to_N v :: rest)
      | _, _ => None
      end
  end.

Inductive PagerError :=
| PageNotFound (page_no : Z) (manifest : text)
| MissingPage (id : PageId)
| MissingManifest (what : text)
| CorruptPage (expected actual : PageId) (len : Z)
| PageTooLarge (actual page_size : Z)
| InvalidPageSize (size : Z)
| ManifestCodec_ (op : string)
| MalformedId (what : text)
| RefExists (kind name : string)
| NoSuchRef (kind name : string)
| PagerIo (path : Path) (source : IoError).

Definition from_hex (t : text) : result PagerError (list N) :=
  if negb (Nat.eqb (length t) 64) then Err (MalformedId t)
  else match from_hex_pairs t with Some id => Ok id | None => Err (MalformedId t) end.

Definition is_corruption (e : PagerError) : bool :=
  match e with CorruptPage _ _ _ | MissingPage _ => true | _ => false end.

(** ** Pages *)

Record Page := mkPage { page_id : PageId; page_bytes : list N }.

Definition page_new `{Blake3} (h : PageHasher) (bytes : list N) (page_size : Z) : result PagerError Page :=
  if page_size <? Z.of_nat (length bytes) then Err (PageTooLarge (Z.of_nat (length bytes)) page_size)
  else Ok (mkPage (hash_page h bytes) bytes).

Definition page_verify `{Blake3} (h : PageHasher) (id : PageId) (bytes : list N) : result PagerError Page :=
  let actual := hash_page h bytes in
  if bool_decide (actual = id) then Ok (mkPage id bytes)
  else Err (CorruptPage id actual (Z.of_nat (length bytes))).

Definition MIN_PAGE_SIZE : Z := 4 * 1024.
Definition MAX_PAGE_SIZE : Z := 16 * 1024 * 1024.

Definition validate_page_size (size : Z) : result PagerError unit :=
  if negb ((MIN_PAGE_SIZE <=? size) && (size <=? MAX_PAGE_SIZE)) || negb (2 ^ Z.log2 size =? size)
  then Err (InvalidPageSize size) else Ok tt.

(** ** Manifests *)

Definition MAX_OVERLAY_DEPTH : Z := 8.
Definition MANIFEST_FORMAT_VERSION : Z := 2.

Abbreviation PageMap := (gmap Z PageId).
Abbreviation PageChanges := (gmap Z (option PageId)).

Inductive ManifestBody :=
| Flat (pages : PageMap)
| Overlay (base : ManifestId) (changes : PageChanges).

Record Manifest := mkManifest {
  format_version : Z;
  body : ManifestBody;
  parent : option ManifestId;
  created_at_ms : Z;
  schema_version : Z;
  page_size : Z;
  depth : Z;
  page_count : Z;
}.

#[export] Instance ManifestBody_eq_dec : EqDecision ManifestBody.
Proof. solve_decision. Defined.
#[export] Instance Manifest_eq_dec : EqDecision Manifest.
Proof. solve_decision. Defined.

(** The third-party serialisation of a manifest. *)
Class ManifestCodec := { manifest_encode : Manifest -> list N; manifest_decode : list N -> option Manifest }.

Definition manifest_empty (size : Z) : Manifest :=
  mkManifest MANIFEST_FORMAT_VERSION (Flat ∅) None 0 0 size 0 0.

Definition overlay_base (m : Manifest) : option ManifestId :=
  match body m with Flat _ => None | Overlay base _ => Some base end.

Definition flat_pages (m : Manifest) : option PageMap :=
  match body m with Flat pages => Some pages | Overlay _ _ => None end.

Definition manifest_changes (m : Manifest) : option PageChanges :=
  match body m with Flat _ => None | Overlay _ changes => Some changes end.

(** What a manifest says of a page on its own: [Some None] is a removal. *)
Definition local_lookup (m : Manifest) (page_no : Z) : option (option PageId) :=
  match body m with Flat pages => Some (pages !! page_no) | Overlay _ changes => changes !! page_no end.

Definition apply_change (page_no : Z) (content : option PageId) (pages : PageMap) : PageMap :=
  match content with Some id => <[page_no := id]> pages | None => delete page_no pages end.

Definition apply_changes (changes : PageChanges) (pages : PageMap) : PageMap := map_fold apply_change pages changes.

Definition overlay_on (base_id : ManifestId) (base : Manifest) (changes : PageChanges) (count now : Z) : Manifest :=
  mkManifest MANIFEST_FORMAT_VERSION (Overlay base_id changes) (Some base_id) now
    (schema_version base) (page_size base) (depth base + 1) count.

Definition flatten_onto (base_id : ManifestId) (base : Manifest) (resolved : PageMap) (changes : PageChanges) (now : Z) : Manifest :=
  let pages := apply_changes changes resolved in
  mkManifest MANIFEST_FORMAT_VERSION (Flat pages) (Some base_id) now
    (schema_version base) (page_size base) 0 (Z.of_nat (size pages)).

Definition must_flatten (m : Manifest) : bool := MAX_OVERLAY_DEPTH <=? depth m.

(** The entries of a map of pages in the order of a [BTreeMap]. *)
Definition page_le {A} (x y : Z * A) : Prop := x.1 <= y.1.
#[export] Instance page_le_dec {A} : RelDecision (@page_le A) := fun x y => decide (x.1 <= y.1).
Definition ascending {A} (m : gmap Z A) : list (Z * A) := merge_sort page_le (map_to_list m).

(** ** The stores of pages and of manifests *)

Definition cas_put (page : Page) (v : Vfs) : Vfs * result PagerError unit :=
  let path := PagePath (page_id page) in
  if vfs_exists path v then (v, Ok tt)
  else let '(v, r) := vfs_atomic_write path (page_bytes page) v in (v, map_err (PagerIo path) r).

Definition cas_get `{Blake3} (h : PageHasher) (id : PageId) (v : Vfs) : result PagerError Page :=
  match vfs_read (PagePath id) v with
  | Ok bytes => page_verify h id bytes
  | Err NoSuchFile => Err (MissingPage id)
  | Err e => Err (PagerIo (PagePath id) e)
  end.

Definition cas_list (v : Vfs) : list PageId := (map_to_list (d_pages (vfs_disk v))).*1.

Section pager.
Context `{Blake3} `{ManifestCodec}.

Definition manifest_id (m : Manifest) : ManifestId := blake3_hash (manifest_encode m).

Definition manifests_put (m : Manifest) (v : Vfs) : Vfs * result PagerError ManifestId :=
  let id := manifest_id m in
  let path := ManifestPath id in
  if vfs_exists path v then (v, Ok id)
  else let '(v, r) := vfs_atomic_write path (manifest_encode m) v in
       (v, map_err (PagerIo path) (map_ok (fun _ => id) r)).

Definition manifests_get (id : ManifestId) (v : Vfs) : result PagerError Manifest :=
  match vfs_read (ManifestPath id) v with
  | Err NoSuchFile => Err (MissingManifest (to_hex id))
  | Err e => Err (PagerIo (ManifestPath id) e)
  | Ok bytes =>
      match manifest_decode bytes with
      | None => Err (ManifestCodec_ "decode")
      | Some m =>
          let actual := manifest_id m in
          if bool_decide (actual = id) then Ok m
          else Err (MissingManifest (to_hex id ++ tx " (bytes on disk hash to " ++ to_hex actual ++ tx ")"))
      end
  end.

Definition manifests_contains (id : ManifestId) (v : Vfs) : bool := vfs_exists (ManifestPath id) v.
Definition manifests_list (v : Vfs) : list ManifestId := (map_to_list (d_manifests (vfs_disk v))).*1.

(** ** The pager *)

Record StoreConfig := mkConfig { cfg_page_size : Z; cfg_hasher : PageHasher; cfg_pool : string }.

Record Pager := mkPager {
  pins : gmap PageId Z;
  cache : gmap ManifestId Manifest;
  p_head : ManifestId;
  config : StoreConfig;
}.

Record Txn := mkTxn { writes : PageChanges; txn_base : ManifestId; pinned : list PageId }.

Definition set_head (id : ManifestId) (p : Pager) : Pager := mkPager (pins p) (cache p) id (config p).

Definition CACHE_CAPACITY : Z := 2048.

Definition cache_insert (id : ManifestId) (m : Manifest) (p : Pager) : Pager :=
  let entries := if CACHE_CAPACITY <=? Z.of_nat (size (cache p)) then ∅ else cache p in
  mkPager (pins p) (<[id := m]> entries) (p_head p) (config p).

Definition cache_forget (id : ManifestId) (p : Pager) : Pager :=
  mkPager (pins p) (delete id (cache p)) (p_head p) (config p).

Definition pin (id : PageId) (p : Pager) : Pager :=
  mkPager (<[id := default 0 (pins p !! id) + 1]> (pins p)) (cache p) (p_head p) (config p).

Definition unpin (id : PageId) (p : Pager) : Pager :=
  match pins p !! id with
  | None => p
  | Some count =>
      let count := Z.max 0 (count - 1) in
      mkPager (if count =? 0 then delete id (pins p) else <[id := count]> (pins p)) (cache p) (p_head p) (config p)
  end.

Definition assemble (cfg : StoreConfig) (v : Vfs) : Vfs * result PagerError Pager :=
  let '(v, r) := manifests_put (manifest_empty (cfg_page_size cfg)) v in
  (v, let? head := r in Ok (mkPager ∅ ∅ head cfg)).

(** Opening creates the two directories, which are not files. *)
Definition open_with (cfg : StoreConfig) (v : Vfs) : Vfs * result PagerError Pager :=
  match validate_page_size (cfg_page_size cfg), vfs_create_dir_all v with
  | Err e, _ => (v, Err e)
  | _, Err e => (v, Err (PagerIo CheckpointPath e))
  | Ok _, Ok _ => assemble cfg v
  end.

(** ** Reading manifests *)

Definition fetch (p : Pager) (id : ManifestId) (v : Vfs) : result PagerError Manifest :=
  match cache p !! id with Some hit => Ok hit | None => manifests_get id v end.

(** What [fetch] leaves in the cache. *)
Definition fetch_fill (id : ManifestId) (v : Vfs) (p : Pager) : Pager :=
  match cache p !! id, manifests_get id v with None, Ok m => cache_insert id m p | _, _ => p end.

Definition too_deep : text := tx "overlay chain exceeds the maximum depth of 8".

(** The overlays from a manifest down to the flat one.  A chain of ten is
    refused, so the fuel never runs out. *)
Fixpoint chain_from (fuel : nat) (p : Pager) (id : ManifestId) (chain : list Manifest) (current : Manifest) (v : Vfs) :
    result PagerError (list Manifest * Manifest) :=
  match overlay_base current with
  | None => Ok (chain, current)
  | Some base =>
      let chain := chain ++ [current] in
      let? next := fetch p base v in
      if MAX_OVERLAY_DEPTH + 1 <? Z.of_nat (length chain)
      then Err (MissingManifest (take 12 (to_hex id) ++ tx ": " ++ too_deep))
      else match fuel with
           | O => Err (MissingManifest (take 12 (to_hex id) ++ tx ": " ++ too_deep))
           | S fuel => chain_from fuel p id chain next v
           end
  end.

Definition apply_overlay (pages : PageMap) (m : Manifest) : PageMap :=
  match manifest_changes m with Some changes => apply_changes changes pages | None => pages end.

Definition resolve_manifest (p : Pager) (id : ManifestId) (m : Manifest) (v : Vfs) : result PagerError PageMap :=
  let? '(chain, bottom) := chain_from 9 p id [] m v in
  Ok (fold_left apply_overlay (rev chain) (default ∅ (flat_pages bottom))).

Definition resolve (p : Pager) (id : ManifestId) (v : Vfs) : result PagerError PageMap :=
  let? m := manifests_get id v in resolve_manifest p id m v.

(** One page through the chain; [hops] counts the manifests left behind. *)
Fixpoint lookup_from (fuel : nat) (p : Pager) (current : Manifest) (page_no hops : Z) (v : Vfs) : result PagerError (option PageId) :=
  match local_lookup current page_no with
  | Some answer => Ok answer
  | None =>
      match overlay_base current with
      | None => Ok None
      | Some base =>
          let hops := hops + 1 in
          if MAX_OVERLAY_DEPTH + 1 <? hops then Err (MissingManifest too_deep)
          else let? next := fetch p base v in
               match fuel with
               | O => Err (MissingManifest too_deep)
               | S fuel => lookup_from fuel p next page_no hops v
               end
      end
  end.

Definition lookup_page (p : Pager) (id : ManifestId) (page_no : Z) (v : Vfs) : result PagerError (option PageId) :=
  let? m := fetch p id v in lookup_from 9 p m page_no 0 v.

(** ** Deriving and installing *)

(** Whether the base changes, and by how many pages it grows. *)
Definition count_change (p : Pager) (base : ManifestId) (v : Vfs) (acc : bool * Z) (w : Z * option PageId) : result PagerError (bool * Z) :=
  let? existing := lookup_page p base w.1 v in
  match existing, w.2 with
  | Some old, Some new => Ok (if bool_decide (old = new) then acc else (true, acc.2))
  | None, None => Ok acc
  | None, Some _ => Ok (true, acc.2 + 1)
  | Some _, None => Ok (true, acc.2 - 1)
  end.

Definition derive_next (p : Pager) (base : ManifestId) (ws : PageChanges) (now : Z) (v : Vfs) :
    result PagerError (option (Manifest * ManifestId)) :=
  let? base_manifest := fetch p base v in
  let? '(changes_anything, count) := try_fold (count_change p base v) (false, page_count base_manifest) (ascending ws) in
  if negb changes_anything then Ok None
  else
    let? next :=
      if must_flatten base_manifest then
        let? resolved := resolve_manifest p base base_manifest v in
        Ok (flatten_onto base base_manifest resolved ws now)
      else Ok (overlay_on base base_manifest ws (Z.max count 0) now) in
    Ok (Some (next, manifest_id next)).

Definition install (m : Manifest) (p : Pager) (v : Vfs) : Vfs * Pager * result PagerError ManifestId :=
  match manifests_put m v with
  | (v, Err e) => (v, p, Err e)
  | (v, Ok id) => (v, set_head id (cache_insert id m p), Ok id)
  end.

Definition root_manifest (p : Pager) (v : Vfs) : Vfs * result PagerError ManifestId :=
  manifests_put (manifest_empty (cfg_page_size (config p))) v.

(** [set_head_to], and [rewind], which has the same body. *)
Definition set_head_to (id : ManifestId) (p : Pager) (v : Vfs) : Pager * result PagerError unit :=
  if negb (manifests_contains id v) then (p, Err (MissingManifest (to_hex id))) else (set_head id p, Ok tt).

(** A fork shares everything but the head. *)
Definition fork_at (id : ManifestId) (p : Pager) (v : Vfs) : result PagerError Pager :=
  if negb (manifests_contains id v) then Err (MissingManifest (to_hex id)) else Ok (set_head id p).

(** ** Reading, transactions *)

Definition read (p : Pager) (id : ManifestId) (page_no : Z) (v : Vfs) : result PagerError Page :=
  let? found := lookup_page p id page_no v in
  let? page_id := ok_or found (PageNotFound page_no (to_hex id)) in
  cas_get (cfg_hasher (config p)) page_id v.

Definition read_head (p : Pager) (page_no : Z) (v : Vfs) : result PagerError Page := read p (p_head p) page_no v.

Definition begin (p : Pager) : Txn := mkTxn ∅ (p_head p) [].

Definition write (page_no : Z) (bytes : list N) (t : Txn) (p : Pager) (v : Vfs) : Vfs * Pager * Txn * result PagerError PageId :=
  match page_new (cfg_hasher (config p)) bytes (cfg_page_size (config p)) with
  | Err e => (v, p, t, Err e)
  | Ok page =>
      let id := page_id page in
      let p := pin id p in
      let t := mkTxn (writes t) (txn_base t) (pinned t ++ [id]) in
      match cas_put page v with
      | (v, Err e) => (v, p, t, Err e)
      | (v, Ok _) => (v, p, mkTxn (<[page_no := Some id]> (writes t)) (txn_base t) (pinned t), Ok id)
      end
  end.

Definition remove (page_no : Z) (t : Txn) : Txn := mkTxn (<[page_no := None]> (writes t)) (txn_base t) (pinned t).

(** Dropping a transaction releases its pins. *)
Definition drop_txn (t : Txn) (p : Pager) : Pager := fold_left (fun p id => unpin id p) (pinned t) p.

(** [PageStore::commit] of the pager alone, at wall-clock time [now]. *)
Definition pager_commit (t : Txn) (now : Z) (p : Pager) (v : Vfs) : Vfs * Pager * result PagerError ManifestId :=
  if bool_decide (writes t = ∅) then (v, drop_txn t p, Ok (txn_base t))
  else match derive_next p (txn_base t) (writes t) now v with
       | Err e => (v, drop_txn t p, Err e)
       | Ok None => (v, drop_txn t p, Ok (txn_base t))
       | Ok (Some (next, _)) =>
           match manifests_put next v with
           | (v, Err e) => (v, drop_txn t p, Err e)
           | (v, Ok id) => (v, drop_txn t (set_head id (cache_insert id next p)), Ok id)
           end
       end.

(** ** Collecting *)

(** The walk over history and storage edges.  Every manifest visited is on disk or
    in the cache, so the fuel [gc] gives it never runs out
    ([PagerCorrect.reachable_manifests_ok]). *)
Fixpoint reachable_from (fuel : nat) (p : Pager) (seen : gset ManifestId) (stack : list ManifestId) (v : Vfs) : result PagerError (gset ManifestId) :=
  match stack with
  | [] => Ok seen
  | id :: stack =>
      match fuel with
      | O => Ok seen
      | S fuel =>
          if bool_decide (id ∈ seen) then reachable_from fuel p seen stack v
          else
            let seen := {[id]} ∪ seen in
            let? m := fetch p id v in
            let stack := match parent m with Some parent => parent :: stack | None => stack end in
            let stack := match overlay_base m with Some base => base :: stack | None => stack end in
            reachable_from fuel p seen stack v
      end
  end.

Definition walk_fuel (p : Pager) (roots : list ManifestId) (v : Vfs) : nat :=
  length roots + 3 * (size (cache p) + size (d_manifests (vfs_disk v))) + 1.

Definition reachable_manifests (p : Pager) (roots : list ManifestId) (v : Vfs) : result PagerError (gset ManifestId) :=
  reachable_from (walk_fuel p roots v) p ∅ (rev roots) v.

Record GcStats := mkGcStats { pages_swept : Z; pages_retained : Z; manifests_swept : Z; manifests_retained : Z }.

Definition add_live (p : Pager) (v : Vfs) (live : gset PageId) (id : ManifestId) : result PagerError (gset PageId) :=
  let? pages := resolve p id v in
  Ok (list_to_set (map_to_list pages).*2 ∪ live).

Fixpoint sweep_pages (live : gset PageId) (ids : list PageId) (stats : GcStats) (v : Vfs) : Vfs * result PagerError GcStats :=
  match ids with
  | [] => (v, Ok stats)
  | id :: ids =>
      if bool_decide (id ∈ live) then
        sweep_pages live ids (mkGcStats (pages_swept stats) (pages_retained stats + 1) (manifests_swept stats) (manifests_retained stats)) v
      else match vfs_remove_file (PagePath id) v with
           | (v, Err e) => (v, Err (PagerIo (PagePath id) e))
           | (v, Ok _) => sweep_pages live ids (mkGcStats (pages_swept stats + 1) (pages_retained stats) (manifests_swept stats) (manifests_retained stats)) v
           end
  end.

Fixpoint sweep_manifests (reachable : gset ManifestId) (ids : list ManifestId) (stats : GcStats) (p : Pager) (v : Vfs) : Vfs * Pager * result PagerError GcStats :=
  match ids with
  | [] => (v, p, Ok stats)
  | id :: ids =>
      if bool_decide (id ∈ reachable) then
        sweep_manifests reachable ids (mkGcStats (pages_swept stats) (pages_retained stats) (manifests_swept stats) (manifests_retained stats + 1)) p v
      else match vfs_remove_file (ManifestPath id) v with
           | (v, Err e) => (v, p, Err (PagerIo (ManifestPath id) e))
           | (v, Ok _) =>
               sweep_manifests reachable ids (mkGcStats (pages_swept stats) (pages_retained stats) (manifests_swept stats + 1) (manifests_retained stats)) (cache_forget id p) v
           end
  end.

Definition gc (live : list ManifestId) (p : Pager) (v : Vfs) : Vfs * Pager * result PagerError GcStats :=
  match reachable_manifests p live v with
  | Err e => (v, p, Err e)
  | Ok reachable =>
      match try_fold (add_live p v) ∅ (elements reachable) with
      | Err e => (v, p, Err e)
      | Ok live_pages =>
          let live_pages := live_pages ∪ dom (pins p) in
          match sweep_pages live_pages (cas_list v) (mkGcStats 0 0 0 0) v with
          | (v, Err e) => (v, p, Err e)
          | (v, Ok stats) => sweep_manifests reachable (manifests_list v) stats p v
          end
      end
  end.

End pager.
