(* ===== verification/PagerCorrect.v ===== *)
(** * What a pager reads and derives ([substrate-pager]: manifest.rs, pager.rs)

    A manifest on disk stands for a map of pages: the flat map at the bottom of
    its chain with every overlay applied.  Resolving and looking up agree with that
    map, whatever the cache holds, and deriving applies a transaction to it.

    Its later part: what collection keeps ([substrate-pager]: pager.rs,
    gc.rs). *)

From Stdlib Require Import ZArith NArith Lia.
From stdpp Require Import base list gmap sorting strings sets.
From S2P Require Import Prelude BTree Text Vfs Pager.

(** ** Changes to a map of pages *)

Lemma lookup_apply_change k c (pages : PageMap) j :
  apply_change k c pages !! j = if decide (k = j) then c else pages !! j.
Proof. unfold apply_change. destruct c; case_decide; subst; by simplify_map_eq. Qed.

Lemma lookup_apply_changes (ch : PageChanges) (pages : PageMap) k :
  apply_changes ch pages !! k = match ch !! k with Some c => c | None => pages !! k end.
Proof.
  unfold apply_changes.
  apply (map_fold_weak_ind (fun r ch => r !! k = match (ch : PageChanges) !! k with Some c => c | None => pages !! k end)).
  - by rewrite lookup_empty.
  - intros i c m r Hi IH. rewrite lookup_apply_change. case_decide; subst; by simplify_map_eq.
Qed.

Lemma apply_changes_union (a b : PageChanges) (pages : PageMap) : apply_changes (a ∪ b) pages = apply_changes a (apply_changes b pages).
Proof. apply map_eq. intros k. rewrite !lookup_apply_changes, lookup_union. by destruct (a !! k), (b !! k). Qed.

(** The changes applied one after the other, as a loop over them does. *)
Definition apply_list (l : list (Z * option PageId)) (pages : PageMap) : PageMap :=
  fold_left (fun pages w => apply_change w.1 w.2 pages) l pages.

Lemma lookup_apply_list_other l pages k : k ∉ l.*1 -> apply_list l pages !! k = pages !! k.
Proof.
  revert pages. induction l as [|[j c] l IH]; intros pages Hk; [done|]. apply not_elem_of_cons in Hk as [Hj Hk].
  cbn. rewrite (IH _ Hk), lookup_apply_change. simpl in *. by rewrite decide_False.
Qed.

Lemma apply_list_cons w l pages : apply_list (w :: l) pages = apply_list l (apply_change w.1 w.2 pages).
Proof. done. Qed.

Lemma apply_list_map l pages : NoDup l.*1 -> apply_list l pages = apply_changes (list_to_map l) pages.
Proof.
  intros Hnd. apply map_eq. intros k. rewrite lookup_apply_changes.
  revert pages. induction l as [|[j c] l IH]; intros pages; [done|]. rewrite fmap_cons in Hnd. apply NoDup_cons in Hnd as [Hj Hnd].
  rewrite apply_list_cons, list_to_map_cons. cbn [fst snd] in *. destruct (decide (j = k)) as [->|Hne].
  - rewrite lookup_apply_list_other by done. by rewrite lookup_apply_change, decide_True, lookup_insert_eq.
  - rewrite IH by done. rewrite lookup_insert_ne by done. by rewrite lookup_apply_change, decide_False.
Qed.

Lemma ascending_perm {A} (m : gmap Z A) : ascending m ≡ₚ map_to_list m.
Proof. apply merge_sort_Permutation. Qed.

Lemma ascending_NoDup {A} (m : gmap Z A) : NoDup (ascending m).*1.
Proof. rewrite ascending_perm. apply NoDup_fst_map_to_list. Qed.

Lemma ascending_map {A} (m : gmap Z A) : list_to_map (ascending m) = m.
Proof.
  rewrite <- (list_to_map_to_list m) at 2. apply list_to_map_proper; [apply ascending_NoDup|apply ascending_perm].
Qed.

(** ** What a manifest stands for *)

(** What is read was written. *)
Class ManifestCodecLaws `{ManifestCodec} := manifest_roundtrip m : manifest_decode (manifest_encode m) = Some m.

Section pager.
Context `{Blake3} `{ManifestCodecLaws}.

Definition on_disk (d : Disk) (id : ManifestId) (m : Manifest) : Prop :=
  manifest_id m = id /\ d_manifests d !! id = Some (manifest_encode m).

Definition coherent (p : Pager) (d : Disk) : Prop := forall id m, cache p !! id = Some m -> on_disk d id m.

(** [Stands d id m n pages]: [id] names [m], [n] overlays deep, whose map is [pages]. *)
Inductive Stands (d : Disk) : ManifestId -> Manifest -> nat -> PageMap -> Prop :=
| stands_flat id m pages : on_disk d id m -> body m = Flat pages -> Stands d id m 0 pages
| stands_overlay id m base changes bm n pages :
    on_disk d id m -> body m = Overlay base changes -> Stands d base bm n pages ->
    Stands d id m (S n) (apply_changes changes pages).

Lemma encode_inj m m' : manifest_encode m = manifest_encode m' -> m = m'.
Proof. intros E. pose proof (manifest_roundtrip m) as Hm. rewrite E, manifest_roundtrip in Hm. by injection Hm. Qed.

Lemma on_disk_det d id m m' : on_disk d id m -> on_disk d id m' -> m = m'.
Proof. intros [_ E1] [_ E2]. apply encode_inj. congruence. Qed.

Lemma Stands_on d id m n pages : Stands d id m n pages -> on_disk d id m.
Proof. by intros []. Qed.

Lemma manifests_get_on v id m : on_disk (vfs_disk v) id m -> manifests_get id v = Ok m.
Proof.
  intros [Hid Hm]. unfold manifests_get, vfs_read. simpl. rewrite Hm. simpl. rewrite manifest_roundtrip.
  by rewrite bool_decide_eq_true_2.
Qed.

Lemma manifests_contains_on v id m : on_disk (vfs_disk v) id m -> manifests_contains id v = true.
Proof. intros [_ E]. unfold manifests_contains, vfs_exists. simpl. by rewrite E. Qed.

Lemma fetch_on p v id m : coherent p (vfs_disk v) -> on_disk (vfs_disk v) id m -> fetch p id v = Ok m.
Proof.
  intros Hc Hm. unfold fetch. destruct (cache p !! id) as [m'|] eqn:E; [|by apply manifests_get_on].
  f_equal. by eapply on_disk_det; [apply Hc|].
Qed.

(** ** The chain *)

Lemma chain_from_stands p v id m n pages top chain fuel :
  coherent p (vfs_disk v) -> Stands (vfs_disk v) id m n pages ->
  (n <= fuel)%nat -> Z.of_nat (length chain + n) <= MAX_OVERLAY_DEPTH + 1 ->
  exists overlays bottom flat, chain_from fuel p top chain m v = Ok (chain ++ overlays, bottom) /\
    flat_pages bottom = Some flat /\ fold_left apply_overlay (rev overlays) flat = pages.
Proof.
  intros Hc Hs. revert fuel chain. induction Hs as [id m pages Hm Hb|id m base ch bm n pages Hm Hb Hs IH]; intros fuel chain Hf Hn.
  - exists [], m, pages. destruct fuel; simpl; unfold overlay_base, flat_pages; rewrite Hb, app_nil_r; done.
  - destruct fuel as [|fuel]; [lia|].
    destruct (IH fuel (chain ++ [m])) as (ov & bottom & flat & E & Hflat & Hfold); [lia|rewrite length_app; simpl; lia|].
    exists (m :: ov), bottom, flat. split; [|split; [done|]].
    + simpl. unfold overlay_base. rewrite Hb. rewrite (fetch_on p v base bm Hc (Stands_on _ _ _ _ _ Hs)).
      rewrite (proj2 (Z.ltb_ge _ _)) by (rewrite length_app; simpl in *; lia). rewrite E. by rewrite <- app_assoc.
    + simpl. rewrite fold_left_app, Hfold. simpl. unfold apply_overlay, manifest_changes. by rewrite Hb.
Qed.

Lemma resolve_manifest_stands p v id m n pages :
  coherent p (vfs_disk v) -> Stands (vfs_disk v) id m n pages -> (n <= 9)%nat -> resolve_manifest p id m v = Ok pages.
Proof.
  intros Hc Hs Hn. unfold resolve_manifest.
  destruct (chain_from_stands p v id m n pages id [] 9 Hc Hs Hn) as (ov & bottom & flat & -> & Hflat & <-); [unfold MAX_OVERLAY_DEPTH; simpl; lia|].
  by rewrite Hflat.
Qed.

Lemma resolve_stands p v id m n pages :
  coherent p (vfs_disk v) -> Stands (vfs_disk v) id m n pages -> (n <= 9)%nat -> resolve p id v = Ok pages.
Proof.
  intros Hc Hs Hn. unfold resolve. rewrite (manifests_get_on v id m (Stands_on _ _ _ _ _ Hs)). by eapply resolve_manifest_stands.
Qed.

Lemma lookup_from_stands p v id m n pages k fuel hops :
  coherent p (vfs_disk v) -> Stands (vfs_disk v) id m n pages ->
  (n <= fuel)%nat -> hops + Z.of_nat n <= MAX_OVERLAY_DEPTH + 1 ->
  lookup_from fuel p m k hops v = Ok (pages !! k).
Proof.
  intros Hc Hs. revert fuel hops. induction Hs as [id m pages Hm Hb|id m base ch bm n pages Hm Hb Hs IH]; intros fuel hops Hf Hn.
  - destruct fuel; simpl; unfold local_lookup; by rewrite Hb.
  - destruct fuel as [|fuel]; [lia|]. simpl. unfold local_lookup, overlay_base. rewrite Hb, lookup_apply_changes.
    destruct (ch !! k) as [c|]; [done|]. rewrite (proj2 (Z.ltb_ge _ _)) by lia.
    rewrite (fetch_on p v base bm Hc (Stands_on _ _ _ _ _ Hs)). apply IH; lia.
Qed.

Lemma lookup_stands p v id m n pages k :
  coherent p (vfs_disk v) -> Stands (vfs_disk v) id m n pages -> (n <= 9)%nat -> lookup_page p id k v = Ok (pages !! k).
Proof.
  intros Hc Hs Hn. unfold lookup_page. rewrite (fetch_on p v id m Hc (Stands_on _ _ _ _ _ Hs)).
  eapply lookup_from_stands; [done..|unfold MAX_OVERLAY_DEPTH; lia].
Qed.

(** A manifest stands for one map. *)
Lemma Stands_det d id m n pages m' n' pages' :
  Stands d id m n pages -> Stands d id m' n' pages' -> m = m' /\ n = n' /\ pages = pages'.
Proof.
  intros Hs. revert m' n' pages'. induction Hs as [id m pages Hm Hb|id m base ch bm n pages Hm Hb Hs IH]; intros m' n' pages' Hs'.
  - inversion Hs' as [? ? ? Hm' Hb'|? ? base' ch' bm' n1 pages1 Hm' Hb' Hs1]; subst;
      pose proof (on_disk_det _ _ _ _ Hm Hm') as <-; rewrite Hb in Hb'; by inversion Hb'.
  - inversion Hs' as [? ? ? Hm' Hb'|? ? base' ch' bm' n1 pages1 Hm' Hb' Hs1]; subst;
      pose proof (on_disk_det _ _ _ _ Hm Hm') as <-; rewrite Hb in Hb'; inversion Hb'; subst.
    destruct (IH _ _ _ Hs1) as (-> & -> & ->). done.
Qed.

(** ** Deriving *)

(** The manifest a transaction makes of a base. *)
Definition next_manifest (id : ManifestId) (m : Manifest) (pages : PageMap) (ws : PageChanges) (now : Z) : Manifest :=
  if must_flatten m then flatten_onto id m pages ws now
  else overlay_on id m ws (Z.of_nat (size (apply_changes ws pages))) now.

(** A manifest a store makes: it is as deep as it says and counts its pages. *)
Definition State (d : Disk) (id : ManifestId) (m : Manifest) (pages : PageMap) : Prop :=
  exists n, Stands d id m n pages /\ depth m = Z.of_nat n /\ (n <= 8)%nat /\ page_count m = Z.of_nat (size pages).

Lemma size_apply_change k c (pages : PageMap) :
  Z.of_nat (size (apply_change k c pages)) =
  Z.of_nat (size pages) + (match c with Some _ => 1 | None => 0 end) - (match pages !! k with Some _ => 1 | None => 0 end).
Proof.
  unfold apply_change. destruct c as [i|], (pages !! k) as [j|] eqn:E.
  - rewrite map_size_insert_Some; [lia|done].
  - rewrite map_size_insert_None by done. lia.
  - pose proof (map_size_ne_0_lookup_2 pages k ltac:(eauto)). rewrite map_size_delete_Some by done. lia.
  - rewrite delete_id by done. lia.
Qed.

Lemma count_changes p v id m n pages l acc :
  coherent p (vfs_disk v) -> Stands (vfs_disk v) id m n pages -> (n <= 9)%nat -> NoDup l.*1 ->
  exists changed, try_fold (count_change p id v) (acc, Z.of_nat (size pages)) l = Ok (changed, Z.of_nat (size (apply_list l pages))) /\
    (changed = true <-> acc = true \/ apply_list l pages <> pages).
Proof.
  intros Hc Hs Hn. pattern l. apply rev_ind; clear l.
  - intros _. exists acc. split; [done|]. simpl. naive_solver.
  - intros [k c] l IH. rewrite fmap_app. intros (Hl & Hk & _)%NoDup_app. destruct (IH Hl) as (changed & E & Hch).
    assert (k ∉ l.*1) as Hkl by (intros Hin; by apply (Hk k Hin), list_elem_of_singleton).
    rewrite try_fold_app, E. simpl. unfold count_change. simpl. rewrite (lookup_stands p v id m n pages k Hc Hs Hn).
    assert (apply_list (l ++ [(k, c)]) pages = apply_change k c (apply_list l pages)) as -> by (unfold apply_list; by rewrite fold_left_app).
    rewrite size_apply_change, (lookup_apply_list_other l pages k Hkl).
    assert (apply_change k c (apply_list l pages) = pages <-> apply_list l pages = pages /\ c = pages !! k) as Hsame.
    { split.
      - intros Hsame. assert (c = pages !! k) as Hck by (rewrite <- Hsame, lookup_apply_change; by rewrite decide_True).
        split; [|done]. apply map_eq. intros j. destruct (decide (k = j)) as [<-|Hne]; [by apply lookup_apply_list_other|].
        rewrite <- Hsame at 2. by rewrite lookup_apply_change, decide_False.
      - intros [-> ->]. apply map_eq. intros j. rewrite lookup_apply_change. by case_decide; subst. }
    destruct (pages !! k) as [old|] eqn:Eold, c as [new|].
    + case_bool_decide; subst; eexists; (split; [f_equal; f_equal; lia|]); naive_solver.
    + eexists. split; [f_equal; f_equal; lia|]. naive_solver.
    + eexists. split; [f_equal; f_equal; lia|]. naive_solver.
    + exists changed. split; [f_equal; f_equal; lia|]. naive_solver.
Qed.

(** Deriving finds that nothing changes, or makes the next manifest. *)
Lemma derive_next_state p v id m pages ws now :
  coherent p (vfs_disk v) -> State (vfs_disk v) id m pages ->
  derive_next p id ws now v =
    (if bool_decide (apply_changes ws pages = pages) then Ok None
     else Ok (Some (next_manifest id m pages ws now, manifest_id (next_manifest id m pages ws now)))).
Proof.
  intros Hc (n & Hs & Hd & Hn & Hcount). unfold derive_next. rewrite (fetch_on p v id m Hc (Stands_on _ _ _ _ _ Hs)), Hcount.
  destruct (count_changes p v id m n pages (ascending ws) false Hc Hs) as (changed & -> & Hch); [lia|apply ascending_NoDup|].
  rewrite apply_list_map, ascending_map in * by apply ascending_NoDup.
  case_bool_decide as Hsame.
  - assert (changed = false) as -> by (destruct changed; naive_solver). done.
  - assert (changed = true) as -> by naive_solver. simpl.
    unfold next_manifest. destruct (must_flatten m); [by rewrite (resolve_manifest_stands p v id m n pages Hc Hs) by lia|].
    by rewrite Z.max_l by lia.
Qed.

Definition grows (d d' : Disk) : Prop := d_manifests d ⊆ d_manifests d' /\ d_pages d ⊆ d_pages d'.

Lemma on_disk_grows d d' id m : grows d d' -> on_disk d id m -> on_disk d' id m.
Proof. intros [Hg _] [Hid Hm]. split; [done|]. by eapply lookup_weaken. Qed.

Lemma Stands_grows d d' id m n pages : grows d d' -> Stands d id m n pages -> Stands d' id m n pages.
Proof. intros Hg. induction 1; [eapply stands_flat|eapply stands_overlay]; eauto using on_disk_grows. Qed.

Lemma State_grows d d' id m pages : grows d d' -> State d id m pages -> State d' id m pages.
Proof. intros Hg (n & ? & ?). exists n. eauto using Stands_grows. Qed.

(** The next manifest, once it is on disk, stands for the base with the
    transaction applied. *)
Lemma next_manifest_state d id m pages ws now next :
  State d id m pages -> next = next_manifest id m pages ws now -> on_disk d (manifest_id next) next ->
  State d (manifest_id next) next (apply_changes ws pages) /\ parent next = Some id.
Proof.
  intros (n & Hs & Hd & Hn & Hcount) Hnext Hon. unfold next_manifest, must_flatten, MAX_OVERLAY_DEPTH in Hnext.
  destruct (Z.leb_spec 8 (depth m)); subst next; split; try done.
  - exists 0%nat. repeat split; [by eapply stands_flat|lia].
  - exists (S n). split; [by eapply stands_overlay|]. simpl. repeat split; lia.
Qed.

End pager.

(** * What collection keeps ([substrate-pager]: pager.rs, gc.rs)

    The walk over history and storage edges finds the manifests reachable from the
    roots; a sweep, complete or cut short, removes nothing they need. *)

Section gc.
Context `{Blake3} `{ManifestCodecLaws}.

(** Every manifest file holds a manifest, under its hash. *)
Definition store_ok (d : Disk) : Prop :=
  map_Forall (fun id bytes => exists m, bytes = manifest_encode m /\ manifest_id m = id) (d_manifests d).

Definition edge (d : Disk) (id id' : ManifestId) : Prop :=
  exists m, on_disk d id m /\ (parent m = Some id' \/ overlay_base m = Some id').

Lemma fetch_inv p v id m : store_ok (vfs_disk v) -> coherent p (vfs_disk v) -> fetch p id v = Ok m -> on_disk (vfs_disk v) id m.
Proof.
  intros Hs Hc. unfold fetch. destruct (cache p !! id) as [m'|] eqn:E; [intros [= <-]; by apply Hc|].
  unfold manifests_get, vfs_read. simpl. destruct (d_manifests (vfs_disk v) !! id) as [bytes|] eqn:Eb; [simpl|done].
  destruct (Hs id bytes Eb) as (m' & -> & Hid). rewrite manifest_roundtrip. rewrite bool_decide_eq_true_2 by done. intros [= <-]. by split.
Qed.

(** ** The walk *)

Definition stored (p : Pager) (v : Vfs) : gset ManifestId := dom (cache p) ∪ dom (d_manifests (vfs_disk v)).

Lemma fetch_stored p v id m : fetch p id v = Ok m -> id ∈ stored p v.
Proof.
  unfold fetch, stored, manifests_get, vfs_read. simpl. destruct (cache p !! id) eqn:E; [intros _; apply elem_of_union_l, elem_of_dom; eauto|].
  destruct (d_manifests (vfs_disk v) !! id) eqn:E'; [|done]. intros _. apply elem_of_union_r, elem_of_dom. eauto.
Qed.

(** What was walked is closed once the stack is empty. *)
Lemma reachable_from_ok p v fuel seen stack S :
  (length stack + 3 * size (stored p v ∖ seen) <= fuel)%nat ->
  reachable_from fuel p seen stack v = Ok S ->
  store_ok (vfs_disk v) -> coherent p (vfs_disk v) ->
  (forall id, id ∈ seen -> (exists m, on_disk (vfs_disk v) id m) /\ forall id', edge (vfs_disk v) id id' -> id' ∈ seen \/ id' ∈ stack) ->
  (forall id, id ∈ seen \/ id ∈ stack -> id ∈ S) /\
  (forall id, id ∈ S -> (exists m, on_disk (vfs_disk v) id m) /\ forall id', edge (vfs_disk v) id id' -> id' ∈ S) /\
  (forall id, id ∈ S -> id ∈ seen \/ exists root, root ∈ stack /\ rtc (edge (vfs_disk v)) root id).
Proof.
  intros Hf HS Hst Hc. revert seen stack Hf HS. induction fuel as [|fuel IH]; intros seen stack Hf HS Hseen;
    destruct stack as [|id stack]; simpl in HS; try (simpl in Hf; lia).
  1, 2: injection HS as <-; split; [intros ? [?|[]%elem_of_nil]; done|]; split; [|by left];
    intros id Hid; destruct (Hseen id Hid) as [Hm He]; split; [done|]; intros id' [?|[]%elem_of_nil]%He; done.
  case_bool_decide as Hin.
  - destruct (IH seen stack) as (H1' & H2' & H3'); [simpl in Hf; lia|done|..].
    { intros j Hj. destruct (Hseen j Hj) as [Hm He]. split; [done|]. intros j' [?|[->|?]%elem_of_cons]%He; auto. }
    split; [|split; [done|]].
    + intros j [?|[->|?]%elem_of_cons]; auto.
    + intros j Hj. destruct (H3' j Hj) as [?|(r & Hr & ?)]; [by left|right]. exists r. by split; [right|].
  - destruct (fetch p id v) as [m|] eqn:E; [|done].
    pose proof (fetch_inv p v id m Hst Hc E) as Hon. pose proof (fetch_stored p v id m E) as Hid.
    set (stack' := match overlay_base m with Some base => base :: match parent m with Some q => q :: stack | None => stack end
                   | None => match parent m with Some q => q :: stack | None => stack end end) in *.
    assert (forall j, j ∈ stack' <-> overlay_base m = Some j \/ parent m = Some j \/ j ∈ stack) as Hstack'.
    { intros j. unfold stack'. destruct (overlay_base m), (parent m); rewrite ?elem_of_cons; naive_solver. }
    assert (forall j, edge (vfs_disk v) id j <-> parent m = Some j \/ overlay_base m = Some j) as Hedge.
    { intros j. split; [|by exists m]. intros (m' & Hon' & He). by rewrite (on_disk_det _ _ _ _ Hon Hon'). }
    destruct (IH ({[id]} ∪ seen) stack') as (H1' & H2' & H3'); [| |..].
    + assert (stored p v ∖ seen = {[id]} ∪ stored p v ∖ ({[id]} ∪ seen)) as Hsplit.
      { apply set_eq. intros j. rewrite elem_of_union, !elem_of_difference, elem_of_union, elem_of_singleton.
        destruct (decide (j = id)); naive_solver. }
      rewrite Hsplit, size_union, size_singleton in Hf by set_solver.
      assert (length stack' <= 2 + length stack)%nat by (unfold stack'; destruct (overlay_base m), (parent m); simpl; lia).
      simpl in Hf. lia.
    + done.
    + intros j [->%elem_of_singleton|Hj]%elem_of_union.
      * split; [by exists m|]. intros j' [?|?]%Hedge; right; apply Hstack'; auto.
      * destruct (Hseen j Hj) as [Hm He]. split; [done|]. intros j' [?|[->|?]%elem_of_cons]%He; [left|left|right]; [set_solver..|].
        apply Hstack'. auto.
    + split; [|split; [done|]].
      * intros j [Hj|[->|Hj]%elem_of_cons]; apply H1'; [left; set_solver..|]. right. apply Hstack'. auto.
      * intros j Hj. destruct (H3' j Hj) as [[->%elem_of_singleton|?]%elem_of_union|(r & Hr & Hrtc)]; [|by left|].
        -- right. exists id. split; [by left|done].
        -- apply Hstack' in Hr as [Hr|[Hr|Hr]]; right.
           ++ exists id. split; [by left|]. eapply rtc_l; [apply Hedge; by right|done].
           ++ exists id. split; [by left|]. eapply rtc_l; [apply Hedge; by left|done].
           ++ exists r. split; [by right|done].
Qed.

Lemma reachable_manifests_ok p v roots S :
  store_ok (vfs_disk v) -> coherent p (vfs_disk v) -> reachable_manifests p roots v = Ok S ->
  forall id, id ∈ S <-> exists root, root ∈ roots /\ rtc (edge (vfs_disk v)) root id.
Proof.
  intros Hst Hc HS. destruct (reachable_from_ok p v (walk_fuel p roots v) ∅ (rev roots) S) as (H1' & H2' & H3'); [|done..|set_solver|].
  - unfold walk_fuel. rewrite length_rev, difference_empty_L.
    assert (size (stored p v) <= size (cache p) + size (d_manifests (vfs_disk v)))%nat; [|lia].
    unfold stored. rewrite <- !size_dom. rewrite size_union_alt.
    apply Nat.add_le_mono_l, subseteq_size. set_solver.
  - intros id. split.
    + intros Hid. destruct (H3' id Hid) as [[]%elem_of_empty|(r & Hr & ?)]. exists r. split; [|done].
      by apply list_elem_of_In, in_rev, list_elem_of_In.
    + intros (r & Hr & Hrtc). assert (r ∈ S) as HrS.
      { apply H1'. right. by apply list_elem_of_In, in_rev; rewrite rev_involutive; apply list_elem_of_In. }
      clear Hr. induction Hrtc as [|r x y Hxy _ IH]; [done|]. apply IH. by eapply H2'.
Qed.

(** ** The sweep *)

(** What is left of [d] in [d'], where nothing of [ms] and [ps] may go. *)
Definition spared (ms : gset ManifestId) (ps : gset PageId) (d d' : Disk) : Prop :=
  d_segments d' = d_segments d /\ d_marker d' = d_marker d /\
  (forall id, d_manifests d' !! id = d_manifests d !! id \/ (~ (id ∈ ms) /\ d_manifests d' !! id = None)) /\
  (forall id, d_pages d' !! id = d_pages d !! id \/ (~ (id ∈ ps) /\ d_pages d' !! id = None)).

Lemma spared_refl ms ps d : spared ms ps d d.
Proof. repeat split; auto. Qed.

Lemma spared_trans ms ps d d' d'' : spared ms ps d d' -> spared ms ps d' d'' -> spared ms ps d d''.
Proof.
  intros (Hs & Hk & Hm & Hp) (Hs' & Hk' & Hm' & Hp'). split; [congruence|]. split; [congruence|]. split; intros id.
  - destruct (Hm' id) as [->|]; auto.
  - destruct (Hp' id) as [->|]; auto.
Qed.

Lemma spared_page ms ps d id : id ∉ ps -> spared ms ps d (file_remove d (PagePath id)).
Proof.
  intros Hid. repeat split; simpl; auto. intros j. destruct (decide (id = j)) as [<-|]; [right|left]; by simplify_map_eq.
Qed.

Lemma spared_manifest ms ps d id : id ∉ ms -> spared ms ps d (file_remove d (ManifestPath id)).
Proof.
  intros Hid. repeat split; simpl; auto. intros j. destruct (decide (id = j)) as [<-|]; [right|left]; by simplify_map_eq.
Qed.

Lemma sweep_pages_spares ms live ids stats v : exists v' r,
  sweep_pages live ids stats v = (v', r) /\ spared ms live (vfs_disk v) (vfs_disk v') /\
  d_manifests (vfs_disk v') = d_manifests (vfs_disk v) /\ (healthy v -> healthy v' /\ is_ok r = true) /\
  (is_ok r = true -> forall id, id ∈ ids -> id ∉ live -> d_pages (vfs_disk v') !! id = None) /\
  (crashed v = true -> crashed v' = true) /\ (is_ok r = false -> crashed v' = true).
Proof.
  revert stats v. induction ids as [|id ids IH]; intros stats v; simpl.
  { eexists _, _. split; [done|]. split; [apply spared_refl|]. do 2 (split; [by auto|]). split; [|by auto]. by intros _ ? []%elem_of_nil. }
  case_bool_decide as Hin.
  - edestruct IH as (v' & r & -> & Hsp & Hm & Hh & Hg & Hc). eexists _, _. split; [done|]. do 3 (split; [done|]). split; [|done].
    intros Hr j [->|?]%elem_of_cons Hj; [done|auto].
  - destruct (remove_file_cases (PagePath id) v) as (v1 & r1 & -> & Hc1 & Hh1 & Hr1). destruct r1 as [[]|e].
    + match goal with |- context [sweep_pages live ids ?s v1] => destruct (IH s v1) as (v' & r & -> & Hsp & Hm & Hh & Hg & Hc) end. eexists _, _. split; [done|].
      rewrite Hr1 in Hsp, Hm. split; [eapply spared_trans; [by apply spared_page|done]|]. split; [done|].
      split; [intros Hv; by apply Hh, Hh1|]. split; [|split; [naive_solver|apply Hc]].
      intros Hr j [->|?]%elem_of_cons Hj; [|by auto]. destruct Hsp as (_ & _ & _ & Hp).
      destruct (Hp id) as [->|[_ ->]]; [simpl; by rewrite lookup_delete_eq|done].
    + destruct Hr1 as [Hd Hcr]. eexists _, _. split; [done|]. rewrite Hd. split; [apply spared_refl|]. split; [done|].
      split; [intros Hv; by destruct (Hh1 Hv)|]. split; [done|]. by auto.
Qed.

Lemma coherent_forget p d id ms ps :
  coherent p d -> id ∉ ms -> coherent (cache_forget id p) (file_remove d (ManifestPath id)) /\ spared ms ps d (file_remove d (ManifestPath id)).
Proof.
  intros Hc Hid. split; [|by apply spared_manifest]. intros j m. simpl. rewrite lookup_delete_Some. intros [Hne Hj].
  destruct (Hc j m Hj) as [? ?]. split; [done|]. simpl. by rewrite lookup_delete_ne.
Qed.

Lemma sweep_manifests_spares ps reachable ids stats p v : coherent p (vfs_disk v) -> exists v' p' r,
  sweep_manifests reachable ids stats p v = (v', p', r) /\ spared reachable ps (vfs_disk v) (vfs_disk v') /\
  d_pages (vfs_disk v') = d_pages (vfs_disk v) /\ (healthy v -> healthy v' /\ is_ok r = true) /\
  (is_ok r = true -> forall id, id ∈ ids -> id ∉ reachable -> d_manifests (vfs_disk v') !! id = None) /\
  coherent p' (vfs_disk v') /\ p_head p' = p_head p /\ pins p' = pins p /\ config p' = config p /\
  (crashed v = true -> crashed v' = true) /\ (is_ok r = false -> crashed v' = true).
Proof.
  revert stats p v. induction ids as [|id ids IH]; intros stats p v Hc; simpl.
  { eexists _, _, _. split; [done|]. split; [apply spared_refl|]. do 2 (split; [by auto|]). split; [by intros _ ? []%elem_of_nil|]. by auto 10. }
  case_bool_decide as Hin.
  - edestruct IH as (v' & p' & r & -> & Hsp & Hm & Hh & Hg & Hrest); [done|]. eexists _, _, _. split; [done|].
    do 3 (split; [done|]). split; [|done]. intros Hr j [->|?]%elem_of_cons Hj; [done|auto].
  - destruct (remove_file_cases (ManifestPath id) v) as (v1 & r1 & -> & Hc1 & Hh1 & Hr1). destruct r1 as [[]|e].
    + destruct (coherent_forget p (vfs_disk v) id reachable ps Hc Hin) as [Hcoh Hsp1]. rewrite <- Hr1 in Hcoh, Hsp1.
      match goal with |- context [sweep_manifests reachable ids ?s (cache_forget id p) v1] =>
        destruct (IH s (cache_forget id p) v1 Hcoh) as (v' & p' & r & -> & Hsp & Hm & Hh & Hg & Hcp & Hhd & Hpin & Hcfg & Hmono & Herr) end.
      eexists _, _, _. split; [done|]. split; [by eapply spared_trans|]. split; [by rewrite Hm, Hr1|].
      split; [intros Hv; by apply Hh, Hh1|]. split; [|by auto 10].
      intros Hr j [->|?]%elem_of_cons Hj; [|by auto]. destruct Hsp as (_ & _ & Hp & _).
      destruct (Hp id) as [->|[_ ->]]; [rewrite Hr1; simpl; by rewrite lookup_delete_eq|done].
    + destruct Hr1 as [Hd Hcr]. eexists _, _, _. split; [done|]. rewrite Hd. split; [apply spared_refl|]. split; [done|].
      split; [intros Hv; by destruct (Hh1 Hv)|]. by split_and!; auto.
Qed.

(** ** A collection *)

Definition reaches (d : Disk) (live : list ManifestId) (id : ManifestId) : Prop := exists root, root ∈ live /\ rtc (edge d) root id.

Lemma reaches_edge d live id id' : reaches d live id -> edge d id id' -> reaches d live id'.
Proof. intros (root & Hr & Hrtc) He. exists root. split; [done|]. by eapply rtc_r. Qed.

Lemma elem_of_values (pages : PageMap) i : i ∈ (list_to_set (map_to_list pages).*2 : gset PageId) <-> exists k, pages !! k = Some i.
Proof.
  rewrite elem_of_list_to_set, list_elem_of_fmap. split.
  - intros ([k j] & -> & Hin%elem_of_map_to_list). by exists k.
  - intros [k Hk]. exists (k, i). split; [done|]. by apply elem_of_map_to_list.
Qed.

Lemma live_pages_spec p v ids acc live :
  try_fold (add_live p v) acc ids = Ok live ->
  forall i, i ∈ live <-> i ∈ acc \/ exists id pages k, id ∈ ids /\ resolve p id v = Ok pages /\ pages !! k = Some i.
Proof.
  revert acc. induction ids as [|id ids IH]; intros acc Hf i; simpl in Hf.
  { injection Hf as <-. split; [by left|]. intros [?|(? & ? & ? & []%elem_of_nil & _)]; done. }
  unfold add_live in Hf at 1. destruct (resolve p id v) as [pages|] eqn:E; [|done]. rewrite (IH _ Hf i), elem_of_union, elem_of_values.
  split.
  - intros [[[k Hk]|?]|(j & pg & k & Hj & ? & ?)]; [right; exists id, pages, k; split; [by left|done]|by left|].
    right. exists j, pg, k. split; [by right|done].
  - intros [?|(j & pg & k & [->|Hj]%elem_of_cons & Ej & Hk)]; [by left; right| |right; by exists j, pg, k].
    left. left. exists k. congruence.
Qed.

Lemma Stands_spared d d' ms ps live id m n pages :
  spared ms ps d d' -> (forall j, reaches d live j -> j ∈ ms) -> reaches d live id -> Stands d id m n pages -> Stands d' id m n pages.
Proof.
  intros (_ & _ & Hm & _) Hms Hid Hs.
  assert (forall j mj, reaches d live j -> on_disk d j mj -> on_disk d' j mj) as Hkeep.
  { intros j mj Hj [Hidj Hb]. split; [done|]. destruct (Hm j) as [->|[Hno _]]; [done|]. by destruct (Hno (Hms j Hj)). }
  induction Hs as [id m pages Hon Hb|id m base ch bm n pages Hon Hb Hs IH]; [by eapply stands_flat; eauto|].
  eapply stands_overlay; [by eauto|done|]. apply IH. eapply reaches_edge; [done|]. exists m. split; [done|]. right. unfold overlay_base. by rewrite Hb.
Qed.

(** A collection that succeeds on what is reachable. *)
Lemma gc_runs live p v :
  store_ok (vfs_disk v) -> coherent p (vfs_disk v) ->
  match gc live p v with
  | (v', p', r) =>
      coherent p' (vfs_disk v') /\ p_head p' = p_head p /\ pins p' = pins p /\ config p' = config p /\
      (crashed v = true -> crashed v' = true) /\
      ((v' = v /\ p' = p /\ is_ok r = false /\
          forall S, reachable_manifests p live v = Ok S -> is_ok (try_fold (add_live p v) ∅ (elements S)) = false) \/
       exists S live_pages, reachable_manifests p live v = Ok S /\ try_fold (add_live p v) ∅ (elements S) = Ok live_pages /\
         spared S (live_pages ∪ dom (pins p)) (vfs_disk v) (vfs_disk v') /\ (healthy v -> healthy v' /\ is_ok r = true) /\
         (is_ok r = false -> crashed v' = true) /\
         (is_ok r = true -> (forall id, id ∉ S -> d_manifests (vfs_disk v') !! id = None) /\
                            (forall i, i ∉ live_pages ∪ dom (pins p) -> d_pages (vfs_disk v') !! i = None)))
  end.
Proof.
  intros Hst Hc. unfold gc. destruct (reachable_manifests p live v) as [S|e] eqn:ES; [|do 5 (split; [done|]); left; by split_and!].
  destruct (try_fold (add_live p v) ∅ (elements S)) as [lp|e] eqn:EL.
  2: { do 5 (split; [done|]). left. do 3 (split; [done|]). intros S' [= <-]. by rewrite EL. }
  destruct (sweep_pages_spares S (lp ∪ dom (pins p)) (cas_list v) (mkGcStats 0 0 0 0) v) as (v1 & r1 & -> & Hsp1 & Hm1 & Hh1 & Hg1 & Hc1 & He1).
  assert (coherent p (vfs_disk v1)) as Hcoh1 by (intros j m Hj; destruct (Hc j m Hj) as [? ?]; split; [done|]; by rewrite Hm1).
  destruct r1 as [stats|e].
  - destruct (sweep_manifests_spares (lp ∪ dom (pins p)) S (manifests_list v1) stats p v1 Hcoh1) as (v2 & p2 & r2 & -> & Hsp2 & Hm2 & Hh2 & Hg2 & Hcoh2 & Hhd & Hpin & Hcfg & Hc2 & He2).
    do 4 (split; [done|]). split; [by auto|]. right. exists S, lp. do 2 (split; [done|]). split; [by eapply spared_trans|].
    split; [intros Hv; by apply Hh2, Hh1|]. split; [done|]. intros Hr. split.
    + intros id Hid. destruct (d_manifests (vfs_disk v1) !! id) as [b|] eqn:E.
      * apply (Hg2 Hr id); [|done]. apply list_elem_of_fmap. exists (id, b). split; [done|]. by apply elem_of_map_to_list.
      * destruct Hsp2 as (_ & _ & Hsp2 & _). destruct (Hsp2 id) as [->|[_ ->]]; done.
    + intros i Hi. rewrite Hm2. destruct (d_pages (vfs_disk v) !! i) as [b|] eqn:E.
      * apply (Hg1 eq_refl i); [|done]. apply list_elem_of_fmap. exists (i, b). split; [done|]. by apply elem_of_map_to_list.
      * destruct Hsp1 as (_ & _ & _ & Hsp1). destruct (Hsp1 i) as [->|[_ ->]]; done.
  - do 4 (split; [done|]). split; [done|]. right. exists S, lp. do 3 (split; [done|]). split; [intros Hv; by destruct (Hh1 Hv)|]. by split; auto.
Qed.

(** What collection keeps, and that it keeps nothing else. *)
Lemma gc_keeps live p v v' p' r :
  store_ok (vfs_disk v) -> coherent p (vfs_disk v) -> gc live p v = (v', p', r) ->
  (forall id m pages, reaches (vfs_disk v) live id -> State (vfs_disk v) id m pages ->
     State (vfs_disk v') id m pages /\ forall k i, pages !! k = Some i -> d_pages (vfs_disk v') !! i = d_pages (vfs_disk v) !! i) /\
  (forall i, is_Some (pins p !! i) -> d_pages (vfs_disk v') !! i = d_pages (vfs_disk v) !! i) /\
  (is_ok r = true ->
     (forall id, is_Some (d_manifests (vfs_disk v') !! id) -> reaches (vfs_disk v) live id) /\
     (forall i, is_Some (d_pages (vfs_disk v') !! i) -> is_Some (pins p !! i) \/
        exists id pages k, reaches (vfs_disk v) live id /\ resolve p id v = Ok pages /\ pages !! k = Some i)).
Proof.
  intros Hst Hc E. pose proof (gc_runs live p v Hst Hc) as Hg. rewrite E in Hg.
  destruct Hg as (_ & _ & _ & _ & _ & [(-> & -> & Hr & _)|(S & lp & HS & HL & Hsp & _ & _ & Hexact)]); [by rewrite Hr|].
  pose proof (reachable_manifests_ok p v live S Hst Hc HS) as HSr. pose proof (live_pages_spec p v _ _ _ HL) as HLp.
  split; [|split].
  - intros id m pages Hid (n & Hs & Hd & Hn & Hcnt). split.
    + exists n. split; [|done]. eapply Stands_spared; [done|intros j; apply HSr|done..].
    + intros k i Hk. destruct Hsp as (_ & _ & _ & Hp). destruct (Hp i) as [?|[Hno _]]; [done|]. destruct Hno. apply elem_of_union_l, HLp.
      right. exists id, pages, k. split; [by apply elem_of_elements, HSr|]. split; [apply (resolve_stands p v id m n); [done..|lia]|done].
  - intros i Hi%elem_of_dom. destruct Hsp as (_ & _ & _ & Hp). destruct (Hp i) as [?|[Hno _]]; [done|]. destruct Hno. by apply elem_of_union_r.
  - intros Hr. destruct (Hexact Hr) as [Hem Hep]. split.
    + intros id [b Hb]. apply HSr. destruct (decide (id ∈ S)) as [|Hno]; [done|]. rewrite Hem in Hb; done.
    + intros i [b Hb]. destruct (decide (i ∈ lp ∪ dom (pins p))) as [Hi|Hno]; [|rewrite Hep in Hb; done].
      apply elem_of_union in Hi as [Hi|Hi]; [right|left; by apply elem_of_dom].
      apply HLp in Hi as [[]%elem_of_empty|(id & pages & k & Hid & ? & ?)]. exists id, pages, k. split; [|done]. apply HSr. set_solver.
Qed.
End gc.
