(* ===== verification/Wal.v ===== *)
(** * The write-ahead log and the durable store ([substrate-wal]: record.rs, wal.rs, lib.rs, error.rs)

    Records framed by length and checksum, segments of the log, the commit
    protocol, checkpoints, and recovery by replay; the store that puts a pager and
    a log together.

    Its later part: frames, segments and what a replay reads ([substrate-wal]:
    record.rs, wal.rs). *)

From Stdlib Require Import ZArith NArith Lia Sorted.
From stdpp Require Import base list gmap strings.
From S2P Require Import Prelude BTree Codec Text Vfs Pager PagerCorrect.

(** ** Records *)

Inductive RecordKind :=
| KWrite (page_no : Z) (page : option PageId)
| KCommit (manifest : ManifestId) (created_at_ms : Z)
| KCheckpoint (manifest : ManifestId).

Record Record_ := mkRecord { lsn : Z; kind : RecordKind }.

Inductive WalError :=
| ReplayDiverged (at_lsn : Z) (expected actual : text)
| RecoveryFailed (what : text) (e : PagerError)
| RecordTooLarge (actual max : Z)
| WalPager (e : PagerError)
| WalIo (path : Path) (source : IoError).

(** The third-party serialisation of a record, and the checksum. *)
Class RecordCodec := {
  record_serialize : Record_ -> list N;
  record_deserialize : list N -> option Record_;
  crc32c : list N -> Z;
}.

Definition MAX_RECORD_BYTES : Z := 16 * 1024 * 1024.
Definition FRAME_HEADER_BYTES : Z := 8.

Definition le_bytes (n : nat) (v : Z) : list N := rev (be_bytes n v).
Definition from_le_bytes (l : list N) : Z := from_be_bytes (rev l).

Inductive ReadOutcome := ReadRecord (record : Record_) (consumed : Z) | Torn.

Section records.
Context `{RecordCodec}.

Definition encode_record (r : Record_) : result WalError (list N) :=
  let payload := record_serialize r in
  if MAX_RECORD_BYTES <? Z.of_nat (length payload) then Err (RecordTooLarge (Z.of_nat (length payload)) MAX_RECORD_BYTES)
  else Ok (le_bytes 4 (Z.of_nat (length payload)) ++ le_bytes 4 (crc32c payload) ++ payload).

Definition decode_record (bytes : list N) : ReadOutcome :=
  if Z.of_nat (length bytes) <? FRAME_HEADER_BYTES then Torn
  else
    let len := from_le_bytes (take 4 bytes) in
    let expected := from_le_bytes (take 4 (drop 4 bytes)) in
    if (len =? 0) || (MAX_RECORD_BYTES <? len) then Torn
    else
      let stop := FRAME_HEADER_BYTES + len in
      if Z.of_nat (length bytes) <? stop then Torn
      else
        let payload := take (Z.to_nat len) (drop 8 bytes) in
        if negb (crc32c payload =? expected) then Torn
        else match record_deserialize payload with Some r => ReadRecord r stop | None => Torn end.

End records.

(** ** The log *)

Definition SEGMENT_TARGET_BYTES : Z := 4 * 1024 * 1024.

Record Recovery := mkRecovery {
  committed_txns : Z;
  records_replayed : Z;
  torn_tail : bool;
  uncommitted_writes_discarded : Z;
  durable_lsn : Z;
}.

Record Wal := mkWal { current : Z; current_bytes : Z; next_lsn : Z }.

Definition segments_in (v : Vfs) : list Z := bt_keys (d_segments (vfs_disk v)).

Definition wal_open (v : Vfs) : result WalError Wal :=
  match vfs_create_dir_all v with
  | Err e => Err (WalIo CheckpointPath e)
  | Ok _ =>
      let segments := segments_in v in
      let current := default 0 (last segments) in
      let current_bytes := match vfs_read (SegmentPath current) v with Ok b => Z.of_nat (length b) | Err _ => 0 end in
      Ok (mkWal current (match segments with [] => 0 | _ => current_bytes end) 0)
  end.

Section wal.
Context `{Blake3} `{ManifestCodec} `{RecordCodec}.

(** The frames of the records, one after the other. *)
Fixpoint encode_all (records : list Record_) : result WalError (list N) :=
  match records with
  | [] => Ok []
  | r :: records => let? frame := encode_record r in let? rest := encode_all records in Ok (frame ++ rest)
  end.

(** One append is one write to the current segment, which is sealed after. *)
Definition wal_append (records : list Record_) (w : Wal) (v : Vfs) : Vfs * Wal * result WalError unit :=
  match encode_all records with
  | Err e => (v, w, Err e)
  | Ok buf =>
      match vfs_append (SegmentPath (current w)) buf v with
      | (v, Err e) => (v, w, Err (WalIo (SegmentPath (current w)) e))
      | (v, Ok _) =>
          let bytes := current_bytes w + Z.of_nat (length buf) in
          (v, if SEGMENT_TARGET_BYTES <=? bytes then mkWal (current w + 1) 0 (next_lsn w) else mkWal (current w) bytes (next_lsn w), Ok tt)
      end
  end.

Definition take_lsn (w : Wal) : Wal * Z := (mkWal (current w) (current_bytes w) (next_lsn w + 1), next_lsn w).

(** A record per page, numbered from the next LSN on. *)
Fixpoint write_records (ws : list (Z * option PageId)) (w : Wal) : Wal * list Record_ :=
  match ws with
  | [] => (w, [])
  | (page_no, page) :: ws =>
      let '(w, n) := take_lsn w in
      let '(w, rest) := write_records ws w in
      (w, mkRecord n (KWrite page_no page) :: rest)
  end.

Definition wal_commit (ws : PageChanges) (manifest : ManifestId) (now : Z) (w : Wal) (v : Vfs) : Vfs * Wal * result WalError Z :=
  let '(w, records) := write_records (ascending ws) w in
  let '(w, commit_lsn) := take_lsn w in
  let '(v, w, r) := wal_append (records ++ [mkRecord commit_lsn (KCommit manifest now)]) w v in
  (v, w, map_ok (fun _ => commit_lsn) r).

Fixpoint remove_segments (keep_from : Z) (segments : list Z) (v : Vfs) : Vfs * result WalError unit :=
  match segments with
  | [] => (v, Ok tt)
  | n :: segments =>
      if n <? keep_from then
        match vfs_remove_file (SegmentPath n) v with
        | (v, Err e) => (v, Err (WalIo (SegmentPath n) e))
        | (v, Ok _) => remove_segments keep_from segments v
        end
      else remove_segments keep_from segments v
  end.

Definition truncate_segments_before (keep_from : Z) (v : Vfs) : Vfs * result WalError unit :=
  remove_segments keep_from (segments_in v) v.

Definition wal_checkpoint (manifest : ManifestId) (w : Wal) (v : Vfs) : Vfs * Wal * result WalError Z :=
  let '(w, n) := take_lsn w in
  match wal_append [mkRecord n (KCheckpoint manifest)] w v with
  | (v, w, Err e) => (v, w, Err e)
  | (v, w, Ok _) =>
      match encode_record (mkRecord n (KCheckpoint manifest)) with
      | Err e => (v, w, Err e)
      | Ok marker =>
          match vfs_atomic_write CheckpointPath marker v with
          | (v, Err e) => (v, w, Err (WalIo CheckpointPath e))
          | (v, Ok _) => let '(v, r) := truncate_segments_before (current w) v in (v, w, map_ok (fun _ => n) r)
          end
      end
  end.

(** ** Recovery *)

Definition read_checkpoint (v : Vfs) : result WalError (option (ManifestId * Z)) :=
  if negb (vfs_exists CheckpointPath v) then Ok None
  else
    let? bytes := map_err (WalIo CheckpointPath) (vfs_read CheckpointPath v) in
    match decode_record bytes with
    | ReadRecord (mkRecord n (KCheckpoint manifest)) _ => Ok (Some (manifest, n))
    | _ => Ok None
    end.

(** Where a replay stands. *)
Record Replay := mkReplay {
  r_vfs : Vfs;
  r_pager : Pager;
  r_wal : Wal;
  r_recovery : Recovery;
  r_head : ManifestId;
  r_pending : PageChanges;
}.

Definition count_replayed (r : Recovery) : Recovery :=
  mkRecovery (committed_txns r) (records_replayed r + 1) (torn_tail r) (uncommitted_writes_discarded r) (durable_lsn r).
Definition count_committed (n : Z) (r : Recovery) : Recovery :=
  mkRecovery (committed_txns r + 1) (records_replayed r) (torn_tail r) (uncommitted_writes_discarded r) n.
Definition durable_through (n : Z) (r : Recovery) : Recovery :=
  mkRecovery (committed_txns r) (records_replayed r) (torn_tail r) (uncommitted_writes_discarded r) n.
Definition tear_found (r : Recovery) : Recovery :=
  mkRecovery (committed_txns r) (records_replayed r) true (uncommitted_writes_discarded r) (durable_lsn r).
Definition discarded (n : Z) (r : Recovery) : Recovery :=
  mkRecovery (committed_txns r) (records_replayed r) (torn_tail r) n (durable_lsn r).

Definition at_lsn_text (what : string) (n : Z) (rest : string) : text := tx what ++ dec n ++ tx rest.

Definition replay_commit (n : Z) (manifest : ManifestId) (now : Z) (st : Replay) : Replay * result WalError unit :=
  let base := r_head st in
  match derive_next (r_pager st) base (r_pending st) now (r_vfs st) with
  | Err e => (st, Err (RecoveryFailed (at_lsn_text "replaying commit at lsn " n "") e))
  | Ok (Some (next, id)) =>
      if bool_decide (id = manifest) then
        match install next (r_pager st) (r_vfs st) with
        | (v, p, Err e) => (mkReplay v p (r_wal st) (r_recovery st) base (r_pending st), Err (RecoveryFailed (at_lsn_text "installing manifest at lsn " n "") e))
        | (v, p, Ok _) => (mkReplay v p (r_wal st) (count_committed n (r_recovery st)) id ∅, Ok tt)
        end
      else (st, Err (ReplayDiverged n (to_hex manifest) (to_hex id)))
  | Ok None => (mkReplay (r_vfs st) (r_pager st) (r_wal st) (durable_through n (r_recovery st)) base ∅, Ok tt)
  end.

Definition replay_checkpoint (n : Z) (manifest : ManifestId) (st : Replay) : Replay * result WalError unit :=
  match set_head_to manifest (r_pager st) (r_vfs st) with
  | (p, Err e) => (st, Err (RecoveryFailed (at_lsn_text "checkpoint at lsn " n " unusable") e))
  | (p, Ok _) => (mkReplay (r_vfs st) p (r_wal st) (durable_through n (r_recovery st)) manifest ∅, Ok tt)
  end.

Definition replay_record (captured : option Z) (r : Record_) (st : Replay) : Replay * result WalError unit :=
  let w := r_wal st in
  let w := mkWal (current w) (current_bytes w) (Z.max (next_lsn w) (lsn r + 1)) in
  let st := mkReplay (r_vfs st) (r_pager st) w (r_recovery st) (r_head st) (r_pending st) in
  if match captured with Some cp => lsn r <=? cp | None => false end then (st, Ok tt)
  else
    let st := mkReplay (r_vfs st) (r_pager st) w (count_replayed (r_recovery st)) (r_head st) (r_pending st) in
    match kind r with
    | KWrite page_no page => (mkReplay (r_vfs st) (r_pager st) w (r_recovery st) (r_head st) (<[page_no := page]> (r_pending st)), Ok tt)
    | KCommit manifest now => replay_commit (lsn r) manifest now st
    | KCheckpoint manifest => replay_checkpoint (lsn r) manifest st
    end.

(** The end of a segment: a torn tail is cut off. *)
Definition end_segment (segment offset len : Z) (st : Replay) : Replay * result WalError unit :=
  let w := mkWal segment offset (next_lsn (r_wal st)) in
  if offset <? len then
    match vfs_truncate (SegmentPath segment) offset (r_vfs st) with
    | (v, Err e) => (mkReplay v (r_pager st) (r_wal st) (tear_found (r_recovery st)) (r_head st) (r_pending st), Err (WalIo (SegmentPath segment) e))
    | (v, Ok _) => (mkReplay v (r_pager st) w (tear_found (r_recovery st)) (r_head st) (r_pending st), Ok tt)
    end
  else (mkReplay (r_vfs st) (r_pager st) w (r_recovery st) (r_head st) (r_pending st), Ok tt).

(** The records of a segment from [offset] on, where [rest] are its bytes; every
    record takes bytes, so the length of the segment is fuel enough
    ([Wal.replay_bytes_frames]). *)
Fixpoint replay_bytes (fuel : nat) (captured : option Z) (segment offset len : Z) (rest : list N) (st : Replay) : Replay * result WalError unit :=
  match decode_record rest with
  | Torn => end_segment segment offset len st
  | ReadRecord r consumed =>
      match fuel with
      | O => (st, Ok tt)
      | S fuel =>
          match replay_record captured r st with
          | (st, Err e) => (st, Err e)
          | (st, Ok _) => replay_bytes fuel captured segment (offset + consumed) len (drop (Z.to_nat consumed) rest) st
          end
      end
  end.

Definition replay_segment (captured : option Z) (segment : Z) (st : Replay) : Replay * result WalError unit :=
  match vfs_read (SegmentPath segment) (r_vfs st) with
  | Err e => (st, Err (WalIo (SegmentPath segment) e))
  | Ok bytes => replay_bytes (S (length bytes)) captured segment 0 (Z.of_nat (length bytes)) bytes st
  end.

Fixpoint replay_segments (captured : option Z) (segments : list Z) (st : Replay) : Replay * result WalError unit :=
  match segments with
  | [] => (st, Ok tt)
  | segment :: segments =>
      match replay_segment captured segment st with
      | (st, Err e) => (st, Err e)
      | (st, Ok _) => replay_segments captured segments st
      end
  end.

(** The base of a replay: the checkpoint, or the empty root. *)
Definition replay_base (p : Pager) (w : Wal) (v : Vfs) : Vfs * Pager * Wal * result WalError (ManifestId * option Z) :=
  match read_checkpoint v with
  | Err e => (v, p, w, Err e)
  | Ok (Some (manifest, n)) =>
      match set_head_to manifest p v with
      | (p, Err e) => (v, p, w, Err (RecoveryFailed (tx "checkpoint manifest unusable") e))
      | (p, Ok _) => (v, p, mkWal (current w) (current_bytes w) (n + 1), Ok (manifest, Some n))
      end
  | Ok None =>
      match root_manifest p v with
      | (v, Err e) => (v, p, w, Err (WalPager e))
      | (v, Ok root) =>
          match set_head_to root p v with
          | (p, Err e) => (v, p, w, Err (RecoveryFailed (tx "root manifest unusable") e))
          | (p, Ok _) => (v, p, w, Ok (root, None))
          end
      end
  end.

Definition wal_recover (p : Pager) (w : Wal) (v : Vfs) : Vfs * Pager * Wal * result WalError Recovery :=
  match replay_base p w v with
  | (v, p, w, Err e) => (v, p, w, Err e)
  | (v, p, w, Ok (head, captured)) =>
      match replay_segments captured (segments_in v) (mkReplay v p w (mkRecovery 0 0 false 0 0) head ∅) with
      | (st, Err e) => (r_vfs st, r_pager st, r_wal st, Err e)
      | (st, Ok _) =>
          let recovery := discarded (Z.of_nat (size (r_pending st))) (r_recovery st) in
          match set_head_to (r_head st) (r_pager st) (r_vfs st) with
          | (p, Err e) => (r_vfs st, p, r_wal st, Err (RecoveryFailed (tx "final head unusable") e))
          | (p, Ok _) => (r_vfs st, p, r_wal st, Ok recovery)
          end
      end
  end.

(** ** The durable store *)

Record DurableStore := mkStore { s_pager : Pager; s_wal : Wal }.

Definition store_open (cfg : StoreConfig) (v : Vfs) : Vfs * result WalError DurableStore :=
  match open_with cfg v with
  | (v, Err e) => (v, Err (WalPager e))
  | (v, Ok p) => (v, let? w := wal_open v in Ok (mkStore p w))
  end.

Definition store_recover (s : DurableStore) (v : Vfs) : Vfs * DurableStore * result WalError Recovery :=
  let '(v, p, w, r) := wal_recover (s_pager s) (s_wal s) v in (v, mkStore p w, r).

Definition store_write (page_no : Z) (bytes : list N) (t : Txn) (s : DurableStore) (v : Vfs) : Vfs * DurableStore * Txn * result WalError PageId :=
  let '(v, p, t, r) := write page_no bytes t (s_pager s) v in (v, mkStore p (s_wal s), t, map_err WalPager r).

(** The commit point is the append; the manifest is installed after it. *)
Definition store_commit (t : Txn) (now : Z) (s : DurableStore) (v : Vfs) : Vfs * DurableStore * result WalError ManifestId :=
  let p := s_pager s in
  match derive_next p (txn_base t) (writes t) now v with
  | Err e => (v, mkStore (drop_txn t p) (s_wal s), Err (WalPager e))
  | Ok None => (v, mkStore (drop_txn t p) (s_wal s), Ok (txn_base t))
  | Ok (Some (manifest, id)) =>
      match wal_commit (writes t) id now (s_wal s) v with
      | (v, w, Err e) => (v, mkStore (drop_txn t p) w, Err e)
      | (v, w, Ok _) =>
          match install manifest p v with
          | (v, p, Err e) => (v, mkStore (drop_txn t p) w, Err (WalPager e))
          | (v, p, Ok _) => (v, mkStore (drop_txn t p) w, Ok id)
          end
      end
  end.

Definition store_checkpoint (s : DurableStore) (v : Vfs) : Vfs * DurableStore * result WalError Z :=
  let '(v, w, r) := wal_checkpoint (p_head (s_pager s)) (s_wal s) v in (v, mkStore (s_pager s) w, r).

End wal.

(** * Frames, segments and what a replay reads ([substrate-wal]: record.rs, wal.rs)

    A frame reads back whatever follows it, and a frame cut at any byte reads as
    torn.  So the bytes a crash leaves of a list of records are a prefix of the
    records and a torn tail, and replaying a segment is replaying its records. *)

(** What the serialisation of a record promises; a record is a few words. *)
Class RecordCodecLaws `{RecordCodec} := {
  record_roundtrip r : record_deserialize (record_serialize r) = Some r;
  record_length r : 0 < Z.of_nat (length (record_serialize r)) <= MAX_RECORD_BYTES;
  crc32c_range l : 0 <= crc32c l < 2 ^ 32;
}.

Lemma from_le_le_bytes n v : from_le_bytes (le_bytes n v) = v mod 256 ^ Z.of_nat n.
Proof. unfold from_le_bytes, le_bytes. rewrite rev_involutive. apply from_be_be_bytes. Qed.

Lemma le_bytes_length n v : length (le_bytes n v) = n.
Proof. unfold le_bytes. rewrite length_rev. apply be_bytes_length. Qed.

Section frames.
Context `{RecordCodecLaws}.

Definition wframe (r : Record_) : list N :=
  let payload := record_serialize r in le_bytes 4 (Z.of_nat (length payload)) ++ le_bytes 4 (crc32c payload) ++ payload.

Definition frames (rs : list Record_) : list N := flat_map wframe rs.

Lemma wframe_length r : length (wframe r) = (8 + length (record_serialize r))%nat.
Proof. unfold wframe. rewrite !length_app, !le_bytes_length. lia. Qed.

Lemma encode_record_frame r : encode_record r = Ok (wframe r).
Proof. unfold encode_record. pose proof (record_length r). by rewrite (proj2 (Z.ltb_ge _ _)) by lia. Qed.

Lemma encode_all_frames rs : encode_all rs = Ok (frames rs).
Proof. induction rs as [|r rs IH]; [done|]. simpl. by rewrite encode_record_frame, IH. Qed.

Lemma take_wframe_header r rest k : (8 <= k)%nat ->
  take 4 (take k (wframe r ++ rest)) = le_bytes 4 (Z.of_nat (length (record_serialize r))) /\
  take 4 (drop 4 (take k (wframe r ++ rest))) = le_bytes 4 (crc32c (record_serialize r)) /\
  drop 8 (take k (wframe r ++ rest)) = take (k - 8) (record_serialize r ++ rest).
Proof.
  intros Hk. unfold wframe. set (a := le_bytes 4 _). set (b := le_bytes 4 (crc32c _)). rewrite <- !app_assoc.
  assert (length a = 4%nat) as Ha by apply le_bytes_length. assert (length b = 4%nat) as Hb by apply le_bytes_length.
  rewrite (take_app_ge a) by lia. rewrite (take_app_ge b) by lia. split; [|split].
  - by rewrite take_app_length'.
  - rewrite drop_app_length' by lia. by rewrite take_app_length'.
  - rewrite (app_assoc a b), drop_app_length' by (rewrite length_app; lia). f_equal. lia.
Qed.

Lemma decode_frame r rest : decode_record (wframe r ++ rest) = ReadRecord r (Z.of_nat (length (wframe r))).
Proof.
  pose proof (record_length r) as Hl. pose proof (crc32c_range (record_serialize r)) as Hc.
  assert (length (wframe r ++ rest) = 8 + length (record_serialize r) + length rest)%nat as Hlen by (rewrite length_app, wframe_length; lia).
  destruct (take_wframe_header r rest (length (wframe r ++ rest))) as (H4 & H8 & Hp); [lia|]. rewrite firstn_all in H4, H8, Hp.
  unfold decode_record, FRAME_HEADER_BYTES. rewrite H4, H8, !from_le_le_bytes. change (256 ^ Z.of_nat 4) with (2 ^ 32).
  rewrite (Z.mod_small (Z.of_nat _)) by (unfold MAX_RECORD_BYTES in Hl; lia). rewrite (Z.mod_small (crc32c _)) by done.
  rewrite !(proj2 (Z.ltb_ge _ _)) by (rewrite ?Hlen; lia). rewrite (proj2 (Z.eqb_neq _ _)) by lia. cbn [orb].
  rewrite Hp, Nat2Z.id, (take_ge _ (length (wframe r ++ rest) - 8)) by (rewrite length_app, ?Hlen; lia).
  rewrite take_app_length, Z.eqb_refl, record_roundtrip, wframe_length. cbn [negb]. f_equal. lia.
Qed.

Lemma decode_cut r k : (k < length (wframe r))%nat -> decode_record (take k (wframe r)) = Torn.
Proof.
  intros Hk. pose proof (record_length r) as Hl. rewrite wframe_length in Hk. unfold decode_record, FRAME_HEADER_BYTES.
  assert (length (take k (wframe r)) = k) as Hlen by (rewrite length_take, wframe_length; lia).
  destruct (Z.ltb_spec (Z.of_nat (length (take k (wframe r)))) 8); [done|].
  destruct (take_wframe_header r [] k) as (H4 & _ & _); [lia|]. rewrite app_nil_r in H4. rewrite H4, from_le_le_bytes.
  change (256 ^ Z.of_nat 4) with (2 ^ 32). rewrite (Z.mod_small (Z.of_nat _)) by (unfold MAX_RECORD_BYTES in Hl; lia).
  rewrite (proj2 (Z.eqb_neq _ _)) by lia. rewrite (proj2 (Z.ltb_ge MAX_RECORD_BYTES _)) by lia. cbn [orb].
  by rewrite (proj2 (Z.ltb_lt _ _)) by lia.
Qed.

(** What a torn write leaves. *)
Definition cut (t : list N) : Prop := t = [] \/ exists r k, (k < length (wframe r))%nat /\ t = take k (wframe r).

Lemma cut_torn t : cut t -> decode_record t = Torn.
Proof. intros [->|(r & k & Hk & ->)]; [done|by apply decode_cut]. Qed.

Lemma frames_app rs rs' : frames (rs ++ rs') = frames rs ++ frames rs'.
Proof. apply flat_map_app. Qed.

Lemma frames_cons r rs : frames (r :: rs) = wframe r ++ frames rs.
Proof. done. Qed.

Lemma take_frames k rs : (k < length (frames rs))%nat ->
  exists j t, (j < length rs)%nat /\ take k (frames rs) = frames (take j rs) ++ t /\ cut t.
Proof.
  revert k. induction rs as [|r rs IH]; intros k Hk; [simpl in Hk; lia|]. rewrite frames_cons in *. rewrite length_app in Hk. cbn [length].
  destruct (decide (k < length (wframe r))%nat) as [Hr|Hr].
  - exists 0%nat, (take k (wframe r)). split; [lia|]. split; [by rewrite take_app_le by lia|]. right. by exists r, k.
  - destruct (IH (k - length (wframe r))%nat) as (j & t & Hj & E & Ht); [lia|].
    exists (S j), t. split; [lia|]. split; [|done]. rewrite take_app_ge by lia. cbn [take]. by rewrite frames_cons, E, app_assoc.
Qed.

Lemma frames_length rs : (length rs <= length (frames rs))%nat.
Proof. induction rs as [|r rs IH]; [done|]. rewrite frames_cons, length_app, wframe_length. simpl. lia. Qed.

End frames.

Section segments.
Context `{Blake3} `{ManifestCodec} `{RecordCodecLaws}.

(** The records of a segment, replayed one after the other. *)
Fixpoint replay_records (captured : option Z) (rs : list Record_) (st : Replay) : Replay * result WalError unit :=
  match rs with
  | [] => (st, Ok tt)
  | r :: rs =>
      match replay_record captured r st with
      | (st, Err e) => (st, Err e)
      | (st, Ok _) => replay_records captured rs st
      end
  end.

Lemma replay_bytes_frames captured segment len rs t : forall fuel offset st,
  cut t -> (length rs < fuel)%nat ->
  replay_bytes fuel captured segment offset len (frames rs ++ t) st =
  match replay_records captured rs st with
  | (st, Err e) => (st, Err e)
  | (st, Ok _) => end_segment segment (offset + Z.of_nat (length (frames rs))) len st
  end.
Proof.
  induction rs as [|r rs IH]; intros fuel offset st Ht Hf.
  - simpl. destruct fuel as [|fuel]; [lia|]. simpl. rewrite (cut_torn t Ht). f_equal. lia.
  - destruct fuel as [|fuel]; [simpl in Hf; lia|]. cbn [replay_bytes frames flat_map]. change (flat_map wframe rs) with (frames rs).
    rewrite <- app_assoc, decode_frame. cbn [replay_records]. destruct (replay_record captured r st) as [st' [[]|e]]; [|done].
    rewrite Nat2Z.id, drop_app_length, IH by (done || (simpl in Hf; lia)).
    destruct (replay_records captured rs st') as [st'' [[]|e]]; [|done]. f_equal. rewrite length_app. lia.
Qed.

Lemma replay_segment_frames captured segment rs t st :
  file_get (vfs_disk (r_vfs st)) (SegmentPath segment) = Some (frames rs ++ t) -> cut t ->
  replay_segment captured segment st =
  match replay_records captured rs st with
  | (st, Err e) => (st, Err e)
  | (st, Ok _) => end_segment segment (Z.of_nat (length (frames rs))) (Z.of_nat (length (frames rs ++ t))) st
  end.
Proof.
  intros Hf Ht. unfold replay_segment, vfs_read. rewrite Hf. cbn [ok_or]. rewrite replay_bytes_frames; [done..|].
  pose proof (frames_length rs). rewrite length_app. lia.
Qed.

(** ** Segments of a log *)

Definition Segments := list (Z * list Record_).

Definition enc (segs : Segments) : btree Z (list N) := map (fun p => (p.1, frames p.2)) segs.
Definition all_records (segs : Segments) : list Record_ := flat_map snd segs.

Definition below (n : Z) (segs : Segments) : Prop := Forall (fun p => p.1 < n) segs.

Lemma enc_below n segs : below n segs -> Forall (fun p => cmp p.1 n = Lt) (enc segs).
Proof. intros Hb. apply Forall_map. eapply Forall_impl; [done|]. intros [k rs] Hk. simpl in *. by apply Z.compare_lt_iff. Qed.

Lemma bt_get_above n (m : btree Z (list N)) : Forall (fun p => cmp p.1 n = Lt) m -> bt_get n m = None.
Proof.
  intros Hm. apply bt_get_Forall_None. eapply Forall_impl; [done|]. intros [k b] Hk E. simpl in *. subst. by apply cmp_lt_irrefl in Hk.
Qed.

Lemma bt_insert_end n b (m : btree Z (list N)) : Forall (fun p => cmp p.1 n = Lt) m -> bt_insert n b m = m ++ [(n, b)].
Proof. intros Hm. by apply bt_insert_above. Qed.

(** Appending goes to the last segment or opens a new one. *)
Lemma append_segment d segs n b : d_segments d = enc segs -> bt_sorted segs -> Forall (fun p => p.1 <= n) segs ->
  exists init rs, bt_sorted init /\ below n init /\ all_records segs = all_records init ++ rs /\
    (segs = init ++ [(n, rs)] \/ (segs = init /\ rs = [])) /\
    d_segments (file_append d (SegmentPath n) b) = enc init ++ [(n, frames rs ++ b)].
Proof.
  intros Hd Hs Hle. assert (below n segs \/ exists init rs, segs = init ++ [(n, rs)] /\ below n init) as Hcase.
  { destruct segs as [|x l _] using rev_ind; [left; constructor|]. destruct x as [k rs].
    apply Forall_app in Hle as [Hl Hk]. apply Forall_inv in Hk. simpl in Hk.
    pose proof (bt_sorted_app_above l k rs [] Hs) as Hab.
    assert (below k l) as Hbk by (eapply Forall_impl; [done|]; intros p Hp; by apply Z.compare_lt_iff).
    destruct (decide (k = n)) as [->|]; [right; by exists l, rs|]. left. apply Forall_app. split.
    - apply (Forall_impl _ _ _ Hbk). simpl. intros p Hp. lia.
    - apply Forall_singleton. simpl. lia. }
  unfold file_append, file_set, file_get. simpl. rewrite Hd. destruct Hcase as [Hb|(init & rs & -> & Hb)].
  - exists segs, []. split; [done|]. split; [done|]. split; [by rewrite app_nil_r|]. split; [by right|].
    pose proof (enc_below n segs Hb). rewrite bt_get_above, bt_insert_end by done. done.
  - exists init, rs. pose proof (enc_below n init Hb) as Hb'. split; [|split; [done|split; [|split; [by left|]]]].
    + unfold bt_sorted in *. clear -Hs. induction init as [|x l IH]; [constructor|]. simpl in Hs.
      apply StronglySorted_inv in Hs as [Hs Hx]. constructor; [by apply IH|]. by apply Forall_app in Hx as [? _].
    + unfold all_records. rewrite flat_map_app. simpl. by rewrite app_nil_r.
    + unfold enc. rewrite map_app. simpl. rewrite bt_get_last, bt_insert_last by done. done.
Qed.

End segments.
