(* ===== verification/WalInv.v ===== *)
(** * The invariant of a durable store ([substrate-wal]: wal.rs, lib.rs)

    A history is the manifests a store went through, newest first, with the map of
    pages each stands for.  What is on disk determines a history: the checkpoint or
    the empty root, and the records after it replayed.  Recovery rebuilds it,
    whatever bytes the last write left.

    Its later part: A store that is down and a store that is up ([substrate-
    wal]: wal.rs, lib.rs). *)

From Stdlib Require Import ZArith NArith Lia Sorted.
From stdpp Require Import base list gmap strings.
From S2P Require Import Prelude BTree Codec Text Vfs Pager PagerCorrect Wal.

Definition Entry : Type := ManifestId * Manifest * PageMap.
Definition History : Type := list Entry.

Definition head_id (h : History) : ManifestId := match h with (id, _, _) :: _ => id | [] => [] end.

(** Only manifests were added. *)
Definition adds (d d' : Disk) : Prop :=
  d_manifests d ⊆ d_manifests d' /\ d_pages d' = d_pages d /\ d_segments d' = d_segments d /\ d_marker d' = d_marker d.

Lemma adds_refl d : adds d d.
Proof. done. Qed.

Lemma adds_trans d d' d'' : adds d d' -> adds d' d'' -> adds d d''.
Proof. intros (H1 & H2 & H3 & H4) (H1' & H2' & H3' & H4'). repeat split; [by etrans|congruence..]. Qed.

Lemma adds_grows d d' : adds d d' -> grows d d'.
Proof. intros (Hm & Hp & _). split; [done|]. by rewrite Hp. Qed.

Lemma grows_trans d d' d'' : grows d d' -> grows d' d'' -> grows d d''.
Proof. intros [? ?] [? ?]. split; by etrans. Qed.

Lemma grows_refl d : grows d d.
Proof. done. Qed.

Section inv.
Context `{Blake3} `{ManifestCodecLaws} `{RecordCodecLaws}.

(** The store's configuration, and the manifests and page contents among which the
    hash has no collision. *)
Context (cfg : StoreConfig) (KM : Manifest -> Prop) (KB : list N -> Prop).

Definition separates : Prop :=
  (forall m m', KM m -> KM m' -> manifest_id m = manifest_id m' -> m = m') /\
  (forall b b', KB b -> KB b' -> hash_page (cfg_hasher cfg) b = hash_page (cfg_hasher cfg) b' -> b = b').

Hypothesis Hsep : separates.

Definition root : Manifest := manifest_empty (cfg_page_size cfg).
Hypothesis Hroot : KM root.

(** A manifest of a history: its overlay is on its parent. *)
Definition Stored (d : Disk) (id : ManifestId) (m : Manifest) (pages : PageMap) : Prop :=
  State d id m pages /\ (overlay_base m = None \/ overlay_base m = parent m).

Fixpoint hist_ok (d : Disk) (h : History) : Prop :=
  match h with
  | [] => False
  | (id, m, pages) :: h' =>
      Stored d id m pages /\ match h' with [] => parent m = None | (id', _, _) :: _ => parent m = Some id' /\ hist_ok d h' end
  end.

Definition manifests_ok (d : Disk) : Prop :=
  map_Forall (fun id bytes => exists m, KM m /\ bytes = manifest_encode m /\ manifest_id m = id) (d_manifests d).

Definition pages_ok (d : Disk) : Prop :=
  map_Forall (fun id b => KB b /\ hash_page (cfg_hasher cfg) b = id) (d_pages d).

Lemma manifests_ok_store d : manifests_ok d -> store_ok d.
Proof. intros Hd id b Hb. destruct (Hd id b Hb) as (m & _ & ? & ?). by exists m. Qed.

Lemma Stored_grows d d' id m pages : grows d d' -> Stored d id m pages -> Stored d' id m pages.
Proof. intros Hg [? ?]. split; [by eapply State_grows|done]. Qed.

Lemma next_manifest_stored d id m pages ws now next :
  State d id m pages -> next = next_manifest id m pages ws now -> on_disk d (manifest_id next) next ->
  Stored d (manifest_id next) next (apply_changes ws pages) /\ parent next = Some id.
Proof.
  intros Hs Hn Hon. destruct (next_manifest_state d id m pages ws now next Hs Hn Hon) as [Hst Hp]. split; [|done]. split; [done|].
  rewrite Hn. unfold next_manifest. destruct (must_flatten m); [by left|by right].
Qed.

Lemma hist_ok_grows d d' h : grows d d' -> hist_ok d h -> hist_ok d' h.
Proof.
  intros Hg. induction h as [|[[id m] pg] h IH]; [done|]. intros [Hs Hh]. split; [by eapply Stored_grows|].
  destruct h as [|[[id' m'] pg'] h]; [done|]. destruct Hh as [? ?]. split; [done|]. by apply IH.
Qed.

Lemma coherent_grows p d d' : grows d d' -> coherent p d -> coherent p d'.
Proof. intros Hg Hc id m Hm. by eapply on_disk_grows, Hc. Qed.

(** ** Writing manifests *)

Lemma manifests_put_cases m v : KM m -> manifests_ok (vfs_disk v) -> exists v' r,
  manifests_put m v = (v', r) /\ (crashed v = true -> crashed v' = true) /\ (healthy v -> healthy v' /\ is_ok r = true) /\
  adds (vfs_disk v) (vfs_disk v') /\ manifests_ok (vfs_disk v') /\
  match r with
  | Ok id => id = manifest_id m /\ on_disk (vfs_disk v') id m
  | Err _ => crashed v' = true
  end.
Proof.
  intros Hm Hd. unfold manifests_put, vfs_exists. simpl. destruct (d_manifests (vfs_disk v) !! manifest_id m) as [b|] eqn:E.
  - eexists _, _. split; [done|]. do 2 (split; [done|]). split; [done|]. split; [done|]. split; [done|]. split; [done|].
    destruct (Hd _ _ E) as (m' & Hm' & -> & Hid). rewrite E. by rewrite (proj1 Hsep m' m Hm' Hm Hid).
  - destruct (atomic_write_cases (ManifestPath (manifest_id m)) (manifest_encode m) v) as (v' & r & -> & Hc & Hh & Hr).
    eexists _, _. split; [done|]. split; [done|]. destruct r as [[]|e]; simpl.
    + split; [by intros Hv; destruct (Hh Hv)|]. rewrite Hr. split; [|split; [|split; [done|split; [done|]]]].
      * repeat split; simpl. by apply insert_subseteq.
      * apply map_Forall_insert_2; [|done]. by exists m.
      * simpl. by rewrite lookup_insert_eq.
    + split; [by intros Hv; destruct (Hh Hv)|]. destruct Hr as [-> ?]. done.
Qed.

Lemma cache_insert_coherent p d id m : coherent p d -> on_disk d id m -> coherent (cache_insert id m p) d.
Proof.
  intros Hc Hm j mj. unfold cache_insert. cbn [cache]. rewrite lookup_insert_Some. intros [[<- <-]|[Hne Hj]]; [done|].
  destruct (CACHE_CAPACITY <=? _); [by rewrite lookup_empty in Hj|by apply Hc].
Qed.

Lemma install_cases m p v : KM m -> manifests_ok (vfs_disk v) -> coherent p (vfs_disk v) -> exists v' p' r,
  install m p v = (v', p', r) /\ (crashed v = true -> crashed v' = true) /\ (healthy v -> healthy v' /\ is_ok r = true) /\
  adds (vfs_disk v) (vfs_disk v') /\ manifests_ok (vfs_disk v') /\ config p' = config p /\ pins p' = pins p /\ coherent p' (vfs_disk v') /\
  match r with
  | Ok id => id = manifest_id m /\ on_disk (vfs_disk v') id m /\ p_head p' = id
  | Err _ => crashed v' = true
  end.
Proof.
  intros Hm Hd Hc. unfold install. destruct (manifests_put_cases m v Hm Hd) as (v' & r & -> & Hcr & Hh & Ha & Hd' & Hr).
  pose proof (coherent_grows p _ _ (adds_grows _ _ Ha) Hc) as Hc'.
  destruct r as [id|e]; eexists _, _, _; (split; [done|]); do 4 (split; [done|]); [|by auto].
  destruct Hr as [-> Hon]. do 2 (split; [done|]). split; [|done]. by apply cache_insert_coherent.
Qed.

(** ** Replaying records *)

(** What a record makes of a history and of the writes before it. *)
Inductive ReplayStep (d : Disk) : History -> PageChanges -> RecordKind -> History -> PageChanges -> Prop :=
| step_write h pend k c : ReplayStep d h pend (KWrite k c) h (<[k := c]> pend)
| step_commit id m pages h pend now next :
    next = next_manifest id m pages pend now -> apply_changes pend pages <> pages -> KM next ->
    ReplayStep d ((id, m, pages) :: h) pend (KCommit (manifest_id next) now)
      ((manifest_id next, next, apply_changes pend pages) :: (id, m, pages) :: h) ∅
| step_checkpoint id m pages h pend : ReplayStep d ((id, m, pages) :: h) pend (KCheckpoint id) ((id, m, pages) :: h) ∅
| step_collapse e h pend id m pages :
    Stored d id m pages -> parent m = None -> ReplayStep d (e :: h) pend (KCheckpoint id) [(id, m, pages)] ∅.

Inductive Replays (d : Disk) : History -> PageChanges -> list Record_ -> History -> PageChanges -> Prop :=
| replays_nil h pend : Replays d h pend [] h pend
| replays_cons h pend r rs h1 pend1 h' pend' :
    ReplayStep d h pend (kind r) h1 pend1 -> Replays d h1 pend1 rs h' pend' -> Replays d h pend (r :: rs) h' pend'.

Lemma Replays_app d h p rs h1 p1 rs' h2 p2 : Replays d h p rs h1 p1 -> Replays d h1 p1 rs' h2 p2 -> Replays d h p (rs ++ rs') h2 p2.
Proof. induction 1; [done|]. intros. econstructor; eauto. Qed.

Lemma Replays_grows d d' h p rs h' p' : grows d d' -> Replays d h p rs h' p' -> Replays d' h p rs h' p'.
Proof.
  intros Hg. induction 1 as [|? ? ? ? ? ? ? ? Hs _ IH]; [constructor|]. econstructor; [|done]. destruct Hs; econstructor; eauto using Stored_grows.
Qed.

(** The records a checkpoint has not captured. *)
Definition captures (captured : option Z) (r : Record_) : bool := match captured with Some cp => lsn r <=? cp | None => false end.
Definition uncaptured (captured : option Z) (rs : list Record_) : list Record_ := List.filter (fun r => negb (captures captured r)) rs.

(** A replay that stands at a history. *)
Record replaying (d0 : Disk) (st : Replay) (h : History) (pend : PageChanges) : Prop := {
  rp_grows : grows d0 (vfs_disk (r_vfs st));
  rp_manifests : manifests_ok (vfs_disk (r_vfs st));
  rp_coherent : coherent (r_pager st) (vfs_disk (r_vfs st));
  rp_hist : hist_ok (vfs_disk (r_vfs st)) h;
  rp_head : r_head st = head_id h;
  rp_pending : r_pending st = pend;
  rp_config : config (r_pager st) = cfg;
}.

Lemma replaying_vfs d0 st h pend v w rec :
  d_manifests (vfs_disk v) = d_manifests (vfs_disk (r_vfs st)) -> d_pages (vfs_disk v) = d_pages (vfs_disk (r_vfs st)) ->
  replaying d0 st h pend -> replaying d0 (mkReplay v (r_pager st) w rec (r_head st) (r_pending st)) h pend.
Proof.
  intros Hm Hp [Hg Hmo Hc Hh Hhd Hpe Hcfg]. assert (grows (vfs_disk (r_vfs st)) (vfs_disk v)) as Hg' by (split; by rewrite ?Hm, ?Hp).
  split; simpl; try done; [by eapply grows_trans|unfold manifests_ok; by rewrite Hm|by eapply coherent_grows|by eapply hist_ok_grows].
Qed.

(** What a part of a replay did to the disk and whether it came through. *)
Definition came_through (st st' : Replay) (res : result WalError unit) : Prop :=
  (crashed (r_vfs st) = true -> crashed (r_vfs st') = true) /\ (healthy (r_vfs st) -> healthy (r_vfs st') /\ res = Ok tt) /\
  adds (vfs_disk (r_vfs st)) (vfs_disk (r_vfs st')) /\ manifests_ok (vfs_disk (r_vfs st')) /\
  (is_ok res = false -> crashed (r_vfs st') = true).

Definition wal_seen (r : Record_) (w : Wal) : Wal := mkWal (current w) (current_bytes w) (Z.max (next_lsn w) (lsn r + 1)).

Lemma came_through_same st st' : r_vfs st' = r_vfs st -> manifests_ok (vfs_disk (r_vfs st)) -> came_through st st' (Ok tt).
Proof. intros E Hm. unfold came_through. rewrite E. split_and!; try done. Qed.

Lemma replay_step_ok d0 st h pend n k h1 pend1 :
  replaying d0 st h pend -> ReplayStep d0 h pend k h1 pend1 ->
  exists st' res,
    match k with
    | KWrite page_no page => (mkReplay (r_vfs st) (r_pager st) (r_wal st) (r_recovery st) (r_head st) (<[page_no := page]> (r_pending st)), Ok tt)
    | KCommit manifest now => replay_commit n manifest now st
    | KCheckpoint manifest => replay_checkpoint n manifest st
    end = (st', res) /\ came_through st st' res /\ (res = Ok tt -> replaying d0 st' h1 pend1 /\ r_wal st' = r_wal st).
Proof.
  intros [Hg Hm Hc Hh Hhd Hp Hcfg] Hs. destruct Hs as [h pend k c|id m pg h pend now next Hnext Hne HKn|id m pg h pend|e h pend id m pg Hst Hpar].
  - eexists _, _. split; [done|]. split; [by apply came_through_same|]. intros _. split; [|done]. by split; simpl; try done; f_equal.
  - destruct Hh as [[Hst Hbase] Hh]. simpl in Hhd. unfold replay_commit. rewrite Hhd, Hp, (derive_next_state _ _ id m pg) by done.
    rewrite bool_decide_eq_false_2 by done. rewrite <- Hnext, bool_decide_eq_true_2 by done.
    destruct (install_cases next (r_pager st) (r_vfs st) HKn Hm Hc) as (v' & p' & r & -> & Hcr & Hhe & Ha & Hm' & Hcfg' & _ & Hc' & Hr).
    destruct r as [id'|e]; eexists _, _; (split; [done|]).
    + split; [split_and!; simpl; try done; intros Hv; by destruct (Hhe Hv)|]. intros _. split; [|done].
      destruct Hr as (-> & Hon & _). split; simpl; try done; [by eapply grows_trans, adds_grows| |by rewrite Hcfg'].
      destruct (next_manifest_stored _ id m pg pend now next (State_grows _ _ _ _ _ (adds_grows _ _ Ha) Hst) Hnext Hon) as [Hst' Hpar].
      split; [done|]. split; [done|]. by apply (hist_ok_grows _ _ ((id, m, pg) :: h) (adds_grows _ _ Ha)).
    + split; [split_and!; simpl; try done; intros Hv; by destruct (Hhe Hv)|]. done.
  - destruct (proj1 (proj1 Hh)) as (n0 & Hsn & _). unfold replay_checkpoint, set_head_to. rewrite (manifests_contains_on _ id m (Stands_on _ _ _ _ _ Hsn)).
    eexists _, _. split; [done|]. split; [by apply came_through_same|]. intros _. split; [|done]. by split; simpl.
  - pose proof (Stored_grows _ _ _ _ _ Hg Hst) as Hst'. destruct (proj1 Hst') as (n0 & Hsn & _). unfold replay_checkpoint, set_head_to.
    rewrite (manifests_contains_on _ id m (Stands_on _ _ _ _ _ Hsn)).
    eexists _, _. split; [done|]. split; [by apply came_through_same|]. intros _. split; [|done]. by split; simpl.
Qed.

Lemma came_through_trans st st1 st' r1 r : r1 = Ok tt -> came_through st st1 r1 -> came_through st1 st' r -> came_through st st' r.
Proof.
  intros -> (Hc & Hh & Ha & Hm & He) (Hc' & Hh' & Ha' & Hm' & He'). split; [auto|]. split; [|split; [by eapply adds_trans|done]].
  intros Hv. apply Hh'. by apply Hh.
Qed.

Lemma replay_record_ok captured d0 st h pend r h1 pend1 :
  replaying d0 st h pend ->
  (if captures captured r then h1 = h /\ pend1 = pend else ReplayStep d0 h pend (kind r) h1 pend1) ->
  exists st' res, replay_record captured r st = (st', res) /\ came_through st st' res /\
    (res = Ok tt -> replaying d0 st' h1 pend1 /\ r_wal st' = wal_seen r (r_wal st)).
Proof.
  intros Hrp Hs. unfold replay_record. fold (captures captured r). destruct (captures captured r).
  - destruct Hs as [-> ->], Hrp. eexists _, _. split; [done|]. split; [by apply came_through_same|]. intros _. split; [|done]. by split.
  - set (st1 := mkReplay (r_vfs st) (r_pager st) (wal_seen r (r_wal st)) (count_replayed (r_recovery st)) (r_head st) (r_pending st)).
    assert (replaying d0 st1 h pend) as Hrp1 by (by destruct Hrp; split).
    destruct (replay_step_ok d0 st1 h pend (lsn r) (kind r) h1 pend1 Hrp1 Hs) as (st' & res & E & Hct & Hok).
    exists st', res. split; [|by split]. rewrite <- E. by destruct (kind r).
Qed.

Lemma replay_records_ok captured d0 rs : forall st h pend h' pend',
  replaying d0 st h pend -> Replays d0 h pend (uncaptured captured rs) h' pend' ->
  exists st' res, replay_records captured rs st = (st', res) /\ came_through st st' res /\
    (res = Ok tt -> replaying d0 st' h' pend' /\ current (r_wal st') = current (r_wal st) /\
       next_lsn (r_wal st) <= next_lsn (r_wal st') /\ Forall (fun r => lsn r < next_lsn (r_wal st')) rs).
Proof.
  induction rs as [|r rs IH]; intros st h pend h' pend' Hrp HR.
  { inversion HR; subst. exists st, (Ok tt). split; [done|]. split; [split_and!; try done; apply Hrp|]. intros _. split; [done|]. by repeat split. }
  assert (exists h1 pend1, (if captures captured r then h1 = h /\ pend1 = pend else ReplayStep d0 h pend (kind r) h1 pend1) /\
            Replays d0 h1 pend1 (uncaptured captured rs) h' pend') as (h1 & pend1 & Hs & HR1).
  { unfold uncaptured in HR. simpl in HR. destruct (captures captured r); simpl in HR; [by exists h, pend|].
    inversion HR; subst. by eexists _, _. }
  destruct (replay_record_ok captured d0 st h pend r h1 pend1 Hrp Hs) as (st1 & r1 & E1 & Hct & Hok). cbn [replay_records]. rewrite E1.
  destruct r1 as [[]|e]; [|by exists st1, (Err e)]. destruct (Hok eq_refl) as [Hrp1 Hw].
  destruct (IH st1 h1 pend1 h' pend' Hrp1 HR1) as (st' & res & E & Hct' & Hok'). exists st', res. split; [done|].
  split; [by eapply came_through_trans|]. intros Hres. destruct (Hok' Hres) as (Hrp' & Hcur & Hnl & Hall). rewrite Hw in *. simpl in *.
  split; [done|]. split; [done|]. split; [lia|]. constructor; [lia|done].
Qed.

(** ** Replaying segments *)

Lemma replay_segments_app captured l1 l2 st :
  replay_segments captured (l1 ++ l2) st =
  match replay_segments captured l1 st with (st, Err e) => (st, Err e) | (st, Ok _) => replay_segments captured l2 st end.
Proof.
  revert st. induction l1 as [|n l1 IH]; intros st; [done|]. cbn [app replay_segments]. destruct (replay_segment captured n st) as [st' [[]|e]]; [apply IH|done].
Qed.

Lemma uncaptured_app captured rs rs' : uncaptured captured (rs ++ rs') = uncaptured captured rs ++ uncaptured captured rs'.
Proof. apply List.filter_app. Qed.

Lemma Replays_app_inv d rs : forall h p rs' h' p', Replays d h p (rs ++ rs') h' p' ->
  exists h1 p1, Replays d h p rs h1 p1 /\ Replays d h1 p1 rs' h' p'.
Proof.
  induction rs as [|r rs IH]; intros h p rs' h' p' HR; [exists h, p; split; [constructor|done]|].
  inversion HR as [|? ? ? ? h1 p1 ? ? Hs HR1]; subst. destruct (IH _ _ _ _ _ HR1) as (h2 & p2 & ? & ?). exists h2, p2. split; [by econstructor|done].
Qed.

(** Segments that are whole. *)
Lemma replay_segments_whole captured d0 segs : forall st h pend h' pend',
  replaying d0 st h pend -> (forall n rs, (n, rs) ∈ segs -> bt_get n (d_segments (vfs_disk (r_vfs st))) = Some (frames rs)) ->
  Replays d0 h pend (uncaptured captured (all_records segs)) h' pend' ->
  exists st' res, replay_segments captured (map fst segs) st = (st', res) /\ came_through st st' res /\
    (res = Ok tt -> replaying d0 st' h' pend' /\ current (r_wal st') = default (current (r_wal st)) (last (map fst segs)) /\
       next_lsn (r_wal st) <= next_lsn (r_wal st') /\ Forall (fun r => lsn r < next_lsn (r_wal st')) (all_records segs)).
Proof.
  induction segs as [|[n rs] segs IH]; intros st h pend h' pend' Hrp Hb HR.
  { inversion HR; subst. exists st, (Ok tt). split; [done|]. split; [apply came_through_same; [done|apply Hrp]|]. intros _. split; [done|]. by repeat split. }
  change (all_records ((n, rs) :: segs)) with (rs ++ all_records segs) in *. rewrite uncaptured_app in HR.
  destruct (Replays_app_inv _ _ _ _ _ _ _ HR) as (h1 & p1 & HR1 & HR2).
  destruct (replay_records_ok captured d0 rs st h pend h1 p1 Hrp HR1) as (st1 & r1 & E1 & Hct1 & Hok1).
  cbn [map fst replay_segments].
  rewrite (replay_segment_frames captured n rs [] st); [|simpl; rewrite app_nil_r; apply Hb; by left|by left]. rewrite E1.
  destruct r1 as [[]|e]; [|by exists st1, (Err e)]. destruct (Hok1 eq_refl) as (Hrp1 & Hcur1 & Hnl1 & Hall1).
  unfold end_segment. rewrite app_nil_r, Z.ltb_irrefl.
  set (st2 := mkReplay (r_vfs st1) (r_pager st1) (mkWal n (Z.of_nat (length (frames rs))) (next_lsn (r_wal st1))) (r_recovery st1) (r_head st1) (r_pending st1)).
  assert (replaying d0 st2 h1 p1) as Hrp2 by (by destruct Hrp1; split).
  destruct (IH st2 h1 p1 h' pend' Hrp2) as (st' & res & E & Hct & Hok); [|done|].
  { intros n' rs' Hin. destruct Hct1 as (_ & _ & (_ & _ & Hsg & _) & _). simpl. rewrite Hsg. apply Hb. by right. }
  exists st', res. split; [done|]. split; [by eapply (came_through_trans st st2)|]. intros Hres. destruct (Hok Hres) as (Hrp' & Hcur & Hnl & Hall).
  simpl in *. split; [done|]. split; [rewrite Hcur, last_cons; by destruct (last (map fst segs))|]. split; [lia|]. apply Forall_app. split; [|done].
  eapply Forall_impl; [done|]. simpl. intros r Hr. lia.
Qed.

(** The bytes of a log: whole segments, the last with a torn tail. *)
Definition log_bytes (segs : Segments) (tail : list N) (sg : btree Z (list N)) : Prop :=
  (tail = [] /\ sg = enc segs) \/ exists init n rs, segs = init ++ [(n, rs)] /\ sg = enc init ++ [(n, frames rs ++ tail)].

Lemma enc_keys segs : bt_keys (enc segs) = map fst segs.
Proof. unfold bt_keys, enc. rewrite map_map. done. Qed.

Lemma enc_sorted segs : bt_sorted segs -> bt_sorted (enc segs).
Proof.
  unfold bt_sorted. induction 1 as [|[n rs] l Hs IH Hf]; [constructor|]. cbn. constructor; [done|].
  apply Forall_map. eapply Forall_impl; [done|]. by intros [].
Qed.

Lemma sorted_init (l : Segments) x : bt_sorted (l ++ [x]) -> bt_sorted l /\ below x.1 l.
Proof.
  intros Hs. destruct x as [n rs]. split.
  - unfold bt_sorted in *. induction l as [|y l IH]; [constructor|]. simpl in Hs. apply StronglySorted_inv in Hs as [Hs Hx].
    constructor; [by apply IH|]. by apply Forall_app in Hx as [? _].
  - pose proof (bt_sorted_app_above l n rs [] Hs) as Hab. eapply Forall_impl; [done|]. intros p Hp. by apply Z.compare_lt_iff.
Qed.

Lemma keys_below_last (segs : Segments) c : bt_sorted segs -> Forall (fun p => p.1 <= default c (last (map fst segs))) segs.
Proof.
  destruct segs as [|[n rs] l _] using rev_ind; [constructor|]. intros Hs. destruct (sorted_init l (n, rs) Hs) as [_ Hb].
  rewrite map_app. cbn [map fst]. rewrite last_snoc. simpl. apply Forall_app. split; [|repeat constructor; simpl; lia].
  eapply Forall_impl; [exact Hb|]. simpl. intros p Hp. lia.
Qed.

(** What a whole replay leaves. *)
Record replayed (d0 : Disk) (segs : Segments) (h : History) (pend : PageChanges) (st st' : Replay) (res : result WalError unit) : Prop := {
  rd_crash : crashed (r_vfs st) = true -> crashed (r_vfs st') = true;
  rd_healthy : healthy (r_vfs st) -> healthy (r_vfs st') /\ res = Ok tt;
  rd_adds : d_manifests (vfs_disk (r_vfs st)) ⊆ d_manifests (vfs_disk (r_vfs st'));
  rd_pages : d_pages (vfs_disk (r_vfs st')) = d_pages (vfs_disk (r_vfs st));
  rd_marker : d_marker (vfs_disk (r_vfs st')) = d_marker (vfs_disk (r_vfs st));
  rd_manifests : manifests_ok (vfs_disk (r_vfs st'));
  rd_err : is_ok res = false -> crashed (r_vfs st') = true /\ d_segments (vfs_disk (r_vfs st')) = d_segments (vfs_disk (r_vfs st));
  rd_ok : res = Ok tt -> replaying d0 st' h pend /\ d_segments (vfs_disk (r_vfs st')) = enc segs /\
    Forall (fun p => p.1 <= current (r_wal st')) segs /\ next_lsn (r_wal st) <= next_lsn (r_wal st') /\
    Forall (fun r => lsn r < next_lsn (r_wal st')) (all_records segs);
}.

Lemma replayed_whole captured d0 segs st h pend h' pend' :
  replaying d0 st h pend -> bt_sorted segs -> d_segments (vfs_disk (r_vfs st)) = enc segs ->
  Replays d0 h pend (uncaptured captured (all_records segs)) h' pend' ->
  exists st' res, replay_segments captured (map fst segs) st = (st', res) /\ replayed d0 segs h' pend' st st' res.
Proof.
  intros Hrp Hs Hsg HR. destruct (replay_segments_whole captured d0 segs st h pend h' pend' Hrp) as (st' & res & E & Hct & Hok); [|done|].
  { intros n rs Hin. rewrite Hsg. apply bt_In_get; [by apply enc_sorted|]. apply list_elem_of_In, (in_map (fun p => (p.1, frames p.2)) _ (n, rs)).
    by apply list_elem_of_In. }
  exists st', res. split; [done|]. destruct Hct as (Hc & Hh & (Ha & Hp & Hs' & Hm') & Hmo & He). split; try done; [by auto|].
  intros Hres. destruct (Hok Hres) as (Hrp' & Hcur & Hnl & Hall). split; [done|]. split; [congruence|]. split; [|done].
  rewrite Hcur. by apply keys_below_last.
Qed.

Lemma replayed_torn captured d0 init n rs tail st h pend h' pend' :
  replaying d0 st h pend -> bt_sorted (init ++ [(n, rs)]) -> cut tail -> d_segments (vfs_disk (r_vfs st)) = enc init ++ [(n, frames rs ++ tail)] ->
  Replays d0 h pend (uncaptured captured (all_records (init ++ [(n, rs)]))) h' pend' ->
  exists st' res, replay_segments captured (map fst init ++ [n]) st = (st', res) /\ replayed d0 (init ++ [(n, rs)]) h' pend' st st' res.
Proof.
  intros Hrp Hs Hcut Hsg HR. destruct (sorted_init _ _ Hs) as [Hsi Hb]. pose proof (enc_below n init Hb) as Hbe. simpl in Hb.
  assert (all_records (init ++ [(n, rs)]) = all_records init ++ rs) as Hall0 by (unfold all_records; rewrite flat_map_app; simpl; by rewrite app_nil_r).
  rewrite Hall0, uncaptured_app in HR. destruct (Replays_app_inv _ _ _ _ _ _ _ HR) as (h1 & p1 & HR1 & HR2).
  destruct (replay_segments_whole captured d0 init st h pend h1 p1 Hrp) as (st1 & r1 & E1 & Hct1 & Hok1); [|done|].
  { intros k ks Hin. rewrite Hsg. apply bt_In_get.
    - assert (bt_sorted (enc init ++ [(n, frames rs ++ tail)])); [|done]. rewrite <- (bt_insert_end n _ (enc init) Hbe). by apply bt_insert_sorted, enc_sorted.
    - apply elem_of_app. left. apply list_elem_of_In, (in_map (fun p => (p.1, frames p.2)) _ (k, ks)). by apply list_elem_of_In. }
  rewrite replay_segments_app, E1. destruct Hct1 as (Hc1 & Hh1 & (Ha1 & Hp1 & Hs1 & Hm1) & Hmo1 & He1).
  destruct r1 as [[]|e]; [|exists st1, (Err e); split; [done|]; split; try done; by auto].
  destruct (Hok1 eq_refl) as (Hrp1 & _ & Hnl1 & Hall1). rewrite Hsg in Hs1. cbn [replay_segments].
  assert (file_get (vfs_disk (r_vfs st1)) (SegmentPath n) = Some (frames rs ++ tail)) as Hget by (simpl; rewrite Hs1; by apply bt_get_last).
  rewrite (replay_segment_frames captured n rs tail st1 Hget Hcut).
  destruct (replay_records_ok captured d0 rs st1 h1 p1 h' pend' Hrp1 HR2) as (st2 & r2 & E2 & Hct2 & Hok2). rewrite E2.
  destruct Hct2 as (Hc2 & Hh2 & (Ha2 & Hp2 & Hs2 & Hm2) & Hmo2 & He2).
  destruct r2 as [[]|e].
  2: { exists st2, (Err e). split; [done|]. split; try done; [by auto|intros Hv; by destruct (Hh2 (proj1 (Hh1 Hv)))|by etrans|congruence..|].
       intros _. split; [by auto|congruence]. }
  destruct (Hok2 eq_refl) as (Hrp2 & _ & Hnl2 & Hall2).
  assert (Forall (fun r => lsn r < next_lsn (r_wal st2)) (all_records (init ++ [(n, rs)]))) as HallF.
  { rewrite Hall0. apply Forall_app. split; [|done]. eapply Forall_impl; [exact Hall1|]. simpl. intros r Hr. lia. }
  assert (Forall (fun p => p.1 <= n) (init ++ [(n, rs)])) as Hkeys.
  { apply Forall_app. split; [|repeat constructor; simpl; lia]. eapply Forall_impl; [exact Hb|]. simpl. intros p Hp. lia. }
  unfold end_segment. rewrite length_app. destruct (Z.ltb_spec (Z.of_nat (length (frames rs))) (Z.of_nat (length (frames rs) + length tail))) as [Hlt|Hge].
  - assert (file_get (vfs_disk (r_vfs st2)) (SegmentPath n) = Some (frames rs ++ tail)) as Hget2 by (simpl in *; by rewrite Hs2).
    destruct (truncate_cases (SegmentPath n) (Z.of_nat (length (frames rs))) (r_vfs st2) _ Hget2) as (v3 & r3 & -> & Hc3 & Hh3 & Hr3).
    destruct r3 as [[]|e]; eexists _, _; (split; [done|]).
    + assert (d_segments (vfs_disk v3) = enc (init ++ [(n, rs)])) as Hseg3.
      { rewrite Hr3. simpl. rewrite Hs2, Hs1, Nat2Z.id, take_app_length, bt_insert_last by done. unfold enc. by rewrite map_app. }
      split; simpl; rewrite ?Hr3; simpl; try done; [by auto|intros Hv; by destruct (Hh3 (proj1 (Hh2 (proj1 (Hh1 Hv)))))|by etrans|congruence..|].
      intros _. rewrite Hr3 in Hseg3. simpl in Hseg3. split; [|split; [done|split; [done|split; [lia|done]]]].
      apply replaying_vfs; [by rewrite Hr3..|done].
    + destruct Hr3 as [Hd3 Hcr3]. split; simpl; rewrite ?Hd3; try done; [intros Hv; by destruct (Hh3 (proj1 (Hh2 (proj1 (Hh1 Hv)))))|by etrans|congruence..|].
      intros _. split; [done|congruence].
  - assert (tail = []) as -> by (destruct tail; [done|simpl in Hge; lia]). eexists _, _. split; [done|].
    split; simpl; try done; [by auto|intros Hv; split; [by apply Hh2, Hh1|done]|by etrans|congruence..|]. intros _. split; [by destruct Hrp2; split|].
    split; [rewrite Hs2, Hs1, app_nil_r; unfold enc; by rewrite map_app|]. split; [done|]. split; [lia|done].
Qed.

Lemma replayed_log captured d0 segs tail st h pend h' pend' :
  replaying d0 st h pend -> bt_sorted segs -> cut tail -> log_bytes segs tail (d_segments (vfs_disk (r_vfs st))) ->
  Replays d0 h pend (uncaptured captured (all_records segs)) h' pend' ->
  exists st' res, replay_segments captured (segments_in (r_vfs st)) st = (st', res) /\ replayed d0 segs h' pend' st st' res.
Proof.
  intros Hrp Hs Hcut [[-> Hsg]|(init & n & rs & -> & Hsg)] HR; unfold segments_in; rewrite Hsg.
  - rewrite enc_keys. by eapply replayed_whole.
  - unfold bt_keys. rewrite map_app. change (map fst (enc init)) with (bt_keys (enc init)). rewrite enc_keys. by eapply replayed_torn.
Qed.
End inv.

(** * A store that is down and a store that is up ([substrate-wal]: wal.rs, lib.rs)

    [Durable] is what the disk of a store holds at any moment, [Live] what a store
    that was opened and recovered holds besides.  Opening and recovering takes the
    one to the other, or dies and leaves the first. *)

Section live.
Context `{Blake3} `{ManifestCodecLaws} `{RecordCodecLaws}.
Context (cfg : StoreConfig) (KM : Manifest -> Prop) (KB : list N -> Prop).
Hypothesis Hsep : separates cfg KM KB.
Hypothesis Hroot : KM (root cfg).

(** The pages of a map are stored. *)
Definition backed (d : Disk) (pages : PageMap) : Prop := map_Forall (fun _ i => is_Some (d_pages d !! i)) pages.

Definition root_entry : Entry := (manifest_id (root cfg), root cfg, ∅).

(** Where a replay starts. *)
Definition replay_from (d : Disk) (captured : option Z) (h0 : History) : Prop :=
  match captured with
  | None => d_marker d = None /\ h0 = [root_entry]
  | Some n => hist_ok d h0 /\ d_marker d = Some (wframe (mkRecord n (KCheckpoint (head_id h0))))
  end.

Record Logged (d : Disk) (captured : option Z) (segs : Segments) (tail : list N) (h : History) (pend : PageChanges) : Prop := {
  lg_bytes : log_bytes segs tail (d_segments d);
  lg_cut : cut tail;
  lg_sorted : bt_sorted segs;
  lg_replays : exists h0, replay_from d captured h0 /\ Replays KM d h0 ∅ (uncaptured captured (all_records segs)) h pend;
  lg_manifests : manifests_ok KM d;
  lg_pages : pages_ok cfg KB d;
  lg_backed : Forall (fun e => backed d e.2) h;
}.

Definition Durable (d : Disk) (h : History) (pend : PageChanges) : Prop := exists captured segs tail, Logged d captured segs tail h pend.

Record Live (v : Vfs) (s : DurableStore) (captured : option Z) (segs : Segments) (h : History) (pend : PageChanges) : Prop := {
  lv_logged : Logged (vfs_disk v) captured segs [] h pend;
  lv_segments : d_segments (vfs_disk v) = enc segs;
  lv_hist : hist_ok (vfs_disk v) h;
  lv_coherent : coherent (s_pager s) (vfs_disk v);
  lv_head : p_head (s_pager s) = head_id h;
  lv_config : config (s_pager s) = cfg;
  lv_current : Forall (fun p => p.1 <= current (s_wal s)) segs;
  lv_lsn : Forall (fun r => lsn r < next_lsn (s_wal s)) (all_records segs);
  lv_captured : match captured with Some n => n < next_lsn (s_wal s) | None => 0 <= next_lsn (s_wal s) end;
}.

(** ** The disk may change under a log *)

Lemma replay_from_grows d d' captured h0 : grows d d' -> d_marker d' = d_marker d -> replay_from d captured h0 -> replay_from d' captured h0.
Proof.
  intros Hg Hm. unfold replay_from. rewrite Hm. destruct captured; [|done]. intros [? ?]. split; [|done]. by eapply hist_ok_grows.
Qed.

Lemma backed_grows d d' pages : d_pages d ⊆ d_pages d' -> backed d pages -> backed d' pages.
Proof. intros Hg Hb k i Hi. destruct (Hb k i Hi) as [b E]. exists b. by eapply lookup_weaken. Qed.

(** More manifests and pages, and the same log or one cut back to its records. *)
Lemma Logged_grows d d' captured segs tail tail' h pend :
  grows d d' -> d_marker d' = d_marker d -> manifests_ok KM d' -> pages_ok cfg KB d' ->
  log_bytes segs tail' (d_segments d') -> cut tail' -> Logged d captured segs tail h pend -> Logged d' captured segs tail' h pend.
Proof.
  intros Hg Hm Hmo Hpo Hb Hcut [_ _ Hs (h0 & Hf & HR) _ _ Hbk]. split; try done.
  - exists h0. split; [by eapply replay_from_grows|by eapply Replays_grows].
  - eapply Forall_impl; [done|]. intros e. apply backed_grows, Hg.
Qed.

Lemma Logged_adds d d' captured segs tail h pend :
  adds d d' -> manifests_ok KM d' -> Logged d captured segs tail h pend -> Logged d' captured segs tail h pend.
Proof.
  intros Ha Hm Hl. pose proof (adds_grows _ _ Ha) as Hg. destruct Ha as (_ & Hp & Hs & Hk).
  eapply Logged_grows; [done..| | | |done]; destruct Hl as [Hb Hc _ _ _ Hpo _]; [unfold pages_ok; by rewrite Hp|by rewrite Hs|done].
Qed.

Lemma Durable_adds d d' h pend : adds d d' -> manifests_ok KM d' -> Durable d h pend -> Durable d' h pend.
Proof. intros Ha Hm (c & segs & t & Hl). exists c, segs, t. by eapply Logged_adds. Qed.

Lemma Live_durable v s captured segs h pend : Live v s captured segs h pend -> Durable (vfs_disk v) h pend.
Proof. intros [Hl _ _ _ _ _ _ _ _]. by exists captured, segs, []. Qed.

(** ** Opening *)

Lemma root_state d : on_disk d (manifest_id (root cfg)) (root cfg) -> Stored d (manifest_id (root cfg)) (root cfg) ∅.
Proof. intros Hon. split; [|by left]. exists 0%nat. split; [by eapply stands_flat|]. split; [done|]. split; [lia|]. by rewrite map_size_empty. Qed.

Hypothesis Hsize : validate_page_size (cfg_page_size cfg) = Ok tt.

Lemma store_open_ok v h pend : crashed v = false -> Durable (vfs_disk v) h pend ->
  exists v' r, store_open cfg v = (v', r) /\ adds (vfs_disk v) (vfs_disk v') /\ Durable (vfs_disk v') h pend /\
    (healthy v -> healthy v' /\ is_ok r = true) /\
    match r with
    | Err _ => crashed v' = true
    | Ok s => coherent (s_pager s) (vfs_disk v') /\ config (s_pager s) = cfg /\ next_lsn (s_wal s) = 0
    end.
Proof.
  intros Hup Hd. unfold store_open, open_with, vfs_create_dir_all. rewrite Hsize, Hup. unfold assemble. change (manifest_empty (cfg_page_size cfg)) with (root cfg).
  assert (manifests_ok KM (vfs_disk v)) as Hmo by (destruct Hd as (? & ? & ? & []); done).
  destruct (manifests_put_cases cfg KM KB Hsep (root cfg) v Hroot Hmo) as (v' & r & -> & Hc & Hh & Ha & Hmo' & Hr).
  assert (Durable (vfs_disk v') h pend) as Hd' by (by eapply Durable_adds).
  destruct r as [id|e]; simpl; [|eexists _, _; split; [done|]; do 2 (split; [done|]); by split].
  unfold wal_open, vfs_create_dir_all. destruct (crashed v') eqn:Ecr; simpl; eexists _, _; (split; [done|]); do 2 (split; [done|]).
  - split; [|done]. intros Hv. destruct (Hh Hv) as [[_ ?] _]. congruence.
  - split; [intros Hv; by destruct (Hh Hv)|]. simpl. split; [|done]. by intros j m.
Qed.

(** ** Recovering *)

Lemma set_head_to_on id m p v : on_disk (vfs_disk v) id m -> set_head_to id p v = (set_head id p, Ok tt).
Proof. intros Hon. unfold set_head_to. by rewrite (manifests_contains_on v id m Hon). Qed.

Lemma hist_head_on d h : hist_ok d h -> exists m, on_disk d (head_id h) m.
Proof. destruct h as [|[[id m] pg] h]; [done|]. intros [[(n & Hs & _) _] _]. exists m. by eapply Stands_on. Qed.

Lemma read_checkpoint_found v captured h0 : replay_from (vfs_disk v) captured h0 ->
  read_checkpoint v = Ok (match captured with Some n => Some (head_id h0, n) | None => None end).
Proof.
  unfold replay_from, read_checkpoint, vfs_exists, vfs_read. simpl. destruct captured as [n|].
  - intros [_ E]. rewrite E. cbn [negb ok_or map_err]. pose proof (decode_frame (mkRecord n (KCheckpoint (head_id h0))) []) as Hd.
    rewrite app_nil_r in Hd. by rewrite Hd.
  - by intros [-> _].
Qed.

(** The base of a replay is found again. *)
Lemma replay_base_ok p w v captured h0 :
  manifests_ok KM (vfs_disk v) -> coherent p (vfs_disk v) -> config p = cfg -> 0 <= next_lsn w -> replay_from (vfs_disk v) captured h0 ->
  exists v' p' w' r, replay_base p w v = (v', p', w', r) /\ adds (vfs_disk v) (vfs_disk v') /\ manifests_ok KM (vfs_disk v') /\
    (crashed v = true -> crashed v' = true) /\ (healthy v -> healthy v' /\ is_ok r = true) /\
    match r with
    | Err _ => crashed v' = true
    | Ok (head, cp) => head = head_id h0 /\ cp = captured /\ hist_ok (vfs_disk v') h0 /\ coherent p' (vfs_disk v') /\ config p' = cfg /\
        match captured with Some n => n < next_lsn w' | None => 0 <= next_lsn w' end
    end.
Proof.
  intros Hmo Hc Hcfg Hw Hf. unfold replay_base. rewrite (read_checkpoint_found v captured h0 Hf). destruct captured as [n|].
  - destruct Hf as [Hh _]. destruct (hist_head_on _ _ Hh) as [m Hon]. rewrite (set_head_to_on _ m p v Hon).
    eexists _, _, _, _. split; [done|]. do 4 (split; [done|]). simpl. do 5 (split; [done|]). lia.
  - destruct Hf as [_ ->]. unfold root_manifest. rewrite Hcfg. change (manifest_empty (cfg_page_size cfg)) with (root cfg).
    destruct (manifests_put_cases cfg KM KB Hsep (root cfg) v Hroot Hmo) as (v' & r & -> & Hcr & Hh & Ha & Hmo' & Hr).
    destruct r as [id|e]; [|eexists _, _, _, _; split; [done|]; do 3 (split; [done|]); by split]. destruct Hr as [-> Hon]. rewrite (set_head_to_on _ _ p v' Hon).
    eexists _, _, _, _. split; [done|]. do 4 (split; [done|]). split; [done|]. split; [done|].
    split; [split; [by apply root_state|done]|]. split; [|done]. eapply coherent_grows; [by apply adds_grows|done].
Qed.

(** A log is replayed to the history it holds. *)
Lemma wal_recover_ok p w v captured segs tail h pend :
  Logged (vfs_disk v) captured segs tail h pend -> coherent p (vfs_disk v) -> config p = cfg -> 0 <= next_lsn w ->
  exists v' p' w' r, wal_recover p w v = (v', p', w', r) /\ Durable (vfs_disk v') h pend /\
    (crashed v = true -> crashed v' = true) /\ (healthy v -> healthy v' /\ is_ok r = true) /\
    (d_pages (vfs_disk v') = d_pages (vfs_disk v)) /\
    match r with
    | Err _ => crashed v' = true
    | Ok _ => Live v' (mkStore p' w') captured segs h pend
    end.
Proof.
  intros Hl Hc Hcfg Hw. destruct (lg_replays _ _ _ _ _ _ Hl) as (h0 & Hf & HR). unfold wal_recover.
  destruct (replay_base_ok p w v captured h0 (lg_manifests _ _ _ _ _ _ Hl) Hc Hcfg Hw Hf) as (v1 & p1 & w1 & r1 & -> & Ha & Hmo1 & Hcr1 & Hh1 & Hr1).
  pose proof (Logged_adds _ _ _ _ _ _ _ Ha Hmo1 Hl) as Hl1. assert (d_pages (vfs_disk v1) = d_pages (vfs_disk v)) as Hp1 by apply Ha.
  destruct r1 as [[head cp]|e]; [|eexists _, _, _, _; split; [done|]; split; [by exists captured, segs, tail|]; by auto].
  destruct Hr1 as (-> & -> & Hh0 & Hc1 & Hcfg1 & Hn1).
  set (st := mkReplay v1 p1 w1 (mkRecovery 0 0 false 0 0) (head_id h0) ∅).
  assert (replaying cfg KM (vfs_disk v1) st h0 ∅) as Hrp by (by split).
  destruct (replayed_log cfg KM KB Hsep captured (vfs_disk v1) segs tail st h0 ∅ h pend Hrp) as (st' & res & E & Hrd);
    [apply Hl1..|by eapply Replays_grows; [apply adds_grows|]|].
  change v1 with (r_vfs st) at 1. rewrite E.
  assert (Durable (vfs_disk (r_vfs st')) h pend) as Hdur.
  { destruct Hrd as [_ _ Hm Hp Hk Hmo He Ho]. exists captured, segs. destruct res as [[]|e].
    - exists []. destruct (Ho eq_refl) as (_ & Hsg & _). eapply Logged_grows; [split; [done|by rewrite Hp]|done|done|unfold pages_ok; rewrite Hp; apply Hl1|by left|by left|done].
    - exists tail. destruct (He eq_refl) as [_ Hsg]. eapply Logged_grows; [split; [done|by rewrite Hp]|done|done|unfold pages_ok; rewrite Hp; apply Hl1|rewrite Hsg; apply Hl1|apply Hl1|done]. }
  destruct Hrd as [Hcr Hhe Hm Hp Hk Hmo He Ho]. simpl in *.
  destruct res as [[]|e].
  2: { eexists _, _, _, _. split; [done|]. split; [done|]. split; [by auto|]. split; [intros Hv; by destruct (Hhe (proj1 (Hh1 Hv)))|]. split; [congruence|]. by apply He. }
  destruct (Ho eq_refl) as (Hrp' & Hsg & Hcur & Hnl & Hlsn). destruct Hrp' as [_ _ Hc' Hh' Hhd' _ Hcfg'].
  destruct (hist_head_on _ _ Hh') as [m Hon]. rewrite Hhd', (set_head_to_on _ m _ _ Hon).
  eexists _, _, _, _. split; [done|]. split; [done|]. split; [by auto|]. split; [intros Hv; split; [by apply Hhe, Hh1|done]|]. split; [congruence|].
  split; simpl; try done.
  - eapply Logged_grows; [split; [done|by rewrite Hp]|done|done|unfold pages_ok; rewrite Hp; apply Hl1|by left|by left|exact Hl1].
  - destruct captured; lia.
Qed.

(** Opening a store and replaying its log, as the planes do it. *)
Definition reopen (fuel : option Z) (v : Vfs) : Vfs * result WalError DurableStore :=
  match store_open cfg (reboot fuel v) with
  | (v, Err e) => (v, Err e)
  | (v, Ok s) => let '(v, s, r) := store_recover s v in (v, map_ok (fun _ => s) r)
  end.

(** From what any crash left, a store comes up at the history, or dies again and
    leaves it. *)
Lemma reopen_ok fuel v h pend : Durable (vfs_disk v) h pend ->
  exists v' r, reopen fuel v = (v', r) /\ Durable (vfs_disk v') h pend /\ (fuel = None -> is_ok r = true /\ healthy v') /\
    match r with
    | Err _ => crashed v' = true
    | Ok s => exists captured segs, Live v' s captured segs h pend
    end.
Proof.
  intros Hd. unfold reopen. destruct (store_open_ok (reboot fuel v) h pend eq_refl Hd) as (v1 & r1 & -> & Ha & Hd1 & Hh1 & Hr1).
  assert (fuel = None -> healthy (reboot fuel v)) as Hfuel by (by intros ->).
  destruct r1 as [s|e]; [|eexists _, _; split; [done|]; split; [done|]; split; [intros Hf; by destruct (Hh1 (Hfuel Hf))|done]].
  destruct Hr1 as (Hc1 & Hcfg1 & Hn1). destruct Hd1 as (captured & segs & tail & Hl1). unfold store_recover.
  destruct (wal_recover_ok (s_pager s) (s_wal s) v1 captured segs tail h pend Hl1 Hc1 Hcfg1) as (v2 & p2 & w2 & r2 & -> & Hd2 & Hcr2 & Hh2 & _ & Hr2); [lia|].
  eexists _, _. split; [done|]. split; [done|]. split.
  - intros Hf. destruct (Hh2 (proj1 (Hh1 (Hfuel Hf)))) as [? Hok]. split; [|done]. by destruct r2.
  - destruct r2; [simpl; by exists captured, segs|done].
Qed.
End live.
