(* ===== verification/WalCommit.v ===== *)
(** * Committing and checkpointing ([substrate-wal]: wal.rs, lib.rs)

    What a transaction, a checkpoint and a collection leave of a store that is up:
    the next store that is up, or a disk that holds the history before the
    operation or the one after it. *)

From Stdlib Require Import ZArith NArith Lia Sorted.
From stdpp Require Import base list gmap strings.
From S2P Require Import Prelude BTree Codec Text Vfs Pager PagerCorrect Wal WalInv.

Section commit.
Context `{Blake3} `{ManifestCodecLaws} `{RecordCodecLaws}.
Context (cfg : StoreConfig) (KM : Manifest -> Prop) (KB : list N -> Prop).
Hypothesis Hsep : separates cfg KM KB.

Abbreviation hash := (hash_page (cfg_hasher cfg)).
Abbreviation Live := (Live cfg KM KB).
Abbreviation Durable := (Durable cfg KM KB).
Abbreviation Logged := (Logged cfg KM KB).

(** ** Staging pages *)

(** Only pages were added. *)
Definition pages_added (d d' : Disk) : Prop :=
  d_pages d ⊆ d_pages d' /\ d_manifests d' = d_manifests d /\ d_segments d' = d_segments d /\ d_marker d' = d_marker d.

Lemma pages_added_refl d : pages_added d d.
Proof. done. Qed.

Lemma pages_added_trans d d' d'' : pages_added d d' -> pages_added d' d'' -> pages_added d d''.
Proof. intros (? & ? & ? & ?) (? & ? & ? & ?). repeat split; [by etrans|congruence..]. Qed.

Lemma pages_added_grows d d' : pages_added d d' -> grows d d'.
Proof. intros (? & Hm & _). split; [by rewrite Hm|done]. Qed.

(** A pager up to its pins. *)
Definition same_but_pins (p p' : Pager) : Prop := cache p' = cache p /\ p_head p' = p_head p /\ config p' = config p.

Lemma unpin_same id p : same_but_pins p (unpin id p).
Proof. unfold unpin. by destruct (pins p !! id). Qed.

Lemma same_trans p p' p'' : same_but_pins p p' -> same_but_pins p' p'' -> same_but_pins p p''.
Proof. intros (? & ? & ?) (? & ? & ?). repeat split; congruence. Qed.

Lemma drop_txn_same t p : same_but_pins p (drop_txn t p).
Proof.
  unfold drop_txn. generalize (pinned t). intros l. revert p. induction l as [|i l IH]; intros p; [done|].
  eapply same_trans; [apply unpin_same|apply IH].
Qed.

Lemma Live_pages v v' s p' captured segs h pend :
  pages_added (vfs_disk v) (vfs_disk v') -> pages_ok cfg KB (vfs_disk v') -> same_but_pins (s_pager s) p' ->
  Live v s captured segs h pend -> Live v' (mkStore p' (s_wal s)) captured segs h pend.
Proof.
  intros Ha Hpo (Hca & Hhd & Hcf) [Hl Hsg Hh Hc Hhd' Hcf' Hcu Hls Hcp]. pose proof (pages_added_grows _ _ Ha) as Hg. destruct Ha as (_ & Hm & Hs & Hk).
  split; simpl; try done; try congruence.
  - eapply Logged_grows; [done..|unfold manifests_ok; rewrite Hm; apply Hl|done|left; split; [done|congruence]|by left|done].
  - by eapply hist_ok_grows.
  - intros j m Hj. rewrite Hca in Hj. by eapply on_disk_grows, Hc.
Qed.

Lemma cas_put_cases b v : KB b -> pages_ok cfg KB (vfs_disk v) -> exists v' r,
  cas_put (mkPage (hash b) b) v = (v', r) /\ (crashed v = true -> crashed v' = true) /\ (healthy v -> healthy v' /\ is_ok r = true) /\
  pages_added (vfs_disk v) (vfs_disk v') /\ pages_ok cfg KB (vfs_disk v') /\
  match r with Ok _ => d_pages (vfs_disk v') !! hash b = Some b | Err _ => crashed v' = true end.
Proof.
  intros Hb Hpo. unfold cas_put, vfs_exists. simpl. destruct (d_pages (vfs_disk v) !! hash b) as [b'|] eqn:E.
  - eexists _, _. split; [done|]. do 4 (split; [done|]). destruct (Hpo _ _ E) as [Hb' Hh]. rewrite E. f_equal. by apply (proj2 Hsep).
  - destruct (atomic_write_cases (PagePath (hash b)) b v) as (v' & r & -> & Hc & Hh & Hr). eexists _, _. split; [done|]. split; [done|].
    destruct r as [[]|e]; simpl.
    + split; [by intros Hv; destruct (Hh Hv)|]. rewrite Hr. split; [|split; [|simpl; by rewrite lookup_insert_eq]].
      * repeat split; simpl. by apply insert_subseteq.
      * by apply map_Forall_insert_2.
    + split; [by intros Hv; destruct (Hh Hv)|]. destruct Hr as [-> ?]. done.
Qed.

(** The edits of a transaction, one per page: the last one counts. *)
Definition Edits : Type := list (Z * option (list N)).
Definition edits_map (edits : Edits) (em : gmap Z (option (list N))) : gmap Z (option (list N)) :=
  fold_left (fun em e => <[e.1 := e.2]> em) edits em.

Fixpoint stage (edits : Edits) (t : Txn) (s : DurableStore) (v : Vfs) : Vfs * DurableStore * Txn * result WalError unit :=
  match edits with
  | [] => (v, s, t, Ok tt)
  | (k, None) :: edits => stage edits (remove k t) s v
  | (k, Some b) :: edits =>
      match store_write k b t s v with
      | (v, s, t, Err e) => (v, s, t, Err e)
      | (v, s, t, Ok _) => stage edits t s v
      end
  end.

(** The writes of a transaction that staged [em]. *)
Definition hashed (em : gmap Z (option (list N))) : PageChanges := fmap (M := gmap Z) (option_map hash) em.
Definition stored_edits (d : Disk) (em : gmap Z (option (list N))) : Prop := forall k b, em !! k = Some (Some b) -> d_pages d !! hash b = Some b.

Lemma hashed_insert k c em : hashed (<[k := c]> em) = <[k := option_map hash c]> (hashed em).
Proof. unfold hashed. by rewrite fmap_insert. Qed.

Lemma stored_edits_insert d d' k c em :
  d_pages d ⊆ d_pages d' -> match c with Some b => d_pages d' !! hash b = Some b | None => True end -> stored_edits d em -> stored_edits d' (<[k := c]> em).
Proof.
  intros Hs Hc He j b. rewrite lookup_insert_Some. intros [[_ ->]|[_ Hj]]; [done|]. eapply lookup_weaken; [by eapply He|done].
Qed.

Lemma stage_edits_ok edits : forall em t s v captured segs h pend,
  Live v s captured segs h pend -> Forall (fun e => match e.2 with Some b => KB b | None => True end) edits ->
  writes t = hashed em -> stored_edits (vfs_disk v) em -> txn_base t = head_id h ->
  exists v' p' t' r, stage edits t s v = (v', mkStore p' (s_wal s), t', r) /\
    Live v' (mkStore p' (s_wal s)) captured segs h pend /\ (crashed v = true -> crashed v' = true) /\ txn_base t' = head_id h /\
    same_but_pins (s_pager s) p' /\
    match r with
    | Ok _ => writes t' = hashed (edits_map edits em) /\ stored_edits (vfs_disk v') (edits_map edits em)
    | Err _ => crashed v' = true \/ Exists (fun e => match e.2 with Some b => cfg_page_size cfg < Z.of_nat (length b) | None => False end) edits
    end /\ (healthy v -> healthy v').
Proof.
  induction edits as [|[k c] edits IH]; intros em t s v captured segs h pend Hl Hk Hw He Hb.
  { exists v, (s_pager s), t, (Ok tt). destruct s. simpl in *. do 4 (split; [done|]). split; [done|]. by split. }
  apply Forall_cons in Hk as [Hc Hk]. cbn [stage edits_map fold_left fst snd]. destruct c as [b|].
  2: { destruct (IH (<[k := None]> em) (remove k t) s v captured segs h pend Hl Hk) as (v' & p' & t' & r & E & Hl' & Hcr & Hb' & Hsp & Hr & Hh); [simpl; by rewrite hashed_insert, Hw|by apply (stored_edits_insert _ _ _ _ _ (reflexivity _))|done|].
       exists v', p', t', r. do 5 (split; [done|]). split; [|done]. destruct r; [done|]. destruct Hr; [by left|right; by apply Exists_cons_tl]. }
  unfold store_write, write. rewrite (lv_config _ _ _ _ _ _ _ _ _ Hl). unfold page_new.
  destruct (Z.ltb_spec (cfg_page_size cfg) (Z.of_nat (length b))) as [Hbig|Hfit].
  { exists v, (s_pager s), t. eexists. split; [done|]. split; [by destruct s|]. do 3 (split; [done|]). split; [|done]. right. by apply Exists_cons_hd. }
  cbn [page_id]. destruct (cas_put_cases b v Hc (lg_pages _ _ _ _ _ _ _ _ _ (lv_logged _ _ _ _ _ _ _ _ _ Hl))) as (v1 & r1 & -> & Hcr1 & Hh1 & Ha1 & Hpo1 & Hr1).
  assert (same_but_pins (s_pager s) (pin (hash b) (s_pager s))) as Hpin by done.
  pose proof (Live_pages v v1 s _ captured segs h pend Ha1 Hpo1 Hpin Hl) as Hl1.
  destruct r1 as [[]|e]; cbn [map_err writes txn_base pinned].
  2: { eexists _, _, _, _. split; [done|]. split; [done|]. split; [done|]. split; [done|]. split; [done|]. split; [by left|]. intros Hv. by apply Hh1. }
  destruct (IH (<[k := Some b]> em) (mkTxn (<[k := Some (hash b)]> (writes t)) (txn_base t) (pinned t ++ [hash b]))
              (mkStore (pin (hash b) (s_pager s)) (s_wal s)) v1 captured segs h pend Hl1 Hk)
    as (v' & p' & t' & r & E & Hl' & Hcr & Hb' & Hsp & Hr & Hh); [simpl; by rewrite hashed_insert, Hw|by eapply (stored_edits_insert (vfs_disk v)); [apply Ha1|..]|done|].
  exists v', p', t', r. do 2 (split; [done|]). split; [by auto|]. split; [done|]. split; [by eapply same_trans|]. split; [|by intros Hv; apply Hh, Hh1].
  destruct r; [done|]. destruct Hr; [by left|right; by apply Exists_cons_tl].
Qed.

(** ** Appending records *)

Lemma sorted_snoc (init : Segments) n rs : bt_sorted init -> below n init -> bt_sorted (init ++ [(n, rs)]).
Proof.
  intros Hs Hb. rewrite <- (bt_insert_above n rs init); [by apply bt_insert_sorted|]. eapply Forall_impl; [exact Hb|]. intros p Hp. by apply Z.compare_lt_iff.
Qed.

Lemma all_uncaptured captured rs : Forall (fun r => captures captured r = false) rs -> uncaptured captured rs = rs.
Proof. induction 1 as [|r rs Hr _ IH]; [done|]. unfold uncaptured in *. simpl. by rewrite Hr, IH. Qed.

(** The log after records and a torn tail reached the disk. *)
Lemma Logged_append d captured segs h pend n rs t h1 pend1 :
  Logged d captured segs [] h pend -> d_segments d = enc segs -> Forall (fun p => p.1 <= n) segs ->
  cut t -> Replays KM d h pend rs h1 pend1 -> Forall (fun r => captures captured r = false) rs -> Forall (fun e => backed d e.2) h1 ->
  exists segs', Logged (file_append d (SegmentPath n) (frames rs ++ t)) captured segs' t h1 pend1 /\
    (t = [] -> d_segments (file_append d (SegmentPath n) (frames rs ++ t)) = enc segs') /\
    Forall (fun p => p.1 <= n) segs' /\ all_records segs' = all_records segs ++ rs.
Proof.
  intros Hl Hsg Hle Hcut HR Hun Hbk. set (d' := file_append d (SegmentPath n) (frames rs ++ t)).
  destruct (append_segment d segs n (frames rs ++ t) Hsg (lg_sorted _ _ _ _ _ _ _ _ _ Hl) Hle) as (init & rs0 & Hsi & Hb & Hall & Hcase & Hd').
  exists (init ++ [(n, rs0 ++ rs)]).
  assert (all_records (init ++ [(n, rs0 ++ rs)]) = all_records segs ++ rs) as Hall'.
  { rewrite Hall. unfold all_records. rewrite flat_map_app. simpl. by rewrite app_nil_r, app_assoc. }
  split; [|split; [|split; [|done]]].
  - destruct Hl as [_ _ _ (h0 & Hf & HR0) Hmo Hpo _]. assert (grows d d') as Hg by done. fold d' in Hd' |- *. split; try done.
    + right. exists init, n, (rs0 ++ rs). split; [done|]. by rewrite frames_app, <- app_assoc.
    + by apply sorted_snoc.
    + exists h0. split; [by eapply replay_from_grows|]. rewrite Hall', uncaptured_app, (all_uncaptured captured rs Hun).
      eapply Replays_grows; [exact Hg|]. by eapply Replays_app.
  - intros ->. unfold d'. rewrite Hd'. unfold enc. rewrite map_app. cbn [map fst snd]. by rewrite frames_app, app_nil_r.
  - apply Forall_app. split; [|repeat constructor; simpl; lia]. eapply Forall_impl; [exact Hb|]. simpl. intros p Hp. lia.
Qed.

(** Records numbered from the next LSN on. *)
Definition numbered (lo hi : Z) (rs : list Record_) : Prop := Forall (fun r => lo <= lsn r < hi) rs.

Definition after_append (v v' : Vfs) : Prop :=
  d_pages (vfs_disk v') = d_pages (vfs_disk v) /\ d_manifests (vfs_disk v') = d_manifests (vfs_disk v) /\ d_marker (vfs_disk v') = d_marker (vfs_disk v).

Lemma after_append_grows v v' : after_append v v' -> grows (vfs_disk v) (vfs_disk v').
Proof. intros (Hp & Hm & _). split; [by rewrite Hm|by rewrite Hp]. Qed.

(** A list of records is appended: whole, or up to a record and a tear. *)
Lemma wal_append_ok v s captured segs h pend hi rs h1 pend1 :
  Live v s captured segs h pend -> rs <> [] -> Replays KM (vfs_disk v) h pend rs h1 pend1 -> numbered (next_lsn (s_wal s)) hi rs -> next_lsn (s_wal s) <= hi ->
  Forall (fun e => backed (vfs_disk v) e.2) h1 ->
  exists v' w' r, wal_append rs (mkWal (current (s_wal s)) (current_bytes (s_wal s)) hi) v = (v', w', r) /\ after_append v v' /\
    (crashed v = true -> crashed v' = true) /\ (healthy v -> healthy v' /\ r = Ok tt) /\
    match r with
    | Ok _ => exists segs', Logged (vfs_disk v') captured segs' [] h1 pend1 /\ d_segments (vfs_disk v') = enc segs' /\
        Forall (fun p => p.1 <= current w') segs' /\ next_lsn w' = hi /\ all_records segs' = all_records segs ++ rs
    | Err _ => crashed v' = true /\ exists j hj pj, (j < length rs)%nat /\ Replays KM (vfs_disk v) h pend (take j rs) hj pj /\
        (Forall (fun e => backed (vfs_disk v) e.2) hj -> Durable (vfs_disk v') hj pj)
    end.
Proof.
  intros Hl Hne HR Hnum Hhi Hbk. pose proof Hl as [Hlg Hsg _ _ _ _ Hcu _ Hcp]. unfold wal_append. rewrite encode_all_frames. cbn [current current_bytes next_lsn].
  assert (forall l, incl l rs -> Forall (fun r => captures captured r = false) l) as Hun.
  { intros l Hin. apply Forall_forall. intros r Hr%list_elem_of_In%Hin%list_elem_of_In. pose proof (proj1 (Forall_forall _ _) Hnum r Hr) as Hn. unfold captures. destruct captured as [cp|]; [|done].
    apply Z.leb_gt. simpl in Hn. lia. }
  destruct (append_cases (SegmentPath (current (s_wal s))) (frames rs) v) as (v' & r & -> & Hcr & Hh & Hr).
  destruct r as [[]|e].
  - destruct (Logged_append (vfs_disk v) captured segs h pend (current (s_wal s)) rs [] h1 pend1 Hlg Hsg Hcu ltac:(by left) HR (Hun rs (incl_refl _)) Hbk) as (segs' & Hlg' & Hsg' & Hle' & Hall').
    rewrite app_nil_r, <- Hr in Hlg', Hsg'. eexists _, _, _. split; [done|]. split; [unfold after_append; by rewrite Hr|]. split; [done|]. split; [by intros Hv; destruct (Hh Hv)|].
    exists segs'. split; [done|]. split; [by auto|]. destruct (SEGMENT_TARGET_BYTES <=? _); simpl; [|done]. split; [|done].
    eapply Forall_impl; [exact Hle'|]. simpl. intros p Hp. lia.
  - destruct Hr as [Hc Hr]. eexists _, _, _. split; [done|]. destruct Hr as [Hd|(k & Hk & Hd)].
    + split; [unfold after_append; by rewrite Hd|]. split; [done|]. split; [by intros Hv; destruct (Hh Hv)|]. split; [done|]. destruct rs as [|r0 rs]; [done|].
      exists 0%nat, h, pend. split; [simpl; lia|]. split; [constructor|]. intros _. exists captured, segs, []. by rewrite Hd.
    + split; [unfold after_append; by rewrite Hd|]. split; [done|]. split; [by intros Hv; destruct (Hh Hv)|]. split; [done|].
      destruct (take_frames k rs) as (j & t & Hj & Ht & Hcut); [lia|]. rewrite <- (take_drop j rs) in HR.
      destruct (Replays_app_inv _ _ _ _ _ _ _ _ HR) as (hj & pj & HRj & _). exists j, hj, pj. split; [done|]. split; [done|]. intros Hbj.
      destruct (Logged_append (vfs_disk v) captured segs h pend (current (s_wal s)) (take j rs) t hj pj Hlg Hsg Hcu Hcut HRj) as (segs' & Hlg' & _); [apply Hun; intros x Hx; rewrite <- (take_drop j rs); apply in_or_app; by left|done|].
      exists captured, segs', t. by rewrite Hd, Ht.
Qed.

(** ** Committing *)

Definition is_write (r : Record_) : Prop := match kind r with KWrite _ _ => True | _ => False end.

Lemma Replays_writes d rs : forall h p h' p', Forall is_write rs -> Replays KM d h p rs h' p' -> h' = h.
Proof.
  induction rs as [|r rs IH]; intros h p h' p' Hw HR; inversion HR as [|? ? ? ? h1 p1 ? ? Hs HR1]; subst; [done|].
  apply Forall_cons in Hw as [Hr Hw]. destruct r as [n k]. unfold is_write in Hr. simpl in *. destruct k; try done. inversion Hs; subst. by eapply IH.
Qed.

Lemma write_records_ok d h l : forall w pend, exists w' rs,
  write_records l w = (w', rs) /\ w' = mkWal (current w) (current_bytes w) (next_lsn w + Z.of_nat (length l)) /\
  numbered (next_lsn w) (next_lsn w') rs /\ Forall is_write rs /\ length rs = length l /\
  Replays KM d h pend rs h (fold_left (fun m e => <[e.1 := e.2]> m) l pend).
Proof.
  induction l as [|[k c] l IH]; intros w pend.
  { exists w, []. split; [done|]. split; [destruct w; simpl; f_equal; lia|]. repeat split; constructor. }
  cbn [write_records take_lsn].
  destruct (IH (mkWal (current w) (current_bytes w) (next_lsn w + 1)) (<[k := c]> pend)) as (w' & rs & -> & -> & Hnum & Hw & Hlen & HR). simpl in *.
  eexists _, _. split; [done|]. split; [f_equal; lia|]. split; [|split; [|split]].
  - constructor; [simpl; lia|]. eapply Forall_impl; [exact Hnum|]. simpl. intros r Hr. lia.
  - by constructor.
  - simpl. by rewrite Hlen.
  - econstructor; [simpl; constructor|done].
Qed.

Lemma fold_insert_union {A} (l : list (Z * A)) : forall (m : gmap Z A), NoDup l.*1 -> fold_left (fun m e => <[e.1 := e.2]> m) l m = list_to_map l ∪ m.
Proof.
  induction l as [|[k c] l IH]; intros m Hnd; [by rewrite left_id_L by apply _|]. rewrite fmap_cons in Hnd. apply NoDup_cons in Hnd as [Hk Hnd].
  simpl in *. rewrite IH by done. rewrite <- insert_union_r by (by apply not_elem_of_list_to_map_1). by rewrite insert_union_l.
Qed.

Lemma pending_writes (ws pend : PageChanges) : dom pend ⊆ dom ws -> fold_left (fun m e => <[e.1 := e.2]> m) (ascending ws) pend = ws.
Proof.
  intros Hd. rewrite fold_insert_union, ascending_map by apply ascending_NoDup. apply map_eq. intros k. rewrite lookup_union.
  destruct (ws !! k) eqn:E; [by destruct (pend !! k)|]. destruct (pend !! k) eqn:E'; [|done]. exfalso.
  assert (k ∈ dom pend) as Hk by (apply elem_of_dom; eauto). apply Hd, elem_of_dom in Hk. rewrite E in Hk. by destruct Hk.
Qed.

Lemma backed_apply d em pages : stored_edits d em -> backed d pages -> backed d (apply_changes (hashed em) pages).
Proof.
  intros He Hb k i. rewrite lookup_apply_changes. unfold hashed. rewrite lookup_fmap. destruct (em !! k) as [[b|]|] eqn:E; simpl; [|done|apply Hb].
  intros [= <-]. exists b. by eapply He.
Qed.

(** A disk that holds the history before a commit, or the one after it. *)
Definition before_or_after (d : Disk) (h h' : History) : Prop := (exists pend, Durable d h pend) \/ (exists pend, Durable d h' pend).

Lemma Live_drop v s w t captured segs h pend : Live v (mkStore s w) captured segs h pend -> Live v (mkStore (drop_txn t s) w) captured segs h pend.
Proof.
  intros Hl. eapply (Live_pages v v (mkStore s w) (drop_txn t s)); [apply pages_added_refl|apply Hl|apply drop_txn_same|done].
Qed.

Lemma store_commit_ok v s captured segs id m pages h pend t now em next :
  Live v s captured segs ((id, m, pages) :: h) pend -> txn_base t = id -> writes t = hashed em -> stored_edits (vfs_disk v) em ->
  dom pend ⊆ dom (writes t) -> next = next_manifest id m pages (writes t) now -> KM next ->
  exists v' p' w' r, store_commit t now s v = (v', mkStore p' w', r) /\ (crashed v = true -> crashed v' = true) /\ (healthy v -> healthy v' /\ is_ok r = true) /\
    d_pages (vfs_disk v') = d_pages (vfs_disk v) /\
    let h' := (manifest_id next, next, apply_changes (writes t) pages) :: (id, m, pages) :: h in
    match r with
    | Ok id' => (apply_changes (writes t) pages = pages /\ id' = id /\ Live v' (mkStore p' w') captured segs ((id, m, pages) :: h) pend) \/
        (apply_changes (writes t) pages <> pages /\ id' = manifest_id next /\ exists segs', Live v' (mkStore p' w') captured segs' h' ∅)
    | Err _ => crashed v' = true /\ apply_changes (writes t) pages <> pages /\ before_or_after (vfs_disk v') ((id, m, pages) :: h) h'
    end.
Proof.
  intros Hl Hb Hw He Hpend Hnext HKn. pose proof Hl as [Hlg Hsg [[Hst Hbase] Hh] Hc Hhd Hcf Hcu Hls Hcp]. unfold store_commit. rewrite Hb, (derive_next_state _ _ id m pages _ _ Hc Hst).
  case_bool_decide as Hsame.
  { eexists _, _, _, _. split; [done|]. do 3 (split; [done|]). left. split; [done|]. split; [done|]. destruct s. by apply Live_drop. }
  rewrite <- Hnext. unfold wal_commit.
  destruct (write_records_ok (vfs_disk v) ((id, m, pages) :: h) (ascending (writes t)) (s_wal s) pend) as (w1 & rs & -> & -> & Hnum & Hwr & Hlen & HR).
  rewrite (pending_writes _ _ Hpend) in HR. cbn [take_lsn current current_bytes next_lsn] in *. set (n := next_lsn (s_wal s) + Z.of_nat (length (ascending (writes t)))) in *.
  set (h' := (manifest_id next, next, apply_changes (writes t) pages) :: (id, m, pages) :: h). set (commit := mkRecord n (KCommit (manifest_id next) now)).
  assert (Replays KM (vfs_disk v) ((id, m, pages) :: h) pend (rs ++ [commit]) h' ∅) as HRc.
  { eapply Replays_app; [exact HR|]. econstructor; [|constructor]. simpl. by apply step_commit. }
  assert (numbered (next_lsn (s_wal s)) (n + 1) (rs ++ [commit])) as Hnum'.
  { apply Forall_app. split; [|repeat constructor; simpl; lia]. eapply Forall_impl; [exact Hnum|]. simpl. intros r Hr. lia. }
  assert (Forall (fun e => backed (vfs_disk v) e.2) h') as Hbk'.
  { pose proof (lg_backed _ _ _ _ _ _ _ _ _ Hlg) as Hbk. constructor; [|done]. simpl. rewrite Hw. apply backed_apply; [done|]. by apply Forall_inv in Hbk. }
  destruct (wal_append_ok v s captured segs _ pend (n + 1) (rs ++ [commit]) h' ∅ Hl) as (v1 & w1 & r1 & E1 & Ha1 & Hcr1 & Hh1 & Hr1); [by destruct rs|done|done|lia|done|].
  rewrite E1. pose proof (after_append_grows _ _ Ha1) as Hg1. destruct Ha1 as (Hp1 & Hm1 & Hk1). destruct r1 as [[]|e]; cbn [map_ok].
  2: { destruct Hr1 as [Hcr (j & hj & pj & Hj & HRj & Hdur)]. eexists _, _, _, _. split; [done|]. split; [done|]. split; [by intros Hv; destruct (Hh1 Hv)|]. split; [done|].
       split; [done|]. split; [done|]. left. exists pj. assert (hj = (id, m, pages) :: h) as ->; [|apply Hdur; by apply Forall_inv_tail in Hbk'].
       rewrite length_app in Hj. simpl in Hj. rewrite take_app_le in HRj by lia. eapply Replays_writes; [|done]. by apply Forall_take. }
  destruct Hr1 as (segs' & Hlg1 & Hsg1 & Hcu1 & Hn1 & Hall1).
  assert (manifests_ok KM (vfs_disk v1)) as Hmo1 by apply Hlg1. pose proof (coherent_grows _ _ _ Hg1 Hc) as Hc1.
  destruct (install_cases cfg KM KB Hsep next (s_pager s) v1 HKn Hmo1 Hc1) as (v2 & p2 & r2 & -> & Hcr2 & Hh2 & Ha2 & Hmo2 & Hcf2 & _ & Hc2 & Hr2).
  pose proof (Logged_adds cfg KM KB _ _ _ _ _ _ _ Ha2 Hmo2 Hlg1) as Hlg2. assert (d_pages (vfs_disk v2) = d_pages (vfs_disk v1)) as Hp2 by apply Ha2.
  destruct r2 as [id2|e]; eexists _, _, _, _; (split; [done|]); (split; [by auto|]).
  2: { split; [intros Hv; by destruct (Hh2 (proj1 (Hh1 Hv)))|]. split; [congruence|]. split; [done|]. split; [done|]. right. exists ∅, captured, segs', []. done. }
  split; [intros Hv; split; [by apply Hh2, Hh1|done]|]. split; [congruence|]. right. split; [done|]. split; [done|]. exists segs'. apply Live_drop.
  destruct Hr2 as (-> & Hon & Hhd2). assert (grows (vfs_disk v) (vfs_disk v2)) as Hg2 by (eapply grows_trans; [done|by apply adds_grows]). split; simpl; try done.
  - rewrite <- Hsg1. apply Ha2.
  - destruct (next_manifest_stored _ id m pages (writes t) now next (State_grows _ _ _ _ _ Hg2 Hst) Hnext Hon) as [? ?]. split; [done|]. split; [done|].
    by apply (hist_ok_grows _ _ ((id, m, pages) :: h) Hg2).
  - by rewrite Hcf2.
  - rewrite Hall1, Hn1. apply Forall_app. split; [|by eapply Forall_impl; [exact Hnum'|]; simpl; intros r Hr; lia]. eapply Forall_impl; [exact Hls|]. simpl. intros r Hr. lia.
  - rewrite Hn1. destruct captured; lia.
Qed.

(** ** Checkpoints *)

(** A log whose records a checkpoint has all captured. *)
Record Captured (d : Disk) (n : Z) (segs : Segments) (h : History) : Prop := {
  cp_segments : d_segments d = enc segs;
  cp_sorted : bt_sorted segs;
  cp_lsn : Forall (fun r => lsn r <= n) (all_records segs);
  cp_hist : hist_ok d h;
  cp_marker : d_marker d = Some (wframe (mkRecord n (KCheckpoint (head_id h))));
  cp_manifests : manifests_ok KM d;
  cp_pages : pages_ok cfg KB d;
  cp_backed : Forall (fun e => backed d e.2) h;
}.

Lemma none_uncaptured n rs : Forall (fun r => lsn r <= n) rs -> uncaptured (Some n) rs = [].
Proof.
  induction 1 as [|r rs Hr _ IH]; [done|]. unfold uncaptured in *. cbn [List.filter].
  assert (captures (Some n) r = true) as -> by (by apply Z.leb_le). done.
Qed.

Lemma Captured_logged d n segs h : Captured d n segs h -> Logged d (Some n) segs [] h ∅.
Proof.
  intros [Hsg Hs Hl Hh Hm Hmo Hpo Hb]. split; try done; [by left|by left|]. exists h. split; [done|]. rewrite (none_uncaptured n _ Hl). constructor.
Qed.

Lemma enc_remove k (segs : Segments) : bt_remove k (enc segs) = enc (bt_remove k segs).
Proof. unfold enc. induction segs as [|[j rs] l IH]; [done|]. simpl. destruct (cmp_eqb k j); [done|]. simpl. by rewrite IH. Qed.

Lemma remove_records (P : Record_ -> Prop) k (segs : Segments) : Forall P (all_records segs) -> Forall P (all_records (bt_remove k segs)).
Proof.
  unfold all_records. induction segs as [|[j rs] l IH]; [done|]. cbn. intros [H1' H2']%Forall_app. destruct (cmp_eqb k j); cbn; [done|].
  apply Forall_app. split; [done|by apply IH].
Qed.

Lemma remove_segments_ok keep n h ks : forall segs v, Captured (vfs_disk v) n segs h ->
  exists v' r segs', remove_segments keep ks v = (v', r) /\ Captured (vfs_disk v') n segs' h /\ (forall c, Forall (fun p => p.1 <= c) segs -> Forall (fun p => p.1 <= c) segs') /\
    (forall c, Forall (fun r => lsn r < c) (all_records segs) -> Forall (fun r => lsn r < c) (all_records segs')) /\
    d_pages (vfs_disk v') = d_pages (vfs_disk v) /\ d_manifests (vfs_disk v') = d_manifests (vfs_disk v) /\
    (crashed v = true -> crashed v' = true) /\ (healthy v -> healthy v' /\ r = Ok tt) /\ (is_ok r = false -> crashed v' = true).
Proof.
  induction ks as [|k ks IH]; intros segs v Hcp; cbn [remove_segments].
  { exists v, (Ok tt), segs. split; [done|]. split; [done|]. by auto 10. }
  destruct (k <? keep); [|by apply IH].
  destruct (remove_file_cases (SegmentPath k) v) as (v1 & r1 & -> & Hcr1 & Hh1 & Hr1). destruct r1 as [[]|e].
  - assert (Captured (vfs_disk v1) n (bt_remove k segs) h) as Hcp1.
    { destruct Hcp as [Hsg Hs Hl Hh Hm Hmo Hpo Hb]. rewrite Hr1. split; simpl; try done.
      - by rewrite Hsg, enc_remove.
      - by apply bt_remove_sorted.
      - by apply remove_records.
      - eapply hist_ok_grows; [|exact Hh]. done. }
    destruct (IH (bt_remove k segs) v1 Hcp1) as (v' & r & segs' & -> & Hcp' & Hk' & Hl' & Hp' & Hm' & Hcr & Hh & He).
    exists v', r, segs'. split; [done|]. split; [done|]. split; [intros c Hc; apply Hk'; by apply bt_remove_Forall|]. split; [intros c Hc; apply Hl'; by apply remove_records|].
    rewrite Hr1 in Hp', Hm'. do 2 (split; [done|]). split; [by auto|]. split; [intros Hv; by apply Hh, Hh1|done].
  - destruct Hr1 as [Hd Hc]. exists v1. eexists _, segs. split; [done|]. rewrite Hd. split; [done|]. do 4 (split; [done|]). split; [done|]. split; [by intros Hv; destruct (Hh1 Hv)|done].
Qed.

Lemma wal_checkpoint_ok v s captured segs h pend M h2 :
  Live v s captured segs h pend -> ReplayStep KM (vfs_disk v) h pend (KCheckpoint M) h2 ∅ -> hist_ok (vfs_disk v) h2 -> head_id h2 = M ->
  Forall (fun e => backed (vfs_disk v) e.2) h2 ->
  exists v' w' r, wal_checkpoint M (s_wal s) v = (v', w', r) /\ d_pages (vfs_disk v') = d_pages (vfs_disk v) /\ d_manifests (vfs_disk v') = d_manifests (vfs_disk v) /\
    (crashed v = true -> crashed v' = true) /\ (healthy v -> healthy v' /\ is_ok r = true) /\
    match r with
    | Err _ => crashed v' = true /\ before_or_after (vfs_disk v') h h2
    | Ok n => exists segs', Captured (vfs_disk v') n segs' h2 /\ Forall (fun p => p.1 <= current w') segs' /\
        Forall (fun r => lsn r < next_lsn w') (all_records segs') /\ n < next_lsn w'
    end.
Proof.
  intros Hl Hs Hh2 HM Hbk. pose proof Hl as [Hlg Hsg _ _ _ _ Hcu Hls _]. unfold wal_checkpoint. cbn [take_lsn]. set (n := next_lsn (s_wal s)). set (rec := mkRecord n (KCheckpoint M)).
  destruct (wal_append_ok v s captured segs h pend (n + 1) [rec] h2 ∅ Hl) as (v1 & w1 & r1 & -> & Ha1 & Hcr1 & Hh1 & Hr1);
    [done|econstructor; [done|constructor]|repeat constructor; simpl; lia|lia|done|].
  pose proof (after_append_grows _ _ Ha1) as Hg1. destruct Ha1 as (Hp1 & Hm1 & Hk1). destruct r1 as [[]|e].
  2: { destruct Hr1 as [Hcr (j & hj & pj & Hj & HRj & Hdur)]. eexists _, _, _. split; [done|]. do 3 (split; [done|]). split; [by intros Hv; destruct (Hh1 Hv)|]. split; [done|].
       left. exists pj. assert (j = 0%nat) as -> by (simpl in Hj; lia). inversion HRj; subst. apply Hdur, Hlg. }
  destruct Hr1 as (segs1 & Hlg1 & Hsg1 & Hcu1 & Hn1 & Hall1). rewrite encode_record_frame.
  destruct (atomic_write_cases CheckpointPath (wframe rec) v1) as (v2 & r2 & -> & Hcr2 & Hh2' & Hr2). destruct r2 as [[]|e].
  2: { destruct Hr2 as [Hd2 Hc2]. eexists _, _, _. split; [done|]. rewrite Hd2. do 2 (split; [done|]). split; [by auto|]. split; [intros Hv; by destruct (Hh2' (proj1 (Hh1 Hv)))|]. split; [done|].
       right. exists ∅, captured, segs1, []. done. }
  assert (Captured (vfs_disk v2) n segs1 h2) as Hcp.
  { destruct Hlg1 as [_ _ Hs1 _ Hmo1 Hpo1 Hb1]. rewrite Hr2. split; simpl; try done.
    - rewrite Hall1. apply Forall_app. split; [|repeat constructor; simpl; lia]. eapply Forall_impl; [exact Hls|]. simpl. fold n. intros r Hr. lia.
    - eapply hist_ok_grows; [|exact Hh2]. eapply grows_trans; [exact Hg1|done].
    - by rewrite HM. }
  unfold truncate_segments_before. destruct (remove_segments_ok (current w1) n h2 (segments_in v2) segs1 v2 Hcp) as (v3 & r3 & segs3 & -> & Hcp3 & Hk3 & Hl3 & Hp3 & Hm3 & Hcr3 & Hh3 & He3).
  rewrite Hr2 in Hp3, Hm3. simpl in Hp3, Hm3. eexists _, _, _. split; [done|]. split; [congruence|]. split; [congruence|]. split; [by auto|].
  split; [intros Hv; destruct (Hh3 (proj1 (Hh2' (proj1 (Hh1 Hv))))) as [? ->]; done|].
  destruct r3 as [[]|e]; simpl.
  - exists segs3. split; [done|]. split; [by apply Hk3|]. split; [|lia]. apply Hl3. rewrite Hall1, Hn1. apply Forall_app.
    split; [|repeat constructor; simpl; lia]. eapply Forall_impl; [exact Hls|]. simpl. fold n. intros r Hr. lia.
  - split; [by apply He3|]. right. exists ∅, (Some n), segs3, []. by apply Captured_logged.
Qed.
End commit.
