(* ===== verification/Envelope.v ===== *)
(** * The write envelope ([loom-core]: envelope.rs, ids.rs, value.rs)

    Who wrote, where, why and from what, and the bytes a signature covers.  The
    signature scheme is a parameter: a key, and what signing and verifying do.

    Its later part: what a signature covers ([loom-core]: envelope.rs). *)

From Stdlib Require Import ZArith NArith Lia.
From stdpp Require Import base list strings.
From S2P Require Import Prelude Codec Text Pager Wal.

(** The identifiers are strings behind a type each. *)
Definition TenantId : Type := string.
Definition SessionId : Type := string.
Definition BranchId : Type := string.
Definition ActorId : Type := string.
Definition PolicyDecisionId : Type := string.

Record SourceRef := mkSource { system : string; record_id : string }.

#[export] Instance SourceRef_eq_dec : EqDecision SourceRef.
Proof. solve_decision. Defined.

(** [derive(PartialOrd, Ord)]: the system first. *)
#[export] Instance SourceRef_cmp : Cmp SourceRef := fun a b => cmp (system a, record_id a) (system b, record_id b).

(** The [Display] of a source. *)
Definition source_text (s : SourceRef) : text := tx (system s) ++ [58%N] ++ tx (record_id s).

Record WriteEnvelope := mkEnvelope {
  actor : ActorId;
  session : SessionId;
  env_branch : BranchId;
  context_hash : list N;
  delegation : list ActorId;
  derived_from : list SourceRef;
  intent : string;
  policy : option PolicyDecisionId;
  signature : list N;
}.

#[export] Instance WriteEnvelope_eq_dec : EqDecision WriteEnvelope.
Proof. solve_decision. Defined.

Definition envelope_new (a : ActorId) (s : SessionId) (b : BranchId) (why : string) : WriteEnvelope :=
  mkEnvelope a s b (replicate 32 0%N) [] [] why None [].

Definition with_sources (sources : list SourceRef) (e : WriteEnvelope) : WriteEnvelope :=
  mkEnvelope (actor e) (session e) (env_branch e) (context_hash e) (delegation e) (derived_from e ++ sources) (intent e) (policy e) (signature e).

Definition delegated_through (chain : list ActorId) (e : WriteEnvelope) : WriteEnvelope :=
  mkEnvelope (actor e) (session e) (env_branch e) (context_hash e) (delegation e ++ chain) (derived_from e) (intent e) (policy e) (signature e).

Definition with_context `{Blake3} (context : list N) (e : WriteEnvelope) : WriteEnvelope :=
  mkEnvelope (actor e) (session e) (env_branch e) (blake3_hash context) (delegation e) (derived_from e) (intent e) (policy e) (signature e).

Definition u64_le (n : nat) : list N := le_bytes 8 (Z.of_nat n).

(** [field] of [signing_bytes]: the length before the bytes. *)
Definition sign_field (bytes : list N) : list N := u64_le (length bytes) ++ bytes.
Definition sign_fields (l : list (list N)) : list N := u64_le (length l) ++ flat_map sign_field l.

Definition signing_bytes (e : WriteEnvelope) : list N :=
  sign_field (tx "loom-envelope-v1") ++ sign_field (tx (actor e)) ++ sign_field (tx (session e)) ++ sign_field (tx (env_branch e)) ++
  sign_field (context_hash e) ++ sign_field (tx (intent e)) ++
  sign_fields (map tx (delegation e)) ++ sign_fields (map source_text (derived_from e)).

Definition is_valid (e : WriteEnvelope) : bool :=
  negb (String.eqb (actor e) "") && negb (String.eqb (session e) "") && negb (String.eqb (env_branch e) "") &&
  negb (bool_decide (trim (tx (intent e)) = [])).

(** ** Signatures *)

(** ed25519: [verify_strict] says what is wrong with a signature, if anything. *)
Class Ed25519 := {
  SigningKey : Type;
  VerifyingKey : Type;
  verifying_key : SigningKey -> VerifyingKey;
  ed_sign : SigningKey -> list N -> list N;
  verify_strict : VerifyingKey -> list N -> list N -> option text;
}.

Inductive EnvelopeError :=
| EnvelopeUnsigned (who : ActorId)
| EnvelopeSignatureInvalid (who : ActorId) (detail : text).

Definition signed_by `{Ed25519} (key : SigningKey) (e : WriteEnvelope) : WriteEnvelope :=
  mkEnvelope (actor e) (session e) (env_branch e) (context_hash e) (delegation e) (derived_from e) (intent e) (policy e)
    (ed_sign key (signing_bytes e)).

Definition verify `{Ed25519} (key : VerifyingKey) (e : WriteEnvelope) : result EnvelopeError unit :=
  if bool_decide (signature e = []) then Err (EnvelopeUnsigned (actor e))
  else if negb (length (signature e) =? 64)%nat then
    Err (EnvelopeSignatureInvalid (actor e) (tx "an ed25519 signature is 64 bytes; this one is " ++ dec (Z.of_nat (length (signature e)))))
  else match verify_strict key (signing_bytes e) (signature e) with
       | Some detail => Err (EnvelopeSignatureInvalid (actor e) detail)
       | None => Ok tt
       end.

(** * What a signature covers ([loom-core]: envelope.rs)

    The bytes an envelope signs determine its signed fields, as long as no source
    system's name holds a colon; with one, two attributions sign alike. *)

(** Lengths that a [usize] holds. *)
Definition u64_long {A} (l : list A) : Prop := Z.of_nat (length l) < 2 ^ 64.

Lemma u64_le_inj m n : Z.of_nat m < 2 ^ 64 -> Z.of_nat n < 2 ^ 64 -> u64_le m = u64_le n -> m = n.
Proof.
  intros Hm Hn E. apply Nat2Z.inj. assert (forall k, Z.of_nat k < 2 ^ 64 -> from_le_bytes (u64_le k) = Z.of_nat k) as Hk.
  { intros k Hk. unfold u64_le. rewrite from_le_le_bytes. apply Z.mod_small. change (256 ^ Z.of_nat 8) with (2 ^ 64). lia. }
  rewrite <- (Hk m Hm), <- (Hk n Hn). by rewrite E.
Qed.

Lemma u64_le_app m n x y : Z.of_nat m < 2 ^ 64 -> Z.of_nat n < 2 ^ 64 -> u64_le m ++ x = u64_le n ++ y -> m = n /\ x = y.
Proof. intros Hm Hn [E ->]%app_inj_1; [|unfold u64_le; by rewrite !le_bytes_length]. split; [by apply u64_le_inj|done]. Qed.

(** A field can be read off the front. *)
Lemma sign_field_inj a b x y : u64_long a -> u64_long b -> sign_field a ++ x = sign_field b ++ y -> a = b /\ x = y.
Proof.
  intros Ha Hb. unfold sign_field. rewrite <- !app_assoc. intros [Hl E]%u64_le_app; [|done..]. by apply app_inj_1.
Qed.

Lemma sign_fields_inj l k x y : u64_long l -> u64_long k -> Forall u64_long l -> Forall u64_long k ->
  sign_fields l ++ x = sign_fields k ++ y -> l = k /\ x = y.
Proof.
  intros Hl Hk Fl Fk. unfold sign_fields. rewrite <- !app_assoc. intros [Hlen E]%u64_le_app; [|done..]. clear Hl Hk. revert k Fk Hlen E.
  induction Fl as [|a l Ha Fl IH]; intros [|b k] Fk Hlen E; try done. cbn [flat_map] in E. rewrite <- !app_assoc in E.
  apply Forall_cons in Fk as [Hb Fk]. destruct (sign_field_inj _ _ _ _ Ha Hb E) as [-> E']. simpl in Hlen.
  destruct (IH k Fk) as [-> ->]; [lia|done..].
Qed.

Definition colon_free (s : string) : Prop := Forall (fun b => b <> 58%N) (tx s).

Lemma colon_split a b x y : Forall (fun c => c <> 58%N) a -> Forall (fun c => c <> 58%N) b -> a ++ 58%N :: x = b ++ 58%N :: y -> a = b /\ x = y.
Proof.
  intros Ha. revert b. induction Ha as [|c a Hc Ha IH]; intros b Hb E; destruct Hb as [|c' b Hc' Hb]; simpl in E; injection E; intros; subst; try done.
  destruct (IH b Hb) as [-> ->]; done.
Qed.

Lemma source_text_inj s s' : colon_free (system s) -> colon_free (system s') -> source_text s = source_text s' -> s = s'.
Proof.
  intros Hs Hs' E. unfold source_text in E. apply colon_split in E as [E1 E2]; [|done..].
  apply string_bytes_inj in E1. apply string_bytes_inj in E2. destruct s, s'. simpl in *. congruence.
Qed.

(** An envelope of lengths a machine holds. *)
Record sized (e : WriteEnvelope) : Prop := {
  sz_actor : u64_long (tx (actor e));
  sz_session : u64_long (tx (session e));
  sz_branch : u64_long (tx (env_branch e));
  sz_context : u64_long (context_hash e);
  sz_intent : u64_long (tx (intent e));
  sz_delegation : u64_long (delegation e) /\ Forall (fun a => u64_long (tx a)) (delegation e);
  sz_sources : u64_long (derived_from e) /\ Forall (fun s => u64_long (source_text s)) (derived_from e);
}.

(** What an envelope says, its policy and its signature apart. *)
Definition signed_part (e : WriteEnvelope) :=
  (actor e, session e, env_branch e, context_hash e, intent e, delegation e, derived_from e).

Lemma u64_long_map {A B} (f : A -> B) l : u64_long l -> u64_long (map f l).
Proof. unfold u64_long. by rewrite length_map. Qed.

Lemma map_inj_on {A B} (f : A -> B) (P : A -> Prop) l k :
  (forall a b, P a -> P b -> f a = f b -> a = b) -> Forall P l -> Forall P k -> map f l = map f k -> l = k.
Proof.
  intros Hf Hl. revert k. induction Hl as [|a l Ha Hl IH]; intros [|b k] Hk E; try done. apply Forall_cons in Hk as [Hb Hk].
  injection E as E1 E2. f_equal; [by apply Hf|by apply IH].
Qed.

Lemma signing_bytes_inj e e' :
  sized e -> sized e' -> Forall (fun s => colon_free (system s)) (derived_from e) -> Forall (fun s => colon_free (system s)) (derived_from e') ->
  signing_bytes e = signing_bytes e' -> signed_part e = signed_part e'.
Proof.
  intros [Ha Hs Hb Hc Hi [Hd Fd] [Hf Ff]] [Ha' Hs' Hb' Hc' Hi' [Hd' Fd'] [Hf' Ff']] Hk Hk' E. unfold signing_bytes in E.
  apply sign_field_inj in E as [_ E]; [|done..]. apply sign_field_inj in E as [E1 E]; [|done..]. apply sign_field_inj in E as [E2 E]; [|done..].
  apply sign_field_inj in E as [E3 E]; [|done..]. apply sign_field_inj in E as [E4 E]; [|done..]. apply sign_field_inj in E as [E5 E]; [|done..].
  apply sign_fields_inj in E as [E6 E]; [|by apply u64_long_map|by apply u64_long_map|by apply Forall_map|by apply Forall_map].
  rewrite <- (app_nil_r (sign_fields (map source_text (derived_from e)))), <- (app_nil_r (sign_fields (map source_text (derived_from e')))) in E.
  apply sign_fields_inj in E as [E7 _]; [|by apply u64_long_map|by apply u64_long_map|by apply Forall_map|by apply Forall_map].
  unfold signed_part. apply string_bytes_inj in E1, E2, E3, E5.
  assert (delegation e = delegation e') as ->.
  { eapply (map_inj_on tx (fun _ => True)); [intros; by apply string_bytes_inj|by apply Forall_true..|done]. }
  assert (derived_from e = derived_from e') as -> by (by eapply map_inj_on; [apply source_text_inj|..]).
  congruence.
Qed.

(** Signatures are 64 bytes and verify under their key. *)
Class Ed25519Laws `{Ed25519} := {
  ed_sign_length : forall k m, length (ed_sign k m) = 64%nat;
  ed_sign_verifies : forall k m, verify_strict (verifying_key k) m (ed_sign k m) = None;
}.

(** C38: an envelope signed with a key verifies under it; and, where no source
    system's name holds a colon, two envelopes sign the same bytes exactly when they
    have the same actor, session, branch, context, intent, chain of delegation and
    sources. *)
Theorem signature_covers_envelope `{Ed25519Laws} (key : SigningKey) (e e' : WriteEnvelope)
  (He : sized e) (He' : sized e')
  (Hc : Forall (fun s => colon_free (system s)) (derived_from e)) (Hc' : Forall (fun s => colon_free (system s)) (derived_from e')) :
  verify (verifying_key key) (signed_by key e) = Ok tt /\
  (signing_bytes e = signing_bytes e' <-> signed_part e = signed_part e').
Proof.
  split.
  - unfold verify, signed_by. cbn [signature]. pose proof (ed_sign_length key (signing_bytes e)) as Hl.
    rewrite bool_decide_eq_false_2 by (intros E; by rewrite E in Hl). rewrite Hl. cbn [Nat.eqb negb].
    change (signing_bytes (mkEnvelope _ _ _ _ _ _ _ _ _)) with (signing_bytes e). by rewrite ed_sign_verifies.
  - split; [by apply signing_bytes_inj|]. unfold signed_part, signing_bytes. intros E. injection E. by intros -> -> -> -> -> -> ->.
Qed.

Definition ex_ed25519 : Ed25519 :=
  {| SigningKey := unit; VerifyingKey := unit; verifying_key k := k; ed_sign _ m := replicate 64 0%N; verify_strict _ _ _ := None |}.

Lemma ex_ed25519_laws : @Ed25519Laws ex_ed25519.
Proof. split; [intros; apply length_replicate|done]. Qed.

Definition ex_envelope : WriteEnvelope :=
  with_sources [mkSource "crm" "a:17"] (delegated_through ["human"%string] (envelope_new "agent" "s1" "main" "close the ticket")).

Lemma ex_envelope_sized : sized ex_envelope.
Proof. split; try reflexivity; split; try reflexivity; repeat constructor; reflexivity. Qed.

Lemma signature_covers_envelope_witness :
  verify (H := ex_ed25519) tt (signed_by (H := ex_ed25519) tt ex_envelope) = Ok tt.
Proof.
  apply (signature_covers_envelope (H := ex_ed25519) (H0 := ex_ed25519_laws) tt ex_envelope ex_envelope);
    [apply ex_envelope_sized..|repeat constructor; vm_compute; repeat constructor; discriminate|repeat constructor; vm_compute; repeat constructor; discriminate].
Defined.

(** The sources of an envelope are signed as [system:record], so moving a colon
    from a record to its system, or the policy decision that permitted the write,
    changes what the envelope says and leaves the bytes its signature covers as they
    were: under any signature scheme the signature of the one verifies the other. *)
Theorem attribution_not_covered `{Ed25519} (key : SigningKey) (e : WriteEnvelope) (a b c : string) (p p' : option PolicyDecisionId) :
  let colon := String (Ascii.ascii_of_N 58) EmptyString in
  let said s p := mkEnvelope (actor e) (session e) (env_branch e) (context_hash e) (delegation e) [s] (intent e) p (signature e) in
  let first := said (mkSource (a +:+ colon +:+ b) c) p in
  let second := said (mkSource a (b +:+ colon +:+ c)) p' in
  signing_bytes first = signing_bytes second /\ derived_from first <> derived_from second /\
  verify (verifying_key key) (signed_by key first) =
  verify (verifying_key key) (mkEnvelope (actor e) (session e) (env_branch e) (context_hash e) (delegation e) (derived_from second) (intent e) p'
    (signature (signed_by key first))).
Proof.
  intros colon said first second.
  assert (source_text (mkSource (a +:+ colon +:+ b) c) = source_text (mkSource a (b +:+ colon +:+ c))) as E.
  { unfold source_text. cbn [system record_id]. rewrite !tx_app. change (tx colon) with [58%N]. by rewrite <- !app_assoc. }
  assert (signing_bytes first = signing_bytes second) as Es.
  { unfold signing_bytes, first, second, said. cbn [actor session env_branch context_hash intent delegation derived_from map]. by rewrite E. }
  split; [done|]. split.
  - cbn. intros [= Ha _]. apply (f_equal String.length) in Ha. revert Ha. unfold colon. clear.
    induction a as [|x a IH]; [done|]. simpl. intros [= Ha]. by apply IH.
  - assert (forall f g : WriteEnvelope, actor f = actor g -> signature f = signature g -> signing_bytes f = signing_bytes g ->
      verify (verifying_key key) f = verify (verifying_key key) g) as Hv by (intros f g Ha Hg Hb; unfold verify; by rewrite Ha, Hg, Hb).
    apply Hv; [done..|exact Es].
Qed.
