(* ===== verification/Bridge.v ===== *)
(** * The write boundary ([mutiny-bridge]: lib.rs)

    A commit of application pages carries its logical capture on a reserved page of
    the same transaction; the captures of the manifest history are the queue the
    compute log consumes, one epoch per commit.  An error of the store is kept
    instead of its text.  The codec of the capture page (bincode) and the authority
    that admits envelopes are parameters. *)

From Stdlib Require Import ZArith NArith Lia.
From stdpp Require Import base list gmap strings sorting.
From S2P Require Import Prelude BTree Value ZSet Bind Codec Text LogRecord Log Vfs Pager Wal Envelope.

Definition DERIVATION_TABLE : string := "mutiny_derivation".
Definition CAPTURE_PAGE : Z := 2 ^ 64 - 1.
Definition CAPTURE_MAGIC : list N := tx "MTNYCAP1".

Definition EnvelopeId : Type := list N.

Definition envelope_id `{Blake3} (e : WriteEnvelope) : EnvelopeId := blake3_hash (signing_bytes e).

Definition hex_string (bytes : list N) : string := bytes_string (to_hex bytes).

(** The trust plane's hook: admit an envelope, or say why not. *)
Definition EnvelopeAuthority : Type := EnvelopeId -> WriteEnvelope -> result text unit.

(** ** Captures *)

Record CapturedChange := mkChange { c_row : Row; c_weight : Z; c_primary_key : list N; c_pages : gset Z }.

Abbreviation CapturedTable := (list CapturedChange).

Record CommitDraft := mkDraft {
  dr_tenant : TenantId;
  dr_plane : string;
  dr_seq : Z;
  dr_branch : BranchId;
  dr_envelope : WriteEnvelope;
  dr_tables : btree string CapturedTable;
}.

Record CommitCapture := mkCapture {
  cc_tenant : TenantId;
  cc_plane : string;
  cc_commit : ManifestId;
  cc_seq : Z;
  cc_manifest : Manifest;
  cc_branch : BranchId;
  cc_envelope : WriteEnvelope;
  cc_physical : gset Z;
  cc_tables : btree string CapturedTable;
}.

Inductive ApplyDisposition := Applied | Replayed.

Record ApplyReceipt := mkReceipt {
  rc_commit : ManifestId;
  rc_epoch : Z;
  rc_envelope : EnvelopeId;
  rc_disposition : ApplyDisposition;
  rc_appended : Z;
  rc_replayed : Z;
}.

(** Why a capture page could not be read back. *)
Inductive CaptureReason := Unreadable (e : WalError) | Malformed (reason : text).

Inductive BridgeError :=
| InvalidIdentifier (field : string)
| InvalidEnvelope
| BranchMismatch (envelope commit : string)
| EnvelopeRefused (id : string) (reason : text)
| ManifestIdMismatch
| ZeroSequence
| EmptyCommit (commit : string)
| EmptyTable (table : string)
| ZeroWeight (table : string)
| AuditMismatch (unexplained phantom : list Z)
| SequenceGap (expected found : Z)
| ReplayMismatch (epoch : Z)
| ReplayCompacted (epoch : Z)
| ForeignPendingBatch (commit : string)
| CapturePageReserved (page : Z)
| CaptureEncode (reason : text)
| CatalogMismatch (reason : text)
| CaptureDecode (commit : string) (reason : CaptureReason)
| ConsumedBeyondSealed (floor sealed : Z)
| Storage (reason : WalError)
| UncapturedParent (commit : string) (page_count : Z)
| BridgeLog (e : LogError)
(** not in the source: a walk of the history that ran out of steps *)
| WalkOutOfFuel.

(** ** The capture page *)

Inductive ValueWire := WNull | WInt (i : Z) | WStr (s : string) | WBool (b : bool) | WFloat (bits : Z).

Record ChangeWire := mkChangeWire { w_row : list ValueWire; w_weight : Z; w_key : list N; w_pages : list Z }.

Record EnvelopeWire := mkEnvelopeWire {
  w_actor : string;
  w_session : string;
  w_branch : string;
  w_context : list N;
  w_delegation : list string;
  w_sources : list (string * string);
  w_intent : string;
  w_policy : option string;
  w_signature : list N;
}.

Record CaptureWire := mkWire {
  w_magic : list N;
  w_tenant : string;
  w_plane : string;
  w_seq : Z;
  w_on_branch : string;
  w_envelope : EnvelopeWire;
  w_tables : btree string (list ChangeWire);
}.

(** bincode with fixed-width integers, a limit of one mebibyte, no trailing bytes. *)
Class CaptureCodec := {
  capture_serialize : CaptureWire -> result text (list N);
  capture_deserialize : list N -> result text CaptureWire;
}.

Definition value_to_wire (v : Value) : ValueWire :=
  match v with VNull => WNull | VInt i => WInt i | VStr s => WStr s | VBool b => WBool b | VFloat f => WFloat (as_u64 f) end.

Definition value_from_wire (w : ValueWire) : Value :=
  match w with WNull => VNull | WInt i => VInt i | WStr s => VStr s | WBool b => VBool b | WFloat u => VFloat (as_i64 u) end.

(** A set of pages in ascending order. *)
Definition sorted_pages (pages : gset Z) : list Z := merge_sort Z.le (elements pages).

Definition change_to_wire (c : CapturedChange) : ChangeWire :=
  mkChangeWire (map value_to_wire (c_row c)) (c_weight c) (c_primary_key c) (sorted_pages (c_pages c)).

Definition change_from_wire (w : ChangeWire) : CapturedChange :=
  mkChange (map value_from_wire (w_row w)) (w_weight w) (w_key w) (list_to_set (w_pages w)).

Definition envelope_to_wire (e : WriteEnvelope) : EnvelopeWire :=
  mkEnvelopeWire (actor e) (session e) (env_branch e) (context_hash e) (delegation e)
    (map (fun s => (system s, record_id s)) (derived_from e)) (intent e) (policy e) (signature e).

Definition envelope_from_wire (w : EnvelopeWire) : WriteEnvelope :=
  mkEnvelope (w_actor w) (w_session w) (w_branch w) (w_context w) (w_delegation w)
    (map (fun p => mkSource p.1 p.2) (w_sources w)) (w_intent w) (w_policy w) (w_signature w).

Definition draft_to_wire (d : CommitDraft) : CaptureWire :=
  mkWire CAPTURE_MAGIC (dr_tenant d) (dr_plane d) (dr_seq d) (dr_branch d) (envelope_to_wire (dr_envelope d))
    (bt_of_list (map (fun t => (t.1, map change_to_wire t.2)) (dr_tables d))).

Definition encode_draft `{CaptureCodec} (d : CommitDraft) : result BridgeError (list N) :=
  map_err CaptureEncode (capture_serialize (draft_to_wire d)).

Definition decode_draft `{CaptureCodec} (bytes : list N) : result text CommitDraft :=
  let? w := capture_deserialize bytes in
  if negb (bool_decide (w_magic w = CAPTURE_MAGIC)) then Err (tx "capture magic/version is not MTNYCAP1")
  else Ok (mkDraft (w_tenant w) (w_plane w) (w_seq w) (w_on_branch w) (envelope_from_wire (w_envelope w))
             (bt_of_list (map (fun t => (t.1, map change_from_wire t.2)) (w_tables w)))).

(** ** Validation *)

Definition ascii_control (b : N) : bool := ((b <? 32) || (b =? 127))%N.

Definition validate_identifier (field value : string) : result BridgeError unit :=
  if bool_decide (trim (tx value) = []) || existsb (N.eqb 47) (tx value) || existsb ascii_control (tx value)
  then Err (InvalidIdentifier field) else Ok tt.

Definition derivation_schema : result BridgeError Schema :=
  map_err (fun e => BridgeLog (LogZSet e))
    (new_table (map (fun n => mkField n Utf8 false)
       ["tenant"; "branch"; "table_name"; "row_key"; "source_system"; "source_record"; "envelope"]%string)).

(** A table's name, that it has changes and that none weighs zero. *)
Definition validate_table (t : string * CapturedTable) : result BridgeError unit :=
  check? validate_identifier "table" t.1 in
  if String.eqb t.1 DERIVATION_TABLE then Err (InvalidIdentifier "table")
  else if bool_decide (length t.2 = 0%nat) then Err (EmptyTable t.1)
  else if existsb (fun c => c_weight c =? 0) t.2 then Err (ZeroWeight t.1)
  else Ok tt.

Definition explained_pages (tables : btree string CapturedTable) : result BridgeError (gset Z) :=
  try_fold (fun pages t => if bool_decide (length t.2 = 0%nat) then Err (EmptyTable t.1)
                           else Ok (pages ∪ ⋃ (map c_pages t.2))) ∅ tables.

Definition audit_pages (physical explained : gset Z) : result BridgeError unit :=
  let unexplained := sorted_pages (physical ∖ explained) in
  let phantom := sorted_pages (explained ∖ physical) in
  match unexplained, phantom with
  | [], [] => Ok tt
  | _, _ => Err (AuditMismatch unexplained phantom)
  end.

(** The rows of a batch against the schema of its table. *)
Definition validate_rows (catalog : Catalog) (table : string) (rows : list Row) : result BridgeError unit :=
  let? schema := ok_or (bt_get table catalog) (BridgeLog (LogUnknownTable table)) in
  try_for (fun row => map_err BridgeLog (log_check_row schema (row, 0))) rows.

Definition validate_draft_against_catalog (d : CommitDraft) (catalog : Catalog) : result BridgeError unit :=
  let? declared := ok_or (bt_get DERIVATION_TABLE catalog) (BridgeLog (LogUnknownTable DERIVATION_TABLE)) in
  let? fixed := derivation_schema in
  if negb (bool_decide (declared = fixed)) then
    Err (CatalogMismatch (tx "catalog schema for " ++ [34%N] ++ tx DERIVATION_TABLE ++ [34%N] ++ tx " is not the fixed M1 schema"))
  else try_for (fun t => validate_rows catalog t.1 (map c_row t.2)) (dr_tables d).

Definition validate_against_catalog (log : Log) (batches : list Batch) : result BridgeError unit :=
  try_for (fun b => validate_rows (log_catalog log) (batch_table b) (map fst (batch_rows b))) batches.

Section bridge.
Context `{Blake3} `{ManifestCodec} `{RecordCodec} `{CaptureCodec}.

Definition refused {A} (id : EnvelopeId) (r : result text A) : result BridgeError A :=
  map_err (EnvelopeRefused (hex_string id)) r.

Definition validate_draft (d : CommitDraft) (authority : EnvelopeAuthority) : result BridgeError unit :=
  check? validate_identifier "tenant" (dr_tenant d) in
  check? validate_identifier "plane" (dr_plane d) in
  check? validate_identifier "branch" (dr_branch d) in
  if dr_seq d =? 0 then Err ZeroSequence
  else if negb (is_valid (dr_envelope d)) then Err InvalidEnvelope
  else if negb (String.eqb (env_branch (dr_envelope d)) (dr_branch d)) then Err (BranchMismatch (env_branch (dr_envelope d)) (dr_branch d))
  else if bool_decide (length (dr_tables d) = 0%nat) then Err (EmptyCommit "not-yet-assigned")
  else check? try_for validate_table (dr_tables d) in
  let id := envelope_id (dr_envelope d) in refused id (authority id (dr_envelope d)).

Definition store_read (s : DurableStore) (id : ManifestId) (page_no : Z) (v : Vfs) : result WalError Page :=
  map_err WalPager (read (s_pager s) id page_no v).

Definition store_manifest (s : DurableStore) (id : ManifestId) (v : Vfs) : result BridgeError Manifest :=
  map_err (fun e => Storage (WalPager e)) (fetch (s_pager s) id v).

Definition decode_page (commit : ManifestId) (page : Page) : result BridgeError CommitDraft :=
  map_err (fun reason => CaptureDecode (hex_string commit) (Malformed reason)) (decode_draft (page_bytes page)).

Definition validate_parent_sequence (s : DurableStore) (base : ManifestId) (found : Z) (v : Vfs) : result BridgeError unit :=
  match store_read s base CAPTURE_PAGE v with
  | Ok page =>
      let? prior := decode_page base page in
      if negb (found =? dr_seq prior + 1) then Err (SequenceGap (dr_seq prior + 1) found) else Ok tt
  | Err (WalPager (PageNotFound _ _)) =>
      if found =? 1 then
        let? m := store_manifest s base v in
        if page_count m =? 0 then Ok tt else Err (UncapturedParent (hex_string base) (page_count m))
      else Err (SequenceGap 1 found)
  | Err e => Err (Storage e)
  end.

Definition materialize_capture (s : DurableStore) (commit : ManifestId) (d : CommitDraft) (physical : gset Z) (v : Vfs) : result BridgeError CommitCapture :=
  let? m := store_manifest s commit v in
  Ok (mkCapture (dr_tenant d) (dr_plane d) commit (dr_seq d) m (dr_branch d) (dr_envelope d) physical (dr_tables d)).

(** ** Committing *)

(** Everything that is checked before the transaction is touched, and the capture's
    bytes. *)
Definition admit_draft (s : DurableStore) (t : Txn) (d : CommitDraft) (catalog : Catalog) (authority : EnvelopeAuthority) (v : Vfs) : result BridgeError (list N) :=
  if bool_decide (is_Some (writes t !! CAPTURE_PAGE)) then Err (CapturePageReserved CAPTURE_PAGE)
  else check? validate_draft d authority in
  check? validate_draft_against_catalog d catalog in
  check? validate_parent_sequence s (txn_base t) (dr_seq d) v in
  let? explained := explained_pages (dr_tables d) in
  check? audit_pages (dom (writes t)) explained in
  encode_draft d.

Definition commit_with_capture (s : DurableStore) (t : Txn) (d : CommitDraft) (catalog : Catalog) (authority : EnvelopeAuthority) (now : Z) (v : Vfs) :
    Vfs * DurableStore * result BridgeError CommitCapture :=
  match admit_draft s t d catalog authority v with
  | Err e => (v, mkStore (drop_txn t (s_pager s)) (s_wal s), Err e)
  | Ok bytes =>
      match store_write CAPTURE_PAGE bytes t s v with
      | (v, s, t, Err e) => (v, mkStore (drop_txn t (s_pager s)) (s_wal s), Err (Storage e))
      | (v, s, t, Ok _) =>
          match store_commit t now s v with
          | (v, s, Err e) => (v, s, Err (Storage e))
          | (v, s, Ok commit) => (v, s, materialize_capture s commit d (dom (writes t)) v)
          end
      end
  end.

(** ** The queue *)

Definition recover_capture (s : DurableStore) (commit : ManifestId) (v : Vfs) : result BridgeError CommitCapture :=
  let? page := map_err (fun e => CaptureDecode (hex_string commit) (Unreadable e)) (store_read s commit CAPTURE_PAGE v) in
  let? d := decode_page commit page in
  let? pages := explained_pages (dr_tables d) in
  materialize_capture s commit d ({[CAPTURE_PAGE]} ∪ pages) v.

Definition has_capture (s : DurableStore) (id : ManifestId) (v : Vfs) : result BridgeError bool :=
  map_ok (fun o => bool_decide (is_Some o)) (map_err (fun e => Storage (WalPager e)) (lookup_page (s_pager s) id CAPTURE_PAGE v)).

(** The captures above the sealed epoch, newest first. *)
Fixpoint pending_from (fuel : nat) (s : DurableStore) (current : ManifestId) (sealed_epoch : Z) (v : Vfs) : result BridgeError (list CommitCapture) :=
  match fuel with
  | O => Err WalkOutOfFuel
  | S fuel =>
      let? m := store_manifest s current v in
      match parent m with
      | None =>
          let? captured := has_capture s current v in
          if captured then
            let? c := recover_capture s current v in
            if sealed_epoch <? cc_seq c then Err (ConsumedBeyondSealed (cc_seq c) sealed_epoch) else Ok []
          else Ok []
      | Some up =>
          let? c := recover_capture s current v in
          if cc_seq c <=? sealed_epoch then Ok [] else map_ok (cons c) (pending_from fuel s up sealed_epoch v)
      end
  end.

(** A history has no more manifests than the disk and the cache hold. *)
Definition history_fuel (s : DurableStore) (v : Vfs) : nat := S (size (d_manifests (vfs_disk v)) + size (cache (s_pager s))).

Fixpoint check_dense (expected : Z) (captures : list CommitCapture) : result BridgeError unit :=
  match captures with
  | [] => Ok tt
  | c :: captures => if negb (cc_seq c =? expected) then Err (SequenceGap expected (cc_seq c)) else check_dense (expected + 1) captures
  end.

Definition recover_pending_captures (s : DurableStore) (head : ManifestId) (sealed_epoch : Z) (v : Vfs) : result BridgeError (list CommitCapture) :=
  let? newest_first := pending_from (history_fuel s v) s head sealed_epoch v in
  let pending := rev newest_first in
  check? check_dense (sealed_epoch + 1) pending in Ok pending.

(** ** Batches *)

#[export] Instance Batch_eq_dec : EqDecision Batch.
Proof. solve_decision. Defined.

(** [sort] and [dedup] of a vector. *)
Definition cmp_le {A} `{Cmp A} (x y : A) : Prop := cmp x y <> Gt.
#[export] Instance cmp_le_dec {A} `{Cmp A} : RelDecision (cmp_le (A := A)).
Proof. intros x y. unfold Decision, cmp_le. destruct (cmp x y); [left|left|right]; congruence. Defined.

Fixpoint dedup_adjacent {A} `{EqDecision A} (l : list A) : list A :=
  match l with
  | [] => []
  | x :: l => match dedup_adjacent l with
              | y :: l' => if decide (x = y) then y :: l' else x :: y :: l'
              | [] => [x]
              end
  end.

(** The sources of a commit, each once. *)
Definition sources_of (e : WriteEnvelope) : list SourceRef := dedup_adjacent (merge_sort cmp_le (derived_from e)).

Definition slash : string := "/".

Definition table_batch (c : CommitCapture) (t : string * CapturedTable) : Batch :=
  mkLogBatch (cc_tenant c +:+ slash +:+ cc_plane c +:+ slash +:+ t.1) (hex_string (cc_commit c) +:+ slash +:+ t.1) t.1
    (merge_sort cmp_le (map (fun ch => (c_row ch, c_weight ch)) t.2)).

(** The rows that say from what a change was derived. *)
Definition derivation_rows (c : CommitCapture) (envelope : EnvelopeId) (t : string * CapturedTable) : Entries :=
  flat_map (fun ch => map (fun s =>
    ([VStr (cc_tenant c); VStr (cc_branch c); VStr t.1; VStr (hex_string (c_primary_key ch)); VStr (system s); VStr (record_id s);
      VStr (hex_string envelope)], c_weight ch)) (sources_of (cc_envelope c))) t.2.

Definition derivation_batch (c : CommitCapture) (envelope : EnvelopeId) : Batch :=
  mkLogBatch (cc_tenant c +:+ "/trust/" +:+ DERIVATION_TABLE) (hex_string (cc_commit c) +:+ slash +:+ DERIVATION_TABLE) DERIVATION_TABLE
    (merge_sort cmp_le (flat_map (derivation_rows c envelope) (cc_tables c))).

(** The batches of a capture, in the order of their tables. *)
Definition batches_of (c : CommitCapture) (envelope : EnvelopeId) : list Batch :=
  map snd (bt_insert DERIVATION_TABLE (derivation_batch c envelope) (bt_of_list (map (fun t => (t.1, table_batch c t)) (cc_tables c)))).

Definition prepare (c : CommitCapture) (authority : EnvelopeAuthority) : result BridgeError (EnvelopeId * list Batch) :=
  check? validate_identifier "tenant" (cc_tenant c) in
  check? validate_identifier "plane" (cc_plane c) in
  check? validate_identifier "branch" (cc_branch c) in
  if cc_seq c =? 0 then Err ZeroSequence
  else if negb (is_valid (cc_envelope c)) then Err InvalidEnvelope
  else if negb (String.eqb (env_branch (cc_envelope c)) (cc_branch c)) then Err (BranchMismatch (env_branch (cc_envelope c)) (cc_branch c))
  else if negb (bool_decide (manifest_id (cc_manifest c) = cc_commit c)) then Err ManifestIdMismatch
  else if bool_decide (length (cc_tables c) = 0%nat) then Err (EmptyCommit (hex_string (cc_commit c)))
  else
    let envelope := envelope_id (cc_envelope c) in
    check? refused envelope (authority envelope (cc_envelope c)) in
    check? try_for validate_table (cc_tables c) in
    let explained := ⋃ (map (fun t => ⋃ (map c_pages t.2)) (cc_tables c)) in
    check? audit_pages (cc_physical c ∖ {[CAPTURE_PAGE]}) explained in
    Ok (envelope, batches_of c envelope).

Definition prepared_batches (c : CommitCapture) (authority : EnvelopeAuthority) : result BridgeError (list Batch) := map_ok snd (prepare c authority).

(** ** The epoch boundary *)

(** The batches of a crashed attempt first, each group by table. *)
Definition admission_order (log : Log) (batches : list Batch) : list Batch :=
  let key b := (negb (bt_contains (dedup_token b) (dedup log)), batch_table b) in
  merge_sort (fun x y => cmp_le (key x) (key y)) batches.

Fixpoint append_all (batches : list Batch) (appended replayed : Z) (log : Log) (d : Log.Disk) (faults : FaultInjector) :
    FaultInjector * Log.Disk * Log * result BridgeError (Z * Z) :=
  match batches with
  | [] => (faults, d, log, Ok (appended, replayed))
  | b :: batches =>
      match log_append log d faults b with
      | (faults, d, log, Err e) => (faults, d, log, Err (BridgeLog e))
      | (faults, d, log, Ok Appended) => append_all batches (appended + 1) replayed log d faults
      | (faults, d, log, Ok DroppedAsReplay) => append_all batches appended (replayed + 1) log d faults
      end
  end.

(** A capture that is not above the sealed epoch: proved to be the epoch's. *)
Definition replay_commit_of (c : CommitCapture) (envelope : EnvelopeId) (batches : list Batch) (log : Log) (d : Log.Disk) : result BridgeError ApplyReceipt :=
  if cc_seq c <=? retained_from log then Err (ReplayCompacted (cc_seq c))
  else
    let? existing := map_err BridgeLog (log_epoch log d (cc_seq c)) in
    if negb (bool_decide (existing = batches)) then Err (ReplayMismatch (cc_seq c))
    else Ok (mkReceipt (cc_commit c) (cc_seq c) envelope Replayed 0 (Z.of_nat (length existing))).

Definition apply_commit (c : CommitCapture) (authority : EnvelopeAuthority) (log : Log) (d : Log.Disk) (faults : FaultInjector) :
    FaultInjector * Log.Disk * Log * result BridgeError ApplyReceipt :=
  match prepare c authority with
  | Err e => (faults, d, log, Err e)
  | Ok (envelope, batches) =>
      let sealed_epoch := log_sealed_epoch log in
      if cc_seq c <=? sealed_epoch then (faults, d, log, replay_commit_of c envelope batches log d)
      else if negb (cc_seq c =? sealed_epoch + 1) then (faults, d, log, Err (SequenceGap (sealed_epoch + 1) (cc_seq c)))
      else match validate_against_catalog log batches with
      | Err e => (faults, d, log, Err e)
      | Ok _ =>
          if existsb (fun p => negb (existsb (fun b => bool_decide (b = p)) batches)) (log_pending log)
          then (faults, d, log, Err (ForeignPendingBatch (hex_string (cc_commit c))))
          else match append_all (admission_order log batches) 0 0 log d faults with
          | (faults, d, log, Err e) => (faults, d, log, Err e)
          | (faults, d, log, Ok (appended, replayed)) =>
              match log_seal log d faults with
              | (faults, d, log, Err e) => (faults, d, log, Err (BridgeLog e))
              | (faults, d, log, Ok epoch) =>
                  (faults, d, log,
                   if negb (epoch =? cc_seq c) then Err (SequenceGap (cc_seq c) epoch)
                   else Ok (mkReceipt (cc_commit c) epoch envelope Applied appended replayed))
              end
          end
      end
  end.

(** ** Maintenance *)

Record MaintenanceStats := mkMaintenance { pruned_pages : Z; collapsed : bool; m_manifests_swept : Z; m_pages_swept : Z }.

Fixpoint floor_from (fuel : nat) (s : DurableStore) (current : ManifestId) (v : Vfs) : result BridgeError (option Z) :=
  match fuel with
  | O => Err WalkOutOfFuel
  | S fuel =>
      let? m := store_manifest s current v in
      match parent m with
      | None =>
          let? captured := has_capture s current v in
          if captured then let? c := recover_capture s current v in Ok (Some (cc_seq c)) else Ok None
      | Some up => floor_from fuel s up v
      end
  end.

Definition collapsed_floor (s : DurableStore) (head : ManifestId) (v : Vfs) : result BridgeError (option Z) := floor_from (history_fuel s v) s head v.

(** Every page that no capture above [through_seq] explains is removed; the capture
    page stays. *)
Definition prune_consumed (through_seq now : Z) (s : DurableStore) (v : Vfs) : Vfs * DurableStore * result BridgeError Z :=
  let p := s_pager s in
  let head := p_head p in
  match recover_pending_captures s head through_seq v with
  | Err e => (v, s, Err e)
  | Ok pending =>
      let keep := {[CAPTURE_PAGE]} ∪ ⋃ (map cc_physical pending) in
      match resolve p head v with
      | Err e => (v, s, Err (Storage (WalPager e)))
      | Ok resolved =>
          match sorted_pages (dom resolved ∖ keep) with
          | [] => (v, s, Ok 0)
          | doomed =>
              match store_commit (fold_left (fun t page => remove page t) doomed (begin p)) now s v with
              | (v, s, Err e) => (v, s, Err (Storage e))
              | (v, s, Ok _) => (v, s, Ok (Z.of_nat (length doomed)))
              end
          end
      end
  end.

Definition collapsed_root (m : Manifest) (resolved : PageMap) : Manifest :=
  mkManifest MANIFEST_FORMAT_VERSION (Flat resolved) None (created_at_ms m) (schema_version m) (page_size m) 0 (Z.of_nat (size resolved)).

Definition install_collapsed_root (s : DurableStore) (v : Vfs) : Vfs * DurableStore * result BridgeError bool :=
  let p := s_pager s in
  match fetch p (p_head p) v with
  | Err e => (v, s, Err (Storage (WalPager e)))
  | Ok m =>
      match parent m with
      | None => (v, s, Ok false)
      | Some _ =>
          match resolve p (p_head p) v with
          | Err e => (v, s, Err (Storage (WalPager e)))
          | Ok resolved =>
              match install (collapsed_root m resolved) p v with
              | (v, p, Err e) => (v, mkStore p (s_wal s), Err (Storage (WalPager e)))
              | (v, p, Ok _) => (v, mkStore p (s_wal s), Ok true)
              end
          end
      end
  end.

Definition checkpoint_wal (s : DurableStore) (v : Vfs) : Vfs * DurableStore * result BridgeError unit :=
  let '(v, s, r) := store_checkpoint s v in (v, s, map_ok (fun _ => tt) (map_err Storage r)).

Definition sweep (s : DurableStore) (v : Vfs) : Vfs * DurableStore * result BridgeError (Z * Z) :=
  let '(v, p, r) := gc [p_head (s_pager s)] (s_pager s) v in
  (v, mkStore p (s_wal s), map_ok (fun st => (manifests_swept st, pages_swept st)) (map_err (fun e => Storage (WalPager e)) r)).

Definition collapse_history (s : DurableStore) (v : Vfs) : Vfs * DurableStore * result BridgeError MaintenanceStats :=
  match install_collapsed_root s v with
  | (v, s, Err e) => (v, s, Err e)
  | (v, s, Ok did) =>
      match checkpoint_wal s v with
      | (v, s, Err e) => (v, s, Err e)
      | (v, s, Ok _) =>
          match sweep s v with
          | (v, s, Err e) => (v, s, Err e)
          | (v, s, Ok (manifests, pages)) => (v, s, Ok (mkMaintenance 0 did manifests pages))
          end
      end
  end.
End bridge.
