(* ===== verification/Maintenance.v ===== *)
(** * Maintaining a durable store ([mutiny-bridge]: lib.rs)

    Checkpoints, the collapse of a history into a flat root, and the sweep behind
    it: a store that is up stays up, or its disk holds the history before or the
    one after. *)

From Stdlib Require Import ZArith NArith Lia Sorted.
From stdpp Require Import base list gmap strings.
From S2P Require Import Prelude BTree Codec Text Vfs Pager PagerCorrect Wal WalInv WalCommit Bridge.

Section walk.
Context `{Blake3} `{ManifestCodecLaws}.

(** A walk over manifests that are all on disk comes to its end. *)
Lemma reachable_from_total (Q : ManifestId -> Prop) p v fuel seen stack :
  coherent p (vfs_disk v) ->
  (forall id, Q id -> exists m, on_disk (vfs_disk v) id m /\ forall j, parent m = Some j \/ overlay_base m = Some j -> Q j) ->
  Forall Q stack -> exists S, reachable_from fuel p seen stack v = Ok S.
Proof.
  intros Hc HQ. revert seen stack. induction fuel as [|fuel IH]; intros seen stack Hs; destruct Hs as [|id stack Hid Hs]; simpl; eauto.
  case_bool_decide; [by apply IH|]. destruct (HQ id Hid) as (m & Hon & He). rewrite (fetch_on p v id m Hc Hon). apply IH.
  destruct (overlay_base m), (parent m); auto.
Qed.

Lemma live_pages_total p v ids acc :
  coherent p (vfs_disk v) -> (forall id, id ∈ ids -> exists m pages, State (vfs_disk v) id m pages) ->
  is_ok (try_fold (add_live p v) acc ids) = true.
Proof.
  intros Hc. revert acc. induction ids as [|id ids IH]; intros acc Hi; [done|]. simpl. unfold add_live at 1.
  destruct (Hi id ltac:(by left)) as (m & pages & n & Hs & _ & Hn & _).
  rewrite (resolve_stands p v id m n pages Hc Hs) by lia. apply IH. intros j Hj. apply Hi. by right.
Qed.
End walk.

Section maintenance.
Context `{Blake3} `{ManifestCodecLaws} `{RecordCodecLaws}.
Context (cfg : StoreConfig) (KM : Manifest -> Prop) (KB : list N -> Prop).
Hypothesis Hsep : separates cfg KM KB.

(** ** Sweeping behind a checkpoint *)

Definition ids_of (h : History) : list ManifestId := map (fun e => e.1.1) h.

Lemma ids_entry h id : id ∈ ids_of h -> exists m pages, (id, m, pages) ∈ h.
Proof. intros ([[id' m] pages] & -> & Hin)%list_elem_of_fmap. by exists m, pages. Qed.

Lemma entry_ids h id m pages : (id, m, pages) ∈ h -> id ∈ ids_of h.
Proof. intros Hin. apply list_elem_of_fmap. by exists (id, m, pages). Qed.

Lemma hist_entry d h : hist_ok d h -> forall id m pages, (id, m, pages) ∈ h ->
  State d id m pages /\ forall j, parent m = Some j \/ overlay_base m = Some j -> j ∈ ids_of h.
Proof.
  induction h as [|[[id0 m0] pg0] h IH]; [done|]. intros [[Hst Hb] Hh] id m pages Hid.
  assert (forall j, parent m0 = Some j -> j ∈ ids_of h) as Hp.
  { intros j Hj. destruct h as [|[[id1 m1] pg1] h]; [congruence|]. destruct Hh as [Hp _]. assert (j = id1) as -> by congruence. by left. }
  apply elem_of_cons in Hid as [[= -> -> ->]|Hid].
  - split; [done|]. intros j Hj. right. apply Hp. destruct Hj as [Hj|Hj]; [done|]. destruct Hb as [Hb|Hb]; congruence.
  - assert (hist_ok d h) as Hh'. { destruct h as [|[[id1 m1] pg1] h]; [by apply elem_of_nil in Hid|]. apply Hh. }
    destruct (IH Hh' id m pages Hid) as (Hs & He). split; [done|]. intros j Hj. right. by apply He.
Qed.

(** What is reached from the head is in the history. *)
Lemma reaches_hist d h id : hist_ok d h -> reaches d [head_id h] id -> id ∈ ids_of h.
Proof.
  intros Hh (r & Hr & Hrtc). apply list_elem_of_singleton in Hr.
  assert (r ∈ ids_of h) as Hhd by (subst r; destruct h as [|[[id0 m] pg] h]; [done|]; by left). clear Hr.
  induction Hrtc as [|x y z (m & Hon & He) _ IH]; [done|]. apply IH. destruct (ids_entry _ _ Hhd) as (m' & pg & Hin).
  destruct (hist_entry _ _ Hh _ _ _ Hin) as [(k & Hs & _) He']. apply He'. by rewrite <- (on_disk_det _ _ _ _ Hon (Stands_on _ _ _ _ _ Hs)).
Qed.

(** Every manifest of a history is reached from its head. *)
Lemma hist_reaches d h : hist_ok d h -> forall id, id ∈ ids_of h -> reaches d [head_id h] id.
Proof.
  intros Hh id Hid. exists (head_id h). split; [by left|]. revert Hh Hid. induction h as [|[[id0 m0] pg0] h IH]; [done|].
  intros [[(n & Hs & _) _] Hh] [->|Hid]%elem_of_cons; [done|].
  destruct h as [|[[id1 m1] pg1] h]; [by apply elem_of_nil in Hid|]. destruct Hh as [Hp Hh].
  eapply rtc_l; [|by apply IH]. exists m0. split; [by eapply Stands_on|]. by left.
Qed.

Lemma hist_ok_states d d' h : hist_ok d h -> (forall id m pages, id ∈ ids_of h -> State d id m pages -> State d' id m pages) -> hist_ok d' h.
Proof.
  induction h as [|[[id m] pg] h IH]; [done|]. intros [[Hst Hb] Hh] Hk. split; [split; [|done]|].
  - apply Hk; [by left|done].
  - destruct h as [|[[id1 m1] pg1] h]; [done|]. destruct Hh as [Hp Hh]. split; [done|]. apply IH; [done|]. intros. apply Hk; [by right|done].
Qed.

Lemma spared_Forall {V} (P : list N -> V -> Prop) (a b : gmap (list N) V) (s : gset (list N)) :
  (forall i, b !! i = a !! i \/ (~ (i ∈ s) /\ b !! i = None)) -> map_Forall P a -> map_Forall P b.
Proof. intros Hs Ha i x Hi. destruct (Hs i) as [E|[_ E]]; [|congruence]. apply Ha. congruence. Qed.

(** The sweep of a store whose log is captured. *)
Lemma gc_captured v p n segs h :
  Captured cfg KM KB (vfs_disk v) n segs h -> coherent p (vfs_disk v) ->
  exists v' p' r, gc [head_id h] p v = (v', p', r) /\ Captured cfg KM KB (vfs_disk v') n segs h /\ coherent p' (vfs_disk v') /\
    p_head p' = p_head p /\ config p' = config p /\ (crashed v = true -> crashed v' = true) /\
    (healthy v -> healthy v' /\ is_ok r = true) /\ (is_ok r = false -> crashed v' = true) /\
    (is_ok r = true -> forall id, is_Some (d_manifests (vfs_disk v') !! id) -> id ∈ ids_of h).
Proof.
  intros Hcp Hc. pose proof (cp_hist _ _ _ _ _ _ _ Hcp) as Hh. pose proof (manifests_ok_store KM _ (cp_manifests _ _ _ _ _ _ _ Hcp)) as Hst.
  destruct (reachable_from_total (fun id => id ∈ ids_of h) p v (walk_fuel p [head_id h] v) ∅ (rev [head_id h]) Hc) as [S HS].
  { intros id (m & pg & Hin)%ids_entry. destruct (hist_entry _ _ Hh id m pg Hin) as [(k & Hs & _) He]. exists m. split; [by eapply Stands_on|done]. }
  { repeat constructor. destruct h as [|[[id m] pg] h]; [done|]. by left. }
  assert (forall id, id ∈ S -> id ∈ ids_of h) as HSi.
  { intros id Hid%(reachable_manifests_ok p v [head_id h] S Hst Hc HS). by apply (reaches_hist (vfs_disk v)). }
  assert (is_ok (try_fold (add_live p v) ∅ (elements S)) = true) as HL.
  { apply live_pages_total; [done|]. intros id Hid%elem_of_elements%HSi. destruct (ids_entry _ _ Hid) as (m & pg & Hin).
    destruct (hist_entry _ _ Hh id m pg Hin) as [? _]. eauto. }
  pose proof (gc_runs [head_id h] p v Hst Hc) as Hg. destruct (gc [head_id h] p v) as [[v' p'] r] eqn:E.
  destruct (gc_keeps [head_id h] p v v' p' r Hst Hc E) as (Hkeep & _ & Hex).
  destruct Hg as (Hc' & Hhd' & _ & Hcf' & Hcr & [(-> & -> & Hr & Hno)|(S' & lp & HS' & _ & (Hsg & Hmk & Hms & Hps) & Hhe & He & _)]).
  { by rewrite (Hno S HS) in HL. }
  exists v', p', r. split; [done|]. split; [|do 4 (split; [done|]); split; [done|]; split; [done|]].
  - destruct Hcp as [Hsg0 Hs0 Hl0 Hh0 Hm0 Hmo0 Hpo0 Hb0]. split; try congruence.
    + apply (hist_ok_states (vfs_disk v)); [done|]. intros id m pg Hid Hs. apply (Hkeep id m pg); [by apply hist_reaches|done].
    + by eapply spared_Forall.
    + by eapply spared_Forall.
    + apply Forall_forall. intros [[id m] pg] Hin k i Hi. cbn [snd] in *.
      rewrite (proj2 (Hkeep id m pg (hist_reaches _ _ Hh id (entry_ids _ _ _ _ Hin)) (proj1 (hist_entry _ _ Hh id m pg Hin))) k i Hi).
      by apply (proj1 (Forall_forall _ _) Hb0 _ Hin k i Hi).
  - intros Hr id Hid. apply (reaches_hist (vfs_disk v)); [done|]. by apply Hex.
Qed.

(** ** Checkpoints *)

(** A store that is up with its log captured. *)
Definition AtCheckpoint (v : Vfs) (s : DurableStore) (n : Z) (segs : Segments) (h : History) : Prop :=
  Captured cfg KM KB (vfs_disk v) n segs h /\ coherent (s_pager s) (vfs_disk v) /\ p_head (s_pager s) = head_id h /\ config (s_pager s) = cfg /\
  Forall (fun p => p.1 <= current (s_wal s)) segs /\ Forall (fun r => lsn r < next_lsn (s_wal s)) (all_records segs) /\ n < next_lsn (s_wal s).

Lemma AtCheckpoint_live v s n segs h : AtCheckpoint v s n segs h -> Live cfg KM KB v s (Some n) segs h ∅.
Proof.
  intros (Hcp & Hc & Hhd & Hcf & Hcu & Hls & Hn). split; try done; [by apply Captured_logged|apply Hcp|apply Hcp].
Qed.

Lemma checkpoint_wal_ok v p w captured segs h pend h2 :
  (exists p0, Live cfg KM KB v (mkStore p0 w) captured segs h pend) -> coherent p (vfs_disk v) -> config p = cfg -> p_head p = head_id h2 ->
  ReplayStep KM (vfs_disk v) h pend (KCheckpoint (head_id h2)) h2 ∅ -> hist_ok (vfs_disk v) h2 -> Forall (fun e => backed (vfs_disk v) e.2) h2 ->
  exists v' s' r, checkpoint_wal (mkStore p w) v = (v', s', r) /\ (crashed v = true -> crashed v' = true) /\ (healthy v -> healthy v' /\ is_ok r = true) /\
    d_pages (vfs_disk v') = d_pages (vfs_disk v) /\
    match r with
    | Err _ => crashed v' = true /\ before_or_after cfg KM KB (vfs_disk v') h h2
    | Ok _ => exists n segs', AtCheckpoint v' s' n segs' h2
    end.
Proof.
  intros [p0 Hl] Hc Hcf Hhd Hs Hh2 Hb. unfold checkpoint_wal, store_checkpoint. cbn [s_pager s_wal]. rewrite Hhd.
  destruct (wal_checkpoint_ok cfg KM KB v (mkStore p0 w) captured segs h pend (head_id h2) h2 Hl Hs Hh2 eq_refl Hb)
    as (v' & w' & r & E & Hp & Hm & Hcr & Hhe & Hr). cbn [s_wal] in E. rewrite E.
  eexists _, _, _. split; [done|]. split; [done|]. split; [intros Hv; destruct (Hhe Hv); destruct r; done|]. split; [done|]. destruct r as [n|e]; [|done].
  destruct Hr as (segs' & Hcp & Hcu & Hls & Hn). exists n, segs'. split; [done|]. split; [|done].
  intros j m Hj. destruct (Hc j m Hj) as [? ?]. split; [done|]. by rewrite Hm.
Qed.

Lemma store_checkpoint_live v s captured segs h pend : Live cfg KM KB v s captured segs h pend ->
  exists v' s' r, checkpoint_wal s v = (v', s', r) /\ (crashed v = true -> crashed v' = true) /\ (healthy v -> healthy v' /\ is_ok r = true) /\
    d_pages (vfs_disk v') = d_pages (vfs_disk v) /\
    match r with
    | Err _ => crashed v' = true /\ exists pend', Durable cfg KM KB (vfs_disk v') h pend'
    | Ok _ => exists n segs', AtCheckpoint v' s' n segs' h
    end.
Proof.
  intros Hl. destruct s as [p w].
  destruct (checkpoint_wal_ok v p w captured segs h pend h) as (v' & s' & r & E & Hcr & Hhe & Hp & Hr); [by exists p|apply Hl|apply Hl|apply Hl| |apply Hl|apply Hl|].
  - pose proof (lv_hist _ _ _ _ _ _ _ _ _ Hl) as Hh. destruct h as [|[[id m] pg] h]; [done|]. apply step_checkpoint.
  - exists v', s', r. do 4 (split; [done|]). destruct r; [done|]. destruct Hr as [? [?|?]]; done.
Qed.

(** ** Collapsing *)

Lemma collapsed_root_state d rid m pages : rid = manifest_id (collapsed_root m pages) -> on_disk d rid (collapsed_root m pages) -> Stored d rid (collapsed_root m pages) pages.
Proof. intros -> Hon. split; [|by left]. exists 0%nat. split; [by eapply stands_flat|]. simpl. split; [done|]. split; [lia|done]. Qed.

(** The history a collapse leaves. *)
Definition collapsed_history (id : ManifestId) (m : Manifest) (pages : PageMap) : History :=
  match parent m with
  | None => [(id, m, pages)]
  | Some _ => [(manifest_id (collapsed_root m pages), collapsed_root m pages, pages)]
  end.

Lemma install_collapsed_root_ok v s captured segs id m pages h pend :
  Live cfg KM KB v s captured segs ((id, m, pages) :: h) pend -> (is_Some (parent m) -> KM (collapsed_root m pages)) ->
  exists v' p' r, install_collapsed_root s v = (v', mkStore p' (s_wal s), r) /\ (crashed v = true -> crashed v' = true) /\ (healthy v -> healthy v' /\ is_ok r = true) /\
    d_pages (vfs_disk v') = d_pages (vfs_disk v) /\
    match r with
    | Err _ => crashed v' = true /\ Durable cfg KM KB (vfs_disk v') ((id, m, pages) :: h) pend
    | Ok _ =>
        let h2 := collapsed_history id m pages in
        (exists p0, Live cfg KM KB v' (mkStore p0 (s_wal s)) captured segs ((id, m, pages) :: h) pend) /\ coherent p' (vfs_disk v') /\ config p' = cfg /\
        p_head p' = head_id h2 /\ ReplayStep KM (vfs_disk v') ((id, m, pages) :: h) pend (KCheckpoint (head_id h2)) h2 ∅ /\
        hist_ok (vfs_disk v') h2 /\ Forall (fun e => backed (vfs_disk v') e.2) h2
    end.
Proof.
  intros Hl HK. pose proof Hl as [Hlg Hsg [[(n & Hs & Hst) Hbase] Hh] Hc Hhd Hcf Hcu Hls Hcp]. simpl in Hhd. unfold install_collapsed_root, collapsed_history.
  rewrite Hhd, (fetch_on _ _ id m Hc (Stands_on _ _ _ _ _ Hs)). pose proof (lg_backed _ _ _ _ _ _ _ _ _ Hlg) as Hb. apply Forall_cons in Hb as [Hb _].
  destruct (parent m) as [up|] eqn:Ep.
  2: { exists v, (s_pager s), (Ok false). destruct s as [p w]. do 4 (split; [done|]). cbn zeta. assert (h = []) as -> by (destruct h as [|[[? ?] ?] ?]; [done|naive_solver]).
       split; [by exists p|]. split; [done|]. split; [done|]. split; [done|]. split; [apply step_checkpoint|]. split; [|by constructor].
       split; [split; [by exists n|left; by destruct Hbase]|done]. }
  rewrite (resolve_stands _ _ id m n pages Hc Hs) by (destruct Hst; lia). set (root := collapsed_root m pages).
  destruct (install_cases cfg KM KB Hsep root (s_pager s) v (HK ltac:(eauto)) (lg_manifests _ _ _ _ _ _ _ _ _ Hlg) Hc) as (v1 & p1 & r1 & -> & Hcr1 & Hh1 & Ha1 & Hmo1 & Hcf1 & _ & Hc1 & Hr1).
  pose proof (Logged_adds cfg KM KB _ _ _ _ _ _ _ Ha1 Hmo1 Hlg) as Hlg1. pose proof (adds_grows _ _ Ha1) as Hg1.
  assert (d_pages (vfs_disk v1) = d_pages (vfs_disk v)) as Hp1 by apply Ha1.
  destruct r1 as [rid|e]; eexists _, _, _; (split; [done|]); (split; [done|]).
  2: { split; [by intros Hv; destruct (Hh1 Hv)|]. split; [done|]. split; [done|]. by exists captured, segs, []. }
  split; [by intros Hv; destruct (Hh1 Hv)|]. split; [done|]. cbn zeta. destruct Hr1 as (-> & Hon & Hhd1). fold root.
  pose proof (collapsed_root_state _ _ m pages eq_refl Hon) as Hroot.
  split; [exists (set_head id p1); split; simpl; try done; [rewrite <- Hsg; apply Ha1|by apply (hist_ok_grows _ _ ((id, m, pages) :: h) Hg1), Hl|congruence]|].
  split; [done|]. split; [congruence|]. split; [done|]. split; [by apply step_collapse|]. split; [by split|].
  repeat constructor. simpl. by eapply backed_grows; [apply Hg1|].
Qed.

Lemma sweep_ok v s n segs h : AtCheckpoint v s n segs h ->
  exists v' s' r, sweep s v = (v', s', r) /\ AtCheckpoint v' s' n segs h /\ (crashed v = true -> crashed v' = true) /\
    (healthy v -> healthy v' /\ is_ok r = true) /\ (is_ok r = false -> crashed v' = true) /\
    (is_ok r = true -> forall id, is_Some (d_manifests (vfs_disk v') !! id) -> id ∈ ids_of h).
Proof.
  intros (Hcp & Hc & Hhd & Hcf & Hcu & Hls & Hn). unfold sweep. rewrite Hhd.
  destruct (gc_captured v (s_pager s) n segs h Hcp Hc) as (v' & p' & r & -> & Hcp' & Hc' & Hhd' & Hcf' & Hcr & Hhe & He & Hex).
  eexists _, _, _. split; [done|]. split; [split; [done|]; simpl; split; [done|]; split; [congruence|]; split; [congruence|]; done|].
  split; [done|]. destruct r; done.
Qed.

(** A collapse: the store is at its flat root, with nothing else kept, or its disk
    holds the history before or the flat root. *)
Lemma collapse_history_ok v s captured segs id m pages h pend :
  Live cfg KM KB v s captured segs ((id, m, pages) :: h) pend -> (is_Some (parent m) -> KM (collapsed_root m pages)) ->
  exists v' s' r, collapse_history s v = (v', s', r) /\ (crashed v = true -> crashed v' = true) /\ (healthy v -> healthy v' /\ is_ok r = true) /\
    let h2 := collapsed_history id m pages in
    match r with
    | Err _ => crashed v' = true /\ before_or_after cfg KM KB (vfs_disk v') ((id, m, pages) :: h) h2
    | Ok _ => exists n segs', Live cfg KM KB v' s' (Some n) segs' h2 ∅ /\ forall i, is_Some (d_manifests (vfs_disk v') !! i) -> i ∈ ids_of h2
    end.
Proof.
  intros Hl HK. unfold collapse_history.
  destruct (install_collapsed_root_ok v s captured segs id m pages h pend Hl HK) as (v1 & p1 & r1 & -> & Hcr1 & Hh1 & _ & Hr1).
  destruct r1 as [did|e]; [|eexists _, _, _; split; [done|]; split; [done|]; split; [by intros Hv; destruct (Hh1 Hv)|]; split; [apply Hr1|left; exists pend; apply Hr1]].
  destruct Hr1 as (Hl1 & Hc1 & Hcf1 & Hhd1 & Hs1 & Hh21 & Hb1).
  destruct (checkpoint_wal_ok v1 p1 (s_wal s) captured segs _ pend _ Hl1 Hc1 Hcf1 Hhd1 Hs1 Hh21 Hb1) as (v2 & s2 & r2 & -> & Hcr2 & Hh2 & _ & Hr2).
  destruct r2 as [[]|e]; [|eexists _, _, _; split; [done|]; split; [by auto|]; split; [intros Hv; by destruct (Hh2 (proj1 (Hh1 Hv)))|done]].
  destruct Hr2 as (n & segs2 & Hat).
  destruct (sweep_ok v2 s2 n segs2 _ Hat) as (v3 & s3 & r3 & -> & Hat3 & Hcr3 & Hh3 & He3 & Hex3).
  destruct r3 as [[ms ps]|e]; eexists _, _, _; (split; [done|]); (split; [by auto|]).
  - split; [intros Hv; split; [by apply Hh3, Hh2, Hh1|done]|]. exists n, segs2. split; [by apply AtCheckpoint_live|]. by apply Hex3.
  - split; [intros Hv; by destruct (Hh3 (proj1 (Hh2 (proj1 (Hh1 Hv)))))|]. split; [by apply He3|]. right.
    exists ∅. eapply Live_durable. by apply AtCheckpoint_live.
Qed.
End maintenance.
