(* ===== verification/StoreCorrect.v ===== *)
(** * Runs of a durable store ([substrate-wal]: lib.rs, [mutiny-bridge]: lib.rs)

    A store is used over lifetimes: it is opened, recovered and checkpointed, runs
    operations, and ends when one of them fails, which a crash at any byte makes
    them do.  Against this stands the specification: a list of the contents the
    store went through.

    Its later part: A durable store implements its specification ([substrate-
    wal]). *)

From Stdlib Require Import ZArith NArith Lia Sorted.
From stdpp Require Import base list gmap strings.
From S2P Require Import Prelude BTree Codec Text Vfs Pager PagerCorrect Wal WalInv WalCommit Bridge Maintenance.

Inductive StoreOp :=
| DoCommit (edits : Edits) (now : Z)
| DoCheckpoint
| DoCollapse.

(** ** The specification *)

Abbreviation Contents := (gmap Z (list N)).

Definition apply_contents (em : gmap Z (option (list N))) (c : Contents) : Contents :=
  merge (fun e o => match e with Some e => e | None => o end) em c.

(** The contents a store went through, newest first. *)
Definition spec_op (A : list Contents) (o : StoreOp) : list Contents :=
  match A, o with
  | c :: _, DoCommit edits _ =>
      let c' := apply_contents (edits_map edits ∅) c in if decide (c' = c) then A else c' :: A
  | c :: _, DoCollapse => [c]
  | _, _ => A
  end.

(** A lifetime that acknowledged its first [n] operations: those took effect, and
    the one that failed did or did not. *)
Definition spec_life (ops : list StoreOp) (n : nat) (A A' : list Contents) : Prop :=
  (n <= length ops)%nat /\ (A' = fold_left spec_op (take n ops) A \/ A' = fold_left spec_op (take (S n) ops) A).

Fixpoint spec_lives (lives : list (option Z * list StoreOp)) (acks : list nat) (A A' : list Contents) : Prop :=
  match lives, acks with
  | [], [] => A' = A
  | (_, ops) :: lives, n :: acks => exists A1, spec_life ops n A A1 /\ spec_lives lives acks A1 A'
  | _, _ => False
  end.

Section runs.
Context `{Blake3} `{ManifestCodec} `{RecordCodec}.
Context (cfg : StoreConfig).

(** ** Running *)

Definition run_op (o : StoreOp) (s : DurableStore) (v : Vfs) : Vfs * DurableStore * bool :=
  match o with
  | DoCommit edits now =>
      match stage edits (begin (s_pager s)) s v with
      | (v, s, t, Err _) => (v, mkStore (drop_txn t (s_pager s)) (s_wal s), false)
      | (v, s, t, Ok _) => let '(v, s, r) := store_commit t now s v in (v, s, is_ok r)
      end
  | DoCheckpoint => let '(v, s, r) := checkpoint_wal s v in (v, s, is_ok r)
  | DoCollapse => let '(v, s, r) := collapse_history s v in (v, s, is_ok r)
  end.

(** The manifests and pages an operation hashes. *)
Definition op_manifests (o : StoreOp) (s : DurableStore) (v : Vfs) : list Manifest :=
  let p := s_pager s in
  match o with
  | DoCommit edits now =>
      match derive_next p (p_head p) (hashed cfg (edits_map edits ∅)) now v with Ok (Some (m, _)) => [m] | _ => [] end
  | DoCheckpoint => []
  | DoCollapse =>
      match fetch p (p_head p) v, resolve p (p_head p) v with Ok m, Ok pages => [collapsed_root m pages] | _, _ => [] end
  end.

Definition op_pages (o : StoreOp) : list (list N) := match o with DoCommit edits _ => omap snd edits | _ => [] end.

Record Trace := mkTrace { t_vfs : Vfs; t_acks : list nat; t_manifests : list Manifest }.

Fixpoint run_ops (ops : list StoreOp) (s : DurableStore) (v : Vfs) : Vfs * nat * list Manifest :=
  match ops with
  | [] => (v, 0%nat, [])
  | o :: ops =>
      let ms := op_manifests o s v in
      match run_op o s v with
      | (v, _, false) => (v, 0%nat, ms)
      | (v, s, true) => let '(v, n, ms') := run_ops ops s v in (v, S n, ms ++ ms')
      end
  end.

Definition run_life (fuel : option Z) (ops : list StoreOp) (v : Vfs) : Vfs * nat * list Manifest :=
  match reopen cfg fuel v with
  | (v, Err _) => (v, 0%nat, [])
  | (v, Ok s) =>
      match checkpoint_wal s v with
      | (v, _, Err _) => (v, 0%nat, [])
      | (v, s, Ok _) => run_ops ops s v
      end
  end.

Fixpoint run_lives (lives : list (option Z * list StoreOp)) (v : Vfs) : Trace :=
  match lives with
  | [] => mkTrace v [] []
  | (fuel, ops) :: lives =>
      let '(v, n, ms) := run_life fuel ops v in
      let t := run_lives lives v in mkTrace (t_vfs t) (n :: t_acks t) (ms ++ t_manifests t)
  end.

Definition lives_pages (lives : list (option Z * list StoreOp)) : list (list N) := flat_map (fun l => flat_map op_pages l.2) lives.

(** The hash tells apart the manifests and pages of a run. *)
Definition no_collision (ms : list Manifest) (ps : list (list N)) : Prop := separates cfg (fun m => m ∈ ms) (fun b => b ∈ ps).

Definition new_machine : Vfs := mkVfs disk_empty None false.
End runs.

(** * A durable store implements its specification ([substrate-wal])

    Every operation of a store that is up takes the contents it stands for to the
    ones the specification gives, and leaves a disk that a reopening brings back to
    them, or to the ones before if it was cut short. *)

Section store.
Context `{Blake3} `{ManifestCodecLaws} `{RecordCodecLaws}.
Context (cfg : StoreConfig) (KM : Manifest -> Prop) (KB : list N -> Prop).
Hypothesis Hsep : separates cfg KM KB.

Abbreviation hash := (hash_page (cfg_hasher cfg)).
Abbreviation Live := (Live cfg KM KB).
Abbreviation Durable := (Durable cfg KM KB).

(** ** What a map of pages stands for *)

Definition known (c : Contents) : Prop := map_Forall (fun _ b => KB b) c.
Definition page_map (c : Contents) : PageMap := fmap (M := gmap Z) hash c.
Definition Reps (h : History) (A : list Contents) : Prop := Forall2 (fun e c => e.2 = page_map c /\ known c) h A.

Lemma lookup_apply_contents em c k : apply_contents em c !! k = match em !! k with Some e => e | None => c !! k end.
Proof. unfold apply_contents. rewrite lookup_merge. by destruct (em !! k), (c !! k). Qed.

Lemma apply_hashed em c : apply_changes (hashed cfg em) (page_map c) = page_map (apply_contents em c).
Proof.
  apply map_eq. intros k. unfold page_map, hashed. rewrite lookup_apply_changes, !lookup_fmap, lookup_apply_contents.
  destruct (em !! k) as [[b|]|]; done.
Qed.

Lemma page_map_inj c c' : known c -> known c' -> page_map c = page_map c' -> c = c'.
Proof.
  intros Hc Hc' E. apply map_eq. intros k. pose proof (f_equal (.!! k) E) as Ek. unfold page_map in Ek. rewrite !lookup_fmap in Ek.
  destruct (c !! k) as [b|] eqn:Eb, (c' !! k) as [b'|] eqn:Eb'; try done. injection Ek as Ek. f_equal. apply (proj2 Hsep); [by eapply Hc|by eapply Hc'|done].
Qed.

Definition known_edits (edits : Edits) : Prop := Forall (fun e => match e.2 with Some b => KB b | None => True end) edits.

Lemma known_edits_map edits em : known_edits edits -> (forall k b, em !! k = Some (Some b) -> KB b) -> forall k b, edits_map edits em !! k = Some (Some b) -> KB b.
Proof.
  intros He. revert em. induction He as [|[j c] edits Hc He IH]; intros em Hem; [done|]. cbn [edits_map fold_left]. apply IH.
  intros k b. rewrite lookup_insert_Some. intros [[_ E]|[_ Hk]]; [|by eapply Hem]. simpl in *. by subst c.
Qed.

Lemma known_apply edits c : known_edits edits -> known c -> known (apply_contents (edits_map edits ∅) c).
Proof.
  intros He Hc k b. rewrite lookup_apply_contents. destruct (edits_map edits ∅ !! k) as [e|] eqn:E; [|apply Hc]. intros ->.
  by eapply (known_edits_map edits ∅ He).
Qed.

(** ** Reading *)

Lemma read_stored v s captured segs h pend id m c k :
  Live v s captured segs h pend -> (id, m, page_map c) ∈ h -> known c ->
  read (s_pager s) id k v = match c !! k with Some b => Ok (mkPage (hash b) b) | None => Err (PageNotFound k (to_hex id)) end.
Proof.
  intros Hl Hin Hk. destruct (hist_entry _ _ (lv_hist _ _ _ _ _ _ _ _ _ Hl) _ _ _ Hin) as [(n & Hs & _ & Hn & _) _].
  unfold read. rewrite (lookup_stands _ _ id m n _ k (lv_coherent _ _ _ _ _ _ _ _ _ Hl) Hs) by lia. unfold page_map. rewrite lookup_fmap.
  destruct (c !! k) as [b|] eqn:Eb; [|done]. cbn [fmap option_fmap option_map ok_or].
  rewrite (lv_config _ _ _ _ _ _ _ _ _ Hl). unfold cas_get, vfs_read. cbn [file_get].
  pose proof (lg_backed _ _ _ _ _ _ _ _ _ (lv_logged _ _ _ _ _ _ _ _ _ Hl)) as Hb.
  destruct (proj1 (Forall_forall _ _) Hb _ Hin k (hash b)) as [b' Eb']; [cbn [snd]; unfold page_map; by rewrite lookup_fmap, Eb|].
  destruct (lg_pages _ _ _ _ _ _ _ _ _ (lv_logged _ _ _ _ _ _ _ _ _ Hl) _ _ Eb') as [Hkb' Hhb'].
  assert (b' = b) as -> by (apply (proj2 Hsep); [done|by eapply Hk|done]). rewrite Eb'. cbn [ok_or]. unfold page_verify. by rewrite bool_decide_eq_true_2.
Qed.

(** ** Operations *)

Definition op_fits (o : StoreOp) : Prop := Forall (fun b => Z.of_nat (length b) <= cfg_page_size cfg) (op_pages o).

Lemma edits_pages (P : list N -> Prop) (edits : Edits) :
  Forall P (omap snd edits) <-> Forall (fun e => match e.2 with Some b => P b | None => True end) edits.
Proof.
  induction edits as [|[k [b|]] edits IH]; simpl; [by split; constructor|..].
  - rewrite !Forall_cons. by rewrite IH.
  - rewrite Forall_cons, IH. simpl. naive_solver.
Qed.

(** What an operation leaves: a store at [A'], or a disk at [A] or [A']. *)
Definition outcome (A A' : list Contents) (v' : Vfs) (s' : DurableStore) (ok : bool) : Prop :=
  if ok then exists captured' segs' h', Live v' s' captured' segs' h' ∅ /\ Reps h' A'
  else exists h' pend', Durable (vfs_disk v') h' pend' /\ (Reps h' A \/ Reps h' A').

Lemma before_or_after_reps d h h' A A' : before_or_after cfg KM KB d h h' -> Reps h A -> Reps h' A' ->
  exists h2 pend, Durable d h2 pend /\ (Reps h2 A \/ Reps h2 A').
Proof. intros [[pend Hd]|[pend Hd]] Hr Hr'; eauto. Qed.

Lemma begin_writes p : writes (begin p) = hashed cfg ∅.
Proof. unfold hashed. by rewrite fmap_empty. Qed.

Lemma commit_op_ok v s captured segs h A edits now :
  Live v s captured segs h ∅ -> Reps h A -> Forall KM (op_manifests cfg (DoCommit edits now) s v) -> Forall KB (omap snd edits) ->
  exists v' s' ok, run_op (DoCommit edits now) s v = (v', s', ok) /\ outcome A (spec_op A (DoCommit edits now)) v' s' ok /\
    (healthy v -> op_fits (DoCommit edits now) -> healthy v' /\ ok = true).
Proof.
  intros Hl HR HM HB. cbn [run_op]. apply edits_pages in HB. pose proof (lv_hist _ _ _ _ _ _ _ _ _ Hl) as Hh0. destruct h as [|[[id m] pages] h]; [done|].
  destruct (stage_edits_ok cfg KM KB Hsep edits ∅ (begin (s_pager s)) s v captured segs _ ∅ Hl HB (begin_writes _)) as (v1 & p1 & t1 & r1 & -> & Hl1 & Hcr1 & Hb1 & Hsp1 & Hr1 & Hh1);
    [by intros k b; rewrite lookup_empty|apply Hl|].
  destruct r1 as [[]|e].
  2: { eexists _, _, false. split; [done|]. split.
       - eexists _, _. split; [by eapply Live_durable|by left].
       - intros Hv Hfit. destruct Hr1 as [Hc|Hbig]; [by destruct (Hh1 Hv); congruence|]. apply edits_pages in Hfit.
         apply Exists_exists in Hbig as ([k [b|]] & Hin & Hbig); [|done]. pose proof (proj1 (Forall_forall _ _) Hfit _ Hin) as Hle. simpl in *. lia. }
  destruct Hr1 as [Hw1 He1]. inversion HR as [|? c ? A' [Hpg Hk] HR']; subst. simpl in Hpg. subst pages.
  assert (apply_changes (writes t1) (page_map c) = page_map (apply_contents (edits_map edits ∅) c)) as Happ by (rewrite Hw1; apply apply_hashed).
  pose proof (known_apply edits c HB Hk) as Hk'. set (c' := apply_contents (edits_map edits ∅) c) in *.
  set (next := next_manifest id m (page_map c) (writes t1) now). destruct (decide (c' = c)) as [Ec|Ec].
  - (* nothing changes *)
    assert (derive_next (s_pager (mkStore p1 (s_wal s))) (txn_base t1) (writes t1) now v1 = Ok None) as Ed.
    { rewrite Hb1. simpl. destruct (lv_hist _ _ _ _ _ _ _ _ _ Hl1) as [[Hst _] _]. rewrite (derive_next_state _ _ id m (page_map c)); [|apply Hl1|done].
      rewrite bool_decide_eq_true_2; [done|]. by rewrite Happ, Ec. }
    unfold store_commit. rewrite Ed. eexists _, _, _. split; [done|]. split; [|intros Hv _; split; [by apply Hh1|done]].
    cbn [spec_op]. fold c'. rewrite decide_True by done. exists captured, segs. eexists. split; [by apply Live_drop|done].
  - assert (KM next) as HKn.
    { cbn [op_manifests] in HM. destruct (lv_hist _ _ _ _ _ _ _ _ _ Hl) as [[Hst _] _]. rewrite (lv_head _ _ _ _ _ _ _ _ _ Hl) in HM. cbn [head_id] in HM.
      rewrite (derive_next_state _ _ id m (page_map c)) in HM; [|apply Hl|done]. rewrite <- Hw1 in HM. rewrite bool_decide_eq_false_2 in HM.
      - by apply Forall_inv in HM.
      - rewrite Happ. intros E. by apply Ec, page_map_inj. }
    destruct (store_commit_ok cfg KM KB Hsep v1 (mkStore p1 (s_wal s)) captured segs id m (page_map c) h ∅ t1 now (edits_map edits ∅) next Hl1 Hb1 Hw1 He1)
      as (v2 & p2 & w2 & r2 & -> & Hcr2 & Hh2 & _ & Hr2); [set_solver|done|done|].
    eexists _, _, _. split; [done|]. split; [|intros Hv _; by apply Hh2, Hh1]. cbn [spec_op]. fold c'. rewrite decide_False by done.
    assert (Reps ((manifest_id next, next, apply_changes (writes t1) (page_map c)) :: (id, m, page_map c) :: h) (c' :: c :: A')) as HRn by (constructor; [by split|done]).
    destruct r2 as [id2|e]; cbn [is_ok outcome].
    + destruct Hr2 as [[Hsame _]|(_ & _ & segs' & Hl2)]; [|by eauto]. rewrite Happ in Hsame. by destruct Ec; apply page_map_inj.
    + destruct Hr2 as (_ & _ & Hba). by eapply before_or_after_reps.
Qed.

Lemma checkpoint_op_ok v s captured segs h pend A : Live v s captured segs h pend -> Reps h A ->
  exists v' s' r, checkpoint_wal s v = (v', s', r) /\ outcome A A v' s' (is_ok r) /\ (healthy v -> healthy v' /\ is_ok r = true).
Proof.
  intros Hl HR. destruct (store_checkpoint_live cfg KM KB v s captured segs h pend Hl) as (v' & s' & r & -> & _ & Hhe & _ & Hr).
  exists v', s', r. split; [done|]. split; [|done]. destruct r as [[]|e]; cbn [is_ok outcome].
  - destruct Hr as (n & segs' & Hat). exists (Some n), segs', h. split; [by apply AtCheckpoint_live|done].
  - destruct Hr as (_ & pend' & Hd). exists h, pend'. auto.
Qed.

Lemma collapse_op_ok v s captured segs h pend A : Live v s captured segs h pend -> Reps h A -> Forall KM (op_manifests cfg DoCollapse s v) ->
  exists v' s' r, collapse_history s v = (v', s', r) /\ outcome A (spec_op A DoCollapse) v' s' (is_ok r) /\ (healthy v -> healthy v' /\ is_ok r = true).
Proof.
  intros Hl HR HM. pose proof (lv_hist _ _ _ _ _ _ _ _ _ Hl) as Hh. destruct h as [|[[id m] pages] h]; [done|]. destruct Hh as [[(n & Hs & _ & Hn & _) _] _].
  destruct (collapse_history_ok cfg KM KB Hsep v s captured segs id m pages h pend Hl) as (v' & s' & r & -> & _ & Hhe & Hr).
  { intros _. cbn [op_manifests] in HM. rewrite (lv_head _ _ _ _ _ _ _ _ _ Hl) in HM. cbn [head_id] in HM.
    rewrite (fetch_on _ _ id m (lv_coherent _ _ _ _ _ _ _ _ _ Hl) (Stands_on _ _ _ _ _ Hs)), (resolve_stands _ _ id m n pages (lv_coherent _ _ _ _ _ _ _ _ _ Hl) Hs) in HM by lia.
    by apply Forall_inv in HM. }
  exists v', s', r. split; [done|]. split; [|done]. inversion HR as [|? c ? A' [Hpg Hk] HR']; subst. cbn [spec_op].
  assert (Reps (collapsed_history id m pages) [c]) as HRc by (unfold collapsed_history; destruct (parent m); by repeat constructor).
  destruct r as [st|e]; cbn [is_ok outcome].
  - destruct Hr as (n2 & segs' & Hl' & _). eauto.
  - destruct Hr as [_ Hba]. by eapply before_or_after_reps.
Qed.

Lemma run_op_ok o v s captured segs h A :
  Live v s captured segs h ∅ -> Reps h A -> Forall KM (op_manifests cfg o s v) -> Forall KB (op_pages o) ->
  exists v' s' ok, run_op o s v = (v', s', ok) /\ outcome A (spec_op A o) v' s' ok /\ (healthy v -> op_fits o -> healthy v' /\ ok = true).
Proof.
  intros Hl HR HM HB. destruct o as [edits now| |]; [by eapply commit_op_ok|..]; cbn [run_op].
  - destruct (checkpoint_op_ok v s captured segs h ∅ A Hl HR) as (v' & s' & r & -> & Ho & Hhe). exists v', s', (is_ok r).
    split; [done|]. split; [by destruct A|]. auto.
  - destruct (collapse_op_ok v s captured segs h ∅ A Hl HR HM) as (v' & s' & r & -> & Ho & Hhe). exists v', s', (is_ok r). auto.
Qed.

(** ** Runs *)

Lemma run_ops_ok ops : forall v s captured segs h A v' n ms,
  Live v s captured segs h ∅ -> Reps h A -> run_ops cfg ops s v = (v', n, ms) -> Forall KM ms -> Forall (fun o => Forall KB (op_pages o)) ops ->
  (exists h' pend' A', Durable (vfs_disk v') h' pend' /\ Reps h' A' /\ spec_life ops n A A') /\
  (healthy v -> Forall op_fits ops -> n = length ops).
Proof.
  induction ops as [|o ops IH]; intros v s captured segs h A v' n ms Hl HR E HM HB; cbn [run_ops] in E.
  { injection E as <- <- <-. split; [|done]. exists h, ∅, A. split; [by eapply Live_durable|]. split; [done|]. split; [done|by left]. }
  apply Forall_cons in HB as [HBo HB].
  assert (Forall KM (op_manifests cfg o s v)) as HMo.
  { destruct (run_op o s v) as [[v1 s1] [|]]; [|by injection E as <- <- <-]. destruct (run_ops cfg ops s1 v1) as [[v2 n2] ms2]. injection E as <- <- <-. by apply Forall_app in HM as [? _]. }
  destruct (run_op_ok o v s captured segs h A Hl HR HMo HBo) as (v1 & s1 & ok & Eo & Ho & Hhe). rewrite Eo in E. destruct ok; cbn [outcome] in Ho.
  - destruct (run_ops cfg ops s1 v1) as [[v2 n2] ms2] eqn:E2. injection E as <- <- <-. apply Forall_app in HM as [_ HM].
    destruct Ho as (c1 & sg1 & h1 & Hl1 & HR1). destruct (IH _ _ _ _ _ _ _ _ _ Hl1 HR1 E2 HM HB) as [(h' & pend' & A' & Hd & HR' & Hn & HA) Hlive].
    split; [exists h', pend', A'; split; [done|]; split; [done|]; split; [simpl; lia|done]|].
    intros Hv [Hf Hfs]%Forall_cons. simpl. f_equal. apply Hlive; [by apply Hhe|done].
  - injection E as <- <- <-. split; [|intros Hv [Hf _]%Forall_cons; by destruct (Hhe Hv Hf)].
    destruct Ho as (h' & pend' & Hd & HR'). destruct HR'; eexists h', pend', _; (split; [done|]); (split; [done|]); (split; [simpl; lia|]); [by left|by right].
Qed.

Hypothesis Hroot : KM (root cfg).
Hypothesis Hsize : validate_page_size (cfg_page_size cfg) = Ok tt.

Lemma spec_life_0 ops A : spec_life ops 0 A A.
Proof. split; [lia|by left]. Qed.

Lemma run_life_ok fuel ops v h pend A v' n ms :
  Durable (vfs_disk v) h pend -> Reps h A -> run_life cfg fuel ops v = (v', n, ms) -> Forall KM ms -> Forall (fun o => Forall KB (op_pages o)) ops ->
  (exists h' pend' A', Durable (vfs_disk v') h' pend' /\ Reps h' A' /\ spec_life ops n A A') /\
  (fuel = None -> Forall op_fits ops -> n = length ops).
Proof.
  intros Hd HR E HM HB. unfold run_life in E.
  destruct (reopen_ok cfg KM KB Hsep Hroot Hsize fuel v h pend Hd) as (v1 & r1 & E1 & Hd1 & Hf1 & Hr1). rewrite E1 in E. destruct r1 as [s|e].
  2: { injection E as <- <- <-. split; [exists h, pend, A; split; [done|]; split; [done|apply spec_life_0]|]. intros Hf. by destruct (Hf1 Hf). }
  destruct Hr1 as (captured & segs & Hl). destruct (checkpoint_op_ok v1 s captured segs h pend A Hl HR) as (v2 & s2 & r2 & E2 & Ho & Hhe). rewrite E2 in E.
  destruct r2 as [[]|e]; cbn [is_ok outcome] in Ho.
  - destruct Ho as (c2 & sg2 & h2 & Hl2 & HR2). destruct (run_ops_ok ops _ _ _ _ _ _ _ _ _ Hl2 HR2 E HM HB) as [Hex Hlive]. split; [done|].
    intros Hf. apply Hlive. by apply Hhe, Hf1.
  - injection E as <- <- <-. split; [|intros Hf; destruct (Hhe (proj2 (Hf1 Hf))); done]. destruct Ho as (h' & pend' & Hd' & HR').
    exists h', pend', A. split; [done|]. split; [tauto|apply spec_life_0].
Qed.

Lemma run_lives_ok lives : forall v h pend A,
  Durable (vfs_disk v) h pend -> Reps h A -> Forall KM (t_manifests (run_lives cfg lives v)) -> Forall KB (lives_pages lives) ->
  (exists h' pend' A', Durable (vfs_disk (t_vfs (run_lives cfg lives v))) h' pend' /\ Reps h' A' /\ spec_lives lives (t_acks (run_lives cfg lives v)) A A') /\
  (Forall (fun l => l.1 = None /\ Forall op_fits l.2) lives -> t_acks (run_lives cfg lives v) = map (fun l => length l.2) lives).
Proof.
  induction lives as [|[fuel ops] lives IH]; intros v h pend A Hd HR HM HB; cbn [run_lives] in *.
  { split; [by exists h, pend, A|done]. }
  destruct (run_life cfg fuel ops v) as [[v1 n] ms] eqn:E. cbn [t_manifests t_acks t_vfs] in *. apply Forall_app in HM as [HM1 HM].
  unfold lives_pages in HB. cbn [flat_map snd] in HB. apply Forall_app in HB as [HB1 HB].
  assert (Forall (fun o => Forall KB (op_pages o)) ops) as HBo.
  { clear -HB1. induction ops as [|o ops IH]; [done|]. cbn in HB1. apply Forall_app in HB1 as [? ?]. constructor; [done|by apply IH]. }
  destruct (run_life_ok fuel ops v h pend A v1 n ms Hd HR E HM1 HBo) as [(h1 & pend1 & A1 & Hd1 & HR1 & Hs1) Hlive].
  destruct (IH v1 h1 pend1 A1 Hd1 HR1 HM HB) as [(h' & pend' & A' & Hd' & HR' & Hs') Hlives]. split.
  - exists h', pend', A'. split; [done|]. split; [done|]. by exists A1.
  - intros [[Hf Hfit] Hfs]%Forall_cons. cbn [map snd] in *. f_equal; [by apply Hlive|by apply Hlives].
Qed.

(** A machine that holds nothing. *)
Lemma new_durable : Durable disk_empty [(manifest_id (root cfg), root cfg, ∅)] ∅.
Proof.
  exists None, [], []. split; try done; [by left|by left|constructor| |repeat constructor; done].
  exists [root_entry cfg]. split; [done|constructor].
Qed.

Lemma new_reps : Reps [(manifest_id (root cfg), root cfg, ∅)] [∅].
Proof. constructor; [|constructor]. split; [|done]. simpl. unfold page_map. by rewrite fmap_empty. Qed.

(** What a reopened store reads. *)
Definition reads_as (p : Pager) (v : Vfs) (id : ManifestId) (c : Contents) : Prop :=
  forall k, read p id k v = match c !! k with Some b => Ok (mkPage (hash b) b) | None => Err (PageNotFound k (to_hex id)) end.

Lemma Live_reads v s captured segs h pend A : Live v s captured segs h pend -> Reps h A -> Forall2 (reads_as (s_pager s) v) (ids_of h) A.
Proof.
  intros Hl HR. unfold ids_of. apply Forall2_fmap_l, Forall2_same_length_lookup_2; [by eapply Forall2_length|].
  intros i [[id m] pg] c Hi Hc. destruct (Forall2_lookup_lr _ _ _ _ _ _ HR Hi Hc) as [Hpg Hk]. simpl in *. subst pg. intros k.
  by eapply read_stored; [|apply (list_elem_of_lookup_2 _ _ _ Hi)|].
Qed.
End store.
