(* ===== verification/BridgeLog.v ===== *)
(** * One epoch per commit ([mutiny-bridge]: lib.rs, [schweep-log]: log.rs)

    [apply_commit] over the compute log: whatever seam stops it and however often it
    is tried again, a capture becomes one epoch that holds its batches. *)

From Stdlib Require Import ZArith NArith Lia Sorted.
From stdpp Require Import base list gmap strings sorting.
From S2P Require Import Prelude BTree Value ZSet Bind Codec Text LogRecord Log LogCorrect Vfs Pager Wal Envelope Bridge.

(** ** The order of admission *)

Definition table_lt (x y : Batch) : Prop := cmp (batch_table x) (batch_table y) = Lt.

Lemma cmp_le_of_lt {A} `{Cmp A} (x y : A) : cmp x y = Lt -> cmp_le x y.
Proof. unfold cmp_le. by intros ->. Qed.

(** Sorting by a key a list whose keys ascend. *)
Lemma merge_sort_ascending {A K} `{LinearCmp K} (key : A -> K) (l : list A) :
  StronglySorted (fun x y => cmp (key x) (key y) = Lt) l -> merge_sort (fun x y => cmp_le (key x) (key y)) l = l.
Proof.
  intros Hlt. set (R x y := cmp_le (key x) (key y)). apply (StronglySorted_unique_strong R).
  - intros x y Hx Hy Hxy Hyx. rewrite (merge_sort_Permutation R l) in Hx. revert Hx Hy. induction Hlt as [|z l Hl IH Hf]; [by intros ?%elem_of_nil|].
    rewrite Forall_forall in Hf. intros [->|Hx]%elem_of_cons [->|Hy]%elem_of_cons; [done| | |by apply IH]; exfalso.
    + apply Hyx. by rewrite cmp_antisym, (Hf y Hy).
    + apply Hxy. by rewrite cmp_antisym, (Hf x Hx).
  - apply StronglySorted_merge_sort.
    + intros x y z. apply cmp_le_trans.
    + intros x y. unfold R, cmp_le. rewrite (cmp_antisym (key x) (key y)). destruct (cmp (key x) (key y)); [left|left|right]; done.
  - induction Hlt as [|x l Hl IH Hf]; constructor; [done|]. eapply Forall_impl; [exact Hf|]. intros y. apply cmp_le_of_lt.
  - apply merge_sort_Permutation.
Qed.

(** A list whose first [j] tokens are the known ones is in order already. *)
Lemma admission_order_id log bs j :
  StronglySorted table_lt bs -> (forall i b, bs !! i = Some b -> bt_contains (dedup_token b) (dedup log) = bool_decide (i < j)%nat) ->
  admission_order log bs = bs.
Proof.
  intros Hs Hk. apply merge_sort_ascending. revert j Hk. induction Hs as [|x l Hs IH Hf]; intros j Hk; [constructor|]. constructor.
  - apply (IH (pred j)). intros i b Hi. rewrite (Hk (S i) b Hi). apply bool_decide_ext. lia.
  - apply Forall_forall. intros y Hy. rewrite Forall_forall in Hf. specialize (Hf y Hy). apply list_elem_of_lookup in Hy as [i Hi].
    rewrite (Hk (S i) y Hi), (Hk 0%nat x eq_refl). unfold cmp, prod_Cmp, prod_cmp. cbn [fst snd]. unfold table_lt in Hf. rewrite Hf.
    repeat case_bool_decide; cbn; try done; lia.
Qed.

#[local] Opaque content_hash record_ok batch_frame rframe.

(** ** Checking against the catalog *)

Lemma check_row_weight schema r w w' : log_check_row schema (r, w) = log_check_row schema (r, w').
Proof. done. Qed.

Lemma validate_rows_log catalog b :
  validate_rows catalog (batch_table b) (map fst (batch_rows b)) = Ok tt ->
  (let? schema := ok_or (bt_get (batch_table b) catalog) (LogUnknownTable (batch_table b)) in try_for (log_check_row schema) (batch_rows b)) = Ok tt.
Proof.
  unfold validate_rows. destruct (bt_get (batch_table b) catalog) as [schema|]; [|done]. cbn [ok_or].
  generalize (batch_rows b). intros rows. induction rows as [|[r w] rows IH]; [done|]. cbn [map fst try_for].
  rewrite (check_row_weight schema r w 0). destruct (log_check_row schema (r, 0)) as [[]|e]; cbn [map_err]; [|done]. apply IH.
Qed.

Section apply.
Context `{Blake3} `{ManifestCodec} `{RecordCodec} `{CaptureCodec}.
Context (policy : SyncPolicy) (catalog : Catalog) (base : btree string Z).
Context (a : ALog) (bs : list Batch).

Abbreviation log_inv := (log_inv policy catalog base).

(** Batches that are new to the log, valid and in order. *)
Record fresh : Prop := {
  fr_pending : a_pending a = [];
  fr_tokens : NoDup (map dedup_token bs);
  fr_unknown : Forall (fun b => bt_get (dedup_token b) (a_known a) = None) bs;
  fr_valid : Forall (fun b => validate_rows catalog (batch_table b) (map fst (batch_rows b)) = Ok tt) bs;
  fr_record : Forall (fun b => record_ok (batch_record b) = true) bs;
  fr_sorted : StronglySorted table_lt bs;
  fr_room : abs_sealed a + 1 < 2 ^ 64;
}.
Hypothesis Hfresh : fresh.

(** The log once the first [j] batches are pending, and once they are an epoch. *)
Definition fed (j : nat) : ALog := mkALog (tokens_of (take j bs) (a_known a)) (a_from a) (a_epochs a) (take j bs).
Definition sealed_with : ALog := mkALog (tokens_of bs (a_known a)) (a_from a) (a_epochs a ++ [bs]) [].

Lemma fed_0 : fed 0 = a.
Proof. unfold fed. destruct Hfresh as [Hp _ _ _ _ _ _]. destruct a as [k f e p]. simpl in *. by subst p. Qed.

Lemma fed_S j b : bs !! j = Some b ->
  mkALog (bt_insert (dedup_token b) (content_hash (batch_record b)) (a_known (fed j))) (a_from (fed j)) (a_epochs (fed j)) (a_pending (fed j) ++ [b]) = fed (S j).
Proof. intros Hb. unfold fed. cbn [a_known a_from a_epochs a_pending]. rewrite (take_S_r _ _ _ Hb). unfold tokens_of. by rewrite fold_left_app. Qed.

Lemma tokens_of_get l : forall m t, NoDup (map dedup_token l) ->
  bt_get t (tokens_of l m) = match list_find (fun b => dedup_token b = t) l with Some (_, b) => Some (content_hash (batch_record b)) | None => bt_get t m end.
Proof.
  induction l as [|b l IH]; intros m t Hnd; [done|]. cbn [map] in Hnd. apply NoDup_cons in Hnd as [Hb Hnd]. cbn [list_find]. unfold tokens_of. cbn [fold_left].
  fold (tokens_of l (bt_insert (dedup_token b) (content_hash (batch_record b)) m)). rewrite (IH _ _ Hnd). destruct (decide (dedup_token b = t)) as [<-|Hne].
  - destruct (list_find _ l) as [[i b']|] eqn:E; cbn; [|by rewrite bt_get_insert_eq]. apply list_find_Some in E as (Hi & Ht & _).
    destruct Hb. rewrite <- Ht. apply list_elem_of_In, in_map, list_elem_of_In. by eapply list_elem_of_lookup_2.
  - rewrite bt_get_insert_ne by done. by destruct (list_find _ l) as [[i b']|].
Qed.

Lemma token_at i j b b' : bs !! i = Some b -> bs !! j = Some b' -> dedup_token b = dedup_token b' -> i = j.
Proof.
  intros Hi Hj E. eapply (NoDup_lookup (map dedup_token bs)); [apply Hfresh| |]; rewrite list_lookup_fmap; [by rewrite Hi|by rewrite Hj; simpl; rewrite E].
Qed.

Lemma NoDup_take_tokens j : NoDup (map dedup_token (take j bs)).
Proof. rewrite <- firstn_map. eapply sublist_NoDup; [apply (fr_tokens Hfresh)|apply sublist_take]. Qed.

Lemma fed_known i j b : bs !! i = Some b ->
  bt_get (dedup_token b) (a_known (fed j)) = if bool_decide (i < j)%nat then Some (content_hash (batch_record b)) else None.
Proof.
  intros Hi. unfold fed. cbn [a_known]. rewrite tokens_of_get by apply NoDup_take_tokens. case_bool_decide as Hij.
  - destruct (list_find _ (take j bs)) as [[k b']|] eqn:E.
    + apply list_find_Some in E as (Hk & Ht & _). apply lookup_take_Some in Hk as [Hk _]. pose proof (token_at _ _ _ _ Hk Hi Ht) as ->. by simplify_eq.
    + exfalso. apply list_find_None in E. rewrite Forall_forall in E. apply (E b); [|done]. eapply list_elem_of_lookup_2, lookup_take_Some. by split.
  - destruct (list_find _ (take j bs)) as [[k b']|] eqn:E.
    + apply list_find_Some in E as (Hk & Ht & _). apply lookup_take_Some in Hk as [Hk Hkj]. pose proof (token_at _ _ _ _ Hk Hi Ht) as ->. lia.
    + apply (Forall_lookup_1 _ _ _ _ (fr_unknown Hfresh) Hi).
Qed.

Lemma bs_valid i b log d b' : bs !! i = Some b -> log_inv d log b' -> log_validate log (batch_table b) (batch_rows b) = Ok tt.
Proof.
  intros Hi Hinv. unfold log_validate. assert (log_catalog log = catalog) as -> by (rewrite (li_log _ _ _ _ _ _ Hinv); done).
  apply validate_rows_log. apply (Forall_lookup_1 _ _ _ _ (fr_valid Hfresh) Hi).
Qed.

(** ** Appending, stopped anywhere *)

Lemma reached_cases f seam : exists f' hit, reached f seam = (f', hit) /\ (unplanned f -> hit = false /\ unplanned f').
Proof. destruct (reached f seam) as [f' hit] eqn:E. exists f', hit. split; [done|]. intros Hf. by apply (reached_unplanned f seam). Qed.

Ltac seam_any Hf :=
  match goal with |- context [reached ?f ?s] =>
    let f' := fresh "f" in let hit := fresh "hit" in let E := fresh "E" in
    destruct (reached_cases f s) as (f' & hit & E & Hf); rewrite E; destruct hit
  end.

Lemma append_known i j b f d log : bs !! i = Some b -> (i < j)%nat -> log_inv d log (fed j) ->
  exists f' r, log_append log d f b = (f', d, log, r) /\ match r with Ok ack => ack = DroppedAsReplay | Err _ => True end /\
    (unplanned f -> unplanned f' /\ is_ok r = true).
Proof.
  intros Hi Hij Hinv. unfold log_append, fault. rewrite (bs_valid i b log d _ Hi Hinv), (log_dedup _ _ _ _ _ _ Hinv), (fed_known i j b Hi), bool_decide_eq_true_2 by done.
  rewrite Z.eqb_refl. seam_any Hf1; eexists _, _; (split; [done|]); (split; [done|]); intros Hf; destruct (Hf1 Hf); done.
Qed.

Lemma append_new j b f d log : bs !! j = Some b -> log_inv d log (fed j) ->
  exists f' d' log' r, log_append log d f b = (f', d', log', r) /\
    match r with
    | Ok ack => ack = Appended /\ log_inv d' log' (fed (S j))
    | Err _ => exists log2, log_inv d' log2 (fed j) \/ log_inv d' log2 (fed (S j))
    end /\ (unplanned f -> unplanned f' /\ is_ok r = true).
Proof.
  intros Hj Hinv. unfold log_append. rewrite (bs_valid j b log d _ Hj Hinv), (log_dedup _ _ _ _ _ _ Hinv), (fed_known j j b Hj), bool_decide_eq_false_2 by lia.
  unfold append_write, fault. rewrite rframe_eq. pose proof (index_append_inv _ _ _ _ _ _ b Hinv (Forall_lookup_1 _ _ _ _ (fr_record Hfresh) Hj)) as Hnew. rewrite (fed_S j b Hj) in Hnew.
  seam_any Hf1; [|seam_any Hf2; [|seam_any Hf3; [|seam_any Hf4; [|seam_any Hf5]]]];
    (eexists _, _, _, _; split; [done|]; split; [first [by eauto|by split]|]); intros Hf; naive_solver.
Qed.

Lemma append_all_any rest : forall i j f d log ap rp, rest = drop i bs -> (i <= length bs)%nat -> (j <= length bs)%nat -> log_inv d log (fed (i `max` j)) ->
  exists f' d' log' r, append_all rest ap rp log d f = (f', d', log', r) /\
    match r with
    | Ok (ap', rp') => log_inv d' log' (fed (length bs)) /\ ap' = ap + Z.of_nat (length bs - i `max` j) /\ rp' = rp + Z.of_nat (i `max` j - i)
    | Err _ => exists log2 k, log_inv d' log2 (fed k)
    end /\ (unplanned f -> unplanned f' /\ is_ok r = true).
Proof.
  induction rest as [|b rest IH]; intros i j f d log ap rp Hr Hi Hj Hinv.
  - assert (length bs = i) as Hl by (apply (f_equal length) in Hr; rewrite length_drop in Hr; simpl in Hr; lia).
    eexists _, _, _, _. split; [done|]. rewrite Nat.max_l in * by lia. split; [|done]. rewrite Hl. split; [done|]. lia.
  - assert (bs !! i = Some b) as Hb by (by rewrite <- (Nat.add_0_r i), <- lookup_drop, <- Hr).
    assert (rest = drop (S i) bs) as Hr' by (by rewrite <- (drop_drop bs i 1), <- Hr, Nat.add_comm || (rewrite (drop_S _ _ _ Hb) in Hr; congruence)).
    pose proof (lookup_lt_Some _ _ _ Hb) as Hlt. cbn [append_all]. destruct (Nat.lt_ge_cases i j) as [Hij|Hij].
    + rewrite Nat.max_r in Hinv by lia. destruct (append_known i j b f d log Hb Hij Hinv) as (f1 & r1 & -> & Hr1 & Hf1).
      destruct r1 as [ack|e]; [subst ack|eexists _, _, _, _; split; [done|]; split; [by eauto|]; naive_solver].
      destruct (IH (S i) j f1 d log ap (rp + 1) Hr') as (f' & d' & log' & r & -> & Hres & Hf); [lia|lia|by rewrite Nat.max_r by lia|].
      eexists _, _, _, _. split; [done|]. split; [|naive_solver]. destruct r as [[ap' rp']|]; [|done]. destruct Hres as (? & -> & ->). split; [done|].
      rewrite !Nat.max_r by lia. lia.
    + rewrite Nat.max_l in Hinv by lia. destruct (append_new i b f d log Hb Hinv) as (f1 & d1 & log1 & r1 & -> & Hr1 & Hf1).
      destruct r1 as [ack|e].
      2: { eexists _, _, _, _. split; [done|]. split; [|naive_solver]. destruct Hr1 as (log2 & [?|?]); eauto. }
      destruct Hr1 as [-> Hinv1].
      destruct (IH (S i) j f1 d1 log1 (ap + 1) rp Hr') as (f' & d' & log' & r & -> & Hres & Hf); [lia|lia|by rewrite Nat.max_l by lia|].
      eexists _, _, _, _. split; [done|]. split; [|naive_solver]. destruct r as [[ap' rp']|]; [|done]. destruct Hres as (? & -> & ->). split; [done|].
      rewrite !Nat.max_l by lia. lia.
Qed.

Lemma seal_any f d log : log_inv d log (fed (length bs)) ->
  exists f' d' log' r, log_seal log d f = (f', d', log', r) /\
    match r with
    | Ok epoch => epoch = abs_sealed a + 1 /\ log_inv d' log' sealed_with
    | Err _ => exists log2, log_inv d' log2 (fed (length bs)) \/ log_inv d' log2 sealed_with
    end /\ (unplanned f -> unplanned f' /\ is_ok r = true).
Proof.
  intros Hinv. destruct (log_seal_refines _ _ _ _ _ _ inert Hinv (fr_room Hfresh) eq_refl) as (f0 & d0 & log0 & E0 & _ & Hinv0).
  assert ((abs_seal (fed (length bs))).1 = sealed_with) as Es by (unfold abs_seal, fed, sealed_with; cbn [a_known a_from a_epochs a_pending fst]; by rewrite firstn_all).
  rewrite Es in Hinv0. unfold log_seal, fault in *. rewrite (log_sealed_of _ _ _ _ _ _ Hinv) in *.
  destruct (reached_cases inert SealBeforeRecord) as (g1 & hit1 & G1 & Hg1). rewrite G1 in E0. destruct (Hg1 eq_refl) as [-> Hu1].
  destruct (reached_cases g1 SealAfterRecordBeforeFsync) as (g2 & hit2 & G2 & Hg2). rewrite G2 in E0. destruct (Hg2 Hu1) as [-> _].
  injection E0 as _ <- <-.
  seam_any Hf1; [|seam_any Hf2]; (eexists _, _, _, _; split; [done|]; split; [|naive_solver]); eauto.
Qed.

(** The epochs once the batches are sealed. *)
Lemma abs_sealed_with : abs_sealed sealed_with = abs_sealed a + 1.
Proof. unfold abs_sealed, sealed_with; cbn [a_from a_epochs]; rewrite length_app; simpl; lia. Qed.

Lemma new_epoch : 0 <= a_from a -> abs_epoch sealed_with (abs_sealed a + 1) = Ok bs.
Proof.
  intros Hfrom. unfold abs_epoch. rewrite abs_sealed_with. cbn [sealed_with a_from a_epochs]. assert (a_from a < abs_sealed a + 1) as Hlt by (unfold abs_sealed; lia).
  rewrite (proj2 (Z.leb_gt _ (a_from a))) by lia. rewrite andb_false_r, Z.ltb_irrefl, (proj2 (Z.eqb_neq _ 0)) by lia. cbn [orb].
  replace (Z.to_nat (abs_sealed a + 1 - a_from a - 1)) with (length (a_epochs a)) by (unfold abs_sealed; lia).
  by rewrite lookup_app_r, Nat.sub_diag by lia.
Qed.

Lemma old_epoch n : 0 < n <= abs_sealed a -> abs_epoch sealed_with n = abs_epoch a n.
Proof.
  intros Hn. unfold abs_epoch. rewrite abs_sealed_with, (proj2 (Z.eqb_neq n 0)) by lia. cbn [sealed_with a_from a_epochs negb andb orb].
  destruct (Z.leb_spec n (a_from a)); [done|]. rewrite !(proj2 (Z.ltb_ge _ _)) by lia. unfold abs_sealed in Hn.
  rewrite lookup_app_l by lia. destruct (a_epochs a !! _) eqn:E; [done|]. apply lookup_ge_None in E. lia.
Qed.

(** ** Applying a commit *)

Lemma fed_min k : fed k = fed (k `min` length bs).
Proof. unfold fed. destruct (Nat.le_ge_cases k (length bs)); [by rewrite Nat.min_l|]. by rewrite Nat.min_r, !take_ge by lia. Qed.

Context (c : CommitCapture) (authority : EnvelopeAuthority) (env : EnvelopeId).
Hypothesis Hprep : prepare c authority = Ok (env, bs).
Hypothesis Hseq : cc_seq c = abs_sealed a + 1.

(** A disk from which the log restarts, the commit pending in part or sealed. *)
Definition restartable (d : Log.Disk) : Prop :=
  exists log2, (exists k, (k <= length bs)%nat /\ log_inv d log2 (fed k)) \/ log_inv d log2 sealed_with.

Lemma restartable_fed d log2 k : log_inv d log2 (fed k) -> restartable d.
Proof. intros Hinv. rewrite fed_min in Hinv. exists log2. left. exists (k `min` length bs)%nat. split; [lia|done]. Qed.

Lemma own_pending j : existsb (fun p => negb (existsb (fun b => bool_decide (b = p)) bs)) (take j bs) = false.
Proof.
  apply not_true_is_false. rewrite existsb_exists. intros (p & Hp & Hno). apply negb_true_iff in Hno.
  assert (existsb (fun b => bool_decide (b = p)) bs = true); [|congruence]. apply existsb_exists. exists p.
  split; [|by apply bool_decide_eq_true_2]. rewrite <- (take_drop j bs). apply in_or_app. by left.
Qed.

Lemma catalog_valid log d b : log_inv d log b -> validate_against_catalog log bs = Ok tt.
Proof.
  intros Hinv. unfold validate_against_catalog. assert (log_catalog log = catalog) as -> by (rewrite (li_log _ _ _ _ _ _ Hinv); done).
  generalize (fr_valid Hfresh). clear. generalize bs at 1 2. intros l Hv. induction Hv as [|b0 l Hb _ IH]; [done|]. cbn [try_for]. by rewrite Hb.
Qed.

Lemma known_first log d j : (j <= length bs)%nat -> log_inv d log (fed j) -> admission_order log bs = bs.
Proof.
  intros Hj Hinv. apply (admission_order_id log bs j (fr_sorted Hfresh)). intros i b Hi. unfold bt_contains.
  rewrite (log_dedup _ _ _ _ _ _ Hinv), (fed_known i j b Hi). by case_bool_decide.
Qed.

Lemma apply_any j f d log : (j <= length bs)%nat -> log_inv d log (fed j) ->
  exists f' d' log' r, apply_commit c authority log d f = (f', d', log', r) /\
    match r with
    | Ok rc => rc = mkReceipt (cc_commit c) (cc_seq c) env Applied (Z.of_nat (length bs - j)) (Z.of_nat j) /\ log_inv d' log' sealed_with
    | Err _ => restartable d'
    end /\ (unplanned f -> is_ok r = true).
Proof.
  intros Hj Hinv. unfold apply_commit. rewrite Hprep, (log_sealed_of _ _ _ _ _ _ Hinv). change (abs_sealed (fed j)) with (abs_sealed a).
  rewrite Hseq, (proj2 (Z.leb_gt _ _)), Z.eqb_refl by lia. cbn [negb]. rewrite (catalog_valid log d _ Hinv).
  assert (log_pending log = take j bs) as -> by (rewrite (li_log _ _ _ _ _ _ Hinv); done). rewrite own_pending, (known_first log d j Hj Hinv).
  destruct (append_all_any bs 0 j f d log 0 0 eq_refl) as (f1 & d1 & log1 & r1 & -> & Hr1 & Hf1); [lia|done|done|].
  destruct r1 as [[ap rp]|e].
  2: { eexists _, _, _, _. split; [done|]. split; [|naive_solver]. destruct Hr1 as (log2 & k & Hk). by eapply restartable_fed. }
  destruct Hr1 as (Hinv1 & -> & ->). destruct (seal_any f1 d1 log1 Hinv1) as (f2 & d2 & log2 & r2 & -> & Hr2 & Hf2). destruct r2 as [epoch|e].
  - destruct Hr2 as [-> Hinv2]. rewrite Z.eqb_refl. cbn [negb]. eexists _, _, _, _. split; [done|]. split; [|done]. split; [|done].
    f_equal; lia.
  - eexists _, _, _, _. split; [done|]. split; [|naive_solver]. destruct Hr2 as (log3 & [?|?]); [by eapply restartable_fed|]. exists log3. by right.
Qed.

Lemma apply_again f d log : log_inv d log sealed_with ->
  apply_commit c authority log d f = (f, d, log, Ok (mkReceipt (cc_commit c) (cc_seq c) env Replayed 0 (Z.of_nat (length bs)))).
Proof.
  intros Hinv. unfold apply_commit. rewrite Hprep, (log_sealed_of _ _ _ _ _ _ Hinv).
  rewrite abs_sealed_with, Hseq, Z.leb_refl. unfold replay_commit_of. rewrite Hseq.
  assert (retained_from log = a_from a) as -> by (rewrite (li_log _ _ _ _ _ _ Hinv); done).
  rewrite (proj2 (Z.leb_gt _ _)) by (unfold abs_sealed; lia).
  rewrite (log_epoch_refines _ _ _ _ _ _ _ Hinv), (new_epoch (li_from _ _ _ _ _ _ Hinv)). cbn [map_err]. by rewrite bool_decide_eq_true_2.
Qed.

(** A host that restarts the log after every attempt that fails. *)
Fixpoint attempts (fs : list FaultInjector) (log : Log) (d : Log.Disk) : Log.Disk * Log * result BridgeError ApplyReceipt :=
  match fs with
  | [] => let '(_, d, log, r) := apply_commit c authority log d inert in (d, log, r)
  | f :: fs =>
      match apply_commit c authority log d f with
      | (_, d, log, Ok rc) => (d, log, Ok rc)
      | (_, d, log, Err _) =>
          match (log_open d catalog inert policy).2 with
          | Err e => (d, log, Err (BridgeLog e))
          | Ok log => attempts fs log d
          end
      end
  end.

Lemma attempts_ok fs : forall log d,
  (exists j, (j <= length bs)%nat /\ log_inv d log (fed j)) \/ log_inv d log sealed_with ->
  exists d' log' rc, attempts fs log d = (d', log', Ok rc) /\ rc_epoch rc = cc_seq c /\ log_inv d' log' sealed_with.
Proof.
  induction fs as [|f fs IH]; intros log d Hd; cbn [attempts].
  - destruct Hd as [(j & Hj & Hinv)|Hinv].
    + destruct (apply_any j inert d log Hj Hinv) as (f' & d' & log' & r & -> & Hr & Hf). destruct r as [rc|]; [|by specialize (Hf eq_refl)].
      destruct Hr as [-> ?]. eauto 10.
    + rewrite (apply_again inert d log Hinv). eauto 10.
  - destruct Hd as [(j & Hj & Hinv)|Hinv].
    + destruct (apply_any j f d log Hj Hinv) as (f' & d' & log' & r & -> & Hr & Hf). destruct r as [rc|]; [destruct Hr as [-> ?]; eauto 10|].
      destruct Hr as (log2 & Hlog2). assert (exists x, log_inv d' log2 x) as [x Hx] by (destruct Hlog2 as [(k & _ & ?)|?]; eauto).
      destruct (reopen_inv _ _ _ _ _ _ inert Hx eq_refl) as (f2 & _ & ->). by apply IH.
    + rewrite (apply_again f d log Hinv). eauto 10.
Qed.
End apply.

(** ** The batches of a capture *)

Section batches.
Context `{Blake3} `{ManifestCodec}.

Definition batch_entry (c : CommitCapture) (p : string * Batch) : Prop :=
  batch_table p.2 = p.1 /\ dedup_token p.2 = hex_string (cc_commit c) +:+ slash +:+ p.1.

Lemma batch_entries c env :
  let m := bt_insert DERIVATION_TABLE (derivation_batch c env) (bt_of_list (map (fun t => (t.1, table_batch c t)) (cc_tables c))) in
  bt_sorted m /\ Forall (batch_entry c) m.
Proof.
  cbn zeta. split; [apply bt_insert_sorted, bt_of_list_sorted|]. apply bt_insert_Forall; [done|].
  unfold bt_of_list. assert (Forall (batch_entry c) bt_empty) as Hn by constructor. revert Hn. generalize (bt_empty : btree string Batch).
  induction (cc_tables c) as [|t l IH]; intros m Hm; [done|]. cbn [map fold_left]. apply IH, bt_insert_Forall; done.
Qed.

Lemma batches_of_sorted c env : StronglySorted table_lt (batches_of c env).
Proof.
  unfold batches_of. destruct (batch_entries c env) as [Hs Hf]. revert Hs Hf. set (m := bt_insert _ _ _). generalize m. clear m. intros m Hs Hf.
  induction Hs as [|p l Hs IH Hp]; [constructor|]. cbn [map]. apply Forall_cons in Hf as [Hpe Hf]. constructor; [by apply IH|].
  apply Forall_map. rewrite Forall_forall in *. intros q Hq. unfold table_lt. rewrite (proj1 Hpe), (proj1 (Hf q Hq)). by apply Hp.
Qed.

Lemma batches_of_tokens c env : NoDup (map dedup_token (batches_of c env)).
Proof.
  unfold batches_of. destruct (batch_entries c env) as [Hs Hf]. revert Hs Hf. set (m := bt_insert _ _ _). generalize m. clear m. intros m Hs Hf.
  induction Hs as [|p l Hs IH Hp]; [constructor|]. cbn [map]. apply Forall_cons in Hf as [Hpe Hf]. constructor; [|by apply IH].
  intros Hin. apply list_elem_of_In, in_map_iff in Hin as (b & Hb & Hin). apply in_map_iff in Hin as (q & <- & Hin%list_elem_of_In).
  rewrite Forall_forall in Hf, Hp. rewrite (proj2 (Hf q Hin)), (proj2 Hpe) in Hb. apply (inj (String.append _)) in Hb. apply (inj (String.append _)) in Hb.
  specialize (Hp q Hin). unfold key_lt in Hp. rewrite Hb in Hp. by apply cmp_lt_irrefl in Hp.
Qed.

Lemma prepare_batches c authority env bs : prepare c authority = Ok (env, bs) -> bs = batches_of c env.
Proof. unfold prepare. intros E. repeat (case_match; try done). congruence. Qed.
End batches.
