(* ===== verification/BridgeQueue.v ===== *)
(** * The durable queue ([mutiny-bridge]: lib.rs)

    The capture page reads back the draft it was made from; a store whose commits
    all went through the bridge holds, in its history, the queue of their drafts.

    Its later part: runs of a store behind the bridge ([mutiny-bridge],
    [substrate-wal]). *)

From Stdlib Require Import ZArith NArith Lia Sorted.
From stdpp Require Import base list gmap strings sorting.
From S2P Require Import Prelude BTree Value ZSet Bind Codec Text Vfs Pager PagerCorrect Wal WalInv WalCommit Envelope Bridge Maintenance StoreCorrect.

(** ** The capture page *)

(** Numbers of the width the source gives them, and tables in their order. *)
Definition in_u64 (z : Z) : Prop := 0 <= z < 2 ^ 64.

Definition value_wire_ok (w : ValueWire) : Prop :=
  match w with WInt i => in_i64 i = true | WFloat u => in_u64 u | _ => True end.
Definition change_wire_ok (w : ChangeWire) : Prop := in_i64 (w_weight w) = true /\ Forall in_u64 (w_pages w) /\ Forall value_wire_ok (w_row w).
Definition wire_ok (w : CaptureWire) : Prop :=
  in_u64 (w_seq w) /\ bt_sorted (w_tables w) /\ Forall (fun t => Forall change_wire_ok t.2) (w_tables w).

(** What the serialisation promises: what it writes it reads. *)
Class CaptureCodecLaws `{CaptureCodec} := capture_roundtrip w bytes :
  wire_ok w -> capture_serialize w = Ok bytes -> capture_deserialize bytes = Ok w.

Definition value_ok (v : Value) : Prop := match v with VInt i | VFloat i => in_i64 i = true | _ => True end.
Definition change_ok (c : CapturedChange) : Prop := in_i64 (c_weight c) = true /\ set_Forall in_u64 (c_pages c) /\ Forall value_ok (c_row c).
Definition draft_ok (d : CommitDraft) : Prop :=
  in_u64 (dr_seq d) /\ bt_sorted (dr_tables d) /\ Forall (fun t => Forall change_ok t.2) (dr_tables d).

Lemma value_wire v : value_ok v -> value_from_wire (value_to_wire v) = v /\ value_wire_ok (value_to_wire v).
Proof.
  destruct v as [|i|s|b|f]; simpl; try done. intros Hf. split; [f_equal; by apply as_i64_as_u64|]. unfold as_u64, in_u64. by apply Z.mod_pos_bound.
Qed.

Lemma sorted_pages_perm s : sorted_pages s ≡ₚ elements s.
Proof. apply merge_sort_Permutation. Qed.

Lemma sorted_pages_set s : list_to_set (sorted_pages s) = s.
Proof. rewrite sorted_pages_perm. apply list_to_set_elements_L. Qed.

Lemma values_wire row : Forall value_ok row -> map value_from_wire (map value_to_wire row) = row /\ Forall value_wire_ok (map value_to_wire row).
Proof.
  induction 1 as [|v row Hv _ [IH1 IH2]]; [done|]. destruct (value_wire v Hv) as [E1 E2]. cbn [map]. split; [by rewrite E1, IH1|by constructor].
Qed.

Lemma change_wire c : change_ok c -> change_from_wire (change_to_wire c) = c /\ change_wire_ok (change_to_wire c).
Proof.
  intros (Hw & Hp & Hr). destruct c as [row w key pages]. unfold change_from_wire, change_to_wire, change_wire_ok. simpl in *.
  destruct (values_wire row Hr) as [E1 E2]. split; [by rewrite E1, sorted_pages_set|]. split; [done|]. split; [|done].
  rewrite sorted_pages_perm. apply Forall_forall. intros x Hx%elem_of_elements. by apply Hp.
Qed.

Lemma envelope_wire e : envelope_from_wire (envelope_to_wire e) = e.
Proof.
  destruct e. unfold envelope_from_wire, envelope_to_wire. cbn. f_equal. rewrite map_map. rewrite <- map_id. apply map_ext. by intros [].
Qed.

Lemma tables_sorted {V W} (g : V -> W) (m : btree string V) : bt_sorted m -> bt_sorted (map (fun t => (t.1, g t.2)) m).
Proof. unfold bt_sorted. induction 1 as [|p l Hs IH Hp]; [constructor|]. cbn [map]. constructor; [done|]. apply Forall_map. exact Hp. Qed.

Section codec.
Context `{CaptureCodecLaws}.

Lemma draft_roundtrip d bytes : draft_ok d -> encode_draft d = Ok bytes -> decode_draft bytes = Ok d.
Proof.
  intros (Hseq & Hs & Hc) E. unfold encode_draft in E. destruct (capture_serialize (draft_to_wire d)) as [b|] eqn:Eb; [|done]. injection E as ->.
  pose proof (tables_sorted (map change_to_wire) _ Hs) as Hs'.
  assert (map (fun t => (t.1, map change_from_wire t.2)) (map (fun t => (t.1, map change_to_wire t.2)) (dr_tables d)) = dr_tables d /\
          Forall (fun t => Forall change_wire_ok t.2) (map (fun t => (t.1, map change_to_wire t.2)) (dr_tables d))) as [Et Ht].
  { clear -Hc. induction Hc as [|[n l] ts Hl _ [IH1 IH2]]; [done|]. cbn [map fst snd].
    assert (map change_from_wire (map change_to_wire l) = l /\ Forall change_wire_ok (map change_to_wire l)) as [E1 E2].
    { clear -Hl. cbn [snd] in Hl. induction Hl as [|c l Hc _ [IH1 IH2]]; [done|]. destruct (change_wire c Hc) as [E1 E2]. cbn [map]. split; [by rewrite E1, IH1|by constructor]. }
    split; [by rewrite E1, IH1|by constructor]. }
  assert (w_tables (draft_to_wire d) = map (fun t => (t.1, map change_to_wire t.2)) (dr_tables d)) as Ew by (apply bt_of_list_id, Hs').
  unfold decode_draft. rewrite (capture_roundtrip (draft_to_wire d) bytes); [|split; [done|]; by rewrite Ew|done].
  rewrite Ew, Et, (bt_of_list_id _ Hs). cbn [w_magic w_tenant w_plane w_seq w_on_branch w_envelope draft_to_wire]. rewrite bool_decide_eq_true_2 by done.
  cbn [negb]. rewrite envelope_wire. by destruct d.
Qed.
End codec.

(** ** The queue in a history *)

Section queue.
Context `{Blake3} `{ManifestCodecLaws} `{RecordCodecLaws} `{CaptureCodec}.
Context (cfg : StoreConfig) (KM : Manifest -> Prop) (KB : list N -> Prop).
Hypothesis Hsep : separates cfg KM KB.

Abbreviation hash := (hash_page (cfg_hasher cfg)).
Abbreviation Live := (Live cfg KM KB).
Abbreviation Reps := (Reps cfg KB).

(** The contents of a commit carry its draft. *)
Definition carries (c : Contents) (d : CommitDraft) : Prop :=
  exists b pages, c !! CAPTURE_PAGE = Some b /\ decode_draft b = Ok d /\ explained_pages (dr_tables d) = Ok pages.

(** Contents and the drafts they carry, newest first, numbered from one. *)
Inductive Queue : list Contents -> list CommitDraft -> Prop :=
| queue_root c : c !! CAPTURE_PAGE = None -> Queue [c] []
| queue_next c A d ds : carries c d -> dr_seq d = Z.of_nat (length ds) + 1 -> Queue A ds -> Queue (c :: A) (d :: ds).

Definition draft_of (c : CommitCapture) : CommitDraft :=
  mkDraft (cc_tenant c) (cc_plane c) (cc_seq c) (cc_branch c) (cc_envelope c) (cc_tables c).

Lemma queue_length A ds : Queue A ds -> length A = S (length ds).
Proof. induction 1 as [|? ? ? ? _ _ _ IH]; [done|]. simpl. by rewrite IH. Qed.

(** ** A history has no cycle *)

Lemma hist_lengths d h1 : forall h2, hist_ok d h1 -> hist_ok d h2 -> head_id h1 = head_id h2 -> length h1 = length h2.
Proof.
  induction h1 as [|[[i1 m1] p1] h1 IH]; intros [|[[i2 m2] p2] h2]; try done. intros [[(n1 & S1 & _) _] H1'] [[(n2 & S2 & _) _] H2'] E. simpl in E. subst i2.
  pose proof (on_disk_det _ _ _ _ (Stands_on _ _ _ _ _ S1) (Stands_on _ _ _ _ _ S2)) as <-.
  destruct h1 as [|[[j1 m] g] h1], h2 as [|[[j2 m0] g0] h2]; [done|destruct H2'; congruence|destruct H1'; congruence|].
  destruct H1' as [E1 H1'], H2' as [E2 H2']. change (S (length ((j1, m, g) :: h1)) = S (length ((j2, m0, g0) :: h2))). f_equal. apply IH; [done..|]. simpl. congruence.
Qed.

Lemma hist_suffix d h1 e h2 : hist_ok d (h1 ++ e :: h2) -> hist_ok d (e :: h2).
Proof.
  induction h1 as [|[[i m] p] h1 IH]; [done|]. intros [_ Hh]. apply IH. destruct (h1 ++ e :: h2) as [|[[? ?] ?] ?] eqn:E; [by destruct h1|]. apply Hh.
Qed.

Lemma hist_NoDup d h : hist_ok d h -> NoDup (ids_of h).
Proof.
  induction h as [|[[i m] p] h IH]; [done|]. intros Hh. constructor.
  - intros Hin. cbn [fst] in Hin. apply ids_entry in Hin as (m' & p' & Hin). apply list_elem_of_split in Hin as (h1 & h2 & ->).
    pose proof (hist_suffix _ ((i, m, p) :: h1) _ _ Hh) as Hs. pose proof (hist_lengths _ _ _ Hh Hs eq_refl) as Hl. simpl in Hl. rewrite length_app in Hl. simpl in Hl. unfold Entry in Hl. lia.
  - destruct h as [|[[j ?] ?] h]; [constructor|]. apply IH. apply Hh.
Qed.

Lemma hist_fuel s v h : hist_ok (vfs_disk v) h -> (length h <= history_fuel s v)%nat.
Proof.
  intros Hh. unfold history_fuel. assert (length (ids_of h) <= size (d_manifests (vfs_disk v)))%nat as Hl; [|unfold ids_of in Hl; rewrite length_map in Hl; unfold Entry in *; lia].
  rewrite <- size_dom. rewrite <- (size_list_to_set (C := gset ManifestId) (ids_of h)) by (by eapply hist_NoDup). apply subseteq_size. intros i Hi%elem_of_list_to_set.
  apply ids_entry in Hi as (m & p & Hi). destruct (hist_entry _ _ Hh _ _ _ Hi) as [(n & Hs & _) _]. apply elem_of_dom. destruct (Stands_on _ _ _ _ _ Hs). eauto.
Qed.

(** ** Reading the queue *)

Lemma store_manifest_on v s captured segs h pend id m pages : Live v s captured segs h pend -> (id, m, pages) ∈ h -> store_manifest s id v = Ok m.
Proof.
  intros Hl Hin. destruct (hist_entry _ _ (lv_hist _ _ _ _ _ _ _ _ _ Hl) _ _ _ Hin) as [(n & Hs & _) _]. unfold store_manifest.
  by rewrite (fetch_on _ _ id m (lv_coherent _ _ _ _ _ _ _ _ _ Hl) (Stands_on _ _ _ _ _ Hs)).
Qed.

Lemma recover_capture_ok v s captured segs h pend id m c d pages b :
  Live v s captured segs h pend -> (id, m, page_map cfg c) ∈ h -> known KB c ->
  c !! CAPTURE_PAGE = Some b -> decode_draft b = Ok d -> explained_pages (dr_tables d) = Ok pages ->
  recover_capture s id v = Ok (mkCapture (dr_tenant d) (dr_plane d) id (dr_seq d) m (dr_branch d) (dr_envelope d) ({[CAPTURE_PAGE]} ∪ pages) (dr_tables d)).
Proof.
  intros Hl Hin Hk Hb Hd Hp. unfold recover_capture, store_read. rewrite (read_stored cfg KM KB Hsep v s captured segs h pend id m c CAPTURE_PAGE Hl Hin Hk), Hb.
  cbn [map_err]. unfold decode_page. cbn [page_bytes]. rewrite Hd. cbn [map_err]. rewrite Hp. unfold materialize_capture. by rewrite (store_manifest_on v s captured segs h pend id m _ Hl Hin).
Qed.

Lemma has_capture_none v s captured segs h pend id m c :
  Live v s captured segs h pend -> (id, m, page_map cfg c) ∈ h -> c !! CAPTURE_PAGE = None -> has_capture s id v = Ok false.
Proof.
  intros Hl Hin Hc. destruct (hist_entry _ _ (lv_hist _ _ _ _ _ _ _ _ _ Hl) _ _ _ Hin) as [(n & Hs & _ & Hn & _) _]. unfold has_capture.
  rewrite (lookup_stands _ _ id m n _ CAPTURE_PAGE (lv_coherent _ _ _ _ _ _ _ _ _ Hl) Hs) by lia. unfold page_map. by rewrite lookup_fmap, Hc.
Qed.

Lemma pending_queue v s captured segs h0 pend sealed_epoch : Live v s captured segs h0 pend -> 0 <= sealed_epoch ->
  forall A ds, Queue A ds -> forall h fuel, hist_ok (vfs_disk v) h -> (forall e, e ∈ h -> e ∈ h0) -> Reps h A -> (length h <= fuel)%nat ->
  let n := (length ds - Z.to_nat sealed_epoch)%nat in
  exists caps, pending_from fuel s (head_id h) sealed_epoch v = Ok caps /\ map draft_of caps = take n ds /\ map cc_commit caps = take n (ids_of h).
Proof.
  intros Hl Hse A ds HQ. induction HQ as [c Hc|c A d ds Hc Hseq HQ IH]; intros h fuel Hh Hin HR Hf.
  - inversion HR as [|[[id m] pg] ? ? ? [Hpg Hk] HR']; subst. inversion HR'; subst. simpl in Hpg, Hf. subst pg. destruct fuel as [|fuel]; [lia|].
    cbn [pending_from head_id]. assert ((id, m, page_map cfg c) ∈ h0) as Hin0 by (apply Hin; by left).
    rewrite (store_manifest_on v s captured segs h0 pend id m _ Hl Hin0). destruct Hh as [_ ->]. rewrite (has_capture_none v s captured segs h0 pend id m c Hl Hin0 Hc).
    by exists [].
  - inversion HR as [|[[id m] pg] ? h' ? [Hpg Hk] HR']; subst. simpl in Hpg, Hf. subst pg. destruct fuel as [|fuel]; [lia|].
    assert ((id, m, page_map cfg c) ∈ h0) as Hin0 by (apply Hin; by left). destruct Hc as (b & pages & Hb & Hd & Hp).
    assert (exists e h2, h' = e :: h2) as ([[up mu] pu] & h2 & ->).
    { apply queue_length in HQ. apply Forall2_length in HR'. destruct h' as [|e h2]; [simpl in HR'; lia|eauto]. }
    destruct Hh as [_ [Hpar Hh]]. cbn [pending_from head_id]. rewrite (store_manifest_on v s captured segs h0 pend id m _ Hl Hin0), Hpar.
    rewrite (recover_capture_ok v s captured segs h0 pend id m c d pages b Hl Hin0 Hk Hb Hd Hp). cbn [cc_seq]. cbn [length].
    destruct (Z.leb_spec (dr_seq d) sealed_epoch) as [Hle|Hgt].
    + exists []. replace (S (length ds) - Z.to_nat sealed_epoch)%nat with 0%nat by lia. done.
    + destruct (IH ((up, mu, pu) :: h2) fuel Hh) as (caps & E & E1 & E2); [intros e He; apply Hin; by right|done|simpl in *; lia|].
      cbn [head_id] in E. rewrite E. cbn [map_ok]. eexists. split; [done|].
      replace (S (length ds) - Z.to_nat sealed_epoch)%nat with (S (length ds - Z.to_nat sealed_epoch)) by lia. cbn [map take draft_of ids_of]. 
      cbn [cc_tenant cc_plane cc_seq cc_branch cc_envelope cc_tables cc_commit fst]. rewrite E1. unfold ids_of in E2. rewrite E2. split; [by destruct d|done].
Qed.

Lemma queue_seq A ds : Queue A ds -> forall i d, rev ds !! i = Some d -> dr_seq d = Z.of_nat i + 1.
Proof.
  induction 1 as [|c A d ds _ Hseq _ IH]; intros i d' Hi; [done|]. cbn [rev] in Hi. apply lookup_app_Some in Hi as [Hi|[Hlen Hi]]; [by apply IH|].
  rewrite length_rev in *. destruct (i - length ds)%nat eqn:E; [|done]. injection Hi as <-. lia.
Qed.

Lemma check_dense_ok caps : forall n, (forall i c, caps !! i = Some c -> cc_seq c = n + Z.of_nat i) -> check_dense n caps = Ok tt.
Proof.
  induction caps as [|c caps IH]; intros n Hc; [done|]. cbn [check_dense]. rewrite (Hc 0%nat c eq_refl), Z.add_0_r, Z.eqb_refl. apply IH.
  intros i c' Hi. rewrite (Hc (S i) c' Hi). lia.
Qed.

Lemma rev_take {T} n (l : list T) : rev (take (length l - n) l) = drop n (rev l).
Proof.
  rewrite skipn_rev. destruct (Nat.le_gt_cases n (length l)); [done|]. done.
Qed.

Lemma recover_pending_ok v s captured segs h pend A ds sealed_epoch :
  Live v s captured segs h pend -> Reps h A -> Queue A ds -> 0 <= sealed_epoch ->
  exists caps, recover_pending_captures s (p_head (s_pager s)) sealed_epoch v = Ok caps /\
    map draft_of caps = drop (Z.to_nat sealed_epoch) (rev ds) /\ map cc_commit caps = rev (take (length ds - Z.to_nat sealed_epoch) (ids_of h)).
Proof.
  intros Hl HR HQ Hse. pose proof (lv_hist _ _ _ _ _ _ _ _ _ Hl) as Hh.
  destruct (pending_queue v s captured segs h pend sealed_epoch Hl Hse A ds HQ h (history_fuel s v) Hh ltac:(done) HR (hist_fuel s v h Hh)) as (caps & E & E1 & E2).
  unfold recover_pending_captures. rewrite (lv_head _ _ _ _ _ _ _ _ _ Hl), E.
  assert (map draft_of (rev caps) = drop (Z.to_nat sealed_epoch) (rev ds)) as Ed by (by rewrite map_rev, E1, rev_take).
  exists (rev caps). split; [|split; [done|by rewrite map_rev, E2]]. rewrite check_dense_ok; [done|].
  intros i c Hi. assert (map draft_of (rev caps) !! i = Some (draft_of c)) as Hd by (by rewrite list_lookup_fmap, Hi).
  rewrite Ed, lookup_drop in Hd. apply (queue_seq A ds HQ) in Hd. cbn [draft_of dr_seq] in Hd. lia.
Qed.

(** ** Committing through the bridge *)

Lemma sorted_pages_nil s : sorted_pages s = [] -> s = ∅.
Proof. intros E. rewrite <- (sorted_pages_set s), E. done. Qed.

Lemma audit_pages_ok physical explained : audit_pages physical explained = Ok tt -> physical = explained.
Proof.
  clear Hsep. unfold audit_pages. destruct (sorted_pages (physical ∖ explained)) eqn:E1; [|done]. destruct (sorted_pages (explained ∖ physical)) eqn:E2; [|done].
  intros _. apply sorted_pages_nil in E1, E2. apply set_eq. intros x. set_unfold. split; intros Hx; destruct (decide (x ∈ explained)), (decide (x ∈ physical)); try done; exfalso;
    [apply (E1 x); done|apply (E2 x); done].
Qed.

Lemma admit_draft_ok s t d catalog authority v bytes : admit_draft s t d catalog authority v = Ok bytes ->
  validate_parent_sequence s (txn_base t) (dr_seq d) v = Ok tt /\ explained_pages (dr_tables d) = Ok (dom (writes t)) /\ encode_draft d = Ok bytes.
Proof.
  unfold admit_draft. case_bool_decide; [done|]. destruct (validate_draft d authority) as [[]|]; [|done]. destruct (validate_draft_against_catalog d catalog) as [[]|]; [|done].
  destruct (validate_parent_sequence s (txn_base t) (dr_seq d) v) as [[]|]; [|done]. destruct (explained_pages (dr_tables d)) as [ex|]; [|done].
  destruct (audit_pages (dom (writes t)) ex) as [[]|] eqn:Ea; [|done]. intros E. split; [done|]. split; [|done]. f_equal. symmetry. by apply audit_pages_ok.
Qed.

(** The next sequence number is checked against the capture of the parent. *)
Lemma parent_sequence_ok v s captured segs id m c h pend A ds n :
  Live v s captured segs ((id, m, page_map cfg c) :: h) pend -> known KB c -> Queue (c :: A) ds ->
  validate_parent_sequence s id n v = Ok tt -> n = Z.of_nat (length ds) + 1.
Proof.
  intros Hl Hk HQ. unfold validate_parent_sequence, store_read.
  rewrite (read_stored cfg KM KB Hsep v s captured segs _ pend id m c CAPTURE_PAGE Hl) by (done || by left).
  inversion HQ as [? Hc|? ? d ds' (b & pages & Hb & Hd & _) Hseq HQ']; subst.
  - rewrite Hc. cbn [map_err]. destruct (Z.eqb_spec n 1) as [->|]; done.
  - rewrite Hb. cbn [map_err]. unfold decode_page. cbn [page_bytes]. rewrite Hd. cbn [map_err].
    destruct (Z.eqb_spec n (dr_seq d + 1)) as [->|]; [|done]. intros _. cbn [length]. lia.
Qed.

Hypothesis Hcodec : CaptureCodecLaws.

Lemma carries_changes c c' d ds A bytes : Queue (c :: A) ds -> c' !! CAPTURE_PAGE = Some bytes -> decode_draft bytes = Ok d -> dr_seq d = Z.of_nat (length ds) + 1 -> c' <> c.
Proof.
  intros HQ Hc' Hd Hseq ->. inversion HQ as [? Hc|? ? d0 ds' (b & pages & Hb & Hd0 & _) Hseq0 HQ']; subst; [congruence|].
  assert (d0 = d) as -> by congruence. cbn [length] in Hseq. lia.
Qed.

(** A draft that is admitted is the next of the queue, once its page is in the
    contents. *)
Lemma admitted v s captured segs id m c h pend A ds t d catalog authority em bytes :
  Live v s captured segs ((id, m, page_map cfg c) :: h) pend -> known KB c -> Queue (c :: A) ds -> txn_base t = id ->
  (forall k b, em !! k = Some (Some b) -> KB b) -> draft_ok d -> admit_draft s t d catalog authority v = Ok bytes -> KB bytes ->
  let c' := apply_contents (<[CAPTURE_PAGE := Some bytes]> em) c in
  known KB c' /\ c' !! CAPTURE_PAGE = Some bytes /\ decode_draft bytes = Ok d /\ explained_pages (dr_tables d) = Ok (dom (writes t)) /\
  Queue (c' :: c :: A) (d :: ds) /\ c' <> c.
Proof.
  intros Hl Hkc HQ Hbase Hkem Hdok Hadm HKB c'. pose proof (admit_draft_ok _ _ _ _ _ _ _ Hadm) as (Hpar & Hex & Henc). rewrite Hbase in Hpar.
  pose proof (parent_sequence_ok v s captured segs id m c h pend A ds _ Hl Hkc HQ Hpar) as Hseq. pose proof (draft_roundtrip d bytes Hdok Henc) as Hdec.
  assert (c' !! CAPTURE_PAGE = Some bytes) as Hcap by (unfold c'; by rewrite lookup_apply_contents, lookup_insert_eq).
  split; [|do 3 (split; [done|]); split; [constructor; [by exists bytes, (dom (writes t))|done|done]|by eapply carries_changes]].
  intros k b. unfold c'. rewrite lookup_apply_contents. destruct (<[CAPTURE_PAGE := Some bytes]> em !! k) as [e|] eqn:E; [|apply Hkc]. intros ->.
  apply lookup_insert_Some in E as [[_ [= <-]]|[_ E]]; [done|by eapply Hkem].
Qed.

(** A commit through the bridge puts its draft at the end of the queue, where its
    capture can be recovered; or the machine dies and the disk holds the history
    before or after; or the page does not fit and nothing happens. *)
Lemma commit_with_capture_ok v s captured segs id m c h A ds t d catalog authority now em bytes :
  Live v s captured segs ((id, m, page_map cfg c) :: h) ∅ -> known KB c -> Queue (c :: A) ds ->
  txn_base t = id -> writes t = hashed cfg em -> stored_edits cfg (vfs_disk v) em -> (forall k b, em !! k = Some (Some b) -> KB b) -> draft_ok d ->
  admit_draft s t d catalog authority v = Ok bytes -> KB bytes ->
  let em' := <[CAPTURE_PAGE := Some bytes]> em in
  let next := next_manifest id m (page_map cfg c) (hashed cfg em') now in
  let h' := (manifest_id next, next, page_map cfg (apply_contents em' c)) :: (id, m, page_map cfg c) :: h in
  KM next ->
  exists v' s' r, commit_with_capture s t d catalog authority now v = (v', s', r) /\
    match r with
    | Ok cap => (exists captured' segs', Live v' s' captured' segs' h' ∅) /\ draft_of cap = d /\ cc_commit cap = p_head (s_pager s') /\ recover_capture s' (cc_commit cap) v' = Ok cap
    | Err _ => (crashed v' = true /\ before_or_after cfg KM KB (vfs_disk v') ((id, m, page_map cfg c) :: h) h') \/
        (cfg_page_size cfg < Z.of_nat (length bytes) /\ exists captured' segs', Live v' s' captured' segs' ((id, m, page_map cfg c) :: h) ∅)
    end.
Proof.
  intros Hl Hkc HQ Hbase Hw He Hkem Hdok Hadm HKB em' next h' HKn.
  destruct (admitted v s captured segs id m c h ∅ A ds t d catalog authority em bytes Hl Hkc HQ Hbase Hkem Hdok Hadm HKB) as (Hkc' & Hcap & Hdec & Hex & _ & Hne).
  fold em' in Hkc', Hcap, Hne. set (c' := apply_contents em' c) in *. unfold commit_with_capture. rewrite Hadm.
  destruct (stage_edits_ok cfg KM KB Hsep [(CAPTURE_PAGE, Some bytes)] em t s v captured segs _ ∅ Hl) as (v1 & p1 & t1 & r1 & E1 & Hl1 & Hcr1 & Hb1 & Hsp1 & Hr1 & Hh1);
    [by repeat constructor|done|done|done|].
  cbn [stage] in E1. destruct (store_write CAPTURE_PAGE bytes t s v) as [[[v2 s2] t2] r2] eqn:E2. destruct r2 as [pid|e].
  2: { injection E1 as -> -> -> <-. eexists _, _, _. split; [done|]. cbn [map_err]. destruct Hr1 as [Hc|Hbig].
       - left. split; [done|]. left. exists ∅. by eapply Live_durable.
       - right. inversion Hbig as [? ? Hb|? ? Hb]; [|by inversion Hb]. split; [done|]. exists captured, segs. cbn [s_pager s_wal]. by apply Live_drop. }
  injection E1 as -> -> -> <-. destruct Hr1 as [Hw1 He1]. cbn [edits_map fold_left fst snd] in Hw1, He1. fold em' in Hw1, He1.
  assert (apply_changes (writes t1) (page_map cfg c) = page_map cfg c') as Happ by (rewrite Hw1; apply apply_hashed).
  destruct (store_commit_ok cfg KM KB Hsep v1 (mkStore p1 (s_wal s)) captured segs id m (page_map cfg c) h ∅ t1 now em' next Hl1) as (v3 & p3 & w3 & r3 & -> & Hcr3 & Hh3 & _ & Hr3);
    [done|done|done|set_solver|by rewrite Hw1|done|].
  rewrite Happ in Hr3. cbn zeta in Hr3. fold h' in Hr3. destruct r3 as [commit|e].
  2: { eexists _, _, _. split; [done|]. left. destruct Hr3 as (? & _ & ?). done. }
  destruct Hr3 as [[Hsame _]|(_ & -> & segs' & Hl3)]; [by destruct Hne; apply (page_map_inj cfg KM KB Hsep)|].
  eexists _, _, _. split; [done|]. assert ((manifest_id next, next, page_map cfg c') ∈ h') as Hin by (by left).
  pose proof (recover_capture_ok v3 _ captured segs' h' ∅ (manifest_id next) next c' d _ bytes Hl3 Hin Hkc' Hcap Hdec Hex) as Hrec.
  unfold materialize_capture. rewrite (store_manifest_on v3 _ captured segs' h' ∅ (manifest_id next) next _ Hl3 Hin). cbn [cc_commit draft_of].
  split; [by exists captured, segs'|]. split; [by destruct d|]. split; [by rewrite (lv_head _ _ _ _ _ _ _ _ _ Hl3)|]. rewrite Hrec. repeat f_equal.
  rewrite Hw1, Hw. unfold em', hashed. rewrite !dom_fmap_L, dom_insert_L. done.
Qed.
End queue.

(** * Runs of a store behind the bridge ([mutiny-bridge], [substrate-wal])

    Lifetimes of a store whose every commit goes through [commit_with_capture], with
    a crash at any byte: the queue a reopened store offers. *)

(** A write: the pages of the application and the draft that explains them. *)
Record BridgeWrite := mkWrite { wr_edits : Edits; wr_draft : CommitDraft; wr_now : Z }.

(** ** The specification *)

(** A lifetime that acknowledged its first [n] writes, and whether the machine died:
    if it did the write it was in may be in the queue. *)
Definition queue_life (ws : list BridgeWrite) (ack : nat * bool) (ds ds' : list CommitDraft) : Prop :=
  (ack.1 <= length ws)%nat /\
  (ds' = ds ++ map wr_draft (take ack.1 ws) \/ (ack.2 = true /\ ds' = ds ++ map wr_draft (take (S ack.1) ws))).

Fixpoint queue_lives (lives : list (option Z * list BridgeWrite)) (acks : list (nat * bool)) (ds ds' : list CommitDraft) : Prop :=
  match lives, acks with
  | [], [] => ds' = ds
  | (_, ws) :: lives, ack :: acks => exists ds1, queue_life ws ack ds ds1 /\ queue_lives lives acks ds1 ds'
  | _, _ => False
  end.

Section runs.
Context `{Blake3} `{ManifestCodec} `{RecordCodec} `{CaptureCodec}.
Context (cfg : StoreConfig) (catalog : Catalog) (authority : EnvelopeAuthority).

Definition run_write (w : BridgeWrite) (s : DurableStore) (v : Vfs) : Vfs * DurableStore * bool :=
  match stage (wr_edits w) (begin (s_pager s)) s v with
  | (v, s, t, Err _) => (v, mkStore (drop_txn t (s_pager s)) (s_wal s), false)
  | (v, s, t, Ok _) => let '(v, s, r) := commit_with_capture s t (wr_draft w) catalog authority (wr_now w) v in (v, s, is_ok r)
  end.

(** The pages and the manifest a write hashes. *)
Definition write_map (w : BridgeWrite) (bytes : list N) : gmap Z (option (list N)) := <[CAPTURE_PAGE := Some bytes]> (edits_map (wr_edits w) ∅).

Definition write_pages (w : BridgeWrite) : list (list N) :=
  omap snd (wr_edits w) ++ match encode_draft (wr_draft w) with Ok bytes => [bytes] | Err _ => [] end.

Definition write_manifests (w : BridgeWrite) (s : DurableStore) (v : Vfs) : list Manifest :=
  let p := s_pager s in
  match encode_draft (wr_draft w) with
  | Ok bytes => match derive_next p (p_head p) (hashed cfg (write_map w bytes)) (wr_now w) v with Ok (Some (m, _)) => [m] | _ => [] end
  | Err _ => []
  end.

Fixpoint run_writes (ws : list BridgeWrite) (s : DurableStore) (v : Vfs) : Vfs * nat * list Manifest :=
  match ws with
  | [] => (v, 0%nat, [])
  | w :: ws =>
      let ms := write_manifests w s v in
      match run_write w s v with
      | (v, _, false) => (v, 0%nat, ms)
      | (v, s, true) => let '(v, n, ms') := run_writes ws s v in (v, S n, ms ++ ms')
      end
  end.

Definition bridge_life (fuel : option Z) (ws : list BridgeWrite) (v : Vfs) : Vfs * nat * list Manifest :=
  match reopen cfg fuel v with
  | (v, Err _) => (v, 0%nat, [])
  | (v, Ok s) =>
      match checkpoint_wal s v with
      | (v, _, Err _) => (v, 0%nat, [])
      | (v, s, Ok _) => run_writes ws s v
      end
  end.

Record BridgeTrace := mkBridgeTrace { bt_vfs : Vfs; bt_acks : list (nat * bool); bt_manifests : list Manifest }.

Fixpoint bridge_lives (lives : list (option Z * list BridgeWrite)) (v : Vfs) : BridgeTrace :=
  match lives with
  | [] => mkBridgeTrace v [] []
  | (fuel, ws) :: lives =>
      let '(v, n, ms) := bridge_life fuel ws v in
      let t := bridge_lives lives v in mkBridgeTrace (bt_vfs t) ((n, crashed v) :: bt_acks t) (ms ++ bt_manifests t)
  end.

Definition bridge_pages (lives : list (option Z * list BridgeWrite)) : list (list N) := flat_map (fun l => flat_map write_pages l.2) lives.
End runs.

(** ** The proof *)

Section correct.
Context `{Blake3} `{ManifestCodecLaws} `{RecordCodecLaws} `{CaptureCodec} {Hcodec : CaptureCodecLaws}.
Context (cfg : StoreConfig) (catalog : Catalog) (authority : EnvelopeAuthority) (KM : Manifest -> Prop) (KB : list N -> Prop).
Hypothesis Hsep : separates cfg KM KB.

Abbreviation Live := (Live cfg KM KB).
Abbreviation Durable := (Durable cfg KM KB).
Abbreviation Reps := (Reps cfg KB).

(** A disk, and a store, whose history is the queue [ds], oldest first. *)
Definition queued_on (d : Disk) (ds : list CommitDraft) : Prop := exists h pend A, Durable d h pend /\ Reps h A /\ Queue A (rev ds).
Definition queued_in (v : Vfs) (s : DurableStore) (pend : PageChanges) (ds : list CommitDraft) : Prop :=
  exists captured segs h A, Live v s captured segs h pend /\ Reps h A /\ Queue A (rev ds).

Lemma queued_in_on v s pend ds : queued_in v s pend ds -> queued_on (vfs_disk v) ds.
Proof. intros (captured & segs & h & A & Hl & HR & HQ). exists h, pend, A. split; [by eapply Live_durable|done]. Qed.

Lemma run_write_ok w v s ds : queued_in v s ∅ ds -> Forall KM (write_manifests cfg w s v) -> Forall KB (write_pages w) -> draft_ok (wr_draft w) ->
  exists v' s' ok, run_write catalog authority w s v = (v', s', ok) /\
    if ok then queued_in v' s' ∅ (ds ++ [wr_draft w])
    else queued_on (vfs_disk v') ds \/ (crashed v' = true /\ queued_on (vfs_disk v') (ds ++ [wr_draft w])).
Proof.
  intros (captured & segs & h & A & Hl & HR & HQ) HM HB Hok. unfold run_write. pose proof (lv_hist _ _ _ _ _ _ _ _ _ Hl) as Hh. destruct h as [|[[id m] pages] h]; [done|].
  unfold write_pages in HB. apply Forall_app in HB as [HBe HBd]. apply edits_pages in HBe.
  destruct (stage_edits_ok cfg KM KB Hsep (wr_edits w) ∅ (begin (s_pager s)) s v captured segs _ ∅ Hl HBe (begin_writes cfg _)) as (v1 & p1 & t1 & r1 & -> & Hl1 & Hcr1 & Hb1 & Hsp1 & Hr1 & _);
    [by intros k b; rewrite lookup_empty|apply Hl|].
  destruct r1 as [[]|e].
  2: { eexists _, _, false. split; [done|]. left. exists ((id, m, pages) :: h), ∅, A. split; [by eapply Live_durable|done]. }
  destruct Hr1 as [Hw1 He1]. inversion HR as [|? c ? A' [Hpg Hk] HR']; subst. simpl in Hpg. subst pages.
  destruct (admit_draft (mkStore p1 (s_wal s)) t1 (wr_draft w) catalog authority v1) as [bytes|e] eqn:Ea.
  2: { unfold commit_with_capture. rewrite Ea. eexists _, _, _. split; [done|]. left. exists ((id, m, page_map cfg c) :: h), ∅, (c :: A'). split; [|done].
       by eapply Live_durable. }
  pose proof (admit_draft_ok _ _ _ _ _ _ _ Ea) as (Hpar & _ & Henc). rewrite Henc in HBd. apply Forall_inv in HBd.
  assert (forall k b, edits_map (wr_edits w) ∅ !! k = Some (Some b) -> KB b) as Hkem by (apply known_edits_map; [done|by intros k b; rewrite lookup_empty]).
  destruct (admitted cfg KM KB Hsep Hcodec v1 _ captured segs id m c h ∅ A' (rev ds) t1 (wr_draft w) catalog authority _ bytes Hl1 Hk HQ Hb1 Hkem Hok Ea HBd)
    as (Hkc' & _ & _ & _ & HQ' & Hne). fold (write_map w bytes) in Hkc', HQ', Hne.
  assert (KM (next_manifest id m (page_map cfg c) (hashed cfg (write_map w bytes)) (wr_now w))) as HKn.
  { destruct (lv_hist _ _ _ _ _ _ _ _ _ Hl) as [[Hst _] _]. unfold write_manifests in HM. rewrite Henc, (lv_head _ _ _ _ _ _ _ _ _ Hl) in HM. cbn [head_id] in HM.
    rewrite (derive_next_state _ _ id m (page_map cfg c)) in HM; [|apply Hl|done]. rewrite bool_decide_eq_false_2 in HM; [by apply Forall_inv in HM|].
    intros Esame. rewrite apply_hashed in Esame. by apply Hne, (page_map_inj cfg KM KB Hsep). }
  destruct (commit_with_capture_ok cfg KM KB Hsep Hcodec v1 _ captured segs id m c h A' (rev ds) t1 (wr_draft w) catalog authority (wr_now w) _ bytes Hl1 Hk HQ Hb1 Hw1 He1 Hkem Hok Ea HBd HKn)
    as (v2 & s2 & r2 & -> & Hr2). fold (write_map w bytes) in Hr2.
  assert (Queue (apply_contents (write_map w bytes) c :: c :: A') (rev (ds ++ [wr_draft w]))) as HQn by (by rewrite rev_app_distr).
  match type of Hr2 with context [before_or_after _ _ _ _ _ ?h'] => assert (Reps h' (apply_contents (write_map w bytes) c :: c :: A')) as HR2 by (constructor; [by split|done]) end.
  eexists _, _, _. split; [done|]. destruct r2 as [cap|e]; cbn [is_ok].
  - destruct Hr2 as [(cap' & segs' & Hl2) _]. eexists cap', segs', _, _. by split; [exact Hl2|].
  - destruct Hr2 as [[Hc [[pend Hd]|[pend Hd]]]|[_ (cap' & segs' & Hl2)]].
    + left. eexists _, pend, (c :: A'). by split; [exact Hd|].
    + right. split; [done|]. eexists _, pend, _. by split; [exact Hd|].
    + left. eexists _, ∅, (c :: A'). by split; [eapply Live_durable, Hl2|].
Qed.

Lemma run_writes_ok ws : forall v s ds v' n ms,
  queued_in v s ∅ ds -> run_writes cfg catalog authority ws s v = (v', n, ms) -> Forall KM ms -> Forall (fun w => Forall KB (write_pages w)) ws -> Forall (fun w => draft_ok (wr_draft w)) ws ->
  exists ds', queued_on (vfs_disk v') ds' /\ queue_life ws (n, crashed v') ds ds'.
Proof.
  induction ws as [|w ws IH]; intros v s ds v' n ms Hq E HM HB Hok; cbn [run_writes] in E.
  { injection E as <- <- <-. exists ds. split; [by eapply queued_in_on|]. split; [done|]. left. simpl. by rewrite app_nil_r. }
  apply Forall_cons in HB as [HBw HB]. apply Forall_cons in Hok as [Hokw Hok].
  assert (Forall KM (write_manifests cfg w s v)) as HMw.
  { destruct (run_write catalog authority w s v) as [[v1 s1] [|]]; [|by injection E as <- <- <-]. destruct (run_writes cfg catalog authority ws s1 v1) as [[v2 n2] ms2].
    injection E as <- <- <-. by apply Forall_app in HM as [? _]. }
  destruct (run_write_ok w v s ds Hq HMw HBw Hokw) as (v1 & s1 & ok & Eo & Ho). rewrite Eo in E. destruct ok.
  - destruct (run_writes cfg catalog authority ws s1 v1) as [[v2 n2] ms2] eqn:E2. injection E as <- <- <-. apply Forall_app in HM as [_ HM].
    destruct (IH _ _ _ _ _ _ Ho E2 HM HB Hok) as (ds' & Hd & Hn & Hds). exists ds'. split; [done|]. cbn [fst snd] in *. split; [simpl; lia|].
    cbn [fst snd map]. rewrite <- !app_assoc in Hds. exact Hds.
  - injection E as <- <- <-. destruct Ho as [Hd|[Hc Hd]].
    + exists ds. split; [done|]. split; [simpl; lia|]. left. simpl. by rewrite app_nil_r.
    + exists (ds ++ [wr_draft w]). split; [done|]. split; [simpl; lia|]. right. split; [done|]. done.
Qed.

Hypothesis Hroot : KM (root cfg).
Hypothesis Hsize : validate_page_size (cfg_page_size cfg) = Ok tt.

Lemma reopen_queued fuel v ds : queued_on (vfs_disk v) ds ->
  exists v' r, reopen cfg fuel v = (v', r) /\ (fuel = None -> is_ok r = true) /\
    match r with Ok s => exists pend, queued_in v' s pend ds | Err _ => queued_on (vfs_disk v') ds end.
Proof.
  intros (h & pend & A & Hd & HR & HQ). destruct (reopen_ok cfg KM KB Hsep Hroot Hsize fuel v h pend Hd) as (v1 & r1 & E1 & Hd1 & Hf1 & Hr1).
  exists v1, r1. split; [done|]. split; [intros Hf; by apply Hf1|]. destruct r1 as [s|e].
  - destruct Hr1 as (captured & segs & Hl). by exists pend, captured, segs, h, A.
  - by exists h, pend, A.
Qed.

Lemma checkpoint_queued v s pend ds : queued_in v s pend ds ->
  exists v' s' r, checkpoint_wal s v = (v', s', r) /\ match r with Ok _ => queued_in v' s' ∅ ds | Err _ => queued_on (vfs_disk v') ds end.
Proof.
  intros (captured & segs & h & A & Hl & HR & HQ).
  destruct (checkpoint_op_ok cfg KM KB v s captured segs h pend A Hl HR) as (v2 & s2 & r2 & E2 & Ho & _). exists v2, s2, r2. split; [done|].
  destruct r2 as [[]|e]; cbn [is_ok outcome] in Ho.
  - destruct Ho as (c2 & sg2 & h2 & Hl2 & HR2). by exists c2, sg2, h2, A.
  - destruct Ho as (h' & pend' & Hd' & HR'). exists h', pend', A. split; [done|]. split; [tauto|done].
Qed.

Lemma bridge_life_ok fuel ws v ds v' n ms :
  queued_on (vfs_disk v) ds -> bridge_life cfg catalog authority fuel ws v = (v', n, ms) -> Forall KM ms ->
  Forall (fun w => Forall KB (write_pages w)) ws -> Forall (fun w => draft_ok (wr_draft w)) ws ->
  exists ds', queued_on (vfs_disk v') ds' /\ queue_life ws (n, crashed v') ds ds'.
Proof.
  intros Hq E HM HB Hok. assert (forall b, queue_life ws (0%nat, b) ds ds) as H0' by (split; [simpl; lia|left; simpl; by rewrite app_nil_r]). unfold bridge_life in E.
  destruct (reopen_queued fuel v ds Hq) as (v1 & r1 & E1 & _ & Hr1). rewrite E1 in E. destruct r1 as [s|e]; [|injection E as <- <- <-; by eauto].
  destruct Hr1 as [pend Hq1]. destruct (checkpoint_queued v1 s pend ds Hq1) as (v2 & s2 & r2 & E2 & Hr2). rewrite E2 in E.
  destruct r2 as [[]|e]; [by eapply run_writes_ok|injection E as <- <- <-; by eauto].
Qed.

Lemma bridge_lives_ok lives : forall v ds,
  queued_on (vfs_disk v) ds -> Forall KM (bt_manifests (bridge_lives cfg catalog authority lives v)) -> Forall KB (bridge_pages lives) ->
  Forall (fun l => Forall (fun w => draft_ok (wr_draft w)) l.2) lives ->
  exists ds', queued_on (vfs_disk (bt_vfs (bridge_lives cfg catalog authority lives v))) ds' /\ queue_lives lives (bt_acks (bridge_lives cfg catalog authority lives v)) ds ds'.
Proof.
  induction lives as [|[fuel ws] lives IH]; intros v ds Hq HM HB Hok; cbn [bridge_lives] in *; [by exists ds|].
  destruct (bridge_life cfg catalog authority fuel ws v) as [[v1 n] ms] eqn:E. cbn [bt_manifests bt_acks bt_vfs] in *. apply Forall_app in HM as [HM1 HM].
  unfold bridge_pages in HB. cbn [flat_map snd] in HB. apply Forall_app in HB as [HB1 HB]. apply Forall_cons in Hok as [Hok1 Hok]. cbn [snd] in Hok1.
  assert (Forall (fun w => Forall KB (write_pages w)) ws) as HBw.
  { clear -HB1. induction ws as [|w ws IH]; [done|]. cbn in HB1. apply Forall_app in HB1 as [? ?]. constructor; [done|by apply IH]. }
  destruct (bridge_life_ok fuel ws v ds v1 n ms Hq E HM1 HBw Hok1) as (ds1 & Hq1 & Hl1).
  destruct (IH v1 ds1 Hq1 HM HB Hok) as (ds' & Hq' & Hl'). exists ds'. split; [done|]. by exists ds1.
Qed.

Lemma new_queued : queued_on disk_empty [].
Proof.
  exists [(manifest_id (root cfg), root cfg, ∅)], ∅, [∅]. split; [by apply new_durable|]. split; [by apply new_reps|]. by constructor.
Qed.
End correct.
