(* ===== verification/StoreExample.v ===== *)
(** * A store that can be run

    Concrete instances of the parameters of a durable store: a small polynomial
    hash, and serialisations through an enumeration of the data.

    Its later part: A bridge that can be run. *)

From Stdlib Require Import ZArith NArith Lia Sorted.
From stdpp Require Import base list gmap strings countable.
From S2P Require Import Prelude BTree Value ZSet Bind Codec Text Vfs Pager PagerCorrect Wal WalInv WalCommit Envelope Bridge StoreCorrect BridgeQueue.

Definition ex_hash (seed : N) (b : list N) : list N := [fold_left (fun acc x => ((acc * 1000003 + x + 1) mod 2305843009213693951)%N) b seed].

#[export] Instance ex_blake3 : Blake3 := {| blake3_hash := ex_hash 7; blake3_keyed _ := ex_hash 11 |}.

(** ** Words *)

(** A datum as words, and back from the front of a list of words. *)
Class Words (A : Type) := { put : A -> list N; get : list N -> option (A * list N) }.
Class WordsLaws (A : Type) `{Words A} : Prop := get_put : forall a rest, get (put a ++ rest) = Some (a, rest).

#[export] Instance Z_words : Words Z := {|
  put z := [match z with Z0 => 0 | Zpos p => Npos p~0 | Zneg p => Npos p~1 end]%N;
  get l := match l with
           | 0%N :: l => Some (0, l)
           | Npos p~0 :: l => Some (Zpos p, l)
           | Npos p~1 :: l => Some (Zneg p, l)
           | _ => None
           end |}.
#[export] Instance Z_words_laws : WordsLaws Z.
Proof. by intros [] rest. Qed.

#[export] Instance N_words : Words N := {| put n := [n]; get l := match l with n :: l => Some (n, l) | [] => None end |}.
#[export] Instance N_words_laws : WordsLaws N.
Proof. done. Qed.

#[export] Instance option_words {A} `{Words A} : Words (option A) := {|
  put o := match o with Some a => 1%N :: put a | None => [0%N] end;
  get l := match l with
           | 0%N :: l => Some (None, l)
           | _ :: l => match get l with Some (a, l) => Some (Some a, l) | None => None end
           | [] => None
           end |}.
#[export] Instance option_words_laws {A} `{WordsLaws A} : WordsLaws (option A).
Proof. intros [a|] rest; [|done]. simpl. by rewrite get_put. Qed.

#[export] Instance prod_words {A B} `{Words A, Words B} : Words (A * B) := {|
  put p := put p.1 ++ put p.2;
  get l := match get l with
           | Some (a, l) => match get l with Some (b, l) => Some ((a, b), l) | None => None end
           | None => None
           end |}.
#[export] Instance prod_words_laws {A B} `{WordsLaws A, WordsLaws B} : WordsLaws (A * B).
Proof. intros [a b] rest. cbn [put get prod_words fst snd]. by rewrite <- app_assoc, !get_put. Qed.

Fixpoint get_many {A} `{Words A} (n : nat) (l : list N) : option (list A * list N) :=
  match n with
  | O => Some ([], l)
  | S n => match get l with
           | Some (a, l) => match get_many n l with Some (r, l) => Some (a :: r, l) | None => None end
           | None => None
           end
  end.

#[export] Instance list_words {A} `{Words A} : Words (list A) := {|
  put l := N.of_nat (length l) :: flat_map put l;
  get l := match l with n :: l => get_many (N.to_nat n) l | [] => None end |}.
#[export] Instance list_words_laws {A} `{WordsLaws A} : WordsLaws (list A).
Proof.
  intros l rest. cbn [put get list_words app]. rewrite Nat2N.id. induction l as [|a l IH]; [done|].
  cbn [length flat_map get_many]. by rewrite <- app_assoc, get_put, IH.
Qed.

#[export] Instance map_words {A} `{Words A} : Words (gmap Z A) := {|
  put m := put (map_to_list m : list (Z * A));
  get l := match (get l : option (list (Z * A) * list N)) with Some (ps, l) => Some (list_to_map ps : gmap Z A, l) | None => None end |}.
#[export] Instance map_words_laws {A} `{WordsLaws A} : WordsLaws (gmap Z A).
Proof. intros m rest. cbn [put get map_words]. by rewrite get_put, list_to_map_to_list. Qed.

(** A datum that another describes. *)
Definition words_by {A B} `{Words B} (f : A -> B) (g : B -> A) : Words A := {|
  put a := put (f a);
  get l := match get l with Some (b, l) => Some (g b, l) | None => None end |}.

Lemma words_by_laws {A B} `{WordsLaws B} (f : A -> B) (g : B -> A) : (forall a, g (f a) = a) -> @WordsLaws A (words_by f g).
Proof. intros Hg a rest. cbn [put get words_by]. by rewrite get_put, Hg. Qed.

#[export] Instance body_words : Words ManifestBody :=
  words_by (fun b => match b with Flat pages => (pages, None) | Overlay base changes => (∅, Some (base, changes)) end)
    (fun x : gmap Z (list N) * option (list N * gmap Z (option (list N))) => match x with (_, Some (base, changes)) => Overlay base changes | (pages, None) => Flat pages end).
#[export] Instance body_words_laws : WordsLaws ManifestBody.
Proof. apply words_by_laws. by intros []. Qed.

#[export] Instance manifest_words : Words Manifest :=
  words_by (fun m => (format_version m, body m, parent m : option (list N), created_at_ms m, (schema_version m, page_size m, depth m, page_count m)))
    (fun '(f, b, p, c, (s, z, d, n)) => mkManifest f b p c s z d n).
#[export] Instance manifest_words_laws : WordsLaws Manifest.
Proof. apply words_by_laws. by intros []. Qed.

#[export] Instance record_words : Words Record_ :=
  words_by (fun r => (lsn r, match kind r with KWrite n p => (Some (n, p), None) | KCommit m t => (None, Some (m, Some t)) | KCheckpoint m => (None, Some (m, None)) end))
    (fun x : Z * (option (Z * option (list N)) * option (list N * option Z)) =>
       mkRecord x.1 (match x.2 with
                     | (Some (n, p), _) => KWrite n p
                     | (None, Some (m, Some t)) => KCommit m t
                     | (None, Some (m, None)) => KCheckpoint m
                     | (None, None) => KCheckpoint []
                     end)).
#[export] Instance record_words_laws : WordsLaws Record_.
Proof. apply words_by_laws. by intros [? []]. Qed.

Definition of_words {A} `{Words A} (l : list N) : option A := match get l with Some (a, []) => Some a | _ => None end.

Lemma of_words_put {A} `{WordsLaws A} (a : A) : of_words (put a) = Some a.
Proof. unfold of_words. by rewrite <- (app_nil_r (put a)), get_put. Qed.

(** ** The parameters *)

#[export] Instance ex_manifest_codec : ManifestCodec := {| manifest_encode := put; manifest_decode := of_words |}.
#[export] Instance ex_manifest_laws : ManifestCodecLaws := of_words_put.

(** A record is one word. *)
#[export] Instance ex_record_codec : RecordCodec := {|
  record_serialize r := [Npos (encode (put r))];
  record_deserialize l := match l with [Npos p] => match decode p with Some l => of_words l | None => None end | _ => None end;
  crc32c _ := 0 |}.
#[export] Instance ex_record_laws : RecordCodecLaws.
Proof. split; [|done|done]. intros r. cbn [record_serialize record_deserialize ex_record_codec]. by rewrite decode_encode, of_words_put. Qed.

Definition ex_config : StoreConfig := mkConfig 4096 Unkeyed "pool".

(** Whether a hash tells the elements of a list apart. *)
Definition apart {A} `{EqDecision A} (f : A -> list N) (l : list A) : bool :=
  forallb (fun x => forallb (fun y => negb (bool_decide (f x = f y)) || bool_decide (x = y)) l) l.

Lemma apart_inj {A} `{EqDecision A} (f : A -> list N) (l : list A) : apart f l = true -> forall x y, x ∈ l -> y ∈ l -> f x = f y -> x = y.
Proof.
  unfold apart. rewrite forallb_forall. intros Ha x y Hx%list_elem_of_In Hy%list_elem_of_In E. specialize (Ha x Hx).
  rewrite forallb_forall in Ha. specialize (Ha y Hy). rewrite (bool_decide_eq_true_2 _ E) in Ha. by apply bool_decide_eq_true_1 in Ha.
Qed.

Lemma ex_no_collision ms ps : apart manifest_id ms = true -> apart (hash_page Unkeyed) ps = true -> no_collision ex_config ms ps.
Proof. intros Hm Hp. split; [intros; by eapply apart_inj|intros; by eapply apart_inj]. Qed.

(** * A bridge that can be run

    The capture page in words, a catalog and drafts. *)

#[export] Instance string_words : Words string := words_by string_bytes bytes_string.
#[export] Instance string_words_laws : WordsLaws string.
Proof. apply words_by_laws, bytes_string_bytes. Qed.

(** A value as its kind, a number and a string. *)
#[export] Instance value_words : Words ValueWire :=
  words_by (fun v => match v with WNull => (0%N, 0, EmptyString) | WInt i => (1%N, i, EmptyString) | WStr s => (2%N, 0, s) | WBool b => (3%N, Z.b2z b, EmptyString) | WFloat f => (4%N, f, EmptyString) end)
    (fun '(k, i, s) => match k with 0 => WNull | 1 => WInt i | 2 => WStr s | 3 => WBool (Z.eqb i 1) | _ => WFloat i end%N).
#[export] Instance value_words_laws : WordsLaws ValueWire.
Proof. apply words_by_laws. by intros [| | |[]|]. Qed.

#[export] Instance change_words : Words ChangeWire :=
  words_by (fun c => (w_row c, w_weight c, w_key c, w_pages c)) (fun '(r, w, k, p) => mkChangeWire r w k p).
#[export] Instance change_words_laws : WordsLaws ChangeWire.
Proof. apply words_by_laws. by intros []. Qed.

#[export] Instance envelope_words : Words EnvelopeWire :=
  words_by (fun e => (w_actor e, w_session e, w_branch e, w_context e, w_delegation e, (w_sources e, w_intent e, w_policy e, w_signature e)))
    (fun '(a, s, b, c, d, (src, i, p, sg)) => mkEnvelopeWire a s b c d src i p sg).
#[export] Instance envelope_words_laws : WordsLaws EnvelopeWire.
Proof. apply words_by_laws. by intros []. Qed.

#[export] Instance capture_words : Words CaptureWire :=
  words_by (fun c => (w_magic c, w_tenant c, w_plane c, w_seq c, (w_on_branch c, w_envelope c, w_tables c)))
    (fun '(m, t, p, s, (b, e, ts)) => mkWire m t p s b e ts).
#[export] Instance capture_words_laws : WordsLaws CaptureWire.
Proof. apply words_by_laws. by intros []. Qed.

#[export] Instance ex_capture_codec : CaptureCodec := {|
  capture_serialize w := Ok (put w);
  capture_deserialize l := ok_or (of_words l) (tx "malformed") |}.
Lemma Ok_inj {E A} (a b : A) : @Ok E A a = Ok b -> a = b.
Proof. congruence. Qed.

#[export] Instance ex_capture_laws : CaptureCodecLaws.
Proof.
  intros w bytes _ E. change (@Ok text (list N) (put w) = Ok bytes) in E. apply Ok_inj in E as <-.
  change (ok_or (of_words (put w)) (tx "malformed") = Ok w). by rewrite of_words_put.
Qed.

(** ** A catalog and its writes *)

Definition ex_bridge_catalog : Catalog :=
  [(DERIVATION_TABLE, match derivation_schema with Ok s => s | Err _ => mkSchema [] end); ("notes"%string, mkSchema [mkField "id" Int64 false])].

Definition ex_admits : EnvelopeAuthority := fun _ _ => Ok tt.

Definition ex_note (seq page : Z) : BridgeWrite :=
  mkWrite [(page, Some [Z.to_N page; 7%N])]
    (mkDraft "acme" "memory" seq "main" (with_sources [mkSource "crm" "17"] (envelope_new "agent" "s1" "main" "note"))
       [("notes"%string, [mkChange [VInt seq] 1 [Z.to_N seq] {[page]}])])
    (100 + seq).

Lemma ex_note_ok seq page : in_u64 seq -> in_i64 seq = true -> in_u64 page -> draft_ok (wr_draft (ex_note seq page)).
Proof.
  intros Hs Hi Hp. split; [done|]. split; [repeat constructor|]. constructor; [|constructor]. constructor; [|constructor].
  split; [done|]. split; [|by repeat constructor]. intros x Hx. cbn [c_pages] in Hx. apply elem_of_singleton in Hx as ->. done.
Qed.
