(* ===== verification/StoreTheorems.v ===== *)
(** * What a durable store promises ([substrate-pager], [substrate-wal]) *)

From Stdlib Require Import ZArith NArith Lia.
From stdpp Require Import base list gmap strings.
From S2P Require Import Prelude BTree Codec Text Vfs Pager PagerCorrect Wal WalInv WalCommit Bridge Maintenance StoreCorrect StoreExample.

Section theorems.
Context `{Blake3} `{ManifestCodecLaws} `{RecordCodecLaws}.

(** The runs of a store, and the opening after them. *)
Lemma lives_reopen (cfg : StoreConfig) (lives : list (option Z * list StoreOp)) :
  validate_page_size (cfg_page_size cfg) = Ok tt ->
  no_collision cfg (root cfg :: t_manifests (run_lives cfg lives new_machine)) (lives_pages lives) ->
  let t := run_lives cfg lives new_machine in
  exists A v s ids, spec_lives lives (t_acks t) [∅] A /\ reopen cfg None (t_vfs t) = (v, Ok s) /\
    hd_error ids = Some (p_head (s_pager s)) /\ Forall2 (reads_as cfg (s_pager s) v) ids A /\
    (Forall (fun l => l.1 = None /\ Forall (op_fits cfg) l.2) lives -> t_acks t = map (fun l => length l.2) lives).
Proof.
  intros Hsize Hcol t. set (KM m := m ∈ root cfg :: t_manifests t). set (KB b := b ∈ lives_pages lives).
  assert (KM (root cfg)) as Hroot by (by left).
  destruct (run_lives_ok cfg KM KB Hcol Hroot Hsize lives new_machine _ ∅ [∅] (new_durable cfg KM KB) (new_reps cfg KB)) as [(h & pend & A & Hd & HR & Hs) Hacks].
  { apply Forall_forall. intros m Hm. by right. }
  { by apply Forall_forall. }
  destruct (reopen_ok cfg KM KB Hcol Hroot Hsize None (t_vfs t) h pend Hd) as (v & r & E & _ & Hok & Hl).
  destruct (Hok eq_refl) as [Hr _]. destruct r as [s|]; [|done]. destruct Hl as (captured & segs & Hl).
  exists A, v, s, (ids_of h). split; [done|]. split; [done|]. split; [|split; [by eapply Live_reads|done]].
  rewrite (lv_head _ _ _ _ _ _ _ _ _ Hl). pose proof (lv_hist _ _ _ _ _ _ _ _ _ Hl) as Hh. by destruct h as [|[[? ?] ?] ?].
Qed.

Lemma spec_lives_all lives A A' : spec_lives lives (map (fun l => length l.2) lives) A A' -> A' = fold_left spec_op (flat_map snd lives) A.
Proof.
  revert A. induction lives as [|[fuel ops] lives IH]; intros A; [done|]. intros (A1 & [_ HA1] & Hs). cbn [flat_map snd]. rewrite fold_left_app.
  cbn [snd] in HA1. assert (A1 = fold_left spec_op ops A) as <-; [|by apply IH]. by destruct HA1 as [->| ->]; rewrite take_ge by lia.
Qed.

(** C6: whatever bytes of its writes reach the disk, a store comes back to its
    specification.  Over any number of lifetimes, each with its operations (commits,
    checkpoints, collapses of the history) and its crash at any byte or none, the
    next opening without a fault succeeds and reads, at its head and at every commit
    of its history, the contents of a specification run in which every operation that
    was acknowledged took effect, in order, and of those that were not only the one a
    crash interrupted may have.  The hash is assumed not to collide on the manifests
    and pages of the run. *)
Theorem crash_safe_store (cfg : StoreConfig) (lives : list (option Z * list StoreOp))
  (Hsize : validate_page_size (cfg_page_size cfg) = Ok tt)
  (Hcol : no_collision cfg (root cfg :: t_manifests (run_lives cfg lives new_machine)) (lives_pages lives)) :
  let t := run_lives cfg lives new_machine in
  exists A v s ids, spec_lives lives (t_acks t) [∅] A /\ reopen cfg None (t_vfs t) = (v, Ok s) /\
    hd_error ids = Some (p_head (s_pager s)) /\ Forall2 (reads_as cfg (s_pager s) v) ids A.
Proof.
  intros t. destruct (lives_reopen cfg lives Hsize Hcol) as (A & v & s & ids & Hs & E & Hh & HA & _). by exists A, v, s, ids.
Qed.

(** C9: a store on a disk that does not fail acknowledges every operation whose
    pages fit, and the next opening reads exactly the contents the specification
    gives for all of them. *)
Theorem faultless_store (cfg : StoreConfig) (lives : list (option Z * list StoreOp))
  (Hsize : validate_page_size (cfg_page_size cfg) = Ok tt)
  (Hcol : no_collision cfg (root cfg :: t_manifests (run_lives cfg lives new_machine)) (lives_pages lives))
  (Hfit : Forall (fun l => l.1 = None /\ Forall (op_fits cfg) l.2) lives) :
  let t := run_lives cfg lives new_machine in
  t_acks t = map (fun l => length l.2) lives /\
  exists v s ids, reopen cfg None (t_vfs t) = (v, Ok s) /\ hd_error ids = Some (p_head (s_pager s)) /\
    Forall2 (reads_as cfg (s_pager s) v) ids (fold_left spec_op (flat_map snd lives) [∅]).
Proof.
  intros t. destruct (lives_reopen cfg lives Hsize Hcol) as (A & v & s & ids & Hs & E & Hh & HA & Hacks). specialize (Hacks Hfit).
  split; [done|]. rewrite Hacks in Hs. apply spec_lives_all in Hs as <-. by exists v, s, ids.
Qed.

(** C10: collecting garbage keeps, however it ends, every manifest reachable from the
    live roots, the pages of its map and every pinned page as they were; and if it
    ends well nothing else is left. *)
Theorem collection_keeps_live (live : list ManifestId) (p : Pager) (v v' : Vfs) (p' : Pager) (r : result PagerError GcStats)
  (Hst : store_ok (vfs_disk v)) (Hc : coherent p (vfs_disk v)) (E : gc live p v = (v', p', r)) :
  (forall id m pages, reaches (vfs_disk v) live id -> State (vfs_disk v) id m pages ->
     State (vfs_disk v') id m pages /\ forall k i, pages !! k = Some i -> d_pages (vfs_disk v') !! i = d_pages (vfs_disk v) !! i) /\
  (forall i, is_Some (pins p !! i) -> d_pages (vfs_disk v') !! i = d_pages (vfs_disk v) !! i) /\
  (is_ok r = true ->
     (forall id, is_Some (d_manifests (vfs_disk v') !! id) -> reaches (vfs_disk v) live id) /\
     (forall i, is_Some (d_pages (vfs_disk v') !! i) -> is_Some (pins p !! i) \/
        exists id pages k, reaches (vfs_disk v) live id /\ resolve p id v = Ok pages /\ pages !! k = Some i)).
Proof. exact (gc_keeps live p v v' p' r Hst Hc E). Qed.
End theorems.

(** ** Runs *)

Definition ex_page (b : N) : list N := [b; b].
Definition ex_lives : list (option Z * list StoreOp) :=
  [(None, [DoCommit [(0, Some (ex_page 1)); (1, Some (ex_page 2))] 5]); (Some 35, [DoCommit [(1, None)] 6; DoCollapse])].

Lemma crash_safe_store_witness :
  t_acks (run_lives ex_config ex_lives new_machine) = [1; 0]%nat /\
  exists A v s ids, spec_lives ex_lives (t_acks (run_lives ex_config ex_lives new_machine)) [∅] A /\
    reopen ex_config None (t_vfs (run_lives ex_config ex_lives new_machine)) = (v, Ok s) /\
    hd_error ids = Some (p_head (s_pager s)) /\ Forall2 (reads_as ex_config (s_pager s) v) ids A.
Proof.
  split; [vm_compute; reflexivity|].
  apply (crash_safe_store ex_config ex_lives); [reflexivity|]. apply ex_no_collision; vm_compute; reflexivity.
Defined.

Definition ex_calm : list (option Z * list StoreOp) := [(None, [DoCommit [(0, Some (ex_page 1))] 5; DoCollapse]); (None, [DoCheckpoint; DoCommit [(0, None)] 6])].

Lemma faultless_store_witness :
  t_acks (run_lives ex_config ex_calm new_machine) = [2; 2]%nat.
Proof.
  apply (faultless_store ex_config ex_calm); [reflexivity|apply ex_no_collision; vm_compute; reflexivity|].
  repeat constructor; discriminate.
Defined.

(** A store with two commits, reopened; the collection is told to keep the first. *)
Definition ex_opened : Vfs * Pager :=
  match reopen ex_config None (t_vfs (run_lives ex_config [(None, [DoCommit [(0, Some (ex_page 1))] 5; DoCommit [(0, Some (ex_page 2))] 6])] new_machine)) with
  | (v, Ok s) => (v, s_pager s)
  | (v, Err _) => (v, mkPager ∅ ∅ [] ex_config)
  end.
Definition ex_first : list ManifestId :=
  match fetch ex_opened.2 (p_head ex_opened.2) ex_opened.1 with Ok m => option_list (parent m) | Err _ => [] end.

Definition holds (id : ManifestId) (bytes : list N) : bool :=
  match manifest_decode bytes with Some m => bool_decide (bytes = manifest_encode m) && bool_decide (manifest_id m = id) | None => false end.

Lemma holds_store d : forallb (fun p => holds p.1 p.2) (map_to_list (d_manifests d)) = true -> store_ok d.
Proof.
  intros Hd id b Hb%elem_of_map_to_list%list_elem_of_In. rewrite forallb_forall in Hd. specialize (Hd _ Hb). unfold holds in Hd. simpl in Hd.
  destruct (of_words b) as [m|]; [|done]. exists m. apply andb_prop in Hd as [?%bool_decide_eq_true_1 ?%bool_decide_eq_true_1]. done.
Qed.

Lemma cache_coherent p d :
  forallb (fun q => bool_decide (manifest_id q.2 = q.1) && bool_decide (d_manifests d !! q.1 = Some (manifest_encode q.2))) (map_to_list (cache p)) = true -> coherent p d.
Proof.
  intros Hd id m Hm%elem_of_map_to_list%list_elem_of_In. rewrite forallb_forall in Hd. specialize (Hd _ Hm). simpl in Hd.
  apply andb_prop in Hd as [?%bool_decide_eq_true_1 ?%bool_decide_eq_true_1]. done.
Qed.

Definition swept_of (r : result PagerError GcStats) : option (Z * Z) :=
  match r with Ok st => Some (pages_swept st, manifests_swept st) | Err _ => None end.

Lemma collection_keeps_live_witness :
  match gc ex_first ex_opened.2 ex_opened.1 with
  | (v', _, r) =>
      swept_of r = Some (1, 1) /\ forall id, is_Some (d_manifests (vfs_disk v') !! id) -> reaches (vfs_disk ex_opened.1) ex_first id
  end.
Proof.
  assert (swept_of (gc ex_first ex_opened.2 ex_opened.1).2 = Some (1, 1)) as Hr by (vm_compute; reflexivity).
  destruct (gc ex_first ex_opened.2 ex_opened.1) as [[v' p'] r] eqn:E. cbn [snd] in Hr.
  split; [exact Hr|]. apply (collection_keeps_live ex_first ex_opened.2 ex_opened.1 v' p' r).
  - apply holds_store. vm_compute. reflexivity.
  - apply cache_coherent. vm_compute. reflexivity.
  - exact E.
  - destruct r; [reflexivity|discriminate].
Defined.

(** ** What a store does not survive *)


Definition diverged (r : result WalError DurableStore) : bool := match r with Err (ReplayDiverged _ _ _) => true | _ => false end.


(** Two transactions that begin at the same head. *)
Definition two_at_once : option (bool * bool * bool) :=
  match reopen ex_config None new_machine with
  | (v, Err _) => None
  | (v, Ok s) =>
      let t1 := begin (s_pager s) in
      let t2 := begin (s_pager s) in
      match stage [(0, Some (ex_page 1))] t1 s v with
      | (v, s, t1, _) =>
          match stage [(1, Some (ex_page 2))] t2 s v with
          | (v, s, t2, _) =>
              let '(v, s, r1) := store_commit t1 5 s v in
              let '(v, s, r2) := store_commit t2 6 s v in
              Some (is_ok r1, is_ok r2, diverged (reopen ex_config None v).2)
          end
      end
  end.

(** A commit does not ask whether the head is still the one its transaction began
    at.  Of two transactions that begin at one head both are acknowledged, and the
    store cannot be opened again: the replay derives the second commit from the first
    and finds another manifest than was logged. *)
Theorem concurrent_commits_poison_log : two_at_once = Some (true, true, true).
Proof. vm_compute. reflexivity. Qed.
