(* ===== verification/BridgeTheorems.v ===== *)
(** * What the write boundary promises ([mutiny-bridge]) *)

From Stdlib Require Import ZArith NArith Lia Sorted.
From stdpp Require Import base list gmap strings.
From S2P Require Import Prelude BTree Value ZSet Bind Codec Text LogRecord Log LogCorrect Vfs Pager PagerCorrect Wal WalInv WalCommit Envelope Bridge Maintenance StoreCorrect BridgeLog BridgeQueue StoreExample.




(** C8: a capture becomes one epoch, and only one.  Whatever seams stop the attempts
    to apply it, with a restart of the log after each, the attempt that is not
    stopped is acknowledged for the capture's sequence number; the epoch of that
    number then holds exactly the capture's batches, no epoch before it changed, and
    applying the capture once more only proves that it was applied. *)
Theorem epoch_exactly_once `{Blake3} `{ManifestCodec}
  (policy : SyncPolicy) (catalog : Catalog) (base : btree string Z) (d : Log.Disk) (log : Log) (a : ALog)
  (c : CommitCapture) (authority : EnvelopeAuthority) (env : EnvelopeId) (bs : list Batch) (fs : list FaultInjector)
  (Hlog : log_inv policy catalog base d log a) (Hpend : log_pending log = [])
  (Hprep : prepare c authority = Ok (env, bs)) (Hseq : cc_seq c = log_sealed_epoch log + 1) (Hroom : cc_seq c < 2 ^ 64)
  (Hnew : Forall (fun b => bt_get (dedup_token b) (dedup log) = None) bs)
  (Hvalid : validate_against_catalog log bs = Ok tt) (Hrecords : Forall (fun b => record_ok (batch_record b) = true) bs) :
  exists d' log' rc, attempts policy catalog c authority fs log d = (d', log', Ok rc) /\ rc_epoch rc = cc_seq c /\
    log_sealed_epoch log' = cc_seq c /\ log_epoch log' d' (cc_seq c) = Ok bs /\
    (forall n, 0 < n <= log_sealed_epoch log -> log_epoch log' d' n = log_epoch log d n) /\
    forall f, apply_commit c authority log' d' f = (f, d', log', Ok (mkReceipt (cc_commit c) (cc_seq c) env Replayed 0 (Z.of_nat (length bs)))).
Proof.
  pose proof (prepare_batches _ _ _ _ Hprep) as ->. rewrite (log_sealed_of _ _ _ _ _ _ Hlog) in *.
  assert (fresh catalog a (batches_of c env)) as Hfresh.
  { split; [|apply batches_of_tokens| | |done|apply batches_of_sorted|lia].
    - by rewrite (li_log _ _ _ _ _ _ Hlog) in Hpend.
    - by rewrite (log_dedup _ _ _ _ _ _ Hlog) in Hnew.
    - clear -Hvalid Hlog. unfold validate_against_catalog in Hvalid. rewrite (li_log _ _ _ _ _ _ Hlog) in Hvalid. cbn [log_catalog log_of] in Hvalid.
      induction (batches_of c env) as [|b l IH]; [done|]. cbn [try_for] in Hvalid. destruct (validate_rows _ _ _) as [[]|] eqn:E; [|done]. constructor; [done|by apply IH]. }
  destruct (attempts_ok policy catalog base a _ Hfresh c authority env Hprep Hseq fs log d) as (d' & log' & rc & E & Ee & Hinv).
  { left. exists 0%nat. split; [lia|]. by rewrite (fed_0 catalog a _ Hfresh). }
  exists d', log', rc. split; [done|]. split; [done|].
  rewrite (log_sealed_of _ _ _ _ _ _ Hinv), (log_epoch_refines _ _ _ _ _ _ _ Hinv), abs_sealed_with.
  split; [by rewrite Hseq|]. split; [rewrite Hseq; apply new_epoch, (li_from _ _ _ _ _ _ Hlog)|].
  split; [|intros f; by apply (apply_again policy catalog base a (batches_of c env) c authority env Hprep Hseq)].
  intros n Hn. rewrite (log_epoch_refines _ _ _ _ _ _ _ Hinv), (log_epoch_refines _ _ _ _ _ _ _ Hlog). by apply old_epoch.
Qed.

(** A capture of the first commit of the example. *)
Definition ex_capture : CommitCapture :=
  let d := wr_draft (ex_note 1 3) in
  mkCapture "acme" "memory" (manifest_id (root ex_config)) 1 (root ex_config) "main" (dr_envelope d) {[3]} (dr_tables d).
Definition ex_prepared : EnvelopeId * list Batch := match prepare ex_capture ex_admits with Ok r => r | Err _ => ([], []) end.
Definition ex_stops : list FaultInjector := [planned (mkFaultPlan AckAfterFsyncBeforeIndex 2); planned (mkFaultPlan SealAfterRecordBeforeFsync 1)].

Lemma ex_new_log : log_inv Full ex_bridge_catalog [] empty_disk (new_log Full ex_bridge_catalog) new_alog.
Proof. split; try done; constructor. Qed.

Lemma epoch_exactly_once_witness :
  exists d' log' rc, attempts Full ex_bridge_catalog ex_capture ex_admits ex_stops (new_log Full ex_bridge_catalog) empty_disk = (d', log', Ok rc) /\ rc_epoch rc = 1 /\
    log_sealed_epoch log' = 1 /\ log_epoch log' d' 1 = Ok ex_prepared.2 /\
    (forall n, 0 < n <= 0 -> log_epoch log' d' n = log_epoch (new_log Full ex_bridge_catalog) empty_disk n) /\
    forall f, apply_commit ex_capture ex_admits log' d' f = (f, d', log', Ok (mkReceipt (cc_commit ex_capture) 1 ex_prepared.1 Replayed 0 (Z.of_nat (length ex_prepared.2)))).
Proof.
  apply (epoch_exactly_once Full ex_bridge_catalog [] empty_disk (new_log Full ex_bridge_catalog) new_alog ex_capture ex_admits ex_prepared.1 ex_prepared.2 ex_stops ex_new_log).
  - reflexivity.
  - vm_compute. reflexivity.
  - vm_compute. reflexivity.
  - vm_compute. reflexivity.
  - vm_compute. repeat constructor.
  - vm_compute. reflexivity.
  - apply Forall_forall. intros b Hb. apply list_elem_of_In in Hb.
    revert b Hb. apply forallb_forall. vm_compute. reflexivity.
Defined.


